(* ===== verification/_CoqProject ===== *)
-Q . S2P
Prelude.v
Json.v
IsoDate.v
TaskQueue.v
QueueProcessor.v
AccountCapacity.v
AccountLeases.v
WorkerPool.v
KeyedChild.v
IntegrationAttempt.v
SessionCustody.v
RuntimePolicy.v
SessionRuntime.v
Programs.v
WorkerInbox.v
WorkerControl.v
WorkerInterrupt.v
FileLock.v
HistoryCache.v
AccessPaths.v
CommandPolicy.v
AccessControl.v
ArtifactRecovery.v
IntegrationPorts.v
IntegrationCases.v
IntegrationRecovery.v
IntegrationWorld.v
IntegrationGuards.v
IntegrationAdoption.v
IntegrationSound.v
StatePrograms.v
SafePolicy.v
SafeTask.v
SafeRunner.v
SafeWorld.v
SafeGuards.v
SafeGuidance.v
SafeShared.v
KeyedLaunch.v
KeyedLaunchGuards.v
Redaction.v
ProjectAdmission.v
ProjectBroker.v
