(* ===== verification/Prelude.v ===== *)
(** * Verification of the subscription runtime

    The subscription runtime runs subscription-backed AI agents for a host
    application. Its provider-neutral core queues tasks, runs them on a bounded
    pool of workers, tracks which provider accounts have capacity, leases
    accounts to workers, admits child agents under a reviewed authority and
    takes reviewed worker output to a pushed commit. Underneath, a session
    runtime keeps the provider credentials of an account fresh: it refreshes
    them under a lease, runs tasks with them, and writes every change back to
    an encrypted store. This library models that core, component by component,
    from the TypeScript under [src/], and proves the properties its clients
    rely on.

    ** Parts and files

    - [Prelude.v] (this file): what the components share. JavaScript strings as
      lists of UTF-16 code units with [trim], truthiness and [join]; numbers
      ([num]: rationals with NaN and the infinities; arithmetic is exact, so
      rounding of doubles is not modelled); [Date] with its valid range;
      [Map] in insertion order; the result type and the state-and-error monad
      [M], in which a throw keeps the mutations made before it, with a small
      Hoare logic ([triple], [keeps]); tactics and the hint database [runtime].
    - [TaskQueue.v], [Module Queue]: [src/queue-core/task-queue], the in-memory
      queue with validation, leases, idempotency keys and back-off. Each method
      ([enqueue], [claim], [complete], [release], [fail], [size], [close]) is
      the definition of that name.
    - [QueueProcessor.v], [Module Processor]: [src/queue-core/queue-processing],
      the polling loops that claim, run and settle tasks, with [start] and
      [stop]. It is a client of the class [TaskQueuePort], whose laws
      [TaskQueueLaws] the queue of [TaskQueue.v] satisfies.
    - [AccountCapacity.v], [Modules Capacity] and [CapacityStore]:
      [src/worker-core/account-capacity], severities, limit signals, the
      recovery policy and the in-memory store with its recheck claims.
    - [AccountLeases.v], [Modules Leases] and [Selection]:
      [src/worker-core/account-capacity-selection], the in-memory account
      leases, the candidate order and the selection use case. The use case is
      proved against the classes [CapacityReader] and [AccountLeaseStore] (laws
      in [AccountLeaseLaws]); the stores of the two files are the instances.
    - [WorkerPool.v], [Module Pool]: [src/worker-core/worker-pool*.ts], the
      bounded pool: slots, waiting queue, drain, capacity timer, retries,
      idempotent runs, start, prewarm, restart and dispose. It reuses the
      capacity snapshots of [AccountCapacity.v].
    - [KeyedChild.v], [Module KeyedChild]:
      [src/worker-core/project-control/domain/keyed-child-launch.ts], the ledger
      that admits children one at a time and records their dispatch intents,
      with its snapshots and restoration.
    - [IntegrationAttempt.v], [Module Integration]:
      [src/worker-core/integration/domain/integration-attempt.ts], the life
      cycle of an integration attempt and its path and file-list checks.
    - [Json.v]: JSON text of strings, numbers and arrays, UTF-8, and sorting,
      as far as keys and request hashes are built from them.
    - [SessionCustody.v], [Module Custody]: [src/store-local-file], the
      encrypted session store and the lease store with its session write
      transaction, over one disk of records whose accesses may fail or crash.
    - [FileLock.v], [Module FileLock]:
      [src/store-local-file/shared/local-file-custody-lock.ts], the lock files
      behind the provider lock, as threads of processes that make single file
      accesses, fail and exit. [SessionCustody.v] takes from it that the
      operations of a provider do not overlap.
    - [RuntimePolicy.v], [Module RuntimePolicy]:
      [src/core/application/policy.ts] and [src/core/domain/state-machines.ts],
      capability negotiation, the compiled policy, the execution plan and the
      transition tables.
    - [SessionRuntime.v], [Module Runtime]: [src/core/application/runtime.ts],
      [task-session-writeback.ts] and their helpers: refreshing, running tasks,
      repairing, writing sessions back, and settling retained tasks. Programs
      are trees of port calls, whose answers are arbitrary; the file store of
      [SessionCustody.v] can serve the session port.
    - [Programs.v]: programs as trees of calls, with exceptions, their runs as
      traces, their execution against a handler, and interleaved runs.
    - [WorkerInbox.v], [Module Inbox]: the data of [src/worker-core/control]
      and the pure part of [worker-control-service.ts]: targets, views of
      signals, deliverability, order and text of a continuation.
    - [WorkerControl.v], [Module Control]: [worker-control-service.ts] and
      [src/store-local-file/worker-control-inbox] as programs over single file
      accesses, on a disk whose appends can be torn.
    - [HistoryCache.v], [Module HistoryCache]: [validated-history-cache.ts] of
      the same package, the cache through which the store reads its files;
      [WorkerControl.v] reads the files without it.
    - [WorkerInterrupt.v], [Module Interrupts]: [active-attempt-registry.ts],
      [active-attempt-interrupt-monitor.ts] and
      [interrupt-and-continue-worker-use-case.ts] of [src/worker-core/control].
    - [AccessPaths.v], [CommandPolicy.v] and [AccessControl.v], [Modules
      AccessPaths], [Commands] and [Access]: [src/worker-core/access-control*]
      and [src/worker-core/host-command], which paths, commands, jobs, branches
      and accounts an agent of a project may use, and the launch plans made of
      these decisions. They use the path functions of [IntegrationAttempt.v].
    - [IntegrationPorts.v] and [IntegrationCases.v], [Modules Ports] and [Cases]:
      the policy, ports and use cases of [src/worker-core/integration], as
      programs over the calls of their ports, on the attempts of
      [IntegrationAttempt.v] and the decisions of [AccessControl.v];
      [IntegrationRecovery.v] ([Module Recovery]) has the two that an operator
      starts, on the permits of [ArtifactRecovery.v] and the dates of
      [IsoDate.v]. Their properties are in [IntegrationGuards.v] ([Module
      Guards], what precedes a push and a commit), [IntegrationAdoption.v]
      ([Module Adoption], what precedes an adoption and a recovery) and
      [IntegrationSound.v] ([Module Sound], what is stored and which lock is
      held); [IntegrationWorld.v] is a world to run them in.
    - [SafePolicy.v], [SafeTask.v] and [SafeRunner.v], the modules of the same
      names: [src/worker-core/safe-execution], the policy and the classifier of
      errors, the records of tasks with the journal and the lock store in memory,
      and the runner, a program of [StatePrograms.v] (programs with a state that
      [catch] and [finally] read) over the calls of its ports. Its properties are
      in [SafeGuards.v], [SafeGuidance.v] and, for runs that share a lock store,
      [SafeShared.v]; [SafeWorld.v] is a world to run it in. It reads the batches
      of [WorkerControl.v].
    - [KeyedLaunch.v], [Module KeyedLaunch]:
      [src/worker-core/project-control/application/keyed-child-launch.ts], the
      application over the ledger of [KeyedChild.v]: claims, preparation,
      dispatch, stops and deadlines, as programs of [StatePrograms.v] over the
      calls of its port; its properties are in [KeyedLaunchGuards.v].
    - [ProjectAdmission.v], [Module Admission]:
      [src/worker-core/project-control/domain/project-admission.ts], which work a
      project admits given its debt, with the operations of [AccessControl.v] and
      the path functions of [IntegrationAttempt.v].
    - [ProjectBroker.v], [Module Broker]:
      [src/worker-core/project-control/application/project-control-broker.ts], the
      operations that an agent of a project may ask for, as programs over the
      calls of their ports, guarded by the decisions of [AccessControl.v] and the
      admission of [ProjectAdmission.v].
    - [Redaction.v], [Module Redaction]: [src/core/application/redactor.ts] and
      [redacted-text-stream.ts], the redactor of secrets and tokens and the
      stream that redacts a text in chunks.

    ** How code corresponds to definitions

    Pure functions are functions; synchronous methods of a mutable object are
    actions of [M] or functions on a state record; immutable aggregates return
    the next value or throw. Asynchronous methods are cut at their awaits,
    since JavaScript runs the code in between without interruption: the state
    has a program counter for every call in progress, and a list of events
    decides which piece runs next, so a theorem over all event lists covers all
    interleavings. Clocks, random ids, hash functions and the outcomes of
    workers are arguments, oracles or events; a theorem that needs ids to be
    fresh says so as a hypothesis. Code whose point is the order of its calls
    to ports (the session runtime) is a tree of calls and continuations, judged
    by a monitor of the calls; code whose point is what is on disk (the session
    and lease stores) is a state monad with a list of faults, one per file
    access, each of which lets the access fail or the process die before or
    after it takes effect. Programs of several processes on shared files (the
    control inbox) are trees over single accesses: a trace of accesses tagged
    with the program that made them is served by a relation that says what the
    disk can do, so a theorem over all traces covers every interleaving and
    every failure. Thrown errors are values that carry the
    error code and, where the code has one, its details.

    ** What the theorems show

    - Queue: histories keep the queue well formed; a lease is exclusive until
      it expires and a superseded holder is fenced off; claims are first in,
      first out among claimable tasks; idempotency keys replay; failures retry
      with a bounded back-off or dead-letter; an invalid retry policy orphans
      the task.
    - Processor: the counters account for every task in all interleavings, the
      loop promises never reject while the queue keeps its contract, stopping
      drains, and a lost lease ends a loop.
    - Capacity: a session invalidation sticks until it is cleared, newer
      observations fence rechecks, observations never weaken a blocking record,
      reads return the most severe relevant record.
    - Leases and selection: leases are exclusive and fenced; the use case picks
      the first available candidate in rotation or a correct wait plan.
    - Pool: one run per slot while no restart fails and no start succeeds that
      adds its slots to others, exact accounting, no lost wake-up, FIFO and
      work-conserving drains, single flight per idempotency key, a bounded
      queue; and five divergences (double booking after a failed restart and
      after a second start, starvation after a failed restart, a disposed pool
      that a pending start revives, a limit that the pool lifts and the recovery
      policy does not).
    - Keyed children: the ledger invariant, dispatch at most once, idempotent
      acceptance, compare-and-swap succession and the restoration round trip.
    - Integration: what a pushed attempt guarantees, the life cycle, and the
      normal form of project-relative paths with its two gaps.
    - Custody: every operation, with faults anywhere, is a step of an abstract
      machine; writes are an authorised compare-and-swap that takes effect at
      most once per key and can be completed after a crash; live leases are
      exclusive; a committed lease is backed by a write; reads are authentic
      and inverse to writes; and a failed acquisition can leave an active
      record that names no lease.
    - Provider lock: mutual exclusion of live threads, no live lock is broken,
      stale locks are recovered; and three faults after which a live process
      holds a lock that no thread of it uses.
    - Policy: negotiation accepts exactly the compatible configurations.
    - Session runtime: whatever the ports answer or throw, leases, workspaces
      and uses follow their protocol, and what is open at the end is what the
      code cannot or does not close: without a release port, after a commit that
      the store answers to be stale, and when a call between an acquisition and
      its [try] throws. A refresh reported ready is durable; repairs are tried
      once; retained results survive and a retry settles them; a created runtime
      has the store it needs; and four divergences (a stale commit that a
      refresh ignores, a lease leaked when an event throws, a task result lost
      when a lease cannot be acquired, a transition table without the commit of
      an unchanged session).
    - Control inbox: whatever interleaves, fails or is torn, a signal whose
      claim is kept goes to one continuation, and a settled one does not come
      back; in an inbox that is used alone, without faults or torn lines, a
      batch can be taken and given back, or confirmed for good;
      enqueueing is idempotent; and nine divergences, each with a run that
      shows it (a supersession lost on retry, a release that removes the claim
      of another attempt, records or receipts lost after a torn line, and
      others).
    - Inbox cache: a cached read whose file does not change meanwhile is the
      read of the file, as long as every change of a file gives it a signature
      that it did not have before; without that a run shows a stale record. The
      cache stays within its bounds.
    - Access control: the service allows exactly what a specification in terms
      of segments of paths, the fields of scopes and boundaries grants; a launch
      plan is only made when the adapter has the capabilities that the boundary
      needs, its roots are those of the scope, and it covers what the service
      allows. The
      search of command lines for scans of the file system ends, and reads a
      line of quoted words as its words; denied commands are refused. Six
      divergences (a forced push that the documentation denies, real paths that
      are not compared with denied roots, command lines that evade the list of
      executables, and others).
    - Integration use cases: whatever the ports answer, what precedes a push, a
      commit, the adoption of a published commit (each field of its attestation
      included) and the recovery of an artifact, that only sound attempts are stored, and that workspaces
      are changed under their lock; and two races (an attempt that is applied
      after it was rejected, one that is pushed and rejected).
    - Safe execution: whatever the ports answer or throw, and however the runs
      interleave, a run changes its workspace and the journal only under the lock
      of the workspace, which no other run holds while its process lives; what it
      reports is in the journal; the number of its attempts and what may follow a
      failure; guidance is confirmed after a worker started or its release tried;
      the journal only grows. Four divergences (a lock given back before a mark
      settles, finished work that is run again, external effects that are
      repeated, an age of locks that has no influence).
    - Keyed launches: whatever the ports answer or throw, the ledger is used
      under coordination and what takes long is done outside of it; however
      launches, stops and others interleave, a child is dispatched at most once,
      by the launch that claimed it, after its workspace was prepared.
    - Admission: the evaluation admits exactly what a specification in terms of
      the state of the snapshot, the role and the segments of paths admits.
    - Broker: whatever the ports answer or throw, an operation changes the project
      at most once, as the policy grants and right after a gate admitted it.
    - Redaction: when the secrets can be told apart, streaming a text in any
      chunks masks the secrets of the whole text, and none is left. Three
      divergences of the stream from the redactor, each with a run that shows it
      (overlapping secrets, a secret that ends in the name of a token, a token
      right after a secret).
    - Interrupts: an interruption reaches an attempt that it addresses; the
      monitor interrupts once per signal, only what both the signal and the
      monitor address, and its loop ends after a stop; a new message reaches
      the next continuation, and a repeated one can be lost.

    ** Fuel and bounds

    There are two kinds of fuel. That of the drain loop of the pool, whose
    recursion is on the waiting queue: [drainQueue] passes the length of the
    queue, and a theorem shows that this is enough, since with it the loop ends
    because the queue is empty or no slot is runnable. And that of the search of
    command lines, which enters the lines inside a line: it is the length of the
    line, and a theorem shows that more gives the same answer. The attempts of a
    safe execution are counted down from the numbers the loop of the code runs
    through ([attempts_from]), so its end is the loop's end. All other
    definitions are structural. Generations of the ledger are bounded by
    [Number.MAX_SAFE_INTEGER] as in the code; times by the range of [Date].

    ** Not modelled, and what comes next

    Provider adapters, host integration, the other file-system stores and
    network services are I/O around this core. Of the core itself, the ledgers
    of consumed output, the adoption of an authority tuple, run-event projections
    and storage policies are not modelled. Within modelled files, promise
    plumbing on the caller side ([waitForIdempotentRun], the promises that
    share one finalization between concurrent callers), the timers behind a
    start timeout, [drain] of keyed launches, diagnostic summaries, event
    metadata, the JSON text of ledger snapshots and of stored records are left out. *)

From stdpp Require Import base numbers list option sets.
From stdpp Require Import strings.
From Stdlib Require Import QArith Qround Lqa.

#[local] Open Scope Z_scope.

(** ** Strings

    A JavaScript string is a sequence of 16-bit code units. [jsstring] is the
    list of those units; [js] turns an ASCII literal into one, so that the
    string constants of the sources can be written down. *)

Abbreviation jsstring := (list N).

Fixpoint js (s : string) : jsstring :=
  match s with
  | EmptyString => []
  | String a s' => Ascii.N_of_ascii a :: js s'
  end.

Arguments js : simpl never.

(** The code units removed by [String.prototype.trim]: WhiteSpace and
    LineTerminator of ECMA-262. *)
Definition js_space (c : N) : bool :=
  bool_decide (c ∈ [9; 10; 11; 12; 13; 32; 160; 5760; 8192; 8193; 8194; 8195;
    8196; 8197; 8198; 8199; 8200; 8201; 8202; 8232; 8233; 8239; 8287; 12288;
    65279]%N).

Fixpoint trim_start (s : jsstring) : jsstring :=
  match s with
  | [] => []
  | c :: s' => if js_space c then trim_start s' else s
  end.

Definition trim_end (s : jsstring) : jsstring := rev (trim_start (rev s)).

Definition js_trim (s : jsstring) : jsstring := trim_end (trim_start s).

(** Truthiness of a string: the empty string is falsy. *)
Definition truthy (s : jsstring) : bool :=
  match s with [] => false | _ => true end.

(** The string of an optional value when it is present and truthy. *)
Definition truthy_opt (v : option jsstring) : option jsstring :=
  match v with Some s => if truthy s then Some s else None | None => None end.

(** [value?.trim()] followed by [normalized ? normalized : null], the idiom
    the sources repeat under several names. *)
Definition optional_trimmed (v : option jsstring) : option jsstring :=
  match v with
  | Some s => if truthy (js_trim s) then Some (js_trim s) else None
  | None => None
  end.

Fixpoint starts_with (p s : jsstring) : bool :=
  match p, s with
  | [], _ => true
  | a :: p', b :: s' => N.eqb a b && starts_with p' s'
  | _ :: _, [] => false
  end.

Definition js_slice0 (n : nat) (s : jsstring) : jsstring := take n s.

Definition js_eqb (a b : jsstring) : bool := bool_decide (a = b).

Fixpoint js_join (sep : jsstring) (l : list jsstring) : jsstring :=
  match l with
  | [] => []
  | [x] => x
  | x :: l' => x ++ sep ++ js_join sep l'
  end.

Lemma trim_start_idem s : trim_start (trim_start s) = trim_start s.
Proof. induction s as [|c s IH]; simpl; [done|]. destruct (js_space c) eqn:E; [done|]. simpl. by rewrite E. Qed.

Lemma trim_start_suffix s : ∃ p, s = p ++ trim_start s.
Proof.
  induction s as [|c s [p Hp]]; simpl; [by exists []|].
  destruct (js_space c); [exists (c :: p); simpl; by f_equal|by exists []].
Qed.

Lemma trim_end_prefix s : ∃ p, s = trim_end s ++ p.
Proof.
  unfold trim_end. destruct (trim_start_suffix (rev s)) as [p Hp].
  exists (rev p). rewrite <- rev_app_distr, <- Hp. by rewrite rev_involutive.
Qed.

Lemma trim_start_head c s s' : trim_start s = c :: s' → js_space c = false.
Proof. induction s as [|d s IH]; simpl; [done|]. destruct (js_space d) eqn:E; [auto|congruence]. Qed.

(** Trimming the end of a string that starts with a non-blank unit keeps that
    unit, so a trimmed string stays fixed under a second trim. *)
Lemma trim_start_trim_end c s : js_space c = false →
  trim_start (trim_end (c :: s)) = trim_end (c :: s).
Proof.
  intros Hc. destruct (trim_end_prefix (c :: s)) as [p Hp].
  destruct (trim_end (c :: s)) as [|d t] eqn:E; [done|].
  simpl in Hp. injection Hp as -> _. simpl. by rewrite Hc.
Qed.

Lemma trim_end_idem s : trim_end (trim_end s) = trim_end s.
Proof. unfold trim_end. by rewrite rev_involutive, trim_start_idem. Qed.

Lemma js_trim_idem s : js_trim (js_trim s) = js_trim s.
Proof.
  unfold js_trim. destruct (trim_start s) as [|c t] eqn:E; [done|].
  rewrite trim_start_trim_end by eauto using trim_start_head.
  apply trim_end_idem.
Qed.

Lemma optional_trimmed_Some v s :
  optional_trimmed v = Some s → truthy s = true ∧ js_trim s = s.
Proof.
  destruct v as [x|]; simpl; [|done]. destruct (truthy (js_trim x)) eqn:E; [|done].
  intros [= <-]. by rewrite js_trim_idem.
Qed.

Lemma js_trim_elem c s : c ∈ js_trim s → c ∈ s.
Proof.
  unfold js_trim. intros H. destruct (trim_start_suffix s) as [p ->].
  destruct (trim_end_prefix (trim_start s)) as [q Hq]. rewrite Hq. set_solver.
Qed.

Lemma optional_trimmed_elem c v s : optional_trimmed (Some v) = Some s → c ∈ s → c ∈ v.
Proof. simpl. destruct (truthy _); [|done]. intros [= <-]. apply js_trim_elem. Qed.

Lemma optional_trimmed_idem v :
  optional_trimmed (optional_trimmed v) = optional_trimmed v.
Proof.
  destruct (optional_trimmed v) as [s|] eqn:E; [|done].
  apply optional_trimmed_Some in E as [E1 E2]. simpl. by rewrite E2, E1.
Qed.

Lemma js_eqb_true a b : js_eqb a b = true ↔ a = b.
Proof. apply bool_decide_eq_true. Qed.

Lemma js_eqb_false a b : js_eqb a b = false ↔ a ≠ b.
Proof. apply bool_decide_eq_false. Qed.

Lemma js_eqb_refl a : js_eqb a a = true.
Proof. by apply js_eqb_true. Qed.

Lemma js_inj a b : js a = js b → a = b.
Proof.
  revert b. induction a as [|c a IH]; intros [|d b]; cbn [js]; try done. intros [= Hc Hs].
  rewrite (IH _ Hs). f_equal. by rewrite <- (Ascii.ascii_N_embedding c), Hc, Ascii.ascii_N_embedding.
Qed.

Lemma starts_with_app p s : starts_with p (p ++ s) = true.
Proof. induction p as [|c p IH]; simpl; [done|]. by rewrite N.eqb_refl, IH. Qed.

(** ** Numbers

    [num] is a JavaScript number: a finite value, taken as an exact rational,
    or one of the three special values. The arithmetic is that of the reals
    (the rounding of binary64 is not modelled), with the special values
    propagated as IEEE 754 does. *)

Inductive num : Set := Fin (q : Q) | NaN | PInf | NInf.

Definition num_of_Z (z : Z) : num := Fin (inject_Z z).

Definition is_finite (x : num) : bool :=
  match x with Fin _ => true | _ => false end.

Definition is_integer (x : num) : bool :=
  match x with Fin q => Pos.eqb (Qden (Qred q)) 1 | _ => false end.

(** The integer value of a number that passed [is_integer]. *)
Definition num_floor (x : num) : Z :=
  match x with Fin q => Qfloor q | _ => 0 end.

(** [a < b], [a <= b]: false as soon as one side is NaN. *)
Definition num_ltb (a b : num) : bool :=
  match a, b with
  | NaN, _ | _, NaN => false
  | Fin p, Fin q => negb (Qle_bool q p)
  | PInf, _ | _, NInf => false
  | _, _ => true
  end.

Definition num_leb (a b : num) : bool :=
  match a, b with
  | NaN, _ | _, NaN => false
  | Fin p, Fin q => Qle_bool p q
  | NInf, _ | _, PInf => true
  | _, _ => false
  end.

Definition num_add (a b : num) : num :=
  match a, b with
  | Fin p, Fin q => Fin (p + q)
  | NaN, _ | _, NaN => NaN
  | PInf, NInf | NInf, PInf => NaN
  | PInf, _ | _, PInf => PInf
  | NInf, _ | _, NInf => NInf
  end.

Definition num_mul (a b : num) : num :=
  match a, b with
  | Fin p, Fin q => Fin (p * q)
  | NaN, _ | _, NaN => NaN
  | Fin p, PInf | PInf, Fin p =>
      if Qeq_bool p 0 then NaN else if Qle_bool 0 p then PInf else NInf
  | Fin p, NInf | NInf, Fin p =>
      if Qeq_bool p 0 then NaN else if Qle_bool 0 p then NInf else PInf
  | PInf, PInf | NInf, NInf => PInf
  | PInf, NInf | NInf, PInf => NInf
  end.

(** [Math.min] and [Math.max]: NaN if an argument is NaN. *)
Definition num_min (a b : num) : num :=
  match a, b with
  | NaN, _ | _, NaN => NaN
  | _, _ => if num_leb a b then a else b
  end.

Definition num_max (a b : num) : num :=
  match a, b with
  | NaN, _ | _, NaN => NaN
  | _, _ => if num_leb a b then b else a
  end.

(** [Math.round]: the nearest integer, halves upwards. *)
Definition num_round (a : num) : num :=
  match a with
  | Fin q => num_of_Z (Qfloor (q + (1 # 2)))
  | _ => a
  end.

(** [2 ** n] for a non-negative integer [n]: infinity beyond binary64. *)
Definition num_pow2 (n : Z) : num :=
  if n <=? 1023 then num_of_Z (2 ^ n) else PInf.

Lemma num_leb_Z a b : num_leb (num_of_Z a) (num_of_Z b) = (a <=? b).
Proof. simpl. unfold Qle_bool. simpl. by rewrite !Z.mul_1_r. Qed.

Lemma num_ltb_Z a b : num_ltb (num_of_Z a) (num_of_Z b) = (a <? b).
Proof. simpl. unfold Qle_bool. simpl. rewrite !Z.mul_1_r. by rewrite Z.ltb_antisym. Qed.

Lemma num_add_Z a b : num_add (num_of_Z a) (num_of_Z b) = num_of_Z (a + b).
Proof. simpl. unfold num_of_Z, inject_Z, Qplus. simpl. by rewrite !Z.mul_1_r. Qed.

Lemma num_mul_Z a b : num_mul (num_of_Z a) (num_of_Z b) = num_of_Z (a * b).
Proof. done. Qed.

Lemma num_min_Z a b : num_min (num_of_Z a) (num_of_Z b) = num_of_Z (Z.min a b).
Proof.
  unfold num_min. change (num_of_Z a) with (Fin (inject_Z a)). cbn iota.
  pose proof (num_leb_Z a b) as H. unfold num_of_Z in H. unfold num_of_Z. rewrite H.
  destruct (Z.leb_spec a b); do 2 f_equal; lia.
Qed.

Lemma num_max_Z a b : num_max (num_of_Z a) (num_of_Z b) = num_of_Z (Z.max a b).
Proof.
  unfold num_max. change (num_of_Z a) with (Fin (inject_Z a)). cbn iota.
  pose proof (num_leb_Z a b) as H. unfold num_of_Z in H. unfold num_of_Z. rewrite H.
  destruct (Z.leb_spec a b); do 2 f_equal; lia.
Qed.

Lemma is_integer_Z z : is_integer (num_of_Z z) = true.
Proof. unfold is_integer, num_of_Z. rewrite Pos.eqb_eq. unfold Qred, inject_Z. simpl.
  pose proof (Z.ggcd_gcd z 1) as Hg. pose proof (Z.ggcd_correct_divisors z 1) as Hd.
  destruct (Z.ggcd z 1) as [g [r s]]. simpl in *. rewrite Z.gcd_1_r in Hg. subst g.
  destruct Hd as [_ Hd]. by rewrite Z.mul_1_l in Hd; subst s. Qed.

Lemma num_floor_Z z : num_floor (num_of_Z z) = z.
Proof. simpl. apply Qfloor_Z. Qed.

Lemma num_ltb_Fin p q : num_ltb (Fin p) (Fin q) = false ↔ (q <= p)%Q.
Proof. unfold num_ltb. by rewrite negb_false_iff, Qle_bool_iff. Qed.

Lemma num_leb_Fin p q : num_leb (Fin p) (Fin q) = true ↔ (p <= q)%Q.
Proof. unfold num_leb. by rewrite Qle_bool_iff. Qed.

Lemma num_leb_Fin_false p q : num_leb (Fin p) (Fin q) = false ↔ (q < p)%Q.
Proof. rewrite <- not_true_iff_false, num_leb_Fin. split; intros; lra. Qed.

Lemma is_finite_inv x : is_finite x = true → ∃ q, x = Fin q.
Proof. destruct x; try done. eauto. Qed.

(** The floor of a finite number at least one is at least one. *)
Lemma num_floor_ge_1 x :
  is_integer x = true → num_ltb x (num_of_Z 1) = false → 1 ≤ num_floor x.
Proof.
  destruct x as [q| | |]; try done. intros _ H%num_ltb_Fin. simpl.
  change 1 with (Qfloor (inject_Z 1)). by apply Qfloor_resp_le.
Qed.

#[global] Arguments num_of_Z : simpl never.
#[global] Arguments num_leb : simpl never.
#[global] Arguments num_ltb : simpl never.
#[global] Arguments num_add : simpl never.

(** ** Dates

    A [Date] holds a time value in milliseconds, or is the Invalid Date. The
    constructor truncates and clips as [TimeClip] of ECMA-262 does. *)

Inductive date : Set := At (ms : Z) | InvalidDate.

Definition max_time : Z := 8640000000000000.

Definition getTime (d : date) : num :=
  match d with At ms => num_of_Z ms | InvalidDate => NaN end.

Definition q_trunc (q : Q) : Z := if Qle_bool 0 q then Qfloor q else Qceiling q.

Definition new_Date (x : num) : date :=
  match x with
  | Fin q =>
      if Qle_bool q (inject_Z max_time) && Qle_bool (inject_Z (- max_time)) q
      then At (q_trunc q) else InvalidDate
  | _ => InvalidDate
  end.

Definition date_valid (d : date) : bool :=
  match d with At _ => true | InvalidDate => false end.

(** Relational operators on dates compare the time values. *)
Definition date_leb (a b : date) : bool :=
  match a, b with At x, At y => x <=? y | _, _ => false end.

Definition date_ltb (a b : date) : bool :=
  match a, b with At x, At y => x <? y | _, _ => false end.

(** [new Date(d.getTime() + ms)]. *)
Definition date_plus (d : date) (ms : num) : date := new_Date (num_add (getTime d) ms).

Lemma new_Date_Z z : new_Date (num_of_Z z) =
  if (z <=? max_time) && (- max_time <=? z) then At z else InvalidDate.
Proof.
  unfold num_of_Z, new_Date.
  pose proof (num_leb_Z z max_time) as H1. pose proof (num_leb_Z (- max_time) z) as H2.
  unfold num_leb, num_of_Z in H1, H2. rewrite H1, H2.
  destruct (_ && _); [|done]. f_equal. unfold q_trunc.
  destruct (Qle_bool 0 (inject_Z z)); [apply Qfloor_Z|apply Qceiling_Z].
Qed.

Lemma date_plus_Z a b : date_plus (At a) (num_of_Z b) =
  if (a + b <=? max_time) && (- max_time <=? a + b) then At (a + b) else InvalidDate.
Proof. unfold date_plus, getTime. by rewrite num_add_Z, new_Date_Z. Qed.

Lemma date_leb_ltb_trans a b c :
  date_leb a b = true → date_ltb b c = true → date_ltb a c = true.
Proof. destruct a, b, c; simpl; try done. rewrite Z.leb_le, !Z.ltb_lt. lia. Qed.

Lemma date_leb_not_ltb a b : date_leb a b = true → date_ltb b a = false.
Proof. destruct a, b; simpl; try done. rewrite Z.leb_le, Z.ltb_ge. lia. Qed.

(** A constructed date is within the range of time values. *)
Lemma new_Date_bounds x z : new_Date x = At z → - max_time ≤ z ≤ max_time.
Proof.
  destruct x as [q| | |]; simpl; try done. destruct (_ && _) eqn:E; [|done]. intros [= <-].
  apply andb_true_iff in E as [E1%Qle_bool_iff E2%Qle_bool_iff]. unfold q_trunc.
  destruct (Qle_bool 0 q).
  - apply Qfloor_resp_le in E1, E2. by rewrite !Qfloor_Z in *.
  - apply Qceiling_resp_le in E1, E2. by rewrite !Qceiling_Z in *.
Qed.

(** Rounding towards zero does not cross an integer bound. *)
Lemma new_Date_ge q e :
  (inject_Z e <= q)%Q → (q <= inject_Z max_time)%Q → - max_time ≤ e →
  ∃ z, new_Date (Fin q) = At z ∧ e ≤ z.
Proof.
  intros H1 H2 H3. exists (q_trunc q). simpl.
  rewrite (proj2 (Qle_bool_iff q _)) by done. rewrite (proj2 (Qle_bool_iff _ q)).
  - split; [done|]. unfold q_trunc. destruct (Qle_bool 0 q).
    + apply Qfloor_resp_le in H1. by rewrite Qfloor_Z in H1.
    + apply Qceiling_resp_le in H1. by rewrite Qceiling_Z in H1.
  - apply (Qle_trans _ (inject_Z e)); [by rewrite <- Zle_Qle|done].
Qed.

(** The later of a date and a time that is not after the last date. *)
Lemma new_Date_max e x :
  - max_time ≤ e ≤ max_time → num_leb x (num_of_Z max_time) = true →
  ∃ z, new_Date (num_max (num_of_Z e) x) = At z ∧ e ≤ z.
Proof.
  intros He Hx. destruct x as [q| | |]; try done.
  2:{ exists e. change (num_max (num_of_Z e) NInf) with (num_of_Z e). rewrite new_Date_Z.
      by rewrite !(proj2 (Z.leb_le _ _)) by lia. }
  change (num_of_Z max_time) with (Fin (inject_Z max_time)) in Hx. apply num_leb_Fin in Hx.
  unfold num_max. change (num_of_Z e) with (Fin (inject_Z e)). cbn iota.
  destruct (num_leb (Fin (inject_Z e)) (Fin q)) eqn:E.
  - apply num_leb_Fin in E. apply new_Date_ge; [done|done|lia].
  - apply new_Date_ge; [lra| |lia]. rewrite <- Zle_Qle. lia.
Qed.

#[global] Instance date_eq_dec : EqDecision date.
Proof. solve_decision. Defined.

#[global] Opaque max_time.

(** ** Errors and state

    [result E A] is the outcome of a call: a value or a thrown error. [M S E]
    threads the mutable state of an object through calls that can throw; as in
    JavaScript, a throw keeps the mutations made before it. *)

Inductive result (E A : Type) : Type :=
| Ok (a : A)
| Throw (e : E).

Arguments Ok {E A} a.
Arguments Throw {E A} e.

Definition is_Ok {E A} (r : result E A) : bool :=
  match r with Ok _ => true | Throw _ => false end.

#[global] Instance result_ret E : MRet (result E) := λ A a, Ok a.
#[global] Instance result_bind E : MBind (result E) := λ A B f r,
  match r with Ok a => f a | Throw e => Throw e end.

Definition M (S E A : Type) : Type := S → S * result E A.

#[global] Instance M_ret S E : MRet (M S E) := λ A a s, (s, Ok a).
#[global] Instance M_bind S E : MBind (M S E) := λ A B f m s,
  match m s with
  | (s', Ok a) => f a s'
  | (s', Throw e) => (s', Throw e)
  end.

Definition throw {S E A} (e : E) : M S E A := λ s, (s, Throw e).
Definition get {S E} : M S E S := λ s, (s, Ok s).
Definition modify {S E} (f : S → S) : M S E unit := λ s, (f s, Ok tt).

(** A call of a validation function that does not touch the state. *)
Definition lift {S E A} (r : result E A) : M S E A := λ s, (s, r).

Definition guard {E} (b : bool) (e : E) : result E unit :=
  if b then Ok tt else Throw e.

Lemma bind_Ok_inv {S E A B} (m : M S E A) (k : A → M S E B) s s' b :
  (m ≫= k) s = (s', Ok b) → ∃ s1 a, m s = (s1, Ok a) ∧ k a s1 = (s', Ok b).
Proof.
  unfold mbind, M_bind. destruct (m s) as [s1 [a|e]] eqn:E1; [eauto|congruence].
Qed.

Lemma guard_Ok {E} b (e : E) u : guard b e = Ok u ↔ b = true.
Proof. destruct b, u; simpl; split; congruence. Qed.

(** Sequenced checks succeed when each one does. *)
Lemma seq_Ok {E B} (m : result E unit) (k : result E B) b :
  (m ;; k) = Ok b ↔ m = Ok tt ∧ k = Ok b.
Proof. unfold mbind, result_bind. destruct m as [[]|e]; naive_solver. Qed.

Lemma bind_Ok {E A B} (m : result E A) (k : A → result E B) b :
  (m ≫= k) = Ok b ↔ ∃ a, m = Ok a ∧ k a = Ok b.
Proof. unfold mbind, result_bind. destruct m; naive_solver. Qed.

(** A triple for calls: from a state in [P], a return satisfies [Q] and a
    throw leaves a state in [X]. *)
Definition triple {S E A} (P : S → Prop) (m : M S E A) (Q : A → S → Prop) (X : E → S → Prop) : Prop :=
  ∀ s, P s → match m s with (s', Ok a) => Q a s' | (s', Throw e) => X e s' end.

Section triples.
Context {S E : Type}.
Implicit Types (P I : S → Prop).

Lemma triple_ret {A} P (a : A) (Q : A → S → Prop) (X : E → S → Prop) :
  (∀ s, P s → Q a s) → triple P (mret a) Q X.
Proof. by intros H s Hs; apply H. Qed.

Lemma triple_throw {A} P (e : E) (Q : A → S → Prop) (X : E → S → Prop) :
  (∀ s, P s → X e s) → triple P (throw e) Q X.
Proof. by intros H s Hs; apply H. Qed.

Lemma triple_modify P f (Q : unit → S → Prop) (X : E → S → Prop) :
  (∀ s, P s → Q tt (f s)) → triple P (modify f) Q X.
Proof. by intros H s Hs; apply H. Qed.

Lemma triple_bind {A B} P (m : M S E A) (k : A → M S E B) (R : A → S → Prop) Q X :
  triple P m R X → (∀ a, triple (R a) (k a) Q X) → triple P (m ≫= k) Q X.
Proof.
  intros Hm Hk s Hs. unfold mbind, M_bind. specialize (Hm s Hs).
  destruct (m s) as [s' [a|e]]; [by apply Hk|done].
Qed.

(** Reading the state gives the rest of the call a concrete state. *)
Lemma triple_get {B} P (k : S → M S E B) Q X :
  (∀ s0, P s0 → triple (λ s, s = s0) (k s0) Q X) → triple P (get ≫= k) Q X.
Proof. intros H s Hs. unfold mbind, M_bind, get. by apply (H s Hs s). Qed.

Lemma triple_weaken {A} P P' (m : M S E A) (Q Q' : A → S → Prop) (X X' : E → S → Prop) :
  triple P' m Q' X' → (∀ s, P s → P' s) → (∀ a s, Q' a s → Q a s) → (∀ e s, X' e s → X e s) →
  triple P m Q X.
Proof.
  intros H HP HQ HX s Hs. specialize (H s (HP s Hs)).
  destruct (m s) as [s' [a|e]]; [by apply HQ|by apply HX].
Qed.

Lemma triple_state {A} (s0 : S) (m : M S E A) Q X :
  match m s0 with (s', Ok a) => Q a s' | (s', Throw e) => X e s' end →
  triple (λ s, s = s0) m Q X.
Proof. by intros H s ->. Qed.

(** A call that keeps an invariant whether it returns or throws. *)
Definition keeps {A} I (m : M S E A) : Prop := triple I m (λ _, I) (λ _, I).

Lemma keeps_elim {A} I (m : M S E A) s : keeps I m → I s → I (m s).1.
Proof. intros H Hs. specialize (H s Hs). by destruct (m s) as [s' [a|e]]. Qed.

Lemma keeps_ret {A} I (a : A) : keeps I (mret a).
Proof. by apply triple_ret. Qed.

Lemma keeps_throw {A} I e : keeps I (throw e : M S E A).
Proof. by apply triple_throw. Qed.

Lemma keeps_modify I f : (∀ s, I s → I (f s)) → keeps I (modify f).
Proof. intros H. by apply triple_modify. Qed.

Lemma keeps_bind {A B} I (m : M S E A) (k : A → M S E B) :
  keeps I m → (∀ a, keeps I (k a)) → keeps I (m ≫= k).
Proof. intros Hm Hk. by eapply triple_bind. Qed.

Lemma keeps_get I : keeps I get.
Proof. by intros s Hs. Qed.
End triples.

(** [Array.prototype.forEach] with a callback that can throw. *)
Fixpoint for_each {E A} (f : A → result E unit) (l : list A) : result E unit :=
  match l with
  | [] => Ok tt
  | x :: l' => f x ;; for_each f l'
  end.

Lemma for_each_Ok {E A} (f : A → result E unit) l :
  for_each f l = Ok tt ↔ Forall (λ x, f x = Ok tt) l.
Proof.
  induction l as [|x l IH]; simpl; [split; eauto using Forall_nil_2|].
  rewrite Forall_cons, <- IH. unfold mbind, result_bind.
  destruct (f x) as [[]|e]; split; [auto|tauto|done|by intros []].
Qed.

(** ** Maps

    A JavaScript [Map] iterates in insertion order: [set] on a present key
    keeps the position of the key, on an absent key appends. *)

Section jmap.
Context {K V : Type} `{EqDecision K}.

Fixpoint map_get (m : list (K * V)) (k : K) : option V :=
  match m with
  | [] => None
  | (k', v) :: m' => if decide (k' = k) then Some v else map_get m' k
  end.

Fixpoint map_set (m : list (K * V)) (k : K) (v : V) : list (K * V) :=
  match m with
  | [] => [(k, v)]
  | (k', v') :: m' => if decide (k' = k) then (k', v) :: m' else (k', v') :: map_set m' k v
  end.

Fixpoint map_delete (m : list (K * V)) (k : K) : list (K * V) :=
  match m with
  | [] => []
  | (k', v') :: m' => if decide (k' = k) then m' else (k', v') :: map_delete m' k
  end.

Definition map_has (m : list (K * V)) (k : K) : bool :=
  match map_get m k with Some _ => true | None => false end.

Implicit Types (m : list (K * V)) (k : K) (v : V).

Lemma map_get_set_eq m k v : map_get (map_set m k v) k = Some v.
Proof. induction m as [|[a b] m IH]; simpl; repeat (case_decide; simpl); congruence. Qed.

Lemma map_get_set_ne m k k' v : k ≠ k' → map_get (map_set m k v) k' = map_get m k'.
Proof. intros. induction m as [|[a b] m IH]; simpl; repeat (case_decide; simpl); congruence. Qed.

Lemma map_get_set m k k' v :
  map_get (map_set m k v) k' = if decide (k = k') then Some v else map_get m k'.
Proof. case_decide; subst; auto using map_get_set_eq, map_get_set_ne. Qed.

Lemma map_set_set m k v w : map_set (map_set m k v) k w = map_set m k w.
Proof. induction m as [|[a b] m IH]; simpl; repeat (case_decide; simpl); congruence. Qed.

Lemma map_get_delete_ne m k k' : k ≠ k' → map_get (map_delete m k) k' = map_get m k'.
Proof. intros. induction m as [|[a b] m IH]; simpl; repeat (case_decide; simpl); congruence. Qed.

Lemma map_get_None m k : map_get m k = None ↔ k ∉ m.*1.
Proof.
  induction m as [|[a b] m IH]; simpl; [split; [intros _ H; inversion H|done]|].
  rewrite not_elem_of_cons. case_decide; [subst; split; [done|tauto]|].
  rewrite IH. split; [intros; split; [congruence|done]|tauto].
Qed.

Lemma map_get_delete_eq m k : NoDup m.*1 → map_get (map_delete m k) k = None.
Proof.
  induction m as [|[a b] m IH]; simpl; [done|]. rewrite NoDup_cons. intros [H1 H2].
  case_decide; [subst; by apply map_get_None|]. simpl. by rewrite decide_False, IH.
Qed.

Lemma map_get_delete_sub m k k' v :
  NoDup m.*1 → map_get (map_delete m k) k' = Some v → map_get m k' = Some v.
Proof.
  intros Hn. destruct (decide (k = k')) as [->|Hne]; [by rewrite map_get_delete_eq|].
  by rewrite map_get_delete_ne.
Qed.

Lemma map_get_Some_in m k v : map_get m k = Some v → (k, v) ∈ m.
Proof.
  induction m as [|[a b] m IH]; simpl; [done|]. case_decide; [|set_solver].
  intros [= ->]. subst. left.
Qed.

Lemma map_in_get m k v : NoDup m.*1 → (k, v) ∈ m → map_get m k = Some v.
Proof.
  induction m as [|[a b] m IH]; simpl; [intros _ H; inversion H|].
  rewrite NoDup_cons. intros [H1 H2] Hin. apply elem_of_cons in Hin as [[= <- <-]|Hin].
  - by rewrite decide_True.
  - rewrite decide_False; [auto|]. intros ->. apply H1. apply list_elem_of_fmap. by exists (k, v).
Qed.

Lemma map_set_keys m k v :
  (map_set m k v).*1 = if decide (k ∈ m.*1) then m.*1 else m.*1 ++ [k].
Proof.
  induction m as [|[a b] m IH]; [by rewrite decide_False by set_solver|].
  rewrite fmap_cons. cbn [map_set fst].
  destruct (decide (a = k)) as [->|Hne]; rewrite fmap_cons; cbn [fst].
  - by rewrite decide_True by set_solver.
  - rewrite IH. destruct (decide (k ∈ m.*1)).
    + by rewrite decide_True by set_solver.
    + by rewrite decide_False by set_solver.
Qed.

Lemma map_set_NoDup m k v : NoDup m.*1 → NoDup (map_set m k v).*1.
Proof.
  rewrite map_set_keys. case_decide as H; [done|]. intros HN.
  apply NoDup_app. split; [done|]. split; [|apply NoDup_singleton].
  intros x Hx ->%list_elem_of_singleton. done.
Qed.

(** Setting a present key changes the value in place. *)
Lemma map_set_middle l1 l2 k v w : k ∉ l1.*1 →
  map_set (l1 ++ (k, v) :: l2) k w = l1 ++ (k, w) :: l2.
Proof.
  induction l1 as [|[a b] l1 IH]; simpl; [by rewrite decide_True|].
  rewrite not_elem_of_cons. intros [H1 H2]. rewrite decide_False by congruence. by rewrite IH.
Qed.

Lemma map_delete_keys_subset m k x : x ∈ (map_delete m k).*1 → x ∈ m.*1.
Proof. induction m as [|[a b] m IH]; simpl; [done|]. case_decide; simpl; set_solver. Qed.

Lemma map_delete_NoDup m k : NoDup m.*1 → NoDup (map_delete m k).*1.
Proof.
  induction m as [|[a b] m IH]; simpl; [done|]. rewrite NoDup_cons. intros [H1 H2].
  case_decide; simpl; [done|]. apply NoDup_cons. split; [|auto].
  intros ?%map_delete_keys_subset. done.
Qed.

Lemma map_set_present m k v w : map_get m k = Some w → (map_set m k v).*1 = m.*1.
Proof.
  intros Hg. rewrite map_set_keys, decide_True; [done|].
  apply map_get_Some_in in Hg. apply list_elem_of_fmap. by exists (k, w).
Qed.
End jmap.

Create HintDb runtime.
Create Rewrite HintDb runtime.
#[export] Hint Resolve js_eqb_refl map_set_NoDup map_delete_NoDup : runtime.
#[export] Hint Resolve keeps_ret keeps_throw keeps_modify keeps_get keeps_bind : runtime.
#[export] Hint Rewrite @map_get_set_eq num_leb_Z num_ltb_Z num_add_Z num_min_Z
  num_max_Z num_floor_Z is_integer_Z : runtime.

(** ** Tactics *)

(** Split the boolean conditions of the sources into propositions. *)
Ltac bools :=
  repeat match goal with
  | H : _ && _ = true |- _ => apply andb_true_iff in H as [? ?]
  | H : _ || _ = false |- _ => apply orb_false_iff in H as [? ?]
  | H : negb _ = true |- _ => apply negb_true_iff in H
  | H : negb _ = false |- _ => apply negb_false_iff in H
  | H : (_ <=? _)%Z = true |- _ => apply Z.leb_le in H
  | H : (_ <=? _)%Z = false |- _ => apply Z.leb_gt in H
  | H : (_ <? _)%Z = true |- _ => apply Z.ltb_lt in H
  | H : (_ <? _)%Z = false |- _ => apply Z.ltb_ge in H
  | H : (_ =? _)%Z = true |- _ => apply Z.eqb_eq in H
  | H : (_ =? _)%Z = false |- _ => apply Z.eqb_neq in H
  | H : js_eqb _ _ = true |- _ => apply js_eqb_true in H
  | H : js_eqb _ _ = false |- _ => apply js_eqb_false in H
  | H : bool_decide _ = true |- _ => apply bool_decide_eq_true in H
  | H : bool_decide _ = false |- _ => apply bool_decide_eq_false in H
  end.

(** Case analysis on the innermost [if] or [match] of a hypothesis, closing
    the branches whose outcome contradicts it. *)
Ltac step_in H :=
  match type of H with
  | context [match ?x with _ => _ end] =>
      lazymatch x with
      | context [match _ with _ => _ end] => fail
      | _ => let E := fresh "E" in destruct x eqn:E
      end
  end; simpl in H; try discriminate H; try congruence.

Ltac steps_in H := repeat step_in H.

(** The same on the goal. *)
Ltac step_goal :=
  match goal with
  | |- context [match ?x with _ => _ end] =>
      lazymatch x with
      | context [match _ with _ => _ end] => fail
      | _ => let E := fresh "E" in destruct x eqn:E
      end
  end; simpl.

(** Splits a successful sequence of calls in [H] into its successful calls. *)
Ltac binds H :=
  repeat match type of H with
  | mbind (λ _ : unit, _) _ = Ok _ => let K := fresh "K" in apply seq_Ok in H as [K H]
  | mbind _ _ = Ok _ => let K := fresh "K" in apply bind_Ok in H as (? & K & H)
  | guard _ _ = Ok _ => apply guard_Ok in H
  end;
  repeat match goal with K : guard _ _ = Ok _ |- _ => apply guard_Ok in K end;
  bools.

(** Expose the primitive steps of a monadic call. *)
Ltac unfold_M := unfold mbind, mret, M_bind, M_ret, result_bind, result_ret,
  lift, get, modify, throw, guard in *; simpl in *.
