(* ===== verification/Json.v ===== *)
(** * Texts: sorting, JSON and UTF-8

    The parts of the standard library that the hashed encodings of the sources
    use: the default order of [Array.prototype.sort], [JSON.stringify] on
    strings, integers and arrays, and the UTF-8 bytes of a string. *)

From stdpp Require Import base numbers list option strings pretty.
From S2P Require Import Prelude.

#[local] Open Scope Z_scope.

(** ** Sorting *)

(** The default order of [sort]: by UTF-16 code units. *)
Fixpoint js_leb (a b : jsstring) : bool :=
  match a, b with
  | [], _ => true
  | _, [] => false
  | x :: a', y :: b' => (x <? y)%N || ((x =? y)%N && js_leb a' b')
  end.

Section sort.
Context {A : Type} (leb : A → A → bool).

Fixpoint insert_by (x : A) (l : list A) : list A :=
  match l with
  | [] => [x]
  | y :: l' => if leb x y then x :: l else y :: insert_by x l'
  end.

(** A stable sort. *)
Definition sort_by (l : list A) : list A := foldr insert_by [] l.

Lemma insert_by_perm x l : insert_by x l ≡ₚ x :: l.
Proof.
  induction l as [|y l IH]; simpl; [done|]. destruct (leb x y); [done|]. rewrite IH. by constructor.
Qed.

Lemma sort_by_perm l : sort_by l ≡ₚ l.
Proof. induction l as [|x l IH]; simpl; [done|]. by rewrite insert_by_perm, IH. Qed.
End sort.

(** [sort()] on strings. *)
Definition sort (l : list jsstring) : list jsstring := sort_by js_leb l.

Lemma sort_perm l : sort l ≡ₚ l.
Proof. apply sort_by_perm. Qed.

(** ** JSON *)

Definition hex_digit (n : N) : N := if (n <? 10)%N then (48 + n)%N else (87 + n)%N.

Definition hex4 (c : N) : jsstring :=
  [92; 117; hex_digit (c / 4096); hex_digit (c / 256 mod 16); hex_digit (c / 16 mod 16); hex_digit (c mod 16)]%N.

Definition json_char (c : N) : jsstring :=
  if (c =? 34)%N then [92; 34]%N else if (c =? 92)%N then [92; 92]%N
  else if (c =? 8)%N then [92; 98]%N else if (c =? 9)%N then [92; 116]%N
  else if (c =? 10)%N then [92; 110]%N else if (c =? 12)%N then [92; 102]%N
  else if (c =? 13)%N then [92; 114]%N
  else if (c <? 32)%N then hex4 c
  else [c].

Definition high_surrogate (c : N) : bool := (55296 <=? c)%N && (c <=? 56319)%N.
Definition low_surrogate (c : N) : bool := (56320 <=? c)%N && (c <=? 57343)%N.

(** Surrogates without a partner are escaped. *)
Fixpoint json_chars (s : jsstring) : jsstring :=
  match s with
  | [] => []
  | c :: s' =>
      if high_surrogate c then
        match s' with
        | d :: s'' => if low_surrogate d then c :: d :: json_chars s'' else hex4 c ++ json_chars s'
        | [] => hex4 c
        end
      else (if low_surrogate c then hex4 c else json_char c) ++ json_chars s'
  end.

Definition json_string (s : jsstring) : jsstring := [34%N] ++ json_chars s ++ [34%N].

(** A number that is an integer. *)
Definition json_Z (z : Z) : jsstring := js (pretty z).
Definition json_integer (v : num) : jsstring := json_Z (num_floor v).

Definition json_array (l : list jsstring) : jsstring := js "[" ++ js_join (js ",") l ++ js "]".

(** ** UTF-8 *)

Definition utf8_char (c : N) : list N :=
  if (c <? 128)%N then [c]
  else if (c <? 2048)%N then [192 + c / 64; 128 + c mod 64]%N
  else if (c <? 65536)%N then [224 + c / 4096; 128 + c / 64 mod 64; 128 + c mod 64]%N
  else [240 + c / 262144; 128 + c / 4096 mod 64; 128 + c / 64 mod 64; 128 + c mod 64]%N.

(** The bytes of a string; a surrogate without a partner becomes U+FFFD. *)
Fixpoint utf8 (s : jsstring) : list N :=
  match s with
  | [] => []
  | c :: s' =>
      if high_surrogate c then
        match s' with
        | d :: s'' =>
            if low_surrogate d then utf8_char (65536 + (c - 55296) * 1024 + (d - 56320))%N ++ utf8 s''
            else utf8_char 65533 ++ utf8 s'
        | [] => utf8_char 65533
        end
      else (if low_surrogate c then utf8_char 65533 else utf8_char c) ++ utf8 s'
  end.

Example json_tests :
  json_array [json_string (js "a" ++ [10; 34; 7]%N); json_Z (-12)] =
  js "[" ++ [34; 97; 92; 110; 92; 34; 92; 117; 48; 48; 48; 55; 34]%N ++ js ",-12]".
Proof. by vm_compute. Qed.

Example utf8_tests : utf8 [233; 8364; 55357; 56832; 56832]%N = [195; 169; 226; 130; 172; 240; 159; 152; 128; 239; 191; 189]%N.
Proof. by vm_compute. Qed.
