(* ===== verification/IsoDate.v ===== *)
(** * Dates as text

    [Date.prototype.toISOString] and the [Date.parse] of its format, on the
    proleptic Gregorian calendar. Strings in other formats, for some of which
    the answer of [Date.parse] depends on the engine or the time zone, are taken
    for no date: every string that the modelled code parses was written by
    [toISOString] or is compared with what it writes. *)

From stdpp Require Import base numbers option strings list.
From S2P Require Import Prelude.

Module IsoDate.
#[local] Open Scope Z_scope.

(** Days since 1970-01-01 of a civil date, in years that begin in March. *)
Definition days_from_civil (y m d : Z) : Z :=
  let y' := if m <=? 2 then y - 1 else y in
  let era := y' / 400 in
  let yoe := y' - era * 400 in
  let doy := (153 * (if 2 <? m then m - 3 else m + 9) + 2) / 5 + d - 1 in
  era * 146097 + (yoe * 365 + yoe / 4 - yoe / 100 + doy) - 719468.

Definition civil_from_days (days : Z) : Z * Z * Z :=
  let z := days + 719468 in
  let era := z / 146097 in
  let doe := z - era * 146097 in
  let yoe := (doe - doe / 1460 + doe / 36524 - doe / 146096) / 365 in
  let doy := doe - (365 * yoe + yoe / 4 - yoe / 100) in
  let mp := (5 * doy + 2) / 153 in
  let m := if mp <? 10 then mp + 3 else mp - 9 in
  ((if m <=? 2 then yoe + era * 400 + 1 else yoe + era * 400), m, doy - (153 * mp + 2) / 5 + 1).

(** [n] in [k] digits, and back. *)
Fixpoint digits (k : nat) (n : Z) : jsstring :=
  match k with O => [] | S k' => digits k' (n / 10) ++ [Z.to_N (48 + n mod 10)] end.

Definition digit (c : N) : option Z := if (48 <=? c)%N && (c <=? 57)%N then Some (Z.of_N c - 48) else None.
Fixpoint number (acc : Z) (s : jsstring) : option Z :=
  match s with
  | [] => Some acc
  | c :: s' => match digit c with Some d => number (acc * 10 + d) s' | None => None end
  end.

Definition max_time : Z := 8640000000000000.

Definition year_text (y : Z) : jsstring :=
  if (0 <=? y) && (y <=? 9999) then digits 4 y
  else (if y <? 0 then js "-" else js "+") ++ digits 6 (Z.abs y).

Definition toISOString (t : Z) : jsstring :=
  let '(y, m, d) := civil_from_days (t / 86400000) in
  let tod := t mod 86400000 in
  year_text y ++ js "-" ++ digits 2 m ++ js "-" ++ digits 2 d ++ js "T" ++ digits 2 (tod / 3600000) ++ js ":" ++
  digits 2 (tod / 60000 mod 60) ++ js ":" ++ digits 2 (tod / 1000 mod 60) ++ js "." ++ digits 3 (tod mod 1000) ++ js "Z".

(** The year of a text and what follows it. *)
Definition split_year (s : jsstring) : option (Z * jsstring) :=
  match s with
  | 43%N :: s' => match number 0 (take 6 s') with Some y => Some (y, drop 6 s') | None => None end
  | 45%N :: s' => match number 0 (take 6 s') with Some y => Some (- y, drop 6 s') | None => None end
  | _ => match number 0 (take 4 s) with Some y => Some (y, drop 4 s) | None => None end
  end.

(** The time of a string: the one whose text it is. *)
Definition parse (s : jsstring) : option Z :=
  match split_year s with
  | None => None
  | Some (y, r) =>
      match number 0 (take 2 (drop 1 r)), number 0 (take 2 (drop 4 r)), number 0 (take 2 (drop 7 r)),
            number 0 (take 2 (drop 10 r)), number 0 (take 2 (drop 13 r)), number 0 (take 3 (drop 16 r)) with
      | Some m, Some d, Some hh, Some mm, Some ss, Some ms =>
          let t := days_from_civil y m d * 86400000 + hh * 3600000 + mm * 60000 + ss * 1000 + ms in
          if (- max_time <=? t) && (t <=? max_time) && js_eqb (toISOString t) s then Some t else None
      | _, _, _, _, _, _ => None
      end
  end.

Lemma parse_text s t : parse s = Some t → toISOString t = s ∧ - max_time ≤ t ≤ max_time.
Proof.
  unfold parse. destruct (split_year s) as [[y r]|]; [|done].
  repeat case_match; try done. intros [= <-].
  match goal with H : _ && _ = true |- _ => apply andb_prop in H as [[?%Z.leb_le ?%Z.leb_le]%andb_prop ?%js_eqb_true] end. done.
Qed.

Example iso_tests :
  map parse (map js ["1970-01-01T00:00:00.000Z"; "2024-02-29T12:34:56.789Z"; "2023-02-29T00:00:00.000Z"; "2024-02-29";
                     "1969-12-31T23:59:59.999Z"; "+275760-09-13T00:00:00.000Z"; "2024-02-29T12:34:56.789z"]%string) =
  [Some 0; Some 1709210096789; None; None; Some (-1); Some max_time; None].
Proof. by vm_compute. Qed.

Example iso_text : map toISOString [0; -1; 1709210096789; - max_time; -62198755200001; 253402300800000] =
  map js ["1970-01-01T00:00:00.000Z"; "1969-12-31T23:59:59.999Z"; "2024-02-29T12:34:56.789Z"; "-271821-04-20T00:00:00.000Z";
          "-000002-12-31T23:59:59.999Z"; "+010000-01-01T00:00:00.000Z"]%string.
Proof. by vm_compute. Qed.

End IsoDate.
