(* ===== verification/TaskQueue.v ===== *)
(** * The task queue of queue-core

    [src/queue-core/task-queue]: the task and retry-policy types, the input
    validation, the back-off computation and the in-memory queue adapter
    [InMemorySubscriptionTaskQueue]. The queue object is the record [queue];
    each method is an action of the state-and-error monad [M queue QueueError].
    The wall clock ([new Date()]) and [randomUUID()] are arguments of the
    methods that call them. *)

From stdpp Require Import base numbers list option sets strings.
From Stdlib Require Import QArith Qround Lqa.
From S2P Require Import Prelude.

#[local] Open Scope Z_scope.

Module Queue.

(** ** Errors *)

Inductive ErrorCode : Set :=
| Closed | Duplicate | JobNotFound | InvalidInput | InvalidRetryPolicy
| ProcessorNotStarted.

Record QueueError : Set := mkError { code : ErrorCode; message : jsstring }.

#[global] Instance ErrorCode_eq_dec : EqDecision ErrorCode.
Proof. solve_decision. Defined.

Definition invalid_input (m : string) : QueueError := mkError InvalidInput (js m).

(** ** Tasks *)

Inductive TaskStatus : Set :=
| Queued | Leased | Completed | RetryScheduled | DeadLettered.

#[global] Instance TaskStatus_eq_dec : EqDecision TaskStatus.
Proof. solve_decision. Defined.

Record Task (Job : Type) : Type := mkTask {
  taskId : jsstring;
  job : Job;
  attempt : Z;
  maxAttempts : Z;
  idempotencyKey : option jsstring;
  runAfter : date;
  createdAt : date;
  metadata : list (jsstring * jsstring);
}.
Arguments mkTask {Job}.
Arguments taskId {Job}. Arguments job {Job}. Arguments attempt {Job}.
Arguments maxAttempts {Job}. Arguments idempotencyKey {Job}.
Arguments runAfter {Job}. Arguments createdAt {Job}. Arguments metadata {Job}.

Record Claim (Job : Type) : Type := mkClaim {
  c_task : Task Job; c_leaseId : jsstring; c_leaseExpiresAt : date }.
Arguments mkClaim {Job}.
Arguments c_task {Job}. Arguments c_leaseId {Job}. Arguments c_leaseExpiresAt {Job}.

Record EnqueueInput (Job : Type) : Type := mkEnqueue {
  in_taskId : option jsstring;
  in_job : Job;
  in_idempotencyKey : option jsstring;
  in_runAfter : option date;
  in_maxAttempts : option num;
  in_metadata : option (list (jsstring * jsstring));
}.
Arguments mkEnqueue {Job}.
Arguments in_taskId {Job}. Arguments in_job {Job}. Arguments in_idempotencyKey {Job}.
Arguments in_runAfter {Job}. Arguments in_maxAttempts {Job}. Arguments in_metadata {Job}.

Inductive EnqueueResult : Set :=
| Accepted (taskId : jsstring)
| IdempotentReplay (taskId : jsstring).

Inductive FailResult : Set :=
| FailRetryScheduled (nextAttempt : Z) (runAfter : date)
| FailDeadLettered.

(** ** Validation *)

(** [assertNonBlankString]: the parameter is a string by its type. *)
Definition assertNonBlankString (v : jsstring) (m : string) : result QueueError unit :=
  guard (truthy (js_trim v)) (invalid_input m).

Definition assertValidDate (d : date) (m : string) : result QueueError unit :=
  guard (date_valid d) (invalid_input m).

(** [assertStringRecord]: the entries are strings by their type, the keys must
    not be blank. *)
Definition assertStringRecord (r : list (jsstring * jsstring)) (m : string)
    : result QueueError unit :=
  for_each (λ '(k, _), guard (truthy (js_trim k)) (invalid_input m)) r.

(** [if (v !== undefined) check(v)]. *)
Definition when_defined {A} (v : option A) (check : A → result QueueError unit)
    : result QueueError unit :=
  match v with None => Ok tt | Some x => check x end.

Definition assertSubscriptionQueueId (q : jsstring) : result QueueError unit :=
  assertNonBlankString q "Queue id is required.".

Definition assertSubscriptionQueueEnqueueInput {Job} (i : EnqueueInput Job)
    : result QueueError unit :=
  when_defined (in_taskId i)
    (λ t, assertNonBlankString t "Task id is required when provided.") ;;
  when_defined (in_idempotencyKey i)
    (λ k, assertNonBlankString k "Idempotency key is required when provided.") ;;
  when_defined (in_runAfter i)
    (λ d, assertValidDate d "Task runAfter must be a valid Date.") ;;
  when_defined (in_maxAttempts i) (λ n,
    guard (negb (negb (is_integer n) || num_ltb n (num_of_Z 1)))
      (invalid_input "Task maxAttempts must be a positive integer.")) ;;
  when_defined (in_metadata i)
    (λ r, assertStringRecord r "Task metadata must contain strings.").

Definition assertSubscriptionQueueClaimInput (leaseTtlMs : num) (now : option date)
    : result QueueError unit :=
  guard (negb (negb (is_finite leaseTtlMs) || num_leb leaseTtlMs (num_of_Z 0)))
    (invalid_input "Lease TTL must be a positive finite number.") ;;
  when_defined now (λ d, assertValidDate d "Claim time must be a valid Date.").

Definition assertSubscriptionQueueTask {Job} (t : Task Job) : result QueueError unit :=
  assertNonBlankString (taskId t) "Task id is required." ;;
  guard (negb (attempt t <? 1)) (invalid_input "Task attempt must be a positive integer.") ;;
  guard (negb (maxAttempts t <? 1))
    (invalid_input "Task maxAttempts must be a positive integer.") ;;
  guard (negb (maxAttempts t <? attempt t))
    (invalid_input "Task attempt cannot exceed maxAttempts.") ;;
  when_defined (idempotencyKey t)
    (λ k, assertNonBlankString k "Task idempotency key is required when provided.") ;;
  assertValidDate (runAfter t) "Task runAfter must be a valid Date." ;;
  assertValidDate (createdAt t) "Task createdAt must be a valid Date." ;;
  assertStringRecord (metadata t) "Task metadata must contain strings.".

(** ** Retry policy *)

Record RetryPolicy : Set := mkPolicy {
  p_maxAttempts : num; baseDelayMs : num; maxDelayMs : num; jitterRatio : option num }.

Definition defaultSubscriptionRetryPolicy : RetryPolicy :=
  mkPolicy (num_of_Z 3) (num_of_Z 1000) (num_of_Z 60000) (Some (Fin (1 # 10))).

Definition assertRetryPolicy (p : RetryPolicy) : result QueueError unit :=
  guard (negb (
    negb (is_integer (p_maxAttempts p)) ||
    num_ltb (p_maxAttempts p) (num_of_Z 1) ||
    negb (is_finite (baseDelayMs p)) ||
    num_ltb (baseDelayMs p) (num_of_Z 0) ||
    negb (is_finite (maxDelayMs p)) ||
    num_ltb (maxDelayMs p) (baseDelayMs p) ||
    match jitterRatio p with
    | None => false
    | Some j => negb (is_finite j) || num_ltb j (num_of_Z 0) || num_ltb (num_of_Z 1) j
    end))
    (mkError InvalidRetryPolicy (js "Invalid subscription queue retry policy.")).

(** [x === 0]. *)
Definition num_is_zero (x : num) : bool :=
  match x with Fin q => Qeq_bool q 0 | _ => false end.

(** [random] is the number drawn from the generator. *)
Definition computeBackoffDelayMs (attempt : Z) (policy : RetryPolicy) (random : num)
    : result QueueError num :=
  assertRetryPolicy policy ;;
  let exponent := Z.max 0 (attempt - 1) in
  let raw := num_min (maxDelayMs policy) (num_mul (baseDelayMs policy) (num_pow2 exponent)) in
  let ratio := default (num_of_Z 0) (jitterRatio policy) in
  if num_is_zero ratio then Ok raw
  else
    let jitter := num_mul (num_mul raw ratio)
      (num_add (num_mul random (num_of_Z 2)) (num_of_Z (-1))) in
    Ok (num_max (num_of_Z 0) (num_round (num_add raw jitter))).

Lemma assertRetryPolicy_Ok p u :
  assertRetryPolicy p = Ok u →
  ∃ m b x, p_maxAttempts p = Fin m ∧ (1 <= m)%Q ∧ baseDelayMs p = Fin b ∧ (0 <= b)%Q ∧
    maxDelayMs p = Fin x ∧ (b <= x)%Q ∧
    ∃ j, default (num_of_Z 0) (jitterRatio p) = Fin j ∧ (0 <= j <= 1)%Q.
Proof.
  unfold assertRetryPolicy. rewrite guard_Ok. intros H. bools.
  destruct (p_maxAttempts p) as [m| | |]; try done.
  destruct (baseDelayMs p) as [b| | |]; try done.
  destruct (maxDelayMs p) as [x| | |]; try done.
  repeat match goal with H : num_ltb (Fin _) _ = false |- _ => apply num_ltb_Fin in H end.
  exists m, b, x. do 6 (split; [done|]).
  destruct (jitterRatio p) as [j|]; simpl.
  - bools. destruct j as [j| | |]; try done. exists j.
    repeat match goal with H : num_ltb _ _ = false |- _ => apply num_ltb_Fin in H end. done.
  - exists (inject_Z 0). repeat split; done.
Qed.

(** Not yet at the smaller of the two limits: there is an attempt left. *)
Lemma below_min_attempts m p a u :
  assertRetryPolicy p = Ok u →
  num_leb (num_min (num_of_Z m) (p_maxAttempts p)) (num_of_Z a) = false → a < m.
Proof.
  intros (q & _ & _ & -> & _)%assertRetryPolicy_Ok. unfold num_min, num_of_Z.
  destruct (num_leb (Fin (inject_Z m)) (Fin q)) eqn:E; rewrite num_leb_Fin_false.
  - intros H. by rewrite <- Zlt_Qlt in H.
  - apply num_leb_Fin_false in E. intros H. rewrite Zlt_Qlt. lra.
Qed.

Lemma computeBackoffDelayMs_Ok a p rnd d :
  computeBackoffDelayMs a p rnd = Ok d → assertRetryPolicy p = Ok tt.
Proof. unfold computeBackoffDelayMs. unfold_M. destruct (assertRetryPolicy p) as [[]|]; done. Qed.

(** The capped exponential delay before jitter. *)
Lemma raw_delay_range x b e :
  (0 <= b)%Q → (b <= x)%Q → 0 ≤ e ≤ 1023 →
  ∃ raw, num_min (Fin x) (num_mul (Fin b) (num_pow2 e)) = Fin raw ∧
    (0 <= raw <= x)%Q ∧ (raw <= b * inject_Z (2 ^ e))%Q ∧
    (raw = x ∨ raw = (b * inject_Z (2 ^ e))%Q).
Proof.
  intros Hb Hx He. unfold num_pow2. rewrite (proj2 (Z.leb_le e 1023)) by lia.
  assert (Hp : (0 <= inject_Z (2 ^ e))%Q) by (rewrite <- (Zle_Qle 0); lia).
  unfold num_of_Z, num_mul, num_min.
  destruct (num_leb (Fin x) (Fin (b * inject_Z (2 ^ e)))) eqn:E;
    [apply num_leb_Fin in E|apply num_leb_Fin_false in E]; eexists; (split; [done|]).
  - repeat split; try lra. by left.
  - repeat split; try nra. by right.
Qed.

(** ** The in-memory queue *)

Record QueueRecord (Job Result : Type) : Type := mkRecord {
  task : Task Job;
  status : TaskStatus;
  leaseId : option jsstring;
  leaseExpiresAt : option date;
  res : option Result;
  error : option jsstring;
}.
Arguments mkRecord {Job Result}.
Arguments task {Job Result}. Arguments status {Job Result}.
Arguments leaseId {Job Result}. Arguments leaseExpiresAt {Job Result}.
Arguments res {Job Result}. Arguments error {Job Result}.

Record queue (Job Result : Type) : Type := mkQueue {
  records : list (jsstring * QueueRecord Job Result);
  idempotency : list (jsstring * jsstring);
  closed : bool;
}.
Arguments mkQueue {Job Result}.
Arguments records {Job Result}. Arguments idempotency {Job Result}. Arguments closed {Job Result}.

Section Methods.
Context {Job Result : Type}.
Abbreviation Rec := (QueueRecord Job Result).
Abbreviation Q := (queue Job Result).
Abbreviation Meth := (M Q QueueError).

(** The constructor: a new queue has no records; a blank id is refused. *)
Definition new_queue (queueId : jsstring) : result QueueError Q :=
  assertSubscriptionQueueId queueId ;; Ok (mkQueue [] [] false).

Definition set_record (k : jsstring) (r : Rec) (q : Q) : Q :=
  mkQueue (map_set (records q) k r) (idempotency q) (closed q).

Definition assertOpen : Meth unit :=
  q ← get;
  if closed q then throw (mkError Closed (js "Subscription task queue is closed."))
  else mret tt.

(** [requireLeased]: returns the record, which the callers then mutate. *)
Definition requireLeased (tid lid : jsstring) : Meth Rec :=
  q ← get;
  match map_get (records q) tid with
  | Some r =>
      if bool_decide (leaseId r = Some lid) then mret r
      else throw (mkError JobNotFound (js "Leased task was not found."))
  | None => throw (mkError JobNotFound (js "Leased task was not found."))
  end.

Definition isClaimable (r : Rec) (now : date) : bool :=
  match status r, leaseExpiresAt r with
  | Leased, Some e => date_leb e now
  | _, _ =>
      (bool_decide (status r = Queued) || bool_decide (status r = RetryScheduled)) &&
      date_leb (runAfter (task r)) now
  end.

(** The argument of [fail] as [safeError] distinguishes it. *)
Inductive thrown : Set := ErrorObject (message : jsstring) | StringValue (s : jsstring) | OtherValue.

Definition safeError (e : thrown) : jsstring :=
  match e with
  | ErrorObject m => js_slice0 500 m
  | StringValue s => js_slice0 500 s
  | OtherValue => js "unknown"
  end.

Definition set_idempotency (k tid : jsstring) (q : Q) : Q :=
  mkQueue (records q) (map_set (idempotency q) k tid) (closed q).

Definition enqueue (now : date) (uuid : jsstring) (i : EnqueueInput Job) : Meth EnqueueResult :=
  assertOpen ;;
  lift (assertSubscriptionQueueEnqueueInput i) ;;
  q ← get;
  let key := truthy_opt (in_idempotencyKey i) in
  match truthy_opt (key ≫= map_get (idempotency q)) with
  | Some existingTaskId => mret (IdempotentReplay existingTaskId)
  | None =>
      let tid := default uuid (in_taskId i) in
      if map_has (records q) tid
      then throw (mkError Duplicate (js "Task id already exists."))
      else
        let t := mkTask tid (in_job i) 1
          (default 3 (num_floor <$> in_maxAttempts i))
          key (default now (in_runAfter i)) now
          (default [] (in_metadata i)) in
        modify (set_record tid (mkRecord t Queued None None None None)) ;;
        match key with
        | Some k => modify (set_idempotency k tid)
        | None => mret tt
        end ;;
        mret (Accepted tid)
  end.

(** The loop of [claim] over the records in insertion order: the first
    claimable record with its key. *)
Fixpoint first_claimable (l : list (jsstring * Rec)) (now : date) : option (jsstring * Rec) :=
  match l with
  | [] => None
  | (k, r) :: l' => if isClaimable r now then Some (k, r) else first_claimable l' now
  end.

(** [clock] is [new Date()], [uuid] is [randomUUID()]. *)
Definition claim (clock : date) (uuid : jsstring) (leaseTtlMs : num) (now : option date)
    : Meth (option (Claim Job)) :=
  assertOpen ;;
  lift (assertSubscriptionQueueClaimInput leaseTtlMs now) ;;
  let now := default clock now in
  q ← get;
  match first_claimable (records q) now with
  | None => mret None
  | Some (k, r) =>
      let expires := date_plus now leaseTtlMs in
      modify (set_record k
        (mkRecord (task r) Leased (Some uuid) (Some expires) (res r) (error r))) ;;
      mret (Some (mkClaim (task r) uuid expires))
  end.

Definition complete (tid lid : jsstring) (result : Result) : Meth unit :=
  r ← requireLeased tid lid;
  modify (set_record tid (mkRecord (task r) Completed None None (Some result) (error r))).

Definition release (tid lid : jsstring) : Meth unit :=
  r ← requireLeased tid lid;
  modify (set_record tid (mkRecord (task r) Queued None None (res r) (error r))).

(** The mutations of [fail] precede the back-off computation, which can throw. *)
Definition fail (clock : date) (tid lid : jsstring) (e : thrown) (policy : RetryPolicy)
    (now : option date) : Meth FailResult :=
  r ← requireLeased tid lid;
  let now := default clock now in
  let r1 := mkRecord (task r) (status r) None None (res r) (Some (safeError e)) in
  modify (set_record tid r1) ;;
  if num_leb (num_min (num_of_Z (maxAttempts (task r))) (p_maxAttempts policy))
       (num_of_Z (attempt (task r)))
  then
    modify (set_record tid (mkRecord (task r) DeadLettered None None (res r) (error r1))) ;;
    mret FailDeadLettered
  else
    let nextAttempt := attempt (task r) + 1 in
    delay ← lift (computeBackoffDelayMs (attempt (task r)) policy (Fin (1 # 2)));
    let runAfter := date_plus now delay in
    let t := task r in
    let t' := mkTask (taskId t) (job t) nextAttempt (maxAttempts t) (idempotencyKey t)
      runAfter (createdAt t) (metadata t) in
    modify (set_record tid (mkRecord t' RetryScheduled None None (res r) (error r1))) ;;
    mret (FailRetryScheduled nextAttempt runAfter).

Definition waiting (r : Rec) : bool :=
  bool_decide (status r = Queued) || bool_decide (status r = RetryScheduled).

Definition size (clock : date) (includeDelayed : bool) (q : Q) : nat :=
  length (List.filter (λ kr : jsstring * Rec,
    if negb (waiting kr.2) then false
    else if includeDelayed then true
    else date_leb (runAfter (task kr.2)) clock) (records q)).

Definition close : Meth unit :=
  modify (λ q : Q, mkQueue (records q) (idempotency q) true).

(** ** Histories of calls *)

(** A call of a method with all its inputs, including the clock and the fresh
    identifier it reads. *)
Inductive op : Type :=
| OpEnqueue (now : date) (uuid : jsstring) (i : EnqueueInput Job)
| OpClaim (clock : date) (uuid : jsstring) (ttl : num) (now : option date)
| OpComplete (tid lid : jsstring) (r : Result)
| OpRelease (tid lid : jsstring)
| OpFail (clock : date) (tid lid : jsstring) (e : thrown) (p : RetryPolicy) (now : option date)
| OpClose.

(** The queue after the call, whether it returned or threw. *)
Definition exec (o : op) (q : Q) : Q :=
  match o with
  | OpEnqueue now uuid i => (enqueue now uuid i q).1
  | OpClaim clock uuid ttl now => (claim clock uuid ttl now q).1
  | OpComplete tid lid r => (complete tid lid r q).1
  | OpRelease tid lid => (release tid lid q).1
  | OpFail clock tid lid e p now => (fail clock tid lid e p now q).1
  | OpClose => (close q).1
  end.

Definition run (os : list op) (q : Q) : Q := foldl (λ q o, exec o q) q os.

Definition empty_queue : Q := mkQueue [] [] false.

(** [randomUUID] never returns the empty string. *)
Definition op_uuid_ok (o : op) : Prop :=
  match o with
  | OpEnqueue _ uuid _ => truthy uuid = true
  | OpClaim _ uuid _ _ => truthy uuid = true
  | _ => True
  end.

(** ** Invariant *)

Record wf_record (k : jsstring) (r : Rec) : Prop := {
  wf_id : taskId (task r) = k;
  wf_attempt : 1 ≤ attempt (task r) ≤ maxAttempts (task r);
  wf_lease : is_Some (leaseId r) ↔ is_Some (leaseExpiresAt r);
  wf_leased : is_Some (leaseId r) → status r = Leased;
}.

Record wf (q : Q) : Prop := {
  wf_keys : NoDup (records q).*1;
  wf_records : ∀ k r, map_get (records q) k = Some r → wf_record k r ∧ truthy k = true;
  wf_idem : ∀ key tid, map_get (idempotency q) key = Some tid →
    ∃ r, map_get (records q) tid = Some r ∧ idempotencyKey (task r) = Some key;
  wf_idem_inv : ∀ tid r key, map_get (records q) tid = Some r →
    idempotencyKey (task r) = Some key → map_get (idempotency q) key = Some tid;
}.

(** Rewriting a record by one with the same task identity keeps [wf]. *)
Lemma wf_set_record q k r r' :
  wf q → map_get (records q) k = Some r → wf_record k r' →
  idempotencyKey (task r') = idempotencyKey (task r) → wf (set_record k r' q).
Proof.
  intros [W1 W2 W3 W4] Hk Hr' Hid. constructor; simpl.
  - by apply map_set_NoDup.
  - intros k' x. rewrite map_get_set. case_decide; [|auto]. subst.
    intros [= <-]. split; [done|]. by eapply W2.
  - intros key tid Hi. destruct (W3 _ _ Hi) as (x & Hx & Hkey).
    rewrite map_get_set. case_decide; [|eauto]. subst tid.
    exists r'. split; [done|]. congruence.
  - intros tid x key. rewrite map_get_set. case_decide; [|by apply W4].
    subst. intros [= <-]. rewrite Hid. by apply W4.
Qed.

Lemma requireLeased_spec tid lid q :
  (∃ r, map_get (records q) tid = Some r ∧ leaseId r = Some lid ∧
        requireLeased tid lid q = (q, Ok r)) ∨
  (requireLeased tid lid q = (q, Throw (mkError JobNotFound (js "Leased task was not found."))) ∧
   ∀ r, map_get (records q) tid = Some r → leaseId r ≠ Some lid).
Proof.
  unfold requireLeased. unfold_M. destruct (map_get (records q) tid) as [r|] eqn:E.
  - case_bool_decide; [left; eauto|right; split; [done|]]. intros ? [= <-]. done.
  - right. split; [done|]. congruence.
Qed.

Lemma first_claimable_Some l now k r :
  first_claimable l now = Some (k, r) →
  isClaimable r now = true ∧
  ∃ l1 l2, l = l1 ++ (k, r) :: l2 ∧ Forall (λ kr, isClaimable kr.2 now = false) l1.
Proof.
  induction l as [|[k' r'] l IH]; simpl; [done|]. destruct (isClaimable r' now) eqn:E.
  - intros [= <- <-]. split; [done|]. by exists [], l.
  - intros H. destruct (IH H) as (H1 & l1 & l2 & -> & H2). split; [done|].
    exists ((k', r') :: l1), l2. by repeat constructor.
Qed.

Lemma first_claimable_None l now :
  first_claimable l now = None ↔ Forall (λ kr, isClaimable kr.2 now = false) l.
Proof.
  induction l as [|[k r] l IH]; simpl; [split; auto|].
  rewrite Forall_cons; simpl. destruct (isClaimable r now); [naive_solver|]. tauto.
Qed.

Lemma first_claimable_get q now k r :
  NoDup (records q).*1 → first_claimable (records q) now = Some (k, r) →
  map_get (records q) k = Some r.
Proof.
  intros Hnd (_ & l1 & l2 & Hl & _)%first_claimable_Some.
  apply map_in_get; [done|]. rewrite Hl. set_solver.
Qed.

Lemma wf_empty : wf empty_queue.
Proof. constructor; simpl; try done. apply NoDup_nil_2. Qed.

(** The record written by [enqueue] is well formed. *)
Lemma enqueue_input_maxAttempts (i : EnqueueInput Job) :
  assertSubscriptionQueueEnqueueInput i = Ok tt →
  1 ≤ default 3 (num_floor <$> in_maxAttempts i) ∧
  (∀ t, in_taskId i = Some t → truthy (js_trim t) = true).
Proof.
  unfold assertSubscriptionQueueEnqueueInput. rewrite !seq_Ok.
  intros (H1 & _ & _ & H4 & _). split.
  - destruct (in_maxAttempts i) as [n|]; simpl in *; [|lia].
    apply guard_Ok in H4. bools. by apply num_floor_ge_1.
  - intros t Ht. rewrite Ht in H1. by apply guard_Ok in H1.
Qed.

Lemma truthy_trim (t : jsstring) : truthy (js_trim t) = true → truthy t = true.
Proof. by destruct t. Qed.

(** The record and the queue that an accepted [enqueue] leaves. *)
Definition enqueued_record (now : date) (tid : jsstring) (i : EnqueueInput Job) : Rec :=
  mkRecord (mkTask tid (in_job i) 1 (default 3 (num_floor <$> in_maxAttempts i))
      (truthy_opt (in_idempotencyKey i)) (default now (in_runAfter i)) now
      (default [] (in_metadata i))) Queued None None None None.

Definition enqueued (now : date) (tid : jsstring) (i : EnqueueInput Job) (q : Q) : Q :=
  mkQueue (map_set (records q) tid (enqueued_record now tid i))
    (match truthy_opt (in_idempotencyKey i) with
     | Some k => map_set (idempotency q) k tid
     | None => idempotency q
     end) (closed q).

(** Every branch of [enqueue]. *)
Lemma enqueue_cases now uuid i q :
  enqueue now uuid i q =
  if closed q then (q, Throw (mkError Closed (js "Subscription task queue is closed."))) else
  match assertSubscriptionQueueEnqueueInput i with
  | Throw e => (q, Throw e)
  | Ok _ =>
    match truthy_opt (truthy_opt (in_idempotencyKey i) ≫= map_get (idempotency q)) with
    | Some t => (q, Ok (IdempotentReplay t))
    | None =>
      let tid := default uuid (in_taskId i) in
      if map_has (records q) tid then (q, Throw (mkError Duplicate (js "Task id already exists.")))
      else (enqueued now tid i q, Ok (Accepted tid))
    end
  end.
Proof.
  unfold enqueue, assertOpen, enqueued, enqueued_record, set_record, set_idempotency.
  destruct q as [rs ids cl]. unfold_M.
  destruct cl; [done|]. simpl. destruct (assertSubscriptionQueueEnqueueInput i); [|done]. simpl.
  destruct (truthy_opt (option_bind _ _ _ _)); [done|]. destruct (map_has _ _); [done|]. simpl.
  by destruct (truthy_opt (in_idempotencyKey i)).
Qed.

Lemma wf_enqueued q now tid i :
  wf q → truthy tid = true → map_get (records q) tid = None →
  1 ≤ default 3 (num_floor <$> in_maxAttempts i) →
  (∀ k, truthy_opt (in_idempotencyKey i) = Some k → map_get (idempotency q) k = None) →
  wf (enqueued now tid i q).
Proof.
  intros [W1 W2 W3 W4] Htid Hnew Hmax Hkey. unfold enqueued. constructor; simpl.
  - by apply map_set_NoDup.
  - intros k x. rewrite map_get_set. case_decide; [subst|apply W2]. intros [= <-].
    split; [|done]. by constructor; simpl.
  - intros key tid' Hi.
    assert (map_get (idempotency q) key = Some tid' ∨
      truthy_opt (in_idempotencyKey i) = Some key ∧ tid' = tid) as [Hi'|[Hk ->]].
    { destruct (truthy_opt (in_idempotencyKey i)) as [k|]; [|auto].
      rewrite map_get_set in Hi. case_decide; [|auto]. right. split; congruence. }
    + destruct (W3 _ _ Hi') as (x & Hx & Hk'). exists x.
      rewrite map_get_set_ne; [done|]. congruence.
    + exists (enqueued_record now tid i). by rewrite map_get_set_eq.
  - intros tid' x key. rewrite map_get_set. case_decide as E1.
    + subst. intros [= <-]. simpl. intros Hk. rewrite Hk. apply map_get_set_eq.
    + intros Hx Hk'. specialize (W4 _ _ _ Hx Hk').
      destruct (truthy_opt (in_idempotencyKey i)) as [k|] eqn:Ek; [|done].
      rewrite map_get_set_ne; [done|]. intros ->. rewrite (Hkey key) in W4; done.
Qed.

Lemma wf_enqueue q now uuid i :
  wf q → truthy uuid = true → wf (enqueue now uuid i q).1.
Proof.
  intros W Hu. rewrite enqueue_cases. destruct (closed q); [done|].
  destruct (assertSubscriptionQueueEnqueueInput i) as [[]|e] eqn:Ei; [|done].
  apply enqueue_input_maxAttempts in Ei as [Emax Eid].
  destruct (truthy_opt (_ ≫= _)) eqn:Ex; [done|]. cbv zeta. unfold map_has.
  destruct (map_get (records q) _) eqn:Et; [done|]. simpl.
  apply wf_enqueued; try done.
  - destruct (in_taskId i) as [t|] eqn:E; simpl; [|done]. by apply truthy_trim, Eid.
  - intros k Hk. rewrite Hk in Ex. simpl in Ex.
    destruct (map_get (idempotency q) k) as [t|] eqn:E; [|done]. exfalso.
    destruct (wf_idem _ W _ _ E) as (r & Hr & _).
    destruct (wf_records _ W _ _ Hr) as [_ Htt]. simpl in Ex. by rewrite Htt in Ex.
Qed.

(** A claim at [now] either leaves the queue alone or leases the first
    claimable record. *)
Lemma claim_cases clock uuid ttl now q q' out :
  claim clock uuid ttl now q = (q', out) →
  (q' = q ∧ ((∃ e, out = Throw e) ∨
     out = Ok None ∧ first_claimable (records q) (default clock now) = None)) ∨
  (∃ k r, first_claimable (records q) (default clock now) = Some (k, r) ∧
     let e := date_plus (default clock now) ttl in
     q' = set_record k (mkRecord (task r) Leased (Some uuid) (Some e) (res r) (error r)) q ∧
     out = Ok (Some (mkClaim (task r) uuid e))).
Proof.
  unfold claim, assertOpen. unfold_M. destruct (closed q); simpl; [intros [= <- <-]; eauto|].
  destruct (assertSubscriptionQueueClaimInput ttl now); simpl; [|intros [= <- <-]; eauto].
  destruct (first_claimable _ _) as [[k r]|] eqn:E; intros [= <- <-]; eauto 8.
Qed.

Definition not_found : QueueError := mkError JobNotFound (js "Leased task was not found.").

(** The caller does not hold the lease of the task. *)
Definition not_holder (tid lid : jsstring) (q : Q) : Prop :=
  ∀ r, map_get (records q) tid = Some r → leaseId r ≠ Some lid.

Lemma set_record_twice k r1 r2 q : set_record k r2 (set_record k r1 q) = set_record k r2 q.
Proof. unfold set_record. simpl. by rewrite map_set_set. Qed.

Lemma complete_cases tid lid x q :
  (∃ r, map_get (records q) tid = Some r ∧ leaseId r = Some lid ∧
     complete tid lid x q =
       (set_record tid (mkRecord (task r) Completed None None (Some x) (error r)) q, Ok tt)) ∨
  (complete tid lid x q = (q, Throw not_found) ∧ not_holder tid lid q).
Proof.
  unfold complete, mbind, M_bind.
  destruct (requireLeased_spec tid lid q) as [(r & H1 & H2 & ->)|[-> H]]; [left|by right].
  by exists r.
Qed.

Lemma release_cases tid lid q :
  (∃ r, map_get (records q) tid = Some r ∧ leaseId r = Some lid ∧
     release tid lid q =
       (set_record tid (mkRecord (task r) Queued None None (res r) (error r)) q, Ok tt)) ∨
  (release tid lid q = (q, Throw not_found) ∧ not_holder tid lid q).
Proof.
  unfold release, mbind, M_bind.
  destruct (requireLeased_spec tid lid q) as [(r & H1 & H2 & ->)|[-> H]]; [left|by right].
  by exists r.
Qed.

(** The attempts are used up: the record goes to the dead letters. *)
Definition exhausted (r : Rec) (p : RetryPolicy) : bool :=
  num_leb (num_min (num_of_Z (maxAttempts (task r))) (p_maxAttempts p))
    (num_of_Z (attempt (task r))).

Definition retry_record (r : Rec) (e : thrown) (runAfter : date) : Rec :=
  let t := task r in
  mkRecord (mkTask (taskId t) (job t) (attempt t + 1) (maxAttempts t) (idempotencyKey t)
    runAfter (createdAt t) (metadata t)) RetryScheduled None None (res r) (Some (safeError e)).

Lemma fail_cases clock tid lid e p now q :
  (∃ r, map_get (records q) tid = Some r ∧ leaseId r = Some lid ∧
     fail clock tid lid e p now q =
       if exhausted r p then
         (set_record tid (mkRecord (task r) DeadLettered None None (res r) (Some (safeError e))) q,
          Ok FailDeadLettered)
       else match computeBackoffDelayMs (attempt (task r)) p (Fin (1 # 2)) with
            | Ok d => let a := date_plus (default clock now) d in
                (set_record tid (retry_record r e a) q,
                 Ok (FailRetryScheduled (attempt (task r) + 1) a))
            | Throw x =>
                (set_record tid (mkRecord (task r) (status r) None None (res r)
                   (Some (safeError e))) q, Throw x)
            end) ∨
  (fail clock tid lid e p now q = (q, Throw not_found) ∧ not_holder tid lid q).
Proof.
  unfold fail, mbind, M_bind.
  destruct (requireLeased_spec tid lid q) as [(r & H1 & H2 & ->)|[-> H]]; [left|by right].
  exists r. do 2 (split; [done|]). unfold modify. unfold exhausted.
  destruct (num_leb _ _); simpl; [by rewrite set_record_twice|]. unfold lift, mret, M_ret.
  destruct (computeBackoffDelayMs _ _ _); [by rewrite set_record_twice|done].
Qed.

(** Well-formedness of the records the lease holder's calls write. *)
Lemma wf_record_unlease k t st e x :
  taskId t = k → 1 ≤ attempt t ≤ maxAttempts t → wf_record k (mkRecord t st None None x e).
Proof. intros Hk Ha. by constructor; simpl. Qed.

(** Every method call keeps the invariant. *)
Lemma wf_exec o q : op_uuid_ok o → wf q → wf (exec o q).
Proof.
  intros Ho W. destruct o as [now uuid i|clock uuid ttl now|tid lid x|tid lid|clock tid lid e p now|];
    simpl in *.
  - by apply wf_enqueue.
  - destruct (claim clock uuid ttl now q) as [q' out] eqn:E.
    destruct (claim_cases _ _ _ _ _ _ _ E) as [[-> _]|(k & r & Hf & -> & _)]; [done|].
    apply first_claimable_get in Hf; [|apply W]. simpl.
    destruct (wf_records _ W _ _ Hf) as [[]]. by eapply wf_set_record.
  - destruct (complete_cases tid lid x q) as [(r & Hr & _ & ->)|[-> _]]; [|done].
    destruct (wf_records _ W _ _ Hr) as [[]].
    eapply wf_set_record; [done|done|by apply wf_record_unlease|done].
  - destruct (release_cases tid lid q) as [(r & Hr & _ & ->)|[-> _]]; [|done].
    destruct (wf_records _ W _ _ Hr) as [[]].
    eapply wf_set_record; [done|done|by apply wf_record_unlease|done].
  - destruct (fail_cases clock tid lid e p now q) as [(r & Hr & _ & ->)|[-> _]]; [|done].
    destruct (wf_records _ W _ _ Hr) as [Hw]. pose proof Hw as Hw'. destruct Hw'.
    destruct (exhausted r p) eqn:Ex; simpl;
      [eapply wf_set_record; [done|done|by apply wf_record_unlease|done]|].
    destruct (computeBackoffDelayMs _ _ _) eqn:Ec; simpl;
      [|eapply wf_set_record; [done|done|by apply wf_record_unlease|done]].
    eapply wf_set_record; [done|done| |done]. apply wf_record_unlease; [done|].
    simpl. apply computeBackoffDelayMs_Ok in Ec.
    pose proof (below_min_attempts _ _ _ _ Ec Ex). lia.
  - by destruct W.
Qed.

Lemma run_wf os q : Forall op_uuid_ok os → wf q → wf (run os q).
Proof.
  unfold run. revert q. induction os as [|o os IH]; intros q; simpl; [done|].
  rewrite Forall_cons. intros [? ?] ?. by apply IH, wf_exec.
Qed.

Lemma run_cons o os q : run (o :: os) q = run os (exec o q).
Proof. done. Qed.

(** ** Leases in a history *)

(** A call by someone other than the holder [lid] of the lease on [tid], made
    before the lease's expiry [e] as far as it reads the clock. *)
Definition foreign (tid lid : jsstring) (e : date) (o : op) : Prop :=
  match o with
  | OpClaim clock _ _ now => date_leb e (default clock now) = false
  | OpComplete t l _ | OpRelease t l | OpFail _ t l _ _ _ => (t, l) ≠ (tid, lid)
  | OpEnqueue _ _ _ | OpClose => True
  end.

(** No claim of the history draws [lid] as its lease id. *)
Definition not_drawn (lid : jsstring) (o : op) : Prop :=
  match o with OpClaim _ uuid _ _ => uuid ≠ lid | _ => True end.

Lemma exec_enqueue_get q now uuid i tid r :
  map_get (records q) tid = Some r →
  map_get (records (exec (OpEnqueue now uuid i) q)) tid = Some r.
Proof.
  intros Hr. simpl. rewrite enqueue_cases. destruct (closed q); [done|].
  destruct (assertSubscriptionQueueEnqueueInput i); [|done].
  destruct (truthy_opt (_ ≫= _)); [done|]. cbv zeta. unfold map_has.
  destruct (map_get (records q) (default _ _)) eqn:E; [done|]. simpl.
  rewrite map_get_set_ne; [done|]. congruence.
Qed.

(** A call changes the record of [tid] only when it claims it, or is made by
    the holder of its lease. *)
Lemma exec_get q o tid r :
  wf q → map_get (records q) tid = Some r →
  map_get (records (exec o q)) tid = Some r ∨
  match o with
  | OpClaim clock uuid ttl now => isClaimable r (default clock now) = true ∧
      map_get (records (exec o q)) tid = Some (mkRecord (task r) Leased (Some uuid)
        (Some (date_plus (default clock now) ttl)) (res r) (error r))
  | OpComplete t l _ | OpRelease t l | OpFail _ t l _ _ _ => t = tid ∧ leaseId r = Some l
  | _ => False
  end.
Proof.
  intros W Hr. destruct o as [now uuid i|clock uuid ttl now|t l x|t l|clock t l e p now|].
  - left. by apply exec_enqueue_get.
  - cbn [exec]. destruct (claim clock uuid ttl now q) as [q' out] eqn:E.
    destruct (claim_cases _ _ _ _ _ _ _ E) as [[-> _]|(k & r' & Hf & -> & _)]; [by left|].
    pose proof (first_claimable_get _ _ _ _ (wf_keys _ W) Hf) as Hk.
    apply first_claimable_Some in Hf as [Hc _]. simpl. rewrite map_get_set.
    case_decide; [subst|by left]. right. by simplify_eq.
  - cbn [exec]. destruct (complete_cases t l x q) as [(r' & H1 & H2 & ->)|[-> _]]; [|by left].
    simpl. rewrite map_get_set. case_decide; [subst; right; by simplify_eq|by left].
  - cbn [exec]. destruct (release_cases t l q) as [(r' & H1 & H2 & ->)|[-> _]]; [|by left].
    simpl. rewrite map_get_set. case_decide; [subst; right; by simplify_eq|by left].
  - cbn [exec]. destruct (fail_cases clock t l e p now q) as [(r' & H1 & H2 & ->)|[-> _]]; [|by left].
    destruct (decide (t = tid)); [subst; right; by simplify_eq|left].
    destruct (exhausted r' p); [|destruct (computeBackoffDelayMs _ _ _)]; simpl; by rewrite map_get_set_ne.
  - by left.
Qed.

Lemma isClaimable_leased (r : Rec) now e :
  status r = Leased → leaseExpiresAt r = Some e → isClaimable r now = date_leb e now.
Proof. unfold isClaimable. by intros -> ->. Qed.

(** Calls of others before the expiry leave the leased record alone. *)
Lemma run_foreign_get os q tid lid e r :
  wf q → Forall op_uuid_ok os → Forall (foreign tid lid e) os →
  map_get (records q) tid = Some r →
  status r = Leased → leaseId r = Some lid → leaseExpiresAt r = Some e →
  map_get (records (run os q)) tid = Some r.
Proof.
  intros W Hok Hf Hr Hs Hl He. revert q W Hr.
  induction os as [|o os IH]; intros q W Hr; [done|].
  apply Forall_cons in Hok as [Hok1 Hok], Hf as [Hf1 Hf]. rewrite run_cons.
  apply IH; try done; [by apply wf_exec|].
  destruct (exec_get q o tid r W Hr) as [H|H]; [done|].
  destruct o; simpl in *; try (destruct H as [-> H]; congruence); try done.
  rewrite (isClaimable_leased r _ e Hs He) in H. destruct H; congruence.
Qed.

Lemma not_holder_exec o q tid lid :
  wf q → is_Some (map_get (records q) tid) → not_drawn lid o →
  not_holder tid lid q →
  not_holder tid lid (exec o q) ∧ is_Some (map_get (records (exec o q)) tid).
Proof.
  intros W [r Hr] Hd Hn. specialize (Hn r Hr).
  destruct (exec_get q o tid r W Hr) as [H|H].
  { split; [|eauto]. intros r'. rewrite H. congruence. }
  destruct o as [now uuid i|clock uuid ttl now|t l x|t l|clock t l e p now|]; try done.
  - destruct H as [_ H]. split; [|eauto]. intros r'. rewrite H. intros [= <-]. simpl in *. congruence.
  - destruct H as [-> H]. cbn [exec].
    destruct (complete_cases tid l x q) as [(r' & H1 & H2 & ->)|[-> Hx]]; [|by destruct (Hx r)].
    unfold not_holder. simpl. rewrite map_get_set_eq. split; [|eauto]. by intros ? [= <-].
  - destruct H as [-> H]. cbn [exec].
    destruct (release_cases tid l q) as [(r' & H1 & H2 & ->)|[-> Hx]]; [|by destruct (Hx r)].
    unfold not_holder. simpl. rewrite map_get_set_eq. split; [|eauto]. by intros ? [= <-].
  - destruct H as [-> H]. cbn [exec].
    destruct (fail_cases clock tid l e p now q) as [(r' & H1 & H2 & ->)|[-> Hx]]; [|by destruct (Hx r)].
    unfold not_holder.
    destruct (exhausted r' p); [|destruct (computeBackoffDelayMs _ _ _)]; simpl;
      rewrite map_get_set_eq; (split; [|eauto]); by intros ? [= <-].
Qed.

Lemma not_holder_run os q tid lid :
  wf q → Forall op_uuid_ok os → Forall (not_drawn lid) os →
  is_Some (map_get (records q) tid) → not_holder tid lid q → not_holder tid lid (run os q).
Proof.
  revert q. induction os as [|o os IH]; intros q W Hok Hd Hs Hn; [done|].
  apply Forall_cons in Hok as [Hok1 Hok], Hd as [Hd1 Hd]. rewrite run_cons.
  destruct (not_holder_exec o q tid lid W Hs Hd1 Hn). apply IH; try done. by apply wf_exec.
Qed.

(** Whoever does not hold the lease is refused by every settling call, which
    leaves the queue as it was. *)
Lemma not_holder_refused q tid lid :
  not_holder tid lid q →
  (∀ x, complete tid lid x q = (q, Throw not_found)) ∧
  release tid lid q = (q, Throw not_found) ∧
  (∀ clock e p now, fail clock tid lid e p now q = (q, Throw not_found)).
Proof.
  intros Hn. split; [|split].
  - intros x. destruct (complete_cases tid lid x q) as [(r & H1 & H2 & _)|[-> _]]; [|done].
    by destruct (Hn r).
  - destruct (release_cases tid lid q) as [(r & H1 & H2 & _)|[-> _]]; [|done]. by destruct (Hn r).
  - intros clock e p now.
    destruct (fail_cases clock tid lid e p now q) as [(r & H1 & H2 & _)|[-> _]]; [|done].
    by destruct (Hn r).
Qed.

(** A successful claim leaves the claimed record leased under the claim's id. *)
Lemma claim_leased q q1 clock uuid ttl now c :
  wf q → claim clock uuid ttl now q = (q1, Ok (Some c)) →
  c_leaseId c = uuid ∧
  ∃ r, map_get (records q1) (taskId (c_task c)) = Some r ∧ status r = Leased ∧
    leaseId r = Some (c_leaseId c) ∧ leaseExpiresAt r = Some (c_leaseExpiresAt c) ∧
    task r = c_task c.
Proof.
  intros W E. destruct (claim_cases _ _ _ _ _ _ _ E) as [[-> [[? ?]|[? ?]]]|(k & r & Hf & -> & [= ->])];
    try done. split; [done|].
  pose proof (first_claimable_get _ _ _ _ (wf_keys _ W) Hf) as Hk.
  destruct (wf_records _ W _ _ Hk) as [Hw _]. simpl. rewrite (wf_id _ _ Hw).
  eexists. rewrite map_get_set_eq. split; [done|]. done.
Qed.

(** A record that lost its lease without leaving the [Leased] status. *)
Definition orphaned (r : Rec) : Prop :=
  status r = Leased ∧ leaseId r = None ∧ leaseExpiresAt r = None.

Lemma run_orphaned os q tid r :
  wf q → Forall op_uuid_ok os → map_get (records q) tid = Some r → orphaned r →
  map_get (records (run os q)) tid = Some r.
Proof.
  intros W Hok Hr (Hs & Hl & He). revert q W Hr.
  induction os as [|o os IH]; intros q W Hr; [done|].
  apply Forall_cons in Hok as [Hok1 Hok]. rewrite run_cons. apply IH; [done|by apply wf_exec|].
  destruct (exec_get q o tid r W Hr) as [H|H]; [done|].
  destruct o; simpl in *; try (destruct H as [? H]; congruence); try done.
  destruct H as [H _]. unfold isClaimable in H. by rewrite Hs, He in H.
Qed.

(** An idempotency key, once bound, stays bound to its task. *)
Lemma idem_exec o q key tid :
  wf q → map_get (idempotency q) key = Some tid → truthy tid = true →
  map_get (idempotency (exec o q)) key = Some tid.
Proof.
  intros W Hk Ht. destruct o as [now uuid i|clock uuid ttl now|t l x|t l|clock t l e p now|]; cbn [exec].
  - rewrite enqueue_cases. destruct (closed q); [done|].
    destruct (assertSubscriptionQueueEnqueueInput i); [|done].
    destruct (truthy_opt (_ ≫= _)) eqn:Ex; [done|]. cbv zeta.
    destruct (map_has _ _); [done|]. simpl.
    destruct (truthy_opt (in_idempotencyKey i)) as [k|]; [|done].
    rewrite map_get_set_ne; [done|]. intros ->. simpl in Ex. rewrite Hk in Ex. simpl in Ex.
    by rewrite Ht in Ex.
  - destruct (claim clock uuid ttl now q) as [q' out] eqn:E.
    by destruct (claim_cases _ _ _ _ _ _ _ E) as [[-> _]|(? & ? & _ & -> & _)].
  - by destruct (complete_cases t l x q) as [(? & _ & _ & ->)|[-> _]].
  - by destruct (release_cases t l q) as [(? & _ & _ & ->)|[-> _]].
  - destruct (fail_cases clock t l e p now q) as [(r & _ & _ & ->)|[-> _]]; [|done].
    destruct (exhausted r p); [done|]. by destruct (computeBackoffDelayMs _ _ _).
  - done.
Qed.

Lemma idem_run os q key tid :
  wf q → Forall op_uuid_ok os → map_get (idempotency q) key = Some tid → truthy tid = true →
  map_get (idempotency (run os q)) key = Some tid.
Proof.
  revert q. induction os as [|o os IH]; intros q W Hok Hk Ht; [done|].
  apply Forall_cons in Hok as [Hok1 Hok]. rewrite run_cons.
  apply IH; try done; [by apply wf_exec|by apply idem_exec].
Qed.
End Methods.

(** ** Properties *)

Section Properties.
Context {Job Result : Type}.
Implicit Types (q : queue Job Result) (os : list (@op Job Result)).

(** C37: every history of calls on a new queue, whatever calls throw, leaves a
    well-formed queue: record keys are the task ids, each attempt counter lies
    between 1 and the task's limit, a record has a lease id exactly when it has
    an expiry and then is leased, and the idempotency index and the records
    agree in both directions. *)
Theorem queue_history_wf os : Forall op_uuid_ok os → wf (run os (@empty_queue Job Result)).
Proof. intros H. apply run_wf; [done|apply wf_empty]. Qed.

(** C15: lease exclusivity. After a claim, no sequence of calls made by others
    before the lease expires can touch the task: no claim before the expiry
    hands it out again, and the holder can still complete it. *)
Theorem lease_exclusive q q1 clock uuid ttl now c os :
  wf q → claim clock uuid ttl now q = (q1, Ok (Some c)) → op_uuid_ok (@OpClaim Job Result clock uuid ttl now) →
  Forall op_uuid_ok os →
  Forall (foreign (taskId (c_task c)) (c_leaseId c) (c_leaseExpiresAt c)) os →
  (∀ clock' uuid' ttl' now' q2 c', date_leb (c_leaseExpiresAt c) (default clock' now') = false →
     claim clock' uuid' ttl' now' (run os q1) = (q2, Ok (Some c')) →
     taskId (c_task c') ≠ taskId (c_task c)) ∧
  (∀ x, ∃ q2 r, complete (taskId (c_task c)) (c_leaseId c) x (run os q1) = (q2, Ok tt) ∧
     map_get (records q2) (taskId (c_task c)) = Some r ∧ status r = Completed ∧ res r = Some x).
Proof.
  intros W E Hu Hok Hf. destruct (claim_leased _ _ _ _ _ _ _ W E) as (_ & r & Hr & Hs & Hl & He & Ht).
  assert (W1 : wf q1). { pose proof (wf_exec _ _ Hu W) as W1. simpl in W1. by rewrite E in W1. }
  pose proof (run_foreign_get _ _ _ _ _ _ W1 Hok Hf Hr Hs Hl He) as Hg.
  pose proof (run_wf _ _ Hok W1) as W2. split.
  - intros clock' uuid' ttl' now' q2 c' Hn E' Heq.
    destruct (claim_cases _ _ _ _ _ _ _ E') as [[-> [[? ?]|[? ?]]]|(k & r' & Hf' & -> & [= ->])]; try done.
    pose proof (first_claimable_get _ _ _ _ (wf_keys _ W2) Hf') as Hk.
    destruct (wf_records _ W2 _ _ Hk) as [Hw _]. simpl in Heq. rewrite (wf_id _ _ Hw) in Heq. subst k.
    assert (r' = r) as -> by congruence.
    apply first_claimable_Some in Hf' as [Hc _].
    rewrite (isClaimable_leased r _ _ Hs He) in Hc. congruence.
  - intros x. destruct (complete_cases (taskId (c_task c)) (c_leaseId c) x (run os q1))
      as [(r' & H1 & H2 & ->)|[_ Hx]]; [|by destruct (Hx r)].
    eexists _, _. split; [done|]. simpl. by rewrite map_get_set_eq.
Qed.

(** fencing. Once a task has been claimed under another lease id, the
    previous holder can no longer complete, release or fail it, at any later
    point of the history: each call is refused with [JobNotFound] and changes
    nothing. *)
Theorem stale_lease_fenced q q1 clock uuid ttl now c os lid :
  wf q → claim clock uuid ttl now q = (q1, Ok (Some c)) → op_uuid_ok (@OpClaim Job Result clock uuid ttl now) →
  lid ≠ c_leaseId c → Forall op_uuid_ok os → Forall (not_drawn lid) os →
  let q2 := run os q1 in let tid := taskId (c_task c) in
  (∀ x, complete tid lid x q2 = (q2, Throw not_found)) ∧
  release tid lid q2 = (q2, Throw not_found) ∧
  (∀ clock e p now, fail clock tid lid e p now q2 = (q2, Throw not_found)).
Proof.
  intros W E Hu Hne Hok Hd. destruct (claim_leased _ _ _ _ _ _ _ W E) as (_ & r & Hr & Hs & Hl & He & Ht).
  assert (W1 : wf q1). { pose proof (wf_exec _ _ Hu W) as W1. simpl in W1. by rewrite E in W1. }
  apply not_holder_refused, not_holder_run; try done. intros r' Hr'. congruence.
Qed.

(** on an open queue a valid claim hands out the first claimable record in
    enqueue order, leasing it in place and touching no other record; it returns
    nothing, and changes nothing, exactly when no record is claimable. *)
Theorem claim_first_in_order q clock uuid ttl now :
  wf q → closed q = false → assertSubscriptionQueueClaimInput ttl now = Ok tt →
  let t := default clock now in
  (Forall (λ kr, isClaimable kr.2 t = false) (records q) ∧
     claim clock uuid ttl now q = (q, Ok None)) ∨
  (∃ l1 k r l2, records q = l1 ++ (k, r) :: l2 ∧
     Forall (λ kr, isClaimable kr.2 t = false) l1 ∧ isClaimable r t = true ∧
     claim clock uuid ttl now q =
       (mkQueue (l1 ++ (k, mkRecord (task r) Leased (Some uuid) (Some (date_plus t ttl))
                            (res r) (error r)) :: l2) (idempotency q) (closed q),
        Ok (Some (mkClaim (task r) uuid (date_plus t ttl))))).
Proof.
  intros W Ho Hi t. unfold claim, assertOpen. unfold_M. rewrite Ho, Hi. simpl.
  destruct (first_claimable (records q) _) as [[k r]|] eqn:E.
  - right. apply first_claimable_Some in E as (Hc & l1 & l2 & Hl & Hall).
    exists l1, k, r, l2. do 3 (split; [done|]). unfold set_record. rewrite Hl.
    rewrite map_set_middle; [by rewrite Ho|].
    pose proof (wf_keys _ W) as Hnd. rewrite Hl, fmap_app in Hnd.
    apply NoDup_app in Hnd as (_ & Hnd & _). intros Hin. apply (Hnd k Hin). simpl. left.
  - left. apply first_claimable_None in E. done.
Qed.

(** enqueueing is idempotent per key for the whole life of the queue: after
    a key was accepted, any later valid enqueue with that key, however many
    calls lie between, replays the first task id and changes nothing. *)
Theorem enqueue_idempotent q q1 now uuid i tid key os now' uuid' i' :
  wf q → truthy uuid = true → in_idempotencyKey i = Some key →
  enqueue now uuid i q = (q1, Ok (Accepted tid)) →
  Forall op_uuid_ok os → closed (run os q1) = false →
  in_idempotencyKey i' = Some key → assertSubscriptionQueueEnqueueInput i' = Ok tt →
  enqueue now' uuid' i' (run os q1) = (run os q1, Ok (IdempotentReplay tid)).
Proof.
  intros W Hu Hk E Hok Hc Hk' Hi'.
  pose proof (wf_enqueue q now uuid i W Hu) as W1. rewrite E in W1. simpl in W1.
  rewrite enqueue_cases in E. destruct (closed q); [done|].
  destruct (assertSubscriptionQueueEnqueueInput i) as [[]|] eqn:Ei; [|done].
  destruct (truthy_opt (_ ≫= _)) eqn:Ex; [done|]. cbv zeta in E.
  destruct (map_has _ _); [done|]. injection E as <- <-.
  assert (Htk : truthy key = true).
  { unfold assertSubscriptionQueueEnqueueInput in Hi'. rewrite !seq_Ok, Hk' in Hi'.
    destruct Hi' as (_ & Hb & _). apply guard_Ok in Hb. by apply truthy_trim. }
  assert (Hidem : map_get (idempotency (enqueued now (default uuid (in_taskId i)) i q)) key
                  = Some (default uuid (in_taskId i))).
  { simpl. rewrite Hk. simpl. rewrite Htk. apply map_get_set_eq. }
  assert (Htt : truthy (default uuid (in_taskId i)) = true).
  { destruct (wf_idem _ W1 _ _ Hidem) as (r & Hr & _). by destruct (wf_records _ W1 _ _ Hr). }
  pose proof (idem_run _ _ _ _ W1 Hok Hidem Htt) as Hrun.
  rewrite enqueue_cases, Hc, Hi', Hk'. simpl. rewrite Htk. simpl. rewrite Hrun. simpl. by rewrite Htt.
Qed.

(** reporting a failure with an invalid retry policy, while attempts are
    left, loses the task: the call throws [InvalidRetryPolicy] after the lease
    was already cleared, and from then on no sequence of calls can change the
    record: it stays leased to nobody, is never claimable and never settled. *)
Theorem fail_invalid_policy_orphans q tid lid r clock e p now err os :
  wf q → map_get (records q) tid = Some r → leaseId r = Some lid →
  exhausted r p = false → assertRetryPolicy p = Throw err → Forall op_uuid_ok os →
  ∃ q1 r1, fail clock tid lid e p now q = (q1, Throw err) ∧ orphaned r1 ∧
    map_get (records (run os q1)) tid = Some r1 ∧ (∀ t, isClaimable r1 t = false).
Proof.
  intros W Hr Hl Hx Hp Hok.
  pose proof (wf_exec (OpFail clock tid lid e p now) q I W) as W1. simpl in W1.
  destruct (fail_cases clock tid lid e p now q) as [(r' & H1 & H2 & E)|[_ Hn]]; [|by destruct (Hn r)].
  assert (r' = r) as -> by congruence. rewrite Hx in E.
  unfold computeBackoffDelayMs in E. unfold mbind, result_bind in E. rewrite Hp in E.
  destruct (wf_records _ W _ _ Hr) as [Hw _].
  assert (Hs : status r = Leased) by (apply (wf_leased _ _ Hw); eauto).
  eexists _, _. split; [exact E|]. rewrite E in W1.
  assert (orphaned (mkRecord (task r) (status r) None None (res r) (Some (safeError e)))) as Ho by done.
  split; [exact Ho|]. split.
  - apply run_orphaned; try done. simpl. apply map_get_set_eq.
  - intros t. unfold isClaimable. simpl. by rewrite Hs.
Qed.

(** reporting a failure with a valid policy settles the task one way or the
    other: it is dead-lettered exactly when its attempt has reached the smaller
    of the two limits, and otherwise is scheduled for its next attempt, without
    a lease. It never throws once the caller holds the lease. *)
Theorem fail_retries_or_dead_letters q tid lid r clock e p now :
  map_get (records q) tid = Some r → leaseId r = Some lid → assertRetryPolicy p = Ok tt →
  ∃ q1 out r1, fail clock tid lid e p now q = (q1, Ok out) ∧
    map_get (records q1) tid = Some r1 ∧ leaseId r1 = None ∧ error r1 = Some (safeError e) ∧
    if exhausted r p
    then out = FailDeadLettered ∧ status r1 = DeadLettered ∧ task r1 = task r
    else ∃ d, computeBackoffDelayMs (attempt (task r)) p (Fin (1 # 2)) = Ok d ∧
      out = FailRetryScheduled (attempt (task r) + 1) (date_plus (default clock now) d) ∧
      status r1 = RetryScheduled ∧ attempt (task r1) = attempt (task r) + 1 ∧
      attempt (task r1) ≤ maxAttempts (task r1) ∧
      runAfter (task r1) = date_plus (default clock now) d.
Proof.
  intros Hr Hl Hp.
  destruct (fail_cases clock tid lid e p now q) as [(r' & H1 & H2 & E)|[_ Hn]]; [|by destruct (Hn r)].
  assert (r' = r) as -> by congruence. destruct (exhausted r p) eqn:Hx.
  - eexists _, _, _. split; [exact E|]. simpl. by rewrite map_get_set_eq.
  - destruct (computeBackoffDelayMs (attempt (task r)) p (Fin (1 # 2))) as [d|x] eqn:Ed.
    + eexists _, _, _. split; [exact E|]. simpl. rewrite map_get_set_eq.
      do 3 (split; [done|]). exists d. do 4 (split; [done|]). split; [|done].
      pose proof (below_min_attempts _ _ _ _ Hp Hx). simpl. lia.
    + exfalso. unfold computeBackoffDelayMs in Ed. unfold mbind, result_bind in Ed.
      rewrite Hp in Ed. by destruct (num_is_zero _).
Qed.

(** for a valid policy, a draw of the generator in [0, 1] and an attempt
    within the exponent range of a double, the back-off delay is a finite
    number that is never negative and at most the cap plus the jitter share
    (up to rounding to a millisecond); without jitter it is exactly the base
    delay doubled per attempt, cut at the cap. *)
Theorem backoff_bounds a p u x j b :
  assertRetryPolicy p = Ok tt → 1 ≤ a ≤ 1024 → (0 <= u <= 1)%Q →
  maxDelayMs p = Fin x → baseDelayMs p = Fin b →
  default (num_of_Z 0) (jitterRatio p) = Fin j →
  ∃ d, computeBackoffDelayMs a p (Fin u) = Ok (Fin d) ∧
    (0 <= d)%Q ∧ (d <= x * (1 + j) + (1 # 2))%Q ∧
    ((j == 0)%Q → (d = x ∨ d = (b * inject_Z (2 ^ (a - 1)))%Q) ∧
                  (d <= x)%Q ∧ (d <= b * inject_Z (2 ^ (a - 1)))%Q).
Proof.
  intros Hp Ha Hu Hx Hb Hj.
  destruct (assertRetryPolicy_Ok _ _ Hp) as (m & b' & x' & _ & _ & Eb & Hb0 & Ex & Hbx & j' & Ej & Hj').
  assert (b' = b) as -> by congruence. assert (x' = x) as -> by congruence.
  assert (j' = j) as -> by congruence.
  unfold computeBackoffDelayMs, mbind, result_bind. rewrite Hp, Hx, Hb, Hj.
  replace (Z.max 0 (a - 1)) with (a - 1) by lia.
  destruct (raw_delay_range x b (a - 1)) as (raw & -> & Hraw & Hle & Heq); [done|done|lia|].
  unfold num_is_zero. destruct (Qeq_bool j 0) eqn:Ejz.
  - exists raw. repeat split; try lra; try nra. done.
  - assert (¬ (j == 0)%Q) as Hnz by (intros H%Qeq_bool_iff; congruence).
    change (num_of_Z 2) with (Fin (inject_Z 2)). change (num_of_Z (-1)) with (Fin (inject_Z (-1))).
    unfold num_mul, num_add, num_round. rewrite num_max_Z.
    set (z := (raw + raw * j * (u * inject_Z 2 + inject_Z (-1)) + (1 # 2))%Q).
    assert (Hz : (z <= x * (1 + j) + (1 # 2))%Q).
    { unfold z. change (inject_Z 2) with 2%Q. change (inject_Z (-1)) with (-1)%Q.
      assert (raw * j * (u * 2 + -1) <= raw * j)%Q by (assert (0 <= raw * j)%Q by nra; nra).
      assert (raw * j <= x * j)%Q by nra. lra. }
    exists (inject_Z (Z.max 0 (Qfloor z))). split; [done|].
    split; [by rewrite <- (Zle_Qle 0); lia|]. split; [|done].
    pose proof (Qfloor_le z). destruct (Z.max_spec 0 (Qfloor z)) as [[_ ->]|[_ ->]]; [lra|].
    change (inject_Z 0) with 0%Q. nra.
Qed.
End Properties.

(** ** Concrete histories *)

Definition ex_input (key : string) : EnqueueInput nat :=
  mkEnqueue None 7%nat (Some (js key)) None (Some (num_of_Z 2)) None.

Definition ex_ops : list (@op nat nat) :=
  [OpEnqueue (At 0) (js "task-a") (ex_input "key-a");
   OpEnqueue (At 1) (js "task-b") (ex_input "key-b")].

Definition ex_queue : queue nat nat := run ex_ops empty_queue.

Definition ex_claimed : queue nat nat * result QueueError (option (Claim nat)) :=
  claim (At 10) (js "lease-1") (num_of_Z 100) None ex_queue.

Definition ex_claim : Claim nat :=
  mkClaim (mkTask (js "task-a") 7%nat 1 2 (Some (js "key-a")) (At 0) (At 0) []) (js "lease-1") (At 110).

Definition ex_others : list (@op nat nat) :=
  [OpClaim (At 20) (js "lease-2") (num_of_Z 100) None;
   OpFail (At 21) (js "task-b") (js "lease-2") OtherValue defaultSubscriptionRetryPolicy None].

Definition ex_bad_policy : RetryPolicy := mkPolicy NaN (num_of_Z 1) (num_of_Z 2) None.

Lemma ex_ops_ok : Forall op_uuid_ok ex_ops.
Proof. repeat constructor. Defined.

Lemma ex_queue_wf : wf ex_queue.
Proof. apply run_wf; [exact ex_ops_ok|apply wf_empty]. Defined.

Lemma ex_claimed_eq : ex_claimed = (ex_claimed.1, Ok (Some ex_claim)).
Proof. vm_compute. reflexivity. Defined.

Lemma ex_claimed_wf : wf ex_claimed.1.
Proof. exact (wf_exec (OpClaim (At 10) (js "lease-1") (num_of_Z 100) None) ex_queue eq_refl ex_queue_wf). Defined.

Lemma ex_others_ok : Forall op_uuid_ok ex_others.
Proof. repeat constructor. Defined.

Lemma queue_history_wf_witness : Forall op_uuid_ok ex_ops ∧ wf (run ex_ops (@empty_queue nat nat)).
Proof. split; [exact ex_ops_ok|]. exact (queue_history_wf ex_ops ex_ops_ok). Defined.

Lemma lease_exclusive_witness :
  Forall (foreign (js "task-a") (js "lease-1") (At 110)) ex_others ∧
  ∃ q2 r, complete (js "task-a") (js "lease-1") 5%nat (run ex_others ex_claimed.1) = (q2, Ok tt) ∧
     map_get (records q2) (js "task-a") = Some r ∧ status r = Completed ∧ res r = Some 5%nat.
Proof.
  assert (Forall (foreign (js "task-a") (js "lease-1") (At 110)) ex_others) as Hf.
  { repeat constructor. intros [=]. }
  split; [exact Hf|].
  exact (proj2 (lease_exclusive ex_queue ex_claimed.1 (At 10) (js "lease-1") (num_of_Z 100) None
    ex_claim ex_others ex_queue_wf ex_claimed_eq eq_refl ex_others_ok Hf) 5%nat).
Defined.

Lemma stale_lease_fenced_witness :
  let q2 := run ex_others ex_claimed.1 in
  release (js "task-a") (js "lease-0") q2 = (q2, Throw not_found).
Proof.
  assert (Forall (not_drawn (js "lease-0")) ex_others) as Hd by (repeat constructor; intros [=]).
  exact (proj1 (proj2 (stale_lease_fenced ex_queue ex_claimed.1 (At 10) (js "lease-1") (num_of_Z 100) None
    ex_claim ex_others (js "lease-0") ex_queue_wf ex_claimed_eq eq_refl
    ltac:(vm_compute; intros [=]) ex_others_ok Hd))).
Defined.

Lemma claim_first_in_order_witness :
  closed ex_queue = false ∧
  ((Forall (λ kr, isClaimable kr.2 (At 10) = false) (records ex_queue) ∧
     claim (At 10) (js "lease-1") (num_of_Z 100) None ex_queue = (ex_queue, Ok None)) ∨
   (∃ l1 k r l2, records ex_queue = l1 ++ (k, r) :: l2 ∧
     Forall (λ kr, isClaimable kr.2 (At 10) = false) l1 ∧ isClaimable r (At 10) = true ∧
     claim (At 10) (js "lease-1") (num_of_Z 100) None ex_queue =
       (mkQueue (l1 ++ (k, mkRecord (task r) Leased (Some (js "lease-1"))
          (Some (date_plus (At 10) (num_of_Z 100))) (res r) (error r)) :: l2)
          (idempotency ex_queue) (closed ex_queue),
        Ok (Some (mkClaim (task r) (js "lease-1") (date_plus (At 10) (num_of_Z 100))))))).
Proof.
  split; [reflexivity|].
  exact (claim_first_in_order ex_queue (At 10) (js "lease-1") (num_of_Z 100) None
    ex_queue_wf eq_refl eq_refl).
Defined.

Lemma enqueue_idempotent_witness :
  let q1 := (enqueue (At 0) (js "task-a") (ex_input "key-a") (@empty_queue nat nat)).1 in
  enqueue (At 9) (js "task-z") (ex_input "key-a") (run ex_others q1) =
    (run ex_others q1, Ok (IdempotentReplay (js "task-a"))).
Proof.
  exact (enqueue_idempotent empty_queue _ (At 0) (js "task-a") (ex_input "key-a") (js "task-a")
    (js "key-a") ex_others (At 9) (js "task-z") (ex_input "key-a") wf_empty eq_refl eq_refl
    eq_refl ex_others_ok eq_refl eq_refl eq_refl).
Defined.

Lemma fail_invalid_policy_orphans_witness :
  ∃ q1 r1, fail (At 50) (js "task-a") (js "lease-1") OtherValue ex_bad_policy None ex_claimed.1 =
      (q1, Throw (mkError InvalidRetryPolicy (js "Invalid subscription queue retry policy."))) ∧
    orphaned r1 ∧ map_get (records (run ex_others q1)) (js "task-a") = Some r1 ∧
    (∀ t, isClaimable r1 t = false).
Proof.
  refine (fail_invalid_policy_orphans ex_claimed.1 (js "task-a") (js "lease-1")
    (mkRecord (c_task ex_claim) Leased (Some (js "lease-1")) (Some (At 110)) None None)
    (At 50) OtherValue ex_bad_policy None _ ex_others ex_claimed_wf _ _ _ _ ex_others_ok);
    vm_compute; reflexivity.
Defined.

Lemma fail_retries_or_dead_letters_witness :
  ∃ q1 out, fail (At 50) (js "task-a") (js "lease-1") OtherValue defaultSubscriptionRetryPolicy None
    ex_claimed.1 = (q1, Ok out).
Proof.
  destruct (fail_retries_or_dead_letters ex_claimed.1 (js "task-a") (js "lease-1")
    (mkRecord (c_task ex_claim) Leased (Some (js "lease-1")) (Some (At 110)) None None)
    (At 50) OtherValue defaultSubscriptionRetryPolicy None eq_refl eq_refl eq_refl)
    as (q1 & out & r1 & H & _). by exists q1, out.
Defined.

Lemma backoff_bounds_witness :
  ∃ d, computeBackoffDelayMs 3 defaultSubscriptionRetryPolicy (Fin (1 # 2)) = Ok (Fin d) ∧
    (0 <= d)%Q ∧ (d <= inject_Z 60000 * (1 + (1 # 10)) + (1 # 2))%Q.
Proof.
  destruct (backoff_bounds 3 defaultSubscriptionRetryPolicy (1 # 2) (inject_Z 60000) (1 # 10)
    (inject_Z 1000) eq_refl ltac:(lia) ltac:(split; discriminate) eq_refl eq_refl eq_refl)
    as (d & H1 & H2 & H3 & _). by exists d.
Defined.
End Queue.
