(* ===== verification/QueueProcessor.v ===== *)
(** * The queue processor of queue-core

    [src/queue-core/queue-processing]: [SubscriptionQueueProcessor], the loop
    that claims tasks, runs them on a worker pool and settles them, and its
    [start]/[stop] methods. The queue is an interface ([TaskQueuePort], the
    port of [src/queue-core/task-queue/ports]); its laws ([TaskQueueLaws]) are
    what the loop relies on, and the in-memory queue satisfies them.

    JavaScript runs the code between two [await]s without interruption, so the
    model is a step function on the pieces between awaits: every loop has a
    program counter, and an event picks which piece runs next. Other clients of
    the queue, the abort signal and the shutdown timer are events too, so a
    theorem over all event lists covers all interleavings. *)

From stdpp Require Import base numbers list option sets strings.
From S2P Require Import Prelude TaskQueue.
Import Queue.

#[local] Open Scope Z_scope.

Module Processor.

(** ** The queue as the processor sees it *)

Class TaskQueuePort (S Job Result : Type) := {
  port_claim : date → jsstring → num → M S QueueError (option (Claim Job));
  port_release : option (jsstring → jsstring → M S QueueError unit);
  port_complete : jsstring → jsstring → Result → M S QueueError unit;
  port_fail : date → jsstring → jsstring → thrown → RetryPolicy → M S QueueError FailResult;
}.

#[export] Instance in_memory_port Job Result : TaskQueuePort (queue Job Result) Job Result := {|
  port_claim clock uuid ttl := claim clock uuid ttl None;
  port_release := Some release;
  port_complete := complete;
  port_fail clock tid lid e p := fail clock tid lid e p None;
|}.

(** ** State *)

Inductive ProcessorState : Set := Created | Running | Stopping | Stopped.

#[global] Instance ProcessorState_eq_dec : EqDecision ProcessorState.
Proof. solve_decision. Defined.

Record counters : Set := mkCounters {
  claimed : Z; completed : Z; retried : Z; deadLettered : Z; failed : Z }.

Record options : Set := mkOptions {
  o_retryPolicy : option RetryPolicy; o_leaseTtlMs : option num }.

Section Machine.
Context {S Job Result : Type} `{!TaskQueuePort S Job Result}.

(** Where a run of [runLoop] is: about to test the loop condition, or waiting
    for the promise of the named call. Task controllers are numbers. *)
Inductive pc : Type :=
| AtCheck
| AwaitClaim (r : option (Claim Job))
| AwaitIdle
| AwaitRelease
| AwaitWorker (c : Claim Job) (ctl : nat)
| AwaitComplete (c : Claim Job) (ctl : nat) (thrown : option QueueError)
| AwaitFail (c : Claim Job) (ctl : nat) (out : result QueueError FailResult)
| Finished
| Rejected (e : QueueError) (inFail : bool).

Record loop_state : Type := mkLoop { signal : nat; at_ : pc }.

Record proc : Type := mkProc {
  processorState : ProcessorState;
  loop : option nat;
  stopController : option nat;
  currentTaskController : option nat;
  shutdownGraceTimer : option nat;
  cnt : counters;
  loops : list loop_state;
  aborted : list nat;
  externallyAborted : bool;
  nextController : nat;
  pendingStops : list nat;
}.

Definition initial : proc :=
  mkProc Created None None None None (mkCounters 0 0 0 0 0) [] [] false 0 [].

Context (opts : options).

Definition leaseTtl : num := default (num_of_Z 600000) (o_leaseTtlMs opts).
Definition policy : RetryPolicy := default defaultSubscriptionRetryPolicy (o_retryPolicy opts).

(** ** Field updates *)

Definition with_state (st : ProcessorState) (p : proc) : proc :=
  mkProc st (loop p) (stopController p) (currentTaskController p) (shutdownGraceTimer p)
    (cnt p) (loops p) (aborted p) (externallyAborted p) (nextController p) (pendingStops p).
Definition with_cnt (f : counters → counters) (p : proc) : proc :=
  mkProc (processorState p) (loop p) (stopController p) (currentTaskController p)
    (shutdownGraceTimer p) (f (cnt p)) (loops p) (aborted p) (externallyAborted p) (nextController p) (pendingStops p).
Definition with_timer (t : option nat) (p : proc) : proc :=
  mkProc (processorState p) (loop p) (stopController p) (currentTaskController p) t
    (cnt p) (loops p) (aborted p) (externallyAborted p) (nextController p) (pendingStops p).
Definition with_current (c : option nat) (p : proc) : proc :=
  mkProc (processorState p) (loop p) (stopController p) c (shutdownGraceTimer p)
    (cnt p) (loops p) (aborted p) (externallyAborted p) (nextController p) (pendingStops p).
Definition with_aborted (a : list nat) (p : proc) : proc :=
  mkProc (processorState p) (loop p) (stopController p) (currentTaskController p)
    (shutdownGraceTimer p) (cnt p) (loops p) a (externallyAborted p) (nextController p) (pendingStops p).
Definition goto (i : nat) (k : pc) (p : proc) : proc :=
  mkProc (processorState p) (loop p) (stopController p) (currentTaskController p)
    (shutdownGraceTimer p) (cnt p) (alter (λ l, mkLoop (signal l) k) i (loops p))
    (aborted p) (externallyAborted p) (nextController p) (pendingStops p).

Definition inc_claimed (c : counters) := mkCounters (claimed c + 1) (completed c) (retried c) (deadLettered c) (failed c).
Definition inc_completed (c : counters) := mkCounters (claimed c) (completed c + 1) (retried c) (deadLettered c) (failed c).
Definition inc_retried (c : counters) := mkCounters (claimed c) (completed c) (retried c + 1) (deadLettered c) (failed c).
Definition inc_deadLettered (c : counters) := mkCounters (claimed c) (completed c) (retried c) (deadLettered c + 1) (failed c).
Definition inc_failed (c : counters) := mkCounters (claimed c) (completed c) (retried c) (deadLettered c) (failed c + 1).

(** ** Methods *)

Definition is_aborted (p : proc) (k : nat) : bool := bool_decide (k ∈ aborted p).

Definition start (p : proc) : proc :=
  if decide (processorState p = Running) then p
  else
    let sig := nextController p in
    mkProc Running (Some (length (loops p))) (Some sig) (currentTaskController p)
      (shutdownGraceTimer p) (cnt p) (loops p ++ [mkLoop sig AtCheck]) (aborted p)
      (externallyAborted p) (sig + 1)%nat (pendingStops p).

(** The timer captures the controller of the task running when it is armed. *)
Definition armCurrentTaskShutdownGrace (p : proc) : proc :=
  match shutdownGraceTimer p, currentTaskController p with
  | None, Some ctl => if is_aborted p ctl then p else with_timer (Some ctl) p
  | _, _ => p
  end.

Definition clearShutdownGraceTimer (p : proc) : proc := with_timer None p.

Definition with_pending (l : list nat) (p : proc) : proc :=
  mkProc (processorState p) (loop p) (stopController p) (currentTaskController p)
    (shutdownGraceTimer p) (cnt p) (loops p) (aborted p) (externallyAborted p) (nextController p) l.

(** [stop] up to its [await this.loop], which waits for the loop current at
    that moment; the rest is [stop_done]. *)
Definition stop (p : proc) : proc * result QueueError unit :=
  match processorState p with
  | Created => (with_state Stopped p, Ok tt)
  | _ =>
      match stopController p with
      | None => (p, Throw (mkError ProcessorNotStarted (js "Queue processor has not been started.")))
      | Some k =>
          let p1 := armCurrentTaskShutdownGrace (with_state Stopping p) in
          (with_pending (default 0%nat (loop p) :: pendingStops p)
             (with_aborted (k :: aborted p1) p1), Ok tt)
      end
  end.

Definition stop_done (p : proc) : proc := with_state Stopped (clearShutdownGraceTimer p).

Definition stats (p : proc) : ProcessorState * counters := (processorState p, cnt p).

(** The loop condition fails. *)
Definition loop_aborted (p : proc) (l : loop_state) : bool :=
  is_aborted p (signal l) || externallyAborted p.

(** The [finally] block of an iteration. *)
Definition finally (ctl : nat) (p : proc) : proc :=
  let p1 := if decide (processorState p = Stopping) then clearShutdownGraceTimer p else p in
  if decide (currentTaskController p1 = Some ctl) then with_current None p1 else p1.

(** What the environment supplies to one piece of the loop: the clock, a fresh
    id, and how the worker pool's promise settled. *)
Record env : Type := mkEnv {
  e_clock : date; e_uuid : jsstring; e_outcome : Result + thrown }.

(** The [catch] block up to the [await] of [queue.fail]. *)
Definition catch (i : nat) (e : env) (c : Claim Job) (ctl : nat) (err : thrown) (s : S) (p : proc)
    : S * proc :=
  let '(s', out) := port_fail (e_clock e) (taskId (c_task c)) (c_leaseId c) err policy s in
  (s', goto i (AwaitFail c ctl out) (with_cnt inc_failed p)).

(** One piece of [runLoop] of loop [i]. *)
Definition loop_piece (i : nat) (e : env) (s : S) (p : proc) : S * proc :=
  match loops p !! i with
  | None => (s, p)
  | Some l =>
    match at_ l with
    | AtCheck =>
        if loop_aborted p l then (s, goto i Finished p)
        else match port_claim (e_clock e) (e_uuid e) leaseTtl s with
             | (s', Ok r) => (s', goto i (AwaitClaim r) p)
             | (s', Throw err) => (s', goto i (Rejected err false) p)
             end
    | AwaitClaim None => (s, goto i AwaitIdle p)
    | AwaitIdle => (s, goto i AtCheck p)
    | AwaitClaim (Some c) =>
        if loop_aborted p l then
          match port_release with
          | None => (s, goto i Finished p)
          | Some rel =>
              match rel (taskId (c_task c)) (c_leaseId c) s with
              | (s', Ok _) => (s', goto i AwaitRelease p)
              | (s', Throw err) => (s', goto i (Rejected err false) p)
              end
          end
        else
          let ctl := nextController p in
          let p1 := mkProc (processorState p) (loop p) (stopController p) (Some ctl)
            (shutdownGraceTimer p) (inc_claimed (cnt p)) (loops p) (aborted p)
            (externallyAborted p) (ctl + 1)%nat (pendingStops p) in
          let p2 := if decide (processorState p = Stopping)
                    then armCurrentTaskShutdownGrace p1 else p1 in
          (s, goto i (AwaitWorker c ctl) p2)
    | AwaitRelease => (s, goto i Finished p)
    | AwaitWorker c ctl =>
        match e_outcome e with
        | inl r =>
            match port_complete (taskId (c_task c)) (c_leaseId c) r s with
            | (s', Ok _) => (s', goto i (AwaitComplete c ctl None) p)
            | (s', Throw err) => (s', goto i (AwaitComplete c ctl (Some err)) p)
            end
        | inr err => catch i e c ctl err s p
        end
    | AwaitComplete c ctl None => (s, goto i AtCheck (finally ctl (with_cnt inc_completed p)))
    | AwaitComplete c ctl (Some err) => catch i e c ctl (ErrorObject (message err)) s p
    | AwaitFail c ctl (Ok (FailRetryScheduled _ _)) =>
        (s, goto i AtCheck (finally ctl (with_cnt inc_retried p)))
    | AwaitFail c ctl (Ok FailDeadLettered) =>
        (s, goto i AtCheck (finally ctl (with_cnt inc_deadLettered p)))
    | AwaitFail c ctl (Throw err) => (s, goto i (Rejected err true) (finally ctl p))
    | Finished | Rejected _ _ => (s, p)
    end
  end.

(** ** Events *)

Inductive event : Type :=
| EStart | EStop | EStopDone (i : nat) | EExternalAbort
| EGraceFired (ctl : nat)
| ELoop (i : nat) (e : env)
| EQueue (f : S → S).

(** The controllers the abort listener of [options.abortSignal] is attached
    to: those of the iterations that have not run their [finally] block. *)
Definition listening (l : loop_state) : option nat :=
  match at_ l with
  | AwaitWorker _ ctl | AwaitComplete _ ctl _ | AwaitFail _ ctl _ => Some ctl
  | _ => None
  end.

Definition loop_over (p : proc) (i : nat) : bool :=
  match loops p !! i with
  | Some l => match at_ l with Finished | Rejected _ _ => true | _ => false end
  | None => false
  end.

Definition pstep (ev : event) (st : S * proc) : S * proc :=
  let '(s, p) := st in
  match ev with
  | EStart => (s, start p)
  | EStop => (s, (stop p).1)
  | EStopDone i =>
      (s, if bool_decide (i ∈ pendingStops p) && loop_over p i then
            with_pending (list_difference (pendingStops p) [i]) (stop_done p) else p)
  | EExternalAbort =>
      (s, mkProc (processorState p) (loop p) (stopController p) (currentTaskController p)
        (shutdownGraceTimer p) (cnt p) (loops p) (omap listening (loops p) ++ aborted p) true
        (nextController p) (pendingStops p))
  | EGraceFired ctl =>
      (s, if decide (shutdownGraceTimer p = Some ctl) then with_aborted (ctl :: aborted p) p else p)
  | ELoop i e => loop_piece i e s p
  | EQueue f => (f s, p)
  end.

Definition psteps (evs : list event) (st : S * proc) : S * proc := foldl (λ st ev, pstep ev st) st evs.

Lemma goto_lookup i k p l : loops p !! i = Some l →
  loops (goto i k p) !! i = Some (mkLoop (signal l) k).
Proof. intros Hl. unfold goto. simpl. by rewrite list_lookup_alter_eq, Hl. Qed.

(** ** Accounting *)

Definition loop_sum (f : loop_state → Z) (ls : list loop_state) : Z :=
  foldr (λ l a, f l + a) 0 ls.

Lemma loop_sum_alter f g ls i l :
  ls !! i = Some l → loop_sum f (alter g i ls) = loop_sum f ls - f l + f (g l).
Proof.
  revert i. induction ls as [|x ls IH]; intros [|i]; try done.
  - intros [= ->]. simpl. lia.
  - intros H. change (alter g (Datatypes.S i) (x :: ls)) with (x :: alter g i ls).
    simpl. rewrite (IH i H). lia.
Qed.

Lemma loop_sum_app f l1 l2 : loop_sum f (l1 ++ l2) = loop_sum f l1 + loop_sum f l2.
Proof. induction l1; simpl; lia. Qed.

(** Iterations whose task is claimed but counted neither completed nor failed. *)
Definition unsettled (l : loop_state) : Z :=
  match at_ l with AwaitWorker _ _ | AwaitComplete _ _ _ => 1 | _ => 0 end.

(** Failures whose outcome is not counted: still awaited, or lost because
    [queue.fail] itself threw. *)
Definition unresolved (l : loop_state) : Z :=
  match at_ l with AwaitFail _ _ _ | Rejected _ true => 1 | _ => 0 end.

Definition accounted (p : proc) : Prop :=
  claimed (cnt p) = completed (cnt p) + failed (cnt p) + loop_sum unsettled (loops p) ∧
  failed (cnt p) = retried (cnt p) + deadLettered (cnt p) + loop_sum unresolved (loops p).

Lemma accounted_goto i k f p l :
  loops p !! i = Some l → accounted p →
  claimed (f (cnt p)) - claimed (cnt p) =
    completed (f (cnt p)) - completed (cnt p) + (failed (f (cnt p)) - failed (cnt p))
    + unsettled (mkLoop 0 k) - unsettled l →
  failed (f (cnt p)) - failed (cnt p) =
    retried (f (cnt p)) - retried (cnt p) + (deadLettered (f (cnt p)) - deadLettered (cnt p))
    + unresolved (mkLoop 0 k) - unresolved l →
  accounted (goto i k (with_cnt f p)).
Proof.
  intros Hl [A1 A2] H1 H2. unfold accounted, goto. simpl.
  rewrite !(loop_sum_alter _ _ _ _ _ Hl).
  change (unsettled (mkLoop (signal l) k)) with (unsettled (mkLoop 0 k)).
  change (unresolved (mkLoop (signal l) k)) with (unresolved (mkLoop 0 k)). lia.
Qed.

(** The counters and loops do not depend on the other fields. *)
Lemma accounted_ext p p' : cnt p' = cnt p → loops p' = loops p → accounted p → accounted p'.
Proof. unfold accounted. by intros -> ->. Qed.

Lemma arm_same p : cnt (armCurrentTaskShutdownGrace p) = cnt p ∧
  loops (armCurrentTaskShutdownGrace p) = loops p.
Proof. unfold armCurrentTaskShutdownGrace. by repeat case_match. Qed.

Lemma finally_same ctl p : cnt (finally ctl p) = cnt p ∧ loops (finally ctl p) = loops p.
Proof. unfold finally. by repeat case_decide. Qed.

(** A [goto] after updates of other fields. *)
Lemma accounted_goto_ext i k f p p' l :
  loops p !! i = Some l → cnt p' = f (cnt p) → loops p' = loops p → accounted p →
  claimed (f (cnt p)) - claimed (cnt p) =
    completed (f (cnt p)) - completed (cnt p) + (failed (f (cnt p)) - failed (cnt p))
    + unsettled (mkLoop 0 k) - unsettled l →
  failed (f (cnt p)) - failed (cnt p) =
    retried (f (cnt p)) - retried (cnt p) + (deadLettered (f (cnt p)) - deadLettered (cnt p))
    + unresolved (mkLoop 0 k) - unresolved l →
  accounted (goto i k p').
Proof.
  intros Hl Hc Hls A H1 H2. eapply accounted_ext, (accounted_goto i k f p l Hl A H1 H2);
    unfold goto; simpl; congruence.
Qed.

(** Close an accounting goal: counters change by [f], the loop moves on. *)
Ltac account Hl A E f :=
  eapply (accounted_goto_ext _ _ f);
  [exact Hl
  |rewrite ?(proj1 (finally_same _ _)); done
  |rewrite ?(proj2 (finally_same _ _)); done
  |exact A
  |unfold unsettled; rewrite E; simpl; lia
  |unfold unresolved; rewrite E; simpl; lia].

Lemma accounted_loop_piece i e s p : accounted p → accounted (loop_piece i e s p).2.
Proof.
  intros A. unfold loop_piece, catch. destruct (loops p !! i) as [l|] eqn:Hl; [|done].
  assert (Hstay : ∀ k, unsettled (mkLoop 0 k) = unsettled l → unresolved (mkLoop 0 k) = unresolved l →
    accounted (goto i k p)).
  { intros k H1 H2. eapply (accounted_goto_ext i k id); try done; simpl; lia. }
  destruct (at_ l) as [|[c|]| | |c ctl|c ctl [err|]|c ctl [[?|]|err]| |err b] eqn:E; try done.
  all: unfold unsettled, unresolved in Hstay; rewrite E in Hstay; simpl in Hstay.
  - destruct (loop_aborted p l); [by apply Hstay|]. by destruct (port_claim _ _ _ _) as [? [|]]; apply Hstay.
  - destruct (loop_aborted p l).
    + destruct port_release; [|by apply Hstay]. by destruct (_ : S * result _ _) as [? [|]]; apply Hstay.
    + eapply (accounted_goto_ext i _ inc_claimed); [exact Hl| | |exact A|..];
        [case_decide; [rewrite (proj1 (arm_same _))|]; done
        |case_decide; [rewrite (proj2 (arm_same _))|]; done|..];
        unfold unsettled, unresolved; rewrite E; simpl; lia.
  - by apply Hstay.
  - by apply Hstay.
  - by apply Hstay.
  - destruct (e_outcome e) as [r|err]; simpl.
    + by destruct (port_complete _ _ _ _) as [? [|]]; apply Hstay.
    + destruct (port_fail _ _ _ _ _ _) as [s' out]. simpl.
      account Hl A E inc_failed.
  - destruct (port_fail _ _ _ _ _ _) as [s' out]. simpl.
    account Hl A E inc_failed.
  - account Hl A E inc_completed.
  - account Hl A E inc_retried.
  - account Hl A E inc_deadLettered.
  - account Hl A E (@id counters).
Qed.

Lemma accounted_pstep ev st : accounted st.2 → accounted (pstep ev st).2.
Proof.
  destruct st as [s p]. intros A. destruct ev as [| |j| |ctl|i e|f]; simpl in *.
  - unfold start. case_decide; [done|]. destruct A as [A1 A2].
    unfold accounted. simpl. rewrite !loop_sum_app. simpl. unfold unsettled, unresolved in *. simpl. lia.
  - eapply accounted_ext; [..|exact A]; unfold stop; repeat case_match; simpl;
      rewrite ?(proj1 (arm_same _)), ?(proj2 (arm_same _)); done.
  - by case_match.
  - done.
  - by case_decide.
  - by apply accounted_loop_piece.
  - done.
Qed.

Lemma accounted_psteps evs st : accounted st.2 → accounted (psteps evs st).2.
Proof.
  unfold psteps. revert st. induction evs as [|ev evs IH]; intros st A; simpl; [done|].
  by apply IH, accounted_pstep.
Qed.

(** ** The contract between the loop and its queue *)

(** [holds s tid lid]: the lease [lid] on [tid] can be settled in state [s]. *)
Class TaskQueueLaws (inv : S → Prop) (holds : S → jsstring → jsstring → Prop) : Prop := {
  law_claim clock uuid s : inv s → truthy uuid = true →
    ∃ s' r, port_claim clock uuid leaseTtl s = (s', Ok r) ∧ inv s' ∧
      ∀ c, r = Some c → holds s' (taskId (c_task c)) (c_leaseId c);
  law_release rel tid lid s : port_release = Some rel → inv s → holds s tid lid →
    ∃ s', rel tid lid s = (s', Ok tt) ∧ inv s';
  law_complete tid lid x s : inv s → holds s tid lid →
    ∃ s', port_complete tid lid x s = (s', Ok tt) ∧ inv s';
  law_fail clock tid lid e s : inv s → holds s tid lid →
    ∃ s' out, port_fail clock tid lid e policy s = (s', Ok out) ∧ inv s';
}.

Section Contract.
Context {inv : S → Prop} {holds : S → jsstring → jsstring → Prop}.
Context `{!TaskQueueLaws inv holds}.

(** A loop that will not reject from here on, its task's lease being held. *)
Definition loop_safe (s : S) (l : loop_state) : Prop :=
  match at_ l with
  | AwaitClaim (Some c) | AwaitWorker c _ => holds s (taskId (c_task c)) (c_leaseId c)
  | AwaitComplete _ _ (Some _) | AwaitFail _ _ (Throw _) | Rejected _ _ => False
  | _ => True
  end.

(** The processor runs at most one loop. *)
Definition safe (st : S * proc) : Prop :=
  inv st.1 ∧ (length (loops st.2) ≤ 1)%nat ∧ Forall (loop_safe st.1) (loops st.2).

(** Events of one run: no restart, and other clients of the queue keep its
    invariant and the leases held by the loop. *)
Definition calm (ev : event) : Prop :=
  match ev with
  | EStart => False
  | ELoop _ e => truthy (e_uuid e) = true
  | EQueue f => ∀ s, inv s → inv (f s) ∧ ∀ tid lid, holds s tid lid → holds (f s) tid lid
  | _ => True
  end.

(** With one loop, moving it leaves no other loop to reconsider. *)
Lemma safe_goto s' i k p p' l :
  (length (loops p) ≤ 1)%nat → loops p !! i = Some l → loops p' = loops p →
  inv s' → loop_safe s' (mkLoop 0 k) → safe (s', goto i k p').
Proof.
  intros Hlen Hl Hls Hi Hk. unfold safe, goto. simpl. rewrite Hls.
  destruct (loops p) as [|x [|? ?]]; simpl in *; try lia; [done|].
  destruct i as [|i]; [|done]. split; [done|]. split; [done|]. by constructor.
Qed.

Lemma safe_loop_piece i e st : truthy (e_uuid e) = true → safe st → safe (loop_piece i e st.1 st.2).
Proof.
  destruct st as [s p]. intros Hu (Hi & Hlen & Hsafe). simpl in *. unfold loop_piece, catch.
  destruct (loops p !! i) as [l|] eqn:Hl; [|done].
  pose proof (Forall_lookup_1 _ _ _ _ Hsafe Hl) as Hs. unfold loop_safe in Hs.
  destruct (at_ l) as [|[c|]| | |c ctl|c ctl [err|]|c ctl [[?|]|err]| |err b] eqn:E; try done;
    try (by eapply safe_goto).
  - destruct (loop_aborted p l); [by eapply safe_goto|].
    destruct (law_claim (e_clock e) (e_uuid e) s Hi Hu) as (s' & r & -> & Hi' & Hr).
    eapply safe_goto; try done. unfold loop_safe. simpl. destruct r; [by apply Hr|done].
  - destruct (loop_aborted p l).
    + destruct port_release as [rel|] eqn:Er; [|by eapply safe_goto].
      destruct (law_release rel _ _ s Er Hi Hs) as (s' & -> & Hi'). by eapply safe_goto.
    + eapply (safe_goto s i _ p); try done. case_decide; [by rewrite (proj2 (arm_same _))|done].
  - destruct (e_outcome e) as [r|err].
    + destruct (law_complete _ _ r s Hi Hs) as (s' & -> & Hi'). by eapply safe_goto.
    + destruct (law_fail (e_clock e) _ _ err s Hi Hs) as (s' & out & -> & Hi').
      by eapply safe_goto.
  - eapply (safe_goto s i _ p); try done. by rewrite (proj2 (finally_same _ _)).
  - eapply (safe_goto s i _ p); try done. by rewrite (proj2 (finally_same _ _)).
  - eapply (safe_goto s i _ p); try done. by rewrite (proj2 (finally_same _ _)).
Qed.

Lemma safe_ext s p p' : loops p' = loops p → safe (s, p) → safe (s, p').
Proof. unfold safe. simpl. by intros ->. Qed.

Lemma safe_pstep ev st : calm ev → safe st → safe (pstep ev st).
Proof.
  destruct st as [s p]. intros Hc Hs. destruct ev as [| |j| |ctl|i e|f]; simpl in *.
  - done.
  - eapply safe_ext, Hs. unfold stop. repeat case_match; simpl; rewrite ?(proj2 (arm_same _)); done.
  - eapply safe_ext, Hs. by case_match.
  - by eapply safe_ext, Hs.
  - eapply safe_ext, Hs. by case_decide.
  - by apply (safe_loop_piece i e (s, p)).
  - destruct Hs as (Hi & Hlen & Hsafe). simpl in *. destruct (Hc s Hi) as [Hi' Hh].
    split; [done|]. split; [done|]. eapply Forall_impl; [exact Hsafe|].
    intros l. unfold loop_safe. repeat case_match; naive_solver.
Qed.

Lemma safe_psteps evs st : Forall calm evs → safe st → safe (psteps evs st).
Proof.
  unfold psteps. revert st. induction evs as [|ev evs IH]; intros st Hc Hs; simpl; [done|].
  apply Forall_cons in Hc as [Hc1 Hc]. by apply IH, safe_pstep.
Qed.
End Contract.
End Machine.

(** ** The in-memory queue honours the contract *)

Section InMemory.
Context {Job Result : Type} (opts : options).
Abbreviation Q := (queue Job Result).

Definition open_wf (q : Q) : Prop := wf q ∧ closed q = false.

Definition holder (q : Q) (tid lid : jsstring) : Prop :=
  ∃ r, map_get (records q) tid = Some r ∧ leaseId r = Some lid.

(** The options the processor was built with are usable. *)
Class ValidOptions : Prop := {
  valid_ttl : assertSubscriptionQueueClaimInput (leaseTtl opts) None = Ok tt;
  valid_policy : assertRetryPolicy (policy opts) = Ok tt;
}.

Context `{!ValidOptions}.

Lemma open_wf_exec (o : @op Job Result) q :
  op_uuid_ok o → o ≠ OpClose → open_wf q → open_wf (exec o q).
Proof.
  intros Hu Hn [W Ho]. split; [by apply wf_exec|].
  destruct o as [now uuid i|clock uuid ttl now|t l x|t l|clock t l e p now|]; cbn [exec]; [..|done].
  - rewrite enqueue_cases, Ho. cbv zeta. repeat case_match; first [exact Ho|done].
  - destruct (claim clock uuid ttl now q) as [q' out] eqn:E.
    by destruct (claim_cases _ _ _ _ _ _ _ E) as [[-> _]|(? & ? & _ & -> & _)].
  - by destruct (complete_cases t l x q) as [(? & _ & _ & ->)|[-> _]].
  - by destruct (release_cases t l q) as [(? & _ & _ & ->)|[-> _]].
  - destruct (fail_cases clock t l e p now q) as [(r & _ & _ & ->)|[-> _]]; [|done].
    destruct (exhausted r p); [done|]. by destruct (computeBackoffDelayMs _ _ _).
Qed.

#[export] Instance in_memory_laws : @TaskQueueLaws Q Job Result _ opts open_wf holder.
Proof.
  constructor.
  - intros clock uuid q [W Ho] Hu. cbn [port_claim in_memory_port].
    pose proof (open_wf_exec (OpClaim clock uuid (leaseTtl opts) None) q Hu ltac:(done) (conj W Ho)) as Hinv.
    cbn [exec] in Hinv. destruct (claim clock uuid (leaseTtl opts) None q) as [q' out] eqn:E.
    pose proof E as E'. unfold claim, assertOpen in E'. unfold mbind, M_bind, get, lift in E'.
    rewrite Ho, valid_ttl in E'. cbn in E'.
    assert (∃ r, out = Ok r) as [r ->].
    { destruct (first_claimable _ _) as [[k r]|]; injection E' as _ <-; eauto. }
    exists q', r. do 2 (split; [done|]). intros c ->.
    destruct (claim_leased _ _ _ _ _ _ _ W E) as (_ & r & Hr & _ & Hl & _). by exists r.
  - intros rel tid lid q [= <-] Hi (r & Hr & Hl).
    pose proof (open_wf_exec (OpRelease tid lid) q I ltac:(done) Hi) as Hinv. cbn [exec] in Hinv.
    destruct (release_cases tid lid q) as [(r' & _ & _ & E)|[_ Hn]]; [|by destruct (Hn r)].
    rewrite E in *. eauto.
  - intros tid lid x q Hi (r & Hr & Hl). cbn [port_complete in_memory_port].
    pose proof (open_wf_exec (OpComplete tid lid x) q I ltac:(done) Hi) as Hinv. cbn [exec] in Hinv.
    destruct (complete_cases tid lid x q) as [(r' & _ & _ & E)|[_ Hn]]; [|by destruct (Hn r)].
    rewrite E in *. eauto.
  - intros clock tid lid e q Hi (r & Hr & Hl). cbn [port_fail in_memory_port].
    pose proof (open_wf_exec (OpFail clock tid lid e (policy opts) None) q I ltac:(done) Hi) as Hinv.
    cbn [exec] in Hinv.
    destruct (fail_cases clock tid lid e (policy opts) None q) as [(r' & _ & _ & E)|[_ Hn]];
      [|by destruct (Hn r)].
    rewrite E in *. destruct (exhausted r' (policy opts)); [eauto|].
    unfold computeBackoffDelayMs, mbind, result_bind in *. rewrite valid_policy in *.
    destruct (num_is_zero _); eauto.
Qed.

(** *** One successful iteration *)

(** The loop [i] stands at its condition, with no abort requested. *)
Definition ready (i : nat) (p : @proc Job) : Prop :=
  ∃ sig, loops p !! i = Some (mkLoop sig AtCheck) ∧ loop_aborted p (mkLoop sig AtCheck) = false.

Definition completed_record (r : QueueRecord Job Result) (x : Result) : QueueRecord Job Result :=
  mkRecord (task r) Completed None None (Some x) (error r).

Lemma arm_aborted (p : @proc Job) : aborted (armCurrentTaskShutdownGrace p) = aborted p ∧
  externallyAborted (armCurrentTaskShutdownGrace p) = externallyAborted p.
Proof. unfold armCurrentTaskShutdownGrace. by repeat case_match. Qed.

Lemma finally_aborted ctl (p : @proc Job) : aborted (finally ctl p) = aborted p ∧
  externallyAborted (finally ctl p) = externallyAborted p.
Proof. unfold finally. by repeat case_decide. Qed.

Lemma iteration_completes i (e : @env Result) x (q : Q) p k r :
  open_wf q → ready i p → truthy (e_uuid e) = true → e_outcome e = inl x →
  first_claimable (records q) (e_clock e) = Some (k, r) →
  ∃ p', psteps opts (replicate 4 (ELoop i e)) (q, p) =
      (set_record k (completed_record r x) q, p') ∧
    ready i p' ∧ completed (cnt p') = completed (cnt p) + 1.
Proof.
  intros [W Ho] (sig & Hl & Hab) Hu Hx Hf.
  set (c := mkClaim (task r) (e_uuid e) (date_plus (e_clock e) (leaseTtl opts))).
  set (r1 := mkRecord (task r) Leased (Some (e_uuid e))
    (Some (date_plus (e_clock e) (leaseTtl opts))) (res r) (error r)).
  set (q1 := set_record k r1 q).
  assert (claim (e_clock e) (e_uuid e) (leaseTtl opts) None q = (q1, Ok (Some c))) as Ec.
  { unfold claim, assertOpen, mbind, M_bind, get, lift. rewrite Ho, valid_ttl. cbn. by rewrite Hf. }
  pose proof (first_claimable_get _ _ _ _ (wf_keys _ W) Hf) as Hk.
  destruct (wf_records _ W _ _ Hk) as [Hw _]. pose proof (wf_id _ _ Hw) as Hid.
  assert (complete (taskId (task r)) (e_uuid e) x q1 = (set_record k (completed_record r x) q, Ok tt)) as Ek.
  { rewrite Hid. destruct (complete_cases k (e_uuid e) x q1) as [(r' & H1 & _ & ->)|[_ Hn]].
    - unfold q1 in *. simpl in H1. rewrite map_get_set_eq in H1. injection H1 as <-.
      by rewrite set_record_twice.
    - exfalso. apply (Hn r1); [|done]. unfold q1. simpl. apply map_get_set_eq. }
  set (p1 := goto i (AwaitClaim (Some c)) p).
  assert (loop_piece opts i e q p = (q1, p1)) as E1.
  { unfold loop_piece. rewrite Hl. cbn [at_]. rewrite Hab. cbn [port_claim in_memory_port]. by rewrite Ec. }
  assert (loops p1 !! i = Some (mkLoop sig (AwaitClaim (Some c)))) as Hl1 by apply (goto_lookup _ _ _ _ Hl).
  destruct (loop_piece opts i e q1 p1) as [q2 p2] eqn:E2. pose proof E2 as E2'.
  unfold loop_piece in E2'. rewrite Hl1 in E2'. cbn [at_] in E2'.
  change (loop_aborted p1 _) with (loop_aborted p (mkLoop sig AtCheck)) in E2'. rewrite Hab in E2'.
  injection E2' as <- Hp2. set (ctl := nextController p1) in *.
  assert (∃ p1', p2 = goto i (AwaitWorker c ctl) p1' ∧ cnt p1' = inc_claimed (cnt p) ∧ loops p1' = loops p1 ∧
    aborted p1' = aborted p ∧ externallyAborted p1' = externallyAborted p) as (p1' & -> & Hc1 & Hls & Ha1 & Hx1).
  { eexists. split; [symmetry; exact Hp2|]. case_decide;
    rewrite ?(proj1 (arm_same _)), ?(proj2 (arm_same _)), ?(proj1 (arm_aborted _)), ?(proj2 (arm_aborted _)); done. }
  clear Hp2. rewrite <- Hls in Hl1. set (p2 := goto i (AwaitWorker c ctl) p1').
  pose proof (goto_lookup _ (AwaitWorker c ctl) _ _ Hl1) as Hl2. fold p2 in Hl2.
  set (p3 := goto i (AwaitComplete c ctl None) p2).
  assert (loop_piece opts i e q1 p2 = (set_record k (completed_record r x) q, p3)) as E3.
  { unfold loop_piece. rewrite Hl2. cbn [at_]. rewrite Hx. cbn [port_complete in_memory_port].
    change (c_task c) with (task r). change (c_leaseId c) with (e_uuid e). by rewrite Ek. }
  pose proof (goto_lookup _ (AwaitComplete c ctl None) _ _ Hl2) as Hl3. fold p3 in Hl3.
  set (p4 := goto i AtCheck (finally ctl (with_cnt inc_completed p3))).
  assert (loop_piece opts i e (set_record k (completed_record r x) q) p3 =
    (set_record k (completed_record r x) q, p4)) as E4.
  { unfold loop_piece. by rewrite Hl3. }
  exists p4. split; [|split].
  - unfold psteps, replicate, foldl, pstep. cbv beta iota. rewrite E1. cbv beta iota. rewrite E2.
    cbv beta iota. fold p2. rewrite E3. cbv beta iota. by rewrite E4.
  - exists sig. split.
    + apply (goto_lookup _ AtCheck _ (mkLoop sig (AwaitComplete c ctl None))).
      by rewrite (proj2 (finally_same _ _)).
    + unfold loop_aborted, is_aborted. unfold p4, goto. cbn [aborted externallyAborted signal].
      rewrite (proj1 (finally_aborted _ _)), (proj2 (finally_aborted _ _)). simpl. rewrite Ha1, Hx1. exact Hab.
  - unfold p4, goto. cbn [cnt]. rewrite (proj1 (finally_same _ _)). simpl. by rewrite Hc1.
Qed.

(** Records the claim at [t] would hand out. *)
Definition claimable_count (t : date) (q : Q) : nat :=
  length (List.filter (λ kr, isClaimable kr.2 t) (records q)).

Lemma claimable_count_complete t q k r x :
  wf q → first_claimable (records q) t = Some (k, r) →
  claimable_count t q = Datatypes.S (claimable_count t (set_record k (completed_record r x) q)).
Proof.
  intros W (Hc & l1 & l2 & Hl & Hall)%first_claimable_Some. unfold claimable_count, set_record. cbn [records].
  pose proof (wf_keys _ W) as Hnd. rewrite Hl in *. rewrite map_set_middle.
  - rewrite !List.filter_app, !length_app. simpl. rewrite Hc. simpl. lia.
  - rewrite fmap_app in Hnd. apply NoDup_app in Hnd as (_ & Hnd & _). intros Hin.
    apply (Hnd k Hin). simpl. left.
Qed.
End InMemory.

(** ** Properties *)

Section Properties.
Context {Job Result : Type}.
Abbreviation Q := (queue Job Result).

(** for any queue behind the port and any interleaving of loop pieces,
    [start], [stop], aborts, timers and other clients, the counters of [stats]
    add up: every claimed task is completed, failed or in the hands of a loop,
    and every failure is retried, dead-lettered, still being reported or was
    lost to a throw of [queue.fail]. *)
Theorem processor_accounting {S} `{!TaskQueuePort S Job Result} opts evs s :
  accounted (psteps opts evs (s, initial)).2.
Proof. apply accounted_psteps. done. Qed.

(** on the in-memory queue, with a usable lease time and retry policy and
    no other client breaking its lease, a run of the processor never rejects,
    whatever the worker pool does and whenever it is stopped or aborted, and
    the queue stays open and well formed. *)
Theorem processor_never_rejects opts (q : Q) evs :
  ValidOptions opts → open_wf q → Forall (calm (inv:=open_wf) (holds:=holder)) evs →
  let '(q', p) := psteps opts evs (q, start initial) in
  open_wf q' ∧ ∀ i l e b, loops p !! i = Some l → at_ l ≠ Rejected e b.
Proof.
  intros Hv Hq Hc. pose proof (safe_psteps opts evs (q, start initial) Hc) as Hs.
  destruct (psteps opts evs (q, start initial)) as [q' p].
  destruct Hs as (Hi & _ & Hall).
  { split; [done|]. split; [done|]. by repeat constructor. }
  split; [done|]. intros i l e b Hl E. pose proof (Forall_lookup_1 _ _ _ _ Hall Hl) as Hx.
  unfold loop_safe in Hx. by rewrite E in Hx.
Qed.

(** C40: A lease lost while the worker runs kills the processor. When the task
    finishes after its lease has passed to someone else, [complete] throws, the
    [catch] block's [fail] throws too and the loop's promise rejects; the
    processor keeps reporting [Running], and [start] does nothing. *)
Theorem lost_lease_kills_loop opts (q : Q) p i c ctl sig x e :
  loops p !! i = Some (mkLoop sig (AwaitWorker c ctl)) → processorState p = Running →
  not_holder (taskId (c_task c)) (c_leaseId c) q → e_outcome e = inl x →
  let '(q', p') := psteps opts [ELoop i e; ELoop i e; ELoop i e] (q, p) in
  q' = q ∧ loops p' !! i = Some (mkLoop sig (Rejected not_found true)) ∧
  processorState p' = Running ∧ start p' = p'.
Proof.
  intros Hl Hst Hn Hx. destruct (not_holder_refused _ _ _ Hn) as (Hcomplete & _ & Hfail).
  set (p1 := goto i (AwaitComplete c ctl (Some not_found)) p).
  set (p2 := goto i (AwaitFail c ctl (Throw not_found)) (with_cnt inc_failed p1)).
  set (p3 := goto i (Rejected not_found true) (finally ctl p2)).
  assert (loop_piece opts i e q p = (q, p1)) as E1.
  { unfold loop_piece. rewrite Hl. simpl. by rewrite Hx, Hcomplete. }
  assert (loop_piece opts i e q p1 = (q, p2)) as E2.
  { unfold loop_piece. unfold p1 at 1. rewrite (goto_lookup _ _ _ _ Hl). unfold catch. simpl.
    by rewrite Hfail. }
  assert (loops p2 !! i = Some (mkLoop sig (AwaitFail c ctl (Throw not_found)))) as Hl2.
  { apply (goto_lookup _ _ _ (mkLoop sig (AwaitComplete c ctl (Some not_found)))).
    exact (goto_lookup _ _ _ _ Hl). }
  assert (loop_piece opts i e q p2 = (q, p3)) as E3.
  { unfold loop_piece. by rewrite Hl2. }
  unfold psteps, foldl, pstep. cbv beta iota. rewrite E1. cbv beta iota. rewrite E2.
  cbv beta iota. rewrite E3. split; [done|].
  assert (processorState p3 = Running) as H3.
  { unfold p3, finally, p2, p1. simpl. rewrite Hst. simpl. by case_decide. }
  split; [|split; [done|]].
  - apply (goto_lookup _ _ _ (mkLoop sig (AwaitFail c ctl (Throw not_found)))).
    by rewrite (proj2 (finally_same _ _)).
  - unfold start. by rewrite decide_True.
Qed.

(** liveness. A running loop on an open queue, with no other client and a
    worker that succeeds, completes every task that is claimable at the given
    time, in one iteration of four pieces per task; the other records are left
    alone, and the counter advances by the number of tasks. *)
Theorem processor_drains opts n : ∀ (q : Q) p i (e : @env Result) x,
  ValidOptions opts → open_wf q → ready i p → truthy (e_uuid e) = true → e_outcome e = inl x →
  claimable_count (e_clock e) q = n →
  ∃ q' p', psteps opts (replicate (4 * n) (ELoop i e)) (q, p) = (q', p') ∧
    claimable_count (e_clock e) q' = 0%nat ∧ completed (cnt p') = completed (cnt p) + Z.of_nat n ∧
    ∀ k r, map_get (records q) k = Some r →
      map_get (records q') k = Some (if isClaimable r (e_clock e) then completed_record r x else r).
Proof.
  induction n as [|n IH]; intros q p i e x Hv Hq Hr Hu Hx Hn.
  - exists q, p. split; [done|]. split; [done|]. split; [lia|]. intros k r Hk.
    destruct (isClaimable r (e_clock e)) eqn:Ec; [|done]. exfalso.
    apply map_get_Some_in in Hk. unfold claimable_count in Hn.
    apply nil_length_inv in Hn. apply list_elem_of_In in Hk.
    assert (In (k, r) []) as []. rewrite <- Hn. by apply List.filter_In.
  - destruct (first_claimable (records q) (e_clock e)) as [[k r]|] eqn:Hf.
    + destruct Hq as [W Ho].
      destruct (iteration_completes opts i e x q p k r (conj W Ho) Hr Hu Hx Hf) as (p1 & E1 & Hr1 & Hc1).
      pose proof (first_claimable_get _ _ _ _ (wf_keys _ W) Hf) as Hk.
      pose proof (claimable_count_complete _ _ _ _ x W Hf) as Hcnt.
      destruct (IH (set_record k (completed_record r x) q) p1 i e x) as (q' & p' & E2 & H0 & Hc & Hm); try done.
      { split; [|done]. destruct (wf_records _ W _ _ Hk) as [Hw _]. destruct Hw.
        eapply wf_set_record; [done|done|by apply wf_record_unlease|done]. }
      { lia. }
      exists q', p'. split; [|split; [done|split; [lia|]]].
      * replace (4 * Datatypes.S n)%nat with (4 + 4 * n)%nat by lia. rewrite replicate_add.
        unfold psteps in *. by rewrite foldl_app, E1.
      * intros k' r' Hk'. specialize (Hm k'). simpl in Hm. rewrite map_get_set in Hm.
        case_decide; [subst|by apply Hm]. assert (r' = r) as -> by congruence.
        apply first_claimable_Some in Hf as [-> _]. by rewrite (Hm _ eq_refl).
    + exfalso. apply first_claimable_None in Hf. unfold claimable_count in Hn.
      assert (List.filter (λ kr, isClaimable kr.2 (e_clock e)) (records q) = []) as E; [|by rewrite E in Hn].
      clear -Hf. induction (records q) as [|kr l IHl]; simpl; [done|].
      apply Forall_cons in Hf as [-> Hf]. auto.
Qed.
End Properties.

(** ** Concrete runs *)

Definition ex_options : options := mkOptions None None.

Definition ex_env : @env nat := mkEnv (At 10) (js "lease-1") (inl 9%nat).

Lemma ex_valid_options : ValidOptions ex_options.
Proof. by constructor. Defined.

Lemma ex_open_wf : open_wf ex_queue.
Proof. split; [exact ex_queue_wf|reflexivity]. Defined.

Lemma processor_never_rejects_witness :
  open_wf (psteps ex_options [ELoop 0 ex_env; ELoop 0 ex_env; EStop; ELoop 0 ex_env]
    (ex_queue, start initial)).1.
Proof.
  exact (proj1 (processor_never_rejects ex_options ex_queue
    [ELoop 0 ex_env; ELoop 0 ex_env; EStop; ELoop 0 ex_env] ex_valid_options ex_open_wf
    ltac:(repeat constructor))).
Defined.

(** A loop whose worker still runs the task that someone else has re-claimed. *)
Definition ex_stale_proc : @proc nat :=
  (psteps ex_options [ELoop 0 ex_env; ELoop 0 ex_env] (ex_queue, start initial)).2.

Definition ex_stale_queue : queue nat nat :=
  exec (OpClaim (At 900000) (js "lease-9") (num_of_Z 100) None)
    (psteps ex_options [ELoop 0 ex_env; ELoop 0 ex_env] (ex_queue, start initial)).1.

Definition ex_stale_claim : Claim nat := mkClaim (c_task ex_claim) (js "lease-1") (At 600010).

Lemma lost_lease_kills_loop_witness :
  let '(q', p') := psteps ex_options [ELoop 0 ex_env; ELoop 0 ex_env; ELoop 0 ex_env]
    (ex_stale_queue, ex_stale_proc) in
  q' = ex_stale_queue ∧ loops p' !! 0%nat = Some (mkLoop 0 (Rejected not_found true)) ∧
  processorState p' = Running ∧ start p' = p'.
Proof.
  refine (lost_lease_kills_loop ex_options ex_stale_queue ex_stale_proc 0 ex_stale_claim 1 0 9%nat
    ex_env _ _ _ _); [vm_compute; reflexivity|vm_compute; reflexivity| |reflexivity].
  intros r. vm_compute. intros [= <-]. discriminate.
Defined.

Lemma processor_drains_witness :
  ∃ q' p', psteps ex_options (replicate 8 (ELoop 0 ex_env)) (ex_queue, start initial) = (q', p') ∧
    claimable_count (At 10) q' = 0%nat ∧ completed (cnt p') = 2.
Proof.
  destruct (processor_drains ex_options 2 ex_queue (start initial) 0 ex_env 9%nat ex_valid_options
    ex_open_wf ltac:(exists 0%nat; split; reflexivity) eq_refl eq_refl ltac:(vm_compute; reflexivity))
    as (q' & p' & H1 & H2 & H3 & _). by exists q', p'.
Defined.
End Processor.
