(* ===== verification/AccountCapacity.v ===== *)
(** * Account capacity of worker-core

    [src/worker-core/account-capacity]: the capacity snapshots and their order
    of severity, the normalisation of limit signals, the recovery policy and
    the in-memory capacity store with its recheck claims. The store is the
    record [store]; [randomUUID()] and the clock are arguments. The optional
    metrics port is the [metrics] log of the store. *)

From stdpp Require Import base numbers list option sets strings.
From Stdlib Require Import QArith Qround.
From S2P Require Import Prelude.

#[local] Open Scope Z_scope.

Module Capacity.

(** ** Snapshots *)

Inductive Availability : Set :=
| Available | Busy | Warming | Cooldown | QuotaExhausted | Degraded | Disabled.

#[global] Instance Availability_eq_dec : EqDecision Availability.
Proof. solve_decision. Defined.

(** A JavaScript object used as a string record: keys in insertion order. *)
Abbreviation record_of_strings := (list (jsstring * jsstring)).

(** A one-task recovery passage. Its authority is its object identity, which
    only the issuer registers; [prep_object] is that identity. *)
Record Preparation : Set := mkPreparation {
  prep_object : nat; prep_recordId : jsstring; prep_accountId : jsstring }.

Record Snapshot : Set := mkSnapshot {
  recoveryPending : option Preparation;
  availability : Availability;
  reason : option jsstring;
  cooldownUntil : option date;
  recentRuns : option num;
  softLimitRemainingRuns : option num;
  lastLimitSignalAt : option date;
  details : option record_of_strings;
}.

(** [{ ...a, ...b }]. *)
Definition spread (a b : record_of_strings) : record_of_strings :=
  foldl (λ m '(k, v), map_set m k v) a b.

Definition one (k : string) (v : option jsstring) : record_of_strings :=
  match truthy_opt v with Some s => [(js k, s)] | None => [] end.

Definition detail (d : option record_of_strings) (k : string) : option jsstring :=
  d ≫= λ m, map_get m (js k).

(** [a ?? b]. *)
Definition coalesce {A} (a b : option A) : option A := match a with Some _ => a | None => b end.

Definition session_invalid : jsstring := js "provider_session_invalid".

Definition has_reason (r : jsstring) (c : Snapshot) : bool := bool_decide (reason c = Some r).

(** ** Runtime demands *)

Record Demand : Set := mkDemand {
  provider : jsstring; model : option jsstring;
  reasoningEffort : option jsstring; serviceTier : option jsstring }.

Definition normalizeWorkerAccountId (v : option jsstring) : option jsstring := optional_trimmed v.

Definition normalizeWorkerRuntimeDemand (v : option Demand) : option Demand :=
  match v with
  | None => None
  | Some d =>
      let p := js_trim (provider d) in
      if truthy p then Some (mkDemand p (optional_trimmed (model d))
        (optional_trimmed (reasoningEffort d)) (optional_trimmed (serviceTier d)))
      else None
  end.

Definition defaultRuntimeDemandFromCapacityDetails (d : option record_of_strings) : option Demand :=
  normalizeWorkerRuntimeDemand (Some (mkDemand
    (default [] (coalesce (detail d "capacityProvider") (detail d "provider")))
    (truthy_opt (coalesce (detail d "capacityModel") (detail d "model")))
    (truthy_opt (coalesce (detail d "capacityReasoningEffort") (detail d "reasoningEffort")))
    (truthy_opt (coalesce (detail d "capacityServiceTier") (detail d "serviceTier"))))).

(** U+001F, the separator of the parts of a demand key. *)
Definition unit_separator : jsstring := [31%N].

Definition workerRuntimeDemandKey (v : option Demand) : option jsstring :=
  match normalizeWorkerRuntimeDemand v with
  | None => None
  | Some d => Some (js_join unit_separator
      [js "provider=" ++ provider d;
       js "model=" ++ default [] (model d);
       js "reasoningEffort=" ++ default [] (reasoningEffort d);
       js "serviceTier=" ++ default [] (serviceTier d)])
  end.

Definition runtimeDemandDetails (d : option Demand) : record_of_strings :=
  match d with
  | None => []
  | Some d => spread [(js "capacityProvider", provider d)]
      (one "capacityModel" (model d) ++ one "capacityReasoningEffort" (reasoningEffort d) ++
       one "capacityServiceTier" (serviceTier d))
  end.

(** ** Severity and limit signals *)

Definition severity (c : Snapshot) : Z :=
  match availability c with
  | Disabled => 70 | QuotaExhausted => 60 | Cooldown => 50 | Degraded => 40
  | Warming => 30 | Busy => 20 | Available => 10
  end.

Definition shouldKeepExistingWorkerAccountCapacity (existing next : Snapshot) : bool :=
  if severity next <? severity existing then true
  else if severity existing <? severity next then false
  else match cooldownUntil existing, cooldownUntil next with
       | _, None => true
       | None, Some _ => false
       | Some e, Some n => date_leb n e
       end.

Definition isPersistableWorkerAccountCapacity (c : Snapshot) : bool :=
  bool_decide (availability c = Cooldown) || bool_decide (availability c = QuotaExhausted) ||
  (bool_decide (availability c = Disabled) && has_reason session_invalid c).

Definition isWorkerAccountLimitCapacity (c : Snapshot) (limitReasons : list jsstring) : bool :=
  if negb (isPersistableWorkerAccountCapacity c) then false
  else match truthy_opt (reason c) with
       | None => true
       | Some r => bool_decide (r ∈ limitReasons)
       end.

Definition defaultWorkerAccountLimitReasons : list jsstring :=
  [js "rate_limit_threshold"; js "quota_limited"; js "account_exhausted"; session_invalid].

Inductive SignalScope : Set := AccountWide | DemandAware.

#[global] Instance SignalScope_eq_dec : EqDecision SignalScope.
Proof. solve_decision. Defined.

Record LimitSignal : Set := mkSignal {
  s_accountId : jsstring;
  s_scope : option SignalScope;
  s_demand : option Demand;
  s_capacity : Snapshot;
  s_observedAt : date;
  s_sourceWorkerId : option jsstring;
  s_retainExpired : bool;
}.

(** A confirmed session invalidation has no time-based recovery. *)
Definition signal_capacity (c : Snapshot) : Snapshot :=
  if has_reason session_invalid c then
    mkSnapshot (recoveryPending c) Disabled (reason c) None (recentRuns c)
      (softLimitRemainingRuns c) (lastLimitSignalAt c) (details c)
  else c.

(** The demand a signal is filed under. *)
Definition signal_demand (i : LimitSignal) (d : option record_of_strings) : option Demand :=
  if bool_decide (s_scope i = Some AccountWide) then None
  else coalesce (normalizeWorkerRuntimeDemand (s_demand i))
         (defaultRuntimeDemandFromCapacityDetails d).

Definition normalizeWorkerAccountCapacitySignal (i : LimitSignal) : option Snapshot :=
  match normalizeWorkerAccountId (Some (s_accountId i)) with
  | None => None
  | Some accountId =>
    let c := signal_capacity (s_capacity i) in
    if negb (isPersistableWorkerAccountCapacity c) then None
    else if negb (s_retainExpired i) &&
            match cooldownUntil c with Some d => date_leb d (s_observedAt i) | None => false end
    then None
    else Some (mkSnapshot None (availability c) (truthy_opt (reason c)) (cooldownUntil c) None None
      (Some (s_observedAt i))
      (Some (spread (spread (spread (default [] (details c)) [(js "accountId", accountId)])
        (runtimeDemandDetails (signal_demand i (details c))))
        (one "sourceWorkerId" (s_sourceWorkerId i)))))
  end.

Definition with_details (account worker : Snapshot) : Snapshot :=
  mkSnapshot (recoveryPending account) (availability account) (reason account)
    (cooldownUntil account) (recentRuns account) (softLimitRemainingRuns account)
    (lastLimitSignalAt account)
    (Some (spread (default [] (details account)) (default [] (details worker)))).

Definition mergeWorkerAndAccountCapacity (worker account : Snapshot) : Snapshot :=
  if bool_decide (availability worker = Available) then with_details account worker
  else if severity worker <? severity account then with_details account worker
  else if (severity account =? severity worker) &&
          match cooldownUntil worker, cooldownUntil account with
          | Some w, Some a => date_ltb w a | _, _ => false end
  then with_details account worker
  else worker.

(** ** The recovery policy *)

Definition isResettableWorkerCapacity (c : Snapshot) : bool :=
  if has_reason session_invalid c then false
  else bool_decide (availability c = Cooldown) || bool_decide (availability c = QuotaExhausted).

Definition isAuthBlockedWorkerCapacity (c : Snapshot) : bool :=
  has_reason (js "auth_invalid") c || has_reason (js "auth_missing") c ||
  has_reason (js "account_unavailable") c || has_reason session_invalid c ||
  has_reason (js "reconnect_required") c ||
  bool_decide (detail (details c) "code" = Some (js "auth_invalid")) ||
  bool_decide (detail (details c) "code" = Some session_invalid).

Definition workerCapacityRecoveryAt (c : Snapshot) : option date :=
  if negb (isResettableWorkerCapacity c) then None else cooldownUntil c.

(** The snapshot with its limit lifted. *)
Definition reset_snapshot (c : Snapshot) : Snapshot :=
  mkSnapshot (recoveryPending c) Available None None (recentRuns c)
    (softLimitRemainingRuns c) None (details c).

Definition normalizeWorkerCapacitySnapshot (c : Snapshot) (now : date) : Snapshot :=
  if negb (isResettableWorkerCapacity c) then c
  else match cooldownUntil c with
       | None => c
       | Some d => if date_ltb now d then c else reset_snapshot c
       end.

(** [nextWorkerCapacityRecoveryAt]: the reduction over the snapshots. *)
Definition nextWorkerCapacityRecoveryAt (l : list (bool * Snapshot)) : option num :=
  foldl (λ nextAt '(_, c),
    match workerCapacityRecoveryAt c with
    | None => nextAt
    | Some d => match nextAt with
                | None => Some (getTime d)
                | Some n => Some (num_min n (getTime d))
                end
    end) None l.
End Capacity.

Module CapacityStore.
Import Capacity.

(** ** The in-memory store *)

Inductive Phase : Set := Blocking | RecheckDue.
Inductive RecheckMode : Set := DueOnly | Refresh.

#[global] Instance Phase_eq_dec : EqDecision Phase.
Proof. solve_decision. Defined.
#[global] Instance RecheckMode_eq_dec : EqDecision RecheckMode.
Proof. solve_decision. Defined.

Inductive Metric : Set :=
| MRecheckDue | MRecheckBusy | MRecheckFailed | MTimeToResetMs (ms : num).

Record CapacityRecord : Set := mkRecord {
  recordId : jsstring; revision : jsstring; accountId : jsstring;
  demand : option Demand; capacity : Snapshot }.

Record CapacityState : Set := mkState { st_record : CapacityRecord; phase : Phase }.

Record RecheckClaim : Set := mkClaim {
  claimId : jsstring; c_recordId : jsstring; baseRevision : jsstring;
  c_accountId : jsstring; c_demand : option Demand; c_ownerId : jsstring;
  claimedAt : date; expiresAt : date; previous : Snapshot }.

Record store : Set := mkStore {
  records : list (jsstring * CapacityRecord);
  claims : list (jsstring * RecheckClaim);
  metrics : list Metric }.

Definition empty_store : store := mkStore [] [] [].

Inductive ClaimResult : Set :=
| Claimed (c : RecheckClaim) | ClaimBusy (retryAt : date) | NotDue (s : CapacityState)
| ClaimMissing | ClaimConflict.

Inductive Resolution : Set :=
| ResAvailable | ResLimited (c : Snapshot) | ResRetry (retryAt : date) (reason : jsstring).

Inductive ResolveResult : Set :=
| Applied (s : option CapacityState) | StaleClaim | ResolveMissing | ResolveConflict.

(** NUL, between the account id and the demand key. *)
Definition nul : jsstring := [0%N].

Definition accountCapacityKey (account : jsstring) (d : option Demand) : jsstring :=
  match truthy_opt (workerRuntimeDemandKey d) with
  | Some k => account ++ nul ++ k
  | None => account
  end.

Definition stateFromRecord (r : CapacityRecord) (now : date) : CapacityState :=
  mkState r match cooldownUntil (capacity r) with
            | Some d => if date_leb d now then RecheckDue else Blocking
            | None => Blocking
            end.

Definition isBlocking (now : date) (r : CapacityRecord) : bool :=
  bool_decide (phase (stateFromRecord r now) = Blocking).

(** The selection loop: a later record wins only when the selected one is not
    to be kept against it. *)
Definition prefer (l : list CapacityRecord) : option CapacityRecord :=
  foldl (λ sel r,
    match sel with
    | None => Some r
    | Some s => if shouldKeepExistingWorkerAccountCapacity (capacity s) (capacity r)
                then sel else Some r
    end) None l.

Definition selectPreferredRecord (rs : list (option CapacityRecord)) (now : date) : option CapacityRecord :=
  let present := omap id rs in
  let active := List.filter (isBlocking now) present in
  prefer (match active with [] => present | _ => active end).

(** The keys that belong to an account. *)
Definition of_account (account key : jsstring) : bool :=
  js_eqb key account || starts_with (account ++ nul) key.

Definition readAggregateRecord (s : store) (account : jsstring) (now : date) : option CapacityRecord :=
  selectPreferredRecord
    (map (λ kr, Some kr.2) (List.filter (λ kr, of_account account kr.1) (records s))) now.

Definition readState (s : store) (account : jsstring) (d : option Demand) (now : date) : option CapacityState :=
  match normalizeWorkerAccountId (Some account) with
  | None => None
  | Some a =>
      let record := match normalizeWorkerRuntimeDemand d with
        | Some dm => selectPreferredRecord
            [map_get (records s) (accountCapacityKey a (Some dm));
             map_get (records s) (accountCapacityKey a None)] now
        | None => readAggregateRecord s a now
        end in
      (λ r, stateFromRecord r now) <$> record
  end.

Definition recheckInProgressCapacity (p : Snapshot) (retryAt : date) : Snapshot :=
  mkSnapshot None Cooldown (Some (js "quota_recheck_in_progress")) (Some retryAt) None None
    (lastLimitSignalAt p) (details p).

Definition read (s : store) (account : jsstring) (d : option Demand) (now : date) : option Snapshot :=
  match readState s account d now with
  | None => None
  | Some st =>
      match phase st with
      | Blocking => Some (capacity (st_record st))
      | RecheckDue =>
          match map_get (claims s) (recordId (st_record st)) with
          | Some c => if date_ltb now (expiresAt c)
                      then Some (recheckInProgressCapacity (capacity (st_record st)) (expiresAt c))
                      else None
          | None => None
          end
      end
  end.

Definition set_record (k : jsstring) (r : CapacityRecord) (s : store) : store :=
  mkStore (map_set (records s) k r) (claims s) (metrics s).
Definition delete_record (k : jsstring) (s : store) : store :=
  mkStore (map_delete (records s) k) (claims s) (metrics s).
Definition set_claim (k : jsstring) (c : RecheckClaim) (s : store) : store :=
  mkStore (records s) (map_set (claims s) k c) (metrics s).
Definition delete_claim (k : jsstring) (s : store) : store :=
  mkStore (records s) (map_delete (claims s) k) (metrics s).
Definition count (m : Metric) (s : store) : store :=
  mkStore (records s) (claims s) (metrics s ++ [m]).

(** [recordTimeToReset]: only a provider quota with a reset time is measured. *)
Definition recordTimeToReset (c : Snapshot) (observedAt : date) (s : store) : store :=
  if negb (has_reason (js "quota_limited") c) then s
  else match cooldownUntil c with
       | None => s
       | Some d => count (MTimeToResetMs (num_max (num_of_Z 0)
                     (num_add (getTime d) (num_mul (num_of_Z (-1)) (getTime observedAt))))) s
       end.

Definition active_claim (c : option RecheckClaim) (now : date) : bool :=
  match c with Some c => date_ltb now (expiresAt c) | None => false end.

Definition observe (uuid : jsstring) (i : LimitSignal) (s : store) : store * option CapacityState :=
  match normalizeWorkerAccountId (Some (s_accountId i)) with
  | None => (s, None)
  | Some account =>
    match normalizeWorkerAccountCapacitySignal i with
    | None => (s, None)
    | Some cap =>
      let d := signal_demand i (details (s_capacity i)) in
      let key := accountCapacityKey account d in
      let fresh := mkRecord key uuid account d cap in
      let replaced := (recordTimeToReset cap (s_observedAt i)
                         (delete_claim key (set_record key fresh s)),
                       Some (stateFromRecord fresh (s_observedAt i))) in
      match map_get (records s) key with
      | None => replaced
      | Some existing =>
          if isBlocking (s_observedAt i) existing &&
             shouldKeepExistingWorkerAccountCapacity (capacity existing) cap
          then
            if negb (active_claim (map_get (claims s) key) (s_observedAt i))
            then (s, Some (stateFromRecord existing (s_observedAt i)))
            else
              let refreshed := mkRecord (recordId existing) uuid (accountId existing)
                (demand existing) (capacity existing) in
              (delete_claim key (set_record key refreshed s),
               Some (stateFromRecord refreshed (s_observedAt i)))
          else replaced
      end
    end
  end.

Definition tryClaimRecheck (uuid : jsstring) (st : CapacityState) (owner : jsstring) (now : date)
    (ttlMs : num) (mode : RecheckMode) (s : store) : store * ClaimResult :=
  match map_get (records s) (recordId (st_record st)) with
  | None => (s, ClaimMissing)
  | Some current =>
    if negb (js_eqb (revision current) (revision (st_record st))) then (s, ClaimConflict)
    else
      let state := stateFromRecord current now in
      if has_reason session_invalid (capacity current) then (s, NotDue state)
      else
        let due := bool_decide (phase state = RecheckDue) in
        let s1 := if bool_decide (mode = DueOnly) && due then count MRecheckDue s else s in
        if bool_decide (mode = DueOnly) && negb due then (s1, NotDue state)
        else
          let claim := mkClaim uuid (recordId current) (revision current) (accountId current)
            (demand current) owner now (date_plus now (num_max (num_of_Z 1) ttlMs))
            (capacity current) in
          let grant := (set_claim (recordId current) claim s1, Claimed claim) in
          match map_get (claims s1) (recordId current) with
          | Some c =>
              if date_ltb now (expiresAt c) then (count MRecheckBusy s1, ClaimBusy (expiresAt c))
              else grant
          | None => grant
          end
  end.

Definition invalidLimitedRecheckCapacity (c : RecheckClaim) (observedAt : date) : Snapshot :=
  mkSnapshot None Cooldown (Some (js "quota_recheck_invalid_limited"))
    (Some (date_plus observedAt (num_of_Z 60000))) None None (Some observedAt) (details (previous c)).

Definition resolvedCapacity (c : RecheckClaim) (observedAt : date) (r : Resolution) : option Snapshot :=
  match r with
  | ResAvailable => None
  | ResRetry retryAt why =>
      Some (mkSnapshot None Cooldown (Some why) (Some retryAt) None None (Some observedAt)
        (details (previous c)))
  | ResLimited cap =>
      coalesce (normalizeWorkerAccountCapacitySignal
        (mkSignal (c_accountId c) None (c_demand c) cap observedAt None false))
        (Some (invalidLimitedRecheckCapacity c observedAt))
  end.

Definition resolveRecheck (uuid : jsstring) (c : RecheckClaim) (observedAt : date) (r : Resolution)
    (s0 : store) : store * ResolveResult :=
  let s := match r with
           | ResRetry _ why => if js_eqb why (js "quota_recheck_failed") then count MRecheckFailed s0 else s0
           | _ => s0 end in
  match map_get (claims s) (c_recordId c) with
  | None => (s, StaleClaim)
  | Some stored =>
    if negb (js_eqb (claimId stored) (claimId c)) then (s, StaleClaim)
    else if date_leb (expiresAt stored) observedAt then (delete_claim (c_recordId c) s, StaleClaim)
    else match map_get (records s) (c_recordId c) with
    | None => (delete_claim (c_recordId c) s, ResolveMissing)
    | Some current =>
      if negb (js_eqb (revision current) (baseRevision c)) then (delete_claim (c_recordId c) s, ResolveConflict)
      else match resolvedCapacity c observedAt r with
      | Some next =>
          let record := mkRecord (recordId current) uuid (accountId current) (demand current) next in
          let s1 := set_record (recordId current) record s in
          let s2 := match r with ResLimited _ => recordTimeToReset next observedAt s1 | _ => s1 end in
          (delete_claim (recordId current) s2, Applied (Some (stateFromRecord record observedAt)))
      | None => (delete_claim (recordId current) (delete_record (recordId current) s), Applied None)
      end
    end
  end.

Definition releaseRecheck (c : RecheckClaim) (s : store) : store :=
  match map_get (claims s) (c_recordId c) with
  | Some stored => if js_eqb (claimId stored) (claimId c) then delete_claim (c_recordId c) s else s
  | None => s
  end.

(** The loop of [clear] deletes the record and the claim of each matching key. *)
Definition clear (account : jsstring) (s : store) : store :=
  match normalizeWorkerAccountId (Some account) with
  | None => s
  | Some a => foldl (λ s k, if of_account a k then delete_claim k (delete_record k s) else s)
                s (records s).*1
  end.

(** ** The order of severity *)

(** Reset times, where present, are valid dates. *)
Definition valid_reset (c : Snapshot) : Prop :=
  match cooldownUntil c with Some d => date_valid d = true | None => True end.

Abbreviation keep := shouldKeepExistingWorkerAccountCapacity.

Ltac solve_keep :=
  unfold shouldKeepExistingWorkerAccountCapacity, valid_reset in *;
  repeat match goal with
  | H : context [cooldownUntil ?c] |- _ => destruct (cooldownUntil c) as [[?|]|]; simpl in *
  | |- context [cooldownUntil ?c] => destruct (cooldownUntil c) as [[?|]|]; simpl in *
  | H : context [(severity ?a <? severity ?b)%Z] |- _ => destruct (Z.ltb_spec (severity a) (severity b))
  | |- context [(severity ?a <? severity ?b)%Z] => destruct (Z.ltb_spec (severity a) (severity b))
  end; try done; try lia; bools; try (apply Z.leb_le); try lia.

Lemma keep_refl c : valid_reset c → keep c c = true.
Proof. intros. solve_keep. Qed.

Lemma keep_total a b : valid_reset a → valid_reset b → keep a b = false → keep b a = true.
Proof. intros. solve_keep. Qed.

Lemma keep_trans a b c : valid_reset a → valid_reset b → valid_reset c →
  keep a b = true → keep b c = true → keep a c = true.
Proof. intros. solve_keep. Qed.

(** The selection loop ends on a maximal element of the list. *)
Lemma prefer_from_spec l sel :
  Forall (λ r, valid_reset (capacity r)) (sel :: l) →
  ∃ s, foldl (λ sel r, match sel with
      | None => Some r
      | Some s => if keep (capacity s) (capacity r) then sel else Some r end) (Some sel) l = Some s ∧
    s ∈ sel :: l ∧ ∀ r, r ∈ sel :: l → keep (capacity s) (capacity r) = true.
Proof.
  revert sel. induction l as [|x l IH]; intros sel Hv; simpl.
  - exists sel. split; [done|]. split; [left|]. intros r ->%list_elem_of_singleton.
    apply Forall_cons in Hv as [Hv _]. by apply keep_refl.
  - apply Forall_cons in Hv as [Hs [Hx Hl]%Forall_cons].
    destruct (keep (capacity sel) (capacity x)) eqn:E.
    + destruct (IH sel) as (s & -> & Hin & Hmax); [by constructor|].
      exists s. split; [done|]. split; [set_solver|]. intros r Hr.
      assert (valid_reset (capacity s)) as Hvs.
      { apply elem_of_cons in Hin as [->|Hin]; [done|]. by eapply Forall_forall in Hl. }
      apply elem_of_cons in Hr as [->|[->|Hr]%elem_of_cons]; [apply Hmax; left| |apply Hmax; by right].
      eapply keep_trans, E; try done. apply Hmax. left.
    + destruct (IH x) as (s & -> & Hin & Hmax); [by constructor|].
      exists s. split; [done|]. split; [set_solver|]. intros r Hr.
      assert (valid_reset (capacity s)) as Hvs.
      { apply elem_of_cons in Hin as [->|Hin]; [done|]. by eapply Forall_forall in Hl. }
      apply elem_of_cons in Hr as [->|Hr]; [|by apply Hmax].
      eapply keep_trans; [done| |done|apply Hmax; left|by apply keep_total]. done.
Qed.

Lemma prefer_spec l :
  Forall (λ r, valid_reset (capacity r)) l → l ≠ [] →
  ∃ s, prefer l = Some s ∧ s ∈ l ∧ ∀ r, r ∈ l → keep (capacity s) (capacity r) = true.
Proof. destruct l as [|x l]; [done|]. intros Hv _. by apply prefer_from_spec. Qed.

Lemma selectPreferredRecord_spec rs now :
  let present := omap id rs in
  Forall (λ r, valid_reset (capacity r)) present →
  match selectPreferredRecord rs now with
  | None => present = []
  | Some s => s ∈ present ∧
      (isBlocking now s = false → ∀ r, r ∈ present → isBlocking now r = false) ∧
      (∀ r, r ∈ present → isBlocking now r = true ∨ isBlocking now s = false →
         keep (capacity s) (capacity r) = true)
  end.
Proof.
  intros present Hv. unfold selectPreferredRecord. fold present.
  destruct (List.filter (isBlocking now) present) as [|a0 active] eqn:Ef.
  - assert (Hnone : ∀ r, r ∈ present → isBlocking now r = false).
    { intros r Hr. destruct (isBlocking now r) eqn:E; [|done]. exfalso.
      assert (In r []) as []. rewrite <- Ef. apply List.filter_In. by rewrite <- list_elem_of_In. }
    destruct present as [|x l] eqn:Ep; [done|]. rewrite <- Ep in *.
    destruct (prefer_spec present Hv) as (s & -> & Hin & Hmax); [by rewrite Ep|].
    split; [done|]. split; [auto|]. intros r Hr _. by apply Hmax.
  - assert (Hact : ∀ r, r ∈ a0 :: active ↔ r ∈ present ∧ isBlocking now r = true).
    { intros r. rewrite <- Ef, !list_elem_of_In. apply List.filter_In. }
    destruct (prefer_spec (a0 :: active)) as (s & -> & Hin & Hmax); [|done|].
    { apply Forall_forall. intros r Hr%Hact. by eapply Forall_forall in Hv; [|apply Hr]. }
    pose proof (proj1 (Hact s) Hin) as [Hs1 Hs2]. split; [done|]. split; [congruence|].
    intros r Hr [Hb|Hb]; [|congruence]. apply Hmax. by apply Hact.
Qed.

(** ** Histories *)

Inductive sop : Set :=
| SObserve (uuid : jsstring) (i : LimitSignal)
| STryClaim (uuid : jsstring) (st : CapacityState) (owner : jsstring) (now : date) (ttl : num)
    (mode : RecheckMode)
| SResolve (uuid : jsstring) (c : RecheckClaim) (at_ : date) (r : Resolution)
| SRelease (c : RecheckClaim)
| SClear (account : jsstring).

Definition sexec (o : sop) (s : store) : store :=
  match o with
  | SObserve uuid i => (observe uuid i s).1
  | STryClaim uuid st owner now ttl mode => (tryClaimRecheck uuid st owner now ttl mode s).1
  | SResolve uuid c t r => (resolveRecheck uuid c t r s).1
  | SRelease c => releaseRecheck c s
  | SClear a => clear a s
  end.

Definition srun (os : list sop) (s : store) : store := foldl (λ s o, sexec o s) s os.

(** Keys identify records, and only unavailable capacities are stored. *)
Record wf_store (s : store) : Prop := {
  wfs_keys : NoDup (records s).*1;
  wfs_claim_keys : NoDup (claims s).*1;
  wfs_record : ∀ k r, map_get (records s) k = Some r →
    recordId r = k ∧ availability (capacity r) ≠ Available;
}.

Lemma wf_store_set_record k r s :
  wf_store s → recordId r = k → availability (capacity r) ≠ Available → wf_store (set_record k r s).
Proof.
  intros [W1 W2 W3] H1 H2. constructor; simpl; auto with runtime.
  intros k' r'. rewrite map_get_set. case_decide; [subst; by intros [= <-]|auto].
Qed.

Lemma wf_store_delete_record k s : wf_store s → wf_store (delete_record k s).
Proof.
  intros [W1 W2 W3]. constructor; simpl; auto with runtime.
  intros k' r' H%map_get_delete_sub; auto.
Qed.

Lemma wf_store_delete_claim k s : wf_store s → wf_store (delete_claim k s).
Proof. intros [W1 W2 W3]. constructor; simpl; auto with runtime. Qed.

Lemma wf_store_set_claim k c s : wf_store s → wf_store (set_claim k c s).
Proof. intros [W1 W2 W3]. constructor; simpl; auto with runtime. Qed.

Lemma wf_store_count m s : wf_store s → wf_store (count m s).
Proof. by intros [W1 W2 W3]. Qed.

Lemma wf_store_reset c t s : wf_store s → wf_store (recordTimeToReset c t s).
Proof. intros W. unfold recordTimeToReset. repeat case_match; auto using wf_store_count. Qed.

#[local] Hint Resolve wf_store_set_record wf_store_delete_record wf_store_delete_claim
  wf_store_set_claim wf_store_count wf_store_reset : runtime.

Lemma persistable_unavailable c :
  isPersistableWorkerAccountCapacity c = true → availability c ≠ Available.
Proof. unfold isPersistableWorkerAccountCapacity. by destruct (availability c). Qed.

(** What a normalised signal can look like. *)
Lemma normalized_signal i cap :
  normalizeWorkerAccountCapacitySignal i = Some cap →
  availability cap ≠ Available ∧ (availability cap = Disabled → cooldownUntil cap = None).
Proof.
  unfold normalizeWorkerAccountCapacitySignal.
  destruct (normalizeWorkerAccountId _); [|done].
  destruct (isPersistableWorkerAccountCapacity _) eqn:Ep; [|done]. simpl.
  destruct (_ && _); [done|]. intros [= <-]. simpl.
  split; [by apply persistable_unavailable|]. intros Hd. revert Hd Ep.
  unfold isPersistableWorkerAccountCapacity, signal_capacity, has_reason.
  destruct (bool_decide (reason (s_capacity i) = Some session_invalid)) eqn:Er; [done|].
  intros ->. simpl. by rewrite Er.
Qed.

Lemma resolved_unavailable c t r cap :
  resolvedCapacity c t r = Some cap → availability cap ≠ Available.
Proof.
  destruct r as [|x|x y]; simpl; [done| |by intros [= <-]].
  destruct (normalizeWorkerAccountCapacitySignal _) as [z|] eqn:E; simpl; intros [= <-]; [|done].
  by apply normalized_signal in E as [? _].
Qed.

Lemma wf_store_clear a s : wf_store s → wf_store (clear a s).
Proof.
  unfold clear. destruct (normalizeWorkerAccountId _) as [b|]; [|done].
  generalize (records s).*1 as ks. intros ks. revert s.
  induction ks as [|k ks IH]; intros s W; simpl; [done|]. apply IH.
  destruct (of_account b k); auto with runtime.
Qed.

Lemma wf_sexec o s : wf_store s → wf_store (sexec o s).
Proof.
  intros W. destruct o as [uuid i|uuid st owner now ttl mode|uuid c t r|c|a]; simpl.
  - unfold observe. destruct (normalizeWorkerAccountId _) as [a|]; [|done].
    destruct (normalizeWorkerAccountCapacitySignal i) as [cap|] eqn:En; [|done].
    apply normalized_signal in En as [Ha _]. cbv zeta.
    set (k := accountCapacityKey _ _).
    destruct (map_get (records s) k) as [ex|] eqn:Ex; [|simpl; auto with runtime].
    destruct (wfs_record _ W _ _ Ex) as [Hk Hav].
    destruct (_ && _); [|simpl; auto with runtime].
    destruct (negb _); simpl; auto with runtime.
  - unfold tryClaimRecheck. repeat (case_match; simpl; auto with runtime).
  - unfold resolveRecheck. cbv zeta.
    set (s1 := match r with ResRetry _ _ => _ | _ => _ end).
    assert (W1 : wf_store s1) by (subst s1; repeat case_match; auto with runtime).
    clearbody s1.
    destruct (map_get (claims s1) _) as [stored|]; [|done]. destruct (negb _); [done|].
    destruct (date_leb _ _); simpl; auto with runtime.
    destruct (map_get (records s1) _) as [cur|] eqn:Ec; simpl; auto with runtime.
    destruct (negb _); simpl; auto with runtime.
    destruct (resolvedCapacity c t r) as [next|] eqn:En; simpl; auto with runtime.
    apply resolved_unavailable in En. destruct r; simpl; auto with runtime.
  - unfold releaseRecheck. repeat case_match; auto with runtime.
  - by apply wf_store_clear.
Qed.

(** ** Reading *)

(** The records a read for a demand looks at; a read without a demand
    aggregates every record of the account. *)
Definition relevant (s : store) (a : jsstring) (d : option Demand) : list CapacityRecord :=
  match normalizeWorkerRuntimeDemand d with
  | Some dm => omap id [map_get (records s) (accountCapacityKey a (Some dm));
                        map_get (records s) (accountCapacityKey a None)]
  | None => (List.filter (λ kr, of_account a kr.1) (records s)).*2
  end.

Lemma omap_id_Some {A B} (f : A → B) (l : list A) : omap id (map (λ x, Some (f x)) l) = map f l.
Proof. induction l as [|x l IH]; csimpl; [done|]. by rewrite IH. Qed.

Lemma omap_id_present {A} (l : list A) : omap id (map Some l) = l.
Proof. induction l as [|x l IH]; csimpl; [done|]. by rewrite IH. Qed.

Lemma readState_select s account d now a :
  normalizeWorkerAccountId (Some account) = Some a →
  readState s account d now =
    (λ r, stateFromRecord r now) <$> selectPreferredRecord (map Some (relevant s a d)) now.
Proof.
  intros Ha. unfold readState, relevant. rewrite Ha.
  destruct (normalizeWorkerRuntimeDemand d) as [dm|]; f_equal.
  - unfold selectPreferredRecord. by rewrite omap_id_present.
  - unfold readAggregateRecord, selectPreferredRecord. by rewrite omap_id_Some, omap_id_present.
Qed.

(** reading an account for a demand returns nothing only when no record
    bears on it; otherwise it returns a stored record that bears on it, in the
    blocking phase as soon as one of them blocks, and at least as severe (by
    availability, then by the later reset time) as every other one in that
    phase. *)
Theorem readState_most_severe s account d now a :
  normalizeWorkerAccountId (Some account) = Some a →
  Forall (λ r, valid_reset (capacity r)) (relevant s a d) →
  match readState s account d now with
  | None => relevant s a d = []
  | Some st =>
      st_record st ∈ relevant s a d ∧
      (phase st = RecheckDue → ∀ r, r ∈ relevant s a d → isBlocking now r = false) ∧
      ∀ r, r ∈ relevant s a d → isBlocking now r = true ∨ phase st = RecheckDue →
        keep (capacity (st_record st)) (capacity r) = true
  end.
Proof.
  intros Ha Hv. rewrite (readState_select _ _ _ _ _ Ha).
  pose proof (selectPreferredRecord_spec (map Some (relevant s a d)) now) as H.
  cbv zeta in H. rewrite omap_id_present in H. specialize (H Hv).
  destruct (selectPreferredRecord _ now) as [r0|]; simpl; [|done].
  assert (Hp : phase (stateFromRecord r0 now) = RecheckDue ↔ isBlocking now r0 = false).
  { unfold isBlocking. rewrite bool_decide_eq_false. by destruct (phase _). }
  rewrite <- Hp in H. unfold stateFromRecord in *. simpl in *. naive_solver.
Qed.

(** The selection never loses severity, whatever the dates are. *)
Lemma prefer_severity l sel :
  ∃ s, foldl (λ sel r, match sel with
      | None => Some r
      | Some s => if keep (capacity s) (capacity r) then sel else Some r end) (Some sel) l = Some s ∧
    s ∈ sel :: l ∧ ∀ r, r ∈ sel :: l → severity (capacity r) ≤ severity (capacity s).
Proof.
  revert sel. induction l as [|x l IH]; intros sel; simpl.
  - exists sel. split; [done|]. split; [left|]. by intros r ->%list_elem_of_singleton.
  - assert (Hk : if keep (capacity sel) (capacity x)
                 then severity (capacity x) ≤ severity (capacity sel)
                 else severity (capacity sel) ≤ severity (capacity x)).
    { unfold shouldKeepExistingWorkerAccountCapacity.
      destruct (Z.ltb_spec (severity (capacity x)) (severity (capacity sel))); [lia|].
      destruct (Z.ltb_spec (severity (capacity sel)) (severity (capacity x))); [lia|].
      destruct (match cooldownUntil (capacity sel) with Some _ => _ | None => _ end); lia. }
    destruct (keep (capacity sel) (capacity x)).
    + destruct (IH sel) as (s & Hs & Hin & Hmax). exists s. split; [done|].
      pose proof (Hmax sel ltac:(left)). set_solver by lia.
    + destruct (IH x) as (s & Hs & Hin & Hmax). exists s. split; [done|].
      pose proof (Hmax x ltac:(left)). set_solver by lia.
Qed.

(** A blocking record of the account bounds what a read reports from below. *)
Lemma read_severity s account d now a r :
  normalizeWorkerAccountId (Some account) = Some a →
  r ∈ relevant s a d → isBlocking now r = true →
  ∃ r', r' ∈ relevant s a d ∧ read s account d now = Some (capacity r') ∧
        severity (capacity r) ≤ severity (capacity r').
Proof.
  intros Ha Hr Hb. unfold read. rewrite (readState_select _ _ _ _ _ Ha).
  unfold selectPreferredRecord. rewrite omap_id_present.
  assert (Hf : r ∈ List.filter (isBlocking now) (relevant s a d)).
  { rewrite list_elem_of_In, List.filter_In, <- list_elem_of_In. done. }
  destruct (List.filter _ _) as [|x l] eqn:E; [by apply elem_of_nil in Hf|].
  destruct (prefer_severity l x) as (r' & Hp & Hin & Hmax).
  unfold prefer. cbn [foldl]. rewrite Hp. cbn [fmap option_fmap option_map].
  assert (r' ∈ relevant s a d ∧ isBlocking now r' = true) as [H1 H2].
  { rewrite !list_elem_of_In in *. rewrite <- E in Hin. by apply List.filter_In in Hin. }
  exists r'. split; [done|]. split; [|by apply Hmax].
  unfold isBlocking in H2. apply bool_decide_eq_true in H2. by rewrite H2.
Qed.

(** ** Observing *)

(** The key a signal is filed under. *)
Definition signal_key (i : LimitSignal) : option jsstring :=
  (λ a, accountCapacityKey a (signal_demand i (details (s_capacity i)))) <$>
    normalizeWorkerAccountId (Some (s_accountId i)).

(** The effect of an observation on the record of its key and on all others. *)
Lemma observe_effect uuid i s cap k :
  normalizeWorkerAccountCapacitySignal i = Some cap → signal_key i = Some k →
  ∃ r, map_get (records (observe uuid i s).1) k = Some r ∧
    (∀ k', k' ≠ k → map_get (records (observe uuid i s).1) k' = map_get (records s) k') ∧
    (capacity r = cap ∨ ∃ e, map_get (records s) k = Some e ∧ capacity r = capacity e ∧
       isBlocking (s_observedAt i) e = true ∧ keep (capacity e) cap = true) ∧
    (∀ e, map_get (records s) k = Some e → isBlocking (s_observedAt i) e = true →
       keep (capacity e) cap = true → capacity r = capacity e).
Proof.
  unfold signal_key, observe. intros Hn Hk.
  destruct (normalizeWorkerAccountId (Some (s_accountId i))) as [a|]; [|done].
  injection Hk as Hk. rewrite Hn. rewrite !Hk. cbv zeta.
  assert (Hr : ∀ t c s', records (recordTimeToReset c t s') = records s').
  { intros. unfold recordTimeToReset. by repeat case_match. }
  destruct (map_get (records s) k) as [e|] eqn:Ee.
  - destruct (isBlocking (s_observedAt i) e && keep (capacity e) cap) eqn:Ek; [bools|].
    + destruct (negb _); simpl.
      * exists e. rewrite Ee. naive_solver.
      * eexists. rewrite map_get_set_eq. split; [done|].
        split; [intros; by rewrite map_get_set_ne by done|]. naive_solver.
    + eexists. simpl. rewrite Hr. simpl. rewrite map_get_set_eq. split; [done|].
      split; [intros; by rewrite map_get_set_ne by done|]. split; [by left|].
      intros ? [= <-] H1 H2. by rewrite H1, H2 in Ek.
  - eexists. simpl. rewrite Hr. simpl. rewrite map_get_set_eq. split; [done|].
    split; [intros; by rewrite map_get_set_ne by done|]. split; [by left|done].
Qed.

(** observing a limit signal never weakens what is known. Afterwards the
    record of the signal's key is at least as severe as the signal, and at
    least as severe as the record that was blocking there; no other record
    changes. *)
Theorem observe_never_weakens uuid i s cap k :
  normalizeWorkerAccountCapacitySignal i = Some cap → signal_key i = Some k →
  valid_reset cap → (∀ e, map_get (records s) k = Some e → valid_reset (capacity e)) →
  let s' := (observe uuid i s).1 in
  (∃ r, map_get (records s') k = Some r ∧ keep (capacity r) cap = true ∧
     ∀ e, map_get (records s) k = Some e → isBlocking (s_observedAt i) e = true →
       keep (capacity r) (capacity e) = true) ∧
  ∀ k', k' ≠ k → map_get (records s') k' = map_get (records s) k'.
Proof.
  intros Hn Hk Hv Hve s'.
  destruct (observe_effect uuid i s cap k Hn Hk) as (r & Hr & Hoth & Hcap & Hkeep).
  split; [|done]. exists r. split; [done|]. split.
  - destruct Hcap as [->|(e & _ & -> & _ & ?)]; [by apply keep_refl|done].
  - intros e He Hb. destruct (keep (capacity e) cap) eqn:Ek.
    + rewrite (Hkeep e He Hb Ek). by apply keep_refl, Hve.
    + destruct Hcap as [->|(e' & He' & _ & _ & Hk')]; [|congruence].
      apply keep_total; auto.
Qed.

(** ** Rechecks are fenced by observations *)

(** No claim with the given id is held on the record. *)
Definition unclaimed (k id : jsstring) (s : store) : Prop :=
  ∀ c, map_get (claims s) k = Some c → claimId c ≠ id.

Lemma unclaimed_claims k id s s' : claims s' = claims s → unclaimed k id s → unclaimed k id s'.
Proof. unfold unclaimed. by intros ->. Qed.

Lemma unclaimed_delete k id k' s :
  wf_store s → unclaimed k id s → unclaimed k id (delete_claim k' s).
Proof. intros W H c Hc. apply H. simpl in Hc. apply map_get_delete_sub in Hc; [done|apply W]. Qed.

Lemma unclaimed_set_record k id k' r s : unclaimed k id s → unclaimed k id (set_record k' r s).
Proof. by apply unclaimed_claims. Qed.

Lemma unclaimed_delete_record k id k' s : unclaimed k id s → unclaimed k id (delete_record k' s).
Proof. by apply unclaimed_claims. Qed.

Lemma unclaimed_count k id m s : unclaimed k id s → unclaimed k id (count m s).
Proof. by apply unclaimed_claims. Qed.

Lemma reset_claims c t s : claims (recordTimeToReset c t s) = claims s.
Proof. unfold recordTimeToReset. by repeat case_match. Qed.

Lemma unclaimed_reset k id c t s : unclaimed k id s → unclaimed k id (recordTimeToReset c t s).
Proof. apply unclaimed_claims, reset_claims. Qed.

Lemma unclaimed_set_claim k id k' c s :
  claimId c ≠ id → unclaimed k id s → unclaimed k id (set_claim k' c s).
Proof. intros Hc H c'. simpl. rewrite map_get_set. case_decide; [by intros [= <-]|apply H]. Qed.

#[local] Hint Resolve unclaimed_delete unclaimed_set_record unclaimed_delete_record
  unclaimed_count unclaimed_reset unclaimed_set_claim : runtime.

Lemma unclaimed_clear a k id s : wf_store s → unclaimed k id s → unclaimed k id (clear a s).
Proof.
  unfold clear. destruct (normalizeWorkerAccountId _) as [b|]; [|done].
  generalize (records s).*1 as ks. intros ks. revert s.
  induction ks as [|x ks IH]; intros s W H; simpl; [done|].
  apply IH; destruct (of_account b x); auto with runtime.
Qed.

(** The claim id an operation would create. *)
Definition new_claim_id (o : sop) : option jsstring :=
  match o with STryClaim uuid _ _ _ _ _ => Some uuid | _ => None end.

Lemma unclaimed_sexec o k id s :
  wf_store s → new_claim_id o ≠ Some id → unclaimed k id s → unclaimed k id (sexec o s).
Proof.
  intros W Hn H. destruct o as [uuid i|uuid st owner now ttl mode|uuid c t r|c|a]; simpl in *.
  - pose proof (wf_sexec (SObserve uuid i) s W) as W'. revert W'. simpl. unfold observe.
    destruct (normalizeWorkerAccountId _) as [a|]; [|done].
    destruct (normalizeWorkerAccountCapacitySignal i) as [cap|] eqn:En; [|done]. cbv zeta.
    set (key := accountCapacityKey _ _). apply normalized_signal in En as [Ha _].
    destruct (map_get (records s) key) as [ex|] eqn:Ex; [|simpl; auto 8 with runtime].
    destruct (wfs_record _ W _ _ Ex) as [Hk Hav].
    destruct (_ && _); [|simpl; auto 8 with runtime].
    destruct (negb _); simpl; auto 8 with runtime.
  - unfold tryClaimRecheck. repeat (case_match; simpl; try done); auto with runtime.
    all: apply unclaimed_set_claim; simpl; auto with runtime; congruence.
  - unfold resolveRecheck. cbv zeta.
    set (s1 := match r with ResRetry _ _ => _ | _ => _ end).
    assert (wf_store s1 ∧ unclaimed k id s1) as [W1 H1].
    { subst s1. repeat case_match; auto with runtime. }
    clearbody s1. repeat (case_match; simpl; try done); auto with runtime.
    all: intros c'; simpl; rewrite ?reset_claims; simpl.
    all: intros Hc%map_get_delete_sub; [by apply H1|apply W1].
  - unfold releaseRecheck. repeat case_match; auto with runtime.
  - by apply unclaimed_clear.
Qed.

Lemma unclaimed_srun os k id s :
  wf_store s → Forall (λ o, new_claim_id o ≠ Some id) os → unclaimed k id s →
  wf_store (srun os s) ∧ unclaimed k id (srun os s).
Proof.
  revert s. induction os as [|o os IH]; intros s W Hf H; simpl; [done|].
  apply Forall_cons in Hf as [Ho Hf]. apply IH; auto using wf_sexec, unclaimed_sexec.
Qed.

(** An observation of the key drops the claim that is active on it. *)
Lemma observe_drops_claim uuid i s cap k :
  wf_store s → normalizeWorkerAccountCapacitySignal i = Some cap → signal_key i = Some k →
  active_claim (map_get (claims s) k) (s_observedAt i) = true →
  map_get (claims (observe uuid i s).1) k = None.
Proof.
  unfold signal_key, observe. intros W Hn Hk Hact.
  destruct (normalizeWorkerAccountId (Some (s_accountId i))) as [a|]; [|done].
  injection Hk as Hk. rewrite Hn. rewrite !Hk, Hact. cbv zeta. simpl.
  repeat (case_match; simpl); rewrite ?reset_claims; simpl; apply map_get_delete_eq, W.
Qed.

(** a recheck result is fenced by what was observed meanwhile. Once a
    signal on the record is observed while a claim on it is active, resolving
    that claim is stale and changes no record, whatever else happened since:
    a stale "available" answer never erases a newer limit. Claim ids are
    fresh ([randomUUID]). *)
Theorem observation_fences_recheck u1 st owner t0 ttl mode s c s1 u2 i cap os u3 t1 res :
  wf_store s → tryClaimRecheck u1 st owner t0 ttl mode s = (s1, Claimed c) →
  normalizeWorkerAccountCapacitySignal i = Some cap → signal_key i = Some (c_recordId c) →
  date_ltb (s_observedAt i) (expiresAt c) = true →
  Forall (λ o, new_claim_id o ≠ Some (claimId c)) os →
  let s2 := srun os (observe u2 i s1).1 in
  (resolveRecheck u3 c t1 res s2).2 = StaleClaim ∧
  records (resolveRecheck u3 c t1 res s2).1 = records s2.
Proof.
  intros W Hc Hn Hk Hact Hf s2.
  assert (W1 : wf_store s1).
  { pose proof (wf_sexec (STryClaim u1 st owner t0 ttl mode) s W) as H. simpl in H.
    by rewrite Hc in H. }
  assert (Hcl : map_get (claims s1) (c_recordId c) = Some c).
  { revert Hc. unfold tryClaimRecheck. repeat (case_match; simpl; try done).
    all: intros [= <- <-]; simpl; by rewrite map_get_set_eq. }
  assert (Hd : unclaimed (c_recordId c) (claimId c) (observe u2 i s1).1).
  { intros c'. rewrite (observe_drops_claim u2 i s1 cap); try done. by rewrite Hcl. }
  destruct (unclaimed_srun os (c_recordId c) (claimId c) (observe u2 i s1).1) as [W2 H2]; try done.
  { by apply (wf_sexec (SObserve u2 i)). }
  fold s2 in W2, H2. unfold resolveRecheck. cbv zeta.
  set (s3 := match res with ResRetry _ _ => _ | _ => _ end).
  assert (claims s3 = claims s2 ∧ records s3 = records s2) as [-> Hr].
  { subst s3. by repeat case_match. }
  destruct (map_get (claims s2) (c_recordId c)) as [c'|] eqn:Ec; [|done].
  specialize (H2 c' Ec). apply js_eqb_false in H2. by rewrite H2.
Qed.

(** ** A session invalidation is sticky *)

(** What an operation leaves as it was under a key. *)
Definition same_at (k : jsstring) (s s' : store) : Prop :=
  map_get (records s') k = map_get (records s) k ∧ map_get (claims s') k = map_get (claims s) k.

Lemma same_at_refl k s : same_at k s s.
Proof. done. Qed.

Lemma same_at_set_record k k' r s s' : k' ≠ k → same_at k s s' → same_at k s (set_record k' r s').
Proof. intros Hne [H1 H2]. split; simpl; [|done]. by rewrite map_get_set_ne. Qed.

Lemma same_at_delete_record k k' s s' : k' ≠ k → same_at k s s' → same_at k s (delete_record k' s').
Proof. intros Hne [H1 H2]. split; simpl; [|done]. by rewrite map_get_delete_ne. Qed.

Lemma same_at_set_claim k k' c s s' : k' ≠ k → same_at k s s' → same_at k s (set_claim k' c s').
Proof. intros Hne [H1 H2]. split; simpl; [done|]. by rewrite map_get_set_ne. Qed.

Lemma same_at_delete_claim k k' s s' : k' ≠ k → same_at k s s' → same_at k s (delete_claim k' s').
Proof. intros Hne [H1 H2]. split; simpl; [done|]. by rewrite map_get_delete_ne. Qed.

Lemma same_at_count k m s s' : same_at k s s' → same_at k s (count m s').
Proof. done. Qed.

Lemma same_at_reset k c t s s' : same_at k s s' → same_at k s (recordTimeToReset c t s').
Proof. intros H. unfold recordTimeToReset. repeat case_match; auto using same_at_count. Qed.

#[local] Hint Resolve same_at_refl same_at_set_record same_at_delete_record same_at_set_claim
  same_at_delete_claim same_at_count same_at_reset : runtime.

(** A disabled record is a session invalidation, has no reset time and is not
    being rechecked. *)
Definition locked (s : store) (k : jsstring) (r : CapacityRecord) : Prop :=
  availability (capacity r) = Disabled ∧ reason (capacity r) = Some session_invalid ∧
  cooldownUntil (capacity r) = None ∧ map_get (claims s) k = None.

Definition disabled_locked (s : store) : Prop :=
  ∀ k r, map_get (records s) k = Some r → availability (capacity r) = Disabled → locked s k r.

Lemma normalized_disabled i cap :
  normalizeWorkerAccountCapacitySignal i = Some cap → availability cap = Disabled →
  reason cap = Some session_invalid ∧ cooldownUntil cap = None.
Proof.
  intros Hn Hd. split; [|by eapply normalized_signal].
  revert Hn. unfold normalizeWorkerAccountCapacitySignal.
  destruct (normalizeWorkerAccountId _); [|done].
  destruct (isPersistableWorkerAccountCapacity _) eqn:Ep; [|done]. simpl.
  destruct (_ && _); [done|]. intros [= <-]. simpl in *. revert Ep.
  unfold isPersistableWorkerAccountCapacity, has_reason. rewrite Hd. simpl.
  intros Hr. bools. by rewrite Hr.
Qed.

(** Writing a record and dropping the claim of its key keeps disabled records
    locked. *)
Lemma disabled_locked_write k r s :
  wf_store s → (availability (capacity r) = Disabled →
    reason (capacity r) = Some session_invalid ∧ cooldownUntil (capacity r) = None) →
  disabled_locked s → disabled_locked (delete_claim k (set_record k r s)).
Proof.
  intros W Hr H k' r'. simpl. rewrite map_get_set. case_decide; [subst|].
  - intros [= <-] Hd. split; [done|]. destruct (Hr Hd). simpl.
    rewrite map_get_delete_eq by apply W. done.
  - intros Hg Hd. destruct (H _ _ Hg Hd) as (? & ? & ? & ?). split_and!; try done.
    simpl. by rewrite map_get_delete_ne.
Qed.

Lemma disabled_locked_drop k s : wf_store s → disabled_locked s → disabled_locked (delete_claim k s).
Proof.
  intros W H k' r' Hg Hd. destruct (H _ _ Hg Hd) as (? & ? & ? & Hc). split_and!; try done.
  simpl. destruct (map_get (map_delete (claims s) k) k') eqn:E; [|done].
  apply map_get_delete_sub in E; [congruence|apply W].
Qed.

Lemma disabled_locked_forget k s : wf_store s → disabled_locked s → disabled_locked (delete_record k s).
Proof. intros W H k' r' Hg%map_get_delete_sub Hd; [by apply H|apply W]. Qed.

Lemma disabled_locked_count m s : disabled_locked s → disabled_locked (count m s).
Proof. done. Qed.

Lemma disabled_locked_reset c t s : disabled_locked s → disabled_locked (recordTimeToReset c t s).
Proof. intros H. unfold recordTimeToReset. by repeat case_match. Qed.

#[local] Hint Resolve disabled_locked_write disabled_locked_drop disabled_locked_forget
  disabled_locked_count disabled_locked_reset : runtime.

Lemma reset_delete_claim k c t s :
  delete_claim k (recordTimeToReset c t s) = recordTimeToReset c t (delete_claim k s).
Proof. unfold recordTimeToReset. by repeat case_match. Qed.

Lemma resolved_disabled c t r cap :
  resolvedCapacity c t r = Some cap → availability cap = Disabled →
  reason cap = Some session_invalid ∧ cooldownUntil cap = None.
Proof.
  destruct r as [|x|x y]; simpl; [done| |by intros [= <-]].
  destruct (normalizeWorkerAccountCapacitySignal _) as [z|] eqn:E; simpl; intros [= <-]; [|done].
  eauto using normalized_disabled.
Qed.

Lemma disabled_locked_sexec o s : wf_store s → disabled_locked s → disabled_locked (sexec o s).
Proof.
  intros W H. destruct o as [uuid i|uuid st owner now ttl mode|uuid c t r|c|a]; simpl.
  - unfold observe. destruct (normalizeWorkerAccountId _) as [a|]; [|done].
    destruct (normalizeWorkerAccountCapacitySignal i) as [cap|] eqn:En; [|done].
    pose proof (normalized_disabled _ _ En) as Hd. cbv zeta. set (k := accountCapacityKey _ _).
    destruct (map_get (records s) k) as [ex|] eqn:Ex; [|simpl; auto with runtime].
    destruct (_ && _); [|simpl; auto with runtime].
    destruct (negb _); simpl; [done|]. apply disabled_locked_write; [done| |done].
    intros Hx. by destruct (H _ _ Ex Hx) as (_ & ? & ? & _).
  - unfold tryClaimRecheck. destruct (map_get (records s) _) as [cur|] eqn:Ec; [|done].
    destruct (negb _); [done|]. destruct (has_reason session_invalid _) eqn:Eh; [done|].
    destruct (wfs_record _ W _ _ Ec) as [Hk _]. rewrite Hk.
    assert (Hset : ∀ c s', disabled_locked s' → records s' = records s →
      disabled_locked (set_claim (recordId (st_record st)) c s')).
    { intros c s' H' Hs k r Hg Hd. destruct (H' k r Hg Hd) as (? & Hr & ? & ?). split_and!; try done.
      simpl. rewrite map_get_set_ne; [done|]. intros <-. simpl in Hg. rewrite Hs, Ec in Hg.
      injection Hg as ->. unfold has_reason in Eh. by rewrite Hr in Eh. }
    repeat (case_match; simpl; auto with runtime).
  - unfold resolveRecheck. cbv zeta.
    set (s1 := match r with ResRetry _ _ => _ | _ => _ end).
    assert (wf_store s1 ∧ disabled_locked s1) as [W1 H1].
    { subst s1. repeat case_match; auto with runtime. }
    clearbody s1. destruct (map_get (claims s1) _) as [stored|]; [|done]. destruct (negb _); [done|].
    destruct (date_leb _ _); simpl; auto with runtime.
    destruct (map_get (records s1) _) as [cur|] eqn:Ec; simpl; auto with runtime.
    destruct (negb _); simpl; auto with runtime.
    destruct (resolvedCapacity c t r) as [next|] eqn:En; simpl; auto with runtime.
    pose proof (resolved_disabled _ _ _ _ En) as Hd. destruct r; simpl; auto with runtime.
    rewrite reset_delete_claim. auto with runtime.
  - unfold releaseRecheck. repeat case_match; auto with runtime.
  - unfold clear. destruct (normalizeWorkerAccountId _) as [b|]; [|done].
    generalize (records s).*1 as ks. intros ks. revert s W H.
    induction ks as [|x ks IH]; intros s W H; simpl; [done|].
    apply IH; destruct (of_account b x); auto with runtime.
Qed.

Lemma srun_invariants os s :
  wf_store s → disabled_locked s → wf_store (srun os s) ∧ disabled_locked (srun os s).
Proof.
  revert s. induction os as [|o os IH]; intros s W H; simpl; [done|].
  apply IH; auto using wf_sexec, disabled_locked_sexec.
Qed.

(** The record of a key is a locked session invalidation. *)
Definition invalidated (k : jsstring) (s : store) : Prop :=
  ∃ r, map_get (records s) k = Some r ∧ locked s k r.

Lemma invalidated_same k s s' : same_at k s s' → invalidated k s → invalidated k s'.
Proof.
  intros [H1 H2] (r & Hr & ? & ? & ? & ?). exists r. rewrite H1. split; [done|].
  split_and!; try done. congruence.
Qed.

Lemma disabled_kept e cap :
  availability e = Disabled → cooldownUntil e = None →
  (availability cap = Disabled → cooldownUntil cap = None) → keep e cap = true.
Proof.
  intros He Hc Hd. unfold shouldKeepExistingWorkerAccountCapacity, severity. rewrite He, Hc.
  destruct (availability cap); try done. by rewrite Hd.
Qed.

(** Whether an operation clears the account of a key. *)
Definition clears (k : jsstring) (o : sop) : bool :=
  match o with
  | SClear a => match normalizeWorkerAccountId (Some a) with
                | Some b => of_account b k | None => false end
  | _ => false
  end.

Lemma clear_same a k s : clears k (SClear a) = false → same_at k s (clear a s).
Proof.
  unfold clear, clears. destruct (normalizeWorkerAccountId _) as [b|]; [|done]. intros Hk.
  assert (Hg : ∀ ks s', same_at k s s' →
    same_at k s (foldl (λ s k, if of_account b k then delete_claim k (delete_record k s) else s) s' ks)).
  { induction ks as [|x ks IH]; intros s' Hs; simpl; [done|]. apply IH.
    destruct (of_account b x) eqn:E; [|done].
    assert (x ≠ k) by congruence. auto with runtime. }
  by apply Hg.
Qed.

Lemma invalidated_sexec o k s :
  wf_store s → clears k o = false → invalidated k s → invalidated k (sexec o s).
Proof.
  intros W Ho Hi. apply (invalidated_same k s); [|done].
  destruct Hi as (r0 & Hr & Hav & Hre & Hcd & Hcl).
  destruct o as [uuid i|uuid st owner now ttl mode|uuid c t r|c|a]; simpl.
  - unfold observe. destruct (normalizeWorkerAccountId _) as [a|]; [|done].
    destruct (normalizeWorkerAccountCapacitySignal i) as [cap|] eqn:En; [|done]. cbv zeta.
    apply normalized_signal in En as [_ Hd].
    destruct (decide (accountCapacityKey a (signal_demand i (details (s_capacity i))) = k)) as [->|Hne].
    + rewrite Hr, Hcl, disabled_kept by done. unfold isBlocking. simpl. by rewrite Hcd.
    + repeat (case_match; simpl); auto with runtime.
  - unfold tryClaimRecheck. destruct (map_get (records s) (recordId (st_record st))) as [cur|] eqn:Ec; [|done].
    destruct (negb _); [done|]. destruct (has_reason session_invalid _) eqn:Eh; [done|].
    destruct (wfs_record _ W _ _ Ec) as [Hk _].
    assert (recordId cur ≠ k).
    { intros Hx. rewrite <- Hk, Hx, Hr in Ec. injection Ec as ->. unfold has_reason in Eh.
      by rewrite Hre in Eh. }
    repeat (case_match; simpl; auto with runtime).
  - unfold resolveRecheck. cbv zeta.
    set (s1 := match r with ResRetry _ _ => _ | _ => _ end).
    assert (wf_store s1 ∧ same_at k s s1) as [W1 H1].
    { subst s1. repeat case_match; auto with runtime. }
    clearbody s1. destruct (map_get (claims s1) (c_recordId c)) as [stored|] eqn:Es; [|done].
    assert (c_recordId c ≠ k). { intros Hx. destruct H1 as [_ H1]. congruence. }
    destruct (negb _); [done|]. destruct (date_leb _ _); simpl; auto with runtime.
    destruct (map_get (records s1) (c_recordId c)) as [cur|] eqn:Ec; simpl; auto with runtime.
    destruct (wfs_record _ W1 _ _ Ec) as [Hk _].
    assert (recordId cur ≠ k) by congruence.
    repeat (case_match; simpl; auto with runtime).
  - unfold releaseRecheck. destruct (map_get (claims s) (c_recordId c)) as [stored|] eqn:Es; [|done].
    assert (c_recordId c ≠ k) by congruence. case_match; auto with runtime.
  - by apply clear_same.
Qed.

Lemma observed_invalidated uuid i s k :
  wf_store s → disabled_locked s → s_scope i = Some AccountWide →
  reason (s_capacity i) = Some session_invalid →
  normalizeWorkerAccountId (Some (s_accountId i)) = Some k →
  invalidated k (observe uuid i s).1.
Proof.
  intros W H Hs Hr Hk.
  assert (Hkey : signal_key i = Some k).
  { unfold signal_key, signal_demand. rewrite Hk, Hs. done. }
  assert (∃ cap, normalizeWorkerAccountCapacitySignal i = Some cap ∧ availability cap = Disabled)
    as (cap & Hn & Hd).
  { unfold normalizeWorkerAccountCapacitySignal, signal_capacity, has_reason,
      isPersistableWorkerAccountCapacity.
    rewrite Hk, Hr. simpl. unfold has_reason. rewrite andb_false_r. simpl. eauto. }
  destruct (observe_effect uuid i s cap k Hn Hkey) as (r & Hg & _ & Hcap & _).
  exists r. split; [done|].
  eapply (disabled_locked_sexec (SObserve uuid i)); [done|done|done|].
  destruct Hcap as [->|(e & _ & -> & _ & Hke)]; [done|]. revert Hke.
  unfold shouldKeepExistingWorkerAccountCapacity, severity. rewrite Hd.
  by destruct (availability (capacity e)).
Qed.

Lemma invalidated_srun os k s :
  wf_store s → Forall (λ o, clears k o = false) os → invalidated k s → invalidated k (srun os s).
Proof.
  revert s. induction os as [|o os IH]; intros s W Hf H; simpl; [done|].
  apply Forall_cons in Hf as [Ho Hf]. apply IH; auto using wf_sexec, invalidated_sexec.
Qed.

(** An invalidated account reads as disabled for every demand at every time. *)
Lemma invalidated_read account k s d now :
  wf_store s → normalizeWorkerAccountId (Some account) = Some k → invalidated k s →
  ∃ c, read s account d now = Some c ∧ availability c = Disabled.
Proof.
  intros W Hk (r & Hr & Hav & _ & Hcd & _).
  destruct (read_severity s account d now k r Hk) as (r' & _ & -> & Hs).
  - unfold relevant. destruct (normalizeWorkerRuntimeDemand d) as [dm|].
    + change (accountCapacityKey k None) with k. rewrite Hr. csimpl.
      destruct (map_get (records s) (accountCapacityKey k (Some dm))); simpl; repeat constructor.
    + apply list_elem_of_fmap. exists (k, r). split; [done|].
      rewrite list_elem_of_In, List.filter_In, <- list_elem_of_In. split; [by apply map_get_Some_in|].
      unfold of_account. simpl. by rewrite js_eqb_refl.
  - unfold isBlocking, stateFromRecord. by rewrite Hcd.
  - exists (capacity r'). split; [done|]. revert Hs. unfold severity. rewrite Hav.
    by destruct (availability (capacity r')).
Qed.

(** a confirmed session invalidation is sticky. After an account-wide
    [provider_session_invalid] signal, and as long as nobody clears the
    account, no sequence of observations, rechecks, resolutions and releases
    makes the account readable as anything but disabled, for any runtime
    demand and at any time, and no recheck of that record is granted. *)
Theorem session_invalidation_sticky pre uuid i k os account d now u st owner ttl mode :
  s_scope i = Some AccountWide → reason (s_capacity i) = Some session_invalid →
  normalizeWorkerAccountId (Some (s_accountId i)) = Some k →
  normalizeWorkerAccountId (Some account) = Some k →
  Forall (λ o, clears k o = false) os →
  let s := srun os (observe uuid i (srun pre empty_store)).1 in
  (∃ c, read s account d now = Some c ∧ availability c = Disabled) ∧
  (recordId (st_record st) = k → ∀ c, (tryClaimRecheck u st owner now ttl mode s).2 ≠ Claimed c).
Proof.
  intros Hs Hr Hk Ha Hf s.
  destruct (srun_invariants pre empty_store) as [W0 D0].
  { split; simpl; try constructor; done. }
  { done. }
  assert (W1 : wf_store (observe uuid i (srun pre empty_store)).1) by by apply (wf_sexec (SObserve uuid i)).
  pose proof (observed_invalidated uuid i _ k W0 D0 Hs Hr Hk) as I1.
  pose proof (invalidated_srun os k _ W1 Hf I1) as I2. fold s in I2.
  assert (W2 : wf_store s).
  { by apply srun_invariants; [|apply (disabled_locked_sexec (SObserve uuid i))]. }
  split; [by apply (invalidated_read account k)|].
  intros Hst c. destruct I2 as (r & Hg & _ & Hre & _). unfold tryClaimRecheck. rewrite Hst, Hg.
  destruct (negb _); [done|]. unfold has_reason. by rewrite Hre.
Qed.

(** ** Concrete runs *)

Definition ex_capacity (a : Availability) (r : string) (until : option date) : Snapshot :=
  mkSnapshot None a (Some (js r)) until None None None None.

Definition ex_signal (c : Snapshot) (t : Z) : LimitSignal :=
  mkSignal (js " acct-1 ") (Some AccountWide) None c (At t) None false.

Definition ex_limit : LimitSignal := ex_signal (ex_capacity QuotaExhausted "quota_limited" (Some (At 2000))) 1000.
Definition ex_later : LimitSignal := ex_signal (ex_capacity Cooldown "quota_limited" (Some (At 9000))) 2600.
Definition ex_invalid : LimitSignal := ex_signal (ex_capacity Degraded "provider_session_invalid" None) 2700.

Definition ex_store : store := (observe (js "u1") ex_limit empty_store).1.

Definition ex_state : CapacityState :=
  default (mkState (mkRecord [] [] [] None (ex_capacity Available "" None)) Blocking)
    (readState ex_store (js "acct-1") None (At 2500)).

Definition ex_claimed : store * ClaimResult :=
  tryClaimRecheck (js "c1") ex_state (js "owner") (At 2500) (num_of_Z 1000) DueOnly ex_store.

Definition ex_claim : RecheckClaim :=
  match ex_claimed.2 with
  | Claimed c => c
  | _ => mkClaim [] [] [] [] None [] InvalidDate InvalidDate (ex_capacity Available "" None)
  end.

Lemma ex_store_wf : wf_store ex_store.
Proof. apply (wf_sexec (SObserve (js "u1") ex_limit)). split; simpl; try constructor; done. Qed.

Lemma readState_most_severe_witness :
  readState ex_store (js "acct-1") None (At 1500) =
    Some (mkState (mkRecord (js "acct-1") (js "u1") (js "acct-1") None
      (mkSnapshot None QuotaExhausted (Some (js "quota_limited")) (Some (At 2000)) None None
        (Some (At 1000)) (Some [(js "accountId", js "acct-1")]))) Blocking) ∧
  st_record ex_state ∈ relevant ex_store (js "acct-1") None.
Proof.
  split; [by vm_compute|].
  pose proof (readState_most_severe ex_store (js "acct-1") None (At 2500) (js "acct-1")) as H.
  change (readState ex_store (js "acct-1") None (At 2500)) with (Some ex_state) in H.
  apply H; [by vm_compute|]. apply Forall_cons. split; [done|apply Forall_nil_2].
Defined.

Lemma observe_never_weakens_witness :
  ∃ r, map_get (records (observe (js "u2") ex_later ex_store).1) (js "acct-1") = Some r ∧
    cooldownUntil (capacity r) = Some (At 9000) ∧ availability (capacity r) = Cooldown.
Proof.
  destruct (observe_never_weakens (js "u2") ex_later ex_store
    (mkSnapshot None Cooldown (Some (js "quota_limited")) (Some (At 9000)) None None
        (Some (At 2600)) (Some [(js "accountId", js "acct-1")])) (js "acct-1")) as [(r & Hr & _) _].
  - by vm_compute.
  - by vm_compute.
  - done.
  - intros e. vm_compute. by intros [= <-].
  - exists r. split; [done|]. vm_compute in Hr. injection Hr as <-. done.
Defined.

(** The limit expires, a recheck is claimed, a new limit is observed, and the
    late "available" answer is refused. *)
Lemma observation_fences_recheck_witness :
  (resolveRecheck (js "u9") ex_claim (At 2800) ResAvailable
     (srun [] (observe (js "u2") ex_later ex_claimed.1).1)).2 = StaleClaim.
Proof.
  refine (proj1 (observation_fences_recheck (js "c1") ex_state (js "owner") (At 2500) (num_of_Z 1000)
    DueOnly ex_store ex_claim ex_claimed.1 (js "u2") ex_later
    (mkSnapshot None Cooldown (Some (js "quota_limited")) (Some (At 9000)) None None
        (Some (At 2600)) (Some [(js "accountId", js "acct-1")])) [] (js "u9") (At 2800) ResAvailable
    ex_store_wf _ _ _ _ _)).
  - by vm_compute.
  - by vm_compute.
  - by vm_compute.
  - by vm_compute.
  - constructor.
Defined.

Lemma session_invalidation_sticky_witness :
  ∃ c, read (srun [SObserve (js "u3") ex_later]
         (observe (js "u2") ex_invalid (srun [SObserve (js "u1") ex_limit] empty_store)).1)
       (js "acct-1") None (At 100000) = Some c ∧ availability c = Disabled.
Proof.
  refine (proj1 (session_invalidation_sticky [SObserve (js "u1") ex_limit] (js "u2") ex_invalid
    (js "acct-1") [SObserve (js "u3") ex_later] (js "acct-1") None (At 100000) [] ex_state []
    (num_of_Z 0) DueOnly _ _ _ _ _)).
  - done.
  - done.
  - by vm_compute.
  - by vm_compute.
  - repeat constructor.
Defined.
End CapacityStore.
