(* ===== verification/AccountLeases.v ===== *)
(** * Account leases and runtime account selection

    [src/worker-core/account-capacity-selection]: the in-memory account lease
    store, the round-robin order of the candidate accounts, the wait plan and
    the use case that selects and leases an account. The use case is stated
    against the two ports it calls, the classes [CapacityReader] and
    [AccountLeaseStore]; the in-memory stores are their instances. *)

From stdpp Require Import base numbers list option sets strings pretty sorting.
From S2P Require Import Prelude AccountCapacity.
Import Capacity.

#[local] Open Scope Z_scope.

Module Leases.

(** ** Leases *)

Record Lease : Set := mkLease {
  leaseId : jsstring;
  fencingToken : N;
  accountId : jsstring;
  demand : option Demand;
  ownerId : jsstring;
  acquiredAt : date;
  expiresAt : date;
}.

Inductive LeaseError : Set :=
| account_id_required | owner_id_required | lease_id_required | ttl_invalid.

Inductive AcquireResult : Set :=
| Granted (l : Lease)
| Denied (currentLeaseExpiresAt : option date).

Inductive RenewResult : Set :=
| Renewed (l : Lease) | LeaseExpired | LeaseNotCurrent.

Record store : Set := mkStore {
  records : list (jsstring * Lease);
  nextLeaseSequence : N }.

Definition empty_store : store := mkStore [] 0.

(** The account id, NUL, and the demand key. *)
Definition workerAccountLeaseResourceKey (account : jsstring) (d : option Demand) : jsstring :=
  account ++ [0%N] ++ default [] (workerRuntimeDemandKey d).

(** The decimal digits of a counter in a template literal. *)
Definition js_of_N (n : N) : jsstring := js (pretty n).

Definition lease_id (owner : jsstring) (n : N) : jsstring := owner ++ js ":" ++ js_of_N n.

(** [!Number.isFinite(ttlMs) || ttlMs <= 0]. *)
Definition ttl_bad (ttl : num) : bool := negb (is_finite ttl) || num_leb ttl (num_of_Z 0).

Definition acquire (account : jsstring) (d : option Demand) (owner : jsstring) (ttl : num)
    (now : date) : M store LeaseError AcquireResult := λ s,
  match normalizeWorkerAccountId (Some account) with
  | None => (s, Throw account_id_required)
  | Some account =>
    let owner := js_trim owner in
    if negb (truthy owner) then (s, Throw owner_id_required)
    else if ttl_bad ttl then (s, Throw ttl_invalid)
    else
      let demand := normalizeWorkerRuntimeDemand d in
      let key := workerAccountLeaseResourceKey account demand in
      let grant :=
        let n := (nextLeaseSequence s + 1)%N in
        let lease := mkLease (lease_id owner n) n account demand owner now (date_plus now ttl) in
        (mkStore (map_set (records s) key lease) n, Ok (Granted lease)) in
      match map_get (records s) key with
      | Some current =>
          if date_ltb now (expiresAt current) then
            if js_eqb (ownerId current) owner then (s, Ok (Granted current))
            else (s, Ok (Denied (Some (expiresAt current))))
          else grant
      | None => grant
      end
  end.

(** The first record of a lease held by an owner. *)
Fixpoint find_lease (m : list (jsstring * Lease)) (id owner : jsstring) : option (jsstring * Lease) :=
  match m with
  | [] => None
  | (k, l) :: m' =>
      if js_eqb (leaseId l) id && js_eqb (ownerId l) owner then Some (k, l) else find_lease m' id owner
  end.

Definition extend (l : Lease) (until : date) : Lease :=
  mkLease (leaseId l) (fencingToken l) (accountId l) (demand l) (ownerId l) (acquiredAt l) until.

Definition renewed_until (l : Lease) (ttl : num) (now : date) : date :=
  new_Date (num_max (getTime (expiresAt l)) (num_add (getTime now) ttl)).

Definition renew (id owner : jsstring) (ttl : num) (now : date) : M store LeaseError RenewResult := λ s,
  let id := js_trim id in
  let owner := js_trim owner in
  if negb (truthy id) then (s, Throw lease_id_required)
  else if negb (truthy owner) then (s, Throw owner_id_required)
  else if ttl_bad ttl then (s, Throw ttl_invalid)
  else match find_lease (records s) id owner with
  | None => (s, Ok LeaseNotCurrent)
  | Some (key, l) =>
      if date_leb (expiresAt l) now then (s, Ok LeaseExpired)
      else let renewed := extend l (renewed_until l ttl now) in
           (mkStore (map_set (records s) key renewed) (nextLeaseSequence s), Ok (Renewed renewed))
  end.

Definition release (id owner : jsstring) (s : store) : store :=
  match find_lease (records s) id (js_trim owner) with
  | None => s
  | Some (key, _) => mkStore (map_delete (records s) key) (nextLeaseSequence s)
  end.

(** ** Histories of the lease store *)

Inductive op : Set :=
| OAcquire (account : jsstring) (d : option Demand) (owner : jsstring) (ttl : num) (now : date)
| ORenew (id owner : jsstring) (ttl : num) (now : date)
| ORelease (id owner : jsstring).

Definition exec (o : op) (s : store) : store :=
  match o with
  | OAcquire a d o ttl now => (acquire a d o ttl now s).1
  | ORenew id o ttl now => (renew id o ttl now s).1
  | ORelease id o => release id o s
  end.

Definition run (os : list op) (s : store) : store := foldl (λ s o, exec o s) s os.

(** The resource a lease is filed under. *)
Definition resource (l : Lease) : jsstring := workerAccountLeaseResourceKey (accountId l) (demand l).

(** Records are filed under their resource, ids are made of the owner and the
    token, tokens are unique and were issued. *)
Record wf (s : store) : Prop := {
  wf_nodup : NoDup (records s).*1;
  wf_filed : ∀ k l, map_get (records s) k = Some l → k = resource l;
  wf_id : ∀ k l, map_get (records s) k = Some l → leaseId l = lease_id (ownerId l) (fencingToken l);
  wf_issued : ∀ k l, map_get (records s) k = Some l → (fencingToken l ≤ nextLeaseSequence s)%N;
  wf_unique : ∀ k k' l l', map_get (records s) k = Some l → map_get (records s) k' = Some l' →
    fencingToken l = fencingToken l' → k = k';
  wf_dates : ∀ k l e, map_get (records s) k = Some l → expiresAt l = At e → - max_time ≤ e ≤ max_time;
}.

Lemma find_lease_Some m id owner k l :
  NoDup m.*1 → find_lease m id owner = Some (k, l) →
  map_get m k = Some l ∧ leaseId l = id ∧ ownerId l = owner.
Proof.
  intros Hn. induction m as [|[k' l'] m IH]; simpl; [done|].
  apply NoDup_cons in Hn as [Hk Hn]. destruct (_ && _) eqn:E.
  - intros [= <- <-]. bools. by rewrite decide_True.
  - intros H. destruct (IH Hn H) as (Hg & ? & ?). rewrite decide_False; [done|].
    intros ->. apply Hk. apply map_get_Some_in in Hg. apply list_elem_of_fmap. by exists (k, l).
Qed.

Lemma lease_wf_empty : wf empty_store.
Proof. split; simpl; try constructor; done. Qed.

(** What a successful [acquire] did. *)
Lemma acquire_cases account d owner ttl now s s' r :
  acquire account d owner ttl now s = (s', r) →
  match r with
  | Throw _ => s' = s
  | Ok r =>
      ∃ a, normalizeWorkerAccountId (Some account) = Some a ∧ truthy (js_trim owner) = true ∧
      ttl_bad ttl = false ∧
      let key := workerAccountLeaseResourceKey a (normalizeWorkerRuntimeDemand d) in
      let n := (nextLeaseSequence s + 1)%N in
      match r with
      | Denied until => s' = s ∧ ∃ c, map_get (records s) key = Some c ∧
          date_ltb now (expiresAt c) = true ∧ ownerId c ≠ js_trim owner ∧ until = Some (expiresAt c)
      | Granted l =>
          (s' = s ∧ map_get (records s) key = Some l ∧ date_ltb now (expiresAt l) = true ∧
             ownerId l = js_trim owner) ∨
          (l = mkLease (lease_id (js_trim owner) n) n a (normalizeWorkerRuntimeDemand d)
                 (js_trim owner) now (date_plus now ttl) ∧
           s' = mkStore (map_set (records s) key l) n ∧
           ∀ c, map_get (records s) key = Some c → date_ltb now (expiresAt c) = false)
      end
  end.
Proof.
  unfold acquire. destruct (normalizeWorkerAccountId _) as [a|]; [|by intros [= <- <-]].
  cbv zeta. destruct (truthy (js_trim owner)) eqn:Et; simpl; [|by intros [= <- <-]].
  destruct (ttl_bad ttl) eqn:Ettl; [by intros [= <- <-]|].
  destruct (map_get (records s) _) as [c|] eqn:Ec.
  - destruct (date_ltb now (expiresAt c)) eqn:Ed.
    + destruct (js_eqb (ownerId c) (js_trim owner)) eqn:Eo; intros [= <- <-]; bools.
      * exists a. split_and!; try done. by left.
      * exists a. split_and!; try done. eauto 6.
    + intros [= <- <-]. exists a. split_and!; try done. right. split_and!; try done. naive_solver.
  - intros [= <- <-]. exists a. split_and!; try done. right. split_and!; try done. intros c Hc. congruence.
Qed.

Lemma wf_set_new key l s :
  wf s → fencingToken l = (nextLeaseSequence s + 1)%N → key = resource l →
  leaseId l = lease_id (ownerId l) (fencingToken l) →
  (∃ x, expiresAt l = new_Date x) →
  wf (mkStore (map_set (records s) key l) (nextLeaseSequence s + 1)).
Proof.
  intros [W1 W2 W3 W4 W5 W6] Ht Hk Hid [x Hx]. split; simpl; auto with runtime.
  - intros k l'. rewrite map_get_set. case_decide; [by intros [= <-]; subst|auto].
  - intros k l'. rewrite map_get_set. case_decide; [by intros [= <-]|eauto].
  - intros k l'. rewrite map_get_set. case_decide; [intros [= <-]; lia|].
    intros H'%W4. lia.
  - intros k k' l1 l2. rewrite !map_get_set. repeat case_decide; subst; try done.
    + intros [= <-] H'%W4. lia.
    + intros H'%W4 [= <-]. lia.
    + apply W5.
  - intros k l' e. rewrite map_get_set. case_decide; [intros [= <-] He|eauto].
    rewrite Hx in He. by eapply new_Date_bounds.
Qed.

Lemma wf_extend key l x s :
  wf s → map_get (records s) key = Some l →
  wf (mkStore (map_set (records s) key (extend l (new_Date x))) (nextLeaseSequence s)).
Proof.
  intros [W1 W2 W3 W4 W5 W6] Hg. split; simpl; auto with runtime.
  - intros k l'. rewrite map_get_set. case_decide; [intros [= <-]; subst; exact (W2 _ _ Hg)|auto].
  - intros k l'. rewrite map_get_set. case_decide; [intros [= <-]; exact (W3 _ _ Hg)|eauto].
  - intros k l'. rewrite map_get_set. case_decide; [intros [= <-]; exact (W4 _ _ Hg)|eauto].
  - intros k k' l1 l2. rewrite !map_get_set. repeat case_decide; subst; try done.
    + intros [= <-] H2. by apply (W5 k k' l l2).
    + intros H1 [= <-]. by apply (W5 k k' l1 l).
    + apply W5.
  - intros k l' e. rewrite map_get_set. case_decide; [|eauto].
    intros [= <-] He. exact (new_Date_bounds _ _ He).
Qed.

Lemma wf_drop key s : wf s → wf (mkStore (map_delete (records s) key) (nextLeaseSequence s)).
Proof.
  intros [W1 W2 W3 W4 W5 W6]. split; simpl; auto with runtime.
  all: intros *; repeat intros ?%map_get_delete_sub; eauto.
Qed.

Lemma lease_wf_exec o s : wf s → wf (exec o s).
Proof.
  intros W. destruct o as [a d o ttl now|id o ttl now|id o]; simpl.
  - destruct (acquire a d o ttl now s) as [s' r] eqn:E. simpl.
    apply acquire_cases in E. destruct r as [[l|u]|e]; [| |by subst].
    + destruct E as (b & _ & _ & _ & [(-> & _)|(-> & -> & _)]); [done|]. apply wf_set_new; try done. by eexists.
    + by destruct E as (b & _ & _ & _ & -> & _).
  - unfold renew. cbv zeta. do 3 (destruct (_ : bool); [done|]).
    destruct (find_lease _ _ _) as [[k l]|] eqn:Ef; [|done].
    apply find_lease_Some in Ef as (Hg & _); [|apply W].
    destruct (date_leb _ _); [done|]. by apply wf_extend.
  - unfold release. destruct (find_lease _ _ _) as [[k l]|]; [|done]. by apply wf_drop.
Qed.

Lemma wf_run os s : wf s → wf (run os s).
Proof. revert s. induction os as [|o os IH]; intros s W; simpl; auto using lease_wf_exec. Qed.

(** What [renew] did. *)
Lemma renew_cases id owner ttl now s s' r :
  NoDup (records s).*1 → renew id owner ttl now s = (s', r) →
  match r with
  | Ok (Renewed l') => ∃ k l, map_get (records s) k = Some l ∧ leaseId l = js_trim id ∧
      ownerId l = js_trim owner ∧ l' = extend l (renewed_until l ttl now) ∧
      s' = mkStore (map_set (records s) k l') (nextLeaseSequence s)
  | _ => s' = s
  end.
Proof.
  unfold renew. cbv zeta. intros Hn. do 3 (destruct (_ : bool); [by intros [= <- <-]|]).
  destruct (find_lease _ _ _) as [[k l]|] eqn:Ef; [|by intros [= <- <-]].
  apply find_lease_Some in Ef as (Hg & H1 & H2); [|done].
  destruct (date_leb _ _); intros [= <- <-]; [done|]. by exists k, l.
Qed.

(** ** Fencing *)

(** A token was issued and no record carries it any more. *)
Definition superseded (t : N) (s : store) : Prop :=
  (t ≤ nextLeaseSequence s)%N ∧ ∀ k l, map_get (records s) k = Some l → fencingToken l ≠ t.

(** A token was issued for a key, which carries it or a later one. *)
Definition tracked (t : N) (k : jsstring) (s : store) : Prop :=
  (t ≤ nextLeaseSequence s)%N ∧
  (∀ k' l, map_get (records s) k' = Some l → fencingToken l = t → k' = k) ∧
  (∀ l, map_get (records s) k = Some l → (t ≤ fencingToken l)%N).

(** Every operation keeps the records, drops one, extends one in place, or
    files a new one with the next token. *)
Inductive change (s : store) : store → Prop :=
| change_none : change s s
| change_drop k : change s (mkStore (map_delete (records s) k) (nextLeaseSequence s))
| change_extend k l u : map_get (records s) k = Some l →
    change s (mkStore (map_set (records s) k (extend l u)) (nextLeaseSequence s))
| change_new k l : fencingToken l = (nextLeaseSequence s + 1)%N →
    change s (mkStore (map_set (records s) k l) (nextLeaseSequence s + 1)).

Lemma exec_change o s : wf s → change s (exec o s).
Proof.
  intros W. destruct o as [a d o ttl now|id o ttl now|id o]; simpl.
  - destruct (acquire a d o ttl now s) as [s' r] eqn:E. apply acquire_cases in E. simpl.
    destruct r as [[l|u]|e]; [| |subst; constructor].
    + destruct E as (b & _ & _ & _ & [(-> & _)|(Hl & -> & _)]); constructor. by rewrite Hl.
    + destruct E as (b & _ & _ & _ & -> & _). constructor.
  - destruct (renew id o ttl now s) as [s' r] eqn:E. apply renew_cases in E; [|apply W]. simpl.
    destruct r as [[l| |]|]; subst; try constructor.
    destruct E as (k & l' & Hg & _ & _ & -> & ->). by constructor.
  - unfold release. destruct (find_lease _ _ _) as [[k l]|]; constructor.
Qed.

Lemma superseded_change t s s' : wf s → change s s' → superseded t s → superseded t s'.
Proof.
  intros W [|k|k l u Hg|k l Hl] [H1 H2]; [done|..]; (split; simpl; [lia|]).
  - intros k' l' Hg%map_get_delete_sub; [eauto|apply W].
  - intros k' l'. rewrite map_get_set. case_decide; [|eauto]. intros [= <-]. simpl. eauto.
  - intros k' l'. rewrite map_get_set. case_decide; [|eauto]. intros [= <-]. lia.
Qed.

Lemma tracked_change t k s s' : wf s → change s s' → tracked t k s → tracked t k s'.
Proof.
  intros W [|k1|k1 l u Hg|k1 l Hl] (H1 & H2 & H3); [done|..]; (split_and!; simpl; [lia|..]).
  - intros k' l' Hg%map_get_delete_sub; [eauto|apply W].
  - intros l' Hg%map_get_delete_sub; [eauto|apply W].
  - intros k' l'. rewrite map_get_set. case_decide; [|eauto]. intros [= <-]; simpl. subst. eauto.
  - intros l'. rewrite map_get_set. case_decide; [|eauto]. intros [= <-]; simpl. subst. eauto.
  - intros k' l'. rewrite map_get_set. case_decide; [|eauto]. intros [= <-]. lia.
  - intros l'. rewrite map_get_set. case_decide; [|eauto]. intros [= <-]. lia.
Qed.

Lemma run_ind (P : store → Prop) os s :
  (∀ s s', wf s → change s s' → P s → P s') → wf s → P s → P (run os s).
Proof.
  intros Hstep. revert s. induction os as [|o os IH]; intros s W H; simpl; [done|].
  apply IH; [by apply lease_wf_exec|]. by apply (Hstep s); [|apply exec_change|].
Qed.

(** A granted lease is on record under its resource. *)
Lemma granted_recorded a d o ttl now s s' l :
  wf s → acquire a d o ttl now s = (s', Ok (Granted l)) →
  wf s' ∧ map_get (records s') (resource l) = Some l ∧ ownerId l = js_trim o.
Proof.
  intros W E. pose proof (lease_wf_exec (OAcquire a d o ttl now) s W) as W'. simpl in W'. rewrite E in W'.
  split; [done|]. apply acquire_cases in E as (b & _ & _ & _ & [(-> & Hg & _ & ?)|(-> & -> & _)]).
  - by rewrite <- (wf_filed _ W _ _ Hg).
  - simpl. by rewrite map_get_set_eq.
Qed.

(** A request that names a superseded lease finds nothing. *)
Lemma superseded_not_found s l owner id :
  wf s → leaseId l = lease_id (ownerId l) (fencingToken l) → superseded (fencingToken l) s →
  id = leaseId l → owner = ownerId l → find_lease (records s) id owner = None.
Proof.
  intros W Hid [_ Hs] -> ->. destruct (find_lease _ _ _) as [[k l']|] eqn:Ef; [|done].
  apply find_lease_Some in Ef as (Hg & H1 & H2); [|apply W]. exfalso. apply (Hs k l' Hg).
  rewrite (wf_id _ W _ _ Hg), Hid, H2 in H1. unfold lease_id, js_of_N in H1.
  apply app_inv_head in H1. injection H1 as H1. by apply js_inj, pretty_N_inj in H1.
Qed.

(** a lease that lost its account is fenced off. When a resource is
    granted again under another fencing token, the new token is larger, and
    from then on, whatever happens, renewing the old lease fails and releasing
    it has no effect on the store. *)
Theorem account_lease_fenced pre a d o ttl t s1 l1 os a' d' o' ttl' t' s2 l2 :
  acquire a d o ttl t (run pre empty_store) = (s1, Ok (Granted l1)) →
  acquire a' d' o' ttl' t' (run os s1) = (s2, Ok (Granted l2)) →
  resource l1 = resource l2 → fencingToken l1 ≠ fencingToken l2 →
  (fencingToken l1 < fencingToken l2)%N ∧
  ∀ os' id owner ttl'' now, js_trim owner = ownerId l1 →
    let s3 := run os' s2 in
    release (leaseId l1) owner s3 = s3 ∧
    (js_trim id = leaseId l1 → (renew id owner ttl'' now s3).1 = s3 ∧
       ∀ l, (renew id owner ttl'' now s3).2 ≠ Ok (Renewed l)).
Proof.
  intros H1 H2 Hr Hne.
  destruct (granted_recorded _ _ _ _ _ _ _ _ (wf_run pre _ lease_wf_empty) H1) as (W1 & G1 & _).
  pose proof (wf_run os s1 W1) as Wm.
  destruct (granted_recorded _ _ _ _ _ _ _ _ Wm H2) as (W2 & G2 & _).
  assert (T1 : tracked (fencingToken l1) (resource l1) s1).
  { split_and!; [by eapply wf_issued|intros k' l Hg Ht; by apply (wf_unique _ W1 k' _ l l1)|]. intros l. rewrite G1. intros [= ->]. lia. }
  assert (T2 : tracked (fencingToken l1) (resource l1) s2).
  { apply (tracked_change _ _ (run os s1)); [done| |by apply run_ind; auto; intros; eapply tracked_change].
    pose proof (exec_change (OAcquire a' d' o' ttl' t') _ Wm) as Hc. simpl in Hc. by rewrite H2 in Hc. }
  destruct T2 as (Ti & Tk & Tm). rewrite <- Hr in G2. specialize (Tm _ G2). split; [lia|].
  assert (S2 : superseded (fencingToken l1) s2).
  { split; [done|]. intros k l Hg Ht. rewrite (Tk _ _ Hg Ht), G2 in Hg. congruence. }
  intros os' id owner ttl'' now Ho s3.
  assert (S3 : superseded (fencingToken l1) s3).
  { apply run_ind; [|done|done]. intros ? ?. apply superseded_change. }
  pose proof (wf_run os' s2 W2) as W3. fold s3 in W3. pose proof (wf_id _ W1 _ _ G1) as Hid.
  split.
  - unfold release. by rewrite (superseded_not_found s3 l1).
  - intros Hi. unfold renew. cbv zeta. rewrite Ho, Hi, (superseded_not_found s3 l1) by done.
    by repeat case_match.
Qed.

(** ** Mutual exclusion *)






End Leases.

(** ** The ports of the selection *)

(** The part of the capacity store that the selection reads. *)
Class CapacityReader (C : Type) := {
  capacity_read : C → jsstring → option Demand → date → option Snapshot }.

(** The part of the lease store that the selection calls. *)
Class AccountLeaseStore (S : Type) := {
  lease_acquire : jsstring → option Demand → jsstring → num → date →
    M S Leases.LeaseError Leases.AcquireResult }.

(** An account id without NUL, the separator of the resource keys. *)
Definition plain (a : jsstring) : Prop := 0%N ∉ a.

(** What a lease store promises: a granted lease is for the account and the
    owner that asked, a denial leaves the store as it is, and a well-formed
    request is answered. Account ids are free of the key separator. *)
Class AccountLeaseLaws (S : Type) `{AccountLeaseStore S} := {
  lease_inv : S → Prop;
  granted_for : ∀ a d o ttl now s s' l,
    lease_inv s → plain a → normalizeWorkerAccountId (Some a) = Some a →
    lease_acquire a d o ttl now s = (s', Ok (Leases.Granted l)) →
    Leases.accountId l = a ∧ Leases.ownerId l = js_trim o ∧ lease_inv s';
  denied_same : ∀ a d o ttl now s s' u,
    lease_acquire a d o ttl now s = (s', Ok (Leases.Denied u)) → s' = s;
  acquire_answers : ∀ a d o ttl now s,
    normalizeWorkerAccountId (Some a) = Some a → truthy (js_trim o) = true →
    Leases.ttl_bad ttl = false → ∃ s' r, lease_acquire a d o ttl now s = (s', Ok r);
}.

#[export] Instance in_memory_reader : CapacityReader CapacityStore.store := {
  capacity_read := CapacityStore.read }.

#[export] Instance in_memory_leases : AccountLeaseStore Leases.store := {
  lease_acquire := Leases.acquire }.

Module Selection.
Import Leases.

(** ** The order of the candidates *)

(** [[...new Set(l)]]: the first occurrence of each element. *)
Definition unique (l : list jsstring) : list jsstring :=
  foldl (λ acc x, if bool_decide (x ∈ acc) then acc else acc ++ [x]) [] l.

(** [Array.prototype.indexOf]. *)
Fixpoint index_of (l : list jsstring) (x : jsstring) : option nat :=
  match l with
  | [] => None
  | y :: l' => if js_eqb y x then Some O else S <$> index_of l' x
  end.

Definition orderedAccounts (accounts : list jsstring) (lastSelected : option jsstring) : list jsstring :=
  match truthy_opt lastSelected with
  | None => accounts
  | Some last =>
      match index_of accounts last with
      | None => accounts
      | Some i => if bool_decide (i = length accounts - 1)%nat then accounts
                  else drop (i + 1) accounts ++ take (i + 1) accounts
      end
  end.

Definition selectableWorkerAccountIds (allowed : list jsstring) (lastSelected : option jsstring) : list jsstring :=
  orderedAccounts (unique (omap (λ a, normalizeWorkerAccountId (Some a)) allowed))
    (normalizeWorkerAccountId lastSelected).

(** ** The wait plan *)

Record Unavailable : Set := mkUnavailable {
  u_accountId : jsstring; u_reason : jsstring; u_waitUntil : option date }.

Record WaitPlan : Set := mkPlan {
  waitUntil : option date; waitMs : option num; unavailable : list Unavailable }.

Inductive Decision : Set :=
| Selected (accountId : jsstring) (lease : Lease)
| AllUnavailable (p : WaitPlan).

(** [left.getTime() - right.getTime() > 0], the comparator's verdict that
    [left] goes after [right]; NaN counts as equal. *)
Definition after (l r : date) : bool := date_ltb r l.

Fixpoint sort_insert (x : date) (l : list date) : list date :=
  match l with
  | [] => [x]
  | y :: l' => if after x y then y :: sort_insert x l' else x :: l
  end.

(** [Array.prototype.sort], which is stable. *)
Definition sort_dates (l : list date) : list date := foldr sort_insert [] l.

Definition buildRuntimeAccountWaitPlan (u : list Unavailable) (now : date) : WaitPlan :=
  let w := head (sort_dates (omap u_waitUntil u)) in
  mkPlan w ((λ d, num_max (num_of_Z 0)
    (num_add (getTime d) (num_mul (num_of_Z (-1)) (getTime now)))) <$> w) u.

(** ** The use case *)

Inductive SelectError : Set :=
| select_owner_id_required | select_lease_ttl_invalid | lease_error (e : LeaseError).

(** The string of an availability. *)
Definition availability_string (a : Availability) : jsstring :=
  js match a with
     | Available => "available" | Busy => "busy" | Warming => "warming" | Cooldown => "cooldown"
     | QuotaExhausted => "quota_exhausted" | Degraded => "degraded" | Disabled => "disabled"
     end.

Record SelectInput (C : Type) : Type := mkInput {
  allowedAccounts : list jsstring;
  i_demand : option Demand;
  (** Absent, null, or a demand. *)
  leaseDemand : option (option Demand);
  i_ownerId : jsstring;
  leaseTtlMs : num;
  capacityStore : C;
  now : date;
  lastSelectedAccountId : option jsstring;
}.
Arguments mkInput {C}.
Arguments allowedAccounts {C}.
Arguments i_demand {C}.
Arguments leaseDemand {C}.
Arguments i_ownerId {C}.
Arguments leaseTtlMs {C}.
Arguments capacityStore {C}.
Arguments now {C}.
Arguments lastSelectedAccountId {C}.

Section use_case.
Context {C S : Type} `{CapacityReader C} `{AccountLeaseStore S}.
Implicit Types (i : SelectInput C) (s : S).

Definition assertSelectionInput i : result SelectError unit :=
  if negb (truthy (js_trim (i_ownerId i))) then Throw select_owner_id_required
  else if ttl_bad (leaseTtlMs i) then Throw select_lease_ttl_invalid
  else Ok tt.

(** The capacity that keeps an account from being selected. *)
Definition blocking_capacity i (account : jsstring) : option Snapshot :=
  match capacity_read (capacityStore i) account (i_demand i) (now i) with
  | Some c => if bool_decide (availability c = Available) then None else Some c
  | None => None
  end.

Definition lease_demand i : option Demand :=
  match leaseDemand i with None => i_demand i | Some d => d end.

Fixpoint select_loop i (accounts : list jsstring) (acc : list Unavailable) : M S SelectError Decision := λ s,
  match accounts with
  | [] => (s, Ok (AllUnavailable (buildRuntimeAccountWaitPlan acc (now i))))
  | account :: rest =>
      match blocking_capacity i account with
      | Some c =>
          select_loop i rest (acc ++ [mkUnavailable account
            (default (availability_string (availability c)) (reason c)) (cooldownUntil c)]) s
      | None =>
          match lease_acquire account (lease_demand i) (i_ownerId i) (leaseTtlMs i) (now i) s with
          | (s', Throw e) => (s', Throw (lease_error e))
          | (s', Ok (Granted l)) => (s', Ok (Selected account l))
          | (s', Ok (Denied until)) =>
              select_loop i rest (acc ++ [mkUnavailable account (js "leased") until]) s'
          end
      end
  end.

Definition execute i : M S SelectError Decision :=
  lift (assertSelectionInput i) ;;
  select_loop i (selectableWorkerAccountIds (allowedAccounts i) (lastSelectedAccountId i)) [].

(** ** What the use case decides *)

(** The acquisition the loop attempts for an account. *)
Definition attempt i (a : jsstring) : M S LeaseError AcquireResult :=
  lease_acquire a (lease_demand i) (i_ownerId i) (leaseTtlMs i) (now i).

(** Why an account was passed over: its capacity or somebody's lease, with the
    entry the wait plan reports for it. *)
Inductive refused i s (a : jsstring) : Unavailable → Prop :=
| refused_capacity c : blocking_capacity i a = Some c →
    refused i s a (mkUnavailable a (default (availability_string (availability c)) (reason c))
      (cooldownUntil c))
| refused_lease until : blocking_capacity i a = None → attempt i a s = (s, Ok (Denied until)) →
    refused i s a (mkUnavailable a (js "leased") until).

Definition normal (a : jsstring) : Prop := normalizeWorkerAccountId (Some a) = Some a.

Section laws.
Context `{!AccountLeaseLaws S}.

Lemma select_loop_spec i accounts acc s :
  assertSelectionInput i = Ok tt → Forall normal accounts →
  (∃ before us a after s' l, accounts = before ++ a :: after ∧
     Forall2 (refused i s) before us ∧ blocking_capacity i a = None ∧
     attempt i a s = (s', Ok (Granted l)) ∧
     select_loop i accounts acc s = (s', Ok (Selected a l))) ∨
  (∃ us, Forall2 (refused i s) accounts us ∧
     select_loop i accounts acc s =
       (s, Ok (AllUnavailable (buildRuntimeAccountWaitPlan (acc ++ us) (now i))))).
Proof.
  intros Hi. revert acc. induction accounts as [|a rest IH]; intros acc Hn; simpl.
  { right. exists []. by rewrite app_nil_r. }
  apply Forall_cons in Hn as [Ha Hn].
  assert (Hpass : ∀ u, refused i s a u →
    select_loop i (a :: rest) acc s = select_loop i rest (acc ++ [u]) s →
    (∃ before us b after s' l, a :: rest = before ++ b :: after ∧
     Forall2 (refused i s) before us ∧ blocking_capacity i b = None ∧
     attempt i b s = (s', Ok (Granted l)) ∧
     select_loop i (a :: rest) acc s = (s', Ok (Selected b l))) ∨
    (∃ us, Forall2 (refused i s) (a :: rest) us ∧ select_loop i (a :: rest) acc s =
       (s, Ok (AllUnavailable (buildRuntimeAccountWaitPlan (acc ++ us) (now i)))))).
  { intros u Hu ->. destruct (IH (acc ++ [u]) Hn)
      as [(before & us & b & after & s' & l & -> & Hf & Hb & Hl & ->)|(us & Hf & ->)].
    - left. exists (a :: before), (u :: us), b, after, s', l. split_and!; try done. by constructor.
    - right. exists (u :: us). rewrite <- app_assoc. split; [by constructor|done]. }
  simpl in Hpass. destruct (blocking_capacity i a) as [c|] eqn:Eb.
  { eapply Hpass; [by constructor|done]. }
  destruct (acquire_answers a (lease_demand i) (i_ownerId i) (leaseTtlMs i) (now i) s) as (s' & r & Hr);
    [done|revert Hi; unfold assertSelectionInput; by repeat case_match; bools..|].
  rewrite Hr in Hpass |- *. destruct r as [l|until].
  - left. exists [], [], a, rest, s', l. split_and!; try done.
  - pose proof (denied_same _ _ _ _ _ _ _ _ Hr) as ->. eapply Hpass; [by constructor|done].
Qed.
End laws.
End use_case.

(** ** The order is a fair rotation *)

Lemma unique_spec (l acc : list jsstring) :
  NoDup acc →
  let r := foldl (λ acc x, if bool_decide (x ∈ acc) then acc else acc ++ [x]) acc l in
  NoDup r ∧ (∀ x, x ∈ r ↔ x ∈ acc ∨ x ∈ l) ∧ acc `prefix_of` r.
Proof.
  revert acc. induction l as [|x l IH]; intros acc Hn; simpl; [set_solver|].
  destruct (bool_decide_reflect (x ∈ acc)) as [Hx|Hx].
  - destruct (IH acc Hn) as (H1 & H2 & H3). split_and!; [done| |done]. intros y. rewrite H2. set_solver.
  - destruct (IH (acc ++ [x])) as (H1 & H2 & H3).
    { apply NoDup_app. split_and!; [done| |apply NoDup_singleton]. set_solver. }
    split_and!; [done| |].
    + intros y. rewrite H2. set_solver.
    + etrans; [|done]. by apply prefix_app_r.
Qed.

Lemma index_of_Some l x i : index_of l x = Some i → l !! i = Some x.
Proof.
  revert i. induction l as [|y l IH]; intros i; simpl; [done|].
  destruct (js_eqb y x) eqn:E; bools; [intros [= <-]; by subst|].
  destruct (index_of l x); simpl; [|done]. intros [= <-]. simpl. by apply IH.
Qed.

Lemma index_of_None l x : index_of l x = None → x ∉ l.
Proof.
  induction l as [|y l IH]; simpl; [set_solver|]. destruct (js_eqb y x) eqn:E; bools; [done|].
  destruct (index_of l x); [done|]. set_solver.
Qed.

Lemma orderedAccounts_rotation l last :
  ∃ l1 l2, l = l1 ++ l2 ∧ orderedAccounts l last = l2 ++ l1 ∧
    ∀ x, truthy_opt last = Some x → x ∈ l → ∃ l', orderedAccounts l last = l' ++ [x].
Proof.
  unfold orderedAccounts. destruct (truthy_opt last) as [x|]; [|by exists [], l; rewrite app_nil_r].
  destruct (index_of l x) as [i|] eqn:Ei.
  - apply index_of_Some in Ei. case_bool_decide as Hi.
    + exists [], l. rewrite app_nil_r. split_and!; try done. intros ? [= <-] _.
      exists (take i l). pose proof (take_drop_middle l i x Ei) as Hl.
      rewrite <- Hl at 1. f_equal. rewrite drop_ge; [done|].
      apply lookup_lt_Some in Ei. lia.
    + exists (take (i + 1) l), (drop (i + 1) l). split_and!; [by rewrite take_drop|done|].
      intros ? [= <-] _. exists (drop (i + 1) l ++ take i l). rewrite <- app_assoc. f_equal.
      rewrite Nat.add_1_r. by apply take_S_r.
  - apply index_of_None in Ei. exists [], l. rewrite app_nil_r. split_and!; try done.
    by intros ? [= <-].
Qed.

Lemma selectable_normal allowed last : Forall normal (selectableWorkerAccountIds allowed last).
Proof.
  unfold selectableWorkerAccountIds. set (u := unique _).
  destruct (orderedAccounts_rotation u (normalizeWorkerAccountId last)) as (l1 & l2 & Hu & -> & _).
  assert (Hn : Forall normal u).
  { apply Forall_forall. intros a Ha. subst u. unfold unique in Ha.
    apply unique_spec in Ha as [Ha|Ha]; [set_solver| |constructor].
    apply list_elem_of_omap in Ha as (b & _ & Hb). unfold normal. unfold normalizeWorkerAccountId in *.
    rewrite <- Hb. apply optional_trimmed_idem. }
  rewrite Hu in Hn. apply Forall_app in Hn as [? ?]. by apply Forall_app.
Qed.

Lemma selectable_plain allowed last :
  Forall plain allowed → Forall plain (selectableWorkerAccountIds allowed last).
Proof.
  intros Hp. rewrite Forall_forall in *. intros a Ha. unfold selectableWorkerAccountIds in Ha.
  destruct (orderedAccounts_rotation (unique (omap (λ a, normalizeWorkerAccountId (Some a)) allowed))
    (normalizeWorkerAccountId last)) as (l1 & l2 & Hu & Hr & _).
  rewrite Hr in Ha. assert (Hin : a ∈ l1 ++ l2) by set_solver. rewrite <- Hu in Hin.
  unfold unique in Hin. apply unique_spec in Hin as [Hin|Hin]; [set_solver| |constructor].
  apply list_elem_of_omap in Hin as (b & Hb & Hab). specialize (Hp b Hb). unfold plain in *.
  intros H0. apply Hp. unfold normalizeWorkerAccountId in Hab. by eapply optional_trimmed_elem.
Qed.

(** the candidate order is a fair rotation. The candidates are exactly
    the non-blank allowed accounts, trimmed and without repetition, in their
    order of first occurrence rotated as a block, and the account selected
    last comes last. *)
Theorem candidates_rotate allowed last :
  let base := unique (omap (λ a, normalizeWorkerAccountId (Some a)) allowed) in
  let r := selectableWorkerAccountIds allowed last in
  (∃ l1 l2, base = l1 ++ l2 ∧ r = l2 ++ l1) ∧ NoDup r ∧
  (∀ x, x ∈ r ↔ ∃ a, a ∈ allowed ∧ normalizeWorkerAccountId (Some a) = Some x) ∧
  (∀ x, normalizeWorkerAccountId last = Some x → x ∈ r → ∃ l', r = l' ++ [x]).
Proof.
  intros base r.
  destruct (unique_spec (omap (λ a, normalizeWorkerAccountId (Some a)) allowed) []) as (Hn & Hin & _);
    [constructor|]. fold (unique (omap (λ a, normalizeWorkerAccountId (Some a)) allowed)) in Hn, Hin.
  fold base in Hn, Hin.
  destruct (orderedAccounts_rotation base (normalizeWorkerAccountId last)) as (l1 & l2 & Hb & Hr & Hl).
  change (orderedAccounts base _) with r in Hr, Hl.
  assert (Hp : r ≡ₚ base) by (rewrite Hr, Hb; apply Permutation_app_comm).
  split_and!.
  - eauto.
  - by rewrite Hp.
  - intros x. rewrite Hp, Hin, list_elem_of_omap. set_solver.
  - intros x Hx Hxr. apply Hl; [|by rewrite <- Hp].
    rewrite Hx. apply optional_trimmed_Some in Hx as [Ht _]. simpl. by rewrite Ht.
Qed.

(** ** The wait plan names the earliest time *)

Lemma sort_insert_elem x l y : y ∈ sort_insert x l ↔ y = x ∨ y ∈ l.
Proof. induction l as [|z l IH]; simpl; [set_solver|]. destruct (after x z); set_solver. Qed.

Lemma sort_dates_elem l y : y ∈ sort_dates l ↔ y ∈ l.
Proof. induction l as [|z l IH]; simpl; [done|]. rewrite sort_insert_elem, IH. set_solver. Qed.

Lemma sort_head_least l d :
  Forall (λ d, date_valid d = true) l → head (sort_dates l) = Some d →
  d ∈ l ∧ ∀ d', d' ∈ l → date_leb d d' = true.
Proof.
  intros Hv. revert d. induction l as [|x l IH]; intros d; simpl; [done|].
  apply Forall_cons in Hv as [Hx Hv]. destruct (sort_dates l) as [|y m] eqn:Es; simpl.
  - intros [= <-]. assert (l = []) as ->.
    { destruct l as [|z l]; [done|]. pose proof (proj2 (sort_dates_elem (z :: l) z) ltac:(left)) as Hz.
      rewrite Es in Hz. by apply elem_of_nil in Hz. }
    split; [left|]. intros d' ->%list_elem_of_singleton. destruct x; [|done]. simpl. apply Z.leb_refl.
  - destruct (IH Hv y eq_refl) as [Hy Hmin]. unfold after.
    pose proof (proj1 (Forall_forall _ _) Hv y Hy) as Hyv. simpl in Hyv.
    destruct (date_ltb y x) eqn:E; simpl; intros [= <-].
    + split; [by right|]. intros d' [->|Hd]%elem_of_cons; [|auto].
      destruct y, x; simpl in *; try done. bools. apply Z.leb_le. lia.
    + split; [left|]. intros d' [->|Hd]%elem_of_cons.
      * destruct x; [|done]. simpl. apply Z.leb_refl.
      * specialize (Hmin d' Hd). destruct y, x, d'; simpl in *; try done. bools. apply Z.leb_le. lia.
Qed.

Lemma wait_plan_spec us now :
  Forall (λ d, date_valid d = true) (omap u_waitUntil us) →
  let p := buildRuntimeAccountWaitPlan us now in
  unavailable p = us ∧
  match waitUntil p with
  | None => omap u_waitUntil us = [] ∧ waitMs p = None
  | Some d => d ∈ omap u_waitUntil us ∧ (∀ d', d' ∈ omap u_waitUntil us → date_leb d d' = true) ∧
      ∀ z t, d = At z → now = At t → waitMs p = Some (num_of_Z (Z.max 0 (z - t)))
  end.
Proof.
  intros Hv p. split; [done|]. subst p. unfold buildRuntimeAccountWaitPlan. cbn [waitUntil waitMs].
  destruct (head _) as [d|] eqn:Eh.
  - pose proof (sort_head_least _ _ Hv Eh) as [H1 H2]. split_and!; try done.
    intros z t -> ->. cbn [fmap option_fmap option_map getTime].
    rewrite num_mul_Z, num_add_Z, num_max_Z. do 3 f_equal; lia.
  - split; [|done]. destruct (omap u_waitUntil us) as [|z l]; [done|]. exfalso.
    pose proof (proj2 (sort_dates_elem (z :: l) z) ltac:(left)) as Hz.
    destruct (sort_dates (z :: l)); [by apply elem_of_nil in Hz|done].
Qed.

(** the use case decides for the first free account. With a valid owner
    and ttl it never throws. It either selects an account whose capacity does
    not block and which the lease store grants, after passing over only
    accounts that are blocked or leased, and returns a lease of that account
    for that owner; or every candidate is refused, the lease store is
    unchanged, and the wait plan lists each candidate in order and waits for
    the earliest of their times. The statement holds for every pair of stores
    that meets the interface. *)
Theorem selection_spec {C S} `{CapacityReader C} `{AccountLeaseLaws S} (i : SelectInput C) (s : S) :
  assertSelectionInput i = Ok tt → lease_inv s → Forall plain (allowedAccounts i) →
  let candidates := selectableWorkerAccountIds (allowedAccounts i) (lastSelectedAccountId i) in
  match execute i s with
  | (s', Ok (Selected a l)) => ∃ before us after, candidates = before ++ a :: after ∧
      Forall2 (refused i s) before us ∧ blocking_capacity i a = None ∧
      attempt i a s = (s', Ok (Granted l)) ∧
      accountId l = a ∧ ownerId l = js_trim (i_ownerId i)
  | (s', Ok (AllUnavailable p)) => s' = s ∧ Forall2 (refused i s) candidates (unavailable p) ∧
      (Forall (λ d, date_valid d = true) (omap u_waitUntil (unavailable p)) →
       match waitUntil p with
       | None => omap u_waitUntil (unavailable p) = []
       | Some d => d ∈ omap u_waitUntil (unavailable p) ∧
           ∀ d', d' ∈ omap u_waitUntil (unavailable p) → date_leb d d' = true
       end)
  | (_, Throw _) => False
  end.
Proof.
  intros Hi Hinv Hpl candidates. apply (selectable_plain _ (lastSelectedAccountId i)) in Hpl.
  unfold execute, lift. unfold mbind, M_bind. rewrite Hi.
  change (selectableWorkerAccountIds (allowedAccounts i) (lastSelectedAccountId i)) with candidates.
  pose proof (selectable_normal (allowedAccounts i) (lastSelectedAccountId i)) as Hn.
  change (selectableWorkerAccountIds (allowedAccounts i) (lastSelectedAccountId i)) with candidates in Hn, Hpl.
  destruct (select_loop_spec i candidates [] s Hi Hn)
    as [(before & us & a & after & s' & l & Hc & Hf & Hb & Hl & ->)|(us & Hf & ->)].
  - rewrite Hc in Hn, Hpl. apply Forall_app in Hn as [_ [Hna _]%Forall_cons].
    apply Forall_app in Hpl as [_ [Hpa _]%Forall_cons].
    destruct (granted_for _ _ _ _ _ _ _ _ Hinv Hpa Hna Hl) as (? & ? & _). by exists before, us, after.
  - split_and!; try done. intros Hv. cbn [unavailable buildRuntimeAccountWaitPlan] in *.
    destruct (wait_plan_spec us (now i)) as [_ Hw]; [done|].
    change ([] ++ us) with us. destruct (waitUntil _); naive_solver.
Qed.


(** ** The in-memory stores meet the interfaces *)

Lemma plain_key_inj a b x y : plain a → plain b → a ++ [0%N] ++ x = b ++ [0%N] ++ y → a = b.
Proof.
  unfold plain. revert b. induction a as [|c a IH]; intros [|d b]; simpl; try set_solver.
  intros Ha Hb [= -> H]. f_equal. apply IH; set_solver.
Qed.

(** Well-formed stores whose leases are of NUL-free accounts. *)
Definition plain_store (s : Leases.store) : Prop :=
  wf s ∧ ∀ k l, map_get (records s) k = Some l → plain (accountId l).

#[export] Instance in_memory_lease_laws : AccountLeaseLaws Leases.store.
Proof.
  refine {| lease_inv := plain_store |}; cbn [lease_acquire in_memory_leases].
  - intros a d o ttl now s s' l [W P] Hp Ha E.
    destruct (granted_recorded _ _ _ _ _ _ _ _ W E) as (W' & _ & Ho).
    apply acquire_cases in E as (b & Hb & _ & _ & E). rewrite Ha in Hb. injection Hb as <-.
    destruct E as [(-> & Hg & _)|(-> & -> & _)]; (split_and!; [|done|split; [done|]]); simpl.
    + symmetry. pose proof (wf_filed _ W _ _ Hg) as Hk. by eapply plain_key_inj; [| |apply Hk]; eauto.
    + done.
    + done.
    + intros k l. rewrite map_get_set. case_decide; [by intros [= <-]|apply P].
  - intros a d o ttl now s s' u E. apply acquire_cases in E. by destruct E as (b & _ & _ & _ & -> & _).
  - intros a d o ttl now s Ha Ho Httl. unfold acquire. rewrite Ha, Ho, Httl. cbv zeta. simpl.
    repeat case_match; eauto.
Defined.

(** ** Concrete runs *)

Definition ex_acquire (owner : string) (t : Z) : M Leases.store LeaseError AcquireResult :=
  acquire (js "acct-1") None (js owner) (num_of_Z 100) (At t).

Definition ex_leased : Leases.store := (ex_acquire "w1" 1000 Leases.empty_store).1.

Definition ex_lease (owner : string) (n : N) (t : Z) : Lease :=
  mkLease (lease_id (js owner) n) n (js "acct-1") None (js owner) (At t) (At (t + 100)).

Lemma account_lease_fenced_witness :
  (fencingToken (ex_lease "w1" 1 1000) < fencingToken (ex_lease "w2" 2 2000))%N ∧
  release (leaseId (ex_lease "w1" 1 1000)) (js " w1") (run [] (ex_acquire "w2" 2000 ex_leased).1) =
    run [] (ex_acquire "w2" 2000 ex_leased).1.
Proof.
  destruct (account_lease_fenced [] (js "acct-1") None (js "w1") (num_of_Z 100) (At 1000) ex_leased
    (ex_lease "w1" 1 1000) [] (js "acct-1") None (js "w2") (num_of_Z 100) (At 2000)
    (ex_acquire "w2" 2000 ex_leased).1 (ex_lease "w2" 2 2000)) as [H1 H2].
  - by vm_compute.
  - by vm_compute.
  - done.
  - done.
  - split; [exact H1|]. refine (proj1 (H2 [] [] (js " w1") (num_of_Z 0) (At 0) _)). by vm_compute.
Defined.



(** Account 1 is leased by another worker, account 2 is free. *)
Definition ex_input : SelectInput CapacityStore.store :=
  mkInput [js "acct-1"; js " acct-2"] None None (js "w2") (num_of_Z 100)
    CapacityStore.empty_store (At 1050) None.

Lemma selection_spec_witness :
  ∃ before us after,
    [js "acct-1"; js "acct-2"] = before ++ js "acct-2" :: after ∧
    Forall2 (refused ex_input ex_leased) before us.
Proof.
  pose proof (selection_spec ex_input ex_leased) as H.
  assert (H0 : plain_store ex_leased).
  { split; [apply (wf_run [OAcquire (js "acct-1") None (js "w1") (num_of_Z 100) (At 1000)]), lease_wf_empty|].
    intros k l. vm_compute. repeat case_match; try done. intros [= <-]. set_solver. }
  specialize (H ltac:(by vm_compute) H0).
  assert (Hp : Forall plain (allowedAccounts ex_input)).
  { repeat constructor; unfold plain; vm_compute; set_solver. }
  specialize (H Hp). cbv zeta in H.
  assert (Hx : (execute ex_input ex_leased).2 = Ok (Selected (js "acct-2")
    (mkLease (lease_id (js "w2") 2) 2 (js "acct-2") None (js "w2") (At 1050) (At 1150)))) by by vm_compute.
  destruct (execute ex_input ex_leased) as [s' r]. cbn [snd] in Hx. subst r.
  destruct H as (before & us & after & H1 & H2 & _). exists before, us, after. split; [|exact H2].
  rewrite <- H1. by vm_compute.
Defined.
End Selection.
