(* ===== verification/WorkerPool.v ===== *)
(** * The bounded worker pool of worker-core

    [src/worker-core/worker-pool.ts], [worker-pool-capacity.ts] and
    [worker-pool-retry.ts]: the slots, the waiting queue, the capacity-driven
    drain timer, retries on another slot, idempotent runs, slot restarts,
    start, prewarm and dispose.

    A slot is an object that several closures share, so slots live in a [heap]
    and the array [slots] holds references into it; a [None] in the array is a
    hole, which assignment beyond its end leaves. The code between two awaits
    runs without interruption, so every asynchronous method is cut at its
    awaits: [runs] records where each job is, [procs] where each call of
    start, prewarm, restartSlot and dispose is, and an [event] makes one of
    them proceed. What the pool reads from outside (the clock, the workers'
    [capacity()], the registry of recovery preparations) is an [oracle] that
    answers each read afresh. Workers and their outcomes are events. *)

From stdpp Require Import base numbers list option sets strings pretty.
From S2P Require Import Prelude AccountCapacity.
Import Capacity.

#[local] Open Scope Z_scope.

Module Pool.

Inductive WorkerState : Set :=
| Created | Starting | Started | Prewarming | Ready | Draining | Disposed_ | Failed.

#[global] Instance WorkerState_eq_dec : EqDecision WorkerState.
Proof. solve_decision. Defined.

Inductive ErrorCode : Set :=
| not_started | already_started | disposed | start_failed | start_timeout | prewarm_failed
| shutdown_timeout | pool_draining | capacity_unavailable | queue_full | run_aborted | pool_empty
| selector_invalid | slot_busy | slot_not_found | slot_restart_failed | slot_failed
(** Errors of the worker, of its factory, the aggregate of failed disposals, and
    the reading of a property of [undefined]. *)
| worker_error | factory_error | dispose_failed | type_error.

#[global] Instance ErrorCode_eq_dec : EqDecision ErrorCode.
Proof. solve_decision. Defined.

(** Messages and causes are left out. *)
Record PoolError : Set := mkErr { code : ErrorCode; err_details : record_of_strings }.

Abbreviation plain_error c := (mkErr c []).

(** ** Retry policies: worker-pool-retry.ts *)

Record RetryOptions : Set := mkRetry {
  maxAttempts : option num; retryOnSlotCapacityUnavailable : option bool; capacityPollMs : option num }.

Record Policy : Set := mkPolicy { p_maxAttempts : num; p_retry : bool; p_pollMs : num }.

Definition runAbortedError : PoolError := plain_error run_aborted.

Definition isStartTimeoutError (e : PoolError) : bool := bool_decide (code e = start_timeout).

Definition normalizeIdempotencyKey (v : option jsstring) : option jsstring := optional_trimmed v.

Definition retryPolicy (opt pool : option RetryOptions) : Policy :=
  mkPolicy
    (num_max (num_of_Z 1)
       (default (num_of_Z 1) (coalesce (opt ≫= maxAttempts) (pool ≫= maxAttempts))))
    (default false (coalesce (opt ≫= retryOnSlotCapacityUnavailable)
                             (pool ≫= retryOnSlotCapacityUnavailable)))
    (num_max (num_of_Z 250)
       (default (num_of_Z 30000) (coalesce (opt ≫= capacityPollMs) (pool ≫= capacityPollMs)))).

(** ** Capacities: worker-pool-capacity.ts *)

Record SlotSnapshot : Set := mkSlotSnapshot {
  slotIndex : nat; sn_workerId : jsstring; sn_busy : bool; sn_capacity : Snapshot }.

Definition isResettableCapacity (c : Snapshot) : bool :=
  bool_decide (availability c = Cooldown) || bool_decide (availability c = QuotaExhausted).

Definition normalizeCapacity (c : Snapshot) (now : date) : Snapshot :=
  if negb (isResettableCapacity c) then c
  else match cooldownUntil c with
       | None => c
       | Some d => if date_ltb now d then c else reset_snapshot c
       end.

Definition isAuthBlockedCapacity (c : Snapshot) : bool :=
  has_reason (js "auth_invalid") c || has_reason (js "auth_missing") c ||
  has_reason (js "account_unavailable") c || has_reason (js "provider_session_invalid") c ||
  has_reason (js "reconnect_required") c ||
  bool_decide (detail (details c) "code" = Some (js "auth_invalid")) ||
  bool_decide (detail (details c) "code" = Some (js "provider_session_invalid")).

(** The string of an availability. *)
Definition availability_name (a : Availability) : jsstring :=
  js match a with
     | Available => "available" | Busy => "busy" | Warming => "warming" | Cooldown => "cooldown"
     | QuotaExhausted => "quota_exhausted" | Degraded => "degraded" | Disabled => "disabled"
     end.

Definition decimal (n : N) : jsstring := js (pretty n).

Section summaries.
(** [left.localeCompare(right) > 0], which depends on the host's locale data. *)
Context (locale_after : jsstring → jsstring → bool).

Fixpoint entry_insert (x : jsstring * N) (l : list (jsstring * N)) : list (jsstring * N) :=
  match l with
  | [] => [x]
  | y :: l' => if locale_after x.1 y.1 then y :: entry_insert x l' else x :: l
  end.

Definition summarize (keys : list jsstring) : jsstring :=
  let counts := foldl (λ m k, map_set m k (default 0 (map_get m k) + 1)%N) [] keys in
  js_join (js ",") (map (λ '(k, n), k ++ js ":" ++ decimal n) (foldr entry_insert [] counts)).

Definition summarizeAvailability (l : list SlotSnapshot) : jsstring :=
  summarize (map (λ s, availability_name (availability (sn_capacity s))) l).

Definition summarizeReasons (l : list SlotSnapshot) : jsstring :=
  summarize (omap (λ s, truthy_opt (coalesce (reason (sn_capacity s))
                                             (detail (details (sn_capacity s)) "code"))) l).

Definition recoveryHint : jsstring :=
  js "One or more worker account slots look auth-stale. Run account diagnostics, relogin the affected slot or sync the per-account auth root to this host, then retry the worker.".

Definition capacityRecoveryDetails (l : list SlotSnapshot) : record_of_strings :=
  one "reasons" (Some (summarizeReasons l)) ++
  (if existsb (λ s, isAuthBlockedCapacity (sn_capacity s)) l then [(js "recoveryHint", recoveryHint)] else []).

Definition has_reset (c : Snapshot) : bool :=
  isResettableCapacity c && match cooldownUntil c with Some _ => true | None => false end.

Definition capacityUnavailableError (l : list SlotSnapshot) (p : Policy) : option PoolError :=
  if existsb sn_busy l then None
  else if existsb (λ s, has_reset (sn_capacity s)) l then None
  else if p_retry p && existsb (λ s, isAuthBlockedCapacity (sn_capacity s)) l then None
  else
    let unavailable := List.filter (λ s, negb (bool_decide (availability (sn_capacity s) = Available))) l in
    match unavailable with
    | [] => None
    | _ => Some (mkErr capacity_unavailable
        ((js "availability", summarizeAvailability unavailable) :: capacityRecoveryDetails unavailable))
    end.
End summaries.

Definition nextCooldownDrainAt (l : list SlotSnapshot) : option num :=
  foldl (λ nextAt s,
    if negb (isResettableCapacity (sn_capacity s)) then nextAt
    else match cooldownUntil (sn_capacity s) with
         | None => nextAt
         | Some d => match nextAt with
                     | None => Some (getTime d)
                     | Some n => Some (num_min n (getTime d))
                     end
         end) None l.

(** A pending passage runs only when its object is registered by its issuer. *)
Definition runnableWorkerCapacity (registered : nat → bool) (c : Snapshot) : bool :=
  bool_decide (availability c = Available) ||
  (bool_decide (availability c = Cooldown) &&
   match recoveryPending c with Some r => registered (prep_object r) | None => false end).

(** ** State *)

(** A slot object: its index, its worker and whether it is in use. *)
Record Slot : Set := mkSlot { index : nat; worker : jsstring; busy : bool }.

(** One read of the world outside the pool. A worker that is not
    capacity-aware has no capacity. *)
Record view : Type := mkView {
  v_now : date; v_capacity : nat → option Snapshot; v_registered : nat → bool }.

Inductive PoolEvent : Set :=
| EvStarted | EvPrewarmed | EvDisposed | EvRestartStarted | EvRestartCompleted | EvSlotRetry.

Section Machine.
Context {Job Result : Type}.

Inductive outcome : Type := Resolved (x : Result) | Rejected (e : PoolError).

(** Where a job is: waiting; on a worker; its outcome counted but its slot
    still held; its slot released and its caller about to resume; over. *)
Inductive rpc : Type :=
| PNew                      (** made, not yet placed by the same call *)
| PQueued
| POnSlot (slot : nat) (attempt : Z)
| PCounted (slot : nat) (attempt : Z) (o : outcome)
| PResuming (slot : nat) (attempt : Z) (o : outcome)
| PDone.

Record RunOptions : Type := mkRunOptions {
  idempotencyKey : option jsstring; o_retry : option RetryOptions }.

(** [settled] is the flag of the promise that waits in the queue, [result]
    what the caller's promise settled to. *)
Record Run : Type := mkRun {
  job : Job; r_options : RunOptions; r_aborted : bool; r_viaQueue : bool;
  settled : bool; at_ : rpc; r_result : option outcome }.

(** Where an asynchronous method is. *)
Inductive proc : Type :=
| StartSlot (i : nat) (slot : nat)
| StartSlotDispose (e : PoolError)
| StartPrewarm
| StartDisposeAll (e : PoolError)
| PrewarmWait
| RestartWait (i : nat) (next : nat)
| RestartCleanup (i : nat)
| DisposePoll
| DisposeAll
| Finished (r : result PoolError unit).

Record options : Type := mkOptions {
  poolId : jsstring;
  slotCount : num;
  (** The snapshots it is given have the holes of the array. *)
  slotSelector : option (list (option SlotSnapshot) → Job → date → option nat);
  poolRetry : option RetryOptions;
  maxQueueSize : option num;
  prewarmOnStart : bool;
  (** The [workerId] of the worker the factory makes for an index. *)
  factoryId : nat → jsstring → jsstring;
  localeAfter : jsstring → jsstring → bool;
}.

Record counts : Set := mkCounts {
  completedCount : Z; failedCount : Z; restartedCount : Z; inFlightCount : Z }.

Record pool : Type := mkPool {
  heap : list Slot;
  slots : list (option nat);
  queue : list nat;
  poolState : WorkerState;
  cnt : counts;
  cooldownDrainAt : option num;
  cooldownDrainTimer : option num;
  idempotentRuns : list (jsstring * nat);
  runs : list Run;
  procs : list proc;
  emitted : list PoolEvent;
  tick : nat;
}.

Context (opts : options) (oracle : nat → view).
Abbreviation PM := (M pool PoolError).

Definition fresh_pool : pool :=
  mkPool [] [] [] Created (mkCounts 0 0 0 0) None None [] [] [] [] 0.

Definition new_pool : result PoolError pool :=
  if negb (truthy (js_trim (poolId opts))) then Throw (plain_error pool_empty)
  else if negb (is_integer (slotCount opts)) || num_leb (slotCount opts) (num_of_Z 0)
  then Throw (plain_error pool_empty)
  else Ok fresh_pool.

(** ** Field updates *)

Definition set_heap (f : list Slot → list Slot) (p : pool) : pool :=
  mkPool (f (heap p)) (slots p) (queue p) (poolState p) (cnt p) (cooldownDrainAt p)
    (cooldownDrainTimer p) (idempotentRuns p) (runs p) (procs p) (emitted p) (tick p).
Definition set_slots (f : list (option nat) → list (option nat)) (p : pool) : pool :=
  mkPool (heap p) (f (slots p)) (queue p) (poolState p) (cnt p) (cooldownDrainAt p)
    (cooldownDrainTimer p) (idempotentRuns p) (runs p) (procs p) (emitted p) (tick p).
Definition set_queue (f : list nat → list nat) (p : pool) : pool :=
  mkPool (heap p) (slots p) (f (queue p)) (poolState p) (cnt p) (cooldownDrainAt p)
    (cooldownDrainTimer p) (idempotentRuns p) (runs p) (procs p) (emitted p) (tick p).
Definition set_state (st : WorkerState) (p : pool) : pool :=
  mkPool (heap p) (slots p) (queue p) st (cnt p) (cooldownDrainAt p)
    (cooldownDrainTimer p) (idempotentRuns p) (runs p) (procs p) (emitted p) (tick p).
Definition set_cnt (f : counts → counts) (p : pool) : pool :=
  mkPool (heap p) (slots p) (queue p) (poolState p) (f (cnt p)) (cooldownDrainAt p)
    (cooldownDrainTimer p) (idempotentRuns p) (runs p) (procs p) (emitted p) (tick p).
Definition set_timer (at_ delay : option num) (p : pool) : pool :=
  mkPool (heap p) (slots p) (queue p) (poolState p) (cnt p) at_ delay
    (idempotentRuns p) (runs p) (procs p) (emitted p) (tick p).
Definition set_idempotent (f : list (jsstring * nat) → list (jsstring * nat)) (p : pool) : pool :=
  mkPool (heap p) (slots p) (queue p) (poolState p) (cnt p) (cooldownDrainAt p)
    (cooldownDrainTimer p) (f (idempotentRuns p)) (runs p) (procs p) (emitted p) (tick p).
Definition set_runs (f : list Run → list Run) (p : pool) : pool :=
  mkPool (heap p) (slots p) (queue p) (poolState p) (cnt p) (cooldownDrainAt p)
    (cooldownDrainTimer p) (idempotentRuns p) (f (runs p)) (procs p) (emitted p) (tick p).
Definition set_procs (f : list proc → list proc) (p : pool) : pool :=
  mkPool (heap p) (slots p) (queue p) (poolState p) (cnt p) (cooldownDrainAt p)
    (cooldownDrainTimer p) (idempotentRuns p) (runs p) (f (procs p)) (emitted p) (tick p).
Definition emit (e : PoolEvent) (p : pool) : pool :=
  mkPool (heap p) (slots p) (queue p) (poolState p) (cnt p) (cooldownDrainAt p)
    (cooldownDrainTimer p) (idempotentRuns p) (runs p) (procs p) (emitted p ++ [e]) (tick p).
Definition next_tick (p : pool) : pool :=
  mkPool (heap p) (slots p) (queue p) (poolState p) (cnt p) (cooldownDrainAt p)
    (cooldownDrainTimer p) (idempotentRuns p) (runs p) (procs p) (emitted p) (S (tick p)).

Definition add_completed (c : counts) := mkCounts (completedCount c + 1) (failedCount c) (restartedCount c) (inFlightCount c).
Definition add_failed (c : counts) := mkCounts (completedCount c) (failedCount c + 1) (restartedCount c) (inFlightCount c).
Definition add_restarted (c : counts) := mkCounts (completedCount c) (failedCount c) (restartedCount c + 1) (inFlightCount c).
Definition add_inFlight (n : Z) (c : counts) := mkCounts (completedCount c) (failedCount c) (restartedCount c) (inFlightCount c + n).

Definition set_busy (b : bool) (r : nat) : pool → pool :=
  set_heap (alter (λ s, mkSlot (index s) (worker s) b) r).

Definition goto (rid : nat) (k : rpc) : pool → pool :=
  set_runs (alter (λ r, mkRun (job r) (r_options r) (r_aborted r) (r_viaQueue r) (settled r) k (r_result r)) rid).

(** Settling a promise a second time has no effect. *)
Definition settle_run (o : outcome) (r : Run) : Run :=
  mkRun (job r) (r_options r) (r_aborted r) (r_viaQueue r) (settled r) (at_ r)
    (coalesce (r_result r) (Some o)).

Definition mark_settled (r : Run) : Run :=
  mkRun (job r) (r_options r) (r_aborted r) (r_viaQueue r) true (at_ r) (r_result r).

(** [resolveOnce] and [rejectOnce] of a waiting run. *)
Definition settle_once (o : outcome) (r : Run) : Run :=
  if settled r then r else settle_run o (mark_settled r).

(** The end of a run: through the queue the promise settles once. *)
Definition finish_run (o : outcome) (r : Run) : Run :=
  if r_viaQueue r then settle_once o r else settle_run o r.

Definition update_run (rid : nat) (f : Run → Run) : pool → pool := set_runs (alter f rid).

(** A run ends with an outcome. *)
Definition finish (rid : nat) (o : outcome) (p : pool) : pool :=
  update_run rid (finish_run o) (goto rid PDone p).

(** ** Slots *)

Definition read_view : PM view := λ p, (next_tick p, Ok (oracle (tick p))).

Definition busy_capacity : Snapshot := mkSnapshot None Busy None None None None None None.
Definition available_capacity : Snapshot := mkSnapshot None Available None None None None None None.

Definition slotCapacity (v : view) (ref : nat) (s : Slot) : Snapshot :=
  if busy s then busy_capacity
  else match v_capacity v ref with
       | None => available_capacity
       | Some c => normalizeCapacity c (v_now v)
       end.

Definition slot_snapshot (v : view) (p : pool) (o : option nat) : option SlotSnapshot :=
  r ← o; s ← heap p !! r; Some (mkSlotSnapshot (index s) (worker s) (busy s) (slotCapacity v r s)).

(** [this.slots.map(...)], which keeps the holes of the array, and what [filter],
    [some] and [reduce] see of it, which skip them. *)
Definition sparse_snapshots (v : view) (p : pool) : list (option SlotSnapshot) := map (slot_snapshot v p) (slots p).
Definition slotSnapshots (v : view) (p : pool) : list SlotSnapshot := omap id (sparse_snapshots v p).

(** [snapshots.find(...)], which does not skip them: the candidate is
    [undefined]. *)
Fixpoint find_snapshot (i : nat) (l : list (option SlotSnapshot)) : result PoolError (option SlotSnapshot) :=
  match l with
  | [] => Ok None
  | None :: _ => Throw (plain_error type_error)
  | Some s :: l => if (slotIndex s =? i)%nat then Ok (Some s) else find_snapshot i l
  end.

Definition runnable (v : view) (s : SlotSnapshot) : bool :=
  negb (sn_busy s) && runnableWorkerCapacity (v_registered v) (sn_capacity s).

(** [this.slots[i] ?? null]. *)
Definition slot_at (p : pool) (i : nat) : option nat := slots p !! i ≫= id.

Definition selectAvailableSlot (j : Job) : PM (option nat * list SlotSnapshot) :=
  v ← read_view;
  p ← get;
  let snapshots := slotSnapshots v p in
  match List.filter (runnable v) snapshots with
  | [] => mret (None, snapshots)
  | first :: _ =>
      let selected := coalesce (slotSelector opts ≫= λ f, f (sparse_snapshots v p) j (v_now v)) (Some (slotIndex first)) in
      match selected with
      | None => mret (None, snapshots)
      | Some i =>
          match find_snapshot i (sparse_snapshots v p) with
          | Throw e => throw e
          | Ok (Some s) => if runnable v s then mret (slot_at p (slotIndex s), snapshots)
                      else throw (mkErr selector_invalid
                             [(js "slotIndex", decimal (N.of_nat i)); (js "workerId", sn_workerId s)])
          | Ok None => throw (mkErr selector_invalid [(js "slotIndex", decimal (N.of_nat i))])
          end
      end
  end.

(** Stable identity shared with owner lifetime path planning. *)
Definition workerPoolSlotId (i : nat) : jsstring :=
  poolId opts ++ js ":slot-" ++ decimal (N.of_nat (i + 1)).

(** [createSlot] when the factory returns: the new object's reference. *)
Definition createSlot (i : nat) : PM nat := λ p,
  (set_heap (λ h, h ++ [mkSlot i (factoryId opts i (workerPoolSlotId i)) false]) p, Ok (length (heap p))).

(** ** The drain timer *)

Definition clearCooldownDrainTimer : pool → pool := set_timer None None.

(** The next time worth draining: the earliest reset, or the next poll of
    slots that wait for a login, whichever comes first. *)
Definition next_drain_at (l : list SlotSnapshot) (pol : Policy) (now : num) : option num :=
  let nextCooldownAt := nextCooldownDrainAt l in
  let shouldPoll := p_retry pol && existsb (λ s, isAuthBlockedCapacity (sn_capacity s)) l in
  let nextPollAt := if shouldPoll then Some (num_add now (num_max (num_of_Z 250) (p_pollMs pol))) else None in
  match nextCooldownAt, nextPollAt with
  | None, _ => nextPollAt
  | Some c, None => Some c
  | Some c, Some q => Some (num_min c q)
  end.

Definition scheduleCapacityDrain (l : list SlotSnapshot) (pol : Policy) : PM unit :=
  v ← read_view;
  p ← get;
  let now := getTime (v_now v) in
  match next_drain_at l pol now with
  | None => mret tt
  | Some d =>
      if match cooldownDrainAt p with Some c => num_leb c d | None => false end then mret tt
      else modify (set_timer (Some d)
             (Some (num_max (num_of_Z 0) (num_add d (num_mul (num_of_Z (-1)) now)))))
  end.

(** ** Running *)

Definition run_policy (r : Run) : Policy := retryPolicy (o_retry (r_options r)) (poolRetry opts).

(** The synchronous part of [runOnSlot]. *)
Definition runOnSlot (ref rid : nat) (attempt : Z) : PM unit :=
  p ← get;
  match runs p !! rid with
  | None => mret tt
  | Some r =>
      if r_aborted r then modify (goto rid (PResuming ref attempt (Rejected runAbortedError)))
      else modify (λ p, goto rid (POnSlot ref attempt) (set_cnt (add_inFlight 1) (set_busy true ref p)))
  end.

(** [next.reject] of a waiting run. *)
Definition reject_waiting (e : PoolError) (rid : nat) (p : pool) : pool :=
  update_run rid (settle_once (Rejected e)) (goto rid PDone p).

Definition rejectQueued (e : PoolError) (p : pool) : pool :=
  foldl (λ p rid, reject_waiting e rid p) (set_queue (λ _, []) p) (queue p).

(** The loop of [drainQueue]: each turn takes the head of the queue or stops. *)
Fixpoint drain_loop (fuel : nat) : PM unit :=
  match fuel with
  | O => mret tt
  | S fuel =>
      p ← get;
      match queue p with
      | [] => mret tt
      | rid :: rest =>
          match runs p !! rid with
          | None => mret tt
          | Some r =>
              '(slot, snapshots) ← selectAvailableSlot (job r);
              match slot with
              | None =>
                  scheduleCapacityDrain snapshots (run_policy r) ;;
                  match capacityUnavailableError (localeAfter opts) snapshots (run_policy r) with
                  | Some e => modify (rejectQueued e)
                  | None => mret tt
                  end
              | Some ref =>
                  modify (set_queue (λ _, rest)) ;;
                  (if r_aborted r then modify (reject_waiting runAbortedError rid)
                   else runOnSlot ref rid 1) ;;
                  drain_loop fuel
              end
          end
      end
  end.

Definition drainQueue : PM unit :=
  p ← get;
  match poolState p with
  | Draining | Disposed_ => mret tt
  | _ => drain_loop (length (queue p))
  end.

Definition assertRunnable : PM unit :=
  p ← get;
  match poolState p with
  | Disposed_ => throw (plain_error disposed)
  | _ => match slots p with [] => throw (plain_error not_started) | _ => mret tt end
  end.

Inductive run_reply : Type :=
| Accepted (rid : nat)      (** a promise of this run *)
| Joined (rid : nat)        (** the promise of an earlier run of the same key *)
| RejectedNow (e : PoolError).

Definition add_run (r : Run) : PM nat := λ p, (set_runs (λ l, l ++ [r]) p, Ok (length (runs p))).

(** [drainQueue] inside a promise executor: a throw rejects the promise. *)
Definition drain_in_executor (rid : nat) : PM unit := λ p,
  match drainQueue p with
  | (p', Ok _) => (p', Ok tt)
  | (p', Throw e) => (update_run rid (settle_run (Rejected e)) p', Ok tt)
  end.

Definition startRun (j : Job) (o : RunOptions) : PM run_reply :=
  let policy := retryPolicy (o_retry o) (poolRetry opts) in
  '(slot, snapshots) ← selectAvailableSlot j;
  match slot with
  | Some ref =>
      rid ← add_run (mkRun j o false false false PNew None);
      runOnSlot ref rid 1 ;;
      mret (Accepted rid)
  | None =>
      scheduleCapacityDrain snapshots policy ;;
      match capacityUnavailableError (localeAfter opts) snapshots policy with
      | Some e => mret (RejectedNow e)
      | None =>
          p ← get;
          if num_leb (default (num_of_Z 1024) (maxQueueSize opts)) (num_of_Z (Z.of_nat (length (queue p))))
          then mret (RejectedNow (plain_error queue_full))
          else
            rid ← add_run (mkRun j o false true false PQueued None);
            modify (set_queue (λ q, q ++ [rid])) ;;
            drain_in_executor rid ;;
            mret (Accepted rid)
      end
  end.

(** [run], called with a signal that is already aborted or not. *)
Definition run (j : Job) (o : RunOptions) (aborted : bool) : PM run_reply :=
  assertRunnable ;;
  p ← get;
  if aborted then mret (RejectedNow runAbortedError)
  else if bool_decide (poolState p = Draining) then mret (RejectedNow (plain_error pool_draining))
  else
    let key := normalizeIdempotencyKey (idempotencyKey o) in
    match key ≫= map_get (idempotentRuns p) with
    | Some rid => mret (Joined rid)
    | None =>
        reply ← startRun j o;
        match key, reply with
        | Some k, Accepted rid => modify (set_idempotent (λ m, map_set m k rid)) ;; mret reply
        | _, _ => mret reply
        end
    end.

(** The [cleanup] reaction to the settlement of an idempotent run. *)
Definition cleanup (rid : nat) (p : pool) : pool :=
  match runs p !! rid with
  | Some r =>
      match r_result r, normalizeIdempotencyKey (idempotencyKey (r_options r)) with
      | Some _, Some k => if bool_decide (map_get (idempotentRuns p) k = Some rid)
                          then set_idempotent (λ m, map_delete m k) p else p
      | _, _ => p
      end
  | None => p
  end.

(** The abort signal of a run fires. *)
Definition set_aborted (r : Run) : Run :=
  mkRun (job r) (r_options r) true (r_viaQueue r) (settled r) (at_ r) (r_result r).

Definition abort (rid : nat) (p : pool) : pool :=
  match runs p !! rid with
  | None => p
  | Some r =>
      let p1 := update_run rid set_aborted p in
      if r_viaQueue r && negb (settled r) then
        let p2 := set_queue (List.filter (λ x, negb (Nat.eqb x rid))) p1 in
        let p3 := match at_ r with PQueued => goto rid PDone p2 | _ => p2 end in
        update_run rid (settle_once (Rejected runAbortedError)) p3
      else p1
  end.

(** The worker's promise settles: [then] and [catch] of [runOnSlot]. *)
Definition worker_settled (rid : nat) (o : Result + unit) (p : pool) : pool :=
  match runs p !! rid with
  | Some (mkRun _ _ _ _ _ (POnSlot ref attempt) _) =>
      match o with
      | inl x => goto rid (PCounted ref attempt (Resolved x)) (set_cnt add_completed p)
      | inr _ =>
          let details := match heap p !! ref with
            | Some s => [(js "workerId", worker s); (js "slotIndex", decimal (N.of_nat (index s)))]
            | None => [] end in
          goto rid (PCounted ref attempt (Rejected (mkErr slot_failed details))) (set_cnt add_failed p)
      end
  | _ => p
  end.

(** The [finally] of [runOnSlot]; an error of its [drainQueue] replaces the
    outcome. *)
Definition run_finally (rid : nat) (p : pool) : pool :=
  match runs p !! rid with
  | Some (mkRun _ _ _ _ _ (PCounted ref attempt o) _) =>
      let p1 := goto rid (PResuming ref attempt o) (set_cnt (add_inFlight (-1)) (set_busy false ref p)) in
      match drainQueue p1 with
      | (p2, Ok _) => p2
      | (p2, Throw e) => goto rid (PResuming ref attempt (Rejected e)) p2
      end
  | _ => p
  end.

Definition shouldRetryOnAnotherSlot (ref : nat) (r : Run) (attempt : Z) : PM bool :=
  let pol := run_policy r in
  if negb (p_retry pol) then mret false
  else if num_leb (p_maxAttempts pol) (num_of_Z attempt) then mret false
  else if r_aborted r then mret false
  else
    v ← read_view;
    p ← get;
    mret match heap p !! ref with
         | Some s => negb (bool_decide (availability (slotCapacity v ref s) = Available))
         | None => false
         end.

(** The retry itself; a throw of the selection rejects the run. *)
Definition retry_elsewhere (rid : nat) (attempt : Z) (r : Run) (e : PoolError) : PM unit := λ p,
  match selectAvailableSlot (job r) p with
  | (p1, Throw e') => (finish rid (Rejected e') p1, Ok tt)
  | (p1, Ok (None, snapshots)) =>
      (scheduleCapacityDrain snapshots (run_policy r) ;; modify (finish rid (Rejected e))) p1
  | (p1, Ok (Some ref', _)) =>
      (modify (emit EvSlotRetry) ;; runOnSlot ref' rid (attempt + 1)) p1
  end.

(** The [catch] of [runOnSlotWithRetry]. *)
Definition retry_or_fail (rid ref : nat) (attempt : Z) (r : Run) (e : PoolError) : PM unit :=
  again ← shouldRetryOnAnotherSlot ref r attempt;
  if negb again then modify (finish rid (Rejected e)) else retry_elsewhere rid attempt r e.

(** [runOnSlotWithRetry] resumes after [runOnSlot]. *)
Definition run_resume (rid : nat) (p : pool) : pool :=
  match runs p !! rid with
  | Some r =>
      match at_ r with
      | PResuming ref attempt (Resolved x) => finish rid (Resolved x) p
      | PResuming ref attempt (Rejected e) => (retry_or_fail rid ref attempt r e p).1
      | _ => p
      end
  | None => p
  end.

(** The timer fires; an error of its [drainQueue] is uncaught. *)
Definition timer_fires (p : pool) : pool :=
  match cooldownDrainTimer p with
  | None => p
  | Some _ => (drainQueue (set_timer None None p)).1
  end.

(** ** Asynchronous methods *)

(** How the awaited operation of a method ended; a timeout is the error of
    [withStartTimeout]. *)
Inductive ending : Set := EndOk | EndError | EndTimeout.

Definition set_proc (i : nat) (k : proc) : pool → pool := set_procs (alter (λ _, k) i).
Definition add_proc (k : proc) : pool → pool := set_procs (λ l, l ++ [k]).

Definition slot_total : nat := Z.to_nat (num_floor (slotCount opts)).

(** The outer [catch] of [start]: after a timeout the disposal of the started
    slots is not awaited. *)
Definition start_catch (i : nat) (e : PoolError) (p : pool) : pool :=
  let p1 := set_slots (λ _, []) (set_state Failed p) in
  if isStartTimeoutError e then set_proc i (Finished (Throw e)) p1
  else set_proc i (StartDisposeAll e) p1.

(** After the loop of [start]. *)
Definition start_started (i : nat) (p : pool) : pool :=
  let p1 := set_state Started p in
  if prewarmOnStart opts then set_proc i StartPrewarm (set_state Prewarming p1)
  else set_proc i (Finished (Ok tt)) (emit EvStarted p1).

(** The loop of [start] from slot [k]; [ok] tells whether the factory returns. *)
Definition start_from (i k : nat) (ok : bool) (p : pool) : pool :=
  if (k <? slot_total)%nat then
    if ok then
      match createSlot k p with
      | (p1, Ok ref) => set_proc i (StartSlot k ref) p1
      | (p1, Throw e) => start_catch i e p1
      end
    else start_catch i (plain_error factory_error) p
  else start_started i p.

Definition start (ok : bool) : PM unit :=
  p ← get;
  match poolState p with
  | Disposed_ => throw (plain_error disposed)
  | Created | Failed =>
      modify (λ p, start_from (length (procs p)) 0 ok (add_proc (Finished (Ok tt)) (set_state Starting p)))
  | _ => throw (plain_error already_started)
  end.

Definition prewarm : PM unit :=
  assertRunnable ;; modify (λ p, add_proc PrewarmWait (set_state Prewarming p)).

(** [restartSlot] up to its first await. When the factory throws, the call
    rejects with the slot marked busy. *)
Definition restartSlot (i : nat) (ok : bool) : PM unit :=
  assertRunnable ;;
  p ← get;
  match slot_at p i with
  | None => throw (mkErr slot_not_found [(js "slotIndex", decimal (N.of_nat i))])
  | Some ref =>
      match heap p !! ref with
      | None => throw (mkErr slot_not_found [(js "slotIndex", decimal (N.of_nat i))])
      | Some s =>
          if busy s then throw (mkErr slot_busy [(js "slotIndex", decimal (N.of_nat i))])
          else
            modify (emit EvRestartStarted) ;;
            modify (set_busy true ref) ;;
            (if ok then mret tt else throw (plain_error factory_error)) ;;
            next ← createSlot i;
            modify (add_proc (RestartWait i next))
      end
  end.

(** [this.slots[i] = x], which extends the array with holes. *)
Definition slots_assign (i : nat) (x : nat) (l : list (option nat)) : list (option nat) :=
  if (i <? length l)%nat then <[i := Some x]> l
  else l ++ replicate (i - length l) None ++ [Some x].

(** The rest of [dispose] once the poll loop ended, up to its await. *)
Definition dispose_slots (p : pool) : pool :=
  set_slots (λ _, [])
    (rejectQueued (plain_error (if 0 <? inFlightCount (cnt p) then shutdown_timeout else pool_draining)) p).

(** [dispose] up to its first await; [expired] when the deadline is not after
    the time of the call. *)
Definition dispose (expired : bool) (p : pool) : pool :=
  if bool_decide (poolState p = Disposed_) then p
  else
    let p1 := clearCooldownDrainTimer (set_state Draining p) in
    if (0 <? inFlightCount (cnt p1)) && negb expired then add_proc DisposePoll p1
    else add_proc DisposeAll (dispose_slots p1).

(** Run [drainQueue] at the end of a method; its error rejects the call. *)
Definition drain_and_finish (i : nat) (r : result PoolError unit) (p : pool) : pool :=
  match drainQueue p with
  | (p', Ok _) => set_proc i (Finished r) p'
  | (p', Throw e) => set_proc i (Finished (Throw e)) p'
  end.

(** A method proceeds when the operation it awaits ends; [ok] tells whether
    the factory returns if it is called. *)
Definition proc_step (i : nat) (w : ending) (ok : bool) (p : pool) : pool :=
  match procs p !! i with
  | None => p
  | Some k =>
    match k, w with
    | StartSlot n ref, EndOk => start_from i (n + 1) ok (set_slots (λ l, l ++ [Some ref]) p)
    | StartSlot n ref, EndTimeout => start_catch i (plain_error start_timeout) p
    | StartSlot n ref, EndError => set_proc i (StartSlotDispose (plain_error worker_error)) p
    | StartSlotDispose e, _ => start_catch i e p
    | StartPrewarm, EndOk =>
        set_proc i (Finished (Ok tt)) (emit EvStarted (emit EvPrewarmed (set_state Ready p)))
    | StartPrewarm, EndTimeout => start_catch i (plain_error start_timeout) p
    | StartPrewarm, EndError => start_catch i (plain_error worker_error) p
    | StartDisposeAll e, EndOk => set_proc i (Finished (Throw (plain_error start_failed))) p
    | StartDisposeAll e, _ => set_proc i (Finished (Throw (plain_error dispose_failed))) p
    | PrewarmWait, EndOk => set_proc i (Finished (Ok tt)) (emit EvPrewarmed (set_state Ready p))
    | PrewarmWait, _ => set_proc i (Finished (Throw (plain_error prewarm_failed))) (set_state Failed p)
    | RestartWait n next, EndOk =>
        drain_and_finish i (Ok tt)
          (emit EvRestartCompleted (set_cnt add_restarted (set_slots (slots_assign n next) p)))
    | RestartWait n next, _ =>
        set_proc i (RestartCleanup n) (set_state Failed (set_slots (delete n) p))
    | RestartCleanup n, _ =>
        let e := mkErr slot_restart_failed [(js "slotIndex", decimal (N.of_nat n));
                   (js "workerId", factoryId opts n (workerPoolSlotId n))] in
        match slots p with
        | [] => set_proc i (Finished (Throw e)) (rejectQueued e p)
        | _ => drain_and_finish i (Throw e) p
        end
    | DisposePoll, EndOk =>
        (* the poll wakes up before the deadline *)
        if 0 <? inFlightCount (cnt p) then p else set_proc i DisposeAll (dispose_slots p)
    | DisposePoll, _ =>
        (* the poll wakes up at the deadline *)
        set_proc i DisposeAll (dispose_slots p)
    | DisposeAll, EndOk => set_proc i (Finished (Ok tt)) (emit EvDisposed (set_state Disposed_ p))
    | DisposeAll, _ => set_proc i (Finished (Throw (plain_error dispose_failed))) p
    | Finished r, _ => p
    end
  end.

(** ** Histories *)

Inductive event : Type :=
| EStart (ok : bool)
| EPrewarm
| ERun (j : Job) (o : RunOptions) (aborted : bool)
| EAbort (rid : nat)
| EWorker (rid : nat) (o : Result + unit)
| EFinally (rid : nat)
| EResume (rid : nat)
| ECleanup (rid : nat)
| ETimer
| ERestart (i : nat) (ok : bool)
| EDispose (expired : bool)
| EProc (i : nat) (w : ending) (ok : bool).

Definition step (e : event) (p : pool) : pool :=
  match e with
  | EStart ok => (start ok p).1
  | EPrewarm => (prewarm p).1
  | ERun j o a => (run j o a p).1
  | EAbort rid => abort rid p
  | EWorker rid o => worker_settled rid o p
  | EFinally rid => run_finally rid p
  | EResume rid => run_resume rid p
  | ECleanup rid => cleanup rid p
  | ETimer => timer_fires p
  | ERestart i ok => (restartSlot i ok p).1
  | EDispose expired => dispose expired p
  | EProc i w ok => proc_step i w ok p
  end.

Definition steps (es : list event) (p : pool) : pool := foldl (λ p e, step e p) p es.

(** ** Reports *)

Inductive HealthStatus : Set := Healthy | DegradedHealth | Unhealthy.

#[global] Instance HealthStatus_eq_dec : EqDecision HealthStatus.
Proof. solve_decision. Defined.

(** A worker's answer to [health()]; a worker that throws is unhealthy. *)
Definition safeHealth (h : option HealthStatus) : HealthStatus := default Unhealthy h.

Definition health (answers : list (option HealthStatus)) (p : pool) : HealthStatus :=
  let slotHealth := map safeHealth answers in
  if existsb (λ h, bool_decide (h = Unhealthy)) slotHealth then Unhealthy
  else if existsb (λ h, bool_decide (h = DegradedHealth)) slotHealth ||
          bool_decide (poolState p = Failed) then DegradedHealth
  else Healthy.

Definition stats (p : pool) : WorkerState * nat * nat * counts :=
  (poolState p, length (slots p), length (queue p), cnt p).



(** ** The invariant of every history

    The pool's counter of work in flight is the number of runs that hold a
    slot; the queue lists the waiting runs, each once; a run that is over has
    an outcome; and no run is beyond its allowed attempts. *)

Definition holds (r : Run) : option nat :=
  match at_ r with
  | POnSlot ref _ | PCounted ref _ _ => Some ref
  | _ => None
  end.

Definition waiting (r : Run) : bool := match at_ r with PQueued => true | _ => false end.

Definition attempt_of (r : Run) : option Z :=
  match at_ r with
  | POnSlot _ n | PCounted _ n _ | PResuming _ n _ => Some n
  | _ => None
  end.

(** The n-th attempt is the first, or one that the policy still allows after
    n - 1. *)
Definition attempt_allowed (r : Run) (n : Z) : Prop :=
  n = 1 ∨ (1 < n ∧ num_leb (p_maxAttempts (run_policy r)) (num_of_Z (n - 1)) = false).

Record run_ok (r : Run) : Prop := {
  ok_done : at_ r = PDone → r_result r ≠ None;
  ok_settled : settled r = true → r_result r ≠ None;
  ok_attempt : ∀ n, attempt_of r = Some n → attempt_allowed r n;
}.

Definition held1 (r : Run) : Z := match holds r with Some _ => 1 | None => 0 end.

Fixpoint held (l : list Run) : Z :=
  match l with [] => 0 | r :: l => held1 r + held l end.

Record inv (p : pool) : Prop := {
  inv_inFlight : inFlightCount (cnt p) = held (runs p);
  inv_nodup : NoDup (queue p);
  inv_queue : ∀ rid, rid ∈ queue p ↔ ∃ r, runs p !! rid = Some r ∧ waiting r = true;
  inv_runs : ∀ rid r, runs p !! rid = Some r → run_ok r;
}.

(** What the invariant looks at. *)
Definition same_core (p p' : pool) : Prop :=
  runs p' = runs p ∧ queue p' = queue p ∧ inFlightCount (cnt p') = inFlightCount (cnt p).

Lemma inv_same p p' : same_core p p' → inv p → inv p'.
Proof. intros (H1 & H2 & H3) [I1 I2 I3 I4]. split; rewrite ?H1, ?H2, ?H3; auto. Qed.

Lemma held_alter f rid l r :
  l !! rid = Some r → held (alter f rid l) = held l - held1 r + held1 (f r).
Proof.
  revert rid. induction l as [|x l IH]; intros [|rid] H; try done.
  - injection H as ->. cbn. lia.
  - cbn in H |- *. rewrite (IH rid H). lia.
Qed.

Lemma held_app l r : held (l ++ [r]) = held l + held1 r.
Proof. induction l as [|x l IH]; simpl; [lia|]. rewrite IH. lia. Qed.

(** Replacing one run, with the queue and the counter following it. *)
Lemma inv_update rid f r q n p p' :
  inv p → runs p !! rid = Some r → runs p' = alter f rid (runs p) →
  queue p' = q → inFlightCount (cnt p') = inFlightCount (cnt p) + n →
  n = held1 (f r) - held1 r → run_ok (f r) →
  NoDup q → (∀ x, x ≠ rid → x ∈ q ↔ x ∈ queue p) → (rid ∈ q ↔ waiting (f r) = true) →
  inv p'.
Proof.
  intros [I1 I2 I3 I4] Hr Hruns Hq Hn -> Hok Hnd Hother Hself. split.
  - rewrite Hruns, Hn, I1, (held_alter f rid _ r Hr). lia.
  - by rewrite Hq.
  - intros x. rewrite Hq, Hruns. destruct (decide (x = rid)) as [->|Hne].
    + rewrite Hself, list_lookup_alter_eq, Hr. simpl. naive_solver.
    + rewrite (Hother x Hne), I3, list_lookup_alter_ne by done. done.
  - intros x rx. rewrite Hruns. destruct (decide (x = rid)) as [->|Hne].
    + rewrite list_lookup_alter_eq, Hr. by intros [= <-].
    + rewrite list_lookup_alter_ne by done. apply I4.
Qed.

(** A run that is not waiting moves, the queue is as before. *)
Lemma inv_move rid f r n p p' :
  inv p → runs p !! rid = Some r → waiting r = false →
  runs p' = alter f rid (runs p) → queue p' = queue p →
  inFlightCount (cnt p') = inFlightCount (cnt p) + n →
  n = held1 (f r) - held1 r → run_ok (f r) → waiting (f r) = false → inv p'.
Proof.
  intros I Hr Hw H1 H2 H3 H4 H5 H6. eapply (inv_update rid f r); eauto using inv_nodup.
  rewrite (inv_queue _ I). split; [intros (r' & Hr' & Hw'); congruence|congruence].
Qed.

(** A waiting run leaves the queue. *)
Lemma inv_take rid rest f r n p p' :
  inv p → queue p = rid :: rest → runs p !! rid = Some r →
  runs p' = alter f rid (runs p) → queue p' = rest →
  inFlightCount (cnt p') = inFlightCount (cnt p) + n →
  n = held1 (f r) - held1 r → run_ok (f r) → waiting (f r) = false → inv p'.
Proof.
  intros I Hq Hr H1 H2 H3 H4 H5 H6. pose proof (inv_nodup _ I) as Hnd. rewrite Hq in Hnd.
  apply NoDup_cons in Hnd as [Hx Hnd]. eapply (inv_update rid f r); eauto.
  - intros x Hne. rewrite Hq. set_solver.
  - rewrite H6. done.
Qed.

Lemma waiting_held r : waiting r = true → held1 r = 0.
Proof. unfold waiting, held1, holds. by destruct (at_ r). Qed.

Definition move_to (k : rpc) (r : Run) : Run :=
  mkRun (job r) (r_options r) (r_aborted r) (r_viaQueue r) (settled r) k (r_result r).

(** Moving a run that has not ended. *)
Lemma run_ok_move k r :
  run_ok r → k ≠ PDone → (∀ n, attempt_of (move_to k r) = Some n → attempt_allowed r n) →
  run_ok (move_to k r).
Proof. intros [O1 O2 O3] Hk Ha. split; simpl; auto. Qed.

Lemma finish_ok o r : run_ok r → run_ok (finish_run o (move_to PDone r)).
Proof.
  intros [O1 O2 O3]. unfold finish_run, settle_once. simpl.
  destruct (r_viaQueue r); [destruct (settled r) eqn:Es|]; split; simpl; rewrite ?Es; try done;
    try (intros _; by destruct (r_result r)); auto.
Qed.

Lemma reject_ok e r : run_ok r → run_ok (settle_once (Rejected e) (move_to PDone r)).
Proof.
  intros [O1 O2 O3]. unfold settle_once. simpl.
  destruct (settled r) eqn:Es; split; simpl; rewrite ?Es; try done;
    try (intros _; by destruct (r_result r)); auto.
Qed.

(** Updates of one run compose. *)
Lemma alter_alter (f g : Run → Run) rid (l : list Run) :
  alter f rid (alter g rid l) = alter (λ r, f (g r)) rid l.
Proof.
  revert rid. induction l as [|x l IH]; intros [|rid]; try done.
  change (x :: alter f rid (alter g rid l) = x :: alter (λ r, f (g r)) rid l). by rewrite IH.
Qed.

Lemma alter_absent (f : Run → Run) rid (l : list Run) : l !! rid = None → alter f rid l = l.
Proof.
  revert rid. induction l as [|x l IH]; intros [|rid] H; try done.
  change (x :: alter f rid l = x :: l). by rewrite IH.
Qed.

Lemma finish_runs rid o p :
  runs (finish rid o p) = alter (λ r, finish_run o (move_to PDone r)) rid (runs p).
Proof. unfold finish, update_run, goto. simpl. by rewrite alter_alter. Qed.

Lemma reject_waiting_runs rid e p :
  runs (reject_waiting e rid p) = alter (λ r, settle_once (Rejected e) (move_to PDone r)) rid (runs p).
Proof. unfold reject_waiting, update_run, goto. simpl. by rewrite alter_alter. Qed.

Lemma held1_settle o r : held1 (settle_once o r) = held1 r.
Proof. unfold settle_once, held1, holds. by destruct (settled r). Qed.

Lemma waiting_settle o r : waiting (settle_once o r) = waiting r.
Proof. unfold settle_once, waiting. by destruct (settled r). Qed.

Lemma held1_finish o r : held1 (finish_run o r) = held1 r.
Proof. unfold finish_run. destruct (r_viaQueue r); [apply held1_settle|done]. Qed.

Lemma waiting_finish o r : waiting (finish_run o r) = waiting r.
Proof. unfold finish_run. destruct (r_viaQueue r); [apply waiting_settle|done]. Qed.

(** A run that holds no slot and is not waiting ends. *)
Lemma inv_finish rid o r p :
  inv p → runs p !! rid = Some r → waiting r = false → held1 r = 0 → inv (finish rid o p).
Proof.
  intros I Hr Hw Hh. apply (inv_move rid (λ r, finish_run o (move_to PDone r)) r 0 p);
    [done|done|done|apply finish_runs|done|simpl; lia|..]; cbv beta.
  - rewrite held1_finish, Hh. done.
  - by apply finish_ok, (inv_runs _ I rid).
  - by rewrite waiting_finish.
Qed.

(** Rejecting the whole queue. *)
Lemma rejectQueued_spec e l p :
  let p' := foldl (λ p rid, reject_waiting e rid p) p l in
  queue p' = queue p ∧ cnt p' = cnt p ∧ heap p' = heap p ∧ slots p' = slots p ∧
  procs p' = procs p ∧ poolState p' = poolState p ∧
  (∀ x, runs p' !! x = (if decide (x ∈ l) then λ r, settle_once (Rejected e) (move_to PDone r) else id) <$>
     runs p !! x) ∨ ¬ NoDup l.
Proof.
  revert p. induction l as [|a l IH]; intros p; simpl.
  - left. split_and!; try done. intros x. by destruct (runs p !! x).
  - destruct (decide (a ∈ l)) as [Ha|Ha]; [right; by intros [? _]%NoDup_cons|].
    destruct (IH (reject_waiting e a p)) as [(H1 & H2 & H3 & H4 & H5 & H6 & H7)|H];
      [left|right; by intros [_ ?]%NoDup_cons].
    split_and!; try done. intros x. rewrite H7, reject_waiting_runs.
    destruct (decide (x = a)) as [->|Hne].
    + rewrite list_lookup_alter_eq, decide_False, decide_True by set_solver.
      by destruct (runs p !! a).
    + rewrite list_lookup_alter_ne by done. by repeat case_decide; try set_solver.
Qed.

Lemma held_pointwise l l' :
  length l = length l' → (∀ x r r', l !! x = Some r → l' !! x = Some r' → held1 r = held1 r') →
  held l = held l'.
Proof.
  revert l'. induction l as [|a l IH]; intros [|b l'] Hl H; try done. simpl.
  rewrite (H 0%nat a b eq_refl eq_refl), (IH l'); [done|by injection Hl|].
  intros x r r' H1 H2. by apply (H (S x)).
Qed.

Lemma inv_rejectQueued e p : inv p → inv (rejectQueued e p) ∧ queue (rejectQueued e p) = [].
Proof.
  intros I. unfold rejectQueued.
  destruct (rejectQueued_spec e (queue p) (set_queue (λ _, []) p))
    as [(H1 & H2 & _ & _ & _ & _ & H7)|H]; [|by destruct H; apply I].
  set (p' := foldl _ _ _) in *. clearbody p'. simpl in *.
  assert (Hwait : ∀ x r, runs p !! x = Some r → x ∈ queue p → waiting r = true).
  { intros x r Hr Hx. apply (inv_queue _ I) in Hx as (r' & Hr' & ?). congruence. }
  split; [|done]. split.
  - rewrite H2, (inv_inFlight _ I). simpl. apply held_pointwise.
    + apply Nat.le_antisymm; apply Nat.nlt_ge; intros Hlt.
      * destruct (lookup_lt_is_Some_2 _ _ Hlt) as [r Hr]. pose proof (H7 (length (runs p'))) as Hx.
        rewrite Hr, lookup_ge_None_2 in Hx by done. done.
      * destruct (lookup_lt_is_Some_2 _ _ Hlt) as [r Hr]. pose proof (H7 (length (runs p))) as Hx.
        rewrite Hr, (lookup_ge_None_2 (runs p)) in Hx by done. done.
    + intros x r r' Hr Hr'. rewrite H7, Hr in Hr'. case_decide as Hx; injection Hr' as <-; [|done].
      rewrite held1_settle, (waiting_held r) by eauto. done.
  - rewrite H1. constructor.
  - intros x. rewrite H1. split; [intros []%elem_of_nil|]. intros (r & Hr & Hw). rewrite H7 in Hr.
    apply fmap_Some in Hr as (r0 & Hr0 & ->). case_decide as Hx; [by rewrite waiting_settle in Hw|].
    exfalso. apply Hx. apply (inv_queue _ I). eauto.
  - intros x r Hr. rewrite H7 in Hr. apply fmap_Some in Hr as (r0 & Hr0 & ->).
    pose proof (inv_runs _ I _ _ Hr0). case_decide; [by apply reject_ok|done].
Qed.

(** ** Every event keeps the invariant *)

(** A drain time is recorded exactly while a timer is armed. *)
Definition timer_ok (p : pool) : Prop := is_Some (cooldownDrainAt p) ↔ is_Some (cooldownDrainTimer p).

(** Reads leave everything but the read counter and the timer as it is. *)
Definition same_but_tick (p p' : pool) : Prop :=
  heap p' = heap p ∧ slots p' = slots p ∧ queue p' = queue p ∧ poolState p' = poolState p ∧
  cnt p' = cnt p ∧ runs p' = runs p ∧ procs p' = procs p ∧ idempotentRuns p' = idempotentRuns p ∧
  (timer_ok p → timer_ok p').

Lemma select_same j p :
  same_but_tick p (selectAvailableSlot j p).1.
Proof.
  unfold selectAvailableSlot. unfold_M. cbv zeta.
  destruct (List.filter _ _) as [|first others]; [done|].
  destruct (coalesce _ _); [|done]. destruct (find_snapshot _ _) as [[s|]|]; [destruct (runnable _ s)|..]; done.
Qed.

Lemma schedule_same l pol p :
  same_but_tick p (scheduleCapacityDrain l pol p).1 ∧ ∃ u, (scheduleCapacityDrain l pol p).2 = Ok u.
Proof.
  unfold scheduleCapacityDrain. unfold_M. cbv zeta.
  repeat (case_match; simpl; try (split; [done|by exists tt])).
Qed.

Lemma same_but_tick_core p p' : same_but_tick p p' → same_core p p'.
Proof. intros (_ & _ & Hq & _ & Hc & Hr & _). unfold same_core. by rewrite Hq, Hc, Hr. Qed.

Lemma inv_schedule l pol p : inv p → inv (scheduleCapacityDrain l pol p).1.
Proof. apply inv_same, same_but_tick_core, schedule_same. Qed.

Lemma inv_select j p : inv p → inv (selectAvailableSlot j p).1.
Proof. apply inv_same, same_but_tick_core, select_same. Qed.

Lemma find_snapshot_Some v p i sn : find_snapshot i (sparse_snapshots v p) = Ok (Some sn) →
  slotIndex sn = i ∧ ∃ r s, Some r ∈ slots p ∧ heap p !! r = Some s ∧ sn = mkSlotSnapshot (index s) (worker s) (busy s) (slotCapacity v r s).
Proof.
  unfold sparse_snapshots. induction (slots p) as [|o l IH]; simpl; [done|].
  destruct o as [r|]; simpl; [|done]. destruct (heap p !! r) as [s|] eqn:Hh; simpl; [|done].
  destruct (Nat.eqb_spec (index s) i) as [Hi|_].
  - intros [= <-]. split; [done|]. exists r, s. split; [left|done].
  - intros (? & r' & s' & Hin & ?)%IH. split; [done|]. exists r', s'. split; [by right|done].
Qed.

(** The slot a selection returns: the array entry at the index of a slot that
    was seen idle. *)
Definition chosen (p : pool) (ref : nat) : Prop :=
  ∃ k r s, slots p !! k = Some (Some r) ∧ heap p !! r = Some s ∧ busy s = false ∧
    slot_at p (index s) = Some ref.

Lemma select_chosen j p ref l :
  (selectAvailableSlot j p).2 = Ok (Some ref, l) → chosen p ref.
Proof.
  unfold selectAvailableSlot. unfold_M. cbv zeta.
  destruct (List.filter _ _) as [|first others]; [done|].
  destruct (coalesce _ _) as [i|]; [|done]. destruct (find_snapshot _ _) as [[sn|]|] eqn:Ef; [|done..].
  apply find_snapshot_Some in Ef as (Hi & r & s & Ho & Hh & ->). simpl in *.
  destruct (runnable _ _) eqn:Er; [|done]. intros [= Hs _].
  apply list_elem_of_lookup in Ho as [k Hk]. exists k, r, s. split_and!; try done.
  unfold runnable in Er. simpl in Er. by destruct (busy s).
Qed.

(** A rule for [drainQueue]: an invariant that survives reads, rejecting the
    queue, and handing the head of the queue to a selected slot. *)
Section drain_rule.
Context (I : pool → Prop).
Hypothesis I_same : ∀ p p', same_but_tick p p' → I p → I p'.
Hypothesis I_reject : ∀ p e, I p → I (rejectQueued e p).
Hypothesis I_drop : ∀ p rid rest r, I p → queue p = rid :: rest → runs p !! rid = Some r →
  I (reject_waiting runAbortedError rid (set_queue (λ _, rest) p)).
Hypothesis I_take : ∀ p rid rest r ref, I p → queue p = rid :: rest → runs p !! rid = Some r →
  r_aborted r = false → chosen p ref →
  I (goto rid (POnSlot ref 1) (set_cnt (add_inFlight 1) (set_busy true ref (set_queue (λ _, rest) p)))).

Lemma keeps_drain_loop n : keeps I (drain_loop n).
Proof.
  induction n as [|n IH]; [apply keeps_ret|]. simpl. apply triple_get. intros p Hp.
  destruct (queue p) as [|rid rest] eqn:Eq; [apply triple_ret; by intros s ->|].
  destruct (runs p !! rid) as [r|] eqn:Er; [|apply triple_ret; by intros s ->].
  apply triple_state. unfold mbind, M_bind.
  pose proof (select_same (job r) p) as Hs. pose proof (select_chosen (job r) p) as Hc.
  destruct (selectAvailableSlot (job r) p) as [p1 [[[ref|] l]|e]]; simpl in Hs, Hc; [| |eauto].
  - specialize (Hc ref l eq_refl).
    assert (I p1) as Hp1 by eauto. destruct Hs as (S1 & S2 & S3 & S4 & S5 & S6 & S7 & S8 & _).
    rewrite <- S3 in Eq. rewrite <- S6 in Er.
    assert (chosen p1 ref) as Hc1. { unfold chosen, slot_at in *. by rewrite S1, S2. }
    unfold modify at 1. cbv beta iota. destruct (r_aborted r) eqn:Ea.
    + unfold modify. cbv beta iota. by apply IH, (I_drop p1 rid rest r).
    + unfold runOnSlot. unfold mbind, M_bind, get. simpl. rewrite Er, Ea. unfold modify. cbv beta iota.
      by apply IH, (I_take p1 rid rest r).
  - pose proof (schedule_same l (run_policy r) p1) as [Hs2 [u Hu]].
    destruct (scheduleCapacityDrain l (run_policy r) p1) as [p2 rr]. simpl in Hs2, Hu. subst rr.
    assert (I p2) by eauto. destruct (capacityUnavailableError _ _ _); simpl; auto.
Qed.

Lemma keeps_drain : keeps I drainQueue.
Proof.
  apply triple_get. intros p Hp. apply triple_state.
  pose proof (keeps_drain_loop (length (queue p)) p Hp) as H.
  by destruct (poolState p).
Qed.
End drain_rule.

Lemma attempt_first r ref : ∀ n, attempt_of (move_to (POnSlot ref 1) r) = Some n → attempt_allowed r n.
Proof. intros n [= <-]. by left. Qed.

Lemma head_waiting p rid rest r :
  inv p → queue p = rid :: rest → runs p !! rid = Some r → waiting r = true.
Proof.
  intros I Hq Hr. assert (rid ∈ queue p) as Hx by (rewrite Hq; left).
  apply (inv_queue _ I) in Hx as (r' & ? & ?). congruence.
Qed.

Lemma inv_drop p rid rest r :
  inv p → queue p = rid :: rest → runs p !! rid = Some r →
  inv (reject_waiting runAbortedError rid (set_queue (λ _, rest) p)).
Proof.
  intros I Hq Hr. pose proof (head_waiting _ _ _ _ I Hq Hr) as Hw.
  eapply (inv_take rid rest (λ r, settle_once (Rejected runAbortedError) (move_to PDone r)) r 0 p);
    [done|done|done|by rewrite reject_waiting_runs|done|simpl; lia|..]; cbv beta.
  - rewrite held1_settle, (waiting_held r Hw). done.
  - by apply reject_ok, (inv_runs _ I rid).
  - by rewrite waiting_settle.
Qed.

Lemma inv_hand p rid rest r ref :
  inv p → queue p = rid :: rest → runs p !! rid = Some r →
  inv (goto rid (POnSlot ref 1) (set_cnt (add_inFlight 1) (set_busy true ref (set_queue (λ _, rest) p)))).
Proof.
  intros I Hq Hr. pose proof (head_waiting _ _ _ _ I Hq Hr) as Hw.
  eapply (inv_take rid rest (move_to (POnSlot ref 1)) r 1 p); try done.
  - rewrite (waiting_held r Hw). done.
  - apply run_ok_move; [by apply (inv_runs _ I rid)|done|apply attempt_first].
Qed.

Lemma keeps_inv_drain : keeps inv drainQueue.
Proof.
  apply keeps_drain; eauto using inv_drop, inv_hand.
  - intros p p' Hs. by apply inv_same, same_but_tick_core.
  - intros p e I. by apply inv_rejectQueued.
Qed.

(** Draining leaves the runs that are not waiting where they are. *)
Lemma drain_keeps_run rid k p :
  inv p → k ≠ PQueued → (∃ r, runs p !! rid = Some r ∧ at_ r = k) →
  ∃ r, runs (drainQueue p).1 !! rid = Some r ∧ at_ r = k.
Proof.
  intros I Hk Hr. set (Q := λ p, inv p ∧ ∃ r, runs p !! rid = Some r ∧ at_ r = k).
  assert (keeps Q drainQueue) as H; [|by apply (keeps_elim Q)]. clear I Hr p.
  assert (Hq : ∀ p, Q p → rid ∉ queue p).
  { intros p [I (r & Hr & Ha)] Hx. apply (inv_queue _ I) in Hx as (r' & Hr' & Hw).
    rewrite Hr in Hr'. injection Hr' as <-. unfold waiting in Hw. by rewrite Ha in Hw; destruct k. }
  assert (Hne : ∀ p x rest f, Q p → queue p = x :: rest →
    ∃ r, alter f x (runs p) !! rid = Some r ∧ at_ r = k).
  { intros p x rest f HQ Hx. pose proof (Hq p HQ) as Hn. rewrite Hx in Hn. apply not_elem_of_cons in Hn as [Hn _].
    destruct HQ as [_ (r & Hr & Ha)]. exists r. by rewrite list_lookup_alter_ne. }
  apply keeps_drain.
  - intros p p' Hs [I He]. split; [by eapply inv_same, I; apply same_but_tick_core|].
    destruct Hs as (_ & _ & _ & _ & _ & -> & _). done.
  - intros p e HQ. split; [by apply inv_rejectQueued, HQ|]. unfold rejectQueued.
    destruct (rejectQueued_spec e (queue p) (set_queue (λ _, []) p))
      as [(_ & _ & _ & _ & _ & _ & H7)|H]; [|by destruct H; apply HQ].
    rewrite H7. simpl. rewrite decide_False by auto. destruct HQ as [_ (r & -> & Ha)]. by exists r.
  - intros p x rest r HQ Hx Hr. split; [eapply inv_drop; [apply HQ|done..]|].
    rewrite reject_waiting_runs. exact (Hne p x rest _ HQ Hx).
  - intros p x rest r ref HQ Hx Hr _ _. split; [eapply inv_hand; [apply HQ|done..]|]. exact (Hne p x rest _ HQ Hx).
Qed.

(** Starting a run that holds nothing on a slot. *)
Lemma inv_runOnSlot ref rid n r p :
  inv p → runs p !! rid = Some r → waiting r = false → held1 r = 0 → attempt_allowed r n →
  inv (runOnSlot ref rid n p).1.
Proof.
  intros I Hr Hw Hh Ha. unfold runOnSlot, mbind, M_bind, get. rewrite Hr.
  destruct (r_aborted r); simpl.
  - apply (inv_move rid (move_to (PResuming ref n (Rejected runAbortedError))) r 0 p); try done.
    + simpl; lia.
    + rewrite Hh. done.
    + apply run_ok_move; [by apply (inv_runs _ I rid)|done|]. by intros m [= <-].
  - apply (inv_move rid (move_to (POnSlot ref n)) r 1 p); try done.
    + rewrite Hh. done.
    + apply run_ok_move; [by apply (inv_runs _ I rid)|done|]. by intros m [= <-].
Qed.

(** Adding a run, waiting at the end of the queue or not. *)
Lemma inv_add r q p p' :
  inv p → runs p' = runs p ++ [r] → inFlightCount (cnt p') = inFlightCount (cnt p) →
  held1 r = 0 → run_ok r → queue p' = q →
  q = (if waiting r then queue p ++ [length (runs p)] else queue p) → inv p'.
Proof.
  intros [I1 I2 I3 I4] Hr Hc Hh Hok Hq ->.
  assert (Hlt : ∀ x, x ∈ queue p → (x < length (runs p))%nat).
  { intros x Hx%I3. destruct Hx as (r' & Hr' & _). by eapply lookup_lt_Some. }
  split.
  - rewrite Hr, Hc, I1, held_app. lia.
  - rewrite Hq. destruct (waiting r); [|done]. apply NoDup_app. split_and!; [done| |apply NoDup_singleton].
    intros x Hx ->%list_elem_of_singleton. apply Hlt in Hx. lia.
  - intros x. rewrite Hr, Hq. destruct (decide (x = length (runs p))) as [->|Hne].
    + rewrite list_lookup_middle by done. split.
      * intros Hx. exists r. split; [done|]. destruct (waiting r); [done|]. apply Hlt in Hx. lia.
      * intros (r' & [= <-] & ->). set_solver.
    + assert (Hlook : (runs p ++ [r]) !! x = runs p !! x).
      { destruct (decide (x < length (runs p))%nat); [by rewrite lookup_app_l|].
        rewrite !lookup_ge_None_2; [done|lia|rewrite length_app; simpl; lia]. }
      rewrite Hlook, <- I3. destruct (waiting r); set_solver.
  - intros x rx Hx. rewrite Hr in Hx. apply lookup_app_Some in Hx as [Hx|[Hx1 Hx2]]; [eauto|].
    destruct (x - length (runs p))%nat; simpl in Hx2; [by injection Hx2 as <-|done].
Qed.

Lemma inv_settle_run rid o p : inv p → inv (update_run rid (settle_run o) p).
Proof.
  intros I. destruct (runs p !! rid) as [r|] eqn:Hr.
  - eapply (inv_update rid (settle_run o) r (queue p) 0 p); try done; try (apply I); [simpl; lia| | |].
    + unfold held1, holds. simpl. destruct (at_ r); lia.
    + destruct (inv_runs _ I _ _ Hr) as [O1 O2 O3]. split; simpl; [|by destruct (r_result r)|done].
      intros _. by destruct (r_result r).
    + change (waiting (settle_run o r)) with (waiting r). rewrite (inv_queue _ I).
      split; [|intros; by exists r]. intros (r' & Hr' & ?). congruence.
  - eapply inv_same, I. split_and!; try done. simpl. by apply alter_absent.
Qed.

Lemma keeps_add_new j o : triple inv (add_run (mkRun j o false false false PNew None))
  (λ rid p, inv p ∧ ∃ r, runs p !! rid = Some r ∧ waiting r = false ∧ held1 r = 0) (λ _ _, False).
Proof.
  intros p I. simpl. split.
  - eapply (inv_add (mkRun j o false false false PNew None)); try done.
  - eexists. split; [by apply list_lookup_middle|done].
Qed.

Lemma inv_startRun j o p : inv p → inv (startRun j o p).1.
Proof.
  revert p. assert (keeps inv (startRun j o)) as H; [|intros p; by apply keeps_elim].
  unfold startRun. apply keeps_bind; [intros p I; pose proof (inv_select j p I); by destruct (selectAvailableSlot j p) as [? []]|].
  intros [[ref|] l].
  - eapply triple_bind; [eapply triple_weaken; [apply keeps_add_new|done|done|done]|].
    intros rid. cbv beta. intros p (I & r & Hr & Hw & Hh). unfold mbind, M_bind.
    pose proof (inv_runOnSlot ref rid 1 r p I Hr Hw Hh ltac:(by left)) as H.
    by destruct (runOnSlot ref rid 1 p) as [p' []].
  - apply keeps_bind; [intros p I; pose proof (inv_schedule l (retryPolicy (o_retry o) (poolRetry opts)) p I);
      by destruct (scheduleCapacityDrain l _ p) as [? []]|].
    intros _. destruct (capacityUnavailableError _ _ _); [apply keeps_ret|].
    apply triple_get. intros p I. destruct (num_leb _ _); [apply triple_ret; by intros s ->|].
    apply triple_state. unfold mbind, M_bind, add_run, modify. simpl.
    set (r := mkRun j o false true false PQueued None).
    assert (I2 : inv (set_queue (λ q, q ++ [length (runs p)]) (set_runs (λ l, l ++ [r]) p))).
    { apply (inv_add r (queue p ++ [length (runs p)]) p); try done. }
    pose proof (keeps_inv_drain _ I2) as H. unfold drain_in_executor.
    destruct (drainQueue _) as [p' [u|e]]; simpl; [done|by apply inv_settle_run].
Qed.

Lemma assertRunnable_cases p :
  (assertRunnable p = (p, Ok tt) ∧ poolState p ≠ Disposed_ ∧ slots p ≠ []) ∨
  ∃ e, assertRunnable p = (p, Throw e).
Proof.
  unfold assertRunnable, mbind, M_bind, get.
  destruct (poolState p) eqn:E1, (slots p) eqn:E2; try (right; by eexists);
    left; split_and!; try done.
Qed.

Lemma assertRunnable_ok p :
  poolState p ≠ Disposed_ → slots p ≠ [] → assertRunnable p = (p, Ok tt).
Proof.
  intros H1 H2. unfold assertRunnable, mbind, M_bind, get. by destruct (poolState p), (slots p).
Qed.

(** [assertRunnable] followed by the body of a method. *)
Lemma assertRunnable_bind {A} (m : PM A) p :
  (assertRunnable ;; m) p = m p ∧ poolState p ≠ Disposed_ ∧ slots p ≠ [] ∨
  ∃ e, (assertRunnable ;; m) p = (p, Throw e).
Proof.
  unfold mbind, M_bind. destruct (assertRunnable_cases p) as [(-> & ?)|[e ->]]; [by left|right; by eexists].
Qed.

Lemma inv_run j o a p : inv p → inv (run j o a p).1.
Proof.
  intros I. unfold run.
  match goal with |- context [(assertRunnable ;; ?m) p] =>
    destruct (assertRunnable_bind m p) as [[-> _]|[e ->]]; [|done] end.
  unfold mbind at 1, M_bind at 1, get. destruct a; [done|].
  destruct (bool_decide _); [done|]. destruct (_ ≫= _) as [rid|]; [done|].
  pose proof (inv_startRun j o p I) as H. unfold mbind, M_bind.
  destruct (startRun j o p) as [p2 [reply|e]]; simpl in *; [|done].
  destruct (normalizeIdempotencyKey _), reply; simpl; try done.
  by eapply inv_same, H.
Qed.

Lemma inv_abort rid p : inv p → inv (abort rid p).
Proof.
  intros I. unfold abort. destruct (runs p !! rid) as [r|] eqn:Hr; [|done]. cbv zeta.
  pose proof (inv_runs _ I _ _ Hr) as Hok.
  destruct (r_viaQueue r && negb (settled r)) eqn:Ev; bools.
  - set (g := λ r, settle_once (Rejected runAbortedError)
      (match at_ r with PQueued => move_to PDone (set_aborted r) | _ => set_aborted r end)).
    eapply (inv_update rid g r (List.filter (λ x, negb (Nat.eqb x rid)) (queue p)) 0 p); try done.
    + destruct (at_ r) eqn:Ea; unfold update_run, goto; simpl; rewrite !alter_alter;
        apply list_alter_ext; try done; intros x Hx; rewrite Hr in Hx; injection Hx as <-;
        subst g; simpl; by rewrite Ea.
    + by destruct (at_ r).
    + destruct (at_ r); simpl; lia.
    + subst g. cbv beta. rewrite held1_settle. destruct (at_ r) eqn:Ea; unfold held1, holds; simpl; rewrite ?Ea; lia.
    + subst g. destruct Hok as [O1 O2 O3]. unfold settle_once.
      destruct (at_ r) eqn:Ea; simpl; rewrite H0; split; simpl; rewrite ?Ea; try done;
        try (intros _; by destruct (r_result r)).
      all: intros n Hn; apply O3; by unfold attempt_of in *; rewrite Ea.
    + apply NoDup_ListNoDup, List.NoDup_filter, NoDup_ListNoDup, I.
    + intros x Hne. rewrite !list_elem_of_In, List.filter_In. split; [tauto|]. intros Hx. split; [done|].
      by apply negb_true_iff, Nat.eqb_neq.
    + subst g. cbv beta. rewrite waiting_settle. split.
      * rewrite list_elem_of_In, List.filter_In, Nat.eqb_refl. by intros [_ ?].
      * unfold waiting. destruct (at_ r) eqn:Ea; simpl; rewrite ?Ea; done.
  - eapply (inv_update rid set_aborted r (queue p) 0 p); try done; try (apply I); [simpl; lia| | |].
    + unfold held1, holds. simpl. destruct (at_ r); lia.
    + by destruct Hok.
    + change (waiting (set_aborted r)) with (waiting r). rewrite (inv_queue _ I).
      split; [|intros; by exists r]. intros (r' & Hr' & ?). congruence.
Qed.

(** Moving a run between two places that are not the queue or the end. *)
Lemma inv_goto rid k r n p p' :
  inv p → runs p !! rid = Some r → waiting r = false → runs p' = alter (move_to k) rid (runs p) →
  queue p' = queue p → inFlightCount (cnt p') = inFlightCount (cnt p) + n →
  n = held1 (move_to k r) - held1 r → k ≠ PDone → waiting (move_to k r) = false →
  (∀ m, attempt_of (move_to k r) = Some m → attempt_of r = Some m) → inv p'.
Proof.
  intros I Hr Hw H1 H2 H3 H4 H5 H6 H7. eapply (inv_move rid (move_to k) r n); eauto.
  pose proof (inv_runs _ I _ _ Hr) as Hok. apply run_ok_move; [done|done|].
  intros m Hm. by apply Hok, H7.
Qed.

Lemma inv_worker_settled rid o p : inv p → inv (worker_settled rid o p).
Proof.
  intros I. unfold worker_settled. destruct (runs p !! rid) as [r|] eqn:Hr; [|done].
  destruct r as [j ro ab vq st [ | |ref n| | |] res] eqn:Er; try done. rewrite <- Er in Hr. destruct o as [x|].
  - eapply (inv_goto rid (PCounted ref n (Resolved x)) r 0 p); subst r; try done. simpl. lia.
  - eapply (inv_goto rid (PCounted ref n (Rejected _)) r 0 p); subst r; try done. simpl. lia.
Qed.

Lemma inv_run_finally rid p : inv p → inv (run_finally rid p).
Proof.
  intros I. unfold run_finally. destruct (runs p !! rid) as [r|] eqn:Hr; [|done].
  destruct r as [j ro ab vq st [ | | |ref n o| |] res] eqn:Er; try done. rewrite <- Er in Hr. cbv zeta.
  set (p1 := goto rid _ _).
  assert (I1 : inv p1).
  { eapply (inv_goto rid (PResuming ref n o) r (-1) p); subst r; try done. }
  pose proof (keeps_inv_drain p1 I1) as H.
  destruct (drain_keeps_run rid (PResuming ref n o) p1 I1) as (r' & Hr' & Ha); [done| |].
  { exists (move_to (PResuming ref n o) r). split; [|done]. subst p1. simpl.
    by rewrite list_lookup_alter_eq, Hr. }
  destruct (drainQueue p1) as [p2 [u|e]]; [done|]. simpl in Hr'.
  destruct (inv_runs _ H _ _ Hr') as [O1 O2 O3].
  eapply (inv_goto rid (PResuming ref n (Rejected e)) r' 0 p2); try done.
  - unfold waiting. by rewrite Ha.
  - simpl. lia.
  - unfold held1, holds. simpl. by rewrite Ha.
  - unfold attempt_of. by rewrite Ha.
Qed.

Lemma inv_retry_elsewhere rid n r e p :
  inv p → runs p !! rid = Some r → waiting r = false → held1 r = 0 → attempt_allowed r (n + 1) →
  inv (retry_elsewhere rid n r e p).1.
Proof.
  intros I Hr Hw Hh Ha. unfold retry_elsewhere.
  pose proof (inv_select (job r) p I) as I1. pose proof (select_same (job r) p) as (_ & _ & _ & _ & _ & S6 & _).
  destruct (selectAvailableSlot (job r) p) as [p1 [[[ref|] l]|e']]; simpl in I1, S6; rewrite <- S6 in Hr.
  - unfold mbind, M_bind, modify. cbv beta iota. apply (inv_runOnSlot ref rid (n + 1) r); try done. by eapply inv_same, I1.
  - pose proof (inv_schedule l (run_policy r) p1 I1) as I2.
    pose proof (schedule_same l (run_policy r) p1) as [(_ & _ & _ & _ & _ & S7 & _) [u Hu]].
    unfold mbind, M_bind. destruct (scheduleCapacityDrain _ _ p1) as [p2 rr]. simpl in *. subst rr.
    unfold modify. simpl. rewrite <- S7 in Hr. by eapply inv_finish.
  - simpl. by eapply inv_finish.
Qed.

Lemma should_retry_spec ref r n p :
  ∃ b p1, shouldRetryOnAnotherSlot ref r n p = (p1, Ok b) ∧ same_but_tick p p1 ∧
    (b = true → num_leb (p_maxAttempts (run_policy r)) (num_of_Z n) = false).
Proof.
  unfold shouldRetryOnAnotherSlot. destruct (negb _); [by exists false, p|].
  destruct (num_leb _ _) eqn:En; [by exists false, p|]. destruct (r_aborted r); [by exists false, p|].
  unfold_M. eexists _, _. split; [done|]. split; done.
Qed.

Lemma retry_allowed p rid r ref n o :
  inv p → runs p !! rid = Some r → at_ r = PResuming ref n o →
  num_leb (p_maxAttempts (run_policy r)) (num_of_Z n) = false → attempt_allowed r (n + 1).
Proof.
  intros I Hr Ha Hn. right. pose proof (ok_attempt _ (inv_runs _ I _ _ Hr) n) as Hok.
  unfold attempt_of in Hok. rewrite Ha in Hok. specialize (Hok eq_refl).
  replace (n + 1 - 1) with n by lia. split; [destruct Hok as [->|[? _]]; lia|done].
Qed.

Lemma inv_run_resume rid p : inv p → inv (run_resume rid p).
Proof.
  intros I. unfold run_resume. destruct (runs p !! rid) as [r|] eqn:Hr; [|done].
  destruct (at_ r) as [ | | | |ref n [x|e]|] eqn:Ea; try done.
  - eapply inv_finish; [done|done| |]; unfold waiting, held1, holds; by rewrite Ea.
  - assert (Hw : waiting r = false) by (unfold waiting; by rewrite Ea).
    assert (Hh : held1 r = 0) by (unfold held1, holds; by rewrite Ea).
    unfold retry_or_fail. unfold mbind, M_bind.
    destruct (should_retry_spec ref r n p) as (b & p1 & -> & Hs & Hb).
    assert (I1 : inv p1) by (by eapply inv_same, I; apply same_but_tick_core).
    destruct Hs as (_ & _ & _ & _ & _ & S6 & _). rewrite <- S6 in Hr.
    destruct b; simpl; [|by eapply inv_finish].
    apply inv_retry_elsewhere; try done. eapply retry_allowed; eauto.
Qed.

Lemma inv_cleanup rid p : inv p → inv (cleanup rid p).
Proof. intros I. unfold cleanup. repeat case_match; try done. by eapply inv_same, I. Qed.

Lemma inv_timer p : inv p → inv (timer_fires p).
Proof.
  intros I. unfold timer_fires. destruct (cooldownDrainTimer p); [|done].
  apply keeps_elim; [apply keeps_inv_drain|]. by eapply inv_same, I.
Qed.

(** The methods that only touch slots, states and counters of their own. *)
Ltac same_core_tac := eapply inv_same; [|eassumption]; by split_and!.

Lemma inv_start_from i k ok p : inv p → inv (start_from i k ok p).
Proof.
  intros I. unfold start_from, start_catch, start_started, createSlot.
  repeat (case_match; simpl; try same_core_tac).
Qed.

Lemma inv_start_catch i e p : inv p → inv (start_catch i e p).
Proof. intros I. unfold start_catch. case_match; same_core_tac. Qed.

Lemma inv_start ok p : inv p → inv (start ok p).1.
Proof.
  intros I. unfold start, mbind, M_bind, get. destruct (poolState p); simpl; try done.
  all: apply inv_start_from; same_core_tac.
Qed.

Lemma inv_prewarm p : inv p → inv (prewarm p).1.
Proof.
  intros I. unfold prewarm.
  match goal with |- context [(assertRunnable ;; ?m) p] =>
    destruct (assertRunnable_bind m p) as [[-> _]|[e ->]]; [|done] end.
  simpl. same_core_tac.
Qed.

Lemma inv_restartSlot i ok p : inv p → inv (restartSlot i ok p).1.
Proof.
  intros I. unfold restartSlot.
  match goal with |- context [(assertRunnable ;; ?m) p] =>
    destruct (assertRunnable_bind m p) as [[-> _]|[e ->]]; [|done] end.
  unfold_M. unfold createSlot. destruct (slot_at p i) as [ref|]; [|done].
  destruct (heap p !! ref) as [s|]; [|done]. destruct (busy s); [done|].
  destruct ok; simpl; same_core_tac.
Qed.

Lemma inv_dispose_slots p : inv p → inv (dispose_slots p).
Proof.
  intros I. unfold dispose_slots. set (e := plain_error _).
  eapply inv_same; [|apply (inv_rejectQueued e p I)]. by split_and!.
Qed.

Lemma inv_dispose x p : inv p → inv (dispose x p).
Proof.
  intros I. unfold dispose. case_bool_decide; [done|]. cbv zeta.
  assert (I1 : inv (clearCooldownDrainTimer (set_state Draining p))) by same_core_tac.
  destruct (_ && _); [same_core_tac|]. pose proof (inv_dispose_slots _ I1). same_core_tac.
Qed.

Lemma inv_drain_and_finish i r p : inv p → inv (drain_and_finish i r p).
Proof.
  intros I. unfold drain_and_finish. pose proof (keeps_inv_drain p I) as H.
  destruct (drainQueue p) as [p' [u|e]]; same_core_tac.
Qed.

Lemma inv_proc_step i w ok p : inv p → inv (proc_step i w ok p).
Proof.
  intros I. unfold proc_step. destruct (procs p !! i) as [k|]; [|done].
  destruct k as [n ref|e| |e| |n next|n| | |r], w; try done; try same_core_tac;
    try (by apply inv_start_catch); try (apply inv_start_from; same_core_tac);
    try (apply inv_drain_and_finish; same_core_tac).
  all: try (destruct (slots p); [pose proof (proj1 (inv_rejectQueued (mkErr slot_restart_failed
    [(js "slotIndex", decimal (N.of_nat n)); (js "workerId", factoryId opts n (workerPoolSlotId n))]) p I)); same_core_tac
    |by apply inv_drain_and_finish]).
  all: pose proof (inv_dispose_slots p I); try case_match; done || same_core_tac.
Qed.

Lemma inv_step e p : inv p → inv (step e p).
Proof.
  intros I. destruct e; simpl; auto using inv_start, inv_prewarm, inv_run, inv_abort,
    inv_worker_settled, inv_run_finally, inv_run_resume, inv_cleanup, inv_timer, inv_restartSlot,
    inv_dispose, inv_proc_step.
Qed.

Lemma inv_steps es p : inv p → inv (steps es p).
Proof. revert p. induction es as [|e es IH]; intros p I; simpl; auto using inv_step. Qed.

Lemma inv_fresh : inv fresh_pool.
Proof.
  split; simpl; [done|constructor| |done].
  intros rid. split; [intros []%elem_of_nil|by intros (r & ? & _)].
Qed.

(** accounting of the pool, in every history of calls, aborts, worker
    outcomes, restarts, timers and disposals. [inFlightCount] is the number of
    runs that hold a slot; the queue holds exactly the waiting runs, each
    once; a run that is over has settled its caller's promise, so no job is
    lost; and a run is never on an attempt its retry policy forbids. *)
Theorem pool_accounting es :
  let p := steps es fresh_pool in
  inFlightCount (cnt p) = held (runs p) ∧ NoDup (queue p) ∧
  (∀ rid, rid ∈ queue p ↔ ∃ r, runs p !! rid = Some r ∧ at_ r = PQueued) ∧
  ∀ rid r, runs p !! rid = Some r →
    (at_ r = PDone → r_result r ≠ None) ∧
    (∀ n, attempt_of r = Some n →
       n = 1 ∨ (1 < n ∧ num_leb (p_maxAttempts (run_policy r)) (num_of_Z (n - 1)) = false)).
Proof.
  intros p. destruct (inv_steps es _ inv_fresh) as [I1 I2 I3 I4]. fold p in I1, I2, I3, I4.
  split_and!; try done.
  - intros rid. rewrite I3. unfold waiting.
    split; intros (r & Hr & Hw); exists r; (split; [done|]); [by destruct (at_ r)|by rewrite Hw].
  - intros rid r Hr. destruct (I4 rid r Hr) as [O1 _ O3]. by split.
Qed.

(** ** One run per slot

    While the array of slots stays in step with the indices of its slots, a
    slot serves one run at a time. *)

Definition starting (k : proc) : bool :=
  match k with StartSlot _ _ | StartSlotDispose _ | StartPrewarm => true | _ => false end.

(** No start and no restart of a slot is pending in it. *)
Definition unhurried (k : proc) : Prop := starting k = false ∧ ∀ n x, k ≠ RestartWait n x.

Definition has_index (h : list Slot) (ref i : nat) : Prop := ∃ s, h !! ref = Some s ∧ index s = i.

(** What the pending methods will do to the array. *)
Record procs_ok (ps : list proc) (sl : list (option nat)) (h : list Slot) : Prop := {
  po_start : ∀ i k ref, ps !! i = Some (StartSlot k ref) → length sl = k ∧ has_index h ref k;
  po_restart : ∀ i n next, ps !! i = Some (RestartWait n next) → has_index h next n;
  po_range : ∀ i j k n next, ps !! i = Some k → starting k = true →
    ps !! j = Some (RestartWait n next) → (n < length sl)%nat;
  po_one : ∀ i j k k', ps !! i = Some k → ps !! j = Some k' → starting k = true →
    starting k' = true → i = j;
}.

Definition is_busy (h : list Slot) (ref : nat) : Prop := ∃ s, h !! ref = Some s ∧ busy s = true.

Record excl (p : pool) : Prop := {
  ex_inv : inv p;
  ex_indexed : ∀ i ref, slots p !! i = Some (Some ref) → has_index (heap p) ref i;
  ex_busy : ∀ rid r ref, runs p !! rid = Some r → holds r = Some ref → is_busy (heap p) ref;
  ex_unique : ∀ rid rid' r r' ref, runs p !! rid = Some r → runs p !! rid' = Some r' →
    holds r = Some ref → holds r' = Some ref → rid = rid';
  ex_procs : procs_ok (procs p) (slots p) (heap p);
}.

(** Every slot held afterwards was held by the same run before. *)
Definition holds_sub (l l' : list Run) : Prop :=
  ∀ x r' ref, l' !! x = Some r' → holds r' = Some ref → ∃ r, l !! x = Some r ∧ holds r = Some ref.

Lemma holds_sub_alter f x l :
  (∀ r, l !! x = Some r → holds (f r) = None ∨ holds (f r) = holds r) → holds_sub l (alter f x l).
Proof.
  intros Hf y r' ref. destruct (decide (y = x)) as [->|Hne].
  - rewrite list_lookup_alter_eq. destruct (l !! x) as [r|]; [|done]. simpl. intros [= <-] Hr.
    destruct (Hf r eq_refl) as [H|H]; [congruence|]. exists r. by rewrite <- H.
  - rewrite list_lookup_alter_ne by done. intros ? ?. by exists r'.
Qed.

Lemma holds_sub_app l r : holds r = None → holds_sub l (l ++ [r]).
Proof.
  intros Hr x r' ref Hx Hh. apply lookup_app_Some in Hx as [Hx|[_ Hx]]; [by exists r'|].
  destruct (x - length l)%nat; simpl in Hx; [|done]. injection Hx as <-. congruence.
Qed.

(** The runs lose slots at most, the rest is as it was. *)
Lemma excl_runs p p' :
  excl p → inv p' → heap p' = heap p → slots p' = slots p → procs p' = procs p →
  holds_sub (runs p) (runs p') → excl p'.
Proof.
  intros [E0 E1 E2 E3 E4] I Hh Hs Hp Hsub. split; rewrite ?Hh, ?Hs, ?Hp; try done.
  - intros rid r ref Hr Hx. destruct (Hsub _ _ _ Hr Hx) as (r0 & H0 & H1). eauto.
  - intros rid rid' r r' ref Hr Hr' Hx Hx'.
    destruct (Hsub _ _ _ Hr Hx) as (r0 & H0 & H1), (Hsub _ _ _ Hr' Hx') as (r1 & H2 & H3). eauto.
Qed.

Lemma holds_sub_refl l : holds_sub l l.
Proof. intros x r ref ? ?. by exists r. Qed.

(** A slot that the selection returns is the idle slot it saw. *)
Lemma chosen_idle p ref : excl p → chosen p ref → ∃ s, heap p !! ref = Some s ∧ busy s = false.
Proof.
  intros E (k & r & s & Hk & Hr & Hb & Hs). destruct (ex_indexed _ E _ _ Hk) as (s' & Hr' & Hi).
  rewrite Hr in Hr'. injection Hr' as <-. unfold slot_at in Hs. rewrite Hi, Hk in Hs.
  injection Hs as <-. by exists s.
Qed.

Lemma has_index_busy h ref b x i :
  has_index h x i → has_index (alter (λ s, mkSlot (index s) (worker s) b) ref h) x i.
Proof.
  intros (s & Hs & Hi). destruct (decide (x = ref)) as [->|Hne].
  - eexists. rewrite list_lookup_alter_eq, Hs. split; [done|done].
  - exists s. by rewrite list_lookup_alter_ne.
Qed.

Lemma has_index_app h l x i : has_index h x i → has_index (h ++ l) x i.
Proof. intros (s & Hs & Hi). exists s. split; [by apply lookup_app_l_Some|done]. Qed.

Lemma procs_ok_heap ps sl h h' :
  (∀ x i, has_index h x i → has_index h' x i) → procs_ok ps sl h → procs_ok ps sl h'.
Proof. intros H [P1 P2 P3 P4]. split; eauto. intros i k ref Hi. destruct (P1 _ _ _ Hi). eauto. Qed.

(** Giving an idle slot to a run that held nothing. *)
Lemma excl_take p p' rid ref f :
  excl p → inv p' → (∃ s, heap p !! ref = Some s ∧ busy s = false) →
  heap p' = alter (λ s, mkSlot (index s) (worker s) true) ref (heap p) → slots p' = slots p →
  procs p' = procs p → runs p' = alter f rid (runs p) → (∀ r, holds (f r) = Some ref) → excl p'.
Proof.
  intros [E0 E1 E2 E3 E4] I (s & Hs & Hb) Hh Hsl Hp Hr Hf.
  assert (Hfree : ∀ x r, runs p !! x = Some r → holds r ≠ Some ref).
  { intros x r Hx Hy. destruct (E2 _ _ _ Hx Hy) as (s' & ? & ?). congruence. }
  assert (Hold : ∀ x r y, runs p' !! x = Some r → holds r = Some y →
    (x = rid ∧ y = ref) ∨ (x ≠ rid ∧ y ≠ ref ∧ runs p !! x = Some r)).
  { intros x r y. rewrite Hr. destruct (decide (x = rid)) as [->|Hne].
    - rewrite list_lookup_alter_eq. destruct (runs p !! rid) as [r0|]; [|done]. intros [= <-].
      rewrite Hf. intros [= <-]. by left.
    - rewrite list_lookup_alter_ne by done. intros Hx Hy. right. split_and!; try done.
      intros ->. by apply (Hfree _ _ Hx). }
  split; rewrite ?Hh, ?Hsl, ?Hp; try done.
  - intros i x Hi. by apply has_index_busy, E1.
  - intros x r y Hx Hy. destruct (Hold _ _ _ Hx Hy) as [[-> ->]|(_ & Hne & Hx')].
    + eexists. rewrite list_lookup_alter_eq, Hs. done.
    + destruct (E2 _ _ _ Hx' Hy) as (s' & ? & ?). exists s'. by rewrite list_lookup_alter_ne.
  - intros x x' r r' y Hx Hx' Hy Hy'.
    destruct (Hold _ _ _ Hx Hy) as [[-> ->]|(? & ? & ?)], (Hold _ _ _ Hx' Hy') as [[-> Hz]|(? & ? & ?)];
      try done. by eapply E3.
  - eapply procs_ok_heap, E4. intros. by apply has_index_busy.
Qed.

(** A run gives its slot back. *)
Lemma excl_release p p' rid ref f r :
  excl p → inv p' → runs p !! rid = Some r → holds r = Some ref →
  heap p' = alter (λ s, mkSlot (index s) (worker s) false) ref (heap p) → slots p' = slots p →
  procs p' = procs p → runs p' = alter f rid (runs p) → (∀ r, holds (f r) = None) → excl p'.
Proof.
  intros [E0 E1 E2 E3 E4] I Hrid Hh0 Hh Hsl Hp Hr Hf.
  assert (Hold : ∀ x r y, runs p' !! x = Some r → holds r = Some y →
    x ≠ rid ∧ y ≠ ref ∧ runs p !! x = Some r).
  { intros x r0 y. rewrite Hr. destruct (decide (x = rid)) as [->|Hne].
    - rewrite list_lookup_alter_eq, Hrid. simpl. intros [= <-]. by rewrite Hf.
    - rewrite list_lookup_alter_ne by done. intros Hx Hy. split_and!; try done.
      intros ->. apply Hne. by eapply E3. }
  split; rewrite ?Hh, ?Hsl, ?Hp; try done.
  - intros i x Hi. by apply has_index_busy, E1.
  - intros x r0 y Hx Hy. destruct (Hold _ _ _ Hx Hy) as (_ & Hne & Hx').
    destruct (E2 _ _ _ Hx' Hy) as (s' & ? & ?). exists s'. by rewrite list_lookup_alter_ne.
  - intros x x' r0 r' y Hx Hx' Hy Hy'.
    destruct (Hold _ _ _ Hx Hy) as (_ & _ & ?), (Hold _ _ _ Hx' Hy') as (_ & _ & ?). by eapply E3.
  - eapply procs_ok_heap, E4. intros. by apply has_index_busy.
Qed.

Lemma excl_same p p' : same_but_tick p p' → excl p → excl p'.
Proof.
  intros Hs E. pose proof Hs as (S1 & S2 & _ & _ & _ & S6 & S7 & _).
  apply (excl_runs p); try done.
  - eapply inv_same; [by apply same_but_tick_core|apply E].
  - rewrite S6. apply holds_sub_refl.
Qed.

Lemma holds_settle o r : holds (settle_once o r) = holds r.
Proof. unfold settle_once, holds. by destruct (settled r). Qed.

Lemma holds_finish o r : holds (finish_run o r) = holds r.
Proof. unfold finish_run. destruct (r_viaQueue r); [apply holds_settle|done]. Qed.

Lemma excl_rejectQueued p e : excl p → excl (rejectQueued e p).
Proof.
  intros E. pose proof (ex_inv _ E) as I. pose proof (proj1 (inv_rejectQueued e p I)) as I'.
  unfold rejectQueued in *.
  destruct (rejectQueued_spec e (queue p) (set_queue (λ _, []) p))
    as [(_ & _ & H3 & H4 & H5 & _ & H7)|H]; [|by destruct H; apply I].
  apply (excl_runs p); try done.
  intros x r' ref Hx Hh. rewrite H7 in Hx. simpl in Hx. apply fmap_Some in Hx as (r & Hr & ->).
  case_decide; [by rewrite holds_settle in Hh|]. by exists r.
Qed.

Lemma keeps_excl_drain : keeps excl drainQueue.
Proof.
  apply keeps_drain.
  - apply excl_same.
  - intros p e. apply excl_rejectQueued.
  - intros p rid rest r E Hq Hr. apply (excl_runs p); try done.
    + eapply inv_drop; [apply E|done..].
    + rewrite reject_waiting_runs. apply holds_sub_alter. intros r0 _. left. by rewrite holds_settle.
  - intros p rid rest r ref E Hq Hr _ Hc.
    apply (excl_take p _ rid ref (move_to (POnSlot ref 1))); try done.
    + eapply inv_hand; [apply E|done..].
    + by apply chosen_idle.
Qed.

Lemma excl_runOnSlot ref rid n r p :
  excl p → runs p !! rid = Some r → waiting r = false → holds r = None → attempt_allowed r n →
  (∃ s, heap p !! ref = Some s ∧ busy s = false) → excl (runOnSlot ref rid n p).1.
Proof.
  intros E Hr Hw Hh Ha Hs.
  assert (I : inv (runOnSlot ref rid n p).1).
  { eapply inv_runOnSlot; try done; [apply E|]. unfold held1. by rewrite Hh. }
  revert I. unfold runOnSlot, mbind, M_bind, get. rewrite Hr. destruct (r_aborted r); simpl; intros I.
  - apply (excl_runs p); try done. apply holds_sub_alter. by left.
  - apply (excl_take p _ rid ref (move_to (POnSlot ref n))); try done.
Qed.

(** After a selection in a well-indexed pool. *)
Lemma excl_select j p :
  excl p → excl (selectAvailableSlot j p).1 ∧
  ∀ ref l, (selectAvailableSlot j p).2 = Ok (Some ref, l) →
    ∃ s, heap (selectAvailableSlot j p).1 !! ref = Some s ∧ busy s = false.
Proof.
  intros E. pose proof (select_same j p) as Hs. split; [by eapply excl_same|].
  intros ref l H%select_chosen. destruct Hs as (-> & _). by apply chosen_idle.
Qed.

Lemma excl_add r p p' :
  excl p → inv p' → heap p' = heap p → slots p' = slots p → procs p' = procs p →
  runs p' = runs p ++ [r] → holds r = None → excl p'.
Proof. intros E I H1 H2 H3 H4 H5. apply (excl_runs p); try done. rewrite H4. by apply holds_sub_app. Qed.

Lemma excl_startRun j o p : excl p → excl (startRun j o p).1.
Proof.
  intros E. unfold startRun. cbv zeta. unfold mbind at 1, M_bind at 1.
  destruct (excl_select j p E) as [E1 Hc].
  destruct (selectAvailableSlot j p) as [p1 [[[ref|] l]|e]]; simpl in E1, Hc; [| |done].
  - specialize (Hc ref l eq_refl). unfold mbind, M_bind, add_run. cbv beta iota.
    set (r := mkRun j o false false false PNew None). set (p2 := set_runs _ p1).
    assert (E2 : excl p2).
    { apply (excl_add r p1); try done. apply (inv_add r (queue p1) p1); try done. apply E1. }
    pose proof (excl_runOnSlot ref (length (runs p1)) 1 r p2 E2) as H.
    assert (excl (runOnSlot ref (length (runs p1)) 1 p2).1) as H'.
    { apply H; try done; [by apply list_lookup_middle|by left]. }
    by destruct (runOnSlot ref (length (runs p1)) 1 p2) as [p3 [u|e]].
  - pose proof (schedule_same l (retryPolicy (o_retry o) (poolRetry opts)) p1) as [Hs [u Hu]].
    unfold mbind at 1, M_bind at 1. destruct (scheduleCapacityDrain _ _ p1) as [p2 rr]. simpl in Hs, Hu. subst rr.
    assert (E2 : excl p2) by (by eapply excl_same).
    destruct (capacityUnavailableError _ _ _); [done|]. unfold mbind at 1, M_bind at 1, get.
    destruct (num_leb _ _); [done|]. unfold mbind, M_bind, add_run, modify. simpl.
    set (r := mkRun j o false true false PQueued None). set (p3 := set_queue _ _).
    assert (E3 : excl p3).
    { apply (excl_add r p2); try done. apply (inv_add r (queue p2 ++ [length (runs p2)]) p2); try done. apply E2. }
    pose proof (keeps_excl_drain p3 E3) as H. unfold drain_in_executor.
    destruct (drainQueue p3) as [p4 [v|e]]; simpl; [done|].
    apply (excl_runs p4); try done; [by apply inv_settle_run, H|]. apply holds_sub_alter. by right.
Qed.

Lemma excl_run j o a p : excl p → excl (run j o a p).1.
Proof.
  intros E. unfold run.
  match goal with |- context [(assertRunnable ;; ?m) p] =>
    destruct (assertRunnable_bind m p) as [[-> _]|[e ->]]; [|done] end.
  unfold mbind at 1, M_bind at 1, get. destruct a; [done|].
  destruct (bool_decide _); [done|]. destruct (_ ≫= _) as [rid|]; [done|].
  pose proof (excl_startRun j o p E) as H. unfold mbind, M_bind.
  destruct (startRun j o p) as [p2 [reply|e]]; simpl in *; [|done].
  destruct (normalizeIdempotencyKey _), reply; simpl; try done.
  apply (excl_runs p2); try done; [by eapply inv_same, H|apply holds_sub_refl].
Qed.

Lemma excl_abort rid p : excl p → excl (abort rid p).
Proof.
  intros E. pose proof (inv_abort rid p (ex_inv _ E)) as I. revert I. unfold abort.
  destruct (runs p !! rid) as [r|] eqn:Hr; [|done]. cbv zeta.
  destruct (_ && _); intros I.
  - apply (excl_runs p); try done; try (by destruct (at_ r)).
    destruct (at_ r) eqn:Ea; unfold update_run, goto; simpl; rewrite !alter_alter; apply holds_sub_alter;
      intros r0 Hr0; rewrite holds_settle; unfold holds; simpl; auto.
  - apply (excl_runs p); try done. apply holds_sub_alter. by right.
Qed.

Lemma excl_worker_settled rid o p : excl p → excl (worker_settled rid o p).
Proof.
  intros E. pose proof (inv_worker_settled rid o p (ex_inv _ E)) as I. revert I. unfold worker_settled.
  destruct (runs p !! rid) as [r|] eqn:Hr; [|done].
  destruct r as [j ro ab vq st [ | |ref n| | |] res] eqn:Er; try done. rewrite <- Er in Hr.
  destruct o as [x|]; intros I; apply (excl_runs p); try done; apply holds_sub_alter;
    intros r0 Hr0; simpl in Hr0; rewrite Hr in Hr0; injection Hr0 as <-; subst r; by right.
Qed.

Lemma excl_run_finally rid p : excl p → excl (run_finally rid p).
Proof.
  intros E. pose proof (inv_run_finally rid p (ex_inv _ E)) as I. revert I. unfold run_finally.
  destruct (runs p !! rid) as [r|] eqn:Hr; [|done].
  destruct r as [j ro ab vq st [ | | |ref n o| |] res] eqn:Er; try done. rewrite <- Er in Hr. cbv zeta.
  set (p1 := goto rid _ _). intros I.
  assert (I1 : inv p1).
  { eapply (inv_goto rid (PResuming ref n o) r (-1) p); subst r; try done. apply E. }
  assert (E1 : excl p1).
  { apply (excl_release p p1 rid ref (move_to (PResuming ref n o)) r); try done; by subst r. }
  pose proof (keeps_excl_drain p1 E1) as H. destruct (drainQueue p1) as [p2 [u|e]]; [done|].
  apply (excl_runs p2); try done. apply holds_sub_alter. by left.
Qed.

Lemma excl_finish rid o p : excl p → inv (finish rid o p) → excl (finish rid o p).
Proof.
  intros E I. apply (excl_runs p); try done. rewrite finish_runs. apply holds_sub_alter.
  intros r _. left. by rewrite holds_finish.
Qed.

Lemma excl_retry_elsewhere rid n r e p :
  excl p → runs p !! rid = Some r → waiting r = false → holds r = None → attempt_allowed r (n + 1) →
  excl (retry_elsewhere rid n r e p).1.
Proof.
  intros E Hr Hw Hh Ha.
  assert (Hh1 : held1 r = 0) by (unfold held1; by rewrite Hh).
  unfold retry_elsewhere. destruct (excl_select (job r) p E) as [E1 Hc].
  pose proof (select_same (job r) p) as (_ & _ & _ & _ & _ & S6 & _).
  destruct (selectAvailableSlot (job r) p) as [p1 [[[ref|] l]|e']]; simpl in E1, Hc, S6; rewrite <- S6 in Hr.
  - unfold mbind, M_bind, modify. cbv beta iota.
    apply (excl_runOnSlot ref rid (n + 1) r); try done; [|by eapply Hc].
    apply (excl_runs p1); try done; [by eapply inv_same, E1|apply holds_sub_refl].
  - pose proof (schedule_same l (run_policy r) p1) as [Hs [u Hu]].
    unfold mbind, M_bind. destruct (scheduleCapacityDrain _ _ p1) as [p2 rr]. simpl in *. subst rr.
    assert (E2 : excl p2) by (by eapply excl_same). destruct Hs as (_ & _ & _ & _ & _ & S7 & _).
    unfold modify. simpl. rewrite <- S7 in Hr. apply excl_finish; [done|].
    eapply inv_finish; try done. apply E2.
  - simpl. apply excl_finish; [done|]. eapply inv_finish; try done. apply E1.
Qed.

Lemma excl_run_resume rid p : excl p → excl (run_resume rid p).
Proof.
  intros E. unfold run_resume. destruct (runs p !! rid) as [r|] eqn:Hr; [|done].
  destruct (at_ r) as [ | | | |ref n [x|e]|] eqn:Ea; try done.
  - apply excl_finish; [done|]. eapply inv_finish; [apply E|done| |]; unfold waiting, held1, holds; by rewrite Ea.
  - assert (Hw : waiting r = false) by (unfold waiting; by rewrite Ea).
    assert (Hh : holds r = None) by (unfold holds; by rewrite Ea).
    unfold retry_or_fail. unfold mbind, M_bind.
    destruct (should_retry_spec ref r n p) as (b & p1 & -> & Hs & Hb).
    assert (E1 : excl p1) by (by eapply excl_same).
    destruct Hs as (_ & _ & _ & _ & _ & S6 & _). rewrite <- S6 in Hr.
    destruct b; simpl.
    + apply excl_retry_elsewhere; try done. eapply retry_allowed; [apply E1|done|done|auto].
    + apply excl_finish; [done|]. eapply inv_finish; try done; [apply E1|]. unfold held1. by rewrite Hh.
Qed.

Lemma excl_frame p p' :
  excl p → same_core p p' → heap p' = heap p → slots p' = slots p → procs p' = procs p → excl p'.
Proof.
  intros E Hc H1 H2 H3. apply (excl_runs p); try done; [eapply inv_same; [done|apply E]|].
  destruct Hc as (-> & _). apply holds_sub_refl.
Qed.

Lemma excl_cleanup rid p : excl p → excl (cleanup rid p).
Proof. intros E. unfold cleanup. repeat case_match; try done. by apply (excl_frame p). Qed.

Lemma excl_timer p : excl p → excl (timer_fires p).
Proof.
  intros E. unfold timer_fires. destruct (cooldownDrainTimer p); [|done].
  apply keeps_elim; [apply keeps_excl_drain|]. by apply (excl_frame p).
Qed.

(** Replacing the slots, the heap and the methods, with the runs as they are
    and no slot object's use changed. *)
Lemma excl_slots p p' :
  excl p → same_core p p' →
  (∀ x, is_busy (heap p) x → is_busy (heap p') x) →
  (∀ i ref, slots p' !! i = Some (Some ref) → has_index (heap p') ref i) →
  procs_ok (procs p') (slots p') (heap p') → excl p'.
Proof.
  intros [E0 E1 E2 E3 E4] Hc Hb Hi Hp. split; try done.
  - by eapply inv_same.
  - destruct Hc as (-> & _). eauto.
  - destruct Hc as (-> & _). eauto.
Qed.

(** The lookup after a method moved to another stage. *)
Lemma lookup_stage (i : nat) (k : proc) (ps : list proc) (j : nat) (k' : proc) :
  alter (λ _, k) i ps !! j = Some k' → (j = i ∧ k' = k) ∨ (j ≠ i ∧ ps !! j = Some k').
Proof.
  destruct (decide (j = i)) as [->|Hne].
  - rewrite list_lookup_alter_eq. destruct (ps !! i); simpl; naive_solver.
  - rewrite list_lookup_alter_ne by done. auto.
Qed.

Lemma stage_twice (a b : proc) (i : nat) (l : list proc) :
  alter (λ _, a) i (alter (λ _, b) i l) = alter (λ _, a) i l.
Proof.
  revert i. induction l as [|y l IH]; intros [|i]; try done.
  change (y :: alter (λ _, a) i (alter (λ _, b) i l) = y :: alter (λ _, a) i l). by rewrite IH.
Qed.

(** Finishing or advancing a method to a stage that will not touch slots. *)
Lemma procs_ok_alter i k ps sl h :
  procs_ok ps sl h → starting k = false → (∀ n x, k ≠ RestartWait n x) →
  procs_ok (alter (λ _, k) i ps) sl h.
Proof.
  intros [P1 P2 P3 P4] Hs Hr.
  assert (Hl : ∀ j k', alter (λ _, k) i ps !! j = Some k' → k' = k ∨ ps !! j = Some k').
  { intros j k' Hj%lookup_stage. naive_solver. }
  split.
  - intros j n ref Hj. destruct (Hl _ _ Hj) as [<-|?]; [done|eauto].
  - intros j n x Hj. destruct (Hl _ _ Hj) as [Hx|?]; [by destruct (Hr n x)|eauto].
  - intros j j' k1 n x Hj Hk1 Hj'. destruct (Hl _ _ Hj) as [->|?]; [congruence|].
    destruct (Hl _ _ Hj') as [Hx|?]; [by destruct (Hr n x)|eauto].
  - intros j j' k1 k2 Hj Hj' Hk1 Hk2. destruct (Hl _ _ Hj) as [->|?]; [congruence|].
    destruct (Hl _ _ Hj') as [->|?]; [congruence|eauto].
Qed.

Lemma procs_ok_app k ps sl h :
  procs_ok ps sl h → starting k = false →
  (∀ n x, k = RestartWait n x → has_index h x n ∧ (n < length sl)%nat) →
  procs_ok (ps ++ [k]) sl h.
Proof.
  intros [P1 P2 P3 P4] Hs Hr.
  assert (Hl : ∀ j k', (ps ++ [k]) !! j = Some k' → k' = k ∨ ps !! j = Some k').
  { intros j k' Hj. apply lookup_app_Some in Hj as [?|[_ Hj]]; [by right|].
    destruct (j - length ps)%nat; simpl in Hj; [|done]. injection Hj as <-. by left. }
  split.
  - intros j n ref Hj. destruct (Hl _ _ Hj) as [<-|?]; [done|eauto].
  - intros j n x Hj. destruct (Hl _ _ Hj) as [Hx|?]; [by apply Hr|eauto].
  - intros j j' k1 n x Hj Hk1 Hj'. destruct (Hl _ _ Hj) as [->|?]; [congruence|].
    destruct (Hl _ _ Hj') as [Hx|?]; [by apply (Hr n x)|eauto].
  - intros j j' k1 k2 Hj Hj' Hk1 Hk2. destruct (Hl _ _ Hj) as [->|?]; [congruence|].
    destruct (Hl _ _ Hj') as [->|?]; [congruence|eauto].
Qed.

Lemma excl_set_proc i k p :
  excl p → starting k = false → (∀ n x, k ≠ RestartWait n x) → excl (set_proc i k p).
Proof.
  intros E Hs Hr. apply (excl_slots p); try done; [apply E|]. by apply procs_ok_alter; [apply E|..].
Qed.

Lemma excl_set_state st p : excl p → excl (set_state st p).
Proof. intros E. by apply (excl_frame p). Qed.

Lemma excl_emit e p : excl p → excl (emit e p).
Proof. intros E. by apply (excl_frame p). Qed.

Lemma excl_prewarm p : excl p → excl (prewarm p).1.
Proof.
  intros E. unfold prewarm.
  match goal with |- context [(assertRunnable ;; ?m) p] =>
    destruct (assertRunnable_bind m p) as [[-> _]|[e ->]]; [|done] end.
  simpl. apply (excl_slots p); try done; [apply E|]. by apply procs_ok_app; [apply E|..].
Qed.

Lemma is_busy_alter h ref x : is_busy h x → is_busy (alter (λ s, mkSlot (index s) (worker s) true) ref h) x.
Proof.
  intros (s & Hs & Hb). destruct (decide (x = ref)) as [->|Hne].
  - eexists. rewrite list_lookup_alter_eq, Hs. done.
  - exists s. by rewrite list_lookup_alter_ne.
Qed.

Lemma is_busy_app h l x : is_busy h x → is_busy (h ++ l) x.
Proof. intros (s & Hs & Hb). exists s. split; [by apply lookup_app_l_Some|done]. Qed.

Lemma has_index_new h i w : has_index (h ++ [mkSlot i w false]) (length h) i.
Proof. eexists. split; [by apply list_lookup_middle|done]. Qed.

Lemma excl_mark_busy ref p : excl p → excl (set_busy true ref p).
Proof.
  intros E. apply (excl_slots p); try done.
  - intros x. apply is_busy_alter.
  - intros i x Hx. by apply has_index_busy, (ex_indexed _ E).
  - simpl. eapply procs_ok_heap, E. intros. by apply has_index_busy.
Qed.

Lemma excl_restartSlot i ok p : excl p → excl (restartSlot i ok p).1.
Proof.
  intros E. unfold restartSlot.
  match goal with |- context [(assertRunnable ;; ?m) p] =>
    destruct (assertRunnable_bind m p) as [[-> _]|[e ->]]; [|done] end.
  unfold_M. destruct (slot_at p i) as [ref|] eqn:Hi; [|done].
  destruct (heap p !! ref) as [s|]; [|done]. destruct (busy s); [done|].
  pose proof (excl_mark_busy ref _ (excl_emit EvRestartStarted p E)) as E1.
  destruct ok; simpl; [|done].
  set (p1 := set_busy true ref (emit EvRestartStarted p)) in *.
  assert (Hlt : (i < length (slots p1))%nat).
  { unfold slot_at in Hi. apply bind_Some in Hi as (o & Ho & _). by eapply lookup_lt_Some. }
  apply (excl_slots p1); try done.
  - intros x. apply is_busy_app.
  - intros k x Hx. by apply has_index_app, (ex_indexed _ E1).
  - apply procs_ok_app; [eapply procs_ok_heap, E1; intros; by apply has_index_app|done|].
    intros n x [= <- <-]. split; [|done]. exact (has_index_new (heap p1) i _).
Qed.

(** A start creates the slot of the next index, or ends. *)
Lemma excl_start_slot i k p ref :
  excl p → procs p !! i ≠ None → length (slots p) = k → has_index (heap p) ref k →
  (∀ j k', procs p !! j = Some k' → starting k' = true → j = i) →
  (∀ j n x, procs p !! j = Some (RestartWait n x) → j = i ∨ (n < length (slots p))%nat) →
  excl (set_proc i (StartSlot k ref) p).
Proof.
  intros E Hi Hk Href Hone Hr. apply (excl_slots p); try done; [apply E|].
  destruct (ex_procs _ E) as [P1 P2 P3 P4]. simpl.
  assert (Hl : ∀ j k', alter (λ _, StartSlot k ref) i (procs p) !! j = Some k' →
    (j = i ∧ k' = StartSlot k ref) ∨ (j ≠ i ∧ procs p !! j = Some k')).
  { intros j k' Hj%lookup_stage. naive_solver. }
  split.
  - intros j n x Hj. destruct (Hl _ _ Hj) as [[_ [= -> ->]]|[_ ?]]; [done|eauto].
  - intros j n x Hj. destruct (Hl _ _ Hj) as [[_ ?]|[_ ?]]; [done|eauto].
  - intros j j' k1 n x _ _ Hj'. destruct (Hl _ _ Hj') as [[_ ?]|[Hne Hj]]; [done|].
    by destruct (Hr _ _ _ Hj).
  - intros j j' k1 k2 Hj Hj' H1 H2.
    assert (∀ y ky, alter (λ _, StartSlot k ref) i (procs p) !! y = Some ky → starting ky = true → y = i) as Hy.
    { intros y ky Hy Hs. destruct (Hl _ _ Hy) as [[-> _]|[_ ?]]; [done|eauto]. }
    rewrite (Hy _ _ Hj H1). by rewrite (Hy _ _ Hj' H2).
Qed.

(** A failing start empties the array; no other start is under way. *)
Lemma excl_start_catch i e p :
  excl p → (∀ j k', procs p !! j = Some k' → starting k' = true → j = i) → excl (start_catch i e p).
Proof.
  intros E Hone. unfold start_catch. cbv zeta.
  assert (H : ∀ k, starting k = false → (∀ n x, k ≠ RestartWait n x) →
    excl (set_proc i k (set_slots (λ _, []) (set_state Failed p)))).
  { intros k Hk Hr. apply (excl_slots p); try done. simpl.
    destruct (ex_procs _ E) as [P1 P2 P3 P4].
    assert (Hl : ∀ j k', alter (λ _, k) i (procs p) !! j = Some k' →
      k' = k ∨ (procs p !! j = Some k' ∧ starting k' = false)).
    { intros j k' Hj%lookup_stage. destruct Hj as [[-> ->]|[Hne Hj]]; [by left|right]. split; [done|].
      destruct (starting k') eqn:Es; [|done]. by destruct Hne; eapply Hone. }
    split.
    - intros j n x Hj. destruct (Hl _ _ Hj) as [<-|[_ ?]]; done.
    - intros j n x Hj. destruct (Hl _ _ Hj) as [Hx|[? _]]; [by destruct (Hr n x)|eauto].
    - intros j j' k1 n x Hj Hk1. destruct (Hl _ _ Hj) as [->|[_ ?]]; congruence.
    - intros j j' k1 k2 Hj _ Hk1. destruct (Hl _ _ Hj) as [->|[_ ?]]; congruence. }
  destruct (isStartTimeoutError e); by apply H.
Qed.

Lemma excl_start_from i k ok p :
  excl p → procs p !! i ≠ None → length (slots p) = k →
  (∀ j k', procs p !! j = Some k' → starting k' = true → j = i) →
  (∀ j n x, procs p !! j = Some (RestartWait n x) → j = i ∨ (n < length (slots p))%nat) →
  excl (start_from i k ok p).
Proof.
  intros E Hi Hk Hone Hr. unfold start_from. destruct (k <? slot_total)%nat.
  - destruct ok; [|by apply excl_start_catch]. unfold createSlot. cbv beta iota.
    apply excl_start_slot; try done; [|apply has_index_new].
    apply (excl_slots p); try done; simpl.
    + intros x. apply is_busy_app.
    + intros j x Hx. by apply has_index_app, (ex_indexed _ E).
    + eapply procs_ok_heap, E. intros. by apply has_index_app.
  - unfold start_started. cbv zeta. destruct (prewarmOnStart opts).
    + apply (excl_slots p); try done; [apply E|]. simpl. destruct (ex_procs _ E) as [P1 P2 P3 P4].
      assert (Hl : ∀ j k', alter (λ _, StartPrewarm) i (procs p) !! j = Some k' →
        (j = i ∧ k' = StartPrewarm) ∨ (j ≠ i ∧ procs p !! j = Some k')).
      { intros j k' Hj%lookup_stage. naive_solver. }
      split.
      * intros j n x Hj. destruct (Hl _ _ Hj) as [[_ ?]|[_ ?]]; [done|eauto].
      * intros j n x Hj. destruct (Hl _ _ Hj) as [[_ ?]|[_ ?]]; [done|eauto].
      * intros j j' k1 n x _ _ Hj'. destruct (Hl _ _ Hj') as [[_ ?]|[Hne Hj]]; [done|].
        by destruct (Hr _ _ _ Hj).
      * intros j j' k1 k2 Hj Hj' H1 H2.
        destruct (Hl _ _ Hj) as [[-> _]|[_ H3]], (Hl _ _ Hj') as [[-> _]|[_ H4]]; try done.
        -- symmetry. by eapply Hone.
        -- by eapply Hone.
        -- rewrite (Hone _ _ H3 H1). symmetry. by eapply Hone.
    + apply excl_set_proc; try done. by apply excl_emit, excl_set_state.
Qed.

(** Calm histories: when [start] goes through (the pool was created only, or
    failed), the pool has no slots and no start or restart is pending; no restart
    fails; and the pool is not disposed. *)
Definition calm_event (e : event) (p : pool) : Prop :=
  match e with
  | EStart _ => poolState p = Created ∨ poolState p = Failed → slots p = [] ∧ Forall unhurried (procs p)
  | EDispose _ => False
  | EProc i w _ => match procs p !! i with
                   | Some (RestartWait _ _) => w = EndOk
                   | Some DisposePoll => False
                   | _ => True
                   end
  | _ => True
  end.

Fixpoint calm (es : list event) (p : pool) : Prop :=
  match es with
  | [] => True
  | e :: es => calm_event e p ∧ calm es (step e p)
  end.

Lemma excl_start ok p :
  excl p → (poolState p = Created ∨ poolState p = Failed → slots p = [] ∧ Forall unhurried (procs p)) → excl (start ok p).1.
Proof.
  intros E Hc. unfold start, mbind, M_bind, get.
  assert (slots p = [] ∧ Forall unhurried (procs p) →
    excl (start_from (length (procs p)) 0 ok (add_proc (Finished (Ok tt)) (set_state Starting p)))) as Hgo.
  { intros [Hs Hf].
    assert (Hfin : ∀ j k, (procs p ++ [Finished (Ok tt)]) !! j = Some k → unhurried k).
    { intros j k Hj. apply lookup_app_Some in Hj as [Hj|[_ Hj]].
      - by eapply Forall_lookup in Hf.
      - destruct (j - length (procs p))%nat; simpl in Hj; [|done]. by injection Hj as <-. }
    apply excl_start_from.
    - apply (excl_slots p); try done; [apply E|]. by apply procs_ok_app; [apply E|..].
    - simpl. rewrite list_lookup_middle by done. done.
    - simpl. by rewrite Hs.
    - intros j k Hj Hk. apply Hfin in Hj as [Hj _]. congruence.
    - intros j n x Hj. apply Hfin in Hj as [_ Hj]. by destruct (Hj n x). }
  destruct (poolState p); simpl; auto.
Qed.

Lemma excl_drain_and_finish i r p : excl p → excl (drain_and_finish i r p).
Proof.
  intros E. unfold drain_and_finish. pose proof (keeps_excl_drain p E) as H.
  destruct (drainQueue p) as [p' [u|e]]; by apply excl_set_proc.
Qed.

(** A pushed slot is at its index. *)
Lemma excl_push i k ref ok p :
  excl p → procs p !! i = Some (StartSlot k ref) →
  excl (start_from i (k + 1) ok (set_slots (λ l, l ++ [Some ref]) p)).
Proof.
  intros E Hi. destruct (ex_procs _ E) as [P1 P2 P3 P4]. destruct (P1 _ _ _ Hi) as [Hk Href].
  (* the pending start itself is put aside while the array grows *)
  assert (Hpush : ∀ j x, (slots p ++ [Some ref]) !! j = Some (Some x) → has_index (heap p) x j).
  { intros j x Hj. apply lookup_app_Some in Hj as [Hj|[Hge Hj]]; [by apply (ex_indexed _ E)|].
    destruct (j - length (slots p))%nat eqn:Ej; simpl in Hj; [|done]. injection Hj as <-.
    by replace j with k by lia. }
  assert (E1 : excl (set_proc i (Finished (Ok tt)) (set_slots (λ l, l ++ [Some ref]) p))).
  { apply (excl_slots p); try done. simpl.
    split.
    - intros j n x Hj%lookup_stage. destruct Hj as [[_ ?]|[Hne Hj]]; [done|]. by destruct Hne; eapply P4.
    - intros j n x Hj%lookup_stage. destruct Hj as [[_ ?]|[Hne Hj]]; [done|eauto].
    - intros j j' k1 n x Hj%lookup_stage Hk1. destruct Hj as [[_ ->]|[Hne Hj]]; [done|].
      by destruct Hne; eapply P4.
    - intros j j' k1 k2 Hj%lookup_stage _ Hk1. destruct Hj as [[_ ->]|[Hne Hj]]; [done|].
      by destruct Hne; eapply P4. }
  assert (Hsame : start_from i (k + 1) ok (set_slots (λ l, l ++ [Some ref]) p) =
    start_from i (k + 1) ok (set_proc i (Finished (Ok tt)) (set_slots (λ l, l ++ [Some ref]) p))).
  { unfold start_from, createSlot, start_catch, start_started. cbv zeta.
    repeat case_match; unfold set_proc, set_procs; simpl; by rewrite stage_twice. }
  rewrite Hsame. apply excl_start_from; [done|simpl|simpl|simpl|simpl].
  - by rewrite list_lookup_alter_eq, Hi.
  - rewrite length_app. simpl. lia.
  - intros j k' Hj%lookup_stage Hk'. destruct Hj as [[-> _]|[Hne Hj]]; [done|]. by eapply P4.
  - intros j n x Hj%lookup_stage. destruct Hj as [[-> _]|[Hne Hj]]; [by left|right].
    rewrite length_app. pose proof (P3 i j _ n x Hi eq_refl Hj). lia.
Qed.

Lemma slots_assign_lookup i x l j y :
  slots_assign i x l !! j = Some (Some y) → (j = i ∧ y = x) ∨ l !! j = Some (Some y).
Proof.
  unfold slots_assign. destruct (i <? length l)%nat eqn:E.
  - destruct (decide (j = i)) as [->|Hne].
    + apply Nat.ltb_lt in E. rewrite list_lookup_insert_eq by done. intros [= <-]. by left.
    + rewrite list_lookup_insert_ne by done. by right.
  - apply Nat.ltb_ge in E. rewrite !lookup_app_Some, lookup_replicate.
    intros [?|[H1 [[? _]|[H2 H3]]]]; [by right|done|]. rewrite length_replicate in H2, H3.
    destruct (j - length l - (i - length l))%nat eqn:Ej; simpl in H3; [|done].
    injection H3 as <-. left. split; [lia|done].
Qed.

Lemma excl_restarted i n x p :
  excl p → procs p !! i = Some (RestartWait n x) →
  excl (emit EvRestartCompleted (set_cnt add_restarted (set_slots (slots_assign n x) p))).
Proof.
  intros E Hi. destruct (ex_procs _ E) as [P1 P2 P3 P4].
  apply (excl_slots p); try done; simpl.
  - intros j y [[-> ->]|Hj]%slots_assign_lookup; [eauto|by apply (ex_indexed _ E)].
  - assert (Hlen : ∀ j k, procs p !! j = Some k → starting k = true →
      length (slots_assign n x (slots p)) = length (slots p)).
    { intros j k Hj Hk. pose proof (P3 _ _ _ _ _ Hj Hk Hi) as Hlt. unfold slots_assign.
      apply Nat.ltb_lt in Hlt. rewrite Hlt. apply length_insert. }
    split; [| |intros j j' k m y Hj Hk Hj'; rewrite (Hlen j k) by done|]; eauto.
    intros j k ref Hj. rewrite (Hlen j _ Hj) by done. eauto.
Qed.

(** A start that failed waits for the disposal of its last slot. *)
Lemma excl_start_dispose i k ref e p :
  excl p → procs p !! i = Some (StartSlot k ref) → excl (set_proc i (StartSlotDispose e) p).
Proof.
  intros E Hi. apply (excl_slots p); try done; [apply E|]. simpl.
  destruct (ex_procs _ E) as [P1 P2 P3 P4].
  assert (Hs : ∀ j k', alter (λ _, StartSlotDispose e) i (procs p) !! j = Some k' →
    starting k' = true → ∃ k0, procs p !! j = Some k0 ∧ starting k0 = true).
  { intros j k' Hj%lookup_stage Hk. destruct Hj as [[-> _]|[_ Hj]]; [by exists (StartSlot k ref)|by exists k']. }
  split.
  - intros j n x Hj%lookup_stage. destruct Hj as [[_ ?]|[_ ?]]; [done|eauto].
  - intros j n x Hj%lookup_stage. destruct Hj as [[_ ?]|[_ ?]]; [done|eauto].
  - intros j j' k1 n x Hj Hk1 Hj'%lookup_stage. destruct (Hs _ _ Hj Hk1) as (k0 & H0 & H1).
    destruct Hj' as [[_ ?]|[_ ?]]; [done|eauto].
  - intros j j' k1 k2 Hj Hj' H1 H2. destruct (Hs _ _ Hj H1) as (? & ? & ?), (Hs _ _ Hj' H2) as (? & ? & ?). eauto.
Qed.

Lemma excl_proc_step i w ok p :
  excl p → calm_event (EProc i w ok) p → excl (proc_step i w ok p).
Proof.
  intros E Hc. unfold proc_step. destruct (procs p !! i) as [k|] eqn:Hi; [|done].
  assert (Hone : starting k = true → ∀ j k', procs p !! j = Some k' → starting k' = true → j = i).
  { intros Hk j k' Hj Hk'. by eapply (po_one _ _ _ (ex_procs _ E)). }
  simpl in Hc. rewrite Hi in Hc.
  destruct k as [n ref|e| |e| |n x|n| | |r]; [..|done].
  - destruct w; [by apply excl_push|by eapply excl_start_dispose|by apply excl_start_catch, Hone].
  - by apply excl_start_catch, Hone.
  - destruct w; [|by apply excl_start_catch, Hone..].
    apply excl_set_proc; try done. by apply excl_emit, excl_emit, excl_set_state.
  - destruct w; by apply excl_set_proc.
  - destruct w; apply excl_set_proc; try done; [by apply excl_emit, excl_set_state|by apply excl_set_state..].
  - subst w. apply excl_drain_and_finish. by eapply excl_restarted.
  - destruct (slots p); [|by apply excl_drain_and_finish].
    apply excl_set_proc; try done. by apply excl_rejectQueued.
  - done.
  - destruct w; apply excl_set_proc; try done. by apply excl_emit, excl_set_state.
Qed.

Lemma excl_step e p : excl p → calm_event e p → excl (step e p).
Proof.
  intros E Hc. destruct e; simpl in *; auto using excl_prewarm, excl_run, excl_abort,
    excl_worker_settled, excl_run_finally, excl_run_resume, excl_cleanup, excl_timer, excl_restartSlot.
  - by apply excl_start.
  - done.
  - by apply excl_proc_step.
Qed.

Lemma excl_steps es p : excl p → calm es p → excl (steps es p).
Proof.
  revert p. induction es as [|e es IH]; intros p E Hc; simpl; [done|].
  destruct Hc as [He Hc]. by apply IH; [apply excl_step|].
Qed.

Lemma excl_fresh : excl fresh_pool.
Proof. split; try done. apply inv_fresh. Qed.

(** C34: a slot serves one run at a time. In every history in which [start] goes
    through only on a pool without slots and with no start or restart pending, no
    slot restart fails, and the pool is not disposed, two runs that hold a slot
    hold different ones, and a held slot is marked busy; whatever the worker
    capacities, retries, aborts, timers, prewarms and successful restarts. A
    second start over a pool with slots, and a restart that fails, do break it:
    [second_start_double_books], [failed_restart_double_books]. *)
Theorem pool_slot_exclusive es :
  calm es fresh_pool →
  let p := steps es fresh_pool in
  (∀ rid rid' r r' ref, runs p !! rid = Some r → runs p !! rid' = Some r' →
     holds r = Some ref → holds r' = Some ref → rid = rid') ∧
  (∀ rid r ref, runs p !! rid = Some r → holds r = Some ref →
     ∃ s, heap p !! ref = Some s ∧ busy s = true).
Proof.
  intros Hc p. destruct (excl_steps es _ excl_fresh Hc) as [_ _ E2 E3 _]. split; [exact E3|exact E2].
Qed.

(** ** Draining is first-in first-out and work-conserving *)

Lemma select_none j p l :
  excl p → (selectAvailableSlot j p).2 = Ok (None, l) →
  List.filter (runnable (oracle (tick p))) (slotSnapshots (oracle (tick p)) p) = [].
Proof.
  intros E. unfold selectAvailableSlot. unfold_M. cbv zeta.
  change (slotSnapshots (oracle (tick p)) (next_tick p)) with (slotSnapshots (oracle (tick p)) p).
  destruct (List.filter _ _) as [|first others]; [done|]. intros H. exfalso. revert H.
  destruct (coalesce _ _) as [i|] eqn:Eco; [|by revert Eco; unfold coalesce; case_match].
  destruct (find_snapshot _ _) as [[sn|]|] eqn:Ef; [|done..].
  apply find_snapshot_Some in Ef as (Hi & r & s & Ho & Hh & ->). simpl in Hh, Ho.
  destruct (runnable _ _) eqn:Er; [|done]. intros [= Hs _]. revert Hs. apply list_elem_of_lookup in Ho as [k Hk].
  destruct (ex_indexed _ E _ _ Hk) as (s' & Hs' & Hix). rewrite Hh in Hs'. injection Hs' as <-.
  unfold slot_at. simpl. by rewrite Hix, Hk.
Qed.

Lemma select_snapshots j p :
  ∀ l o, (selectAvailableSlot j p).2 = Ok (o, l) → l = slotSnapshots (oracle (tick p)) p.
Proof.
  intros l o. unfold selectAvailableSlot. unfold_M. cbv zeta.
  change (slotSnapshots (oracle (tick p)) (next_tick p)) with (slotSnapshots (oracle (tick p)) p).
  destruct (List.filter _ _) as [|first others]; [by intros [= _ <-]|].
  destruct (coalesce _ _) as [i|]; [|by intros [= _ <-]].
  destruct (find_snapshot _ _) as [[sn|]|]; [|done..]. destruct (runnable _ sn); [|done]. by intros [= _ <-].
Qed.

(** The state after draining: the queue lost a prefix, and what is left waits
    because no slot was runnable when it was last looked at. *)
Definition drained (q0 : list nat) (p : pool) : Prop :=
  excl p ∧ ((∃ pre, q0 = pre ++ queue p) ∨ queue p = []) ∧
  (queue p = [] ∨ ∃ t, List.filter (runnable (oracle t)) (slotSnapshots (oracle t) p) = []).

Lemma drain_loop_conserving n p :
  excl p → length (queue p) = n →
  match drain_loop n p with (p', Ok _) => drained (queue p) p' | (_, Throw _) => True end.
Proof.
  revert p. induction n as [|n IH]; intros p E Hn.
  { simpl. apply nil_length_inv in Hn. split; [done|]. rewrite Hn. split; [by left; exists []|by left]. }
  simpl. unfold mbind at 1, M_bind at 1, get.
  destruct (queue p) as [|rid rest] eqn:Eq; [done|].
  assert (∃ r, runs p !! rid = Some r ∧ waiting r = true) as (r & Hr & _).
  { apply (inv_queue _ (ex_inv _ E)). rewrite Eq. left. }
  rewrite Hr. unfold mbind at 1, M_bind at 1.
  pose proof (select_same (job r) p) as Hs. destruct (excl_select (job r) p E) as [E1 Hc].
  pose proof (select_none (job r) p) as Hnone.
  destruct (selectAvailableSlot (job r) p) as [p1 [[[ref|] l]|e]]; simpl in Hs, Hc, E1, Hnone; [| |done].
  - destruct Hs as (S1 & S2 & S3 & S4 & S5 & S6 & S7 & S8 & _).
    rewrite <- S3 in Eq. rewrite <- S6 in Hr. specialize (Hc ref l eq_refl).
    assert (Hgo : ∀ p2, excl p2 → queue p2 = rest →
      match drain_loop n p2 with (p', Ok _) => drained (rid :: rest) p' | (_, Throw _) => True end).
    { intros p2 E2 Hq2. pose proof (IH p2 E2) as H. rewrite Hq2 in H. simpl in Hn.
      specialize (H ltac:(lia)). destruct (drain_loop n p2) as [p' [u|e]]; [|done].
      destruct H as (H1 & H2 & H3). split; [done|]. split; [|done].
      destruct H2 as [[pre ->]|H2]; [left; by exists (rid :: pre)|by right]. }
    unfold mbind, M_bind, modify. cbv beta iota. destruct (r_aborted r) eqn:Ea.
    + apply Hgo; [|done]. apply (excl_runs p1); try done.
      * eapply inv_drop; [apply E1|done..].
      * rewrite reject_waiting_runs. apply holds_sub_alter. intros r0 _. left. by rewrite holds_settle.
    + unfold runOnSlot, mbind, M_bind, get. simpl. rewrite Hr, Ea. unfold modify. apply Hgo; [|done].
      apply (excl_take p1 _ rid ref (move_to (POnSlot ref 1))); try done.
      eapply inv_hand; [apply E1|done..].
  - pose proof (schedule_same l (run_policy r) p1) as [Hs2 [u Hu]]. unfold mbind, M_bind.
    destruct (scheduleCapacityDrain l (run_policy r) p1) as [p2 rr]. simpl in Hs2, Hu. subst rr.
    assert (E2 : excl p2) by (by eapply excl_same).
    destruct (capacityUnavailableError _ _ _) as [e|]; simpl.
    + split; [by apply excl_rejectQueued|]. pose proof (proj2 (inv_rejectQueued e p2 (ex_inv _ E2))) as ->.
      split; [by right|by left].
    + split; [done|]. destruct Hs as (S1 & S2 & S3 & _), Hs2 as (T1 & T2 & T3 & _).
      split; [left; exists []; by rewrite T3, S3|]. right. exists (tick p).
      unfold slotSnapshots, sparse_snapshots, slot_snapshot. rewrite T1, T2, S1, S2. by apply (Hnone l).
Qed.

(** draining is first-in first-out and work-conserving, and the fuel of
    the loop suffices. In a calm history, a drain that returns has started or
    rejected a prefix of the queue, in its order (or rejected all of it for
    want of capacity); and if jobs are still waiting, then no slot was idle
    with a runnable capacity when the drain last looked. *)
Theorem drain_work_conserving es p' :
  calm es fresh_pool → let p := steps es fresh_pool in
  poolState p ≠ Draining → poolState p ≠ Disposed_ → drainQueue p = (p', Ok tt) →
  ((∃ pre, queue p = pre ++ queue p') ∨ queue p' = []) ∧
  (queue p' = [] ∨ ∃ t, List.filter (runnable (oracle t)) (slotSnapshots (oracle t) p') = []).
Proof.
  intros Hc p Hd1 Hd2 Hdr. pose proof (excl_steps es _ excl_fresh Hc) as E. fold p in E.
  pose proof (drain_loop_conserving _ p E eq_refl) as H.
  assert (drainQueue p = drain_loop (length (queue p)) p) as Heq.
  { unfold drainQueue, mbind, M_bind, get. by destruct (poolState p). }
  rewrite <- Heq, Hdr in H. apply H.
Qed.

(** ** The bound of the queue *)

Lemma reject_all_queue e l p : queue (foldl (λ p rid, reject_waiting e rid p) p l) = queue p.
Proof. revert p. induction l as [|a l IH]; intros p; simpl; [done|]. by rewrite IH. Qed.

Definition queue_limit : num := default (num_of_Z 1024) (maxQueueSize opts).

Section bound.
Context (m : Z) (Hm : queue_limit = num_of_Z m) (Hm0 : 0 ≤ m).

Definition bounded (p : pool) : Prop := Z.of_nat (length (queue p)) ≤ m.

Lemma bounded_same p p' : queue p' = queue p → bounded p → bounded p'.
Proof. unfold bounded. by intros ->. Qed.

Lemma bounded_rejectQueued e p : bounded (rejectQueued e p).
Proof. unfold bounded, rejectQueued. rewrite reject_all_queue. done. Qed.

Lemma keeps_bounded_drain : keeps bounded drainQueue.
Proof.
  apply keeps_drain.
  - intros p p' (_ & _ & S3 & _). by apply bounded_same.
  - intros p e _. apply bounded_rejectQueued.
  - intros p rid rest r H Hq _. unfold bounded in *. simpl. rewrite Hq in H. simpl in H. lia.
  - intros p rid rest r ref H Hq _ _ _. unfold bounded in *. simpl. rewrite Hq in H. simpl in H. lia.
Qed.

Lemma bounded_runOnSlot ref rid n p : bounded p → bounded (runOnSlot ref rid n p).1.
Proof. intros H. unfold runOnSlot, mbind, M_bind, get. destruct (runs p !! rid) as [r|]; [destruct (r_aborted r)|]; done. Qed.

Lemma bounded_startRun j o p : bounded p → bounded (startRun j o p).1.
Proof.
  intros H. unfold startRun. cbv zeta. unfold mbind at 1, M_bind at 1.
  pose proof (select_same j p) as (_ & _ & S3 & _).
  destruct (selectAvailableSlot j p) as [p1 [[[ref|] l]|e]]; simpl in S3;
    assert (H1 : bounded p1) by (by apply (bounded_same p)); [| |done].
  - unfold mbind, M_bind, add_run. cbv beta iota.
    pose proof (bounded_runOnSlot ref (length (runs p1)) 1 (set_runs (λ l0, l0 ++ [mkRun j o false false false PNew None]) p1) H1) as H2.
    by destruct (runOnSlot _ _ _ _) as [p2 [u|e]].
  - pose proof (schedule_same l (retryPolicy (o_retry o) (poolRetry opts)) p1) as [(_ & _ & T3 & _) [u Hu]].
    unfold mbind at 1, M_bind at 1. destruct (scheduleCapacityDrain _ _ p1) as [p2 rr]. simpl in T3, Hu. subst rr.
    assert (H2 : bounded p2) by (by apply (bounded_same p1)).
    destruct (capacityUnavailableError _ _ _); [done|]. unfold mbind at 1, M_bind at 1, get.
    fold queue_limit. rewrite Hm, num_leb_Z. destruct (m <=? _) eqn:El; [done|]. bools.
    unfold mbind, M_bind, add_run, modify. simpl. set (p3 := set_queue _ _).
    assert (H3 : bounded p3). { unfold bounded. simpl. rewrite length_app. simpl. lia. }
    pose proof (keeps_bounded_drain p3 H3) as H4. unfold drain_in_executor.
    by destruct (drainQueue p3) as [p4 [v|e]].
Qed.

Lemma filter_length_le {A} (f : A → bool) l : (length (List.filter f l) ≤ length l)%nat.
Proof. induction l as [|x l IH]; simpl; [done|]. destruct (f x); simpl; lia. Qed.

Lemma bounded_retry rid ref n r e p : bounded p → bounded (retry_or_fail rid ref n r e p).1.
Proof.
  intros H. unfold retry_or_fail, mbind, M_bind.
  destruct (should_retry_spec ref r n p) as (b & p1 & -> & (_ & _ & S3 & _) & _).
  assert (H1 : bounded p1) by (by apply (bounded_same p)). destruct b; simpl; [|done].
  unfold retry_elsewhere. pose proof (select_same (job r) p1) as (_ & _ & T3 & _).
  destruct (selectAvailableSlot (job r) p1) as [p2 [[[ref'|] l]|e']]; simpl in T3;
    assert (H2 : bounded p2) by (by apply (bounded_same p1)); [| |done].
  - by apply (bounded_runOnSlot ref' rid (n + 1) (emit EvSlotRetry p2)).
  - pose proof (schedule_same l (run_policy r) p2) as [(_ & _ & U3 & _) [u Hu]].
    unfold mbind, M_bind. destruct (scheduleCapacityDrain _ _ p2) as [p3 rr]. simpl in U3, Hu. subst rr.
    simpl. by apply (bounded_same p2).
Qed.

Lemma bounded_drain_and_finish i r p : bounded p → bounded (drain_and_finish i r p).
Proof.
  intros H. unfold drain_and_finish. pose proof (keeps_bounded_drain p H) as H1.
  by destruct (drainQueue p) as [p' [u|e]].
Qed.

Lemma bounded_step e p : bounded p → bounded (step e p).
Proof.
  intros H. destruct e as [ok| |j o a|rid|rid o|rid|rid|rid| |i ok|x|i w ok]; simpl.
  - unfold start, start_from, createSlot, start_catch, start_started, mbind, M_bind, get.
    destruct (poolState p); simpl; repeat case_match; done.
  - unfold prewarm. match goal with |- context [(assertRunnable ;; ?m) p] =>
      destruct (assertRunnable_bind m p) as [[-> _]|[e ->]]; done end.
  - unfold run. match goal with |- context [(assertRunnable ;; ?m) p] =>
      destruct (assertRunnable_bind m p) as [[-> _]|[e ->]]; [|done] end.
    unfold mbind at 1, M_bind at 1, get. destruct a; [done|].
    destruct (bool_decide _); [done|]. destruct (_ ≫= _) as [rid|]; [done|].
    pose proof (bounded_startRun j o p H) as H1. unfold mbind, M_bind.
    destruct (startRun j o p) as [p2 [reply|e]]; simpl in *; [|done].
    by destruct (normalizeIdempotencyKey _), reply.
  - unfold abort. destruct (runs p !! rid) as [r|]; [|done]. cbv zeta. destruct (_ && _); [|done].
    pose proof (filter_length_le (λ x, negb (Nat.eqb x rid)) (queue p)) as Hf.
    unfold bounded in *. destruct (at_ r); simpl; lia.
  - unfold worker_settled. destruct (runs p !! rid) as [[? ? ? ? ? [] ?]|]; try done. by destruct o.
  - unfold run_finally. destruct (runs p !! rid) as [[? ? ? ? ? [] ?]|]; try done. cbv zeta.
    set (p1 := goto rid _ _). pose proof (keeps_bounded_drain p1 H) as H1.
    by destruct (drainQueue p1) as [p2 [u|e]].
  - unfold run_resume. destruct (runs p !! rid) as [r|]; [|done].
    destruct (at_ r) as [ | | | |ref n [x|e]|]; try done. by apply bounded_retry.
  - unfold cleanup. by repeat case_match.
  - unfold timer_fires. destruct (cooldownDrainTimer p); [|done].
    by apply keeps_elim; [apply keeps_bounded_drain|].
  - unfold restartSlot. match goal with |- context [(assertRunnable ;; ?m) p] =>
      destruct (assertRunnable_bind m p) as [[-> _]|[e ->]]; [|done] end.
    unfold_M. destruct (slot_at p i) as [ref|]; [|done]. destruct (heap p !! ref) as [s|]; [|done].
    destruct (busy s); [done|]. by destruct ok.
  - unfold dispose. case_bool_decide; [done|]. cbv zeta. destruct (_ && _); [done|].
    exact (bounded_rejectQueued _ _).
  - unfold proc_step. destruct (procs p !! i) as [k|]; [|done].
    assert (Hd : bounded (dispose_slots p)) by exact (bounded_rejectQueued _ _).
    destruct k, w; try done; try (by apply bounded_drain_and_finish);
      try (unfold start_from, start_catch, start_started, createSlot; by repeat case_match);
      try (destruct (slots p); [exact (bounded_rejectQueued _ _)|by apply bounded_drain_and_finish]).
    all: by case_match.
Qed.
End bound.

(** the waiting queue never exceeds [maxQueueSize] (1024 by default), in
    any history. *)
Theorem pool_queue_bounded es m :
  default (num_of_Z 1024) (maxQueueSize opts) = num_of_Z m → 0 ≤ m →
  Z.of_nat (length (queue (steps es fresh_pool))) ≤ m.
Proof.
  intros Hm Hm0. change (bounded m (steps es fresh_pool)).
  assert (H : bounded m fresh_pool) by done. revert H. generalize fresh_pool as p.
  induction es as [|e es IH]; intros p H; simpl; [done|]. by apply IH, bounded_step.
Qed.

(** ** Idempotent runs are single-flight *)

Definition run_key (r : Run) : option jsstring := normalizeIdempotencyKey (idempotencyKey (r_options r)).

(** With the index [im] of idempotent runs, every unsettled keyed run but [x]
    is the one its key is indexed to. *)
Definition keyed_but (im : list (jsstring * nat)) (x : option nat) (p : pool) : Prop :=
  idempotentRuns p = im ∧ ∀ rid r k, runs p !! rid = Some r → x ≠ Some rid → r_result r = None →
    run_key r = Some k → map_get im k = Some rid.

Definition keyed (p : pool) : Prop := keyed_but (idempotentRuns p) None p.

(** Updates of a run that keep its options and do not unsettle it. *)
Definition gentle (f : Run → Run) : Prop :=
  ∀ r, r_options (f r) = r_options r ∧ (r_result (f r) = None → r_result r = None).

Lemma gentle_move k : gentle (move_to k).
Proof. by intros r. Qed.
Lemma gentle_aborted : gentle set_aborted.
Proof. by intros r. Qed.
Lemma gentle_settle_run o : gentle (settle_run o).
Proof. intros r. simpl. split; [done|]. by destruct (r_result r). Qed.
Lemma gentle_settle_once o : gentle (settle_once o).
Proof. intros r. unfold settle_once. destruct (settled r); [done|]. apply (gentle_settle_run o (mark_settled r)). Qed.
Lemma gentle_finish o : gentle (finish_run o).
Proof. intros r. unfold finish_run. destruct (r_viaQueue r); [apply gentle_settle_once|apply gentle_settle_run]. Qed.

#[local] Hint Resolve gentle_move gentle_aborted gentle_settle_run gentle_settle_once gentle_finish : runtime.

Lemma keyed_alter im x p p' f rid :
  gentle f → keyed_but im x p → idempotentRuns p' = idempotentRuns p →
  runs p' = alter f rid (runs p) → keyed_but im x p'.
Proof.
  intros Hf [K1 K2] Hi Hr. split; [congruence|]. intros y r k. rewrite Hr.
  destruct (decide (y = rid)) as [->|Hne]; [|rewrite list_lookup_alter_ne by done; apply K2].
  rewrite list_lookup_alter_eq. destruct (runs p !! rid) as [r0|] eqn:E; [|done]. simpl.
  intros [= <-] Hx Hres Hk. destruct (Hf r0) as [H1 H2].
  apply (K2 rid r0 k); auto. unfold run_key in *. by rewrite <- H1.
Qed.

Lemma keyed_same im x p p' :
  keyed_but im x p → idempotentRuns p' = idempotentRuns p → runs p' = runs p → keyed_but im x p'.
Proof. intros [K1 K2] H1 H2. split; [congruence|]. by rewrite H2. Qed.

Lemma keyed_update im x rid f p : gentle f → keyed_but im x p → keyed_but im x (update_run rid f p).
Proof. intros Hf K. by eapply keyed_alter. Qed.

Lemma keyed_goto im x rid k p : keyed_but im x p → keyed_but im x (goto rid k p).
Proof. intros K. by apply (keyed_alter im x p _ (move_to k) rid); auto with runtime. Qed.

#[local] Hint Resolve keyed_update keyed_goto : runtime.

Lemma keyed_rejectQueued im x e p : keyed_but im x p → keyed_but im x (rejectQueued e p).
Proof.
  intros K. unfold rejectQueued.
  assert (K1 : keyed_but im x (set_queue (λ _, []) p)) by (by eapply keyed_same).
  revert K1. generalize (set_queue (λ _, []) p) as p0. induction (queue p) as [|a l IH]; intros p0 K0; simpl; [done|].
  apply IH. unfold reject_waiting. auto with runtime.
Qed.

Lemma keeps_keyed_drain im x : keeps (keyed_but im x) drainQueue.
Proof.
  apply keeps_drain.
  - intros p p' (_ & _ & _ & _ & _ & S6 & _ & S8 & _) K. by eapply keyed_same.
  - intros p e. apply keyed_rejectQueued.
  - intros p rid rest r K _ _. unfold reject_waiting.
    apply keyed_update; [auto with runtime|]. apply keyed_goto. by eapply keyed_same.
  - intros p rid rest r ref K _ _ _ _. apply keyed_goto. by eapply keyed_same.
Qed.

Lemma keyed_runOnSlot im x ref rid n p : keyed_but im x p → keyed_but im x (runOnSlot ref rid n p).1.
Proof.
  intros K. unfold runOnSlot, mbind, M_bind, get. destruct (runs p !! rid) as [r|]; [|done].
  destruct (r_aborted r); simpl; apply keyed_goto; [done|]. by eapply keyed_same.
Qed.

Lemma keyed_add im r p p' :
  keyed_but im None p → idempotentRuns p' = idempotentRuns p → runs p' = runs p ++ [r] →
  keyed_but im (Some (length (runs p))) p'.
Proof.
  intros [K1 K2] Hi Hr. split; [congruence|]. intros y r' k. rewrite Hr. intros Hy Hne.
  apply lookup_app_Some in Hy as [Hy|[Hge Hy]]; [by apply K2|].
  destruct (y - length (runs p))%nat eqn:Ey; simpl in Hy; [|done]. destruct Hne. f_equal. lia.
Qed.

(** What [startRun] leaves for its caller to index. *)
Lemma keyed_startRun im j o p :
  keyed_but im None p →
  match startRun j o p with
  | (p', Ok (Accepted rid)) => keyed_but im (Some rid) p' ∧
      (∀ r, runs p' !! rid = Some r → run_key r = normalizeIdempotencyKey (idempotencyKey o))
  | (p', _) => keyed_but im None p'
  end.
Proof.
  intros K. unfold startRun. cbv zeta. unfold mbind at 1, M_bind at 1.
  pose proof (select_same j p) as (_ & _ & _ & _ & _ & S6 & _ & S8 & _).
  destruct (selectAvailableSlot j p) as [p1 [[[ref|] l]|e]]; simpl in S6, S8;
    assert (K1 : keyed_but im None p1) by (by eapply keyed_same); [| |done].
  - unfold mbind, M_bind, add_run. cbv beta iota.
    set (r := mkRun j o false false false PNew None). set (p2 := set_runs _ p1).
    pose proof (keyed_runOnSlot im (Some (length (runs p1))) ref (length (runs p1)) 1 p2) as H.
    specialize (H ltac:(by eapply (keyed_add im r p1))).
    assert (Hk : ∀ r', runs (runOnSlot ref (length (runs p1)) 1 p2).1 !! length (runs p1) = Some r' →
      run_key r' = normalizeIdempotencyKey (idempotencyKey o)).
    { unfold runOnSlot, mbind, M_bind, get. subst p2. simpl. rewrite list_lookup_middle by done. simpl.
      rewrite list_lookup_alter_eq, list_lookup_middle by done. by intros r' [= <-]. }
    by destruct (runOnSlot ref (length (runs p1)) 1 p2) as [p3 [u|e]] eqn:E3; [|unfold runOnSlot, mbind, M_bind, get in E3; repeat case_match].
  - pose proof (schedule_same l (retryPolicy (o_retry o) (poolRetry opts)) p1) as [(_ & _ & _ & _ & _ & T6 & _ & T8 & _) [u Hu]].
    unfold mbind at 1, M_bind at 1. destruct (scheduleCapacityDrain _ _ p1) as [p2 rr]. simpl in T6, T8, Hu. subst rr.
    assert (K2 : keyed_but im None p2) by (by eapply keyed_same).
    destruct (capacityUnavailableError _ _ _); [done|]. unfold mbind at 1, M_bind at 1, get.
    destruct (num_leb _ _); [done|]. unfold mbind, M_bind, add_run, modify. simpl.
    set (r := mkRun j o false true false PQueued None). set (p3 := set_queue _ _).
    set (Q := λ q : pool, keyed_but im (Some (length (runs p2))) q ∧
      ∀ r', runs q !! length (runs p2) = Some r' → run_key r' = normalizeIdempotencyKey (idempotencyKey o)).
    assert (HQ : keeps Q drainQueue).
    { assert (Hopt : ∀ f y q, gentle f → (∀ r', runs q !! length (runs p2) = Some r' → run_key r' = normalizeIdempotencyKey (idempotencyKey o)) →
        ∀ r', alter f y (runs q) !! length (runs p2) = Some r' → run_key r' = normalizeIdempotencyKey (idempotencyKey o)).
      { intros f y q Hf Hq r'. destruct (decide (length (runs p2) = y)) as [<-|Hne].
        - rewrite list_lookup_alter_eq. destruct (runs q !! _) as [r0|]; [|done]. simpl. intros [= <-].
          unfold run_key in *. rewrite (proj1 (Hf r0)). by apply Hq.
        - rewrite list_lookup_alter_ne by done. apply Hq. }
      apply keeps_drain.
      - intros q q' (_ & _ & _ & _ & _ & U6 & _ & U8 & _) [Q1 Q2]. split; [by eapply keyed_same|by rewrite U6].
      - intros q e [Q1 Q2]. split; [by apply keyed_rejectQueued|]. unfold rejectQueued.
        revert Q2. change (runs q) with (runs (set_queue (λ _, []) q)). generalize (set_queue (λ _, []) q) as q0.
        induction (queue q) as [|a l' IH]; intros q0 Q2; simpl; [done|]. apply IH.
        rewrite reject_waiting_runs. apply (Hopt (λ r0, settle_once (Rejected e) (move_to PDone r0))); [|done].
        intros r0. apply (gentle_settle_once (Rejected e) (move_to PDone r0)).
      - intros q y rest r0 [Q1 Q2] _ _. split.
        + unfold reject_waiting. apply keyed_update; [auto with runtime|]. apply keyed_goto. by eapply keyed_same.
        + rewrite reject_waiting_runs. apply (Hopt (λ r1, settle_once (Rejected runAbortedError) (move_to PDone r1)) y q); [|done].
          intros r1. apply (gentle_settle_once (Rejected runAbortedError) (move_to PDone r1)).
      - intros q y rest r0 ref [Q1 Q2] _ _ _ _. split; [apply keyed_goto; by eapply keyed_same|].
        apply (Hopt (move_to (POnSlot ref 1)) y q); auto with runtime. }
    assert (HQ3 : Q p3).
    { split; [by eapply (keyed_add im r p2)|]. intros r'. simpl. rewrite list_lookup_middle by done. by intros [= <-]. }
    pose proof (HQ p3 HQ3) as H. unfold drain_in_executor.
    destruct (drainQueue p3) as [p4 [v|e]]; [exact H|]. destruct H as [Q1 Q2].
    split; [by apply keyed_update; auto with runtime|]. intros r'. simpl. rewrite list_lookup_alter_eq.
    destruct (runs p4 !! length (runs p2)) as [r0|] eqn:E0; [|done]. intros [= <-]. exact (Q2 r0 eq_refl).
Qed.

Lemma keyed_run j o a p : keyed p → keyed (run j o a p).1.
Proof.
  intros K. unfold run.
  match goal with |- context [(assertRunnable ;; ?m) p] =>
    destruct (assertRunnable_bind m p) as [[-> _]|[e ->]]; [|done] end.
  unfold mbind at 1, M_bind at 1, get. destruct a; [done|].
  destruct (bool_decide _); [done|].
  destruct (normalizeIdempotencyKey (idempotencyKey o) ≫= map_get (idempotentRuns p)) as [rid|] eqn:El; [done|].
  pose proof (keyed_startRun _ j o p K) as H. unfold mbind, M_bind.
  destruct (startRun j o p) as [p2 [[rid|rid|e]|e]]; simpl.
  - destruct H as [[H1 H2] H3]. destruct (normalizeIdempotencyKey (idempotencyKey o)) as [k|] eqn:Ek; simpl.
    + split; [done|]. simpl. intros y r k' Hy _ Hres Hk. rewrite H1, map_get_set.
      destruct (decide (y = rid)) as [->|Hne].
      * rewrite (H3 r Hy) in Hk. injection Hk as ->. by rewrite decide_True.
      * rewrite decide_False; [apply (H2 y r k'); try done; congruence|]. intros <-.
        simpl in El. rewrite (H2 y r k) in El; try done. congruence.
    + split; [done|]. rewrite H1. intros y r k' Hy _ Hres Hk. destruct (decide (y = rid)) as [->|Hne].
      * rewrite (H3 r Hy) in Hk. done.
      * apply (H2 y r k'); try done. congruence.
  - destruct (normalizeIdempotencyKey _); simpl; unfold keyed; by rewrite (proj1 H).
  - destruct (normalizeIdempotencyKey _); simpl; unfold keyed; by rewrite (proj1 H).
  - unfold keyed. by rewrite (proj1 H).
Qed.

(** An operation that only updates runs gently. *)
Lemma keyed_via p p' : keyed p → keyed_but (idempotentRuns p) None p' → keyed p'.
Proof. intros _ K. unfold keyed. by rewrite (proj1 K). Qed.

Lemma keyed_drain p : keyed p → keyed (drainQueue p).1.
Proof. intros K. apply (keyed_via p); [done|]. by apply keeps_elim; [apply keeps_keyed_drain|]. Qed.

Lemma keyed_like p p' : keyed p → idempotentRuns p' = idempotentRuns p → runs p' = runs p → keyed p'.
Proof. intros K H1 H2. apply (keyed_via p); [done|]. by eapply keyed_same. Qed.

Lemma keyed_finish im x rid o p : keyed_but im x p → keyed_but im x (finish rid o p).
Proof. intros K. unfold finish. auto with runtime. Qed.

Lemma keyed_retry im rid ref n r e p :
  keyed_but im None p → keyed_but im None (retry_or_fail rid ref n r e p).1.
Proof.
  intros K. unfold retry_or_fail, mbind, M_bind.
  destruct (should_retry_spec ref r n p) as (b & p1 & -> & (_ & _ & _ & _ & _ & S6 & _ & S8 & _) & _).
  assert (K1 : keyed_but im None p1) by (by eapply keyed_same). destruct b; simpl; [|by apply keyed_finish].
  unfold retry_elsewhere. pose proof (select_same (job r) p1) as (_ & _ & _ & _ & _ & T6 & _ & T8 & _).
  destruct (selectAvailableSlot (job r) p1) as [p2 [[[ref'|] l]|e']]; simpl in T6, T8;
    assert (K2 : keyed_but im None p2) by (by eapply keyed_same); [| |by apply keyed_finish].
  - apply (keyed_runOnSlot im None ref' rid (n + 1) (emit EvSlotRetry p2)). by eapply keyed_same.
  - pose proof (schedule_same l (run_policy r) p2) as [(_ & _ & _ & _ & _ & U6 & _ & U8 & _) [u Hu]].
    unfold mbind, M_bind. destruct (scheduleCapacityDrain _ _ p2) as [p3 rr]. simpl in U6, U8, Hu. subst rr.
    simpl. apply keyed_finish. by eapply keyed_same.
Qed.

Lemma keyed_drain_and_finish i r p : keyed p → keyed (drain_and_finish i r p).
Proof.
  intros K. unfold drain_and_finish. pose proof (keyed_drain p K) as H.
  destruct (drainQueue p) as [p' [u|e]]; by eapply keyed_like.
Qed.

Lemma keyed_cleanup rid p : keyed p → keyed (cleanup rid p).
Proof.
  intros K. unfold cleanup. destruct (runs p !! rid) as [r|] eqn:Hr; [|done].
  destruct (r_result r) as [o|] eqn:Hres; [|done].
  destruct (normalizeIdempotencyKey _) as [k|] eqn:Ek; [|done].
  case_bool_decide as Hk; [|done]. split; [done|]. simpl. intros y r' k' Hy _ Hres' Hk'.
  pose proof (proj2 K y r' k' Hy ltac:(done) Hres' Hk') as Hy'.
  destruct (decide (k = k')) as [<-|Hne]; [|by rewrite map_get_delete_ne]. congruence.
Qed.

Lemma keyed_start_catch i e p : keyed p → keyed (start_catch i e p).
Proof. intros K. unfold start_catch. case_match; by apply (keyed_like p). Qed.

Lemma keyed_start_from i k ok p : keyed p → keyed (start_from i k ok p).
Proof.
  intros K. unfold start_from, createSlot, start_started.
  repeat (case_match; simpl; try (by apply keyed_start_catch); try (by apply (keyed_like p))).
Qed.

Lemma keyed_step e p : keyed p → keyed (step e p).
Proof.
  intros K. destruct e as [ok| |j o a|rid|rid o|rid|rid|rid| |i ok|x|i w ok]; simpl.
  - unfold start, start_from, createSlot, start_catch, start_started, mbind, M_bind, get.
    destruct (poolState p); simpl; repeat case_match; try done; by eapply keyed_like.
  - unfold prewarm. match goal with |- context [(assertRunnable ;; ?m) p] =>
      destruct (assertRunnable_bind m p) as [[-> _]|[e ->]]; [|done] end. by eapply keyed_like.
  - by apply keyed_run.
  - unfold abort. destruct (runs p !! rid) as [r|]; [|done]. cbv zeta. apply (keyed_via p); [done|].
    destruct (_ && _); [|auto with runtime]. apply keyed_update; [auto with runtime|].
    destruct (at_ r); try apply keyed_goto; (eapply keyed_same; [by apply (keyed_update _ _ rid _ p gentle_aborted)|done|done]).
  - unfold worker_settled. destruct (runs p !! rid) as [[? ? ? ? ? [] ?]|]; try done.
    apply (keyed_via p); [done|]. destruct o; apply keyed_goto; by eapply keyed_same.
  - unfold run_finally. destruct (runs p !! rid) as [[? ? ? ? ? [] ?]|]; try done. cbv zeta.
    set (p1 := goto rid _ _). assert (K1 : keyed_but (idempotentRuns p) None p1).
    { apply keyed_goto. by eapply keyed_same. }
    pose proof (keeps_keyed_drain _ _ p1 K1) as H. apply (keyed_via p); [done|].
    destruct (drainQueue p1) as [p2 [u|e]]; [done|]. by apply keyed_goto.
  - unfold run_resume. destruct (runs p !! rid) as [r|]; [|done]. apply (keyed_via p); [done|].
    destruct (at_ r) as [ | | | |ref n [x|e]|]; try done; [by apply keyed_finish|by apply keyed_retry].
  - by apply keyed_cleanup.
  - unfold timer_fires. destruct (cooldownDrainTimer p); [|done]. apply keyed_drain. by eapply keyed_like.
  - unfold restartSlot. match goal with |- context [(assertRunnable ;; ?m) p] =>
      destruct (assertRunnable_bind m p) as [[-> _]|[e ->]]; [|done] end.
    unfold_M. destruct (slot_at p i) as [ref|]; [|done]. destruct (heap p !! ref) as [s|]; [|done].
    destruct (busy s); [done|]. destruct ok; by eapply keyed_like.
  - unfold dispose. case_bool_decide; [done|]. cbv zeta. destruct (_ && _); [by eapply keyed_like|].
    apply (keyed_via p); [done|].
    assert (K1 : keyed_but (idempotentRuns p) None (clearCooldownDrainTimer (set_state Draining p))).
    { by eapply keyed_same. }
    exact (keyed_same _ _ _ _ (keyed_rejectQueued _ _ _ _ K1) eq_refl eq_refl).
  - unfold proc_step. destruct (procs p !! i) as [k|]; [|done].
    assert (Hd : keyed (set_proc i DisposeAll (dispose_slots p))).
    { apply (keyed_via p); [done|].
      exact (keyed_same _ _ _ _ (keyed_rejectQueued _ _ _ _ K) eq_refl eq_refl). }
    destruct k, w; try done; try (by apply (keyed_like p));
      try (by apply keyed_drain_and_finish, (keyed_like p));
      try (by apply keyed_start_from, (keyed_like p)); try (by apply keyed_start_catch);
      try (destruct (slots p); [apply (keyed_via p); [done|];
             exact (keyed_same _ _ _ _ (keyed_rejectQueued _ _ _ _ K) eq_refl eq_refl)
          |by apply keyed_drain_and_finish]).
    by case_match.
Qed.

(** idempotent runs are single-flight. In every history, while a run with
    an idempotency key has not settled, a call with the same key (after
    trimming) that the pool accepts at all joins that run and changes nothing;
    so no two unsettled runs share a key. *)
Theorem idempotent_single_flight es rid r k :
  let p := steps es fresh_pool in
  runs p !! rid = Some r → r_result r = None → run_key r = Some k →
  (∀ j o, normalizeIdempotencyKey (idempotencyKey o) = Some k →
     poolState p ≠ Disposed_ → poolState p ≠ Draining → slots p ≠ [] →
     run j o false p = (p, Ok (Joined rid))) ∧
  (∀ rid' r', runs p !! rid' = Some r' → r_result r' = None → run_key r' = Some k → rid' = rid).
Proof.
  intros p Hr Hres Hk.
  assert (K : keyed p).
  { subst p. assert (keyed fresh_pool) as H by done. revert H. clear. generalize fresh_pool as p.
    induction es as [|e es IH]; intros p H; simpl; [done|]. by apply IH, keyed_step. }
  pose proof (proj2 K rid r k Hr ltac:(done) Hres Hk) as Hin. split.
  - intros j o Ho H1 H2 H3. unfold run. unfold mbind at 1, M_bind at 1.
    rewrite assertRunnable_ok by done. unfold mbind at 1, M_bind at 1, get.
    rewrite bool_decide_eq_false_2 by done. rewrite Ho. simpl. by rewrite Hin.
  - intros rid' r' Hr' Hres' Hk'. pose proof (proj2 K rid' r' k Hr' ltac:(done) Hres' Hk'). congruence.
Qed.

(** ** No lost wake-up *)

Lemma timer_reject e p : timer_ok p → timer_ok (rejectQueued e p).
Proof.
  unfold rejectQueued. intros H. assert (H0 : timer_ok (set_queue (λ _, []) p)) by done. revert H0.
  generalize (set_queue (λ _, []) p) as p0. induction (queue p) as [|a l IH]; intros p0 H0; simpl; [done|].
  by apply IH.
Qed.

Lemma keeps_timer_drain : keeps timer_ok drainQueue.
Proof.
  apply keeps_drain; try done.
  - intros p p' (_ & _ & _ & _ & _ & _ & _ & _ & H). exact H.
  - intros p e. apply timer_reject.
Qed.

Lemma timer_runOnSlot ref rid n p : timer_ok p → timer_ok (runOnSlot ref rid n p).1.
Proof. intros H. unfold runOnSlot, mbind, M_bind, get. destruct (runs p !! rid) as [r|]; [destruct (r_aborted r)|]; done. Qed.

Lemma timer_startRun j o p : timer_ok p → timer_ok (startRun j o p).1.
Proof.
  intros H. unfold startRun. cbv zeta. unfold mbind at 1, M_bind at 1.
  pose proof (select_same j p) as (_ & _ & _ & _ & _ & _ & _ & _ & S9).
  destruct (selectAvailableSlot j p) as [p1 [[[ref|] l]|e]]; simpl in S9; specialize (S9 H); [| |done].
  - unfold mbind, M_bind, add_run. cbv beta iota.
    pose proof (timer_runOnSlot ref (length (runs p1)) 1 (set_runs (λ l0, l0 ++ [mkRun j o false false false PNew None]) p1) S9) as H2.
    by destruct (runOnSlot _ _ _ _) as [p2 [u|e]].
  - pose proof (schedule_same l (retryPolicy (o_retry o) (poolRetry opts)) p1) as [(_ & _ & _ & _ & _ & _ & _ & _ & T9) [u Hu]].
    unfold mbind at 1, M_bind at 1. destruct (scheduleCapacityDrain _ _ p1) as [p2 rr]. simpl in T9, Hu. subst rr.
    specialize (T9 S9). destruct (capacityUnavailableError _ _ _); [done|]. unfold mbind at 1, M_bind at 1, get.
    destruct (num_leb _ _); [done|]. unfold mbind, M_bind, add_run, modify. simpl. set (p3 := set_queue _ _).
    pose proof (keeps_timer_drain p3 T9) as H4. unfold drain_in_executor.
    by destruct (drainQueue p3) as [p4 [v|e]].
Qed.

Lemma timer_retry rid ref n r e p : timer_ok p → timer_ok (retry_or_fail rid ref n r e p).1.
Proof.
  intros H. unfold retry_or_fail, mbind, M_bind.
  destruct (should_retry_spec ref r n p) as (b & p1 & -> & (_ & _ & _ & _ & _ & _ & _ & _ & S9) & _).
  specialize (S9 H). destruct b; simpl; [|done].
  unfold retry_elsewhere. pose proof (select_same (job r) p1) as (_ & _ & _ & _ & _ & _ & _ & _ & T9).
  destruct (selectAvailableSlot (job r) p1) as [p2 [[[ref'|] l]|e']]; simpl in T9; specialize (T9 S9); [| |done].
  - by apply (timer_runOnSlot ref' rid (n + 1) (emit EvSlotRetry p2)).
  - pose proof (schedule_same l (run_policy r) p2) as [(_ & _ & _ & _ & _ & _ & _ & _ & U9) [u Hu]].
    unfold mbind, M_bind. destruct (scheduleCapacityDrain _ _ p2) as [p3 rr]. simpl in U9, Hu. subst rr.
    simpl. by apply U9.
Qed.

Lemma timer_drain_and_finish i r p : timer_ok p → timer_ok (drain_and_finish i r p).
Proof.
  intros H. unfold drain_and_finish. pose proof (keeps_timer_drain p H) as H1.
  by destruct (drainQueue p) as [p' [u|e]].
Qed.

Lemma timer_step e p : timer_ok p → timer_ok (step e p).
Proof.
  intros H. destruct e as [ok| |j o a|rid|rid o|rid|rid|rid| |i ok|x|i w ok]; simpl.
  - unfold start, start_from, createSlot, start_catch, start_started, mbind, M_bind, get.
    destruct (poolState p); simpl; repeat case_match; done.
  - unfold prewarm. match goal with |- context [(assertRunnable ;; ?m) p] =>
      destruct (assertRunnable_bind m p) as [[-> _]|[e ->]]; done end.
  - unfold run. match goal with |- context [(assertRunnable ;; ?m) p] =>
      destruct (assertRunnable_bind m p) as [[-> _]|[e ->]]; [|done] end.
    unfold mbind at 1, M_bind at 1, get. destruct a; [done|].
    destruct (bool_decide _); [done|]. destruct (_ ≫= _) as [rid|]; [done|].
    pose proof (timer_startRun j o p H) as H1. unfold mbind, M_bind.
    destruct (startRun j o p) as [p2 [reply|e]]; simpl in *; [|done].
    by destruct (normalizeIdempotencyKey _), reply.
  - unfold abort. destruct (runs p !! rid) as [r|]; [|done]. cbv zeta. destruct (_ && _); [|done].
    by destruct (at_ r).
  - unfold worker_settled. destruct (runs p !! rid) as [[? ? ? ? ? [] ?]|]; try done. by destruct o.
  - unfold run_finally. destruct (runs p !! rid) as [[? ? ? ? ? [] ?]|]; try done. cbv zeta.
    set (p1 := goto rid _ _). pose proof (keeps_timer_drain p1 H) as H1.
    by destruct (drainQueue p1) as [p2 [u|e]].
  - unfold run_resume. destruct (runs p !! rid) as [r|]; [|done].
    destruct (at_ r) as [ | | | |ref n [x|e]|]; try done. by apply timer_retry.
  - unfold cleanup. by repeat case_match.
  - unfold timer_fires. destruct (cooldownDrainTimer p); [|done].
    apply keeps_elim; [apply keeps_timer_drain|]. split; by intros [].
  - unfold restartSlot. match goal with |- context [(assertRunnable ;; ?m) p] =>
      destruct (assertRunnable_bind m p) as [[-> _]|[e ->]]; [|done] end.
    unfold_M. destruct (slot_at p i) as [ref|]; [|done]. destruct (heap p !! ref) as [s|]; [|done].
    destruct (busy s); [done|]. by destruct ok.
  - unfold dispose. case_bool_decide; [done|]. cbv zeta.
    assert (Hc : timer_ok (clearCooldownDrainTimer (set_state Draining p))) by (split; by intros []).
    destruct (_ && _); [done|]. exact (timer_reject _ _ Hc).
  - unfold proc_step. destruct (procs p !! i) as [k|]; [|done].
    assert (Hd : timer_ok (dispose_slots p)) by exact (timer_reject _ _ H).
    destruct k, w; try done; try (by apply timer_drain_and_finish);
      try (unfold start_from, start_catch, start_started, createSlot; by repeat case_match);
      try (destruct (slots p); [exact (timer_reject _ _ H)|by apply timer_drain_and_finish]).
    all: by case_match.
Qed.

(** A resettable slot with a reset time gives the timer a time to fire. *)
Lemma nextCooldown_exists l :
  existsb (λ s, has_reset (sn_capacity s)) l = true → is_Some (nextCooldownDrainAt l).
Proof.
  unfold nextCooldownDrainAt. generalize (None : option num) as acc.
  assert (Hkeep : ∀ l acc, is_Some acc → is_Some (foldl (λ nextAt s,
    if negb (isResettableCapacity (sn_capacity s)) then nextAt
    else match cooldownUntil (sn_capacity s) with
         | None => nextAt
         | Some d => match nextAt with
                     | None => Some (getTime d)
                     | Some n => Some (num_min n (getTime d))
                     end
         end) acc l)).
  { clear l. induction l as [|x l IH]; intros acc Ha; simpl; [done|]. apply IH.
    destruct (negb _); [done|]. destruct (cooldownUntil _); [|done]. destruct acc; by eexists. }
  induction l as [|x l IH]; intros acc; simpl; [done|]. intros H.
  destruct (has_reset (sn_capacity x)) eqn:Ex; [|by apply IH].
  apply Hkeep. unfold has_reset in Ex. apply andb_true_iff in Ex as [-> Ex]. simpl.
  destruct (cooldownUntil _); [|done]. destruct acc; by eexists.
Qed.

Lemma schedule_arms l pol p :
  timer_ok p → existsb (λ s, has_reset (sn_capacity s)) l = true ∨
    (p_retry pol && existsb (λ s, isAuthBlockedCapacity (sn_capacity s)) l) = true →
  is_Some (cooldownDrainTimer (scheduleCapacityDrain l pol p).1).
Proof.
  intros Ht H. unfold scheduleCapacityDrain. unfold_M. cbv zeta.
  assert (Hd : ∃ d, next_drain_at l pol (getTime (v_now (oracle (tick p)))) = Some d).
  { unfold next_drain_at. cbv zeta. destruct H as [H%nextCooldown_exists| ->].
    - destruct H as [c ->]. destruct (_ && _); by eexists.
    - destruct (nextCooldownDrainAt l); by eexists. }
  destruct Hd as [d ->]. destruct (cooldownDrainAt p) as [c|] eqn:Ec; [|by eexists].
  destruct (num_leb c d); [|by eexists]. simpl. apply Ht. rewrite Ec. by eexists.
Qed.

Lemma not_runnable_unavailable v l :
  List.filter (runnable v) l = [] → existsb sn_busy l = false → l ≠ [] →
  List.filter (λ s, negb (bool_decide (availability (sn_capacity s) = Available))) l ≠ [].
Proof.
  destruct l as [|x l]; [done|]. simpl. intros Hr Hb _. apply orb_false_iff in Hb as [Hb _].
  revert Hr. unfold runnable at 1, runnableWorkerCapacity. rewrite Hb. simpl.
  by case_bool_decide.
Qed.

(** The state in which a drain stops with work left: a slot is in use, whose
    release drains again, or the timer is armed, or there is no slot at all. *)
Definition will_wake (p : pool) : Prop :=
  queue p = [] ∨ (∃ v, slotSnapshots v p = []) ∨ (∃ v, existsb sn_busy (slotSnapshots v p) = true) ∨
  is_Some (cooldownDrainTimer p).

Lemma drain_loop_wakes n p :
  excl p → timer_ok p → length (queue p) = n →
  match drain_loop n p with (p', Ok _) => will_wake p' | (_, Throw _) => True end.
Proof.
  revert p. induction n as [|n IH]; intros p E Ht Hn.
  { simpl. left. by apply nil_length_inv. }
  simpl. unfold mbind at 1, M_bind at 1, get.
  destruct (queue p) as [|rid rest] eqn:Eq; [done|].
  assert (∃ r, runs p !! rid = Some r ∧ waiting r = true) as (r & Hr & _).
  { apply (inv_queue _ (ex_inv _ E)). rewrite Eq. left. }
  rewrite Hr. unfold mbind at 1, M_bind at 1.
  pose proof (select_same (job r) p) as Hs. destruct (excl_select (job r) p E) as [E1 Hc].
  pose proof (select_none (job r) p) as Hnone. pose proof (select_snapshots (job r) p) as Hsn.
  destruct (selectAvailableSlot (job r) p) as [p1 [[[ref|] l]|e]]; simpl in Hs, Hc, E1, Hnone, Hsn; [| |done].
  - destruct Hs as (S1 & S2 & S3 & S4 & S5 & S6 & S7 & S8 & S9). specialize (S9 Ht).
    rewrite <- S3 in Eq. rewrite <- S6 in Hr. specialize (Hc ref l eq_refl).
    unfold mbind, M_bind, modify. cbv beta iota. simpl in Hn. destruct (r_aborted r) eqn:Ea.
    + apply IH; [|done|simpl; lia]. apply (excl_runs p1); try done.
      * eapply inv_drop; [apply E1|done..].
      * rewrite reject_waiting_runs. apply holds_sub_alter. intros r0 _. left. by rewrite holds_settle.
    + unfold runOnSlot, mbind, M_bind, get. simpl. rewrite Hr, Ea. unfold modify. apply IH; [|done|simpl; lia].
      apply (excl_take p1 _ rid ref (move_to (POnSlot ref 1))); try done.
      eapply inv_hand; [apply E1|done..].
  - pose proof (schedule_same l (run_policy r) p1) as [Hs2 [u Hu]].
    assert (Ht1 : timer_ok p1) by (destruct Hs as (_ & _ & _ & _ & _ & _ & _ & _ & S9); auto).
    pose proof (schedule_arms l (run_policy r) p1 Ht1) as Harm. unfold mbind, M_bind.
    destruct (scheduleCapacityDrain l (run_policy r) p1) as [p2 rr]. simpl in Hs2, Hu, Harm. subst rr.
    specialize (Hsn l None eq_refl). specialize (Hnone l E eq_refl). rewrite <- Hsn in Hnone.
    assert (Hl : l = slotSnapshots (oracle (tick p)) p2).
    { destruct Hs as (S1 & S2 & _), Hs2 as (T1 & T2 & _). rewrite Hsn. unfold slotSnapshots, sparse_snapshots, slot_snapshot.
      by rewrite T1, T2, S1, S2. }
    destruct (capacityUnavailableError _ _ _) as [e|] eqn:Ee; simpl.
    + left. unfold rejectQueued. by rewrite reject_all_queue.
    + right. destruct (decide (l = [])) as [Hnil|Hnil]; [left; exists (oracle (tick p)); congruence|right].
      revert Ee. unfold capacityUnavailableError.
      destruct (existsb sn_busy l) eqn:Eb; [intros _; left; exists (oracle (tick p)); congruence|].
      destruct (existsb (λ s, has_reset (sn_capacity s)) l) eqn:Er; [intros _; right; auto|].
      destruct (p_retry (run_policy r) && _) eqn:Ea; [intros _; right; auto|].
      pose proof (not_runnable_unavailable _ l Hnone Eb Hnil) as Hun. cbv zeta.
      by destruct (List.filter (λ s, negb _) l).
Qed.

(** no lost wake-up. In a calm history, when a drain returns with jobs
    still waiting, either the pool has no slots, or a slot is in use (its
    release drains the queue again), or the drain timer is armed. *)
Theorem no_lost_wakeup es p' :
  calm es fresh_pool → let p := steps es fresh_pool in
  poolState p ≠ Draining → poolState p ≠ Disposed_ → drainQueue p = (p', Ok tt) → will_wake p'.
Proof.
  intros Hc p Hd1 Hd2 Hdr. pose proof (excl_steps es _ excl_fresh Hc) as E. fold p in E.
  assert (Ht : timer_ok p).
  { subst p. assert (timer_ok fresh_pool) as H by (split; by intros []). revert H. clear.
    generalize fresh_pool as p. induction es as [|e es IH]; intros p H; simpl; [done|]. by apply IH, timer_step. }
  pose proof (drain_loop_wakes _ p E Ht eq_refl) as H.
  assert (drainQueue p = drain_loop (length (queue p)) p) as Heq.
  { unfold drainQueue, mbind, M_bind, get. by destruct (poolState p). }
  by rewrite <- Heq, Hdr in H.
Qed.
End Machine.

(** ** Two policies for expired limits *)

(** the pool's [normalizeCapacity] and the recovery policy's
    [normalizeWorkerCapacitySnapshot] agree on every capacity that is not a
    session invalidation. On a resettable capacity with that reason whose
    reset time has passed they differ: the pool lifts the limit and makes the
    slot available, the recovery policy keeps it. *)
Theorem pool_normalization_vs_policy c now :
  (has_reason session_invalid c = false →
     normalizeCapacity c now = normalizeWorkerCapacitySnapshot c now) ∧
  (has_reason session_invalid c = true → isResettableCapacity c = true →
   ∀ d, cooldownUntil c = Some d → date_ltb now d = false →
     availability (normalizeCapacity c now) = Available ∧
     normalizeWorkerCapacitySnapshot c now = c ∧ availability c ≠ Available).
Proof.
  unfold normalizeCapacity, normalizeWorkerCapacitySnapshot, isResettableWorkerCapacity, isResettableCapacity.
  split.
  - by intros ->.
  - intros -> Hr d -> Hd. rewrite Hr, Hd. simpl. split_and!; try done.
    intros Ha. by rewrite Ha in Hr.
Qed.

(** ** Concrete histories *)

Definition ex_opts (n : Z) : options :=
  mkOptions (Job := nat) (js "pool") (num_of_Z n) None None (Some (num_of_Z 4)) false (λ _ w, w) (λ _ _, false).

(** Every worker is available at every time. *)
Definition ex_oracle (_ : nat) : view := mkView (At 1000) (λ _, None) (λ _, false).

Definition ex_run (key : option jsstring) (j : nat) : event (Result := nat) :=
  ERun j (mkRunOptions key None) false.

(** Start three slots. *)
Definition ex_start : list (event (Job := nat) (Result := nat)) :=
  [EStart true; EProc 0 EndOk true; EProc 0 EndOk true; EProc 0 EndOk true].

Abbreviation ex_steps n es := (steps (ex_opts n) ex_oracle es fresh_pool).

Ltac solve_calm := repeat (split; [vm_compute; try (split; [done|constructor]); try done|]); try exact I.

Definition ex_busy_history : list (event (Job := nat) (Result := nat)) :=
  ex_start ++ [ex_run None 1; ex_run None 2; ex_run None 3; ex_run None 4; ex_run None 5;
               EWorker 0 (inl 10%nat); EFinally 0].

Lemma ex_calm : calm (ex_opts 3) ex_oracle ex_busy_history fresh_pool.
Proof. solve_calm. Qed.

(** Three slots, five jobs: the fourth takes over the slot of the first. *)
Lemma pool_slot_exclusive_witness :
  map holds (runs (ex_steps 3 ex_busy_history)) = [None; Some 1%nat; Some 2%nat; Some 0%nat; None] ∧
  ∀ rid rid' r r' ref, runs (ex_steps 3 ex_busy_history) !! rid = Some r →
    runs (ex_steps 3 ex_busy_history) !! rid' = Some r' →
    holds r = Some ref → holds r' = Some ref → rid = rid'.
Proof.
  split; [by vm_compute|].
  exact (proj1 (pool_slot_exclusive (ex_opts 3) ex_oracle ex_busy_history ex_calm)).
Defined.

Lemma drain_work_conserving_witness :
  ((∃ pre, queue (ex_steps 3 ex_busy_history) =
      pre ++ queue (drainQueue (ex_opts 3) ex_oracle (ex_steps 3 ex_busy_history)).1) ∨
    queue (drainQueue (ex_opts 3) ex_oracle (ex_steps 3 ex_busy_history)).1 = []).
Proof.
  refine (proj1 (drain_work_conserving (ex_opts 3) ex_oracle ex_busy_history _ ex_calm _ _ _)).
  - by vm_compute.
  - by vm_compute.
  - by vm_compute.
Defined.

Lemma no_lost_wakeup_witness :
  will_wake (drainQueue (ex_opts 3) ex_oracle (ex_steps 3 ex_busy_history)).1.
Proof.
  refine (no_lost_wakeup (ex_opts 3) ex_oracle ex_busy_history _ ex_calm _ _ _).
  - by vm_compute.
  - by vm_compute.
  - by vm_compute.
Defined.

(** Ten jobs on three slots and a queue of four. *)
Lemma pool_queue_bounded_witness :
  length (queue (ex_steps 3 (ex_start ++ map (ex_run None) (seq 0 10)))) = 4%nat ∧
  Z.of_nat (length (queue (ex_steps 3 (ex_start ++ map (ex_run None) (seq 0 10))))) ≤ 4.
Proof. split; [by vm_compute|]. apply (pool_queue_bounded (ex_opts 3) ex_oracle _ 4); [done|lia]. Defined.

Lemma idempotent_single_flight_witness :
  run (ex_opts 3) ex_oracle 7%nat (mkRunOptions (Some (js " key ")) None) false
    (ex_steps 3 (ex_start ++ [ex_run (Some (js "key")) 1])) =
  (ex_steps 3 (ex_start ++ [ex_run (Some (js "key")) 1]), Ok (Joined 0)).
Proof.
  refine (proj1 (idempotent_single_flight (ex_opts 3) ex_oracle (ex_start ++ [ex_run (Some (js "key")) 1])
    0 (mkRun 1%nat (mkRunOptions (Some (js "key")) None) false false false (POnSlot 0 1) None) (js "key")
    _ _ _) 7%nat (mkRunOptions (Some (js " key ")) None) _ _ _ _); by vm_compute.
Defined.

(** Restarting slot 0 fails. *)
Definition ex_failed_restart : list (event (Job := nat) (Result := nat)) :=
  ex_start ++ [ERestart 0 true; EProc 1 EndError true; EProc 1 EndOk true].

(** after a failed slot restart the pool double-books. The failed slot is
    spliced out of the array, so the remaining slots are no longer at their
    indices, and the selection, which looks the selected index up in the
    array, returns another slot without checking it: with three slots, two
    jobs submitted afterwards both run on the slot of index 2, and the slot of
    index 1 stays idle. *)
Theorem failed_restart_double_books :
  let p := ex_steps 3 (ex_failed_restart ++ [ex_run None 1; ex_run None 2]) in
  map holds (runs p) = [Some 2%nat; Some 2%nat] ∧
  slots p = [Some 1%nat; Some 2%nat] ∧ map index (heap p) = [0%nat; 1%nat; 2%nat; 0%nat] ∧
  map busy (heap p) = [true; false; true; false].
Proof. by vm_compute. Qed.

(** [prewarm] called while the pool starts fails, and [start] is called again:
    the array gets the slots of both starts. The account of the first slot of
    the second start is in cooldown. *)
Definition ex_two_starts : list (event (Job := nat) (Result := nat)) :=
  [EStart true; EProc 0 EndOk true; EPrewarm; EProc 1 EndError true; EStart true; EProc 2 EndOk true; EProc 0 EndOk true].
Definition ex_cooling (_ : nat) : view :=
  mkView (At 1000)
    (λ ref, if (ref =? 2)%nat then Some (mkSnapshot None Cooldown None (Some (At 9000)) None None None None) else None) (λ _, false).

(** a second start double-books. [start] is allowed in a failed pool, and a
    failed [prewarm] fails the pool without ending the start it overlapped or
    removing its slots; with no restart failed and no disposal, two jobs run on
    the slot of the second start, which is not even available. *)
Theorem second_start_double_books :
  let p := steps (ex_opts 2) ex_cooling (ex_two_starts ++ [ex_run None 1; ex_run None 2; ex_run None 3]) fresh_pool in
  map holds (runs p) = [Some 0%nat; Some 2%nat; Some 2%nat] ∧
  slots p = [Some 0%nat; Some 2%nat; Some 1%nat] ∧ map index (heap p) = [0%nat; 1%nat; 0%nat; 1%nat].
Proof. by vm_compute. Qed.

Definition ex_starving : list (event (Job := nat) (Result := nat)) :=
  [EStart true; EProc 0 EndOk true; EProc 0 EndOk true;
   ERestart 0 true; EProc 1 EndError true; EProc 1 EndOk true; ex_run None 1].

(** after a failed slot restart the pool can starve. With two slots, once
    the restart of slot 0 failed, a job is queued although the remaining slot
    is idle and available, no timer is armed, and no drain ever starts it. *)
Theorem failed_restart_starves :
  let p := ex_steps 2 ex_starving in
  queue p = [0%nat] ∧ map busy (heap p) = [true; false; false] ∧ slots p = [Some 1%nat] ∧
  cooldownDrainTimer p = None ∧
  queue (drainQueue (ex_opts 2) ex_oracle p).1 = [0%nat].
Proof. by vm_compute. Qed.

Definition ex_disposed : list (event (Job := nat) (Result := nat)) :=
  [EStart true; EProc 0 EndOk true; EDispose false; EProc 1 EndOk true].

(** disposing a pool while it starts does not stop the start. With two
    slots, [dispose] called after the first slot started completes and leaves
    the pool disposed; the pending start then adds the second slot, whose
    worker nobody disposes any more, and sets the state back to started. *)
Theorem dispose_during_start_resurrects :
  poolState (ex_steps 2 ex_disposed) = Disposed_ ∧
  procs (ex_steps 2 ex_disposed) !! 1%nat = Some (Finished (Ok tt)) ∧
  let p := ex_steps 2 (ex_disposed ++ [EProc 0 EndOk true]) in
  poolState p = Started ∧ slots p = [Some 1%nat].
Proof. by vm_compute. Qed.
End Pool.
