(* ===== verification/KeyedChild.v ===== *)
(** * The keyed-child ledger of project-control

    [src/worker-core/project-control/domain/keyed-child-launch.ts]: the pure
    aggregate that admits children under a reviewed authority, one at a time,
    from a finite list of slots, and records the dispatch intent of each.

    A ledger is an immutable value, so an operation returns the successor
    ledger or throws. Object identity appears where the source uses it: a
    ledger carries a token and the token of its predecessor, and the operations
    take the token of the object they create. SHA-256 is a parameter; a
    serialised snapshot is the snapshot value itself (the JSON text and its
    byte size are not modelled). *)

From Stdlib Require Import QArith Lqa.
From stdpp Require Import base numbers list option sets strings pretty.
From S2P Require Import Prelude Json.

#[local] Open Scope Z_scope.

Module KeyedChild.

Inductive Profile : Set := IsolatedWrite | ReadOnly.
Inductive State : Set :=
| Claimed | Materializing | Prepared | DispatchIntent | Submitted | Running
| StopRequested | Terminal | Uncertain.
Inductive Eligibility : Set := EligibleBeforeIntent | HeldAfterIntent | Ineligible.

#[global] Instance Profile_eq_dec : EqDecision Profile.
Proof. solve_decision. Defined.
#[global] Instance State_eq_dec : EqDecision State.
Proof. solve_decision. Defined.

Inductive LedgerError : Set :=
| invalid_text | invalid_digest | invalid_integer | invalid_sha | invalid_allowance
| duplicate_allocation | ambiguous_handle | stale_generation | deadline_expired
| generation_exhausted | key_conflict | occupied_error | allowance_exhausted
| foreign_scope | foreign_handle | foreign_slot | foreign_correlation
| incompatible_transition | terminal_child | intent_required | authority_required
| no_effect_proof_required | invalid_successor | invalid_binding | invalid_history
| invalid_intent | missing_intent | invalid_generation | impossible_generation
| noncanonical_snapshot.

Record Scope : Set := mkScope { projectId : jsstring; workstreamId : jsstring; controllerId : jsstring }.

Record Authority : Set := mkAuthority {
  scope : Scope; grantDigest : jsstring; reviewedSnapshotDigest : jsstring; accountId : jsstring;
  sourceSha : jsstring; artifactSha : jsstring; absoluteDeadline : num; maxGoalTurns : num;
  effectiveOptionDigest : jsstring }.

Record Allocation : Set := mkAllocation {
  slotId : jsstring; requestId : jsstring; operationId : jsstring; childHandle : jsstring;
  startId : jsstring; unitCorrelation : jsstring; profile : Profile }.

#[global] Instance Allocation_eq_dec : EqDecision Allocation.
Proof. solve_decision. Defined.

Record Request : Set := mkRequest { r_key : jsstring; r_task : jsstring; r_profile : Profile }.

Record Child : Set := mkChild {
  key : jsstring; task : jsstring; allocation : Allocation; keyDigest : jsstring;
  requestDigest : jsstring; promptDigest : jsstring; state : State; dispatchIntent : option Z }.

#[global] Instance Child_eq_dec : EqDecision Child.
Proof. solve_decision. Defined.

Record Correlation : Set := mkCorrelation {
  c_allocation : Allocation; c_authorityDigest : jsstring; c_keyDigest : jsstring;
  c_requestDigest : jsstring; c_promptDigest : jsstring; c_generation : Z }.

Record Observation : Set := mkObservation {
  correlation : Correlation; o_state : State; o_intent : option Z; eligibility : Eligibility }.

Record Ledger : Set := mkLedger {
  token : nat; previousToken : option nat; authority : Authority;
  slots : list Allocation; accepted : list Child; generation : Z }.

(** The persisted snapshot; its schema version is always 1. *)
Record Snapshot : Set := mkSnapshot {
  s_authorityDigest : jsstring; s_slots : list Allocation; s_generation : Z; s_accepted : list Child }.

#[global] Instance Snapshot_eq_dec : EqDecision Snapshot.
Proof. solve_decision. Defined.

(** ** Validation *)

Abbreviation res := (result LedgerError).

(** No unpaired surrogate. *)
Fixpoint well_formed (s : jsstring) : bool :=
  match s with
  | [] => true
  | c :: s' =>
      if (55296 <=? c)%N && (c <=? 56319)%N then
        match s' with
        | d :: s'' => if (56320 <=? d)%N && (d <=? 57343)%N then well_formed s'' else false
        | [] => false
        end
      else if (56320 <=? c)%N && (c <=? 57343)%N then false
      else well_formed s'
  end.

Definition text (v : jsstring) (limit : nat) : res unit :=
  guard (truthy v && (length v <=? limit)%nat && well_formed v) invalid_text.

Definition is_hex (c : N) : bool :=
  ((48 <=? c)%N && (c <=? 57)%N) || ((97 <=? c)%N && (c <=? 102)%N).

(** [/^[a-f0-9]{n}$/]. *)
Definition hex (n : nat) (v : jsstring) : bool := (length v =? n)%nat && forallb is_hex v.

Definition digest (v : jsstring) : res unit := guard (hex 64 v) invalid_digest.

Definition max_safe : Z := 9007199254740991.

Definition safe_integer (v : num) : bool :=
  is_integer v && num_leb (num_of_Z (- max_safe)) v && num_leb v (num_of_Z max_safe).

Definition integer (v : num) : res unit :=
  guard (safe_integer v && negb (num_ltb v (num_of_Z 1))) invalid_integer.

(** ** Canonical encodings: [JSON.stringify] of an array of strings and
    integers *)

Definition encode_key (s : Scope) (k : jsstring) : jsstring :=
  json_array [json_string (js "keyed-child-key"); js "1"; json_string (projectId s);
    json_string (workstreamId s); json_string (controllerId s); json_string k].

Definition encodeChildKey (s : Scope) (k : jsstring) : res jsstring :=
  for_each (λ id, text id 128) [projectId s; workstreamId s; controllerId s] ;;
  text k 128 ;;
  Ok (encode_key s k).

Section Ledger.
(** SHA-256 of the UTF-8 of a string, in hexadecimal. *)
Context (sha : jsstring → jsstring).

Definition authorityHash (a : Authority) : jsstring :=
  sha (json_array [json_string (js "keyed-child-authority"); js "1"; json_string (projectId (scope a));
    json_string (workstreamId (scope a)); json_string (controllerId (scope a));
    json_string (grantDigest a); json_string (reviewedSnapshotDigest a); json_string (accountId a);
    json_string (sourceSha a); json_string (artifactSha a); json_integer (absoluteDeadline a);
    json_integer (maxGoalTurns a); json_string (effectiveOptionDigest a)]).

Definition authorityDigest (l : Ledger) : jsstring := authorityHash (authority l).

Definition allocationCopy (a : Allocation) : res unit :=
  for_each (λ id, text id 128)
    [slotId a; requestId a; operationId a; childHandle a; startId a; unitCorrelation a].

Definition distinct (l : list jsstring) : bool := bool_decide (NoDup l).

Definition create (tok : nat) (a : Authority) (sl : list Allocation) : res Ledger :=
  encodeChildKey (scope a) (js "validation") ;;
  text (accountId a) 128 ;;
  for_each digest [grantDigest a; reviewedSnapshotDigest a; effectiveOptionDigest a] ;;
  guard (hex 40 (sourceSha a)) invalid_sha ;;
  guard (hex 40 (artifactSha a) || hex 64 (artifactSha a)) invalid_sha ;;
  integer (absoluteDeadline a) ;;
  integer (maxGoalTurns a) ;;
  guard ((1 <=? length sl)%nat && (length sl <=? 128)%nat) invalid_allowance ;;
  for_each allocationCopy sl ;;
  guard (distinct (map slotId sl) && distinct (map requestId sl) && distinct (map operationId sl) &&
         distinct (map childHandle sl) && distinct (map startId sl) && distinct (map unitCorrelation sl))
    duplicate_allocation ;;
  guard (distinct (concat (map (λ s, [operationId s; childHandle s]) sl))) ambiguous_handle ;;
  Ok (mkLedger tok None a sl [] 0).

Definition remainingAllowance (l : Ledger) : Z := Z.of_nat (length (slots l)) - Z.of_nat (length (accepted l)).

Definition occupied (l : Ledger) : bool :=
  existsb (λ c, negb (bool_decide (state c = Terminal))) (accepted l).

Definition snapshot (l : Ledger) : Snapshot :=
  mkSnapshot (authorityDigest l) (slots l) (generation l) (accepted l).

Definition assertSuccessor (l next : Ledger) : res unit :=
  guard (bool_decide (snapshot next = snapshot l) ||
         (bool_decide (previousToken next = Some (token l)) && (generation next =? generation l + 1)))
    invalid_successor.

(** ** Operations *)

Definition checkGeneration (l : Ledger) (expected : Z) : res unit :=
  guard (expected =? generation l) stale_generation.

Definition beforeDeadline (l : Ledger) (now : num) : res unit :=
  integer now ;; guard (negb (num_leb (absoluteDeadline (authority l)) now)) deadline_expired.

Definition successor (tok : nat) (l : Ledger) (children : list Child) : res Ledger :=
  guard (negb (generation l =? max_safe)) generation_exhausted ;;
  Ok (mkLedger tok (Some (token l)) (authority l) (slots l) children (generation l + 1)).

Definition find_key (l : list Child) (k : jsstring) : option Child :=
  List.find (λ c, js_eqb (key c) k) l.

Definition request_digest (t : jsstring) (p : Profile) : jsstring :=
  sha (json_array [json_string (js "keyed-child-request"); js "1"; json_string t;
    json_string match p with IsolatedWrite => js "isolated_write" | ReadOnly => js "read_only" end]).

(** The first slot of a profile that no accepted child uses. *)
Definition free_slot (sl : list Allocation) (children : list Child) (p : Profile) : option Allocation :=
  List.find (λ s, negb (bool_decide (slotId s ∈ map (λ c, slotId (allocation c)) children)) &&
                  bool_decide (profile s = p)) sl.

Definition new_child (a : Authority) (r : Request) (s : Allocation) : Child :=
  mkChild (r_key r) (r_task r) s (sha (encode_key (scope a) (r_key r)))
    (request_digest (r_task r) (r_profile r)) (sha (r_task r)) Claimed None.

Definition accept (tok : nat) (l : Ledger) (expected : Z) (r : Request) (now : num) : res Ledger :=
  checkGeneration l expected ;;
  encodeChildKey (scope (authority l)) (r_key r) ;;
  text (r_task r) 4000 ;;
  match find_key (accepted l) (r_key r) with
  | Some prior =>
      guard (js_eqb (task prior) (r_task r) && bool_decide (profile (allocation prior) = r_profile r))
        key_conflict ;;
      Ok l
  | None =>
      beforeDeadline l now ;;
      guard (negb (occupied l)) occupied_error ;;
      match free_slot (slots l) (accepted l) (r_profile r) with
      | None => Throw allowance_exhausted
      | Some s => successor tok l (accepted l ++ [new_child (authority l) r s])
      end
  end.

Definition observation (l : Ledger) (c : Child) : Observation :=
  mkObservation
    (mkCorrelation (allocation c) (authorityDigest l) (keyDigest c) (requestDigest c)
       (promptDigest c) (generation l))
    (state c) (dispatchIntent c)
    match dispatchIntent c with
    | Some _ => HeldAfterIntent
    | None => if bool_decide (state c = Prepared) then EligibleBeforeIntent else Ineligible
    end.

Definition observe (l : Ledger) (s : Scope) (handle : jsstring) : res Observation :=
  let own := scope (authority l) in
  guard (js_eqb (projectId s) (projectId own) && js_eqb (workstreamId s) (workstreamId own) &&
         js_eqb (controllerId s) (controllerId own)) foreign_scope ;;
  text handle 128 ;;
  match List.find (λ c, js_eqb (childHandle (allocation c)) handle ||
                        js_eqb (operationId (allocation c)) handle) (accepted l) with
  | None => Throw foreign_handle
  | Some c => Ok (observation l c)
  end.

(** The position of the child a binding names, checked field by field. *)
Fixpoint find_slot (l : list Child) (s : jsstring) : option (nat * Child) :=
  match l with
  | [] => None
  | c :: l' => if js_eqb (slotId (allocation c)) s then Some (O, c)
               else (λ '(i, c), (S i, c)) <$> find_slot l' s
  end.

Definition correlated (l : Ledger) (b : Correlation) : res (nat * Child) :=
  checkGeneration l (c_generation b) ;;
  match find_slot (accepted l) (slotId (c_allocation b)) with
  | None => Throw foreign_slot
  | Some (i, c) =>
      guard (js_eqb (c_authorityDigest b) (authorityDigest l) && js_eqb (c_keyDigest b) (keyDigest c) &&
             js_eqb (c_requestDigest b) (requestDigest c) && js_eqb (c_promptDigest b) (promptDigest c) &&
             bool_decide (c_allocation b = allocation c)) foreign_correlation ;;
      Ok (i, c)
  end.

(** A child in another state; entering DispatchIntent records the generation. *)
Definition in_state (g : Z) (st : State) (c : Child) : Child :=
  mkChild (key c) (task c) (allocation c) (keyDigest c) (requestDigest c) (promptDigest c) st
    (if bool_decide (st = DispatchIntent) then Some g else dispatchIntent c).

Definition replace (tok : nat) (l : Ledger) (i : nat) (st : State) : res Ledger :=
  successor tok l (alter (in_state (generation l + 1) st) i (accepted l)).

Definition next_state (st : State) : option State :=
  match st with
  | Claimed => Some Materializing
  | Materializing => Some Prepared
  | Prepared => Some DispatchIntent
  | DispatchIntent => Some Submitted
  | Submitted => Some Running
  | _ => None
  end.

Definition advance (tok : nat) (l : Ledger) (b : Correlation) (st : State) (now : num) : res Ledger :=
  '(i, c) ← correlated l b;
  guard (bool_decide (next_state (state c) = Some st)) incompatible_transition ;;
  (if bool_decide (st = Submitted) || bool_decide (st = Running) then Ok tt else beforeDeadline l now) ;;
  replace tok l i st.

Definition markUncertain (tok : nat) (l : Ledger) (b : Correlation) : res Ledger :=
  '(i, c) ← correlated l b;
  match state c with
  | Terminal => Throw terminal_child
  | StopRequested | Uncertain => Ok l
  | _ => replace tok l i Uncertain
  end.

Definition stop (tok : nat) (l : Ledger) (b : Correlation) : res Ledger :=
  '(i, c) ← correlated l b;
  match state c with
  | Terminal | StopRequested => Ok l
  | _ => replace tok l i StopRequested
  end.

(** The receipt is opaque to the ledger but for its digest. *)
Definition terminalizeAfterIntent (tok : nat) (l : Ledger) (b : Correlation) (receiptDigest : option jsstring)
    : res Ledger :=
  '(i, c) ← correlated l b;
  guard (match dispatchIntent c with Some _ => true | None => false end) intent_required ;;
  guard (match receiptDigest with Some d => hex 64 d | None => false end) authority_required ;;
  match state c with Terminal => Ok l | _ => replace tok l i Terminal end.

Definition terminalizeBeforeIntent (tok : nat) (l : Ledger) (b : Correlation) (established : bool)
    (evidenceDigest : jsstring) : res Ledger :=
  '(i, c) ← correlated l b;
  guard (match dispatchIntent c with Some _ => false | None => established end) no_effect_proof_required ;;
  digest evidenceDigest ;;
  match state c with Terminal => Ok l | _ => replace tok l i Terminal end.

(** ** Restoring *)

(** The least number of generations a child in a state accounts for, before
    and after its dispatch intent. *)
Definition pre (st : State) : option Z :=
  match st with
  | Claimed => Some 1 | Materializing => Some 2 | Prepared => Some 3
  | Terminal | Uncertain | StopRequested => Some 2
  | _ => None
  end.

Definition post (st : State) : option Z :=
  match st with
  | DispatchIntent => Some 0 | Submitted => Some 1 | Running => Some 2
  | Uncertain | StopRequested | Terminal => Some 1
  | _ => None
  end.

(** The least generation after a row, given that of the rows before it. *)
Definition row_minimum (first : bool) (minimum : Z) (row : Child) : res Z :=
  match dispatchIntent row with
  | Some g =>
      integer (num_of_Z g) ;;
      match post (state row) with
      | None => Throw invalid_intent
      | Some k =>
          guard (negb (g <? minimum + 4) && negb (first && negb (g =? 4))) invalid_intent ;;
          Ok (g + k)
      end
  | None => match pre (state row) with
            | None => Throw missing_intent
            | Some k => Ok (minimum + k)
            end
  end.

(** One turn of the loop: replay the acceptance of the row. *)
Definition restore_row (trusted : Ledger) (children : list Child) (minimum : Z) (row : Child)
    : res (list Child * Z) :=
  let validation := mkLedger 0 None (authority trusted) (slots trusted) children minimum in
  validation' ← accept 0 validation minimum (mkRequest (key row) (task row) (profile (allocation row))) (num_of_Z 1);
  match last (accepted validation') with
  | None => Throw invalid_history
  | Some a =>
      guard (negb (existsb (λ c, js_eqb (key c) (key row)) children) &&
             bool_decide (allocation row = allocation a) && js_eqb (keyDigest row) (keyDigest a) &&
             js_eqb (requestDigest row) (requestDigest a) && js_eqb (promptDigest row) (promptDigest a))
        invalid_history ;;
      m ← row_minimum (match children with [] => true | _ => false end) minimum row;
      Ok (children ++ [mkChild (key a) (task a) (allocation a) (keyDigest a) (requestDigest a)
            (promptDigest a) (state row) (dispatchIntent row)], m)
  end.

Fixpoint restore_rows (trusted : Ledger) (children : list Child) (minimum : Z) (rows : list Child)
    : res (list Child * Z) :=
  match rows with
  | [] => Ok (children, minimum)
  | row :: rest =>
      '(children', minimum') ← restore_row trusted children minimum row;
      restore_rows trusted children' minimum' rest
  end.

(** The states whose last row fixes the generation exactly. *)
Definition exact_generation (children : list Child) : bool :=
  match last children with
  | None => false
  | Some c =>
      match dispatchIntent c, state c with
      | Some _, (DispatchIntent | Submitted | Running) => true
      | _, (Claimed | Materializing | Prepared) => (length children =? 1)%nat
      | _, _ => false
      end
  end.

(** The restoration of a snapshot that was read: the reading of its JSON text, and
    the refusal of a text over 4 MiB, come before and are not modelled. *)
Definition restore (tok : nat) (s : Snapshot) (trusted : Ledger) : res Ledger :=
  guard (js_eqb (s_authorityDigest s) (authorityDigest trusted) &&
         bool_decide (s_slots s = slots trusted) && (0 <=? s_generation s) && (s_generation s <=? max_safe) &&
         (length (s_accepted s) <=? length (slots trusted))%nat) invalid_binding ;;
  create 0 (authority trusted) (slots trusted) ;;
  '(children, minimum) ← restore_rows trusted [] 0 (s_accepted s);
  guard (negb (s_generation s <? minimum) &&
         negb (match children with [] => negb (s_generation s =? 0) | _ => false end)) invalid_generation ;;
  guard (negb (exact_generation children && negb (s_generation s =? minimum))) impossible_generation ;;
  let restored := mkLedger tok None (authority trusted) (slots trusted) children (s_generation s) in
  guard (bool_decide (snapshot restored = s)) noncanonical_snapshot ;;
  Ok restored.

(** ** Histories *)

Inductive op : Set :=
| OAccept (expected : Z) (r : Request) (now : num)
| OAdvance (b : Correlation) (st : State) (now : num)
| OUncertain (b : Correlation)
| OStop (b : Correlation)
| OTerminalAfter (b : Correlation) (receipt : option jsstring)
| OTerminalBefore (b : Correlation) (established : bool) (evidence : jsstring).

Definition exec (tok : nat) (l : Ledger) (o : op) : res Ledger :=
  match o with
  | OAccept e r now => accept tok l e r now
  | OAdvance b st now => advance tok l b st now
  | OUncertain b => markUncertain tok l b
  | OStop b => stop tok l b
  | OTerminalAfter b receipt => terminalizeAfterIntent tok l b receipt
  | OTerminalBefore b established evidence => terminalizeBeforeIntent tok l b established evidence
  end.

(** The ledgers that a history of operations can reach; a call that throws
    leaves the ledger as it was. *)
Inductive reaches : Ledger → Ledger → Prop :=
| reaches_refl l : reaches l l
| reaches_step tok l l' l'' o : exec tok l o = Ok l' → reaches l' l'' → reaches l l''.

(** ** Replaying a history

    [row_ok] is what the replay of one acceptance checks, apart from the
    generation arithmetic of [row_minimum]. *)

Definition new_row (a : Authority) (row : Child) : Child :=
  new_child a (mkRequest (key row) (task row) (profile (allocation row))) (allocation row).

Record row_ok (a : Authority) (sl : list Allocation) (children : list Child) (minimum : Z) (row : Child) : Prop := {
  row_terminal : Forall (λ c, state c = Terminal) children;
  row_key : find_key children (key row) = None;
  row_slot : free_slot sl children (profile (allocation row)) = Some (allocation row);
  row_task : text (task row) 4000 = Ok tt;
  row_encode : encodeChildKey (scope a) (key row) = Ok (encode_key (scope a) (key row));
  row_deadline : num_leb (absoluteDeadline a) (num_of_Z 1) = false;
  row_digests : keyDigest row = keyDigest (new_row a row) ∧ requestDigest row = requestDigest (new_row a row) ∧
                promptDigest row = promptDigest (new_row a row);
  row_room : minimum ≠ max_safe }.

Definition is_nil (l : list Child) : bool := match l with [] => true | _ => false end.

Lemma occupied_false l : occupied l = false ↔ Forall (λ c, state c = Terminal) (accepted l).
Proof.
  unfold occupied. induction (accepted l) as [|c cs IH]; simpl; [naive_solver|].
  rewrite orb_false_iff, IH, Forall_cons, negb_false_iff, bool_decide_eq_true. done.
Qed.

Lemma find_key_None ch k :
  find_key ch k = None ↔ existsb (λ c, js_eqb (key c) k) ch = false.
Proof.
  unfold find_key. induction ch as [|c ch IH]; simpl; [done|].
  destruct (js_eqb (key c) k); naive_solver.
Qed.

Lemma find_key_not_in ch k : find_key ch k = None ↔ k ∉ map key ch.
Proof.
  rewrite find_key_None. induction ch as [|c ch IH]; simpl; [set_solver|].
  rewrite orb_false_iff, IH, js_eqb_false, not_elem_of_cons. naive_solver.
Qed.

Lemma integer_Z z : 1 ≤ z ≤ max_safe → integer (num_of_Z z) = Ok tt.
Proof.
  intros H. unfold integer, safe_integer. rewrite is_integer_Z, !num_leb_Z, num_ltb_Z.
  apply guard_Ok. unfold max_safe in *. rewrite !andb_true_iff, negb_true_iff. lia.
Qed.

Lemma beforeDeadline_Ok l now u : beforeDeadline l now = Ok u →
  integer now = Ok tt ∧ num_leb (absoluteDeadline (authority l)) now = false.
Proof.
  unfold beforeDeadline. rewrite seq_Ok, guard_Ok. intros [? H]. by bools.
Qed.

(** A ledger whose deadline is later than some valid time accepts at time 1. *)
Lemma deadline_one l now u : beforeDeadline l now = Ok u → beforeDeadline l (num_of_Z 1) = Ok tt.
Proof.
  intros [Hi Hd]%beforeDeadline_Ok. unfold beforeDeadline.
  apply seq_Ok; split; [by apply integer_Z|]. apply guard_Ok, negb_true_iff.
  unfold integer, safe_integer in Hi. apply guard_Ok in Hi. bools.
  destruct now, (absoluteDeadline (authority l)) as [d| | |]; try done.
  apply num_leb_Fin_false in Hd. unfold num_of_Z. apply num_leb_Fin_false.
  match goal with H : num_ltb _ _ = false |- _ => apply num_ltb_Fin in H end. lra.
Qed.

(** What a successful call of [accept] did. *)
Lemma accept_inv tok l e r now l' :
  accept tok l e r now = Ok l' →
  e = generation l ∧ encodeChildKey (scope (authority l)) (r_key r) = Ok (encode_key (scope (authority l)) (r_key r)) ∧
  text (r_task r) 4000 = Ok tt ∧
  ((∃ c, find_key (accepted l) (r_key r) = Some c ∧ task c = r_task r ∧
         profile (allocation c) = r_profile r ∧ l' = l) ∨
   (find_key (accepted l) (r_key r) = None ∧ beforeDeadline l now = Ok tt ∧ occupied l = false ∧
    generation l ≠ max_safe ∧
    ∃ s, free_slot (slots l) (accepted l) (r_profile r) = Some s ∧
      l' = mkLedger tok (Some (token l)) (authority l) (slots l)
             (accepted l ++ [new_child (authority l) r s]) (generation l + 1))).
Proof.
  unfold accept, checkGeneration. intros H. binds H.
  assert (x = encode_key (scope (authority l)) (r_key r)) as ->.
  { revert K0. unfold encodeChildKey. rewrite !seq_Ok. naive_solver. }
  destruct (find_key _ _) as [c|] eqn:Ef; binds H; split_and!; try done; [left|right].
  - simplify_eq. by exists c.
  - split_and!; try done; destruct (free_slot _ _ _) as [s|] eqn:Es; try done;
      unfold successor in H; binds H; simplify_eq; eauto.
Qed.

Lemma accept_new tok l e r now s :
  e = generation l → encodeChildKey (scope (authority l)) (r_key r) = Ok (encode_key (scope (authority l)) (r_key r)) →
  text (r_task r) 4000 = Ok tt → find_key (accepted l) (r_key r) = None →
  beforeDeadline l now = Ok tt → occupied l = false → generation l ≠ max_safe →
  free_slot (slots l) (accepted l) (r_profile r) = Some s →
  accept tok l e r now = Ok (mkLedger tok (Some (token l)) (authority l) (slots l)
    (accepted l ++ [new_child (authority l) r s]) (generation l + 1)).
Proof.
  intros -> He Ht Hf Hd Ho Hg Hs. unfold accept, checkGeneration, successor.
  rewrite Z.eqb_refl, He, Ht, Hf, Hd, Ho, Hs.
  rewrite (proj2 (Z.eqb_neq _ _) Hg). done.
Qed.

(** The replay of a row succeeds exactly on a row that could have been
    accepted, and appends it. *)
Lemma restore_row_Ok t ch m row ch' m' :
  restore_row t ch m row = Ok (ch', m') ↔
  row_ok (authority t) (slots t) ch m row ∧ ch' = ch ++ [row] ∧ row_minimum (is_nil ch) m row = Ok m'.
Proof.
  unfold restore_row. split.
  - intros H. binds H. apply accept_inv in K as (_ & He & Ht & [(c & Hf & _ & _ & ->)|K]).
    { simpl in *. destruct (last ch) eqn:El; [|done]. binds H.
      apply find_key_None in H0. congruence. }
    destruct K as (Hf & Hd & Ho & Hg & s & Hs & ->). simpl in *.
    rewrite last_snoc in H. binds H. simplify_eq/=.
    apply occupied_false in Ho. apply beforeDeadline_Ok in Hd as [_ Hd]. simpl in *.
    split_and!; [|by destruct row; simplify_eq/=|done].
    by split.
  - intros ([Hter Hk Hs Ht He Hd (D1 & D2 & D3) Hr] & -> & Hm).
    erewrite accept_new; simpl; [|done..| | |done|done].
    + unfold mbind at 1, result_bind at 1; simpl. rewrite last_snoc.
      apply find_key_None in Hk. rewrite Hk. simpl in *.
      unfold new_row in *; simpl in *. rewrite D1, D2, D3, bool_decide_true, !js_eqb_refl by done. simpl.
      unfold is_nil in Hm. rewrite Hm. simpl. by destruct row; simplify_eq/=.
    + apply seq_Ok; split; [by apply integer_Z|]. simpl. by rewrite Hd.
    + by apply occupied_false.
Qed.

Lemma restore_rows_app t ch m rows row p :
  restore_rows t ch m (rows ++ [row]) = Ok p ↔
  ∃ ch' m', restore_rows t ch m rows = Ok (ch', m') ∧ restore_row t ch' m' row = Ok p.
Proof.
  revert ch m. induction rows as [|r rows IH]; intros ch m; simpl.
  - rewrite bind_Ok. split.
    + intros ([ch' m'] & H & ?). simplify_eq. by exists ch, m.
    + intros (? & ? & ? & ?). simplify_eq. eexists. split; [done|]. by destruct p.
  - rewrite bind_Ok. split.
    + intros ([ch' m'] & H & (x & y & ? & ?)%IH). exists x, y. split; [|done]. by rewrite H.
    + intros (x & y & ([ch' m'] & H & ?)%bind_Ok & ?). exists (ch', m'). split; [done|]. apply IH. eauto.
Qed.

Lemma restore_rows_children t ch m rows ch' m' :
  restore_rows t ch m rows = Ok (ch', m') → ch' = ch ++ rows.
Proof.
  revert ch m. induction rows as [|r rows IH]; simpl; intros ch m H; [simplify_eq; by rewrite app_nil_r|].
  apply bind_Ok in H as ([ch1 m1] & H1 & H). apply restore_row_Ok in H1 as (_ & -> & _).
  apply IH in H. by rewrite H, <- app_assoc.
Qed.

(** ** The invariant: a ledger that restoration would accept *)

Record valid (l : Ledger) : Prop := {
  v_create : ∃ tok, create tok (authority l) (slots l) = Ok (mkLedger tok None (authority l) (slots l) [] 0);
  v_rows : ∃ m, restore_rows l [] 0 (accepted l) = Ok (accepted l, m) ∧ 0 ≤ m ≤ generation l ∧
             (exact_generation (accepted l) = true → generation l = m);
  v_empty : accepted l = [] → generation l = 0;
  v_safe : generation l ≤ max_safe }.

Lemma create_inv tok a sl l : create tok a sl = Ok l →
  l = mkLedger tok None a sl [] 0 ∧ ∀ tok', create tok' a sl = Ok (mkLedger tok' None a sl [] 0).
Proof.
  unfold create. intros (x & K & H)%bind_Ok.
  repeat match type of H with mbind _ _ = Ok _ => apply seq_Ok in H as [? H] end.
  split; [congruence|]. intros tok'. apply bind_Ok. exists x. split; [done|].
  repeat (apply seq_Ok; split; [assumption|]). done.
Qed.

Lemma valid_create tok a sl l : create tok a sl = Ok l → valid l.
Proof.
  intros [-> Hc]%create_inv. split; simpl; [by exists tok| |done|done].
  exists 0. by split_and!.
Qed.

(** The state changes an operation other than [accept] can make. *)
Definition moves (st st' : State) : bool :=
  bool_decide (next_state st = Some st') ||
  match st' with
  | Uncertain => match st with Terminal | StopRequested | Uncertain => false | _ => true end
  | StopRequested => match st with Terminal | StopRequested => false | _ => true end
  | Terminal => negb (bool_decide (st = Terminal))
  | _ => false
  end.

Lemma find_slot_lookup ch s i c : find_slot ch s = Some (i, c) → ch !! i = Some c ∧ slotId (allocation c) = s.
Proof.
  revert i. induction ch as [|d ch IH]; intros i; simpl; [done|].
  destruct (js_eqb _ _) eqn:E; [bools; naive_solver|].
  intros ([j d'] & Hj & ?)%fmap_Some. simplify_eq. by apply IH.
Qed.

Lemma correlated_inv l b i c : correlated l b = Ok (i, c) →
  c_generation b = generation l ∧ accepted l !! i = Some c ∧ c_allocation b = allocation c ∧
  c_authorityDigest b = authorityDigest l.
Proof.
  unfold correlated, checkGeneration. intros H. binds H. destruct (find_slot _ _) as [[j d]|] eqn:E; [|done].
  apply find_slot_lookup in E as [? ?]. binds H. naive_solver.
Qed.

(** Every operation either returns the ledger itself, appends one accepted
    child, or moves one child to a successor state. *)
Inductive effect (tok : nat) (l : Ledger) : Ledger → Prop :=
| effect_none : effect tok l l
| effect_accept r s now :
    find_key (accepted l) (r_key r) = None → occupied l = false → beforeDeadline l now = Ok tt →
    free_slot (slots l) (accepted l) (r_profile r) = Some s → generation l ≠ max_safe →
    encodeChildKey (scope (authority l)) (r_key r) = Ok (encode_key (scope (authority l)) (r_key r)) →
    text (r_task r) 4000 = Ok tt →
    effect tok l (mkLedger tok (Some (token l)) (authority l) (slots l)
                    (accepted l ++ [new_child (authority l) r s]) (generation l + 1))
| effect_move i c st :
    accepted l !! i = Some c → moves (state c) st = true → generation l ≠ max_safe →
    effect tok l (mkLedger tok (Some (token l)) (authority l) (slots l)
                    (alter (in_state (generation l + 1) st) i (accepted l)) (generation l + 1)).

Lemma replace_effect tok l i c st l' :
  accepted l !! i = Some c → moves (state c) st = true → replace tok l i st = Ok l' → effect tok l l'.
Proof.
  intros Hi Hm H. unfold replace, successor in H. binds H. simplify_eq. by eapply effect_move.
Qed.

Definition op_generation (o : op) : Z :=
  match o with
  | OAccept e _ _ => e
  | OAdvance b _ _ | OUncertain b | OStop b | OTerminalAfter b _ | OTerminalBefore b _ _ => c_generation b
  end.

Lemma exec_effect tok l o l' : exec tok l o = Ok l' → effect tok l l' ∧ op_generation o = generation l.
Proof.
  destruct o; simpl; intros H.
  { apply accept_inv in H as (-> & He & Ht & [(c & _ & _ & _ & ->)|(Hf & Hd & Ho & Hg & s & Hs & ->)]).
    - split; [constructor|done].
    - split; [by econstructor|done]. }
  all: first [unfold advance in H | unfold markUncertain in H | unfold stop in H
             | unfold terminalizeAfterIntent in H | unfold terminalizeBeforeIntent in H].
  all: apply bind_Ok in H as ([i c] & Hc & H).
  all: apply correlated_inv in Hc as (-> & Hi & _); split; [|done]; binds H.
  all: try (eapply replace_effect; [done| |done]; unfold moves; by rewrite bool_decide_true).
  all: destruct (state c) eqn:Es; simplify_eq; try constructor.
  all: eapply replace_effect; [done| |done]; by rewrite Es.
Qed.

Lemma restore_rows_ext t t' ch m rows : authority t = authority t' → slots t = slots t' →
  restore_rows t ch m rows = restore_rows t' ch m rows.
Proof.
  intros Ha Hs. revert ch m. induction rows as [|r rows IH]; intros ch m; simpl; [done|].
  assert (restore_row t ch m r = restore_row t' ch m r) as -> by (unfold restore_row; by rewrite Ha, Hs).
  destruct (restore_row t' ch m r) as [[ch' m']|]; [apply IH|done].
Qed.

Lemma restore_rows_snoc t ch c m :
  restore_rows t [] 0 (ch ++ [c]) = Ok (ch ++ [c], m) ↔
  ∃ m0, restore_rows t [] 0 ch = Ok (ch, m0) ∧ row_ok (authority t) (slots t) ch m0 c ∧
    row_minimum (is_nil ch) m0 c = Ok m.
Proof.
  rewrite restore_rows_app. setoid_rewrite restore_row_Ok. split.
  - intros (ch' & m' & H & ? & ? & ?). pose proof (restore_rows_children _ _ _ _ _ _ H). simplify_eq/=. eauto.
  - intros (m0 & ? & ? & ?). by exists ch, m0.
Qed.

Lemma row_minimum_lt f m c m' : row_minimum f m c = Ok m' → m < m'.
Proof.
  unfold row_minimum. destruct (dispatchIntent c) as [g|], (state c); simpl; intros H; binds H; simplify_eq; try lia.
Qed.

Lemma restore_rows_minimum t ch m : restore_rows t [] 0 ch = Ok (ch, m) →
  0 ≤ m ∧ (is_nil ch = true → m = 0).
Proof.
  revert m. induction ch as [|c ch IH] using rev_ind; intros m H; simpl in *; [by simplify_eq|].
  apply restore_rows_snoc in H as (m0 & H & _ & Hm). apply IH in H as [? _].
  apply row_minimum_lt in Hm. split; [lia|]. by destruct ch.
Qed.

Lemma exact_generation_snoc ch c :
  exact_generation (ch ++ [c]) =
  match dispatchIntent c, state c with
  | Some _, (DispatchIntent | Submitted | Running) => true
  | _, (Claimed | Materializing | Prepared) => is_nil ch
  | _, _ => false
  end.
Proof.
  unfold exact_generation. rewrite last_snoc.
  replace (length (ch ++ [c]) =? 1)%nat with (is_nil ch); [done|].
  destruct ch; [done|]. simpl. rewrite length_app. simpl.
  symmetry. apply Nat.eqb_neq. lia.
Qed.

(** The generation arithmetic of one move of the last child. *)
Lemma row_minimum_move ch m0 c m g st :
  row_minimum (is_nil ch) m0 c = Ok m → 0 ≤ m0 → m ≤ g → g < max_safe → (is_nil ch = true → m0 = 0) →
  (exact_generation (ch ++ [c]) = true → g = m) → moves (state c) st = true →
  ∃ m', row_minimum (is_nil ch) m0 (in_state (g + 1) st c) = Ok m' ∧ 0 ≤ m' ≤ g + 1 ∧
    (exact_generation (ch ++ [in_state (g + 1) st c]) = true → g + 1 = m').
Proof.
  intros Hm H0 Hg Hs Hn Hx Hmv. rewrite exact_generation_snoc in *.
  unfold row_minimum in *. destruct c as [k t al kd rd pd s di]; simpl in *.
  destruct s, st; try discriminate Hmv; destruct di as [d|]; simpl in Hm; binds Hm; try discriminate; simplify_eq;
    simpl in *; try (eexists; split; [reflexivity|]; split; [lia|]; intros; naive_solver lia).
  all: try (rewrite integer_Z by lia).
  all: destruct (is_nil ch); simpl in *; try specialize (Hn eq_refl); try specialize (Hx eq_refl).
  all: try (rewrite K; simpl).
  all: repeat match goal with |- context [(?a <? ?b)%Z] => destruct (Z.ltb_spec a b); simpl; [lia|]
         | |- context [(?a =? ?b)%Z] => destruct (Z.eqb_spec a b); simpl; [|lia] end.
  all: eexists; split; [reflexivity|]; split; [lia|]; intros; try done; lia.
Qed.

Lemma moves_Terminal st : moves Terminal st = false.
Proof. by destruct st. Qed.

(** Only the last child of a valid ledger can still move. *)
Lemma live_is_last l i c : valid l → accepted l !! i = Some c → state c ≠ Terminal →
  ∃ ch, accepted l = ch ++ [c] ∧ i = length ch.
Proof.
  intros [_ (m & Hr & _) _ _] Hi Hc. destruct (accepted l) as [|d ch _] eqn:E using rev_ind; [done|].
  apply restore_rows_snoc in Hr as (m0 & _ & Hok & _). exists ch.
  apply lookup_app_Some in Hi as [Hi|[Hlen Hi]].
  - destruct Hc. exact (Forall_lookup_1 _ _ _ _ (row_terminal _ _ _ _ _ Hok) Hi).
  - apply list_lookup_singleton_Some in Hi as [? ->]. split; [done|lia].
Qed.

Lemma row_ok_in_state a sl ch m c g st : row_ok a sl ch m c → row_ok a sl ch m (in_state g st c).
Proof. by intros [? ? ? ? ? ? ? ?]; split. Qed.

Lemma row_ok_new l r s m now :
  find_key (accepted l) (r_key r) = None → occupied l = false → beforeDeadline l now = Ok tt →
  free_slot (slots l) (accepted l) (r_profile r) = Some s →
  encodeChildKey (scope (authority l)) (r_key r) = Ok (encode_key (scope (authority l)) (r_key r)) →
  text (r_task r) 4000 = Ok tt → m ≠ max_safe →
  row_ok (authority l) (slots l) (accepted l) m (new_child (authority l) r s).
Proof.
  intros Hk Ho Hd Hs He Ht Hm.
  assert (profile s = r_profile r) as Hp.
  { apply find_some in Hs as [_ Hs]. by bools. }
  apply deadline_one, beforeDeadline_Ok in Hd as [_ Hd].
  split; simpl; try done; [by apply occupied_false|by rewrite Hp|].
  unfold new_row; simpl. by rewrite Hp.
Qed.

Lemma valid_effect tok l l' : effect tok l l' → valid l → valid l'.
Proof.
  intros Heff Hv. pose proof Hv as [Hcr (m & Hr & Hm & Hx) Hempty Hsafe].
  destruct Heff as [|r s now Hk Ho Hd Hs Hg He Ht|i c st Hi Hmv Hg]; [done| |].
  - split; simpl; [done| | |lia].
    2: by intros [_ ?]%app_eq_nil.
    exists (m + 1). split_and!; [|lia..|].
    + apply restore_rows_snoc. exists m. split_and!; [by rewrite (restore_rows_ext _ l)| |reflexivity].
      simpl. eapply (row_ok_new l); [done..|lia].
    + rewrite exact_generation_snoc. simpl. intros Hn. destruct (accepted l); [|done].
      simpl in Hr. simplify_eq. by rewrite Hempty.
  - assert (state c ≠ Terminal) as Hc by (intros E; by rewrite E, moves_Terminal in Hmv).
    destruct (live_is_last _ _ _ Hv Hi Hc) as (ch & E & ->).
    rewrite E in *. apply restore_rows_snoc in Hr as (m0 & Hr & Hok & Hrm).
    apply restore_rows_minimum in Hr as Hm0. destruct Hm0 as [Hm0 Hnil].
    destruct (row_minimum_move ch m0 c m (generation l) st) as (m' & H1 & H2 & H3); try done; [lia..|].
    rewrite alter_app_r_alt, Nat.sub_diag by done. simpl.
    split; simpl; [done| |by intros [_ ?]%app_eq_nil|lia].
    exists m'. split_and!; [|lia..|done].
    apply restore_rows_snoc. exists m0. split_and!; [by rewrite (restore_rows_ext _ l)|by apply row_ok_in_state|done].
Qed.

Lemma valid_reaches l l' : reaches l l' → valid l → valid l'.
Proof.
  induction 1 as [|tok l l' l'' o H _ IH]; [done|]. intros Hv.
  eapply IH, valid_effect; [by eapply exec_effect|done].
Qed.

Lemma effect_binding tok l l' : effect tok l l' → authority l' = authority l ∧ slots l' = slots l.
Proof. by destruct 1. Qed.

Lemma reaches_binding l l' : reaches l l' → authority l' = authority l ∧ slots l' = slots l.
Proof.
  induction 1 as [|tok l l' l'' o [H _]%exec_effect _ [-> ->]]; [done|]. by eapply effect_binding.
Qed.

(** ** Properties *)

(** What restoration checks of the rows implies: they are the acceptances of
    distinct keys on distinct slots, one after the other. *)
Lemma rows_facts t ch m : restore_rows t [] 0 ch = Ok (ch, m) →
  NoDup (map key ch) ∧ NoDup (map (λ c, slotId (allocation c)) ch) ∧
  Forall (λ c, allocation c ∈ slots t ∧
               keyDigest c = sha (encode_key (scope (authority t)) (key c)) ∧
               requestDigest c = request_digest (task c) (profile (allocation c)) ∧
               promptDigest c = sha (task c) ∧
               match dispatchIntent c with
               | Some g => 4 ≤ g ≤ m ∧ post (state c) ≠ None
               | None => pre (state c) ≠ None
               end) ch.
Proof.
  revert m. induction ch as [|c ch IH] using rev_ind; intros m Hr; [by split_and!; constructor|].
  apply restore_rows_snoc in Hr as (m0 & Hr & Hok & Hm).
  destruct (IH _ Hr) as (IH1 & IH2 & IH3). pose proof (row_minimum_lt _ _ _ _ Hm).
  apply restore_rows_minimum in Hr as [Hm0 _].
  destruct Hok as [_ Hk Hs _ _ _ (D1 & D2 & D3) _].
  apply find_some in Hs as [Hin Hs]. bools. apply find_key_not_in in Hk.
  rewrite !map_app, !NoDup_app. simpl. split_and!; try done.
  - intros x Hx ->%list_elem_of_singleton. done.
  - apply NoDup_singleton.
  - intros x Hx ->%list_elem_of_singleton. done.
  - apply NoDup_singleton.
  - apply Forall_app; split.
    + eapply Forall_impl; [done|]. intros d (? & ? & ? & ? & Hd). split_and!; try done.
      destruct (dispatchIntent d); [|done]. destruct Hd. split; [lia|done].
    + apply Forall_singleton. split_and!; try done; [by apply list_elem_of_In|].
      revert Hm. unfold row_minimum. destruct (dispatchIntent c); intros Hm; binds Hm.
      * destruct (post (state c)) eqn:Ep; binds Hm; [|done]. simplify_eq.
        assert (0 ≤ z0) by (destruct (state c); naive_solver lia). split; [lia|done].
      * by destruct (pre (state c)).
Qed.

(** The ledgers of the running system: created or restored from a snapshot,
    then changed by operations. *)
Definition live (l : Ledger) : Prop :=
  ∃ l0, ((∃ tok a sl, create tok a sl = Ok l0) ∨ (∃ tok s t, restore tok s t = Ok l0)) ∧ reaches l0 l.

Lemma restore_inv tok s t l : restore tok s t = Ok l →
  s = snapshot l ∧ valid l ∧ l = mkLedger tok None (authority t) (slots t) (s_accepted s) (s_generation s).
Proof.
  unfold restore. intros H. binds H.
  destruct x0 as [ch m]. binds H. apply create_inv in K0 as [_ Hc].
  pose proof (restore_rows_children _ _ _ _ _ _ K1) as Hch. simpl in Hch. subst ch.
  simplify_eq. split_and!; [done| |done].
  apply restore_rows_minimum in K1 as Hm. split; simpl; [by exists 0%nat| | |done].
  - exists m. split_and!; [by rewrite (restore_rows_ext _ t)|lia..|]. intros Hx. rewrite Hx in *. simpl in *. bools. done.
  - intros E. rewrite E in *. bools. done.
Qed.

Lemma live_valid l : live l → valid l.
Proof.
  intros (l0 & [(tok & a & sl & H%valid_create)|(tok & s & t & H%restore_inv)] & Hr);
    eapply valid_reaches; naive_solver.
Qed.

Definition rank (st : State) : nat :=
  match st with
  | Claimed => 0 | Materializing => 1 | Prepared => 2 | DispatchIntent => 3 | Submitted => 4
  | Running => 5 | Uncertain => 6 | StopRequested => 7 | Terminal => 8
  end.

(** How a child can differ between a ledger at generation [g] and a later one
    at generation [g']. *)
Record evolves (g g' : Z) (c c' : Child) : Prop := {
  e_identity : key c' = key c ∧ task c' = task c ∧ allocation c' = allocation c ∧
    keyDigest c' = keyDigest c ∧ requestDigest c' = requestDigest c ∧ promptDigest c' = promptDigest c;
  e_rank : (rank (state c) ≤ rank (state c'))%nat;
  e_intent : ∀ d, dispatchIntent c = Some d → dispatchIntent c' = Some d;
  e_new : ∀ d, dispatchIntent c = None → dispatchIntent c' = Some d → g < d ≤ g';
  e_settled : (6 ≤ rank (state c))%nat → dispatchIntent c' = dispatchIntent c }.

Lemma evolves_refl g g' c : evolves g g' c c.
Proof. split; naive_solver. Qed.

Lemma evolves_trans g1 g2 g3 c1 c2 c3 : g1 ≤ g2 ≤ g3 →
  evolves g1 g2 c1 c2 → evolves g2 g3 c2 c3 → evolves g1 g3 c1 c3.
Proof.
  intros Hg [I1 R1 K1 N1 S1] [I2 R2 K2 N2 S2]. split.
  - naive_solver congruence.
  - lia.
  - auto.
  - intros d H1 H3. destruct (dispatchIntent c2) as [d2|] eqn:E2.
    + pose proof (K2 _ eq_refl). pose proof (N1 _ H1 eq_refl). simplify_eq. lia.
    + pose proof (N2 _ eq_refl H3). lia.
  - intros H. rewrite S2, S1; [done..|lia].
Qed.

Lemma moves_rank st st' : moves st st' = true → (rank st < rank st')%nat.
Proof. destruct st, st'; (discriminate || simpl; lia). Qed.

Lemma effect_evolves tok l l' i c : effect tok l l' → valid l → accepted l !! i = Some c →
  generation l ≤ generation l' ∧ ∃ c', accepted l' !! i = Some c' ∧ evolves (generation l) (generation l') c c'.
Proof.
  intros Heff Hv Hi. destruct Heff as [|r s now|j d st Hj Hmv Hg]; simpl.
  - split; [lia|]. eauto using evolves_refl.
  - split; [lia|]. exists c. split; [by apply lookup_app_l_Some|]. apply evolves_refl.
  - split; [lia|]. destruct (decide (i = j)) as [->|Hne].
    2: { exists c. split; [by rewrite list_lookup_alter_ne|]. apply evolves_refl. }
    assert (d = c) as -> by congruence. eexists. split; [by rewrite list_lookup_alter_eq, Hi|].
    pose proof (moves_rank _ _ Hmv) as Hrk. destruct Hv as [_ (m & Hr & _) _ _].
    apply rows_facts in Hr as (_ & _ & Hf). apply (Forall_lookup_1 _ _ _ _ Hf) in Hi as (_ & _ & _ & _ & Hd).
    destruct c as [k t al kd rd pd s di]; simpl in *.
    destruct st, s; try discriminate Hmv; destruct di; simpl in *; try (by destruct Hd);
      split; simpl; try done; try lia; naive_solver lia.
Qed.

Lemma reaches_evolves l l' i c : reaches l l' → valid l → accepted l !! i = Some c →
  generation l ≤ generation l' ∧ ∃ c', accepted l' !! i = Some c' ∧ evolves (generation l) (generation l') c c'.
Proof.
  intros Hr. revert c. induction Hr as [|tok l l1 l2 o [H _]%exec_effect _ IH]; intros c Hv Hi.
  - split; [lia|]. eauto using evolves_refl.
  - destruct (effect_evolves _ _ _ _ _ H Hv Hi) as (? & c1 & Hi1 & He1).
    destruct (IH c1) as (? & c2 & Hi2 & He2); [by eapply valid_effect|done|].
    split; [lia|]. exists c2. split; [done|]. eapply evolves_trans; [|done..]. lia.
Qed.

Lemma find_key_unique ch k i c : NoDup (map key ch) → ch !! i = Some c → key c = k → find_key ch k = Some c.
Proof.
  revert i. unfold find_key. induction ch as [|d ch IH]; intros i Hn Hi Hk; [done|].
  apply NoDup_cons in Hn as [Hd Hn]. simpl. destruct i as [|i]; simplify_eq/=; [by rewrite js_eqb_refl|].
  destruct (js_eqb (key d) (key c)) eqn:E; [|by eapply IH].
  bools. destruct Hd. rewrite E. apply list_elem_of_fmap. exists c. split; [done|].
  apply list_elem_of_lookup. eauto.
Qed.

Lemma NoDup_keys l : valid l → NoDup (map key (accepted l)).
Proof. intros [_ (m & Hr & _) _ _]. by apply rows_facts in Hr as [? _]. Qed.

Lemma valid_length l : valid l → Z.of_nat (length (accepted l)) ≤ Z.of_nat (length (slots l)).
Proof.
  intros [_ (m & Hr & _) _ _]. apply rows_facts in Hr as (_ & H2 & H3). rewrite Forall_lookup in H3.
  apply NoDup_submseteq with (k := map slotId (slots l)) in H2.
  - apply submseteq_length in H2. rewrite !length_map in H2. lia.
  - intros x (c & -> & [i Hi]%list_elem_of_lookup)%list_elem_of_fmap. apply list_elem_of_fmap.
    exists (allocation c). split; [done|]. by eapply H3.
Qed.

(** Runs a history; a call that throws is skipped. *)
Fixpoint run_ops (tok : nat) (l : Ledger) (os : list op) : Ledger :=
  match os with
  | [] => l
  | o :: os' => run_ops (S tok) match exec tok l o with Ok l' => l' | Throw _ => l end os'
  end.

Lemma reaches_run_ops tok l os : reaches l (run_ops tok l os).
Proof.
  revert tok l. induction os as [|o os IH]; intros tok l; simpl; [constructor|].
  destruct (exec tok l o) eqn:E; [by econstructor|apply IH].
Qed.

(** In every ledger of the running system, whether created or restored
    and whatever operations followed, at most one child is live and it is the
    one accepted last; keys and slots are used once, so the allowance is never
    overdrawn; each child carries the digests of its key, request and prompt
    and an allocation of the reviewed list; a child in a dispatched state has
    an intent, a child before dispatch has none, and intents lie in the past. *)
Theorem ledger_invariant l : live l →
  NoDup (map key (accepted l)) ∧ NoDup (map (λ c, slotId (allocation c)) (accepted l)) ∧
  0 ≤ remainingAllowance l ∧
  ∀ i c, accepted l !! i = Some c →
    (state c ≠ Terminal → S i = length (accepted l)) ∧
    allocation c ∈ slots l ∧
    keyDigest c = sha (encode_key (scope (authority l)) (key c)) ∧
    requestDigest c = request_digest (task c) (profile (allocation c)) ∧
    promptDigest c = sha (task c) ∧
    match dispatchIntent c with
    | Some g => 4 ≤ g ≤ generation l ∧ (3 ≤ rank (state c))%nat
    | None => state c ∉ [DispatchIntent; Submitted; Running]
    end.
Proof.
  intros Hv%live_valid. pose proof Hv as [_ (m & Hr & Hm & _) _ _].
  apply rows_facts in Hr as (H1 & H2 & H3). rewrite Forall_lookup in H3.
  split_and!; [done|done| |].
  - unfold remainingAllowance. pose proof (valid_length _ Hv). lia.
  - intros i c Hi. pose proof (H3 _ _ Hi) as (? & ? & ? & ? & Hd). split_and!; try done.
    + intros Hc. destruct (live_is_last _ _ _ Hv Hi Hc) as (ch & -> & ->). rewrite length_app. simpl. lia.
    + destruct (dispatchIntent c), (state c); simpl in *; set_solver by lia.
Qed.

(** C35: A child is dispatched at most once. Between any ledger of the running
    system and any later one, each child stays at its place with its identity;
    a recorded dispatch intent is never changed or erased; a new one belongs to
    a generation after the earlier ledger; the state only moves forward, and
    once it is uncertain, stopped or terminal no intent can be added, a stop is
    never lifted and a terminal child never changes. *)
Theorem dispatch_at_most_once l l' i c : live l → reaches l l' → accepted l !! i = Some c →
  ∃ c', accepted l' !! i = Some c' ∧
    key c' = key c ∧ task c' = task c ∧ allocation c' = allocation c ∧ requestDigest c' = requestDigest c ∧
    (∀ g, dispatchIntent c = Some g → dispatchIntent c' = Some g) ∧
    (∀ g, dispatchIntent c = None → dispatchIntent c' = Some g → generation l < g ≤ generation l') ∧
    (rank (state c) ≤ rank (state c'))%nat ∧
    (state c ∈ [Uncertain; StopRequested; Terminal] →
       dispatchIntent c' = dispatchIntent c ∧ state c' ∈ [Uncertain; StopRequested; Terminal]) ∧
    (state c = StopRequested → state c' = StopRequested ∨ state c' = Terminal) ∧
    (state c = Terminal → c' = c).
Proof.
  intros Hl Hr Hi. destruct (reaches_evolves _ _ _ _ Hr (live_valid _ Hl) Hi) as (_ & c' & Hi' & He).
  destruct He as [(Ik & It & Ia & Id & Iq & Ip) R K N S].
  exists c'. split_and!; try done.
  - intros Hc. split; [apply S|]; destruct (state c), (state c'); simpl in *; set_solver by lia.
  - intros Hc. rewrite Hc in R. destruct (state c'); simpl in R; auto with lia; lia.
  - intros Hc. assert (dispatchIntent c' = dispatchIntent c) as D by (apply S; rewrite Hc; simpl; lia).
    rewrite Hc in R. destruct c as [k t al kd rd pd s di], c' as [k' t' al' kd' rd' pd' s' di']; simpl in *.
    destruct s'; simpl in R; try lia. by simplify_eq.
Qed.

(** Acceptance is idempotent for ever. Once a request was accepted, every
    later ledger answers the same request by returning itself, at any time,
    the deadline included, and a request that reuses the key with another task
    or profile is refused as a conflict. *)
Theorem accept_idempotent tok l e r now l1 l2 : live l → accept tok l e r now = Ok l1 → reaches l1 l2 →
  (∀ tok' now', accept tok' l2 (generation l2) r now' = Ok l2) ∧
  (∀ tok' r' now', r_key r' = r_key r → text (r_task r') 4000 = Ok tt →
     (r_task r' ≠ r_task r ∨ r_profile r' ≠ r_profile r) →
     accept tok' l2 (generation l2) r' now' = Throw key_conflict).
Proof.
  intros Hl Ha Hr. assert (exec tok l (OAccept e r now) = Ok l1) as Hx by done.
  apply exec_effect in Hx as [Heff _]. pose proof (live_valid _ Hl) as Hv.
  pose proof (valid_effect _ _ _ Heff Hv) as Hv1.
  destruct (accept_inv _ _ _ _ _ _ Ha) as (_ & He & Ht & Hc).
  assert (∃ i c, accepted l1 !! i = Some c ∧ key c = r_key r ∧ task c = r_task r ∧
            profile (allocation c) = r_profile r) as (i & c & Hi & Hk & Htk & Hp).
  { destruct Hc as [(c & Hf & ? & ? & ->)|(_ & _ & _ & _ & s & Hs & ->)].
    - apply find_some in Hf as [[i ?]%list_elem_of_In%list_elem_of_lookup Hf]. bools. eauto 10.
    - apply find_some in Hs as [_ Hs]. bools. eexists _, _. simpl. split_and!; [by apply list_lookup_middle|done..]. }
  destruct (reaches_evolves _ _ _ _ Hr Hv1 Hi) as (_ & c2 & Hi2 & [(Ik & It & Ia & _) _ _ _ _]).
  assert (find_key (accepted l2) (r_key r) = Some c2) as Hf2.
  { apply find_key_unique with (i := i); [|done|congruence].
    eapply NoDup_keys, valid_reaches; done. }
  assert (authority l2 = authority l) as Hau.
  { destruct (reaches_binding _ _ Hr) as [-> _]. by apply effect_binding in Heff as [-> _]. }
  rewrite <- Hau in He. unfold accept, checkGeneration. rewrite Z.eqb_refl.
  split.
  - intros tok' now'. simpl. rewrite He, Ht, Hf2. simpl.
    rewrite It, Ia, Htk, js_eqb_refl, bool_decide_true by done. done.
  - intros tok' r' now' Hk' Ht' Hne. simpl. rewrite Hk', He, Ht', Hf2. simpl.
    rewrite It, Ia, Htk. replace (_ && _) with false; [done|]. symmetry. apply andb_false_iff.
    rewrite js_eqb_false, bool_decide_eq_false. rewrite Hp. naive_solver.
Qed.

(** Every successful operation yields either the ledger it was called on
    or its immediate successor, which [assertSuccessor] admits for
    publication; and once a successor is published, any operation prepared
    against the earlier generation is refused as stale. *)
Theorem compare_and_swap tok l o l' : exec tok l o = Ok l' →
  assertSuccessor l l' = Ok tt ∧
  (l' = l ∨ generation l' = generation l + 1 ∧ previousToken l' = Some (token l)) ∧
  ∀ tok' o', l' ≠ l → op_generation o' = generation l → exec tok' l' o' = Throw stale_generation.
Proof.
  intros [He _]%exec_effect. unfold assertSuccessor. split_and!.
  - destruct He; apply guard_Ok; simpl; [by rewrite bool_decide_true| |];
      apply orb_true_iff; right; rewrite bool_decide_true by done; simpl; lia.
  - destruct He; simpl; auto.
  - intros tok' o' Hne Hg. assert (generation l' = generation l + 1) as Hg' by (by destruct He).
    assert (checkGeneration l' (generation l) = Throw stale_generation) as Hs.
    { unfold checkGeneration, guard. replace (_ =? _) with false; [done|]. symmetry. apply Z.eqb_neq. lia. }
    destruct o'; simpl in Hg; simpl;
      unfold accept, advance, markUncertain, stop, terminalizeAfterIntent, terminalizeBeforeIntent, correlated;
      rewrite Hg, Hs; done.
Qed.

(** C38: Restoration round-trips: the snapshot of every ledger of the running
    system is accepted by [restore] against any ledger with the same authority
    and slots, and gives back the same content at the same generation; and
    whatever [restore] accepts has exactly the snapshot it was restored from.
    (Snapshots are values here; their JSON text and its size limit are left out.) *)
Theorem restore_snapshot l t tok : live l → authority t = authority l → slots t = slots l →
  restore tok (snapshot l) t = Ok (mkLedger tok None (authority l) (slots l) (accepted l) (generation l)) ∧
  (∀ tok' s l', restore tok' s t = Ok l' → snapshot l' = s).
Proof.
  intros Hl Ha Hs. split; [|by intros tok' s l' [-> _]%restore_inv].
  pose proof (live_valid _ Hl) as [[tk Hc] (m & Hr & Hm & Hx) He Hsafe].
  apply create_inv in Hc as [_ Hc].
  assert (Z.of_nat (length (accepted l)) ≤ Z.of_nat (length (slots l))) as Hlen.
  { apply valid_length. by apply live_valid. }
  unfold restore. simpl. rewrite Ha, Hs, Hc.
  replace (js_eqb _ _ && _ && _ && _ && _) with true.
  2: { symmetry. unfold authorityDigest. rewrite Ha, js_eqb_refl, bool_decide_true by done. simpl.
       rewrite !andb_true_iff, !Z.leb_le, Nat.leb_le. lia. }
  simpl. rewrite (restore_rows_ext t l), Hr by done. simpl.
  replace (generation l <? m) with false by lia. simpl.
  replace (match accepted l with [] => _ | _ => _ end) with false.
  2: { destruct (accepted l); [|done]. by rewrite He. }
  simpl. replace (exact_generation _ && _) with false.
  2: { destruct (exact_generation (accepted l)); [|done]. rewrite Hx, Z.eqb_refl by done. done. }
  simpl. by rewrite bool_decide_true.
Qed.
End Ledger.

(** ** Witnesses: an authority with two slots, and a history in which the first
    child runs, is stopped and ends, and a second one is prepared. *)
Module Demo.
Definition digest64 : jsstring := replicate 64 97%N.
Definition demo_authority : Authority :=
  mkAuthority (mkScope (js "p") (js "w") (js "c")) digest64 digest64 (js "acc")
    (replicate 40 48%N) (replicate 40 49%N) (num_of_Z 1000) (num_of_Z 5) digest64.
Definition slot (i : string) (p : Profile) : Allocation :=
  mkAllocation (js "slot" ++ js i) (js "req" ++ js i) (js "op" ++ js i) (js "child" ++ js i)
    (js "start" ++ js i) (js "unit" ++ js i) p.
Definition demo_slots : list Allocation := [slot "1" IsolatedWrite; slot "2" ReadOnly].
Definition hash : jsstring → jsstring := λ s, s.
Definition bind_at (l : Ledger) (i : nat) : Correlation :=
  match accepted l !! i with
  | Some c => correlation (observation hash l c)
  | None => mkCorrelation (slot "0" ReadOnly) [] [] [] [] 0
  end.

(** Runs one operation that is built from the current ledger. *)
Definition act (l : Ledger) (f : Ledger → op) : Ledger := run_ops hash (S (token l)) l [f l].

Definition demo0 : Ledger := mkLedger 0 None demo_authority demo_slots [] 0.
Definition first_request : Request := mkRequest (js "build") (js "compile the project") IsolatedWrite.
Definition second_request : Request := mkRequest (js "review") (js "read the diff") ReadOnly.
Definition demo1 : Ledger := act demo0 (λ l, OAccept (generation l) first_request (num_of_Z 10)).
Definition demo_dispatched : Ledger :=
  act (act (act demo1 (λ l, OAdvance (bind_at l 0) Materializing (num_of_Z 11)))
         (λ l, OAdvance (bind_at l 0) Prepared (num_of_Z 12)))
    (λ l, OAdvance (bind_at l 0) DispatchIntent (num_of_Z 13)).
Definition demo_ended : Ledger :=
  act (act (act demo_dispatched (λ l, OAdvance (bind_at l 0) Submitted (num_of_Z 2000)))
         (λ l, OStop (bind_at l 0)))
    (λ l, OTerminalAfter (bind_at l 0) (Some digest64)).
Definition demo_second : Ledger := act demo_ended (λ l, OAccept (generation l) second_request (num_of_Z 20)).

Lemma demo_reaches l f : reaches hash l (act l f).
Proof. apply reaches_run_ops. Qed.

Lemma reaches_trans l1 l2 l3 : reaches hash l1 l2 → reaches hash l2 l3 → reaches hash l1 l3.
Proof. induction 1 as [|tok l l' l'' o H _ IH]; [done|]. intros H3. exact (reaches_step _ _ _ _ _ _ H (IH H3)). Qed.

Lemma reaches_dispatched : reaches hash demo1 demo_dispatched.
Proof. do 3 (eapply reaches_trans; [|apply demo_reaches]). apply reaches_refl. Qed.

Lemma reaches_ended : reaches hash demo_dispatched demo_ended.
Proof. do 3 (eapply reaches_trans; [|apply demo_reaches]). apply reaches_refl. Qed.

Lemma demo0_live : live hash demo0.
Proof. exists demo0. split; [left; exists 0%nat, demo_authority, demo_slots; by vm_compute|constructor]. Qed.

Lemma live_reaches l l' : live hash l → reaches hash l l' → live hash l'.
Proof. intros (l0 & ? & ?) ?. exists l0. split; [done|]. by eapply reaches_trans. Qed.

Lemma dispatched_live : live hash demo_dispatched.
Proof.
  eapply live_reaches, reaches_dispatched. eapply live_reaches, demo_reaches. apply demo0_live.
Qed.

Lemma second_live : live hash demo_second.
Proof.
  eapply live_reaches, demo_reaches. eapply live_reaches, reaches_ended. apply dispatched_live.
Qed.

Example demo_history :
  generation demo_second = 8 ∧ map state (accepted demo_second) = [Terminal; Claimed] ∧
  map dispatchIntent (accepted demo_second) = [Some 4; None] ∧ remainingAllowance demo_second = 0.
Proof. by vm_compute. Qed.

Lemma ledger_invariant_witness : 0 ≤ remainingAllowance demo_second ∧ length (accepted demo_second) = 2%nat.
Proof.
  split; [|by vm_compute]. by apply (ledger_invariant hash demo_second second_live).
Defined.

Lemma dispatch_at_most_once_witness :
  ∃ c', accepted demo_ended !! 0%nat = Some c' ∧ dispatchIntent c' = Some 4.
Proof.
  assert (∃ c, accepted demo_dispatched !! 0%nat = Some c ∧ dispatchIntent c = Some 4) as (c & Hc & Hd).
  { eexists. split; vm_compute; reflexivity. }
  destruct (dispatch_at_most_once hash _ _ _ _ dispatched_live reaches_ended Hc) as (c' & Hc' & _ & _ & _ & _ & Hi & _).
  exists c'. split; [exact Hc'|]. exact (Hi _ Hd).
Defined.

Lemma accept_idempotent_witness :
  accept hash 9 demo_dispatched 4 first_request (num_of_Z 5000) = Ok demo_dispatched ∧
  accept hash 9 demo_dispatched 4 (mkRequest (js "build") (js "other") IsolatedWrite) (num_of_Z 20) = Throw key_conflict.
Proof.
  assert (accept hash 1 demo0 0 first_request (num_of_Z 10) = Ok demo1) as Ha by (vm_compute; reflexivity).
  destruct (accept_idempotent hash _ _ _ _ _ _ _ demo0_live Ha reaches_dispatched) as [H1 H2].
  split; [exact (H1 9%nat _)|].
  apply (H2 9%nat _ (num_of_Z 20)); [reflexivity|vm_compute; reflexivity|left; discriminate].
Defined.

Lemma compare_and_swap_witness :
  exec hash 7 demo1 (OStop (bind_at demo0 0)) = Throw stale_generation.
Proof.
  assert (exec hash 1 demo0 (OAccept 0 first_request (num_of_Z 10)) = Ok demo1) as Ha by (vm_compute; reflexivity).
  destruct (compare_and_swap hash _ _ _ _ Ha) as (_ & _ & H).
  apply H; [intros E; by apply (f_equal generation) in E|vm_compute; reflexivity].
Defined.

Lemma restore_snapshot_witness :
  restore hash 3 (snapshot hash demo_second) demo0 =
  Ok (mkLedger 3 None demo_authority demo_slots (accepted demo_second) 8).
Proof.
  exact (proj1 (restore_snapshot hash demo_second demo0 3 second_live eq_refl eq_refl)).
Defined.
End Demo.
End KeyedChild.
