(* ===== verification/IntegrationAttempt.v ===== *)
(** * Integration attempts

    [src/worker-core/integration/domain/integration-attempt.ts]: the state
    machine that takes the reviewed output of a worker to a pushed commit, and
    the normalisation of the file lists it compares.

    An attempt is an immutable record; an operation returns the next record or
    throws. [node:path] is modelled for a POSIX host: [isAbsolute] looks at the
    first character and [posix.normalize] works on slash-separated segments.
    [toLowerCase] is modelled on ASCII letters, which is exact where it is
    used: its result must match a pattern of hexadecimal digits, and no
    character outside ASCII lowers to one. *)

From stdpp Require Import base numbers list option sets strings.
From S2P Require Import Prelude Json.

#[local] Open Scope Z_scope.

Module Integration.

(** ** Data *)

Inductive Status : Set :=
| Opened | Applied | ChecksRunning | ChecksFailed | ChecksPassed | CommitCreated | Pushed | Rejected.
Inductive ReviewStatus : Set := ReviewApproved | ReviewRejected | ReviewNeedsHuman.
Inductive CheckStatus : Set := CheckPassed | CheckFailed | CheckTimedOut.
Inductive Integrity : Set := Unchanged | Restored | Unverified.
Inductive SecretScan : Set := ScanPassed | ScanFailed.
Inductive PushStatus : Set := PushPushed | PushFailed.
Inductive BaseRevision : Set := BaseCurrent | BaseStale | BaseNeedsRebaseCheck | BaseUnknown.

#[global] Instance Status_eq_dec : EqDecision Status.
Proof. solve_decision. Defined.

Definition status_name (s : Status) : jsstring :=
  js match s with
     | Opened => "opened" | Applied => "applied" | ChecksRunning => "checks_running"
     | ChecksFailed => "checks_failed" | ChecksPassed => "checks_passed"
     | CommitCreated => "commit_created" | Pushed => "pushed" | Rejected => "rejected"
     end.

Inductive Reason : Set :=
| InvalidTransition | InvalidPath | PathOutsideExpectedFiles | UnexpectedFiles
| InvalidMergePlan | MergeParentsMismatch.

(** An [IntegrationError] with its reason, its explicit message and its
    evidence, or the plain [Error] of the byte allowance. *)
Inductive error : Set :=
| IntegrationError (reason : Reason) (message : option jsstring) (evidence : list jsstring)
| PlainError (message : jsstring).

Record CheckSpec : Set := mkCheckSpec {
  spec_checkId : jsstring; spec_command : list jsstring; spec_cwd : option jsstring;
  spec_timeoutMs : option num }.

Record WorkerOutput : Set := mkWorkerOutput {
  reviewedOutputId : option jsstring; fileByteAllowance : option num; workerJobId : jsstring;
  workspacePath : jsstring; wo_commitSha : option jsstring; patchPath : option jsstring;
  patchSha256 : option jsstring; sourcePatchPath : option jsstring; summaryPath : option jsstring;
  handoffManifestPath : option jsstring; handoffManifestSha256 : option jsstring;
  baseCommit : option jsstring; targetCommit : option jsstring; baseStatus : option BaseRevision;
  baseRevisionReasons : option (list jsstring); changedFiles : list jsstring;
  evidencePaths : option (list jsstring) }.

Record ReviewDecision : Set := mkReviewDecision {
  reviewedBy : jsstring; decision : ReviewStatus; reason : jsstring; approvedFiles : list jsstring;
  requiredChecks : list CheckSpec; riskyPaths : option (list jsstring) }.

Record CheckRun : Set := mkCheckRun {
  checkId : jsstring; command : list jsstring; cr_status : CheckStatus; startedAt : jsstring;
  completedAt : jsstring; exitCode : option Z; safeOutputTail : option jsstring;
  workspaceIntegrity : option Integrity }.

Record MergePlan : Set := mkMergePlan {
  sourceRemote : jsstring; sourceBranch : jsstring; sourceCommit : jsstring;
  expectedTargetCommit : jsstring }.

Record CommitCandidate : Set := mkCommitCandidate {
  commitSha : jsstring; parentCommits : option (list jsstring); message : jsstring;
  files : list jsstring; diffStat : option jsstring; secretScanStatus : SecretScan;
  cc_createdAt : jsstring }.

Record ReviewedCommitPublication : Set := mkPublication {
  pub_reviewedOutputId : option jsstring; pub_tree : jsstring; pub_parent : jsstring;
  pub_originalIndexTree : jsstring; pub_name : jsstring; pub_email : jsstring;
  pub_candidate : CommitCandidate }.

Record PushAttempt : Set := mkPushAttempt {
  remote : jsstring; branch : jsstring; pa_commitSha : jsstring; pa_status : PushStatus;
  pushedAt : jsstring }.

Record Attestation : Set := mkAttestation {
  operator : jsstring; verifiedAt : jsstring; repository : jsstring; at_remote : jsstring;
  at_branch : jsstring; at_commitSha : jsstring; evidenceSha256 : jsstring }.

Record Attempt : Set := mkAttempt {
  attemptId : jsstring; projectId : jsstring; controllerJobId : jsstring; a_workerJobId : jsstring;
  sourceWorkspacePath : jsstring; targetWorkspacePath : jsstring; targetBranch : jsstring;
  targetRemote : jsstring; expectedFiles : list jsstring; merge : option MergePlan;
  appliedFiles : option (list jsstring); appliedMergeSourceCommit : option jsstring; status : Status;
  workerOutput : WorkerOutput; reviewDecision : ReviewDecision; checkedReviewedTree : option jsstring;
  authorizedMergeTree : option jsstring; preparedReviewedCommit : option ReviewedCommitPublication;
  reviewedIndexRecoveryPending : option bool; checkRuns : list CheckRun;
  commitCandidate : option CommitCandidate; pushAttempt : option PushAttempt;
  externalPublicationAttestation : option Attestation; promotionAttempts : option (list PushAttempt);
  rejectReason : option jsstring; createdAt : jsstring; updatedAt : jsstring }.

Record OpenInput : Set := mkOpenInput {
  i_attemptId : jsstring; i_projectId : jsstring; i_controllerJobId : jsstring;
  i_sourceWorkspacePath : jsstring; i_targetWorkspacePath : jsstring; i_targetBranch : jsstring;
  i_targetRemote : jsstring; i_merge : option MergePlan; i_workerOutput : WorkerOutput;
  i_reviewDecision : ReviewDecision; i_now : jsstring }.

Abbreviation res := (result error).

Definition fail {A} (r : Reason) (evidence : list jsstring) : res A :=
  Throw (IntegrationError r None evidence).
Definition fail_message {A} (r : Reason) (m : string) : res A :=
  Throw (IntegrationError r (Some (js m)) []).

(** ** Strings, sets and sorting *)

Definition slash : N := 47%N.
Definition backslash : N := 92%N.

Fixpoint split_slash (s : jsstring) : list jsstring :=
  match s with
  | [] => [[]]
  | c :: s' =>
      if (c =? slash)%N then [] :: split_slash s'
      else match split_slash s' with
           | [] => [[c]]
           | seg :: rest => (c :: seg) :: rest
           end
  end.

Definition includes (c : N) (s : jsstring) : bool := existsb (N.eqb c) s.
Definition has (x : jsstring) (l : list jsstring) : bool := existsb (js_eqb x) l.

Definition replace_backslashes (s : jsstring) : jsstring :=
  map (λ c, if (c =? backslash)%N then slash else c) s.

(** [[...new Set(l)]]: the first occurrences, in order. *)
Fixpoint dedup_from (seen : list jsstring) (l : list jsstring) : list jsstring :=
  match l with
  | [] => []
  | x :: l' => if has x seen then dedup_from seen l' else x :: dedup_from (x :: seen) l'
  end.
Definition new_Set (l : list jsstring) : list jsstring := dedup_from [] l.

Fixpoint map_res {A B} (f : A → res B) (l : list A) : res (list B) :=
  match l with
  | [] => Ok []
  | x :: l' => y ← f x; ys ← map_res f l'; Ok (y :: ys)
  end.

(** ** Paths *)

Definition dot : jsstring := js ".".
Definition dotdot : jsstring := js "..".

Definition isAbsolute (p : jsstring) : bool :=
  match p with c :: _ => (c =? slash)%N | [] => false end.

(** The segments of the normal form, as a stack with the last one first. *)
Definition push_segment (above : bool) (stack : list jsstring) (seg : jsstring) : list jsstring :=
  if js_eqb seg [] || js_eqb seg dot then stack
  else if js_eqb seg dotdot then
    match stack with
    | top :: stack' => if js_eqb top dotdot then if above then dotdot :: stack else stack
                       else stack'
    | [] => if above then [dotdot] else []
    end
  else seg :: stack.

Definition normal_segments (above : bool) (segs : list jsstring) : list jsstring :=
  rev (foldl (push_segment above) [] segs).

Definition ends_slash (p : jsstring) : bool :=
  match last p with Some c => (c =? slash)%N | None => false end.

(** [posix.normalize]. *)
Definition normalize (p : jsstring) : jsstring :=
  match p with
  | [] => dot
  | _ =>
      let absolute := isAbsolute p in
      let body := js_join [slash] (normal_segments (negb absolute) (split_slash p)) in
      match body with
      | [] => if absolute then [slash] else if ends_slash p then js "./" else dot
      | _ => (if absolute then [slash] else []) ++ body ++ (if ends_slash p then [slash] else [])
      end
  end.

Definition normalizeProjectRelativePath (path : jsstring) : res jsstring :=
  if negb (truthy path) || includes 0 path || isAbsolute path then fail InvalidPath [path]
  else
    let normalized := normalize (replace_backslashes path) in
    let segments := split_slash normalized in
    if js_eqb normalized dot || starts_with (js "../") normalized || js_eqb normalized dotdot ||
       has dotdot segments || has (js ".git") segments
    then fail InvalidPath [path]
    else Ok normalized.

Definition normalizeExpectedFiles (paths : list jsstring) : res (list jsstring) :=
  ps ← map_res normalizeProjectRelativePath paths;
  match sort (new_Set ps) with
  | [] => fail_message InvalidPath "expected_files_required"
  | normalized => Ok normalized
  end.

(** ** Assertions *)

Definition assertFilesWithinExpected (fs expected : list jsstring) : res unit :=
  expected' ← normalizeExpectedFiles expected;
  fs' ← normalizeExpectedFiles fs;
  match filter (λ f, has f expected' = false) fs' with
  | [] => Ok tt
  | outside => fail PathOutsideExpectedFiles outside
  end.

Definition assertFilesInclude (fs required : list jsstring) (prefix : string) : res unit :=
  actual ← normalizeExpectedFiles fs;
  required' ← normalizeExpectedFiles required;
  match filter (λ f, has f actual = false) required' with
  | [] => Ok tt
  | missing => fail UnexpectedFiles [js prefix ++ js ":" ++ js_join (js ",") missing]
  end.

Definition assertSameFiles (fs expected : list jsstring) (prefix : string) : res unit :=
  actual ← normalizeExpectedFiles fs;
  expected' ← normalizeExpectedFiles expected;
  if bool_decide (actual = expected') then Ok tt
  else fail UnexpectedFiles [js prefix ++ js ":expected=" ++ js_join (js ",") expected' ++
                             js ";actual=" ++ js_join (js ",") actual].

Definition assertStatus (a : Attempt) (allowed : list Status) : res unit :=
  if bool_decide (status a ∈ allowed) then Ok tt else fail InvalidTransition [status_name (status a)].

Definition assertNotTerminal (a : Attempt) : res unit :=
  match status a with
  | Pushed | Rejected => fail InvalidTransition [status_name (status a)]
  | _ => Ok tt
  end.

Definition integrationAppliedFiles (a : Attempt) : list jsstring :=
  default (changedFiles (workerOutput a)) (appliedFiles a).

Definition assertIntegrationAppliedFiles (a : Attempt) (fs : list jsstring) : res unit :=
  match merge a with
  | None => assertFilesWithinExpected fs (expectedFiles a)
  | Some _ =>
      match changedFiles (workerOutput a) with
      | [] => Ok tt
      | _ => assertFilesInclude fs (changedFiles (workerOutput a)) "reviewed_merge_patch_files_missing"
      end
  end.

Definition assertIntegrationCommitFiles (a : Attempt) (fs : list jsstring) : res unit :=
  match merge a with
  | None => assertFilesWithinExpected fs (expectedFiles a)
  | Some _ => assertSameFiles fs (integrationAppliedFiles a) "merge_commit_files_mismatch"
  end.

Definition assertMergeCommitParents (parents : option (list jsstring)) (m : MergePlan)
    (applied : option jsstring) : res unit :=
  let expected := [expectedTargetCommit m; default (sourceCommit m) applied] in
  if bool_decide (parents = Some expected) then Ok tt
  else fail MergeParentsMismatch
         [js "expected:" ++ js_join (js ",") expected;
          js "actual:" ++ match parents with Some ps => js_join (js ",") ps | None => js "missing" end].

(** ** Merge plans *)

Definition requiredMergeValue (value : jsstring) (field : string) : res jsstring :=
  let normalized := js_trim value in
  if negb (truthy normalized) || includes 0 normalized
  then fail InvalidMergePlan [js field ++ js "_required"]
  else Ok normalized.

Definition lower_char (c : N) : N := if (65 <=? c)%N && (c <=? 90)%N then (c + 32)%N else c.
Definition toLowerCase (s : jsstring) : jsstring := map lower_char s.

Definition is_hex (c : N) : bool :=
  ((48 <=? c)%N && (c <=? 57)%N) || ((97 <=? c)%N && (c <=? 102)%N).
(** [/^[a-f0-9]{40}$/]. *)
Definition hex40 (s : jsstring) : bool := (length s =? 40)%nat && forallb is_hex s.

Definition normalizeMergeCommit (value : jsstring) (field : string) : res jsstring :=
  v ← requiredMergeValue value field;
  let normalized := toLowerCase v in
  if hex40 normalized then Ok normalized else fail InvalidMergePlan [js field ++ js "_invalid"].

Definition normalizeMergeIntegrationPlan (m : MergePlan) (w : WorkerOutput) : res MergePlan :=
  remote ← requiredMergeValue (sourceRemote m) "source_remote";
  branch ← requiredMergeValue (sourceBranch m) "source_branch";
  source ← normalizeMergeCommit (sourceCommit m) "source_commit";
  target ← normalizeMergeCommit (expectedTargetCommit m) "expected_target_commit";
  if js_eqb source target then fail InvalidMergePlan [js "merge_parents_must_differ"]
  else if negb (bool_decide (baseCommit w = Some target)) then
    fail InvalidMergePlan [js "worker_base:" ++ default (js "missing") (baseCommit w);
                           js "target:" ++ target]
  else match truthy_opt (patchPath w), truthy_opt (patchSha256 w) with
       | Some _, Some _ => Ok (mkMergePlan remote branch source target)
       | _, _ => fail InvalidMergePlan [js "reviewed_resolution_patch_required"]
       end.

(** [Number.isSafeInteger(value) && 0 < value <= 8 MiB]. *)
Definition reviewedOutputFileByteAllowance (v : option num) : res (option num) :=
  match v with
  | None => Ok None
  | Some n =>
      if is_integer n && num_ltb (num_of_Z 0) n && num_leb n (num_of_Z (8 * 1024 * 1024))
      then Ok (Some n)
      else Throw (PlainError (js "reviewed_output_file_byte_allowance_invalid"))
  end.

(** ** Check runs *)

Definition checkRunPassedWithIntegrity (r : CheckRun) : bool :=
  match cr_status r, workspaceIntegrity r with
  | CheckPassed, (None | Some Unchanged) => true
  | _, _ => false
  end.

Definition allCheckRunsPassed (rs : list CheckRun) : bool := forallb checkRunPassedWithIntegrity rs.

Definition rollupCheckRuns (rs : list CheckRun) : Status * list jsstring :=
  let failed := sort (new_Set (map checkId (filter (λ r, checkRunPassedWithIntegrity r = false) rs))) in
  (match failed with [] => ChecksPassed | _ => ChecksFailed end, failed).

Definition integrationStatusForCheckRuns (rs : list CheckRun) : Status := (rollupCheckRuns rs).1.

(** ** Operations *)

Definition with_changedFiles (w : WorkerOutput) (fs : list jsstring) : WorkerOutput :=
  mkWorkerOutput (reviewedOutputId w) (fileByteAllowance w) (workerJobId w) (workspacePath w)
    (wo_commitSha w) (patchPath w) (patchSha256 w) (sourcePatchPath w) (summaryPath w)
    (handoffManifestPath w) (handoffManifestSha256 w) (baseCommit w) (targetCommit w) (baseStatus w)
    (baseRevisionReasons w) fs (evidencePaths w).

Definition with_approvedFiles (r : ReviewDecision) (fs : list jsstring) : ReviewDecision :=
  mkReviewDecision (reviewedBy r) (decision r) (reason r) fs (requiredChecks r) (riskyPaths r).

Definition is_empty (l : list jsstring) : bool := match l with [] => true | _ => false end.
Definition is_merge (m : option MergePlan) : bool := match m with Some _ => true | None => false end.

Definition openIntegrationAttempt (i : OpenInput) : res Attempt :=
  let w := i_workerOutput i in
  match decision (i_reviewDecision i) with
  | ReviewApproved =>
      reviewedOutputFileByteAllowance (fileByteAllowance w) ;;
      expected ← normalizeExpectedFiles (approvedFiles (i_reviewDecision i));
      m ← match i_merge i with
          | Some m => m' ← normalizeMergeIntegrationPlan m w; Ok (Some m')
          | None => Ok None
          end;
      (if negb (is_merge m) || negb (is_empty (changedFiles w))
       then assertFilesWithinExpected (changedFiles w) expected else Ok tt) ;;
      changed ← (if is_merge m && is_empty (changedFiles w) then Ok []
                 else normalizeExpectedFiles (changedFiles w));
      Ok (mkAttempt (i_attemptId i) (i_projectId i) (i_controllerJobId i) (workerJobId w)
            (i_sourceWorkspacePath i) (i_targetWorkspacePath i) (i_targetBranch i) (i_targetRemote i)
            expected m None None Opened (with_changedFiles w changed)
            (with_approvedFiles (i_reviewDecision i) expected) None None None None [] None None None
            None None (i_now i) (i_now i))
  | _ => fail_message InvalidTransition "integration_attempt_requires_approved_review"
  end.

(** The fields the operations change; the others are copied by [...attempt]. *)
Definition update (a : Attempt) (st : Status) (applied : option (list jsstring))
    (applied_source : option jsstring) (w : WorkerOutput) (runs : list CheckRun)
    (commit : option CommitCandidate) (push : option PushAttempt)
    (promotions : option (list PushAttempt)) (rejected : option jsstring) (now : jsstring) : Attempt :=
  mkAttempt (attemptId a) (projectId a) (controllerJobId a) (a_workerJobId a) (sourceWorkspacePath a)
    (targetWorkspacePath a) (targetBranch a) (targetRemote a) (expectedFiles a) (merge a) applied
    applied_source st w (reviewDecision a) (checkedReviewedTree a) (authorizedMergeTree a)
    (preparedReviewedCommit a) (reviewedIndexRecoveryPending a) runs commit push
    (externalPublicationAttestation a) promotions rejected (createdAt a) now.

Definition markWorkerOutputApplied (a : Attempt) (changed : list jsstring)
    (mergeSourceCommit : option jsstring) (now : jsstring) : res Attempt :=
  assertStatus a [Opened] ;;
  changed' ← normalizeExpectedFiles changed;
  assertIntegrationAppliedFiles a changed' ;;
  source ← match truthy_opt mergeSourceCommit with
           | Some v => v' ← normalizeMergeCommit v "applied_source_commit"; Ok (Some v')
           | None => Ok None
           end;
  match merge a, source with
  | None, Some _ => fail InvalidMergePlan [js "applied_source_commit_without_merge"]
  | Some _, _ =>
      Ok (update a Applied (Some changed')
            (match source with Some _ => source | None => appliedMergeSourceCommit a end)
            (workerOutput a) (checkRuns a) (commitCandidate a) (pushAttempt a) (promotionAttempts a)
            (rejectReason a) now)
  | None, None =>
      Ok (update a Applied (appliedFiles a) (appliedMergeSourceCommit a)
            (with_changedFiles (workerOutput a) changed') (checkRuns a) (commitCandidate a)
            (pushAttempt a) (promotionAttempts a) (rejectReason a) now)
  end.

(** Only the status and the time. *)
Definition set_status (a : Attempt) (st : Status) (now : jsstring) : Attempt :=
  update a st (appliedFiles a) (appliedMergeSourceCommit a) (workerOutput a) (checkRuns a)
    (commitCandidate a) (pushAttempt a) (promotionAttempts a) (rejectReason a) now.

Definition markChecksRunning (a : Attempt) (now : jsstring) : res Attempt :=
  assertStatus a [Applied; ChecksFailed; ChecksRunning] ;;
  Ok (set_status a ChecksRunning now).

Definition recordCheckRuns (a : Attempt) (runs : list CheckRun) (now : jsstring) : res Attempt :=
  assertStatus a [ChecksRunning] ;;
  Ok (update a (integrationStatusForCheckRuns runs) (appliedFiles a) (appliedMergeSourceCommit a)
        (workerOutput a) runs (commitCandidate a) (pushAttempt a) (promotionAttempts a)
        (rejectReason a) now).

Definition markCommitCreated (a : Attempt) (c : CommitCandidate) (now : jsstring) : res Attempt :=
  assertStatus a [ChecksPassed] ;;
  assertIntegrationCommitFiles a (files c) ;;
  match merge a with
  | Some m => assertMergeCommitParents (parentCommits c) m (appliedMergeSourceCommit a)
  | None => Ok tt
  end ;;
  fs ← normalizeExpectedFiles (files c);
  Ok (update a CommitCreated (appliedFiles a) (appliedMergeSourceCommit a) (workerOutput a) (checkRuns a)
        (Some (mkCommitCandidate (commitSha c) (parentCommits c) (message c) fs (diffStat c)
                 (secretScanStatus c) (cc_createdAt c)))
        (pushAttempt a) (promotionAttempts a) (rejectReason a) now).

Definition markPushed (a : Attempt) (p : PushAttempt) (now : jsstring) : res Attempt :=
  assertStatus a [CommitCreated] ;;
  match commitCandidate a with
  | None => fail_message InvalidTransition "commit_candidate_required"
  | Some c =>
      if js_eqb (pa_commitSha p) (commitSha c) then
        Ok (update a Pushed (appliedFiles a) (appliedMergeSourceCommit a) (workerOutput a) (checkRuns a)
              (commitCandidate a) (Some p) (promotionAttempts a) (rejectReason a) now)
      else fail_message InvalidTransition "push_commit_sha_mismatch"
  end.

Definition markPromoted (a : Attempt) (p : PushAttempt) (now : jsstring) : res Attempt :=
  assertStatus a [Pushed] ;;
  match commitCandidate a, pushAttempt a with
  | Some c, Some _ =>
      if js_eqb (pa_commitSha p) (commitSha c) then
        Ok (update a (status a) (appliedFiles a) (appliedMergeSourceCommit a) (workerOutput a) (checkRuns a)
              (commitCandidate a) (pushAttempt a) (Some (default [] (promotionAttempts a) ++ [p]))
              (rejectReason a) now)
      else fail_message InvalidTransition "promotion_commit_sha_mismatch"
  | _, _ => fail_message InvalidTransition "pushed_commit_candidate_required"
  end.

Definition markRejected (a : Attempt) (why : jsstring) (now : jsstring) : res Attempt :=
  assertNotTerminal a ;;
  Ok (update a Rejected (appliedFiles a) (appliedMergeSourceCommit a) (workerOutput a) (checkRuns a)
        (commitCandidate a) (pushAttempt a) (promotionAttempts a) (Some why) now).

(** ** Commit messages *)

Definition commit_types : list string :=
  ["feat"; "fix"; "docs"; "style"; "refactor"; "perf"; "test"; "build"; "ci"; "chore"; "revert"].

(** What follows a prefix. *)
Fixpoint strip (p s : jsstring) : option jsstring :=
  match p, s with
  | [], _ => Some s
  | x :: p', y :: s' => if (x =? y)%N then strip p' s' else None
  | _ :: _, [] => None
  end.

(** [\([^)]+\)]: what follows the closing parenthesis, where one character at
    least precedes it. *)
Fixpoint to_paren (s : jsstring) : option (nat * jsstring) :=
  match s with
  | [] => None
  | c :: s' => if (c =? 41)%N then Some (O, s') else (λ '(n, r), (S n, r)) <$> to_paren s'
  end.

Definition after_scope (s : jsstring) : option jsstring :=
  match s with
  | 40%N :: s' => match to_paren s' with Some (S _, r) => Some r | _ => None end
  | _ => Some s
  end.

Definition line_terminator (c : N) : bool :=
  (c =? 10)%N || (c =? 13)%N || (c =? 8232)%N || (c =? 8233)%N.

Definition isConventionalCommitMessage (m : jsstring) : bool :=
  existsb (λ t, match r ← strip (js t) m; r' ← after_scope r; strip (js ": ") r' with
                | Some (c :: _) => negb (line_terminator c)
                | _ => false
                end) commit_types.

Example normalize_tests :
  map normalize [js "a//b/./c/../d"; js "../a/.."; js "/a/../../b/"; js "./"; js "a/.."; js ""; js "a/../../.."]
  = [js "a/b/d"; js ".."; js "/b/"; js "./"; js "."; js "."; js "../.."].
Proof. by vm_compute. Qed.

Example commit_message_tests :
  map isConventionalCommitMessage
    [js "feat: x"; js "fix(core): y"; js "fix(): y"; js "feat:x"; js "feature: x"; js "chore(a)(b): z"]
  = [true; true; false; false; false; false].
Proof. by vm_compute. Qed.

(** ** Sets and sorting keep the elements *)

Lemma has_true x l : has x l = true ↔ x ∈ l.
Proof.
  unfold has. rewrite existsb_exists. setoid_rewrite js_eqb_true. rewrite list_elem_of_In. naive_solver.
Qed.

Lemma has_false x l : has x l = false ↔ x ∉ l.
Proof. rewrite <- not_true_iff_false, has_true. done. Qed.

Lemma elem_of_dedup_from seen l x : x ∈ dedup_from seen l ↔ x ∈ l ∧ x ∉ seen.
Proof.
  revert seen. induction l as [|y l IH]; intros seen; simpl; [set_solver|].
  destruct (has y seen) eqn:E.
  - apply has_true in E. rewrite IH. set_solver.
  - apply has_false in E. rewrite !elem_of_cons, IH. destruct (decide (x = y)); set_solver.
Qed.

Lemma NoDup_dedup_from seen l : NoDup (dedup_from seen l).
Proof.
  revert seen. induction l as [|y l IH]; intros seen; simpl; [constructor|].
  destruct (has y seen); [done|]. constructor; [|done]. rewrite elem_of_dedup_from. set_solver.
Qed.

Lemma elem_of_sort_new_Set l x : x ∈ sort (new_Set l) ↔ x ∈ l.
Proof. rewrite sort_perm. unfold new_Set. rewrite elem_of_dedup_from. set_solver. Qed.

Lemma map_res_Ok {A B} (f : A → res B) l ys :
  map_res f l = Ok ys ↔ Forall2 (λ x y, f x = Ok y) l ys.
Proof.
  revert ys. induction l as [|x l IH]; intros ys; simpl.
  - split; [intros; simplify_eq; constructor|by inversion 1].
  - rewrite bind_Ok. split.
    + intros (y & Hx & (ys' & Hl & ?)%bind_Ok). simplify_eq. constructor; [done|]. by apply IH.
    + inversion 1 as [|? y ? ys' Hy Hys]; subst. exists y. split; [done|]. apply bind_Ok. exists ys'.
      split; [by apply IH|done].
Qed.

(** The normal forms of the paths, each once; never none. *)
Lemma normalizeExpectedFiles_Ok ps fs : normalizeExpectedFiles ps = Ok fs →
  (∀ f, f ∈ fs ↔ ∃ p, p ∈ ps ∧ normalizeProjectRelativePath p = Ok f) ∧ NoDup fs ∧ fs ≠ [].
Proof.
  unfold normalizeExpectedFiles. intros (ns & Hn & H)%bind_Ok. apply map_res_Ok in Hn.
  assert (fs = sort (new_Set ns) ∧ fs ≠ []) as [-> Hne] by (destruct (sort (new_Set ns)); naive_solver).
  split_and!; [|rewrite sort_perm; apply NoDup_dedup_from|done].
  intros f. rewrite elem_of_sort_new_Set, list_elem_of_lookup. split.
  - intros [i Hi]. destruct (Forall2_lookup_r _ _ _ _ _ Hn Hi) as (p & ? & ?). exists p.
    rewrite list_elem_of_lookup. eauto.
  - intros (p & [i Hi]%list_elem_of_lookup & Hpf).
    destruct (Forall2_lookup_l _ _ _ _ _ Hn Hi) as (f' & ? & ?). exists i. congruence.
Qed.

(** ** Segments *)

Abbreviation join := (js_join [slash]).

Definition no_slash (s : jsstring) : Prop := slash ∉ s.

Lemma split_slash_spec s : split_slash s ≠ [] ∧ Forall no_slash (split_slash s) ∧
  (∀ seg c, seg ∈ split_slash s → c ∈ seg → c ∈ s).
Proof.
  induction s as [|c s (IH1 & IH2 & IH3)]; simpl; [split_and!; [done|apply Forall_singleton, not_elem_of_nil|by intros seg c ->%list_elem_of_singleton]|].
  destruct (N.eqb_spec c slash) as [->|Hc].
  { split_and!; [done|constructor; [apply not_elem_of_nil|done]|]. intros seg c [->|Hs]%elem_of_cons Hc; [by apply not_elem_of_nil in Hc|]. right. eauto. }
  destruct (split_slash s) as [|seg rest]; [done|]. split_and!; [done| |].
  - inversion_clear IH2. constructor; [|done]. unfold no_slash in *. set_solver.
  - intros x d. rewrite elem_of_cons. intros [->|Hx]; [|set_solver].
    rewrite !elem_of_cons. intros [->|Hd]; [by left|right; set_solver].
Qed.

Lemma split_no_slash s : no_slash s → split_slash s = [s].
Proof.
  unfold no_slash. induction s as [|c s IH]; simpl; intros H; [done|].
  apply not_elem_of_cons in H as [Hc Hs]. rewrite (proj2 (N.eqb_neq _ _)) by congruence. by rewrite IH.
Qed.

Lemma split_slash_app s t : no_slash s → split_slash (s ++ slash :: t) = s :: split_slash t.
Proof.
  unfold no_slash. induction s as [|c s IH]; simpl; intros H; [done|].
  apply not_elem_of_cons in H as [Hc Hs]. rewrite (proj2 (N.eqb_neq _ _)) by congruence. by rewrite IH.
Qed.

Lemma join_cons s t l : join (s :: t :: l) = s ++ slash :: join (t :: l).
Proof. done. Qed.

Lemma split_join segs : segs ≠ [] → Forall no_slash segs → split_slash (join segs) = segs.
Proof.
  induction segs as [|s [|t segs] IH]; intros Hne Hs; [done| |].
  - simpl. by apply split_no_slash, (Forall_singleton no_slash).
  - apply Forall_cons in Hs as [Hs Ht]. rewrite join_cons, split_slash_app, IH; done.
Qed.

Lemma split_join_slash segs : segs ≠ [] → Forall no_slash segs →
  split_slash (join segs ++ [slash]) = segs ++ [[]].
Proof.
  induction segs as [|s [|t segs] IH]; intros Hne Hs; [done| |].
  - simpl. by apply split_slash_app, (Forall_singleton no_slash).
  - apply Forall_cons in Hs as [Hs Ht]. rewrite join_cons, <- app_assoc, <- app_comm_cons.
    rewrite split_slash_app, IH; done.
Qed.

(** ** Normal forms *)

(** A segment of a safe path. *)
Record safe_segment (s : jsstring) : Prop := {
  sg_slash : no_slash s; sg_backslash : backslash ∉ s; sg_zero : 0%N ∉ s;
  sg_empty : s ≠ []; sg_dot : s ≠ dot; sg_dotdot : s ≠ dotdot; sg_git : s ≠ js ".git" }.

(** What a project-relative path should be: non-empty segments below the
    project, with a slash at the end or not. *)
Definition safe_path (n : jsstring) : Prop :=
  ∃ segs, segs ≠ [] ∧ Forall safe_segment segs ∧ (n = join segs ∨ n = join segs ++ [slash]).

Lemma push_segment_elem above stack seg x :
  x ∈ push_segment above stack seg → x ∈ stack ∨ x = dotdot ∨ (x = seg ∧ seg ≠ [] ∧ seg ≠ dot).
Proof.
  unfold push_segment. destruct (js_eqb seg []) eqn:E1; simpl; [auto|].
  destruct (js_eqb seg dot) eqn:E2; simpl; [auto|]. bools.
  destruct (js_eqb seg dotdot) eqn:E3; [|set_solver].
  destruct stack as [|top stack]; [destruct above; set_solver|].
  destruct (js_eqb top dotdot), above; set_solver.
Qed.

Lemma normal_segments_elem above segs x :
  x ∈ normal_segments above segs → x = dotdot ∨ (x ∈ segs ∧ x ≠ [] ∧ x ≠ dot).
Proof.
  unfold normal_segments. rewrite list_elem_of_In, <- in_rev, <- list_elem_of_In.
  assert (∀ stack, x ∈ foldl (push_segment above) stack segs →
            x ∈ stack ∨ x = dotdot ∨ (x ∈ segs ∧ x ≠ [] ∧ x ≠ dot)) as H.
  { induction segs as [|s segs IH]; intros stack; simpl; [auto|].
    intros [[?|[?|(-> & ? & ?)]]%push_segment_elem|?]%IH; set_solver. }
  intros [?%not_elem_of_nil|?]%H; [done|done].
Qed.

Lemma push_safe above stack s : safe_segment s → push_segment above stack s = s :: stack.
Proof.
  intros []. unfold push_segment. rewrite !(proj2 (js_eqb_false _ _)) by done. done.
Qed.

Lemma normal_segments_safe above segs : Forall safe_segment segs → normal_segments above segs = segs.
Proof.
  intros H. unfold normal_segments.
  assert (∀ stack, foldl (push_segment above) stack segs = rev segs ++ stack) as ->.
  { induction H as [|s segs Hs _ IH]; intros stack; simpl; [done|]. by rewrite push_safe, IH, <- app_assoc. }
  by rewrite app_nil_r, rev_involutive.
Qed.

Lemma normal_segments_trailing above segs : normal_segments above (segs ++ [[]]) = normal_segments above segs.
Proof. unfold normal_segments. by rewrite foldl_app. Qed.

Lemma join_nonempty segs : segs ≠ [] → Forall (λ s, s ≠ []) segs → join segs ≠ [].
Proof.
  intros Hne Hs. destruct segs as [|s [|t segs]]; [done|by inversion Hs|].
  rewrite join_cons. by destruct s.
Qed.

(** [normalize] on a relative path. *)
Lemma normalize_relative p : p ≠ [] → isAbsolute p = false →
  let segs := normal_segments true (split_slash p) in
  normalize p = match segs with
                | [] => if ends_slash p then js "./" else dot
                | _ => join segs ++ (if ends_slash p then [slash] else [])
                end.
Proof.
  intros Hp Ha segs. unfold normalize. rewrite Ha. simpl. fold segs.
  assert (segs ≠ [] → join segs ≠ []) as Hj.
  { intros Hs. apply join_nonempty; [done|]. apply Forall_forall. intros x [->|(_ & ? & _)]%normal_segments_elem; done. }
  destruct p; [done|]. destruct segs as [|s segs]; [done|].
  destruct (join (s :: segs)); [by destruct Hj|done].
Qed.

Lemma normalize_absolute p : isAbsolute p = true → isAbsolute (normalize p) = true.
Proof.
  intros Ha. unfold normalize. rewrite Ha. destruct p; [done|]. by destruct (js_join _ _).
Qed.

Lemma ends_slash_join segs : segs ≠ [] → Forall (λ s, no_slash s ∧ s ≠ []) segs → ends_slash (join segs) = false.
Proof.
  induction segs as [|s [|t segs] IH]; intros Hne Hs; [done| |].
  - apply Forall_singleton in Hs as [Hs Hn]. simpl. unfold ends_slash.
    destruct (last s) as [c|] eqn:E; [|done]. apply N.eqb_neq. intros ->.
    apply last_Some_elem_of in E. by apply Hs.
  - apply Forall_cons in Hs as [_ Hs]. rewrite join_cons.
    specialize (IH ltac:(done) Hs). unfold ends_slash in *.
    rewrite last_app, last_cons. destruct (last (join (t :: segs))) eqn:E; [done|].
    apply last_None in E. exfalso. revert E. apply join_nonempty; [done|]. eapply Forall_impl; [done|]. naive_solver.
Qed.

Lemma join_elem segs c : c ∈ join segs → c = slash ∨ ∃ s, s ∈ segs ∧ c ∈ s.
Proof.
  induction segs as [|s [|t segs] IH]; [by intros ?%not_elem_of_nil|simpl; set_solver|].
  rewrite join_cons, elem_of_app, elem_of_cons. intros [?|[?|[?|(x & ? & ?)]%IH]]; [set_solver|auto|auto|set_solver].
Qed.

Lemma replace_backslashes_id s : backslash ∉ s → replace_backslashes s = s.
Proof.
  induction s as [|c s IH]; simpl; intros H; [done|]. apply not_elem_of_cons in H as [Hc Hs].
  rewrite (proj2 (N.eqb_neq _ _)) by congruence. by rewrite IH.
Qed.

Lemma replace_backslashes_elem s c : c ∈ replace_backslashes s → c = slash ∨ (c ≠ backslash ∧ c ∈ s).
Proof.
  unfold replace_backslashes. intros (d & -> & Hd)%list_elem_of_fmap.
  destruct (N.eqb_spec d backslash); [by left|by right].
Qed.

Lemma includes_false c s : includes c s = false ↔ c ∉ s.
Proof.
  unfold includes. rewrite <- not_true_iff_false, existsb_exists, list_elem_of_In.
  setoid_rewrite N.eqb_eq. naive_solver.
Qed.

Lemma safe_path_chars n : safe_path n → n ≠ [] ∧ isAbsolute n = false ∧ (backslash ∉ n) ∧ (0%N ∉ n).
Proof.
  intros (segs & Hne & Hs & Hn).
  assert (∀ c, c ∈ n → c = slash ∨ ∃ s, s ∈ segs ∧ c ∈ s) as Hc.
  { intros c Hc. destruct Hn as [->| ->]; [by apply join_elem|].
    apply elem_of_app in Hc as [Hc|Hc]; [by apply join_elem|]. left. by apply list_elem_of_singleton. }
  rewrite Forall_forall in Hs. split_and!.
  - assert (join segs ≠ []) by (apply join_nonempty; [done|]; apply Forall_forall; intros x Hx; by apply Hs).
    destruct Hn as [->| ->]; [done|]. by destruct (join segs).
  - destruct segs as [|[|c s] segs]; [done|by destruct (Hs []); [left|]|].
    assert (c ≠ slash) as Hcs.
    { intros ->. destruct (Hs (slash :: s)) as [H _ _ _ _ _ _]; [left|]. apply H. left. }
    assert (∃ t, n = c :: t) as [t ->] by (destruct segs, Hn as [->| ->]; simpl; eauto).
    by apply N.eqb_neq.
  - intros [?|(s & Hx & Hb)]%Hc; [done|]. by destruct (Hs s Hx).
  - intros [?|(s & Hx & Hb)]%Hc; [done|]. by destruct (Hs s Hx).
Qed.

Lemma safe_path_split n : safe_path n →
  ∃ segs, Forall safe_segment segs ∧ segs ≠ [] ∧
    (split_slash n = segs ∨ split_slash n = segs ++ [[]]) ∧
    n = join segs ++ (if ends_slash n then [slash] else []).
Proof.
  intros (segs & Hne & Hs & Hn). exists segs.
  assert (Forall no_slash segs) as Hns by (eapply Forall_impl; [done|]; by intros ? []).
  assert (ends_slash (join segs) = false) as He.
  { apply ends_slash_join; [done|]. apply (Forall_impl _ _ _ Hs). intros ? []. by split. }
  destruct Hn as [->| ->].
  - split_and!; try done; [left; by apply split_join|]. by rewrite He, app_nil_r.
  - split_and!; try done; [right; by apply split_join_slash|]. unfold ends_slash. by rewrite last_snoc.
Qed.

Lemma normalize_safe n : safe_path n → normalize n = n.
Proof.
  intros Hs. pose proof (safe_path_chars _ Hs) as (Hne & Ha & _). rewrite normalize_relative by done.
  destruct (safe_path_split _ Hs) as (segs & Hsafe & Hsne & Hsplit & Hn).
  assert (normal_segments true (split_slash n) = segs) as ->.
  { destruct Hsplit as [->| ->]; [|rewrite normal_segments_trailing]; by apply normal_segments_safe. }
  destruct segs; [done|]. by symmetry.
Qed.

Lemma safe_path_no_segment n seg : safe_path n → seg ≠ [] → ¬ safe_segment seg → has seg (split_slash n) = false.
Proof.
  intros Hs Hne Hseg. apply has_false. intros Hin.
  destruct (safe_path_split _ Hs) as (segs & Hsafe & _ & Hsplit & _). rewrite Forall_forall in Hsafe.
  apply Hseg, Hsafe. destruct Hsplit as [E|E]; rewrite E in Hin; [done|].
  apply elem_of_app in Hin as [?|?%list_elem_of_singleton]; done.
Qed.

Lemma starts_with_split p s : no_slash p → starts_with (p ++ [slash]) s = true →
  ∃ rest, split_slash s = p :: rest.
Proof.
  intros Hp. revert s. unfold no_slash in Hp. induction p as [|c p IH]; intros [|d s]; try done;
    cbn [app starts_with split_slash].
  - rewrite andb_true_r. intros H%N.eqb_eq. rewrite <- H, N.eqb_refl. eauto.
  - apply not_elem_of_cons in Hp as [Hc Hp]. intros [H0%N.eqb_eq H]%andb_true_iff. subst d.
    rewrite (proj2 (N.eqb_neq _ _)) by congruence. destruct (IH Hp _ H) as [rest ->]. eauto.
Qed.

(** A safe path is its own normal form. *)
Lemma safe_path_normal n : safe_path n → normalizeProjectRelativePath n = Ok n.
Proof.
  intros Hs. pose proof (safe_path_chars _ Hs) as (Hne & Ha & Hb & Hz).
  pose proof (λ seg, safe_path_no_segment n seg Hs) as Hseg.
  assert (has dotdot (split_slash n) = false) as Hdd by (apply Hseg; [done|by intros []]).
  assert (has (js ".git") (split_slash n) = false) as Hgit by (apply Hseg; [done|by intros []]).
  assert (has dot (split_slash n) = false) as Hdot by (apply Hseg; [done|by intros []]).
  assert (starts_with (js "../") n = false) as Hst.
  { destruct (starts_with (js "../") n) eqn:E; [|done].
    apply (starts_with_split dotdot) in E as [rest E]; [|by vm_compute; set_solver].
    rewrite E in Hdd. by vm_compute in Hdd. }
  assert (js_eqb n dot = false ∧ js_eqb n dotdot = false) as [Hd1 Hd2].
  { rewrite !js_eqb_false. split; intros ->; [by vm_compute in Hdot|by vm_compute in Hdd]. }
  unfold normalizeProjectRelativePath. rewrite replace_backslashes_id, normalize_safe by done.
  rewrite Ha, (proj2 (includes_false _ _) Hz), Hdd, Hgit, Hst, Hd1, Hd2.
  by destruct n.
Qed.

(** The segments of an accepted normal form are safe. *)
Lemma accepted_segments p s : 0%N ∉ p → backslash ∉ p →
  s ∈ normal_segments true (split_slash p) → s ≠ dotdot → s ≠ js ".git" → safe_segment s.
Proof.
  intros Hz Hb Hs Hdd Hgit. pose proof (split_slash_spec p) as (_ & Hns & Hchars).
  rewrite Forall_forall in Hns. apply normal_segments_elem in Hs as [?|(Hin & ? & ?)]; [done|].
  split; try done; [by apply Hns|..]; intros Hc; by eapply Hchars in Hc.
Qed.

(** The result on a path that does not start with a backslash. *)
Lemma normalized_relative_path path n : normalizeProjectRelativePath path = Ok n →
  head path ≠ Some backslash → n = js "./" ∨ safe_path n.
Proof.
  unfold normalizeProjectRelativePath. destruct (negb (truthy path) || _ || _) eqn:E0; [done|].
  apply orb_false_iff in E0 as [[Htr Hz%includes_false]%orb_false_iff Habs].
  intros H Hh. set (p := replace_backslashes path) in *.
  assert (p ≠ [] ∧ isAbsolute p = false) as [Hp Ha].
  { unfold p. destruct path as [|c path]; [done|]. simpl in *. split; [done|].
    destruct (N.eqb_spec c backslash) as [->|]; done. }
  assert ((0%N ∉ p) ∧ (backslash ∉ p)) as [Hpz Hpb].
  { split; intros [?|[? ?]]%replace_backslashes_elem; done. }
  destruct (_ || has (js ".git") _) eqn:E1 in H; [done|]. injection H as <-.
  apply orb_false_iff in E1 as [[[[Hdot _]%orb_false_iff _]%orb_false_iff Hdd%has_false]%orb_false_iff Hgit%has_false].
  pose proof (accepted_segments p) as Hacc. pose proof (normal_segments_elem true (split_slash p)) as Helem.
  rewrite (normalize_relative p Hp Ha) in *.
  destruct (normal_segments true (split_slash p)) as [|s segs'] eqn:Es.
  { left. destruct (ends_slash p); [done|by bools]. }
  right. exists (s :: segs'). split_and!; [done| |destruct (ends_slash p); [by right|left; by rewrite app_nil_r]].
  assert (Forall no_slash (s :: segs')) as Hns.
  { pose proof (split_slash_spec p) as (_ & Hns & _). rewrite Forall_forall in Hns.
    apply Forall_forall. intros x [->|[? _]]%Helem; [by vm_compute; set_solver|by apply Hns]. }
  assert (∀ x, x ∈ s :: segs' → x ∈ split_slash (join (s :: segs') ++ (if ends_slash p then [slash] else []))) as Hin.
  { intros x Hx. destruct (ends_slash p).
    - rewrite split_join_slash by done. set_solver.
    - rewrite app_nil_r, split_join by done. done. }
  apply Forall_forall. intros x Hx. apply Hacc; try done; intros ->; by eapply Hin in Hx.
Qed.

(** A path that [normalizeProjectRelativePath] accepts and that does not
    start with a backslash is normalised to a fixed point: the project root
    written as a dot and a slash, or a path of non-empty segments with no dot,
    dot-dot or .git segment, no backslash and no NUL. A path that starts with
    a backslash escapes the absolute-path check and becomes an absolute path,
    which the function itself would refuse. *)
Theorem normalized_path path n : normalizeProjectRelativePath path = Ok n →
  match head path with
  | Some c =>
      if (c =? backslash)%N then isAbsolute n = true ∧ normalizeProjectRelativePath n = fail InvalidPath [n]
      else normalizeProjectRelativePath n = Ok n ∧ (n = js "./" ∨ safe_path n)
  | None => False
  end.
Proof.
  intros H. destruct path as [|c path]; [done|]. simpl head.
  destruct (N.eqb_spec c backslash) as [->|Hc].
  - assert (isAbsolute n = true) as Ha.
    { unfold normalizeProjectRelativePath in H. destruct (_ || _ || _) in H; [done|].
      destruct (_ || has (js ".git") _) in H; [done|]. assert (normalize (replace_backslashes (backslash :: path)) = n) as <- by congruence.
      by apply normalize_absolute. }
    split; [done|]. unfold normalizeProjectRelativePath. by rewrite Ha, orb_true_r.
  - destruct (normalized_relative_path _ _ H) as [->|Hs]; [naive_solver|split; [by vm_compute|by left]|].
    split; [by apply safe_path_normal|by right].
Qed.

Lemma normalized_path_witness :
  normalizeProjectRelativePath (js "src/../docs//a.md") = Ok (js "docs/a.md") ∧
  normalizeProjectRelativePath (js "docs/a.md") = Ok (js "docs/a.md") ∧
  isAbsolute (js "/etc/passwd") = true.
Proof.
  assert (normalizeProjectRelativePath (js "src/../docs//a.md") = Ok (js "docs/a.md")) as H1 by (vm_compute; reflexivity).
  assert (normalizeProjectRelativePath (backslash :: js "etc/passwd") = Ok (js "/etc/passwd")) as H2 by (vm_compute; reflexivity).
  split; [exact H1|]. split; [exact (proj1 (normalized_path _ _ H1))|exact (proj1 (normalized_path _ _ H2))].
Defined.

(** ** File lists *)

(** A normal form that can be normalised at all is its own normal form. *)
Lemma normalize_twice p f f' : normalizeProjectRelativePath p = Ok f →
  normalizeProjectRelativePath f = Ok f' → f' = f.
Proof.
  intros H1 H2. destruct p as [|c p]; [done|].
  destruct (decide (c = backslash)) as [->|Hc].
  - unfold normalizeProjectRelativePath in H1. destruct (_ || _ || _) in H1; [done|].
    destruct (_ || has (js ".git") _) in H1; [done|].
    assert (isAbsolute f = true) as Ha.
    { assert (normalize (replace_backslashes (backslash :: p)) = f) as <- by congruence. by apply normalize_absolute. }
    unfold normalizeProjectRelativePath in H2. by rewrite Ha, orb_true_r in H2.
  - destruct (normalized_relative_path _ _ H1) as [->|Hs]; [naive_solver| |].
    + assert (normalizeProjectRelativePath (js "./") = Ok (js "./")) by (by vm_compute). congruence.
    + apply safe_path_normal in Hs. congruence.
Qed.

(** Normalising a normalised list again keeps its elements, when it succeeds. *)
Lemma renormalize ps fs fs' : normalizeExpectedFiles ps = Ok fs → normalizeExpectedFiles fs = Ok fs' →
  ∀ f, f ∈ fs' ↔ f ∈ fs.
Proof.
  intros H1 H2 f. pose proof H2 as H2'. unfold normalizeExpectedFiles in H2'.
  apply bind_Ok in H2' as (ns & Hns%map_res_Ok & _).
  apply normalizeExpectedFiles_Ok in H1 as (H1 & _), H2 as (H2 & _).
  rewrite H2. split.
  - intros (p & Hp & Hpf). pose proof Hp as (q & _ & Hq)%H1. by rewrite (normalize_twice _ _ _ Hq Hpf).
  - intros Hf. exists f. split; [done|]. pose proof Hf as (q & _ & Hq)%H1.
    apply list_elem_of_lookup in Hf as [i Hi]. destruct (Forall2_lookup_l _ _ _ _ _ Hns Hi) as (f' & _ & Hf').
    by rewrite (normalize_twice _ _ _ Hq Hf') in Hf'.
Qed.

Lemma filter_nil_forall {A} (b : A → bool) l : filter (λ x, b x = false) l = [] → ∀ x, x ∈ l → b x = true.
Proof.
  intros H x Hx. destruct (b x) eqn:E; [done|]. exfalso. apply (not_elem_of_nil x). rewrite <- H.
  by apply list_elem_of_filter.
Qed.

Lemma assertFilesWithinExpected_Ok fs expected ps : normalizeExpectedFiles ps = Ok expected →
  assertFilesWithinExpected fs expected = Ok tt →
  ∃ fs', normalizeExpectedFiles fs = Ok fs' ∧ ∀ f, f ∈ fs' → f ∈ expected.
Proof.
  intros Hp. unfold assertFilesWithinExpected.
  intros (expected' & He & (fs' & Hf & H)%bind_Ok)%bind_Ok. exists fs'. split; [done|].
  intros f Hin. rewrite <- (renormalize _ _ _ Hp He). apply has_true.
  destruct (filter _ _) eqn:E; [|done]. by apply (filter_nil_forall (λ f, has f expected') fs').
Qed.

Lemma assertFilesInclude_Ok fs required prefix ps qs :
  normalizeExpectedFiles ps = Ok fs → normalizeExpectedFiles qs = Ok required →
  assertFilesInclude fs required prefix = Ok tt → ∀ f, f ∈ required → f ∈ fs.
Proof.
  intros Hp Hq. unfold assertFilesInclude.
  intros (fs' & Hf & (required' & Hr & H)%bind_Ok)%bind_Ok f Hin.
  rewrite <- (renormalize _ _ _ Hp Hf). apply has_true.
  destruct (filter _ _) eqn:E; [|done]. apply (filter_nil_forall (λ f, has f fs') required'); [done|].
  by rewrite (renormalize _ _ _ Hq Hr).
Qed.

Lemma assertSameFiles_Ok fs expected prefix ps : normalizeExpectedFiles ps = Ok expected →
  assertSameFiles fs expected prefix = Ok tt →
  ∃ fs', normalizeExpectedFiles fs = Ok fs' ∧ ∀ f, f ∈ fs' ↔ f ∈ expected.
Proof.
  intros Hp. unfold assertSameFiles.
  intros (fs' & Hf & (expected' & He & H)%bind_Ok)%bind_Ok. exists fs'. split; [done|].
  case_bool_decide; [|done]. subst. by apply (renormalize ps).
Qed.

(** ** Check runs *)

Lemma sort_nil l : sort l = [] → l = [].
Proof. intros H. apply Permutation_nil. rewrite <- H. apply sort_perm. Qed.

Lemma new_Set_nil l : new_Set l = [] → l = [].
Proof. by destruct l. Qed.

(** The rollup passes exactly when every run does. *)
Lemma rollup_passed rs : integrationStatusForCheckRuns rs = ChecksPassed ↔ allCheckRunsPassed rs = true.
Proof.
  unfold integrationStatusForCheckRuns, rollupCheckRuns, allCheckRunsPassed. simpl. rewrite forallb_forall. split.
  - destruct (sort _) eqn:E; [|done]. intros _ r Hr%list_elem_of_In.
    apply sort_nil, new_Set_nil, map_eq_nil in E. by eapply filter_nil_forall in E.
  - intros H. replace (filter _ rs) with ([] : list CheckRun); [done|]. symmetry.
    induction rs as [|r rs IH]; [done|]. rewrite filter_cons, decide_False.
    + apply IH. intros x Hx. apply H. by right.
    + rewrite H by (by left). done.
Qed.

(** ** Histories *)

Inductive op : Set :=
| OApplied (changed : list jsstring) (source : option jsstring) (now : jsstring)
| OChecksRunning (now : jsstring)
| ORecordChecks (runs : list CheckRun) (now : jsstring)
| OCommit (c : CommitCandidate) (now : jsstring)
| OPush (p : PushAttempt) (now : jsstring)
| OPromote (p : PushAttempt) (now : jsstring)
| OReject (why now : jsstring).

Definition exec (a : Attempt) (o : op) : res Attempt :=
  match o with
  | OApplied changed source now => markWorkerOutputApplied a changed source now
  | OChecksRunning now => markChecksRunning a now
  | ORecordChecks runs now => recordCheckRuns a runs now
  | OCommit c now => markCommitCreated a c now
  | OPush p now => markPushed a p now
  | OPromote p now => markPromoted a p now
  | OReject why now => markRejected a why now
  end.

Inductive reaches : Attempt → Attempt → Prop :=
| reaches_refl a : reaches a a
| reaches_step a a' a'' o : exec a o = Ok a' → reaches a' a'' → reaches a a''.

(** The statuses an operation may start from. *)
Definition allowed (o : op) : list Status :=
  match o with
  | OApplied _ _ _ => [Opened]
  | OChecksRunning _ => [Applied; ChecksFailed; ChecksRunning]
  | ORecordChecks _ _ => [ChecksRunning]
  | OCommit _ _ => [ChecksPassed]
  | OPush _ _ => [CommitCreated]
  | OPromote _ _ => [Pushed]
  | OReject _ _ => [Opened; Applied; ChecksRunning; ChecksFailed; ChecksPassed; CommitCreated]
  end.

(** The edges of the life cycle. *)
Definition edge (s s' : Status) : bool :=
  match s, s' with
  | Opened, Applied
  | (Applied | ChecksFailed | ChecksRunning), ChecksRunning
  | ChecksRunning, (ChecksPassed | ChecksFailed)
  | ChecksPassed, CommitCreated
  | CommitCreated, Pushed
  | Pushed, Pushed => true
  | (Pushed | Rejected), Rejected => false
  | _, Rejected => true
  | _, _ => false
  end.

Lemma assertStatus_Ok a l : assertStatus a l = Ok tt ↔ status a ∈ l.
Proof. unfold assertStatus. case_bool_decide; [done|]. split; done. Qed.

Lemma assertStatus_fail a l : status a ∉ l → assertStatus a l = fail InvalidTransition [status_name (status a)].
Proof. intros H. unfold assertStatus. by rewrite bool_decide_false. Qed.

Lemma rollup_cases rs : integrationStatusForCheckRuns rs = ChecksPassed ∨ integrationStatusForCheckRuns rs = ChecksFailed.
Proof. unfold integrationStatusForCheckRuns, rollupCheckRuns. simpl. destruct (sort _); auto. Qed.

(** Whether the commit candidate is what the review allows. *)
Definition commit_ok (a : Attempt) (c : CommitCandidate) : Prop :=
  match merge a with
  | None => ∀ f, f ∈ files c → f ∈ expectedFiles a
  | Some m =>
      parentCommits c = Some [expectedTargetCommit m; default (sourceCommit m) (appliedMergeSourceCommit a)] ∧
      ∃ applied, appliedFiles a = Some applied ∧ (∀ f, f ∈ files c ↔ f ∈ applied) ∧
        (∀ f, f ∈ changedFiles (workerOutput a) → f ∈ applied)
  end.

Definition has_commit (s : Status) : bool := match s with CommitCreated | Pushed => true | _ => false end.
Definition after_checks (s : Status) : bool := match s with ChecksPassed | CommitCreated | Pushed => true | _ => false end.
Definition was_applied (s : Status) : bool := match s with Opened | Rejected => false | _ => true end.

(** What holds of every attempt on its way to a push. *)
Record sound (a : Attempt) : Prop := {
  so_expected : ∃ ps, normalizeExpectedFiles ps = Ok (expectedFiles a);
  so_changed : changedFiles (workerOutput a) ≠ [] →
    ∃ ps, normalizeExpectedFiles ps = Ok (changedFiles (workerOutput a));
  so_applied : was_applied (status a) = true → merge a ≠ None →
    ∃ applied, appliedFiles a = Some applied ∧ (∃ ps, normalizeExpectedFiles ps = Ok applied) ∧
      (∀ f, f ∈ changedFiles (workerOutput a) → f ∈ applied);
  so_checks : after_checks (status a) = true → allCheckRunsPassed (checkRuns a) = true;
  so_commit : has_commit (status a) = true → ∃ c, commitCandidate a = Some c ∧ commit_ok a c;
  so_push : status a = Pushed → ∃ c p, commitCandidate a = Some c ∧ pushAttempt a = Some p ∧
    pa_commitSha p = commitSha c ∧
    Forall (λ q, pa_commitSha q = commitSha c) (default [] (promotionAttempts a));
  so_promotions : status a ≠ Pushed → status a ≠ Rejected → promotionAttempts a = None }.

Lemma sound_open i a : openIntegrationAttempt i = Ok a → sound a.
Proof.
  unfold openIntegrationAttempt. destruct (decision _); try done.
  intros (x & _ & H)%bind_Ok. apply bind_Ok in H as (expected & He & H).
  apply bind_Ok in H as (m & _ & H). apply seq_Ok in H as [_ H].
  apply bind_Ok in H as (changed & Hc & H). injection H as <-.
  split; simpl; try done; [by eexists|].
  intros Hne. destruct (is_merge m && is_empty _); [naive_solver|by eexists].
Qed.

Lemma sound_applied a changed source now a' : sound a → markWorkerOutputApplied a changed source now = Ok a' → sound a'.
Proof.
  intros [S1 S2 _ _ _ _ S7] H. unfold markWorkerOutputApplied in H.
  apply seq_Ok in H as [Hst%assertStatus_Ok%list_elem_of_singleton H].
  apply bind_Ok in H as (changed' & Hch & H). apply seq_Ok in H as [Ha H].
  apply bind_Ok in H as (src & _ & H). rewrite Hst in *.
  unfold assertIntegrationAppliedFiles in Ha. destruct (merge a) as [m|] eqn:Em.
  - injection H as <-. split; simpl; try done; [|intros _ _; by apply S7].
    intros _ _. exists changed'. split_and!; [done|by eexists|].
    destruct (changedFiles (workerOutput a)) as [|f fs] eqn:Ef; [set_solver|].
    destruct S2 as [qs Hq]; [done|]. rewrite <- Ef in *. by eapply assertFilesInclude_Ok.
  - destruct src; [done|]. injection H as <-. split; simpl; try done; [by eexists|intros _ _; by apply S7].
Qed.

(** The guards of [markCommitCreated] establish [commit_ok]. *)
Lemma commit_ok_created a c fs : sound a → status a = ChecksPassed →
  assertIntegrationCommitFiles a (files c) = Ok tt →
  match merge a with
  | Some m => assertMergeCommitParents (parentCommits c) m (appliedMergeSourceCommit a)
  | None => Ok tt
  end = Ok tt →
  normalizeExpectedFiles (files c) = Ok fs →
  ∀ a' c', merge a' = merge a → expectedFiles a' = expectedFiles a → appliedFiles a' = appliedFiles a →
    appliedMergeSourceCommit a' = appliedMergeSourceCommit a → workerOutput a' = workerOutput a →
    files c' = fs → parentCommits c' = parentCommits c → commit_ok a' c'.
Proof.
  intros [[ps S1] _ S3 _ _ _ _] Hst Hf Hm Hfs a' c' E1 E2 E3 E4 E5 E6 E7.
  unfold commit_ok, assertIntegrationCommitFiles, integrationAppliedFiles in *. rewrite E1, E2, E3, E4, E5, E6, E7.
  destruct (merge a) as [m|].
  - destruct S3 as (applied & Ea & [qs Hq] & Hin); [by rewrite Hst|done|]. rewrite Ea in Hf. simpl in Hf.
    destruct (assertSameFiles_Ok _ _ _ _ Hq Hf) as (fs' & Hfs' & Hiff). assert (fs' = fs) as -> by congruence.
    split; [|by exists applied]. unfold assertMergeCommitParents in Hm. by case_bool_decide.
  - destruct (assertFilesWithinExpected_Ok _ _ _ S1 Hf) as (fs' & Hfs' & Hin). by assert (fs' = fs) as -> by congruence.
Qed.

Lemma sound_exec a o a' : sound a → exec a o = Ok a' → sound a'.
Proof.
  intros Hs H. destruct o as [changed source now|now|runs now|c now|p now|p now|why now]; simpl in H.
  { by eapply sound_applied. }
  all: pose proof Hs as [S1 S2 S3 S4 S5 S6 S7].
  - unfold markChecksRunning in H. apply seq_Ok in H as [Hst%assertStatus_Ok H]. injection H as <-.
    split; simpl; try done.
    + intros _. apply S3. by destruct (status a); set_solver.
    + intros _ _. apply S7; intros E; rewrite E in Hst; set_solver.
  - unfold recordCheckRuns in H. apply seq_Ok in H as [Hst%assertStatus_Ok%list_elem_of_singleton H].
    injection H as <-. rewrite Hst in *. split; simpl; try done.
    + intros _. by apply S3.
    + destruct (rollup_cases runs) as [E|E]; rewrite E; [|done]. intros _. by apply rollup_passed.
    + by destruct (rollup_cases runs) as [-> | ->].
    + by destruct (rollup_cases runs) as [-> | ->].
    + intros _ _. by apply S7.
  - unfold markCommitCreated in H. apply seq_Ok in H as [Hst%assertStatus_Ok%list_elem_of_singleton H].
    apply seq_Ok in H as [Hf H]. apply seq_Ok in H as [Hm H]. apply bind_Ok in H as (fs & Hfs & H).
    injection H as <-. rewrite Hst in *. split; simpl; try done; try by intros _; auto.
    intros _. eexists. split; [done|]. by eapply commit_ok_created.
  - unfold markPushed in H. apply seq_Ok in H as [Hst%assertStatus_Ok%list_elem_of_singleton H].
    rewrite Hst in *. destruct (commitCandidate a) as [c|] eqn:Ec; [|done].
    destruct (js_eqb _ _) eqn:E; [|done]. bools. injection H as <-. split; simpl; try done; try by intros _; auto.
    intros _. exists c, p. split_and!; try done. by rewrite S7.
  - unfold markPromoted in H. apply seq_Ok in H as [Hst%assertStatus_Ok%list_elem_of_singleton H].
    destruct S6 as (c & p' & Ec & Ep & Hsha & Hall); [done|]. rewrite Ec, Ep in H.
    destruct (js_eqb _ _) eqn:E; [|done]. bools. injection H as <-. rewrite Hst in *.
    split; simpl; try done; try by intros _; auto.
    { intros _. exists c. split; [done|]. destruct S5 as (c' & Ec' & Hc); [done|]. by simplify_eq. }
    intros _. exists c, p'. split_and!; try done. apply Forall_app; split; [done|]. by apply Forall_singleton.
  - unfold markRejected in H. apply seq_Ok in H as [_ H]. injection H as <-. by split.
Qed.

(** What no operation changes. *)
Definition identity (a : Attempt) :=
  (attemptId a, projectId a, controllerJobId a, a_workerJobId a, targetWorkspacePath a, targetBranch a,
   targetRemote a, expectedFiles a, merge a, reviewDecision a, createdAt a).

Ltac peel H :=
  repeat match type of H with
  | mbind _ _ = Ok _ => apply bind_Ok in H as (? & ? & H)
  | match ?x with _ => _ end = Ok _ => destruct x eqn:?; try discriminate H
  | (if ?x then _ else _) = Ok _ => destruct x eqn:?; try discriminate H
  end.

Lemma exec_identity a o a' : exec a o = Ok a' → identity a' = identity a.
Proof.
  destruct o; simpl; unfold markWorkerOutputApplied, markChecksRunning, recordCheckRuns, markCommitCreated,
    markPushed, markPromoted, markRejected; intros H; peel H; simplify_eq; done.
Qed.

Lemma exec_status a o a' : exec a o = Ok a' → status a ∈ allowed o ∧ edge (status a) (status a') = true.
Proof.
  intros H. assert (status a ∈ allowed o) as Hal.
  { destruct o; simpl in *; unfold markWorkerOutputApplied, markChecksRunning, recordCheckRuns, markCommitCreated,
      markPushed, markPromoted, markRejected in H; apply seq_Ok in H as [H _]; try by apply assertStatus_Ok.
    unfold assertNotTerminal in H. destruct (status a); first [done|set_solver]. }
  split; [done|]. destruct o; simpl in *; unfold markWorkerOutputApplied, markChecksRunning, recordCheckRuns,
    markCommitCreated, markPushed, markPromoted, markRejected in H; peel H; simplify_eq; simpl.
  all: try (destruct (rollup_cases runs) as [-> | ->]).
  all: repeat (apply elem_of_cons in Hal as [Hal|Hal]; [by rewrite Hal|]); by apply not_elem_of_nil in Hal.
Qed.

(** Life cycle of an integration attempt. A successful operation starts
    from a status it allows and follows an edge of the life cycle; it never
    changes the identity, target, merge plan, expected files or review of the
    attempt. A rejected attempt admits no operation, and a pushed one only
    promotions, which keep its commit, its push and its checks. An operation
    called in any other status throws an invalid transition. *)
Theorem integration_lifecycle a o :
  (∀ a', exec a o = Ok a' →
     status a ∈ allowed o ∧ edge (status a) (status a') = true ∧ identity a' = identity a ∧ status a ≠ Rejected ∧
     (status a = Pushed → status a' = Pushed ∧ commitCandidate a' = commitCandidate a ∧
        pushAttempt a' = pushAttempt a ∧ checkRuns a' = checkRuns a)) ∧
  (status a ∉ allowed o → exec a o = fail InvalidTransition [status_name (status a)]).
Proof.
  split.
  - intros a' H. pose proof (exec_status _ _ _ H) as [Hal He].
    split_and!; [done|done|by eapply exec_identity| |].
    + intros E. rewrite E in Hal. destruct o; set_solver.
    + intros E. destruct o; simpl in Hal; rewrite E in Hal; try (exfalso; set_solver).
      simpl in H. unfold markPromoted in H. peel H. by simplify_eq.
  - intros Hn. destruct o; simpl in *; unfold markWorkerOutputApplied, markChecksRunning, recordCheckRuns,
      markCommitCreated, markPushed, markPromoted, markRejected; try by rewrite assertStatus_fail.
    unfold assertNotTerminal. destruct (status a); try done; set_solver.
Qed.

Lemma reaches_sound a a' : reaches a a' → sound a → sound a' ∧ identity a' = identity a.
Proof.
  induction 1 as [|a a1 a2 o H _ IH]; [done|]. intros Hs.
  destruct IH as [? ->]; [by eapply sound_exec|]. split; [done|]. by eapply exec_identity.
Qed.

Lemma open_facts i a : openIntegrationAttempt i = Ok a →
  decision (i_reviewDecision i) = ReviewApproved ∧
  normalizeExpectedFiles (approvedFiles (i_reviewDecision i)) = Ok (expectedFiles a) ∧
  ∀ m, merge a = Some m → sourceCommit m ≠ expectedTargetCommit m ∧
    baseCommit (i_workerOutput i) = Some (expectedTargetCommit m).
Proof.
  unfold openIntegrationAttempt. destruct (decision _); try done.
  intros (x & _ & H)%bind_Ok. apply bind_Ok in H as (expected & He & H).
  apply bind_Ok in H as (m & Hm & H). apply seq_Ok in H as [_ H].
  apply bind_Ok in H as (changed & _ & H). injection H as <-. simpl. split_and!; [done|done|].
  intros m' ->. destruct (i_merge i) as [m0|]; [|done]. apply bind_Ok in Hm as (m1 & Hm & ?). simplify_eq.
  unfold normalizeMergeIntegrationPlan in Hm. peel Hm. bools. by simplify_eq.
Qed.

(** C36: An attempt that is pushed was opened by an approving review; all its
    recorded checks passed with an unchanged workspace; what was pushed, and
    every promotion of it, is the recorded commit. Without a merge the commit
    has only files the review approved. With a merge it has exactly the applied
    files, these include the reviewed patch, and its two distinct parents are
    the worker's base and the merge source. *)
Theorem pushed_attempt_reviewed i a0 a : openIntegrationAttempt i = Ok a0 → reaches a0 a → status a = Pushed →
  decision (i_reviewDecision i) = ReviewApproved ∧
  normalizeExpectedFiles (approvedFiles (i_reviewDecision i)) = Ok (expectedFiles a) ∧
  Forall (λ r, checkRunPassedWithIntegrity r = true) (checkRuns a) ∧
  ∃ c p, commitCandidate a = Some c ∧ pushAttempt a = Some p ∧ pa_commitSha p = commitSha c ∧
    Forall (λ q, pa_commitSha q = commitSha c) (default [] (promotionAttempts a)) ∧
    match merge a with
    | None => ∀ f, f ∈ files c → f ∈ expectedFiles a
    | Some m =>
        parentCommits c = Some [expectedTargetCommit m; default (sourceCommit m) (appliedMergeSourceCommit a)] ∧
        sourceCommit m ≠ expectedTargetCommit m ∧ baseCommit (i_workerOutput i) = Some (expectedTargetCommit m) ∧
        ∃ applied, appliedFiles a = Some applied ∧ (∀ f, f ∈ files c ↔ f ∈ applied) ∧
          (∀ f, f ∈ changedFiles (workerOutput a) → f ∈ applied)
    end.
Proof.
  intros Ho Hr Hst. destruct (reaches_sound _ _ Hr (sound_open _ _ Ho)) as [Hs Hid].
  destruct (open_facts _ _ Ho) as (H1 & H2 & H3). unfold identity in Hid. simplify_eq.
  destruct Hs as [_ _ _ S4 S5 S6 _]. rewrite Hst in *.
  destruct (S6 eq_refl) as (c & p & Hc & Hp & Hsha & Hall). destruct (S5 eq_refl) as (c' & Hc' & Hok).
  assert (c' = c) as -> by congruence.
  split_and!; [done|congruence| |].
  - apply Forall_forall. intros r Hin. specialize (S4 eq_refl). unfold allCheckRunsPassed in S4.
    rewrite forallb_forall in S4. by apply S4, list_elem_of_In.
  - exists c, p. split_and!; try done. unfold commit_ok in Hok.
    destruct (merge a) as [m|] eqn:Em; [|done]. destruct Hok as [? ?], (H3 m) as [? ?]; [congruence|done].
Qed.

(** ** Witnesses: a merge with a reviewed resolution patch, from review to
    promotion. *)
Module Demo.
Definition sha_of (c : N) : jsstring := replicate 40 c.
Definition demo_output : WorkerOutput :=
  mkWorkerOutput None (Some (num_of_Z 4096)) (js "job-1") (js "/work/job-1") None (Some (js "fix.patch"))
    (Some (js "digest")) None None None None (Some (sha_of 97%N)) None None None [js "src/./a.ts"] None.
Definition demo_review : ReviewDecision :=
  mkReviewDecision (js "lead") ReviewApproved (js "ok") [js "src/a.ts"; js "docs/b.md"] [] None.
Definition demo_input : OpenInput :=
  mkOpenInput (js "attempt") (js "project") (js "controller") (js "/work/job-1") (js "/work/main") (js "main")
    (js "origin") (Some (mkMergePlan (js "origin") (js "topic") (sha_of 66%N) (sha_of 97%N)))
    demo_output demo_review (js "t0").
Definition demo_commit : CommitCandidate :=
  mkCommitCandidate (sha_of 99%N) (Some [sha_of 97%N; sha_of 98%N]) (js "feat: merge topic")
    [js "src/z.ts"; js "src/a.ts"] None ScanPassed (js "t3").
Definition demo_push : PushAttempt := mkPushAttempt (js "origin") (js "main") (sha_of 99%N) PushPushed (js "t4").
Definition demo_run : CheckRun :=
  mkCheckRun (js "test") [js "npm"; js "test"] CheckPassed (js "t1") (js "t2") (Some 0) None (Some Unchanged).
Definition demo_ops : list op :=
  [OApplied [js "src/a.ts"; js "src/z.ts"] None (js "t1"); OChecksRunning (js "t1");
   ORecordChecks [demo_run] (js "t2"); OCommit demo_commit (js "t3"); OPush demo_push (js "t4");
   OPromote demo_push (js "t5")].

Fixpoint run_ops (a : Attempt) (os : list op) : res Attempt :=
  match os with
  | [] => Ok a
  | o :: os' => a' ← exec a o; run_ops a' os'
  end.

Lemma history_run_ops a os a' : run_ops a os = Ok a' → reaches a a'.
Proof.
  revert a. induction os as [|o os IH]; intros a; simpl; [intros; simplify_eq; constructor|].
  intros (a1 & H1 & H)%bind_Ok. econstructor; [done|by apply IH].
Qed.

Definition or_else {A} (d : A) (r : res A) : A := match r with Ok a => a | Throw _ => d end.
Definition blank : Attempt :=
  mkAttempt [] [] [] [] [] [] [] [] [] None None None Rejected demo_output demo_review None None None None
    [] None None None None None [] [].
Definition demo_opened : Attempt := or_else blank (openIntegrationAttempt demo_input).
Definition demo_pushed : Attempt := or_else blank (run_ops demo_opened demo_ops).

Lemma pushed_attempt_reviewed_witness :
  status demo_pushed = Pushed ∧ decision (i_reviewDecision demo_input) = ReviewApproved ∧
  merge demo_pushed ≠ None ∧ length (default [] (promotionAttempts demo_pushed)) = 1%nat ∧
  Forall (λ r, checkRunPassedWithIntegrity r = true) (checkRuns demo_pushed).
Proof.
  assert (openIntegrationAttempt demo_input = Ok demo_opened) as Ho by (vm_compute; reflexivity).
  assert (run_ops demo_opened demo_ops = Ok demo_pushed) as Hr by (vm_compute; reflexivity).
  assert (status demo_pushed = Pushed) as Hst by (vm_compute; reflexivity).
  destruct (pushed_attempt_reviewed _ _ _ Ho (history_run_ops _ _ _ Hr) Hst) as (H1 & _ & H3 & _).
  split; [exact Hst|]. split; [exact H1|]. split; [vm_compute; discriminate|]. split; [vm_compute; reflexivity|exact H3].
Defined.

Lemma integration_lifecycle_witness :
  exec demo_pushed (OReject (js "late") (js "t6")) = fail InvalidTransition [js "pushed"].
Proof.
  refine (proj2 (integration_lifecycle demo_pushed (OReject (js "late") (js "t6"))) _).
  apply (bool_decide_unpack _). vm_compute. exact I.
Defined.
End Demo.
End Integration.
