(* ===== verification/SessionCustody.v ===== *)
(** * Session custody on local files

    [src/store-local-file/session-leases] and [session-custody]: the lease
    store [LocalFileLeaseStore] and the session store
    [LocalEncryptedFileStore], which share one lock per provider instance, and
    the generation hash of [src/core/domain/generation-hash.ts].

    The state is the content of the files: the active lease of each provider
    instance, every lease record, every session record. A file is keyed by the
    id whose SHA-256 names it, so collisions of that hash are not modelled; a
    record is its value, its JSON text is not. The lock excludes other
    operations on the same provider, so an operation is one transition; but it
    is made of file accesses, each of which can fail, before or after its
    effect reached the disk ([writeAtomicLocalFile] syncs after the rename),
    and the process can stop at any of them. Each operation takes the list of
    these [fault]s, the clock readings and the random part of a lease id.
    SHA-256 and AES-GCM are parameters. *)

From stdpp Require Import base numbers list option gmap strings pretty.
From S2P Require Import Prelude Json.

#[local] Open Scope Z_scope.
#[local] Set Default Proof Using "Type*".

Module Custody.

(** ** Data *)

Inductive LeaseState : Set := Active | Finalized | WritebackStarted | Committed | Released.

#[global] Instance LeaseState_eq_dec : EqDecision LeaseState.
Proof. solve_decision. Defined.

(** A write of the session that reached its file: generation hash, key. *)
Record Receipt : Set := mkReceipt { rc_hash : jsstring; rc_key : jsstring }.

#[global] Instance Receipt_eq_dec : EqDecision Receipt.
Proof. solve_decision. Defined.

Record Lease : Set := mkLease {
  leaseId : jsstring; l_provider : jsstring; runId : jsstring; attempt : Z;
  restoredGenerationHash : jsstring; state : LeaseState; acquiredAt : date; expiresAt : date;
  finalizedAt : option date; writebackStartedAt : option date; committedAt : option date;
  releasedAt : option date; releaseReason : option jsstring; keyId : option jsstring;
  nextGenerationHash : option jsstring; idempotencyKey : option jsstring;
  persistedWrite : option Receipt }.

Inductive ArtifactKind : Set := JsonFile | EnvToken | Directory | OpaqueBytes.

#[global] Instance ArtifactKind_eq_dec : EqDecision ArtifactKind.
Proof. solve_decision. Defined.

Definition kind_name (k : ArtifactKind) : jsstring :=
  js match k with
     | JsonFile => "json-file" | EnvToken => "env-token" | Directory => "directory"
     | OpaqueBytes => "opaque-bytes"
     end.

Record Artifact : Set := mkArtifact {
  kind : ArtifactKind; providerId : jsstring; formatVersion : jsstring; bytes : list N;
  contentType : jsstring; createdAt : option date; updatedAt : option date }.

Abbreviation metadata_t := (gmap jsstring jsstring).

Record Envelope : Set := mkEnvelope {
  e_instance : jsstring; e_provider : jsstring; e_artifact : Artifact; e_generation : Z;
  e_generationHash : jsstring; e_metadata : metadata_t }.

(** What a file keeps of an artifact. *)
Record Sealed : Set := mkSealed {
  s_kind : ArtifactKind; s_formatVersion : jsstring; s_contentType : jsstring;
  encryptedBytes : list N; nonce : list N; authTag : list N }.

Record Idempotency : Set := mkIdempotency {
  i_generation : Z; i_generationHash : jsstring; artifactHash : jsstring; requestHash : option jsstring }.

Record Session : Set := mkSession {
  providerInstanceId : jsstring; s_provider : jsstring; generation : Z; generationHash : jsstring;
  artifact : Sealed; metadata : metadata_t; idempotency : gmap jsstring Idempotency }.

Record WriteInput : Set := mkWriteInput {
  w_instance : jsstring; expectedGeneration : Z; nextArtifact : Artifact; w_key : jsstring;
  w_lease : jsstring; w_metadata : option metadata_t }.

Inductive WriteResult : Set :=
| Accepted (g : Z) (h : jsstring)
| IdempotentReplay (g : Z) (h : jsstring)
| StaleGeneration (g : Z) (h : jsstring).

Inductive AcquireResult : Set :=
| Granted (lease : jsstring) (until : date)
| Stale
| Denied.

Inductive CommitResult : Set := CommitCommitted | CommitReplay | CommitStale.

(** What an operation throws: an error of the stores, a failed file access, an
    already existing file, an unrepresentable date; or it never returns
    because the process stopped. *)
Inductive failure : Set :=
| StoreError (code : string)
| IoError
| AlreadyExists
| RangeError
| Crashed.

(** ** Files *)

Inductive fault : Set := Fine | FailBefore | FailAfter | CrashBefore | CrashAfter.

Record disk : Set := mkDisk {
  active : gmap jsstring Lease; leases : gmap jsstring Lease; sessions : gmap jsstring Session }.

Definition set_active (f : gmap jsstring Lease → gmap jsstring Lease) (d : disk) : disk :=
  mkDisk (f (active d)) (leases d) (sessions d).
Definition set_leases (f : gmap jsstring Lease → gmap jsstring Lease) (d : disk) : disk :=
  mkDisk (active d) (f (leases d)) (sessions d).
Definition set_sessions (f : gmap jsstring Session → gmap jsstring Session) (d : disk) : disk :=
  mkDisk (active d) (leases d) (f (sessions d)).

(** The faults that are still to come, and the disk. *)
Abbreviation world := (list fault * disk)%type.
Abbreviation IO := (M world failure).

(** One file access that changes the disk by [f]. *)
Definition access (f : disk → disk) : IO unit := λ w,
  match w with
  | ([], d) => (([], f d), Ok tt)
  | (Fine :: fs, d) => ((fs, f d), Ok tt)
  | (FailBefore :: fs, d) => ((fs, d), Throw IoError)
  | (FailAfter :: fs, d) => ((fs, f d), Throw IoError)
  | (CrashBefore :: fs, d) => ((fs, d), Throw Crashed)
  | (CrashAfter :: fs, d) => ((fs, f d), Throw Crashed)
  end.

Definition read {A} (g : disk → A) : IO A :=
  access id ;; w ← get; mret (g w.2).

(** An exclusive creation: [link] fails when the file exists. *)
Definition create {A} (g : disk → option A) (f : disk → disk) : IO unit :=
  w ← get;
  match g w.2 with
  | Some _ => access id ;; throw AlreadyExists
  | None => access f
  end.

(** [try m finally f], where a stopped process runs nothing. *)
Definition finally {A} (m : IO A) (f : IO unit) : IO A := λ w,
  match m w with
  | (w', Throw Crashed) => (w', Throw Crashed)
  | (w', r) => match f w' with
               | (w'', Ok _) => (w'', r)
               | (w'', Throw e) => (w'', Throw e)
               end
  end.

(** [withProviderLock]: the lock file is taken and removed around the body. *)
Definition withProviderLock {A} (m : IO A) : IO A :=
  access id ;; finally m (access id).

(** ** Leases *)

(** [isExpired]. *)
Definition isExpired (l : Lease) (now : date) : bool :=
  negb (date_valid (expiresAt l)) || date_leb (expiresAt l) now.

Definition readActive (p : jsstring) : IO (option Lease) := read (λ d, active d !! p).
Definition readLeaseRecord (id : jsstring) : IO (option Lease) := read (λ d, leases d !! id).

Definition requireLeaseRecord (id : jsstring) : IO Lease :=
  r ← readLeaseRecord id;
  match r with Some l => mret l | None => throw (StoreError "local_file_lease_not_found") end.

Definition writeLeaseRecord (l : Lease) : IO unit := access (set_leases <[leaseId l := l]>).
Definition writeActiveRecord (l : Lease) : IO unit := access (set_active <[l_provider l := l]>).

Definition createLeaseRecord (l : Lease) : IO unit :=
  create (λ d, leases d !! leaseId l) (set_leases <[leaseId l := l]>).
Definition createActiveRecord (l : Lease) : IO unit :=
  create (λ d, active d !! l_provider l) (set_active <[l_provider l := l]>).

Definition is_lease (id : jsstring) (l : option Lease) : bool :=
  match l with Some l => js_eqb (leaseId l) id | None => false end.

Definition removeActiveIfMatchesLocked (l : Lease) : IO unit :=
  a ← readActive (l_provider l);
  if is_lease (leaseId l) a then access (set_active (delete (l_provider l))) else mret tt.

Definition persistLeaseTransitionLocked (l : Lease) : IO unit :=
  writeLeaseRecord l ;;
  a ← readActive (l_provider l);
  if is_lease (leaseId l) a then writeActiveRecord l else mret tt.

Definition assertCurrentLeaseLocked (l : Lease) (now : date) : IO unit :=
  if bool_decide (state l = Released) || bool_decide (state l = Committed) || isExpired l now
  then throw (StoreError "local_file_lease_expired_or_released")
  else
    a ← readActive (l_provider l);
    if is_lease (leaseId l) a then mret tt else throw (StoreError "local_file_lease_superseded").

(** A lease in another state. *)
Definition with_state (st : LeaseState) (fin started com rel : option date) (why key next idem : option jsstring)
    (pw : option Receipt) (l : Lease) : Lease :=
  mkLease (leaseId l) (l_provider l) (runId l) (attempt l) (restoredGenerationHash l) st (acquiredAt l)
    (expiresAt l) fin started com rel why key next idem pw.

Definition lease_prefix : jsstring := js "local-file-lease:".

Section Stores.
(** SHA-256 in hexadecimal and in base64url, of a sequence of bytes. *)
Context (sha_hex sha_base64url : list N → jsstring).

Definition hashText (s : jsstring) : jsstring := sha_hex (utf8 s).

Definition nul : jsstring := [0%N].

(** [toISOString] throws on an invalid date. *)
Definition iso (d : date) : IO date := if date_valid d then mret d else throw RangeError.

Definition makeLeaseRecord (p run : jsstring) (att : Z) (restored : jsstring) (now until : date)
    (random : jsstring) : IO Lease :=
  let id := lease_prefix ++ hashText (js_join nul [p; run; json_Z att; restored; random]) in
  acquired ← iso now;
  expires ← iso until;
  mret (mkLease id p run att restored Active acquired expires None None None None None None None None None).

(** The catch around the creation of the active record. *)
Definition or_undo (m : IO unit) (id : jsstring) (k : IO AcquireResult) : IO AcquireResult := λ w,
  match m w with
  | (w', Ok _) => k w'
  | (w', Throw Crashed) => (w', Throw Crashed)
  | (w', Throw e) =>
      (access (set_leases (delete id)) ;;
       match e with AlreadyExists => mret Denied | _ => throw e end) w'
  end.

Definition acquire (p run : jsstring) (att : Z) (ttl : num) (restored : jsstring) (now : date)
    (random : jsstring) : IO AcquireResult :=
  if negb (is_finite ttl) || num_leb ttl (num_of_Z 0) then throw (StoreError "local_file_lease_invalid_ttl")
  else withProviderLock (
    a ← readActive p;
    let go :=
      l ← makeLeaseRecord p run att restored now (date_plus now ttl) random;
      createLeaseRecord l ;;
      or_undo (createActiveRecord l) (leaseId l) (mret (Granted (leaseId l) (expiresAt l))) in
    match a with
    | Some a =>
        if negb (isExpired a now)
        then mret (if js_eqb (restoredGenerationHash a) restored then Denied else Stale)
        else removeActiveIfMatchesLocked a ;; go
    | None => go
    end).

Definition finalize (id restored : jsstring) (t1 t2 : date) : IO unit :=
  requireLeaseRecord id ;;
  withProviderLock (
    l ← requireLeaseRecord id;
    if negb (js_eqb (restoredGenerationHash l) restored)
    then throw (StoreError "local_file_lease_generation_hash_mismatch")
    else if bool_decide (state l = Committed) || bool_decide (persistedWrite l ≠ None) then mret tt
    else
      assertCurrentLeaseLocked l t1 ;;
      match state l with
      | Finalized | WritebackStarted => mret tt
      | _ =>
          t ← iso t2;
          persistLeaseTransitionLocked
            (with_state Finalized (Some t) (writebackStartedAt l) (committedAt l) (releasedAt l)
               (releaseReason l) (keyId l) (nextGenerationHash l) (idempotencyKey l) (persistedWrite l) l)
      end).

Definition markWritebackStarted (id : jsstring) (key : option jsstring) (t1 t2 : date) : IO unit :=
  requireLeaseRecord id ;;
  withProviderLock (
    l ← requireLeaseRecord id;
    if bool_decide (state l = Committed) || bool_decide (persistedWrite l ≠ None) then mret tt
    else
      assertCurrentLeaseLocked l t1 ;;
      match state l with
      | WritebackStarted => mret tt
      | Finalized =>
          t ← iso t2;
          persistLeaseTransitionLocked
            (with_state WritebackStarted (finalizedAt l) (Some t) (committedAt l) (releasedAt l)
               (releaseReason l) (match truthy_opt key with Some k => Some k | None => keyId l end)
               (nextGenerationHash l) (idempotencyKey l) (persistedWrite l) l)
      | _ => throw (StoreError "local_file_lease_not_finalized")
      end).

(** The last steps of [markWritebackCommitted]. *)
Definition commitLocked (l : Lease) (next key : jsstring) (t : date) : IO CommitResult :=
  t ← iso t;
  let committed := with_state Committed (finalizedAt l) (writebackStartedAt l) (Some t) (releasedAt l)
    (releaseReason l) (keyId l) (Some next) (Some key) (persistedWrite l) l in
  persistLeaseTransitionLocked committed ;;
  removeActiveIfMatchesLocked committed ;;
  mret CommitCommitted.

(** [requireSessionReceipt] is an option of the store. *)
Definition markWritebackCommitted (requireSessionReceipt : bool) (id next key : jsstring) (t1 t2 : date)
    : IO CommitResult :=
  requireLeaseRecord id ;;
  withProviderLock (
    l ← requireLeaseRecord id;
    if bool_decide (state l = Committed) then
      if bool_decide (nextGenerationHash l = Some next) && bool_decide (idempotencyKey l = Some key)
      then removeActiveIfMatchesLocked l ;; mret CommitReplay
      else mret CommitStale
    else match persistedWrite l with
    | Some r => if js_eqb (rc_hash r) next && js_eqb (rc_key r) key then commitLocked l next key t2 else mret CommitStale
    | None =>
        let unchanged := bool_decide (state l = Finalized) && js_eqb next (restoredGenerationHash l) in
        if requireSessionReceipt && negb unchanged then mret CommitStale
        else
          assertCurrentLeaseLocked l t1 ;;
          if negb (bool_decide (state l = WritebackStarted)) && negb unchanged
          then throw (StoreError "local_file_lease_writeback_not_started")
          else commitLocked l next key t2
    end).

Definition release (id reason : jsstring) (t : date) : IO unit :=
  initial ← readLeaseRecord id;
  match initial with
  | None => mret tt
  | Some _ =>
      withProviderLock (
        r ← readLeaseRecord id;
        match r with
        | None => mret tt
        | Some l =>
            if bool_decide (state l = Committed) then mret tt
            else
              t' ← iso t;
              let released := with_state Released (finalizedAt l) (writebackStartedAt l) (committedAt l)
                (Some t') (Some reason) (keyId l) (nextGenerationHash l) (idempotencyKey l) (persistedWrite l) l in
              persistLeaseTransitionLocked released ;;
              removeActiveIfMatchesLocked released
        end)
  end.

(** *** The guard that the session store uses inside its transaction *)

Definition authorize (p id restored : jsstring) (bootstrap requireLease : bool) (now : date) : IO unit :=
  if starts_with lease_prefix id then
    l ← requireLeaseRecord id;
    if negb (js_eqb (l_provider l) p) then throw (StoreError "local_file_lease_provider_mismatch")
    else
      assertCurrentLeaseLocked l now ;;
      if negb (bool_decide (state l = WritebackStarted))
      then throw (StoreError "local_file_lease_writeback_not_started")
      else if bool_decide (persistedWrite l ≠ None) then throw (StoreError "local_file_lease_already_written")
      else if negb (js_eqb (restoredGenerationHash l) restored)
      then throw (StoreError "local_file_lease_generation_hash_mismatch")
      else mret tt
  else
    a ← readActive p;
    if match a with Some a => negb (isExpired a now) | None => false end
    then throw (StoreError "local_file_lease_unavailable")
    else if requireLease && negb bootstrap && negb (js_eqb id (js "seed-local-file-backend"))
    then throw (StoreError "local_file_lease_not_found")
    else mret tt.

Definition recordReceipt (p id : jsstring) (r : Receipt) : IO unit :=
  if negb (starts_with lease_prefix id) then mret tt
  else
    l ← requireLeaseRecord id;
    if negb (js_eqb (l_provider l) p) then throw (StoreError "local_file_lease_provider_mismatch")
    else match persistedWrite l with
    | Some r' => if bool_decide (r' = r) then mret tt else throw (StoreError "local_file_lease_receipt_conflict")
    | None =>
        persistLeaseTransitionLocked
          (with_state (state l) (finalizedAt l) (writebackStartedAt l) (committedAt l) (releasedAt l)
             (releaseReason l) (keyId l) (nextGenerationHash l) (idempotencyKey l) (Some r) l)
    end.

(** ** Sessions *)

(** [computeSessionGenerationHash] without a salt. *)
Definition computeSessionGenerationHash (a : Artifact) : jsstring :=
  sha_base64url (utf8 (js "subscription-runtime-session-v1" ++ nul ++ providerId a ++ nul ++
                       kind_name (kind a) ++ nul ++ formatVersion a ++ nul) ++ bytes a).

(** AES-256-GCM under the key of the store: encryption with a nonce, and
    decryption, which can fail. *)
Context (seal : list N → list N → list N * list N) (unseal : list N → list N → list N → option (list N)).
(** The options of the store. *)
Context (own_provider : jsstring) (own_metadata : option metadata_t) (requireLease : bool).

Definition max_artifact_bytes : N := 256000.

Definition assertArtifactFits (a : Artifact) : IO unit :=
  if (max_artifact_bytes <? N.of_nat (length (bytes a)))%N
  then throw (StoreError "session_artifact_too_large") else mret tt.

Definition encryptRecord (p : jsstring) (a : Artifact) (g : Z) (h : jsstring) (md : metadata_t)
    (idem : gmap jsstring Idempotency) (nonce : list N) : Session :=
  let '(encrypted, tag) := seal nonce (bytes a) in
  mkSession p own_provider g h (mkSealed (kind a) (formatVersion a) (contentType a) encrypted nonce tag) md idem.

Definition decryptArtifact (s : Session) : IO Artifact :=
  match unseal (nonce (artifact s)) (authTag (artifact s)) (encryptedBytes (artifact s)) with
  | None => throw (StoreError "decryption failed")
  | Some b => mret (mkArtifact (s_kind (artifact s)) (s_provider s) (s_formatVersion (artifact s)) b
                      (s_contentType (artifact s)) None None)
  end.

Definition readRecord (p : jsstring) : IO (option Session) := read (λ d, sessions d !! p).
Definition writeRecord (p : jsstring) (s : Session) : IO unit := access (set_sessions <[p := s]>).

(** [LocalEncryptedFileStore.read]; it takes no lock. *)
Definition read_session (p : jsstring) (expectedProviderId : option jsstring) : IO (option Envelope) :=
  r ← readRecord p;
  match r with
  | None => mret None
  | Some s =>
      if negb (js_eqb (providerInstanceId s) p) then throw (StoreError "local_store_record_boundary_mismatch")
      else if match truthy_opt expectedProviderId with
              | Some e => negb (js_eqb e (s_provider s))
              | None => false
              end then mret None
      else
        a ← decryptArtifact s;
        mret (Some (mkEnvelope (providerInstanceId s) (s_provider s) a (generation s) (generationHash s) (metadata s)))
  end.

(** [Object.entries(...).sort(...)], by key. *)
Definition sortedMetadata (md : metadata_t) : list (jsstring * jsstring) :=
  sort_by (λ x y, js_leb x.1 y.1) (map_to_list md).

Definition hashWriteRequest (i : WriteInput) : jsstring :=
  let a := nextArtifact i in
  hashText (json_array
    [json_string (w_instance i); json_Z (expectedGeneration i); json_string (w_lease i);
     json_string (providerId a); json_string (kind_name (kind a)); json_string (formatVersion a);
     json_string (contentType a); json_string (sha_hex (bytes a));
     json_array (map (λ '(k, v), json_array [json_string k; json_string v])
                   (sortedMetadata (default ∅ (w_metadata i))))]).

(** [{ ...a, ...b }]. *)
Definition spread (a : metadata_t) (b : option metadata_t) : metadata_t := default ∅ b ∪ a.

Definition canVerifyLegacyReplay (existing : Session) (replay : Idempotency) (i : WriteInput)
    (h artifact_h : jsstring) : bool :=
  let a := nextArtifact i in
  (generation existing =? i_generation replay) && (expectedGeneration i =? i_generation replay - 1) &&
  js_eqb (i_generationHash replay) h && js_eqb (generationHash existing) h &&
  js_eqb (artifactHash replay) artifact_h &&
  bool_decide (metadata existing !! js "leaseId" = Some (w_lease i)) &&
  bool_decide (s_kind (artifact existing) = kind a) &&
  js_eqb (s_formatVersion (artifact existing)) (formatVersion a) &&
  js_eqb (s_contentType (artifact existing)) (contentType a) &&
  bool_decide (metadata existing =
    <[js "leaseId" := w_lease i]> (spread (default ∅ own_metadata) (w_metadata i))).

Definition with_idempotency (s : Session) (idem : gmap jsstring Idempotency) : Session :=
  mkSession (providerInstanceId s) (s_provider s) (generation s) (generationHash s) (artifact s) (metadata s) idem.

Definition foreign (p : jsstring) (s : option Session) : bool :=
  match s with
  | Some s => negb (js_eqb (providerInstanceId s) p) || negb (js_eqb (s_provider s) own_provider)
  | None => false
  end.

(** The answer to a write whose key is known. *)
Definition replay_write (i : WriteInput) (existing : Session) (replay : Idempotency) : IO WriteResult :=
  let h := computeSessionGenerationHash (nextArtifact i) in
  let artifact_h := sha_hex (bytes (nextArtifact i)) in
  match truthy_opt (requestHash replay) with
  | None =>
      if canVerifyLegacyReplay existing replay i h artifact_h
      then writeRecord (w_instance i)
             (with_idempotency existing
                (<[w_key i := mkIdempotency (i_generation replay) (i_generationHash replay) (artifactHash replay)
                                (Some (hashWriteRequest i))]> (idempotency existing)))
      else throw (StoreError "local_store_legacy_idempotency_unverifiable")
  | Some rh =>
      if js_eqb rh (hashWriteRequest i) && js_eqb (artifactHash replay) artifact_h then mret tt
      else throw (StoreError "idempotency_key_conflict")
  end ;;
  recordReceipt (w_instance i) (w_lease i) (mkReceipt (i_generationHash replay) (w_key i)) ;;
  mret (IdempotentReplay (i_generation replay) (i_generationHash replay)).

(** The record that an accepted write publishes. *)
Definition next_record (i : WriteInput) (existing : option Session) (nonce : list N) : Session :=
  let h := computeSessionGenerationHash (nextArtifact i) in
  let g := match existing with Some s => generation s + 1 | None => 1 end in
  encryptRecord (w_instance i) (nextArtifact i) g h
    (<[js "leaseId" := w_lease i]>
       (spread (spread (match existing with Some s => metadata s | None => ∅ end) own_metadata) (w_metadata i)))
    (<[w_key i := mkIdempotency g h (sha_hex (bytes (nextArtifact i))) (Some (hashWriteRequest i))]>
       (match existing with Some s => idempotency s | None => ∅ end))
    nonce.

(** A write whose key is new. *)
Definition fresh_write (i : WriteInput) (existing : option Session) (now : date) (nonce : list N)
    : IO WriteResult :=
  let p := w_instance i in
  let go :=
    authorize p (w_lease i) (match existing with Some s => generationHash s | None => [] end)
      (match existing with None => expectedGeneration i =? 0 | Some _ => false end) requireLease now ;;
    let record := next_record i existing nonce in
    writeRecord p record ;;
    recordReceipt p (w_lease i) (mkReceipt (generationHash record) (w_key i)) ;;
    mret (Accepted (generation record) (generationHash record)) in
  match existing with
  | Some s => if generation s =? expectedGeneration i then go
              else mret (StaleGeneration (generation s) (generationHash s))
  | None => if expectedGeneration i =? 0 then go else mret (StaleGeneration 0 [])
  end.

(** [LocalEncryptedFileStore.write]. *)
Definition write (i : WriteInput) (now : date) (nonce : list N) : IO WriteResult :=
  assertArtifactFits (nextArtifact i) ;;
  if negb (js_eqb (providerId (nextArtifact i)) own_provider) then throw (StoreError "provider_id_mismatch")
  else withProviderLock (
    existing ← readRecord (w_instance i);
    if foreign (w_instance i) existing then throw (StoreError "local_store_record_boundary_mismatch")
    else match existing with
    | Some s =>
        match idempotency s !! w_key i with
        | Some replay => replay_write i s replay
        | None => fresh_write i existing now nonce
        end
    | None => fresh_write i existing now nonce
    end).

Definition delete_session (p : jsstring) : IO unit := withProviderLock (access (set_sessions (delete p))).

(** ** Reasoning about operations with faults

    [wp m Q X d]: whatever faults occur, a call of [m] on the disk [d] returns
    with [Q], or throws or stops with [X] of the disk that is left. *)

Definition wp {A} (m : IO A) (Q : A → disk → Prop) (X : disk → Prop) (d : disk) : Prop :=
  ∀ fs, match m (fs, d) with
        | ((_, d'), Ok a) => Q a d'
        | ((_, d'), Throw _) => X d'
        end.

Section wp.
Context {A B : Type}.
Implicit Types (Q : A → disk → Prop) (X : disk → Prop).

Lemma wp_io_ret (a : A) Q X d : Q a d → wp (mret a) Q X d.
Proof. by intros H fs. Qed.

Lemma wp_throw e Q X d : X d → wp (throw e : IO A) Q X d.
Proof. by intros H fs. Qed.

Lemma wp_io_bind (m : IO B) (k : B → IO A) Q X d :
  wp m (λ b d', wp (k b) Q X d') X d → wp (m ≫= k) Q X d.
Proof.
  intros H fs. specialize (H fs). unfold mbind, M_bind. destruct (m (fs, d)) as [[fs' d'] [b|e]]; [|done].
  apply H.
Qed.

Lemma wp_io_mono (m : IO A) Q Q' X X' d :
  wp m Q X d → (∀ a d', Q a d' → Q' a d') → (∀ d', X d' → X' d') → wp m Q' X' d.
Proof.
  intros H HQ HX fs. specialize (H fs). destruct (m (fs, d)) as [[fs' d'] [a|e]]; auto.
Qed.

Lemma wp_finally (m : IO A) f Q X d :
  wp m (λ a d', wp f (λ _ d'', Q a d'') X d') (λ d', X d' ∧ wp f (λ _, X) X d') d → wp (finally m f) Q X d.
Proof.
  intros H fs. specialize (H fs). unfold finally. destruct (m (fs, d)) as [[fs' d'] [a|e]].
  - specialize (H fs'). by destruct (f (fs', d')) as [[fs'' d''] [[]|e]].
  - destruct H as [HX H]. destruct e; try done;
      (specialize (H fs'); by destruct (f (fs', d')) as [[fs'' d''] [[]|e']]).
Qed.
End wp.

Lemma wp_access f (Q : unit → disk → Prop) X d : Q tt (f d) → X d → X (f d) → wp (access f) Q X d.
Proof. intros H1 H2 H3 fs. destruct fs as [|[] fs]; done. Qed.

Lemma wp_read {A} (g : disk → A) (Q : A → disk → Prop) X d : Q (g d) d → X d → wp (read g) Q X d.
Proof. intros H1 H2. apply wp_io_bind, wp_access; [|done..]. by intros fs. Qed.

Lemma wp_create {A} (g : disk → option A) f (Q : unit → disk → Prop) X d :
  X d → (g d = None → Q tt (f d) ∧ X (f d)) → wp (create g f) Q X d.
Proof.
  intros HX H fs. unfold create, mbind, M_bind, get; simpl. destruct (g d).
  - revert fs. change (wp (access id ;; throw AlreadyExists) Q X d). apply wp_io_bind, wp_access; try done.
    by apply wp_throw.
  - revert fs. change (wp (access f) Q X d). destruct H; [done|]. by apply wp_access.
Qed.

Lemma wp_lock {A} (m : IO A) (Q : A → disk → Prop) X d :
  X d → wp m (λ a d', Q a d' ∧ X d') X d → wp (withProviderLock m) Q X d.
Proof.
  intros HX H. apply wp_io_bind, wp_access; [|done..]. apply wp_finally. eapply wp_io_mono; [exact H| |].
  - intros a d' [HQ HX']. by apply wp_access.
  - intros d' HX'. split; [done|]. by apply wp_access.
Qed.

Lemma wp_or_undo m id k (Q : AcquireResult → disk → Prop) X d :
  wp m (λ _ d', wp k Q X d')
    (λ d', X d' ∧ X (set_leases (delete id) d') ∧ Q Denied (set_leases (delete id) d')) d →
  wp (or_undo m id k) Q X d.
Proof.
  intros H fs. specialize (H fs). unfold or_undo. destruct (m (fs, d)) as [[fs' d'] [[]|e]]; [apply H|].
  destruct H as (H1 & H2 & H3).
  assert (∀ c, wp (access (set_leases (delete id)) ;; c) Q X d' →
    match (access (set_leases (delete id)) ;; c) (fs', d') with ((_, d'), Ok a) => Q a d' | ((_, d'), Throw _) => X d' end)
    as Hc by (intros c Hc; apply Hc).
  destruct e; try done; apply Hc, wp_io_bind, wp_access; try done; by intros fs''.
Qed.

(** Steps through an operation by its first access; conditions become cases. *)
Ltac wp_step :=
  lazymatch goal with
  | |- wp (mret _) _ _ _ => apply wp_io_ret
  | |- wp (throw _) _ _ _ => apply wp_throw
  | |- wp (mbind _ _) _ _ _ => apply wp_io_bind
  | |- wp (access _) _ _ _ => apply wp_access
  | |- wp (read _) _ _ _ => apply wp_read
  | |- wp (create _ _) _ _ _ => apply wp_create
  | |- wp (withProviderLock _) _ _ _ => apply wp_lock
  | |- wp (or_undo _ _ _) _ _ _ => apply wp_or_undo
  | |- wp (if ?b then _ else _) _ _ _ => let E := fresh "E" in destruct b eqn:E
  | |- wp (match ?x with _ => _ end) _ _ _ => let E := fresh "E" in destruct x eqn:E
  end; cbv beta.

Ltac unfold_io :=
  unfold persistLeaseTransitionLocked, removeActiveIfMatchesLocked, assertCurrentLeaseLocked, requireLeaseRecord,
    readLeaseRecord, readActive, readRecord, writeRecord, writeLeaseRecord, writeActiveRecord, createLeaseRecord,
    createActiveRecord, iso in *.

(** [naive_solver] without the parameters, which it would take as hypotheses. *)
Ltac crush := try clear unseal; try clear seal; try clear sha_hex; try clear sha_base64url; naive_solver.

(** ** Histories *)

Inductive op : Set :=
| Acquire (p run : jsstring) (att : Z) (ttl : num) (restored : jsstring) (now : date) (random : jsstring)
| Finalize (id restored : jsstring) (t1 t2 : date)
| Start (id : jsstring) (key : option jsstring) (t1 t2 : date)
| Commit (receipt : bool) (id next key : jsstring) (t1 t2 : date)
| Release (id reason : jsstring) (t : date)
| Write (i : WriteInput) (now : date) (nonce : list N)
| Delete (p : jsstring).

Definition perform (o : op) : IO unit :=
  match o with
  | Acquire p run att ttl restored now random => acquire p run att ttl restored now random ;; mret tt
  | Finalize id restored t1 t2 => finalize id restored t1 t2
  | Start id key t1 t2 => markWritebackStarted id key t1 t2
  | Commit receipt id next key t1 t2 => markWritebackCommitted receipt id next key t1 t2 ;; mret tt
  | Release id reason t => release id reason t
  | Write i now nonce => write i now nonce ;; mret tt
  | Delete p => delete_session p
  end.

(** A history: each operation with the faults it meets. *)
Definition history := list (list fault * op).

Definition run (h : history) (d : disk) : disk := foldl (λ d '(fs, o), (perform o (fs, d)).1.2) d h.

(** ** The records name themselves *)

Record keyed (d : disk) : Prop := {
  k_lease : ∀ id l, leases d !! id = Some l → leaseId l = id;
  k_active : ∀ p l, active d !! p = Some l → l_provider l = p;
  k_session : ∀ p s, sessions d !! p = Some s → providerInstanceId s = p }.

Lemma keyed_empty : keyed (mkDisk ∅ ∅ ∅).
Proof. split; intros ? ?; simpl; by rewrite lookup_empty. Qed.

Lemma keyed_delete_active d p : keyed d → keyed (set_active (delete p) d).
Proof.
  intros [H1 H2 H3]. split; simpl; try done. intros p' l'. rewrite lookup_delete_Some. crush.
Qed.

Lemma keyed_delete_session d p : keyed d → keyed (set_sessions (delete p) d).
Proof.
  intros [H1 H2 H3]. split; simpl; try done. intros p' s'. rewrite lookup_delete_Some. crush.
Qed.

Lemma is_lease_true id a : is_lease id a = true ↔ ∃ l, a = Some l ∧ leaseId l = id.
Proof. destruct a as [l|]; simpl; [rewrite js_eqb_true|]; crush. Qed.

(** *** Steps that several operations share *)

Lemma persist_wp l (Q : unit → disk → Prop) (X : disk → Prop) d :
  X d →
  let d1 := set_leases <[leaseId l := l]> d in
  X d1 →
  (is_lease (leaseId l) (active d !! l_provider l) = true →
     let d2 := set_active <[l_provider l := l]> d1 in X d2 ∧ Q tt d2) →
  (is_lease (leaseId l) (active d !! l_provider l) = false → Q tt d1) →
  wp (persistLeaseTransitionLocked l) Q X d.
Proof.
  intros H1 d1 H2 H3 H4. unfold_io. do 2 wp_step; try done. do 2 wp_step; try done. simpl.
  destruct (is_lease _ _) eqn:E; wp_step; simpl; crush.
Qed.

Lemma remove_active_wp l (Q : unit → disk → Prop) (X : disk → Prop) d :
  X d →
  (is_lease (leaseId l) (active d !! l_provider l) = true →
     let d' := set_active (delete (l_provider l)) d in X d' ∧ Q tt d') →
  (is_lease (leaseId l) (active d !! l_provider l) = false → Q tt d) →
  wp (removeActiveIfMatchesLocked l) Q X d.
Proof.
  intros H1 H2 H3. unfold_io. do 2 wp_step; try done. destruct (is_lease _ _) eqn:E; wp_step; crush.
Qed.

Lemma assert_current_wp l now (Q : unit → disk → Prop) (X : disk → Prop) d :
  X d →
  (state l ≠ Released → state l ≠ Committed → isExpired l now = false →
   is_lease (leaseId l) (active d !! l_provider l) = true → Q tt d) →
  wp (assertCurrentLeaseLocked l now) Q X d.
Proof.
  intros HX HQ. unfold_io. wp_step; [by wp_step|]. apply orb_false_iff in E as [E Hexp].
  apply orb_false_iff in E as [Hr Hc]. bools. do 2 wp_step; try done.
  destruct (is_lease _ _) eqn:El; wp_step; auto.
Qed.

Lemma require_lease_wp id (Q : Lease → disk → Prop) (X : disk → Prop) d :
  X d → (∀ l, leases d !! id = Some l → Q l d) → wp (requireLeaseRecord id) Q X d.
Proof.
  intros HX HQ. unfold_io. do 2 wp_step; try done. destruct (leases d !! id) eqn:E; wp_step; auto.
Qed.

(** ** Writing a session *)

(** A session without the request hashes of its idempotency records, which a
    retry may add to a record of the older format. *)
Definition forget (s : Session) : Session :=
  with_idempotency s
    ((λ e, mkIdempotency (i_generation e) (i_generationHash e) (artifactHash e) None) <$> idempotency s).

Definition content (d : disk) : gmap jsstring Session := forget <$> sessions d.

Definition current_generation (d : disk) (p : jsstring) : Z :=
  match sessions d !! p with Some s => generation s | None => 0 end.
Definition current_hash (d : disk) (p : jsstring) : jsstring :=
  match sessions d !! p with Some s => generationHash s | None => [] end.

(** Who may write: the lease that is current for the provider, has started its
    writeback, was restored from the session as it is and has not written yet;
    or, without a lease, nobody holds the provider and the store does not
    insist, the session is the first one or the key is the seed's. *)
Definition may_write (d : disk) (i : WriteInput) (now : date) : Prop :=
  let p := w_instance i in
  if starts_with lease_prefix (w_lease i) then
    ∃ l, leases d !! w_lease i = Some l ∧ l_provider l = p ∧ state l = WritebackStarted ∧ isExpired l now = false ∧
         is_lease (leaseId l) (active d !! p) = true ∧ persistedWrite l = None ∧
         restoredGenerationHash l = current_hash d p
  else
    (∀ a, active d !! p = Some a → isExpired a now = true) ∧
    (requireLease = true → sessions d !! p = None ∨ w_lease i = js "seed-local-file-backend").

Definition known_key (d : disk) (p key : jsstring) : option Idempotency :=
  s ← sessions d !! p; idempotency s !! key.

(** What a write that takes effect starts from and leaves. *)
Definition published (d d' : disk) (i : WriteInput) (now : date) (nonce : list N) : Prop :=
  (N.of_nat (length (bytes (nextArtifact i))) ≤ max_artifact_bytes)%N ∧
  providerId (nextArtifact i) = own_provider ∧
  known_key d (w_instance i) (w_key i) = None ∧
  expectedGeneration i = current_generation d (w_instance i) ∧
  may_write d i now ∧
  sessions d' = <[w_instance i := next_record i (sessions d !! w_instance i) nonce]> (sessions d).

Lemma next_record_fields i ex nonce :
  providerInstanceId (next_record i ex nonce) = w_instance i ∧
  s_provider (next_record i ex nonce) = own_provider ∧
  generation (next_record i ex nonce) = match ex with Some s => generation s + 1 | None => 1 end ∧
  generationHash (next_record i ex nonce) = computeSessionGenerationHash (nextArtifact i) ∧
  idempotency (next_record i ex nonce) =
    <[w_key i := mkIdempotency (generation (next_record i ex nonce)) (generationHash (next_record i ex nonce))
                   (sha_hex (bytes (nextArtifact i))) (Some (hashWriteRequest i))]>
      (match ex with Some s => idempotency s | None => ∅ end).
Proof. unfold next_record, encryptRecord. by destruct (seal _ _). Qed.

Lemma with_idempotency_forget s key e e' :
  idempotency s !! key = Some e → i_generation e' = i_generation e → i_generationHash e' = i_generationHash e →
  artifactHash e' = artifactHash e → forget (with_idempotency s (<[key := e']> (idempotency s))) = forget s.
Proof.
  intros Hk H1 H2 H3. unfold forget, with_idempotency; simpl. f_equal. rewrite fmap_insert, H1, H2, H3.
  apply insert_id. by rewrite lookup_fmap, Hk.
Qed.

Lemma content_relabel d p s key e e' :
  sessions d !! p = Some s → idempotency s !! key = Some e →
  i_generation e' = i_generation e → i_generationHash e' = i_generationHash e → artifactHash e' = artifactHash e →
  content (set_sessions <[p := with_idempotency s (<[key := e']> (idempotency s))]> d) = content d.
Proof.
  intros Hs Hk H1 H2 H3. unfold content; simpl. rewrite fmap_insert.
  rewrite (with_idempotency_forget s key e) by done. apply insert_id. by rewrite lookup_fmap, Hs.
Qed.

Lemma authorize_wp i now (Q : unit → disk → Prop) (X : disk → Prop) d : keyed d →
  X d → (may_write d i now → Q tt d) →
  wp (authorize (w_instance i) (w_lease i) (current_hash d (w_instance i))
        (bool_decide (sessions d !! w_instance i = None)) requireLease now) Q X d.
Proof.
  intros Hk HX HQ. unfold authorize, may_write in *. destruct (starts_with lease_prefix (w_lease i)).
  - wp_step. apply require_lease_wp; [done|]. intros l Hl. wp_step; [by wp_step|]. bools. wp_step.
    apply assert_current_wp; [done|]. intros _ _ He Hc. rewrite E in Hc. repeat (wp_step; [by wp_step|]). bools.
    wp_step. apply HQ. exists l. repeat split; try done. by apply dec_stable.
  - unfold_io. do 2 wp_step; [|done]. wp_step; [by wp_step|]. wp_step; [by wp_step|]. wp_step. apply HQ. split.
    + intros a Ha. rewrite Ha in E. by apply negb_false_iff.
    + intros ->. simpl in *. apply andb_false_iff in E0 as [E0|E0]; bools; auto.
Qed.

(** The outcomes of a write, whatever fails on the way. *)
Definition write_outcome (i : WriteInput) (now : date) (nonce : list N) (d : disk) (r : WriteResult) (d' : disk) : Prop :=
  match r with
  | Accepted g h =>
      published d d' i now nonce ∧ g = expectedGeneration i + 1 ∧ h = computeSessionGenerationHash (nextArtifact i)
  | IdempotentReplay g h =>
      content d' = content d ∧
      ∃ e, known_key d (w_instance i) (w_key i) = Some e ∧ g = i_generation e ∧ h = i_generationHash e
  | StaleGeneration g h =>
      sessions d' = sessions d ∧ g = current_generation d (w_instance i) ∧ h = current_hash d (w_instance i) ∧
      expectedGeneration i ≠ g ∧ known_key d (w_instance i) (w_key i) = None
  end.

Definition write_failure (i : WriteInput) (now : date) (nonce : list N) (d d' : disk) : Prop :=
  content d' = content d ∨ published d d' i now nonce.


Lemma write_outcome_failure i now nonce d r d' : write_outcome i now nonce d r d' → write_failure i now nonce d d'.
Proof.
  destruct r; intros H; [right; apply H|left; apply H|left]. unfold content. by destruct H as [-> _].
Qed.

(** ** The abstract machine

    What one operation can do to the disk, however its file accesses fail and
    wherever the process stops: nothing, or one of a few changes. *)

Definition same_identity (l l' : Lease) : Prop :=
  leaseId l' = leaseId l ∧ l_provider l' = l_provider l ∧ restoredGenerationHash l' = restoredGenerationHash l ∧
  expiresAt l' = expiresAt l.

(** The life of a lease. *)
Definition lease_step (o : op) (l l' : Lease) : Prop :=
  same_identity l l' ∧
  match o with
  | Finalize _ restored _ _ =>
      state l = Active ∧ state l' = Finalized ∧ restored = restoredGenerationHash l ∧ persistedWrite l' = persistedWrite l
  | Start _ _ _ _ => state l = Finalized ∧ state l' = WritebackStarted ∧ persistedWrite l' = persistedWrite l
  | Commit receipt _ next key _ _ =>
      state l = Committed ∧ l' = l ∨
      state l ≠ Committed ∧ state l' = Committed ∧ nextGenerationHash l' = Some next ∧ idempotencyKey l' = Some key ∧
      persistedWrite l' = persistedWrite l ∧
      (persistedWrite l = Some (mkReceipt next key) ∨
       persistedWrite l = None ∧
       (state l = Finalized ∧ next = restoredGenerationHash l ∨ receipt = false ∧ state l = WritebackStarted))
  | Release _ _ _ => state l ≠ Committed ∧ state l' = Released ∧ persistedWrite l' = persistedWrite l
  | Write i _ _ =>
      persistedWrite l = None ∧ state l' = state l ∧ nextGenerationHash l' = nextGenerationHash l ∧
      idempotencyKey l' = idempotencyKey l
  | _ => False
  end.

Definition ends_lease (o : op) : bool := match o with Commit _ _ _ _ _ _ | Release _ _ _ => true | _ => false end.

(** How the active record follows its lease. *)
Definition active_step (o : op) (d : disk) (l l' : Lease) (act : gmap jsstring Lease) : Prop :=
  act = active d ∨
  is_lease (leaseId l) (active d !! l_provider l) = true ∧
  (act = <[l_provider l := l']> (active d) ∨ ends_lease o = true ∧ act = delete (l_provider l) (active d)).

Definition lease_of (o : op) : option jsstring :=
  match o with
  | Finalize id _ _ _ | Start id _ _ _ | Commit _ id _ _ _ _ | Release id _ _ => Some id
  | Write i _ _ => Some (w_lease i)
  | _ => None
  end.

Definition new_lease (p run : jsstring) (att : Z) (restored : jsstring) (now until : date) (l : Lease) : Prop :=
  l_provider l = p ∧ runId l = run ∧ attempt l = att ∧ restoredGenerationHash l = restored ∧ state l = Active ∧
  acquiredAt l = now ∧ expiresAt l = until ∧ date_valid until = true ∧ persistedWrite l = None.

(** The receipt that a write hands to its lease, after its session change. *)
Definition receipt_of (d : disk) (i : WriteInput) (r : Receipt) : Prop :=
  rc_key r = w_key i ∧ ∃ e, known_key d (w_instance i) (w_key i) = Some e ∧ rc_hash r = i_generationHash e.

Inductive step : op → disk → disk → Prop :=
| step_idle o d : step o d d
| step_reap p run att ttl restored now random d :
    (∀ a, active d !! p = Some a → isExpired a now = true) →
    step (Acquire p run att ttl restored now random) d (mkDisk (delete p (active d)) (leases d) (sessions d))
| step_acquire p run att ttl restored now random d l act ls :
    (∀ a, active d !! p = Some a → isExpired a now = true) →
    new_lease p run att restored now (date_plus now ttl) l → leases d !! leaseId l = None →
    act = active d ∨ act = delete p (active d) ∨ act = <[p := l]> (active d) →
    ls = leases d ∨ ls = <[leaseId l := l]> (leases d) →
    step (Acquire p run att ttl restored now random) d (mkDisk act ls (sessions d))
| step_lease o d id l l' act :
    lease_of o = Some id → (∀ i now nonce, o ≠ Write i now nonce) → leases d !! id = Some l → lease_step o l l' →
    active_step o d l l' act → step o d (mkDisk act (<[id := l']> (leases d)) (sessions d))
| step_session i now nonce d d' :
    active d' = active d → leases d' = leases d → write_failure i now nonce d d' → step (Write i now nonce) d d'
| step_written i now nonce d d' l l' act r :
    active d' = active d → leases d' = leases d → write_failure i now nonce d d' →
    receipt_of d' i r → leases d !! w_lease i = Some l → l_provider l = w_instance i →
    lease_step (Write i now nonce) l l' → persistedWrite l' = Some r → active_step (Write i now nonce) d l l' act →
    step (Write i now nonce) d (mkDisk act (<[w_lease i := l']> (leases d)) (sessions d'))
| step_delete p d : step (Delete p) d (mkDisk (active d) (leases d) (delete p (sessions d))).

Lemma wp_same {A} (m : IO A) (X : disk → Prop) d : wp m (λ _, X) X d → wp m (λ _ d', X d' ∧ X d') X d.
Proof. intros H. eapply wp_io_mono; [exact H|crush|done]. Qed.

Lemma mkDisk_eta d : mkDisk (active d) (leases d) (sessions d) = d.
Proof. by destruct d. Qed.

(** A lease that a transition writes and, at the end of its life, the active
    record it drops. *)
Lemma persist_step o d id l l' : keyed d → lease_of o = Some id → (∀ i now nonce, o ≠ Write i now nonce) →
  leases d !! id = Some l → lease_step o l l' →
  wp (persistLeaseTransitionLocked l') (λ _ d', step o d d' ∧
      leases d' = <[id := l']> (leases d) ∧ sessions d' = sessions d ∧
      (active d' = active d ∧ is_lease id (active d !! l_provider l) = false ∨
       is_lease id (active d !! l_provider l) = true ∧ active d' = <[l_provider l := l']> (active d))) (step o d) d.
Proof.
  intros Hk Ho Hw Hl Hs. pose proof Hs as [(Hid & Hp & _) _]. pose proof (k_lease _ Hk _ _ Hl) as Hid'.
  assert (∀ act, active_step o d l l' act → step o d (mkDisk act (<[id := l']> (leases d)) (sessions d))) as Hstep
    by (intros act; by apply step_lease).
  unfold active_step in Hstep.
  apply persist_wp; rewrite ?Hid, ?Hp, ?Hid'; rewrite Hid' in Hstep; [apply step_idle|apply Hstep; by left|..].
  - intros E. assert (step o d (set_active <[l_provider l := l']> (set_leases <[id := l']> d))) as H
      by (apply Hstep; crush).
    split; [done|]. split_and!; try done. right. done.
  - intros E. split; [apply Hstep; by left|]. split_and!; try done. by left.
Qed.

Lemma persist_only_step o d id l l' : keyed d → lease_of o = Some id → (∀ i now nonce, o ≠ Write i now nonce) →
  leases d !! id = Some l → lease_step o l l' →
  wp (persistLeaseTransitionLocked l') (λ _, step o d) (step o d) d.
Proof. intros. eapply wp_io_mono; [by eapply persist_step|by intros ? ? [? _]|done]. Qed.

Lemma persist_remove_step o d id l l' : keyed d → lease_of o = Some id → ends_lease o = true →
  leases d !! id = Some l → lease_step o l l' →
  wp (persistLeaseTransitionLocked l' ;; removeActiveIfMatchesLocked l') (λ _, step o d) (step o d) d.
Proof.
  intros Hk Ho He Hl Hs. assert (∀ i now nonce, o ≠ Write i now nonce) as Hw by (by intros i now nonce ->).
  pose proof Hs as [(Hid & Hp & _) _]. pose proof (k_lease _ Hk _ _ Hl) as Hid'.
  wp_step. eapply wp_io_mono; [by eapply persist_step|cbv beta|done]. intros _ d1 (Hd1 & Hls & Hse & Ha).
  apply remove_active_wp; [done| |done]. rewrite Hid, Hp, Hid'. intros E.
  assert (step o d (set_active (delete (l_provider l)) d1)) as H; [|done].
  unfold set_active. rewrite Hls, Hse. apply (step_lease _ _ _ l); try done. right. rewrite Hid'.
  destruct Ha as [[Ha1 Ha]|[Ha ->]].
  - rewrite Ha1 in E. congruence.
  - split; [done|]. right. split; [done|]. apply delete_insert_eq.
Qed.

Lemma iso_wp t (Q : date → disk → Prop) (X : disk → Prop) d :
  X d → (date_valid t = true → Q t d) → wp (iso t) Q X d.
Proof. intros HX HQ. unfold iso. destruct (date_valid t); wp_step; auto. Qed.

Lemma seq_assoc {A B C} (m : IO A) (n : IO B) (k : IO C) (X : disk → Prop) Q d :
  wp ((m ;; n) ;; k) Q X d → wp (m ;; n ;; k) Q X d.
Proof.
  intros H fs. specialize (H fs). revert H. unfold mbind, M_bind. by destruct (m (fs, d)) as [w [a|e]].
Qed.

(** *** The operations refine the machine *)

Section refine.
Context (d : disk) (Hk : keyed d).

Lemma finalize_step id restored t1 t2 :
  let o := Finalize id restored t1 t2 in wp (finalize id restored t1 t2) (λ _, step o d) (step o d) d.
Proof.
  intros o. assert (step o d d) as HX by apply step_idle. unfold finalize.
  wp_step. apply require_lease_wp; [done|]. intros _ _. wp_step; [done|]. apply wp_same.
  wp_step. apply require_lease_wp; [done|]. intros l Hl. repeat (wp_step; [by wp_step|]). bools.
  wp_step. apply assert_current_wp; [done|]. intros Hr Hc _ _.
  assert (state l = Active → wp (t ← iso t2; persistLeaseTransitionLocked
    (with_state Finalized (Some t) (writebackStartedAt l) (committedAt l) (releasedAt l)
       (releaseReason l) (keyId l) (nextGenerationHash l) (idempotencyKey l) (persistedWrite l) l))
    (λ _, step o d) (step o d) d) as Hgo.
  { intros Hs. wp_step. apply iso_wp; [done|]. intros _. by eapply persist_only_step. }
  destruct (state l); [by apply Hgo|by wp_step|by wp_step|done|done].
Qed.

Lemma start_step id key t1 t2 :
  let o := Start id key t1 t2 in wp (markWritebackStarted id key t1 t2) (λ _, step o d) (step o d) d.
Proof.
  intros o. assert (step o d d) as HX by apply step_idle. unfold markWritebackStarted.
  wp_step. apply require_lease_wp; [done|]. intros _ _. wp_step; [done|]. apply wp_same.
  wp_step. apply require_lease_wp; [done|]. intros l Hl. repeat (wp_step; [by wp_step|]). bools.
  wp_step. apply assert_current_wp; [done|]. intros Hr Hc _ _.
  wp_step; try (by wp_step). wp_step. apply iso_wp; [done|]. intros _.
  by eapply persist_only_step.
Qed.

Lemma release_step id reason t :
  let o := Release id reason t in wp (release id reason t) (λ _, step o d) (step o d) d.
Proof.
  intros o. assert (step o d d) as HX by apply step_idle. unfold release. unfold readLeaseRecord.
  do 2 wp_step; [|done]. destruct (leases d !! id) as [l0|]; [|by wp_step]. wp_step; [done|]. apply wp_same.
  do 2 wp_step; [|done]. destruct (leases d !! id) as [l|] eqn:Hl; [|by wp_step]. wp_step; [by wp_step|]. bools.
  wp_step. apply iso_wp; [done|]. intros _. by eapply persist_remove_step.
Qed.

Lemma commit_step receipt id next key t1 t2 :
  let o := Commit receipt id next key t1 t2 in
  wp (markWritebackCommitted receipt id next key t1 t2) (λ _, step o d) (step o d) d.
Proof.
  intros o. assert (step o d d) as HX by apply step_idle. unfold markWritebackCommitted.
  wp_step. apply require_lease_wp; [done|]. intros _ _. wp_step; [done|]. apply wp_same.
  wp_step. apply require_lease_wp; [done|]. intros l Hl. pose proof (k_lease _ Hk _ _ Hl) as Hid.
  assert (state l ≠ Committed → persistedWrite l = Some (mkReceipt next key) ∨
       persistedWrite l = None ∧
       (state l = Finalized ∧ next = restoredGenerationHash l ∨ receipt = false ∧ state l = WritebackStarted) →
    wp (commitLocked l next key t2) (λ _, step o d) (step o d) d) as Hcommit.
  { intros Hs Hr. unfold commitLocked. wp_step. apply iso_wp; [done|]. intros _. cbv zeta.
    match goal with |- wp (persistLeaseTransitionLocked ?l' ;; _) _ _ _ =>
      pose proof (persist_remove_step o d id l l' Hk eq_refl eq_refl Hl) as H end.
    apply seq_assoc. wp_step. eapply wp_io_mono; [apply H|intros; by wp_step|done]. split; [done|]. by right. }
  destruct (bool_decide (state l = Committed)) eqn:Ec; bools.
  - wp_step; [|by wp_step]. wp_step. apply remove_active_wp; [done| |by intros; wp_step].
    rewrite Hid. intros E'. assert (step o d (set_active (delete (l_provider l)) d)) as H.
    { unfold set_active. rewrite <-(insert_id (leases d) id l Hl). apply (step_lease _ _ _ l); try done.
      - split; [done|]. by left.
      - right. rewrite Hid. auto. }
    split; [done|]. by wp_step.
  - destruct (persistedWrite l) as [[rh rk]|] eqn:Ew.
    + wp_step; [|by wp_step]. simpl in *. bools. subst. apply Hcommit; auto.
    + wp_step; [by wp_step|]. wp_step. apply assert_current_wp; [done|]. intros _ _ _ _.
      wp_step; [by wp_step|]. apply Hcommit; [done|]. right. split; [done|].
      destruct (bool_decide (state l = Finalized) && js_eqb next (restoredGenerationHash l)) eqn:Eu; bools; [by left|].
      right. split; [|by rewrite andb_true_r in *; bools]. by destruct receipt.
Qed.
End refine.

(** *** Acquisition and writing *)

Definition grant_ok (p run : jsstring) (att : Z) (ttl : num) (restored : jsstring) (now : date) (d : disk)
    (r : AcquireResult) (d' : disk) : Prop :=
  match r with
  | Granted id until =>
      until = date_plus now ttl ∧ (∀ a, active d !! p = Some a → isExpired a now = true) ∧
      ∃ l, new_lease p run att restored now until l ∧ leaseId l = id ∧ active d' !! p = Some l ∧ leases d' !! id = Some l
  | _ => True
  end.

Section refine_write.
Context (d : disk) (Hk : keyed d).

(** The creation of the two records once the provider is free. *)
Lemma grant_step p run att ttl restored now random d0 :
  let o := Acquire p run att ttl restored now random in
  (∀ a, active d !! p = Some a → isExpired a now = true) →
  active d0 = active d ∨ active d0 = delete p (active d) → active d0 !! p = None →
  leases d0 = leases d → sessions d0 = sessions d →
  wp (l ← makeLeaseRecord p run att restored now (date_plus now ttl) random;
      createLeaseRecord l ;;
      or_undo (createActiveRecord l) (leaseId l) (mret (Granted (leaseId l) (expiresAt l))))
    (λ r d', step o d d' ∧ grant_ok p run att ttl restored now d r d') (step o d) d0.
Proof.
  intros o Hfree Ha Hnone Hls Hss.
  assert (∀ l act ls, new_lease p run att restored now (date_plus now ttl) l → leases d !! leaseId l = None →
    act = active d0 ∨ act = <[p := l]> (active d0) → ls = leases d ∨ ls = <[leaseId l := l]> (leases d) →
    step o d (mkDisk act ls (sessions d))) as Hstep.
  { intros l act ls Hl Hnew Hact Hls'. apply (step_acquire _ _ _ _ _ _ _ _ l); try done.
    destruct Ha as [Ha|Ha], Hact as [->| ->]; rewrite Ha; auto. rewrite insert_delete_eq. auto. }
  assert (step o d d0) as HX.
  { destruct Ha as [Ha|Ha].
    - rewrite <-(mkDisk_eta d0), Ha, Hls, Hss, mkDisk_eta. apply step_idle.
    - rewrite <-(mkDisk_eta d0), Ha, Hls, Hss. by apply step_reap. }
  wp_step. unfold makeLeaseRecord. wp_step. apply iso_wp; [done|]. intros _. wp_step. apply iso_wp; [done|].
  intros Hv. wp_step. set (l := mkLease _ _ _ _ _ _ _ _ _ _ _ _ _ _ _ _ _).
  assert (new_lease p run att restored now (date_plus now ttl) l) as Hl by done.
  wp_step. unfold createLeaseRecord. wp_step; [done|]. rewrite Hls. intros Hnew.
  assert (∀ act ls, act = active d0 ∨ act = <[p := l]> (active d0) → ls = leases d ∨ ls = <[leaseId l := l]> (leases d) →
    step o d (mkDisk act ls (sessions d))) as Hs by (intros act ls; by apply Hstep).
  split; [|by unfold set_leases; rewrite Hss, Hls; apply Hs; auto].
  wp_step. unfold createActiveRecord. 
  assert (∀ act, act = active d0 ∨ act = <[p := l]> (active d0) →
     step o d (set_leases (delete (leaseId l)) (mkDisk act (<[leaseId l := l]> (leases d)) (sessions d)))) as Hundo.
  { intros act Hact. unfold set_leases; simpl. rewrite delete_insert_id by done. auto. }
  change (l_provider l) with p. replace (set_leases <[leaseId l := l]> d0) with (mkDisk (active d0) (<[leaseId l := l]> (leases d)) (sessions d))
    by (unfold set_leases; by rewrite Hls, Hss). wp_step.
  - split_and!; [by apply Hs; auto|by apply Hundo; auto..|done].
  - intros _. unfold set_active; simpl. split; [|split_and!; [by apply Hs; auto|by apply Hundo; auto..|done]].
    wp_step. split; [by apply Hs; auto|]. split_and!; try done. exists l. split_and!; try done; apply lookup_insert_eq.
Qed.

Lemma acquire_wp p run att ttl restored now random :
  let o := Acquire p run att ttl restored now random in
  wp (acquire p run att ttl restored now random)
    (λ r d', step o d d' ∧ grant_ok p run att ttl restored now d r d') (step o d) d.
Proof.
  intros o. assert (step o d d) as HX by apply step_idle. unfold acquire. wp_step; [by wp_step|]. wp_step; [done|].
  eapply wp_io_mono; [|intros r d' H; exact (conj H (proj1 H))|done].
  unfold readActive. do 2 wp_step; [|done]. destruct (active d !! p) as [a|] eqn:Ha.
  - wp_step; [wp_step; by destruct (js_eqb _ _)|]. bools.
    assert (∀ a', active d !! p = Some a' → isExpired a' now = true) as Hfree by crush.
    pose proof (k_active _ Hk _ _ Ha) as Hp. wp_step. apply remove_active_wp; rewrite ?Hp; [done|..].
    + intros _. split; [by apply step_reap|]. apply grant_step; auto. apply lookup_delete_eq.
    + rewrite Ha. simpl. by rewrite js_eqb_refl.
  - apply grant_step; auto. crush.
Qed.

(** What a write leaves once the session file has its final content [d1]. *)
Lemma record_receipt_step i now nonce d1 r :
  active d1 = active d → leases d1 = leases d → write_failure i now nonce d d1 → receipt_of d1 i r →
  wp (recordReceipt (w_instance i) (w_lease i) r)
    (λ _ d', step (Write i now nonce) d d' ∧ sessions d' = sessions d1)
    (λ d', step (Write i now nonce) d d' ∧ sessions d' = sessions d1) d1.
Proof.
  intros Ha Hls Hf Hr. set (X := λ d', step (Write i now nonce) d d' ∧ sessions d' = sessions d1).
  assert (X d1) as HX by (split; [by apply step_session|done]). unfold recordReceipt. wp_step; [by wp_step|]. wp_step.
  apply require_lease_wp; [done|]. rewrite Hls. intros l Hl. pose proof (k_lease _ Hk _ _ Hl) as Hid.
  wp_step; [by wp_step|]. bools. wp_step; [wp_step; by wp_step|].
  assert (∀ act l', lease_step (Write i now nonce) l l' → persistedWrite l' = Some r →
    active_step (Write i now nonce) d l l' act →
    X (mkDisk act (<[w_lease i := l']> (leases d)) (sessions d1))) as Hs.
  { intros act l' H1 H2 H3. split; [|done]. by apply (step_written _ _ _ _ _ l l' _ r). }
  apply persist_wp; [done|..]; simpl; rewrite ?Hid, ?Hls, ?Ha; unfold set_active, set_leases; simpl; rewrite ?Hls, ?Ha.
  - apply Hs; [done..|by left].
  - intros El. assert (X (mkDisk (<[l_provider l := with_state (state l) (finalizedAt l) (writebackStartedAt l) (committedAt l)
      (releasedAt l) (releaseReason l) (keyId l) (nextGenerationHash l) (idempotencyKey l) (Some r) l]> (active d))
      (<[w_lease i := with_state (state l) (finalizedAt l) (writebackStartedAt l) (committedAt l)
      (releasedAt l) (releaseReason l) (keyId l) (nextGenerationHash l) (idempotencyKey l) (Some r) l]> (leases d)) (sessions d1)));
      [|done].
    apply Hs; [done..|]. right. rewrite Hid. auto.
  - intros _. apply Hs; [done..|by left].
Qed.

Lemma replay_wp i now nonce s e :
  sessions d !! w_instance i = Some s → idempotency s !! w_key i = Some e →
  wp (replay_write i s e)
    (λ r d', (step (Write i now nonce) d d' ∧ content d' = content d) ∧
             r = IdempotentReplay (i_generation e) (i_generationHash e))
    (λ d', step (Write i now nonce) d d' ∧ content d' = content d) d.
Proof.
  intros Hs He. set (X := λ d', step (Write i now nonce) d d' ∧ content d' = content d).
  assert (X d) as HX by (split; [apply step_idle|done]). unfold replay_write. wp_step.
  assert (∀ d1 e', active d1 = active d → leases d1 = leases d → content d1 = content d →
    known_key d1 (w_instance i) (w_key i) = Some e' → i_generationHash e' = i_generationHash e →
    wp (recordReceipt (w_instance i) (w_lease i) (mkReceipt (i_generationHash e) (w_key i)) ;;
        mret (IdempotentReplay (i_generation e) (i_generationHash e)))
      (λ r d', X d' ∧ r = IdempotentReplay (i_generation e) (i_generationHash e)) X d1) as Hr.
  { intros d1 e' Ha Hls Hc Hk1 He'. wp_step.
    assert (receipt_of d1 i (mkReceipt (i_generationHash e) (w_key i))) as Hrc by (split; [done|]; exists e'; auto).
    eapply wp_io_mono; [apply (record_receipt_step i now nonce d1); [done|done|by left|done]|..]; cbv beta.
    - intros _ d' [H1 H2]. wp_step. split; [|done]. split; [done|]. rewrite <-Hc. unfold content. by rewrite H2.
    - intros d' [H1 H2]. split; [done|]. rewrite <-Hc. unfold content. by rewrite H2. }
  wp_step; wp_step; [|by wp_step| |by wp_step].
  - wp_step. apply (Hr d e); try done. unfold known_key. by rewrite Hs.
  - unfold writeRecord. wp_step; [|done|].
    + eapply Hr; [done|done|by apply content_relabel with (e := e)| |].
      * unfold known_key; simpl. rewrite lookup_insert_eq. simpl. apply lookup_insert_eq.
      * done.
    + assert (content (set_sessions <[w_instance i := with_idempotency s (<[w_key i :=
        mkIdempotency (i_generation e) (i_generationHash e) (artifactHash e) (Some (hashWriteRequest i))]>
        (idempotency s))]> d) = content d) as Hc by (by apply content_relabel with (e := e)).
      split; [|done]. apply step_session; try done. by left.
Qed.

Lemma fresh_wp i now nonce :
  (N.of_nat (length (bytes (nextArtifact i))) ≤ max_artifact_bytes)%N → providerId (nextArtifact i) = own_provider →
  known_key d (w_instance i) (w_key i) = None →
  wp (fresh_write i (sessions d !! w_instance i) now nonce)
    (λ r d', step (Write i now nonce) d d' ∧ write_outcome i now nonce d r d')
    (λ d', step (Write i now nonce) d d' ∧ write_failure i now nonce d d') d.
Proof.
  intros Hfit Hown Hkey. set (p := w_instance i). set (X := λ d', step (Write i now nonce) d d' ∧ write_failure i now nonce d d').
  assert (X d) as HX by (split; [apply step_idle|by left]).
  assert (expectedGeneration i = current_generation d p →
    wp (authorize p (w_lease i) (current_hash d p) (bool_decide (sessions d !! p = None)) requireLease now ;;
        let record := next_record i (sessions d !! p) nonce in
        writeRecord p record ;;
        recordReceipt p (w_lease i) (mkReceipt (generationHash record) (w_key i)) ;;
        mret (Accepted (generation record) (generationHash record)))
      (λ r d', step (Write i now nonce) d d' ∧ write_outcome i now nonce d r d') X d) as Hgo.
  { intros Hexp. wp_step. apply authorize_wp; [done..|]. intros Hmay. cbv zeta. unfold writeRecord. wp_step.
    set (d1 := set_sessions <[p := next_record i (sessions d !! p) nonce]> d).
    destruct (next_record_fields i (sessions d !! p) nonce) as (_ & _ & Hg & Hh & Hi).
    assert (∀ d', sessions d' = sessions d1 → published d d' i now nonce) as Hpub
      by (intros d' Hd'; repeat split; [done..|by rewrite Hd']).
    wp_step; [|done|split; [by apply step_session; [..|right; apply Hpub]|right; by apply Hpub]].
    wp_step. eapply wp_io_mono; [apply (record_receipt_step i now nonce d1)|..]; [done|done|right; by apply Hpub|..].
    - split; [done|]. eexists. unfold known_key, d1; simpl. rewrite lookup_insert_eq. simpl.
      by rewrite Hi, lookup_insert_eq.
    - intros _ d' [Hst Hd']. wp_step. split; [done|]. split_and!; [by apply Hpub| |done].
      rewrite Hg, Hexp. unfold current_generation. by destruct (sessions d !! p).
    - intros d' [Hst Hd']. split; [done|right; by apply Hpub]. }
  unfold fresh_write. fold p. unfold current_generation, current_hash in *.
  destruct (sessions d !! p) as [s|] eqn:Es; (wp_step; [|]); rewrite ?Z.eqb_eq, ?Z.eqb_neq in E.
  - rewrite bool_decide_eq_false_2 in Hgo by done. by apply Hgo.
  - wp_step. split; [apply step_idle|]. unfold write_outcome, current_generation, current_hash. fold p. rewrite Es. crush.
  - rewrite bool_decide_eq_true_2 in Hgo by done. by apply Hgo.
  - wp_step. split; [apply step_idle|]. unfold write_outcome, current_generation, current_hash. fold p. rewrite Es. crush.
Qed.

Lemma write_wp i now nonce :
  wp (write i now nonce)
    (λ r d', step (Write i now nonce) d d' ∧ write_outcome i now nonce d r d')
    (λ d', step (Write i now nonce) d d' ∧ write_failure i now nonce d d') d.
Proof.
  set (X := λ d', step (Write i now nonce) d d' ∧ write_failure i now nonce d d').
  assert (X d) as HX by (split; [apply step_idle|by left]). unfold write.
  wp_step. unfold assertArtifactFits. wp_step; [by wp_step|]. wp_step. wp_step; [by wp_step|]. wp_step; [done|].
  apply N.ltb_ge in E. bools.
  eapply wp_io_mono; [|intros r d' H; refine (conj H _); exact (conj (proj1 H) (write_outcome_failure _ _ _ _ _ _ (proj2 H)))|done].
  unfold readRecord. do 2 wp_step; [|done]. wp_step; [by wp_step|].
  destruct (sessions d !! w_instance i) as [s|] eqn:Es.
  - destruct (idempotency s !! w_key i) as [e|] eqn:Ek.
    + eapply wp_io_mono; [by apply (replay_wp i now nonce)|..].
      * intros r d' [[H1 H2] ->]. split; [done|]. split; [done|]. exists e. unfold known_key. by rewrite Es.
      * intros d' [H1 H2]. split; [done|by left].
    + rewrite <-Es. apply fresh_wp; [done..|]. unfold known_key. by rewrite Es.
  - rewrite <-Es. apply fresh_wp; [done..|]. unfold known_key. by rewrite Es.
Qed.

Lemma perform_step o : wp (perform o) (λ _, step o d) (step o d) d.
Proof.
  destruct o as [p run att ttl restored now random|id restored t1 t2|id key t1 t2|b id next key t1 t2|id reason t|i now nonce|p];
    simpl.
  - wp_step. eapply wp_io_mono; [apply acquire_wp|intros r d' [H _]; by wp_step|done].
  - by apply finalize_step.
  - by apply start_step.
  - wp_step. eapply wp_io_mono; [by apply commit_step|intros; by wp_step|done].
  - by apply release_step.
  - wp_step. eapply wp_io_mono; [apply write_wp|intros r d' [H _]; by wp_step|by intros d' [H _]].
  - unfold delete_session. assert (step (Delete p) d d) by apply step_idle.
    assert (step (Delete p) d (set_sessions (delete p) d)) by apply step_delete.
    wp_step; [done|]. by wp_step.
Qed.
End refine_write.

(** ** Histories run on the machine *)

Inductive steps : list op → disk → disk → Prop :=
| steps_nil d : steps [] d d
| steps_cons o os d d' d'' : step o d d' → steps os d' d'' → steps (o :: os) d d''.

Lemma lease_step_identity o l l' : lease_step o l l' → same_identity l l'.
Proof. by intros [H _]. Qed.

Lemma write_failure_keyed i now nonce d d' : keyed d → write_failure i now nonce d d' →
  ∀ p s, sessions d' !! p = Some s → providerInstanceId s = p.
Proof.
  intros Hk [Hc|(_ & _ & _ & _ & _ & Hs)] p s Hp.
  - assert (content d' !! p = Some (forget s)) as H by (unfold content; by rewrite lookup_fmap, Hp).
    rewrite Hc in H. unfold content in H. rewrite lookup_fmap in H. apply fmap_Some in H as (s0 & H0 & Hf).
    rewrite <-(k_session _ Hk _ _ H0). change (providerInstanceId (forget s) = providerInstanceId (forget s0)). by rewrite Hf.
  - rewrite Hs in Hp. apply lookup_insert_Some in Hp as [[<- <-]|[_ Hp]]; [|by eapply k_session].
    apply next_record_fields.
Qed.

Lemma keyed_machine_step o d d' : keyed d → step o d d' → keyed d'.
Proof.
  intros Hk Hs. pose proof Hk as [K1 K2 K3]. destruct Hs.
  - done.
  - by apply (keyed_delete_active d).
  - destruct H0 as (Hp & _). split; simpl; [|intros p' l'|done].
    + intros id l'. destruct H3 as [->| ->]; [auto|]. rewrite lookup_insert_Some. crush.
    + destruct H2 as [->|[->| ->]]; [auto|rewrite lookup_delete_Some; crush|].
      rewrite lookup_insert_Some. crush.
  - pose proof (K1 _ _ H1) as Hid. destruct (lease_step_identity _ _ _ H2) as (Hid' & Hp' & _). split; simpl; [|intros p a|done].
    + intros id' a. rewrite lookup_insert_Some. crush.
    + destruct H3 as [->|(_ & [->|[_ ->]])]; [auto|rewrite lookup_insert_Some; crush|].
      rewrite lookup_delete_Some. crush.
  - split; [by rewrite H0|by rewrite H|]. by eapply write_failure_keyed.
  - pose proof (K1 _ _ H3) as Hid. destruct (lease_step_identity _ _ _ H5) as (Hid' & Hp' & _).
    split; simpl; [intros id' a|intros p a|by eapply write_failure_keyed].
    + rewrite lookup_insert_Some. intros [[<- <-]|[_ ?]]; [congruence|auto].
    + destruct H7 as [->|(_ & [->|[_ ->]])]; [auto|rewrite lookup_insert_Some; intros [[<- <-]|[_ ?]]; [congruence|auto]|].
      rewrite lookup_delete_Some. intros [_ ?]. auto.
  - by apply (keyed_delete_session d).
Qed.

Lemma run_steps h d : keyed d → keyed (run h d) ∧ steps h.*2 d (run h d).
Proof.
  unfold run. revert d. induction h as [|[fs o] h IH]; intros d Hd; simpl; [split; [done|constructor]|].
  assert (step o d (perform o (fs, d)).1.2) as Hs.
  { pose proof (perform_step d Hd o fs) as H. by destruct (perform o (fs, d)) as [[fs' d'] [[]|e]]. }
  destruct (IH (perform o (fs, d)).1.2) as [H1 H2]; [by eapply keyed_machine_step|]. split; [done|]. by econstructor.
Qed.

Lemma run_invariant (I : disk → Prop) (P : op → Prop) h d :
  (∀ o d d', P o → keyed d → step o d d' → I d → I d') → Forall (λ x, P x.2) h → keyed d → I d → I (run h d).
Proof.
  intros HI HP Hk. destruct (run_steps h d Hk) as [_ Hs]. assert (Forall P h.*2) as HP' by (by apply Forall_fmap).
  clear HP. revert HP' Hk.
  induction Hs as [|o os d d' d'' Ho _ IH]; [done|]. intros [H1 H2]%Forall_cons Hk Hd.
  apply IH; [done|by eapply keyed_machine_step|by eapply HI].
Qed.

Definition empty_disk : disk := mkDisk ∅ ∅ ∅.

Lemma run_keyed h : keyed (run h empty_disk).
Proof. by apply run_steps, keyed_empty. Qed.

(** C12: Crash atomicity. Whatever operations were run before, and however many
    file accesses of this one fail or stop the process, before or after their
    effect: every operation of the two stores is one step of the abstract
    machine [step], in which a lease follows its life cycle, the active record
    follows its lease, and a session file is replaced at most once, by the
    record of an authorised compare-and-swap. *)
Theorem custody_refines (h : history) : steps h.*2 empty_disk (run h empty_disk).
Proof. apply run_steps, keyed_empty. Qed.

(** C8: Compare-and-swap of a session. On every reachable disk and under every
    fault, a write that is accepted found the generation it expected, an
    unknown key and the right to write, and leaves exactly the next record; a
    replay leaves the content as it was and answers what the key recorded; a
    stale answer reports the generation that did not match and changes nothing;
    a failure or a crash leaves the content as it was or the next record,
    published under the same conditions. *)
Theorem session_compare_and_swap (h : history) (fs : list fault) (i : WriteInput) (now : date) (nonce : list N) :
  let d := run h empty_disk in
  match write i now nonce (fs, d) with
  | ((_, d'), Ok r) => write_outcome i now nonce d r d'
  | ((_, d'), Throw _) => write_failure i now nonce d d'
  end.
Proof.
  intros d. pose proof (write_wp d (run_keyed h) i now nonce fs) as H.
  destruct (write i now nonce (fs, d)) as [[fs' d'] [r|e]]; apply H.
Qed.

(** ** Idempotency *)

(** What a key answers: the generation and hash recorded under it. *)
Definition entry (d : disk) (p key : jsstring) : option (Z * jsstring) :=
  (λ e, (i_generation e, i_generationHash e)) <$> known_key d p key.

Lemma entry_content d d' p key : content d' = content d → entry d' p key = entry d p key.
Proof.
  intros Hc. assert (∀ d, entry d p key = s ← content d !! p; (λ e, (i_generation e, i_generationHash e)) <$> idempotency s !! key) as H.
  { intros d0. unfold entry, known_key, content. rewrite lookup_fmap. destruct (sessions d0 !! p) as [s|]; [|done]. simpl.
    rewrite lookup_fmap. by destruct (idempotency s !! key). }
  by rewrite !H, Hc.
Qed.

Lemma published_key d d' i now nonce p key : published d d' i now nonce →
  known_key d' p key =
    if bool_decide (p = w_instance i ∧ key = w_key i)
    then Some (mkIdempotency (expectedGeneration i + 1) (computeSessionGenerationHash (nextArtifact i))
                 (sha_hex (bytes (nextArtifact i))) (Some (hashWriteRequest i)))
    else known_key d p key.
Proof.
  intros (_ & _ & _ & Hg & _ & Hs). unfold known_key. rewrite Hs, lookup_insert.
  destruct (next_record_fields i (sessions d !! w_instance i) nonce) as (_ & _ & Hgen & Hh & Hi).
  case_decide as Hp; [subst|rewrite bool_decide_eq_false_2; [done|crush]]. simpl.
  rewrite Hi, lookup_insert, Hgen, Hh. unfold current_generation in Hg. case_decide as Hkey.
  - subst. rewrite bool_decide_eq_true_2 by done. rewrite Hg. by destruct (sessions d !! w_instance i).
  - rewrite bool_decide_eq_false_2 by crush. by destruct (sessions d !! w_instance i).
Qed.

Lemma entry_write_failure d d' i now nonce p key x : write_failure i now nonce d d' →
  entry d p key = Some x → entry d' p key = Some x.
Proof.
  intros [Hc|Hp] He; [by rewrite (entry_content d)|]. unfold entry. rewrite (published_key _ _ _ _ _ _ _ Hp).
  case_bool_decide as Hb; [|done]. destruct Hb as [-> ->]. destruct Hp as (_ & _ & Hn & _). unfold entry in He. by rewrite Hn in He.
Qed.

Lemma entry_step o d d' p key x : o ≠ Delete p → step o d d' → entry d p key = Some x → entry d' p key = Some x.
Proof.
  intros Ho Hs He. destruct Hs; try done; try (by eapply entry_write_failure).
  - unfold entry, known_key in *; simpl. by rewrite lookup_delete_ne by crush.
Qed.

Lemma write_known i now nonce d g h fs : keyed d → entry d (w_instance i) (w_key i) = Some (g, h) →
  let '((_, d'), r) := write i now nonce (fs, d) in
  content d' = content d ∧ match r with Ok r => r = IdempotentReplay g h | Throw _ => True end.
Proof.
  intros Hk He. unfold entry in He. apply fmap_Some in He as (e & He & [= -> ->]).
  pose proof (write_wp d Hk i now nonce fs) as H. destruct (write i now nonce (fs, d)) as [[fs' d'] [r|x]].
  - destruct H as [Hst H]. destruct r; simpl in H.
    + destruct H as ((_ & _ & Hn & _) & _). congruence.
    + destruct H as (Hc & e' & He' & -> & ->). by simplify_eq.
    + destruct H as (_ & _ & _ & _ & Hn). congruence.
  - destruct H as [_ [Hc|(_ & _ & Hn & _)]]; [done|congruence].
Qed.

Lemma write_effect i now nonce fs d : keyed d →
  let d1 := (write i now nonce (fs, d)).1.2 in step (Write i now nonce) d d1 ∧ write_failure i now nonce d d1.
Proof.
  intros Hk. pose proof (write_wp d Hk i now nonce fs) as H. destruct (write i now nonce (fs, d)) as [[? ?] [r|x]]; simpl in *;
    [|done]. by destruct H as [? ?%write_outcome_failure].
Qed.

(** C10: A write takes effect at most once. If a call changed a session, whether
    it was accepted, threw or died on the way, then after any further history
    of the stores that does not delete that session, and under any faults, a
    write with the same key never changes a session again, and what it returns,
    if it does not throw, is the replay of that first effect: the generation
    after the expected one, and the hash of the artifact first written. *)
Theorem write_takes_effect_once (h h' : history) (fs fs' : list fault) (i i' : WriteInput) (now now' : date)
    (nonce nonce' : list N) :
  let d := run h empty_disk in
  let d1 := (write i now nonce (fs, d)).1.2 in
  content d1 ≠ content d →
  Forall (λ x, x.2 ≠ Delete (w_instance i)) h' →
  w_instance i' = w_instance i → w_key i' = w_key i →
  let d2 := run h' d1 in
  let '((_, d3), r) := write i' now' nonce' (fs', d2) in
  content d3 = content d2 ∧
  match r with
  | Ok r => r = IdempotentReplay (expectedGeneration i + 1) (computeSessionGenerationHash (nextArtifact i))
  | Throw _ => True
  end.
Proof.
  intros d d1 Hne Hh' Hp Hkey d2. pose proof (run_keyed h) as Hk. fold d in Hk.
  destruct (write_effect i now nonce fs d Hk) as [Hst Hf]. fold d1 in Hst, Hf.
  destruct Hf as [|Hpub]; [done|]. pose proof (keyed_machine_step _ _ _ Hk Hst) as Hk1.
  set (x := (expectedGeneration i + 1, computeSessionGenerationHash (nextArtifact i))).
  assert (entry d1 (w_instance i) (w_key i) = Some x) as He.
  { unfold entry. rewrite (published_key _ _ _ _ _ _ _ Hpub). by rewrite bool_decide_eq_true_2. }
  apply write_known; [by apply run_steps|]. rewrite Hp, Hkey.
  apply (run_invariant (λ d, entry d (w_instance i) (w_key i) = Some x) (λ o, o ≠ Delete (w_instance i)));
    [|done..]. intros. by eapply entry_step.
Qed.

(** *** Without faults *)

Lemma lock_quiet {A} (m : IO A) d d' r : m ([], d) = (([], d'), Ok r) → withProviderLock m ([], d) = (([], d'), Ok r).
Proof. intros H. unfold withProviderLock, mbind, M_bind, finally; simpl. unfold id. by rewrite H. Qed.

Lemma bind_quiet {A B} (m : IO A) (k : A → IO B) d d' a : m ([], d) = (([], d'), Ok a) → (m ≫= k) ([], d) = k a ([], d').
Proof. intros H. unfold mbind, M_bind. by rewrite H. Qed.

Lemma read_quiet {A} (g : disk → A) d : read g ([], d) = (([], d), Ok (g d)).
Proof. done. Qed.

Lemma persist_quiet l d : ∃ d', persistLeaseTransitionLocked l ([], d) = (([], d'), Ok tt) ∧
  leases d' = <[leaseId l := l]> (leases d) ∧ sessions d' = sessions d.
Proof.
  unfold_io. unfold mbind, M_bind; simpl. destruct (is_lease _ _); eexists; split; try reflexivity; done.
Qed.

(** The lease of a write, if it has one, is there and can take the receipt. *)
Definition takes_receipt (d : disk) (p id : jsstring) (r : Receipt) : Prop :=
  starts_with lease_prefix id = true →
  ∃ l, leases d !! id = Some l ∧ l_provider l = p ∧ (persistedWrite l = None ∨ persistedWrite l = Some r).

Definition has_receipt (d : disk) (id : jsstring) (r : Receipt) : Prop :=
  starts_with lease_prefix id = true → ∃ l, leases d !! id = Some l ∧ persistedWrite l = Some r.

Lemma record_receipt_quiet d p id r : keyed d → takes_receipt d p id r →
  ∃ d', recordReceipt p id r ([], d) = (([], d'), Ok tt) ∧ sessions d' = sessions d ∧ has_receipt d' id r.
Proof.
  intros Hk Ht. unfold recordReceipt, takes_receipt, has_receipt in *. destruct (starts_with _ _); simpl;
    [|exists d; split_and!; try done].
  destruct Ht as (l & Hl & Hp & Hr); [done|]. pose proof (k_lease _ Hk _ _ Hl) as Hid.
  erewrite bind_quiet; [|unfold_io; erewrite bind_quiet by apply read_quiet; rewrite Hl; reflexivity].
  rewrite Hp, js_eqb_refl; simpl. destruct Hr as [->|Hr].
  - destruct (persist_quiet (with_state (state l) (finalizedAt l) (writebackStartedAt l) (committedAt l) (releasedAt l)
      (releaseReason l) (keyId l) (nextGenerationHash l) (idempotencyKey l) (Some r) l) d) as (d' & -> & Hls & Hs).
    exists d'. split_and!; [done..|]. intros _. rewrite Hls. simpl. rewrite Hid, lookup_insert_eq. eauto.
  - rewrite Hr, bool_decide_eq_true_2 by done. exists d. eauto.
Qed.

Lemma write_quiet_replay i now nonce d s e : keyed d →
  (N.of_nat (length (bytes (nextArtifact i))) ≤ max_artifact_bytes)%N → providerId (nextArtifact i) = own_provider →
  sessions d !! w_instance i = Some s → s_provider s = own_provider → idempotency s !! w_key i = Some e →
  truthy_opt (requestHash e) = Some (hashWriteRequest i) → artifactHash e = sha_hex (bytes (nextArtifact i)) →
  takes_receipt d (w_instance i) (w_lease i) (mkReceipt (i_generationHash e) (w_key i)) →
  ∃ d', write i now nonce ([], d) = (([], d'), Ok (IdempotentReplay (i_generation e) (i_generationHash e))) ∧
    sessions d' = sessions d ∧ has_receipt d' (w_lease i) (mkReceipt (i_generationHash e) (w_key i)).
Proof.
  intros Hk Hfit Hown Hs Hsp He Hr Ha Ht. destruct (record_receipt_quiet _ _ _ _ Hk Ht) as (d' & Hrec & Hss & Hhas).
  exists d'. split; [|done]. unfold write, assertArtifactFits. rewrite (proj2 (N.ltb_ge _ _) Hfit), Hown, js_eqb_refl.
  apply lock_quiet. unfold readRecord. erewrite bind_quiet by apply read_quiet. rewrite Hs; simpl.
  rewrite (k_session _ Hk _ _ Hs), Hsp, !js_eqb_refl; simpl. rewrite He. unfold replay_write. rewrite Hr, Ha, !js_eqb_refl; simpl.
  erewrite bind_quiet by reflexivity. by erewrite bind_quiet by exact Hrec.
Qed.

Lemma written_takes_receipt i now nonce d d1 : content d1 ≠ content d → step (Write i now nonce) d d1 →
  published d d1 i now nonce →
  takes_receipt d1 (w_instance i) (w_lease i) (mkReceipt (computeSessionGenerationHash (nextArtifact i)) (w_key i)).
Proof.
  intros Hne Hst Hpub Hpre. pose proof Hpub as (_ & _ & _ & _ & Hmay & _). unfold may_write in Hmay. rewrite Hpre in Hmay.
  destruct Hmay as (l & Hl & Hp & _ & _ & _ & Hw & _). inversion Hst; simplify_eq; simpl in *.
  - exists l. split_and!; [congruence|done|by left].
  - match goal with H : lease_step _ l _ |- _ => destruct H as ((_ & Hp' & _) & _) end. rewrite lookup_insert_eq.
    eexists. split; [done|]. split; [congruence|]. right.
    match goal with H : receipt_of _ _ _ |- _ => destruct H as (Hrk & e & He & Hrh) end.
    change (known_key d' (w_instance i) (w_key i) = Some e) in He.
    assert (published d d' i now nonce) as Hpub' by done.
    rewrite (published_key _ _ _ _ _ _ _ Hpub'), bool_decide_eq_true_2 in He by done. simplify_eq. simpl in Hrh.
    destruct r. simpl in *. congruence.
Qed.

(** A write that took effect can always be completed. If a call changed a
    session and then threw or died, repeating the same request without further
    faults returns the replay of its effect, leaves the session as it is, and
    hands the receipt to the lease, if the write had one, from which the lease
    can be committed. [sha_hex] is never empty: it is 64 hexadecimal digits. *)
Theorem interrupted_write_completes (h : history) (fs : list fault) (i : WriteInput) (now now' : date)
    (nonce nonce' : list N) :
  (∀ b, sha_hex b ≠ []) →
  let d := run h empty_disk in
  let d1 := (write i now nonce (fs, d)).1.2 in
  content d1 ≠ content d →
  let g := expectedGeneration i + 1 in
  let hash := computeSessionGenerationHash (nextArtifact i) in
  ∃ d2, write i now' nonce' ([], d1) = (([], d2), Ok (IdempotentReplay g hash)) ∧
    sessions d2 = sessions d1 ∧ has_receipt d2 (w_lease i) (mkReceipt hash (w_key i)).
Proof.
  intros Hsha d d1 Hne g hash. pose proof (run_keyed h) as Hk. fold d in Hk.
  destruct (write_effect i now nonce fs d Hk) as [Hst Hf]. fold d1 in Hst, Hf.
  destruct Hf as [|Hpub]; [done|]. pose proof (keyed_machine_step _ _ _ Hk Hst) as Hk1.
  pose proof (published_key _ _ _ _ _ (w_instance i) (w_key i) Hpub) as Hkey. rewrite bool_decide_eq_true_2 in Hkey by done.
  assert (takes_receipt d1 (w_instance i) (w_lease i) (mkReceipt hash (w_key i))) as Ht by (by eapply written_takes_receipt).
  pose proof Hpub as (Hfit & Hown & _ & _ & _ & Hs). unfold known_key in Hkey.
  assert (sessions d1 !! w_instance i = Some (next_record i (sessions d !! w_instance i) nonce)) as Hs1
    by (by rewrite Hs, lookup_insert_eq).
  rewrite Hs1 in Hkey. simpl in Hkey.
  apply (write_quiet_replay i now' nonce' d1 _ _ Hk1 Hfit Hown Hs1 (proj1 (proj2 (next_record_fields _ _ _))) Hkey);
    [|done..]. unfold truthy_opt; simpl. unfold hashWriteRequest, hashText.
  match goal with |- context [truthy ?x] => destruct x eqn:E end; [by apply Hsha in E|done].
Qed.

(** ** Committed leases *)

(** The receipts of the leases name writes that reached their session, and a
    committed lease names one of them, or the generation it started from. *)
Definition backed_lease (d : disk) (l : Lease) : Prop :=
  (∀ r, persistedWrite l = Some r → ∃ g, entry d (l_provider l) (rc_key r) = Some (g, rc_hash r)) ∧
  (state l = Committed → ∃ next key, nextGenerationHash l = Some next ∧ idempotencyKey l = Some key ∧
     (next = restoredGenerationHash l ∨ ∃ g, entry d (l_provider l) key = Some (g, next))).

Definition backed (d : disk) : Prop := ∀ id l, leases d !! id = Some l → backed_lease d l.

(** The operations of a deployment that demands receipts and deletes nothing. *)
Definition custodial (o : op) : Prop :=
  match o with Commit receipt _ _ _ _ _ => receipt = true | Delete _ => False | _ => True end.

Lemma backed_lease_mono d d' l :
  (∀ p key x, entry d p key = Some x → entry d' p key = Some x) → backed_lease d l → backed_lease d' l.
Proof. intros He [H1 H2]. split; [crush|]. intros (next & key & ? & ? & H)%H2. exists next, key. crush. Qed.

Lemma backed_lease_step o d l l' : custodial o → (∀ i now nonce, o ≠ Write i now nonce) →
  lease_step o l l' → backed_lease d l → backed_lease d l'.
Proof.
  intros Hc Hw [(Hid & Hp & Hr & _) Hs] [H1 H2].
  destruct o as [ | | |receipt id next key t1 t2| |i now nonce| ]; simpl in *; try done; try (by destruct (Hw i now nonce)).
  - destruct Hs as (? & Hst & _ & Hpw). split; [by rewrite Hpw, Hp|by rewrite Hst].
  - destruct Hs as (? & Hst & Hpw). split; [by rewrite Hpw, Hp|by rewrite Hst].
  - destruct Hs as [[_ ->]|(_ & _ & Hn & Hk & Hpw & Hb)]; [done|]. split; [by rewrite Hpw, Hp|]. intros _.
    exists next, key. split; [done|]. split; [done|]. rewrite Hp, Hr.
    destruct Hb as [Hb|(_ & [[_ Hb]|[Hb _]])]; [|by left|congruence]. right. by apply (H1 _ Hb).
  - destruct Hs as (? & Hst & Hpw). split; [by rewrite Hpw, Hp|by rewrite Hst].
Qed.

Lemma backed_step o d d' : custodial o → keyed d → step o d d' → backed d → backed d'.
Proof.
  intros Hc Hk Hs Hb.
  assert (∀ p key x, entry d p key = Some x → entry d' p key = Some x) as He.
  { intros p key x. eapply entry_step; [|done]. by intros ->. }
  assert (∀ id l, leases d !! id = Some l → backed_lease d' l) as Hold
    by (intros id l Hl; eapply backed_lease_mono; eauto).
  intros id a. destruct Hs; simpl; intros Hl; try (by eapply Hold).
  - destruct H3 as [->| ->]; [by eapply Hold|]. apply lookup_insert_Some in Hl as [[<- <-]|[_ Hl]]; [|by eapply Hold].
    destruct H0 as (_ & _ & _ & _ & Hst & _ & _ & _ & Hpw). split; [by rewrite Hpw|by rewrite Hst].
  - apply lookup_insert_Some in Hl as [[<- <-]|[_ Hl]]; [|by eapply Hold]. eapply backed_lease_step; eauto.
  - rewrite H0 in Hl. by eapply Hold.
  - apply lookup_insert_Some in Hl as [[<- <-]|[_ Hl]]; [|by eapply Hold].
    destruct (Hold _ _ H3) as [_ Hcom]. destruct H5 as ((_ & Hp & Hr & _) & (_ & Hst & Hn & Hkey)).
    split; [|by rewrite Hst, Hn, Hkey, Hp, Hr].
    rewrite H6. intros ? [= <-]. destruct H2 as (Hrk & e & Hknown & Hrh). exists (i_generation e).
    rewrite Hp, H4, Hrk. unfold entry, known_key in *. simpl in *. by rewrite Hknown, Hrh.
Qed.

(** C13: Nothing is committed that was not written. In every history of faults
    and operations in which commits demand a session receipt and sessions are
    not deleted, a lease that is committed names either the generation it was
    restored from or the hash and key of a write recorded in the session of
    its provider. *)
Theorem committed_lease_backed (h : history) (id : jsstring) (l : Lease) :
  Forall (λ x, custodial x.2) h →
  leases (run h empty_disk) !! id = Some l → state l = Committed →
  ∃ next key, nextGenerationHash l = Some next ∧ idempotencyKey l = Some key ∧
    (next = restoredGenerationHash l ∨ ∃ g, entry (run h empty_disk) (l_provider l) key = Some (g, next)).
Proof.
  intros Hh Hl. assert (backed (run h empty_disk)) as Hb; [|apply (Hb id l Hl)].
  apply (run_invariant backed custodial h empty_disk backed_step Hh keyed_empty).
  intros ? ?; simpl. by rewrite lookup_empty.
Qed.

(** ** Exclusive leases *)

(** [id] holds the provider [p] until [until]. *)
Definition holds (id p : jsstring) (until : date) (d : disk) : Prop :=
  (∃ a, active d !! p = Some a ∧ leaseId a = id ∧ expiresAt a = until) ∧
  (∃ l, leases d !! id = Some l ∧ l_provider l = p ∧ expiresAt l = until).

(** The operations that do not end the lease [id]: no release or commit of it,
    no acquisition of its provider after its time. *)
Definition keeps_lease (id p : jsstring) (until : date) (o : op) : Prop :=
  match o with
  | Commit _ id' _ _ _ _ | Release id' _ _ => id' ≠ id
  | Acquire p' _ _ _ _ now _ => p' = p → date_leb until now = false
  | _ => True
  end.

Lemma holds_lease_step o d id p until id' l l' act ss : keyed d → holds id p until d →
  (ends_lease o = true → id' ≠ id) → leases d !! id' = Some l → lease_step o l l' → active_step o d l l' act →
  holds id p until (mkDisk act (<[id' := l']> (leases d)) ss).
Proof.
  intros Hk [(a & Ha & Hid & Hexp) (l0 & Hl0 & Hp0 & He0)] Hends Hl [(Hid' & Hp' & _ & Hx') _] Hact.
  pose proof (k_lease _ Hk _ _ Hl) as Hl'. split; simpl.
  - destruct Hact as [->|(Hm & Hact)]; [eauto|]. apply is_lease_true in Hm as (a' & Ha' & Hida).
    destruct (decide (l_provider l = p)) as [Heq|Hne].
    + assert (id' = id) as -> by congruence. destruct Hact as [->|[He _]]; [|by destruct (Hends He)].
      rewrite Heq, lookup_insert_eq. exists l'. split; [done|]. split; congruence.
    + exists a. destruct Hact as [->|[_ ->]]; [rewrite lookup_insert_ne by done|rewrite lookup_delete_ne by done]; done.
  - destruct (decide (id' = id)) as [->|Hne].
    + rewrite lookup_insert_eq. exists l'. split; [done|]. split; congruence.
    + rewrite lookup_insert_ne by done. eauto.
Qed.

Lemma holds_step id p until o d d' : date_valid until = true → keeps_lease id p until o → keyed d → step o d d' →
  holds id p until d → holds id p until d'.
Proof.
  intros Hv Hkeep Hk Hs Hh. pose proof Hh as [(a & Ha & Hid & Hexp) (l0 & Hl0 & Hp0 & He0)].
  assert (∀ now, date_leb until now = false → isExpired a now = false) as Hlive.
  { intros now Hnow. unfold isExpired. by rewrite Hexp, Hv, Hnow. }
  destruct Hs; simpl in *; try done.
  - split; [|eauto]. exists a. simpl. destruct (decide (p0 = p)) as [->|Hne].
    + specialize (H a Ha). rewrite Hlive in H by auto. done.
    + by rewrite lookup_delete_ne.
  - assert (p0 ≠ p) as Hne. { intros ->. specialize (H a Ha). rewrite Hlive in H by auto. done. }
    split; [exists a|exists l0]; simpl.
    + destruct H2 as [->|[->| ->]]; [|rewrite lookup_delete_ne|rewrite lookup_insert_ne]; done.
    + destruct H3 as [->| ->]; [done|]. rewrite lookup_insert_ne; [done|]. congruence.
  - eapply holds_lease_step; try done. intros He. destruct o; simpl in *; crush.
  - split; [exists a; by rewrite H|exists l0; by rewrite H0].
  - eapply holds_lease_step; try done. by intros [=].
Qed.

(** C11: A granted lease is exclusive until its expiry. From a grant of [id] on,
    through any faults and any operations that do not release or commit that
    lease and do not acquire its provider after the granted time: no other
    acquisition of the provider is granted before that time, and no write of
    its session is accepted before that time except under [id] itself. *)
Theorem session_lease_exclusive (h h' : history) (fs fs1 : list fault) (p run_id : jsstring) (att : Z) (ttl : num)
    (restored : jsstring) (t now : date) (random id : jsstring) (until : date) :
  let d0 := run h empty_disk in
  let a := acquire p run_id att ttl restored t random (fs, d0) in
  a.2 = Ok (Granted id until) →
  Forall (λ x, keeps_lease id p until x.2) h' → date_leb until now = false →
  let d := run h' a.1.2 in
  (∀ run' att' ttl' restored' random' id' until',
     (acquire p run' att' ttl' restored' now random' (fs1, d)).2 ≠ Ok (Granted id' until')) ∧
  (∀ i nonce g hash, w_instance i = p → (write i now nonce (fs1, d)).2 = Ok (Accepted g hash) → w_lease i = id).
Proof.
  intros d0 a Hgrant Hh' Hnow d. pose proof (run_keyed h) as Hk0. fold d0 in Hk0.
  pose proof (acquire_wp d0 Hk0 p run_id att ttl restored t random fs) as Ha. fold a in Ha.
  destruct a as [[fs' d1] r] eqn:Ea; simpl in *. subst r. destruct Ha as (Hst & _ & _ & l & Hnew & Hid & Hact & Hl).
  destruct Hnew as (Hp & _ & _ & _ & _ & _ & Hexp & Hv & _). pose proof (keyed_machine_step _ _ _ Hk0 Hst) as Hk1.
  assert (holds id p until d) as Hholds.
  { apply (run_invariant (holds id p until) (keeps_lease id p until)); [|done|done|].
    - intros. by eapply holds_step.
    - split; eauto. }
  assert (keyed d) as Hk by (by apply run_steps). destruct Hholds as [(b & Hb & Hbid & Hbexp) _].
  assert (isExpired b now = false) as Hlive by (unfold isExpired; by rewrite Hbexp, Hv, Hnow).
  split.
  - intros run' att' ttl' restored' random' id' until' Hg.
    pose proof (acquire_wp d Hk p run' att' ttl' restored' now random' fs1) as H.
    destruct (acquire _ _ _ _ _ _ _ (fs1, d)) as [[? ?] ?]; simpl in *. subst. destruct H as (_ & _ & Hfree & _).
    specialize (Hfree b Hb). congruence.
  - intros i nonce g hash Hi Hw. pose proof (write_wp d Hk i now nonce fs1) as H.
    destruct (write i now nonce (fs1, d)) as [[? ?] ?]; simpl in *. subst.
    destruct H as (_ & (_ & _ & _ & _ & Hmay & _) & _). unfold may_write in Hmay. destruct (starts_with _ _).
    + destruct Hmay as (l' & Hl' & _ & _ & _ & Hcur & _). apply is_lease_true in Hcur as (b' & Hb' & Hid').
      pose proof (k_lease _ Hk _ _ Hl'). congruence.
    + destruct Hmay as [Hfree _]. rewrite Hi in Hfree. specialize (Hfree b Hb). congruence.
Qed.

(** ** What a read returns *)

Definition authentic (s : Session) : Prop :=
  s_provider s = own_provider ∧ 1 ≤ generation s ∧
  ∃ a, unseal (nonce (artifact s)) (authTag (artifact s)) (encryptedBytes (artifact s)) = Some (bytes a) ∧
       kind a = s_kind (artifact s) ∧ formatVersion a = s_formatVersion (artifact s) ∧ providerId a = own_provider ∧
       (N.of_nat (length (bytes a)) ≤ max_artifact_bytes)%N ∧ generationHash s = computeSessionGenerationHash a.

Definition authentic_disk (d : disk) : Prop := ∀ p s, sessions d !! p = Some s → authentic s.

Section read.
(** Decryption inverts encryption. *)
Hypothesis unseal_seal : ∀ n b, unseal n (seal n b).2 (seal n b).1 = Some b.

Lemma next_record_sealed i ex n :
  artifact (next_record i ex n) =
    mkSealed (kind (nextArtifact i)) (formatVersion (nextArtifact i)) (contentType (nextArtifact i))
      (seal n (bytes (nextArtifact i))).1 n (seal n (bytes (nextArtifact i))).2.
Proof. unfold next_record, encryptRecord. by destruct (seal _ _). Qed.

Lemma authentic_failure i now n d d' : authentic_disk d → write_failure i now n d d' → authentic_disk d'.
Proof.
  intros Hd [Hc|(Hfit & Hown & _ & _ & _ & Hs)] p s Hp.
  - assert (content d' !! p = Some (forget s)) as H by (unfold content; by rewrite lookup_fmap, Hp).
    rewrite Hc in H. unfold content in H. rewrite lookup_fmap in H. apply fmap_Some in H as (s0 & H0 & Hf).
    assert (authentic (forget s) = authentic s ∧ authentic (forget s0) = authentic s0) as [H1 H2] by done.
    rewrite <-H1, Hf, H2. by eapply Hd.
  - rewrite Hs in Hp. apply lookup_insert_Some in Hp as [[<- <-]|[_ Hp]]; [|by eapply Hd].
    destruct (next_record_fields i (sessions d !! w_instance i) n) as (_ & H1 & H2 & H3 & _). split; [done|].
    rewrite H2, H3, next_record_sealed. simpl. split.
    + destruct (sessions d !! w_instance i) as [s0|] eqn:E; [|done]. destruct (Hd _ _ E) as (_ & H & _). lia.
    + exists (nextArtifact i). split_and!; [apply unseal_seal|done..].
Qed.

Lemma authentic_run h : authentic_disk (run h empty_disk).
Proof.
  apply (run_invariant authentic_disk (λ _, True)); [|by apply Forall_true|apply keyed_empty|].
  - intros o d d' _ Hk Hs Hd. destruct Hs; try done.
    + by eapply authentic_failure.
    + intros p s. by eapply authentic_failure.
    + intros p' s. simpl. rewrite lookup_delete_Some. intros [_ ?]. by eapply Hd.
  - intros ? ?; simpl. by rewrite lookup_empty.
Qed.

(** What a session store returns is what was written. After any history of
    operations and faults, a read returns nothing or an envelope of the
    instance asked for and the provider of the store, at a generation of at
    least 1, whose generation hash is the hash of the artifact it carries, and
    whose artifact is within the size limit. Decryption is assumed to invert
    encryption. *)
Theorem read_authentic (h : history) (p : jsstring) (expected : option jsstring) (fs : list fault) :
  match (read_session p expected (fs, run h empty_disk)).2 with
  | Ok (Some e) =>
      e_instance e = p ∧ e_provider e = own_provider ∧ 1 ≤ e_generation e ∧
      e_generationHash e = computeSessionGenerationHash (e_artifact e) ∧
      (N.of_nat (length (bytes (e_artifact e))) ≤ max_artifact_bytes)%N
  | _ => True
  end.
Proof.
  set (d := run h empty_disk).
  enough (wp (read_session p expected) (λ r _, match r with Some e =>
      e_instance e = p ∧ e_provider e = own_provider ∧ 1 ≤ e_generation e ∧
      e_generationHash e = computeSessionGenerationHash (e_artifact e) ∧
      (N.of_nat (length (bytes (e_artifact e))) ≤ max_artifact_bytes)%N | None => True end) (λ _, True) d) as H.
  { specialize (H fs). by destruct (read_session p expected (fs, d)) as [[? ?] [[e|]|x]]. }
  unfold read_session, readRecord. do 2 wp_step; [|done]. destruct (sessions d !! p) as [s|] eqn:Es; [|by wp_step].
  destruct (authentic_run h _ _ Es) as (Hown & Hg & a & Hu & H1 & H2 & H3 & H4 & H5).
  do 2 (wp_step; [by wp_step|]). bools. wp_step. unfold decryptArtifact. rewrite Hu. wp_step. wp_step.
  split_and!; [exact E|exact Hown|exact Hg| |exact H4].
  cbn [e_generationHash e_artifact]. rewrite H5. unfold computeSessionGenerationHash.
  cbn [providerId kind formatVersion bytes]. rewrite H1, H2, H3, Hown. reflexivity.
Qed.

(** Writing and reading a session are inverse. Under any faults that do not
    stop it, an accepted write is followed by a read that returns the artifact
    written, without its dates, at the generation and hash the write reported. *)
Theorem write_read_roundtrip (h : history) (fs : list fault) (i : WriteInput) (now : date) (n : list N) (g : Z) (hash : jsstring) :
  let w := write i now n (fs, run h empty_disk) in
  w.2 = Ok (Accepted g hash) →
  ∃ md, (read_session (w_instance i) (Some own_provider) ([], w.1.2)).2 =
    Ok (Some (mkEnvelope (w_instance i) own_provider
      (mkArtifact (kind (nextArtifact i)) own_provider (formatVersion (nextArtifact i)) (bytes (nextArtifact i))
         (contentType (nextArtifact i)) None None) g hash md)).
Proof.
  intros w Hw. pose proof (write_wp _ (run_keyed h) i now n fs) as H. fold w in H.
  destruct w as [[fs' d'] r]; simpl in *. subst r. destruct H as (_ & (Hpub & -> & ->)).
  pose proof Hpub as (_ & Hown & _ & Hg & _ & Hs). set (d := run h empty_disk) in *.
  destruct (next_record_fields i (sessions d !! w_instance i) n) as (F1 & F2 & F3 & F4 & _).
  pose proof (next_record_sealed i (sessions d !! w_instance i) n) as F5. set (rec := next_record _ _ _) in *.
  exists (metadata rec). unfold read_session, readRecord. erewrite bind_quiet by apply read_quiet.
  rewrite Hs, lookup_insert_eq, F1, F2, js_eqb_refl. cbn [negb].
  assert (generation rec = expectedGeneration i + 1) as F3'.
  { rewrite F3, Hg. unfold current_generation. by destruct (sessions d !! w_instance i). }
  assert (match truthy_opt (Some own_provider) with Some e => negb (js_eqb e own_provider) | None => false end = false) as ->.
  { unfold truthy_opt. destruct (truthy own_provider); [by rewrite js_eqb_refl|done]. }
  unfold decryptArtifact. rewrite F5, F2. cbn [artifact Custody.nonce authTag encryptedBytes].
  rewrite unseal_seal. erewrite bind_quiet by reflexivity. rewrite F3', F4. reflexivity.
Qed.
End read.
End Stores.

(** ** A deployment run by hand *)

Module Demo.

Definition sha (b : list N) : jsstring := js "h" ++ b.
Definition b64 (b : list N) : jsstring := b.
Definition enc (n b : list N) : list N * list N := (b, n).
Definition dec (n t b : list N) : option (list N) := Some b.
Definition prov : jsstring := js "codex".
Definition p : jsstring := js "acct".
Definition at_ (t : Z) : date := At t.
Definition art (s : string) : Artifact := mkArtifact JsonFile prov (js "v1") (js s) (js "application/json") None None.

Abbreviation wr := (write sha b64 enc prov None true).
Abbreviation exec := (run sha b64 enc prov None true).

(** The first session, written without a lease. *)
Definition first : WriteInput := mkWriteInput p 0 (art "one") (js "k1") (js "none") None.
Definition hash1 : jsstring := computeSessionGenerationHash b64 (art "one").
Definition id1 : jsstring :=
  lease_prefix ++ hashText sha (js_join nul [p; js "run"; json_Z 1; hash1; js "r"]).
Definition second : WriteInput := mkWriteInput p 1 (art "two") (js "k2") id1 None.
Definition hash2 : jsstring := computeSessionGenerationHash b64 (art "two").

(** A worker restores that session and is about to write it back. *)
Definition restored : history :=
  [([], Write first (at_ 0) []); ([], Acquire p (js "run") 1 (num_of_Z 1000) hash1 (at_ 1) (js "r"));
   ([], Finalize id1 hash1 (at_ 2) (at_ 2)); ([], Start id1 None (at_ 3) (at_ 3))].

(** The process stops right after the session file was replaced. *)
Definition crash : list fault := [Fine; Fine; Fine; Fine; CrashAfter].
Definition later : history := [([FailAfter], Acquire p (js "run2") 1 (num_of_Z 1000) hash2 (at_ 500) (js "s"))].

(** The write of [second] that dies, replayed later by another call. *)
Lemma write_takes_effect_once_witness :
  let d := exec restored empty_disk in
  let d1 := (wr second (at_ 4) [] (crash, d)).1.2 in
  content d1 ≠ content d ∧
  (wr second (at_ 4) [] (crash, d)).2 = Throw Crashed ∧
  let '((_, d3), r) := wr second (at_ 9) [] ([], exec later d1) in
  content d3 = content (exec later d1) ∧ r = Ok (IdempotentReplay 2 hash2).
Proof.
  assert (content (wr second (at_ 4) [] (crash, exec restored empty_disk)).1.2 ≠ content (exec restored empty_disk)) as Hne.
  { intros H. apply (f_equal (λ m, generation <$> m !! p)) in H. revert H. by vm_compute. }
  split; [exact Hne|]. split; [by vm_compute|].
  pose proof (write_takes_effect_once sha b64 enc prov None true restored later crash [] second second (at_ 4) (at_ 9) [] []
    Hne ltac:(by repeat constructor) eq_refl eq_refl) as H. cbv zeta in H.
  destruct (wr second (at_ 9) [] _) as [[fs3 d3] r] eqn:E. destruct H as [H1 H2]. split; [exact H1|].
  apply (f_equal snd) in E. revert E. vm_compute. congruence.
Defined.

Lemma interrupted_write_completes_witness :
  let d1 := (wr second (at_ 4) [] (crash, exec restored empty_disk)).1.2 in
  ∃ d2, wr second (at_ 900) [] ([], d1) = (([], d2), Ok (IdempotentReplay 2 hash2)) ∧
    sessions d2 = sessions d1 ∧ has_receipt d2 id1 (mkReceipt hash2 (js "k2")).
Proof.
  apply (interrupted_write_completes sha b64 enc prov None true restored crash second (at_ 4) (at_ 900) [] []).
  - intros b. by unfold sha.
  - intros H. apply (f_equal (λ m, generation <$> m !! p)) in H. revert H. by vm_compute.
Defined.

(** The whole life of a lease. *)
Definition written : history :=
  restored ++ [([], Write second (at_ 4) []); ([], Commit true id1 hash2 (js "k2") (at_ 5) (at_ 5))].

Lemma committed_lease_backed_witness :
  ∃ l next key, leases (exec written empty_disk) !! id1 = Some l ∧ state l = Committed ∧
    nextGenerationHash l = Some next ∧ idempotencyKey l = Some key ∧
    (next = restoredGenerationHash l ∨ ∃ g, entry (exec written empty_disk) (l_provider l) key = Some (g, next)).
Proof.
  destruct (leases (exec written empty_disk) !! id1) as [l|] eqn:El; [|exfalso; revert El; by vm_compute].
  assert (state l = Committed) as Hc.
  { apply (f_equal (fmap state)) in El. revert El. vm_compute. congruence. }
  destruct (committed_lease_backed sha b64 enc prov None true written id1 l ltac:(by repeat constructor) El Hc)
    as (next & key & H). exists l, next, key. split; [done|]. split; [done|exact H].
Defined.

Lemma session_lease_exclusive_witness :
  let d0 := exec (take 1 restored) empty_disk in
  let a := acquire sha p (js "run") 1 (num_of_Z 1000) hash1 (at_ 1) (js "r") ([], d0) in
  a.2 = Ok (Granted id1 (at_ 1001)) ∧
  ∀ run' att' ttl' restored' random' id' until',
    (acquire sha p run' att' ttl' restored' (at_ 1000) random' ([], exec (drop 2 restored) a.1.2)).2 ≠ Ok (Granted id' until').
Proof.
  cbv zeta. split; [by vm_compute|].
  apply (session_lease_exclusive sha b64 enc prov None true (take 1 restored) (drop 2 restored) [] [] p (js "run") 1 (num_of_Z 1000)
    hash1 (at_ 1) (at_ 1000) (js "r") id1 (at_ 1001)); [by vm_compute|by repeat constructor|done].
Defined.

Lemma read_authentic_witness :
  match (read_session dec p None ([], exec written empty_disk)).2 with
  | Ok (Some e) => e_generation e = 2 ∧ e_generationHash e = computeSessionGenerationHash b64 (e_artifact e)
  | _ => False
  end.
Proof.
  pose proof (read_authentic sha b64 enc dec prov None true (λ n b, eq_refl) written p None []) as H.
  destruct (read_session dec p None ([], exec written empty_disk)).2 as [[e|]|x] eqn:E.
  - destruct H as (_ & _ & _ & H & _). split; [|exact H].
    transitivity (match (read_session dec p None ([], exec written empty_disk)).2 with
                  | Ok (Some e) => e_generation e | _ => 0 end); [by rewrite E|by vm_compute].
  - revert E. by vm_compute.
  - revert E. by vm_compute.
Defined.

Lemma write_read_roundtrip_witness :
  ∃ md, (read_session dec p (Some prov) ([], (wr second (at_ 4) [] ([], exec restored empty_disk)).1.2)).2 =
    Ok (Some (mkEnvelope p prov (art "two") 2 hash2 md)).
Proof.
  apply (write_read_roundtrip sha b64 enc dec prov None true (λ n b, eq_refl) restored [] second (at_ 4) [] 2 hash2).
  by vm_compute.
Defined.

(** An acquisition whose active record is published but whose directory cannot
    be synced throws, and removes the lease record only: the active record stays
    and refuses everyone until it expires, and no release can remove it. *)
Definition orphaned : disk :=
  (acquire sha p (js "run") 1 (num_of_Z 1000) hash1 (at_ 1) (js "r") ([Fine; Fine; Fine; FailAfter], empty_disk)).1.2.

Theorem failed_acquire_orphans :
  (acquire sha p (js "run") 1 (num_of_Z 1000) hash1 (at_ 1) (js "r") ([Fine; Fine; Fine; FailAfter], empty_disk)).2 = Throw IoError ∧
  leases orphaned = ∅ ∧ leaseId <$> active orphaned !! p = Some id1 ∧
  release id1 (js "reason") (at_ 2) ([], orphaned) = (([], orphaned), Ok tt) ∧
  (acquire sha p (js "run2") 1 (num_of_Z 1000) hash1 (at_ 1000) (js "s") ([], orphaned)).2 = Ok Denied.
Proof. repeat split; by vm_compute. Qed.
End Demo.
End Custody.
