(* ===== verification/RuntimePolicy.v ===== *)
(** * Runtime policy

    [src/core/application/policy.ts]: the negotiation of the capabilities of
    a provider, an agent, a runner and a session store under a policy, the
    compiled policy and the execution plan; and the transition tables of
    [src/core/domain/state-machines.ts].

    A record has the fields of its TypeScript type that these functions read.
    The policy is given: the overload that takes none throws before it looks at
    anything. [allowInteractiveSetupInRuntime] has the literal type [false] in
    the source, which checks it all the same, so it is a boolean here. *)

From stdpp Require Import base numbers list option strings.
From S2P Require Import Prelude.

#[local] Open Scope Z_scope.

Module RuntimePolicy.

(** ** Data *)

Inductive CustodyMode : Set := NoPlaintextBackend | BackendCustody | LocalOnly.

#[global] Instance CustodyMode_eq_dec : EqDecision CustodyMode.
Proof. solve_decision. Defined.

Inductive TaskKind : Set := Review | StructuredPrompt | HealthCheck.

#[global] Instance TaskKind_eq_dec : EqDecision TaskKind.
Proof. solve_decision. Defined.

Inductive HistoryMode : Set := NoHistory | HostManagedThread | ProviderThread.

#[global] Instance HistoryMode_eq_dec : EqDecision HistoryMode.
Proof. solve_decision. Defined.

Inductive RefreshMode : Set := NoRefresh | ValidateOnlyMode | AlwaysBeforeRun | LazyRefresh.

#[global] Instance RefreshMode_eq_dec : EqDecision RefreshMode.
Proof. solve_decision. Defined.

Inductive RotationMode : Set := NeverRotates | MayRotate.

#[global] Instance RotationMode_eq_dec : EqDecision RotationMode.
Proof. solve_decision. Defined.

(** The kind of a [SessionRequirement]. *)
Inductive SessionRequirement : Set := SessionRequired | SessionOptional | SessionNone.

#[global] Instance SessionRequirement_eq_dec : EqDecision SessionRequirement.
Proof. solve_decision. Defined.

Record ProviderCapabilities : Set := mkProvider {
  p_providerId : jsstring; sessionRequirement : SessionRequirement; refreshMode : RefreshMode; sessionRotationMode : RotationMode;
  refreshMayRotateSession : bool; requiresWorkspace : bool; defaultTimeoutMs : num }.

Inductive ExecutionMode : Set := SingleRun | Goal_mode.

#[global] Instance ExecutionMode_eq_dec : EqDecision ExecutionMode.
Proof. solve_decision. Defined.

Record ExecutionCapability : Set := mkExecutionCapability {
  ec_mode : ExecutionMode; maxCompletionConditionChars : option num }.

Record AgentCapabilities : Set := mkAgent {
  a_agentId : jsstring; a_providerId : jsstring; taskModes : list TaskKind; historyMode : HistoryMode;
  supportsRepositoryContext : bool; requiresWritableWorkspace : bool; maxRuntimeMs : num;
  taskExecutionCapabilities : option (list ExecutionCapability) }.

Record StoreCapabilities : Set := mkStore {
  st_storeId : jsstring; custody : CustodyMode; supportsWriteback : bool; supportsCompareAndSwap : bool;
  supportsIdempotency : bool; plaintextAvailableToBackend : bool; maxArtifactBytes : num }.

Record RunnerCapabilities : Set := mkRunner {
  r_runnerId : jsstring; supportsEnvAllowlist : bool; supportsWorkingDirectory : bool; readOnlyFilesystem : bool }.

Record RefreshPolicy : Set := mkRefreshPolicy {
  minFreshMs : option num; refreshBeforeExpiryMs : option num; maxSessionAgeMs : option num }.

(** [requestedHistoryMode]: [None] is both the absent field and
    ["unsupported"], which [??] makes of it. *)
Record Policy : Set := mkPolicy {
  custodyMode : CustodyMode; requireNoBackendPlaintext : bool; requireWritebackBeforeTask : bool;
  requireCompareAndSwap : bool; refreshPolicy : option RefreshPolicy; requestedTaskMode : option TaskKind;
  requestedHistoryMode : option HistoryMode; allowInteractiveSetupInRuntime : bool;
  allowedProviderIds : list jsstring; allowedAgentIds : list jsstring; allowedStoreIds : list jsstring;
  allowedRunnerIds : list jsstring; maxTaskOutputBytes : option num }.

Record CompiledRefreshPolicy : Set := mkCompiledRefreshPolicy {
  c_minFreshMs : num; c_refreshBeforeExpiryMs : num; c_maxSessionAgeMs : num }.

Record CompiledPolicy : Set := mkCompiled {
  trustMode : CustodyMode; c_providerId : jsstring; c_agentId : jsstring; c_storeId : option jsstring;
  c_runnerId : jsstring; requiresDurableWriteback : bool; requiresLease : bool; requiresCas : bool;
  allowsInteractiveRuntime : bool; maxSessionBytes : num; c_maxTaskOutputBytes : num; timeoutMs : num;
  c_refreshPolicy : CompiledRefreshPolicy }.

Inductive StaticRefresh : Set := StaticNever | StaticValidateOnly.
Inductive RotatingRefresh : Set := BeforeRun | Lazy.
Inductive Writeback : Set := BeforeTask | AfterSuccessfulRefresh.

(** The other fields of a plan are constants of its kind. *)
Inductive ExecutionPlan : Set :=
| NoSession
| StaticSession (refresh : StaticRefresh)
| RotatingSession (refresh : RotatingRefresh) (writeback : Writeback).

Inductive RejectionCode : Set :=
| provider_store_incompatible | runner_provider_incompatible | custody_mode_forbidden
| interactive_runtime_forbidden | missing_required_capability | task_mode_unsupported
| history_mode_unsupported | session_store_required.

(** The message and the details of a rejection are for people; the message
    tells apart the reasons that share a code. *)
Inductive CapabilityDecision : Type :=
| Accepted (policy : CompiledPolicy) (plan : ExecutionPlan)
| Rejected (code : RejectionCode) (safeMessage : string).

(** ** Operations *)

Definition includes `{EqDecision A} (xs : list A) (x : A) : bool := bool_decide (x ∈ xs).

Definition providerMayRotateSession (p : ProviderCapabilities) : bool :=
  bool_decide (sessionRotationMode p = MayRotate) || refreshMayRotateSession p.

Definition compileRuntimeExecutionPlan (policy : Policy) (p : ProviderCapabilities) : ExecutionPlan :=
  if bool_decide (sessionRequirement p = SessionNone) then NoSession
  else if negb (providerMayRotateSession p) then
    StaticSession (if bool_decide (refreshMode p = ValidateOnlyMode) then StaticValidateOnly else StaticNever)
  else
    RotatingSession (if bool_decide (refreshMode p = LazyRefresh) then Lazy else BeforeRun)
      (if requireWritebackBeforeTask policy then BeforeTask else AfterSuccessfulRefresh).

Definition compileRuntimePolicy (requested : Policy) (p : ProviderCapabilities) (a : AgentCapabilities)
    (store : option StoreCapabilities) (r : RunnerCapabilities) : CompiledPolicy :=
  let mayRotate := providerMayRotateSession p in
  let refresh (f : RefreshPolicy → option num) (dflt : Z) : num :=
    default (num_of_Z dflt) (rp ← refreshPolicy requested; f rp) in
  mkCompiled
    (match store with Some s => custody s | None => custodyMode requested end)
    (p_providerId p) (a_agentId a) (st_storeId <$> store) (r_runnerId r) mayRotate mayRotate
    (match store with Some s => supportsCompareAndSwap s | None => false end) false
    (match store with Some s => maxArtifactBytes s | None => num_of_Z 0 end)
    (default (num_of_Z (1024 * 1024)) (maxTaskOutputBytes requested))
    (num_min (defaultTimeoutMs p) (maxRuntimeMs a))
    (mkCompiledRefreshPolicy (refresh minFreshMs (15 * 60 * 1000)) (refresh refreshBeforeExpiryMs (5 * 60 * 1000))
       (refresh maxSessionAgeMs (24 * 60 * 60 * 1000))).

(** The part of the negotiation that concerns the store. *)
Definition negotiateStore (policy : Policy) (p : ProviderCapabilities) (s : StoreCapabilities)
    (accepted : CapabilityDecision) : CapabilityDecision :=
  if negb (includes (allowedStoreIds policy) (st_storeId s))
  then Rejected missing_required_capability "Store is not allowed."
  else if bool_decide (custodyMode policy = NoPlaintextBackend) && negb (bool_decide (custody s = NoPlaintextBackend))
  then Rejected custody_mode_forbidden "Selected store is not compatible with no-custody mode."
  else if bool_decide (custodyMode policy = NoPlaintextBackend) && plaintextAvailableToBackend s
  then Rejected custody_mode_forbidden "Selected store exposes plaintext to backend."
  else if requireNoBackendPlaintext policy && plaintextAvailableToBackend s
  then Rejected custody_mode_forbidden "Runtime policy forbids backend plaintext."
  else if requireCompareAndSwap policy && negb (supportsCompareAndSwap s)
  then Rejected missing_required_capability "Runtime policy requires compare-and-swap writes."
  else if providerMayRotateSession p && negb (supportsWriteback s)
  then Rejected provider_store_incompatible "Provider can rotate sessions, but store cannot write back."
  else if providerMayRotateSession p && negb (supportsIdempotency s)
  then Rejected provider_store_incompatible "Provider can rotate sessions, but store cannot deduplicate writes."
  else accepted.

Definition negotiateCapabilities (policy : Policy) (p : ProviderCapabilities) (a : AgentCapabilities)
    (store : option StoreCapabilities) (r : RunnerCapabilities) : CapabilityDecision :=
  if negb (js_eqb (p_providerId p) (a_providerId a))
  then Rejected provider_store_incompatible "Agent/provider mismatch."
  else if negb (includes (allowedProviderIds policy) (p_providerId p))
  then Rejected missing_required_capability "Provider is not allowed."
  else if negb (includes (allowedAgentIds policy) (a_agentId a))
  then Rejected missing_required_capability "Agent is not allowed."
  else if negb (includes (allowedRunnerIds policy) (r_runnerId r))
  then Rejected missing_required_capability "Runner is not allowed."
  else if negb (includes (taskModes a) (default Review (requestedTaskMode policy)))
  then Rejected task_mode_unsupported "Selected agent does not support the requested task mode."
  else if match requestedHistoryMode policy with
          | Some h => negb (bool_decide (historyMode a = h))
          | None => false
          end
  then Rejected history_mode_unsupported "Selected agent does not support the requested history mode."
  else if allowInteractiveSetupInRuntime policy
  then Rejected interactive_runtime_forbidden "Interactive setup is forbidden in runtime jobs."
  else if negb (supportsEnvAllowlist r)
  then Rejected missing_required_capability "Runner must support environment allowlisting."
  else if (requiresWorkspace p || supportsRepositoryContext a) && negb (supportsWorkingDirectory r)
  then Rejected runner_provider_incompatible "Provider or agent requires workspace support."
  else if requiresWritableWorkspace a && readOnlyFilesystem r
  then Rejected runner_provider_incompatible "Agent requires writable workspace, but runner is read-only."
  else
    let plan := compileRuntimeExecutionPlan policy p in
    match plan with
    | NoSession => Accepted (compileRuntimePolicy policy p a None r) plan
    | _ =>
        match store with
        | None => Rejected session_store_required "Selected provider requires a session store."
        | Some s => negotiateStore policy p s (Accepted (compileRuntimePolicy policy p a (Some s) r) plan)
        end
    end.

(** [assertRuntimeCapabilities] throws the code of a rejection. *)
Definition assertRuntimeCapabilities (policy : Policy) (p : ProviderCapabilities) (a : AgentCapabilities)
    (store : option StoreCapabilities) (r : RunnerCapabilities) : result RejectionCode unit :=
  match negotiateCapabilities policy p a store r with
  | Rejected code _ => Throw code
  | Accepted _ _ => Ok tt
  end.

(** ** Transition tables *)

Inductive LeaseRuntimeState : Set :=
| requested | granted | denied | finalized | writeback_started | writeback_committed | idempotent_replay
| stale_generation | expired.

#[global] Instance LeaseRuntimeState_eq_dec : EqDecision LeaseRuntimeState.
Proof. solve_decision. Defined.

Definition leaseTransitions (s : LeaseRuntimeState) : list LeaseRuntimeState :=
  match s with
  | requested => [granted; denied; expired]
  | granted => [finalized; expired]
  | finalized => [writeback_started; expired]
  | writeback_started => [writeback_committed; idempotent_replay; stale_generation; expired]
  | _ => []
  end.

Inductive SessionRuntimeState : Set :=
| missing | seeded | preleased | restored | validated | refreshing | writeback_pending | active_session
| needs_reconnect | stale.

#[global] Instance SessionRuntimeState_eq_dec : EqDecision SessionRuntimeState.
Proof. solve_decision. Defined.

Definition sessionTransitions (s : SessionRuntimeState) : list SessionRuntimeState :=
  match s with
  | missing => [seeded]
  | seeded => [preleased]
  | preleased => [restored; stale]
  | restored => [validated; needs_reconnect]
  | validated => [refreshing; active_session; needs_reconnect]
  | refreshing => [writeback_pending; active_session; needs_reconnect]
  | writeback_pending => [active_session; stale]
  | _ => []
  end.

(** [assertTransition], for both tables: [false] is the thrown error. *)
Definition assertTransition `{EqDecision A} (table : A → list A) (from to : A) : bool := includes (table from) to.

(** ** What is accepted *)

Section negotiation.
Context (policy : Policy) (p : ProviderCapabilities) (a : AgentCapabilities) (r : RunnerCapabilities).

(** The demands on every runtime. *)
Record compatible : Prop := {
  ok_same_provider : a_providerId a = p_providerId p;
  ok_provider : p_providerId p ∈ allowedProviderIds policy;
  ok_agent : a_agentId a ∈ allowedAgentIds policy;
  ok_runner : r_runnerId r ∈ allowedRunnerIds policy;
  ok_task : default Review (requestedTaskMode policy) ∈ taskModes a;
  ok_history : ∀ h, requestedHistoryMode policy = Some h → historyMode a = h;
  ok_interactive : allowInteractiveSetupInRuntime policy = false;
  ok_env : supportsEnvAllowlist r = true;
  ok_workspace : requiresWorkspace p = true ∨ supportsRepositoryContext a = true → supportsWorkingDirectory r = true;
  ok_writable : requiresWritableWorkspace a = true → readOnlyFilesystem r = false }.

(** The demands on the store of a provider with a session. *)
Record custodian (s : StoreCapabilities) : Prop := {
  ok_store : st_storeId s ∈ allowedStoreIds policy;
  ok_custody : custodyMode policy = NoPlaintextBackend → custody s = NoPlaintextBackend;
  ok_plaintext : custodyMode policy = NoPlaintextBackend ∨ requireNoBackendPlaintext policy = true →
                 plaintextAvailableToBackend s = false;
  ok_cas : requireCompareAndSwap policy = true → supportsCompareAndSwap s = true;
  ok_rotation : providerMayRotateSession p = true → supportsWriteback s = true ∧ supportsIdempotency s = true }.

Lemma guard_accepts (b : bool) code m d c plan :
  (if b then Rejected code m else d) = Accepted c plan ↔ b = false ∧ d = Accepted c plan.
Proof. destruct b; naive_solver. Qed.

Lemma negotiateStore_accepts s d c plan :
  negotiateStore policy p s d = Accepted c plan ↔ custodian s ∧ d = Accepted c plan.
Proof.
  unfold negotiateStore, includes. rewrite !guard_accepts, negb_false_iff, !andb_false_iff, !negb_false_iff, !bool_decide_eq_true,
    !bool_decide_eq_false. split.
  - intros (H1 & H2 & H3 & H4 & H5 & H6 & H7 & H8). split; [|done].
    split; [done|intros H..]; destruct H2, H3, H4, H5, H6, H7; try split; naive_solver congruence.
  - intros [[H1 H2 H3 H4 H5] Hd].
    destruct (decide (custodyMode policy = NoPlaintextBackend)), (requireNoBackendPlaintext policy),
      (requireCompareAndSwap policy), (providerMayRotateSession p); naive_solver.
Qed.

Lemma basics_accepts store c plan :
  negotiateCapabilities policy p a store r = Accepted c plan ↔
  compatible ∧
  match compileRuntimeExecutionPlan policy p with
  | NoSession => Accepted (compileRuntimePolicy policy p a None r) NoSession = Accepted c plan
  | plan' => match store with
             | None => False
             | Some s => negotiateStore policy p s (Accepted (compileRuntimePolicy policy p a (Some s) r) plan') = Accepted c plan
             end
  end.
Proof.
  unfold negotiateCapabilities, includes. rewrite !guard_accepts, !negb_false_iff, !andb_false_iff, !negb_false_iff,
    js_eqb_true, !bool_decide_eq_true, !orb_false_iff. cbv zeta. split.
  - intros (H1 & H2 & H3 & H4 & H5 & H6 & H7 & H8 & H9 & H10 & H11). split.
    + split; try done.
      * intros h Hh. rewrite Hh in H6. by apply negb_false_iff, bool_decide_eq_true in H6.
      * intros [H|H]; destruct H9 as [[? ?]|?]; congruence.
      * intros H. destruct H10; congruence.
    + destruct (compileRuntimeExecutionPlan policy p), store; done.
  - intros [[H1 H2 H3 H4 H5 H6 H7 H8 H9 H10] H]. repeat split; try done.
    + destruct (requestedHistoryMode policy) as [h|]; [|done]. by rewrite bool_decide_eq_true_2 by auto.
    + destruct (requiresWorkspace p), (supportsRepositoryContext a); auto.
    + destruct (requiresWritableWorkspace a); auto.
    + destruct (compileRuntimeExecutionPlan policy p), store; done.
Qed.

(** The negotiation accepts exactly the compatible configurations. A
    runtime is accepted if and only if provider, agent, runner and policy meet
    the demands of [compatible], the plan is the one its provider calls for,
    and, unless the provider has no session, a store is given that meets the
    demands of [custodian]: allowed by the policy, no plaintext in the backend
    where the policy forbids it, compare-and-swap where it is demanded,
    write-back and deduplication for a provider that rotates sessions. *)
Theorem negotiation_exact (store : option StoreCapabilities) (c : CompiledPolicy) (plan : ExecutionPlan) :
  negotiateCapabilities policy p a store r = Accepted c plan ↔
  compatible ∧ plan = compileRuntimeExecutionPlan policy p ∧
  ((sessionRequirement p = SessionNone ∧ c = compileRuntimePolicy policy p a None r) ∨
   (sessionRequirement p ≠ SessionNone ∧
    ∃ s, store = Some s ∧ custodian s ∧ c = compileRuntimePolicy policy p a (Some s) r)).
Proof.
  rewrite basics_accepts. assert (compileRuntimeExecutionPlan policy p = NoSession ↔ sessionRequirement p = SessionNone) as Hp.
  { unfold compileRuntimeExecutionPlan. case_bool_decide; [done|]. split; [|done]. by destruct (providerMayRotateSession p). }
  destruct (decide (sessionRequirement p = SessionNone)) as [E|E].
  - rewrite (proj2 Hp E). naive_solver.
  - destruct (compileRuntimeExecutionPlan policy p); [naive_solver|..];
      (destruct store as [s|]; [rewrite negotiateStore_accepts|]; naive_solver).
Qed.

End negotiation.
End RuntimePolicy.
