(* ===== verification/SessionRuntime.v ===== *)
(** * The session runtime

    [src/core/application/runtime.ts] ([RuntimeKernel]) with the helpers it is
    split into: [runtime-results.ts], [runtime-static-session.ts],
    [runtime-health.ts] and [task-session-writeback.ts].

    The runtime talks to its ports: session store, lease store, session driver,
    agent driver, workspace, session lifecycle, redactor, observability and id
    generator. An operation is a program of port calls, [prog]; each call is
    answered with a value or an exception, and nothing else is assumed of the
    answer, so that a theorem about a program holds for all ports. The kernel's
    own state is passed along, next to the outcome. Clock readings only measure
    durations for events and are left out, as is the metadata of events. What
    the callbacks given to the agent do happens inside the agent's answer.

    Calls of the runtime do not overlap here: the fields [pending] and
    [finalizationPending], which make a second caller wait for the first, are
    always absent when a call starts. *)

From stdpp Require Import base numbers list option gmap strings.
From S2P Require Import Prelude Json SessionCustody RuntimePolicy.

#[local] Open Scope Z_scope.
#[local] Set Default Proof Using "Type*".

Module Runtime.
Import RuntimePolicy Custody.

(** ** Data *)

Record RuntimeWarning : Set := mkWarning { w_code : string; w_message : string }.

Record ProviderFailure : Set := mkProviderFailure {
  f_code : string; retryable : bool; reconnectRequired : bool; f_safeMessage : string;
  causeCategory : option string }.

Inductive TaskExecution : Set := RunOnce | Goal_until (completionCondition : jsstring).

Record ProviderTask : Set := mkTask { t_kind : TaskKind; execution : option TaskExecution; prompt : jsstring }.

Record RunContext : Set := mkRun { rc_runId : jsstring; rc_attempt : Z }.

(** A credential update is an object, and is compared as one. *)
Record Update : Set := mkUpdate { u_ref : N; u_artifact : Artifact }.

(** The fields of a result that the runtime only passes on are [output]. *)
Inductive TaskResult : Set :=
| TaskCompleted (output : jsstring) (sessionUpdate : option Update) (warnings : list RuntimeWarning)
| TaskWaiting (output : jsstring) (warnings : list RuntimeWarning)
| TaskFailed (failure : ProviderFailure) (sessionUpdate : option Update) (warnings : list RuntimeWarning).

Definition task_warnings (r : TaskResult) : list RuntimeWarning :=
  match r with TaskCompleted _ _ w | TaskWaiting _ w | TaskFailed _ _ w => w end.

(** [{ ...result, warnings: [...result.warnings, ...more] }]. *)
Definition add_warnings (r : TaskResult) (more : list RuntimeWarning) : TaskResult :=
  match r with
  | TaskCompleted o u w => TaskCompleted o u (w ++ more)
  | TaskWaiting o w => TaskWaiting o (w ++ more)
  | TaskFailed f u w => TaskFailed f u (w ++ more)
  end.

Definition session_update (r : TaskResult) : option Update :=
  match r with TaskCompleted _ u _ | TaskFailed _ u _ => u | TaskWaiting _ _ => None end.

Inductive Validation : Set := Valid (warnings : list RuntimeWarning) | Invalid (failure : ProviderFailure).

Inductive Freshness : Set := Fresh (warnings : list RuntimeWarning) | RefreshRecommended (warnings : list RuntimeWarning).

Inductive ProviderState : Set := Unchanged | Refreshed | NeedsReconnect | QuotaLimited | PermissionRequired.

Record RefreshedSession : Set := mkRefreshed {
  rs_artifact : Artifact; providerState : ProviderState; rs_warnings : list RuntimeWarning }.

Inductive BlockedReason : Set := provider_reconnect_required | permission_required | quota_limited.

Inductive SkippedReason : Set := stale_generation | session_unchanged | refresh_not_required.

#[global] Instance SkippedReason_eq_dec : EqDecision SkippedReason.
Proof. solve_decision. Defined.

Inductive RefreshResult : Set :=
| Ready (session : Envelope) (writeback : WriteResult) (warnings : list RuntimeWarning)
| Blocked (reason : BlockedReason) (safeMessage : string) (warnings : list RuntimeWarning)
| Skipped (reason : SkippedReason) (session : option Envelope) (warnings : list RuntimeWarning).

Inductive RunBlockedReason : Set :=
| refresh_blocked (reason : BlockedReason) | run_stale_generation | run_task_mode_unsupported.

Inductive RefreshThenRunResult : Set :=
| RunCompleted (refresh : RefreshResult) (task : TaskResult)
| RunBlocked (reason : RunBlockedReason) (safeMessage : string) (warnings : list RuntimeWarning).

Inductive HealthResult : Set := Healthy (warnings : list RuntimeWarning) | Unhealthy (failures : list ProviderFailure).

Inductive LeaseAnswer : Set :=
| LeaseGranted (id : jsstring) | LeaseStale (safeMessage : string) | LeaseDenied (safeMessage : string).

Inductive purpose : Set := ForRefresh | ForRun | ForHealth.

Abbreviation use := N.

(** A workspace, and whether it has a [dispose] method. *)
Record Workspace : Set := mkWorkspace { ws : N; disposable : bool }.

(** ** Ports *)

Inductive call : Set :=
| Emit (name : string)
| Count (name : string)
| RegisterSecret (secret : list N)
| ReadSession (p expectedProvider : jsstring) (why : purpose)
| WriteSession (i : WriteInput)
| AcquireLease (p : jsstring) (run : jsstring) (att : Z) (ttl : num) (restoredHash : jsstring)
| FinalizeLease (id restoredHash : jsstring)
| StartWriteback (id : jsstring)
| CommitWriteback (id next key : jsstring)
| ReleaseLease (id : jsstring)
| ValidateSession (a : Artifact)
| InspectFreshness (a : Artifact)
| RefreshDriver (a : Artifact) (w : Workspace) (u : option use)
| RunAgent (a : option Artifact) (t : ProviderTask) (w : Workspace) (u : option use)
| FinalizeTask (u : use)
| RetireTask (u : use)
| CreateWorkspace
| DisposeWorkspace (w : Workspace)
| BeginUse
| CompleteUse (u : use)
| IdempotencyKey (p run : jsstring) (att : Z).

Definition resp (c : call) : Set :=
  match c with
  | ReadSession _ _ _ => option Envelope
  | WriteSession _ => WriteResult
  | AcquireLease _ _ _ _ _ => LeaseAnswer
  | CommitWriteback _ _ _ => CommitResult
  | ValidateSession _ => Validation
  | InspectFreshness _ => Freshness
  | RefreshDriver _ _ _ => RefreshedSession
  | RunAgent _ _ _ _ | FinalizeTask _ => TaskResult
  | CreateWorkspace => Workspace
  | BeginUse => use
  | IdempotencyKey _ _ _ => jsstring
  | _ => unit
  end.

(** What is thrown: an error of the runtime, or whatever a port threw. *)
Inductive error : Set := RuntimeError (message : string) | PortError (message : string).

Abbreviation answer c := (result error (resp c)).

Inductive prog (A : Type) : Type :=
| Ret (a : A)
| Call (c : call) (k : answer c → prog A).
Arguments Ret {A} a.
Arguments Call {A} c k.

(** *** The state of the kernel *)

Inductive Phase : Set := Acquired | Finalized_ | Started | Written | Committed_.

#[global] Instance Phase_eq_dec : EqDecision Phase.
Proof. solve_decision. Defined.

Record PendingWriteback : Set := mkPending {
  pw_update : Update; pw_envelope : Envelope; pw_run : RunContext; pw_nextHash : jsstring; pw_intent : WriteInput;
  pw_phase : Phase; pw_receipt : option WriteResult }.

(** A finished task whose session is not finalized. *)
Record HeldTask : Set := mkHeld {
  h_result : TaskResult; h_envelope : option Envelope; h_run : RunContext; h_workspace : Workspace;
  useCompleted : bool }.

(** The maps of the kernel and of [TaskSessionWriteback], and the mutable
    locals of the call that runs: the flag [leaseClosed] of a refresh, the flag
    [retainedTerminal] of a task, and, at the key [None], the writeback of a task that has no use and that no map
    keeps. [#pendingTaskFinalizations] is in the order of insertion. *)
Record Kernel : Set := mkKernel {
  held : list (use * HeldTask); pending : gmap (option use) PendingWriteback; leaseClosed : bool;
  retainedTerminal : bool }.

Definition set_held (f : list (use * HeldTask) → list (use * HeldTask)) (k : Kernel) : Kernel :=
  mkKernel (f (held k)) (pending k) (leaseClosed k) (retainedTerminal k).
Definition set_pending (f : gmap (option use) PendingWriteback → gmap (option use) PendingWriteback) (k : Kernel) : Kernel :=
  mkKernel (held k) (f (pending k)) (leaseClosed k) (retainedTerminal k).
Definition set_leaseClosed (b : bool) (k : Kernel) : Kernel := mkKernel (held k) (pending k) b (retainedTerminal k).
Definition set_retained (b : bool) (k : Kernel) : Kernel := mkKernel (held k) (pending k) (leaseClosed k) b.

(** *** Programs with state and exceptions *)

Definition Rt (A : Type) : Type := Kernel → prog (Kernel * result error A).

Fixpoint prog_bind {A B} (p : prog A) (f : A → prog B) : prog B :=
  match p with
  | Ret a => f a
  | Call c k => Call c (λ r, prog_bind (k r) f)
  end.

#[global] Instance Rt_ret : MRet Rt := λ A a k, Ret (k, Ok a).
#[global] Instance Rt_bind : MBind Rt := λ A B f m k,
  prog_bind (m k) (λ '(k', r), match r with Ok a => f a k' | Throw e => Ret (k', Throw e) end).

Definition rthrow {A} (e : error) : Rt A := λ k, Ret (k, Throw e).
Definition error_ {A} (message : string) : Rt A := rthrow (RuntimeError message).
Definition port (c : call) : Rt (resp c) := λ k, Call c (λ r, Ret (k, r)).
Definition kernel : Rt Kernel := λ k, Ret (k, Ok k).
Definition modify (f : Kernel → Kernel) : Rt unit := λ k, Ret (f k, Ok tt).

(** [try m catch (e) { h e }] and [try m finally f]. *)
Definition catch {A} (m : Rt A) (h : error → Rt A) : Rt A := λ k,
  prog_bind (m k) (λ '(k', r), match r with Ok a => Ret (k', Ok a) | Throw e => h e k' end).
Definition rfinally {A} (m : Rt A) (f : Rt unit) : Rt A := λ k,
  prog_bind (m k) (λ '(k', r),
    prog_bind (f k') (λ '(k'', r'), match r' with Ok _ => Ret (k'', r) | Throw e => Ret (k'', Throw e) end)).

Definition when (b : bool) (m : Rt unit) : Rt unit := if b then m else mret tt.
Definition emit (name : string) : Rt unit := port (Emit name).
(** The code of a failure is in the metadata of the event. *)
Definition emitFailure : Rt unit := emit "runtime.failure.classified".
(** [observability.count] and [observability.timing]. *)
Definition count (name : string) : Rt unit := port (Count name).

(** ** Dependencies *)

(** What the runtime looks at of its dependencies: which of the optional ports
    and methods there are, and the capabilities. *)
Record Deps : Set := mkDeps {
  plan : ExecutionPlan; ttlMs : num; d_providerId : jsstring; agentModes : list TaskKind;
  agentExecution : option (list ExecutionCapability);
  hasSessionStore : bool; storeIdempotent : bool; hasLeaseStore : bool; hasRelease : bool;
  hasValidate : bool; hasRefresh : bool; hasInspectFreshness : bool; hasLifecycle : bool;
  hasFinalizeTask : bool; hasRetireTask : bool }.

Section Kernel.
Context (sha_base64url : list N → jsstring) (deps : Deps).

Definition generation_hash (a : Artifact) : jsstring := computeSessionGenerationHash sha_base64url a.

(** *** [runtime-results.ts] *)

Definition nextEnvelope (previous : Envelope) (a : Artifact) (g : Z) (h : jsstring) : Envelope :=
  mkEnvelope (e_instance previous) (e_provider previous) a g h (e_metadata previous).

Definition sessionForPostRefreshTask (r : RefreshResult) : option Envelope :=
  match r with
  | Ready s _ _ => Some s
  | Skipped session_unchanged s _ | Skipped refresh_not_required s _ => s
  | _ => None
  end.

Definition shouldGuardedRefresh (f : ProviderFailure) : bool :=
  bool_decide (f_code f = "needs_reconnect") || bool_decide (causeCategory f = Some "needs_reconnect").

Definition failed_with (code message : string) : ProviderFailure :=
  mkProviderFailure code false (bool_decide (code = "needs_reconnect")) message None.

Definition failedTask (code message : string) : TaskResult := TaskFailed (failed_with code message) None [].

Definition missingSessionFailure : ProviderFailure :=
  mkProviderFailure "needs_reconnect" false true "Provider session is missing." None.

Definition unsupportedTaskFailure (t : ProviderTask) : option ProviderFailure :=
  if negb (bool_decide (t_kind t ∈ agentModes deps))
  then Some (failed_with "task_mode_unsupported" "Selected agent does not support the requested task mode.")
  else
    let execution := default RunOnce (execution t) in
    let mode := match execution with RunOnce => SingleRun | Goal_until _ => Goal_mode end in
    let capabilities := default [mkExecutionCapability SingleRun None] (agentExecution deps) in
    match list_find (λ c, ec_mode c = mode) capabilities with
    | None => Some (failed_with "task_mode_unsupported" "Selected agent does not support the requested execution mode.")
    | Some (_, c) =>
        match execution, maxCompletionConditionChars c with
        | Goal_until condition, Some m =>
            if num_ltb m (num_of_Z (Z.of_nat (length condition)))
            then Some (failed_with "task_request_invalid" "Goal completion condition exceeds provider capability.")
            else None
        | _, _ => None
        end
    end.

(** *** Required ports *)

Definition requireSessionStore : Rt unit := if hasSessionStore deps then mret tt else error_ "session_store_required".
Definition requireLeaseStore : Rt unit := if hasLeaseStore deps then mret tt else error_ "lease_store_required".
Definition requireSessionDriver : Rt unit := if hasValidate deps then mret tt else error_ "session_driver_required".
Definition requireRefreshableSessionDriver : Rt unit :=
  requireSessionDriver ;; if hasRefresh deps then mret tt else error_ "refreshable_session_driver_required".

Definition read_session (p : jsstring) (why : purpose) : Rt (option Envelope) := port (ReadSession p (d_providerId deps) why).

(** *** [runtime-static-session.ts], [runtime-health.ts] *)

Definition invalid_reason (f : ProviderFailure) : BlockedReason :=
  if reconnectRequired f then provider_reconnect_required else permission_required.

Definition validateStaticRuntimeSession (refresh : StaticRefresh) (p : jsstring) : Rt RefreshResult :=
  requireSessionStore ;;
  requireSessionDriver ;;
  session ← read_session p ForRefresh;
  match session with
  | None => emitFailure ;; mret (Blocked provider_reconnect_required "Provider session is missing." [])
  | Some session =>
      match refresh with
      | StaticValidateOnly =>
          v ← port (ValidateSession (e_artifact session));
          match v with
          | Invalid f => emitFailure ;; mret (Blocked (invalid_reason f) (f_safeMessage f) [])
          | Valid warnings => mret (Skipped refresh_not_required (Some session) warnings)
          end
      | StaticNever => mret (Skipped refresh_not_required (Some session) [])
      end
  end.

Definition healthCheck (p : jsstring) : Rt HealthResult :=
  match plan deps with
  | NoSession => mret (Healthy [])
  | _ =>
      requireSessionStore ;;
      requireSessionDriver ;;
      session ← read_session p ForHealth;
      match session with
      | None => mret (Unhealthy [missingSessionFailure])
      | Some session =>
          v ← port (ValidateSession (e_artifact session));
          match v with
          | Invalid f => mret (Unhealthy [f])
          | Valid warnings => mret (Healthy warnings)
          end
      end
  end.

(** *** Refreshing *)

Definition inspectFreshness (a : Artifact) : Rt Freshness :=
  requireSessionDriver ;;
  if negb (hasInspectFreshness deps) then mret (RefreshRecommended [])
  else catch (port (InspectFreshness a)) (λ _,
    emit "provider.refresh.freshness_failed" ;;
    mret (RefreshRecommended [mkWarning "session_freshness_unknown" "Session freshness could not be determined."])).

Definition releaseLeaseQuietly (id : jsstring) : Rt unit :=
  if negb (hasLeaseStore deps && hasRelease deps) then mret tt
  else catch (port (ReleaseLease id)) (λ _, emit "lease.release.failed").

Definition dispose (w : Workspace) : Rt unit := when (disposable w) (port (DisposeWorkspace w)).

Definition begin : Rt (option use) :=
  if hasLifecycle deps then u ← port BeginUse; mret (Some u) else mret None.

Definition complete (u : option use) : Rt unit :=
  match u with Some u => port (CompleteUse u) | None => mret tt end.

(** The refreshed session is written back under the lease. *)
Definition writebackRefreshed (p : jsstring) (run : RunContext) (id : jsstring) (leased : Envelope)
    (refreshed : RefreshedSession) : Rt RefreshResult :=
  let nextHash := generation_hash (rs_artifact refreshed) in
  key ← port (IdempotencyKey p (rc_runId run) (rc_attempt run));
  if js_eqb nextHash (e_generationHash leased) then
    port (FinalizeLease id (e_generationHash leased)) ;;
    port (CommitWriteback id (e_generationHash leased) key) ;;
    modify (set_leaseClosed true) ;;
    emit "session.writeback.completed" ;;
    mret (Skipped session_unchanged (Some leased) (rs_warnings refreshed))
  else
    port (FinalizeLease id (e_generationHash leased)) ;;
    emit "session.writeback.started" ;;
    port (StartWriteback id) ;;
    writeback ← port (WriteSession (mkWriteInput p (e_generation leased) (rs_artifact refreshed) key id None));
    match writeback with
    | StaleGeneration _ _ =>
        count "subscription_runtime.writeback_conflict" ;;
        emit "session.writeback.completed" ;;
        emitFailure ;;
        mret (Skipped stale_generation None (rs_warnings refreshed))
    | Accepted g h | IdempotentReplay g h =>
        port (CommitWriteback id h key) ;;
        modify (set_leaseClosed true) ;;
        emit "session.writeback.completed" ;;
        count "subscription_runtime.refresh_success" ;;
        mret (Ready (nextEnvelope leased (rs_artifact refreshed) g h) writeback (rs_warnings refreshed))
    end.

(** The provider refreshes the session in a workspace. *)
Definition refreshInWorkspace (p : jsstring) (run : RunContext) (id : jsstring) (leased : Envelope) (w : Workspace)
    (u : option use) : Rt RefreshResult :=
  emit "provider.refresh.started" ;;
  refreshed ← port (RefreshDriver (e_artifact leased) w u);
  emit "provider.refresh.completed" ;;
  count "subscription_runtime.provider_refresh_ms" ;;
  match providerState refreshed with
  | NeedsReconnect =>
      count "subscription_runtime.reconnect_required" ;;
      emitFailure ;;
      mret (Blocked provider_reconnect_required "Provider session needs reconnect." (rs_warnings refreshed))
  | PermissionRequired =>
      emitFailure ;;
      mret (Blocked permission_required "Provider permission is required." (rs_warnings refreshed))
  | QuotaLimited =>
      count "subscription_runtime.quota_limited" ;;
      emitFailure ;;
      mret (Blocked quota_limited "Provider quota is limited." (rs_warnings refreshed))
  | _ => writebackRefreshed p run id leased refreshed
  end.

(** What happens under a granted lease. *)
Definition refreshLeased (p : jsstring) (run : RunContext) (id : jsstring) (session : Envelope) (u : option use)
    : Rt RefreshResult :=
  leased ← read_session p ForRefresh;
  match leased with
  | None => emitFailure ;; mret (Blocked provider_reconnect_required "Provider session is missing." [])
  | Some leased =>
      if negb (js_eqb (e_generationHash leased) (e_generationHash session)) then
        count "subscription_runtime.stale_generation" ;;
        emitFailure ;;
        mret (Skipped stale_generation None [])
      else
        v ← port (ValidateSession (e_artifact leased));
        match v with
        | Invalid f => emitFailure ;; mret (Blocked (invalid_reason f) (f_safeMessage f) [])
        | Valid _ =>
            w ← port CreateWorkspace;
            rfinally (refreshInWorkspace p run id leased w u) (dispose w)
        end
  end.

Definition refreshUnderLease (p : jsstring) (run : RunContext) (session : Envelope) (u : option use) : Rt RefreshResult :=
  emit "lease.acquire.started" ;;
  lease ← port (AcquireLease p (rc_runId run) (rc_attempt run) (ttlMs deps) (e_generationHash session));
  emit "lease.acquire.completed" ;;
  match lease with
  | LeaseStale _ =>
      count "subscription_runtime.stale_generation" ;;
      emitFailure ;;
      mret (Skipped stale_generation None [])
  | LeaseDenied m => emitFailure ;; mret (Blocked permission_required m [])
  | LeaseGranted id =>
      modify (set_leaseClosed false) ;;
      rfinally (refreshLeased p run id session u)
        (k ← kernel; when (negb (leaseClosed k)) (releaseLeaseQuietly id))
  end.

Definition refreshRotating (refresh : RotatingRefresh) (p : jsstring) (run : RunContext) (forceRefresh : bool)
    : Rt RefreshResult :=
  requireSessionStore ;;
  requireLeaseStore ;;
  requireRefreshableSessionDriver ;;
  emit "session.read.started" ;;
  session ← read_session p ForRefresh;
  emit "session.read.completed" ;;
  match session with
  | None => emitFailure ;; mret (Blocked provider_reconnect_required "Provider session is missing." [])
  | Some session =>
      port (RegisterSecret (bytes (e_artifact session))) ;;
      let go :=
        u ← begin;
        rfinally (refreshUnderLease p run session u) (complete u) in
      match refresh with
      | Lazy =>
          if forceRefresh then go
          else
            f ← inspectFreshness (e_artifact session);
            match f with
            | Fresh warnings =>
                emit "provider.refresh.skipped" ;;
                mret (Skipped refresh_not_required (Some session) warnings)
            | RefreshRecommended _ => emit "provider.refresh.recommended" ;; go
            end
      | BeforeRun => go
      end
  end.

Definition refreshSession (p : jsstring) (run : RunContext) (forceRefresh : bool) : Rt RefreshResult :=
  match plan deps with
  | NoSession => emit "provider.refresh.skipped" ;; mret (Skipped refresh_not_required None [])
  | StaticSession refresh => validateStaticRuntimeSession refresh p
  | RotatingSession refresh _ => refreshRotating refresh p run forceRefresh
  end.

(** *** [task-session-writeback.ts] *)

Definition with_phase (ph : Phase) (receipt : option WriteResult) (w : PendingWriteback) : PendingWriteback :=
  mkPending (pw_update w) (pw_envelope w) (pw_run w) (pw_nextHash w) (pw_intent w) ph receipt.

(** The writeback that the call works on, and the change of its phase. *)
Definition selected (u : option use) : Rt PendingWriteback :=
  k ← kernel;
  match pending k !! u with Some w => mret w | None => error_ "task_session_finalization_missing" end.

Definition set_phase (u : option use) (ph : Phase) : Rt unit :=
  modify (set_pending (alter (λ w, with_phase ph (pw_receipt w) w) u)).
Definition set_written (u : option use) (receipt : WriteResult) : Rt unit :=
  modify (set_pending (alter (with_phase Written (Some receipt)) u)).

Definition stale_write_warning : RuntimeWarning := mkWarning "task_session_update_writeback_stale_generation"
  "Task session update was skipped because a newer session generation already exists.".
Definition stale_commit_warning : RuntimeWarning := mkWarning "task_session_update_writeback_stale_generation"
  "Original session lease has not acknowledged this credential generation.".
Definition failed_writeback_warning : RuntimeWarning := mkWarning "task_session_update_writeback_failed"
  "Task session update could not be written back after task execution.".

(** The phases, each entered where an earlier call left off. A stale answer
    ends the call with a warning; [None] goes on. *)
Definition finalizePhase (u : option use) : Rt unit :=
  w ← selected u;
  when (bool_decide (pw_phase w = Acquired)) (
    port (FinalizeLease (w_lease (pw_intent w)) (e_generationHash (pw_envelope w))) ;;
    set_phase u Finalized_ ;;
    emit "session.task_update.writeback.started").

Definition startPhase (u : option use) : Rt unit :=
  w ← selected u;
  when (bool_decide (pw_phase w = Finalized_)) (
    port (StartWriteback (w_lease (pw_intent w))) ;;
    set_phase u Started).

Definition writePhase (u : option use) : Rt (option RuntimeWarning) :=
  w ← selected u;
  if negb (bool_decide (pw_phase w = Started)) then mret None
  else
    receipt ← catch (port (WriteSession (pw_intent w)))
      (λ e, if negb (storeIdempotent deps) then rthrow e else port (WriteSession (pw_intent w)));
    match receipt with
    | StaleGeneration _ _ => mret (Some stale_write_warning)
    | Accepted _ h | IdempotentReplay _ h =>
        if negb (js_eqb h (pw_nextHash w)) then error_ "task_session_finalization_changed"
        else set_written u receipt ;; mret None
    end.

Definition receipt_hash (r : option WriteResult) : jsstring :=
  match r with Some (Accepted _ h) | Some (IdempotentReplay _ h) => h | _ => [] end.

Definition commitPhase (u : option use) : Rt (list RuntimeWarning) :=
  w ← selected u;
  if negb (bool_decide (pw_phase w = Written)) then mret []
  else
    committed ← port (CommitWriteback (w_lease (pw_intent w)) (receipt_hash (pw_receipt w)) (w_key (pw_intent w)));
    match committed with
    | CommitStale => mret [stale_commit_warning]
    | _ =>
        set_phase u Committed_ ;;
        emit "session.task_update.writeback.completed" ;;
        count "subscription_runtime.task_session_update_writeback_success" ;;
        mret []
    end.

Definition phases (u : option use) : Rt (list RuntimeWarning) :=
  finalizePhase u ;;
  startPhase u ;;
  stale ← writePhase u;
  match stale with Some w => mret [w] | None => commitPhase u end.

(** The lease of a writeback that nothing retains is given back. *)
Definition releaseUncommitted (u : option use) : Rt unit :=
  w ← selected u;
  when (match u with None => negb (bool_decide (pw_phase w = Committed_)) && hasRelease deps | Some _ => false end)
    (catch (port (ReleaseLease (w_lease (pw_intent w)))) (λ _, emit "lease.release.failed")).

Definition same_intent (w : PendingWriteback) (nextHash : jsstring) (update : Update) (env : Envelope) (run : RunContext) : bool :=
  js_eqb (pw_nextHash w) nextHash && bool_decide (u_ref (pw_update w) = u_ref update) &&
  js_eqb (e_instance (pw_envelope w)) (e_instance env) && (e_generation (pw_envelope w) =? e_generation env) &&
  js_eqb (e_generationHash (pw_envelope w)) (e_generationHash env) &&
  js_eqb (rc_runId (pw_run w)) (rc_runId run) && (rc_attempt (pw_run w) =? rc_attempt run).

(** The lease and the intent of a new writeback; [Some] is a warning. *)
Definition acquireWriteback (u : option use) (env : Envelope) (update : Update) (run : RunContext) (nextHash : jsstring)
    : Rt (option RuntimeWarning) :=
  lease ← port (AcquireLease (e_instance env) (rc_runId run) (rc_attempt run) (ttlMs deps) (e_generationHash env));
  let unavailable status := Some (mkWarning ("task_session_update_writeback_" +:+ status)
    "Task session update could not be written back because the session lease was unavailable.") in
  match lease with
  | LeaseStale _ => mret (unavailable "stale")
  | LeaseDenied _ => mret (unavailable "denied")
  | LeaseGranted id =>
      key ← port (IdempotencyKey (e_instance env) (rc_runId run) (rc_attempt run));
      let intent := mkWriteInput (e_instance env) (e_generation env) (u_artifact update)
        (key ++ js ":task-session-update:" ++ take 16 nextHash) id None in
      modify (set_pending <[u := mkPending update env run nextHash intent Acquired None]>) ;;
      mret None
  end.

(** [TaskSessionWriteback.write]. *)
Definition writeTaskSession (env : Envelope) (update : Update) (run : RunContext) (u : option use)
    : Rt (list RuntimeWarning) :=
  match plan deps with
  | RotatingSession _ _ =>
      if negb (js_eqb (providerId (u_artifact update)) (e_provider env)) then
        mret [mkWarning "task_session_update_provider_mismatch"
                "Task session update was ignored because the provider did not match."]
      else
        let nextHash := generation_hash (u_artifact update) in
        if js_eqb nextHash (e_generationHash env) then mret []
        else if negb (hasSessionStore deps && hasLeaseStore deps) then error_ "session_store_required"
        else
          k ← kernel;
          let existing := match u with Some _ => pending k !! u | None => None end in
          unavailable ← match existing with
                        | Some w => if same_intent w nextHash update env run then mret None
                                    else error_ "task_session_finalization_changed"
                        | None => acquireWriteback u env update run nextHash
                        end;
          match unavailable with
          | Some w => mret [w]
          | None =>
              rfinally
                (catch (phases u) (λ _,
                   emit "session.task_update.writeback.failed" ;; mret [failed_writeback_warning]))
                (releaseUncommitted u)
          end
  | _ => mret [mkWarning "task_session_update_ignored"
                 "Task session update was ignored because the runtime session does not rotate."]
  end.

Definition forget_pending (u : use) : Rt unit := modify (set_pending (delete (Some u))).

(** *** Running a task *)

Definition maybeWritebackTaskSessionUpdate (r : TaskResult) (env : option Envelope) (run : RunContext) (u : option use)
    : Rt TaskResult :=
  match session_update r, env with
  | Some update, Some env =>
      warnings ← writeTaskSession env update run u;
      mret (if bool_decide (warnings = []) then r else add_warnings r warnings)
  | _, _ => mret r
  end.

Fixpoint lookup_held (u : use) (hs : list (use * HeldTask)) : option HeldTask :=
  match hs with
  | [] => None
  | (u', h) :: hs => if (u' =? u)%N then Some h else lookup_held u hs
  end.

Definition remove_held (u : use) (hs : list (use * HeldTask)) : list (use * HeldTask) :=
  filter (λ x, x.1 ≠ u) hs.

Definition complete_held (u : use) (hs : list (use * HeldTask)) : list (use * HeldTask) :=
  map (λ '(u', h), (u', if (u' =? u)%N then mkHeld (h_result h) (h_envelope h) (h_run h) (h_workspace h) true else h)) hs.

Definition pending_warning : RuntimeWarning := mkWarning "task_session_finalization_pending"
  "Original task result is retained until session finalization is acknowledged.".

Definition is_writeback_failure (w : RuntimeWarning) : bool :=
  String.prefix "task_session_update_writeback_" (w_code w) &&
  negb (bool_decide (w_code w = "task_session_update_writeback_success")).

Definition finalizeHeld (u : use) (h : HeldTask) : Rt TaskResult :=
  r ← (if useCompleted h then mret (h_result h)
       else
         r ← port (FinalizeTask u);
         r ← maybeWritebackTaskSessionUpdate r (h_envelope h) (h_run h) (Some u);
         if existsb is_writeback_failure (task_warnings r) then error_ "task_session_finalization_pending"
         else
           port (RetireTask u) ;;
           modify (set_held (complete_held u)) ;;
           mret r);
  dispose (h_workspace h) ;;
  k ← kernel;
  match lookup_held u (held k) with
  | None => error_ "task_session_finalization_changed"
  | Some _ => modify (set_held (remove_held u)) ;; forget_pending u ;; mret r
  end.

Definition settleTaskSession (u : use) : Rt TaskResult :=
  k ← kernel;
  match lookup_held u (held k) with
  | None => error_ "task_session_finalization_missing"
  | Some h => catch (finalizeHeld u h) (λ _, mret (add_warnings (h_result h) [pending_warning]))
  end.

(** [retryPendingTaskFinalizations]: the keys in the order of the map. *)
Fixpoint retryPending (us : list use) : Rt unit :=
  match us with
  | [] => mret tt
  | u :: us =>
      settleTaskSession u ;;
      k ← kernel;
      match lookup_held u (held k) with
      | Some _ => error_ "task_session_finalization_pending"
      | None => retryPending us
      end
  end.

Definition retryPendingTaskFinalizations : Rt unit := k ← kernel; retryPending (held k).*1.

(** [Map.set]: a new key goes to the end. *)
Definition add_held (u : use) (h : HeldTask) (hs : list (use * HeldTask)) : list (use * HeldTask) :=
  match lookup_held u hs with
  | None => hs ++ [(u, h)]
  | Some _ => map (λ '(u', h'), (u', if (u' =? u)%N then h else h')) hs
  end.

Definition is_waiting (r : TaskResult) : bool := match r with TaskWaiting _ _ => true | _ => false end.

Definition runInWorkspace (session : option Artifact) (env : option Envelope) (t : ProviderTask) (run : RunContext)
    (u : option use) (w : Workspace) : Rt TaskResult :=
  r ← port (RunAgent session t w u);
  emit "provider.task.completed" ;;
  count "subscription_runtime.provider_task_ms" ;;
  match u with
  | Some u' =>
      if negb (is_waiting r) && hasFinalizeTask deps && hasRetireTask deps then
        modify (set_retained true) ;;
        modify (set_held (add_held u' (mkHeld r env run w false))) ;;
        settleTaskSession u'
      else maybeWritebackTaskSessionUpdate r env run None
  | None => maybeWritebackTaskSessionUpdate r env run None
  end.

Definition unless_retained (m : Rt unit) : Rt unit := k ← kernel; when (negb (retainedTerminal k)) m.

Definition runTaskWithSession (session : option Artifact) (env : option Envelope) (t : ProviderTask) (run : RunContext)
    : Rt TaskResult :=
  match session with Some a => port (RegisterSecret (bytes a)) | None => mret tt end ;;
  u ← begin;
  modify (set_retained false) ;;
  rfinally
    (w ← port CreateWorkspace;
     rfinally (runInWorkspace session env t run u w) (unless_retained (dispose w)))
    (unless_retained (complete u)).

(** [runTask]. *)
Definition runTask (p : jsstring) (t : ProviderTask) (run : RunContext) : Rt TaskResult :=
  match unsupportedTaskFailure t with
  | Some f => emitFailure ;; mret (TaskFailed f None [])
  | None =>
      match plan deps with
      | NoSession => runTaskWithSession None None t run
      | plan =>
          requireSessionStore ;;
          requireSessionDriver ;;
          emit "session.read.started" ;;
          session ← read_session p ForRun;
          emit "session.read.completed" ;;
          match session with
          | None => emitFailure ;; mret (failedTask "needs_reconnect" "Provider session is missing.")
          | Some session =>
              let go := runTaskWithSession (Some (e_artifact session)) (Some session) t run in
              match plan with
              | StaticSession _ =>
                  v ← port (ValidateSession (e_artifact session));
                  match v with
                  | Invalid f => emitFailure ;; mret (TaskFailed f None [])
                  | Valid _ => go
                  end
              | _ => go
              end
          end
      end
  end.

Definition task_failure (r : TaskResult) : option ProviderFailure :=
  match r with TaskFailed f _ _ => Some f | _ => None end.

Definition run_with (s : Envelope) (t : ProviderTask) (run : RunContext) : Rt TaskResult :=
  runTaskWithSession (Some (e_artifact s)) (Some s) t run.

Definition stale_blocked (warnings : list RuntimeWarning) : RefreshThenRunResult :=
  RunBlocked run_stale_generation "A newer provider session generation already exists." warnings.

Definition refresh_warnings (r : RefreshResult) : list RuntimeWarning :=
  match r with Ready _ _ w | Blocked _ _ w | Skipped _ _ w => w end.

(** What follows a refresh that gave a session or ended the run; [missing] is
    the message when there is no session. *)
Definition afterRefresh (refresh : RefreshResult) (missing : string) (t : ProviderTask) (run : RunContext)
    : Rt RefreshThenRunResult :=
  match refresh with
  | Blocked reason m w => mret (RunBlocked (refresh_blocked reason) m w)
  | Skipped stale_generation _ w => mret (stale_blocked w)
  | _ =>
      match sessionForPostRefreshTask refresh with
      | None => mret (RunBlocked (refresh_blocked provider_reconnect_required) missing (refresh_warnings refresh))
      | Some s => r ← run_with s t run; mret (RunCompleted refresh r)
      end
  end.

(** A task that failed on a session that was not refreshed is retried once,
    after a forced refresh. *)
Definition guardedRepair (p : jsstring) (t : ProviderTask) (run : RunContext) (refresh : RefreshResult) (task : TaskResult)
    : Rt RefreshThenRunResult :=
  match task_failure task with
  | Some f =>
      if negb (existsb (λ w, bool_decide (w_code w = "task_session_finalization_pending")) (task_warnings task)) &&
         shouldGuardedRefresh f then
        emit "provider.refresh.guard.started" ;;
        guarded ← refreshSession p run true;
        afterRefresh guarded "Provider session is missing after guarded refresh." t run
      else mret (RunCompleted refresh task)
  | None => mret (RunCompleted refresh task)
  end.

(** [refreshThenRunTask]. *)
Definition refreshThenRunTask (p : jsstring) (t : ProviderTask) (run : RunContext) : Rt RefreshThenRunResult :=
  match unsupportedTaskFailure t with
  | Some f => emitFailure ;; mret (RunBlocked run_task_mode_unsupported (f_safeMessage f) [])
  | None =>
      refresh ← refreshSession p run false;
      match plan deps, refresh with
      | NoSession, Skipped refresh_not_required _ _ =>
          r ← runTaskWithSession None None t run;
          r ← match task_failure r with
              | Some f => if shouldGuardedRefresh f then runTaskWithSession None None t run else mret r
              | None => mret r
              end;
          mret (RunCompleted refresh r)
      | StaticSession _, Skipped refresh_not_required (Some s) _ => r ← run_with s t run; mret (RunCompleted refresh r)
      | RotatingSession _ _, Skipped refresh_not_required (Some s) _ =>
          r ← run_with s t run; guardedRepair p t run refresh r
      | _, _ => afterRefresh refresh "Provider session is missing after refresh." t run
      end
  end.

End Kernel.

(** ** Reasoning about programs

    A monitor watches the calls and their answers: [advance] is its next state,
    [permitted] are the rules it stands for, [fair] the answers it assumes.
    [wp m Q X k s]: from the kernel state [k], with the monitor in [s], every
    call of [m] is permitted, and [m] returns with [Q] or throws with [X],
    whatever fair answers the ports give. *)

Section monitor.
Context {S : Type} (advance : S → ∀ c, answer c → S) (permitted : S → call → Prop) (fair : S → ∀ c, answer c → Prop).

Fixpoint pwp {A} (p : prog A) (Q : A → S → Prop) (s : S) : Prop :=
  match p with
  | Ret a => Q a s
  | Call c k => permitted s c ∧ ∀ r, fair s c r → pwp (k r) Q (advance s c r)
  end.

Definition wp {A} (m : Rt A) (Q : A → Kernel → S → Prop) (X : Kernel → S → Prop) (k : Kernel) (s : S) : Prop :=
  pwp (m k) (λ x s', match x.2 with Ok a => Q a x.1 s' | Throw _ => X x.1 s' end) s.

(** *** Traces *)

(** A call and its answer. *)
Inductive event : Set := Ev (c : call) (r : answer c).

(** The ways a program can run. *)
Inductive runs {A} : prog A → list event → A → Prop :=
| runs_ret a : runs (Ret a) [] a
| runs_call c k r tr a : runs (k r) tr a → runs (Call c k) (Ev c r :: tr) a.

Definition watch : S → list event → S := foldl (λ s '(Ev c r), advance s c r).

Fixpoint fair_trace (s : S) (tr : list event) : Prop :=
  match tr with [] => True | Ev c r :: tr => fair s c r ∧ fair_trace (advance s c r) tr end.

Fixpoint permitted_trace (s : S) (tr : list event) : Prop :=
  match tr with [] => True | Ev c r :: tr => permitted s c ∧ permitted_trace (advance s c r) tr end.

Lemma pwp_adequate {A} (p : prog A) Q s tr a : pwp p Q s → runs p tr a → fair_trace s tr →
  permitted_trace s tr ∧ Q a (watch s tr).
Proof.
  intros Hp Hr. revert s Hp. induction Hr as [a|c k r tr a _ IH]; simpl; intros s Hp Hf; [done|].
  destruct Hf as [Hr Hf], Hp as [Hc Hk]. destruct (IH (advance s c r)); auto.
Qed.

Lemma pwp_bind {A B} (p : prog A) (f : A → prog B) Q s :
  pwp p (λ a s', pwp (f a) Q s') s → pwp (prog_bind p f) Q s.
Proof. revert s. induction p as [a|c k IH]; simpl; intros s H; [done|]. destruct H. split; auto. Qed.

Lemma pwp_mono {A} (p : prog A) (Q Q' : A → S → Prop) s : pwp p Q s → (∀ a s', Q a s' → Q' a s') → pwp p Q' s.
Proof. intros H HQ. revert s H. induction p as [a|c k IH]; simpl; intros s H; [auto|]. destruct H. split; auto. Qed.

Section rules.
Context {A B : Type}.
Implicit Types (Q : A → Kernel → S → Prop) (X : Kernel → S → Prop).

Lemma wp_ret (a : A) Q X k s : Q a k s → wp (mret a) Q X k s.
Proof. done. Qed.

Lemma wp_rthrow e Q X k s : X k s → wp (rthrow e : Rt A) Q X k s.
Proof. done. Qed.

Lemma wp_bind (m : Rt B) (f : B → Rt A) Q X k s :
  wp m (λ b k' s', wp (f b) Q X k' s') X k s → wp (m ≫= f) Q X k s.
Proof.
  intros H. apply pwp_bind. eapply pwp_mono; [exact H|]. by intros [k' [b|e]] s' H'.
Qed.

Lemma wp_mono (m : Rt A) Q Q' X X' k s :
  wp m Q X k s → (∀ a k' s', Q a k' s' → Q' a k' s') → (∀ k' s', X k' s' → X' k' s') → wp m Q' X' k s.
Proof. intros H HQ HX. eapply pwp_mono; [exact H|]. intros [k' [b|e]] s'; simpl; auto. Qed.

Lemma wp_catch (m : Rt A) h Q X k s :
  wp m Q (λ k' s', ∀ e, wp (h e) Q X k' s') k s → wp (catch m h) Q X k s.
Proof. intros H. apply pwp_bind. eapply pwp_mono; [exact H|]. intros [k' [b|e]] s' H'; [done|]. apply (H' e). Qed.

Lemma wp_rfinally (m : Rt A) f Q X k s :
  wp m (λ a k' s', wp f (λ _ k'' s'', Q a k'' s'') X k' s') (λ k' s', wp f (λ _, X) X k' s') k s →
  wp (rfinally m f) Q X k s.
Proof.
  intros H. apply pwp_bind. eapply pwp_mono; [exact H|].
  intros [k' [b|e]] s' H'; (apply pwp_bind; eapply pwp_mono; [exact H'|]); by intros [k'' [[]|e']] s''.
Qed.
End rules.

Lemma wp_port c (Q : resp c → Kernel → S → Prop) X k s :
  permitted s c →
  (∀ r, fair s c r → match r with Ok a => Q a k (advance s c r) | Throw _ => X k (advance s c r) end) →
  wp (port c) Q X k s.
Proof. intros Hc H. split; [done|]. intros r Hr. by specialize (H r Hr). Qed.

Lemma wp_kernel (Q : Kernel → Kernel → S → Prop) X k s : Q k k s → wp kernel Q X k s.
Proof. done. Qed.

Lemma wp_modify f (Q : unit → Kernel → S → Prop) X k s : Q tt (f k) s → wp (modify f) Q X k s.
Proof. done. Qed.

End monitor.

Ltac wp_step :=
  lazymatch goal with
  | |- wp _ _ _ (mret _) _ _ _ _ => apply wp_ret
  | |- wp _ _ _ (error_ _) _ _ _ _ => apply wp_rthrow
  | |- wp _ _ _ (rthrow _) _ _ _ _ => apply wp_rthrow
  | |- wp _ _ _ (mbind _ _) _ _ _ _ => apply wp_bind
  | |- wp _ _ _ (catch _ _) _ _ _ _ => apply wp_catch
  | |- wp _ _ _ (rfinally _ _) _ _ _ _ => apply wp_rfinally
  | |- wp _ _ _ kernel _ _ _ _ => apply wp_kernel
  | |- wp _ _ _ (modify _) _ _ _ _ => apply wp_modify
  | |- wp _ _ _ (if ?b then _ else _) _ _ _ _ => let E := fresh "E" in destruct b eqn:E
  | |- wp _ _ _ (match ?x with _ => _ end) _ _ _ _ => let E := fresh "E" in destruct x eqn:E
  end; cbv beta.

(** ** The discipline of resources

    The monitor of leases, workspaces, uses and secrets. *)

Inductive LeasePhase : Set := L_acquired | L_finalized | L_started | L_written (h : jsstring).

Record LeaseMonitor : Set := mkLM {
  lm_provider : jsstring; lm_restored : jsstring; lm_phase : LeasePhase; lm_intent : option WriteInput;
  lm_unacknowledged : bool }.

Record Mon : Set := mkMon {
  live : gmap jsstring LeaseMonitor;
  spaces : gset N;
  uses : gset use;
  begun : gset use;
  secrets : list (list N);
  finals : gmap use TaskResult;
  (** The event after a lease was granted was not taken, or a key was not made. *)
  interrupted : bool }.

Definition set_live (f : gmap jsstring LeaseMonitor → gmap jsstring LeaseMonitor) (m : Mon) : Mon :=
  mkMon (f (live m)) (spaces m) (uses m) (begun m) (secrets m) (finals m) (interrupted m).
Definition set_spaces (f : gset N → gset N) (m : Mon) : Mon :=
  mkMon (live m) (f (spaces m)) (uses m) (begun m) (secrets m) (finals m) (interrupted m).
Definition set_uses (f : gset use → gset use) (m : Mon) : Mon :=
  mkMon (live m) (spaces m) (f (uses m)) (begun m) (secrets m) (finals m) (interrupted m).

Definition interrupt (m : Mon) : Mon := mkMon (live m) (spaces m) (uses m) (begun m) (secrets m) (finals m) true.

Definition with_lease_phase (ph : LeasePhase) (l : LeaseMonitor) : LeaseMonitor :=
  mkLM (lm_provider l) (lm_restored l) ph (lm_intent l) (lm_unacknowledged l).
Definition with_intent (i : WriteInput) (l : LeaseMonitor) : LeaseMonitor :=
  mkLM (lm_provider l) (lm_restored l) (lm_phase l) (Some i) (lm_unacknowledged l).
Definition unacknowledge (l : LeaseMonitor) : LeaseMonitor :=
  mkLM (lm_provider l) (lm_restored l) (lm_phase l) (lm_intent l) true.

(** A lease is finalized with the hash it was restored from. *)
Definition may_finalize (l : LeaseMonitor) (h : jsstring) : Prop := lm_phase l = L_acquired ∧ h = lm_restored l.
(** A session is written under a started lease of its provider, and always
    with the same request. *)
Definition may_write_under (l : LeaseMonitor) (i : WriteInput) : Prop :=
  (lm_phase l = L_started ∨ ∃ h, lm_phase l = L_written h) ∧ lm_provider l = w_instance i ∧ (lm_intent l = None ∨ lm_intent l = Some i).
(** What is committed is what the write of the lease returned, under its key,
    or the generation the lease was restored from. *)
Definition may_commit (l : LeaseMonitor) (next key : jsstring) : Prop :=
  lm_phase l = L_written next ∧ (∃ i, lm_intent l = Some i ∧ w_key i = key) ∨
  lm_phase l = L_finalized ∧ next = lm_restored l.

(** The next state; it says nothing of the rules. *)
Definition advance (m : Mon) (c : call) : answer c → Mon :=
  match c with
  | AcquireLease p _ _ _ h => λ r,
      match r with
      | Ok (LeaseGranted id) => set_live <[id := mkLM p h L_acquired None false]> m
      | _ => m
      end
  | FinalizeLease id _ => λ r, match r with Ok _ => set_live (alter (with_lease_phase L_finalized) id) m | _ => m end
  | StartWriteback id => λ r, match r with Ok _ => set_live (alter (with_lease_phase L_started) id) m | _ => m end
  | WriteSession i => λ r,
      match r with
      | Ok (Accepted _ h) | Ok (IdempotentReplay _ h) =>
          set_live (alter (with_lease_phase (L_written h) ∘ with_intent i) (w_lease i)) m
      | _ => set_live (alter (with_intent i) (w_lease i)) m
      end
  | CommitWriteback id _ _ => λ r,
      match r with
      | Ok CommitStale => set_live (alter unacknowledge id) m
      | Ok _ => set_live (delete id) m
      | Throw _ => m
      end
  | ReleaseLease id => λ _, set_live (delete id) m
  | CreateWorkspace => λ r,
      match r with Ok w => if disposable w then set_spaces (λ x, {[ws w]} ∪ x) m else m | Throw _ => m end
  | DisposeWorkspace w => λ _, set_spaces (λ x, x ∖ {[ws w]}) m
  | BeginUse => λ r,
      match r with
      | Ok u => mkMon (live m) (spaces m) ({[u]} ∪ uses m) ({[u]} ∪ begun m) (secrets m) (finals m) (interrupted m)
      | Throw _ => m
      end
  | CompleteUse u => λ _, set_uses (λ x, x ∖ {[u]}) m
  | RetireTask u => λ r, match r with Ok _ => set_uses (λ x, x ∖ {[u]}) m | Throw _ => m end
  | RegisterSecret b => λ r,
      match r with
      | Ok _ => mkMon (live m) (spaces m) (uses m) (begun m) (b :: secrets m) (finals m) (interrupted m)
      | Throw _ => m
      end
  | FinalizeTask u => λ r,
      match r with
      | Ok x => mkMon (live m) (spaces m) (uses m) (begun m) (secrets m) (<[u := x]> (finals m)) (interrupted m)
      | Throw _ => m
      end
  | Emit n => λ r,
      match r with Throw _ => if String.eqb n "lease.acquire.completed" then interrupt m else m | Ok _ => m end
  | IdempotencyKey _ _ _ => λ r, match r with Throw _ => interrupt m | Ok _ => m end
  | _ => λ _, m
  end.

(** The rules. *)
Definition permitted (m : Mon) (c : call) : Prop :=
  match c with
  | FinalizeLease id h => ∃ l, live m !! id = Some l ∧ may_finalize l h
  | StartWriteback id => ∃ l, live m !! id = Some l ∧ lm_phase l = L_finalized
  | WriteSession i => ∃ l, live m !! w_lease i = Some l ∧ may_write_under l i
  | CommitWriteback id next key => ∃ l, live m !! id = Some l ∧ may_commit l next key
  | ReleaseLease id => is_Some (live m !! id)
  | RunAgent (Some a) _ _ _ => bytes a ∈ secrets m
  | _ => True
  end.

(** The answers assumed: an identity that is handed out is new, and the
    finalization of a task gives one result. Any call may throw. *)
Definition fair (m : Mon) (c : call) : answer c → Prop :=
  match c with
  | AcquireLease _ _ _ _ _ => λ r, ∀ id, r = Ok (LeaseGranted id) → live m !! id = None
  | BeginUse => λ r, ∀ u, r = Ok u → u ∉ begun m
  | FinalizeTask u => λ r, ∀ x y, r = Ok x → finals m !! u = Some y → x = y
  | _ => λ _, True
  end.

(** ** Ownership

    Between the calls of a runtime, whatever is live is accounted for: a lease
    belongs to a pending writeback, a workspace or a use to a held task. The
    leases that stay behind are those of a lease store without [release], and
    those whose commit was answered as stale. [L], [W] and [U] are what the
    call in progress holds itself. *)

Section discipline.
Context (sha_base64url : list N → jsstring) (deps : Deps).

Abbreviation WP := (wp advance permitted fair).
Abbreviation hash_of := (generation_hash sha_base64url).

(** The monitor agrees with a pending writeback on how far its lease is. *)
Definition tracks (w : PendingWriteback) (l : LeaseMonitor) : Prop :=
  lm_restored l = e_generationHash (pw_envelope w) ∧ lm_provider l = w_instance (pw_intent w) ∧
  (lm_intent l = None ∨ lm_intent l = Some (pw_intent w)) ∧
  match pw_phase w with
  | Acquired => lm_phase l = L_acquired
  | Finalized_ => lm_phase l = L_finalized
  | Started => lm_phase l = L_started ∨ ∃ h, lm_phase l = L_written h
  | Written => lm_phase l = L_written (receipt_hash (pw_receipt w)) ∧ lm_intent l = Some (pw_intent w)
  | Committed_ => True
  end.

(** A lease that nothing will release: its store cannot, or the call that was
    granted it was interrupted before it did anything under it. *)
Definition abandoned (m : Mon) (l : LeaseMonitor) : Prop :=
  hasRelease deps = false ∨ (interrupted m = true ∧ lm_phase l = L_acquired).

(** What a workspace occupies. *)
Definition space (w : Workspace) : option N := if disposable w then Some (ws w) else None.

(** An update that is to be written back. *)
Definition writable_update (env : Envelope) (update : Update) : Prop :=
  (∃ refresh wb, plan deps = RotatingSession refresh wb) ∧ providerId (u_artifact update) = e_provider env ∧
  hash_of (u_artifact update) ≠ e_generationHash env.

Record owns (L : option jsstring) (W : option N) (U : option use) (k : Kernel) (m : Mon) : Prop := {
  o_live : ∀ id l, live m !! id = Some l →
    L = Some id ∨ abandoned m l ∨ lm_unacknowledged l = true ∨
    ∃ u w, pending k !! Some u = Some w ∧ pw_phase w ≠ Committed_ ∧ w_lease (pw_intent w) = id;
  o_tracked : ∀ u w, pending k !! Some u = Some w → pw_phase w ≠ Committed_ →
    L ≠ Some (w_lease (pw_intent w)) ∧ ∃ l, live m !! w_lease (pw_intent w) = Some l ∧ tracks w l;
  o_inj : ∀ u1 u2 w1 w2, pending k !! Some u1 = Some w1 → pending k !! Some u2 = Some w2 →
    pw_phase w1 ≠ Committed_ → pw_phase w2 ≠ Committed_ →
    w_lease (pw_intent w1) = w_lease (pw_intent w2) → u1 = u2;
  o_spaces : ∀ x, x ∈ spaces m → W = Some x ∨ ∃ u h, (u, h) ∈ held k ∧ space (h_workspace h) = Some x;
  o_uses : ∀ u, u ∈ uses m → U = Some u ∨ ∃ h, (u, h) ∈ held k ∧ useCompleted h = false;
  o_pending : ∀ u w, pending k !! Some u = Some w → ∃ h r, (u, h) ∈ held k ∧ finals m !! u = Some r ∧
    session_update r = Some (pw_update w) ∧ h_envelope h = Some (pw_envelope w) ∧ h_run h = pw_run w ∧
    pw_nextHash w = hash_of (u_artifact (pw_update w)) ∧ writable_update (pw_envelope w) (pw_update w) ∧
    (useCompleted h = true → pw_phase w = Committed_);
  o_begun : ∀ u h, (u, h) ∈ held k → u ∈ begun m;
  o_nodup : NoDup (held k).*1 }.

(** The flags of the call in progress do not matter. *)
Lemma own_leaseClosed L W U b k m : owns L W U k m → owns L W U (set_leaseClosed b k) m.
Proof. by intros []. Qed.

Lemma own_retained L W U b k m : owns L W U k m → owns L W U (set_retained b k) m.
Proof. by intros []. Qed.

(** *** The lease that the call holds *)

Lemma own_grant W U k m id l : owns None W U k m → live m !! id = None → owns (Some id) W U k (set_live <[id := l]> m).
Proof.
  intros [H1 H2 H3 H4 H5 H6 H7 H8] Hid. split; simpl; try done.
  - intros id' l'. rewrite lookup_insert_Some. intros [[-> _]|[_ Hl]]; [by left|]. destruct (H1 _ _ Hl); [done|by right].
  - intros u w Hu Hw. destruct (H2 u w Hu Hw) as (_ & l' & Hl & Ht).
    assert (id ≠ w_lease (pw_intent w)) as Hne by congruence. split; [congruence|]. exists l'. by rewrite lookup_insert_ne.
Qed.

Lemma own_alter W U k m id f : owns (Some id) W U k m → owns (Some id) W U k (set_live (alter f id) m).
Proof.
  intros [H1 H2 H3 H4 H5 H6 H7 H8]. split; simpl; try done.
  - intros id' l' Hl. destruct (decide (id = id')) as [->|Hne]; [by left|]. rewrite lookup_alter_ne in Hl by done. eauto.
  - intros u w Hu Hw. destruct (H2 u w Hu Hw) as (Hne & l' & Hl & Ht). split; [done|]. exists l'.
    rewrite lookup_alter_ne by congruence. done.
Qed.

Lemma own_delete W U k m id : owns (Some id) W U k m → owns None W U k (set_live (delete id) m).
Proof.
  intros [H1 H2 H3 H4 H5 H6 H7 H8]. split; simpl; try done.
  - intros id' l'. rewrite lookup_delete_Some. intros [Hne Hl]. destruct (H1 _ _ Hl); [congruence|by right].
  - intros u w Hu Hw. destruct (H2 u w Hu Hw) as (Hne & l' & Hl & Ht). split; [done|]. exists l'.
    rewrite lookup_delete_ne by congruence. done.
Qed.

Lemma own_leave W U k m id : owns (Some id) W U k m →
  (∀ l, live m !! id = Some l → abandoned m l ∨ lm_unacknowledged l = true) → owns None W U k m.
Proof.
  intros [H1 H2 H3 H4 H5 H6 H7 H8] Hid. split; simpl; try done.
  - intros id' l' Hl. destruct (H1 _ _ Hl) as [[= ->]|H]; [|by right]. destruct (Hid l' Hl); auto.
  - intros u w Hu Hw. by destruct (H2 u w Hu Hw).
Qed.

Lemma own_interrupt L W U k m : owns L W U k m → owns L W U k (interrupt m).
Proof.
  intros [H1 H2 H3 H4 H5 H6 H7 H8]. split; simpl; try done. intros id l Hl.
  destruct (H1 id l Hl) as [?|[[?|[_ ?]]|?]]; [by left|by right; left; left|by right; left; right|by right; right].
Qed.

(** A call that is interrupted right after its grant leaves the lease behind. *)
Lemma own_abandon W U k m id l : owns None W U k m → live m !! id = None → lm_phase l = L_acquired →
  owns None W U k (interrupt (set_live <[id := l]> m)).
Proof.
  intros Ho Hid Hp. apply (own_leave _ _ _ _ id); [by apply own_interrupt, own_grant|].
  intros l' Hl'. simpl in Hl'. rewrite lookup_insert_eq in Hl'. injection Hl' as <-. left. by right.
Qed.

(** *** The workspace and the use that the call holds *)

Definition opened (w : Workspace) (m : Mon) : Mon := if disposable w then set_spaces (λ x, {[ws w]} ∪ x) m else m.
Definition disposed (w : Workspace) (m : Mon) : Mon := if disposable w then set_spaces (λ x, x ∖ {[ws w]}) m else m.

Lemma own_open L U k m w : owns L None U k m → owns L (space w) U k (opened w m).
Proof.
  intros [H1 H2 H3 H4 H5 H6 H7 H8]. unfold space, opened. destruct (disposable w); split; simpl; try done.
  intros x [->%elem_of_singleton|Hx]%elem_of_union; [by left|]. destruct (H4 x Hx); [done|by right].
Qed.

Lemma own_dispose L W U k m w : owns L W U k m → W = None ∨ W = space w → owns L None U k (disposed w m).
Proof.
  intros [H1 H2 H3 H4 H5 H6 H7 H8] HW. unfold space, disposed in *. destruct (disposable w).
  - split; simpl; try done. intros y [Hy Hne]%elem_of_difference.
    destruct (H4 y Hy) as [->|?]; [|by right]. destruct HW as [|[= ->]]; [done|set_solver].
  - by destruct HW as [-> | ->].
Qed.

Lemma own_begin L W k m u : owns L W None k m →
  owns L W (Some u) k (mkMon (live m) (spaces m) ({[u]} ∪ uses m) ({[u]} ∪ begun m) (secrets m) (finals m) (interrupted m)).
Proof.
  intros [H1 H2 H3 H4 H5 H6 H7 H8]. split; simpl; try done.
  - intros x [->%elem_of_singleton|Hx]%elem_of_union; [by left|]. destruct (H5 x Hx); [done|by right].
  - intros x h Hx. apply elem_of_union_r. eauto.
Qed.

Lemma own_complete L W k m u : owns L W (Some u) k m → owns L W None k (set_uses (λ s, s ∖ {[u]}) m).
Proof.
  intros [H1 H2 H3 H4 H5 H6 H7 H8]. split; simpl; try done. intros x [Hx Hne]%elem_of_difference.
  destruct (H5 x Hx) as [[= ->]|?]; [set_solver|by right].
Qed.

Lemma own_secret L W U k m b : owns L W U k m →
  owns L W U k (mkMon (live m) (spaces m) (uses m) (begun m) (b :: secrets m) (finals m) (interrupted m)).
Proof. by intros []. Qed.

(** *** Calls that the monitor does not watch *)

Lemma wp_emit n (Q : unit → Kernel → Mon → Prop) (X : Kernel → Mon → Prop) k m :
  String.eqb n "lease.acquire.completed" = false → Q tt k m → X k m → WP (emit n) Q X k m.
Proof. intros Hn H HX. apply wp_port; [done|]. intros [[]|e] _; [done|]. simpl. by rewrite Hn. Qed.

Lemma wp_count n (Q : unit → Kernel → Mon → Prop) (X : Kernel → Mon → Prop) k m : Q tt k m → X k m → WP (count n) Q X k m.
Proof. intros H HX. apply wp_port; [done|]. by intros [[]|e] _. Qed.

Lemma wp_key p run att (Q : jsstring → Kernel → Mon → Prop) (X : Kernel → Mon → Prop) k m :
  (∀ key, Q key k m) → X k (interrupt m) → WP (port (IdempotencyKey p run att)) Q X k m.
Proof. intros H HX. apply wp_port; [done|]. intros [key|e] _; [apply H|done]. Qed.

(** The one event that finds a lease with no call to release it. *)
Lemma wp_emit_acquired (Q : unit → Kernel → Mon → Prop) (X : Kernel → Mon → Prop) k m :
  Q tt k m → X k (interrupt m) → WP (emit "lease.acquire.completed") Q X k m.
Proof. intros H HX. apply wp_port; [done|]. by intros [[]|e] _. Qed.

Ltac emitted := apply wp_emit; [done| |try done].
Ltac counted := apply wp_count; [|try done].

Definition unwatched (c : call) : bool :=
  match c with ReadSession _ _ _ | ValidateSession _ | InspectFreshness _ | RefreshDriver _ _ _ => true | _ => false end.

Lemma wp_unwatched c (Q : resp c → Kernel → Mon → Prop) X k m : unwatched c = true →
  (∀ a, Q a k m) → X k m → WP (port c) Q X k m.
Proof. intros Hc HQ HX. apply wp_port; [by destruct c|]. intros r _. destruct c; try done; simpl; destruct r; auto. Qed.

Lemma wp_finalize id h l (Q : unit → Kernel → Mon → Prop) X k m : live m !! id = Some l → may_finalize l h →
  Q tt k (set_live (alter (with_lease_phase L_finalized) id) m) → X k m → WP (port (FinalizeLease id h)) Q X k m.
Proof. intros Hl Hf HQ HX. apply wp_port; [simpl; eauto|]. by intros [[]|e] _. Qed.

Lemma wp_start id l (Q : unit → Kernel → Mon → Prop) X k m : live m !! id = Some l → lm_phase l = L_finalized →
  Q tt k (set_live (alter (with_lease_phase L_started) id) m) → X k m → WP (port (StartWriteback id)) Q X k m.
Proof. intros Hl Hf HQ HX. apply wp_port; [simpl; eauto|]. by intros [[]|e] _. Qed.

Lemma wp_write i l (Q : WriteResult → Kernel → Mon → Prop) X k m : live m !! w_lease i = Some l → may_write_under l i →
  (∀ r g h, r = Accepted g h ∨ r = IdempotentReplay g h →
     Q r k (set_live (alter (with_lease_phase (L_written h) ∘ with_intent i) (w_lease i)) m)) →
  (∀ g h, Q (StaleGeneration g h) k (set_live (alter (with_intent i) (w_lease i)) m)) →
  X k (set_live (alter (with_intent i) (w_lease i)) m) → WP (port (WriteSession i)) Q X k m.
Proof. intros Hl Hw H1 H2 HX. apply wp_port; [simpl; eauto|]. intros [[]|e] _; simpl; eauto. Qed.

Lemma wp_commit id next key l (Q : CommitResult → Kernel → Mon → Prop) X k m :
  live m !! id = Some l → may_commit l next key →
  Q CommitStale k (set_live (alter unacknowledge id) m) →
  (∀ r, r ≠ CommitStale → Q r k (set_live (delete id) m)) → X k m → WP (port (CommitWriteback id next key)) Q X k m.
Proof. intros Hl Hc H1 H2 HX. apply wp_port; [simpl; eauto|]. intros [[]|e] _; simpl; eauto; by apply H2. Qed.

Lemma live_alter m id l f : live m !! id = Some l → live (set_live (alter f id) m) !! id = Some (f l).
Proof. intros H. simpl. by rewrite lookup_alter_eq, H. Qed.

(** *** A refresh under its lease *)

(** The lease of the call is live until it is closed, and closed when its
    commit was answered. *)
Definition closing (id : jsstring) (k : Kernel) (m : Mon) : Prop :=
  if leaseClosed k then ∀ l, live m !! id = Some l → lm_unacknowledged l = true else is_Some (live m !! id).

Definition leased (id : jsstring) (W : option N) (U : option use) (k : Kernel) (m : Mon) : Prop :=
  owns (Some id) W U k m ∧ closing id k m.

Lemma leased_interrupt id W U k m : leased id W U k m → leased id W U k (interrupt m).
Proof. intros [Ho Hc]. split; [by apply own_interrupt|done]. Qed.

Lemma leased_alter id W U k m f : leased id W U k m → leaseClosed k = false →
  leased id W U k (set_live (alter f id) m).
Proof.
  intros [Ho Hc] Hk. split; [by apply own_alter|]. unfold closing in *. rewrite Hk in *. simpl.
  rewrite lookup_alter_eq. destruct Hc as [l ->]. by eexists.
Qed.

Lemma leased_committed id W U k m r : leased id W U k m → leaseClosed k = false →
  leased id W U (set_leaseClosed true k)
    (match r with CommitStale => set_live (alter unacknowledge id) m | _ => set_live (delete id) m end).
Proof.
  intros [Ho Hc] Hk. assert (∀ m', owns (Some id) W U k m' → (∀ l, live m' !! id = Some l → lm_unacknowledged l = true) →
    leased id W U (set_leaseClosed true k) m') as H by (intros m' H1 H2; by split; [apply own_leaseClosed|]).
  assert (owns (Some id) W U k (set_live (delete id) m)) as Hd.
  { pose proof (own_delete _ _ _ _ _ Ho) as [H1 H2 H3 H4 H5 H6 H7 H8]. destruct Ho as [_ H2' _ _ _ _ _ _]. split; try done.
    - intros id' l Hl. destruct (H1 id' l Hl); [done|by right].
    - intros u w Hu Hw. split; [by apply (H2' u w)|by apply (H2 u w)]. }
  destruct r; apply H; simpl; try done; try (by apply own_alter); intros l; rewrite ?lookup_delete_eq; try done.
  rewrite lookup_alter_eq. by destruct (live m !! id); intros [= <-].
Qed.

Lemma writebackRefreshed_wp p run id env refreshed W U k m l :
  leased id W U k m → leaseClosed k = false → live m !! id = Some l →
  lm_phase l = L_acquired → lm_restored l = e_generationHash env → lm_provider l = p → lm_intent l = None →
  WP (writebackRefreshed sha_base64url p run id env refreshed) (λ _, leased id W U) (leased id W U) k m.
Proof.
  intros Hh Hk Hl Hp Hr Hpr Hi. unfold writebackRefreshed. wp_step. apply wp_key; [intros key|by apply leased_interrupt].
  assert (∀ m', leased id W U k m' → ∀ next, (∃ l', live m' !! id = Some l' ∧ may_commit l' next key) →
    ∀ rest, (∀ m'', leased id W U (set_leaseClosed true k) m'' →
               WP rest (λ _ : RefreshResult, leased id W U) (leased id W U) (set_leaseClosed true k) m'') →
    WP (port (CommitWriteback id next key) ;; modify (set_leaseClosed true) ;; rest)
      (λ _, leased id W U) (leased id W U) k m') as Hcommit.
  { intros m' Hm' next (l' & Hl' & Hc) rest Hrest. wp_step. apply (wp_commit _ _ _ l'); try done.
    - wp_step. wp_step. apply Hrest. by apply (leased_committed _ _ _ _ _ CommitStale).
    - intros r Hne. wp_step. wp_step. apply Hrest. pose proof (leased_committed _ _ _ _ _ r Hm' Hk). by destruct r. }
  set (m1 := set_live (alter (with_lease_phase L_finalized) id) m).
  assert (leased id W U k m1) as Hm1 by (by apply leased_alter).
  assert (live m1 !! id = Some (with_lease_phase L_finalized l)) as Hl1 by (by apply live_alter).
  wp_step.
  - wp_step. apply (wp_finalize _ _ l); [done|done| |done]. apply Hcommit; [done|..].
    + exists (with_lease_phase L_finalized l). split; [done|]. right. done.
    + intros m'' Hm''. wp_step. emitted. by wp_step.
  - wp_step. apply (wp_finalize _ _ l); [done|done| |done]. wp_step. emitted.
    wp_step. apply (wp_start _ (with_lease_phase L_finalized l)); [done|done| |done]. fold m1.
    set (m2 := set_live (alter (with_lease_phase L_started) id) m1).
    assert (leased id W U k m2) as Hm2 by (by apply leased_alter).
    assert (live m2 !! id = Some (with_lease_phase L_started (with_lease_phase L_finalized l))) as Hl2
      by (by apply live_alter).
    set (i := mkWriteInput _ _ _ _ _ _).
    assert (∀ f, leased id W U k (set_live (alter f id) m2)) as Halter by (intros f; by apply leased_alter).
    wp_step. apply (wp_write i (with_lease_phase L_started (with_lease_phase L_finalized l))); [done| |..].
    + split; [by left|]. split; [done|]. by left.
    + intros r g h Hrgh.
      assert (∃ l', live (set_live (alter (with_lease_phase (L_written h) ∘ with_intent i) id) m2) !! id = Some l' ∧ may_commit l' h key)
        as Hc.
      { eexists. split; [by apply live_alter|]. left. split; [done|]. by exists i. }
      destruct Hrgh as [-> | ->]; (apply Hcommit; [by apply Halter|done|]); intros m'' Hm''; wp_step; emitted; wp_step;
        counted; by wp_step.
    + intros g h. wp_step. counted. wp_step. emitted. wp_step. emitted. wp_step. apply Halter.
    + apply Halter.
Qed.

Lemma dispose_wp (P : Kernel → Mon → Prop) w k m : P k (disposed w m) → WP (dispose w) (λ _, P) P k m.
Proof.
  intros H. unfold dispose, when, disposed in *. wp_step; [|by wp_step]. apply wp_port; [done|]. by intros [[]|e] _.
Qed.

Lemma refreshInWorkspace_wp p run id env w u W U k m l :
  leased id W U k m → leaseClosed k = false → live m !! id = Some l →
  lm_phase l = L_acquired → lm_restored l = e_generationHash env → lm_provider l = p → lm_intent l = None →
  WP (refreshInWorkspace sha_base64url p run id env w u) (λ _, leased id W U) (leased id W U) k m.
Proof.
  intros Hh Hk Hl Hp Hr Hpr Hi. unfold refreshInWorkspace. wp_step. emitted. wp_step. apply wp_unwatched; [done| |done].
  intros refreshed. wp_step. emitted. wp_step. counted.
  wp_step; try (by eapply writebackRefreshed_wp); repeat (wp_step; first [emitted|counted|done]).
Qed.

Lemma leased_open id U k m w : leased id None U k m → leased id (space w) U k (opened w m).
Proof. intros [Ho Hc]. split; [by apply own_open|]. unfold opened. by destruct (disposable w). Qed.

Lemma leased_dispose id U k m w : leased id (space w) U k m → leased id None U k (disposed w m).
Proof. intros [Ho Hc]. split; [eapply own_dispose; eauto|]. unfold disposed. by destruct (disposable w). Qed.

Lemma create_workspace_wp (Q : Workspace → Kernel → Mon → Prop) X k m :
  (∀ w, Q w k (opened w m)) → X k m → WP (port CreateWorkspace) Q X k m.
Proof. intros HQ HX. apply wp_port; [done|]. intros [w|e] _; [apply HQ|done]. Qed.

Lemma refreshLeased_wp p run id env u U k m l :
  leased id None U k m → leaseClosed k = false → live m !! id = Some l →
  lm_phase l = L_acquired → lm_restored l = e_generationHash env → lm_provider l = p → lm_intent l = None →
  WP (refreshLeased sha_base64url deps p run id env u) (λ _, leased id None U) (leased id None U) k m.
Proof.
  intros Hh Hk Hl Hp Hr Hpr Hi. unfold refreshLeased, read_session. wp_step. apply wp_unwatched; [done| |done].
  intros [env'|]; [|wp_step; emitted; by wp_step].
  wp_step; [wp_step; counted; wp_step; emitted; by wp_step|]. bools.
  wp_step. apply wp_unwatched; [done| |done]. intros [ws|f]; [|wp_step; emitted; by wp_step].
  wp_step. apply create_workspace_wp; [|done]. intros w. pose proof (leased_open _ _ _ _ w Hh) as Hw. wp_step.
  eapply wp_mono; [eapply (refreshInWorkspace_wp _ _ _ _ _ _ (space w) U); try done|..]; cbv beta.
  - unfold opened. by destruct (disposable w).
  - congruence.
  - intros r k' m' H. apply (dispose_wp (leased id None U)). by apply leased_dispose.
  - intros k' m' H. apply (dispose_wp (leased id None U)). by apply leased_dispose.
Qed.

Lemma release_wp id U k m : hasLeaseStore deps = true → leased id None U k m →
  WP (k ← kernel; when (negb (leaseClosed k)) (releaseLeaseQuietly deps id)) (λ _, owns None None U) (owns None None U) k m.
Proof.
  intros Hs [Ho Hc]. do 2 wp_step. unfold when, releaseLeaseQuietly, closing in *. rewrite Hs.
  destruct (leaseClosed k); simpl; [wp_step; eapply own_leave; eauto|].
  wp_step; [wp_step; eapply own_leave; [exact Ho|]; intros; bools; left; by left|]. pose proof (own_delete _ _ _ _ _ Ho) as Hd.
  wp_step. apply wp_port; [done|]. intros [[]|e] _; [done|]. intros _. by emitted.
Qed.

Lemma refreshUnderLease_wp p run env u U k m : hasLeaseStore deps = true → owns None None U k m →
  WP (refreshUnderLease sha_base64url deps p run env u) (λ _, owns None None U) (owns None None U) k m.
Proof.
  intros Hs Ho. unfold refreshUnderLease. wp_step. emitted. wp_step. apply wp_port; [done|].
  intros [[id|msg|msg]|e] Hf; [|wp_step; apply wp_emit_acquired; [|by apply own_interrupt]..|done].
  - wp_step. apply wp_emit_acquired; [|simpl; apply own_abandon; auto]. do 2 wp_step. wp_step. simpl in Hf.
    set (l := mkLM p (e_generationHash env) L_acquired None false).
    assert (leased id None U (set_leaseClosed false k) (set_live <[id := l]> m)) as Hl.
    { split; [by apply own_leaseClosed, own_grant; auto|]. unfold closing; simpl. rewrite lookup_insert_eq. eauto. }
    eapply wp_mono; [eapply (refreshLeased_wp _ _ _ _ _ U _ _ l Hl); try done; apply lookup_insert_eq|..]; cbv beta;
      intros; by apply release_wp.
  - wp_step. counted. wp_step. emitted. by wp_step.
  - wp_step. emitted. by wp_step.
Qed.

Lemma begin_wp (Q : option use → Kernel → Mon → Prop) (X : Kernel → Mon → Prop) k m : owns None None None k m →
  X k m →
  (∀ u m', (∀ x, u = Some x → x ∉ begun m) → owns None None u k m' → secrets m' = secrets m → finals m' = finals m →
     (∀ x, u = Some x → x ∈ begun m') → Q u k m') →
  WP (begin deps) Q X k m.
Proof.
  intros Ho HX H. unfold begin. wp_step; [|wp_step; by apply H].
  wp_step. apply wp_port; [done|]. intros [u|e] Hf; [|done]. wp_step. apply H; [naive_solver|by apply own_begin|done..|].
  intros x [= ->]. simpl. set_solver.
Qed.

Lemma complete_wp u k m : owns None None u k m →
  WP (complete u) (λ _, owns None None None) (owns None None None) k m.
Proof.
  intros Ho. destruct u as [u|]; simpl; [|by wp_step]. apply wp_port; [done|]. apply own_complete in Ho. by intros [[]|e] _.
Qed.

Lemma refreshRotating_wp refresh p run force k m : owns None None None k m →
  WP (refreshRotating sha_base64url deps refresh p run force) (λ _, owns None None None) (owns None None None) k m.
Proof.
  intros Ho. unfold refreshRotating, requireSessionStore, requireLeaseStore, requireRefreshableSessionDriver, requireSessionDriver.
  wp_step. wp_step; [wp_step|by wp_step]. wp_step. wp_step; [wp_step|by wp_step].
  wp_step. wp_step. wp_step; [wp_step|by wp_step]. wp_step; [wp_step|by wp_step].
  wp_step. emitted. wp_step. apply wp_unwatched; [done| |done]. intros env.
  wp_step. emitted. destruct env as [env|]; [|wp_step; emitted; by wp_step].
  wp_step. apply wp_port; [done|]. intros [[]|e] _; [|done]. simpl.
  set (m1 := mkMon _ _ _ _ _ _ _). assert (owns None None None k m1) as H1 by (by apply own_secret).
  assert (WP (u ← begin deps; rfinally (refreshUnderLease sha_base64url deps p run env u) (complete u))
    (λ _, owns None None None) (owns None None None) k m1) as Hgo.
  { wp_step. apply begin_wp; [done|done|]. intros u m2 _ Hm2 _ _ _. wp_step.
    eapply wp_mono; [by apply (refreshUnderLease_wp _ _ _ _ u)|..]; intros; by apply complete_wp. }
  destruct refresh; [done|]. wp_step; [done|]. wp_step. unfold inspectFreshness, requireSessionDriver. rewrite E1.
  wp_step. wp_step. assert (∀ f, WP (match f with
    | Fresh warnings => emit "provider.refresh.skipped" ;; mret (Skipped refresh_not_required (Some env) warnings)
    | RefreshRecommended _ => emit "provider.refresh.recommended" ;;
        u ← begin deps; rfinally (refreshUnderLease sha_base64url deps p run env u) (complete u)
    end) (λ _, owns None None None) (owns None None None) k m1) as Hf.
  { intros []; wp_step; emitted; [by wp_step|done]. }
  wp_step; [wp_step; exact (Hf (RefreshRecommended []))|]. wp_step. apply wp_unwatched; [done|exact Hf|]. intros _. wp_step. emitted.
  wp_step. exact (Hf (RefreshRecommended [])).
Qed.

Lemma refreshSession_wp p run force k m : owns None None None k m →
  WP (refreshSession sha_base64url deps p run force) (λ _, owns None None None) (owns None None None) k m.
Proof.
  intros Ho. unfold refreshSession, validateStaticRuntimeSession, requireSessionStore, requireSessionDriver.
  wp_step; [wp_step; emitted; by wp_step| |by apply refreshRotating_wp].
  wp_step. wp_step; [wp_step|by wp_step]. wp_step. wp_step; [wp_step|by wp_step].
  wp_step. apply wp_unwatched; [done| |done]. intros [env|]; [|wp_step; emitted; by wp_step].
  wp_step; [by wp_step|]. wp_step. apply wp_unwatched; [done| |done]. intros [w|f]; [by wp_step|].
  wp_step. emitted. by wp_step.
Qed.

(** *** The writeback of a task *)

(** A writeback without a use is held by the call itself. *)
Definition own_lease (u : option use) (w : PendingWriteback) : option jsstring :=
  match u with None => Some (w_lease (pw_intent w)) | Some _ => None end.

Definition writing (u : option use) (W : option N) (U : option use) (w : PendingWriteback) (k : Kernel) (m : Mon) : Prop :=
  pending k !! u = Some w ∧ owns (own_lease u w) W U k m ∧
  (pw_phase w ≠ Committed_ → ∃ l, live m !! w_lease (pw_intent w) = Some l ∧ tracks w l) ∧
  (u = None → pw_phase w = Committed_ → live m !! w_lease (pw_intent w) = None).

Definition same_source (w w' : PendingWriteback) : Prop :=
  pw_update w' = pw_update w ∧ pw_envelope w' = pw_envelope w ∧ pw_run w' = pw_run w ∧ pw_nextHash w' = pw_nextHash w ∧
  pw_intent w' = pw_intent w.

Lemma set_pending_alter u f k w : pending k !! u = Some w →
  set_pending (alter f u) k = set_pending <[u := f w]> k.
Proof.
  intros H. unfold set_pending. f_equal. apply map_eq. intros u'. rewrite lookup_alter, lookup_insert.
  case_decide; [subst; by rewrite H|done].
Qed.

(** The pending writebacks of the other uses, after a change at [u]. *)
Lemma pending_insert u w' k x v : pending (set_pending <[u := w']> k) !! Some x = Some v →
  u = Some x ∧ v = w' ∨ u ≠ Some x ∧ pending k !! Some x = Some v.
Proof. simpl. rewrite lookup_insert_Some. naive_solver. Qed.

Lemma writing_other u W U w k m x v : writing u W U w k m → pw_phase w ≠ Committed_ →
  pending k !! Some x = Some v → pw_phase v ≠ Committed_ → u ≠ Some x → w_lease (pw_intent v) ≠ w_lease (pw_intent w).
Proof.
  intros (Hu & [_ H2 H3 _ _ _ _ _] & _) Hw Hx Hv Hne. destruct u as [u|]; simpl in *.
  - intros Heq. apply Hne. f_equal. by eapply H3.
  - destruct (H2 x v Hx Hv) as [H _]. congruence.
Qed.

(** One step of the writeback and of its lease. *)
Lemma writing_step u W U w w' f k m l : writing u W U w k m → pw_phase w ≠ Committed_ → pw_phase w' ≠ Committed_ →
  same_source w w' → live m !! w_lease (pw_intent w) = Some l → tracks w' (f l) →
  (lm_unacknowledged l = true → lm_unacknowledged (f l) = true) →
  writing u W U w' (set_pending <[u := w']> k) (set_live (alter f (w_lease (pw_intent w))) m).
Proof.
  intros Hwr Hw Hw' (S1 & S2 & S3 & S4 & S5) Hl Ht Hun.
  assert (∀ x v, u ≠ Some x → pending k !! Some x = Some v → pw_phase v ≠ Committed_ →
    w_lease (pw_intent v) ≠ w_lease (pw_intent w)) as Hother by (intros; by eapply writing_other).
  destruct Hwr as (Hu & [H1 H2 H3 H4 H5 H6 H7 H8] & _).
  assert (own_lease u w' = own_lease u w) as Hol by (unfold own_lease; by rewrite S5).
  split; [simpl; apply lookup_insert_eq|]. rewrite Hol. split; [|split; [|done]].
  - split; simpl; try done.
    + intros id a. rewrite lookup_alter. case_decide as Hid.
      * subst. rewrite Hl. intros [= <-]. destruct u as [u|]; [|by left]. right. right. right.
        exists u, w'. rewrite lookup_insert_eq, S5. done.
      * intros Ha. destruct (H1 _ _ Ha) as [?|[?|[?|(x & v & Hx & Hv & Hi)]]]; [auto..|]. right. right. right.
        exists x, v. split; [|done]. rewrite lookup_insert_ne; [done|]. intros ->. congruence.
    + intros x v Hx Hv. apply (pending_insert u w' k) in Hx as [[-> ->]|[Hne Hx]].
      * rewrite S5. split; [done|]. exists (f l). by rewrite lookup_alter_eq, Hl.
      * destruct (H2 x v Hx Hv) as (Hn & a & Ha & Hta). split; [done|]. exists a.
        rewrite lookup_alter_ne; [done|]. apply not_eq_sym. by eapply Hother.
    + intros x1 x2 v1 v2 Hx1 Hx2 Hv1 Hv2 Heq.
      apply (pending_insert u w' k) in Hx1 as [[E1 ->]|[Hn1 Hx1]], Hx2 as [[E2 ->]|[Hn2 Hx2]].
      * congruence.
      * exfalso. rewrite S5 in Heq. by apply (Hother x2 v2).
      * exfalso. rewrite S5 in Heq. by apply (Hother x1 v1).
      * by eapply H3.
    + intros x v Hx. apply (pending_insert u w' k) in Hx as [[-> ->]|[_ Hx]]; [|by apply H6].
      rewrite S1, S2, S3, S4. destruct (H6 x w Hu) as (h & r & ? & ? & ? & ? & ? & ? & ? & Hc). exists h, r.
      split_and!; try done. intros Hh. by destruct Hw; apply Hc.
  - intros _. exists (f l). simpl. rewrite S5. by rewrite lookup_alter_eq, Hl.
Qed.

Lemma writing_commit u W U w w' k m : writing u W U w k m → pw_phase w ≠ Committed_ → pw_phase w' = Committed_ →
  same_source w w' →
  writing u W U w' (set_pending <[u := w']> k) (set_live (delete (w_lease (pw_intent w))) m).
Proof.
  intros Hwr Hw Hw' (S1 & S2 & S3 & S4 & S5).
  assert (∀ x v, u ≠ Some x → pending k !! Some x = Some v → pw_phase v ≠ Committed_ →
    w_lease (pw_intent v) ≠ w_lease (pw_intent w)) as Hother by (intros; by eapply writing_other).
  destruct Hwr as (Hu & [H1 H2 H3 H4 H5 H6 H7 H8] & _).
  assert (own_lease u w' = own_lease u w) as Hol by (unfold own_lease; by rewrite S5).
  split; [simpl; apply lookup_insert_eq|]. rewrite Hol. split; [|split; [done|]].
  - split; simpl; try done.
    + intros id a. rewrite lookup_delete_Some. intros [Hid Ha].
      destruct (H1 _ _ Ha) as [?|[?|[?|(x & v & Hx & Hv & Hi)]]]; [auto..|]. right. right. right.
      exists x, v. split; [|done]. rewrite lookup_insert_ne; [done|]. intros ->. congruence.
    + intros x v Hx Hv. apply (pending_insert u w' k) in Hx as [[-> ->]|[Hne Hx]]; [done|].
      destruct (H2 x v Hx Hv) as (Hn & a & Ha & Hta). split; [done|]. exists a.
      rewrite lookup_delete_ne; [done|]. apply not_eq_sym. by eapply Hother.
    + intros x1 x2 v1 v2 Hx1 Hx2 Hv1 Hv2 Heq.
      apply (pending_insert u w' k) in Hx1 as [[E1 ->]|[Hn1 Hx1]], Hx2 as [[E2 ->]|[Hn2 Hx2]]; try done. by eapply H3.
    + intros x v Hx. apply (pending_insert u w' k) in Hx as [[-> ->]|[_ Hx]]; [|by apply H6].
      rewrite S1, S2, S3, S4. destruct (H6 x w Hu) as (h & r & ? & ? & ? & ? & ? & ? & ? & _). exists h, r.
      by split_and!.
  - intros _ _. simpl. rewrite S5. apply lookup_delete_eq.
Qed.

Lemma selected_wp u W U w (Q : PendingWriteback → Kernel → Mon → Prop) X k m :
  writing u W U w k m → Q w k m → WP (selected u) Q X k m.
Proof. intros (Hu & _) HQ. unfold selected. do 2 wp_step. rewrite Hu. by wp_step. Qed.

(** What a writeback leaves alone of the kernel. *)
Definition frame_of (k : Kernel) : list (use * HeldTask) * bool := (held k, retainedTerminal k).

(** The writeback of [w0], somewhere in its phases. *)
Definition in_phase (u : option use) (W : option N) (U : option use) (w0 : PendingWriteback)
    (hs : list (use * HeldTask) * bool) (P : Phase → Prop) (k : Kernel) (m : Mon) : Prop :=
  ∃ w, same_source w0 w ∧ writing u W U w k m ∧ P (pw_phase w) ∧ frame_of k = hs.

Lemma in_phase_mono u W U w0 hs (P P' : Phase → Prop) k m :
  in_phase u W U w0 hs P k m → (∀ ph, P ph → P' ph) → in_phase u W U w0 hs P' k m.
Proof. intros (w & H1 & H2 & H3 & H4) H. exists w. auto. Qed.

Lemma same_source_trans w1 w2 w3 : same_source w1 w2 → same_source w2 w3 → same_source w1 w3.
Proof. unfold same_source. intuition congruence. Qed.

Definition anywhere (ph : Phase) : Prop := True.

Section phases.
Context (u : option use) (W : option N) (U : option use) (w0 : PendingWriteback)
  (hs : list (use * HeldTask) * bool).
Abbreviation I P := (in_phase u W U w0 hs P).

Lemma in_phase_any P k m : I P k m → I anywhere k m.
Proof. intros H. by eapply in_phase_mono. Qed.

(** A step that enters the phase [ph] when the port answers. *)
Lemma enter_phase w l k m ph f receipt (P : Phase → Prop) : same_source w0 w → writing u W U w k m → pw_phase w ≠ Committed_ →
  ph ≠ Committed_ → live m !! w_lease (pw_intent w) = Some l → tracks (with_phase ph receipt w) (f l) →
  (lm_unacknowledged l = true → lm_unacknowledged (f l) = true) → P ph → frame_of k = hs →
  I P (set_pending <[u := with_phase ph receipt w]> k) (set_live (alter f (w_lease (pw_intent w))) m).
Proof.
  intros Hs Hw Hp Hph Hl Ht Hun HP Hhs. exists (with_phase ph receipt w). split; [done|]. split; [|done]. by eapply writing_step.
Qed.

(** A step that leaves the phase as it is. *)
Lemma stay_phase w l k m f (P : Phase → Prop) : same_source w0 w → writing u W U w k m → pw_phase w ≠ Committed_ →
  live m !! w_lease (pw_intent w) = Some l → tracks w (f l) →
  (lm_unacknowledged l = true → lm_unacknowledged (f l) = true) → P (pw_phase w) → frame_of k = hs →
  I P k (set_live (alter f (w_lease (pw_intent w))) m).
Proof.
  intros Hs Hw Hp Hl Ht Hun HP Hhs. exists w. split; [done|]. split; [|done].
  assert (set_pending <[u := w]> k = k) as <-.
  { destruct Hw as (Hu & _). unfold set_pending. destruct k; simpl in *. by rewrite insert_id. }
  by eapply writing_step.
Qed.

Lemma finalizePhase_wp k m : I anywhere k m →
  WP (finalizePhase u) (λ _, I (λ ph, ph ≠ Acquired)) (I anywhere) k m.
Proof.
  intros HI. pose proof HI as (w & Hs & Hw & _ & Hhs). unfold finalizePhase. wp_step. eapply selected_wp; [done|]. unfold when.
  wp_step; [|wp_step; exists w; bools; done]. bools.
  pose proof Hw as (Hu & _ & Hl & _). destruct Hl as (l & Hl & Ht); [congruence|].
  pose proof Ht as (T1 & T2 & T3 & T4). rewrite E in T4.
  wp_step. apply (wp_finalize _ _ l); [done|done| |done]. wp_step. unfold set_phase. wp_step.
  rewrite (set_pending_alter _ _ _ w) by done. emitted; (apply (enter_phase _ l); try done; by rewrite E).
Qed.

Lemma startPhase_wp k m : I (λ ph, ph ≠ Acquired) k m →
  WP (startPhase u) (λ _, I (λ ph, ph ≠ Acquired ∧ ph ≠ Finalized_)) (I anywhere) k m.
Proof.
  intros HI. pose proof HI as (w & Hs & Hw & Hph & Hhs). unfold startPhase. wp_step. eapply selected_wp; [done|]. unfold when.
  wp_step; [|wp_step; exists w; bools; done]. bools.
  pose proof Hw as (Hu & _ & Hl & _). destruct Hl as (l & Hl & Ht); [congruence|].
  pose proof Ht as (T1 & T2 & T3 & T4). rewrite E in T4.
  wp_step. apply (wp_start _ l); [done|done| |by eapply in_phase_any]. unfold set_phase. wp_step.
  rewrite (set_pending_alter _ _ _ w) by done. apply (enter_phase _ l); try done; [by rewrite E|].
  split_and!; try done. by left.
Qed.

(** A retry of the write meets the lease the first call left. *)
Lemma write_again w k m l (Q : WriteResult → Kernel → Mon → Prop) (X : Kernel → Mon → Prop) :
  frame_of k = hs → same_source w0 w → writing u W U w k m → pw_phase w = Started → live m !! w_lease (pw_intent w) = Some l → tracks w l →
  (∀ m', I anywhere k m' → (∃ l', live m' !! w_lease (pw_intent w) = Some l' ∧ tracks w l') → X k m') →
  (∀ r g h m', r = Accepted g h ∨ r = IdempotentReplay g h → I anywhere k m' →
     I (λ ph, ph = Written) (set_pending <[u := with_phase Written (Some r) w]> k) m' → Q r k m') →
  (∀ g h m', I anywhere k m' → Q (StaleGeneration g h) k m') →
  WP (port (WriteSession (pw_intent w))) Q X k m.
Proof.
  intros Hhs Hs Hw Hst Hl Ht HX HQ HS. pose proof Ht as (T1 & T2 & T3 & T4). rewrite Hst in T4.
  assert (pw_phase w ≠ Committed_) as Hp by (by rewrite Hst).
  assert (tracks w (with_intent (pw_intent w) l)) as Ht'
    by (unfold tracks; rewrite Hst; split_and!; [done|done|by right|done]).
  assert (I anywhere k (set_live (alter (with_intent (pw_intent w)) (w_lease (pw_intent w))) m)) as Hstay
    by (by apply (stay_phase w l)).
  apply (wp_write _ l); [done|..].
  - split; [done|]. split; [done|]. destruct T3; auto.
  - intros r g h Hr. apply (HQ r g h); [done|..].
    + apply (stay_phase w l); try done. unfold tracks. rewrite Hst. split_and!; [done|done|by right|]. right. by eexists.
    + apply (enter_phase _ l); try done. split_and!; [done|done|by right|]. by destruct Hr as [-> | ->].
  - intros g h. by apply HS.
  - apply HX; [done|]. exists (with_intent (pw_intent w) l). split; [by apply live_alter|done].
Qed.

Lemma writePhase_wp k m : I (λ ph, ph ≠ Acquired ∧ ph ≠ Finalized_) k m →
  WP (writePhase deps u) (λ r k m, match r with Some w => is_writeback_failure w = true ∧ I anywhere k m
      | None => I (λ ph, ph = Written ∨ ph = Committed_) k m end)
    (I anywhere) k m.
Proof.
  intros HI. pose proof HI as (w & Hs & Hw & Hph & Hhs). unfold writePhase. wp_step. eapply selected_wp; [done|].
  wp_step; [wp_step; exists w; bools; split_and!; try done; destruct (pw_phase w); naive_solver|]. bools.
  pose proof Hw as (Hu & _ & Hl & _). destruct Hl as (l & Hl & Ht); [congruence|]. wp_step.
  set (Q := λ (r : WriteResult) k m, WP _ _ _ k m).
  assert (∀ r g h m', r = Accepted g h ∨ r = IdempotentReplay g h → I anywhere k m' →
    I (λ ph, ph = Written) (set_pending <[u := with_phase Written (Some r) w]> k) m' → Q r k m') as HQ.
  { intros r g h m' Hr Hany Hwr. unfold Q. destruct Hr as [-> | ->]; (wp_step; [by wp_step|]); wp_step; unfold set_written;
      wp_step; rewrite (set_pending_alter _ _ _ w) by done; wp_step; eapply in_phase_mono; eauto. }
  assert (∀ g h m', I anywhere k m' → Q (StaleGeneration g h) k m') as HS by (intros; unfold Q; by wp_step).
  wp_step. apply (write_again w _ _ l); [done..| |exact HQ|exact HS].
  intros m1 H1 (l1 & Hl1 & Ht1) e. wp_step; [by wp_step|].
  assert (writing u W U w k m1) as Hw1.
  { destruct H1 as (w1 & _ & Hw1 & _ & _). assert (w1 = w) as -> by (destruct Hw1 as (? & _); congruence). done. }
  apply (write_again w _ _ l1); [done..|by intros ? ? _|exact HQ|exact HS].
Qed.

Lemma commitPhase_wp k m : I (λ ph, ph = Written ∨ ph = Committed_) k m →
  WP (commitPhase u) (λ r, if existsb is_writeback_failure r then I anywhere else I (λ ph, ph = Committed_)) (I anywhere) k m.
Proof.
  intros HI. pose proof HI as (w & Hs & Hw & Hph & Hhs). unfold commitPhase. wp_step. eapply selected_wp; [done|].
  wp_step; [wp_step; exists w; bools; split_and!; try done; by destruct Hph|]. bools.
  pose proof Hw as (Hu & _ & Hl & _). destruct Hl as (l & Hl & Ht); [congruence|].
  pose proof Ht as (T1 & T2 & T3 & T4). rewrite E in T4. destruct T4 as [T4 T5].
  wp_step. apply (wp_commit _ _ _ l); [done| |..].
  - left. split; [done|]. eauto.
  - wp_step. apply (stay_phase w l); try done; [by rewrite E|..]; unfold tracks; by rewrite ?E.
  - intros r Hr. assert (I (λ ph, ph = Committed_) (set_pending <[u := with_phase Committed_ (pw_receipt w) w]> k)
      (set_live (delete (w_lease (pw_intent w))) m)) as Hc.
    { exists (with_phase Committed_ (pw_receipt w) w). split; [done|]. split; [|done]. apply writing_commit; try done. by rewrite E. }
    destruct r; [..|done]; unfold set_phase; (wp_step; wp_step; rewrite (set_pending_alter _ _ _ w) by done; wp_step;
      emitted; [wp_step; counted; [by wp_step|]|]; by eapply in_phase_any).
  - by eapply in_phase_any.
Qed.

Lemma phases_wp k m : I anywhere k m →
  WP (phases deps u) (λ r, if existsb is_writeback_failure r then I anywhere else I (λ ph, ph = Committed_)) (I anywhere) k m.
Proof.
  intros HI. unfold phases. wp_step. eapply wp_mono; [by apply finalizePhase_wp|cbv beta|done]. intros _ k1 m1 H1.
  wp_step. eapply wp_mono; [by apply startPhase_wp|cbv beta|done]. intros _ k2 m2 H2.
  wp_step. eapply wp_mono; [by apply writePhase_wp|cbv beta|done]. intros [r|] k3 m3 H3; [|by apply commitPhase_wp].
  wp_step. simpl. destruct H3 as [-> H3]. done.
Qed.
End phases.

Lemma held_unique k m L W U u h h' : owns L W U k m → (u, h) ∈ held k → (u, h') ∈ held k → h = h'.
Proof.
  intros [_ _ _ _ _ _ _ Hn] H1 H2. apply list_elem_of_lookup in H1 as [i Hi], H2 as [j Hj].
  assert (i = j) as ->; [|congruence]. eapply (NoDup_lookup _ _ _ u Hn); by rewrite list_lookup_fmap, ?Hi, ?Hj.
Qed.

(** The update that use [x] reports is the one of its pending writeback. *)
Definition reports (u : option use) (env : Envelope) (update : Update) (run : RunContext) (hs : list (use * HeldTask)) (m : Mon)
    : Prop :=
  ∀ x, u = Some x → ∃ h r, (x, h) ∈ hs ∧ finals m !! x = Some r ∧ session_update r = Some update ∧
    h_envelope h = Some env ∧ h_run h = run ∧ useCompleted h = false.

Lemma reports_pending u env update run L W U k m w x : owns L W U k m → reports u env update run (held k) m →
  u = Some x → pending k !! Some x = Some w →
  pw_update w = update ∧ pw_envelope w = env ∧ pw_run w = run ∧ pw_nextHash w = hash_of (u_artifact update) ∧
  writable_update env update.
Proof.
  intros Ho Hr Hu Hw. destruct (Hr x Hu) as (h & r & Hh & Hf & Hup & He & Hrun & _).
  destruct (o_pending _ _ _ _ _ Ho x w Hw) as (h' & r' & Hh' & Hf' & Hup' & He' & Hrun' & Hn & Hwr & _).
  assert (h' = h) as -> by (by eapply held_unique). assert (r' = r) as -> by congruence. simplify_eq. split_and!; try done; congruence.
Qed.

Lemma writing_new u W U k m id env update run i : owns None W U k m → live m !! id = None →
  (∀ x, u = Some x → pending k !! u = None) → reports u env update run (held k) m → writable_update env update →
  w_lease i = id → w_instance i = e_instance env →
  let w := mkPending update env run (hash_of (u_artifact update)) i Acquired None in
  writing u W U w (set_pending <[u := w]> k) (set_live <[id := mkLM (e_instance env) (e_generationHash env) L_acquired None false]> m).
Proof.
  intros Ho Hid Hnone Hrep Hwr Hi Hp w. pose proof (own_grant _ _ _ _ _ (mkLM (e_instance env) (e_generationHash env) L_acquired None false) Ho Hid)
    as [G1 G2 G3 G4 G5 G6 G7 G8]. destruct Ho as [H1 H2 H3 H4 H5 H6 H7 H8].
  assert (tracks w (mkLM (e_instance env) (e_generationHash env) L_acquired None false)) as Ht
    by (split_and!; try done; by left).
  assert (∀ x v, pending k !! Some x = Some v → pw_phase v ≠ Committed_ → w_lease (pw_intent v) ≠ id) as Hne.
  { intros x v Hx Hv Heq. destruct (H2 x v Hx Hv) as (_ & l & Hl & _). congruence. }
  split; [apply lookup_insert_eq|]. split; [|split; [|done]].
  - split; try done.
    + intros id' l Hl. destruct (G1 id' l Hl) as [[= <-]|[?|[?|(x & v & Hx & Hv & Hxi)]]]; [|auto..|].
      * destruct u as [x|]; simpl; [|by left; rewrite Hi]. right. right. right. exists x, w. by rewrite lookup_insert_eq.
      * right. right. right. exists x, v. split; [|done]. simpl. rewrite lookup_insert_ne; [done|].
        intros ->. specialize (Hnone x eq_refl). congruence.
    + intros x v Hx Hv. apply (pending_insert u w k) in Hx as [[-> ->]|[Hu Hx]].
      * split; [done|]. exists (mkLM (e_instance env) (e_generationHash env) L_acquired None false).
        simpl. rewrite Hi, lookup_insert_eq. done.
      * destruct (G2 x v Hx Hv) as (Hn & l & Hl). split; [|eauto]. destruct u; [done|]. simpl. rewrite Hi. done.
    + intros x1 x2 v1 v2 Hx1 Hx2 Hv1 Hv2 Heq.
      apply (pending_insert u w k) in Hx1 as [[E1 ->]|[Hn1 Hx1]], Hx2 as [[E2 ->]|[Hn2 Hx2]].
      * congruence.
      * destruct (Hne x2 v2 Hx2 Hv2). simpl in Heq. congruence.
      * destruct (Hne x1 v1 Hx1 Hv1). simpl in Heq. congruence.
      * by eapply H3.
    + intros x v Hx. apply (pending_insert u w k) in Hx as [[-> ->]|[_ Hx]]; [|by apply H6].
      destruct (Hrep x eq_refl) as (h & r & Hh & Hf & Hup & He & Hrun & Hc). exists h, r.
      split_and!; try done. congruence.
  - intros _. eexists. split; [simpl; rewrite Hi; apply lookup_insert_eq|done].
Qed.

Lemma releaseUncommitted_wp u W U w0 hs k m : in_phase u W U w0 hs anywhere k m →
  WP (releaseUncommitted deps u) (λ _ k' m', k' = k ∧ owns None W U k m') (λ k' m', k' = k ∧ owns None W U k m') k m.
Proof.
  intros (w & Hs & Hw & _ & Hhs). unfold releaseUncommitted. wp_step. eapply selected_wp; [done|].
  pose proof Hw as (_ & Ho & Hl & Hc). unfold when. destruct u as [x|]; simpl in *; [by wp_step|].
  wp_step.
  - bools. pose proof (own_delete _ _ _ _ _ Ho) as Hd. destruct Hl as (l & Hl & _); [done|].
    wp_step. apply wp_port; [by eexists|]. intros [[]|e] _; [done|]. intros _. by emitted.
  - wp_step. split; [done|]. eapply own_leave; [exact Ho|]. intros l Hlive.
    apply andb_false_iff in E as [E|E]; bools; [|left; by left]. rewrite Hc in Hlive by done. done.
Qed.

(** What a writeback leaves: everything owned, and, if nothing of it failed, a
    lease that is committed. *)
Definition written_back (u : option use) (W : option N) (U : option use) (hs : list (use * HeldTask) * bool)
    (ws : list RuntimeWarning) (k : Kernel) (m : Mon) : Prop :=
  owns None W U k m ∧ frame_of k = hs ∧
  ∀ x w, u = Some x → existsb is_writeback_failure ws = false → pending k !! Some x = Some w → pw_phase w = Committed_.

Definition kept (W : option N) (U : option use) (hs : list (use * HeldTask) * bool) (k : Kernel) (m : Mon) : Prop :=
  owns None W U k m ∧ frame_of k = hs.

Lemma written_back_failed u W U hs ws k m : owns None W U k m → frame_of k = hs → existsb is_writeback_failure ws = true →
  written_back u W U hs ws k m.
Proof. intros H1 H2 H3. split_and!; [done..|]. intros x w _ H. congruence. Qed.

(** The phases, the warning for a failure, and the release at the end. *)
Lemma runPhases_wp u W U w0 k m : in_phase u W U w0 (frame_of k) anywhere k m →
  WP (rfinally
        (catch (phases deps u) (λ _, emit "session.task_update.writeback.failed" ;; mret [failed_writeback_warning]))
        (releaseUncommitted deps u)) (written_back u W U (frame_of k)) (kept W U (frame_of k)) k m.
Proof.
  intros HI. set (hs := frame_of k) in *. wp_step. wp_step.
  eapply wp_mono; [by apply phases_wp|cbv beta..].
  - intros ws k1 m1 H1. assert (in_phase u W U w0 hs anywhere k1 m1) as Hany
      by (destruct (existsb _ ws); [done|by eapply in_phase_any]).
    pose proof Hany as (w & _ & Hw & _ & Hhs).
    eapply wp_mono; [by eapply releaseUncommitted_wp|cbv beta..]; [|by intros ? m2 [-> Ho2]]. intros _ ? m2 [-> Ho2]. split_and!; [done..|]. intros x v -> Hf Hv. rewrite Hf in H1.
    destruct H1 as (w' & _ & Hw' & Hc & _). destruct Hw' as (Hx & _). congruence.
  - intros k1 m1 H1 e. pose proof H1 as (w & _ & Hw & _ & Hhs).
    wp_step. emitted; [wp_step|]; (eapply wp_mono; [by eapply releaseUncommitted_wp|cbv beta..]);
      [intros _ ? m2 [-> Ho2]; by apply written_back_failed
      |first [by intros ? m2 [-> Ho2]|by intros _ ? m2 [-> Ho2]]..].
Qed.

Lemma acquireWriteback_wp env update run u W U k m : owns None W U k m →
  (∀ x, u = Some x → pending k !! u = None) → reports u env update run (held k) m → writable_update env update →
  WP (acquireWriteback deps u env update run (hash_of (u_artifact update)))
    (λ r k' m', frame_of k' = frame_of k ∧ match r with
                | Some w => is_writeback_failure w = true ∧ owns None W U k' m'
                | None => ∃ w0, in_phase u W U w0 (frame_of k) anywhere k' m'
                end) (kept W U (frame_of k)) k m.
Proof.
  intros Ho Hnone Hrep Hwr. unfold acquireWriteback. wp_step. apply wp_port; [done|].
  intros [[id|msg|msg]|e] Hf; [|by wp_step..|done]. wp_step.
  apply wp_key; [intros key|split; [apply own_abandon; auto|done]]. cbv zeta. wp_step. wp_step. wp_step.
  split; [done|]. match goal with |- context [set_pending <[u := ?w]>] => exists w; exists w end.
  split; [done|]. split; [|done]. apply (writing_new _ _ _ _ _ id); try done. by apply Hf.
Qed.

Lemma writeTaskSession_wp env update run u W U k m : owns None W U k m → reports u env update run (held k) m →
  WP (writeTaskSession sha_base64url deps env update run u) (written_back u W U (frame_of k)) (kept W U (frame_of k)) k m.
Proof.
  intros Ho Hrep.
  assert (¬ writable_update env update → ∀ ws, written_back u W U (frame_of k) ws k m) as Hnot.
  { intros Hn ws. split_and!; [done..|]. intros x w Hu _ Hw. destruct Hn. by eapply reports_pending. }
  unfold writeTaskSession. wp_step; [wp_step; apply Hnot; intros ([? [? ?]] & _); congruence..|].
  wp_step; [wp_step; bools; apply Hnot; by intros (_ & ? & _)|]. cbv zeta. fold (hash_of (u_artifact update)).
  wp_step; [wp_step; bools; apply Hnot; by intros (_ & _ & ?)|]. bools.
  wp_step; [by wp_step|]. do 2 wp_step.
  assert (writable_update env update) as Hwr by (split_and!; [eauto|done|done]). wp_step.
  destruct (match u with Some _ => pending k !! u | None => None end) as [w|] eqn:Ew.
  - destruct u as [x|]; [|done]. destruct (reports_pending _ _ _ _ _ _ _ _ _ w x Ho Hrep eq_refl Ew) as (H1 & H2 & H3 & H4 & _).
    assert (same_intent w (hash_of (u_artifact update)) update env run = true) as ->.
    { unfold same_intent. rewrite H4, H1, H2, H3, !js_eqb_refl, !Z.eqb_refl, bool_decide_eq_true_2 by done. done. }
    wp_step. apply (runPhases_wp _ _ _ w). exists w. split; [done|]. split; [|done]. split; [done|]. split; [done|].
    split; [|done]. intros Hph. by apply (o_tracked _ _ _ _ _ Ho x).
  - assert (∀ x, u = Some x → pending k !! u = None) as Hnone by (by intros x ->).
    eapply wp_mono; [by apply acquireWriteback_wp|cbv beta|done]. intros [w|] k1 m1 [Hh H].
    + wp_step. destruct H as [H1 H2]. apply written_back_failed; [done|done|]. simpl. by rewrite H1.
    + destruct H as (w0 & H). rewrite <-Hh in H |- *. by eapply runPhases_wp.
Qed.

Lemma maybeWriteback_wp r env run u W U k m : owns None W U k m →
  (∀ x, u = Some x → finals m !! x = Some r ∧ ∃ h, (x, h) ∈ held k ∧ h_envelope h = env ∧ h_run h = run ∧
     useCompleted h = false) →
  WP (maybeWritebackTaskSessionUpdate sha_base64url deps r env run u)
    (λ r', written_back u W U (frame_of k) (task_warnings r')) (kept W U (frame_of k)) k m.
Proof.
  intros Ho Hu. unfold maybeWritebackTaskSessionUpdate.
  assert (session_update r = None ∨ env = None → ∀ ws, written_back u W U (frame_of k) ws k m) as Hnone.
  { intros Hn ws. split_and!; [done..|]. intros x w -> _ Hw. destruct (Hu x eq_refl) as (Hf & h & Hh & He & Hr & _).
    destruct (o_pending _ _ _ _ _ Ho x w Hw) as (h' & r' & Hh' & Hf' & Hup & He' & _).
    assert (h' = h) as -> by (by eapply held_unique). destruct Hn; congruence. }
  destruct (session_update r) as [update|] eqn:Eu; [|wp_step; auto]. destruct env as [env|]; [|wp_step; auto].
  wp_step. eapply wp_mono; [apply writeTaskSession_wp; [done|]|cbv beta|done].
  - intros x Hx. destruct (Hu x Hx) as (Hf & h & Hh & He & Hr & Hc). exists h, r. auto 10.
  - intros ws k1 m1 (H1 & H2 & H3). wp_step. split_and!; [done..|]. intros x w Hx Hf Hw. apply (H3 x w Hx); [|done].
    case_bool_decide; [by subst|]. destruct r; simpl in Hf; rewrite existsb_app in Hf; by apply orb_false_iff in Hf as [_ Hf].
Qed.

(** *** Held tasks *)

Lemma lookup_held_elem u hs h : lookup_held u hs = Some h → (u, h) ∈ hs.
Proof.
  induction hs as [|[u' h'] hs IH]; simpl; [done|]. destruct (u' =? u)%N eqn:E; [|intros; apply list_elem_of_further; auto].
  apply N.eqb_eq in E as ->. intros [= ->]. apply list_elem_of_here.
Qed.

Lemma lookup_held_None u hs : lookup_held u hs = None ↔ u ∉ hs.*1.
Proof.
  induction hs as [|[u' h'] hs IH]; simpl; [split; [intros _; apply not_elem_of_nil|done]|].
  rewrite not_elem_of_cons, <-IH. destruct (N.eqb_spec u' u); naive_solver.
Qed.

Lemma keys_complete u hs : (complete_held u hs).*1 = hs.*1.
Proof. unfold complete_held. induction hs as [|[u' h] hs IH]; simpl; [done|]. f_equal. exact IH. Qed.

Lemma keys_remove u hs : (remove_held u hs).*1 = filter (λ x, x ≠ u) hs.*1.
Proof.
  unfold remove_held. induction hs as [|[u' h] hs IH]; [done|]. rewrite fmap_cons.
  destruct (decide (u' = u)); [by rewrite !filter_cons_False by naive_solver|].
  rewrite !filter_cons_True by done. rewrite fmap_cons. by f_equal.
Qed.

Lemma elem_complete u hs x h : (x, h) ∈ hs → ∃ h', (x, h') ∈ complete_held u hs ∧ h_result h' = h_result h ∧
  h_envelope h' = h_envelope h ∧ h_run h' = h_run h ∧ h_workspace h' = h_workspace h ∧ (x ≠ u → h' = h).
Proof.
  intros H. exists (if (x =? u)%N then mkHeld (h_result h) (h_envelope h) (h_run h) (h_workspace h) true else h). split.
  - apply list_elem_of_fmap. by exists (x, h).
  - destruct (N.eqb_spec x u); done.
Qed.

Lemma elem_complete_inv u hs x h' : (x, h') ∈ complete_held u hs → ∃ h, (x, h) ∈ hs.
Proof. intros H. apply list_elem_of_fmap in H as ([x' h] & [= -> _] & H). eauto. Qed.

Lemma elem_remove u hs x h : (x, h) ∈ remove_held u hs ↔ x ≠ u ∧ (x, h) ∈ hs.
Proof. unfold remove_held. by rewrite list_elem_of_filter. Qed.

Lemma own_final k m u r : owns None None None k m → (∀ y, finals m !! u = Some y → r = y) →
  owns None None None k (mkMon (live m) (spaces m) (uses m) (begun m) (secrets m) (<[u := r]> (finals m)) (interrupted m)).
Proof.
  intros [H1 H2 H3 H4 H5 H6 H7 H8] Hr. split; try done. intros x w Hw. destruct (H6 x w Hw) as (h & y & Hh & Hf & Hrest).
  exists h, y. split; [done|]. split; [|done]. simpl. rewrite lookup_insert. case_decide as Hx; [|done]. subst. by rewrite (Hr y).
Qed.

Lemma own_retire k m u : owns None None None k m → (∀ w, pending k !! Some u = Some w → pw_phase w = Committed_) →
  owns None None None (set_held (complete_held u) k) (set_uses (λ s, s ∖ {[u]}) m).
Proof.
  intros [H1 H2 H3 H4 H5 H6 H7 H8] Hp. split; simpl; try done.
  - intros x Hx. destruct (H4 x Hx) as [|(y & h & Hy & Hs)]; [done|]. right.
    destruct (elem_complete u _ _ _ Hy) as (h' & Hh' & _ & _ & _ & Hw & _). exists y, h'. by rewrite Hw.
  - intros x [Hx Hne]%elem_of_difference. destruct (H5 x Hx) as [|(h & Hh & Hc)]; [done|]. right.
    destruct (elem_complete u _ _ _ Hh) as (h' & Hh' & _ & _ & _ & _ & Heq). exists h'. rewrite Heq in Hh' |- *; set_solver.
  - intros x w Hw. destruct (H6 x w Hw) as (h & r & Hh & Hf & Hu & He & Hr & Hn & Hwr & Hc).
    destruct (elem_complete u _ _ _ Hh) as (h' & Hh' & _ & E1 & E2 & _ & E3). exists h', r. rewrite E1, E2.
    split_and!; try done. intros Hh''. destruct (decide (x = u)) as [->|Hne]; [by apply Hp|]. rewrite E3 in Hh'' by done. auto.
  - intros x h Hx. destruct (elem_complete_inv _ _ _ _ Hx). eauto.
  - by rewrite keys_complete.
Qed.

Lemma own_remove k m u : owns None None None k m → u ∉ uses m →
  (∀ h x, (u, h) ∈ held k → space (h_workspace h) = Some x → x ∉ spaces m) →
  (∀ w, pending k !! Some u = Some w → pw_phase w = Committed_) →
  owns None None None (set_pending (delete (Some u)) (set_held (remove_held u) k)) m.
Proof.
  intros [H1 H2 H3 H4 H5 H6 H7 H8] Hu Hs Hp.
  assert (∀ x w, pending (set_pending (delete (Some u)) (set_held (remove_held u) k)) !! Some x = Some w →
    x ≠ u ∧ pending k !! Some x = Some w) as Hdel.
  { intros x w. simpl. rewrite lookup_delete_Some. naive_solver. }
  split; simpl.
  - intros id l Hl. destruct (H1 id l Hl) as [?|[?|[?|(x & w & Hx & Hw & Hi)]]]; [auto..|]. right. right. right.
    exists x, w. split; [|done]. rewrite lookup_delete_ne; [done|]. intros [= ->]. by rewrite (Hp w) in Hw.
  - intros x w [_ Hx]%Hdel. exact (H2 x w Hx).
  - intros x1 x2 w1 w2 [_ Hx1]%Hdel [_ Hx2]%Hdel. exact (H3 x1 x2 w1 w2 Hx1 Hx2).
  - intros x Hx. destruct (H4 x Hx) as [|(y & h & Hy & Hw)]; [done|]. right. exists y, h. split; [|done].
    apply elem_remove. split; [|done]. intros ->. by apply (Hs h x).
  - intros x Hx. destruct (H5 x Hx) as [|(h & Hh & Hc)]; [done|]. right. exists h. split; [|done].
    apply elem_remove. split; [|done]. congruence.
  - intros x w [Hne Hx]%Hdel. destruct (H6 x w Hx) as (h & r & Hh & Hrest). exists h, r. split; [|done]. by apply elem_remove.
  - intros x h Hx. apply (elem_remove u (held k)) in Hx as [_ Hx]. eauto.
  - rewrite keys_remove. by apply NoDup_filter.
Qed.

(** What an attempt to settle the use [u] leaves when it fails: the task is
    still held, with its result. *)
Definition retained (u : use) (h : HeldTask) (ks : list use) (b : bool) (k : Kernel) (m : Mon) : Prop :=
  owns None None None k m ∧ (held k).*1 = ks ∧ retainedTerminal k = b ∧ ∃ h', (u, h') ∈ held k ∧ h_result h' = h_result h.

Definition settled (u : use) (ks : list use) (b : bool) (k : Kernel) (m : Mon) : Prop :=
  owns None None None k m ∧ (held k).*1 = filter (λ x, x ≠ u) ks ∧ retainedTerminal k = b.

Lemma kept_retained u h k0 k m : (u, h) ∈ held k0 → kept None None (frame_of k0) k m → retained u h (held k0).*1 (retainedTerminal k0) k m.
Proof. intros Hh [Ho [= Hhs Hb]]. split; [done|]. rewrite Hhs. split; [done|]. eauto. Qed.

(** The last steps: the workspace goes, then the entry. *)
Lemma removeHeld_wp u h k m (r : TaskResult) ks : owns None None None k m → u ∉ uses m → (held k).*1 = ks →
  (∃ h', (u, h') ∈ held k ∧ h_result h' = h_result h ∧ h_workspace h' = h_workspace h) →
  (∀ w, pending k !! Some u = Some w → pw_phase w = Committed_) →
  WP (dispose (h_workspace h) ;;
      k ← kernel;
      match lookup_held u (held k) with
      | None => error_ "task_session_finalization_changed"
      | Some _ => modify (set_held (remove_held u)) ;; forget_pending u ;; mret r
      end) (λ _, settled u ks (retainedTerminal k)) (retained u h ks (retainedTerminal k)) k m.
Proof.
  intros Ho Hu Hks (h' & Hh' & Hr & Hw) Hp. wp_step. unfold dispose, when.
  pose proof (own_dispose _ _ _ _ _ (h_workspace h) Ho (or_introl eq_refl)) as Hd.
  assert (retained u h ks (retainedTerminal k) k (disposed (h_workspace h) m)) as HX by (split_and!; eauto).
  assert (∀ x, space (h_workspace h) = Some x → x ∉ spaces (disposed (h_workspace h) m)) as Hsp.
  { unfold space, disposed. destruct (disposable _); [|done]. intros x [= <-]. simpl. set_solver. }
  assert (u ∉ uses (disposed (h_workspace h) m)) as Hu' by (unfold disposed; by destruct (disposable _)).
  assert (WP (k ← kernel; match lookup_held u (held k) with
      | None => error_ "task_session_finalization_changed"
      | Some _ => modify (set_held (remove_held u)) ;; forget_pending u ;; mret r
      end) (λ _, settled u ks (retainedTerminal k)) (retained u h ks (retainedTerminal k)) k (disposed (h_workspace h) m)) as Hgo.
  { do 2 wp_step. destruct (lookup_held u (held k)) eqn:El.
    - do 2 wp_step. unfold forget_pending. do 2 wp_step. wp_step. split; [|simpl; split; [by rewrite keys_remove, Hks|done]].
      apply own_remove; try done. intros h'' x Hh'' Hx.
      assert (h'' = h') as -> by (by eapply held_unique). rewrite Hw in Hx. by apply Hsp.
    - apply lookup_held_None in El. destruct El. apply list_elem_of_fmap. by exists (u, h'). }
  unfold disposed in *. destruct (disposable (h_workspace h)).
  - apply wp_port; [done|]. by intros [[]|e] _.
  - by wp_step.
Qed.

Lemma finalizeHeld_wp u h k m : owns None None None k m → (u, h) ∈ held k →
  WP (finalizeHeld sha_base64url deps u h) (λ _, settled u (held k).*1 (retainedTerminal k)) (retained u h (held k).*1 (retainedTerminal k)) k m.
Proof.
  intros Ho Hh. assert (retained u h (held k).*1 (retainedTerminal k) k m) as HX by (split_and!; eauto). unfold finalizeHeld. wp_step.
  wp_step; [wp_step|].
  { apply removeHeld_wp; [done| |done|by exists h|].
    - intros Hu. destruct (o_uses _ _ _ _ _ Ho u Hu) as [|(h' & Hh' & Hc)]; [done|].
      assert (h' = h) as -> by (by eapply held_unique). congruence.
    - intros w Hw. destruct (o_pending _ _ _ _ _ Ho u w Hw) as (h' & _ & Hh' & _ & _ & _ & _ & _ & _ & Hc).
      assert (h' = h) as -> by (by eapply held_unique). auto. }
  wp_step. apply wp_port; [done|]. intros [r|e] Hf; [|done]. simpl in Hf.
  pose proof (own_final _ _ u r Ho (λ y, Hf r y eq_refl)) as Ho1. simpl. set (m1 := mkMon _ _ _ _ _ _ _) in *.
  wp_step. eapply wp_mono; [apply (maybeWriteback_wp r (h_envelope h) (h_run h) (Some u) None None k m1 Ho1)|cbv beta..].
  { intros x [= <-]. split; [apply lookup_insert_eq|]. eauto. }
  2: { intros k' m' Hk. by apply kept_retained. }
  intros r' k2 m2 (Ho2 & Hfr & Hc). pose proof Hfr as [= Hh2 Hb2]. assert (retained u h (held k).*1 (retainedTerminal k) k2 m2) as HX2 by (by apply kept_retained; [|split]).
  wp_step; [by wp_step|]. assert (∀ w, pending k2 !! Some u = Some w → pw_phase w = Committed_) as Hcom by (intros w; by apply Hc).
  wp_step. apply wp_port; [done|]. intros [[]|e] _; [|done]. wp_step. wp_step. wp_step. simpl.
  pose proof (own_retire _ _ u Ho2 Hcom) as Ho3. rewrite <-Hb2.
  apply (removeHeld_wp _ _ (set_held (complete_held u) k2)); [done|simpl; set_solver|simpl; by rewrite keys_complete, Hh2|..].
  - simpl. rewrite Hh2. destruct (elem_complete u _ _ _ Hh) as (h' & Hh' & E1 & _ & _ & E2 & _). eauto.
  - done.
Qed.

(** Settling a held task never throws: it is settled, or its result is given
    back with a warning and stays held. *)
Definition attempted (u : use) (h : HeldTask) (ks : list use) (b : bool) (r : TaskResult) (k : Kernel) (m : Mon)
    : Prop :=
  settled u ks b k m ∨ retained u h ks b k m ∧ r = add_warnings (h_result h) [pending_warning].

Lemma settle_held_wp u h k m : owns None None None k m → lookup_held u (held k) = Some h →
  WP (settleTaskSession sha_base64url deps u) (attempted u h (held k).*1 (retainedTerminal k)) (λ _ _, False) k m.
Proof.
  intros Ho Hl. unfold settleTaskSession. do 2 wp_step. rewrite Hl. wp_step.
  eapply wp_mono; [apply finalizeHeld_wp; [done|by apply lookup_held_elem]|cbv beta..].
  - intros r k' m' H. by left.
  - intros k' m' H e. wp_step. by right.
Qed.

Lemma attempted_owns u h ks b r k m : attempted u h ks b r k m →
  owns None None None k m ∧ (held k).*1 ⊆ ks ∧ retainedTerminal k = b.
Proof.
  intros [(Ho & Hk & Hb)|[(Ho & Hk & Hb & _) _]]; (split; [done|]; split; [|done]); rewrite Hk; [|done].
  intros x. rewrite list_elem_of_filter. by intros [_ ?].
Qed.

Lemma retry_wp us k m : owns None None None k m →
  WP (retryPending sha_base64url deps us)
    (λ _ k' m', owns None None None k' m' ∧ (held k').*1 ⊆ (held k).*1 ∧ ∀ u, u ∈ us → u ∉ (held k').*1)
    (owns None None None) k m.
Proof.
  revert k m. induction us as [|u us IH]; intros k m Ho; simpl.
  - wp_step. split; [done|]. split; [done|]. intros u Hu. by apply not_elem_of_nil in Hu.
  - wp_step. destruct (lookup_held u (held k)) as [h|] eqn:El.
    + eapply wp_mono; [by apply settle_held_wp|cbv beta|done]. intros r k1 m1 H1. destruct (attempted_owns _ _ _ _ _ _ _ H1) as (Ho1 & Hsub & _).
      do 2 wp_step. destruct (lookup_held u (held k1)) eqn:E1; [by wp_step|]. apply lookup_held_None in E1.
      eapply wp_mono; [by apply IH|cbv beta|done]. intros _ k2 m2 (Ho2 & Hs2 & Hn). split; [done|]. split; [set_solver|].
      intros x [->|Hx]%elem_of_cons; [set_solver|auto].
    + unfold settleTaskSession. do 2 wp_step. rewrite El. by wp_step.
Qed.

(** *** Running a task *)

Lemma own_hold k m x r env run w : owns None (space w) (Some x) k m → x ∉ (held k).*1 → x ∈ begun m →
  owns None None None (set_held (add_held x (mkHeld r env run w false)) k) m.
Proof.
  intros [H1 H2 H3 H4 H5 H6 H7 H8] Hx Hb. pose proof Hx as Hl. apply lookup_held_None in Hl.
  assert (add_held x (mkHeld r env run w false) (held k) = held k ++ [(x, mkHeld r env run w false)]) as Heq
    by (unfold add_held; by rewrite Hl).
  assert (∀ y h, (y, h) ∈ held k → (y, h) ∈ held k ++ [(x, mkHeld r env run w false)]) as Hin
    by (intros; apply elem_of_app; by left).
  assert ((x, mkHeld r env run w false) ∈ held k ++ [(x, mkHeld r env run w false)]) as Hme
    by (apply elem_of_app; right; apply list_elem_of_singleton; done).
  split; simpl; rewrite ?Heq; try done.
  - intros y Hy. right. destruct (H4 y Hy) as [Hw|(u & h & Hu & Hw)]; eauto 10.
  - intros u Hu. right. destruct (H5 u Hu) as [[= <-]|(h & Hh & Hc)]; eauto 10.
  - intros u v Hv. destruct (H6 u v Hv) as (h & y & Hh & Hrest). exists h, y. auto.
  - intros u h [Hu|Hu]%elem_of_app; [eauto|]. apply list_elem_of_singleton in Hu as [= -> ->]. done.
  - rewrite fmap_app. apply NoDup_app. split; [done|]. split; [|apply NoDup_singleton].
    intros y Hy ->%list_elem_of_singleton. done.
Qed.

Lemma lookup_add_held x h hs : x ∉ hs.*1 → lookup_held x (add_held x h hs) = Some h.
Proof.
  intros Hx. pose proof Hx as Hl. apply lookup_held_None in Hl. unfold add_held. rewrite Hl. clear Hl.
  induction hs as [|[y h'] hs IH]; simpl; [by rewrite N.eqb_refl|]. apply not_elem_of_cons in Hx as [Hne Hx].
  destruct (N.eqb_spec y x); [by subst|]. auto.
Qed.

(** What a task leaves in its workspace: everything to its held entry, or the
    workspace and the use to the call. *)
Definition finishing (w : Workspace) (u : option use) (k : Kernel) (m : Mon) : Prop :=
  if retainedTerminal k then owns None None None k m else owns None (space w) u k m.

Lemma runInWorkspace_wp session env t run u w k m : owns None (space w) u k m → retainedTerminal k = false →
  (∀ a, session = Some a → bytes a ∈ secrets m) → (∀ x, u = Some x → (x ∉ (held k).*1) ∧ x ∈ begun m) →
  WP (runInWorkspace sha_base64url deps session env t run u w) (λ _, finishing w u) (finishing w u) k m.
Proof.
  intros Ho Hk Hsec Hu. assert (finishing w u k m) as HX by (unfold finishing; by rewrite Hk). unfold runInWorkspace.
  wp_step. apply wp_port; [destruct session; simpl; auto|]. intros [r|e] _; [|done]. wp_step. emitted. wp_step. counted.
  assert (WP (maybeWritebackTaskSessionUpdate sha_base64url deps r env run None) (λ _, finishing w u) (finishing w u) k m) as Hgo.
  { eapply wp_mono; [apply (maybeWriteback_wp r env run None (space w) u k m Ho); done|..]; cbv beta.
    - intros r' k' m' (Ho' & [= _ Hb] & _). unfold finishing. by rewrite Hb, Hk.
    - intros k' m' (Ho' & [= _ Hb]). unfold finishing. by rewrite Hb, Hk. }
  destruct u as [x|]; [|done]. destruct (Hu x eq_refl) as [Hx Hb]. wp_step; [|done]. do 2 wp_step. do 2 wp_step.
  set (h := mkHeld r env run w false). set (k1 := set_held _ _).
  assert (owns None None None k1 m) as Ho1 by (by apply own_hold; [apply own_retained|..]).
  eapply wp_mono; [apply (settle_held_wp x h k1 m Ho1); by apply lookup_add_held|cbv beta|done].
  intros r' k' m' Ha. destruct (attempted_owns _ _ _ _ _ _ _ Ha) as (Ho' & _ & Hb'). unfold finishing. by rewrite Hb'.
Qed.

Lemma runTaskWithSession_wp session env t run k m : owns None None None k m →
  WP (runTaskWithSession sha_base64url deps session env t run) (λ _, owns None None None) (owns None None None) k m.
Proof.
  intros Ho. unfold runTaskWithSession. wp_step.
  set (m1 := match session with Some a => mkMon (live m) (spaces m) (uses m) (begun m) (bytes a :: secrets m) (finals m) (interrupted m) | None => m end).
  assert (owns None None None k m1) as Ho1 by (destruct session; [by apply own_secret|done]).
  set (rest := λ (_ : unit) k m, WP _ _ _ k m).
  assert (rest tt k m1) as Hrest; [|destruct session; [apply wp_port; [done|]; by intros [[]|e] _|by wp_step]].
  assert (∀ a, session = Some a → bytes a ∈ secrets m1) as Hsec by (intros a ->; simpl; apply list_elem_of_here).
  unfold rest. clear rest. wp_step. apply begin_wp; [done|done|]. intros u m2 Hnew Ho2 Hs2 _ Hb2. do 2 wp_step.
  assert (∀ x, u = Some x → (x ∉ (held k).*1) ∧ x ∈ begun m2) as Hu.
  { intros x Hx. split; [|by apply Hb2]. intros Hin. apply list_elem_of_fmap in Hin as ([y h] & -> & Hin).
    apply (Hnew y Hx). by apply (o_begun _ _ _ _ _ Ho1 y h). }
  apply (own_retained None None u false) in Ho2. set (k1 := set_retained false k) in *.
  set (done_with := λ (k : Kernel) (m : Mon), if retainedTerminal k then owns None None None k m else owns None None u k m).
  wp_step. apply (wp_mono _ _ _ _ (λ _, done_with) _ done_with).
  - wp_step. apply create_workspace_wp; [|done]. intros w. pose proof (own_open _ _ _ _ w Ho2) as Ho3.
    assert (∀ k' m', finishing w u k' m' →
      WP (unless_retained (dispose w)) (λ _, done_with) done_with k' m') as Hdispose.
    { intros k' m' Hf. unfold unless_retained, when, finishing, done_with in *. do 2 wp_step.
      destruct (retainedTerminal k') eqn:Er; simpl; [wp_step; by rewrite Er|].
      apply (dispose_wp (λ k m, if retainedTerminal k then owns None None None k m else owns None None u k m)).
      rewrite Er. eapply own_dispose; eauto. }
    wp_step. eapply wp_mono; [apply (runInWorkspace_wp session env t run u w k1); [done|done|..]|intros ?; exact Hdispose|exact Hdispose].
    + intros a Ha. unfold opened. destruct (disposable w); simpl; rewrite Hs2; auto.
    + intros x Hx. unfold opened. destruct (disposable w); simpl; auto.
  - intros _ k' m' Hd. unfold unless_retained, when, done_with in *. do 2 wp_step.
    destruct (retainedTerminal k'); simpl; [by wp_step|by apply complete_wp].
  - intros k' m' Hd. unfold unless_retained, when, done_with in *. do 2 wp_step.
    destruct (retainedTerminal k'); simpl; [by wp_step|by apply complete_wp].
Qed.

(** Every operation of the runtime starts and ends with everything owned. *)
Abbreviation clean := (owns None None None).

Lemma runTask_wp p t run k m : clean k m → WP (runTask sha_base64url deps p t run) (λ _, clean) clean k m.
Proof.
  intros Ho. unfold runTask, requireSessionStore, requireSessionDriver, read_session. wp_step; [wp_step; emitted; by wp_step|].
  assert (∀ s e, WP (runTaskWithSession sha_base64url deps s e t run) (λ _, clean) clean k m) as Hgo
    by (intros; by apply runTaskWithSession_wp).
  wp_step; [done|..]; (wp_step; wp_step; [wp_step|by wp_step]; wp_step; wp_step; [wp_step|by wp_step]; wp_step; emitted;
    wp_step; apply wp_unwatched; [done| |done]; intros env; wp_step; emitted;
    destruct env as [env|]; [|wp_step; emitted; by wp_step]); cbv zeta; [|apply Hgo].
  wp_step. apply wp_unwatched; [done| |done]. intros [ws|f]; [apply Hgo|]. wp_step. emitted. by wp_step.
Qed.

Lemma afterRefresh_wp r missing t run k m : clean k m →
  WP (afterRefresh sha_base64url deps r missing t run) (λ _, clean) clean k m.
Proof.
  intros Ho. assert (∀ s, WP (x ← run_with sha_base64url deps s t run; mret (RunCompleted r x)) (λ _, clean) clean k m) as Hgo.
  { intros s. wp_step. eapply wp_mono; [by apply runTaskWithSession_wp|intros; by wp_step|done]. }
  unfold afterRefresh. repeat (wp_step; try (by wp_step); try apply Hgo).
Qed.

Lemma refreshThenRunTask_wp p t run k m : clean k m →
  WP (refreshThenRunTask sha_base64url deps p t run) (λ _, clean) clean k m.
Proof.
  intros Ho. unfold refreshThenRunTask. wp_step; [wp_step; emitted; by wp_step|]. wp_step.
  eapply wp_mono; [by apply refreshSession_wp|cbv beta|done]. intros refresh k1 m1 Ho1.
  assert (∀ s e k m, clean k m → WP (runTaskWithSession sha_base64url deps s e t run) (λ _, clean) clean k m) as Hgo
    by (intros; by apply runTaskWithSession_wp).
  pose proof (afterRefresh_wp refresh "Provider session is missing after refresh." t run k1 m1 Ho1) as Hafter.
  destruct (plan deps), refresh as [s wb ws|reason msg ws|[] [s|] ws]; try exact Hafter; wp_step;
    (eapply wp_mono; [by apply Hgo|cbv beta|done]); intros r k2 m2 Ho2; try (by wp_step).
  - wp_step. apply (wp_mono _ _ _ _ (λ _, clean) _ clean); [|intros; by wp_step|done].
    destruct (task_failure r); [|by wp_step]. wp_step; [by apply Hgo|by wp_step].
  - wp_step. apply (wp_mono _ _ _ _ (λ _, clean) _ clean); [|intros; by wp_step|done].
    destruct (task_failure r); [|by wp_step]. wp_step; [by apply Hgo|by wp_step].
  - unfold guardedRepair. wp_step; [|by wp_step]. wp_step; [|by wp_step]. wp_step. emitted. wp_step.
    eapply wp_mono; [by apply refreshSession_wp|cbv beta|done]. intros guarded k3 m3 Ho3. by apply afterRefresh_wp.
Qed.

Lemma healthCheck_wp p k m : clean k m → WP (healthCheck deps p) (λ _, clean) clean k m.
Proof.
  intros Ho. unfold healthCheck, requireSessionStore, requireSessionDriver, read_session. wp_step; [by wp_step|..];
    (wp_step; wp_step; [wp_step|by wp_step]; wp_step; wp_step; [wp_step|by wp_step]; wp_step; apply wp_unwatched; [done| |done];
     intros [env|]; [|by wp_step]; wp_step; apply wp_unwatched; [done| |done]; intros [ws|f]; by wp_step).
Qed.

(** ** A runtime in service *)

Inductive request : Set :=
| RefreshSession (p : jsstring) (run : RunContext) (forceRefresh : bool)
| RunTask (p : jsstring) (t : ProviderTask) (run : RunContext)
| RefreshThenRunTask (p : jsstring) (t : ProviderTask) (run : RunContext)
| RetryPendingTaskFinalizations
| Health (p : jsstring).

(** One request; what it returns or throws goes to its caller. *)
Definition handle (q : request) : Rt unit :=
  match q with
  | RefreshSession p run force => refreshSession sha_base64url deps p run force ;; mret tt
  | RunTask p t run => runTask sha_base64url deps p t run ;; mret tt
  | RefreshThenRunTask p t run => refreshThenRunTask sha_base64url deps p t run ;; mret tt
  | RetryPendingTaskFinalizations => retryPendingTaskFinalizations sha_base64url deps
  | Health p => healthCheck deps p ;; mret tt
  end.

Fixpoint service (qs : list request) (k : Kernel) : prog Kernel :=
  match qs with
  | [] => Ret k
  | q :: qs => prog_bind (handle q k) (λ x, service qs x.1)
  end.

Definition new_kernel : Kernel := mkKernel [] ∅ false false.
Definition idle : Mon := mkMon ∅ ∅ ∅ ∅ [] ∅ false.

Lemma clean_new : clean new_kernel idle.
Proof. split; simpl; try done; try set_solver. constructor. Qed.

Lemma retryPendingTaskFinalizations_wp k m : clean k m →
  WP (retryPendingTaskFinalizations sha_base64url deps) (λ _ k' m', clean k' m' ∧ held k' = []) clean k m.
Proof.
  intros Ho. unfold retryPendingTaskFinalizations. do 2 wp_step. eapply wp_mono; [by apply retry_wp|cbv beta|done].
  intros _ k' m' (Ho' & Hsub & Hn). split; [done|]. apply (fmap_nil_inv fst). apply elem_of_nil_inv. intros x Hx. by apply (Hn x); [apply Hsub|].
Qed.

Lemma handle_wp q k m : clean k m → WP (handle q) (λ _, clean) clean k m.
Proof.
  intros Ho. destruct q; simpl; try wp_step.
  - eapply wp_mono; [by apply refreshSession_wp|intros; by wp_step|done].
  - eapply wp_mono; [by apply runTask_wp|intros; by wp_step|done].
  - eapply wp_mono; [by apply refreshThenRunTask_wp|intros; by wp_step|done].
  - eapply wp_mono; [by apply retryPendingTaskFinalizations_wp|by intros ? ? ? [? _]|done].
  - eapply wp_mono; [by apply healthCheck_wp|intros; by wp_step|done].
Qed.

Lemma service_wp qs k m : clean k m → pwp advance permitted fair (service qs k) clean m.
Proof.
  revert k m. induction qs as [|q qs IH]; intros k m Ho; simpl; [done|]. apply pwp_bind.
  eapply pwp_mono; [by apply handle_wp|]. intros [k' [[]|e]] m'; simpl; apply IH.
Qed.

(** What interrupted the runtime. *)
Definition interrupting (tr : list event) : Prop :=
  (∃ e, Ev (Emit "lease.acquire.completed") (Throw e) ∈ tr) ∨ (∃ p r a e, Ev (IdempotencyKey p r a) (Throw e) ∈ tr).

Lemma interrupting_cons e tr : interrupting tr → interrupting (e :: tr).
Proof. intros [(x & H)|(p & r & a & x & H)]; [left; exists x|right; exists p, r, a, x]; by right. Qed.

Lemma advance_interrupted m c r : interrupted (advance m c r) = true → interrupted m = true ∨ interrupting [Ev c r].
Proof.
  destruct c; simpl; try (by left); try (repeat case_match; by left).
  - destruct r as [|e]; [by left|]. destruct (String.eqb_spec name "lease.acquire.completed") as [->|_]; [|by left].
    intros _. right. left. exists e. left.
  - destruct r as [|e]; [by left|]. intros _. right. right. eexists _, _, _, e. left.
Qed.

Lemma watch_interrupted tr m : interrupted (watch advance m tr) = true → interrupted m = true ∨ interrupting tr.
Proof.
  revert m. induction tr as [|[c r] tr IH]; intros m; [by left|]. simpl. intros [H|H]%IH; [|right; by apply interrupting_cons].
  apply advance_interrupted in H as [?|H]; [by left|right].
  destruct H as [(x & H%list_elem_of_singleton)|(p & q & a & x & H%list_elem_of_singleton)]; rewrite <- H;
    [left; exists x; left|right; exists p, q, a, x; left].
Qed.

(** C1: The runtime keeps the lease protocol, and leaks nothing but in the cases
    named here. For every sequence of requests and all answers and exceptions of
    the ports, observability and key maker included, provided that the
    identities they hand out are new and that the finalization of a task always
    gives the same result (the clock is not among the calls and is taken not to
    throw): every call is permitted: a lease is finalized once,
    with the hash it was restored from, then started, then written under with
    one unchanging request, then committed with the hash that write returned and
    its key, or, when nothing changed, with the restored hash; it is released
    only while it is live; an agent never runs on a session whose secret is not
    registered for redaction. And between requests a workspace or a use is live
    only if a held task accounts for it, and a lease only if a held task has an
    unfinished writeback under it, or its store has no release, or its commit
    was answered as stale, or it was just acquired when the event of the
    acquisition, or the making of a key, threw. (A lease, a workspace or a use
    counts as closed once the port was asked to close it, also when that call
    fails: the runtime asks once.) *)
Theorem runtime_discipline (qs : list request) (tr : list event) (k : Kernel) :
  runs (service qs new_kernel) tr k → fair_trace advance fair idle tr →
  let m := watch advance idle tr in
  permitted_trace advance permitted idle tr ∧
  (∀ id l, live m !! id = Some l → hasRelease deps = false ∨ lm_unacknowledged l = true ∨
     (interrupting tr ∧ lm_phase l = L_acquired) ∨
     ∃ u w, pending k !! Some u = Some w ∧ pw_phase w ≠ Committed_ ∧ w_lease (pw_intent w) = id) ∧
  (∀ x, x ∈ spaces m → ∃ u h, (u, h) ∈ held k ∧ space (h_workspace h) = Some x) ∧
  (∀ u, u ∈ uses m → ∃ h, (u, h) ∈ held k ∧ useCompleted h = false).
Proof.
  intros Hr Hf m. destruct (pwp_adequate _ _ _ _ _ _ _ _ (service_wp qs _ _ clean_new) Hr Hf) as [Hp Ho].
  split; [done|]. destruct Ho as [H1 _ _ H4 H5 _ _ _]. split_and!.
  - intros id l Hl. destruct (H1 id l Hl) as [?|[[?|[[?|?]%watch_interrupted ?]]|[?|?]]]; [done|auto|done|auto..].
  - intros x Hx. by destruct (H4 x Hx).
  - intros u Hu. by destruct (H5 u Hu).
Qed.

(** Retrying the finalizations, when it succeeds, settles everything: no
    task is held, no workspace and no use is live, and no lease other than one
    whose commit was answered as stale, whose store cannot release, or whose
    acquisition was interrupted. *)
Theorem retry_settles_everything (qs : list request) (tr tr' : list event) (k k' : Kernel) :
  runs (service qs new_kernel) tr k → fair_trace advance fair idle tr →
  runs (retryPendingTaskFinalizations sha_base64url deps k) tr' (k', Ok tt) →
  fair_trace advance fair (watch advance idle tr) tr' →
  let m := watch advance (watch advance idle tr) tr' in
  held k' = [] ∧ spaces m = ∅ ∧ uses m = ∅ ∧
  ∀ id l, live m !! id = Some l → abandoned m l ∨ lm_unacknowledged l = true.
Proof.
  intros Hr Hf Hr' Hf' m. destruct (pwp_adequate _ _ _ _ _ _ _ _ (service_wp qs _ _ clean_new) Hr Hf) as [_ Ho].
  destruct (pwp_adequate _ _ _ _ _ _ _ _ (retryPendingTaskFinalizations_wp _ _ Ho) Hr' Hf') as [_ [Ho' Hh]]. simpl in Ho', Hh.
  destruct Ho' as [H1 _ _ H4 H5 H6 _ _]. rewrite Hh in *. split; [done|]. split_and!.
  - apply set_eq. intros x. split; [|set_solver]. intros Hx. destruct (H4 x Hx) as [|(u & h & Hu & _)]; set_solver.
  - apply set_eq. intros x. split; [|set_solver]. intros Hx. destruct (H5 x Hx) as [|(h & Hu & _)]; set_solver.
  - intros id l Hl. destruct (H1 id l Hl) as [|[|[|(u & w & Hw & _)]]]; auto; [done|].
    destruct (H6 u w Hw) as (h & _ & Hh' & _). set_solver.
Qed.
End discipline.

(** ** How often a port is called *)

Section counting.
Context (f : call → bool).

(** [p] makes at most [n] calls that [f] selects. *)
Fixpoint at_most {A} (n : nat) (p : prog A) : Prop :=
  match p with
  | Ret _ => True
  | Call c k =>
      if f c then match n with O => False | S n => ∀ r, at_most n (k r) end else ∀ r, at_most n (k r)
  end.

Definition selects (e : event) : bool := match e with Ev c _ => f c end.
Definition calls_of (tr : list event) : nat := length (filter (λ e, selects e = true) tr).

Lemma at_most_trace {A} n (p : prog A) tr a : at_most n p → runs p tr a → (calls_of tr ≤ n)%nat.
Proof.
  intros Hp Hr. revert n Hp. unfold calls_of. induction Hr as [a|c k r tr a _ IH]; simpl; intros n Hp; [lia|].
  destruct (f c) eqn:E.
  - rewrite filter_cons_True by done. destruct n as [|n]; [done|]. simpl. specialize (IH n (Hp r)). lia.
  - rewrite filter_cons_False by (simpl; congruence). apply IH, Hp.
Qed.

Lemma at_most_le {A} n n' (p : prog A) : at_most n p → (n ≤ n')%nat → at_most n' p.
Proof.
  revert n n'. induction p as [a|c k IH]; simpl; intros n n' H Hn; [done|]. destruct (f c).
  - destruct n as [|n]; [done|]. destruct n' as [|n']; [lia|]. intros r. eapply IH; [apply H|lia].
  - intros r. eapply IH; [apply H|done].
Qed.

Lemma at_most_bind {A B} n n' (p : prog A) (g : A → prog B) :
  at_most n p → (∀ a, at_most n' (g a)) → at_most (n + n') (prog_bind p g).
Proof.
  intros Hp Hg. revert n Hp. induction p as [a|c k IH]; simpl; intros n Hp.
  - eapply at_most_le; [apply Hg|lia].
  - destruct (f c); [|auto]. destruct n as [|n]; [done|]. simpl. auto.
Qed.

Definition bounded {A} (n : nat) (m : Rt A) : Prop := ∀ k, at_most n (m k).

Lemma bounded_ret {A} n (a : A) : bounded n (mret a).
Proof. done. Qed.
Lemma bounded_throw {A} n e : bounded n (rthrow e : Rt A).
Proof. done. Qed.
Lemma bounded_modify n g : bounded n (modify g).
Proof. done. Qed.
Lemma bounded_kernel n : bounded n kernel.
Proof. done. Qed.
Lemma bounded_port0 n c : f c = false → bounded n (port c).
Proof. intros H k. simpl. by rewrite H. Qed.
Lemma bounded_port1 c : bounded 1 (port c).
Proof. intros k. simpl. by destruct (f c). Qed.

Lemma bounded_le {A} n (m : Rt A) : bounded 0 m → bounded n m.
Proof. intros H k. eapply at_most_le; [apply H|lia]. Qed.

Lemma bounded_bind {A B} n n' (m : Rt A) (g : A → Rt B) :
  bounded n m → (∀ a, bounded n' (g a)) → bounded (n + n') (m ≫= g).
Proof. intros Hm Hg k. apply at_most_bind; [apply Hm|]. intros [k' [a|e]]; [apply Hg|done]. Qed.

Lemma bounded_bind0 {A B} n (m : Rt A) (g : A → Rt B) : bounded 0 m → (∀ a, bounded n (g a)) → bounded n (m ≫= g).
Proof. apply (bounded_bind 0). Qed.

Lemma bounded_catch0 {A} n (m : Rt A) h : bounded n m → (∀ e, bounded 0 (h e)) → bounded n (catch m h).
Proof.
  intros Hm Hh k. rewrite <-(Nat.add_0_r n). apply at_most_bind; [apply Hm|]. intros [k' [a|e]]; [done|apply Hh].
Qed.

Lemma bounded_finally0 {A} n (m : Rt A) g : bounded n m → bounded 0 g → bounded n (rfinally m g).
Proof.
  intros Hm Hg k. rewrite <-(Nat.add_0_r n). apply at_most_bind; [apply Hm|]. intros [k' r]. apply (at_most_bind 0 0); [apply Hg|].
  by intros [k'' [[]|e]].
Qed.
End counting.

Ltac bounded_go :=
  repeat first
    [ match goal with H : ∀ _, _ |- _ => solve [apply H] end | apply bounded_ret | apply bounded_throw | apply bounded_modify | apply bounded_kernel
    | match goal with |- bounded ?f ?n (port ?c) => exact (bounded_port0 f n c eq_refl) end
    | match goal with
      | |- bounded ?f 1 (mbind ?g (port ?c)) => let b := eval cbv in (f c) in lazymatch b with true =>
          apply (bounded_bind f 1 0); [exact (bounded_port1 f c)|intro] end
      end
    | apply bounded_bind0; [|intro] | apply bounded_catch0; [|intro]
    | apply bounded_finally0 | eassumption | progress cbv zeta
    | match goal with
      | |- bounded _ _ (if ?b then _ else _) => destruct b
      | |- bounded _ _ (match ?x with _ => _ end) => destruct x
      end ].

Definition is_agent_run (c : call) : bool := match c with RunAgent _ _ _ _ => true | _ => false end.
Definition is_provider_refresh (c : call) : bool := match c with RefreshDriver _ _ _ => true | _ => false end.

Section repair.
Context (sha_base64url : list N → jsstring) (deps : Deps).

Definition watched (f : call → bool) : Prop := f = is_agent_run ∨ f = is_provider_refresh.

Lemma writeback_bounded f r env run u : watched f →
  bounded f 0 (maybeWritebackTaskSessionUpdate sha_base64url deps r env run u).
Proof.
  unfold maybeWritebackTaskSessionUpdate, writeTaskSession, acquireWriteback, phases, finalizePhase, startPhase, writePhase, commitPhase,
    releaseUncommitted, selected, set_phase, set_written, when, emit, count, error_. intros [-> | ->]; bounded_go.
Qed.

Lemma settle_bounded f u : watched f → bounded f 0 (settleTaskSession sha_base64url deps u).
Proof.
  intros Hf. assert (∀ n r env run u, bounded f n (maybeWritebackTaskSessionUpdate sha_base64url deps r env run u)) as Hw
    by (intros; by apply bounded_le, writeback_bounded).
  unfold settleTaskSession, finalizeHeld, dispose, when, forget_pending, error_. destruct Hf as [-> | ->]; bounded_go.
Qed.

Lemma run_bounded f session env t run : watched f →
  bounded f (if f (RunAgent None t (mkWorkspace 0 false) None) then 1 else 0)
    (runTaskWithSession sha_base64url deps session env t run).
Proof.
  intros Hf. assert (∀ n r env run u, bounded f n (maybeWritebackTaskSessionUpdate sha_base64url deps r env run u)) as Hw
    by (intros; by apply bounded_le, writeback_bounded).
  assert (∀ n u, bounded f n (settleTaskSession sha_base64url deps u)) as Hs by (intros; by apply bounded_le, settle_bounded).
  unfold runTaskWithSession, begin, complete, dispose, unless_retained, when, runInWorkspace, emit, count.
  destruct Hf as [-> | ->]; simpl; bounded_go.
Qed.

Lemma refresh_bounded f p run force : watched f →
  bounded f (if f (RunAgent None (mkTask Review None []) (mkWorkspace 0 false) None) then 0 else 1)
    (refreshSession sha_base64url deps p run force).
Proof.
  unfold refreshSession, validateStaticRuntimeSession, refreshRotating, refreshUnderLease, refreshLeased, refreshInWorkspace,
    writebackRefreshed, inspectFreshness, releaseLeaseQuietly, requireSessionStore, requireLeaseStore, requireRefreshableSessionDriver,
    requireSessionDriver, read_session, begin, complete, dispose, when, emitFailure, emit, count, error_.
  intros [-> | ->]; simpl; bounded_go.
Qed.

Lemma afterRefresh_bounded f n r missing t run :
  (∀ s e, bounded f n (runTaskWithSession sha_base64url deps s e t run)) →
  bounded f n (afterRefresh sha_base64url deps r missing t run).
Proof.
  intros Hr. unfold afterRefresh, run_with.
  assert (∀ s e, bounded f n (x ← runTaskWithSession sha_base64url deps s e t run; mret (RunCompleted r x))) as Hgo.
  { intros s e. rewrite <-(Nat.add_0_r n). apply bounded_bind; [apply Hr|]. intros. apply bounded_ret. }
  bounded_go.
Qed.

(** At most two runs and two refreshes, when a run makes at most [a] of the
    selected calls and a refresh at most [b]. *)
Lemma refreshThenRun_bounded f a b p t run :
  bounded f 0 emitFailure → bounded f 0 (emit "provider.refresh.guard.started") →
  (∀ s e, bounded f a (runTaskWithSession sha_base64url deps s e t run)) →
  (∀ force, bounded f b (refreshSession sha_base64url deps p run force)) →
  bounded f (b + (a + (b + a))) (refreshThenRunTask sha_base64url deps p t run).
Proof.
  intros He1 He2 Hr Hb. unfold refreshThenRunTask, run_with.
  destruct (unsupportedTaskFailure deps t); [bounded_go|]. apply bounded_bind; [apply Hb|]. intros refresh.
  assert (∀ n m, (∀ k, at_most f n (m k)) → (n ≤ a + (b + a))%nat → bounded f (a + (b + a)) (m : Rt RefreshThenRunResult)) as Hle.
  { intros n m H Hn k. eapply at_most_le; [apply H|done]. }
  assert (bounded f (a + (b + a)) (afterRefresh sha_base64url deps refresh "Provider session is missing after refresh." t run)) as Ha
    by (apply (Hle a); [by apply afterRefresh_bounded|lia]).
  assert (∀ s e (g : TaskResult → Rt RefreshThenRunResult), (∀ x, bounded f (b + a) (g x)) →
    bounded f (a + (b + a)) (x ← runTaskWithSession sha_base64url deps s e t run; g x)) as Hgo
    by (intros; apply bounded_bind; auto).
  assert (∀ m, bounded f a m → bounded f (b + a) (m : Rt RefreshThenRunResult)) as Hle'
    by (intros m H k; eapply at_most_le; [apply H|lia]).
  destruct (plan deps), refresh as [s wb ws|reason msg ws|[] [s|] ws]; try exact Ha; apply Hgo; intros x;
    try apply bounded_ret.
  - apply Hle'. rewrite <-(Nat.add_0_r a). apply bounded_bind; [|intros; apply bounded_ret]. bounded_go.
  - apply Hle'. rewrite <-(Nat.add_0_r a). apply bounded_bind; [|intros; apply bounded_ret]. bounded_go.
  - unfold guardedRepair. destruct (task_failure x); [|apply bounded_ret]. destruct (_ && _); [|apply bounded_ret].
    apply bounded_bind0; [done|]. intros _. apply bounded_bind; [apply Hb|]. intros r. by apply afterRefresh_bounded.
Qed.

(** A repair is tried once. Whatever the ports answer, a call of
    [refreshThenRunTask] runs the agent at most twice and asks the provider for
    a refresh at most twice. *)
Theorem repair_at_most_once (p : jsstring) (t : ProviderTask) (run : RunContext) (k : Kernel) (tr : list event)
    (out : Kernel * result error RefreshThenRunResult) :
  runs (refreshThenRunTask sha_base64url deps p t run k) tr out →
  (calls_of is_agent_run tr ≤ 2)%nat ∧ (calls_of is_provider_refresh tr ≤ 2)%nat.
Proof.
  intros Hr. split; eapply at_most_trace; try exact Hr.
  - apply (refreshThenRun_bounded is_agent_run 1 0); [done|done|..].
    + intros. apply (run_bounded is_agent_run). by left.
    + intros. apply (refresh_bounded is_agent_run). by left.
  - apply (refreshThenRun_bounded is_provider_refresh 0 1); [done|done|..].
    + intros. apply (run_bounded is_provider_refresh). by right.
    + intros. apply (refresh_bounded is_provider_refresh). by right.
Qed.
End repair.

(** ** A refreshed session is durable

    The runtime on the stores of [SessionCustody]: the composition of the two
    components. *)

(** The monitor that remembers the answered writes. *)
Abbreviation writes := (list (WriteInput * WriteResult)).

Definition remember (s : writes) (c : call) : answer c → writes :=
  match c with
  | WriteSession i => λ r, match r with Ok x => (i, x) :: s | Throw _ => s end
  | _ => λ _, s
  end.

Section durable.
Context (sha_base64url : list N → jsstring) (deps : Deps).

Abbreviation WPW := (wp remember (λ _ _, True) (λ _ _ _, True)).

(** The write that a result [Ready] rests on. *)
Definition rests_on_write (p : jsstring) (r : RefreshResult) (s : writes) : Prop :=
  match r with
  | Ready env wb _ => ∃ i, (i, wb) ∈ s ∧ w_instance i = p ∧ nextArtifact i = e_artifact env ∧
      (wb = Accepted (e_generation env) (e_generationHash env) ∨
       wb = IdempotentReplay (e_generation env) (e_generationHash env))
  | _ => True
  end.

Definition no_write (c : call) : bool := match c with WriteSession _ => false | _ => true end.

Lemma wpw_port c (Q : resp c → Kernel → writes → Prop) X k s : no_write c = true →
  (∀ a, Q a k s) → X k s → WPW (port c) Q X k s.
Proof. intros Hc HQ HX. apply wp_port; [done|]. intros r _. destruct c; try done; simpl; destruct r; auto. Qed.

(** A program without writes keeps what is remembered. *)
Ltac wpw_go :=
  repeat first
    [ done
    | match goal with |- wp _ _ _ (port ?c) _ _ _ _ => apply (wpw_port c); [reflexivity|intro|] end
    | match goal with |- ∀ _ : error, _ => intro end
    | wp_step ].

Lemma refreshInWorkspace_ready p run id env w u k s :
  WPW (refreshInWorkspace sha_base64url p run id env w u) (λ r _, rests_on_write p r) (λ _ _, True) k s.
Proof.
  unfold refreshInWorkspace, writebackRefreshed, emitFailure, emit, count. wpw_go.
  all: try (apply wp_port; [done|]; intros [[g h|g h|g h]|e] _; [..|done]; wpw_go).
  all: eexists; (split; [apply list_elem_of_here|]); auto.
Qed.

Lemma refreshSession_ready p run force k s :
  WPW (refreshSession sha_base64url deps p run force) (λ r _, rests_on_write p r) (λ _ _, True) k s.
Proof.
  assert (∀ r s, rests_on_write p r s → ∀ w k, WPW (dispose w) (λ _ _, rests_on_write p r) (λ _ _, True) k s) as Hd
    by (intros; unfold dispose, when; wpw_go).
  assert (∀ r s, rests_on_write p r s → ∀ u k, WPW (complete u) (λ _ _, rests_on_write p r) (λ _ _, True) k s) as Hc
    by (intros; unfold complete; wpw_go).
  assert (∀ w k s, WPW (dispose w) (λ _ _ _, True) (λ _ _, True) k s) as Hd' by (intros; unfold dispose, when; wpw_go).
  assert (∀ u k s, WPW (complete u) (λ _ _ _, True) (λ _ _, True) k s) as Hc' by (intros; unfold complete; wpw_go).
  assert (∀ id env u k s, WPW (refreshLeased sha_base64url deps p run id env u) (λ r _, rests_on_write p r) (λ _ _, True) k s) as Hl.
  { intros. unfold refreshLeased, read_session, emitFailure, emit, count. wpw_go.
    eapply wp_mono; [apply refreshInWorkspace_ready|cbv beta; intros; by apply Hd|cbv beta; intros; apply Hd']. }
  assert (∀ env u k s, WPW (refreshUnderLease sha_base64url deps p run env u) (λ r _, rests_on_write p r) (λ _ _, True) k s) as Hu.
  { intros. unfold refreshUnderLease, emitFailure, emit, count. wpw_go.
    eapply wp_mono; [apply Hl|cbv beta..]; intros; unfold releaseLeaseQuietly, when, emit; wpw_go. }
  assert (∀ env k s, WPW (u ← begin deps; rfinally (refreshUnderLease sha_base64url deps p run env u) (complete u))
    (λ r _, rests_on_write p r) (λ _ _, True) k s) as Hgo.
  { intros. unfold begin. wpw_go; (eapply wp_mono; [apply Hu|cbv beta; intros; by apply Hc|cbv beta; intros; apply Hc']). }
  unfold refreshSession, validateStaticRuntimeSession, refreshRotating, inspectFreshness, requireSessionStore, requireLeaseStore,
    requireRefreshableSessionDriver, requireSessionDriver, read_session, emitFailure, emit.
  wpw_go; apply Hgo.
Qed.

(** The session store of [SessionCustody] behind the port. *)
Context (sha_hex : list N → jsstring) (seal : list N → list N → list N * list N)
  (own_provider : jsstring) (own_metadata : option metadata_t) (requireLease : bool).

Abbreviation store_run := (Custody.run sha_hex sha_base64url seal own_provider own_metadata requireLease).
Abbreviation store_write := (Custody.write sha_hex sha_base64url seal own_provider own_metadata requireLease).

Definition same_answer (r : result failure WriteResult) (a : result error WriteResult) : Prop :=
  match r, a with Ok x, Ok y => x = y | Throw _, Throw _ => True | _, _ => False end.

(** The disk while a trace is served: the writes are answered by the store,
    with any faults; between the calls others use the stores, without deleting
    the session of [p]; every other call is answered in any way. *)
Inductive served (p : jsstring) : disk → list event → disk → Prop :=
| served_nil d : served p d [] d
| served_others h d tr d' : Forall (λ x, x.2 ≠ Delete p) h → served p (store_run h d) tr d' → served p d tr d'
| served_write i now nonce fs r d tr d' :
    same_answer (store_write i now nonce (fs, d)).2 r → served p (store_write i now nonce (fs, d)).1.2 tr d' →
    served p d (Ev (WriteSession i) r :: tr) d'
| served_call c r d tr d' : no_write c = true → served p d tr d' → served p d (Ev c r :: tr) d'.

(** Every remembered write of [p] is recorded on the disk. *)
Definition recorded (p : jsstring) (s : writes) (d : disk) : Prop :=
  ∀ i g h, w_instance i = p → (i, Accepted g h) ∈ s ∨ (i, IdempotentReplay g h) ∈ s → entry d p (w_key i) = Some (g, h).

Lemma store_write_recorded p i now nonce fs r d s : keyed d → recorded p s d →
  same_answer (store_write i now nonce (fs, d)).2 r →
  let d' := (store_write i now nonce (fs, d)).1.2 in keyed d' ∧ recorded p (remember s (WriteSession i) r) d'.
Proof.
  intros Hk Hs Hr d'. pose proof (write_wp sha_hex sha_base64url seal own_provider own_metadata requireLease d Hk i now nonce fs) as Hw.
  destruct (write_effect sha_hex sha_base64url seal own_provider own_metadata requireLease i now nonce fs d Hk) as [Hst Hf].
  assert (recorded p s d') as Hd'.
  { intros j g h Hj Hin. eapply entry_write_failure; [exact Hf|]. by apply Hs. }
  split; [by eapply keyed_machine_step|]. unfold d' in *. destruct (store_write i now nonce (fs, d)) as [[fs' d1] [x|e]]; simpl in *.
  - destruct r as [y|e]; [|done]. subst y. intros j g h Hj Hin. destruct Hw as [_ Hw].
    assert ((j, Accepted g h) ∈ s ∨ (j, IdempotentReplay g h) ∈ s ∨ i = j ∧ (x = Accepted g h ∨ x = IdempotentReplay g h)) as Hc.
    { destruct Hin as [Hin|Hin]; apply elem_of_cons in Hin as [[= -> ->]|Hin]; auto. }
    destruct Hc as [Hin'|[Hin'|[-> [-> | ->]]]]; [by apply Hd'; auto..| |].
    + destruct Hw as (Hp & -> & ->). unfold entry. rewrite <-Hj. rewrite (published_key _ _ _ _ _ _ _ _ _ _ _ _ _ Hp).
      by rewrite bool_decide_eq_true_2.
    + destruct Hw as (Hc & e & He & -> & ->). rewrite (entry_content d) by done. unfold entry. rewrite <-Hj. by rewrite He.
  - destruct r; done.
Qed.

Lemma served_recorded p d tr d' s : served p d tr d' → keyed d → recorded p s d → recorded p (watch remember s tr) d'.
Proof.
  intros H. revert s. induction H as [d|h d tr d' Hh _ IH|i now nonce fs r d tr d' Hr _ IH|c r d tr d' Hc _ IH]; intros s Hk Hs.
  - done.
  - apply IH; [by apply run_steps|]. intros j g hh Hj Hin. specialize (Hs j g hh Hj Hin).
    apply (run_invariant _ _ _ _ _ _ (λ d, entry d p (w_key j) = Some (g, hh)) (λ o, o ≠ Delete p)); try done.
    intros. by eapply entry_step.
  - destruct (store_write_recorded p i now nonce fs r d s Hk Hs Hr) as [Hk1 Hs1]. simpl. by apply IH.
  - simpl. apply IH; [done|]. by destruct c.
Qed.

(** C14: A session that a refresh reports as ready is durable. Whatever the
    lease store, the provider and the other ports answer, on a session store
    whose file accesses may fail or crash and which others use at the same time
    (without deleting this session): when [refreshSession] returns [Ready],
    the generation and hash of the session it returns are recorded on disk
    under the idempotency key of its write, for good. *)
Theorem ready_is_durable (h : history) (p : jsstring) (run : RunContext) (force : bool) (k k' : Kernel) (tr : list event)
    (d' : disk) (env : Envelope) (wb : WriteResult) (ws : list RuntimeWarning) :
  runs (refreshSession sha_base64url deps p run force k) tr (k', Ok (Ready env wb ws)) →
  served p (store_run h empty_disk) tr d' →
  ∃ key, entry d' p key = Some (e_generation env, e_generationHash env).
Proof.
  intros Hr Hs. assert (fair_trace remember (λ _ _ _, True) [] tr) as Hf.
  { clear. generalize (@nil (WriteInput * WriteResult)). induction tr as [|[c r] tr IH]; intros s; simpl; auto. }
  destruct (pwp_adequate _ _ _ _ _ _ _ _ (refreshSession_ready p run force k []) Hr Hf) as [_ (i & Hin & Hi & _ & Hwb)].
  exists (w_key i). eapply (served_recorded p _ tr d' []); [done|apply run_keyed|by intros ? ? ? _ [?%not_elem_of_nil|?%not_elem_of_nil]|done|].
  destruct Hwb as [-> | ->]; auto.
Qed.
End durable.

(** ** Creating a runtime *)

(** The optional ports and methods that the capabilities do not describe. *)
Record Extras : Set := mkExtras {
  x_leaseStore : bool; x_release : bool; x_validate : bool; x_refresh : bool; x_inspectFreshness : bool;
  x_lifecycle : bool; x_finalizeTask : bool; x_retireTask : bool }.

(** [createSubscriptionRuntime]: the dependencies of the kernel it builds, or
    the code it throws. *)
Definition createSubscriptionRuntime (policy : Policy) (p : ProviderCapabilities) (a : AgentCapabilities)
    (store : option StoreCapabilities) (r : RunnerCapabilities) (x : Extras) : result RejectionCode Deps :=
  match negotiateCapabilities policy p a store r with
  | Rejected code _ => Throw code
  | RuntimePolicy.Accepted compiled plan =>
      Ok (mkDeps plan (timeoutMs compiled) (p_providerId p) (taskModes a) (taskExecutionCapabilities a)
            (match store with Some _ => true | None => false end)
            (match store with Some s => supportsIdempotency s | None => false end)
            (x_leaseStore x) (x_release x) (x_validate x) (x_refresh x) (x_inspectFreshness x) (x_lifecycle x)
            (x_finalizeTask x) (x_retireTask x))
  end.

(** A runtime that is created has the store it needs: unless its provider
    has no session, there is a session store; and when the provider may rotate
    its session, the store answers a repeated write as a replay, so that a
    writeback that failed is always tried again, and the plan rotates. The
    timeout, which is the lifetime of its leases, is the smaller of the
    provider's and the agent's. *)
Theorem created_runtime_store (policy : Policy) (p : ProviderCapabilities) (a : AgentCapabilities)
    (store : option StoreCapabilities) (r : RunnerCapabilities) (x : Extras) (deps : Deps) :
  createSubscriptionRuntime policy p a store r x = Ok deps →
  (plan deps ≠ NoSession → hasSessionStore deps = true) ∧
  ((∃ refresh wb, plan deps = RotatingSession refresh wb) ↔
     sessionRequirement p ≠ SessionNone ∧ providerMayRotateSession p = true) ∧
  ((∃ refresh wb, plan deps = RotatingSession refresh wb) → storeIdempotent deps = true) ∧
  ttlMs deps = num_min (defaultTimeoutMs p) (maxRuntimeMs a).
Proof.
  unfold createSubscriptionRuntime. destruct (negotiateCapabilities policy p a store r) as [c pl|code msg] eqn:E; [|done].
  intros [= <-]. simpl.
  apply basics_accepts in E as [_ E].
  assert (timeoutMs c = num_min (defaultTimeoutMs p) (maxRuntimeMs a) ∧ pl = compileRuntimeExecutionPlan policy p ∧
    (pl ≠ NoSession → ∃ s, store = Some s ∧ custodian policy p s)) as (Ht & Hpl & Hs).
  { destruct (compileRuntimeExecutionPlan policy p); [by simplify_eq|..];
      (destruct store as [s|]; [|done]); apply negotiateStore_accepts in E as [Hc [= <- <-]]; eauto. }
  assert ((∃ refresh wb, pl = RotatingSession refresh wb) ↔ sessionRequirement p ≠ SessionNone ∧ providerMayRotateSession p = true) as Hrot.
  { rewrite Hpl. unfold compileRuntimeExecutionPlan. case_bool_decide; [naive_solver|].
    destruct (providerMayRotateSession p); naive_solver. }
  split_and!; [|done| |done].
  - intros Hne. destruct (Hs Hne) as (s & -> & _). done.
  - intros Hr. destruct Hs as (s & -> & [_ _ _ _ Hi]); [by destruct Hr as (? & ? & ->)|]. apply Hi. by apply Hrot.
Qed.

(** ** Settling *)

(** The result of a finished task is not lost. In a runtime in service, an
    attempt to settle a held task returns, whatever the ports answer or throw:
    the task is settled and no longer held, or its result comes back with the
    warning that its finalization is pending, and is still held. *)
Theorem held_result_survives (sha_base64url : list N → jsstring) (deps : Deps) (qs : list request) (tr tr' : list event)
    (k k' : Kernel) (u : use) (h : HeldTask) (out : result error TaskResult) :
  runs (service sha_base64url deps qs new_kernel) tr k → fair_trace advance fair idle tr →
  lookup_held u (held k) = Some h →
  runs (settleTaskSession sha_base64url deps u k) tr' (k', out) →
  fair_trace advance fair (watch advance idle tr) tr' →
  ∃ r, out = Ok r ∧
    (lookup_held u (held k') = None ∨
     r = add_warnings (h_result h) [pending_warning] ∧ ∃ h', (u, h') ∈ held k' ∧ h_result h' = h_result h).
Proof.
  intros Hr Hf Hh Hr' Hf'.
  destruct (pwp_adequate _ _ _ _ _ _ _ _ (service_wp _ _ qs _ _ (clean_new _ _)) Hr Hf) as [_ Ho].
  destruct (pwp_adequate _ _ _ _ _ _ _ _ (settle_held_wp _ _ u h _ _ Ho Hh) Hr' Hf') as [_ Hout]. simpl in Hout.
  destruct out as [r|e]; [|done]. exists r. split; [done|]. destruct Hout as [(_ & Hk & _)|[(_ & _ & _ & Hx) ->]]; [left|by right].
  apply lookup_held_None. rewrite Hk, list_elem_of_filter. by intros [? _].
Qed.

(** ** Runs *)

(** The run of a program against a port that answers by what happened. *)
Fixpoint simulate {A} (port : list event → ∀ c, answer c) (past : list event) (p : prog A) : list event * A :=
  match p with
  | Ret a => ([], a)
  | Call c k =>
      let r := port past c in
      let '(tr, a) := simulate port (past ++ [Ev c r]) (k r) in
      (Ev c r :: tr, a)
  end.

Lemma simulate_runs {A} port past (p : prog A) : runs p (simulate port past p).1 (simulate port past p).2.
Proof.
  revert past. induction p as [a|c k IH]; intros past; simpl; [constructor|].
  specialize (IH (port past c) (past ++ [Ev c (port past c)])). destruct (simulate port _ _) as [tr a]. by constructor.
Qed.

(** ** A runtime run by hand *)

Module Demo.

Definition b64 (b : list N) : jsstring := b.
Definition prov : jsstring := js "codex".
Definition acct : jsstring := js "acct".
Definition art (s : string) : Artifact := mkArtifact JsonFile prov (js "v1") (js s) (js "application/json") None None.
Definition hash (s : string) : jsstring := computeSessionGenerationHash b64 (art s).
Definition env1 : Envelope := mkEnvelope acct prov (art "one") 1 (hash "one") ∅.
Definition task : ProviderTask := mkTask Review None (js "prompt").
Definition run1 : RunContext := mkRun (js "run") 1.

(** A rotating provider; every port and method is there. *)
Definition rotating : Deps :=
  mkDeps (RotatingSession BeforeRun BeforeTask) (num_of_Z 1000) prov [Review] None true true true true true true true true true true.

(** Ports that answer, unless [fails] says otherwise. *)
Definition answers (fails : list event → call → bool) (commit : CommitResult) (past : list event) (c : call) : answer c :=
  if fails past c then Throw (PortError "io")
  else
    Ok match c return resp c with
       | ReadSession _ _ _ => Some env1
       | WriteSession i => Accepted (expectedGeneration i + 1) (computeSessionGenerationHash b64 (nextArtifact i))
       | AcquireLease _ _ _ _ _ => LeaseGranted [N.of_nat (length past)]
       | CommitWriteback _ _ _ => commit
       | ValidateSession _ => Valid []
       | InspectFreshness _ => Fresh []
       | RefreshDriver _ _ _ => mkRefreshed (art "two") Refreshed []
       | RunAgent _ _ _ _ | FinalizeTask _ => TaskCompleted (js "done") (Some (mkUpdate 7 (art "three"))) []
       | CreateWorkspace => mkWorkspace (N.of_nat (length past)) true
       | BeginUse => N.of_nat (length past)
       | IdempotencyKey _ _ _ => js "key"
       | _ => tt
       end.

Definition never (past : list event) (c : call) : bool := false.
Definition retire_fails (past : list event) (c : call) : bool := match c with RetireTask _ => true | _ => false end.

Definition sim {A} (fails : list event → call → bool) (past : list event) (p : prog A) := simulate (answers fails CommitCommitted) past p.

Ltac fair_by_computation :=
  vm_compute; repeat match goal with |- _ ∧ _ => split end; try exact Logic.I; try (eexists; reflexivity);
  intros; try (simplify_eq; reflexivity); try congruence; try (intros []; congruence).

(** A task is refreshed and run; its session cannot be retired, and is
    retired by the retry. *)
Definition requests : list request := [RefreshThenRunTask acct task run1].
Definition tr1 : list event := (sim retire_fails [] (service b64 rotating requests new_kernel)).1.
Definition k1 : Kernel := (sim retire_fails [] (service b64 rotating requests new_kernel)).2.
Definition retry1 := sim never tr1 (retryPendingTaskFinalizations b64 rotating k1).

Lemma fair1 : fair_trace advance fair idle tr1.
Proof. fair_by_computation. Qed.

Lemma runs1 : runs (service b64 rotating requests new_kernel) tr1 k1.
Proof. exact (simulate_runs (answers retire_fails CommitCommitted) [] (service b64 rotating requests new_kernel)). Qed.

Lemma fair_retry1 : fair_trace advance fair (watch advance idle tr1) retry1.1.
Proof. fair_by_computation. Qed.

(** A lease leaks when the observability port throws at the event of its
    acquisition, and when the key of the writeback of a task cannot be made. *)
Definition event_fails (past : list event) (c : call) : bool :=
  match c with Emit n => String.eqb n "lease.acquire.completed" | _ => false end.
Definition key_fails (past : list event) (c : call) : bool := match c with IdempotencyKey _ _ _ => true | _ => false end.
Definition left_live (fails : list event → call → bool) (qs : list request) : list (jsstring * LeasePhase) :=
  map (λ '(id, l), (id, lm_phase l))
    (map_to_list (live (watch advance idle (sim fails [] (service b64 rotating qs new_kernel)).1))).
Lemma interrupted_lease_leaks :
  map snd (left_live event_fails [RefreshSession acct run1 true]) = [L_acquired] ∧
  map snd (left_live key_fails [RunTask acct task run1]) = [L_acquired] ∧
  left_live never [RefreshSession acct run1 true; RunTask acct task run1] = [].
Proof. by vm_compute. Qed.

Lemma runtime_discipline_witness :
  runs (service b64 rotating requests new_kernel) tr1 k1 ∧ permitted_trace advance permitted idle tr1 ∧
  length (held k1) = 1%nat ∧ calls_of is_agent_run tr1 = 1%nat.
Proof.
  split; [exact runs1|]. split; [|split; by vm_compute].
  exact (proj1 (runtime_discipline b64 rotating requests tr1 k1 runs1 fair1)).
Defined.

Lemma retry_settles_everything_witness :
  ∃ k', retry1.2 = (k', Ok tt) ∧ held k' = [] ∧ uses (watch advance (watch advance idle tr1) retry1.1) = ∅.
Proof.
  destruct retry1.2 as [k' [[]|e]] eqn:E; [|exfalso; apply (f_equal snd) in E; revert E; by vm_compute].
  exists k'. split; [done|].
  assert (runs (retryPendingTaskFinalizations b64 rotating k1) retry1.1 (k', Ok tt)) as Hr.
  { rewrite <-E. exact (simulate_runs (answers never CommitCommitted) tr1 (retryPendingTaskFinalizations b64 rotating k1)). }
  destruct (retry_settles_everything b64 rotating requests tr1 retry1.1 k1 k' runs1 fair1 Hr fair_retry1) as (H1 & _ & H2 & _).
  exact (conj H1 H2).
Defined.

(** The session of the task stays held while it cannot be retired. *)
Definition the_use : use := default 0%N (head (held k1).*1).
Definition retry2 := sim retire_fails tr1 (settleTaskSession b64 rotating the_use k1).

Lemma fair_retry2 : fair_trace advance fair (watch advance idle tr1) retry2.1.
Proof. fair_by_computation. Qed.

Lemma held_result_survives_witness :
  ∃ r, retry2.2.2 = Ok r ∧ r = add_warnings (TaskCompleted (js "done") (Some (mkUpdate 7 (art "three"))) []) [pending_warning].
Proof.
  destruct (lookup_held the_use (held k1)) as [h|] eqn:Eh; [|exfalso; revert Eh; by vm_compute].
  assert (runs (settleTaskSession b64 rotating the_use k1) retry2.1 (retry2.2.1, retry2.2.2)) as Hr.
  { rewrite <-surjective_pairing. exact (simulate_runs (answers retire_fails CommitCommitted) tr1 _). }
  destruct (held_result_survives b64 rotating requests tr1 retry2.1 k1 retry2.2.1 the_use h retry2.2.2
    runs1 fair1 Eh Hr fair_retry2) as (r & Hr' & Hcase).
  exists r. split; [done|]. revert Hr'. vm_compute. congruence.
Defined.

Lemma repair_at_most_once_witness :
  (calls_of is_agent_run (sim never [] (refreshThenRunTask b64 rotating acct task run1 new_kernel)).1 ≤ 2)%nat ∧
  calls_of is_agent_run (sim never [] (refreshThenRunTask b64 rotating acct task run1 new_kernel)).1 = 1%nat.
Proof.
  split; [|by vm_compute].
  apply (repair_at_most_once b64 rotating acct task run1 new_kernel _ _ (simulate_runs (answers never CommitCommitted) [] _)).
Defined.

(** *** On the stores *)

(** The lease is granted by the store of the custody demonstration, which
    holds the session this runtime reads. *)
Definition on_stores (past : list event) (c : call) : answer c :=
  match c return answer c with
  | AcquireLease _ _ _ _ _ => Ok (LeaseGranted Custody.Demo.id1)
  | c => answers never CommitCommitted past c
  end.

Definition refresh3 := simulate on_stores [] (refreshSession b64 rotating Custody.Demo.p run1 false new_kernel).
Definition tr3 : list event := Eval vm_compute in refresh3.1.
Definition disk3 : disk := Custody.run Custody.Demo.sha b64 Custody.Demo.enc prov None true Custody.Demo.restored empty_disk.
Definition write3 : WriteInput := mkWriteInput acct 1 (art "two") (js "key") Custody.Demo.id1 None.
Definition after3 : disk :=
  (Custody.write Custody.Demo.sha b64 Custody.Demo.enc prov None true write3 (Custody.Demo.at_ 4) [] ([], disk3)).1.2.

Lemma served3 : served b64 Custody.Demo.sha Custody.Demo.enc prov None true acct disk3 tr3 after3.
Proof.
  unfold tr3. repeat (apply served_call; [reflexivity|]).
  apply (served_write _ _ _ _ _ _ _ _ (Custody.Demo.at_ 4) [] []); [by vm_compute|]. fold after3.
  repeat (apply served_call; [reflexivity|]). apply served_nil.
Qed.

Lemma ready_is_durable_witness :
  ∃ env wb ws, refresh3.2.2 = Ok (Ready env wb ws) ∧ ∃ key, entry after3 acct key = Some (e_generation env, e_generationHash env).
Proof.
  destruct refresh3.2 as [k' [[env wb ws|? ? ?|? ? ?]|e]] eqn:E; try (exfalso; apply (f_equal snd) in E; revert E; by vm_compute).
  exists env, wb, ws. split; [done|].
  assert (runs (refreshSession b64 rotating acct run1 false new_kernel) tr3 (k', Ok (Ready env wb ws))) as Hr.
  { rewrite <-E. assert (tr3 = refresh3.1) as -> by (by vm_compute).
    exact (simulate_runs on_stores [] (refreshSession b64 rotating acct run1 false new_kernel)). }
  exact (ready_is_durable b64 rotating Custody.Demo.sha Custody.Demo.enc prov None true Custody.Demo.restored acct run1 false
    new_kernel k' tr3 after3 env wb ws Hr served3).
Defined.

(** *** What a refresh does not check *)

(** [refreshSession] takes its lease for closed whatever the commit answers: on
    an answer that the lease is stale it reports the session as ready, and the
    lease is neither committed nor released. *)
Definition stale_refresh := simulate (answers never CommitStale) [] (refreshSession b64 rotating acct run1 false new_kernel).

Theorem refresh_ignores_stale_commit :
  (∃ env wb ws, stale_refresh.2.2 = Ok (Ready env wb ws)) ∧
  lm_unacknowledged <$> live (watch advance idle stale_refresh.1) !! [6%N] = Some true ∧
  calls_of (λ c, match c with ReleaseLease _ => true | _ => false end) stale_refresh.1 = 0%nat.
Proof. split; [vm_compute; by do 3 eexists|]. split; by vm_compute. Qed.

(** A completed task is lost when the lease for its credential update cannot be
    asked for: that call is outside of the handler that turns the failures of
    the writeback into warnings. *)
Definition no_lifecycle : Deps :=
  mkDeps (RotatingSession BeforeRun BeforeTask) (num_of_Z 1000) prov [Review] None true true true true true true true false true true.
Definition acquire_fails (past : list event) (c : call) : bool := match c with AcquireLease _ _ _ _ _ => true | _ => false end.
Definition lost_run := sim acquire_fails [] (runTask b64 no_lifecycle acct task run1 new_kernel).

Theorem task_result_lost :
  calls_of is_agent_run lost_run.1 = 1%nat ∧ lost_run.2.2 = Throw (PortError "io") ∧
  (sim (λ _ c, match c with FinalizeLease _ _ => true | _ => false end) [] (runTask b64 no_lifecycle acct task run1 new_kernel)).2.2 =
    Ok (TaskCompleted (js "done") (Some (mkUpdate 7 (art "three"))) [failed_writeback_warning]).
Proof. repeat split; by vm_compute. Qed.

(** *** The transition table of leases *)

(** A lease that is restored, finalized and committed with its own generation,
    as a refresh that changed nothing does. *)
Definition unchanged : history :=
  take 3 Custody.Demo.restored ++
  [([], Custody.Commit true Custody.Demo.id1 Custody.Demo.hash1 (js "key") (Custody.Demo.at_ 3) (Custody.Demo.at_ 3))].

(** The store commits a finalized lease, which [leaseTransitions] does not
    allow: nothing but the tests consults that table. *)
Theorem lease_table_lacks_commit :
  state <$> leases (Custody.run Custody.Demo.sha b64 Custody.Demo.enc prov None true (take 3 unchanged) empty_disk) !! Custody.Demo.id1
    = Some Finalized ∧
  state <$> leases (Custody.run Custody.Demo.sha b64 Custody.Demo.enc prov None true unchanged empty_disk) !! Custody.Demo.id1
    = Some Committed ∧
  assertTransition leaseTransitions finalized writeback_committed = false.
Proof. repeat split; by vm_compute. Qed.

(** *** Creation *)

Lemma created_runtime_store_witness :
  ∃ deps, createSubscriptionRuntime
      (mkPolicy LocalOnly false true true None None None false [prov] [js "agent"] [js "store"] [js "runner"] None)
      (mkProvider prov SessionRequired LazyRefresh MayRotate true true (num_of_Z 600)) 
      (mkAgent (js "agent") prov [Review] NoHistory true true (num_of_Z 900) None)
      (Some (mkStore (js "store") LocalOnly true true true true (num_of_Z 256000)))
      (mkRunner (js "runner") true true false) (mkExtras true true true true true true true true) = Ok deps ∧
    hasSessionStore deps = true ∧ storeIdempotent deps = true.
Proof.
  eexists. split; [reflexivity|]. 
  match goal with |- hasSessionStore ?d = _ ∧ _ =>
    destruct (created_runtime_store
      (mkPolicy LocalOnly false true true None None None false [prov] [js "agent"] [js "store"] [js "runner"] None)
      (mkProvider prov SessionRequired LazyRefresh MayRotate true true (num_of_Z 600)) 
      (mkAgent (js "agent") prov [Review] NoHistory true true (num_of_Z 900) None)
      (Some (mkStore (js "store") LocalOnly true true true true (num_of_Z 256000)))
      (mkRunner (js "runner") true true false) (mkExtras true true true true true true true true) d eq_refl)
      as (H1 & _ & H3 & _)
  end.
  split; [by apply H1|]. apply H3. by do 2 eexists.
Defined.
End Demo.
End Runtime.
