(* ===== verification/Programs.v ===== *)
(** * Programs that call the outside

    Code that awaits ports is a tree: it returns a value, or makes a call and
    goes on with the answer. This file has the trees with exceptions, their
    runs as traces of calls and answers, their execution against a handler,
    interleaved runs of several programs on a shared state, and the judgement
    of a program by what may be called after what. *)

From stdpp Require Import base numbers list option.
From S2P Require Import Prelude.

Section trees.
Context {call : Type} {resp : call → Type}.

Inductive prog (A : Type) : Type :=
| Ret (a : A)
| Call (c : call) (k : resp c → prog A).
#[global] Arguments Ret {A} a.
#[global] Arguments Call {A} c k.

Fixpoint prog_bind {A B} (p : prog A) (f : A → prog B) : prog B :=
  match p with
  | Ret a => f a
  | Call c k => Call c (λ r, prog_bind (k r) f)
  end.

(** A call with its answer. *)
Inductive event : Type := Ev (c : call) (r : resp c).

(** [runs p tr a]: with the answers of [tr], the program makes the calls of
    [tr] and returns [a]. *)
Fixpoint runs {A} (p : prog A) (tr : list event) (a : A) : Prop :=
  match p with
  | Ret x => tr = [] ∧ x = a
  | Call c k => ∃ r tr', tr = Ev c r :: tr' ∧ runs (k r) tr' a
  end.

Lemma runs_bind {A B} (p : prog A) (f : A → prog B) tr b :
  runs (prog_bind p f) tr b ↔ ∃ a tr1 tr2, tr = tr1 ++ tr2 ∧ runs p tr1 a ∧ runs (f a) tr2 b.
Proof.
  revert tr. induction p as [a|c k IH]; intros tr; simpl.
  - split; [intros H; by exists a, [], tr|]. by intros (? & ? & ? & -> & [-> ->] & ?).
  - setoid_rewrite IH. split.
    + intros (r & ? & -> & a & tr1 & tr2 & -> & ? & ?). exists a, (Ev c r :: tr1), tr2. naive_solver.
    + intros (a & ? & tr2 & -> & (r & tr1 & -> & ?) & ?). exists r, (tr1 ++ tr2). naive_solver.
Qed.

(** ** Execution against a handler *)

Section exec.
Context {S : Type} (handle : ∀ c, S → resp c * S).

Fixpoint exec {A} (p : prog A) (s : S) : A * S :=
  match p with
  | Ret a => (a, s)
  | Call c k => let '(r, s') := handle c s in exec (k r) s'
  end.

Fixpoint exec_trace {A} (p : prog A) (s : S) : list event :=
  match p with
  | Ret a => []
  | Call c k => let '(r, s') := handle c s in Ev c r :: exec_trace (k r) s'
  end.

Lemma exec_bind {A B} (p : prog A) (f : A → prog B) s :
  exec (prog_bind p f) s = let '(a, s') := exec p s in exec (f a) s'.
Proof. revert s. induction p as [a|c k IH]; intros s; simpl; [done|]. destruct (handle c s). apply IH. Qed.

Lemma exec_runs {A} (p : prog A) s : runs p (exec_trace p s) (exec p s).1.
Proof. revert s. induction p as [a|c k IH]; intros s; simpl; [done|]. destruct (handle c s). eauto. Qed.
End exec.

(** ** Interleaving *)

(** A shared trace: each event with the number of the program that made it. *)
Definition of_thread (i : nat) (tr : list (nat * event)) : list event :=
  omap (λ x, if (x.1 =? i)%nat then Some x.2 else None) tr.

Lemma of_thread_cons i k e tr : of_thread i ((k, e) :: tr) = if (k =? i)%nat then e :: of_thread i tr else of_thread i tr.
Proof. unfold of_thread. simpl. by destruct (k =? i)%nat. Qed.

Lemma of_thread_app i tr tr' : of_thread i (tr ++ tr') = of_thread i tr ++ of_thread i tr'.
Proof. apply omap_app. Qed.

Lemma of_thread_elem i e tr : e ∈ of_thread i tr ↔ (i, e) ∈ tr.
Proof.
  unfold of_thread. rewrite list_elem_of_omap. split.
  - intros ((j & e') & Hin & Heq). simpl in Heq. destruct (Nat.eqb_spec j i); naive_solver.
  - intros Hin. exists (i, e). split; [done|]. simpl. by rewrite Nat.eqb_refl.
Qed.

(** The events of one program. *)
Definition tagged (i : nat) (tr : list event) : list (nat * event) := map (pair i) tr.

Lemma of_thread_tagged i tr : of_thread i (tagged i tr) = tr.
Proof.
  induction tr as [|e tr IH]; [done|]. change (tagged i (e :: tr)) with ((i, e) :: tagged i tr).
  by rewrite of_thread_cons, Nat.eqb_refl, IH.
Qed.

Section shared.
Context {S : Type} (step : ∀ c, S → resp c → S → Prop).

(** The events of a trace take the shared state from [s] to [s']. *)
Fixpoint serves (s : S) (tr : list (nat * event)) (s'' : S) : Prop :=
  match tr with
  | [] => s = s''
  | (i, Ev c r) :: tr => ∃ s', step c s r s' ∧ serves s' tr s''
  end.

Lemma serves_app s tr tr' s'' : serves s (tr ++ tr') s'' ↔ ∃ s', serves s tr s' ∧ serves s' tr' s''.
Proof.
  revert s. induction tr as [|[i [c r]] tr IH]; intros s; simpl; [naive_solver|].
  setoid_rewrite IH. naive_solver.
Qed.

Lemma serves_invariant (I : S → Prop) s tr s' :
  (∀ c s r s', step c s r s' → I s → I s') → serves s tr s' → I s → I s'.
Proof.
  intros HI. revert s. induction tr as [|[i [c r]] tr IH]; intros s; simpl; [by intros ->|].
  intros (s1 & Hs & H) ?. eauto.
Qed.

(** One program alone: its trace is served. *)
Lemma exec_serves {W A} (handle : ∀ c, W → resp c * W) (view : W → S) i (p : prog A) w :
  (∀ c w, step c (view w) (handle c w).1 (view (handle c w).2)) →
  serves (view w) (tagged i (exec_trace handle p w)) (view (exec handle p w).2).
Proof.
  intros Hstep. revert w. induction p as [a|c k IH]; intros w; simpl; [done|].
  pose proof (Hstep c w) as Hc. destruct (handle c w) as [r w'] eqn:E. simpl in *. eauto.
Qed.
End shared.

(** Several programs, one access at a time, in the given order. *)
Fixpoint interleave {W A} (handle : ∀ c, W → resp c * W) (order : list nat) (ps : list (prog A)) (w : W)
    : list (prog A) * W :=
  match order with
  | [] => (ps, w)
  | i :: order =>
      match ps !! i with
      | Some (Call c k) => let '(r, w') := handle c w in interleave handle order (<[i := k r]> ps) w'
      | _ => interleave handle order ps w
      end
  end.

(** ** Judged programs

    [judged pre h p post]: after the calls of [h], every call of [p] satisfies
    [pre] of the calls before it, and [p] returns with [post]. *)

Section judge.
Context (pre : list event → call → Prop).

Fixpoint judged {A} (h : list event) (p : prog A) (post : list event → A → Prop) : Prop :=
  match p with
  | Ret a => post h a
  | Call c k => pre h c ∧ ∀ r, judged (h ++ [Ev c r]) (k r) post
  end.

Lemma judged_weaken {A} h (p : prog A) (post post' : list event → A → Prop) :
  (∀ h a, post h a → post' h a) → judged h p post → judged h p post'.
Proof. intros Hp. revert h. induction p as [a|c k IH]; intros h; simpl; [apply Hp|]. intros [? H]. auto. Qed.

Lemma judged_bind {A B} h (p : prog A) (f : A → prog B) post :
  judged h (prog_bind p f) post ↔ judged h p (λ h' a, judged h' (f a) post).
Proof.
  revert h. induction p as [a|c k IH]; intros h; simpl; [done|]. by setoid_rewrite IH.
Qed.

(** What a judgement says of the runs. *)
(** A program only adds to the history. *)
Lemma judged_extends {A} h (p : prog A) post :
  judged h p post → judged h p (λ h' a, post h' a ∧ ∃ t, h' = h ++ t).
Proof.
  revert h. induction p as [a|c k IH]; intros h; simpl.
  - intros H. split; [done|]. exists []. by rewrite app_nil_r.
  - intros [Hc H]. split; [done|]. intros r. eapply judged_weaken, IH, H.
    intros h' a [Ha [t ->]]. split; [done|]. exists ([Ev c r] ++ t). by rewrite app_assoc.
Qed.

Lemma judged_runs {A} h (p : prog A) post tr a : judged h p post → runs p tr a →
  post (h ++ tr) a ∧ ∀ tr1 c r tr2, tr = tr1 ++ Ev c r :: tr2 → pre (h ++ tr1) c.
Proof.
  revert h tr. induction p as [x|c k IH]; intros h tr; simpl.
  - intros H [-> ->]. rewrite app_nil_r. split; [done|]. intros tr1 c r tr2 E. by destruct tr1.
  - intros [Hc H] (r & tr' & -> & Hr). destruct (IH r (h ++ [Ev c r]) tr' (H r) Hr) as [Hpost Hpre].
    rewrite <- app_assoc in Hpost. split; [done|]. intros [|e tr1] c' r' tr2 E.
    + injection E as <- _ _. by rewrite app_nil_r.
    + injection E as <- E. specialize (Hpre tr1 c' r' tr2 E). by rewrite <- app_assoc in Hpre.
Qed.
End judge.
End trees.

Arguments prog {call} resp A.
Arguments event {call} resp.

(** ** Programs with exceptions *)

Definition Fallible {call} (resp : call → Type) (E A : Type) : Type := prog resp (result E A).

#[global] Instance Fallible_ret {call} (resp : call → Type) E : MRet (Fallible resp E) := λ A a, Ret (Ok a).
#[global] Instance Fallible_bind {call} (resp : call → Type) E : MBind (Fallible resp E) := λ A B f m,
  prog_bind m (λ r, match r with Ok a => f a | Throw e => Ret (Throw e) end).

Section fallible.
Context {call : Type} {resp : call → Type} {E : Type}.

Definition raise {A} (e : E) : Fallible resp E A := Ret (Throw e).
Definition from_result {A} (r : result E A) : Fallible resp E A := Ret r.
(** A port that answers, and one that answers or throws. *)
Definition ask (c : call) : Fallible resp E (resp c) := Call c (λ r, Ret (Ok r)).

(** [for (const x of l) await f(x)], collecting what the bodies return. *)
Fixpoint for_list {A B} (f : A → Fallible resp E B) (l : list A) : Fallible resp E (list B) :=
  match l with
  | [] => mret []
  | x :: l => y ← f x; ys ← for_list f l; mret (y :: ys)
  end.

Lemma runs_bind_ok {A B} (m : Fallible resp E A) (f : A → Fallible resp E B) tr out :
  runs (m ≫= f) tr out ↔
  (∃ a tr1 tr2, tr = tr1 ++ tr2 ∧ runs m tr1 (Ok a) ∧ runs (f a) tr2 out) ∨ (∃ e, runs m tr (Throw e) ∧ out = Throw e).
Proof.
  unfold mbind, Fallible_bind. rewrite runs_bind. split.
  - intros ([a|e] & tr1 & tr2 & -> & H1 & H2); [eauto 10|]. simpl in H2. destruct H2 as [-> <-].
    rewrite app_nil_r. eauto.
  - intros [(a & tr1 & tr2 & -> & H1 & H2)|(e & H & ->)]; [by exists (Ok a), tr1, tr2|].
    exists (Throw e), tr, []. by rewrite app_nil_r.
Qed.

Lemma exec_bind_ok {S A B} (handle : ∀ c, S → resp c * S) (m : Fallible resp E A) (f : A → Fallible resp E B) s :
  exec handle (m ≫= f) s =
  match exec handle m s with
  | (Ok a, s') => exec handle (f a) s'
  | (Throw e, s') => (Throw e, s')
  end.
Proof. unfold mbind, Fallible_bind. rewrite exec_bind. by destruct (exec handle m s) as [[a|e] s']. Qed.
End fallible.

(** Judgements of programs with exceptions, one statement at a time. *)
Section judge_fallible.
Context {call : Type} {resp : call → Type} {E : Type} (pre : list (event resp) → call → Prop).
Context {B : Type} (post : list (event resp) → result E B → Prop).

Lemma judged_bind_ok {A} h (m : Fallible resp E A) (f : A → Fallible resp E B) :
  judged pre h (m ≫= f) post ↔
  judged pre h m (λ h' r, match r with Ok a => judged pre h' (f a) post | Throw e => post h' (Throw e) end).
Proof.
  unfold mbind, Fallible_bind. rewrite judged_bind.
  split; apply judged_weaken; by intros h' [a|e].
Qed.

Lemma judged_assoc {A A'} h (m : Fallible resp E A) (f : A → Fallible resp E A') (g : A' → Fallible resp E B) :
  judged pre h (m ≫= λ a, f a ≫= g) post → judged pre h ((m ≫= f) ≫= g) post.
Proof.
  intros H%judged_bind_ok. apply judged_bind_ok. unfold mbind, Fallible_bind at 1. apply judged_bind.
  revert H. apply judged_weaken. intros h' [a|e]; [|done]. intros H. by apply judged_bind_ok.
Qed.

Lemma judged_from {A} h (r : result E A) (f : A → Fallible resp E B) :
  (∀ a, r = Ok a → judged pre h (f a) post) → (∀ e, r = Throw e → post h (Throw e)) →
  judged pre h (from_result r ≫= f) post.
Proof. intros Ho Ht. apply judged_bind_ok. destruct r; simpl; auto. Qed.
End judge_fallible.

#[global] Arguments judged : simpl never.
#[global] Arguments runs : simpl never.
#[global] Arguments exec : simpl never.
#[global] Arguments Fallible_bind : simpl never.
#[global] Arguments Fallible_ret : simpl never.
