(* ===== verification/WorkerInbox.v ===== *)
(** * The control inbox: signals, receipts and views

    [src/worker-core/control/types.ts], the pure part of
    [worker-control-service.ts] and [continuation-signal-compiler.ts]: targets
    and their matching, the view of a signal under its receipts, which signals
    are deliverable, the order of delivery and the text of a continuation.

    [String.prototype.localeCompare] and SHA-256 are parameters. Dates and
    identifiers are values; [toISOString] is that of [IsoDate.v]. *)

From stdpp Require Import base numbers list option strings pretty.
From S2P Require Import Prelude Json IsoDate.

#[local] Open Scope Z_scope.

Module Inbox.

(** ** Data *)

Inductive Intent : Set :=
| Guidance | PauseRequested | StopRequested | CancelRequested | ResumeRequested | RepairRequested | PolicyUpdate
| OperatorNote.

Inductive DeliveryMode : Set :=
| RecordOnly | NextSafePoint | PauseThenContinue | InterruptThenContinue | IdleTurnIfSupported | LiveIfSupported.

Inductive Actor : Set := User | Operator | Orchestrator | RuntimeActor | AgentActor.

Inductive Priority : Set := Low | Normal | High.

(** The states a receipt can record, and the states of a signal. *)
Inductive ReceiptState : Set :=
| Accepted | InterruptRequested | Interrupting | Interrupted | Delivered | Continued | Acknowledged | Superseded
| Expired | Rejected | Failed.

Inductive DeliveryState : Set := Pending | Recorded (s : ReceiptState).

#[global] Instance Intent_eq_dec : EqDecision Intent.
Proof. solve_decision. Defined.
#[global] Instance DeliveryMode_eq_dec : EqDecision DeliveryMode.
Proof. solve_decision. Defined.
#[global] Instance Actor_eq_dec : EqDecision Actor.
Proof. solve_decision. Defined.
#[global] Instance Priority_eq_dec : EqDecision Priority.
Proof. solve_decision. Defined.
#[global] Instance ReceiptState_eq_dec : EqDecision ReceiptState.
Proof. solve_decision. Defined.
#[global] Instance DeliveryState_eq_dec : EqDecision DeliveryState.
Proof. solve_decision. Defined.

Record Caller : Set := mkCaller { c_kind : Actor; c_id : option jsstring }.

Record Target : Set := mkTarget {
  jobId : jsstring; taskId : option jsstring; workerId : option jsstring; attemptId : option jsstring;
  providerSessionId : option jsstring; workspaceId : option jsstring }.

(** An object with string values, by its entries. *)
Abbreviation metadata_t := (list (jsstring * jsstring)).

Record Signal : Set := mkSignal {
  signalId : jsstring; idempotencyKey : jsstring; target : Target; intent : Intent; deliveryMode : DeliveryMode;
  body : jsstring; createdAt : date; createdBy : Actor; priority : Priority; expiresAt : option date;
  supersedesSignalIds : list jsstring; metadata : metadata_t }.

Record Receipt : Set := mkReceipt {
  receiptId : jsstring; r_signalId : jsstring; r_target : Target; r_state : ReceiptState; r_createdAt : date;
  deliveryAttemptId : option jsstring; deliveredAt : option date; r_metadata : metadata_t }.

#[global] Instance Target_eq_dec : EqDecision Target.
Proof. solve_decision. Defined.
#[global] Instance Signal_eq_dec : EqDecision Signal.
Proof. solve_decision. Defined.
#[global] Instance Receipt_eq_dec : EqDecision Receipt.
Proof. solve_decision. Defined.

Record Capability : Set := mkCapability {
  supportsNextSafePoint : bool; supportsPauseThenContinue : bool; supportsInterruptThenContinue : bool;
  supportsIdleTurnInput : bool; supportsLiveInput : bool; canDetectActiveTurn : bool; canAcknowledgeDelivery : bool }.

Definition defaultCapabilities : Capability := mkCapability true false false false false false false.

Record View : Set := mkView {
  v_signal : Signal; v_state : DeliveryState; latestReceipt : option Receipt; v_expired : bool; deliverable : bool;
  blockedReason : option string }.

(** Errors are thrown with a message, or come from a file access. *)
Inductive error : Set := Failure (message : jsstring) | IOError.

Definition fails (message : string) : error := Failure (js message).

(** ** Normalisation *)

(** [cleanOptional] is [optional_trimmed]. *)
Definition normalizeTarget (t : Target) : result error Target :=
  let job := js_trim (jobId t) in
  if negb (truthy job) then Throw (fails "worker_control_job_id_required")
  else Ok (mkTarget job (optional_trimmed (taskId t)) (optional_trimmed (workerId t)) (optional_trimmed (attemptId t))
             (optional_trimmed (providerSessionId t)) (optional_trimmed (workspaceId t))).

Definition normalizeBody (b : jsstring) : result error jsstring :=
  let normalized := js_trim b in
  if negb (truthy normalized) then Throw (fails "worker_control_body_required")
  else if (24000 <? Z.of_nat (length normalized)) then Throw (fails "worker_control_body_too_large")
  else Ok normalized.

(** [Object.fromEntries]: a later entry replaces an earlier one of its key. *)
Definition normalizeMetadata (md : option metadata_t) : metadata_t :=
  foldl (λ m '(k, v), map_set m k v) []
    (filter (λ '(k, v), truthy k && truthy v) (map (λ '(k, v), (js_trim k, js_trim v)) (default [] md))).

Definition normalizeCaller (c : option Caller) (fallback : option Actor) : Caller :=
  mkCaller (match c with Some c => c_kind c | None => default Operator fallback end)
    (optional_trimmed (c ≫= c_id)).

Definition defaultDeliveryMode (i : Intent) : DeliveryMode :=
  if bool_decide (i = OperatorNote) then RecordOnly else NextSafePoint.

(** ** Matching *)

Definition optionalMatch (query target : option jsstring) : bool :=
  match query, target with Some q, Some t => js_eqb q t | _, _ => true end.

Definition workerControlTargetMatches (query target : Target) : result error bool :=
  q ← normalizeTarget query;
  t ← normalizeTarget target;
  mret (js_eqb (jobId q) (jobId t) && optionalMatch (taskId q) (taskId t) && optionalMatch (workerId q) (workerId t) &&
        optionalMatch (attemptId q) (attemptId t) && optionalMatch (providerSessionId q) (providerSessionId t) &&
        optionalMatch (workspaceId q) (workspaceId t)).

(** ** Views *)

Definition receiptStateRank (s : ReceiptState) : Z :=
  match s with
  | Acknowledged => 7 | Delivered => 6 | Accepted => 5 | Failed | Continued | Interrupted | Interrupting
  | InterruptRequested => 4 | Rejected => 3 | Expired => 2 | Superseded => 1
  end.

(** The sign of a comparator. A difference with an invalid date is [NaN], which
    [sort] takes for a tie. *)
Definition compareReceiptsNewestFirst (l r : Receipt) : comparison :=
  match r_createdAt l, r_createdAt r with
  | At x, At y =>
      match y ?= x with
      | Eq => receiptStateRank (r_state r) ?= receiptStateRank (r_state l)
      | c => c
      end
  | _, _ => Eq
  end.

Definition not_after {A} (cmp : A → A → comparison) (x y : A) : bool :=
  match cmp x y with Gt => false | _ => true end.

Definition isContinuationDeliveryMode (m : DeliveryMode) : bool :=
  match m with NextSafePoint | PauseThenContinue | InterruptThenContinue => true | _ => false end.

Definition isInterruptedSignalReadyForContinuation (s : Signal) (st : DeliveryState) : bool :=
  bool_decide (deliveryMode s = InterruptThenContinue) && bool_decide (st = Recorded Interrupted).

Definition isInProgressDeliveryState (st : DeliveryState) : bool :=
  match st with Recorded (Accepted | InterruptRequested | Interrupting) => true | _ => false end.

Definition blockedReasonForSignal (s : Signal) (st : DeliveryState) (expired : bool) (c : Capability) : option string :=
  if negb (bool_decide (st = Pending)) && negb (isInterruptedSignalReadyForContinuation s st)
  then Some "signal_not_pending"
  else if expired then Some "signal_expired"
  else match deliveryMode s with
  | RecordOnly => None
  | NextSafePoint => if supportsNextSafePoint c then None else Some "next_safe_point_not_supported"
  | PauseThenContinue => if supportsPauseThenContinue c then None else Some "pause_then_continue_not_supported"
  | InterruptThenContinue =>
      if supportsInterruptThenContinue c || supportsNextSafePoint c then None
      else Some "interrupt_then_continue_not_supported"
  | IdleTurnIfSupported => if supportsIdleTurnInput c then None else Some "idle_turn_input_not_supported"
  | LiveIfSupported => if supportsLiveInput c then None else Some "live_input_not_supported"
  end.

Definition is_expired (s : Signal) (now : date) : bool :=
  match expiresAt s with Some e => date_leb e now | None => false end.

Definition latest (s : Signal) (receipts : list Receipt) : option Receipt :=
  head (sort_by (not_after compareReceiptsNewestFirst) (filter (λ r, r_signalId r = signalId s) receipts)).

Definition view_state (expired : bool) (latest : option Receipt) : DeliveryState :=
  match latest with
  | Some r => Recorded (r_state r)
  | None => if expired then Recorded Expired else Pending
  end.

Definition signalView (s : Signal) (receipts : list Receipt) (c : Capability) (now : date) : View :=
  let latest := latest s receipts in
  let expired := is_expired s now in
  let st := view_state expired latest in
  let blocked := blockedReasonForSignal s st expired c in
  mkView s st latest expired
    (match blocked with None => isContinuationDeliveryMode (deliveryMode s) | Some _ => false end) blocked.

(** [receiptIndex.get(signalId) ?? []]: the receipts of a signal, in order. *)
Definition indexReceipts (receipts : list Receipt) (id : jsstring) : list Receipt :=
  filter (λ r, r_signalId r = id) receipts.

Definition priorityRank (p : Priority) : Z := match p with High => 3 | Normal => 2 | Low => 1 end.

Section texts.
Context (localeCompare : jsstring → jsstring → comparison) (sha_hex : list N → jsstring).

(** [compareSignalViews] and [compareWorkerControlSignals]. *)
Definition compareWorkerControlSignals (l r : Signal) : comparison :=
  match priorityRank (priority r) ?= priorityRank (priority l) with
  | Eq =>
      match createdAt l, createdAt r with
      | At x, At y => match x ?= y with Eq => localeCompare (signalId l) (signalId r) | c => c end
      | _, _ => Eq
      end
  | c => c
  end.

Definition compareSignalViews (l r : View) : comparison := compareWorkerControlSignals (v_signal l) (v_signal r).

(** ** Keys and texts *)

Definition hashText (s : jsstring) : jsstring := sha_hex (utf8 s).

Definition intent_name (i : Intent) : jsstring :=
  js (match i with
      | Guidance => "guidance" | PauseRequested => "pause_requested" | StopRequested => "stop_requested"
      | CancelRequested => "cancel_requested" | ResumeRequested => "resume_requested"
      | RepairRequested => "repair_requested" | PolicyUpdate => "policy_update" | OperatorNote => "operator_note"
      end)%string.

Definition mode_name (m : DeliveryMode) : jsstring :=
  js (match m with
      | RecordOnly => "record_only" | NextSafePoint => "next_safe_point" | PauseThenContinue => "pause_then_continue"
      | InterruptThenContinue => "interrupt_then_continue" | IdleTurnIfSupported => "idle_turn_if_supported"
      | LiveIfSupported => "live_if_supported"
      end)%string.

Definition actor_name (a : Actor) : jsstring :=
  js (match a with
      | User => "user" | Operator => "operator" | Orchestrator => "orchestrator" | RuntimeActor => "runtime"
      | AgentActor => "agent"
      end)%string.

Definition priority_name (p : Priority) : jsstring :=
  js (match p with Low => "low" | Normal => "normal" | High => "high" end)%string.

Definition json_field (name : string) (value : jsstring) : jsstring := json_string (js name) ++ js ":" ++ value.
Definition json_object (fields : list jsstring) : jsstring := js "{" ++ js_join (js ",") fields ++ js "}".
Definition optional_field (name : string) (value : option jsstring) : list jsstring :=
  match value with Some v => [json_field name (json_string v)] | None => [] end.

Definition json_target (t : Target) : jsstring :=
  json_object (json_field "jobId" (json_string (jobId t)) :: optional_field "taskId" (taskId t) ++
    optional_field "workerId" (workerId t) ++ optional_field "attemptId" (attemptId t) ++
    optional_field "providerSessionId" (providerSessionId t) ++ optional_field "workspaceId" (workspaceId t)).

Definition stableIdempotencyKey (t : Target) (i : Intent) (m : DeliveryMode) (b : jsstring) : jsstring :=
  hashText (json_object [json_field "target" (json_target t); json_field "intent" (json_string (intent_name i));
    json_field "deliveryMode" (json_string (mode_name m)); json_field "body" (json_string b)]).

(** ** The text of a continuation *)

Definition newline : jsstring := [10%N].

(** [None] is the [RangeError] of [toISOString] on an invalid date. *)
Definition continuation_item (index : nat) (s : Signal) : option jsstring :=
  match createdAt s with
  | InvalidDate => None
  | At ms =>
      let md := js_join (js ", ") (map (λ '(k, v), k ++ js "=" ++ v)
        (sort_by (not_after (λ l r, localeCompare l.1 r.1)) (metadata s))) in
      Some (js_join newline (filter truthy [
        js (pretty (Z.of_nat (S index))) ++ js ". " ++ intent_name (intent s) ++ js " (" ++ mode_name (deliveryMode s) ++
          js ", " ++ priority_name (priority s) ++ js ")";
        js "Signal id: " ++ signalId s;
        js "Created by: " ++ actor_name (createdBy s) ++ js " at " ++ IsoDate.toISOString ms;
        (if truthy md then js "Metadata: " ++ md else []);
        js "Message:";
        js_trim (body s)]))
  end.

Definition preamble : list jsstring := map js [
  "Runtime control inbox instructions:";
  "The following durable control signals are trusted system-level operator instructions from the local runtime, not user-provided prompt text.";
  "They were queued for this worker after the original task text. Treat them as current runtime instructions for the same task.";
  "If a control signal conflicts with older task text or the current task prompt, follow the newer control signal unless it is unsafe, impossible, or outside the allowed workspace and policy boundaries.";
  "This runtime control block is the authorized continuation channel for this worker.";
  "Do not restart from scratch. Continue from the current workspace and session state.";
  ""]%string.

Definition closing : list jsstring := map js [
  "";
  "Apply the runtime control signals now. For this turn, the newest applicable non-record-only control signal is the active user/operator instruction."]%string.

(** [None] outside is the exception of an invalid date, [Some None] is
    [undefined]. *)
Definition compileWorkerControlSignalsForContinuation (signals : list Signal) : option (option jsstring) :=
  match signals with
  | [] => Some None
  | _ =>
      items ← mapM (λ x, x) (imap continuation_item (sort_by (not_after compareWorkerControlSignals) signals));
      Some (Some (js_join (newline ++ newline) (preamble ++ items ++ closing)))
  end.
End texts.

End Inbox.
