(* ===== verification/WorkerControl.v ===== *)
(** * The control inbox: file store and service

    [src/store-local-file/worker-control-inbox], the file store of the inbox,
    and [src/worker-core/control/worker-control-service.ts], the service that
    enqueues signals, claims them for a continuation, confirms or releases the
    claims, supersedes signals and repairs stale claims.

    Both are programs over single file accesses, so that calls of several
    processes interleave between any two of them. An append can be torn by a
    failure: what follows a torn line is on the same line and does not parse.
    A claim file is created exclusively and then filled. Reads that fail look
    like missing files, as in the code; a parsed record is the record that was
    written. Of a receipt, the fields the service never sets are left out. *)

From stdpp Require Import base numbers list option strings gmap.
From S2P Require Import Prelude Json Programs WorkerInbox.

#[local] Open Scope Z_scope.

Module Control.
Import Inbox.

(** ** Calls *)

Inductive Operation : Set := EnqueueOp | SupersedeOp.

Record AuthInput : Set := mkAuth {
  au_caller : Caller; operation : Operation; au_target : Target; au_intent : Intent; au_mode : DeliveryMode;
  au_signalId : option jsstring }.

(** The decision of the authorization policy. *)
Record Decision : Set := mkDecision { allowed : bool; reason : option jsstring }.

(** [job] is the name of the directory of a job, [name] that of a claim file. *)
Inductive call : Set :=
| ListJobs
| ReadSignals (job : jsstring)
| ReadReceipts (job : jsstring)
| ListClaims (job : jsstring)
| ReadClaim (job name : jsstring)
| AppendSignal (job : jsstring) (s : Signal)
| AppendReceipts (job : jsstring) (rs : list Receipt)
| OpenClaim (job name : jsstring)
| FillClaim (job name : jsstring) (file : N) (r : Receipt)
| RemoveClaim (job name : jsstring)
| Authorize (i : AuthInput)
| NewId
| Now.

(** [OpenClaim] answers the new file, or nothing when there was one; [ReadClaim]
    answers nothing when the file is missing, cannot be read or is not a
    receipt. *)
Definition resp (c : call) : Set :=
  match c with
  | ListJobs | ListClaims _ => list jsstring
  | ReadSignals _ => list Signal
  | ReadReceipts _ => list Receipt
  | ReadClaim _ _ => option Receipt
  | OpenClaim _ _ => result error (option N)
  | AppendSignal _ _ | AppendReceipts _ _ | FillClaim _ _ _ _ | RemoveClaim _ _ => result error unit
  | Authorize _ => result error Decision
  | NewId => jsstring
  | Now => date
  end.

Abbreviation Sv := (Fallible resp error).

(** A port that may throw. *)
Definition try {A} (m : Sv (result error A)) : Sv A := r ← m; from_result r.

Definition list_jobs : Sv (list jsstring) := ask ListJobs.
Definition read_signals (job : jsstring) : Sv (list Signal) := ask (ReadSignals job).
Definition read_receipts (job : jsstring) : Sv (list Receipt) := ask (ReadReceipts job).
Definition list_claims (job : jsstring) : Sv (list jsstring) := ask (ListClaims job).
Definition read_claim (job name : jsstring) : Sv (option Receipt) := ask (ReadClaim job name).
Definition new_id : Sv jsstring := ask NewId.
Definition clock_now : Sv date := ask Now.
Definition append_signal (job : jsstring) (s : Signal) : Sv unit := try (ask (AppendSignal job s)).
Definition append_receipts (job : jsstring) (rs : list Receipt) : Sv unit := try (ask (AppendReceipts job rs)).
Definition open_claim (job name : jsstring) : Sv (option N) := try (ask (OpenClaim job name)).
Definition fill_claim (job name : jsstring) (file : N) (r : Receipt) : Sv unit := try (ask (FillClaim job name file r)).
Definition remove_claim (job name : jsstring) : Sv unit := try (ask (RemoveClaim job name)).

(** [Array.prototype.filter] with a predicate that may throw. *)
Fixpoint filter_throw {A} (f : A → result error bool) (l : list A) : result error (list A) :=
  match l with
  | [] => Ok []
  | x :: l => b ← f x; l' ← filter_throw f l; mret (if b : bool then x :: l' else l')
  end.

(** ** What the service demands of a store *)

Record InboxStore : Type := mkInboxStore {
  appendSignal : Signal → Sv Signal;
  listSignals : option Target → option (list jsstring) → Sv (list Signal);
  tryClaimDelivery : option (Receipt → Sv (option Receipt));
  releaseDeliveryClaim : option (Target → jsstring → option jsstring → Sv bool);
  appendReceipt : Receipt → Sv Receipt;
  appendReceipts : option (list Receipt → Sv (list Receipt));
  listReceipts : option Target → option (list jsstring) → Sv (list Receipt) }.

(** ** The file store *)

Section FileStore.
Context (sha_hex : list N → jsstring).

Definition jobDir (job : jsstring) : jsstring := hashText sha_hex job.
Definition claimPath (t : Target) (id : jsstring) : jsstring * jsstring := (jobDir (jobId t), hashText sha_hex id).

(** [persistSignal] and [persistReceipt] throw on an invalid date. *)
Definition persistable (d : date) : bool := match d with At _ => true | InvalidDate => false end.
Definition persistable_opt (d : option date) : bool := match d with Some d => persistable d | None => true end.

Definition persistSignal (s : Signal) : Sv Signal :=
  if persistable (createdAt s) && persistable_opt (expiresAt s) then mret s else raise IOError.
Definition persistReceipt (r : Receipt) : Sv Receipt :=
  if persistable (r_createdAt r) && persistable_opt (deliveredAt r) then mret r else raise IOError.

Definition file_appendSignal (s : Signal) : Sv Signal :=
  s' ← persistSignal s;
  append_signal (jobDir (jobId (target s))) s' ;;
  mret s.

Definition jobs_of (t : option Target) : Sv (list jsstring) :=
  match t with Some t => mret [jobDir (jobId t)] | None => list_jobs end.

Definition selects (ids : option (list jsstring)) (id : jsstring) : bool :=
  match default [] ids with [] => true | ids => bool_decide (id ∈ ids) end.

Definition target_matches (query : option Target) (t : Target) : result error bool :=
  match query with Some q => workerControlTargetMatches q t | None => Ok true end.

Definition file_listSignals (t : option Target) (ids : option (list jsstring)) : Sv (list Signal) :=
  jobs ← jobs_of t;
  groups ← for_list read_signals jobs;
  matching ← from_result (filter_throw (λ s, target_matches t (target s)) (concat groups));
  mret (List.filter (λ s, selects ids (signalId s)) matching).

Definition file_appendReceipt (r : Receipt) : Sv Receipt :=
  r' ← persistReceipt r;
  append_receipts (jobDir (jobId (r_target r))) [r'] ;;
  mret r.

Definition file_appendReceipts (rs : list Receipt) : Sv (list Receipt) :=
  match rs with
  | [] => mret []
  | r :: _ =>
      let path := jobDir (jobId (r_target r)) in
      if existsb (λ r, negb (js_eqb (jobDir (jobId (r_target r))) path)) rs
      then raise (fails "worker_control_receipt_batch_target_mismatch")
      else
        rs' ← for_list persistReceipt rs;
        append_receipts path rs' ;;
        mret rs
  end.

Definition file_tryClaimDelivery (r : Receipt) : Sv (option Receipt) :=
  let '(job, name) := claimPath (r_target r) (r_signalId r) in
  r' ← persistReceipt r;
  created ← open_claim job name;
  match created with Some file => fill_claim job name file r' ;; mret (Some r) | None => mret None end.

Definition file_releaseDeliveryClaim (t : Target) (id : jsstring) (attempt : option jsstring) : Sv bool :=
  let '(job, name) := claimPath t id in
  existing ← read_claim job name;
  match existing with
  | None => mret false
  | Some r =>
      if negb (bool_decide (r_state r = Accepted)) then mret false
      else if match attempt with Some a => negb (bool_decide (deliveryAttemptId r = Some a)) | None => false end
      then mret false
      else remove_claim job name ;; mret true
  end.

Definition readClaims (job : jsstring) : Sv (list Receipt) :=
  names ← list_claims job;
  found ← for_list (read_claim job) names;
  mret (omap id found).

Definition file_listReceipts (t : option Target) (ids : option (list jsstring)) : Sv (list Receipt) :=
  jobs ← jobs_of t;
  logged ← for_list read_receipts jobs;
  jobs' ← jobs_of t;
  claimed ← for_list readClaims jobs';
  matching ← from_result (filter_throw (λ r, target_matches t (r_target r)) (concat logged ++ concat claimed));
  mret (List.filter (λ r, selects ids (r_signalId r)) matching).

Definition file_store : InboxStore :=
  mkInboxStore file_appendSignal file_listSignals (Some file_tryClaimDelivery) (Some file_releaseDeliveryClaim)
    file_appendReceipt (Some file_appendReceipts) file_listReceipts.
End FileStore.

(** ** The service *)

Section Service.
Context (localeCompare : jsstring → jsstring → comparison) (sha_hex : list N → jsstring) (store : InboxStore).

Definition supportsDeferredDeliveryConfirmation : bool :=
  match tryClaimDelivery store, releaseDeliveryClaim store, appendReceipts store with
  | Some _, Some _, Some _ => true
  | _, _, _ => false
  end.

(** [x ?? this.clock.now()]. *)
Definition or_now (d : option date) : Sv date := match d with Some d => mret d | None => clock_now end.

Definition authorize (i : AuthInput) : Sv unit :=
  decision ← (try (ask (Authorize i)) : Sv Decision);
  if allowed decision then mret tt else raise (Failure (default (js "worker_control_unauthorized") (reason decision))).

Definition deliveryReceipt (t : Target) (id : jsstring) (st : ReceiptState) (at_ : date) (attempt : option jsstring)
    (delivered : option date) (md : option metadata_t) : Sv Receipt :=
  rid ← new_id;
  t ← from_result (normalizeTarget t);
  mret (mkReceipt rid id t st at_ attempt delivered (normalizeMetadata md)).

Definition findSignalOrThrow (t : Target) (id : jsstring) : Sv Signal :=
  let normalized := js_trim id in
  if negb (truthy normalized) then raise (fails "worker_control_signal_id_required")
  else
    found ← listSignals store (Some t) (Some [normalized]);
    match found with
    | s :: _ => mret s
    | [] => raise (fails "worker_control_signal_not_found")
    end.

Definition signalViewFor (s : Signal) (t : Target) (c : Capability) (now : date) : Sv View :=
  receipts ← listReceipts store (Some t) (Some [signalId s]);
  mret (signalView s receipts c now).

Definition sort_views (vs : list View) : list View := sort_by (not_after (compareSignalViews localeCompare)) vs.

Definition signalViews (t : Target) (c : Capability) (now : date) : Sv (list View) :=
  signals ← listSignals store (Some t) None;
  receipts ← listReceipts store (Some t) None;
  mret (sort_views (map (λ s, signalView s (indexReceipts receipts (signalId s)) c now) signals)).

Definition assertSignalCanBeSuperseded (t : Target) (id : jsstring) (now : date) (s : option Signal) : Sv unit :=
  s ← (match s with Some s => mret s | None => findSignalOrThrow t id end : Sv Signal);
  view ← signalViewFor s t defaultCapabilities now;
  if isInProgressDeliveryState (v_state view) then raise (fails "worker_control_signal_delivery_in_progress")
  else match v_state view with
  | Pending | Recorded Expired => mret tt
  | _ => raise (fails "worker_control_signal_already_delivered_use_corrective_signal")
  end.

Record SupersedeInput : Set := mkSupersede {
  su_target : Target; su_signalId : jsstring; supersededBySignalId : option jsstring; su_reason : option jsstring;
  su_now : option date; su_caller : option Caller }.

Definition supersede_metadata (i : SupersedeInput) : metadata_t :=
  (match truthy_opt (supersededBySignalId i) with Some b => [(js "supersededBySignalId", b)] | None => [] end) ++
  (match truthy_opt (su_reason i) with Some r => [(js "reason", r)] | None => [] end).

Definition markSuperseded (i : SupersedeInput) : Sv Receipt :=
  t ← from_result (normalizeTarget (su_target i));
  s ← findSignalOrThrow t (su_signalId i);
  now ← or_now (su_now i);
  assertSignalCanBeSuperseded t (signalId s) now (Some s) ;;
  authorize (mkAuth (normalizeCaller (su_caller i) None) SupersedeOp t (intent s) (deliveryMode s) (Some (signalId s))) ;;
  now' ← or_now (su_now i);
  r ← deliveryReceipt t (su_signalId i) Superseded now' None None (Some (supersede_metadata i));
  appendReceipt store r.

Record EnqueueInput : Set := mkEnqueue {
  en_target : Target; en_intent : Intent; en_mode : option DeliveryMode; en_body : jsstring; en_createdBy : option Actor;
  en_caller : option Caller; en_priority : option Priority; en_key : option jsstring; en_signalId : option jsstring;
  en_createdAt : option date; en_expiresAt : option date; en_supersedes : list jsstring; en_metadata : option metadata_t }.

Definition enqueue_key (i : EnqueueInput) (t : Target) (mode : DeliveryMode) (b : jsstring) : jsstring :=
  match truthy_opt (js_trim <$> en_key i) with
  | Some k => k
  | None => stableIdempotencyKey sha_hex t (en_intent i) mode b
  end.

Definition enqueueSignal (i : EnqueueInput) : Sv Signal :=
  now ← or_now (en_createdAt i);
  t ← from_result (normalizeTarget (en_target i));
  b ← from_result (normalizeBody (en_body i));
  let mode := default (defaultDeliveryMode (en_intent i)) (en_mode i) in
  let caller := normalizeCaller (en_caller i) (en_createdBy i) in
  authorize (mkAuth caller EnqueueOp t (en_intent i) mode None) ;;
  let key := enqueue_key i t mode b in
  existing ← listSignals store (Some t) None;
  match List.find (λ s, js_eqb (idempotencyKey s) key) existing with
  | Some s => mret s
  | None =>
      for_list (λ id, assertSignalCanBeSuperseded t id now None) (en_supersedes i) ;;
      id ← (match truthy_opt (js_trim <$> en_signalId i) with Some id => mret id | None => new_id end : Sv jsstring);
      let s := mkSignal id key t (en_intent i) mode b now (c_kind caller) (default Normal (en_priority i)) (en_expiresAt i)
                 (en_supersedes i) (normalizeMetadata (en_metadata i)) in
      appendSignal store s ;;
      for_list (λ old, markSuperseded (mkSupersede t old (Some id) (Some (js "superseded_by_new_signal")) (Some now)
                         (Some caller))) (supersedesSignalIds s) ;;
      mret s
  end.

(** [tryClaimDelivery] of the service: a store that cannot claim records the
    claim. *)
Definition claim (t : Target) (id : jsstring) (at_ : date) (attempt : jsstring) : Sv (option Receipt) :=
  r ← deliveryReceipt t id Accepted at_ (Some attempt) None None;
  match tryClaimDelivery store with
  | Some f => f r
  | None => r ← appendReceipt store r; mret (Some r)
  end.

Record Batch : Set := mkBatch {
  b_target : Target; b_attempt : jsstring; b_signals : list Signal; b_signalIds : list jsstring;
  b_message : option jsstring }.

Record ConsumeInput : Set := mkConsume {
  co_target : Target; co_attempt : jsstring; co_capabilities : option Capability; deferConfirmation : bool;
  co_now : option date }.

Definition record_expired (now : date) (v : View) : Sv Receipt :=
  r ← deliveryReceipt (target (v_signal v)) (signalId (v_signal v)) Expired now None None None;
  appendReceipt store r.

(** The loop over the deliverable signals: a signal that is claimed is kept. *)
Definition claim_signal (now : date) (attempt : jsstring) (defer : bool) (s : Signal) : Sv (option Signal) :=
  accepted ← claim (target s) (signalId s) now attempt;
  match accepted with
  | None => mret None
  | Some _ =>
      if defer then mret (Some s)
      else
        r ← deliveryReceipt (target s) (signalId s) Delivered now (Some attempt) (Some now) None;
        appendReceipt store r ;;
        mret (Some s)
  end.

Definition consumeForContinuation (i : ConsumeInput) : Sv Batch :=
  t ← from_result (normalizeTarget (co_target i));
  now ← or_now (co_now i);
  views ← signalViews t (default defaultCapabilities (co_capabilities i)) now;
  for_list (record_expired now)
    (List.filter (λ v, bool_decide (v_state v = Pending) && v_expired v) views) ;;
  claimed ← for_list (claim_signal now (co_attempt i) (deferConfirmation i)) (map v_signal (List.filter deliverable views));
  let claimed := omap id claimed in
  match compileWorkerControlSignalsForContinuation localeCompare claimed with
  | None => raise IOError
  | Some message => mret (mkBatch t (co_attempt i) claimed (map signalId claimed) message)
  end.

(** The receipt that confirms a signal of a batch, unless it is confirmed. *)
Definition confirm_signal (t : Target) (attempt : jsstring) (now : date) (id : jsstring) : Sv (option Receipt) :=
  s ← findSignalOrThrow t id;
  view ← signalViewFor s t defaultCapabilities now;
  let mine := bool_decide ((latestReceipt view ≫= deliveryAttemptId) = Some attempt) in
  if bool_decide (v_state view = Recorded Delivered) && mine then mret None
  else if negb (bool_decide (v_state view = Recorded Accepted)) || negb mine
  then raise (fails "worker_control_signal_delivery_claim_mismatch")
  else r ← deliveryReceipt (target s) id Delivered now (Some attempt) (Some now) None; mret (Some r).

Definition confirmContinuationDelivery (b : Batch) (now : option date) : Sv unit :=
  now ← or_now now;
  receipts ← for_list (confirm_signal (b_target b) (b_attempt b) now) (b_signalIds b);
  match omap id receipts with
  | [] => mret tt
  | receipts =>
      match appendReceipts store with
      | None => raise (fails "worker_control_delivery_batch_append_unsupported")
      | Some f => f receipts ;; mret tt
      end
  end.

Definition release_signal (release : Target → jsstring → option jsstring → Sv bool) (t : Target) (attempt id : jsstring)
    : Sv unit :=
  released ← release t id (Some attempt);
  if released : bool then mret tt
  else
    s ← findSignalOrThrow t id;
    now ← clock_now;
    view ← signalViewFor s t defaultCapabilities now;
    if bool_decide (v_state view = Recorded Delivered) then mret tt
    else raise (fails "worker_control_signal_delivery_claim_mismatch").

Definition releaseContinuationDelivery (b : Batch) : Sv unit :=
  match releaseDeliveryClaim store with
  | None =>
      match b_signalIds b with [] => mret tt | _ => raise (fails "worker_control_delivery_claim_release_unsupported") end
  | Some release => for_list (release_signal release (b_target b) (b_attempt b)) (b_signalIds b) ;; mret tt
  end.

(** *** Reports *)

Record Query : Set := mkQuery {
  q_target : option Target; q_signalIds : option (list jsstring); q_states : list DeliveryState; includeExpired : bool;
  includeBodies : bool; q_now : option date }.

Definition normalize_query (t : option Target) : result error (option Target) :=
  match t with Some t => t ← normalizeTarget t; mret (Some t) | None => Ok None end.

Definition without_body (s : Signal) : Signal :=
  mkSignal (signalId s) (idempotencyKey s) (target s) (intent s) (deliveryMode s) [] (createdAt s) (createdBy s)
    (priority s) (expiresAt s) (supersedesSignalIds s) (metadata s).

Definition service_listSignals (q : Query) : Sv (list View) :=
  now ← or_now (q_now q);
  t ← from_result (normalize_query (q_target q));
  signals ← listSignals store t (q_signalIds q);
  t' ← from_result (normalize_query (q_target q));
  receipts ← listReceipts store t' (q_signalIds q);
  let views := map (λ s, signalView (if includeBodies q then s else without_body s) (indexReceipts receipts (signalId s))
                           defaultCapabilities now) signals in
  mret (sort_views (List.filter (λ v, match q_states q with [] => true | states => bool_decide (v_state v ∈ states) end)
    (List.filter (λ v, includeExpired q || negb (v_expired v)) views))).

Record ControlDecision : Set := mkControlDecision {
  safeToContinue : bool; pendingSignals : list View; deliverableSignals : list View; blockedSignals : list View;
  recordOnlySignals : list View }.

Definition is_pending (v : View) : bool := bool_decide (v_state v = Pending).
Definition is_record_only (v : View) : bool := bool_decide (deliveryMode (v_signal v) = RecordOnly).

(** The warnings are texts about the lengths of two of the lists. *)
Definition getDecision (t : Target) (c : option Capability) (now : option date) : Sv ControlDecision :=
  t ← from_result (normalizeTarget t);
  now ← or_now now;
  views ← signalViews t (default defaultCapabilities c) now;
  let pending := List.filter is_pending views in
  let blocked := List.filter (λ v, negb (deliverable v) && negb (is_record_only v)) pending in
  mret (mkControlDecision (match blocked with [] => true | _ => false end) pending (List.filter deliverable views) blocked
          (List.filter is_record_only pending)).

(** [now - createdAt < staleAfter]; with an invalid date the test fails. *)
Definition is_recent (now createdAt : date) (staleAfterMs : num) : bool :=
  match now, createdAt with At n, At c => num_ltb (num_of_Z (n - c)) staleAfterMs | _, _ => false end.

Definition repair_view (release : Target → jsstring → option jsstring → Sv bool) (now : date) (staleAfterMs : num) (v : View)
    : Sv (option jsstring) :=
  match latestReceipt v with
  | None => mret None
  | Some r =>
      if is_recent now (r_createdAt r) staleAfterMs then mret None
      else
        released ← release (r_target r) (r_signalId r) (deliveryAttemptId r);
        mret (if released : bool then Some (signalId (v_signal v)) else None)
  end.

Definition is_accepted (v : View) : bool :=
  bool_decide (v_state v = Recorded Accepted) && bool_decide ((r_state <$> latestReceipt v) = Some Accepted).

(** The ids of the repaired signals, and whether there is a warning. *)
Definition repairAcceptedDeliveryClaims (views : list View) (now : date) (staleAfterMs : option num)
    : Sv (list jsstring * bool) :=
  match List.filter is_accepted views, releaseDeliveryClaim store with
  | [], _ => mret ([], false)
  | _, None => mret ([], true)
  | accepted, Some release =>
      repaired ← for_list (repair_view release now (default (num_of_Z (5 * 60 * 1000)) staleAfterMs)) accepted;
      let ids := omap id repaired in
      mret (ids, match ids with [] => true | _ => false end)
  end.

Record Report : Set := mkReport {
  signalCount : nat; state_counts : DeliveryState → nat; deliverableCount : nat; blockedCount : nat;
  repairedSignalIds : list jsstring; repair_warning : bool }.

Definition count_of (f : View → bool) (vs : list View) : nat := length (List.filter f vs).

Definition reconcileSnapshot (t : Target) (c : option Capability) (now : option date) (repair : bool)
    (staleAfterMs : option num) : Sv (Report * list View) :=
  t ← from_result (normalizeTarget t);
  now ← or_now now;
  let c := default defaultCapabilities c in
  initial ← signalViews t c now;
  repaired ← (if repair then repairAcceptedDeliveryClaims initial now staleAfterMs else mret ([], false)
              : Sv (list jsstring * bool));
  views ← (match repaired.1 with [] => mret initial | _ => signalViews t c now end : Sv (list View));
  mret (mkReport (length views) (λ st, count_of (λ v, bool_decide (v_state v = st)) views) (count_of deliverable views)
          (count_of (λ v, is_pending v && match blockedReason v with Some _ => true | None => false end &&
                          negb (is_record_only v)) views)
          repaired.1 repaired.2, views).
End Service.

(** ** The disk *)

(** A log: its complete lines, and what follows the last newline: [Some None]
    is a fragment, [Some (Some r)] a record whose newline is missing. *)
Record log (A : Type) : Type := mkLog { lines : list A; tail : option (option A) }.
Arguments mkLog {A}.
Arguments lines {A}.
Arguments tail {A}.

Definition empty_log {A} : log A := mkLog [] None.

Definition read_log {A} (l : log A) : list A :=
  lines l ++ match tail l with Some (Some r) => [r] | _ => [] end.

(** Lines appended after an unfinished line: the first is lost with it. *)
Definition append_log {A} (rs : list A) (l : log A) : log A :=
  match rs, tail l with
  | [], _ => l
  | _ :: rs', Some _ => mkLog (lines l ++ rs') None
  | _, None => mkLog (lines l ++ rs) None
  end.

(** An append that fails has written nothing, or some whole lines, and perhaps
    a part of the next line or all of it but the newline. *)
Definition torn {A} (rs : list A) (l l' : log A) : Prop :=
  ∃ n, l' = append_log (take n rs) l ∨
       ∃ r, rs !! n = Some r ∧
         let l1 := append_log (take n rs) l in
         l' = mkLog (lines l1) (Some None) ∨ (tail l1 = None ∧ l' = mkLog (lines l1) (Some (Some r))).

(** A claim file has an identity and holds a receipt once it is filled. *)
Record dir : Type := mkDir {
  signals : log Signal; receipts : log Receipt; claims : gmap jsstring (N * option Receipt) }.

Record disk : Type := mkDisk { jobs : gmap jsstring dir; next_file : N }.

Definition empty_dir : dir := mkDir empty_log empty_log ∅.

Definition dir_of (d : disk) (job : jsstring) : dir := default empty_dir (jobs d !! job).

Definition set_dir (job : jsstring) (x : dir) (d : disk) : disk := mkDisk (<[job := x]> (jobs d)) (next_file d).

Definition set_signals (job : jsstring) (l : log Signal) (d : disk) : disk :=
  set_dir job (mkDir l (receipts (dir_of d job)) (claims (dir_of d job))) d.
Definition set_receipts (job : jsstring) (l : log Receipt) (d : disk) : disk :=
  set_dir job (mkDir (signals (dir_of d job)) l (claims (dir_of d job))) d.
Definition set_claims (job : jsstring) (f : gmap jsstring (N * option Receipt) → gmap jsstring (N * option Receipt)) (d : disk)
    : disk :=
  set_dir job (mkDir (signals (dir_of d job)) (receipts (dir_of d job)) (f (claims (dir_of d job)))) d.

Definition create_claim (job name : jsstring) (d : disk) : disk :=
  let d' := set_claims job <[name := (next_file d, None)]> d in mkDisk (jobs d') (next_file d + 1).

(** A write through the open file reaches the directory only while the file is
    still in it. *)
Definition fill (job name : jsstring) (file : N) (x : option Receipt) (d : disk) : disk :=
  match claims (dir_of d job) !! name with
  | Some (file', _) => if (file' =? file)%N then set_claims job <[name := (file, x)]> d else d
  | None => d
  end.

(** What a call may answer and do. Reads may fail, and then look like missing
    files; writes may fail before, in the middle or after their effect. *)
Definition step (c : call) (d : disk) : resp c → disk → Prop :=
  match c with
  | ListJobs => λ r d', d' = d ∧ (r = [] ∨ r ≡ₚ elements (dom (jobs d)))
  | ReadSignals job => λ r d', d' = d ∧ (r = [] ∨ r = read_log (signals (dir_of d job)))
  | ReadReceipts job => λ r d', d' = d ∧ (r = [] ∨ r = read_log (receipts (dir_of d job)))
  | ListClaims job => λ r d', d' = d ∧ (r = [] ∨ r ≡ₚ elements (dom (claims (dir_of d job))))
  | ReadClaim job name => λ r d', d' = d ∧ (r = None ∨ ∃ file, claims (dir_of d job) !! name = Some (file, r))
  | AppendSignal job s => λ r d',
      (r = Ok tt ∧ d' = set_signals job (append_log [s] (signals (dir_of d job))) d) ∨
      (r = Throw IOError ∧ ∃ l, torn [s] (signals (dir_of d job)) l ∧ d' = set_signals job l d)
  | AppendReceipts job rs => λ r d',
      (r = Ok tt ∧ d' = set_receipts job (append_log rs (receipts (dir_of d job))) d) ∨
      (r = Throw IOError ∧ ∃ l, torn rs (receipts (dir_of d job)) l ∧ d' = set_receipts job l d)
  | OpenClaim job name => λ r d',
      match claims (dir_of d job) !! name with
      | Some _ => (r = Ok None ∨ r = Throw IOError) ∧ d' = d
      | None =>
          (r = Ok (Some (next_file d)) ∧ d' = create_claim job name d) ∨
          (r = Throw IOError ∧ (d' = d ∨ d' = create_claim job name d))
      end
  | FillClaim job name file x => λ r d',
      (r = Ok tt ∧ d' = fill job name file (Some x) d) ∨
      (r = Throw IOError ∧ (d' = d ∨ d' = fill job name file (Some x) d))
  | RemoveClaim job name => λ r d',
      (r = Ok tt ∧ d' = set_claims job (delete name) d) ∨
      (r = Throw IOError ∧ (d' = d ∨ d' = set_claims job (delete name) d))
  | Authorize i => λ r d', d' = d
  | NewId => λ r d', d' = d
  | Now => λ r d', d' = d
  end.

(** A quiet machine: no failures, one clock, one policy, numbered ids. *)
Record world : Type := mkWorld { wdisk : disk; clock : date; ids : N }.

Section quiet.
Context (fresh : N → jsstring) (policy : AuthInput → Decision).

Definition with_disk (w : world) (d : disk) : world := mkWorld d (clock w) (ids w).

Definition quiet (c : call) (w : world) : resp c * world :=
  let d := wdisk w in
  match c with
  | ListJobs => (elements (dom (jobs d)), w)
  | ReadSignals job => (read_log (signals (dir_of d job)), w)
  | ReadReceipts job => (read_log (receipts (dir_of d job)), w)
  | ListClaims job => (elements (dom (claims (dir_of d job))), w)
  | ReadClaim job name => (claims (dir_of d job) !! name ≫= snd, w)
  | AppendSignal job s => (Ok tt, with_disk w (set_signals job (append_log [s] (signals (dir_of d job))) d))
  | AppendReceipts job rs => (Ok tt, with_disk w (set_receipts job (append_log rs (receipts (dir_of d job))) d))
  | OpenClaim job name =>
      match claims (dir_of d job) !! name with
      | Some _ => (Ok None, w)
      | None => (Ok (Some (next_file d)), with_disk w (create_claim job name d))
      end
  | FillClaim job name file x => (Ok tt, with_disk w (fill job name file (Some x) d))
  | RemoveClaim job name => (Ok tt, with_disk w (set_claims job (delete name) d))
  | Authorize i => (Ok (policy i), w)
  | NewId => (fresh (ids w), mkWorld d (clock w) (ids w + 1))
  | Now => (clock w, w)
  end.

Lemma quiet_step c w : step c (wdisk w) (quiet c w).1 (wdisk (quiet c w).2).
Proof.
  destruct c; simpl; try by auto.
  - split; [done|]. destruct (claims _ !! name) as [[file x]|]; simpl; [|by left]. right. eauto.
  - destruct (claims _ !! name); simpl; auto.
Qed.
End quiet.

(** ** Runs of the programs *)

(** Takes the run of a bind apart, for a run that ends normally. *)
Ltac run_inv H :=
  repeat match type of H with
  | runs (_ ≫= _) _ (Ok _) =>
      let a := fresh "a" in let H1 := fresh "R" in
      apply runs_bind_ok in H as [(a & ? & ? & -> & H1 & H)|(? & _ & [=])]
  end.

Lemma runs_mret {A} (x : A) tr a : runs (mret x : Sv A) tr (Ok a) → tr = [] ∧ x = a.
Proof. intros [-> [= ->]]. done. Qed.

Lemma runs_from_result {A} (x : result error A) tr a : runs (from_result x : Sv A) tr (Ok a) → tr = [] ∧ x = Ok a.
Proof. intros [-> ->]. done. Qed.

Lemma runs_ask (c : call) tr (r : resp c) : runs (ask c : Sv (resp c)) tr (Ok r) → tr = [Ev c r].
Proof. intros (r' & tr' & -> & -> & [= ->]). done. Qed.

Lemma runs_try {A} (m : Sv (result error A)) tr a : runs (try m) tr (Ok a) → runs m tr (Ok (Ok a)).
Proof. unfold try. intros H. run_inv H. apply runs_from_result in H as [-> ->]. by rewrite app_nil_r. Qed.

(** ** Targets *)

Lemma normalize_idem t t' : normalizeTarget t = Ok t' → normalizeTarget t' = Ok t'.
Proof.
  unfold normalizeTarget. destruct (truthy (js_trim (jobId t))) eqn:E; simpl; [|done]. intros [= <-]. simpl.
  rewrite js_trim_idem, E, !optional_trimmed_idem. done.
Qed.

Lemma matches_job q t q' :
  normalizeTarget q = Ok q' → workerControlTargetMatches q t = Ok true → ∃ t', normalizeTarget t = Ok t' ∧ jobId t' = jobId q'.
Proof.
  unfold workerControlTargetMatches. intros ->. simpl. destruct (normalizeTarget t) as [t'|]; simpl; [|done].
  intros [= H]. exists t'. split; [done|]. bools. by symmetry.
Qed.

Lemma filter_throw_Ok {A} (f : A → result error bool) l l' : filter_throw f l = Ok l' → ∀ x, x ∈ l' → f x = Ok true ∧ x ∈ l.
Proof.
  revert l'. induction l as [|x l IH]; intros l'; simpl; [by intros [= <-] ? ?%not_elem_of_nil|].
  destruct (f x) as [b|] eqn:Ef; simpl; [|done]. destruct (filter_throw f l) as [l1|]; simpl; [|done]. intros [= <-] y.
  specialize (IH l1 eq_refl y). destruct b; [|set_solver]. rewrite elem_of_cons. intros [->|?]; set_solver.
Qed.

Lemma filter_nil_all {A} (f : A → bool) l : (∀ x, x ∈ l → f x = false) → List.filter f l = [].
Proof.
  induction l as [|x l IH]; intros Hl; [done|]. simpl. rewrite Hl by apply list_elem_of_here.
  apply IH. intros y Hy. apply Hl. by apply list_elem_of_further.
Qed.

Lemma filter_sub {A} (f : A → bool) l : List.filter f l `sublist_of` l.
Proof. induction l as [|x l IH]; [done|]. simpl. destruct (f x); by constructor. Qed.

(** ** Claims *)

Section claims.
Context (localeCompare : jsstring → jsstring → comparison) (sha_hex : list N → jsstring).
Let store := file_store sha_hex.

Lemma dir_of_set job x d j : dir_of (set_dir job x d) j = if decide (j = job) then x else dir_of d j.
Proof.
  unfold dir_of, set_dir. simpl. destruct (decide (j = job)) as [->|Hne].
  - by rewrite lookup_insert_eq.
  - by rewrite lookup_insert_ne.
Qed.

Lemma claims_set_claims job f d j :
  claims (dir_of (set_claims job f d) j) = if decide (j = job) then f (claims (dir_of d job)) else claims (dir_of d j).
Proof. unfold set_claims. rewrite dir_of_set. by destruct (decide _). Qed.

Lemma dir_of_create job name d j : dir_of (create_claim job name d) j = dir_of (set_claims job <[name := (next_file d, None)]> d) j.
Proof. done. Qed.

Lemma claims_other (c : call) (d d' : disk) job x :
  claims x = claims (dir_of d job) → ∀ j, claims (dir_of (set_dir job x d) j) = claims (dir_of d j).
Proof. intros Hx j. rewrite dir_of_set. by destruct (decide (j = job)) as [->|]. Qed.

Lemma fill_claims job name file x d j n :
  is_Some (claims (dir_of d j) !! n) ↔ is_Some (claims (dir_of (fill job name file x d) j) !! n).
Proof.
  unfold fill. destruct (claims (dir_of d job) !! name) as [[file' y]|] eqn:E; [|done].
  destruct (_ =? _)%N; [|done]. rewrite claims_set_claims. destruct (decide (j = job)) as [->|]; [|done].
  destruct (decide (name = n)) as [->|]; [rewrite lookup_insert_eq, E|rewrite lookup_insert_ne by done]; naive_solver.
Qed.

(** A claim stays until it is removed. *)
Lemma claim_kept j n c d r d' :
  step c d r d' → is_Some (claims (dir_of d j) !! n) → c = RemoveClaim j n ∨ is_Some (claims (dir_of d' j) !! n).
Proof.
  intros Hs Hn.
  assert (∀ job l, is_Some (claims (dir_of (set_signals job l d) j) !! n)) as Hsig.
  { intros. unfold set_signals. by rewrite claims_other. }
  assert (∀ job l, is_Some (claims (dir_of (set_receipts job l d) j) !! n)) as Hrec.
  { intros. unfold set_receipts. by rewrite claims_other. }
  assert (∀ job name, is_Some (claims (dir_of (create_claim job name d) j) !! n)) as Hnew.
  { intros. rewrite dir_of_create, claims_set_claims. destruct (decide (j = job)) as [->|]; [|done].
    rewrite lookup_insert_is_Some. by destruct (decide (name = n)); auto. }
  assert (∀ job name, c = RemoveClaim j n ∨ is_Some (claims (dir_of (set_claims job (delete name) d) j) !! n) ∨ (job = j ∧ name = n)) as Hdel.
  { intros. right. rewrite claims_set_claims. destruct (decide (j = job)) as [->|]; [|by left].
    destruct (decide (name = n)) as [->|]; [by right|]. left. by rewrite lookup_delete_ne. }
  destruct c; simpl in Hs.
  1-5: by right; destruct Hs as [-> _].
  - right. destruct Hs as [[_ ->]|(_ & l & _ & ->)]; auto.
  - right. destruct Hs as [[_ ->]|(_ & l & _ & ->)]; auto.
  - right. destruct (claims (dir_of d job) !! name); [by destruct Hs as [_ ->]|]. naive_solver.
  - right. destruct Hs as [[_ ->]|[_ [->| ->]]]; [by apply fill_claims|done|by apply fill_claims].
  - destruct (Hdel job name) as [|[H|[-> ->]]]; [by left| |by left].
    right. destruct Hs as [[_ ->]|[_ [->| ->]]]; done.
  - by right; subst.
  - by right; subst.
  - by right; subst.
Qed.

Definition opened (j n : jsstring) (e : event resp) : bool :=
  match e with
  | Ev c r =>
      match c return resp c → bool with
      | OpenClaim j' n' => λ r, js_eqb j' j && js_eqb n' n && match r with Ok (Some _) => true | _ => false end
      | _ => λ _, false
      end r
  end.

(** How often a claim was granted in a trace. *)
Definition grants (j n : jsstring) (tr : list (event resp)) : nat := length (List.filter (opened j n) tr).

Lemma grants_cons j n e tr : grants j n (e :: tr) = ((if opened j n e then 1 else 0) + grants j n tr)%nat.
Proof. unfold grants. simpl. by destruct (opened j n e). Qed.

Lemma opened_step j n c d r d' :
  step c d r d' → opened j n (Ev c r) = true → claims (dir_of d j) !! n = None ∧ is_Some (claims (dir_of d' j) !! n).
Proof.
  destruct c; simpl; try done. intros Hs Ho. bools. subst. destruct (claims (dir_of d j) !! n) eqn:E.
  - destruct Hs as [[->| ->] _]; done.
  - split; [done|]. destruct Hs as [[-> ->]|[-> _]]; [|done]. rewrite dir_of_create, claims_set_claims, decide_True by done.
    rewrite lookup_insert_eq. eauto.
Qed.

(** Without a removal, a claim is granted at most once, and not at all when it
    is there already. *)
Lemma granted_once j n d tr d' :
  serves step d tr d' → (∀ k r, (k, Ev (RemoveClaim j n) r) ∉ tr) →
  (grants j n tr.*2 ≤ 1)%nat ∧ (is_Some (claims (dir_of d j) !! n) → grants j n tr.*2 = 0%nat).
Proof.
  revert d. induction tr as [|[i [c r]] tr IH]; intros d Hs Hno; [split; [unfold grants; simpl; lia|done]|].
  simpl in Hs. destruct Hs as (d1 & Hs & Htr). destruct (IH d1 Htr) as [H1 H0]; [set_solver|].
  rewrite fmap_cons, grants_cons. cbn [snd]. destruct (opened j n (Ev c r)) eqn:Eo.
  - destruct (opened_step _ _ _ _ _ _ Hs Eo) as [HN HS]. specialize (H0 HS). rewrite HN. split; [lia|]. by intros [? [=]].
  - split; [lia|]. intros Hc. destruct (claim_kept j n c d r d1 Hs Hc) as [->|]; [|auto].
    destruct (Hno i r). by apply list_elem_of_here.
Qed.

Lemma grants_app j n tr tr' : grants j n (tr ++ tr') = (grants j n tr + grants j n tr')%nat.
Proof. unfold grants. by rewrite List.filter_app, length_app. Qed.

Lemma grants_thread j n i tr : (grants j n (of_thread i tr) ≤ grants j n tr.*2)%nat.
Proof.
  induction tr as [|[k e] tr IH]; [done|]. rewrite fmap_cons, grants_cons, ?of_thread_cons. cbn [snd].
  destruct (k =? i)%nat; rewrite ?grants_cons; destruct (opened j n e); lia.
Qed.

Lemma grants_two j n i i' tr :
  i ≠ i' → (grants j n (of_thread i tr) + grants j n (of_thread i' tr) ≤ grants j n tr.*2)%nat.
Proof.
  intros Hne. induction tr as [|[k e] tr IH]; [unfold grants; simpl; lia|]. rewrite fmap_cons, grants_cons, ?of_thread_cons. cbn [snd].
  destruct (Nat.eqb_spec k i), (Nat.eqb_spec k i'); subst; rewrite ?grants_cons; destruct (opened j n e); try lia; done.
Qed.

(** ** What a consuming call has claimed *)

Definition claim_event (s : Signal) (e : event resp) : Prop :=
  ∃ t file, normalizeTarget (target s) = Ok t ∧
    e = Ev (OpenClaim (jobDir sha_hex (jobId t)) (hashText sha_hex (signalId s))) (Ok (Some file)).

Lemma claim_runs t id at_ attempt tr r :
  runs (claim store t id at_ attempt) tr (Ok (Some r)) →
  ∃ t' file, normalizeTarget t = Ok t' ∧
    Ev (OpenClaim (jobDir sha_hex (jobId t')) (hashText sha_hex id)) (Ok (Some file)) ∈ tr.
Proof.
  unfold claim, deliveryReceipt. intros H. run_inv H. run_inv R.
  apply runs_from_result in R1 as [-> Ht]. apply runs_mret in R as [-> <-]. simpl in H.
  unfold file_tryClaimDelivery in H. cbn [r_target r_signalId claimPath] in H. run_inv H.
  destruct a2 as [file|]; [|by apply runs_mret in H as [_ [=]]].
  unfold open_claim in R1. apply runs_try, runs_ask in R1 as ->.
  exists a1, file. split; [done|]. set_solver.
Qed.

Lemma claim_signal_runs now attempt defer s tr o :
  runs (claim_signal store now attempt defer s) tr (Ok o) →
  match o with Some s' => s' = s ∧ ∃ e, e ∈ tr ∧ claim_event s e | None => True end.
Proof.
  unfold claim_signal. intros H. run_inv H. destruct a as [r|]; [|by apply runs_mret in H as [_ <-]].
  apply claim_runs in R as (t & file & Ht & Hin).
  assert (o = Some s) as ->.
  { destruct defer; [by apply runs_mret in H as [_ <-]|]. run_inv H. by apply runs_mret in H as [_ <-]. }
  split; [done|]. eexists. split; [apply elem_of_app; left; exact Hin|]. exists t, file. done.
Qed.

Lemma claim_loop_runs now attempt defer l tr os :
  runs (for_list (claim_signal store now attempt defer) l) tr (Ok os) →
  omap id os `sublist_of` l ∧ ∃ es, Forall2 claim_event (omap id os) es ∧ es `sublist_of` tr.
Proof.
  revert tr os. induction l as [|s l IH]; intros tr os H; cbn [for_list] in H.
  - apply runs_mret in H as [-> <-]. split; [done|]. exists []. split; [constructor|done].
  - run_inv H. apply runs_mret in H as [-> <-]. apply claim_signal_runs in R. destruct (IH _ _ R0) as (Hsub & es & Hes & Hsubtr).
    destruct a as [s'|]; simpl.
    + destruct R as (-> & e & Hin & He). split; [by apply sublist_skip|]. exists (e :: es). split; [by constructor|].
      rewrite app_nil_r. apply (sublist_app [e] _ es); [by apply singleton_sublist_l|done].
    + split; [by apply sublist_cons|]. exists es. split; [done|]. rewrite app_nil_r. by apply sublist_inserts_l.
Qed.

Lemma list_signals_runs t tr ss :
  runs (file_listSignals sha_hex (Some t) None) tr (Ok ss) → ∀ s, s ∈ ss → workerControlTargetMatches t (target s) = Ok true.
Proof.
  unfold file_listSignals. intros H. run_inv H. apply runs_from_result in R1 as [-> Hf]. apply runs_mret in H as [_ <-].
  intros s Hs%list_elem_of_In%List.filter_In. destruct Hs as [Hs _].
  apply list_elem_of_In in Hs. by apply (filter_throw_Ok _ _ _ Hf).
Qed.

Lemma views_runs t c now tr vs :
  runs (signalViews localeCompare store t c now) tr (Ok vs) →
  ∃ receipts, ∀ v, v ∈ vs → workerControlTargetMatches t (target (v_signal v)) = Ok true ∧
    v = signalView (v_signal v) (indexReceipts receipts (signalId (v_signal v))) c now.
Proof.
  unfold signalViews. intros H. run_inv H. apply runs_mret in H as [_ <-]. exists a0. intros v Hv.
  unfold sort_views in Hv. rewrite sort_by_perm in Hv. apply list_elem_of_fmap in Hv as (s & -> & Hs). simpl.
  split; [|done]. eapply list_signals_runs; [exact R|done].
Qed.

(** Every signal of a batch was claimed by the call, in this order, and is of
    the job of the batch. *)
Lemma consume_runs ci tr b :
  runs (consumeForContinuation localeCompare store ci) tr (Ok b) →
  normalizeTarget (co_target ci) = Ok (b_target b) ∧ b_signalIds b = map signalId (b_signals b) ∧
  ∃ es, Forall2 (λ s e, ∃ file, e = Ev (OpenClaim (jobDir sha_hex (jobId (b_target b))) (hashText sha_hex (signalId s)))
                                       (Ok (Some file))) (b_signals b) es ∧ es `sublist_of` tr.
Proof.
  unfold consumeForContinuation. intros H. run_inv H. apply runs_from_result in R as [-> Ht].
  apply claim_loop_runs in R3 as (Hsub & es & Hes & Hin). apply views_runs in R1 as (receipts & Hviews).
  destruct (compileWorkerControlSignalsForContinuation _ _) as [message|]; [|by destruct H].
  apply runs_mret in H as [-> <-]. simpl. split; [done|]. split; [done|].
  exists es. split; [|by rewrite app_nil_r; do 3 apply sublist_inserts_l].
  assert (Forall (λ s, ∃ t', normalizeTarget (target s) = Ok t' ∧ jobId t' = jobId a) (omap id a3)) as Hjobs.
  { apply Forall_forall. intros s Hs. eapply elem_of_sublist in Hs; [|exact Hsub].
    apply list_elem_of_fmap in Hs as (v & -> & Hv%list_elem_of_In%List.filter_In). destruct Hv as [Hv _].
    destruct (Hviews v) as [Hm _]; [by apply list_elem_of_In|]. eapply matches_job; [|exact Hm]. by eapply normalize_idem. }
  clear -Hes Hjobs. induction Hes as [|s e ss es (t & file & Ht & ->) Hes IH]; [constructor|].
  inversion_clear Hjobs as [|? ? (t' & Ht' & Hj) Hrest]. constructor; [|auto]. rewrite Ht in Ht'. simplify_eq.
  rewrite Hj. eauto.
Qed.

Lemma batch_grants job ss (es : list (event resp)) id :
  Forall2 (λ s e, ∃ file, e = Ev (OpenClaim job (hashText sha_hex (signalId s))) (Ok (Some file))) ss es →
  (length (List.filter (js_eqb id) (map signalId ss)) ≤ grants job (hashText sha_hex id) es)%nat.
Proof.
  induction 1 as [|s e ss es (file & ->) H IH]; [done|]. rewrite grants_cons. simpl.
  destruct (js_eqb id (signalId s)) eqn:E; [|lia]. bools. subst. rewrite !js_eqb_refl. simpl. lia.
Qed.

Lemma grants_sublist j n es tr : es `sublist_of` tr → (grants j n es ≤ grants j n tr)%nat.
Proof. induction 1; rewrite ?grants_cons; lia. Qed.

Lemma consume_grants ci tr b id :
  runs (consumeForContinuation localeCompare store ci) tr (Ok b) →
  (length (List.filter (js_eqb id) (b_signalIds b)) ≤ grants (jobDir sha_hex (jobId (b_target b))) (hashText sha_hex id) tr)%nat.
Proof.
  intros (_ & -> & es & Hes & Hsub)%consume_runs. etrans; [by eapply batch_grants|]. by apply grants_sublist.
Qed.

Lemma filter_positive id l : id ∈ l → (1 ≤ length (List.filter (js_eqb id) l))%nat.
Proof.
  intros H. induction l as [|x l IH]; [by apply not_elem_of_nil in H|]. simpl. apply elem_of_cons in H as [->|H].
  - rewrite js_eqb_refl. simpl. lia.
  - destruct (js_eqb id x); simpl; [lia|auto].
Qed.

(** C7: A control signal is delivered to one continuation. However the file
    accesses of any number of processes interleave, fail or are torn, and
    whatever else they do to the inbox: as long as the claim of a signal is not
    removed, all continuations that contain it are one and the same call, and
    that one contains it once. *)
Theorem delivery_exclusive (d d' : disk) (tr : list (nat * event resp)) (i i' : nat) (ci ci' : ConsumeInput) (b b' : Batch)
    (id : jsstring) :
  serves step d tr d' →
  runs (consumeForContinuation localeCompare (file_store sha_hex) ci) (of_thread i tr) (Ok b) →
  runs (consumeForContinuation localeCompare (file_store sha_hex) ci') (of_thread i' tr) (Ok b') →
  jobId (b_target b') = jobId (b_target b) → id ∈ b_signalIds b → id ∈ b_signalIds b' →
  (∀ k r, (k, Ev (RemoveClaim (jobDir sha_hex (jobId (b_target b))) (hashText sha_hex id)) r) ∉ tr) →
  i = i' ∧ length (List.filter (js_eqb id) (b_signalIds b)) = 1%nat.
Proof.
  intros Hs Hb Hb' Hjob Hid%filter_positive Hid'%filter_positive Hno.
  destruct (granted_once _ _ _ _ _ Hs Hno) as [Hone _].
  apply (consume_grants _ _ _ id) in Hb, Hb'. rewrite Hjob in Hb'.
  pose proof (grants_thread (jobDir sha_hex (jobId (b_target b))) (hashText sha_hex id) i tr).
  split; [|lia]. destruct (decide (i = i')) as [|Hne]; [done|].
  pose proof (grants_two (jobDir sha_hex (jobId (b_target b))) (hashText sha_hex id) i i' tr Hne). lia.
Qed.

(** ** Settled signals *)

Lemma lines_append {A} (rs : list A) l x : x ∈ lines l → x ∈ lines (append_log rs l).
Proof. intros Hx. unfold append_log. destruct rs as [|? ?], (tail l); simpl; set_solver. Qed.

Lemma lines_torn {A} (rs : list A) l l' x : torn rs l l' → x ∈ lines l → x ∈ lines l'.
Proof. intros (n & [->|(r & _ & [->|[_ ->]])]) Hx; simpl; by apply lines_append. Qed.

(** Complete lines of the receipt log stay. *)
Lemma receipt_kept job x c d r d' :
  step c d r d' → x ∈ lines (receipts (dir_of d job)) → x ∈ lines (receipts (dir_of d' job)).
Proof.
  intros Hs Hx.
  assert (∀ j y, receipts y = receipts (dir_of d j) → x ∈ lines (receipts (dir_of (set_dir j y d) job))) as Hset.
  { intros j y Hy. rewrite dir_of_set. destruct (decide (job = j)) as [->|]; [by rewrite Hy|done]. }
  assert (∀ j l, (∀ z, z ∈ lines (receipts (dir_of d j)) → z ∈ lines l) →
    x ∈ lines (receipts (dir_of (set_receipts j l d) job))) as Hrec.
  { intros j l Hl. unfold set_receipts. rewrite dir_of_set. destruct (decide (job = j)) as [->|]; [by apply Hl|done]. }
  assert (∀ j n f y, x ∈ lines (receipts (dir_of (fill j n f y d) job))) as Hfill.
  { intros. unfold fill. destruct (claims _ !! n) as [[f' ?]|]; [|done]. destruct (_ =? _)%N; [|done]. by apply Hset. }
  destruct c; simpl in Hs.
  1-5: by destruct Hs as [-> _].
  - destruct Hs as [[_ ->]|(_ & l & _ & ->)]; by apply Hset.
  - destruct Hs as [[_ ->]|(_ & l & Hl & ->)]; apply Hrec; intros z; [apply lines_append|by eapply lines_torn].
  - destruct (claims (dir_of d job0) !! name); [by destruct Hs as [_ ->]|].
    assert (x ∈ lines (receipts (dir_of (create_claim job0 name d) job))) by (rewrite dir_of_create; by apply Hset).
    naive_solver.
  - destruct Hs as [[_ ->]|[_ [->| ->]]]; auto.
  - destruct Hs as [[_ ->]|[_ [->| ->]]]; [by apply Hset|done|by apply Hset].
  - by subst.
  - by subst.
  - by subst.
Qed.

Lemma receipt_read job x d tr d' k rs :
  serves step d tr d' → x ∈ lines (receipts (dir_of d job)) → (k, Ev (ReadReceipts job) rs) ∈ tr → rs = [] ∨ x ∈ rs.
Proof.
  revert d. induction tr as [|[i [c r]] tr IH]; intros d Hs Hx Hin; [by apply not_elem_of_nil in Hin|].
  destruct Hs as (d1 & Hs & Htr). apply elem_of_cons in Hin as [Heq|Hin].
  - assert (step (ReadReceipts job) d rs d1) as Hr.
    { clear -Hs Heq. assert (Ev (ReadReceipts job) rs = Ev c r) as He by congruence. clear Heq.
      change (match Ev (ReadReceipts job) rs with Ev c' r' => step c' d r' d1 end). by rewrite He. }
    destruct Hr as [_ [->| ->]]; [by left|]. right. unfold read_log. set_solver.
  - eapply IH; [done| |done]. by eapply receipt_kept.
Qed.

Lemma filter_throw_all {A} (f : A → result error bool) l l' x : filter_throw f l = Ok l' → x ∈ l → f x = Ok true → x ∈ l'.
Proof.
  revert l'. induction l as [|y l IH]; intros l'; simpl; [by intros _ ?%not_elem_of_nil|].
  destruct (f y) as [b|] eqn:Ef; simpl; [|done]. destruct (filter_throw f l) as [l1|]; simpl; [|done]. intros [= <-].
  rewrite elem_of_cons. intros [->|Hx] Ht; [rewrite Ef in Ht; simplify_eq; set_solver|].
  specialize (IH l1 eq_refl Hx Ht). destruct b; set_solver.
Qed.

Lemma read_claims_runs job names tr found :
  runs (for_list (read_claim job) names) tr (Ok found) → ∀ r, r ∈ omap id found → ∃ name, Ev (ReadClaim job name) (Some r) ∈ tr.
Proof.
  revert tr found. induction names as [|name names IH]; intros tr found H; cbn [for_list] in H.
  - apply runs_mret in H as [-> <-]. by intros ? ?%not_elem_of_nil.
  - run_inv H. apply runs_mret in H as [-> <-]. apply runs_ask in R as ->. intros r Hr.
    destruct a as [r'|]; simpl in Hr; [apply elem_of_cons in Hr as [->|Hr]|].
    + exists name. set_solver.
    + destruct (IH _ _ R0 r Hr) as [name' ?]. exists name'. set_solver.
    + destruct (IH _ _ R0 r Hr) as [name' ?]. exists name'. set_solver.
Qed.

(** What a listing of receipts has read. *)
Lemma list_receipts_runs t tr rs :
  runs (file_listReceipts sha_hex (Some t) None) tr (Ok rs) →
  ∃ logged, Ev (ReadReceipts (jobDir sha_hex (jobId t))) logged ∈ tr ∧
    (∀ r, r ∈ logged → workerControlTargetMatches t (r_target r) = Ok true → r ∈ rs) ∧
    (∀ r, r ∈ rs → r ∈ logged ∨ ∃ name, Ev (ReadClaim (jobDir sha_hex (jobId t)) name) (Some r) ∈ tr).
Proof.
  unfold file_listReceipts, jobs_of. intros H. run_inv H. apply runs_mret in R as [-> <-], R1 as [-> <-], H as [-> <-].
  cbn [for_list] in R0, R2. run_inv R0. run_inv R2. apply runs_mret in R0 as [-> <-], R2 as [-> <-].
  apply runs_mret in R5 as [-> <-], R1 as [-> <-]. apply runs_ask in R as ->.
  apply runs_from_result in R3 as [-> Hf]. simpl in Hf. rewrite !app_nil_r in Hf.
  unfold readClaims in R4. run_inv R4. apply runs_mret in R4 as [-> <-].
  exists a. split; [set_solver|]. split.
  - intros r Hr Hm. apply list_elem_of_In, List.filter_In. split; [|done]. apply list_elem_of_In.
    eapply filter_throw_all; [exact Hf|set_solver|done].
  - intros r Hr%list_elem_of_In%List.filter_In. destruct Hr as [Hr _]. apply list_elem_of_In in Hr.
    destruct (filter_throw_Ok _ _ _ Hf r Hr) as [_ Hin]. apply elem_of_app in Hin as [?|Hin]; [by left|]. right.
    destruct (read_claims_runs _ _ _ _ R0 r Hin) as [name ?]. exists name. set_solver.
Qed.

Lemma views_read t c now tr vs :
  runs (signalViews localeCompare store t c now) tr (Ok vs) →
  ∃ rs, (∀ v, v ∈ vs → v = signalView (v_signal v) (indexReceipts rs (signalId (v_signal v))) c now) ∧
    ∃ tr', runs (file_listReceipts sha_hex (Some t) None) tr' (Ok rs) ∧ tr' `sublist_of` tr.
Proof.
  unfold signalViews. intros H. run_inv H. apply runs_mret in H as [-> <-]. exists a0. split.
  - intros v Hv. unfold sort_views in Hv. rewrite sort_by_perm in Hv. by apply list_elem_of_fmap in Hv as (s & -> & Hs).
  - exists x1. split; [exact R0|]. rewrite app_nil_r. by apply sublist_inserts_l.
Qed.

Lemma consume_views ci tr b :
  runs (consumeForContinuation localeCompare store ci) tr (Ok b) →
  ∃ rs c now tr', runs (file_listReceipts sha_hex (Some (b_target b)) None) tr' (Ok rs) ∧ tr' `sublist_of` tr ∧
    ∀ s, s ∈ b_signals b → deliverable (signalView s (indexReceipts rs (signalId s)) c now) = true.
Proof.
  unfold consumeForContinuation. intros H. run_inv H. apply runs_from_result in R as [-> Ht].
  apply claim_loop_runs in R3 as (Hsub & _). apply views_read in R1 as (rs & Hviews & tr' & Hrs & Htr').
  destruct (compileWorkerControlSignalsForContinuation _ _) as [message|]; [|by destruct H].
  apply runs_mret in H as [-> <-]. exists rs, (default defaultCapabilities (co_capabilities ci)), a0, tr'. simpl.
  split; [done|]. split; [repeat first [by apply sublist_inserts_r|apply sublist_inserts_l]|].
  intros s Hs. eapply elem_of_sublist in Hs; [|exact Hsub]. apply list_elem_of_fmap in Hs as (v & -> & Hv%list_elem_of_In%List.filter_In).
  destruct Hv as [Hv%list_elem_of_In Hd]. by rewrite (Hviews v Hv) in Hd.
Qed.

Lemma latest_Some s rs r : r ∈ rs → r_signalId r = signalId s → ∃ r', latest s rs = Some r' ∧ r' ∈ rs ∧ r_signalId r' = signalId s.
Proof.
  intros Hr Hid. unfold latest.
  assert (r ∈ sort_by (not_after compareReceiptsNewestFirst) (filter (λ r, r_signalId r = signalId s) rs)) as Hin.
  { rewrite sort_by_perm. by apply list_elem_of_filter. }
  destruct (sort_by _ _) as [|r' l] eqn:E; [by apply not_elem_of_nil in Hin|]. exists r'.
  assert (r' ∈ filter (λ r, r_signalId r = signalId s) rs) as Hr'.
  { rewrite <-(sort_by_perm (not_after compareReceiptsNewestFirst)), E. apply list_elem_of_here. }
  apply list_elem_of_filter in Hr' as [? ?]. done.
Qed.

(** A signal with a receipt is delivered only to resume an interrupted one. *)
Lemma deliverable_receipt s rs c now r :
  r ∈ rs → r_signalId r = signalId s → deliverable (signalView s rs c now) = true →
  deliveryMode s = InterruptThenContinue ∧ ∃ r', r' ∈ rs ∧ r_signalId r' = signalId s ∧ r_state r' = Interrupted.
Proof.
  intros Hr Hid. destruct (latest_Some s rs r Hr Hid) as (r' & Hl & Hr' & Hid'). unfold signalView. rewrite Hl. simpl.
  unfold blockedReasonForSignal. simpl. destruct (isInterruptedSignalReadyForContinuation _ _) eqn:E; [|done].
  unfold isInterruptedSignalReadyForContinuation in E. bools. intros _. split; [done|]. exists r'. naive_solver.
Qed.

(** C9: A settled signal does not come back. Once a receipt of a signal (it
    was delivered, or superseded) is a line of the receipt log, a continuation
    that starts later, and whose read of that log does not fail, does not
    contain the signal again, whatever happens to its claim and however other
    processes interleave; the only exception is a signal that interrupts, of
    which the call read that its attempt was interrupted. *)
Theorem settled_not_redelivered (d d' : disk) (tr : list (nat * event resp)) (i : nat) (ci : ConsumeInput) (b : Batch)
    (r : Receipt) (s : Signal) :
  serves step d tr d' →
  runs (consumeForContinuation localeCompare (file_store sha_hex) ci) (of_thread i tr) (Ok b) →
  let job := jobDir sha_hex (jobId (b_target b)) in
  r ∈ lines (receipts (dir_of d job)) → workerControlTargetMatches (b_target b) (r_target r) = Ok true →
  (i, Ev (ReadReceipts job) []) ∉ tr →
  s ∈ b_signals b → signalId s = r_signalId r →
  deliveryMode s = InterruptThenContinue ∧
  ∃ r', r_signalId r' = signalId s ∧ r_state r' = Interrupted ∧
    ((∃ rs, (i, Ev (ReadReceipts job) rs) ∈ tr ∧ r' ∈ rs) ∨ (∃ name, (i, Ev (ReadClaim job name) (Some r')) ∈ tr)).
Proof.
  intros Hs Hc job Hr Hm Hread Hin Hid.
  apply consume_views in Hc as (rs & c & now & tr' & Hrs & Hsub & Hdel).
  apply list_receipts_runs in Hrs as (logged & Hlog & Hall & Hfrom).
  assert (∀ e, e ∈ tr' → (i, e) ∈ tr) as Hev by (intros e He; apply of_thread_elem; by eapply elem_of_sublist).
  assert (r ∈ rs) as Hrin.
  { apply Hall; [|done]. destruct (receipt_read job r d tr d' i logged Hs Hr (Hev _ Hlog)) as [->|]; [|done].
    destruct Hread. by apply Hev. }
  destruct (deliverable_receipt s (indexReceipts rs (signalId s)) c now r) as (Hmode & r' & Hr' & Hid' & Hst); [|done|by apply Hdel|].
  { by apply list_elem_of_filter. }
  split; [done|]. exists r'. split; [done|]. split; [done|]. apply list_elem_of_filter in Hr' as [_ Hr'].
  destruct (Hfrom r' Hr') as [Hl|[name Hn]]; [left; exists logged|right; exists name]; auto.
Qed.

(** No view is both pending and expired: the receipts that
    [consumeForContinuation] means to write for expired signals are never
    written. *)
Lemma no_pending_expired s rs c now : v_state (signalView s rs c now) = Pending → v_expired (signalView s rs c now) = false.
Proof. simpl. unfold view_state. destruct (latest s rs); [done|]. by destruct (is_expired s now). Qed.

(** ** One call at a time *)

Section alone.
Context (fresh : N → jsstring) (policy : AuthInput → Decision).
Let H := quiet fresh policy.
Let do {A} (m : Sv A) (w : world) := exec H m w.

Definition matching (t u : Target) : bool := match workerControlTargetMatches t u with Ok b => b | Throw _ => false end.

Definition claims_listed (x : dir) : list Receipt := omap (λ n, claims x !! n ≫= snd) (elements (dom (claims x))).

Definition job_of (t : Target) (w : world) : dir := dir_of (wdisk w) (jobDir sha_hex (jobId t)).

Definition signalsOf (t : Target) (w : world) : list Signal :=
  List.filter (λ s, matching t (target s)) (read_log (signals (job_of t w))).

Definition receiptsOf (t : Target) (w : world) : list Receipt :=
  List.filter (λ r, matching t (r_target r)) (read_log (receipts (job_of t w)) ++ claims_listed (job_of t w)).

Definition viewsOf (t : Target) (c : Capability) (now : date) (w : world) : list View :=
  sort_views localeCompare (map (λ s, signalView s (indexReceipts (receiptsOf t w) (signalId s)) c now) (signalsOf t w)).

(** The records of a directory have targets and dates. *)
Definition has_target (t : Target) : Prop := ∃ t', normalizeTarget t = Ok t'.

Record readable (x : dir) : Prop := {
  readable_signals : ∀ s, s ∈ read_log (signals x) → has_target (target s) ∧ persistable (createdAt s) = true;
  readable_receipts : ∀ r, r ∈ read_log (receipts x) → has_target (r_target r);
  readable_claims : ∀ n f r, claims x !! n = Some (f, Some r) → has_target (r_target r) }.

Lemma matches_ok t u : has_target t → has_target u → workerControlTargetMatches t u = Ok (matching t u).
Proof. intros [t' Ht] [u' Hu]. unfold matching, workerControlTargetMatches. by rewrite Ht, Hu. Qed.

Lemma filter_throw_matching {A} (tgt : A → Target) t l :
  has_target t → (∀ x, x ∈ l → has_target (tgt x)) →
  filter_throw (λ x, target_matches (Some t) (tgt x)) l = Ok (List.filter (λ x, matching t (tgt x)) l).
Proof.
  intros Ht. induction l as [|x l IH]; intros Hl; [done|]. cbn [filter_throw].
  change (target_matches (Some t) (tgt x)) with (workerControlTargetMatches t (tgt x)). rewrite matches_ok by (try done; apply Hl; apply list_elem_of_here). rewrite IH by (intros; apply Hl; by apply list_elem_of_further).
  simpl. done.
Qed.

Lemma do_bind {A B} (m : Sv A) (f : A → Sv B) w :
  do (m ≫= f) w = match do m w with (Ok a, w') => do (f a) w' | (Throw e, w') => (Throw e, w') end.
Proof. apply exec_bind_ok. Qed.

Lemma do_mret {A} (x : A) w : do (mret x) w = (Ok x, w).
Proof. done. Qed.

Lemma do_result {A} (x : result error A) w : do (from_result x) w = (x, w).
Proof. done. Qed.

(** Each single access. *)
Lemma do_read_signals job w : do (read_signals job) w = (Ok (read_log (signals (dir_of (wdisk w) job))), w).
Proof. done. Qed.
Lemma do_read_receipts job w : do (read_receipts job) w = (Ok (read_log (receipts (dir_of (wdisk w) job))), w).
Proof. done. Qed.
Lemma do_list_claims job w : do (list_claims job) w = (Ok (elements (dom (claims (dir_of (wdisk w) job)))), w).
Proof. done. Qed.
Lemma do_read_claim job n w : do (read_claim job n) w = (Ok (claims (dir_of (wdisk w) job) !! n ≫= snd), w).
Proof. done. Qed.
Lemma do_new_id w : do new_id w = (Ok (fresh (ids w)), mkWorld (wdisk w) (clock w) (ids w + 1)).
Proof. done. Qed.

Ltac quietly :=
  repeat first
    [ rewrite do_bind | rewrite do_mret | rewrite do_result | rewrite do_read_signals | rewrite do_read_receipts
    | rewrite do_list_claims | rewrite do_read_claim | rewrite do_new_id | progress cbv beta iota | progress cbn [for_list] ].

Lemma do_read_claims job names w :
  do (for_list (read_claim job) names) w = (Ok (map (λ n, claims (dir_of (wdisk w) job) !! n ≫= snd) names), w).
Proof.
  induction names as [|n names IH]; [done|]. cbn [for_list]. quietly. rewrite IH. done.
Qed.

Lemma omap_map {A B} (f : A → option B) l : omap id (map f l) = omap f l.
Proof. induction l as [|x l IH]; [done|]. cbn. destruct (f x); cbn; [f_equal|]; exact IH. Qed.

Lemma do_listSignals t ids w :
  has_target t → readable (job_of t w) →
  do (file_listSignals sha_hex (Some t) ids) w = (Ok (List.filter (λ s, selects ids (signalId s)) (signalsOf t w)), w).
Proof.
  intros Ht Hr. unfold file_listSignals, jobs_of. cbn [for_list]. quietly. cbn [concat].
  rewrite app_nil_r, filter_throw_matching; [done|done|]. intros s Hs. by apply Hr.
Qed.

Lemma do_listReceipts t ids w :
  has_target t → readable (job_of t w) →
  do (file_listReceipts sha_hex (Some t) ids) w = (Ok (List.filter (λ r, selects ids (r_signalId r)) (receiptsOf t w)), w).
Proof.
  intros Ht Hr. unfold file_listReceipts, jobs_of, readClaims. cbn [for_list]. quietly. rewrite do_read_claims. quietly. cbn [concat].
  rewrite !app_nil_r, omap_map, filter_throw_matching; [done|done|]. intros r [Hin|Hin]%elem_of_app; [by apply Hr|].
  apply list_elem_of_omap in Hin as (n & _ & Hn). destruct (claims _ !! n) as [[f [r'|]]|] eqn:E; simplify_eq/=. by apply (readable_claims _ Hr n f).
Qed.

Lemma do_signalViews t c now w :
  has_target t → readable (job_of t w) →
  do (signalViews localeCompare store t c now) w = (Ok (viewsOf t c now w), w).
Proof.
  intros Ht Hr. unfold signalViews. change (listSignals store) with (file_listSignals sha_hex).
  change (listReceipts store) with (file_listReceipts sha_hex). quietly. rewrite do_listSignals by done. quietly.
  rewrite do_listReceipts by done. quietly. rewrite !List.filter_true by done.
  done.
Qed.
(** *** Claiming *)

Definition claim_name (s : Signal) : jsstring := hashText sha_hex (signalId s).

Definition unclaimed (t : Target) (w : world) (s : Signal) : bool := bool_decide (claims (job_of t w) !! claim_name s = None).

Definition the_claim (attempt : jsstring) (now : date) (s : Signal) (t : Target) (rid : jsstring) : Receipt :=
  mkReceipt rid (signalId s) t Accepted now (Some attempt) None (normalizeMetadata None).

(** [w'] is [w] with the signals [ss] claimed. *)
Record claimed (t : Target) (attempt : jsstring) (now : date) (ss : list Signal) (w w' : world) : Prop := {
  cl_other : ∀ j, j ≠ jobDir sha_hex (jobId t) → dir_of (wdisk w') j = dir_of (wdisk w) j;
  cl_signals : signals (job_of t w') = signals (job_of t w);
  cl_receipts : receipts (job_of t w') = receipts (job_of t w);
  cl_clock : clock w' = clock w;
  cl_old : ∀ n, n ∉ map claim_name ss → claims (job_of t w') !! n = claims (job_of t w) !! n;
  cl_new : ∀ s, s ∈ ss → ∃ f rid t', normalizeTarget (target s) = Ok t' ∧
    claims (job_of t w') !! claim_name s = Some (f, Some (the_claim attempt now s t' rid)) }.

Lemma claimed_nil t attempt now w w' : wdisk w' = wdisk w → clock w' = clock w → claimed t attempt now [] w w'.
Proof. intros Hd Hc. unfold job_of. split; unfold job_of; rewrite ?Hd; try done. by intros ? ?%not_elem_of_nil. Qed.

Lemma claimed_app t attempt now ss ss' w w' w'' :
  claimed t attempt now ss w w' → claimed t attempt now ss' w' w'' → (∀ n, n ∈ map claim_name ss → n ∉ map claim_name ss') →
  claimed t attempt now (ss ++ ss') w w''.
Proof.
  intros [A1 A2 A3 A4 A5 A6] [B1 B2 B3 B4 B5 B6] Hd. split; try congruence.
  - intros j Hj. by rewrite B1, A1.
  - intros n Hn. rewrite map_app, not_elem_of_app in Hn. destruct Hn. by rewrite B5, A5.
  - intros s [Hs|Hs]%elem_of_app; [|by apply B6]. rewrite B5; [by apply A6|]. apply Hd. by apply list_elem_of_fmap_2.
Qed.

Lemma do_open_claim job n w :
  do (open_claim job n) w = match claims (dir_of (wdisk w) job) !! n with
                            | Some _ => (Ok None, w)
                            | None => (Ok (Some (next_file (wdisk w))), with_disk w (create_claim job n (wdisk w)))
                            end.
Proof. unfold do, open_claim, try, exec. simpl. unfold H, quiet. simpl. by destruct (claims _ !! n). Qed.

Lemma do_fill_claim job n f x w : do (fill_claim job n f x) w = (Ok tt, with_disk w (fill job n f (Some x) (wdisk w))).
Proof. done. Qed.

Lemma do_remove_claim job n w : do (remove_claim job n) w = (Ok tt, with_disk w (set_claims job (delete n) (wdisk w))).
Proof. done. Qed.

Lemma fill_created job n x d : claims (dir_of d job) !! n = None →
  (∀ j, j ≠ job → dir_of (fill job n (next_file d) (Some x) (create_claim job n d)) j = dir_of d j) ∧
  dir_of (fill job n (next_file d) (Some x) (create_claim job n d)) job =
    mkDir (signals (dir_of d job)) (receipts (dir_of d job)) (<[n := (next_file d, Some x)]> (claims (dir_of d job))).
Proof.
  intros Hn. assert (dir_of (create_claim job n d) job = mkDir (signals (dir_of d job)) (receipts (dir_of d job))
    (<[n := (next_file d, None)]> (claims (dir_of d job)))) as Hc.
  { rewrite dir_of_create. unfold set_claims. by rewrite dir_of_set, decide_True. }
  unfold fill. rewrite Hc. simpl. rewrite lookup_insert_eq, N.eqb_refl. unfold set_claims. split.
  - intros j Hj. rewrite dir_of_set, decide_False by done. rewrite dir_of_create. unfold set_claims.
    by rewrite dir_of_set, decide_False.
  - rewrite dir_of_set, decide_True, Hc by done. simpl. by rewrite insert_insert_eq.
Qed.

Lemma do_claim_signal t attempt now s w t' :
  normalizeTarget (target s) = Ok t' → jobId t' = jobId t → persistable now = true →
  ∃ w', do (claim_signal store now attempt true s) w = (Ok (if unclaimed t w s then Some s else None), w') ∧
        claimed t attempt now (if unclaimed t w s then [s] else []) w w'.
Proof.
  intros Ht Hj Hnow. unfold claim_signal, claim, deliveryReceipt. quietly. rewrite Ht. quietly. cbn [tryClaimDelivery store file_store].
  unfold store, file_store, file_tryClaimDelivery, claimPath, persistReceipt. cbn [r_target r_signalId r_createdAt deliveredAt tryClaimDelivery].
  rewrite Hj, Hnow. cbn [persistable_opt andb]. quietly. rewrite do_open_claim. cbn [wdisk]. unfold unclaimed, job_of.
  change (hashText sha_hex (signalId s)) with (claim_name s).
  destruct (claims (dir_of (wdisk w) (jobDir sha_hex (jobId t))) !! claim_name s) eqn:E.
  - rewrite bool_decide_eq_false_2 by done. quietly. eexists. split; [done|]. by apply claimed_nil.
  - rewrite bool_decide_eq_true_2 by done. quietly. rewrite do_fill_claim. quietly. eexists. split; [done|].
    destruct (fill_created _ _ (the_claim attempt now s t' (fresh (ids w))) _ E) as [Ho Hs]. unfold the_claim in *.
    unfold job_of. split; unfold job_of; cbn [wdisk with_disk clock]; rewrite ?Hs; try done.
    + intros n Hn. simpl in *. apply lookup_insert_ne. set_solver.
    + intros s' ->%list_elem_of_singleton. exists (next_file (wdisk w)), (fresh (ids w)), t'. split; [done|].
      unfold the_claim. cbn [claims]. apply lookup_insert_eq.
Qed.

Definition in_job (t : Target) (s : Signal) : Prop := ∃ t', normalizeTarget (target s) = Ok t' ∧ jobId t' = jobId t.

Lemma do_claim_signals t attempt now ss w :
  persistable now = true → Forall (in_job t) ss → NoDup (map claim_name ss) →
  ∃ w', do (for_list (claim_signal store now attempt true) ss) w =
          (Ok (map (λ s, if unclaimed t w s then Some s else None) ss), w') ∧
        claimed t attempt now (List.filter (unclaimed t w) ss) w w'.
Proof.
  intros Hnow. revert w. induction ss as [|s ss IH]; intros w Hj Hnd.
  - eexists. split; [done|]. by apply claimed_nil.
  - apply Forall_cons in Hj as [(t' & Ht & Hj) Hjs]. apply NoDup_cons in Hnd as [Hs Hnd].
    destruct (do_claim_signal t attempt now s w t' Ht Hj Hnow) as (w1 & E1 & C1).
    destruct (IH w1 Hjs Hnd) as (w2 & E2 & C2).
    assert (∀ s', s' ∈ ss → unclaimed t w1 s' = unclaimed t w s') as Hsame.
    { intros s' Hs'. unfold unclaimed. apply bool_decide_ext. rewrite (cl_old _ _ _ _ _ _ C1); [done|].
      assert (claim_name s' ≠ claim_name s) by (intros Heq; apply Hs; rewrite <-Heq; by apply list_elem_of_fmap_2).
      destruct (unclaimed t w s); set_solver. }
    exists w2. split.
    + cbn [for_list]. quietly. rewrite E1. quietly. rewrite E2. quietly. simpl. do 3 f_equal.
      apply map_ext_in. intros s' Hs'%list_elem_of_In. by rewrite Hsame.
    + rewrite (List.filter_ext_in (unclaimed t w1) (unclaimed t w)) in C2 by (intros s' ?%list_elem_of_In; by apply Hsame).
      simpl. destruct (unclaimed t w s).
      * apply (claimed_app _ _ _ [s] _ _ w1); [done|done|]. intros n Hn Hn'. simpl in Hn. apply list_elem_of_singleton in Hn as ->.
        apply Hs. apply list_elem_of_fmap in Hn' as (s' & -> & Hs'%list_elem_of_In%List.filter_In).
        apply list_elem_of_fmap_2, list_elem_of_In. naive_solver.
      * apply (claimed_app _ _ _ [] _ _ w1); [done|done|]. by intros n ?%not_elem_of_nil.
Qed.

(** *** Consuming, releasing and confirming *)

Lemma compile_total ss : Forall (λ s, persistable (createdAt s) = true) ss →
  ∃ m, compileWorkerControlSignalsForContinuation localeCompare ss = Some m.
Proof.
  intros Hss. unfold compileWorkerControlSignalsForContinuation. destruct ss as [|s ss]; [by eexists|].
  destruct (mapM _ _) as [items|] eqn:E; [by eexists|]. exfalso. apply eq_None_not_Some in E. apply E.
  apply mapM_is_Some_2, Forall_lookup. intros i o Ho. rewrite list_lookup_imap in Ho.
  destruct (sort_by _ _ !! i) as [s'|] eqn:Es; [|done]. simpl in Ho. injection Ho as <-. unfold continuation_item. simpl.
  apply list_elem_of_lookup_2 in Es. rewrite sort_by_perm in Es. rewrite Forall_forall in Hss. specialize (Hss _ Es).
  destruct (createdAt s'); [by eexists|done].
Qed.

Lemma viewsOf_elem t c now w v :
  v ∈ viewsOf t c now w →
  v_signal v ∈ signalsOf t w ∧ v = signalView (v_signal v) (indexReceipts (receiptsOf t w) (signalId (v_signal v))) c now.
Proof.
  unfold viewsOf, sort_views. rewrite sort_by_perm. by intros (s & -> & Hs)%list_elem_of_fmap.
Qed.

Lemma signalsOf_elem t w s :
  s ∈ signalsOf t w → matching t (target s) = true ∧ s ∈ read_log (signals (job_of t w)).
Proof. unfold signalsOf. intros [Hs Hm]%list_elem_of_In%List.filter_In. by apply list_elem_of_In in Hs. Qed.

Lemma signalsOf_in_job t w s : normalizeTarget t = Ok t → s ∈ signalsOf t w → in_job t s.
Proof.
  intros Ht [Hm _]%signalsOf_elem. unfold matching in Hm.
  destruct (workerControlTargetMatches t (target s)) as [[]|] eqn:E; [|done..]. by eapply matches_job.
Qed.

Lemma omap_if {A} (f : A → bool) l : omap (λ x, if f x then Some x else None) l = List.filter f l.
Proof. induction l as [|x l IH]; [done|]. cbn. destruct (f x); cbn; [f_equal|]; exact IH. Qed.

(** The signals that a continuation is to be given. *)
Definition due (t : Target) (c : Capability) (now : date) (w : world) : list Signal :=
  map v_signal (List.filter deliverable (viewsOf t c now w)).

Lemma due_elem t c now w s : s ∈ due t c now w →
  s ∈ signalsOf t w ∧ deliverable (signalView s (indexReceipts (receiptsOf t w) (signalId s)) c now) = true.
Proof.
  unfold due. intros (v & -> & [Hv Hd]%list_elem_of_In%List.filter_In)%list_elem_of_fmap.
  apply list_elem_of_In, viewsOf_elem in Hv as [Hs Hv]. by rewrite Hv in Hd.
Qed.

Lemma none_pending_expired t c now w :
  List.filter (λ v, bool_decide (v_state v = Pending) && v_expired v) (viewsOf t c now w) = [].
Proof.
  apply filter_nil_all. intros v Hv. destruct (viewsOf_elem _ _ _ _ _ Hv) as [_ ->].
  case_bool_decide as E; [|done]. by rewrite (no_pending_expired _ _ _ _ E).
Qed.

Lemma do_consume t ci now w :
  normalizeTarget (co_target ci) = Ok t → co_now ci = Some now → persistable now = true → deferConfirmation ci = true →
  readable (job_of t w) →
  let c := default defaultCapabilities (co_capabilities ci) in
  NoDup (map claim_name (due t c now w)) →
  ∃ b w', do (consumeForContinuation localeCompare store ci) w = (Ok b, w') ∧ b_target b = t ∧ b_attempt b = co_attempt ci ∧
    b_signals b = List.filter (unclaimed t w) (due t c now w) ∧ b_signalIds b = map signalId (b_signals b) ∧
    claimed t (co_attempt ci) now (b_signals b) w w'.
Proof.
  intros Ht Hnow Hp Hdefer Hr c Hnd. pose proof (normalize_idem _ _ Ht) as Htt.
  destruct (do_claim_signals t (co_attempt ci) now (due t c now w) w Hp) as (w' & E & Hc); [|done|].
  { apply Forall_forall. intros s [Hs _]%due_elem. by eapply signalsOf_in_job. }
  destruct (compile_total (List.filter (unclaimed t w) (due t c now w))) as [m Hm].
  { apply Forall_forall. intros s [Hs _]%list_elem_of_In%List.filter_In. apply list_elem_of_In, due_elem in Hs as [Hs _].
    apply signalsOf_elem in Hs as [_ Hs]. by apply (readable_signals _ Hr). }
  unfold consumeForContinuation, or_now. rewrite Hnow, Hdefer. quietly. rewrite Ht. quietly.
  rewrite do_signalViews by (try done; by eexists). quietly. fold c. rewrite none_pending_expired. quietly.
  fold (due t c now w). rewrite E. quietly. rewrite omap_map.
  rewrite omap_if.
  rewrite Hm. quietly. eexists _, w'. split; [done|]. done.
Qed.

(** [w'] is [w] without the claims of the names [ns]. *)
Record released (t : Target) (ns : list jsstring) (w w' : world) : Prop := {
  re_other : ∀ j, j ≠ jobDir sha_hex (jobId t) → dir_of (wdisk w') j = dir_of (wdisk w) j;
  re_signals : signals (job_of t w') = signals (job_of t w);
  re_receipts : receipts (job_of t w') = receipts (job_of t w);
  re_gone : ∀ n, n ∈ ns → claims (job_of t w') !! n = None;
  re_old : ∀ n, n ∉ ns → claims (job_of t w') !! n = claims (job_of t w) !! n }.

Lemma do_release_signal t attempt s w f t' now rid :
  claims (job_of t w) !! claim_name s = Some (f, Some (the_claim attempt now s t' rid)) →
  ∃ w', do (release_signal store (file_releaseDeliveryClaim sha_hex) t attempt (signalId s)) w = (Ok tt, w') ∧
        released t [claim_name s] w w'.
Proof.
  intros Hc. unfold release_signal, file_releaseDeliveryClaim, claimPath. quietly. change (hashText sha_hex (signalId s)) with (claim_name s).
  change (dir_of (wdisk w) (jobDir sha_hex (jobId t))) with (job_of t w). rewrite Hc. cbn [snd mbind option_bind].
  cbn [r_state the_claim deliveryAttemptId]. rewrite !bool_decide_eq_true_2 by done. cbn [negb]. quietly.
  rewrite do_remove_claim. quietly. eexists. split; [done|]. unfold job_of. cbn [wdisk with_disk]. unfold set_claims.
  split; unfold job_of; cbn [wdisk with_disk]; try (rewrite dir_of_set, decide_True by done; cbn [signals receipts claims]); try done.
  - intros j Hj. by rewrite dir_of_set, decide_False.
  - intros n ->%list_elem_of_singleton. apply lookup_delete_eq.
  - intros n Hn. apply lookup_delete_ne. set_solver.
Qed.

Lemma do_release_signals t attempt now ss w :
  NoDup (map claim_name ss) →
  (∀ s, s ∈ ss → ∃ f rid t', claims (job_of t w) !! claim_name s = Some (f, Some (the_claim attempt now s t' rid))) →
  ∃ us w', do (for_list (release_signal store (file_releaseDeliveryClaim sha_hex) t attempt) (map signalId ss)) w = (Ok us, w') ∧
        released t (map claim_name ss) w w'.
Proof.
  revert w. induction ss as [|s ss IH]; intros w Hnd Hc.
  - exists [], w. split; [done|]. split; try done. by intros n ?%not_elem_of_nil.
  - simpl in Hnd. apply NoDup_cons in Hnd as [Hs Hnd].
    destruct (Hc s) as (f & rid & t' & Hs'); [apply list_elem_of_here|].
    destruct (do_release_signal _ _ _ _ _ _ _ _ Hs') as (w1 & E1 & [A1 A2 A3 A4 A5]).
    destruct (IH w1 Hnd) as (us & w2 & E2 & [B1 B2 B3 B4 B5]).
    { intros s' Hin. rewrite A5; [apply Hc; by apply list_elem_of_further|].
      rewrite list_elem_of_singleton. intros Heq. apply Hs. rewrite <-Heq. by apply list_elem_of_fmap_2. }
    exists (tt :: us), w2. split.
    + cbn [map for_list]. quietly. rewrite E1. quietly. rewrite E2. quietly. done.
    + split; try congruence.
      * intros j Hj. by rewrite B1, A1.
      * intros n [->|Hn]%elem_of_cons; [|by apply B4]. rewrite B5 by done. by apply A4, list_elem_of_here.
      * intros n [? ?]%not_elem_of_cons. rewrite B5 by done. apply A5. set_solver.
Qed.

Lemma dir_eta x y : signals x = signals y → receipts x = receipts y → claims x = claims y → x = y.
Proof. destruct x, y; simpl; congruence. Qed.

(** C17: Claims for a continuation can be taken and given back. Alone on a
    readable inbox, a continuation that defers its confirmation is given
    exactly the deliverable signals without a claim file, in the order of
    priority and age, and claims them; releasing that batch leaves every
    directory of the inbox as it was before. *)
Theorem consume_release_roundtrip (t : Target) (ci : ConsumeInput) (now : date) (w : world) :
  normalizeTarget (co_target ci) = Ok t → co_now ci = Some now → persistable now = true → deferConfirmation ci = true →
  readable (job_of t w) →
  let c := default defaultCapabilities (co_capabilities ci) in
  NoDup (map claim_name (due t c now w)) →
  ∃ b w1 w2, exec (quiet fresh policy) (consumeForContinuation localeCompare (file_store sha_hex) ci) w = (Ok b, w1) ∧
    b_signals b = List.filter (unclaimed t w) (due t c now w) ∧
    exec (quiet fresh policy) (releaseContinuationDelivery (file_store sha_hex) b) w1 = (Ok tt, w2) ∧
    ∀ j, dir_of (wdisk w2) j = dir_of (wdisk w) j.
Proof.
  intros Ht Hnow Hp Hd Hr c Hnd. destruct (do_consume t ci now w Ht Hnow Hp Hd Hr Hnd) as (b & w1 & E & Hbt & Hba & Hbs & Hbi & Hc).
  assert (NoDup (map claim_name (b_signals b))) as Hnd'.
  { rewrite Hbs. eapply sublist_NoDup; [exact Hnd|]. apply (fmap_sublist claim_name), filter_sub. }
  destruct (do_release_signals t (co_attempt ci) now (b_signals b) w1 Hnd') as (us & w2 & E2 & [R1 R2 R3 R4 R5]).
  { intros s Hs. destruct (cl_new _ _ _ _ _ _ Hc s Hs) as (f & rid & t' & _ & Hl). by exists f, rid, t'. }
  exists b, w1, w2. split; [exact E|]. split; [exact Hbs|]. split.
  - unfold releaseContinuationDelivery. cbn [releaseDeliveryClaim file_store]. fold store H.
    change (do (for_list (release_signal store (file_releaseDeliveryClaim sha_hex) (b_target b) (b_attempt b)) (b_signalIds b) ;; mret tt)
              w1 = (Ok tt, w2)).
    rewrite Hbt, Hba, Hbi. quietly. rewrite E2. done.
  - intros j. destruct (decide (j = jobDir sha_hex (jobId t))) as [->|Hj].
    + change (job_of t w2 = job_of t w). apply dir_eta.
      * by rewrite R2, (cl_signals _ _ _ _ _ _ Hc).
      * by rewrite R3, (cl_receipts _ _ _ _ _ _ Hc).
      * apply map_eq. intros n. destruct (decide (n ∈ map claim_name (b_signals b))) as [Hn|Hn].
        -- rewrite R4 by done. apply list_elem_of_fmap in Hn as (s & -> & Hs). rewrite Hbs in Hs.
           apply list_elem_of_In, List.filter_In in Hs as [_ Hu]. unfold unclaimed in Hu. by bools.
        -- by rewrite R5, (cl_old _ _ _ _ _ _ Hc).
    + by rewrite R1, (cl_other _ _ _ _ _ _ Hc).
Qed.

(** *** Confirming *)

(** The inbox of a target in order: readable, with trimmed and distinct ids, no
    attempt reported as interrupted and no unfinished line of receipts. *)
Record tidy (t : Target) (w : world) : Prop := {
  tidy_readable : readable (job_of t w);
  tidy_ids : ∀ s, s ∈ signalsOf t w → js_trim (signalId s) = signalId s ∧ truthy (signalId s) = true;
  tidy_unique : ∀ s s', s ∈ signalsOf t w → s' ∈ signalsOf t w → signalId s = signalId s' → s = s';
  tidy_interrupted : ∀ r, r ∈ receiptsOf t w → r_state r ≠ Interrupted;
  tidy_tail : tail (receipts (job_of t w)) = None }.

Lemma receiptsOf_elem t w r :
  r ∈ receiptsOf t w ↔ matching t (r_target r) = true ∧
    (r ∈ read_log (receipts (job_of t w)) ∨ ∃ n f, claims (job_of t w) !! n = Some (f, Some r)).
Proof.
  unfold receiptsOf. rewrite list_elem_of_In, List.filter_In, <-list_elem_of_In, elem_of_app.
  assert (r ∈ claims_listed (job_of t w) ↔ ∃ n f, claims (job_of t w) !! n = Some (f, Some r)) as ->; [|naive_solver].
  unfold claims_listed. rewrite list_elem_of_omap. split.
  - intros (n & _ & Hn). destruct (claims _ !! n) as [[f [r'|]]|] eqn:E; simplify_eq/=. eauto.
  - intros (n & f & Hn). exists n. split; [|by rewrite Hn]. apply elem_of_elements, elem_of_dom. eauto.
Qed.

Lemma matching_normal t u u' : normalizeTarget u = Ok u' → matching t u' = matching t u.
Proof.
  intros Hu. unfold matching, workerControlTargetMatches. by rewrite (normalize_idem _ _ Hu), Hu.
Qed.

Lemma sort_head {A} (leb : A → A → bool) (P : A → bool) l :
  (∀ a b, a ∈ l → b ∈ l → P a = true → P b = false → leb a b = true ∧ leb b a = false) → (∃ x, x ∈ l ∧ P x = true) →
  ∃ h, head (sort_by leb l) = Some h ∧ P h = true.
Proof.
  induction l as [|x l IH]; intros Hl (y & Hy & Py); [by apply not_elem_of_nil in Hy|].
  change (sort_by leb (x :: l)) with (insert_by leb x (sort_by leb l)).
  assert (∀ z l', sort_by leb l = z :: l' → z ∈ l) as Hin.
  { intros z l' E. rewrite <-(sort_by_perm leb l), E. apply list_elem_of_here. }
  destruct (P x) eqn:Px.
  - destruct (sort_by leb l) as [|z l'] eqn:E; simpl; [by exists x|]. destruct (leb x z) eqn:El; [by exists x|].
    exists z. split; [done|]. destruct (P z) eqn:Pz; [done|].
    destruct (Hl x z) as [? _]; [apply list_elem_of_here|apply list_elem_of_further; by eapply Hin|done|done|congruence].
  - destruct IH as (h & Hh & Ph).
    { intros a b Ha Hb. apply Hl; by apply list_elem_of_further. }
    { apply elem_of_cons in Hy as [->|Hy]; [congruence|]. by exists y. }
    destruct (sort_by leb l) as [|z l'] eqn:E; simpl in *; [done|]. injection Hh as ->.
    destruct (Hl h x) as [_ ->]; [apply list_elem_of_further; by eapply Hin|apply list_elem_of_here|done|done|]. by exists h.
Qed.

Section confirm.
Context (t : Target) (attempt : jsstring) (now now' : Z) (ss : list Signal) (w w1 : world).
Hypotheses (Ht : normalizeTarget t = Ok t) (Hw : tidy t w) (Hss : ∀ s, s ∈ ss → s ∈ signalsOf t w)
  (Hnew : ∀ s r, s ∈ ss → r ∈ receiptsOf t w → r_signalId r ≠ signalId s)
  (Hc : claimed t attempt (At now) ss w w1) (Hle : now ≤ now').

(** The claim of one of the signals, wherever it is listed. *)
Definition own_claim (s : Signal) (r : Receipt) : Prop :=
  ∃ rid t', normalizeTarget (target s) = Ok t' ∧ r = the_claim attempt (At now) s t' rid.

Lemma signalsOf_claimed w2 : wdisk w2 = wdisk w1 → signalsOf t w2 = signalsOf t w.
Proof. intros H2. unfold signalsOf, job_of. rewrite H2. fold (job_of t w1). by rewrite (cl_signals _ _ _ _ _ _ Hc). Qed.

Lemma claims_after s r n f :
  s ∈ ss → claims (job_of t w1) !! n = Some (f, Some r) → matching t (r_target r) = true → r_signalId r = signalId s →
  own_claim s r.
Proof.
  intros Hs Hn Hm Hid. destruct (decide (n ∈ map claim_name ss)) as [Hin|Hin].
  - apply list_elem_of_fmap in Hin as (s' & -> & Hs'). destruct (cl_new _ _ _ _ _ _ Hc s' Hs') as (f' & rid & t' & Ht' & Hl).
    rewrite Hl in Hn. simplify_eq. simpl in Hid. assert (s' = s) as -> by (apply (tidy_unique _ _ Hw); auto). by exists rid, t'.
  - rewrite (cl_old _ _ _ _ _ _ Hc n Hin) in Hn. destruct (Hnew s r Hs); [|done]. apply receiptsOf_elem. naive_solver.
Qed.

Lemma own_claim_listed s : s ∈ ss → ∃ r, r ∈ receiptsOf t w1 ∧ own_claim s r.
Proof.
  intros Hs. destruct (cl_new _ _ _ _ _ _ Hc s Hs) as (f & rid & t' & Ht' & Hl).
  exists (the_claim attempt (At now) s t' rid). split; [|by exists rid, t'].
  apply receiptsOf_elem. split; [|right; eauto]. simpl. rewrite (matching_normal _ _ _ Ht').
  by destruct (signalsOf_elem _ _ _ (Hss s Hs)).
Qed.

Lemma claimed_receipts s r : s ∈ ss → r ∈ receiptsOf t w1 → r_signalId r = signalId s → own_claim s r.
Proof.
  intros Hs [Hm [Hr|(n & f & Hn)]]%receiptsOf_elem Hid; [|by eapply claims_after].
  rewrite (cl_receipts _ _ _ _ _ _ Hc) in Hr. destruct (Hnew s r Hs); [|done]. apply receiptsOf_elem. auto.
Qed.

Lemma readable_claimed : readable (job_of t w1).
Proof.
  destruct (tidy_readable _ _ Hw) as [R1 R2 R3]. split.
  - by rewrite (cl_signals _ _ _ _ _ _ Hc).
  - by rewrite (cl_receipts _ _ _ _ _ _ Hc).
  - intros n f r Hn. destruct (decide (n ∈ map claim_name ss)) as [Hin|Hin].
    + apply list_elem_of_fmap in Hin as (s' & -> & Hs'). destruct (cl_new _ _ _ _ _ _ Hc s' Hs') as (f' & rid & t' & Ht' & Hl).
      rewrite Hl in Hn. simplify_eq. exists t'. simpl. by eapply normalize_idem.
    + rewrite (cl_old _ _ _ _ _ _ Hc n Hin) in Hn. by eapply R3.
Qed.

Lemma do_find s w2 :
  s ∈ ss → signalsOf t w2 = signalsOf t w → readable (job_of t w2) → do (findSignalOrThrow store t (signalId s)) w2 = (Ok s, w2).
Proof.
  intros Hs H2 Hr2. assert (s ∈ signalsOf t w) as Hin by auto. destruct (tidy_ids _ _ Hw s Hin) as [Htrim Htr].
  unfold findSignalOrThrow. rewrite Htrim, Htr. cbn [negb]. change (listSignals store) with (file_listSignals sha_hex). quietly.
  rewrite do_listSignals by (try done; by eexists). quietly. rewrite H2.
  destruct (List.filter _ (signalsOf t w)) as [|s' l] eqn:E.
  - assert (In s []) as []. rewrite <-E. apply List.filter_In. split; [by apply list_elem_of_In|]. simpl.
    by apply bool_decide_eq_true_2, list_elem_of_singleton.
  - assert (In s' (List.filter (λ s0, selects (Some [signalId s]) (signalId s0)) (signalsOf t w))) as Hs' by (rewrite E; by left).
    apply List.filter_In in Hs' as [Hs' Hsel]. simpl in Hsel. apply bool_decide_eq_true_1, list_elem_of_singleton in Hsel.
    assert (s' = s) as -> by (apply (tidy_unique _ _ Hw); [by apply list_elem_of_In|done|done]). done.
Qed.

Definition delivered_receipt (s : Signal) (rid : jsstring) (t' : Target) : Receipt :=
  mkReceipt rid (signalId s) t' Delivered (At now') (Some attempt) (Some (At now')) (normalizeMetadata None).

Lemma view_of s rs c n (P : Receipt → Prop) :
  (∃ r, r ∈ rs ∧ r_signalId r = signalId s) → (∀ r, latest s rs = Some r → P r) →
  ∃ r, P r ∧ latestReceipt (signalView s rs c n) = Some r ∧ v_state (signalView s rs c n) = Recorded (r_state r).
Proof.
  intros (r & Hr & Hid) HP. destruct (latest_Some s rs r Hr Hid) as (r' & Hl & _). exists r'. split; [auto|].
  unfold signalView. simpl. by rewrite Hl.
Qed.

Lemma selected_elem id rs r : r ∈ List.filter (λ r, selects (Some [id]) (r_signalId r)) rs ↔ r ∈ rs ∧ r_signalId r = id.
Proof.
  rewrite list_elem_of_In, List.filter_In, <-list_elem_of_In. 
  change (selects (Some [id]) (r_signalId r)) with (bool_decide (r_signalId r ∈ [id])).
  by rewrite bool_decide_eq_true, list_elem_of_singleton.
Qed.

Lemma latest_elem s rs r : latest s rs = Some r → r ∈ rs ∧ r_signalId r = signalId s.
Proof.
  unfold latest. intros Hl. destruct (sort_by _ _) as [|r' l] eqn:E; [done|]. simplify_eq/=.
  assert (r ∈ filter (λ r, r_signalId r = signalId s) rs) as Hr.
  { rewrite <-(sort_by_perm (not_after compareReceiptsNewestFirst)), E. apply list_elem_of_here. }
  by apply list_elem_of_filter in Hr as [? ?].
Qed.

Lemma do_confirm_signal s w2 :
  s ∈ ss → wdisk w2 = wdisk w1 →
  ∃ rid t' w3, do (confirm_signal store t attempt (At now') (signalId s)) w2 = (Ok (Some (delivered_receipt s rid t')), w3) ∧
    wdisk w3 = wdisk w1 ∧ normalizeTarget (target s) = Ok t'.
Proof.
  intros Hs H2. destruct (signalsOf_in_job t w s Ht (Hss s Hs)) as (t' & Ht' & _).
  assert (readable (job_of t w2)) as Hr2 by (unfold job_of; rewrite H2; apply readable_claimed).
  unfold confirm_signal. quietly. rewrite (do_find s w2 Hs (signalsOf_claimed w2 H2) Hr2). quietly. unfold signalViewFor.
  change (listReceipts store) with (file_listReceipts sha_hex). quietly.
  assert (receiptsOf t w2 = receiptsOf t w1) as Hrs by (unfold receiptsOf, job_of; by rewrite H2).
  rewrite do_listReceipts by (try done; by eexists). rewrite Hrs. quietly.
  set (rs := List.filter _ _).
  destruct (view_of s rs defaultCapabilities (At now') (own_claim s)) as (r & (rid & t1 & _ & ->) & Hl & Hst).
  - destruct (own_claim_listed s Hs) as (r & Hr & Ho). exists r. destruct Ho as (rid & t1 & _ & ->).
    split; [|done]. by apply selected_elem.
  - intros r [Hr%selected_elem Hid]%latest_elem. apply claimed_receipts; [done|apply Hr|done].
  - rewrite Hl, Hst. cbn [mbind option_bind the_claim deliveryAttemptId r_state].
    rewrite (bool_decide_eq_false_2 (Recorded Accepted = Recorded Delivered)), !bool_decide_eq_true_2 by done.
    cbn [andb orb negb]. unfold deliveryReceipt. quietly. rewrite Ht'. quietly. by eexists _, t', _.
Qed.

Definition confirms (s : Signal) (r : Receipt) : Prop :=
  ∃ rid t', normalizeTarget (target s) = Ok t' ∧ r = delivered_receipt s rid t'.

Lemma do_confirm_signals l w2 :
  (∀ s, s ∈ l → s ∈ ss) → wdisk w2 = wdisk w1 →
  ∃ rs w3, do (for_list (confirm_signal store t attempt (At now')) (map signalId l)) w2 = (Ok (map Some rs), w3) ∧
    wdisk w3 = wdisk w1 ∧ Forall2 confirms l rs.
Proof.
  revert w2. induction l as [|s l IH]; intros w2 Hl H2; [by exists [], w2|].
  destruct (do_confirm_signal s w2) as (rid & t' & w3 & E1 & H3 & Ht'); [apply Hl, list_elem_of_here|done|].
  destruct (IH w3) as (rs & w4 & E2 & H4 & Hrs); [intros; apply Hl; by apply list_elem_of_further|done|].
  exists (delivered_receipt s rid t' :: rs), w4. split; [|split; [done|constructor; [by exists rid, t'|done]]].
  cbn [map for_list]. quietly. rewrite E1. quietly. rewrite E2. quietly. done.
Qed.

Lemma do_append_receipts job rs w2 :
  do (append_receipts job rs) w2 = (Ok tt, with_disk w2 (set_receipts job (append_log rs (receipts (dir_of (wdisk w2) job))) (wdisk w2))).
Proof. done. Qed.

Lemma do_persist rs w2 :
  Forall (λ r, ∃ s, confirms s r) rs → do (for_list persistReceipt rs) w2 = (Ok rs, w2).
Proof.
  induction 1 as [|r rs (s & rid & t' & _ & ->) _ IH]; [done|]. cbn [for_list]. rewrite do_bind.
  change (do (persistReceipt (delivered_receipt s rid t')) w2) with (Ok (delivered_receipt s rid t') : result error Receipt, w2).
  cbv beta iota. rewrite do_bind, IH. done.
Qed.

(** [w2] is [w1] with the receipts [rs] logged. *)
Record logged (rs : list Receipt) (w2 : world) : Prop := {
  lg_signals : signals (job_of t w2) = signals (job_of t w1);
  lg_claims : claims (job_of t w2) = claims (job_of t w1);
  lg_receipts : read_log (receipts (job_of t w2)) = read_log (receipts (job_of t w1)) ++ rs }.

Lemma do_log rs w2 :
  wdisk w2 = wdisk w1 → Forall (λ r, ∃ s, s ∈ ss ∧ confirms s r) rs →
  ∃ w3, do (match rs with
            | [] => mret tt
            | rs => match appendReceipts store with
                    | None => raise (fails "worker_control_delivery_batch_append_unsupported")
                    | Some f => f rs ;; mret tt
                    end
            end) w2 = (Ok tt, w3) ∧ logged rs w3.
Proof.
  intros H2 Hrs. destruct rs as [|r rs].
  { exists w2. split; [done|]. unfold job_of. split; unfold job_of; rewrite H2; [done|done|]. by rewrite app_nil_r. }
  assert (Forall (λ r, jobDir sha_hex (jobId (r_target r)) = jobDir sha_hex (jobId t)) (r :: rs)) as Hjobs.
  { eapply Forall_impl; [exact Hrs|]. intros x (s & Hs & rid & t' & Ht' & ->). simpl.
    destruct (signalsOf_in_job t w s Ht (Hss s Hs)) as (t1 & Ht1 & <-). rewrite Ht' in Ht1. by simplify_eq. }
  cbn [appendReceipts store file_store]. unfold store, file_store, appendReceipts, file_appendReceipts.
  pose proof (Forall_inv Hjobs) as Hj. cbv beta in Hj. rewrite Hj.
  assert (existsb (λ x, negb (js_eqb (jobDir sha_hex (jobId (r_target x))) (jobDir sha_hex (jobId t)))) (r :: rs) = false) as ->.
  { clear -Hjobs. induction Hjobs as [|x l Hx _ IH]; [done|]. cbn [existsb]. by rewrite Hx, js_eqb_refl, IH. }
  rewrite !do_bind, (do_persist (r :: rs)).
  2:{ eapply Forall_impl; [exact Hrs|]. intros x (s & _ & ?). by exists s. }
  quietly. rewrite do_append_receipts. quietly. eexists. split; [done|].
  assert (tail (receipts (job_of t w1)) = None) as Htail by (rewrite (cl_receipts _ _ _ _ _ _ Hc); apply Hw).
  unfold job_of in *. split; unfold job_of; cbn [wdisk with_disk]; unfold set_receipts;
    rewrite dir_of_set, decide_True by done; rewrite H2; [done|done|]. cbn [receipts].
  unfold append_log, read_log. rewrite Htail. simpl. by rewrite !app_nil_r.
Qed.

Section after.
Context (rs : list Receipt) (w3 : world).
Hypotheses (Hrs : Forall2 confirms ss rs) (H3 : logged rs w3).

Lemma confirms_matching s r : s ∈ ss → confirms s r → matching t (r_target r) = true.
Proof.
  intros Hs (rid & t' & Ht' & ->). simpl. rewrite (matching_normal _ _ _ Ht'). by destruct (signalsOf_elem _ _ _ (Hss s Hs)).
Qed.

Lemma logged_receipts s r :
  s ∈ ss → r ∈ receiptsOf t w3 → r_signalId r = signalId s → own_claim s r ∨ confirms s r.
Proof.
  intros Hs [Hm Hr]%receiptsOf_elem Hid. rewrite (lg_receipts _ _ H3), (lg_claims _ _ H3) in Hr.
  destruct Hr as [[Hr|Hr]%elem_of_app|Hr].
  - left. apply claimed_receipts; [done| |done]. apply receiptsOf_elem. auto.
  - right. apply list_elem_of_lookup in Hr as [i Hi]. destruct (Forall2_lookup_r _ _ _ _ _ Hrs Hi) as (s' & Hs' & Hc').
    assert (s' = s) as ->; [|done]. apply list_elem_of_lookup_2 in Hs'. destruct Hc' as (rid & t' & _ & ->). simpl in Hid.
    apply (tidy_unique _ _ Hw); auto.
  - left. apply claimed_receipts; [done| |done]. apply receiptsOf_elem. auto.
Qed.

Lemma logged_confirmed s : s ∈ ss → ∃ r, r ∈ receiptsOf t w3 ∧ confirms s r.
Proof.
  intros Hs. destruct (proj1 (list_elem_of_lookup _ _) Hs) as [i Hi].
  destruct (Forall2_lookup_l _ _ _ _ _ Hrs Hi) as (r & Hr & Hc'). exists r. split; [|done].
  apply receiptsOf_elem. split; [by eapply confirms_matching|]. left. rewrite (lg_receipts _ _ H3).
  apply elem_of_app. right. by apply list_elem_of_lookup_2 in Hr.
Qed.

Lemma logged_latest s rs' :
  s ∈ ss → (∀ r, r ∈ rs' → r ∈ receiptsOf t w3) → (∀ r, r ∈ receiptsOf t w3 → r_signalId r = signalId s → r ∈ rs') →
  ∀ r, latest s rs' = Some r → confirms s r.
Proof.
  intros Hs Hsub Hall r Hl. assert (∀ x, x ∈ filter (λ r, r_signalId r = signalId s) rs' → own_claim s x ∨ confirms s x) as Hcases.
  { intros x [Hid Hx]%list_elem_of_filter. by apply logged_receipts; [|apply Hsub|]. }
  destruct (sort_head (not_after compareReceiptsNewestFirst) (λ r, bool_decide (r_state r = Delivered))
              (filter (λ r, r_signalId r = signalId s) rs')) as (h & Hh & Hp).
  - intros a b Ha Hb. destruct (Hcases a Ha) as [(? & ? & _ & ->)|(? & ? & _ & ->)]; [done|].
    destruct (Hcases b Hb) as [(? & ? & _ & ->)|(? & ? & _ & ->)]; [|done]. intros _ _.
    unfold not_after, compareReceiptsNewestFirst. simpl.
    destruct (Z.compare_spec now now'), (Z.compare_spec now' now); simpl; try done; lia.
  - destruct (logged_confirmed s Hs) as (r' & Hr' & (rid & t' & Ht' & ->)). exists (delivered_receipt s rid t'). split; [|done].
    apply list_elem_of_filter. auto.
  - destruct (latest_elem _ _ _ Hl) as [Hr Hid]. unfold latest in Hl. rewrite Hl in Hh. simplify_eq.
    destruct (Hcases h) as [(? & ? & _ & ->)|]; [by apply list_elem_of_filter|done|done].
Qed.

Lemma logged_view s c n :
  s ∈ ss → v_state (signalView s (indexReceipts (receiptsOf t w3) (signalId s)) c n) = Recorded Delivered.
Proof.
  intros Hs. destruct (logged_confirmed s Hs) as (r' & Hr' & Hc').
  assert (r_signalId r' = signalId s) as Hid by (by destruct Hc' as (? & ? & _ & ->)).
  destruct (view_of s (indexReceipts (receiptsOf t w3) (signalId s)) c n (confirms s)) as (r & (rid & t' & _ & ->) & _ & ->).
  - exists r'. split; [by apply list_elem_of_filter|done].
  - apply logged_latest; [done|..].
    + intros r [_ Hr]%list_elem_of_filter. done.
    + intros r Hr Hi. by apply list_elem_of_filter.
  - done.
Qed.

Lemma readable_logged : readable (job_of t w3).
Proof.
  destruct readable_claimed as [R1 R2 R3]. split.
  - by rewrite (lg_signals _ _ H3).
  - rewrite (lg_receipts _ _ H3). intros r [Hr|Hr]%elem_of_app; [auto|]. apply list_elem_of_lookup in Hr as [i Hi].
    destruct (Forall2_lookup_r _ _ _ _ _ Hrs Hi) as (s' & _ & rid & t' & Ht' & ->). exists t'. simpl. by eapply normalize_idem.
  - by rewrite (lg_claims _ _ H3).
Qed.

Lemma do_confirm_again l w4 :
  (∀ s, s ∈ l → s ∈ ss) → wdisk w4 = wdisk w3 →
  do (for_list (confirm_signal store t attempt (At now')) (map signalId l)) w4 = (Ok (map (λ _, None) l), w4).
Proof.
  intros Hl H4. assert (job_of t w4 = job_of t w3) as Hj by (unfold job_of; by rewrite H4).
  assert (signalsOf t w4 = signalsOf t w) as Hsig.
  { unfold signalsOf. by rewrite Hj, (lg_signals _ _ H3), (cl_signals _ _ _ _ _ _ Hc). }
  assert (receiptsOf t w4 = receiptsOf t w3) as Hrec by (unfold receiptsOf; by rewrite Hj).
  pose proof readable_logged as Hr. rewrite <-Hj in Hr.
  induction l as [|s l IH]; [done|]. cbn [map for_list]. assert (s ∈ ss) as Hs by apply Hl, list_elem_of_here.
  rewrite do_bind. unfold confirm_signal at 1. rewrite do_bind, (do_find s w4 Hs Hsig Hr). cbv beta iota. unfold signalViewFor.
  change (listReceipts store) with (file_listReceipts sha_hex).
  rewrite !do_bind, do_listReceipts by (try done; by eexists). rewrite Hrec. cbv beta iota. rewrite do_mret. cbv beta iota zeta.
  set (rs' := List.filter _ _). destruct (logged_confirmed s Hs) as (r' & Hr' & Hc').
  assert (r_signalId r' = signalId s) as Hid by (by destruct Hc' as (? & ? & _ & ->)).
  destruct (view_of s rs' defaultCapabilities (At now') (confirms s)) as (r & (rid & t' & _ & ->) & Hlr & Hst).
  - exists r'. split; [by apply selected_elem|done].
  - apply logged_latest; [done|..]; intros r; unfold rs'; rewrite selected_elem; naive_solver.
  - rewrite Hlr, Hst. cbn [mbind option_bind delivered_receipt deliveryAttemptId r_state].
    rewrite !bool_decide_eq_true_2 by done. cbn [andb]. rewrite do_mret. cbv beta iota. rewrite do_bind, IH; [done|].
    intros s' Hs'. apply Hl. by apply list_elem_of_further.
Qed.
End after.
End confirm.

(** C16: A confirmed continuation is delivered for good, on an inbox in order and
    without others. In order ([tidy]): its files can be read back, the receipts
    do not end in an unfinished line, no receipt says that an attempt was
    interrupted, the ids of its signals are trimmed, not empty and distinct, and
    the claim files of the due signals are distinct. Without others ([quiet]): no
    access fails and no other call comes between. Then a continuation that defers
    its confirmation, followed by the confirmation at the same time or later,
    succeeds; after that, and for every capability and time, each of its signals
    is delivered, and confirming it again succeeds without a change to the inbox.
    With an unfinished line the confirmation succeeds as well and the delivery is
    lost ([confirm_after_torn_line]). *)
Theorem confirm_delivers (t : Target) (ci : ConsumeInput) (now now' : Z) (w : world) :
  normalizeTarget (co_target ci) = Ok t → co_now ci = Some (At now) → deferConfirmation ci = true → tidy t w →
  let c := default defaultCapabilities (co_capabilities ci) in
  NoDup (map claim_name (due t c (At now) w)) → now ≤ now' →
  ∃ b w1 w2, exec (quiet fresh policy) (consumeForContinuation localeCompare (file_store sha_hex) ci) w = (Ok b, w1) ∧
    b_signals b = List.filter (unclaimed t w) (due t c (At now) w) ∧
    exec (quiet fresh policy) (confirmContinuationDelivery (file_store sha_hex) b (Some (At now'))) w1 = (Ok tt, w2) ∧
    (∀ s c' n, s ∈ b_signals b →
       v_state (signalView s (indexReceipts (receiptsOf t w2) (signalId s)) c' n) = Recorded Delivered) ∧
    exec (quiet fresh policy) (confirmContinuationDelivery (file_store sha_hex) b (Some (At now'))) w2 = (Ok tt, w2).
Proof.
  intros Ht Hnow Hd Hw c Hnd Hle.
  destruct (do_consume t ci (At now) w Ht Hnow eq_refl Hd (tidy_readable _ _ Hw) Hnd) as (b & w1 & E & Hbt & Hba & Hbs & Hbi & Hc).
  pose proof (normalize_idem _ _ Ht) as Htt.
  assert (∀ s, s ∈ b_signals b → s ∈ due t c (At now) w) as Hdue.
  { intros s. rewrite Hbs. intros [Hs _]%list_elem_of_In%List.filter_In. by apply list_elem_of_In. }
  assert (∀ s, s ∈ b_signals b → s ∈ signalsOf t w) as Hss by (intros s Hs; by destruct (due_elem _ _ _ _ _ (Hdue s Hs))).
  assert (∀ s r, s ∈ b_signals b → r ∈ receiptsOf t w → r_signalId r ≠ signalId s) as Hnew.
  { intros s r Hs Hr Hid. destruct (due_elem _ _ _ _ _ (Hdue s Hs)) as [_ Hdel].
    destruct (deliverable_receipt s (indexReceipts (receiptsOf t w) (signalId s)) c (At now) r) as (_ & r' & Hr' & _ & Hst);
      [by apply list_elem_of_filter|done|done|]. apply list_elem_of_filter in Hr' as [_ Hr']. by eapply (tidy_interrupted _ _ Hw). }
  destruct (do_confirm_signals t (co_attempt ci) now now' (b_signals b) w w1 Htt Hw Hss Hnew Hc (b_signals b) w1) as (rs & w1' & E1 & H1 & Hrs);
    [done|done|].
  destruct (do_log t (co_attempt ci) now now' (b_signals b) w w1 Htt Hw Hss Hc rs w1' H1) as (w2 & E2 & H2).
  { apply Forall_forall. intros r [i Hi]%list_elem_of_lookup. destruct (Forall2_lookup_r _ _ _ _ _ Hrs Hi) as (s & Hs & ?).
    exists s. split; [by apply list_elem_of_lookup_2 in Hs|done]. }
  assert (∀ ww, do (confirmContinuationDelivery store b (Some (At now'))) ww =
    match do (for_list (confirm_signal store t (co_attempt ci) (At now')) (map signalId (b_signals b))) ww with
    | (Ok receipts, w') => do (match omap id receipts with
                              | [] => mret tt
                              | receipts => match appendReceipts store with
                                | None => raise (fails "worker_control_delivery_batch_append_unsupported")
                                | Some f => f receipts ;; mret tt
                                end
                              end) w'
    | (Throw e, w') => (Throw e, w')
    end) as Hconfirm.
  { intros ww. unfold confirmContinuationDelivery, or_now. rewrite do_bind, do_mret. cbv beta iota.
    by rewrite do_bind, Hbt, Hba, Hbi. }
  exists b, w1, w2. split; [exact E|]. split; [exact Hbs|]. split; [|split].
  - change (do (confirmContinuationDelivery store b (Some (At now'))) w1 = (Ok tt, w2)).
    rewrite Hconfirm, E1, omap_map. assert (omap Some rs = rs) as -> by (clear; induction rs as [|r rs IH]; [done|]; cbn; f_equal; exact IH).
    by destruct rs.
  - intros s c' n Hs. by eapply (logged_view t (co_attempt ci) now now' (b_signals b) w w1).
  - change (do (confirmContinuationDelivery store b (Some (At now'))) w2 = (Ok tt, w2)).
    rewrite Hconfirm, (do_confirm_again t (co_attempt ci) now now' (b_signals b) w w1 Htt Hw Hss Hnew Hc Hle rs w2 Hrs H2 (b_signals b) w2) by done.
    rewrite omap_map. assert (∀ l : list Signal, omap (λ _, @None Receipt) l = []) as Hnone by (intros l; by induction l).
    by rewrite Hnone.
Qed.

(** *** Enqueueing *)

Lemma do_authorize i w :
  do (authorize i) w =
  (if allowed (policy i) then Ok tt else Throw (Failure (default (js "worker_control_unauthorized") (reason (policy i)))), w).
Proof.
  unfold authorize. rewrite do_bind. change (do (try (ask (Authorize i)) : Sv Decision) w) with (Ok (policy i) : result error Decision, w).
  cbv beta iota. by destruct (allowed (policy i)).
Qed.

Lemma do_or_now d w : do (or_now d) w = (Ok (default (clock w) d), w).
Proof. by destruct d. Qed.

Lemma do_append_signal job s w :
  do (append_signal job s) w = (Ok tt, with_disk w (set_signals job (append_log [s] (signals (dir_of (wdisk w) job))) (wdisk w))).
Proof. done. Qed.

Lemma matching_self t : normalizeTarget t = Ok t → matching t t = true.
Proof.
  intros Ht. unfold matching, workerControlTargetMatches. rewrite Ht. simpl. unfold optionalMatch.
  by repeat match goal with |- context [match ?x with Some _ => _ | None => _ end] => destruct x end; rewrite ?js_eqb_refl.
Qed.

Definition mode_of (i : EnqueueInput) : DeliveryMode := default (defaultDeliveryMode (en_intent i)) (en_mode i).

(** An input that passes the checks of [enqueueSignal], with its key. *)
Record accepted (i : EnqueueInput) (t : Target) (key : jsstring) : Prop := {
  ac_target : normalizeTarget (en_target i) = Ok t;
  ac_body : ∃ b, normalizeBody (en_body i) = Ok b ∧ key = enqueue_key sha_hex i t (mode_of i) b;
  ac_allowed : allowed (policy (mkAuth (normalizeCaller (en_caller i) (en_createdBy i)) EnqueueOp t (en_intent i)
    (mode_of i) None)) = true }.

Lemma do_enqueue_known i t key w s :
  accepted i t key → readable (job_of t w) → List.find (λ s, js_eqb (idempotencyKey s) key) (signalsOf t w) = Some s →
  do (enqueueSignal sha_hex store i) w = (Ok s, w).
Proof.
  intros [Ht (b & Hb & ->) Ha] Hr Hf. unfold enqueueSignal. rewrite do_bind, do_or_now. cbv beta iota.
  rewrite Ht, Hb. quietly. fold (mode_of i). rewrite do_authorize, Ha. quietly.
  change (listSignals store) with (file_listSignals sha_hex).
  rewrite do_listSignals by (try done; exists t; by eapply normalize_idem). quietly.
  rewrite List.filter_true by done. by rewrite Hf.
Qed.

Lemma do_enqueue_new i t key w :
  accepted i t key → readable (job_of t w) → List.find (λ s, js_eqb (idempotencyKey s) key) (signalsOf t w) = None →
  en_supersedes i = [] → persistable (default (clock w) (en_createdAt i)) = true → persistable_opt (en_expiresAt i) = true →
  tail (signals (job_of t w)) = None →
  ∃ s w', do (enqueueSignal sha_hex store i) w = (Ok s, w') ∧ idempotencyKey s = key ∧ target s = t ∧
    persistable (createdAt s) = true ∧ deliveryMode s = mode_of i ∧ expiresAt s = en_expiresAt i ∧
    (en_signalId i = None → signalId s = fresh (ids w)) ∧
    job_of t w' = mkDir (mkLog (lines (signals (job_of t w)) ++ [s]) None) (receipts (job_of t w)) (claims (job_of t w)).
Proof.
  intros [Ht (b & Hb & ->) Ha] Hr Hf Hsup Hnow Hexp Htail. unfold enqueueSignal. rewrite do_bind, do_or_now. cbv beta iota.
  rewrite Ht, Hb. quietly. fold (mode_of i). rewrite do_authorize, Ha. quietly.
  change (listSignals store) with (file_listSignals sha_hex).
  rewrite do_listSignals by (try done; exists t; by eapply normalize_idem). quietly.
  rewrite List.filter_true, Hf, Hsup by done. quietly.
  assert (∃ id w0, do (match truthy_opt (js_trim <$> en_signalId i) with Some id => mret id | None => new_id end : Sv jsstring) w
                   = (Ok id, w0) ∧ wdisk w0 = wdisk w ∧ (en_signalId i = None → id = fresh (ids w))) as (id & w0 & -> & Hw0 & Hid).
  { destruct (truthy_opt _) as [id|] eqn:E; [exists id, w; repeat split; intros Hn; by rewrite Hn in E|]. by eexists _, _. }
  cbv beta iota. change (appendSignal store) with (file_appendSignal sha_hex).
  unfold file_appendSignal, persistSignal. cbn [createdAt expiresAt target supersedesSignalIds]. rewrite Hnow, Hexp. cbn [andb].
  quietly. rewrite do_append_signal. quietly. eexists _, _. split; [reflexivity|]. repeat (split; [done|]).
  unfold job_of. cbn [wdisk with_disk]. unfold set_signals. rewrite dir_of_set, decide_True, Hw0 by done.
  fold (job_of t w). unfold append_log. by rewrite Htail.
Qed.

Lemma find_snoc {A} (f : A → bool) l x : List.find f l = None → f x = true → List.find f (l ++ [x]) = Some x.
Proof. induction l as [|y l IH]; simpl; [by intros _ ->|]. by destruct (f y). Qed.

Lemma due_intro t c now w s :
  s ∈ signalsOf t w → deliverable (signalView s (indexReceipts (receiptsOf t w) (signalId s)) c now) = true → s ∈ due t c now w.
Proof.
  intros Hs Hd. unfold due, viewsOf, sort_views. apply list_elem_of_fmap.
  exists (signalView s (indexReceipts (receiptsOf t w) (signalId s)) c now). split; [done|].
  apply list_elem_of_In, List.filter_In. split; [|done]. apply list_elem_of_In. rewrite sort_by_perm.
  apply list_elem_of_fmap. by exists s.
Qed.

(** A signal without receipts is deliverable at a safe point until it expires. *)
Lemma fresh_due t now w s :
  s ∈ signalsOf t w → (∀ r, r ∈ receiptsOf t w → r_signalId r ≠ signalId s) → is_expired s now = false →
  deliveryMode s = InterruptThenContinue ∨ deliveryMode s = NextSafePoint → s ∈ due t defaultCapabilities now w.
Proof.
  intros Hs Hr He Hm. apply due_intro; [done|]. assert (indexReceipts (receiptsOf t w) (signalId s) = []) as ->.
  { unfold indexReceipts. destruct (filter _ _) as [|r l] eqn:E; [done|].
    assert (r ∈ filter (λ r, r_signalId r = signalId s) (receiptsOf t w)) as [? Hin]%list_elem_of_filter
      by (rewrite E; apply list_elem_of_here). by destruct (Hr r Hin). }
  unfold signalView. rewrite He. by destruct Hm as [Hm|Hm]; simpl; unfold blockedReasonForSignal; simpl; rewrite Hm.
Qed.

(** What a new signal adds to an inbox. *)
Lemma do_enqueue_stored i t key w :
  accepted i t key → readable (job_of t w) → List.find (λ s, js_eqb (idempotencyKey s) key) (signalsOf t w) = None →
  en_supersedes i = [] → persistable (default (clock w) (en_createdAt i)) = true → persistable_opt (en_expiresAt i) = true →
  tail (signals (job_of t w)) = None →
  ∃ s w', do (enqueueSignal sha_hex store i) w = (Ok s, w') ∧ idempotencyKey s = key ∧ deliveryMode s = mode_of i ∧
    expiresAt s = en_expiresAt i ∧ (en_signalId i = None → signalId s = fresh (ids w)) ∧
    receiptsOf t w' = receiptsOf t w ∧ signalsOf t w' = signalsOf t w ++ [s] ∧ readable (job_of t w').
Proof.
  intros Hi Hr Hf Hsup Hnow Hexp Htail. pose proof (normalize_idem _ _ (ac_target _ _ _ Hi)) as Htt.
  destruct (do_enqueue_new i t key w Hi Hr Hf Hsup Hnow Hexp Htail) as (s & w1 & E & Hk & Hst & Hp & Hm & He & Hid & Hj).
  assert (read_log (signals (job_of t w)) = lines (signals (job_of t w))) as Hlog.
  { unfold read_log. by rewrite Htail, app_nil_r. }
  exists s, w1. repeat (split; [done|]). split; [|split].
  - unfold receiptsOf. by rewrite Hj.
  - unfold signalsOf. rewrite Hj, Hlog. unfold read_log. simpl. rewrite app_nil_r, List.filter_app. simpl.
    by rewrite Hst, matching_self.
  - rewrite Hj. destruct Hr as [R1 R2 R3]. split; [|done..]. unfold read_log. simpl. rewrite app_nil_r.
    intros x [Hx|Hx]%elem_of_app; [apply R1; by rewrite Hlog|]. apply list_elem_of_singleton in Hx as ->.
    split; [|done]. rewrite Hst. by exists t.
Qed.

(** Enqueueing is idempotent. Alone on a readable inbox whose signal log
    ends with a newline, an authorized signal that supersedes nothing is stored
    unless one with its idempotency key is there, nothing else changes; every later
    authorized call for the same target with that key, whatever its body, mode
    or time, returns the stored signal and leaves the inbox as it is. *)
Theorem signal_enqueue_idempotent (i i' : EnqueueInput) (t : Target) (key : jsstring) (w : world) :
  accepted i t key → accepted i' t key → en_supersedes i = [] →
  persistable (default (clock w) (en_createdAt i)) = true → persistable_opt (en_expiresAt i) = true →
  readable (job_of t w) → tail (signals (job_of t w)) = None →
  ∃ s w1, exec (quiet fresh policy) (enqueueSignal sha_hex (file_store sha_hex) i) w = (Ok s, w1) ∧ idempotencyKey s = key ∧
    receiptsOf t w1 = receiptsOf t w ∧
    signalsOf t w1 = signalsOf t w ++ (if existsb (λ s, js_eqb (idempotencyKey s) key) (signalsOf t w) then [] else [s]) ∧
    exec (quiet fresh policy) (enqueueSignal sha_hex (file_store sha_hex) i') w1 = (Ok s, w1).
Proof.
  intros Hi Hi' Hsup Hnow Hexp Hr Htail. pose proof (normalize_idem _ _ (ac_target _ _ _ Hi)) as Htt.
  destruct (List.find (λ s, js_eqb (idempotencyKey s) key) (signalsOf t w)) as [s|] eqn:Hf.
  - exists s, w. split; [by eapply do_enqueue_known|]. apply List.find_some in Hf as Hs. destruct Hs as [Hin Hk%js_eqb_true].
    split; [done|]. split; [done|]. split; [|by eapply do_enqueue_known].
    replace (existsb _ _) with true; [by rewrite app_nil_r|]. symmetry. apply existsb_exists. exists s. split; [done|].
    by apply js_eqb_true.
  - destruct (do_enqueue_stored i t key w Hi Hr Hf Hsup Hnow Hexp Htail) as (s & w1 & E & Hk & _ & _ & _ & Hrec & Hsig & Hr').
    exists s, w1. split; [exact E|]. split; [done|]. split; [done|]. split.
    + replace (existsb _ _) with false; [done|]. symmetry. apply not_true_is_false. intros (x & Hx & Hk')%existsb_exists.
      by rewrite (List.find_none _ _ Hf x Hx) in Hk'.
    + eapply do_enqueue_known; [done|done|]. rewrite Hsig. apply find_snoc; [done|]. by apply js_eqb_true.
Qed.
End alone.
End claims.

(** ** Examples *)

Module Demo.

Definition sha (b : list N) : jsstring := js "h" ++ b.

Fixpoint compare_units (a b : jsstring) : comparison :=
  match a, b with
  | [], [] => Eq
  | [], _ => Lt
  | _, [] => Gt
  | x :: a, y :: b => match (x ?= y)%N with Eq => compare_units a b | c => c end
  end.

Definition new (n : N) : jsstring := js "id" ++ [(48 + n)%N].
Definition anyone (i : AuthInput) : Decision := mkDecision true None.

Abbreviation H := (quiet new anyone).
Abbreviation st := (file_store sha).
Abbreviation run := (exec H).
Abbreviation consume := (consumeForContinuation compare_units st).

Definition job : Target := mkTarget (js "job") None None None None None.
Definition start : world := mkWorld (mkDisk ∅ 0) (At 10) 0.

Definition note (b : string) (id : string) (supersedes : list jsstring) : EnqueueInput :=
  mkEnqueue job Guidance None (js b) None None None None (Some (js id)) None None supersedes None.

Definition take_all (attempt : string) : ConsumeInput := mkConsume job (js attempt) None true (Some (At 20)).

(** A job with two signals. *)
Definition two : world := (run (enqueueSignal sha st (note "b" "s2" [])) (run (enqueueSignal sha st (note "a" "s1" [])) start).2).2.

Definition got : Batch := match (run (consume (take_all "a1")) two).1 with Ok b => b | _ => mkBatch job [] [] [] None end.

Example got_both : b_signalIds got = [js "s1"; js "s2"].
Proof. vm_compute. reflexivity. Qed.

Definition no_removal (tr : list (event resp)) : bool :=
  forallb (λ e, match e with Ev (RemoveClaim _ _) _ => false | _ => true end) tr.

Lemma no_removal_elem i tr : no_removal tr = true → ∀ j n k r, (k, Ev (RemoveClaim j n) r) ∉ tagged i tr.
Proof.
  intros Hno j n k r ([? ?] & [= -> <-] & Hin)%list_elem_of_fmap. unfold no_removal in Hno. rewrite forallb_forall in Hno.
  apply list_elem_of_In in Hin. by specialize (Hno _ Hin).
Qed.

Lemma delivery_exclusive_witness :
  let tr := tagged 0 (exec_trace H (consume (take_all "a1")) two) in
  (0 = 0 ∧ length (List.filter (js_eqb (js "s1")) (b_signalIds got)) = 1)%nat.
Proof.
  intros tr.
  apply (delivery_exclusive compare_units sha (wdisk two) (wdisk (run (consume (take_all "a1")) two).2) tr 0 0
           (take_all "a1") (take_all "a1") got got (js "s1")).
  - apply (exec_serves step H wdisk). intros c w. apply quiet_step.
  - unfold tr. rewrite of_thread_tagged. assert (Ok got = (run (consume (take_all "a1")) two).1) as -> by (vm_compute; reflexivity).
    apply exec_runs.
  - unfold tr. rewrite of_thread_tagged. assert (Ok got = (run (consume (take_all "a1")) two).1) as -> by (vm_compute; reflexivity).
    apply exec_runs.
  - reflexivity.
  - apply (bool_decide_unpack _). vm_compute. exact I.
  - apply (bool_decide_unpack _). vm_compute. exact I.
  - intros k r. apply no_removal_elem. vm_compute. reflexivity.
Defined.

(** A job whose signal interrupted an attempt. *)
Definition stop_now : Signal :=
  mkSignal (js "s1") (js "k") job StopRequested InterruptThenContinue (js "stop") (At 10) Operator Normal None [] [].
Definition interrupted : Receipt := mkReceipt (js "r1") (js "s1") job Interrupted (At 15) None None [].
Definition cut : world :=
  mkWorld (mkDisk {[ jobDir sha (js "job") := mkDir (mkLog [stop_now] None) (mkLog [interrupted] None) ∅ ]} 0) (At 20) 0.
Definition resume : ConsumeInput :=
  mkConsume job (js "a1") (Some (mkCapability true false true false false false false)) true (Some (At 20)).
Definition resumed : Batch := match (run (consume resume) cut).1 with Ok b => b | _ => mkBatch job [] [] [] None end.

Definition receipts_read (tr : list (event resp)) : bool :=
  forallb (λ e, match e with Ev (ReadReceipts _) r => match r return bool with [] => false | _ => true end | _ => true end) tr.

Lemma receipts_read_elem i j tr : receipts_read tr = true → (i, Ev (ReadReceipts j) []) ∉ tagged i tr.
Proof.
  intros Hno (e & [= <-] & Hin)%list_elem_of_fmap. unfold receipts_read in Hno. rewrite forallb_forall in Hno.
  apply list_elem_of_In in Hin. by specialize (Hno _ Hin).
Qed.

Lemma settled_not_redelivered_witness :
  let tr := tagged 0 (exec_trace H (consume resume) cut) in
  deliveryMode stop_now = InterruptThenContinue ∧
  ∃ r', r_signalId r' = signalId stop_now ∧ r_state r' = Interrupted ∧
    ((∃ rs, (0%nat, Ev (ReadReceipts (jobDir sha (js "job"))) rs) ∈ tr ∧ r' ∈ rs) ∨
     (∃ name, (0%nat, Ev (ReadClaim (jobDir sha (js "job")) name) (Some r')) ∈ tr)).
Proof.
  intros tr.
  apply (settled_not_redelivered compare_units sha (wdisk cut) (wdisk (run (consume resume) cut).2) tr 0 resume resumed
           interrupted stop_now).
  - apply (exec_serves step H wdisk). intros c w. apply quiet_step.
  - unfold tr. rewrite of_thread_tagged. assert (Ok resumed = (run (consume resume) cut).1) as -> by (vm_compute; reflexivity).
    apply exec_runs.
  - apply (bool_decide_unpack _). vm_compute. exact I.
  - vm_compute. reflexivity.
  - apply receipts_read_elem. vm_compute. reflexivity.
  - apply (bool_decide_unpack _). vm_compute. exact I.
  - reflexivity.
Defined.

Definition has_target_b (t : Target) : bool := match normalizeTarget t with Ok _ => true | Throw _ => false end.

Lemma has_target_test t : has_target_b t = true → has_target t.
Proof. unfold has_target_b, has_target. destruct (normalizeTarget t); [eauto|done]. Qed.

Lemma readable_test x :
  forallb (λ s, has_target_b (target s) && persistable (createdAt s)) (read_log (signals x)) = true →
  forallb (λ r, has_target_b (r_target r)) (read_log (receipts x)) = true → claims x = ∅ → readable x.
Proof.
  rewrite !forallb_forall. intros Hs Hr Hc. split.
  - intros s Hin%list_elem_of_In. specialize (Hs s Hin). bools. split; [by apply has_target_test|done].
  - intros r Hin%list_elem_of_In. by apply has_target_test, Hr.
  - intros n f r. by rewrite Hc.
Qed.

Lemma two_readable : readable (job_of sha job two).
Proof. apply readable_test; vm_compute; reflexivity. Qed.

Lemma consume_release_roundtrip_witness :
  ∃ b w1 w2, run (consume (take_all "a1")) two = (Ok b, w1) ∧
    b_signals b = List.filter (unclaimed sha job two) (due compare_units sha job defaultCapabilities (At 20) two) ∧
    run (releaseContinuationDelivery st b) w1 = (Ok tt, w2) ∧
    ∀ j, dir_of (wdisk w2) j = dir_of (wdisk two) j.
Proof.
  apply (consume_release_roundtrip compare_units sha new anyone job (take_all "a1") (At 20) two).
  - vm_compute. reflexivity.
  - reflexivity.
  - reflexivity.
  - reflexivity.
  - exact two_readable.
  - apply (bool_decide_unpack _). vm_compute. exact I.
Defined.

Lemma two_tidy : tidy sha job two.
Proof.
  split.
  - exact two_readable.
  - apply Forall_forall, (bool_decide_unpack _). vm_compute. exact I.
  - assert (Forall (λ s, Forall (λ s', signalId s = signalId s' → s = s') (signalsOf sha job two)) (signalsOf sha job two)) as Hu.
    { apply (bool_decide_unpack _). vm_compute. exact I. }
    intros s s' Hs Hs'. rewrite Forall_forall in Hu. specialize (Hu s Hs). rewrite Forall_forall in Hu. by apply Hu.
  - apply Forall_forall, (bool_decide_unpack _). vm_compute. exact I.
  - vm_compute. reflexivity.
Qed.

Lemma confirm_delivers_witness :
  ∃ b w1 w2, run (consume (take_all "a1")) two = (Ok b, w1) ∧
    b_signals b = List.filter (unclaimed sha job two) (due compare_units sha job defaultCapabilities (At 20) two) ∧
    run (confirmContinuationDelivery st b (Some (At 30))) w1 = (Ok tt, w2) ∧
    (∀ s c' n, s ∈ b_signals b →
       v_state (signalView s (indexReceipts (receiptsOf sha job w2) (signalId s)) c' n) = Recorded Delivered) ∧
    run (confirmContinuationDelivery st b (Some (At 30))) w2 = (Ok tt, w2).
Proof.
  apply (confirm_delivers compare_units sha new anyone job (take_all "a1") 20 30 two).
  - vm_compute. reflexivity.
  - reflexivity.
  - reflexivity.
  - exact two_tidy.
  - apply (bool_decide_unpack _). vm_compute. exact I.
  - lia.
Defined.

Definition key_of (i : EnqueueInput) : jsstring := enqueue_key sha i job (mode_of i) (js_trim (en_body i)).

Lemma note_accepted : accepted sha anyone (note "c" "s3" []) job (key_of (note "c" "s3" [])).
Proof. split; [vm_compute; reflexivity| |reflexivity]. exists (js "c"). split; vm_compute; reflexivity. Qed.

Lemma signal_enqueue_idempotent_witness :
  let i := note "c" "s3" [] in
  ∃ s w1, run (enqueueSignal sha st i) two = (Ok s, w1) ∧ idempotencyKey s = key_of i ∧
    receiptsOf sha job w1 = receiptsOf sha job two ∧
    signalsOf sha job w1 =
      signalsOf sha job two ++ (if existsb (λ s, js_eqb (idempotencyKey s) (key_of i)) (signalsOf sha job two) then [] else [s]) ∧
    run (enqueueSignal sha st i) w1 = (Ok s, w1).
Proof.
  apply (signal_enqueue_idempotent sha new anyone (note "c" "s3" []) (note "c" "s3" []) job (key_of (note "c" "s3" [])) two).
  - exact note_accepted.
  - exact note_accepted.
  - reflexivity.
  - vm_compute. reflexivity.
  - reflexivity.
  - exact two_readable.
  - vm_compute. reflexivity.
Defined.

(** ** What the service does at its edges *)

Definition state_of (id : string) (w : world) : option DeliveryState :=
  v_state <$> List.find (λ v, js_eqb (signalId (v_signal v)) (js id)) (viewsOf compare_units sha job defaultCapabilities (At 20) w).

Definition outcome {A} (r : result error A) : option error := match r with Ok _ => None | Throw e => Some e end.

(** A new signal that may not supersede is stored before the refusal; the retry
    that may finds it by its key and does not supersede. *)
Definition no_supersession (i : AuthInput) : Decision :=
  match operation i with SupersedeOp => mkDecision false (Some (js "denied")) | _ => mkDecision true None end.

Theorem supersession_lost_on_retry :
  let i := note "c" "s3" [js "s1"] in
  let refused := exec (quiet new no_supersession) (enqueueSignal sha st i) two in
  let retried := run (enqueueSignal sha st i) refused.2 in
  outcome refused.1 = Some (fails "denied") ∧ outcome retried.1 = None ∧
  state_of "s3" retried.2 = Some Pending ∧ state_of "s1" retried.2 = Some Pending.
Proof. vm_compute. repeat split. Qed.

(** A signal id with spaces finds its signal, but is recorded with the spaces. *)
Theorem untrimmed_supersession :
  let res := run (markSuperseded st (mkSupersede job (js " s1 ") None None None None)) two in
  outcome res.1 = None ∧ state_of "s1" res.2 = Some Pending.
Proof. vm_compute. repeat split. Qed.

(** A claim file without its receipt, as a crash leaves it: its signal is
    deliverable and never delivered, and repairing does nothing. *)
Definition torn_claim : world :=
  with_disk two (create_claim (jobDir sha (js "job")) (hashText sha (js "s1")) (wdisk two)).

Theorem torn_claim_blocks :
  state_of "s1" torn_claim = Some Pending ∧
  (b_signalIds <$> match (run (consume (take_all "a1")) torn_claim).1 with Ok b => Some b | _ => None end) = Some [js "s2"] ∧
  match (run (reconcileSnapshot compare_units st job None (Some (At 1000000)) true None) torn_claim).1 with
  | Ok (report, _) => repairedSignalIds report = []
  | Throw _ => False
  end.
Proof. vm_compute. repeat split. Qed.

(** With a read of the receipts that fails, a superseded signal is delivered. *)
Definition superseded_first : world := (run (markSuperseded st (mkSupersede job (js "s1") None None None None)) two).2.

Definition unreadable (c : call) (w : world) : resp c * world :=
  match c with ReadReceipts job => ([], w) | c => H c w end.

Theorem failed_read_redelivers :
  state_of "s1" superseded_first = Some (Recorded Superseded) ∧
  match (exec unreadable (consume (take_all "a1")) superseded_first).1 with
  | Ok b => js "s1" ∈ b_signalIds b
  | Throw _ => False
  end ∧
  ∀ c w, step c (wdisk w) (unreadable c w).1 (wdisk (unreadable c w).2).
Proof.
  split; [vm_compute; reflexivity|]. split; [vm_compute; constructor|]. intros c w. destruct c; try apply quiet_step.
  split; [done|by left].
Qed.

(** A release that has read the claim removes the claim of another attempt. *)
Definition threads (b : Batch) : list (Sv (option Batch)) :=
  [ (releaseContinuationDelivery st b ;; mret None); (releaseContinuationDelivery st b ;; mret None);
    (b ← consume (take_all "a2"); mret (Some b)); (b ← consume (take_all "a3"); mret (Some b)) ].

Definition ids_of (p : option (Sv (option Batch))) : list jsstring :=
  match p with Some (Ret (Ok (Some b))) => b_signalIds b | _ => [] end.

Theorem release_race_redelivers :
  let order := 0%nat :: replicate 40 1%nat ++ replicate 40 2%nat ++ replicate 10 0%nat ++ replicate 40 3%nat in
  let done := (interleave H order (threads got) (run (consume (take_all "a1")) two).2).1 in
  js "s1" ∈ ids_of (done !! 2%nat) ∧ js "s1" ∈ ids_of (done !! 3%nat).
Proof. vm_compute. repeat constructor. Qed.

(** After a torn line an append succeeds, and its record is lost. *)
Definition torn_line : world :=
  with_disk two (set_signals (jobDir sha (js "job")) (mkLog (lines (signals (job_of sha job two))) (Some None)) (wdisk two)).

Theorem append_after_torn_line :
  let res := run (enqueueSignal sha st (note "c" "s3" [])) torn_line in
  outcome res.1 = None ∧ state_of "s3" res.2 = None.
Proof. vm_compute. repeat split. Qed.

(** After a torn line of receipts a confirmation succeeds, and the receipt of its
    first signal is lost: the signal stays accepted. *)
Definition torn_receipts : world :=
  let j := jobDir sha (js "job") in
  with_disk two (set_receipts j (mkLog (lines (receipts (job_of sha job two))) (Some None)) (wdisk two)).

Theorem confirm_after_torn_line :
  let taken := run (consume (take_all "a1")) torn_receipts in
  let b := match taken.1 with Ok b => b | _ => mkBatch job [] [] [] None end in
  let confirmed := run (confirmContinuationDelivery st b (Some (At 30))) taken.2 in
  b_signalIds b = [js "s1"; js "s2"] ∧ outcome confirmed.1 = None ∧
  state_of "s1" confirmed.2 = Some (Recorded Accepted) ∧ state_of "s2" confirmed.2 = Some (Recorded Delivered).
Proof. vm_compute. repeat split. Qed.

(** An id that is named twice: the signal is stored and the call throws. *)
Theorem supersedes_twice :
  let res := run (enqueueSignal sha st (note "c" "s3" [js "s1"; js "s1"])) two in
  outcome res.1 = Some (fails "worker_control_signal_already_delivered_use_corrective_signal") ∧
  state_of "s3" res.2 = Some Pending ∧ state_of "s1" res.2 = Some (Recorded Superseded).
Proof. vm_compute. repeat split. Qed.
End Demo.
End Control.
