(* ===== verification/WorkerInterrupt.v ===== *)
(** * Interrupting active attempts

    [src/worker-core/control/active-attempt-registry.ts], the attempts of a
    process that can be aborted; [active-attempt-interrupt-monitor.ts], the
    loop that aborts them for the signals of the control inbox; and
    [interrupt-and-continue-worker-use-case.ts], which stores a message and
    interrupts the attempt it is for.

    An [AbortController] is a number, and the registry state holds the reasons
    of the controllers that are aborted. The monitor is a machine whose events
    are the settlements of what its loop awaits. *)

From stdpp Require Import base numbers list option strings gmap.
From S2P Require Import Prelude Json Programs WorkerInbox WorkerControl.

#[local] Open Scope Z_scope.

Module Interrupts.
Import Inbox Control.

(** ** The registry *)

(** [RuntimeInterruptReason]; its code is a constant. *)
Record Reason : Set := mkReason { safeMessage : string; rs_signalId : option jsstring; requestedBy : option jsstring }.

Record ActiveAttempt : Set := mkAttempt {
  at_taskId : jsstring; attemptNumber : Z; provider : jsstring; workspacePath : jsstring; at_target : Target;
  startedAt : date }.

(** An attempt with its [AbortController]. *)
Record Registered : Set := mkRegistered { activeAttemptRecord : ActiveAttempt; abortController : N }.

Record registry : Set := mkRegistry { attempts : list (jsstring * Registered); aborted : gmap N Reason }.

Inductive InterruptResult : Set := InterruptedAttempt (a : ActiveAttempt) | NotFound.

Definition empty_registry : registry := mkRegistry [] ∅.

Definition activeAttemptKey (t : Target) : jsstring :=
  js_join [0%N] [jobId t; default [] (taskId t); default [] (workerId t); default [] (attemptId t);
                 default [] (providerSessionId t); default [] (workspaceId t)].

(** A field of the query, when it is given, is that of the target. *)
Definition field_matches (query target : option jsstring) : bool :=
  match query with None => true | Some _ => bool_decide (query = target) end.

Definition activeTargetMatches (query target : Target) : bool :=
  js_eqb (jobId query) (jobId target) && field_matches (taskId query) (taskId target) &&
  field_matches (workerId query) (workerId target) && field_matches (attemptId query) (attemptId target) &&
  field_matches (providerSessionId query) (providerSessionId target) &&
  field_matches (workspaceId query) (workspaceId target).

Definition registered_key (x : Registered) : jsstring := activeAttemptKey (at_target (activeAttemptRecord x)).

Definition register (x : Registered) (r : registry) : registry := mkRegistry (map_set (attempts r) (registered_key x) x) (aborted r).

(** [release] of the lease that [register] returned for [x]. *)
Definition release (x : Registered) (r : registry) : registry :=
  match map_get (attempts r) (registered_key x) with
  | Some current =>
      if js_eqb (at_taskId (activeAttemptRecord current)) (at_taskId (activeAttemptRecord x)) &&
         (attemptNumber (activeAttemptRecord current) =? attemptNumber (activeAttemptRecord x))
      then mkRegistry (map_delete (attempts r) (registered_key x)) (aborted r)
      else r
  | None => r
  end.

Definition find (t : Target) (r : registry) : option Registered :=
  match map_get (attempts r) (activeAttemptKey t) with
  | Some direct => Some direct
  | None => List.find (λ x, activeTargetMatches t (at_target (activeAttemptRecord x))) (map snd (attempts r))
  end.

Definition get (t : Target) (r : registry) : option ActiveAttempt := activeAttemptRecord <$> find t r.

(** [abort] of a controller; a controller that is aborted keeps its reason. *)
Definition abort (c : N) (reason : Reason) (r : registry) : registry :=
  mkRegistry (attempts r) (match aborted r !! c with Some _ => aborted r | None => <[c := reason]> (aborted r) end).

Definition interrupt (t : Target) (reason : Reason) (r : registry) : InterruptResult * registry :=
  match find t r with
  | None => (NotFound, r)
  | Some x => (InterruptedAttempt (activeAttemptRecord x), abort (abortController x) reason r)
  end.

(** ** The monitor *)

(** What the loop awaits: the list of signals, the answer of the registry for a
    signal, or the next poll. [Finished]: the loop has ended, [stop] has not
    returned. *)
Inductive phase : Set :=
| Listing
| Interrupting (v : View) (rest : list View)
| Waiting
| Finished.

Record monitor : Set := mkMonitor {
  interruptedSignalIds : gset jsstring; stopRequested : bool; running : option (Target * phase) }.

Definition newMonitor (pollIntervalMs : option num) : result error monitor :=
  let ms := default (num_of_Z 250) pollIntervalMs in
  if negb (is_integer ms) || num_leb ms (num_of_Z 0) then Throw (fails "active_attempt_interrupt_poll_interval_invalid")
  else Ok (mkMonitor ∅ false None).

Definition either (a b : option jsstring) : option jsstring := match a with Some _ => a | None => b end.

(** The fields of the signal, and those of the monitor where it has none. *)
Definition interruptTarget (monitored signal : Target) : Target :=
  mkTarget (jobId signal) (either (taskId signal) (taskId monitored)) (either (workerId signal) (workerId monitored))
    (either (attemptId signal) (attemptId monitored)) (either (providerSessionId signal) (providerSessionId monitored))
    (either (workspaceId signal) (workspaceId monitored)).

Definition monitor_reason (s : Signal) : Reason :=
  mkReason "Runtime controlled interrupt requested by durable worker control inbox." (Some (signalId s))
    (Some (actor_name (createdBy s))).

(** The next signal of the list that is to interrupt; an exception ends the
    loop over the list. *)
Fixpoint next_interrupt (t : Target) (ids : gset jsstring) (views : list View) : option (View * list View) :=
  match views with
  | [] => None
  | v :: rest =>
      if negb (bool_decide (deliveryMode (v_signal v) = InterruptThenContinue)) || bool_decide (signalId (v_signal v) ∈ ids)
      then next_interrupt t ids rest
      else match workerControlTargetMatches t (target (v_signal v)) with
           | Ok true => Some (v, rest)
           | Ok false => next_interrupt t ids rest
           | Throw _ => None
           end
  end.

(** The rest of a poll: the next interruption, or [waitForNextPoll]. *)
Definition walk (t : Target) (ids : gset jsstring) (stop : bool) (views : list View) : monitor :=
  mkMonitor ids stop (Some (t, match next_interrupt t ids views with
                               | Some (v, rest) => Interrupting v rest
                               | None => if stop then Finished else Waiting
                               end)).

Inductive event : Set :=
| Start (t : Target)
| Stop
| StopReturns
| Timer
| Listed (r : result error (list View))
| Answered (r : result error InterruptResult).

Definition start (t : Target) (m : monitor) : result error monitor :=
  match running m with
  | Some _ => Throw (fails "active_attempt_interrupt_monitor_already_started")
  | None => Ok (mkMonitor (interruptedSignalIds m) false (Some (t, Listing)))
  end.

(** [on m e]: the monitor after the event; [None] when the loop does not await
    it. *)
Definition on (m : monitor) (e : event) : option monitor :=
  let ids := interruptedSignalIds m in
  let stop := stopRequested m in
  match e, running m with
  | Start t, _ => Some (match start t m with Ok m' => m' | Throw _ => m end)
  | Stop, Some (t, Waiting) => Some (mkMonitor ids true (Some (t, Finished)))
  | Stop, run => Some (mkMonitor ids true run)
  | StopReturns, Some (t, Finished) => Some (mkMonitor ids stop None)
  | Timer, Some (t, Waiting) => Some (mkMonitor ids stop (Some (t, if stop then Finished else Listing)))
  | Listed (Ok views), Some (t, Listing) => Some (walk t ids stop views)
  | Listed (Throw _), Some (t, Listing) => Some (walk t ids stop [])
  | Answered (Ok (InterruptedAttempt _)), Some (t, Interrupting v rest) =>
      Some (walk t ({[signalId (v_signal v)]} ∪ ids) stop rest)
  | Answered (Ok NotFound), Some (t, Interrupting v rest) => Some (walk t ids stop rest)
  | Answered (Throw _), Some (t, Interrupting v rest) => Some (walk t ids stop [])
  | _, _ => None
  end.

(** ** A process: its registry and its monitor *)

Inductive operation : Set :=
| Register (x : Registered)
| Release (x : Registered)
| Abort (c : N) (reason : Reason)
| Interrupt (t : Target) (reason : Reason)
| Monitor (e : event)
| Resume.

(** [answer]: what the registry answered to the call that the loop awaits. *)
Record process : Set := mkProcess { reg : registry; mon : monitor; answer : option InterruptResult }.

(** The target of the call and its signal. *)
Definition asked (m : monitor) : option (Target * Signal) :=
  match running m with
  | Some (t, Interrupting v rest) => Some (interruptTarget t (target (v_signal v)), v_signal v)
  | _ => None
  end.

(** The loop calls the registry before it awaits the answer. *)
Definition calling (r : registry) (m : monitor) : process :=
  match asked m with
  | Some (t, s) => let '(a, r') := interrupt t (monitor_reason s) r in mkProcess r' m (Some a)
  | None => mkProcess r m None
  end.

Definition with_reg (p : process) (r : registry) : process := mkProcess r (mon p) (answer p).

Definition perform (p : process) (o : operation) : option process :=
  match o with
  | Register x => Some (with_reg p (register x (reg p)))
  | Release x => Some (with_reg p (release x (reg p)))
  | Abort c reason => Some (with_reg p (abort c reason (reg p)))
  | Interrupt t reason => Some (with_reg p (interrupt t reason (reg p)).2)
  | Monitor (Answered _) => None
  | Monitor (Listed r) => calling (reg p) <$> on (mon p) (Listed r)
  | Monitor e => (λ m, mkProcess (reg p) m (answer p)) <$> on (mon p) e
  | Resume => a ← answer p; calling (reg p) <$> on (mon p) (Answered (Ok a))
  end.

Fixpoint performs (p : process) (os : list operation) : option process :=
  match os with
  | [] => Some p
  | o :: os => p' ← perform p o; performs p' os
  end.

(** ** Keys and addresses *)

Definition fields (t : Target) : list jsstring :=
  [jobId t; default [] (taskId t); default [] (workerId t); default [] (attemptId t); default [] (providerSessionId t);
   default [] (workspaceId t)].

(** No field has the separator of the key. *)
Definition plain (t : Target) : bool := forallb (λ f, negb (bool_decide (0%N ∈ f))) (fields t).

Lemma split_inj (c : N) a b x y : c ∉ a → c ∉ b → a ++ c :: x = b ++ c :: y → a = b ∧ x = y.
Proof.
  revert b. induction a as [|u a IH]; intros [|v b] Ha Hb; simpl; intros [= ]; subst; try set_solver.
  destruct (IH b) as [-> ->]; [set_solver..|done|done].
Qed.

Lemma join_inj (l l' : list jsstring) :
  length l = length l' → Forall (λ f, 0%N ∉ f) l → Forall (λ f, 0%N ∉ f) l' → js_join [0%N] l = js_join [0%N] l' → l = l'.
Proof.
  revert l'. induction l as [|a l IH]; intros [|b l'] Hlen; try done. injection Hlen as Hlen.
  intros [Ha Hl]%Forall_cons [Hb Hl']%Forall_cons. destruct l as [|a' l], l' as [|b' l']; try done.
  - simpl. by intros ->.
  - change (js_join [0%N] (a :: a' :: l)) with (a ++ 0%N :: js_join [0%N] (a' :: l)).
    change (js_join [0%N] (b :: b' :: l')) with (b ++ 0%N :: js_join [0%N] (b' :: l')).
    intros [-> Hj]%split_inj; [|done..]. f_equal. by apply IH.
Qed.

Lemma plain_fields t : plain t = true → Forall (λ f, 0%N ∉ f) (fields t).
Proof.
  unfold plain. rewrite forallb_forall, Forall_forall. intros Hf f Hin%list_elem_of_In. specialize (Hf f Hin). by bools.
Qed.

Lemma key_inj t u : plain t = true → plain u = true → activeAttemptKey t = activeAttemptKey u → fields t = fields u.
Proof. intros Ht%plain_fields Hu%plain_fields. by apply join_inj. Qed.

(** The optional fields of a target. *)
Definition optional_fields (t : Target) : list (option jsstring) :=
  [taskId t; workerId t; attemptId t; providerSessionId t; workspaceId t].

(** Every field that a query gives, and that is not the empty string, is that
    of the target. *)
Definition addressed (q t : Target) : Prop :=
  jobId t = jobId q ∧ Forall2 (λ a b, ∀ x, a = Some x → x ≠ [] → b = Some x) (optional_fields q) (optional_fields t).

Lemma field_matches_true a b x : field_matches a b = true → a = Some x → b = Some x.
Proof. intros Hm ->. simpl in Hm. by bools. Qed.

Lemma matches_addressed q t : activeTargetMatches q t = true → addressed q t.
Proof.
  unfold activeTargetMatches, addressed, optional_fields. intros Hm. bools. split; [done|].
  repeat constructor; intros x Hx _; by eapply field_matches_true.
Qed.

Lemma default_field (a b : option jsstring) x : default [] a = default [] b → a = Some x → x ≠ [] → b = Some x.
Proof. intros Hd -> Hx. destruct b; simpl in *; congruence. Qed.

Lemma fields_addressed q t : fields q = fields t → addressed q t.
Proof.
  unfold fields, addressed, optional_fields. intros [= Hj H1 H2 H3 H4 H5]. split; [done|].
  repeat constructor; intros x Hx Hn; by eapply default_field.
Qed.

Lemma addressed_either t s u :
  addressed (interruptTarget t s) u → Forall2 (λ a b, ∀ x, a = Some x → x ≠ [] → b = Some x) (optional_fields s) (optional_fields u) ∧
  ∀ i, optional_fields s !! i = Some None → ∀ x, optional_fields t !! i = Some (Some x) → x ≠ [] → optional_fields u !! i = Some (Some x).
Proof.
  unfold addressed, optional_fields, interruptTarget. simpl. intros (_ & Hf). rewrite !Forall2_cons in Hf.
  destruct Hf as (H1 & H2 & H3 & H4 & H5 & _). split.
  - repeat constructor; intros x Hx Hn;
      [apply H1|apply H2|apply H3|apply H4|apply H5]; try exact Hn; by rewrite Hx.
  - intros i. do 5 (destruct i as [|i]; [simpl; intros [= Hs] x [= Ht] Hn; f_equal; rewrite Hs, Ht in *; simpl in *; auto|]).
    by intros Hi.
Qed.

(** ** The registry *)

(** Its keys are those of the targets, once each; the targets have no
    separator. *)
Record registry_wf (r : registry) : Prop := {
  wf_keys : NoDup (attempts r).*1;
  wf_key : ∀ k x, (k, x) ∈ attempts r → k = registered_key x ∧ plain (at_target (activeAttemptRecord x)) = true }.

Lemma map_delete_elem (m : list (jsstring * Registered)) k kv : kv ∈ map_delete m k → kv ∈ m.
Proof. induction m as [|[a b] m IH]; simpl; [done|]. case_decide; set_solver. Qed.

Lemma map_set_elem (m : list (jsstring * Registered)) k x kv : kv ∈ map_set m k x → kv ∈ m ∨ kv = (k, x).
Proof.
  induction m as [|[a b] m IH]; simpl; [set_solver|]. case_decide; [subst|]; rewrite ?elem_of_cons; naive_solver.
Qed.

Lemma register_wf x r : plain (at_target (activeAttemptRecord x)) = true → registry_wf r → registry_wf (register x r).
Proof.
  intros Hx [W1 W2]. split; simpl; [by apply map_set_NoDup|]. intros k y [Hin|[= -> ->]]%map_set_elem; [by apply W2|done].
Qed.

Lemma release_wf x r : registry_wf r → registry_wf (release x r).
Proof.
  intros [W1 W2]. unfold release. destruct (map_get _ _); [|by split]. destruct (_ && _); [|by split].
  split; simpl; [by apply map_delete_NoDup|]. intros k y Hin%map_delete_elem. by apply W2.
Qed.

Lemma abort_wf c reason r : registry_wf r → registry_wf (abort c reason r).
Proof. by intros [W1 W2]. Qed.

Lemma interrupt_wf t reason r : registry_wf r → registry_wf (interrupt t reason r).2.
Proof. intros W. unfold interrupt. destruct (find t r); [by apply abort_wf|done]. Qed.

Lemma find_Some t r x :
  registry_wf r → plain t = true → find t r = Some x → addressed t (at_target (activeAttemptRecord x)) ∧ (registered_key x, x) ∈ attempts r.
Proof.
  intros [W1 W2] Ht. unfold find. destruct (map_get _ _) as [y|] eqn:E.
  - intros [= ->]. apply map_get_Some_in in E. destruct (W2 _ _ E) as [Hk Hp]. split; [|by rewrite <-Hk].
    apply fields_addressed, key_inj; [done..|]. exact Hk.
  - intros [Hin Hm]%List.find_some. split; [by apply matches_addressed|].
    apply list_elem_of_In, list_elem_of_fmap in Hin as ([k y] & -> & Hin). simpl. destruct (W2 _ _ Hin) as [<- _]. done.
Qed.

Lemma find_None t r x k :
  find t r = None → (k, x) ∈ attempts r → activeTargetMatches t (at_target (activeAttemptRecord x)) = false.
Proof.
  unfold find. destruct (map_get _ _); [done|]. intros Hf Hin. apply (List.find_none _ _ Hf).
  apply list_elem_of_In, list_elem_of_fmap. by exists (k, x).
Qed.

(** The operations of a registry alone. *)
Definition on_registry (r : registry) (o : operation) : registry :=
  match o with
  | Register x => register x r
  | Release x => release x r
  | Abort c reason => abort c reason r
  | Interrupt t reason => (interrupt t reason r).2
  | Monitor _ | Resume => r
  end.

Definition plain_operation (o : operation) : bool :=
  match o with Register x => plain (at_target (activeAttemptRecord x)) | _ => true end.

Lemma on_registry_wf o r : plain_operation o = true → registry_wf r → registry_wf (on_registry r o).
Proof. destruct o; simpl; auto using register_wf, release_wf, abort_wf, interrupt_wf. Qed.

Lemma empty_wf : registry_wf empty_registry.
Proof. split; [constructor|]. intros k x Hin. by apply not_elem_of_nil in Hin. Qed.

Lemma registry_of_wf os : forallb plain_operation os = true → registry_wf (foldl on_registry empty_registry os).
Proof.
  generalize empty_wf. generalize empty_registry. induction os as [|o os IH]; intros r Hr; simpl; [done|].
  intros [Ho Hos]%andb_true_iff. apply IH; [by apply on_registry_wf|done].
Qed.

(** An interruption reaches an attempt that it addresses, or there is none.
    After any operations on targets without the separator of the keys, an
    interruption of a target aborts the controller of one registered attempt,
    whose target has every field that the query gives; it touches no other
    controller, and a controller that was aborted keeps its reason. It finds no
    attempt only if no registered attempt matches, and then changes nothing. *)
Theorem interrupt_addressed (os : list operation) (t : Target) (reason : Reason) :
  forallb plain_operation os = true → plain t = true →
  let r := foldl on_registry empty_registry os in
  let '(res, r') := interrupt t reason r in
  match res with
  | InterruptedAttempt a => ∃ x, activeAttemptRecord x = a ∧ (registered_key x, x) ∈ attempts r ∧ addressed t (at_target a) ∧
      attempts r' = attempts r ∧
      (∀ c, aborted r' !! c = if decide (c = abortController x) then Some (default reason (aborted r !! c)) else aborted r !! c)
  | NotFound => r' = r ∧ ∀ k x, (k, x) ∈ attempts r → activeTargetMatches t (at_target (activeAttemptRecord x)) = false
  end.
Proof.
  intros Hos Ht r. pose proof (registry_of_wf os Hos) as Hwf. fold r in Hwf. unfold interrupt.
  destruct (find t r) as [x|] eqn:E; [|split; [done|]; intros; by eapply find_None].
  destruct (find_Some t r x Hwf Ht E) as [Ha Hin]. exists x. repeat (split; [done|]). intros c. simpl.
  destruct (aborted r !! abortController x) eqn:Ec; destruct (decide (c = abortController x)) as [->|Hne]; rewrite ?Ec; simpl; try done.
  - by rewrite lookup_insert_eq.
  - by rewrite lookup_insert_ne.
Qed.

(** ** The monitor *)

Lemma next_interrupt_spec t ids views v rest :
  next_interrupt t ids views = Some (v, rest) →
  deliveryMode (v_signal v) = InterruptThenContinue ∧ (signalId (v_signal v) ∉ ids) ∧
  workerControlTargetMatches t (target (v_signal v)) = Ok true ∧ v ∈ views ∧ (∀ x, x ∈ rest → x ∈ views) ∧
  (length rest < length views)%nat.
Proof.
  assert (∀ w views, v ∈ views ∧ (∀ x, x ∈ rest → x ∈ views) ∧ (length rest < length views)%nat →
            v ∈ w :: views ∧ (∀ x, x ∈ rest → x ∈ w :: views) ∧ (length rest < length (w :: views))%nat) as Hcons.
  { intros w vs (? & ? & ?). simpl. split; [by apply list_elem_of_further|]. split; [|lia]. intros; apply list_elem_of_further; auto. }
  induction views as [|w views IH]; [done|]. cbn [next_interrupt].
  destruct (negb _ || _) eqn:E; [|destruct (workerControlTargetMatches t (target (v_signal w))) as [b|] eqn:Em; [destruct b|]].
  - intros (? & ? & ? & ?)%IH. auto.
  - intros Heq. injection Heq as -> ->. bools. repeat (split; [done|]). split; [by apply list_elem_of_here|]. simpl. split; [|lia].
    intros; by apply list_elem_of_further.
  - intros (? & ? & ? & ?)%IH. auto.
  - done.
Qed.

Definition interrupted_id (m : monitor) (e : event) : option jsstring :=
  match e, asked m with Answered (Ok (InterruptedAttempt _)), Some (_, s) => Some (signalId s) | _, _ => None end.

(** The ids of the signals for which an attempt was interrupted, in order. *)
Fixpoint interrupted_ids (m : monitor) (es : list event) : list jsstring :=
  match es with
  | [] => []
  | e :: es =>
      match on m e with
      | Some m' => option_list (interrupted_id m e) ++ interrupted_ids m' es
      | None => []
      end
  end.

(** The signal the loop waits for was not interrupted before. *)
Definition fresh_call (m : monitor) : Prop := ∀ t s, asked m = Some (t, s) → signalId s ∉ interruptedSignalIds m.

Lemma walk_fresh t ids stop views : fresh_call (walk t ids stop views).
Proof.
  intros u s. unfold asked, walk. simpl. destruct (next_interrupt t ids views) as [[v rest]|] eqn:E; [|by destruct stop].
  intros [= _ <-]. by destruct (next_interrupt_spec _ _ _ _ _ E) as (_ & ? & _).
Qed.

Lemma fresh_same m m' :
  interruptedSignalIds m' = interruptedSignalIds m → asked m' = asked m ∨ asked m' = None → fresh_call m → fresh_call m'.
Proof. intros Hi [Ha|Ha] Hf t s; rewrite Ha, ?Hi; [apply Hf|done]. Qed.

Definition added (m : monitor) (e : event) : gset jsstring := list_to_set (option_list (interrupted_id m e)).

Lemma on_fresh m e m' :
  on m e = Some m' → fresh_call m → fresh_call m' ∧ interruptedSignalIds m' = added m e ∪ interruptedSignalIds m.
Proof.
  intros Hon Hf.
  assert ((∃ t vs, m' = walk t (added m e ∪ interruptedSignalIds m) (stopRequested m) vs) ∨
          added m e = ∅ ∧ interruptedSignalIds m' = interruptedSignalIds m ∧ (asked m' = asked m ∨ asked m' = None)) as Hcases.
  { revert Hon. unfold on, start, added, interrupted_id, asked.
    destruct e as [t| | | |[views|]|[[a|]|]]; destruct (running m) as [[u [|v rest| |]]|] eqn:Er; try done; intros [= <-];
      rewrite ?Er; cbn [option_list list_to_set running interruptedSignalIds stopRequested];
      try (left; eexists _, _; apply (f_equal (λ ids, walk _ ids _ _)); set_solver);
      right; (split; [done|]); rewrite ?Er; try destruct (stopRequested m); auto. }
  destruct Hcases as [(t & vs & ->)|(-> & Hi & Ha)]; [split; [apply walk_fresh|done]|].
  split; [by eapply fresh_same|by rewrite union_empty_l_L].
Qed.

Lemma interrupted_ids_fresh m es : fresh_call m → NoDup (interrupted_ids m es) ∧ ∀ i, i ∈ interrupted_ids m es → i ∉ interruptedSignalIds m.
Proof.
  revert m. induction es as [|e es IH]; intros m Hf; simpl; [split; [constructor|by intros ? ?%not_elem_of_nil]|].
  destruct (on m e) as [m'|] eqn:E; [|split; [constructor|by intros ? ?%not_elem_of_nil]].
  destruct (on_fresh m e m' E Hf) as [Hf' Hids]. destruct (IH m' Hf') as [Hn Hfr].
  unfold added in Hids. destruct (interrupted_id m e) as [i|] eqn:Ei; simpl in *.
  - assert (i ∉ interruptedSignalIds m) as Hi.
    { unfold interrupted_id in Ei. destruct e as [| | | | |[[a|]|]]; try done. destruct (asked m) as [[t s]|] eqn:Ea; [|done].
      injection Ei as <-. by apply (Hf t). }
    split; [constructor; [|done]; intros Hin; specialize (Hfr i Hin); set_solver|].
    intros j [->|Hin]%elem_of_cons; [done|]. specialize (Hfr j Hin). set_solver.
  - split; [done|]. intros j Hin. specialize (Hfr j Hin). set_solver.
Qed.

(** One monitor interrupts for a signal at most once: over any sequence of
    starts, stops, polls and answers, and whatever signals the polls list, no
    signal gets an attempt interrupted twice. *)
Theorem interrupts_once (pollIntervalMs : option num) (m : monitor) (es : list event) :
  newMonitor pollIntervalMs = Ok m → NoDup (interrupted_ids m es).
Proof.
  unfold newMonitor. destruct (_ || _); [done|]. intros [= <-]. by apply interrupted_ids_fresh.
Qed.

(** *** Stopping *)

(** The loop goes on by itself: what it awaits is settled. *)
Definition settles (e : event) : bool := match e with Timer | Listed _ | Answered _ => true | _ => false end.

Definition work (m m' : monitor) : Prop := ∃ e, settles e = true ∧ on m e = Some m'.

Definition at_rest (m : monitor) : bool :=
  match running m with Some (_, Finished) | None => true | _ => false end.

Definition listing (m : monitor) : bool := match running m with Some (_, Listing) => true | _ => false end.

Lemma rest_acc m : at_rest m = true → Acc (flip work) m.
Proof.
  intros Hr. constructor. intros m' (e & He & Hon). unfold at_rest in Hr. unfold on in Hon.
  destruct (running m) as [[t []]|]; try discriminate Hr; destruct e as [| | | |[]|[[]|]]; discriminate.
Qed.

Lemma walk_acc n t ids views : (length views ≤ n)%nat → Acc (flip work) (walk t ids true views).
Proof.
  revert ids views. induction n as [|n IH]; intros ids views Hn;
    (destruct (next_interrupt t ids views) as [[v rest]|] eqn:E; [|apply rest_acc; unfold at_rest, walk; cbn; by rewrite E]);
    destruct (next_interrupt_spec _ _ _ _ _ E) as (_ & _ & _ & _ & _ & Hl); [lia|].
  constructor. intros m' (e & He & Hon). unfold on, walk in Hon. cbn in Hon. rewrite E in Hon.
  destruct e as [| | | |[]|[[]|]]; try discriminate; injection Hon as <-;
    solve [apply rest_acc; reflexivity | apply IH; cbn; lia].
Qed.

Lemma stopped_acc m : stopRequested m = true → Acc (flip work) m.
Proof.
  intros Hs. destruct (at_rest m) eqn:Hr; [by apply rest_acc|]. constructor. intros m' (e & He & Hon).
  unfold on in Hon. rewrite Hs in Hon. unfold at_rest in Hr.
  destruct (running m) as [[t []]|]; try discriminate Hr; destruct e as [| | | |[]|[[]|]]; try discriminate; injection Hon as <-;
    solve [by eapply walk_acc | by apply rest_acc].
Qed.

Lemma walk_not_listing t ids stop views : listing (walk t ids stop views) = false.
Proof. unfold listing, walk. simpl. by destruct (next_interrupt _ _ _) as [[]|]; [|destruct stop]. Qed.

Lemma work_stopped m m' : work m m' → stopRequested m = true → stopRequested m' = true ∧ listing m' = false.
Proof.
  intros (e & He & Hon) Hs. unfold on in Hon. rewrite Hs in Hon.
  destruct (running m) as [[t []]|]; destruct e as [| | | |[]|[[]|]]; try discriminate; injection Hon as <-; (split; [reflexivity|]);
    solve [apply walk_not_listing | reflexivity].
Qed.

(** A stop ends the loop. Once it is requested, the loop makes finitely many
    further steps, whatever the inbox and the registry answer; it can always
    make one until it has ended; and it does not list the signals again. *)
Theorem stop_terminates (m : monitor) :
  stopRequested m = true →
  Acc (flip work) m ∧
  ∀ m', tc work m m' → listing m' = false ∧ (at_rest m' = true ∨ ∃ m'', work m' m'').
Proof.
  intros Hs. split; [by apply stopped_acc|]. intros m' Hm.
  assert (stopRequested m' = true ∧ listing m' = false) as [_ Hl].
  { revert Hs. induction Hm as [m m' Hw|m m1 m' Hw _ IH]; intros Hs; [by apply work_stopped in Hw|].
    apply IH. by apply work_stopped in Hw as []. }
  split; [done|]. unfold at_rest, listing in *. destruct (running m') as [[t [|v rest| |]]|] eqn:E; try done; [|right|by left..].
  - right. eexists. exists (Answered (Ok NotFound)). split; [done|]. unfold on. by rewrite E.
  - eexists. exists Timer. split; [done|]. unfold on. by rewrite E.
Qed.

(** ** The process *)

(** What the monitor asks the service for. *)
Definition monitor_query (t : Target) : Query := mkQuery (Some t) None [Pending] false true None.

Definition plain_input (o : operation) : bool :=
  match o with
  | Register x => plain (at_target (activeAttemptRecord x))
  | Monitor (Start t) => plain t
  | Monitor (Listed (Ok views)) => forallb (λ v, plain (target (v_signal v))) views
  | _ => true
  end.

Lemma plain_interruptTarget t s : plain t = true → plain s = true → plain (interruptTarget t s) = true.
Proof.
  unfold plain, fields, interruptTarget. simpl. intros Ht Hs. bools.
  repeat (apply andb_true_intro; split); try done; apply negb_true_iff, bool_decide_eq_false;
    first [assumption | match goal with |- context [either ?a ?b] => destruct a; simpl in *; assumption end].
Qed.

Section process.
Context (os : list operation).

Definition good (v : View) : Prop :=
  plain (target (v_signal v)) = true ∧ ∃ views, Monitor (Listed (Ok views)) ∈ os ∧ v ∈ views.

(** The attempt that was interrupted for the signal of a call. *)
Definition reached (r : registry) (t : Target) (a : ActiveAttempt) : Prop :=
  addressed t (at_target a) ∧
  ∃ x, activeAttemptRecord x = a ∧ Register x ∈ os ∧ is_Some (aborted r !! abortController x).

Definition called (r : registry) (ans : option InterruptResult) (t : Target) (v : View) : Prop :=
  deliveryMode (v_signal v) = InterruptThenContinue ∧ workerControlTargetMatches t (target (v_signal v)) = Ok true ∧ good v ∧
  ∀ a, ans = Some (InterruptedAttempt a) → reached r (interruptTarget t (target (v_signal v))) a.

Record process_wf (p : process) : Prop := {
  pw_registry : registry_wf (reg p);
  pw_registered : ∀ k x, (k, x) ∈ attempts (reg p) → Register x ∈ os;
  pw_plain : ∀ t ph, running (mon p) = Some (t, ph) → plain t = true;
  pw_call : ∀ t v rest, running (mon p) = Some (t, Interrupting v rest) →
    called (reg p) (answer p) t v ∧ ∀ w, w ∈ rest → good w }.

Lemma with_reg_wf p r :
  process_wf p → registry_wf r → (∀ k x, (k, x) ∈ attempts r → Register x ∈ os) →
  (∀ c, is_Some (aborted (reg p) !! c) → is_Some (aborted r !! c)) → process_wf (with_reg p r).
Proof.
  intros [W1 W2 W3 W4] Hr Hx Ha. split; simpl; [done..|]. intros t v rest Hrun.
  destruct (W4 t v rest Hrun) as [(? & ? & ? & Hc) ?]. split; [|done]. split; [done|]. split; [done|]. split; [done|].
  intros a Hans. destruct (Hc a Hans) as (? & x & ? & ? & ?). split; [done|]. exists x. auto.
Qed.

Lemma abort_aborted c reason r c' : is_Some (aborted r !! c') → is_Some (aborted (abort c reason r) !! c').
Proof.
  intros Hc. simpl. destruct (aborted r !! c); [done|]. destruct (decide (c = c')) as [->|].
  - rewrite lookup_insert_eq. eauto.
  - by rewrite lookup_insert_ne.
Qed.

Lemma abort_done c reason r : is_Some (aborted (abort c reason r) !! c).
Proof. simpl. destruct (aborted r !! c) eqn:E; [by rewrite E|]. rewrite lookup_insert_eq. eauto. Qed.

Lemma interrupt_aborted t reason r c : is_Some (aborted r !! c) → is_Some (aborted (interrupt t reason r).2 !! c).
Proof. unfold interrupt. destruct (find t r); [apply abort_aborted|done]. Qed.

Lemma interrupt_attempts t reason r : attempts (interrupt t reason r).2 = attempts r.
Proof. unfold interrupt. by destruct (find t r). Qed.

Lemma calling_wf r t ids stop views :
  registry_wf r → (∀ k x, (k, x) ∈ attempts r → Register x ∈ os) → plain t = true → (∀ v, v ∈ views → good v) →
  process_wf (calling r (walk t ids stop views)).
Proof.
  intros Hr Hx Ht Hv. unfold calling, asked. cbn [running walk].
  destruct (next_interrupt t ids views) as [[v rest]|] eqn:E.
  - destruct (next_interrupt_spec _ _ _ _ _ E) as (Hm & _ & Hw & Hin & Hrest & _).
    assert (good v) as Hg by auto. assert (plain (interruptTarget t (target (v_signal v))) = true) as Hp.
    { apply plain_interruptTarget; [done|]. by destruct Hg. }
    destruct (interrupt _ _ r) as [a r'] eqn:Ei.
    assert (r' = (interrupt (interruptTarget t (target (v_signal v))) (monitor_reason (v_signal v)) r).2) as -> by (by rewrite Ei).
    split; cbn [reg mon answer].
    + by apply interrupt_wf.
    + by rewrite interrupt_attempts.
    + unfold walk. rewrite E. cbn. by intros ? ? [= <- <-].
    + unfold walk. rewrite E. cbn [running]. intros ? ? ? [= <- <- <-]. split; [|auto]. split; [done|]. split; [done|]. split; [done|].
      intros a' [= ->]. revert Ei. unfold interrupt. destruct (find _ r) as [x|] eqn:Ef; [|done]. intros [= <-].
      destruct (find_Some _ r x Hr Hp Ef) as [Ha Hin']. split; [done|]. exists x. split; [done|]. split; [by eapply Hx|].
      apply abort_done.
  - destruct stop; (split; cbn; rewrite ?E; [done|done|by intros ? ? [= <- _]|done]).
Qed.

Lemma same_call_wf p m :
  process_wf p → (∀ t ph, running m = Some (t, ph) → plain t = true) →
  (∀ t v rest, running m = Some (t, Interrupting v rest) → running (mon p) = Some (t, Interrupting v rest)) →
  process_wf (mkProcess (reg p) m (answer p)).
Proof. intros [W1 W2 W3 W4] Hp Hc. split; simpl; eauto. Qed.

Lemma perform_wf p o p' : perform p o = Some p' → plain_input o = true → o ∈ os → process_wf p → process_wf p'.
Proof.
  intros Hstep Hplain Hin Hwf. destruct Hwf as [W1 W2 W3 W4] eqn:EW. clear EW. destruct o as [x|x|c reason|t reason|e|].
  - injection Hstep as <-. apply with_reg_wf; [done|by apply register_wf| |done].
    intros k y [Hy|[= -> ->]]%map_set_elem; [by eapply W2|done].
  - injection Hstep as <-. apply with_reg_wf; [done|by apply release_wf| |].
    + intros k y Hy. unfold release in Hy. destruct (map_get _ _); [|by eapply W2]. destruct (_ && _); [|by eapply W2].
      eapply W2. by eapply map_delete_elem.
    + intros c. unfold release. destruct (map_get _ _); [|done]. by destruct (_ && _).
  - injection Hstep as <-. apply with_reg_wf; [done|by apply abort_wf|done|]. intros; by apply abort_aborted.
  - injection Hstep as <-. apply with_reg_wf; [done|by apply interrupt_wf|by rewrite interrupt_attempts|].
    intros; by apply interrupt_aborted.
  - cbn [perform] in Hstep. unfold on in Hstep. destruct e as [t| | | |r|r]; [| | | | |done].
    + injection Hstep as <-. unfold start. destruct (running (mon p)) as [[u ph]|] eqn:Er.
      * apply same_call_wf; [done|rewrite Er; eauto|done].
      * apply same_call_wf; simpl; [done| |done]. by intros ? ? [= <- _].
    + destruct (running (mon p)) as [[u []]|] eqn:Er; injection Hstep as <-; (apply same_call_wf; [done| |]); simpl; rewrite ?Er;
        try done; intros ? ? [= <- _]; by eapply W3.
    + destruct (running (mon p)) as [[u []]|] eqn:Er; try done. injection Hstep as <-. by apply same_call_wf.
    + destruct (running (mon p)) as [[u []]|] eqn:Er; try done. injection Hstep as <-. apply same_call_wf; simpl; [done| |].
      * intros ? ? [= <- _]. by eapply W3.
      * by destruct (stopRequested _).
    + destruct r as [views|]; destruct (running (mon p)) as [[u []]|] eqn:Er; try done; injection Hstep as <-;
        (apply calling_wf; [done|done|by eapply W3|]); [|by intros ? ?%not_elem_of_nil].
      intros v Hv. simpl in Hplain. rewrite forallb_forall in Hplain. split; [by apply Hplain, list_elem_of_In|eauto].
  - cbn [perform] in Hstep. destruct (answer p) as [a|]; [|done]. cbn in Hstep. unfold on in Hstep.
    destruct a; destruct (running (mon p)) as [[u [|v rest| |]]|] eqn:Er; try done; injection Hstep as <-;
      (apply calling_wf; [done|done|by eapply W3|]); by destruct (W4 u v rest eq_refl).
Qed.
End process.

Lemma performs_wf os p0 os' p : (∀ o, o ∈ os' → o ∈ os) → forallb plain_input os' = true → process_wf os p0 → performs p0 os' = Some p → process_wf os p.
Proof.
  revert p0. induction os' as [|o os' IH]; intros p0 Hsub Hp Hw; [by intros [= <-]|]. simpl in *. bools.
  destruct (perform p0 o) as [p1|] eqn:E; [|done]. apply IH; [|done|].
  - intros; apply Hsub; by apply list_elem_of_further.
  - eapply perform_wf; [exact E|done| |done]. apply Hsub, list_elem_of_here.
Qed.

Lemma service_views localeCompare store q tr views v :
  runs (service_listSignals localeCompare store q) tr (Ok views) → v ∈ views →
  (includeExpired q = false → v_expired v = false) ∧ (q_states q ≠ [] → v_state v ∈ q_states q).
Proof.
  unfold service_listSignals. intros Hr Hv. run_inv Hr. apply runs_mret in Hr as [_ Hr]. subst views.
  unfold sort_views in Hv. rewrite sort_by_perm in Hv.
  apply list_elem_of_In, List.filter_In in Hv as [Hv Hs]. apply List.filter_In in Hv as [_ He]. split.
  - intros Hq. rewrite Hq in He. simpl in He. by bools.
  - intros Hn. destruct (q_states q); [done|]. by bools.
Qed.

(** The monitor interrupts the right attempt. In a process whose monitor
    gets its lists from the service, with any registrations, releases, aborts
    and interruptions around it, and targets without the separator of the keys:
    when the registry answers the monitor that an attempt was interrupted, the
    signal is one that the service listed for the monitor, it was pending and not expired
    then, it interrupts, it matches the target of the monitor, it had no attempt
    interrupted before; the attempt was registered in this process, its target has
    every field of the signal, and those of the monitor that the signal leaves
    out, and its controller is aborted. *)
Theorem monitor_interrupts_addressed localeCompare (store : InboxStore) (pollIntervalMs : option num) (m : monitor)
    (os : list operation) (p : process) (t : Target) (v : View) (rest : list View) (a : ActiveAttempt) :
  newMonitor pollIntervalMs = Ok m → forallb plain_input os = true →
  (∀ views, Monitor (Listed (Ok views)) ∈ os →
     ∃ u tr, runs (service_listSignals localeCompare store (monitor_query u)) tr (Ok views)) →
  performs (mkProcess empty_registry m None) os = Some p →
  running (mon p) = Some (t, Interrupting v rest) → answer p = Some (InterruptedAttempt a) →
  v_state v = Pending ∧ v_expired v = false ∧ deliveryMode (v_signal v) = InterruptThenContinue ∧
  workerControlTargetMatches t (target (v_signal v)) = Ok true ∧ addressed (interruptTarget t (target (v_signal v))) (at_target a) ∧
  ∃ x, activeAttemptRecord x = a ∧ Register x ∈ os ∧ is_Some (aborted (reg p) !! abortController x).
Proof.
  intros Hm Hplain Hlist Hp Hrun Ha. unfold newMonitor in Hm. destruct (_ || _); [done|]. injection Hm as <-.
  assert (process_wf os (mkProcess empty_registry (mkMonitor ∅ false None) None)) as Hw.
  { split; simpl; try done; [apply empty_wf|]. by intros ? ? ?%not_elem_of_nil. }
  destruct (performs_wf os _ os p (λ _ H, H) Hplain Hw Hp) as [_ _ _ W].
  destruct (W t v rest Hrun) as [(Hmode & Hmatch & (_ & views & Hin & Hv) & Hc) _]. destruct (Hc a Ha) as [Haddr Hx].
  destruct (Hlist views Hin) as (u & tr & Hr). destruct (service_views _ _ _ _ _ v Hr Hv) as [He Hs].
  split; [|by auto]. specialize (Hs ltac:(done)). by apply list_elem_of_singleton in Hs.
Qed.

(** ** The use case *)

Record InterruptInput : Set := mkInterrupt {
  in_target : Target; message : jsstring; in_caller : option Caller; in_createdBy : option Actor;
  in_priority : option Priority; in_key : option jsstring; in_expiresAt : option date }.

Inductive InterruptOutcome : Set :=
| OutcomeInterrupted (s : Signal) (a : ActiveAttempt)
| AcceptedAsNextSafePoint (s : Signal).

Definition caller_of (i : InterruptInput) : Caller := default (mkCaller (default Operator (in_createdBy i)) None) (in_caller i).

Definition interrupt_enqueue (i : InterruptInput) : EnqueueInput :=
  mkEnqueue (in_target i) Guidance (Some InterruptThenContinue) (message i) (in_createdBy i) (Some (caller_of i))
    (Some (default High (in_priority i))) (in_key i) None None (in_expiresAt i) []
    (Some [(js "requestedDelivery", js "interrupt_then_continue")]).

Definition use_case_reason (i : InterruptInput) (s : Signal) : Reason :=
  mkReason "Runtime controlled interrupt requested by worker control inbox." (Some (signalId s))
    (Some (default (actor_name (c_kind (caller_of i))) (c_id (caller_of i)))).

(** The end of [execute], when the signal is stored; [None] for a use case
    without a registry. *)
Definition interrupt_stored (i : InterruptInput) (s : Signal) (r : option registry) : InterruptOutcome * option registry :=
  match r with
  | None => (AcceptedAsNextSafePoint s, None)
  | Some r =>
      let '(res, r') := interrupt (in_target i) (use_case_reason i s) r in
      (match res with InterruptedAttempt a => OutcomeInterrupted s a | NotFound => AcceptedAsNextSafePoint s end, Some r')
  end.

(** [execute] with the registry as it is when the signal is stored. *)
Definition execute (sha_hex : list N → jsstring) (store : InboxStore) (i : InterruptInput) (r : option registry)
    : Sv (InterruptOutcome * option registry) :=
  s ← enqueueSignal sha_hex store (interrupt_enqueue i);
  mret (interrupt_stored i s r).

Definition outcome_signal (o : InterruptOutcome) : Signal :=
  match o with OutcomeInterrupted s _ | AcceptedAsNextSafePoint s => s end.

(** The use case keeps its promise for a new message. Alone on a readable
    inbox, [execute] with a message whose key is new succeeds; whether or not an attempt was
    interrupted, its signal is then delivered by the next continuation of the
    target at a time before it expires, with the default capabilities. It reports an
    interruption exactly when the registry has an attempt for the target, and
    then the controller of that attempt is aborted, with the signal as the reason
    unless it was aborted before. *)
Theorem message_reaches_continuation localeCompare sha_hex fresh policy (i : InterruptInput) (t : Target) (key : jsstring)
    (r : registry) (w : world) (now : date) :
  accepted sha_hex policy (interrupt_enqueue i) t key →
  List.find (λ s, js_eqb (idempotencyKey s) key) (signalsOf sha_hex t w) = None →
  persistable (clock w) = true → persistable_opt (in_expiresAt i) = true → readable (job_of sha_hex t w) →
  tail (signals (job_of sha_hex t w)) = None →
  (∀ x, x ∈ receiptsOf sha_hex t w → r_signalId x ≠ fresh (ids w)) →
  match in_expiresAt i with Some e => date_leb e now | None => false end = false →
  ∃ o r' w', exec (quiet fresh policy) (execute sha_hex (file_store sha_hex) i (Some r)) w = (Ok (o, Some r'), w') ∧
    outcome_signal o ∈ due localeCompare sha_hex t defaultCapabilities now w' ∧
    match find (in_target i) r with
    | Some x => o = OutcomeInterrupted (outcome_signal o) (activeAttemptRecord x) ∧
        aborted r' !! abortController x =
          Some (default (use_case_reason i (outcome_signal o)) (aborted r !! abortController x))
    | None => o = AcceptedAsNextSafePoint (outcome_signal o) ∧ r' = r
    end.
Proof.
  intros Hacc Hf Hnow Hexp Hr Htail Hfresh Hlater.
  destruct (do_enqueue_stored sha_hex fresh policy (interrupt_enqueue i) t key w Hacc Hr Hf eq_refl Hnow Hexp Htail)
    as (s & w' & E & _ & Hm & He & Hid & Hrec & Hsig & _).
  assert (s ∈ due localeCompare sha_hex t defaultCapabilities now w') as Hdue.
  { apply fresh_due; [|rewrite Hrec, (Hid eq_refl); done| |by left].
    - rewrite Hsig. apply elem_of_app. right. apply list_elem_of_here.
    - unfold is_expired. by rewrite He. }
  assert (∀ o r', interrupt_stored i s (Some r) = (o, Some r') →
            exec (quiet fresh policy) (execute sha_hex (file_store sha_hex) i (Some r)) w = (Ok (o, Some r'), w')) as Hexec.
  { intros o r' Ho. unfold execute. rewrite exec_bind_ok, E, Ho. done. }
  unfold interrupt_stored, interrupt in Hexec.
  destruct (find (in_target i) r) as [x|] eqn:Ex; do 3 eexists; (split; [by apply Hexec|]); (split; [done|]); [|done].
  split; [done|]. simpl. destruct (aborted r !! abortController x) eqn:Ea; simpl; [by rewrite Ea|]. by rewrite lookup_insert_eq.
Qed.

(** ** Examples *)

Module Demo.
Import Control.Demo.

Definition attempt (id : string) (w : option string) : ActiveAttempt :=
  mkAttempt (js id) 1 (js "codex") (js "/w") (mkTarget (js "job") None (js <$> w) None None None) (At 1).
Definition on_w1 : Registered := mkRegistered (attempt "t1" (Some "w1"%string)) 1.

Definition to_w1 (b : string) : InterruptInput :=
  mkInterrupt (mkTarget (js "job") None (Some (js "w1")) None None None) (js b) None None None None None.

Definition running_w1 : registry := register on_w1 empty_registry.

Lemma interrupt_addressed_witness :
  let r := foldl on_registry empty_registry [Register on_w1] in
  let '(res, r') := interrupt job (mkReason "stop" None None) r in
  match res with
  | InterruptedAttempt a => ∃ x, activeAttemptRecord x = a ∧ (registered_key x, x) ∈ attempts r ∧ addressed job (at_target a) ∧
      attempts r' = attempts r ∧
      (∀ c, aborted r' !! c =
         if decide (c = abortController x) then Some (default (mkReason "stop" None None) (aborted r !! c)) else aborted r !! c)
  | NotFound => r' = r ∧ ∀ k x, (k, x) ∈ attempts r → activeTargetMatches job (at_target (activeAttemptRecord x)) = false
  end.
Proof.
  apply (interrupt_addressed [Register on_w1] job (mkReason "stop" None None)); vm_compute; reflexivity.
Defined.

Definition fresh_monitor : monitor := mkMonitor ∅ false None.

(** A signal for the worker, listed twice by the service. *)
Definition asking : world := (run (enqueueSignal sha st (interrupt_enqueue (to_w1 "look"))) Control.Demo.start).2.
Definition listed : result error (list View) :=
  (run (service_listSignals compare_units st (monitor_query job)) asking).1.
Definition the_view : View :=
  match listed with Ok (v :: _) => v | _ => mkView stop_now Pending None false false None end.
Definition poll : list event := [Start job; Listed listed; Answered (Ok (InterruptedAttempt (activeAttemptRecord on_w1)));
  Timer; Listed listed].

Lemma interrupts_once_witness :
  interrupted_ids fresh_monitor poll = [signalId (v_signal the_view)] ∧ NoDup (interrupted_ids fresh_monitor poll).
Proof.
  split; [vm_compute; reflexivity|]. apply (interrupts_once None fresh_monitor poll). vm_compute. reflexivity.
Defined.

Definition stopped : monitor := mkMonitor ∅ true (Some (job, Listing)).

Lemma stop_terminates_witness :
  Acc (flip work) stopped ∧
  ∀ m', tc work stopped m' → listing m' = false ∧ (at_rest m' = true ∨ ∃ m'', work m' m'').
Proof. apply (stop_terminates stopped). reflexivity. Defined.

Definition story : list operation := [Register on_w1; Monitor (Start job); Monitor (Listed (Ok [the_view]))].

Definition after_story : process :=
  match performs (mkProcess empty_registry fresh_monitor None) story with
  | Some p => p
  | None => mkProcess empty_registry fresh_monitor None
  end.

Lemma monitor_interrupts_addressed_witness :
  v_state the_view = Pending ∧ v_expired the_view = false ∧ deliveryMode (v_signal the_view) = InterruptThenContinue ∧
  workerControlTargetMatches job (target (v_signal the_view)) = Ok true ∧
  addressed (interruptTarget job (target (v_signal the_view))) (at_target (attempt "t1" (Some "w1"%string))) ∧
  ∃ x, activeAttemptRecord x = attempt "t1" (Some "w1"%string) ∧ Register x ∈ story ∧
    is_Some (aborted (reg after_story) !! abortController x).
Proof.
  apply (monitor_interrupts_addressed compare_units st None fresh_monitor story after_story job the_view []
           (attempt "t1" (Some "w1"%string))).
  - vm_compute. reflexivity.
  - vm_compute. reflexivity.
  - intros views Hin. exists job, (exec_trace H (service_listSignals compare_units st (monitor_query job)) asking).
    assert (Ok views = (run (service_listSignals compare_units st (monitor_query job)) asking).1) as ->; [|apply exec_runs].
    unfold story in Hin. repeat (apply elem_of_cons in Hin as [Hin|Hin]; [try discriminate Hin|]); [|by apply not_elem_of_nil in Hin].
    injection Hin as ->. vm_compute. reflexivity.
  - vm_compute. reflexivity.
  - vm_compute. reflexivity.
  - vm_compute. reflexivity.
Defined.

Definition w1_target : Target := mkTarget (js "job") None (Some (js "w1")) None None None.

Lemma message_reaches_continuation_witness :
  ∃ o r' w', run (execute sha st (to_w1 "look") (Some running_w1)) two = (Ok (o, Some r'), w') ∧
    outcome_signal o ∈ due compare_units sha w1_target defaultCapabilities (At 20) w' ∧
    match find w1_target running_w1 with
    | Some x => o = OutcomeInterrupted (outcome_signal o) (activeAttemptRecord x) ∧
        aborted r' !! abortController x =
          Some (default (use_case_reason (to_w1 "look") (outcome_signal o)) (aborted running_w1 !! abortController x))
    | None => o = AcceptedAsNextSafePoint (outcome_signal o) ∧ r' = running_w1
    end.
Proof.
  apply (message_reaches_continuation compare_units sha new anyone (to_w1 "look") w1_target
    (enqueue_key sha (interrupt_enqueue (to_w1 "look")) w1_target InterruptThenContinue (js "look")) running_w1 two (At 20)).
  - split; [vm_compute; reflexivity| |reflexivity]. exists (js "look"). split; vm_compute; reflexivity.
  - vm_compute. reflexivity.
  - reflexivity.
  - reflexivity.
  - apply readable_test; vm_compute; reflexivity.
  - vm_compute. reflexivity.
  - apply Forall_forall, (bool_decide_unpack _). vm_compute. exact I.
  - reflexivity.
Defined.

(** A message that is sent again, when the first was delivered: it is found by
    its key, the attempt is interrupted or the message promised for the next
    safe point, and no continuation delivers it. *)
Definition delivered_once : world :=
  let w := (run (execute sha st (to_w1 "look") None) Control.Demo.start).2 in
  let w' := (run (consume (take_all "a1")) w).2 in
  match (run (consume (take_all "a1")) w).1 with
  | Ok b => (run (confirmContinuationDelivery st b (Some (At 20))) w').2
  | Throw _ => w'
  end.

Theorem repeated_message_lost :
  let again := run (execute sha st (to_w1 "look") (Some running_w1)) delivered_once in
  match again.1 with
  | Ok (OutcomeInterrupted s _, _) => bool_decide (s ∈ due compare_units sha w1_target defaultCapabilities (At 30) again.2) = false
  | _ => False
  end.
Proof. vm_compute. reflexivity. Qed.
End Demo.
End Interrupts.
