(* ===== verification/FileLock.v ===== *)
(** * The provider lock

    [src/store-local-file/shared/local-file-custody-lock.ts]: the lock that
    serialises the transactions of the session and lease stores across
    processes. A lock is a file that is created by linking a complete record;
    one of a process that has exited is removed by others, under a second lock
    of the same kind that guards the removal.

    The state is the directory of locks and the threads that run [run], each
    with a stack: its own acquisition and the acquisitions of guards it is
    inside of. Steps are single file accesses; each can fail before or after
    its effect, a read that fails looks like a missing file, and a process can
    exit at any time. The directory is empty at the start, so that every lock in
    it was written by this code: a lock file that cannot be parsed, left by
    another version, is outside the model. The candidate and tombstone files have random names, so
    that only their thread uses them: it carries their content. Lock ids are
    random, and are never drawn twice. *)

From stdpp Require Import base numbers option strings gmap countable list.
From S2P Require Import Prelude Json.

#[local] Open Scope Z_scope.

Module FileLock.

(** ** Processes and records *)

(** [ownerProcess] of a record: what [readProcessIdentity] reads of a process. *)
Record Identity : Set := mkIdentity { bootId : jsstring; pidNamespace : jsstring; startTimeTicks : jsstring }.

Record proc : Set := mkProc { pid : Z; ident : Identity }.

#[global] Instance Identity_eq_dec : EqDecision Identity.
Proof. solve_decision. Defined.
#[global] Instance proc_eq_dec : EqDecision proc.
Proof. solve_decision. Defined.
#[global] Instance proc_countable : Countable proc.
Proof.
  refine (inj_countable' (λ q, (pid q, bootId (ident q), pidNamespace (ident q), startTimeTicks (ident q)))
            (λ '(a, b, c, d), mkProc a (mkIdentity b c d)) _). by intros [? [? ? ?]].
Defined.

(** [identified]: the owner could read its own identity. *)
Record LockRecord : Set := mkLockRecord { lockId : jsstring; owner : proc; identified : bool; expiresAt : Z }.

Definition ownerProcess (r : LockRecord) : option Identity := if identified r then Some (ident (owner r)) else None.

(** What a process observes of its system: the identity it reads of itself,
    the pids for which [kill] with signal 0 fails with [ESRCH], and the
    identities it reads of pids. *)
Record System : Type := mkSystem {
  linux : bool; localIdentity : option Identity; esrch : Z → bool; identityOf : Z → option Identity }.

Definition max_safe_integer : Z := 9007199254740991.

Definition isLockOwnerGone (sys : System) (r : LockRecord) : bool :=
  let p := pid (owner r) in
  if (p <=? 0) || (max_safe_integer <? p) then false
  else
    let rest :=
      if esrch sys p then true
      else match ownerProcess r, identityOf sys p with
           | Some o, Some current =>
               js_eqb (bootId current) (bootId o) && js_eqb (pidNamespace current) (pidNamespace o) &&
               negb (js_eqb (startTimeTicks current) (startTimeTicks o))
           | _, _ => false
           end in
    if linux sys then
      match ownerProcess r, localIdentity sys with
      | Some o, Some local =>
          if negb (js_eqb (bootId o) (bootId local)) then true
          else if negb (js_eqb (pidNamespace o) (pidNamespace local)) then false
          else rest
      | _, _ => false
      end
    else rest.

Definition isLockExpired (r : LockRecord) (now : Z) : bool := expiresAt r <=? now.

(** The observations of a process are those of one host: the live processes
    share its boot, a pid names at most one live process of a namespace, what is read is
    of a live process, and where there are no namespaces all share one. *)
Record observes (sys : System) (me : proc) (alive : gset proc) : Prop := {
  ob_boot : ∀ q, q ∈ alive → bootId (ident q) = bootId (ident me);
  ob_unique : ∀ q q', q ∈ alive → q' ∈ alive → pidNamespace (ident q) = pidNamespace (ident q') → pid q = pid q' → q = q';
  ob_namespace : linux sys = false → ∀ q, q ∈ alive → pidNamespace (ident q) = pidNamespace (ident me);
  ob_local : ∀ i, localIdentity sys = Some i → i = ident me;
  ob_esrch : ∀ p, esrch sys p = true → ∀ q, q ∈ alive → pidNamespace (ident q) = pidNamespace (ident me) → pid q ≠ p;
  ob_identity : ∀ p i, identityOf sys p = Some i → ∃ q, q ∈ alive ∧ pid q = p ∧ ident q = i }.

(** An owner that is found gone has exited. *)
Lemma gone_not_alive sys me alive r : observes sys me alive → isLockOwnerGone sys r = true → owner r ∉ alive.
Proof.
  intros [B U N L E I] Hg Hin. unfold isLockOwnerGone in Hg. destruct (_ || _); [done|].
  assert (pidNamespace (ident (owner r)) = pidNamespace (ident me) →
          (if esrch sys (pid (owner r)) then true
           else match ownerProcess r, identityOf sys (pid (owner r)) with
                | Some o, Some current =>
                    js_eqb (bootId current) (bootId o) && js_eqb (pidNamespace current) (pidNamespace o) &&
                    negb (js_eqb (startTimeTicks current) (startTimeTicks o))
                | _, _ => false
                end) = true → False) as Hrest.
  { intros Hns. destruct (esrch sys _) eqn:Ee; [intros _; by eapply (E _ Ee)|]. unfold ownerProcess.
    destruct (identified r); [|done]. destruct (identityOf sys _) as [i|] eqn:Ei; [|done]. intros Hc. bools.
    destruct (I _ _ Ei) as (q & Hq & Hp & <-). assert (q = owner r) as ->; [|done]. by apply U. }
  destruct (linux sys) eqn:El; [|apply Hrest in Hg; [done|by apply N]].
  destruct (ownerProcess r) as [o|] eqn:Eo; [|done]. destruct (localIdentity sys) as [local|] eqn:Elo; [|done].
  assert (local = ident me) as -> by auto.
  assert (o = ident (owner r)) as -> by (unfold ownerProcess in Eo; destruct (identified r); congruence).
  destruct (js_eqb (bootId (ident (owner r))) (bootId (ident me))) eqn:Eb; cbn [negb] in Hg; [|apply js_eqb_false in Eb; by apply Eb, B].
  destruct (js_eqb (pidNamespace (ident (owner r))) (pidNamespace (ident me))) eqn:En; cbn [negb] in Hg; [|done].
  apply js_eqb_true in En. by apply Hrest in Hg.
Qed.

(** ** Threads *)

(** A file access succeeds, or fails before or after its effect. *)
Inductive fault : Set := Fine | FailsBefore | FailsAfter.

Definition fine (f : fault) : bool := match f with Fine => true | _ => false end.

(** The accesses of [removeLockIfMatches]: read the lock, rename it to the
    tombstone, read that, erase it; or link it back and remove it. *)
Inductive removal : Set :=
| RRead
| RRename
| RVerify (x : LockRecord)
| RErase
| RBack (x : LockRecord)
| RClean
| RDrop (ok : bool).

Inductive link_outcome : Set := Linked | Exists | LinkFailed.

(** Where a thread is in an acquisition and in what follows it: [Held] is the
    operation, or the check of a guard; [ok] tells that no exception is
    pending. *)
Inductive pc : Set :=
| Identify
| Write
| Link (r : LockRecord)
| Clean (o : link_outcome)
| Look
| Judge (e : LockRecord)
| Gone (e : LockRecord)
| Suspended (e : LockRecord)
| Wait
| Held
| RemStale (r : removal)
| RemSelf (ok : bool) (r : removal).

(** An acquisition: its path and lock id, whether it knows its identity, and for a guard the path and
    the id of the lock that it is to remove. *)
Record frame : Set := mkFrame {
  lockPath : jsstring; f_id : jsstring; known : bool; stale : option (jsstring * jsstring); at_ : pc }.

Definition goto (f : frame) (p : pc) : frame := mkFrame (lockPath f) (f_id f) (known f) (stale f) p.

Record thread : Set := mkThread { me : proc; deadline : Z; stack : list frame }.

Abbreviation directory := (gmap jsstring LockRecord).

Record state : Set := mkState {
  locks : directory; issued : gmap jsstring proc; alive : gset proc; exited : gset proc; now : Z; wall : Z;
  threads : gmap N thread }.

Definition remove_step (f : fault) (p id : jsstring) (m : directory) (r : removal) : (removal + bool) * directory :=
  match r with
  | RRead =>
      (match f, m !! p with Fine, Some x => if js_eqb (lockId x) id then inl RRename else inr true | _, _ => inr true end, m)
  | RRename =>
      match f, m !! p with
      | Fine, Some x => (inl (RVerify x), delete p m)
      | Fine, None => (inr true, m)
      | FailsBefore, _ => (inr false, m)
      | FailsAfter, _ => (inr false, delete p m)
      end
  | RVerify x => (inl (if fine f && js_eqb (lockId x) id then RErase else RBack x), m)
  | RErase => (inr (fine f), m)
  | RBack x =>
      match m !! p, f with
      | Some _, Fine => (inl (RDrop true), m)
      | None, Fine => (inl RClean, <[p := x]> m)
      | None, FailsAfter => (inl (RDrop false), <[p := x]> m)
      | _, _ => (inl (RDrop false), m)
      end
  | RClean => (if fine f then inr true else inl (RDrop false), m)
  | RDrop ok => (inr ok, m)
  end.

Section Lock.
Context (sha_hex : list N → jsstring) (lockTtlMs : Z).

Definition hashText (s : jsstring) : jsstring := sha_hex (utf8 s).

Definition providerLockPath (providerInstanceId : jsstring) : jsstring := hashText providerInstanceId ++ js ".lock".

Definition lockRemovalGuardPath (path id : jsstring) : jsstring := hashText (path ++ [0%N] ++ id) ++ js ".cleanup.lock".

(** What a step depends on: its fault, what the process observes, the random id
    it draws, and whether the operation returns. *)
Record input : Type := mkInput { in_fault : fault; sys : System; drawn : jsstring; returns : bool }.

(** An acquisition is left: with an exception the whole thread is, otherwise
    the loop below it goes on. *)
Definition leave (ok : bool) (below : list frame) : option (list frame) :=
  match below with
  | parent :: rest => if ok then Some (goto parent Write :: rest) else None
  | [] => None
  end.

(** The stack after the step, or nothing when [run] is left; the directory; the
    id that was drawn. *)
Definition thread_step (i : input) (q : proc) (dl nw wl : Z) (m : directory) (top : frame) (below : list frame)
    : option (list frame) * directory * option jsstring :=
  let go p := (Some (goto top p :: below), m, None) in
  let f := in_fault i in
  match at_ top with
  | Identify =>
      (Some (mkFrame (lockPath top) (f_id top) (match localIdentity (sys i) with Some _ => true | None => false end) (stale top) Write
               :: below), m, None)
  | Write => if fine f then go (Link (mkLockRecord (f_id top) q (known top) (nw + lockTtlMs))) else (None, m, None)
  | Link r =>
      match m !! lockPath top, f with
      | None, Fine => (Some (goto top (Clean Linked) :: below), <[lockPath top := r]> m, None)
      | None, FailsAfter => (Some (goto top (Clean LinkFailed) :: below), <[lockPath top := r]> m, None)
      | Some _, Fine => go (Clean Exists)
      | _, _ => go (Clean LinkFailed)
      end
  | Clean o =>
      match o, f with Linked, Fine => go Held | Exists, Fine => go Look | _, _ => (None, m, None) end
  | Look => match f, m !! lockPath top with Fine, Some e => go (Judge e) | _, _ => go Wait end
  | Judge e => go (if isLockExpired e nw then Gone e else Wait)
  | Gone e =>
      if isLockOwnerGone (sys i) e
      then (Some (mkFrame (lockRemovalGuardPath (lockPath top) (lockId e)) (drawn i) false (Some (lockPath top, lockId e)) Identify
                   :: goto top (Suspended e) :: below), m, Some (drawn i))
      else go Wait
  | Suspended e => go (Suspended e)
  | Wait => if dl <=? wl then (None, m, None) else go Write
  | Held =>
      match stale top with
      | None => go (RemSelf (returns i) RRead)
      | Some (p, id) =>
          go (match f, m !! p with
              | Fine, Some x => if js_eqb (lockId x) id then RemStale RRead else RemSelf true RRead
              | _, _ => RemSelf true RRead
              end)
      end
  | RemStale r =>
      match stale top with
      | None => go (RemSelf true RRead)
      | Some (p, id) =>
          match remove_step f p id m r with
          | (inl r', m') => (Some (goto top (RemStale r') :: below), m', None)
          | (inr ok, m') => (Some (goto top (RemSelf ok RRead) :: below), m', None)
          end
      end
  | RemSelf ok r =>
      match remove_step f (lockPath top) (f_id top) m r with
      | (inl r', m') => (Some (goto top (RemSelf ok r') :: below), m', None)
      | (inr ok', m') => (leave (ok && ok') below, m', None)
      end
  end.

Definition after_step (s : state) (t : N) (th : thread) (r : option (list frame) * directory * option jsstring) : state :=
  let '(st, m, new) := r in
  mkState m (match new with Some id => <[id := me th]> (issued s) | None => issued s end) (alive s) (exited s) (now s) (wall s)
    (match st with
     | Some st => <[t := mkThread (me th) (deadline th) st]> (threads s)
     | None => delete t (threads s)
     end).

(** [run] of a provider by a thread [t] of the process [q]. *)
Definition start_run (s : state) (t : N) (q : proc) (providerInstanceId id : jsstring) (dl : Z) : state :=
  mkState (locks s) (<[id := q]> (issued s)) (alive s) (exited s) (now s) (wall s)
    (<[t := mkThread q dl [mkFrame (providerLockPath providerInstanceId) id false None Identify]]> (threads s)).

Inductive step : state → state → Prop :=
| step_thread s t th top below i :
    threads s !! t = Some th → stack th = top :: below → observes (sys i) (me th) (alive s) → issued s !! drawn i = None →
    step s (after_step s t th (thread_step i (me th) (deadline th) (now s) (wall s) (locks s) top below))
| step_run s t q provider id dl :
    threads s !! t = None → q ∈ alive s → issued s !! id = None → step s (start_run s t q provider id dl)
| step_spawn s q :
    q ∉ alive s → q ∉ exited s →
    step s (mkState (locks s) (issued s) ({[q]} ∪ alive s) (exited s) (now s) (wall s) (threads s))
| step_exit s q :
    q ∈ alive s →
    step s (mkState (locks s) (issued s) (alive s ∖ {[q]}) ({[q]} ∪ exited s) (now s) (wall s)
              (filter (λ x, me x.2 ≠ q) (threads s)))
| step_tick s nw wl : step s (mkState (locks s) (issued s) (alive s) (exited s) nw wl (threads s)).

Definition initial : state := mkState ∅ ∅ ∅ ∅ 0 0 ∅.

Definition reachable : state → Prop := rtc step initial.

(** The thread is in the operation of [run] for the lock at the path. *)
Definition operating (s : state) (t : N) (p : jsstring) : Prop :=
  ∃ th f, threads s !! t = Some th ∧ stack th = [f] ∧ lockPath f = p ∧ stale f = None ∧ at_ f = Held.

(** ** What every step keeps *)

(** The frame has linked its lock and not renamed it. *)
Definition holds (f : frame) : bool :=
  match at_ f with
  | Clean Linked | Held | RemStale _ | RemSelf _ RRead | RemSelf _ RRename => true
  | _ => false
  end.

Definition removal_record (r : removal) : option LockRecord := match r with RVerify x | RBack x => Some x | _ => None end.

(** The record that a frame carries. *)
Definition carried (f : frame) : option LockRecord :=
  match at_ f with
  | Link r | Judge r | Gone r | Suspended r => Some r
  | RemStale r | RemSelf _ r => removal_record r
  | _ => None
  end.

Definition genuine (iss : gmap jsstring proc) (r : LockRecord) : Prop := iss !! lockId r = Some (owner r).

(** The frame of a process: its id is drawn by it, what it carries was written by
    the process that drew its id, and the lock that a guard is for is of a process that exited. *)
Record frame_ok (iss : gmap jsstring proc) (ex : gset proc) (q : proc) (f : frame) : Prop := {
  fo_id : iss !! f_id f = Some q;
  fo_carried : ∀ r, carried f = Some r → genuine iss r;
  fo_link : ∀ r, at_ f = Link r → lockId r = f_id f;
  fo_stale : ∀ p id, stale f = Some (p, id) →
    lockPath f = lockRemovalGuardPath p id ∧ ∃ o, iss !! id = Some o ∧ o ∈ ex }.

(** What a frame counts on in the directory: its own lock while it holds it,
    and the lock it is about to remove. *)
Definition relies (f : frame) (p id : jsstring) : Prop :=
  (holds f = true ∧ p = lockPath f ∧ id = f_id f) ∨ (at_ f = RemStale RRename ∧ stale f = Some (p, id)).

Definition has_lock (m : directory) (p id : jsstring) : Prop := ∃ x, m !! p = Some x ∧ lockId x = id.

Record inv (s : state) : Prop := {
  inv_disjoint : ∀ q, q ∈ alive s → q ∉ exited s;
  inv_issued : ∀ id q, issued s !! id = Some q → q ∈ alive s ∨ q ∈ exited s;
  inv_locks : ∀ p x, locks s !! p = Some x → genuine (issued s) x;
  inv_alive : ∀ t th, threads s !! t = Some th → me th ∈ alive s;
  inv_frames : ∀ t th f, threads s !! t = Some th → f ∈ stack th → frame_ok (issued s) (exited s) (me th) f;
  inv_ids : ∀ t th, threads s !! t = Some th → NoDup (map f_id (stack th));
  inv_apart : ∀ t t' th th' f f', threads s !! t = Some th → threads s !! t' = Some th' → f ∈ stack th → f' ∈ stack th' →
    f_id f = f_id f' → t = t';
  inv_below : ∀ t th top below f, threads s !! t = Some th → stack th = top :: below → f ∈ below → ∃ e, at_ f = Suspended e;
  inv_relies : ∀ t th f p id, threads s !! t = Some th → f ∈ stack th → relies f p id → has_lock (locks s) p id }.

Lemma suspended_relies f e p id : at_ f = Suspended e → ¬ relies f p id.
Proof. unfold relies, holds. intros ->. by intros [[? _]|[? _]]. Qed.

(** Which lock a step of the frame takes away. *)
Definition takes (f : frame) (p id : jsstring) : Prop :=
  (∃ ok, at_ f = RemSelf ok RRename ∧ p = lockPath f ∧ id = f_id f) ∨ (at_ f = RemStale RRename ∧ stale f = Some (p, id)).

Lemma takes_relies f p id : takes f p id → relies f p id.
Proof. intros [(ok & H1 & H2)|H]; [left; unfold holds; by rewrite H1|by right]. Qed.

(** How a step changes the directory. *)
Inductive changes (f : frame) (iss : gmap jsstring proc) (m : directory) : directory → Prop :=
| ch_none : changes f iss m m
| ch_link p x : m !! p = None → genuine iss x → changes f iss m (<[p := x]> m)
| ch_take p id : takes f p id → changes f iss m (delete p m).

Lemma remove_changes fl p id m r out m' f iss :
  remove_step fl p id m r = (out, m') → (∀ x, removal_record r = Some x → genuine iss x) →
  (r = RRename → takes f p id) → changes f iss m m'.
Proof.
  intros Hs Hr Ht. destruct r; simpl in Hs.
  - injection Hs as _ <-. constructor.
  - destruct fl, (m !! p); injection Hs as _ <-; try constructor; eapply ch_take; auto.
  - injection Hs as _ <-. constructor.
  - injection Hs as _ <-. constructor.
  - destruct (m !! p) eqn:E, fl; injection Hs as _ <-; try constructor; try done; by apply Hr.
  - injection Hs as _ <-. constructor.
  - injection Hs as _ <-. constructor.
Qed.

Lemma step_changes i q dl nw wl m top below iss ex st m' new :
  thread_step i q dl nw wl m top below = (st, m', new) → frame_ok iss ex q top → changes top iss m m'.
Proof.
  intros Hs [F1 F2 F3 F4]. unfold thread_step in Hs. unfold carried in F2.
  destruct (at_ top) eqn:Eat.
  - injection Hs as _ <- _. constructor.
  - destruct (fine _); injection Hs as _ <- _; constructor.
  - destruct (m !! lockPath top) eqn:E; destruct (in_fault i); injection Hs as _ <- _; try constructor; try done; by apply F2.
  - destruct o; [destruct (in_fault i)..|]; injection Hs as _ <- _; constructor.
  - destruct (in_fault i), (m !! lockPath top); injection Hs as _ <- _; constructor.
  - injection Hs as _ <- _. constructor.
  - destruct (isLockOwnerGone _ _); injection Hs as _ <- _; constructor.
  - injection Hs as _ <- _. constructor.
  - destruct (dl <=? wl); injection Hs as _ <- _; constructor.
  - destruct (stale top) as [[p id]|]; injection Hs as _ <- _; constructor.
  - destruct (stale top) as [[p id]|] eqn:Est; [|injection Hs as _ <- _; constructor].
    destruct (remove_step (in_fault i) p id m r) as [out m1] eqn:Er.
    assert (m' = m1) as -> by (destruct out; by injection Hs).
    eapply remove_changes; [exact Er|done|]. intros ->. by right.
  - destruct (remove_step (in_fault i) (lockPath top) (f_id top) m r) as [out m1] eqn:Er.
    assert (m' = m1) as -> by (destruct out; by injection Hs).
    eapply remove_changes; [exact Er|done|]. intros ->. left. eauto.
Qed.

(** The top frame after a step that does not leave it or go into a guard. *)
Record moved (iss : gmap jsstring proc) (m m' : directory) (top f : frame) : Prop := {
  mv_path : lockPath f = lockPath top;
  mv_id : f_id f = f_id top;
  mv_stale : stale f = stale top;
  mv_carried : ∀ r, carried f = Some r → genuine iss r;
  mv_link : ∀ r, at_ f = Link r → lockId r = f_id f;
  mv_relies : ∀ p id, relies f p id → (relies top p id ∧ ¬ takes top p id) ∨ has_lock m' p id }.

Lemma moved_goto iss m m' top p :
  (∀ r, carried (goto top p) = Some r → genuine iss r) → (∀ r, p = Link r → lockId r = f_id top) →
  (∀ q id, relies (goto top p) q id → (relies top q id ∧ ¬ takes top q id) ∨ has_lock m' q id) →
  moved iss m m' top (goto top p).
Proof. intros H1 H2 H3. by split. Qed.

Lemma relies_none top p q id : holds (goto top p) = false → p ≠ RemStale RRename → ¬ relies (goto top p) q id.
Proof. intros Hh Hp [[H1 _]|[H1 _]]; [by rewrite Hh in H1|done]. Qed.

Lemma not_takes_own iss ex q top :
  frame_ok iss ex q top → q ∉ ex → (∀ ok, at_ top ≠ RemSelf ok RRename) → ¬ takes top (lockPath top) (f_id top).
Proof.
  intros [F1 _ _ F4] Hq Hn [(ok & H1 & _)|[_ H2]]; [by eapply Hn|]. destruct (F4 _ _ H2) as (_ & o & Ho & Hex). congruence.
Qed.

Lemma relies_hold iss ex q top p pth id :
  frame_ok iss ex q top → q ∉ ex → holds top = true → (∀ ok, at_ top ≠ RemSelf ok RRename) → p ≠ RemStale RRename →
  relies (goto top p) pth id → relies top pth id ∧ ¬ takes top pth id.
Proof.
  intros Hok Hq Hh Hn Hp [(_ & -> & ->)|[H1 _]]; [|done]. split; [by left|]. by apply (not_takes_own iss ex q top).
Qed.

(** What follows a step of [removeLockIfMatches] carries and renames. *)
Lemma remove_out fl p id m r out m' iss :
  remove_step fl p id m r = (out, m') → (∀ q x, m !! q = Some x → genuine iss x) → (∀ x, removal_record r = Some x → genuine iss x) →
  match out with
  | inl r' => (∀ x, removal_record r' = Some x → genuine iss x) ∧ r' ≠ RRead ∧ (r' = RRename → r = RRead ∧ has_lock m' p id ∧ m' = m)
  | inr _ => True
  end.
Proof.
  intros Hs Hm Hr. destruct r; simpl in Hs.
  - destruct fl, (m !! p) as [x|] eqn:E; try (by injection Hs as <- <-). destruct (js_eqb _ _) eqn:Ei; injection Hs as <- <-; [|done].
    split; [done|]. split; [done|]. intros _. split; [done|]. split; [|done]. exists x. by bools.
  - destruct fl, (m !! p) as [x|] eqn:E; injection Hs as <- <-; try done. split; [|done]. intros y [= <-]. by eapply Hm.
  - injection Hs as <- <-. by destruct (fine fl && _).
  - by injection Hs as <- <-.
  - destruct (m !! p), fl; injection Hs as <- <-; done.
  - injection Hs as <- <-. by destruct (fine fl).
  - by injection Hs as <- <-.
Qed.

(** The stacks a step leaves. *)
Inductive stacks (i : input) (iss : gmap jsstring proc) (m m' : directory) (top : frame) (below : list frame)
    : list frame → option jsstring → Prop :=
| st_moved f : moved iss m m' top f → stacks i iss m m' top below (f :: below) None
| st_guard e :
    at_ top = Gone e → isLockOwnerGone (sys i) e = true →
    stacks i iss m m' top below
      (mkFrame (lockRemovalGuardPath (lockPath top) (lockId e)) (drawn i) false (Some (lockPath top, lockId e)) Identify
         :: goto top (Suspended e) :: below) (Some (drawn i))
| st_left parent rest : below = parent :: rest → stacks i iss m m' top below (goto parent Write :: rest) None.

Lemma step_stacks i q dl nw wl m top below iss ex st m' new :
  thread_step i q dl nw wl m top below = (Some st, m', new) → frame_ok iss ex q top → q ∉ ex →
  (∀ p x, m !! p = Some x → genuine iss x) → stacks i iss m m' top below st new.
Proof.
  intros Hs Hok Hq Hm. pose proof Hok as [F1 F2 F3 F4]. unfold thread_step in Hs. unfold carried in F2.
  assert (∀ p, carried (goto top p) = None → holds (goto top p) = false → p ≠ RemStale RRename →
            moved iss m m' top (goto top p)) as Hplain.
  { intros p Hc Hh Hp. apply moved_goto.
    - intros r Hr. by rewrite Hc in Hr.
    - intros r ->. done.
    - intros pth id Hr. by destruct (relies_none top p pth id). }
  assert (∀ p, carried (goto top p) = None → holds top = true → (∀ ok, at_ top ≠ RemSelf ok RRename) → p ≠ RemStale RRename →
            moved iss m m' top (goto top p)) as Hkeep.
  { intros p Hc Hh Hn Hp. apply moved_goto.
    - intros r Hr. by rewrite Hc in Hr.
    - intros r ->. done.
    - intros pth id Hr. left. by eapply relies_hold. }
  destruct (at_ top) eqn:Eat.
  - injection Hs as <- <- <-. constructor. split; try done. intros p id [[H1 _]|[H1 _]]; done.
  - destruct (fine _); [|done]. injection Hs as <- <- <-. constructor. apply moved_goto.
    + intros r [= <-]. done.
    + intros r [= <-]. done.
    + intros pth id Hr. by destruct (relies_none top (Link (mkLockRecord (f_id top) q (known top) (nw + lockTtlMs))) pth id).
  - destruct (m !! lockPath top) eqn:E; destruct (in_fault i); injection Hs as <- <- <-; constructor; try (by apply Hplain).
    apply moved_goto; [done|done|]. intros pth id [(_ & -> & ->)|[H1 _]]; [|done]. right. exists r.
    simpl. rewrite lookup_insert_eq. auto.
  - destruct o; [| |done]; (destruct (in_fault i); [|done..]); injection Hs as <- <- <-; constructor; [|by apply Hplain].
    apply Hkeep; try done. unfold holds. by rewrite Eat.
  - destruct (in_fault i), (m !! lockPath top) as [e|] eqn:E; injection Hs as <- <- <-; constructor; try (by apply Hplain).
    apply moved_goto; [|done|].
    + intros r [= <-]. by eapply Hm.
    + intros pth id Hr. by destruct (relies_none top (Judge e) pth id).
  - injection Hs as <- <- <-. constructor. destruct (isLockExpired e nw); [|by apply Hplain]. apply moved_goto; [|done|].
    + intros r [= <-]. by apply F2.
    + intros pth id Hr. by destruct (relies_none top (Gone e) pth id).
  - destruct (isLockOwnerGone _ _) eqn:Eg; injection Hs as <- <- <-; [by constructor|]. constructor. by apply Hplain.
  - injection Hs as <- <- <-. constructor. apply moved_goto; [|done|].
    + intros r [= <-]. by apply F2.
    + intros pth id Hr. by destruct (relies_none top (Suspended e) pth id).
  - destruct (dl <=? wl); [done|]. injection Hs as <- <- <-. constructor. by apply Hplain.
  - assert (holds top = true) as Hh by (unfold holds; by rewrite Eat).
    destruct (stale top) as [[p id]|]; injection Hs as <- <- <-; constructor; apply Hkeep; try done;
      destruct (in_fault i), (m !! p); try done; by destruct (js_eqb _ _).
  - assert (holds top = true) as Hh by (unfold holds; by rewrite Eat).
    destruct (stale top) as [[p id]|] eqn:Est; [|injection Hs as <- <- <-; constructor; by apply Hkeep].
    destruct (remove_step (in_fault i) p id m r) as [out m1] eqn:Er. pose proof (remove_out _ _ _ _ _ _ _ iss Er Hm F2) as Hout.
    destruct out as [r'|ok]; injection Hs as <- <- <-; constructor; [|by apply Hkeep].
    destruct Hout as (Hc & _ & Hren). apply moved_goto; [done|done|]. intros pth id' Hr'.
    destruct Hr' as [(_ & -> & ->)|[H1 H2]].
    + left. split; [by left|]. apply (not_takes_own iss ex q top); [done|done|]. by rewrite Eat.
    + simpl in H1, H2. injection H1 as ->. rewrite Est in H2. injection H2 as -> ->. right. by apply Hren.
  - destruct (remove_step (in_fault i) (lockPath top) (f_id top) m r) as [out m1] eqn:Er.
    pose proof (remove_out _ _ _ _ _ _ _ iss Er Hm F2) as Hout. destruct out as [r'|ok'].
    + injection Hs as <- <- <-. constructor. destruct Hout as (Hc & Hnr & Hren). apply moved_goto; [done|done|].
      intros pth id' [(Hh & -> & ->)|[H1 _]]; [|done]. unfold holds in Hh. simpl in Hh. destruct r'; try done.
      right. by apply Hren.
    + injection Hs as Hl <- <-. unfold leave in Hl. destruct below as [|parent rest]; [done|]. destruct (ok && ok'); [|done].
      injection Hl as <-. by econstructor.
Qed.

Lemma has_lock_unique m p id id' : has_lock m p id → has_lock m p id' → id = id'.
Proof. intros (x & Hx & <-) (y & Hy & <-). congruence. Qed.

Lemma stale_exited s t th f p id :
  inv s → threads s !! t = Some th → f ∈ stack th → stale f = Some (p, id) → ∃ o, issued s !! id = Some o ∧ o ∉ alive s.
Proof.
  intros I Ht Hf Hs. destruct (fo_stale _ _ _ _ (inv_frames _ I _ _ _ Ht Hf) _ _ Hs) as (_ & o & Ho & Hex).
  exists o. split; [done|]. intros Ha. by destruct (inv_disjoint _ I o Ha).
Qed.

Lemma id_alive s t th f : inv s → threads s !! t = Some th → f ∈ stack th → ∃ o, issued s !! f_id f = Some o ∧ o ∈ alive s.
Proof.
  intros I Ht Hf. exists (me th). split; [apply (fo_id _ _ _ _ (inv_frames _ I _ _ _ Ht Hf))|by apply (inv_alive _ I _ _ Ht)].
Qed.

Lemma alive_not_stale s t t' th th' f g p :
  inv s → threads s !! t = Some th → threads s !! t' = Some th' → f ∈ stack th → g ∈ stack th' → stale g ≠ Some (p, f_id f).
Proof.
  intros I Ht Ht' Hf Hg Hs. destruct (id_alive s t th f I Ht Hf) as (o & Ho & Ha).
  destruct (stale_exited s t' th' g p _ I Ht' Hg Hs) as (o' & Ho' & Hn). congruence.
Qed.

(** A lock that one frame takes away is relied on by no other. *)
Lemma takes_own s t t' th th' f g p id :
  inv s → threads s !! t = Some th → threads s !! t' = Some th' → f ∈ stack th → g ∈ stack th' →
  relies f p id → takes g p id → f_id f = f_id g.
Proof.
  intros I Ht Ht' Hf Hg [(Hh & -> & ->)|[H1 H2]] [(ok & G1 & G2 & G3)|[G1 G2]]; subst.
  - done.
  - by destruct (alive_not_stale s t t' th th' f g (lockPath f) I Ht Ht' Hf Hg).
  - by destruct (alive_not_stale s t' t th' th g f (lockPath g) I Ht' Ht Hg Hf).
  - assert (lockPath f = lockPath g) as Hp.
    { destruct (fo_stale _ _ _ _ (inv_frames _ I _ _ _ Ht Hf) _ _ H2) as [-> _].
      by destruct (fo_stale _ _ _ _ (inv_frames _ I _ _ _ Ht' Hg) _ _ G2) as [-> _]. }
    apply (has_lock_unique (locks s) (lockPath f)).
    + apply (inv_relies _ I t th f); [done..|]. left. unfold holds. by rewrite H1.
    + rewrite Hp. apply (inv_relies _ I t' th' g); [done..|]. left. unfold holds. by rewrite G1.
Qed.

Lemma same_frame s t th f g : inv s → threads s !! t = Some th → f ∈ stack th → g ∈ stack th → f_id f = f_id g → f = g.
Proof.
  intros I Ht. pose proof (inv_ids _ I _ _ Ht) as Hn. induction (stack th) as [|h l IH]; [by intros ?%not_elem_of_nil|].
  simpl in Hn. apply NoDup_cons in Hn as [Hh Hn]. rewrite !elem_of_cons. intros [->|Hf] [->|Hg] He; try done.
  - destruct Hh. rewrite He. by apply list_elem_of_fmap_2.
  - destruct Hh. rewrite <-He. by apply list_elem_of_fmap_2.
  - auto.
Qed.

(** What a frame relies on survives the step of another one. *)
Lemma relies_kept s t t' th th' f top p id m' :
  inv s → threads s !! t = Some th → threads s !! t' = Some th' → f ∈ stack th → top ∈ stack th' →
  changes top (issued s) (locks s) m' → relies f p id → has_lock m' p id ∨ (takes top p id ∧ f_id f = f_id top).
Proof.
  intros I Ht Ht' Hf Htop Hc Hr. pose proof (inv_relies _ I _ _ _ _ _ Ht Hf Hr) as Hl.
  destruct Hc as [|p' x Hn _|p' id' Htk]; [by left| |].
  - left. destruct Hl as (y & Hy & <-). exists y. split; [|done]. rewrite lookup_insert_ne; [done|]. intros Heq. rewrite Heq in Hn. congruence.
  - destruct (decide (p' = p)) as [->|Hne].
    + assert (id' = id) as ->.
      { apply (has_lock_unique (locks s) p); [|done]. apply (inv_relies _ I t' th' top); [done..|]. by apply takes_relies. }
      right. split; [done|]. exact (takes_own _ _ _ _ _ _ _ _ _ I Ht Ht' Hf Htop Hr Htk).
    + left. destruct Hl as (y & Hy & <-). exists y. split; [|done]. by rewrite lookup_delete_ne.
Qed.

Lemma frame_ok_mono iss iss' ex q f :
  frame_ok iss ex q f → (∀ id o, iss !! id = Some o → iss' !! id = Some o) → frame_ok iss' ex q f.
Proof.
  intros [F1 F2 F3 F4] Hm. split; [by apply Hm| |done|].
  - intros r Hr. by apply Hm, F2.
  - intros p id Hs. destruct (F4 p id Hs) as (? & o & ? & ?). split; [done|]. exists o. auto.
Qed.

Lemma issued_mono (iss : gmap jsstring proc) new q :
  (∀ id, new = Some id → iss !! id = None) →
  ∀ id o, iss !! id = Some o → (match new with Some n => <[n := q]> iss | None => iss end) !! id = Some o.
Proof.
  intros Hn id o Ho. destruct new as [n|]; [|done]. rewrite lookup_insert_ne; [done|]. intros ->.
  by rewrite (Hn id eq_refl) in Ho.
Qed.

Lemma step_new i q dl nw wl m top below ost m' new :
  thread_step i q dl nw wl m top below = (ost, m', new) →
  new = None ∨ (new = Some (drawn i) ∧ ∃ st, ost = Some st).
Proof.
  unfold thread_step. intros Hs.
  repeat match type of Hs with
  | context [remove_step ?a ?b ?c ?d ?e] => destruct (remove_step a b c d e) as [[]]
  | context [match ?x with _ => _ end] => destruct x
  | context [if ?x then _ else _] => destruct x
  end; injection Hs as <- <- <-; eauto.
Qed.

Section thread.
Context (s : state) (t : N) (th : thread) (top : frame) (below : list frame) (i : input).
Context (I : inv s) (Ht : threads s !! t = Some th) (Hst : stack th = top :: below).
Context (Hobs : observes (sys i) (me th) (alive s)) (Hdrawn : issued s !! drawn i = None).

Lemma top_in : top ∈ stack th.
Proof. rewrite Hst. apply list_elem_of_here. Qed.

Lemma below_in f : f ∈ below → f ∈ stack th.
Proof. rewrite Hst. apply list_elem_of_further. Qed.

Lemma top_ok : frame_ok (issued s) (exited s) (me th) top.
Proof. eapply inv_frames; [exact I|exact Ht|apply top_in]. Qed.

Lemma me_not_exited : me th ∉ exited s.
Proof. eapply inv_disjoint; [exact I|]. by eapply inv_alive. Qed.

Definition issued_after (new : option jsstring) : gmap jsstring proc :=
  match new with Some n => <[n := me th]> (issued s) | None => issued s end.

Section after.
Context (m' : directory) (st : list frame) (new : option jsstring).
Context (Hstacks : stacks i (issued s) (locks s) m' top below st new).

Lemma new_drawn n : new = Some n → n = drawn i.
Proof. intros Hn. destruct Hstacks; by simplify_eq. Qed.

Lemma iss_mono id o : issued s !! id = Some o → issued_after new !! id = Some o.
Proof. apply issued_mono. intros n Hn. by rewrite (new_drawn n Hn). Qed.

Lemma goto_ok f p : frame_ok (issued s) (exited s) (me th) f → carried (goto f p) = carried f ∨ carried (goto f p) = None →
  (∀ r, p ≠ Link r) → frame_ok (issued s) (exited s) (me th) (goto f p).
Proof.
  intros [F1 F2 F3 F4] Hc Hp. split; [done| |by intros r Hr; destruct (Hp r)|done]. intros r Hr. destruct Hc as [Hc|Hc]; rewrite Hc in Hr; [auto|done].
Qed.

Lemma stack_ok f : f ∈ st → frame_ok (issued_after new) (exited s) (me th) f.
Proof.
  pose proof iss_mono as Hmono.
  assert (∀ f, f ∈ below → frame_ok (issued s) (exited s) (me th) f) as Hbelow.
  { intros g Hg. eapply inv_frames; [exact I|exact Ht|by apply below_in]. }
  intros Hf. destruct Hstacks as [g Hm|e Hat Hg|parent rest Hb].
  - apply (frame_ok_mono (issued s)); [|exact Hmono]. apply elem_of_cons in Hf as [->|Hf]; [|auto]. destruct Hm, top_ok. split; try done.
    + congruence.
    + rewrite mv_stale0, mv_path0. done.
  - apply elem_of_cons in Hf as [->|Hf].
    + split; simpl; try done; [by rewrite lookup_insert_eq|]. intros p id [= <- <-]. split; [done|].
      assert (genuine (issued s) e) as He. { apply (fo_carried _ _ _ _ top_ok). unfold carried. by rewrite Hat. }
      exists (owner e). split; [by apply Hmono|]. destruct (inv_issued _ I _ _ He) as [Ha|]; [|done].
      by destruct (gone_not_alive _ _ _ _ Hobs Hg).
    + apply (frame_ok_mono (issued s)); [|exact Hmono]. apply elem_of_cons in Hf as [->|Hf]; [|auto].
      apply goto_ok; [apply top_ok| |done]. left. unfold carried. by rewrite Hat.
  - apply (frame_ok_mono (issued s)); [|exact Hmono]. apply elem_of_cons in Hf as [->|Hf]; [|apply Hbelow; rewrite Hb; by apply list_elem_of_further].
    apply goto_ok; [apply Hbelow; rewrite Hb; apply list_elem_of_here|by right|done].
Qed.

(** The ids of the stack are those of before and perhaps the one just drawn. *)
Lemma stack_ids f : f ∈ st → (∃ g, g ∈ stack th ∧ f_id f = f_id g) ∨ f_id f = drawn i.
Proof.
  intros Hf. destruct Hstacks as [g Hm|e Hat Hg|parent rest Hb]; apply elem_of_cons in Hf as [->|Hf].
  - left. exists top. split; [apply top_in|apply (mv_id _ _ _ _ _ Hm)].
  - left. exists f. split; [by apply below_in|done].
  - by right.
  - left. apply elem_of_cons in Hf as [->|Hf]; [exists top; split; [apply top_in|done]|exists f; split; [by apply below_in|done]].
  - left. exists parent. split; [apply below_in; rewrite Hb; apply list_elem_of_here|done].
  - left. exists f. split; [apply below_in; rewrite Hb; by apply list_elem_of_further|done].
Qed.

Lemma old_ids_issued g : g ∈ stack th → f_id g ≠ drawn i.
Proof.
  intros Hg He. pose proof (fo_id _ _ _ _ (inv_frames _ I _ _ _ Ht Hg)) as Hi. by rewrite He, Hdrawn in Hi.
Qed.

Lemma stack_nodup : NoDup (map f_id st).
Proof.
  pose proof (inv_ids _ I _ _ Ht) as Hn. rewrite Hst in Hn. simpl in Hn. apply NoDup_cons in Hn as [Hh Hn].
  destruct Hstacks as [g Hm|e Hat Hg|parent rest Hb]; simpl.
  - apply NoDup_cons. by rewrite (mv_id _ _ _ _ _ Hm).
  - apply NoDup_cons. split; [|by apply NoDup_cons]. intros [He|Hin]%elem_of_cons.
    + by destruct (old_ids_issued top top_in).
    + apply list_elem_of_fmap in Hin as (g & He & Hin). destruct (old_ids_issued g); [by apply below_in|done].
  - rewrite Hb in Hn. exact Hn.
Qed.

Lemma stack_below f g rest : st = f :: rest → g ∈ rest → ∃ e, at_ g = Suspended e.
Proof.
  intros Hs Hg. assert (∀ f, f ∈ below → ∃ e, at_ f = Suspended e) as Hb by (intros; by eapply inv_below).
  destruct Hstacks as [x Hm|e Hat He|parent rest' Hp]; injection Hs as <- <-; [by apply Hb| |].
  - apply elem_of_cons in Hg as [->|Hg]; [by exists e|by apply Hb].
  - apply Hb. rewrite Hp. by apply list_elem_of_further.
Qed.

Lemma stack_relies f p id : changes top (issued s) (locks s) m' → f ∈ st → relies f p id → has_lock m' p id.
Proof.
  intros Hc Hf Hr. assert (∀ f, f ∈ below → ¬ relies f p id) as Hb.
  { intros g Hg. destruct (inv_below _ I _ _ _ _ _ Ht Hst Hg) as [e He]. by eapply suspended_relies. }
  destruct Hstacks as [g Hm|e Hat He|parent rest' Hp]; apply elem_of_cons in Hf as [->|Hf]; try (by destruct (Hb f)).
  - destruct (mv_relies _ _ _ _ _ Hm p id Hr) as [[Hrel Hn]|]; [|done].
    destruct (relies_kept s t t th th top top p id m' I Ht Ht top_in top_in Hc Hrel) as [|[Htk _]]; done.
  - by destruct Hr as [[H1 _]|[H1 _]].
  - apply elem_of_cons in Hf as [->|Hf]; [by destruct Hr as [[H1 _]|[H1 _]]|by destruct (Hb f)].
  - by destruct Hr as [[H1 _]|[H1 _]].
  - destruct (Hb f); [|done]. rewrite Hp. by apply list_elem_of_further.
Qed.
End after.

Lemma inv_thread :
  inv (after_step s t th (thread_step i (me th) (deadline th) (now s) (wall s) (locks s) top below)).
Proof.
  destruct (thread_step _ _ _ _ _ _ _ _) as [[ost m'] new] eqn:Es.
  pose proof (step_changes _ _ _ _ _ _ _ _ _ _ _ _ _ Es top_ok) as Hc.
  assert (∀ st, ost = Some st → stacks i (issued s) (locks s) m' top below st new) as Hstacks.
  { intros st ->. apply (step_stacks _ _ _ _ _ _ _ _ _ _ _ _ _ Es top_ok me_not_exited). apply (inv_locks _ I). }
  assert (∀ id o, issued s !! id = Some o → issued_after new !! id = Some o) as Hmono.
  { destruct (step_new _ _ _ _ _ _ _ _ _ _ _ Es) as [->|(-> & st & ->)]; [done|]. by eapply iss_mono; apply Hstacks. }
  assert (∀ t' th', threads (after_step s t th (ost, m', new)) !! t' = Some th' →
            (t' ≠ t ∧ threads s !! t' = Some th') ∨ (t' = t ∧ ∃ st, ost = Some st ∧ th' = mkThread (me th) (deadline th) st)) as Hthr.
  { intros t' th' Hl. simpl in Hl. destruct (decide (t' = t)) as [->|Hne].
    - right. split; [done|]. destruct ost as [st|]; [rewrite lookup_insert_eq in Hl|by rewrite lookup_delete_eq in Hl].
      exists st. split; [done|]. by injection Hl.
    - left. split; [done|]. destruct ost; [by rewrite lookup_insert_ne in Hl|by rewrite lookup_delete_ne in Hl]. }
  split.
  - apply (inv_disjoint _ I).
  - intros id q Hid. simpl in Hid. destruct (step_new _ _ _ _ _ _ _ _ _ _ _ Es) as [->|(-> & st & ->)]; [by apply (inv_issued _ I id)|].
    destruct (decide (id = drawn i)) as [->|Hne].
    + rewrite lookup_insert_eq in Hid. injection Hid as <-. left. exact (inv_alive _ I t th Ht).
    + rewrite lookup_insert_ne in Hid by done. by apply (inv_issued _ I id).
  - intros p x Hx. apply Hmono. simpl in Hx. destruct Hc as [|p' y Hn Hy|p' id Htk]; [by apply (inv_locks _ I p)| |].
    + destruct (decide (p' = p)) as [->|Hne]; [rewrite lookup_insert_eq in Hx; by injection Hx as <-|].
      rewrite lookup_insert_ne in Hx by done. by apply (inv_locks _ I p).
    + apply lookup_delete_Some in Hx as [_ Hx]. by apply (inv_locks _ I p).
  - intros t' th' Hl. destruct (Hthr t' th' Hl) as [[_ Hl']|(-> & st & _ & ->)]; [by apply (inv_alive _ I t')|exact (inv_alive _ I t th Ht)].
  - intros t' th' f Hl Hf. destruct (Hthr t' th' Hl) as [[_ Hl']|(-> & st & Ho & ->)].
    + eapply frame_ok_mono; [by apply (inv_frames _ I t' th')|exact Hmono].
    + by apply (stack_ok m' st new (Hstacks st Ho)).
  - intros t' th' Hl. destruct (Hthr t' th' Hl) as [[_ Hl']|(-> & st & Ho & ->)]; [by apply (inv_ids _ I t')|].
    by apply (stack_nodup m' st new (Hstacks st Ho)).
  - assert (∀ t1 th1 f1 st f, t1 ≠ t → threads s !! t1 = Some th1 → f1 ∈ stack th1 → ost = Some st → f ∈ st → f_id f1 ≠ f_id f) as Hap.
    { intros t1 th1 f1 st f Hne Hl Hf1 Ho Hf He. destruct (stack_ids m' st new (Hstacks st Ho) f Hf) as [(g & Hg & Hid)|Hid].
      - destruct Hne. apply (inv_apart _ I t1 t th1 th f1 g); congruence.
      - pose proof (fo_id _ _ _ _ (inv_frames _ I _ _ _ Hl Hf1)) as Hi. by rewrite He, Hid, Hdrawn in Hi. }
    intros t1 t2 th1 th2 f1 f2 Hl1 Hl2 Hf1 Hf2 He.
    destruct (Hthr t1 th1 Hl1) as [[N1 L1]|(-> & st1 & O1 & ->)], (Hthr t2 th2 Hl2) as [[N2 L2]|(-> & st2 & O2 & ->)]; try done.
    + by apply (inv_apart _ I t1 t2 th1 th2 f1 f2).
    + by destruct (Hap t1 th1 f1 st2 f2 N1 L1 Hf1 O2 Hf2).
    + by destruct (Hap t2 th2 f2 st1 f1 N2 L2 Hf2 O1 Hf1).
  - intros t' th' f rest g Hl Hs Hg. destruct (Hthr t' th' Hl) as [[_ Hl']|(-> & st & Ho & ->)].
    + by apply (inv_below _ I t' th' f rest).
    + by apply (stack_below m' st new (Hstacks st Ho) f g rest).
  - intros t' th' f p id Hl Hf Hr. destruct (Hthr t' th' Hl) as [[Hne Hl']|(-> & st & Ho & ->)].
    + destruct (relies_kept s t' t th' th f top p id m' I Hl' Ht Hf top_in Hc Hr) as [|[_ He]]; [done|].
      destruct Hne. by apply (inv_apart _ I t' t th' th f top Hl' Ht Hf top_in).
    + by apply (stack_relies m' st new (Hstacks st Ho) f p id).
Qed.
End thread.

Lemma inv_initial : inv initial.
Proof. by split. Qed.

Lemma lock_inv_step s s' : step s s' → inv s → inv s'.
Proof.
  intros Hstep I. destruct Hstep as [s t th top below i Ht Hst Hobs Hd|s t q provider id dl Hn Hq Hid|s q Ha He|s q Ha|s nw wl].
  - by apply inv_thread.
  - assert (∀ t' th', threads (start_run s t q provider id dl) !! t' = Some th' →
              (t' ≠ t ∧ threads s !! t' = Some th') ∨
              (t' = t ∧ th' = mkThread q dl [mkFrame (providerLockPath provider) id false None Identify])) as Hthr.
    { intros t' th' Hl. simpl in Hl. destruct (decide (t' = t)) as [->|Hne].
      - right. rewrite lookup_insert_eq in Hl. by injection Hl.
      - left. by rewrite lookup_insert_ne in Hl. }
    assert (∀ i o, issued s !! i = Some o → <[id := q]> (issued s) !! i = Some o) as Hmono.
    { intros i o Hi. rewrite lookup_insert_ne; [done|]. intros Heq. rewrite Heq in Hid. congruence. }
    destruct I as [I1 I2 I3 I4 I5 I6 I7 I8 I9]. split; simpl; [done| | | | | | | |].
    + intros j o Hj. destruct (decide (j = id)) as [->|Hne]; [rewrite lookup_insert_eq in Hj; injection Hj as <-; by left|].
      rewrite lookup_insert_ne in Hj by done. by apply (I2 j).
    + intros p x Hx. by apply Hmono, (I3 p).
    + intros t' th' Hl. destruct (Hthr t' th' Hl) as [[_ Hl']|[-> ->]]; [by apply (I4 t')|done].
    + intros t' th' f Hl Hf. destruct (Hthr t' th' Hl) as [[_ Hl']|[-> ->]]; [by apply (frame_ok_mono (issued s)); [apply (I5 t')|]|].
      apply list_elem_of_singleton in Hf as ->. split; try done. apply lookup_insert_eq.
    + intros t' th' Hl. destruct (Hthr t' th' Hl) as [[_ Hl']|[-> ->]]; [by apply (I6 t')|apply NoDup_singleton].
    + assert (∀ t1 th1 f1, threads s !! t1 = Some th1 → f1 ∈ stack th1 → f_id f1 ≠ id) as Hold.
      { intros t1 th1 f1 Hl Hf1 He. pose proof (fo_id _ _ _ _ (I5 _ _ _ Hl Hf1)) as Hi. by rewrite He, Hid in Hi. }
      intros t1 t2 th1 th2 f1 f2 Hl1 Hl2 Hf1 Hf2 He.
      destruct (Hthr t1 th1 Hl1) as [[N1 L1]|[-> ->]], (Hthr t2 th2 Hl2) as [[N2 L2]|[-> ->]]; [by eapply I7| | |done].
      * apply list_elem_of_singleton in Hf2 as ->. by destruct (Hold _ _ _ L1 Hf1).
      * apply list_elem_of_singleton in Hf1 as ->. by destruct (Hold _ _ _ L2 Hf2).
    + intros t' th' f rest g Hl Hs Hg. destruct (Hthr t' th' Hl) as [[_ Hl']|[-> ->]]; [by eapply I8|].
      injection Hs as <- <-. by apply not_elem_of_nil in Hg.
    + intros t' th' f p j Hl Hf Hr. destruct (Hthr t' th' Hl) as [[_ Hl']|[-> ->]]; [by eapply I9|].
      apply list_elem_of_singleton in Hf as ->. by destruct Hr as [[H1 _]|[H1 _]].
  - destruct I as [I1 I2 I3 I4 I5 I6 I7 I8 I9]. split; simpl; [| |done| |done..].
    + intros x [->%elem_of_singleton|Hx]%elem_of_union; [done|by apply I1].
    + intros id o Ho. destruct (I2 id o Ho); [left|by right]. apply elem_of_union. by right.
    + intros t th Hl. apply elem_of_union. right. by apply (I4 t).
  - destruct I as [I1 I2 I3 I4 I5 I6 I7 I8 I9].
    assert (∀ t th, filter (λ x : N * thread, me x.2 ≠ q) (threads s) !! t = Some th → threads s !! t = Some th ∧ me th ≠ q) as Hf.
    { intros t th Hl. by apply map_lookup_filter_Some in Hl. }
    split; simpl.
    + set_solver.
    + intros id o Ho. specialize (I2 id o Ho). destruct (decide (o = q)); set_solver.
    + done.
    + intros t th [Hl Hn]%Hf. specialize (I4 t th Hl). set_solver.
    + intros t th f [Hl _]%Hf Hin. destruct (I5 t th f Hl Hin) as [F1 F2 F3 F4]. split; [done..|].
      intros p id Hs. destruct (F4 p id Hs) as (? & o & ? & ?). split; [done|]. exists o. set_solver.
    + intros t th [Hl _]%Hf. by eapply I6.
    + intros t1 t2 th1 th2 f1 f2 [L1 _]%Hf [L2 _]%Hf. by eapply I7.
    + intros t th f rest g [Hl _]%Hf. by eapply I8.
    + intros t th f p id [Hl _]%Hf. by eapply I9.
  - destruct I. by split.
Qed.

Lemma inv_reachable s : reachable s → inv s.
Proof.
  unfold reachable. intros Hr. cut (∀ a b, rtc step a b → inv a → inv b); [intros H; by eapply H, inv_initial|].
  clear. induction 1; eauto using lock_inv_step.
Qed.

(** ** What the lock promises *)

(** C29: Mutual exclusion. From an empty directory of locks, whatever processes
    and threads run, and wherever they fail, stop or exit, and whichever stale
    locks they recover, two live threads are never in their operations for the
    same lock. *)
Theorem lock_mutual_exclusion (s : state) (t t' : N) (p : jsstring) :
  reachable s → operating s t p → operating s t' p → t = t'.
Proof.
  intros I%inv_reachable (th & f & Ht & Hs & Hp & _ & Hh) (th' & f' & Ht' & Hs' & Hp' & _ & Hh').
  assert (f ∈ stack th ∧ f' ∈ stack th') as [Hf Hf'] by (rewrite Hs, Hs'; split; apply list_elem_of_here).
  apply (inv_apart _ I t t' th th' f f'); [done..|]. apply (has_lock_unique (locks s) p).
  - apply (inv_relies _ I t th f); [done..|]. left. unfold holds. by rewrite Hh.
  - apply (inv_relies _ I t' th' f'); [done..|]. left. unfold holds. by rewrite Hh'.
Qed.

(** No live lock is broken. When a step makes the lock at a path disappear
    or change, its owner has exited, or the step is the release of that very
    acquisition by a thread of its owner. *)
Theorem lock_not_stolen (s s' : state) (p : jsstring) (x : LockRecord) :
  reachable s → step s s' → locks s !! p = Some x → locks s' !! p ≠ Some x →
  owner x ∈ exited s ∨
  ∃ t th f below ok, threads s !! t = Some th ∧ stack th = f :: below ∧ me th = owner x ∧ f_id f = lockId x ∧
    lockPath f = p ∧ at_ f = RemSelf ok RRename.
Proof.
  intros I%inv_reachable Hstep Hx Hx'.
  destruct Hstep as [s t th top below i Ht Hst Hobs Hd|s t q provider id dl Hn Hq Hid|s q Ha He|s q Ha|s nw wl]; try done.
  assert (frame_ok (issued s) (exited s) (me th) top) as Hok by (eapply top_ok; eauto).
  destruct (thread_step _ _ _ _ _ _ _ _) as [[ost m'] new] eqn:Es. simpl in Hx'.
  destruct (step_changes _ _ _ _ _ _ _ _ _ _ _ _ _ Es Hok) as [|p' y Hn Hy|p' id Htk]; [done| |].
  { rewrite lookup_insert_ne in Hx'; [done|]. intros Heq. rewrite Heq in Hn. congruence. }
  destruct (decide (p' = p)) as [->|Hne]; [|by rewrite lookup_delete_ne in Hx'].
  assert (lockId x = id) as <-.
  { apply (has_lock_unique (locks s) p); [by exists x|]. apply (inv_relies _ I t th top); [done|by eapply top_in|].
    by apply takes_relies. }
  pose proof (inv_locks _ I _ _ Hx) as Hg. unfold genuine in Hg. destruct Htk as [(ok & H1 & H2 & H3)|[H1 H2]].
  - right. exists t, th, top, below, ok. repeat (split; [done|]). split; [|done].
    pose proof (fo_id _ _ _ _ Hok) as Ho. congruence.
  - left. destruct (fo_stale _ _ _ _ Hok _ _ H2) as (_ & o & Ho & Hex). congruence.
Qed.

(** ** Recovery *)

Section alone.
Context (t : N) (q : proc) (dl nw wl : Z) (al ex : gset proc) (thr : gmap N thread) (sy : System).
Context (Hobs : observes sy q al).

(** The state when the thread is at the given stack. *)
Definition at_stack (m : directory) (iss : gmap jsstring proc) (st : list frame) : state :=
  mkState m iss al ex nw wl (<[t := mkThread q dl st]> thr).

Definition quietly (z : jsstring) : input := mkInput Fine sy z true.

Lemma adv m m' iss z top below st :
  iss !! z = None → thread_step (quietly z) q dl nw wl m top below = (Some st, m', None) →
  step (at_stack m iss (top :: below)) (at_stack m' iss st).
Proof.
  intros Hz Hs. assert (at_stack m' iss st = after_step (at_stack m iss (top :: below)) t (mkThread q dl (top :: below))
    (thread_step (quietly z) q dl nw wl m top below)) as ->.
  { rewrite Hs. simpl. unfold at_stack. by rewrite insert_insert_eq. }
  apply (step_thread (at_stack m iss (top :: below)) t (mkThread q dl (top :: below)) top below (quietly z)); simpl; try done.
  by rewrite lookup_insert_eq.
Qed.

Lemma adv_end m m' iss z top :
  iss !! z = None → thread_step (quietly z) q dl nw wl m top [] = (None, m', None) →
  step (at_stack m iss [top]) (mkState m' iss al ex nw wl (delete t thr)).
Proof.
  intros Hz Hs. assert (mkState m' iss al ex nw wl (delete t thr) = after_step (at_stack m iss [top]) t (mkThread q dl [top])
    (thread_step (quietly z) q dl nw wl m top [])) as ->.
  { rewrite Hs. simpl. by rewrite delete_insert_eq. }
  apply (step_thread (at_stack m iss [top]) t (mkThread q dl [top]) top [] (quietly z)); simpl; try done.
  by rewrite lookup_insert_eq.
Qed.

Definition knows_itself : bool := match localIdentity sy with Some _ => true | None => false end.

Definition own_record (id : jsstring) : LockRecord := mkLockRecord id q knows_itself (nw + lockTtlMs).

Ltac quiet_step z := eapply rtc_l; [eapply (adv _ _ _ z); [done|unfold thread_step, remove_step, quietly; simpl; rewrite ?js_eqb_refl; simpl; try reflexivity]|].

Ltac quiet_read z H :=
  eapply rtc_l; [eapply (adv _ _ _ z); [done|unfold thread_step, remove_step, quietly; simpl; rewrite H; simpl;
    rewrite ?js_eqb_refl; simpl; reflexivity]|].

Lemma acquire_free m iss z p id k stl below :
  iss !! z = None → m !! p = None →
  rtc step (at_stack m iss (mkFrame p id k stl Identify :: below))
    (at_stack (<[p := own_record id]> m) iss (mkFrame p id knows_itself stl Held :: below)).
Proof.
  intros Hz Hp. do 2 quiet_step z. quiet_read z Hp. quiet_step z. done.
Qed.

Lemma remove_own m iss z p id k stl below x :
  iss !! z = None → m !! p = Some x → lockId x = id →
  rtc step (at_stack m iss (mkFrame p id k stl (RemSelf true RRead) :: below))
    (at_stack (delete p m) iss (mkFrame p id k stl (RemSelf true RErase) :: below)).
Proof.
  intros Hz Hp <-. quiet_read z Hp. quiet_read z Hp.
  quiet_step z. done.
Qed.

Lemma remove_stale m iss z p id k sp se below x :
  iss !! z = None → m !! sp = Some x → lockId x = se →
  rtc step (at_stack m iss (mkFrame p id k (Some (sp, se)) Held :: below))
    (at_stack (delete sp m) iss (mkFrame p id k (Some (sp, se)) (RemSelf true RRead) :: below)).
Proof.
  intros Hz Hp <-. quiet_read z Hp. quiet_read z Hp.
  quiet_read z Hp. quiet_step z. quiet_step z. done.
Qed.

(** From the request to the guard of a stale lock. *)
Lemma reach_guard m iss g p id k below e :
  iss !! g = None → m !! p = Some e → isLockExpired e nw = true → isLockOwnerGone sy e = true →
  rtc step (at_stack m iss (mkFrame p id k None Write :: below))
    (at_stack m (<[g := q]> iss)
       (mkFrame (lockRemovalGuardPath p (lockId e)) g false (Some (p, lockId e)) Identify
          :: mkFrame p id k None (Suspended e) :: below)).
Proof.
  intros Hz Hp Hexp Hgone. quiet_step g. quiet_read g Hp. quiet_step g. quiet_read g Hp.
  quiet_read g Hexp. apply rtc_once.
  assert (at_stack m (<[g := q]> iss) (mkFrame (lockRemovalGuardPath p (lockId e)) g false (Some (p, lockId e)) Identify
      :: mkFrame p id k None (Suspended e) :: below) =
    after_step (at_stack m iss (mkFrame p id k None (Gone e) :: below)) t (mkThread q dl (mkFrame p id k None (Gone e) :: below))
      (thread_step (quietly g) q dl nw wl m (mkFrame p id k None (Gone e)) below)) as ->.
  { unfold thread_step. simpl. rewrite Hgone. simpl. unfold at_stack. by rewrite insert_insert_eq. }
  apply (step_thread (at_stack m iss (mkFrame p id k None (Gone e) :: below)) t (mkThread q dl (mkFrame p id k None (Gone e) :: below)) (mkFrame p id k None (Gone e)) below (quietly g));
    simpl; try done. by rewrite lookup_insert_eq.
Qed.
End alone.

(** A stale lock is recovered, and a lock is given back. When the lock of a
    provider is expired and its owner is found gone, and nobody holds the guard
    for its removal, a thread that asks for the lock, undisturbed, gets into its
    operation with the lock of that path replaced by its own and no other lock
    changed; when the operation ends, undisturbed, the lock is gone and the
    thread has returned. *)
Theorem stale_lock_recovered (s : state) (t : N) (q : proc) (provider id g z : jsstring) (dl : Z) (sy : System) (e : LockRecord) :
  let p := providerLockPath provider in
  threads s !! t = None → q ∈ alive s → observes sy q (alive s) → locks s !! p = Some e →
  isLockExpired e (now s) = true → isLockOwnerGone sy e = true → locks s !! lockRemovalGuardPath p (lockId e) = None →
  issued s !! id = None → issued s !! g = None → issued s !! z = None → NoDup [id; g; z] →
  ∃ s1 s2, rtc step s s1 ∧ operating s1 t p ∧ locks s1 = <[p := own_record q (now s) sy id]> (locks s) ∧
    rtc step s1 s2 ∧ threads s2 !! t = None ∧ locks s2 = delete p (locks s).
Proof.
  intros p Ht Hq Hobs Hp Hexp Hgone Hguard Hid Hg Hz Hnd.
  rewrite !NoDup_cons, !not_elem_of_cons in Hnd. destruct Hnd as ((Hig & Hiz & _) & (Hgz & _) & _).
  set (gp := lockRemovalGuardPath p (lockId e)) in *.
  assert (p ≠ gp) as Hne by (intros Heq; rewrite Heq in Hp; congruence).
  set (at' := at_stack t q dl (now s) (wall s) (alive s) (exited s) (threads s)).
  set (i1 := <[id := q]> (issued s)). set (i2 := <[g := q]> i1).
  assert (i1 !! g = None) as Hg1 by (unfold i1; by rewrite lookup_insert_ne).
  assert (i2 !! z = None) as Hz2 by (unfold i2, i1; by rewrite !lookup_insert_ne).
  set (k := knows_itself sy). set (m1 := <[gp := own_record q (now s) sy g]> (locks s)).
  assert (m1 !! p = Some e) as Hp1 by (unfold m1; by rewrite lookup_insert_ne).
  assert (delete p m1 !! gp = Some (own_record q (now s) sy g)) as Hgp1
    by (unfold m1; rewrite lookup_delete_ne, lookup_insert_eq by done; done).
  set (m2 := delete gp (delete p m1)).
  assert (m2 = delete p (locks s)) as Hm2.
  { apply map_eq. intros j. unfold m2, m1. destruct (decide (j = gp)) as [->|Hj].
    - by rewrite lookup_delete_eq, lookup_delete_ne.
    - rewrite lookup_delete_ne by done. destruct (decide (j = p)) as [->|Hj']; [by rewrite !lookup_delete_eq|].
      by rewrite !lookup_delete_ne, lookup_insert_ne. }
  assert (m2 !! p = None) as Hp2 by (rewrite Hm2; apply lookup_delete_eq).
  exists (at' (<[p := own_record q (now s) sy id]> m2) i2 [mkFrame p id k None Held]).
  exists (mkState (delete p (locks s)) i2 (alive s) (exited s) (now s) (wall s) (delete t (threads s))).
  split; [|split; [|split; [|split; [|split]]]].
  - eapply rtc_l; [by apply (step_run s t q provider id dl)|]. change (start_run s t q provider id dl) with (at' (locks s) i1 [mkFrame p id false None Identify]).
    eapply rtc_l; [by eapply (adv t q dl _ _ _ _ _ sy Hobs _ _ _ g)|].
    etransitivity; [by eapply (reach_guard t q dl _ _ _ _ _ sy Hobs (locks s) i1 g p id k [] e)|].
    etransitivity; [by eapply (acquire_free t q dl _ _ _ _ _ sy Hobs (locks s) i2 z gp g)|].
    etransitivity; [by eapply (remove_stale t q dl _ _ _ _ _ sy Hobs m1 i2 z gp g k p (lockId e) _ e)|].
    etransitivity; [by eapply (remove_own t q dl _ _ _ _ _ sy Hobs (delete p m1) i2 z gp g k _ _ (own_record q (now s) sy g))|].
    eapply rtc_l; [by eapply (adv t q dl _ _ _ _ _ sy Hobs _ _ _ z)|].
    eapply rtc_l; [by eapply (adv t q dl _ _ _ _ _ sy Hobs _ _ _ z)|].
    eapply rtc_l; [eapply (adv t q dl _ _ _ _ _ sy Hobs _ _ _ z); [done|]; unfold thread_step; simpl; fold m2; by rewrite Hp2|].
    apply rtc_once. by eapply (adv t q dl _ _ _ _ _ sy Hobs _ _ _ z).
  - exists (mkThread q dl [mkFrame p id k None Held]), (mkFrame p id k None Held). split; [apply lookup_insert_eq|done].
  - simpl. rewrite Hm2. apply insert_delete_eq.
  - eapply rtc_l; [by eapply (adv t q dl _ _ _ _ _ sy Hobs _ _ _ z)|].
    etransitivity; [eapply (remove_own t q dl _ _ _ _ _ sy Hobs _ i2 z p id k None [] (own_record q (now s) sy id)); [done|apply lookup_insert_eq|done]|].
    assert (delete p (<[p := own_record q (now s) sy id]> m2) = delete p (locks s)) as ->.
    { rewrite delete_insert_eq, Hm2. apply delete_delete_eq. }
    apply rtc_once. by eapply (adv_end t q dl _ _ _ _ _ sy Hobs _ _ _ z).
  - simpl. apply lookup_delete_eq.
  - done.
Qed.

(** ** Runs of one thread *)

Fixpoint advance (ins : list input) (t : N) (s : state) : option state :=
  match ins with
  | [] => Some s
  | i :: ins =>
      match threads s !! t with
      | Some th =>
          match stack th, issued s !! drawn i with
          | top :: below, None =>
              advance ins t (after_step s t th (thread_step i (me th) (deadline th) (now s) (wall s) (locks s) top below))
          | _, _ => None
          end
      | None => None
      end
  end.

Lemma advance_rtc ins t q s s' :
  (∀ i, i ∈ ins → observes (sys i) q (alive s)) → (∀ th, threads s !! t = Some th → me th = q) → advance ins t s = Some s' →
  rtc step s s'.
Proof.
  revert s. induction ins as [|i ins IH]; intros s Ho Hme; simpl; [by intros [= ->]|].
  destruct (threads s !! t) as [th|] eqn:Et; [|done]. destruct (stack th) as [|top below] eqn:Es; [done|].
  destruct (issued s !! drawn i) eqn:Ed; [done|]. intros Ha. eapply rtc_l.
  - eapply step_thread; [exact Et|exact Es| |exact Ed]. rewrite (Hme th eq_refl). apply Ho, list_elem_of_here.
  - destruct (thread_step _ _ _ _ _ _ _ _) as [[ost m] new] eqn:Er. apply IH; [|simpl|done].
    + intros j Hj. apply Ho. by apply list_elem_of_further.
    + intros th' Hl. rewrite <-(Hme th eq_refl). destruct ost; [rewrite lookup_insert_eq in Hl; by injection Hl as <-|].
      by rewrite lookup_delete_eq in Hl.
Qed.
End Lock.

(** ** Examples *)

Module Demo.

Definition sha (b : list N) : jsstring := js "h" ++ b.

Definition self : proc := mkProc 7 (mkIdentity (js "boot") (js "pid:[1]") (js "100")).
Definition other : proc := mkProc 5 (mkIdentity (js "boot") (js "pid:[1]") (js "50")).

(** A host where only [self] is alive. *)
Definition host : System :=
  mkSystem true (Some (ident self)) (λ p, negb (p =? 7)) (λ p, if p =? 7 then Some (ident self) else None).

Lemma host_observes : observes host self {[self]}.
Proof.
  split.
  - by intros q ->%elem_of_singleton.
  - by intros q q' ->%elem_of_singleton ->%elem_of_singleton.
  - done.
  - by intros i [= <-].
  - simpl. intros p Hp q ->%elem_of_singleton _ Heq. by rewrite <-Heq in Hp.
  - simpl. intros p i. destruct (Z.eqb_spec p 7) as [->|]; [|done]. intros [= <-]. exists self. split; [by apply elem_of_singleton|done].
Qed.

Definition p : jsstring := providerLockPath sha (js "acct").

Definition alone_in (locks : gmap jsstring LockRecord) (iss : gmap jsstring proc) (ex : gset proc) : state :=
  mkState locks iss {[self]} ex 0 0 ∅.

Definition asking (s : state) : state := start_run sha s 0 self (js "acct") (js "id1") 100.

Definition go (f : fault) : input := mkInput f host (js "z") true.

Definition steps (fs : list fault) : option state := advance sha 60 (map go fs) 0 (asking (alone_in ∅ ∅ ∅)).

Lemma steps_reachable fs s : steps fs = Some s → reachable sha 60 s.
Proof.
  intros Hs. unfold reachable. apply (rtc_l _ _ (alone_in ∅ ∅ ∅)).
  { pose proof (step_spawn sha 60 initial self) as Hsp. simpl in Hsp. rewrite union_empty_r_L in Hsp. by apply Hsp. }
  apply (rtc_l _ _ (asking (alone_in ∅ ∅ ∅))); [apply step_run; [done|by apply (elem_of_singleton self self)|done]|].
  eapply (advance_rtc sha 60 (map go fs) 0 self); [| |exact Hs].
  - intros i (f & -> & _)%list_elem_of_fmap. apply host_observes.
  - intros th Hl. simpl in Hl. rewrite lookup_insert_eq in Hl. by injection Hl as <-.
Qed.

Definition or_start (s : option state) : state := default (alone_in ∅ ∅ ∅) s.

Definition inside : state := or_start (steps [Fine; Fine; Fine; Fine]).
Definition before_rename : state := or_start (steps [Fine; Fine; Fine; Fine; Fine; Fine]).
Definition after_rename : state := or_start (steps [Fine; Fine; Fine; Fine; Fine; Fine; Fine]).

Lemma lock_mutual_exclusion_witness : operating inside 0 p ∧ (0 = 0)%N.
Proof.
  assert (operating inside 0 p) as Hop.
  { eexists _, _. split; [vm_compute; reflexivity|]. split; [reflexivity|]. split; [vm_compute; reflexivity|]. split; reflexivity. }
  split; [exact Hop|]. apply (lock_mutual_exclusion sha 60 inside 0 0 p).
  - apply (steps_reachable [Fine; Fine; Fine; Fine]). vm_compute. reflexivity.
  - exact Hop.
  - exact Hop.
Defined.

Lemma lock_not_stolen_witness :
  let x := own_record 60 self 0 host (js "id1") in
  owner x ∈ exited before_rename ∨
  ∃ t th f below ok, threads before_rename !! t = Some th ∧ stack th = f :: below ∧ me th = owner x ∧ f_id f = lockId x ∧
    lockPath f = p ∧ at_ f = RemSelf ok RRename.
Proof.
  intros x. apply (lock_not_stolen sha 60 before_rename after_rename p x).
  - apply (steps_reachable [Fine; Fine; Fine; Fine; Fine; Fine]). vm_compute. reflexivity.
  - assert (after_rename = after_step before_rename 0 (mkThread self 100 [mkFrame p (js "id1") true None (RemSelf true RRename)])
      (thread_step sha 60 (go Fine) self 100 0 0 (locks before_rename) (mkFrame p (js "id1") true None (RemSelf true RRename)) []))
      as -> by (vm_compute; reflexivity).
    apply (step_thread sha 60 before_rename 0 (mkThread self 100 [mkFrame p (js "id1") true None (RemSelf true RRename)])
      (mkFrame p (js "id1") true None (RemSelf true RRename)) [] (go Fine)).
    + vm_compute. reflexivity.
    + reflexivity.
    + exact host_observes.
    + vm_compute. reflexivity.
  - vm_compute. reflexivity.
  - vm_compute. discriminate.
Defined.

(** A lock of a process that exited. *)
Definition left_behind : LockRecord := mkLockRecord (js "old") other true 0.
Definition stuck : state := alone_in {[ p := left_behind ]} {[ js "old" := other ]} {[other]}.

Lemma stale_lock_recovered_witness :
  ∃ s1 s2, rtc (step sha 60) stuck s1 ∧ operating s1 0 p ∧ locks s1 = <[p := own_record 60 self (now stuck) host (js "id1")]> (locks stuck) ∧
    rtc (step sha 60) s1 s2 ∧ threads s2 !! 0%N = None ∧ locks s2 = delete p (locks stuck).
Proof.
  apply (stale_lock_recovered sha 60 stuck 0 self (js "acct") (js "id1") (js "g") (js "z") 100 host left_behind).
  - reflexivity.
  - by apply (elem_of_singleton self self).
  - exact host_observes.
  - vm_compute. reflexivity.
  - reflexivity.
  - vm_compute. reflexivity.
  - vm_compute. reflexivity.
  - vm_compute. reflexivity.
  - vm_compute. reflexivity.
  - vm_compute. reflexivity.
  - apply (bool_decide_unpack _). vm_compute. exact I.
Defined.

(** ** What the lock does at its edges *)

(** The lock is held by the process and by no thread of it. *)
Definition orphaned (s : state) : Prop :=
  reachable sha 60 s ∧ threads s = ∅ ∧ ∃ x, locks s !! p = Some x ∧ owner x = self ∧ self ∈ alive s.

(** No system finds the owner of such a lock gone. *)
Lemma orphan_stays s sy x : observes sy self (alive s) → self ∈ alive s → owner x = self → isLockOwnerGone sy x = false.
Proof.
  intros Ho Ha Hx. apply not_true_is_false. intros Hg. destruct (gone_not_alive sy self (alive s) x Ho Hg). by rewrite Hx.
Qed.

(** The candidate is linked and cannot be removed: the acquisition throws. *)
Theorem failed_cleanup_orphans : orphaned (or_start (steps [Fine; Fine; Fine; FailsBefore])).
Proof.
  split; [apply (steps_reachable [Fine; Fine; Fine; FailsBefore]); vm_compute; reflexivity|]. split; [vm_compute; reflexivity|].
  eexists. split; [vm_compute; reflexivity|]. split; [reflexivity|by apply (elem_of_singleton self self)].
Qed.

(** The release cannot read the lock: [run] returns normally. *)
Theorem failed_read_orphans : orphaned (or_start (steps [Fine; Fine; Fine; Fine; Fine; FailsBefore])).
Proof.
  split; [apply (steps_reachable [Fine; Fine; Fine; Fine; Fine; FailsBefore]); vm_compute; reflexivity|]. split; [vm_compute; reflexivity|].
  eexists. split; [vm_compute; reflexivity|]. split; [reflexivity|by apply (elem_of_singleton self self)].
Qed.

(** The release cannot read its tombstone, and links the lock back. *)
Theorem failed_verify_orphans : orphaned (or_start (steps [Fine; Fine; Fine; Fine; Fine; Fine; Fine; FailsBefore; Fine; Fine])).
Proof.
  split; [apply (steps_reachable [Fine; Fine; Fine; Fine; Fine; Fine; Fine; FailsBefore; Fine; Fine]); vm_compute; reflexivity|].
  split; [vm_compute; reflexivity|].
  eexists. split; [vm_compute; reflexivity|]. split; [reflexivity|by apply (elem_of_singleton self self)].
Qed.
End Demo.
End FileLock.
