(* ===== verification/HistoryCache.v ===== *)
(** * The cache of the control inbox

    [src/store-local-file/worker-control-inbox/adapters/validated-history-cache.ts]:
    the parsed contents of files, kept with the signature of the file they were
    read from, in the order of their last use and within bounds.

    [read] is cut at its awaits: readers of any number of paths interleave with
    each other and with changes of the files. A change gives a file whatever
    signature (device, inode, size and times) the file system has for it, one it
    had before included; that this does not happen is an assumption of the theorem
    that needs it. A text that is read while its file changes can be anything.
    What the cache returns is a copy, so records are values; the parser of a
    path is a parameter. *)

From stdpp Require Import base numbers option strings gmap sets list.
From S2P Require Import Prelude Json.

#[local] Open Scope Z_scope.

Module HistoryCache.

Section cache.
Context {R : Type} (parse : jsstring → jsstring → option (list R)) (maxFiles maxBytes : Z).

(** ** The cache *)

Record Entry : Type := mkEntry { signature : N; bytes : Z; records : list R }.

(** [entries] in the order of the [Map], and [bytes]. *)
Record cache : Type := mkCache { entries : list (jsstring * Entry); total : Z }.

Definition empty_cache : cache := mkCache [] 0.

Definition forget (path : jsstring) (c : cache) : cache :=
  match map_get (entries c) path with
  | Some e => mkCache (map_delete (entries c) path) (total c - bytes e)
  | None => c
  end.

(** The loop that forgets the oldest entries until there is room. *)
Fixpoint evict (b : Z) (es : list (jsstring * Entry)) (sum : Z) : cache :=
  match es with
  | [] => mkCache [] sum
  | (_, e) :: rest =>
      if (maxFiles <=? Z.of_nat (length es)) || (maxBytes <? sum + b) then evict b rest (sum - bytes e) else mkCache es sum
  end.

Definition save (path : jsstring) (e : Entry) (c : cache) : cache :=
  let c := forget path c in
  let c := evict (bytes e) (entries c) (total c) in
  mkCache (map_set (entries c) path e) (total c + bytes e).

(** A hit moves its entry to the end. *)
Definition lookup (path : jsstring) (sig : N) (c : cache) : option (list R * cache) :=
  match map_get (entries c) path with
  | Some e =>
      if (signature e =? sig)%N
      then Some (records e, mkCache (map_set (map_delete (entries c) path) path e) (total c))
      else None
  | None => None
  end.

(** ** Readers and files *)

Definition byteLength (text : jsstring) : Z := Z.of_nat (length (utf8 text)).

(** What [read] has: nothing, the first signature, the file it opened, what it
    parsed, its result. *)
Inductive pc : Type :=
| Begin
| Missed (before : N)
| Opened (before version : N)
| Parsed (before : N) (found : list R) (b : Z)
| Done (out : list R).

Record reader : Type := mkReader { path : jsstring; at_ : pc }.

(** A file: what [fileSignature] gives for it, which of the changes made it, and
    its text. *)
Record file : Type := mkFile { f_signature : N; f_version : N; f_text : jsstring }.

Record state : Type := mkState { files : gmap jsstring file; next : N; shared : cache; readers : gmap N reader }.

(** [Change p (Some (sig, text))]: the file gets a text and a signature. [Step t ok torn]: the access of a reader succeeds or fails; [torn] is what it
    reads of a file that has changed since it was opened. *)
Inductive label : Type :=
| Change (p : jsstring) (new : option (N * jsstring))
| Read (t : N) (p : jsstring)
| Step (t : N) (ok : bool) (torn : jsstring).

Definition failed (r : reader) (c : cache) : pc * cache := (Done [], forget (path r) c).

Definition reader_step (fs : gmap jsstring file) (ok : bool) (torn : jsstring) (r : reader) (c : cache) : pc * cache :=
  match at_ r, (if ok then fs !! path r else None) with
  | Begin, Some f =>
      match lookup (path r) (f_signature f) c with
      | Some (rs, c') => (Done rs, c')
      | None => (Missed (f_signature f), forget (path r) c)
      end
  | Missed before, Some f => (Opened before (f_version f), c)
  | Opened before v, Some f =>
      let text := if (f_version f =? v)%N then f_text f else torn in
      match parse (path r) text with Some rs => (Parsed before rs (byteLength text), c) | None => failed r c end
  | Parsed before rs b, Some f =>
      let after := f_signature f in
      (Done rs, if (before =? after)%N && (b <=? maxBytes) then save (path r) (mkEntry after b rs) c else c)
  | Done out, _ => (Done out, c)
  | _, None => failed r c
  end.

Definition file_after (s : state) (p : jsstring) (new : option (N * jsstring)) : gmap jsstring file :=
  match new with Some (sig, text) => <[p := mkFile sig (next s) text]> (files s) | None => delete p (files s) end.

Definition perform (s : state) (l : label) : option state :=
  match l with
  | Change p new => Some (mkState (file_after s p new) (next s + 1) (shared s) (readers s))
  | Read t p =>
      match readers s !! t with
      | None => Some (mkState (files s) (next s) (shared s) (<[t := mkReader p Begin]> (readers s)))
      | Some _ => None
      end
  | Step t ok torn =>
      r ← readers s !! t;
      let '(p, c) := reader_step (files s) ok torn r (shared s) in
      Some (mkState (files s) (next s) c (<[t := mkReader (path r) p]> (readers s)))
  end.

Fixpoint performs (s : state) (ls : list label) : option state :=
  match ls with
  | [] => Some s
  | l :: ls => s' ← perform s l; performs s' ls
  end.

Definition initial : state := mkState ∅ 0 empty_cache ∅.

(** [read] without a cache: the records of the file. *)
Definition uncached (p : jsstring) (f : option file) : list R :=
  match f with Some f => default [] (parse p (f_text f)) | None => [] end.

(** The signatures that files had, after a change; and that no change gives a
    file a signature it had before. *)
Definition had (past : gset (jsstring * N)) (l : label) : gset (jsstring * N) :=
  match l with Change p (Some (sig, _)) => {[(p, sig)]} ∪ past | _ => past end.
Fixpoint renewed (past : gset (jsstring * N)) (ls : list label) : Prop :=
  match ls with
  | [] => True
  | l :: ls => match l with Change p (Some (sig, _)) => (p, sig) ∉ past | _ => True end ∧ renewed (had past l) ls
  end.

(** ** The bounds *)

Definition sum_bytes (es : list (jsstring * Entry)) : Z := foldr (λ e, Z.add (bytes e.2)) 0 es.

Record cache_wf (c : cache) : Prop := {
  cw_keys : NoDup (entries c).*1;
  cw_total : total c = sum_bytes (entries c);
  cw_bytes : Forall (λ e, 0 ≤ bytes e.2) (entries c) }.

Definition bounded (c : cache) : Prop :=
  total c ≤ Z.max 0 maxBytes ∧ Z.of_nat (length (entries c)) ≤ Z.max 1 maxFiles.

Lemma delete_sum (es : list (jsstring * Entry)) p e : map_get es p = Some e → sum_bytes (map_delete es p) = sum_bytes es - bytes e.
Proof.
  induction es as [|[k x] es IH]; simpl; [done|]. case_decide; [intros [= ->]; simpl; lia|]. intros H1. simpl. rewrite IH by done. lia.
Qed.

Lemma delete_length (es : list (jsstring * Entry)) p : (length (map_delete es p) ≤ length es)%nat.
Proof. induction es as [|[k x] es IH]; simpl; [lia|]. case_decide; simpl; lia. Qed.

Lemma delete_Forall (P : jsstring * Entry → Prop) es p : Forall P es → Forall P (map_delete es p).
Proof. induction 1 as [|[k x] es Hx Hes IH]; simpl; [done|]. case_decide; [done|by constructor]. Qed.

Lemma set_new (es : list (jsstring * Entry)) p e : map_get es p = None → map_set es p e = es ++ [(p, e)].
Proof. induction es as [|[k x] es IH]; simpl; [done|]. case_decide; [done|]. intros H1. by rewrite IH. Qed.

Lemma sum_app es es' : sum_bytes (es ++ es') = sum_bytes es + sum_bytes es'.
Proof. induction es as [|x es IH]; simpl; [done|]. rewrite IH. lia. Qed.

Lemma forget_wf p c : cache_wf c → cache_wf (forget p c).
Proof.
  intros [W1 W2 W3]. unfold forget. destruct (map_get _ _) as [e|] eqn:E; [|by split]. split; simpl.
  - by apply map_delete_NoDup.
  - by rewrite (delete_sum _ _ e), W2.
  - by apply delete_Forall.
Qed.

Lemma forget_bounded p c : cache_wf c → bounded c → bounded (forget p c).
Proof.
  intros [_ W2 W3] [B1 B2]. unfold forget, bounded. destruct (map_get _ _) as [e|] eqn:E; [|done]. simpl.
  assert (0 ≤ bytes e). { apply map_get_Some_in in E. rewrite Forall_forall in W3. by apply (W3 _ E). }
  pose proof (delete_length (entries c) p). lia.
Qed.

Lemma evict_spec b es sum :
  0 ≤ b ≤ maxBytes → cache_wf (mkCache es sum) →
  cache_wf (evict b es sum) ∧ total (evict b es sum) + b ≤ maxBytes ∧
  (Z.of_nat (length (entries (evict b es sum))) < maxFiles ∨ entries (evict b es sum) = []) ∧
  (∀ p e, (p, e) ∈ entries (evict b es sum) → (p, e) ∈ es).
Proof.
  intros Hb. revert sum. induction es as [|[k e] es IH]; intros sum [W1 W2 W3]; cbn [evict].
  - simpl in W2. split; [by split|]. simpl. split; [lia|]. split; [by right|done].
  - destruct (_ || _) eqn:E.
    + destruct (IH (sum - bytes e)) as (? & ? & ? & Hin).
      * cbn [entries] in W1, W3. rewrite fmap_cons in W1. apply NoDup_cons in W1 as [_ W1]. apply Forall_cons in W3 as [_ W3]. split; simpl in *; [done|lia|done].
      * repeat (split; [done|]). intros p x Hx. apply list_elem_of_further. auto.
    + bools. split; [by split|]. cbn [total entries]. split; [lia|]. split; [left; lia|done].
Qed.

Lemma save_spec p e c :
  0 ≤ bytes e ≤ maxBytes → cache_wf c →
  cache_wf (save p e c) ∧ bounded (save p e c) ∧ (∀ q x, (q, x) ∈ entries (save p e c) → (q, x) ∈ entries c ∨ (q, x) = (p, e)).
Proof.
  intros Hb Hw. unfold save. pose proof (forget_wf p c Hw) as Hf.
  destruct (evict_spec (bytes e) (entries (forget p c)) (total (forget p c)) Hb) as (We & He & Hl & Hin); [by destruct (forget p c)|].
  set (c' := evict _ _ _) in *.
  assert (p ∉ (entries (forget p c)).*1) as Hp.
  { unfold forget. destruct (map_get (entries c) p) eqn:E; [|by apply map_get_None]. simpl. apply map_get_None, map_get_delete_eq, Hw. }
  assert (map_get (entries c') p = None) as Hn.
  { apply map_get_None. intros ([q x] & -> & Hx)%list_elem_of_fmap. destruct Hp. apply list_elem_of_fmap. exists (q, x). auto. }
  rewrite (set_new _ _ _ Hn). destruct We as [W1 W2 W3]. split; [|split].
  - split; simpl.
    + rewrite fmap_app. apply NoDup_app. split; [done|]. split; [|apply NoDup_singleton]. intros q Hq Hq'.
      apply list_elem_of_singleton in Hq' as ->. by apply map_get_None in Hn.
    + rewrite sum_app, <-W2. simpl. lia.
    + apply Forall_app. split; [done|]. constructor; [simpl; lia|constructor].
  - split; simpl; [lia|]. rewrite length_app. simpl. destruct Hl as [Hl|Hl]; [lia|]. rewrite Hl. simpl. lia.
  - simpl. intros q x [Hx|Hx]%elem_of_app; [|by apply list_elem_of_singleton in Hx; right]. left. apply Hin in Hx.
    unfold forget in Hx. destruct (map_get (entries c) p); [|done]. simpl in Hx. clear -Hx.
    induction (entries c) as [|[k y] es IH]; simpl in *; [done|]. case_decide; set_solver.
Qed.

Lemma evict_entries b es sum x : x ∈ entries (evict b es sum) → x ∈ es.
Proof.
  revert sum. induction es as [|[k e] es IH]; intros sum; simpl; [done|]. case_match; [|done]. intros ?%IH. by right.
Qed.

Lemma delete_entries (es : list (jsstring * Entry)) p x : x ∈ map_delete es p → x ∈ es.
Proof. induction es as [|[k y] es IH]; simpl; [done|]. case_decide; set_solver. Qed.

Lemma set_entries (es : list (jsstring * Entry)) p e x : x ∈ map_set es p e → x ∈ es ∨ x = (p, e).
Proof. induction es as [|[k y] es IH]; simpl; [set_solver|]. case_decide; set_solver. Qed.

Lemma save_entries p e c q x : (q, x) ∈ entries (save p e c) → (q, x) ∈ entries c ∨ (q, x) = (p, e).
Proof.
  unfold save. simpl. intros [H|H]%set_entries; [left|by right]. apply evict_entries in H. revert H.
  unfold forget. destruct (map_get _ _); [|done]. apply delete_entries.
Qed.

(** ** What every step keeps *)

Lemma renewed_app past l1 l2 : renewed past (l1 ++ l2) ↔ renewed past l1 ∧ renewed (foldl had past l1) l2.
Proof. revert past. induction l1 as [|l l1 IH]; intros past; simpl; [naive_solver|]. rewrite IH. naive_solver. Qed.

(** The cache is within its bounds, whatever signatures there are. *)
Record within (s : state) : Prop := {
  wi_cache : cache_wf (shared s);
  wi_bounded : bounded (shared s);
  wi_readers : ∀ t r b rs n, readers s !! t = Some r → at_ r = Parsed b rs n → 0 ≤ n }.

(** A record of the cache is what parsing gives, as long as the file has its
    signature. *)
Definition current (fs : gmap jsstring file) (past : gset (jsstring * N)) (p : jsstring) (sig : N) (P : file → Prop) : Prop :=
  (p, sig) ∈ past ∧ ∀ f, fs !! p = Some f → f_signature f = sig → P f.

Definition entry_ok (fs : gmap jsstring file) (past : gset (jsstring * N)) (p : jsstring) (e : Entry) : Prop :=
  current fs past p (signature e) (λ f, parse p (f_text f) = Some (records e)).

Definition reader_ok (fs : gmap jsstring file) (past : gset (jsstring * N)) (r : reader) : Prop :=
  match at_ r with
  | Begin | Done _ => True
  | Missed b => (path r, b) ∈ past
  | Opened b v => current fs past (path r) b (λ f, f_version f = v)
  | Parsed b rs n => current fs past (path r) b (λ f, parse (path r) (f_text f) = Some rs)
  end.

Record state_ok (past : gset (jsstring * N)) (s : state) : Prop := {
  so_within : within s;
  so_entries : ∀ p e, (p, e) ∈ entries (shared s) → entry_ok (files s) past p e;
  so_files : ∀ p f, files s !! p = Some f → (p, f_signature f) ∈ past;
  so_readers : ∀ t r, readers s !! t = Some r → reader_ok (files s) past r }.

Lemma file_after_lookup s p new q f : file_after s p new !! q = Some f →
  files s !! q = Some f ∨ (q = p ∧ ∃ text, new = Some (f_signature f, text)).
Proof.
  unfold file_after. destruct new as [[sig text]|].
  - destruct (decide (p = q)) as [->|Hne]; [rewrite lookup_insert_eq; intros [= <-]; right; eauto|rewrite lookup_insert_ne by done; by left].
  - rewrite lookup_delete_Some. intros [_ ?]. by left.
Qed.

Lemma had_past past l x : x ∈ past → x ∈ had past l.
Proof. destruct l as [p [[sig text]|]| |]; simpl; set_solver. Qed.

(** What holds while a file has a signature is kept by a change that renews. *)
Lemma change_current past s p new q sig P : renewed past [Change p new] → current (files s) past q sig P →
  current (file_after s p new) (had past (Change p new)) q sig P.
Proof.
  intros [Hn _] [Hin HP]. split; [by apply had_past|]. intros f [Hf|[-> [text ->]]]%file_after_lookup Hs; [auto|]. by rewrite Hs in Hn.
Qed.

Lemma change_reader past s p new r : renewed past [Change p new] → reader_ok (files s) past r →
  reader_ok (file_after s p new) (had past (Change p new)) r.
Proof.
  intros Hn. unfold reader_ok. destruct (at_ r) as [|b|b v|b rs n|out]; [done|apply had_past|by apply change_current..|done].
Qed.

Lemma forget_entries p c q e : (q, e) ∈ entries (forget p c) → (q, e) ∈ entries c.
Proof.
  unfold forget. destruct (map_get _ _); [|done]. simpl. induction (entries c) as [|[k x] es IH]; simpl; [done|].
  case_decide; set_solver.
Qed.

Lemma lookup_spec p sig c rs c' :
  cache_wf c → bounded c → lookup p sig c = Some (rs, c') →
  cache_wf c' ∧ bounded c' ∧ (∃ e, (p, e) ∈ entries c ∧ signature e = sig ∧ records e = rs) ∧
  (∀ q e, (q, e) ∈ entries c' → (q, e) ∈ entries c).
Proof.
  intros [W1 W2 W3] [B1 B2]. unfold lookup. destruct (map_get _ _) as [e|] eqn:E; [|done].
  destruct (N.eqb_spec (signature e) sig) as [He|]; [|done]. intros [= <- <-].
  assert (map_get (map_delete (entries c) p) p = None) as Hn by (by apply map_get_delete_eq).
  rewrite (set_new _ _ _ Hn). apply map_get_Some_in in E as Hin.
  assert (length (map_delete (entries c) p) + 1 = length (entries c))%nat as Hlen.
  { clear -E. induction (entries c) as [|[k x] es IH]; simpl in *; [done|]. case_decide; simpl; [lia|]. rewrite IH by done. done. }
  split; [|split; [|split; [by exists e|]]].
  - split; simpl.
    + rewrite fmap_app. apply NoDup_app. split; [by apply map_delete_NoDup|]. split; [|apply NoDup_singleton].
      intros q Hq Hq'. apply list_elem_of_singleton in Hq' as ->. by apply map_get_None in Hn.
    + rewrite sum_app, (delete_sum _ _ e) by done. simpl. lia.
    + apply Forall_app. split; [by apply delete_Forall|]. constructor; [|constructor]. rewrite Forall_forall in W3. by apply (W3 _ Hin).
  - split; simpl; [done|]. rewrite length_app. simpl. lia.
  - simpl. intros q x [Hx|Hx]%elem_of_app.
    + clear -Hx. induction (entries c) as [|[k y] es IH]; simpl in *; [done|]. case_decide; set_solver.
    + apply list_elem_of_singleton in Hx. by injection Hx as -> ->.
Qed.

Lemma byteLength_nonneg text : 0 ≤ byteLength text.
Proof. unfold byteLength. lia. Qed.

(** A step of a reader: the bounds, and the records. *)
Lemma reader_step_within s ok torn r p c : within s → (∀ b rs n, at_ r = Parsed b rs n → 0 ≤ n) →
  reader_step (files s) ok torn r (shared s) = (p, c) → cache_wf c ∧ bounded c ∧ (∀ b rs n, p = Parsed b rs n → 0 ≤ n).
Proof.
  intros [Hc Hb _] Hr Hs. unfold reader_step, failed in Hs.
  destruct (at_ r) as [|b|b v|b rs n|out]; destruct (if ok then files s !! path r else None) as [f|];
    try (injection Hs as <- <-; split_and!; [done|done|naive_solver]);
    try (injection Hs as <- <-; split_and!; [by apply forget_wf|by apply forget_bounded|done]).
  - destruct (lookup _ _ _) as [[rs c']|] eqn:El; injection Hs as <- <-.
    + by destruct (lookup_spec _ _ _ _ _ Hc Hb El) as (? & ? & _).
    + split_and!; [by apply forget_wf|by apply forget_bounded|done].
  - destruct (parse _ _) as [rs|]; injection Hs as <- <-.
    + split_and!; [done|done|]. intros ? ? ? [= _ _ <-]. apply byteLength_nonneg.
    + split_and!; [by apply forget_wf|by apply forget_bounded|done].
  - injection Hs as <- <-. specialize (Hr _ _ _ eq_refl). destruct (_ && _) eqn:E; [|done]. bools.
    by destruct (save_spec (path r) (mkEntry (f_signature f) n rs) (shared s)) as (? & ? & _).
Qed.

Lemma perform_within s l s' : within s → perform s l = Some s' → within s'.
Proof.
  intros Hw. pose proof Hw as [Hc Hb Hr]. destruct l as [p new|t p|t ok torn]; simpl.
  - intros [= <-]. by split.
  - destruct (readers s !! t) eqn:E; [done|]. intros [= <-]. split; simpl; [done..|].
    intros t' r b rs n Hl. destruct (decide (t = t')) as [->|Hne]; [rewrite lookup_insert_eq in Hl; by injection Hl as <-|].
    rewrite lookup_insert_ne in Hl by done. eauto.
  - destruct (readers s !! t) as [r|] eqn:E; [|done]. simpl. destruct (reader_step _ _ _ _ _) as [p c] eqn:Es. intros [= <-].
    destruct (reader_step_within s ok torn r p c Hw) as (? & ? & Hn); [eauto|done|]. split; simpl; [done..|].
    intros t' r' b rs n Hl. destruct (decide (t = t')) as [->|Hne]; [rewrite lookup_insert_eq in Hl; injection Hl as <-; apply Hn|].
    rewrite lookup_insert_ne in Hl by done. eauto.
Qed.

Lemma performs_within s ls s' : within s → performs s ls = Some s' → within s'.
Proof.
  revert s. induction ls as [|l ls IH]; intros s Hw; simpl; [by intros [= <-]|].
  destruct (perform s l) as [s1|] eqn:E; [|done]. apply IH. by eapply perform_within.
Qed.

Lemma initial_within : within initial.
Proof. split; simpl; [split; simpl; [constructor|done|constructor]|split; simpl; lia|done]. Qed.

Lemma reader_step_ok past s ok torn r p c :
  state_ok past s → reader_ok (files s) past r → reader_step (files s) ok torn r (shared s) = (p, c) →
  (∀ q e, (q, e) ∈ entries c → entry_ok (files s) past q e) ∧ reader_ok (files s) past (mkReader (path r) p).
Proof.
  intros [Hw He Hf _] Hr Hs.
  assert (∀ q e, (q, e) ∈ entries (forget (path r) (shared s)) → entry_ok (files s) past q e) as Hforget.
  { intros q e Hin%forget_entries. auto. }
  unfold reader_step, failed in Hs. unfold reader_ok in Hr.
  destruct (at_ r) as [|b|b v|b rs n|out]; destruct (if ok then files s !! path r else None) as [f|] eqn:Ef;
    try (injection Hs as <- <-; by split); try (assert (files s !! path r = Some f) as Hl by (by destruct ok)).
  - destruct (lookup _ _ _) as [[rs c']|] eqn:El; injection Hs as <- <-.
    + destruct (lookup_spec _ _ _ _ _ (wi_cache _ Hw) (wi_bounded _ Hw) El) as (_ & _ & _ & Hin). split; [auto|done].
    + split; [done|]. by apply Hf.
  - injection Hs as <- <-. split; [done|]. split; [done|]. simpl. intros f' Hf' _. congruence.
  - destruct (parse _ _) as [rs|] eqn:Ep; injection Hs as <- <-; [|done]. split; [done|]. destruct Hr as [Hb Hv]. split; [done|].
    simpl. intros f' Hf' Hsig. replace f' with f in * by congruence. by rewrite (Hv f Hl Hsig), N.eqb_refl in Ep.
  - injection Hs as <- <-. split; [|done]. destruct Hr as [Hb Hp].
    destruct (N.eqb_spec b (f_signature f)) as [->|]; [|done]. destruct (Z.leb_spec n maxBytes); [|done]. cbn [andb].
    intros q e [Hq|[= -> ->]]%save_entries; [auto|done].
Qed.

Lemma perform_ok past s l s' : renewed past [l] → state_ok past s → perform s l = Some s' → state_ok (had past l) s'.
Proof.
  intros Hn Hok Hp. pose proof Hok as [Hw He Hf Hr]. pose proof (perform_within _ _ _ Hw Hp) as Hw'.
  destruct l as [p new|t p|t ok torn]; simpl in Hp.
  - injection Hp as <-. split; [done|..]; simpl.
    + intros q e Hin. apply change_current; [done|by apply He].
    + intros q f [Hl|[-> [text ->]]]%file_after_lookup; [apply (had_past past (Change p new)); auto|set_solver].
    + intros t r Hl. apply change_reader; eauto.
  - destruct (readers s !! t) eqn:E; [done|]. injection Hp as <-. split; [done|done|done|]. simpl.
    intros t' r Hl. destruct (decide (t = t')) as [->|Hne]; [rewrite lookup_insert_eq in Hl; by injection Hl as <-|].
    rewrite lookup_insert_ne in Hl by done. eauto.
  - destruct (readers s !! t) as [r|] eqn:E; [|done]. simpl in Hp. destruct (reader_step _ _ _ _ _) as [p c] eqn:Es. injection Hp as <-.
    destruct (reader_step_ok past s ok torn r p c Hok (Hr _ _ E) Es) as (? & Hro). split; [done|done|done|]. simpl.
    intros t' r' Hl. destruct (decide (t = t')) as [->|Hne]; [rewrite lookup_insert_eq in Hl; by injection Hl as <-|].
    rewrite lookup_insert_ne in Hl by done. eauto.
Qed.

Lemma performs_ok past s ls s' : renewed past ls → state_ok past s → performs s ls = Some s' → state_ok (foldl had past ls) s'.
Proof.
  revert past s. induction ls as [|l ls IH]; intros past s Hn Hok; simpl; [by intros [= <-]|]. destruct Hn as [Hl Hn].
  destruct (perform s l) as [s1|] eqn:E; [|done]. apply IH; [done|]. by eapply perform_ok.
Qed.

Lemma initial_ok : state_ok ∅ initial.
Proof. split; [apply initial_within|by intros p e ?%not_elem_of_nil|done|done]. Qed.

(** The cache stays within its bounds. After any reads, of any paths and
    however interleaved, failing or disturbed by changes of the files, its byte count is
    exactly that of its entries, no path has two entries, and there are at most
    [maxBytes] bytes and [maxFiles] entries (one, when that is less than one). *)
Theorem cache_bounded (ls : list label) (s : state) :
  performs initial ls = Some s →
  NoDup (entries (shared s)).*1 ∧ total (shared s) = sum_bytes (entries (shared s)) ∧ total (shared s) ≤ Z.max 0 maxBytes ∧
  Z.of_nat (length (entries (shared s))) ≤ Z.max 1 maxFiles.
Proof. intros Hs. destruct (performs_within _ _ _ initial_within Hs) as [[? ? _] [? ?] _]. done. Qed.

(** ** A read is the read of the file *)

(** What an undisturbed reader has read of its file. *)
Definition tracks (f : option file) (r : reader) : Prop :=
  match at_ r with
  | Begin => True
  | Missed b => ∃ v text, f = Some (mkFile b v text)
  | Opened b v => ∃ text, f = Some (mkFile b v text)
  | Parsed b rs n => rs = uncached (path r) f
  | Done out => out = uncached (path r) f
  end.

(** The steps it has left. *)
Definition rank (p : pc) : nat := match p with Begin => 4 | Missed _ => 3 | Opened _ _ => 2 | Parsed _ _ _ => 1 | Done _ => 0 end.

Lemma reader_step_tracks past s torn r p c :
  state_ok past s → tracks (files s !! path r) r → reader_step (files s) true torn r (shared s) = (p, c) →
  tracks (files s !! path r) (mkReader (path r) p) ∧ (rank p ≤ rank (at_ r) - 1)%nat.
Proof.
  intros Hok Ht Hs. unfold reader_step, failed in Hs. unfold tracks in Ht. pose proof (so_within _ _ Hok) as [Hc Hb _].
  destruct (at_ r) as [|b|b v|b rs n|out]; destruct (files s !! path r) as [[sig ver text]|] eqn:Ef;
    try (by destruct Ht as (? & ? & ?)); try (by destruct Ht as (? & ?));
    try (injection Hs as <- <-; (split; [done|simpl; lia])).
  - destruct (lookup _ _ _) as [[rs c']|] eqn:El; injection Hs as <- <-; (split; [|simpl; lia]); unfold tracks; simpl; [|by eexists _, _].
    destruct (lookup_spec _ _ _ _ _ Hc Hb El) as (_ & _ & (e & Hin & He & Hrs) & _).
    destruct (so_entries _ _ Hok _ _ Hin) as [_ Hp]. specialize (Hp _ Ef (eq_sym He)). simpl in Hp. by rewrite Hp, Hrs.
  - injection Hs as <- <-. destruct Ht as (v & x & [= <- <- <-]). split; [by eexists|simpl; lia].
  - destruct Ht as (x & [= <- <- <-]). simpl in Hs. rewrite N.eqb_refl in Hs.
    destruct (parse _ _) as [rs|] eqn:Ep; injection Hs as <- <-; (split; [|simpl; lia]); unfold tracks; simpl; by rewrite Ep.
Qed.

Definition is_step (t : N) (l : label) : bool := match l with Step t' _ _ => (t' =? t)%N | _ => false end.

(** The label leaves the file at [p] and the accesses of [t] alone. *)
Definition undisturbed (t : N) (p : jsstring) (l : label) : bool :=
  match l with Change q _ => negb (js_eqb q p) | Step t' ok _ => negb (t' =? t)%N || ok | Read _ _ => true end.

Lemma step_of_other s s1 t t' ok torn r : (t' =? t)%N = false → perform s (Step t' ok torn) = Some s1 →
  readers s !! t = Some r → readers s1 !! t = Some r.
Proof.
  intros Ht E Hr. simpl in E. destruct (readers s !! t'); [|done]. simpl in E. destruct (reader_step _ _ _ _ _). injection E as <-.
  simpl. rewrite lookup_insert_ne; [done|]. by apply N.eqb_neq in Ht.
Qed.

(** What an undisturbed label does: not to the file, nor to another reader. *)
Lemma undisturbed_file s s1 t p l : undisturbed t p l = true → perform s l = Some s1 → files s1 !! p = files s !! p.
Proof.
  intros Hl E. destruct l as [q new|u q|u ok torn]; simpl in E.
  - injection E as <-. simpl in *. unfold file_after. bools. destruct new as [[sig text]|]; [by rewrite lookup_insert_ne|by rewrite lookup_delete_ne].
  - destruct (readers s !! u); [done|]. by injection E as <-.
  - destruct (readers s !! u); [|done]. simpl in E. destruct (reader_step _ _ _ _ _). by injection E as <-.
Qed.

Lemma undisturbed_reader s s1 t r l : is_step t l = false → perform s l = Some s1 → readers s !! t = Some r →
  readers s1 !! t = Some r.
Proof.
  intros El E Hr. destruct l as [q new|u q|u ok torn].
  - simpl in E. by injection E as <-.
  - simpl in E. destruct (readers s !! u) eqn:Eu; [done|]. injection E as <-. simpl. rewrite lookup_insert_ne; [done|]. intros ->. congruence.
  - by eapply step_of_other.
Qed.

Lemma performs_tracks past ls s s' t r :
  renewed past ls → state_ok past s → forallb (undisturbed t (path r)) ls = true → readers s !! t = Some r →
  tracks (files s !! path r) r → performs s ls = Some s' →
  ∃ p, readers s' !! t = Some (mkReader (path r) p) ∧ tracks (files s !! path r) (mkReader (path r) p) ∧
    (rank p ≤ rank (at_ r) - length (List.filter (is_step t) ls))%nat.
Proof.
  revert past s r. induction ls as [|l ls IH]; intros past s r Hn Hok Hu Hr Ht; simpl; [intros [= <-]|].
  { exists (at_ r). destruct r. simpl in *. split; [done|]. split; [done|lia]. }
  destruct Hn as [Hnl Hn]. simpl in Hu. apply andb_true_iff in Hu as [Hl Hu].
  destruct (perform s l) as [s1|] eqn:E; [|done]. intros Hp.
  pose proof (perform_ok past _ _ _ (conj Hnl I) Hok E) as Hok1. pose proof (undisturbed_file _ _ _ _ _ Hl E) as Hf.
  rewrite <-Hf. rewrite <-Hf in Ht. destruct (is_step t l) eqn:El; simpl; [|by eapply IH; try done; eapply undisturbed_reader].
  destruct l as [| |u ok torn]; try done. simpl in El. apply N.eqb_eq in El as ->. simpl in Hl. rewrite N.eqb_refl in Hl.
  simpl in Hl. rewrite Hl in E. simpl in E. rewrite Hr in E. simpl in E.
  destruct (reader_step _ _ _ _ _) as [p c] eqn:Es. injection E as <-. simpl in *.
  destruct (reader_step_tracks past s torn r p c Hok Ht Es) as [Ht' Hrank].
  destruct (IH _ _ (mkReader (path r) p) Hn Hok1 Hu (lookup_insert_eq _ _ _) Ht' Hp) as (p' & ? & ? & Hp').
  exists p'. split; [done|]. split; [done|]. simpl in Hp'. lia.
Qed.

(** C32: A cached read is an uncached one, as long as no file gets a signature
    (device, inode, size and times) back that it had before. Under that
    assumption on the file system, whatever else was read and changed before,
    and whatever other readers do and other files undergo meanwhile: a read
    whose file does not change while it runs and whose accesses do not fail has,
    after four steps of its own, exactly the records that parsing the file
    gives (none, when the file is missing or does not parse). Where a change
    keeps the signature, the read can have the records of the old text
    ([stale_hit]). *)
Theorem cached_read_equivalent (history ls : list label) (s s' : state) (t : N) (p : jsstring) :
  renewed ∅ (history ++ ls) →
  performs initial history = Some s → readers s !! t = Some (mkReader p Begin) → forallb (undisturbed t p) ls = true →
  performs s ls = Some s' → (4 ≤ length (List.filter (is_step t) ls))%nat →
  readers s' !! t = Some (mkReader p (Done (uncached p (files s !! p)))).
Proof.
  intros [Hh' Hn']%renewed_app Hh Hr Hu Hp Hn. pose proof (performs_ok _ _ _ _ Hh' initial_ok Hh) as Hok.
  destruct (performs_tracks _ ls s s' t (mkReader p Begin) Hn' Hok Hu Hr I Hp) as (q & Hq & Ht & Hrank). simpl in *.
  rewrite Hq. destruct q; simpl in Hrank; try lia. unfold tracks in Ht. simpl in Ht. by rewrite Ht.
Qed.
End cache.

(** ** Examples *)

Module Demo.

(** A line is a record; the text [x] does not parse. *)
Definition parse (p text : jsstring) : option (list jsstring) := if js_eqb text (js "x") then None else Some [text].

Definition a : jsstring := js "a".

(** A file that was read, changed, and is in the cache with its new text. *)
Definition history : list (label) :=
  [Change a (Some (10%N, js "one")); Read 1 a; Step 1 true []; Step 1 true []; Step 1 true []; Step 1 true [];
   Change a (Some (11%N, js "two")); Read 2 a; Step 2 true []; Step 2 true []; Step 2 true []; Step 2 true []; Read 3 a; Read 4 (js "b")].

Definition before : state := default initial (performs parse 1 10 initial history).

(** A hit, with another reader and another file around it. *)
Definition more : list label :=
  [Step 4 false []; Step 3 true []; Change (js "b") (Some (10%N, js "x")); Step 3 true []; Step 3 true []; Step 3 true []].

Definition after : state := default initial (performs parse 1 10 before more).

Lemma renewed_history : renewed ∅ (history ++ more).
Proof. cbn. set_solver. Qed.

(** A text replaced by one of the same length within a tick of the clock: the
    signature is the same, and the reader is given the old records. *)
Definition tick : list label :=
  [Change a (Some (10%N, js "one")); Read 1 a; Step 1 true []; Step 1 true []; Step 1 true []; Step 1 true [];
   Change a (Some (10%N, js "two")); Read 2 a; Step 2 true []; Step 2 true []; Step 2 true []; Step 2 true []].
Lemma stale_hit :
  let s := default initial (performs parse 1 10 initial tick) in
  readers s !! 2%N = Some (mkReader a (Done [js "one"])) ∧ uncached parse a (files s !! a) = [js "two"].
Proof. by vm_compute. Qed.

Lemma cache_bounded_witness :
  NoDup (entries (shared before)).*1 ∧ total (shared before) = sum_bytes (entries (shared before)) ∧
  total (shared before) ≤ Z.max 0 10 ∧ Z.of_nat (length (entries (shared before))) ≤ Z.max 1 1.
Proof. apply (cache_bounded parse 1 10 history before). vm_compute. reflexivity. Defined.

Lemma cached_read_equivalent_witness :
  uncached parse a (files before !! a) = [js "two"] ∧ readers after !! 3%N = Some (mkReader a (Done (uncached parse a (files before !! a)))).
Proof.
  split; [vm_compute; reflexivity|].
  apply (cached_read_equivalent parse 1 10 history more before after 3 a).
  - apply renewed_history.
  - vm_compute. reflexivity.
  - vm_compute. reflexivity.
  - vm_compute. reflexivity.
  - vm_compute. reflexivity.
  - apply (bool_decide_unpack _). vm_compute. exact Logic.I.
Defined.
End Demo.
End HistoryCache.
