(* ===== verification/AccessPaths.v ===== *)
(** * Paths of the access policy

    [src/worker-core/access-control/domain/access-control-path-policy.ts]: the
    lexical questions the access policy asks about paths, branches and remotes.
    [node:path] is modelled for a POSIX host; [process.cwd()], the directory a
    relative path is resolved against, is an argument.

    The theory reduces them to segments: [pathInside] compares the segments of
    two resolved paths and not their characters. *)

From stdpp Require Import base numbers option sets strings list.
From S2P Require Import Prelude Json IntegrationAttempt.

Module AccessPaths.
Import Integration(slash, backslash, split_slash, has, replace_backslashes, dedup_from, new_Set, dot, dotdot,
  isAbsolute, push_segment, normal_segments, ends_slash).

Section Paths.
Context (cwd : jsstring).

(** [resolve] of [node:path] with one argument. *)
Definition resolve (p : jsstring) : jsstring :=
  slash :: js_join [slash] (normal_segments false (split_slash (if isAbsolute p then p else cwd ++ [slash] ++ p))).

Definition stripTrailingSeparator (p : jsstring) : jsstring :=
  if (1 <? length p)%nat && ends_slash p then removelast p else p.

Definition normalizePath (p : jsstring) : jsstring := stripTrailingSeparator (resolve p).

Definition normalizePathOrNull (p : jsstring) : option jsstring :=
  if negb (truthy (js_trim p)) || negb (isAbsolute p) then None else Some (normalizePath p).

Definition pathInside (p root : jsstring) : bool :=
  let normalizedPath := normalizePath p in
  let normalizedRoot := normalizePath root in
  js_eqb normalizedPath normalizedRoot || starts_with (normalizedRoot ++ [slash]) normalizedPath.

Definition pathInsideAnyRoot (p : jsstring) (roots : list jsstring) : bool := existsb (pathInside p) roots.

(** [split(/[\\/]+/)] up to empty segments, which no caller looks for. *)
Definition hasPathSegment (p segment : jsstring) : bool :=
  has segment (split_slash (replace_backslashes (normalizePath p))).

Definition dockerSocketPath (p : jsstring) : bool :=
  starts_with (rev (js "/docker.sock")) (rev (normalizePath p)).

(** The caller names its reasons. *)
Record Reasons (R : Type) : Type := mkReasons {
  authPathDenied : R; dockerSocketDenied : R; gitInternalPathDenied : R; registryRawWriteDenied : R }.
Arguments mkReasons {R}. Arguments authPathDenied {R}. Arguments dockerSocketDenied {R}.
Arguments gitInternalPathDenied {R}. Arguments registryRawWriteDenied {R}.

Definition sensitiveAccessPathDecision {R} (p : jsstring) (deniedRoots : list jsstring)
    (registryRoot : option jsstring) (denyRegistryRawWrite : bool) (reasons : Reasons R)
    : option (R * list jsstring) :=
  if pathInsideAnyRoot p deniedRoots then
    Some (if dockerSocketPath p then dockerSocketDenied reasons else authPathDenied reasons,
          [js "path is in a denied root"])
  else if hasPathSegment p (js ".git") then
    Some (gitInternalPathDenied reasons, [js "direct .git internals access is not allowed"])
  else match (if denyRegistryRawWrite then truthy_opt registryRoot else None) with
       | Some root =>
           if pathInside p root
           then Some (registryRawWriteDenied reasons,
                      [js "registry writes must go through project control broker operations"])
           else None
       | None => None
       end.

End Paths.

Arguments mkReasons {R}. Arguments authPathDenied {R}. Arguments dockerSocketDenied {R}.
Arguments gitInternalPathDenied {R}. Arguments registryRawWriteDenied {R}.

Definition matchesAnyPrefix (value : jsstring) (prefixes : list jsstring) : bool :=
  (0 <? length prefixes)%nat && existsb (λ p, starts_with p value) prefixes.

Definition star : N := 42%N.

Definition matchesPattern (value pattern : jsstring) : bool :=
  if bool_decide (last pattern = Some star) then starts_with (removelast pattern) value
  else js_eqb value pattern.

Definition matchesAnyPattern (value : jsstring) (patterns : list jsstring) : bool :=
  (0 <? length patterns)%nat && existsb (matchesPattern value) patterns.

(** [value.indexOf("/")]. *)
Fixpoint indexOf_slash (s : jsstring) : option nat :=
  match s with
  | [] => None
  | c :: s' => if (c =? slash)%N then Some O else S <$> indexOf_slash s'
  end.

Definition parseRemoteTrackingBranch (value : jsstring) : option (jsstring * jsstring) :=
  match indexOf_slash value with
  | None | Some O => None
  | Some i => if (i =? length value - 1)%nat then None else Some (take i value, drop (S i) value)
  end.

Definition uniqueStrings (values : list jsstring) : list jsstring :=
  new_Set (List.filter (λ v, truthy (js_trim v)) values).

Example path_tests :
  let inside := pathInside (js "/home/me") in
  map (λ '(p, r), inside (js p) (js r))
    [("/w/a/b", "/w/a"); ("/w/ab", "/w/a"); ("/w/a/../../etc", "/w"); ("/w/a/", "/w/a"); ("x/../y", "/home/me/y");
     ("/w", "/"); ("/", "/")]%string
  = [true; false; false; true; true; false; true].
Proof. by vm_compute. Qed.

Example pattern_tests :
  (matchesAnyPattern (js "feature/x") [js "main"; js "feature/*"],
   matchesAnyPattern (js "main2") [js "main"], matchesAnyPattern (js "x") [],
   parseRemoteTrackingBranch (js "origin/main"), parseRemoteTrackingBranch (js "main/"))
  = (true, false, false, Some (js "origin", js "main"), None).
Proof. by vm_compute. Qed.

(** ** Segments of resolved paths *)

Import Integration(no_slash, split_slash_spec, split_join, join_nonempty, ends_slash_join, has_true, has_false,
  split_slash_app, elem_of_dedup_from).

(** A segment that stands for a directory entry. *)
Record entry (s : jsstring) : Prop := {
  en_slash : no_slash s; en_empty : s ≠ []; en_dot : s ≠ dot; en_dotdot : s ≠ dotdot }.

Section Theory.
Context (cwd : jsstring).

#[local] Abbreviation join := (js_join [slash]).

Definition segments (p : jsstring) : list jsstring :=
  normal_segments false (split_slash (if isAbsolute p then p else cwd ++ [slash] ++ p)).

Lemma push_segment_entry stack s : Forall entry stack → no_slash s → Forall entry (push_segment false stack s).
Proof.
  intros Hst Hs. unfold push_segment.
  destruct (js_eqb s []) eqn:E1; [done|]. destruct (js_eqb s dot) eqn:E2; [done|]. simpl. bools.
  destruct (js_eqb s dotdot) eqn:E3; [|bools; by constructor].
  destruct stack as [|top stack]; [done|]. destruct (js_eqb top dotdot); [done|]. by inversion Hst.
Qed.

Lemma normal_segments_entries segs : Forall no_slash segs → Forall entry (normal_segments false segs).
Proof.
  intros Hs. unfold normal_segments. apply Forall_rev.
  assert (∀ stack, Forall entry stack → Forall entry (foldl (push_segment false) stack segs)) as H; [|by apply H].
  induction Hs as [|s segs Hn _ IH]; intros stack Hst; simpl; [done|]. by apply IH, push_segment_entry.
Qed.

Lemma segments_entries p : Forall entry (segments p).
Proof. apply normal_segments_entries. by destruct (split_slash_spec (if isAbsolute p then p else cwd ++ [slash] ++ p)) as (_ & ? & _). Qed.

Lemma push_entry stack s : entry s → push_segment false stack s = s :: stack.
Proof. intros []. unfold push_segment. by rewrite !(proj2 (js_eqb_false _ _)) by done. Qed.

Lemma normal_segments_of_entries segs : Forall entry segs → normal_segments false segs = segs.
Proof.
  intros H. unfold normal_segments.
  assert (∀ stack, foldl (push_segment false) stack segs = rev segs ++ stack) as ->.
  { induction H as [|s segs Hs _ IH]; intros stack; simpl; [done|]. by rewrite push_entry, IH, <- app_assoc. }
  by rewrite app_nil_r, rev_involutive.
Qed.

Lemma split_join_entries segs : Forall entry segs → segs ≠ [] → split_slash (join segs) = segs.
Proof. intros H ?. apply split_join; [done|]. apply (Forall_impl _ _ _ H). by intros ? []. Qed.

Lemma join_entries_nonempty segs : Forall entry segs → segs ≠ [] → join segs ≠ [].
Proof. intros H ?. apply join_nonempty; [done|]. apply (Forall_impl _ _ _ H). by intros ? []. Qed.

Lemma join_entries_inj segs segs' : Forall entry segs → Forall entry segs' → join segs = join segs' → segs = segs'.
Proof.
  intros H H' Heq. destruct (decide (segs = [])) as [->|], (decide (segs' = [])) as [->|]; [done|..].
  - by destruct (join_entries_nonempty segs').
  - by destruct (join_entries_nonempty segs).
  - rewrite <- (split_join_entries segs), Heq by done. by apply split_join_entries.
Qed.

Lemma normalizePath_segments p : normalizePath cwd p = slash :: join (segments p).
Proof.
  unfold normalizePath, stripTrailingSeparator. change (resolve cwd p) with (slash :: join (segments p)).
  pose proof (segments_entries p) as Hs. destruct (decide (segments p = [])) as [->|Hne]; [done|].
  pose proof (join_entries_nonempty _ Hs Hne) as Hj.
  assert (ends_slash (join (segments p)) = false) as He.
  { apply ends_slash_join; [done|]. apply (Forall_impl _ _ _ Hs). by intros ? []. }
  unfold ends_slash in *. destruct (join (segments p)) as [|c j] eqn:E; [done|].
  replace (last (slash :: c :: j)) with (last (c :: j)) by done. by rewrite He, andb_false_r.
Qed.

(** Only the segments of a path matter. *)
Lemma normalizePath_eq p q : normalizePath cwd p = normalizePath cwd q ↔ segments p = segments q.
Proof.
  rewrite !normalizePath_segments. split; [|by intros ->]. intros [= H].
  apply join_entries_inj in H; [done|apply segments_entries..].
Qed.

Lemma split_normalizePath p : split_slash (normalizePath cwd p) = [] :: match segments p with [] => [[]] | segs => segs end.
Proof.
  rewrite normalizePath_segments. cbn. f_equal. pose proof (split_join_entries (segments p) (segments_entries p)) as H.
  destruct (segments p); [done|by apply H].
Qed.

Lemma segments_normalizePath p : segments (normalizePath cwd p) = segments p.
Proof.
  unfold segments at 1. rewrite (normalizePath_segments p) at 1. cbn [isAbsolute]. rewrite N.eqb_refl.
  rewrite split_normalizePath. pose proof (segments_entries p) as Hs.
  change (normal_segments false ([] :: ?l)) with (normal_segments false l).
  destruct (segments p) as [|s segs] eqn:E; [done|]. rewrite <- E in *. by apply normal_segments_of_entries.
Qed.

Lemma starts_with_spec p s : starts_with p s = true ↔ ∃ t, s = p ++ t.
Proof.
  split; [|intros [t ->]; apply starts_with_app].
  revert s. induction p as [|c p IH]; intros s; simpl; [eauto|]. destruct s as [|d s]; [done|].
  intros [->%N.eqb_eq [t ->]%IH]%andb_true_iff. by exists t.
Qed.

Lemma join_app segs segs' : segs ≠ [] → segs' ≠ [] → join (segs ++ segs') = join segs ++ slash :: join segs'.
Proof.
  intros Hs Hs'. induction segs as [|s [|t segs] IH]; [done| |].
  - by destruct segs'.
  - change (join ((s :: t :: segs) ++ segs')) with (s ++ slash :: join ((t :: segs) ++ segs')).
    rewrite IH by done. change (join (s :: t :: segs)) with (s ++ slash :: join (t :: segs)). by rewrite <- app_assoc.
Qed.

Lemma split_slash_app_join segs t : Forall entry segs → segs ≠ [] → split_slash (join segs ++ slash :: t) = segs ++ split_slash t.
Proof.
  intros H Hne. induction H as [|s segs Hs H IH]; [done|]. destruct segs as [|s' segs].
  - apply split_slash_app. by destruct Hs.
  - change (join (s :: s' :: segs)) with (s ++ slash :: join (s' :: segs)). rewrite <- app_assoc, <- app_comm_cons.
    rewrite split_slash_app by by destruct Hs. by rewrite IH.
Qed.

(** The question [pathInside] decides: the root is the path, or it is not the
    root directory and its segments start the segments of the path. *)
Lemma pathInside_spec p root : pathInside cwd p root = true ↔
  segments p = segments root ∨ (segments root ≠ [] ∧ ∃ rest, segments p = segments root ++ rest).
Proof.
  unfold pathInside. rewrite orb_true_iff, js_eqb_true, normalizePath_eq, starts_with_spec, !normalizePath_segments.
  pose proof (segments_entries p) as Hp. pose proof (segments_entries root) as Hr.
  split; (intros [?|H]; [by left|]).
  - destruct H as [t [= H]]. destruct (decide (segments root = [])) as [E|Hne].
    { exfalso. rewrite E in H. simpl in H. pose proof (split_join_entries _ Hp) as Hsp.
      destruct (decide (segments p = [])) as [Ep|Hne]; [by rewrite Ep in H|]. specialize (Hsp Hne). rewrite H in Hsp. cbn in Hsp.
      rewrite <- Hsp in Hp. inversion_clear Hp as [|? ? Hen]. by destruct Hen. }
    right. split; [done|]. exists (split_slash t). rewrite <- split_slash_app_join by done.
    assert (join (segments p) = join (segments root) ++ slash :: t) as <- by (rewrite H; by rewrite <- app_assoc).
    symmetry. apply split_join_entries; [done|].
    intros E. rewrite E in H. simpl in H. by destruct (join (segments root)).
  - destruct H as (Hne & rest & H). destruct (decide (rest = [])) as [->|Hrest]; [left; by rewrite app_nil_r in H|].
    right. exists (join rest). rewrite H, join_app by done. by rewrite <- app_assoc.
Qed.

(** Going to the normal form first changes nothing. *)
Lemma pathInside_normal p root : pathInside cwd (normalizePath cwd p) root = pathInside cwd p root.
Proof. apply eq_true_iff_eq. by rewrite !pathInside_spec, !segments_normalizePath. Qed.
Lemma pathInside_normal_root p root : pathInside cwd p (normalizePath cwd root) = pathInside cwd p root.
Proof. apply eq_true_iff_eq. by rewrite !pathInside_spec, !segments_normalizePath. Qed.

Lemma pathInsideAnyRoot_true p roots : pathInsideAnyRoot cwd p roots = true ↔ ∃ root, root ∈ roots ∧ pathInside cwd p root = true.
Proof. unfold pathInsideAnyRoot. rewrite existsb_exists. by setoid_rewrite list_elem_of_In. Qed.

Lemma pathInsideAnyRoot_normal p roots : pathInsideAnyRoot cwd (normalizePath cwd p) roots = pathInsideAnyRoot cwd p roots.
Proof. unfold pathInsideAnyRoot. induction roots as [|r roots IH]; simpl; [done|]. by rewrite pathInside_normal, IH. Qed.
Lemma pathInsideAnyRoot_normal_roots p roots : pathInsideAnyRoot cwd p (map (normalizePath cwd) roots) = pathInsideAnyRoot cwd p roots.
Proof. unfold pathInsideAnyRoot. induction roots as [|r roots IH]; simpl; [done|]. by rewrite pathInside_normal_root, IH. Qed.

Lemma pathInside_refl p : pathInside cwd p p = true.
Proof. apply pathInside_spec. by left. Qed.

Lemma pathInside_trans p q r : pathInside cwd p q = true → pathInside cwd q r = true → pathInside cwd p r = true.
Proof.
  rewrite !pathInside_spec. intros [->|(Hq & rest & ->)]; [done|]. intros [<-|(Hr & rest' & Heq)].
  - right. eauto.
  - right. split; [done|]. exists (rest' ++ rest). by rewrite Heq, app_assoc.
Qed.

(** A [.git] segment of a path is found. *)
Lemma split_slash_any s t : split_slash (s ++ slash :: t) = split_slash s ++ split_slash t.
Proof.
  induction s as [|c s IH]; [done|]. cbn [app split_slash]. destruct (c =? slash)%N; [by rewrite IH|].
  rewrite IH. destruct (split_slash_spec s) as (Hne & _). by destruct (split_slash s).
Qed.

(** Splitting and joining. *)
Lemma join_split s : join (split_slash s) = s.
Proof.
  induction s as [|c s IH]; [done|]. simpl. destruct (split_slash_spec s) as (Hne & _).
  destruct (N.eqb_spec c slash) as [->|_]; destruct (split_slash s) as [|g [|g' r]] eqn:E; try done; simpl in *; by rewrite <- IH.
Qed.

Lemma split_replace_join segs seg : seg ≠ [] →
  seg ∈ split_slash (replace_backslashes (join segs)) ↔ ∃ s, s ∈ segs ∧ seg ∈ split_slash (replace_backslashes s).
Proof.
  intros Hne. induction segs as [|s [|s' segs] IH].
  - cbn. set_solver.
  - cbn [js_join]. set_solver.
  - change (join (s :: s' :: segs)) with (s ++ slash :: join (s' :: segs)).
    unfold replace_backslashes in *. rewrite map_app, map_cons. change (if (slash =? backslash)%N then slash else slash) with slash.
    rewrite split_slash_any, elem_of_app, IH. set_solver.
Qed.

(** Cut at slashes and backslashes, a part of the path is [seg]. *)
Lemma hasPathSegment_true p seg : seg ≠ [] →
  hasPathSegment cwd p seg = true ↔ ∃ s, s ∈ segments p ∧ seg ∈ split_slash (replace_backslashes s).
Proof.
  intros Hne. unfold hasPathSegment. rewrite has_true, normalizePath_segments.
  unfold replace_backslashes at 1. rewrite map_cons. change (if (slash =? backslash)%N then slash else slash) with slash.
  change (slash :: ?l) with ([] ++ slash :: l). rewrite split_slash_any, elem_of_app.
  setoid_rewrite (split_replace_join (segments p) seg Hne). cbn. set_solver.
Qed.

Lemma hasPathSegment_segments p seg : seg ∈ segments p → (backslash ∉ seg) → hasPathSegment cwd p seg = true.
Proof.
  intros Hin Hb. pose proof (segments_entries p) as Hs. rewrite Forall_forall in Hs. destruct (Hs seg Hin).
  apply hasPathSegment_true; [done|]. exists seg. split; [done|].
  rewrite Integration.replace_backslashes_id, Integration.split_no_slash by done. left.
Qed.
End Theory.

(** ** Patterns *)

(** A name is one of the patterns, or starts with what one has before its star. *)
Definition matches (value : jsstring) (patterns : list jsstring) : Prop :=
  ∃ pattern, pattern ∈ patterns ∧ (value = pattern ∧ last pattern ≠ Some star ∨
    ∃ prefix rest, pattern = prefix ++ [star] ∧ value = prefix ++ rest).

(** A name with a slash after its first and before its last character. *)
Definition remote_tracking (value remote branch : jsstring) : Prop :=
  value = remote ++ slash :: branch ∧ no_slash remote ∧ remote ≠ [] ∧ branch ≠ [].

Lemma indexOf_slash_None s : indexOf_slash s = None ↔ no_slash s.
Proof.
  unfold no_slash. induction s as [|c s IH]; cbn; [set_solver|]. destruct (N.eqb_spec c slash) as [->|Hc]; [set_solver|].
  destruct (indexOf_slash s); cbn; [|set_solver]. split; [done|]. intros H. discriminate (proj2 IH ltac:(set_solver)).
Qed.
Lemma indexOf_slash_app a b : no_slash a → indexOf_slash (a ++ slash :: b) = Some (length a).
Proof.
  unfold no_slash. induction a as [|c a IH]; intros Ha; cbn; [done|].
  destruct (N.eqb_spec c slash) as [->|Hc]; [set_solver|]. by rewrite IH by set_solver.
Qed.
Lemma indexOf_slash_Some s i : indexOf_slash s = Some i → s = take i s ++ slash :: drop (S i) s ∧ no_slash (take i s).
Proof.
  revert i. induction s as [|c s IH]; intros i; cbn; [done|].
  destruct (N.eqb_spec c slash) as [->|Hc]; [intros [= <-]; split; [done|]; unfold no_slash; set_solver|].
  destruct (indexOf_slash s) as [j|] eqn:Hj; [|done]. intros [= <-]. destruct (IH j eq_refl) as [Hs Hn]. cbn. split; [by f_equal|]. unfold no_slash in *. set_solver.
Qed.

Lemma parseRemoteTrackingBranch_Some v remote branch :
  parseRemoteTrackingBranch v = Some (remote, branch) ↔ remote_tracking v remote branch.
Proof.
  unfold parseRemoteTrackingBranch, remote_tracking. split.
  - destruct (indexOf_slash v) as [i|] eqn:E; [|done]. destruct (indexOf_slash_Some v i E) as [Hv Hn].
    destruct i as [|i]; [done|]. destruct (Nat.eqb_spec (S i) (length v - 1)) as [?|Hl]; [done|]. intros [= <- <-].
    split_and!; [done|done|by destruct v|]. intros Hd. apply (f_equal length) in Hv.
    rewrite length_app, length_cons, Hd in Hv. cbn in Hv. rewrite length_take in Hv. lia.
  - intros (-> & Hn & Hr & Hb). rewrite indexOf_slash_app by done. destruct remote as [|c remote]; [done|]. cbn [length].
    rewrite (proj2 (Nat.eqb_neq _ _)); [|rewrite length_app; destruct branch; [done|cbn; lia]].
    change (S (length remote)) with (length (c :: remote)). rewrite take_app_length. repeat f_equal. 
    replace (S (length (c :: remote))) with (length (c :: remote) + 1)%nat by lia. by rewrite drop_app_add.
Qed.
Lemma parseRemoteTrackingBranch_None v :
  parseRemoteTrackingBranch v = None ↔ ∀ remote branch, ¬ remote_tracking v remote branch.
Proof.
  setoid_rewrite <- parseRemoteTrackingBranch_Some.
  destruct (parseRemoteTrackingBranch v) as [[rm br]|]; split; try done. intros H. by destruct (H rm br).
Qed.

Lemma matchesAnyPattern_true value patterns : matchesAnyPattern value patterns = true ↔ matches value patterns.
Proof.
  unfold matchesAnyPattern, matches. rewrite andb_true_iff, existsb_exists, Nat.ltb_lt. setoid_rewrite <- list_elem_of_In.
  assert (∀ x, matchesPattern value x = true ↔ (value = x ∧ last x ≠ Some star ∨
    ∃ prefix rest, x = prefix ++ [star] ∧ value = prefix ++ rest)) as Hx.
  { intros x. unfold matchesPattern. case_bool_decide as Hl.
    - apply last_Some in Hl as [pre ->]. rewrite removelast_last, last_snoc, starts_with_spec.
      split; [intros [t ->]; right; eauto|]. intros [[_ ?]|(pre' & rest & Hp & ->)]; [done|].
      apply app_inj_2 in Hp as [-> _]; eauto.
    - rewrite js_eqb_true. split; [by left|]. intros [[? _]|(pre & rest & -> & _)]; [done|]. by rewrite last_snoc in Hl. }
  setoid_rewrite Hx. split; [by intros [_ ?]|]. intros (x & Hin & H). split; [|eauto].
  destruct patterns; [by apply not_elem_of_nil in Hin|simpl; lia].
Qed.

Lemma matchesAnyPrefix_true value prefixes : matchesAnyPrefix value prefixes = true ↔
  ∃ prefix rest, prefix ∈ prefixes ∧ value = prefix ++ rest.
Proof.
  unfold matchesAnyPrefix. rewrite andb_true_iff, existsb_exists, Nat.ltb_lt. setoid_rewrite <- list_elem_of_In.
  setoid_rewrite starts_with_spec. split; [naive_solver|]. intros (x & t & Hin & ->). split; [|eauto].
  destruct prefixes; [by apply not_elem_of_nil in Hin|simpl; lia].
Qed.

Lemma elem_of_uniqueStrings x l : x ∈ uniqueStrings l ↔ x ∈ l ∧ truthy (js_trim x) = true.
Proof.
  unfold uniqueStrings, new_Set. rewrite elem_of_dedup_from, list_elem_of_In, filter_In, <- list_elem_of_In. set_solver.
Qed.

End AccessPaths.
