(* ===== verification/CommandPolicy.v ===== *)
(** * Commands of workers

    [src/worker-core/host-command/safe-command-policy.ts], the decision whether
    a worker may run a command, and
    [src/worker-core/host-command/global-filesystem-scan-policy.ts], which
    refuses searches of the whole file system: a tokenizer for shell command
    lines and readers of the options of find, rg and grep.

    A regular expression is the function that decides its matches. The search
    of a command line inside a command line (of [sh -c]) is by fuel; the length
    of the line is enough, since an argument is shorter than its line. *)

From stdpp Require Import base numbers option sets strings list.
From S2P Require Import Prelude Json IntegrationAttempt AccessPaths.

Module Commands.
Import Integration(slash, backslash, split_slash, has, includes, replace_backslashes, dot, dotdot).

(** ** Strings *)

Definition nonempty (s : jsstring) : bool := truthy s.
Definition one_of (s : jsstring) (l : list string) : bool := has s (map js l).

(** [value.split("/").filter(Boolean)]. *)
Definition parts_of (s : jsstring) : list jsstring := List.filter nonempty (split_slash s).

Fixpoint contains (sub s : jsstring) : bool :=
  starts_with sub s || match s with [] => false | _ :: s' => contains sub s' end.

Definition is_digit (c : N) : bool := (48 <=? c)%N && (c <=? 57)%N.
Definition name_start (c : N) : bool :=
  ((65 <=? c)%N && (c <=? 90)%N) || ((97 <=? c)%N && (c <=? 122)%N) || (c =? 95)%N.
Definition name_char (c : N) : bool := name_start c || is_digit c.

Fixpoint take_while (f : N → bool) (s : jsstring) : jsstring :=
  match s with c :: s' => if f c then c :: take_while f s' else [] | [] => [] end.

(** [strip p s]: what follows [p] in [s]. *)
Definition strip (p s : jsstring) : option jsstring :=
  if starts_with p s then Some (drop (length p) s) else None.

(** ** Environment references of the guard *)

Inductive Tool : Set := Find | Rg | Grep.

Definition tool_name (t : Tool) : jsstring := js match t with Find => "find" | Rg => "rg" | Grep => "grep" end.
Definition guard_environment_name (t : Tool) : jsstring :=
  js "SUBSCRIPTION_RUNTIME_GLOBAL_SCAN_GUARD_" ++ js match t with Find => "FIND" | Rg => "RG" | Grep => "GREP" end ++ js "_REAL".

Definition first_tool (f : Tool → bool) : option Tool :=
  if f Find then Some Find else if f Rg then Some Rg else if f Grep then Some Grep else None.

(** A closing brace, with an error word before it or not, up to the end. *)
Definition guard_suffix (s : jsstring) : bool :=
  let tail s := (truthy s && js_eqb (take_while (λ c, negb (c =? 125)%N) s ++ [125%N]) s) in
  js_eqb s (js "}") ||
  match strip (js ":?") s, strip (js "?") s with
  | Some s', _ | None, Some s' => tail s'
  | None, None => false
  end.

Definition guardExecutableFromEnvironmentReference (value : jsstring) : option Tool :=
  match first_tool (λ t, js_eqb value (js "$" ++ guard_environment_name t)) with
  | Some t => Some t
  | None => first_tool (λ t, match strip (js "${" ++ guard_environment_name t) value with
                             | Some rest => guard_suffix rest
                             | None => false
                             end)
  end.

Definition guardExecutableEnvironmentReferenceName (value : jsstring) : option jsstring :=
  guard_environment_name <$>
    first_tool (λ t, starts_with (js "$" ++ guard_environment_name t) value ||
                     starts_with (js "${" ++ guard_environment_name t) value).

Definition isGuardExecutableEnvironmentName (value : jsstring) : bool :=
  match first_tool (λ t, js_eqb value (guard_environment_name t)) with Some _ => true | None => false end.

Definition baseName (value : jsstring) : jsstring := default value (last (parts_of (replace_backslashes value))).

(** [executableBaseName] of the scan policy, which knows the guard. *)
Definition executableBaseName (value : jsstring) : jsstring :=
  match guardExecutableFromEnvironmentReference value with
  | Some t => tool_name t
  | None => baseName value
  end.

(** ** Roots *)

Definition blockedRoots : list string :=
  ["/"; "/bin"; "/sbin"; "/lib"; "/lib64"; "/boot"; "/dev"; "/etc"; "/proc"; "/sys"; "/run"; "/usr"; "/opt";
   "/srv"; "/snap"; "/var"; "/var/data"; "/var/lib"; "/var/cache"; "/var/tmp"; "/tmp"; "/root"; "/home";
   "/mnt"; "/media"]%string.

(** The parts are a stack with the last one first. *)
Definition push_part (parts : list jsstring) (part : jsstring) : list jsstring :=
  if js_eqb part [] || js_eqb part dot then parts
  else if js_eqb part dotdot then tail parts
  else part :: parts.

Definition normalizeAbsolutePath (value : jsstring) : jsstring :=
  slash :: js_join [slash] (rev (foldl push_part [] (split_slash value))).

Definition isBlockedRoot (value : jsstring) : bool :=
  if negb (starts_with [slash] value) then false
  else
    let normalized := normalizeAbsolutePath value in
    one_of normalized blockedRoots ||
    match parts_of normalized with [top; _] => one_of top ["mnt"; "media"]%string | _ => false end.

Definition unquote (value : jsstring) : jsstring :=
  match value, last value with
  | first :: rest, Some l =>
      if (1 <? length value)%nat && (((first =? 39)%N && (l =? 39)%N) || ((first =? 34)%N && (l =? 34)%N))
      then removelast rest else value
  | _, _ => value
  end.

Record Blocked : Set := mkBlocked { tool : Tool; root : jsstring }.

Definition first_blocked (t : Tool) (operands : list jsstring) : option Blocked :=
  mkBlocked t <$> List.find (λ o, isBlockedRoot (unquote o)) operands.

(** ** find *)

Definition find_optimisation (arg : jsstring) : bool :=
  match strip (js "-O") arg with Some digits => forallb is_digit digits | None => false end.

Fixpoint blockedFindScan_from (consumeNext optionsFinished : bool) (args : list jsstring) : option Blocked :=
  match args with
  | [] => None
  | rawArg :: rest =>
      let arg := unquote rawArg in
      if consumeNext then blockedFindScan_from false optionsFinished rest
      else if negb optionsFinished && js_eqb arg (js "--") then blockedFindScan_from false true rest
      else if negb optionsFinished && one_of arg ["-H"; "-L"; "-P"]%string then blockedFindScan_from false optionsFinished rest
      else if negb optionsFinished && js_eqb arg (js "-D") then blockedFindScan_from true optionsFinished rest
      else if negb optionsFinished && (starts_with (js "-D") arg || find_optimisation arg)
           then blockedFindScan_from false optionsFinished rest
      else if negb optionsFinished && (starts_with (js "-") arg || one_of arg ["!"; "("; ")"; ","]%string) then None
      else if isBlockedRoot arg then Some (mkBlocked Find rawArg)
      else blockedFindScan_from false optionsFinished rest
  end.

Definition blockedFindScan (args : list jsstring) : option Blocked := blockedFindScan_from false false args.

(** ** rg *)

(** [(consumeNext, explicitPattern)] of a cluster of short options. *)
Fixpoint rg_cluster (cluster : jsstring) : bool * bool :=
  match cluster with
  | [] => (false, false)
  | option :: rest =>
      let final := match rest with [] => true | _ => false end in
      if one_of [option] ["e"; "f"]%string then (final, true)
      else if one_of [option] ["A"; "B"; "C"; "d"; "E"; "M"; "g"; "j"; "m"; "r"; "t"; "T"]%string then (final, false)
      else rg_cluster rest
  end.

Definition parseRgShortOption (arg : jsstring) : bool * bool := rg_cluster (drop 1 arg).

Record RgState : Set := mkRg { rg_operands : list jsstring; rg_consumeNext : bool; filesMode : bool;
  rg_explicitPattern : bool; rg_optionsFinished : bool }.

Definition rg_arg (st : RgState) (rawArg : jsstring) : RgState :=
  let '(mkRg operands consumeNext files explicit finished) := st in
  let arg := unquote rawArg in
  if consumeNext then mkRg operands false files explicit finished
  else if negb finished then
    if js_eqb arg (js "--") then mkRg operands false files explicit true
    else if js_eqb arg (js "--files") then mkRg operands false true explicit finished
    else if one_of arg ["-e"; "-f"; "--regexp"; "--file"]%string then mkRg operands true files true finished
    else if starts_with (js "--regexp=") arg || starts_with (js "--file=") arg then mkRg operands false files true finished
    else if starts_with (js "--") arg && includes 61 arg then st
    else if starts_with (js "-") arg then
      let '(consume, pattern) := parseRgShortOption arg in mkRg operands consume files (explicit || pattern) finished
    else mkRg (operands ++ [rawArg]) false files explicit finished
  else mkRg (operands ++ [rawArg]) false files explicit finished.

Definition blockedRgScan (args : list jsstring) : option Blocked :=
  let st := foldl rg_arg (mkRg [] false false false false) args in
  let firstPathIndex := if filesMode st || rg_explicitPattern st then 0 else 1 in
  first_blocked Rg (drop firstPathIndex (rg_operands st)).

(** ** grep *)

Inductive Consume : Set := ConsumeNone | ConsumePattern | ConsumeDirectories | ConsumeValue.

(** [(consumeNext, explicitPattern, recursive)]. *)
Fixpoint grep_cluster (recursive : bool) (cluster : jsstring) : Consume * bool * bool :=
  match cluster with
  | [] => (ConsumeNone, false, recursive)
  | option :: rest =>
      let final := match rest with [] => true | _ => false end in
      let recursive := recursive || one_of [option] ["r"; "R"]%string in
      if one_of [option] ["e"; "f"]%string then (if final then ConsumePattern else ConsumeNone, true, recursive)
      else if js_eqb [option] (js "d") then
        (if truthy rest then ConsumeNone else ConsumeDirectories, false, recursive || js_eqb rest (js "recurse"))
      else if one_of [option] ["A"; "B"; "C"; "D"; "m"]%string then (if final then ConsumeValue else ConsumeNone, false, recursive)
      else grep_cluster recursive rest
  end.

Definition parseGrepShortOption (arg : jsstring) : Consume * bool * bool := grep_cluster false (drop 1 arg).

Record GrepState : Set := mkGrep { gr_operands : list jsstring; gr_consumeNext : Consume; gr_explicitPattern : bool;
  recursive : bool; gr_optionsFinished : bool }.

Definition grep_arg (st : GrepState) (rawArg : jsstring) : GrepState :=
  let '(mkGrep operands consumeNext explicit rec finished) := st in
  let arg := unquote rawArg in
  match consumeNext with
  | ConsumeDirectories => mkGrep operands ConsumeNone explicit (rec || js_eqb arg (js "recurse")) finished
  | ConsumePattern | ConsumeValue => mkGrep operands ConsumeNone explicit rec finished
  | ConsumeNone =>
      if negb finished then
        if js_eqb arg (js "--") then mkGrep operands ConsumeNone explicit rec true
        else if one_of arg ["-r"; "-R"; "--recursive"; "--dereference-recursive"]%string then mkGrep operands ConsumeNone explicit true finished
        else if one_of arg ["-e"; "-f"; "--regexp"; "--file"]%string then mkGrep operands ConsumePattern true rec finished
        else if starts_with (js "--regexp=") arg || starts_with (js "--file=") arg then mkGrep operands ConsumeNone true rec finished
        else if js_eqb arg (js "--directories") then mkGrep operands ConsumeDirectories explicit rec finished
        else if js_eqb arg (js "--directories=recurse") then mkGrep operands ConsumeNone explicit true finished
        else if starts_with (js "--") arg && includes 61 arg then st
        else if starts_with (js "-") arg then
          let '(consume, pattern, recurse) := parseGrepShortOption arg in
          mkGrep operands consume (explicit || pattern) (rec || recurse) finished
        else mkGrep (operands ++ [rawArg]) ConsumeNone explicit rec finished
      else mkGrep (operands ++ [rawArg]) ConsumeNone explicit rec finished
  end.

Definition blockedGrepScan (args : list jsstring) : option Blocked :=
  let st := foldl grep_arg (mkGrep [] ConsumeNone false false false) args in
  if negb (recursive st) then None
  else first_blocked Grep (drop (if gr_explicitPattern st then 0 else 1) (gr_operands st)).

Definition blockedGlobalFilesystemScan (args : list jsstring) : option Blocked :=
  let t := executableBaseName (default [] (head args)) in
  if js_eqb t (js "find") then blockedFindScan (drop 1 args)
  else if js_eqb t (js "rg") then blockedRgScan (drop 1 args)
  else if js_eqb t (js "grep") then blockedGrepScan (drop 1 args)
  else None.

(** ** Shell tokens *)

Record ShellToken : Set := mkToken { value : jsstring; dynamicExpansion : bool }.

Inductive Quote : Set := QNone | QSingle | QDouble.

#[global] Instance Quote_eq_dec : EqDecision Quote.
Proof. solve_decision. Defined.

(** The vectors are those before the last and the last one. *)
Record Lexer : Set := mkLexer { vectors : list (list ShellToken); current : list ShellToken; token : jsstring;
  tokenDynamicExpansion : bool; quote : Quote; escaped : bool }.

Definition finishToken (st : Lexer) : Lexer :=
  let '(mkLexer vs cur t dyn q e) := st in
  match t with [] => st | _ => mkLexer vs (cur ++ [mkToken t dyn]) [] false q e end.

Definition finishCommand (st : Lexer) : Lexer :=
  let '(mkLexer vs cur t dyn q e) := finishToken st in
  match cur with [] => mkLexer vs cur t dyn q e | _ => mkLexer (vs ++ [cur]) [] t dyn q e end.

Definition add_char (st : Lexer) (c : N) : Lexer :=
  let '(mkLexer vs cur t dyn q e) := st in mkLexer vs cur (t ++ [c]) dyn q e.

Definition set_escaped (st : Lexer) (e : bool) : Lexer :=
  let '(mkLexer vs cur t dyn q _) := st in mkLexer vs cur t dyn q e.
Definition set_quote (st : Lexer) (q : Quote) : Lexer :=
  let '(mkLexer vs cur t dyn _ e) := st in mkLexer vs cur t dyn q e.
Definition set_dynamic (st : Lexer) : Lexer :=
  let '(mkLexer vs cur t _ q e) := st in mkLexer vs cur t true q e.

Definition is_char (c : N) (s : string) : bool := js_eqb [c] (js s).

(** One character; [true] for an operator that may be doubled. *)
Definition lex_char (st : Lexer) (c : N) : Lexer * bool :=
  if escaped st then (set_escaped (add_char st c) false, false)
  else if is_char c "\" && negb (bool_decide (quote st = QSingle)) then (set_escaped st true, false)
  else
    let st := if negb (bool_decide (quote st = QSingle)) && (is_char c "$" || is_char c "`") then set_dynamic st else st in
    let unquoted := bool_decide (quote st = QNone) in
    if is_char c "'" && negb (bool_decide (quote st = QDouble)) then
      (set_quote st (if bool_decide (quote st = QSingle) then QNone else QSingle), false)
    else if (c =? 34)%N && negb (bool_decide (quote st = QSingle)) then
      (set_quote st (if bool_decide (quote st = QDouble) then QNone else QDouble), false)
    else if unquoted && ((c =? 10)%N || (c =? 13)%N) then (finishCommand st, false)
    else if unquoted && js_space c then (finishToken st, false)
    else if unquoted && (if is_char c "(" || is_char c "{" then negb (truthy (token st)) else is_char c ")" || is_char c "}") then
      (finishCommand st, false)
    else if unquoted && (is_char c ";" || is_char c "|" || is_char c "&") then (finishCommand st, true)
    else (add_char st c, false).

Fixpoint lex (st : Lexer) (s : jsstring) : Lexer :=
  match s with
  | [] => st
  | c :: s' =>
      let '(st', double) := lex_char st c in
      match s' with
      | d :: s'' => if double && (d =? c)%N then lex st' s'' else lex st' s'
      | [] => st'
      end
  end.

Definition start_lexer : Lexer := mkLexer [] [] [] false QNone false.

Definition shellCommandVectors (command : jsstring) : list (list ShellToken) :=
  let st := finishToken (lex start_lexer command) in
  List.filter (λ v, match v with [] => false | _ => true end) (vectors st ++ [current st]).

(** [/^([A-Za-z_][A-Za-z0-9_]*\)=/]. *)
Definition environmentAssignmentName (v : jsstring) : option jsstring :=
  let name := take_while name_char v in
  match name with
  | c :: _ => if name_start c && starts_with (name ++ js "=") v then Some name else None
  | [] => None
  end.
Definition isEnvironmentAssignment (v : jsstring) : bool :=
  match environmentAssignmentName v with Some _ => true | None => false end.

Fixpoint drop_while (f : jsstring → bool) (l : list ShellToken) : list ShellToken :=
  match l with t :: l' => if f (value t) then drop_while f l' else l | [] => [] end.

Definition skip_word (words : list string) (l : list ShellToken) : option (list ShellToken) :=
  match l with t :: l' => if one_of (value t) words then Some l' else None | [] => None end.

Definition normalizeCommandVector (vector : list ShellToken) : list ShellToken :=
  let v := drop_while isEnvironmentAssignment vector in
  let v := default v (skip_word ["command"; "exec"]%string v) in
  match skip_word ["env"]%string v with
  | Some v => drop_while (λ w, starts_with (js "-") w || isEnvironmentAssignment w) v
  | None => v
  end.

(** [/^-[^-]*c/]. *)
Definition shell_c_option (v : jsstring) : bool :=
  match v with
  | c :: rest => is_char c "-" && includes 99 (take_while (λ d, negb (is_char d "-")) rest)
  | [] => false
  end.

Fixpoint after_option (vector : list jsstring) : option jsstring :=
  match vector with
  | [] => None
  | v :: rest => if shell_c_option v then head rest else after_option rest
  end.

Definition shellCommandArgument (vector : list jsstring) : option jsstring :=
  if one_of (executableBaseName (default [] (head vector))) ["bash"; "dash"; "sh"; "zsh"]%string
  then after_option (tail vector) else None.

(** The first answer. *)
Fixpoint first_some {A B} (f : A → option B) (l : list A) : option B :=
  match l with
  | [] => None
  | x :: l' => match f x with Some b => Some b | None => first_some f l' end
  end.

Fixpoint blocked_command (fuel : nat) (command : jsstring) : option Blocked :=
  match fuel with
  | O => None
  | S fuel =>
      first_some (λ vector,
        let normalized := map value (normalizeCommandVector vector) in
        match blockedGlobalFilesystemScan normalized with
        | Some b => Some b
        | None => match shellCommandArgument normalized with
                  | Some nested => blocked_command fuel nested
                  | None => None
                  end
        end) (shellCommandVectors command)
  end.

Definition blockedGlobalFilesystemScanCommand (command : jsstring) : option Blocked :=
  blocked_command (S (length command)) command.

(** The names of the guard that a vector assigns. *)
Definition reassigned_by (vector : list ShellToken) : list jsstring :=
  List.filter isGuardExecutableEnvironmentName (omap (λ t, environmentAssignmentName (value t)) vector).

(** The dynamic arguments that would name a blocked root if they were one. *)
Fixpoint probe (before : list jsstring) (rest : list ShellToken) : option jsstring :=
  match rest with
  | [] => None
  | t :: rest' =>
      match (if dynamicExpansion t
             then blockedGlobalFilesystemScan (before ++ js "/" :: map value rest') else None) with
      | Some _ => Some (value t)
      | None => probe (before ++ [value t]) rest'
      end
  end.

(** The loop over the vectors, with the search of a nested line. *)
Fixpoint unverifiable_vectors (nested : jsstring → list jsstring → option jsstring) (reassigned : list jsstring)
    (vs : list (list ShellToken)) : option jsstring :=
  match vs with
  | [] => None
  | vector :: vs' =>
      let reassigned := reassigned ++ reassigned_by vector in
      let normalized := normalizeCommandVector vector in
      match normalized with
      | [] => unverifiable_vectors nested reassigned vs'
      | executable :: args =>
          let guard := guardExecutableFromEnvironmentReference (value executable) in
          let name := guardExecutableEnvironmentReferenceName (value executable) in
          if dynamicExpansion executable &&
             (match guard with None => true | Some _ => match name with Some n => has n reassigned | None => false end end)
          then Some (value executable)
          else
            match (if one_of (executableBaseName (value executable)) ["find"; "rg"; "grep"]%string
                   then probe [value executable] args else None) with
            | Some e => Some e
            | None =>
                match (match shellCommandArgument (map value normalized) with
                       | Some command => nested command reassigned
                       | None => None
                       end) with
                | Some e => Some e
                | None => unverifiable_vectors nested reassigned vs'
                end
            end
      end
  end.

Fixpoint unverifiable_command (fuel : nat) (command : jsstring) (inherited : list jsstring) : option jsstring :=
  match fuel with
  | O => None
  | S fuel => unverifiable_vectors (unverifiable_command fuel) inherited (shellCommandVectors command)
  end.

Definition unverifiableGlobalFilesystemScanCommand (command : jsstring) : option jsstring :=
  unverifiable_command (S (length command)) command [].

(** ** Validation *)

Record CommandPolicy : Set := mkPolicy {
  validateCommands : bool; deniedExecutableNames : list jsstring; deniedGitSubcommands : list jsstring;
  deniedPathPrefixes : list jsstring; deniedInlineCodeExecutables : list jsstring;
  deniedScriptExecutables : list jsstring }.

Inductive Reason : Set :=
| Allowed | ValidationDisabled | EmptyCommand | DeniedExecutable | DeniedGitSubcommand | DeniedPathPrefix
| InlineCodeDenied | ScriptInterpreterDenied | GlobalFilesystemScanDenied | GlobalFilesystemScanUnverifiable.

Record Decision : Set := mkDecision { allowed : bool; reason : Reason; executableName : option jsstring;
  evidence : list jsstring }.

Definition commandAllowed (r : Reason) (name : option jsstring) : Decision := mkDecision true r (truthy_opt name) [].
Definition commandDenied (r : Reason) (name : option jsstring) (evidence : list jsstring) : Decision :=
  mkDecision false r (truthy_opt name) evidence.

(** A vector of words or a line. *)
Inductive Command : Set := Words (args : list jsstring) | Line (command : jsstring).

(** [command.trim().split(/\s+/).filter(Boolean)]. *)
Fixpoint split_space (s : jsstring) : list jsstring :=
  match s with
  | [] => [[]]
  | c :: s' =>
      if js_space c then [] :: split_space s'
      else match split_space s' with [] => [[c]] | w :: ws => (c :: w) :: ws end
  end.
Definition simpleCommandTokens (command : jsstring) : list jsstring := List.filter nonempty (split_space (js_trim command)).

Fixpoint gitSubcommand_from (args : list jsstring) : jsstring :=
  match args with
  | [] => []
  | arg :: rest =>
      if one_of arg ["-C"; "-c"; "--git-dir"; "--work-tree"; "--namespace"; "--config-env"]%string then
        match rest with _ :: rest' => gitSubcommand_from rest' | [] => [] end
      else if js_eqb arg (js "--") then default [] (head rest)
      else if negb (starts_with (js "-") arg) then arg
      else gitSubcommand_from rest
  end.
Definition gitSubcommand (args : list jsstring) : jsstring := gitSubcommand_from (tail args).

Definition space : jsstring := js " ".

Definition validateCommandAgainstPolicy (command : Command) (policy : CommandPolicy) : Decision :=
  if negb (validateCommands policy) then commandAllowed ValidationDisabled None
  else
    let args := match command with Line c => simpleCommandTokens c | Words args => args end in
    match args with
    | [] => commandDenied EmptyCommand None []
    | first :: rest =>
        if negb (truthy (js_trim first)) then commandDenied EmptyCommand None []
        else
          let name := baseName first in
          let denied r e := commandDenied r (Some name) [e] in
          if has name (deniedExecutableNames policy) then
            denied DeniedExecutable (name ++ js " is denied by command policy")
          else if js_eqb name (js "git") && has (gitSubcommand args) (deniedGitSubcommands policy) then
            denied DeniedGitSubcommand (js "git " ++ gitSubcommand args ++ js " is denied by command policy")
          else if has name (deniedInlineCodeExecutables policy) &&
                  match rest with second :: _ => one_of second ["-c"; "-e"]%string | [] => false end then
            denied InlineCodeDenied (name ++ js " inline code execution is denied")
          else if has name (deniedScriptExecutables policy) && (1 <? length args)%nat then
            denied ScriptInterpreterDenied (name ++ js " script execution is denied")
          else
            match (match command with Line c => unverifiableGlobalFilesystemScanCommand c | Words _ => None end) with
            | Some expression =>
                denied GlobalFilesystemScanUnverifiable
                  (js "subscription_runtime_global_scan_unverifiable expression=" ++ expression ++
                   js " remediation=use a literal executable and bounded filesystem path, or a guard-owned executable environment reference exit_code=64")
            | None =>
                match (match command with
                       | Line c => blockedGlobalFilesystemScanCommand c
                       | Words args => blockedGlobalFilesystemScan args
                       end) with
                | Some b =>
                    denied GlobalFilesystemScanDenied
                      (js "subscription_runtime_global_scan_blocked tool=" ++ tool_name (tool b) ++ js " root=" ++ root b ++
                       js " remediation=search an assigned workspace/job descendant, or run the search from the current directory exit_code=64")
                | None =>
                    match truthy_opt (List.find (λ prefix, contains prefix (js_join space args)) (deniedPathPrefixes policy)) with
                    | Some prefix => denied DeniedPathPrefix (js "command references denied path prefix " ++ prefix)
                    | None => commandAllowed Allowed (Some name)
                    end
                end
            end
    end.

(** ** The length of a line bounds its words *)

Definition words_length (l : list ShellToken) : nat := foldr (λ t n, (length (value t) + n)%nat) O l.
Definition weight (st : Lexer) : nat :=
  (foldr (λ v n, (words_length v + n)%nat) O (vectors st) + words_length (current st) + length (token st))%nat.

Lemma words_length_app l l' : words_length (l ++ l') = (words_length l + words_length l')%nat.
Proof. induction l as [|t l IH]; simpl; [done|]. rewrite IH. lia. Qed.

Lemma vectors_weight_app vs vs' :
  foldr (λ v n, (words_length v + n)%nat) O (vs ++ vs') =
  (foldr (λ v n, (words_length v + n)%nat) O vs + foldr (λ v n, (words_length v + n)%nat) O vs')%nat.
Proof. induction vs as [|v vs IH]; simpl; [done|]. rewrite IH. lia. Qed.

Lemma finishToken_weight st : weight (finishToken st) = weight st.
Proof.
  destruct st as [vs cur [|c t] dyn q e]; [done|]. unfold weight. cbn -[words_length length].
  rewrite words_length_app. cbn [words_length foldr value length]. lia.
Qed.

Lemma finishCommand_weight st : weight (finishCommand st) = weight st.
Proof.
  unfold finishCommand. pose proof (finishToken_weight st) as H. destruct (finishToken st) as [vs cur t dyn q e].
  rewrite <- H. destruct cur as [|u cur]; [done|]. unfold weight. cbn [vectors current token].
  rewrite vectors_weight_app. cbn [foldr words_length]. lia.
Qed.

Lemma add_char_weight st c : weight (add_char st c) = S (weight st).
Proof. destruct st. unfold weight. simpl. rewrite length_app. simpl. lia. Qed.

Lemma lex_char_weight st c : (weight (lex_char st c).1 ≤ S (weight st))%nat.
Proof.
  assert (∀ st, weight (set_dynamic st) = weight st) as Hd by by intros [].
  assert (∀ st q, weight (set_quote st q) = weight st) as Hq by by intros [].
  assert (∀ st e, weight (set_escaped st e) = weight st) as He by by intros [].
  unfold lex_char. destruct (escaped st); cbn [fst]; [by rewrite He, add_char_weight|].
  destruct (is_char c "\" && _); cbn [fst]; [rewrite He; lia|].
  match goal with |- context [if ?b then set_dynamic st else st] => set (st' := if b then set_dynamic st else st) end.
  assert (weight st' = weight st) as Hst by (unfold st'; case_match; [apply Hd|done]).
  repeat (case_match; cbn [fst]); rewrite ?Hq, ?finishCommand_weight, ?finishToken_weight, ?add_char_weight; lia.
Qed.

Lemma lex_weight st s : (weight (lex st s) ≤ weight st + length s)%nat.
Proof.
  assert (∀ n s st, (length s ≤ n)%nat → (weight (lex st s) ≤ weight st + length s)%nat) as H; [|by apply (H (length s))].
  clear. intros n. induction n as [|n IH]; intros [|c s] st Hn; cbn [length lex] in *; try lia.
  cbn [lex]. pose proof (lex_char_weight st c) as Hc. destruct (lex_char st c) as [st' double]. cbn [fst] in Hc.
  destruct s as [|d s]; cbn [length] in *; [lia|]. destruct (double && (d =? c)%N).
  - pose proof (IH s st' ltac:(lia)). lia.
  - pose proof (IH (d :: s) st' ltac:(cbn [length]; lia)) as H. cbn [length] in H. lia.
Qed.

Lemma vectors_length command v : v ∈ shellCommandVectors command → (words_length v ≤ length command)%nat.
Proof.
  unfold shellCommandVectors. rewrite list_elem_of_In, filter_In, <- list_elem_of_In. intros [Hv _].
  pose proof (lex_weight start_lexer command) as H. rewrite <- finishToken_weight in H.
  change (weight start_lexer) with O in H. set (st := finishToken (lex start_lexer command)) in *.
  unfold weight in H. apply elem_of_app in Hv as [Hv| ->%list_elem_of_singleton]; [|lia].
  assert (words_length v ≤ foldr (λ v n, (words_length v + n)%nat) O (vectors st))%nat; [|lia].
  clear H. induction (vectors st) as [|u vs IH]; [by apply not_elem_of_nil in Hv|]. cbn [foldr].
  apply elem_of_cons in Hv as [->|Hv]; [lia|]. specialize (IH Hv). lia.
Qed.

Lemma drop_while_length f l : (words_length (drop_while f l) ≤ words_length l)%nat.
Proof. induction l as [|t l IH]; simpl; [lia|]. destruct (f (value t)); simpl; lia. Qed.

Lemma normalized_length v : (words_length (normalizeCommandVector v) ≤ words_length v)%nat.
Proof.
  assert (∀ ws l l', skip_word ws l = Some l' → (words_length l' ≤ words_length l)%nat) as Hskip.
  { intros ws [|t l] l'; simpl; [done|]. case_match; [|done]. intros [= <-]. lia. }
  unfold normalizeCommandVector. set (v1 := drop_while isEnvironmentAssignment v).
  pose proof (drop_while_length isEnvironmentAssignment v) as H1. fold v1 in H1.
  set (v2 := default v1 (skip_word ["command"; "exec"]%string v1)).
  assert (words_length v2 ≤ words_length v1)%nat as H2.
  { unfold v2. destruct (skip_word _ v1) as [l|] eqn:E; simpl; [by eapply Hskip|lia]. }
  destruct (skip_word ["env"]%string v2) as [l|] eqn:E; [|lia]. apply Hskip in E.
  etrans; [apply drop_while_length|]. lia.
Qed.

(** The argument of a shell is shorter than the words around it. *)
Lemma after_option_length l n : after_option l = Some n → (length n < foldr (λ w n, (length w + n)%nat) O l)%nat.
Proof.
  induction l as [|w l IH]; simpl; [done|]. destruct (shell_c_option w) eqn:E; [|intros ?%IH; lia].
  intros H. destruct l as [|u l]; simpl in *; [done|]. injection H as ->.
  destruct w; [done|]. simpl. lia.
Qed.

Lemma shellCommandArgument_length vector n :
  shellCommandArgument vector = Some n → (length n < foldr (λ w n, (length w + n)%nat) O vector)%nat.
Proof.
  unfold shellCommandArgument. case_match; [|done]. intros Ha%after_option_length.
  destruct vector; simpl in *; lia.
Qed.

Lemma nested_shorter command v n : v ∈ shellCommandVectors command →
  shellCommandArgument (map value (normalizeCommandVector v)) = Some n → (length n < length command)%nat.
Proof.
  intros Hv%vectors_length H%shellCommandArgument_length. pose proof (normalized_length v) as Hn.
  assert (foldr (λ w n, (length w + n)%nat) O (map value (normalizeCommandVector v)) = words_length (normalizeCommandVector v)) as E.
  { clear. induction (normalizeCommandVector v) as [|t l IH]; simpl; [done|]. by rewrite IH. }
  lia.
Qed.

Lemma first_some_ext {A B} (f g : A → option B) l : (∀ x, x ∈ l → f x = g x) → first_some f l = first_some g l.
Proof.
  induction l as [|x l IH]; simpl; intros H; [done|]. rewrite H by left. rewrite IH; [done|]. intros; apply H. by right.
Qed.

Lemma blocked_command_fuel fuel fuel' command : (length command < fuel)%nat → (length command < fuel')%nat →
  blocked_command fuel command = blocked_command fuel' command.
Proof.
  revert fuel' command. induction fuel as [|fuel IH]; intros [|fuel'] command H H'; try lia. simpl.
  apply first_some_ext. intros v Hv. case_match; [done|]. case_match eqn:E; [|done].
  apply (nested_shorter command) in E; [|done]. apply IH; lia.
Qed.

Lemma unverifiable_vectors_ext f g reassigned vs :
  (∀ v n r, v ∈ vs → shellCommandArgument (map value (normalizeCommandVector v)) = Some n → f n r = g n r) →
  unverifiable_vectors f reassigned vs = unverifiable_vectors g reassigned vs.
Proof.
  revert reassigned. induction vs as [|v vs IH]; intros reassigned H; simpl; [done|].
  assert (∀ r, unverifiable_vectors f r vs = unverifiable_vectors g r vs) as Hvs.
  { intros r. apply IH. intros; eapply H; [by right|done]. }
  destruct (normalizeCommandVector v) as [|x l] eqn:E; [done|]. cbn [map] in *. destruct (dynamicExpansion x && _); [done|].
  match goal with |- context [if ?b then probe ?ws ?ts else None] => destruct (if b then probe ws ts else None); [done|] end.
  assert (∀ n r, shellCommandArgument (value x :: map value l) = Some n → f n r = g n r) as Hn.
  { intros n r Hn. apply (H v); [left|by rewrite E]. }
  destruct (shellCommandArgument (value x :: map value l)) as [n|]; [|by rewrite Hvs]. by rewrite (Hn n), Hvs.
Qed.

Lemma unverifiable_command_fuel fuel fuel' command r : (length command < fuel)%nat → (length command < fuel')%nat →
  unverifiable_command fuel command r = unverifiable_command fuel' command r.
Proof.
  revert fuel' command r. induction fuel as [|fuel IH]; intros [|fuel'] command r H H'; try lia. simpl.
  apply unverifiable_vectors_ext. intros v n r' Hv Hn. apply (nested_shorter command) in Hn; [|done]. apply IH; lia.
Qed.

(** ** Quoted words *)

Definition quote_char : N := 39%N.
Definition quoted (w : jsstring) : jsstring := quote_char :: w ++ [quote_char].
(** The words of a command, each in single quotes. *)
Definition quoted_line (ws : list jsstring) : jsstring := js_join space (map quoted ws).

Lemma lex_step st c s st' : lex_char st c = (st', false) → lex st (c :: s) = lex st' s.
Proof. intros H. cbn [lex]. rewrite H. by destruct s. Qed.

Lemma lex_single vs cur t w s : quote_char ∉ w →
  lex (mkLexer vs cur t false QSingle false) (w ++ quote_char :: s) = lex (mkLexer vs cur (t ++ w) false QNone false) s.
Proof.
  revert t. induction w as [|c w IH]; intros t Hw; cbn [app].
  - rewrite app_nil_r. by rewrite (lex_step _ _ _ (mkLexer vs cur t false QNone false)).
  - apply not_elem_of_cons in Hw as [Hc Hw]. rewrite (lex_step _ _ _ (mkLexer vs cur (t ++ [c]) false QSingle false)).
    + rewrite IH by done. by rewrite <- app_assoc.
    + assert (is_char c "'" = false) as Hq by (apply js_eqb_false; intros [= ->]; by apply Hc).
      unfold lex_char. cbn -[is_char]. rewrite Hq, andb_false_r. cbn -[is_char]. by rewrite andb_false_r.
Qed.

Lemma lex_quoted vs cur w s : quote_char ∉ w →
  lex (mkLexer vs cur [] false QNone false) (quoted w ++ s) = lex (mkLexer vs cur w false QNone false) s.
Proof.
  intros Hw. unfold quoted. rewrite <- app_comm_cons, <- app_assoc.
  rewrite (lex_step _ _ _ (mkLexer vs cur [] false QSingle false)) by done. by apply lex_single.
Qed.

Lemma lex_quoted_line vs cur ws : Forall (λ w, quote_char ∉ w) ws →
  finishToken (lex (mkLexer vs cur [] false QNone false) (quoted_line ws)) =
  mkLexer vs (cur ++ map (λ w, mkToken w false) (List.filter nonempty ws)) [] false QNone false.
Proof.
  intros H. revert cur. induction H as [|w ws Hw H IH]; intros cur; [by rewrite app_nil_r|].
  destruct ws as [|w' ws].
  - change (quoted_line [w]) with (quoted w). rewrite <- (app_nil_r (quoted w)), lex_quoted by done.
    destruct w; cbn; [by rewrite app_nil_r|done].
  - change (quoted_line (w :: w' :: ws)) with (quoted w ++ space ++ quoted_line (w' :: ws)).
    rewrite lex_quoted by done. change (space ++ ?l) with (32%N :: l).
    rewrite (lex_step _ _ _ (finishToken (mkLexer vs cur w false QNone false))) by done.
    destruct w as [|c w]; cbn [finishToken]; rewrite IH; [done|]. by rewrite <- app_assoc.
Qed.

Lemma quoted_line_vectors ws : Forall (λ w, quote_char ∉ w) ws →
  shellCommandVectors (quoted_line ws) =
  match List.filter nonempty ws with [] => [] | words => [map (λ w, mkToken w false) words] end.
Proof.
  intros H. unfold shellCommandVectors, start_lexer. rewrite lex_quoted_line by done. cbn [vectors current app].
  by destruct (List.filter nonempty ws).
Qed.

(** A word that starts a simple command: no assignment, no wrapper, no shell. *)
Definition plain_command (w : jsstring) : bool :=
  negb (isEnvironmentAssignment w) && negb (one_of w ["command"; "exec"; "env"]%string) &&
  negb (one_of (executableBaseName w) ["bash"; "dash"; "sh"; "zsh"]%string).

Lemma one_of_app w l l' : one_of w (l ++ l') = one_of w l || one_of w l'.
Proof. unfold one_of, has. by rewrite map_app, existsb_app. Qed.

Lemma plain_command_normal w l : plain_command (value w) = true → normalizeCommandVector (w :: l) = w :: l.
Proof.
  unfold plain_command. rewrite !andb_true_iff, !negb_true_iff. intros [[Ha Hw] _].
  change ["command"; "exec"; "env"]%string with (["command"; "exec"]%string ++ ["env"]%string) in Hw.
  rewrite one_of_app, orb_false_iff in Hw. destruct Hw as [Hc He].
  unfold normalizeCommandVector. cbn [drop_while]. rewrite Ha. cbn [skip_word]. rewrite Hc. cbn [default skip_word].
  by rewrite He.
Qed.

Lemma probe_static before l : Forall (λ t, dynamicExpansion t = false) l → probe before l = None.
Proof. intros H. revert before. induction H as [|t l Ht _ IH]; intros before; simpl; [done|]. by rewrite Ht. Qed.

(** The line of quoted words is searched like the vector of the words, except
    that empty words are lost; none of it is unverifiable. *)
Lemma quoted_line_searched ws first rest : Forall (λ w, quote_char ∉ w) ws →
  List.filter nonempty ws = first :: rest → plain_command first = true →
  blockedGlobalFilesystemScanCommand (quoted_line ws) = blockedGlobalFilesystemScan (first :: rest) ∧
  unverifiableGlobalFilesystemScanCommand (quoted_line ws) = None.
Proof.
  intros H Hws Hf.
  assert (shellCommandArgument (first :: rest) = None) as Hn.
  { unfold plain_command in Hf. rewrite !andb_true_iff, !negb_true_iff in Hf. destruct Hf as [_ Hf].
    unfold shellCommandArgument. change (default [] (head (first :: rest))) with first. by rewrite Hf. }
  assert (map value (map (λ w, mkToken w false) (first :: rest)) = first :: rest) as Hm.
  { rewrite map_map. cbn [value]. apply map_id. }
  assert (normalizeCommandVector (map (λ w, mkToken w false) (first :: rest)) = map (λ w, mkToken w false) (first :: rest)) as Hnv.
  { cbn [map]. by apply plain_command_normal. }
  split.
  - unfold blockedGlobalFilesystemScanCommand. cbn [blocked_command].
    rewrite quoted_line_vectors, Hws by done. cbn [first_some]. rewrite Hnv, Hm, Hn.
    by destruct (blockedGlobalFilesystemScan _).
  - unfold unverifiableGlobalFilesystemScanCommand. cbn [unverifiable_command].
    rewrite quoted_line_vectors, Hws by done. cbn [unverifiable_vectors]. rewrite Hnv.
    cbn [map value dynamicExpansion andb]. rewrite probe_static.
    + rewrite map_map. cbn [value]. rewrite map_id, Hn. by destruct (one_of _ _).
    + apply Forall_map, Forall_forall. done.
Qed.

(** ** Blocked roots *)

Lemma push_part_segment stack seg : Forall AccessPaths.entry stack →
  push_part stack seg = Integration.push_segment false stack seg.
Proof.
  intros H. unfold push_part, Integration.push_segment.
  destruct (js_eqb seg [] || js_eqb seg dot); [done|]. destruct (js_eqb seg dotdot); [|done].
  destruct H as [|top stack [_ _ _ Hd] _]; [done|]. by rewrite (proj2 (js_eqb_false _ _) Hd).
Qed.

(** The policy of commands resolves an absolute path as [node:path] does. *)
Lemma normalizeAbsolutePath_resolves cwd v : Integration.isAbsolute v = true →
  normalizeAbsolutePath v = AccessPaths.normalizePath cwd v.
Proof.
  intros Ha. rewrite AccessPaths.normalizePath_segments. unfold normalizeAbsolutePath, AccessPaths.segments, Integration.normal_segments.
  rewrite Ha. do 2 f_equal. f_equal.
  destruct (Integration.split_slash_spec v) as (_ & Hs & _).
  assert (∀ stack, Forall AccessPaths.entry stack →
    foldl push_part stack (split_slash v) = foldl (Integration.push_segment false) stack (split_slash v)) as H; [|by apply H].
  induction Hs as [|s segs Hn _ IH]; intros stack Hst; simpl; [done|].
  rewrite push_part_segment by done. by apply IH, AccessPaths.push_segment_entry.
Qed.

Lemma one_of_true s l : one_of s l = true ↔ s ∈ map js l.
Proof. apply Integration.has_true. Qed.

Lemma filter_nonempty_entries l : Forall AccessPaths.entry l → List.filter nonempty l = l.
Proof. induction 1 as [|s l [_ Hs _ _] _ IH]; simpl; [done|]. destruct s; [done|]. simpl. by rewrite IH. Qed.

Lemma isBlockedRoot_exact cwd v : isBlockedRoot v = true ↔
  Integration.isAbsolute v = true ∧
  (AccessPaths.normalizePath cwd v ∈ map js blockedRoots ∨
   ∃ top entry, AccessPaths.segments cwd v = [top; entry] ∧ (top = js "mnt" ∨ top = js "media")).
Proof.
  unfold isBlockedRoot.
  assert (starts_with [slash] v = Integration.isAbsolute v) as ->.
  { destruct v as [|c v]; [done|]. cbn [starts_with Integration.isAbsolute]. rewrite andb_true_r. apply N.eqb_sym. }
  destruct (Integration.isAbsolute v) eqn:Ha; [|naive_solver]. cbn [negb].
  rewrite (normalizeAbsolutePath_resolves cwd) by done. rewrite orb_true_iff, one_of_true.
  assert (parts_of (AccessPaths.normalizePath cwd v) = AccessPaths.segments cwd v) as ->.
  { unfold parts_of. rewrite AccessPaths.split_normalizePath. cbn [List.filter nonempty truthy].
    pose proof (AccessPaths.segments_entries cwd v) as Hs. destruct (AccessPaths.segments cwd v) as [|s l] eqn:E; [done|].
    by rewrite filter_nonempty_entries. }
  split; [intros H; split; [done|]|intros [_ H]]; (destruct H as [H|H]; [by left|right]).
  - destruct (AccessPaths.segments cwd v) as [|top [|x [|]]]; try done. exists top, x. split; [done|].
    apply one_of_true in H. set_solver.
  - destruct H as (top & x & -> & H). apply one_of_true. set_solver.
Qed.

(** ** find *)

(** Options of find before its paths. *)
Inductive find_options : list jsstring → Prop :=
| fo_nil : find_options []
| fo_link o l : one_of (unquote o) ["-H"; "-L"; "-P"]%string = true → find_options l → find_options (o :: l)
| fo_debug o x l : unquote o = js "-D" → find_options l → find_options (o :: x :: l)
| fo_optimise o l : find_optimisation (unquote o) = true → find_options l → find_options (o :: l).

Definition find_path (a : jsstring) : bool :=
  negb (starts_with (js "-") (unquote a)) && negb (one_of (unquote a) ["!"; "("; ")"; ","]%string).

(** What starts an expression. *)
Definition find_expression (l : list jsstring) : bool :=
  match l with
  | [] => true
  | a :: _ => (starts_with (js "-") (unquote a) || one_of (unquote a) ["!"; "("; ")"; ","]%string) &&
      negb (one_of (unquote a) ["--"; "-H"; "-L"; "-P"]%string) && negb (starts_with (js "-D") (unquote a)) &&
      negb (find_optimisation (unquote a))
  end.

Lemma strip_starts p s rest : strip p s = Some rest → starts_with p s = true.
Proof. unfold strip. by destruct (starts_with p s). Qed.

Lemma one_of_dash a l : starts_with (js "-") a = false → forallb (λ s, starts_with (js "-") (js s)) l = true → one_of a l = false.
Proof.
  intros Ha Hl. apply Integration.has_false. intros (s & -> & Hs)%list_elem_of_fmap.
  rewrite forallb_forall in Hl. apply list_elem_of_In, Hl in Hs. congruence.
Qed.

Lemma starts_with_dash a p : starts_with (js "-") a = false → starts_with (js "-") p = true → starts_with p a = false.
Proof.
  change (js "-") with [45%N]. destruct p as [|c p]; [done|]. destruct a as [|d a]; [done|]. cbn [starts_with].
  rewrite !andb_true_r. intros Ha <-%N.eqb_eq. by rewrite Ha.
Qed.

Lemma find_paths_scan paths exp : forallb find_path paths = true → find_expression exp = true →
  blockedFindScan_from false false (paths ++ exp) = first_blocked Find paths.
Proof.
  intros Hp He. induction paths as [|a paths IH]; cbn [app].
  - destruct exp as [|a exp]; [done|]. cbn [find_expression] in He. rewrite !andb_true_iff, !negb_true_iff in He.
    destruct He as [[[Hs Ho] HD] HO]. cbn [blockedFindScan_from negb andb]. rewrite Hs, HD, HO.
    change ["--"; "-H"; "-L"; "-P"]%string with (["--"]%string ++ ["-H"; "-L"; "-P"]%string) in Ho.
    rewrite one_of_app, orb_false_iff in Ho. destruct Ho as [Hdd HH]. rewrite HH.
    assert (js_eqb (unquote a) (js "--") = false) as ->.
    { apply js_eqb_false. intros E. by rewrite E in Hdd. }
    assert (js_eqb (unquote a) (js "-D") = false) as ->; [|done].
    apply js_eqb_false. intros E. by rewrite E in HD.
  - cbn [forallb] in Hp. apply andb_true_iff in Hp as [Ha Hp]. specialize (IH Hp).
    unfold find_path in Ha. rewrite andb_true_iff, !negb_true_iff in Ha. destruct Ha as [Hd Hx].
    cbn [blockedFindScan_from negb andb]. rewrite Hd, Hx. cbn [orb].
    rewrite (one_of_dash (unquote a) ["-H"; "-L"; "-P"]%string), (starts_with_dash (unquote a) (js "-D")) by done.
    assert (∀ s, starts_with (js "-") (js s) = true → js_eqb (unquote a) (js s) = false) as Heq.
    { intros s Hs. apply js_eqb_false. intros E. by rewrite E, Hs in Hd. }
    rewrite !Heq by done.
    assert (find_optimisation (unquote a) = false) as ->.
    { unfold find_optimisation. destruct (strip (js "-O") (unquote a)) eqn:E; [|done].
      apply strip_starts in E. by rewrite (starts_with_dash (unquote a) (js "-O")) in E. }
    cbn [orb andb]. unfold first_blocked in *. cbn [List.find]. by destruct (isBlockedRoot (unquote a)).
Qed.

Lemma find_options_skipped opts rest : find_options opts →
  blockedFindScan_from false false (opts ++ rest) = blockedFindScan_from false false rest.
Proof.
  assert (∀ a, js_eqb a (js "--") = true → a = js "--") as Hdd by (intros a; apply js_eqb_true).
  induction 1 as [|o l Ho _ IH|o x l Ho _ IH|o l Ho _ IH]; [done|..]; cbn [app blockedFindScan_from negb andb].
  - assert (js_eqb (unquote o) (js "--") = false) as ->; [|by rewrite Ho].
    apply js_eqb_false. intros E. by rewrite E in Ho.
  - rewrite Ho. exact IH.
  - assert (js_eqb (unquote o) (js "--") = false) as ->.
    { apply js_eqb_false. intros E. by rewrite E in Ho. }
    assert (js_eqb (unquote o) (js "-D") = false) as ->.
    { apply js_eqb_false. intros E. by rewrite E in Ho. }
    destruct (one_of (unquote o) _); [done|]. by rewrite Ho, orb_true_r.
Qed.

(** A find command, written with its options first, is refused exactly for
    its first path that is a blocked root. *)
Lemma find_scan_exact opts paths exp : find_options opts → forallb find_path paths = true → find_expression exp = true →
  blockedFindScan (opts ++ paths ++ exp) = first_blocked Find paths.
Proof. intros. unfold blockedFindScan. rewrite find_options_skipped by done. by apply find_paths_scan. Qed.

(** ** git *)

Inductive git_options : list jsstring → Prop :=
| go_nil : git_options []
| go_pair o x l : one_of o ["-C"; "-c"; "--git-dir"; "--work-tree"; "--namespace"; "--config-env"]%string = true →
    git_options l → git_options (o :: x :: l)
| go_flag o l : starts_with (js "-") o = true → o ≠ js "--" →
    one_of o ["-C"; "-c"; "--git-dir"; "--work-tree"; "--namespace"; "--config-env"]%string = false →
    git_options l → git_options (o :: l).

Lemma gitSubcommand_options exe opts sub rest : git_options opts → starts_with (js "-") sub = false →
  gitSubcommand (exe :: opts ++ sub :: rest) = sub.
Proof.
  intros Ho Hs. unfold gitSubcommand. cbn [tail].
  induction Ho as [|o x l H _ IH|o l H Hdd Hn _ IH]; cbn [app gitSubcommand_from].
  - rewrite one_of_dash, Hs by done.
    assert (js_eqb sub (js "--") = false) as ->; [|done]. apply js_eqb_false. intros E. by rewrite E in Hs.
  - by rewrite H.
  - by rewrite Hn, (proj2 (js_eqb_false _ _) Hdd), H.
Qed.

(** A denied subcommand is refused whatever options come before it. *)
Lemma git_subcommand_refused policy exe opts sub rest : validateCommands policy = true → truthy (js_trim exe) = true →
  baseName exe = js "git" → has sub (deniedGitSubcommands policy) = true → git_options opts →
  starts_with (js "-") sub = false →
  allowed (validateCommandAgainstPolicy (Words (exe :: opts ++ sub :: rest)) policy) = false.
Proof.
  intros Hv Ht Hg Hd Ho Hs. unfold validateCommandAgainstPolicy. rewrite Hv, Ht. cbn [negb].
  rewrite Hg, (gitSubcommand_options exe opts sub rest) by done. rewrite Hd. by destruct (has (js "git") _).
Qed.

(** ** Properties *)

(** C31: The searches of a command line for scans terminate: a line inside a
    line is shorter, so any fuel above the length of the line gives the result
    that the program returns. *)
Theorem scan_search_terminates command fuel : (length command < fuel)%nat →
  blocked_command fuel command = blockedGlobalFilesystemScanCommand command ∧
  unverifiable_command fuel command [] = unverifiableGlobalFilesystemScanCommand command.
Proof. intros H. split; [apply blocked_command_fuel|apply unverifiable_command_fuel]; lia. Qed.

(** A line of words in single quotes is searched like the vector of the
    words, whatever characters the words have, for a plain command. Empty words
    are the exception: the tokenizer drops them, so the line is searched as if
    they were not there. *)
Theorem quoted_line_search ws first rest : Forall (λ w, quote_char ∉ w) ws →
  List.filter nonempty ws = first :: rest → plain_command first = true →
  blockedGlobalFilesystemScanCommand (quoted_line ws) = blockedGlobalFilesystemScan (first :: rest) ∧
  unverifiableGlobalFilesystemScanCommand (quoted_line ws) = None.
Proof. apply quoted_line_searched. Qed.

(** Whatever options come first, a git command is refused when its
    subcommand is denied, and a find command when its first blocked path
    comes before the expression; a root is blocked when it resolves to one of
    the system directories or to an entry of /mnt or /media. *)
Theorem commands_refused policy exe opts rest : validateCommands policy = true → truthy (js_trim exe) = true →
  (∀ sub, baseName exe = js "git" → has sub (deniedGitSubcommands policy) = true → git_options opts →
     starts_with (js "-") sub = false →
     allowed (validateCommandAgainstPolicy (Words (exe :: opts ++ sub :: rest)) policy) = false) ∧
  (∀ paths p cwd, executableBaseName exe = js "find" → find_options opts → forallb find_path paths = true →
     find_expression rest = true → p ∈ paths → Integration.isAbsolute (unquote p) = true →
     AccessPaths.normalizePath cwd (unquote p) ∈ map js blockedRoots →
     allowed (validateCommandAgainstPolicy (Words (exe :: opts ++ paths ++ rest)) policy) = false).
Proof.
  intros Hv Ht. split.
  - intros sub Hg Hd Ho Hs. by apply git_subcommand_refused.
  - intros paths p cwd Hf Ho Hp He Hin Ha Hb. unfold validateCommandAgainstPolicy. rewrite Hv, Ht. cbn [negb].
    repeat match goal with |- allowed (if ?b then _ else _) = false => destruct b; [done|] end.
    unfold blockedGlobalFilesystemScan. change (default [] (head (exe :: ?l))) with exe. rewrite Hf.
    change (js_eqb (js "find") (js "find")) with true. cbn match. change (drop 1 (exe :: ?l)) with l. rewrite find_scan_exact by done.
    unfold first_blocked. destruct (List.find _ paths) eqn:E; [done|]. exfalso.
    apply list_elem_of_In in Hin. pose proof (List.find_none _ _ E _ Hin) as Hn. cbn in Hn.
    assert (isBlockedRoot (unquote p) = true) by (apply (isBlockedRoot_exact cwd); auto). congruence.
Qed.

Module Demo.

Definition demo_policy : CommandPolicy :=
  mkPolicy true (map js ["docker"; "sudo"]%string) [js "push"] [js "/registry"] (map js ["node"]%string) (map js ["bash"]%string).

Definition demo_line : jsstring := js "FOO=1 ls; bash -c 'cd x && find -L / -name y'".

Lemma scan_search_terminates_witness :
  blocked_command 200 demo_line = Some (mkBlocked Find (js "/")) ∧
  blocked_command 200 demo_line = blockedGlobalFilesystemScanCommand demo_line.
Proof.
  split; [by vm_compute|]. apply (scan_search_terminates demo_line 200). by apply Nat.ltb_lt; vm_compute.
Defined.

Definition demo_words : list jsstring := map js ["rg"; "a|b $x"; "/etc"]%string.

Lemma quoted_line_search_witness :
  blockedGlobalFilesystemScanCommand (quoted_line demo_words) = Some (mkBlocked Rg (js "/etc")).
Proof.
  destruct (quoted_line_search demo_words (js "rg") (map js ["a|b $x"; "/etc"]%string)) as [H _].
  - repeat constructor; apply (bool_decide_unpack _); by vm_compute.
  - by vm_compute.
  - by vm_compute.
  - rewrite H. by vm_compute.
Defined.

Lemma commands_refused_witness :
  allowed (validateCommandAgainstPolicy (Words (map js ["git"; "-c"; "a=b"; "--no-pager"; "push"; "origin"]%string)) demo_policy) = false.
Proof.
  destruct (commands_refused demo_policy (js "git") (map js ["-c"; "a=b"; "--no-pager"]%string) [js "origin"]) as [H _]; [done|by vm_compute|].
  apply (H (js "push")); [by vm_compute|by vm_compute| |by vm_compute].
  apply go_pair; [by vm_compute|]. apply go_flag; [by vm_compute|done|by vm_compute|apply go_nil].
Defined.

(** The tokenizer drops an empty word, so the root becomes the pattern. *)
Lemma empty_word_evades_scan :
  blockedGlobalFilesystemScan (map js ["rg"; ""; "/"]%string) = Some (mkBlocked Rg (js "/")) ∧
  blockedGlobalFilesystemScanCommand (js "rg '' /") = None ∧
  allowed (validateCommandAgainstPolicy (Line (js "rg '' /")) demo_policy) = true.
Proof. by vm_compute. Qed.

(** Only the first word of a line is compared with the denied executables. *)
Lemma line_evades_denied_executables :
  allowed (validateCommandAgainstPolicy (Words (map js ["docker"; "ps"]%string)) demo_policy) = false ∧
  map (λ l, allowed (validateCommandAgainstPolicy (Line (js l)) demo_policy))
    ["docker ps"; "true; docker ps"; "FOO=1 docker ps"; "'docker' ps"; "env docker ps"; "cd x && git push"]%string =
  [false; true; true; true; true; true].
Proof. by vm_compute. Qed.

End Demo.
End Commands.
