(* ===== verification/AccessControl.v ===== *)
(** * Access control

    [src/worker-core/access-control.ts]: what a worker may do within its access
    boundary and the scope of its project, and the plan a launch is made with.
    Of a scope, the fields the policy reads. [process.cwd()] is an argument, as
    in [AccessPaths.v]. *)

From stdpp Require Import base numbers option sets strings list.
From S2P Require Import Prelude Json IntegrationAttempt AccessPaths CommandPolicy.

Module Access.
Import AccessPaths.
Import Integration(has).

(** ** Data *)

Inductive AccessBoundary : Set := ReadOnly | IsolatedWorkspaceWrite | ProjectScopedControl | DangerFullAccess.

Inductive ProjectOperation : Set :=
| ReadPath | WritePath | CreateJob | StartWorker | StopWorker | CreateWorktree | WriteReviewMarker
| IntegrateCommit | PushBranch | UseAccount | UseTool.

Inductive ProjectToolCapability : Set :=
| ReadOnlyDiagnostics | RawShell | WorkspaceEdit | ProjectControlBroker | AccountSession | Network.

Inductive AccessDecisionReason : Set :=
| Allowed | DangerFullAccessReason | BoundaryReadOnly | BoundaryInsufficient | MissingProjectScope | InvalidPath
| PathOutsideScope | RegistryRawWriteDenied | AuthPathDenied | GitInternalPathDenied | DockerSocketDenied
| JobPrefixDenied | TmuxPrefixDenied | BranchDenied | RemoteDenied | ForcePushDenied | AccountDenied | ToolDenied
| CannotEnforceAccessBoundary.

Inductive FilesystemPolicyMode : Set := FsReadOnly | FsIsolatedWorkspaceWrite | FsProjectScopedWrite | FsUnrestricted.
Inductive NetworkAccessMode : Set := NetworkDisabled | NetworkRestricted | NetworkUnrestricted.
Inductive RawShellAccessMode : Set := ShellDisabled | ShellSandboxed | ShellUnrestricted.

#[global] Instance AccessBoundary_eq_dec : EqDecision AccessBoundary.
Proof. solve_decision. Defined.
#[global] Instance ProjectToolCapability_eq_dec : EqDecision ProjectToolCapability.
Proof. solve_decision. Defined.
#[global] Instance NetworkAccessMode_eq_dec : EqDecision NetworkAccessMode.
Proof. solve_decision. Defined.

Definition boundary_name (b : AccessBoundary) : jsstring :=
  js match b with
     | ReadOnly => "read_only" | IsolatedWorkspaceWrite => "isolated_workspace_write"
     | ProjectScopedControl => "project_scoped_control" | DangerFullAccess => "danger_full_access"
     end.
Definition tool_name (t : ProjectToolCapability) : jsstring :=
  js match t with
     | ReadOnlyDiagnostics => "read_only_diagnostics" | RawShell => "raw_shell" | WorkspaceEdit => "workspace_edit"
     | ProjectControlBroker => "project_control_broker" | AccountSession => "account_session" | Network => "network"
     end.
Definition reason_name (r : AccessDecisionReason) : jsstring :=
  js match r with
     | Allowed => "allowed" | DangerFullAccessReason => "danger_full_access" | BoundaryReadOnly => "boundary_read_only"
     | BoundaryInsufficient => "boundary_insufficient" | MissingProjectScope => "missing_project_scope"
     | InvalidPath => "invalid_path" | PathOutsideScope => "path_outside_scope"
     | RegistryRawWriteDenied => "registry_raw_write_denied" | AuthPathDenied => "auth_path_denied"
     | GitInternalPathDenied => "git_internal_path_denied" | DockerSocketDenied => "docker_socket_denied"
     | JobPrefixDenied => "job_prefix_denied" | TmuxPrefixDenied => "tmux_prefix_denied" | BranchDenied => "branch_denied"
     | RemoteDenied => "remote_denied" | ForcePushDenied => "force_push_denied" | AccountDenied => "account_denied"
     | ToolDenied => "tool_denied" | CannotEnforceAccessBoundary => "cannot_enforce_access_boundary"
     end.
Definition allCapabilities : list ProjectToolCapability :=
  [ReadOnlyDiagnostics; RawShell; WorkspaceEdit; ProjectControlBroker; AccountSession; Network].

(** [parseAccessBoundary] on a string. *)
Definition parseAccessBoundary (value fieldName : jsstring) : result jsstring AccessBoundary :=
  match List.find (λ b, js_eqb value (boundary_name b))
          [ReadOnly; IsolatedWorkspaceWrite; ProjectScopedControl; DangerFullAccess] with
  | Some b => Ok b
  | None => Throw (fieldName ++ js "_invalid")
  end.

Record ProjectAccessScope : Set := mkScope {
  projectId : jsstring; readRoots : option (list jsstring); isolatedWorkspaceRoot : option jsstring;
  workspaceRoots : option (list jsstring); worktreeRoots : option (list jsstring); registryRoot : option jsstring;
  authRoot : option jsstring; deniedRoots : option (list jsstring); jobIdPrefixes : option (list jsstring);
  tmuxSessionPrefixes : option (list jsstring); allowedBranches : option (list jsstring);
  allowedGitRemotes : option (list jsstring); allowedAccountIds : option (list jsstring);
  allowForcePush : option bool }.

Record AccessPolicyContext : Set := mkContext { boundary : AccessBoundary; scope : option ProjectAccessScope }.

Record PathRequest : Set := mkPathRequest { path : jsstring; realPath : option jsstring }.
Record JobRequest : Set := mkJobRequest {
  jobId : jsstring; jr_registryRoot : option jsstring; workspacePath : option jsstring;
  realWorkspacePath : option jsstring; tmuxSession : option jsstring }.
Record WorktreeRequest : Set := mkWorktreeRequest {
  wt_path : jsstring; wt_realPath : option jsstring; sourceWorkspacePath : option jsstring;
  realSourceWorkspacePath : option jsstring; baseBranch : option jsstring; sourceRef : option jsstring;
  newBranch : option jsstring }.
Record GitRequest : Set := mkGitRequest {
  g_workspacePath : option jsstring; g_realWorkspacePath : option jsstring; branch : jsstring;
  remote : option jsstring; force : option bool; expectedRemoteCommit : option jsstring;
  expectedLocalCommit : option jsstring; confirmExternalRewriteRecovery : option bool }.

Inductive Request : Set :=
| ReadPathRequest (r : PathRequest) | WritePathRequest (r : PathRequest)
| CreateJobRequest (r : JobRequest) | StartWorkerRequest (r : JobRequest) | StopWorkerRequest (r : JobRequest)
| CreateWorktreeRequest (r : WorktreeRequest) | WriteReviewMarkerRequest (r : JobRequest)
| IntegrateCommitRequest (r : GitRequest) | PushBranchRequest (r : GitRequest)
| UseAccountRequest (accountId : jsstring) | UseToolRequest (tool : ProjectToolCapability).

Record PolicyDecision : Set := mkDecision {
  allowed : bool; d_boundary : AccessBoundary; operation : ProjectOperation; reason : AccessDecisionReason;
  d_projectId : option jsstring; evidence : list jsstring }.

Definition listed (l : option (list jsstring)) : list jsstring := default [] l.
Definition some_true (b : option bool) : bool := match b with Some true => true | _ => false end.
(** [...(v ? [v] : [])]. *)
Definition if_truthy (v : option jsstring) : list jsstring := match truthy_opt v with Some s => [s] | None => [] end.

(** ** Roots *)

Definition scopedWorkspaceRoots (s : ProjectAccessScope) : list jsstring :=
  uniqueStrings (listed (workspaceRoots s) ++ listed (worktreeRoots s) ++ if_truthy (isolatedWorkspaceRoot s)).

Definition readRootsFor (scope : option ProjectAccessScope) : list jsstring :=
  match scope with
  | None => []
  | Some s => uniqueStrings (listed (readRoots s) ++ scopedWorkspaceRoots s ++ if_truthy (registryRoot s))
  end.

Definition writeRootsForWorkspaceBoundary (b : AccessBoundary) (scope : option ProjectAccessScope) : list jsstring :=
  match scope, b with
  | Some s, IsolatedWorkspaceWrite => uniqueStrings (if_truthy (isolatedWorkspaceRoot s) ++ listed (workspaceRoots s))
  | Some s, ProjectScopedControl => uniqueStrings (scopedWorkspaceRoots s)
  | _, _ => []
  end.

Definition deniedRootsFor (scope : option ProjectAccessScope) : list jsstring :=
  uniqueStrings ((match scope with Some s => listed (deniedRoots s) ++ if_truthy (authRoot s) | None => [] end) ++
    [js "/var/run/docker.sock"; js "/run/docker.sock"; js "/var/lib/docker.sock"]).

Record ToolManifest : Set := mkManifest { rawShell : RawShellAccessMode; capabilities : list ProjectToolCapability }.

Definition toolManifestFor (b : AccessBoundary) : ToolManifest :=
  match b with
  | ReadOnly => mkManifest ShellDisabled [ReadOnlyDiagnostics]
  | IsolatedWorkspaceWrite => mkManifest ShellSandboxed [ReadOnlyDiagnostics; RawShell; WorkspaceEdit; AccountSession]
  | ProjectScopedControl => mkManifest ShellDisabled [ReadOnlyDiagnostics; ProjectControlBroker; AccountSession]
  | DangerFullAccess => mkManifest ShellUnrestricted allCapabilities
  end.

Definition hex_digit (c : N) : bool :=
  ((48 <=? c)%N && (c <=? 57)%N) || ((97 <=? c)%N && (c <=? 102)%N) || ((65 <=? c)%N && (c <=? 70)%N).
(** [/^[0-9a-f]{40}$/i]. *)
Definition isFullSha1 (v : option jsstring) : bool :=
  match v with Some s => (length s =? 40)%nat && forallb hex_digit s | None => false end.

Definition isConfirmedExternalRewriteRecovery (r : GitRequest) : bool :=
  some_true (confirmExternalRewriteRecovery r) && isFullSha1 (expectedRemoteCommit r) && isFullSha1 (expectedLocalCommit r).

(** ** The policy service *)

Section Service.
Context (cwd : jsstring) (context : AccessPolicyContext).

Definition decision (ok : bool) (op : ProjectOperation) (r : AccessDecisionReason) (e : list jsstring) : PolicyDecision :=
  mkDecision ok (boundary context) op r (projectId <$> scope context) e.
Definition allow (op : ProjectOperation) (r : AccessDecisionReason) : PolicyDecision := decision true op r [].
Definition deny (op : ProjectOperation) (r : AccessDecisionReason) (e : list jsstring) : PolicyDecision := decision false op r e.

(** A truthy path that is not inside the roots. *)
Definition outside (p : option jsstring) (roots : list jsstring) : bool :=
  match truthy_opt p with Some p => negb (pathInsideAnyRoot cwd p roots) | None => false end.

Definition sensitivePathDecision (p : jsstring) (s : ProjectAccessScope) (denyRegistryRawWrite : bool)
    : option (AccessDecisionReason * list jsstring) :=
  sensitiveAccessPathDecision cwd p (deniedRootsFor (Some s)) (registryRoot s) denyRegistryRawWrite
    (mkReasons AuthPathDenied DockerSocketDenied GitInternalPathDenied RegistryRawWriteDenied).

Definition pathDecision (op : ProjectOperation) (r : PathRequest) (roots : list jsstring) (denyRegistryRawWrite : bool)
    : PolicyDecision :=
  match boundary context, scope context with
  | DangerFullAccess, _ => allow op DangerFullAccessReason
  | _, None => deny op MissingProjectScope []
  | _, Some s =>
      match normalizePathOrNull cwd (path r), (normalizePathOrNull cwd <$> truthy_opt (realPath r)) with
      | None, _ | _, Some None => deny op InvalidPath []
      | Some candidate, real =>
          match sensitivePathDecision candidate s denyRegistryRawWrite with
          | Some (why, e) => deny op why e
          | None =>
              let normalizedRoots := List.filter truthy (map (normalizePath cwd) roots) in
              if negb (pathInsideAnyRoot cwd candidate normalizedRoots) ||
                 match real with
                 | Some (Some realCandidate) => negb (pathInsideAnyRoot cwd realCandidate normalizedRoots)
                 | _ => false
                 end
              then deny op PathOutsideScope []
              else allow op Allowed
          end
      end
  end.

Definition canReadPath (r : PathRequest) : PolicyDecision := pathDecision ReadPath r (readRootsFor (scope context)) false.

Definition canWritePath (r : PathRequest) : PolicyDecision :=
  match boundary context with
  | ReadOnly => deny WritePath BoundaryReadOnly []
  | DangerFullAccess => allow WritePath DangerFullAccessReason
  | b => pathDecision WritePath r (writeRootsForWorkspaceBoundary b (scope context)) true
  end.

(** The guards that open the decisions on jobs, branches and worktrees. *)
Definition with_control (op : ProjectOperation) (k : ProjectAccessScope → PolicyDecision) : PolicyDecision :=
  match boundary context with
  | DangerFullAccess => allow op DangerFullAccessReason
  | ProjectScopedControl => match scope context with Some s => k s | None => deny op MissingProjectScope [] end
  | _ => deny op BoundaryInsufficient []
  end.

Definition projectControlJobDecision (op : ProjectOperation) (r : JobRequest) : PolicyDecision :=
  with_control op (λ s,
    if negb (matchesAnyPrefix (jobId r) (listed (jobIdPrefixes s))) then
      deny op JobPrefixDenied [js "job " ++ jobId r ++ js " does not match project job prefixes"]
    else if (match truthy_opt (jr_registryRoot r), truthy_opt (registryRoot s) with
             | Some a, Some b => negb (js_eqb (normalizePath cwd a) (normalizePath cwd b))
             | _, _ => false
             end) then deny op PathOutsideScope [js "registry root differs from project registry root"]
    else if outside (workspacePath r) (scopedWorkspaceRoots s) then
      deny op PathOutsideScope [js "worker workspace is outside project workspace roots"]
    else if outside (realWorkspacePath r) (scopedWorkspaceRoots s) then
      deny op PathOutsideScope [js "worker workspace real path is outside project workspace roots"]
    else match truthy_opt (tmuxSession r) with
         | Some t =>
             if matchesAnyPrefix t (listed (tmuxSessionPrefixes s)) then allow op Allowed
             else deny op TmuxPrefixDenied [js "tmux session " ++ t ++ js " does not match project prefixes"]
         | None => allow op Allowed
         end).

Definition canCreateJob := projectControlJobDecision CreateJob.
Definition canStartWorker := projectControlJobDecision StartWorker.
Definition canStopWorker := projectControlJobDecision StopWorker.
Definition canWriteReviewMarker := projectControlJobDecision WriteReviewMarker.

Definition branchDecision (op : ProjectOperation) (r : GitRequest) : PolicyDecision :=
  with_control op (λ s,
    if outside (g_workspacePath r) (scopedWorkspaceRoots s) then
      deny op PathOutsideScope [js "git workspace is outside project workspace roots"]
    else if outside (g_realWorkspacePath r) (scopedWorkspaceRoots s) then
      deny op PathOutsideScope [js "git workspace real path is outside project workspace roots"]
    else if some_true (force r) && negb (some_true (allowForcePush s)) && negb (isConfirmedExternalRewriteRecovery r) then
      deny op ForcePushDenied []
    else if negb (matchesAnyPattern (branch r) (listed (allowedBranches s))) then
      deny op BranchDenied [js "branch " ++ branch r ++ js " is outside project branch scope"]
    else match truthy_opt (remote r) with
         | Some m =>
             if matchesAnyPattern m (listed (allowedGitRemotes s)) then allow op Allowed
             else deny op RemoteDenied [js "remote " ++ m ++ js " is outside project remote scope"]
         | None => allow op Allowed
         end).

Definition canIntegrateCommit := branchDecision IntegrateCommit.
Definition canPushBranch := branchDecision PushBranch.

Definition worktreeBaseBranchDecision (op : ProjectOperation) (r : GitRequest) : PolicyDecision :=
  match parseRemoteTrackingBranch (branch r), scope context with
  | Some (rm, br), Some s =>
      let matches := λ l, match l with Some l => matchesAnyPattern rm l | None => false end in
      if bool_decide (allowedGitRemotes s ≠ None) && negb (matches (allowedGitRemotes s)) && negb (js_eqb br (js "main"))
      then branchDecision op r
      else if negb (match allowedGitRemotes s with Some l => matchesAnyPattern rm l | None => js_eqb rm (js "origin") end) then
        deny op RemoteDenied [js "remote " ++ rm ++ js " is outside project remote scope"]
      else if negb (match allowedBranches s with Some l => matchesAnyPattern br l | None => js_eqb br (js "main") end) then
        deny op BranchDenied [js "branch " ++ br ++ js " is outside project branch scope"]
      else allow op Allowed
  | _, _ => branchDecision op r
  end.

(** The first branch that is refused. *)
Fixpoint first_denied (f : jsstring → PolicyDecision) (branches : list (option jsstring)) : option PolicyDecision :=
  match branches with
  | [] => None
  | b :: rest =>
      match truthy_opt b with
      | None => first_denied f rest
      | Some b => let d := f b in if allowed d then first_denied f rest else Some d
      end
  end.

Definition canCreateWorktree (r : WorktreeRequest) : PolicyDecision :=
  with_control CreateWorktree (λ s,
    match first_denied (λ b, worktreeBaseBranchDecision CreateWorktree
                               (mkGitRequest (truthy_opt (sourceWorkspacePath r)) None b None None None None None))
            [baseBranch r; sourceRef r; newBranch r] with
    | Some d => d
    | None =>
        if outside (sourceWorkspacePath r) (scopedWorkspaceRoots s) then
          deny CreateWorktree PathOutsideScope [js "source workspace is outside project workspace roots"]
        else if outside (realSourceWorkspacePath r) (scopedWorkspaceRoots s) then
          deny CreateWorktree PathOutsideScope [js "source workspace real path is outside project workspace roots"]
        else pathDecision CreateWorktree (mkPathRequest (wt_path r) (truthy_opt (wt_realPath r))) (listed (worktreeRoots s)) false
    end).

Definition canUseAccount (accountId : jsstring) : PolicyDecision :=
  match boundary context, scope context with
  | DangerFullAccess, _ => allow UseAccount DangerFullAccessReason
  | _, None => deny UseAccount MissingProjectScope []
  | _, Some s =>
      let ids := listed (allowedAccountIds s) in
      if (0 <? length ids)%nat && negb (has accountId ids) then
        deny UseAccount AccountDenied [js "account " ++ accountId ++ js " is outside project account scope"]
      else allow UseAccount Allowed
  end.

Definition canUseTool (tool : ProjectToolCapability) : PolicyDecision :=
  match boundary context with
  | DangerFullAccess => allow UseTool DangerFullAccessReason
  | b =>
      if bool_decide (tool ∈ capabilities (toolManifestFor b)) then allow UseTool Allowed
      else deny UseTool ToolDenied [tool_name tool ++ js " is not available for " ++ boundary_name b]
  end.

Definition decide (r : Request) : PolicyDecision :=
  match r with
  | ReadPathRequest r => canReadPath r | WritePathRequest r => canWritePath r
  | CreateJobRequest r => canCreateJob r | StartWorkerRequest r => canStartWorker r
  | StopWorkerRequest r => canStopWorker r | CreateWorktreeRequest r => canCreateWorktree r
  | WriteReviewMarkerRequest r => canWriteReviewMarker r | IntegrateCommitRequest r => canIntegrateCommit r
  | PushBranchRequest r => canPushBranch r | UseAccountRequest a => canUseAccount a | UseToolRequest t => canUseTool t
  end.
End Service.

(** ** Launch plans *)

Record FilesystemPolicy : Set := mkFilesystem { mode : FilesystemPolicyMode; fs_readRoots : list jsstring;
  fs_writeRoots : list jsstring; fs_deniedRoots : list jsstring }.

Record EnvironmentPolicy : Set := mkEnvironment { isolateHome : bool; isolateTemp : bool; exposeAuthRoot : bool }.

(** The boundary of a token is always [ProjectScopedControl]. *)
Record BrokerTokenScope : Set := mkBrokerToken { bt_projectId : jsstring; bt_jobIdPrefixes : list jsstring;
  bt_registryRoot : option jsstring }.

Record LaunchAdapterCapabilities : Set := mkAdapter {
  canEnforceFilesystemPolicy : bool; canIsolateHome : bool; canIsolateTemp : bool; canDisableRawShell : bool;
  canBrokerProjectControl : bool; canRestrictNetwork : bool }.

Record LaunchPlanInput : Set := mkLaunchInput { in_context : AccessPolicyContext; adapter : LaunchAdapterCapabilities;
  allowDangerFullAccess : option bool; networkAccess : option NetworkAccessMode }.

Record ReadyPlan : Set := mkReady {
  rp_boundary : AccessBoundary; rp_projectId : option jsstring; filesystemPolicy : FilesystemPolicy;
  toolManifest : ToolManifest; environmentPolicy : EnvironmentPolicy; networkPolicy : NetworkAccessMode;
  commandPolicy : Commands.CommandPolicy; brokerTokenScope : option BrokerTokenScope }.

Inductive LaunchPlan : Set :=
| Ready (plan : ReadyPlan)
| Blocked (b : AccessBoundary) (r : AccessDecisionReason) (e : list jsstring).

Section Launch.
Context (cwd : jsstring).

Definition filesystemPolicyFor (b : AccessBoundary) (scope : option ProjectAccessScope) : FilesystemPolicy :=
  match b with
  | DangerFullAccess => mkFilesystem FsUnrestricted [] [] []
  | _ =>
      mkFilesystem (match b with ReadOnly => FsReadOnly | IsolatedWorkspaceWrite => FsIsolatedWorkspaceWrite
                              | _ => FsProjectScopedWrite end)
        (map (normalizePath cwd) (readRootsFor scope))
        (match b with ReadOnly => [] | _ => map (normalizePath cwd) (writeRootsForWorkspaceBoundary b scope) end)
        (map (normalizePath cwd) (deniedRootsFor scope))
  end.

(** What the adapter cannot enforce. *)
Definition launch_missing (i : LaunchPlanInput) : list jsstring :=
  let a := adapter i in let b := boundary (in_context i) in
  let need (ok : bool) (what : string) := if ok then [] else [js what] in
  need (canEnforceFilesystemPolicy a) "filesystem policy enforcement is unavailable" ++
  need (canIsolateHome a) "HOME isolation is unavailable" ++
  need (canIsolateTemp a) "temporary directory isolation is unavailable" ++
  need (bool_decide (networkAccess i = Some NetworkUnrestricted) || canRestrictNetwork a) "network restriction is unavailable" ++
  need (negb (bool_decide (b = ReadOnly)) || canDisableRawShell a) "raw shell cannot be disabled for read-only runs" ++
  need (negb (bool_decide (b = ProjectScopedControl)) || canBrokerProjectControl a) "project control broker is unavailable" ++
  need (negb (bool_decide (b = ProjectScopedControl)) || canDisableRawShell a) "raw shell cannot be disabled for project-scoped control".

Definition launchEnforcementBlocker (i : LaunchPlanInput) : option LaunchPlan :=
  match boundary (in_context i) with
  | DangerFullAccess => None
  | b => match launch_missing i with [] => None | missing => Some (Blocked b CannotEnforceAccessBoundary missing) end
  end.

Definition buildLaunchPlan (i : LaunchPlanInput) : LaunchPlan :=
  let b := boundary (in_context i) in let sc := scope (in_context i) in
  let danger := bool_decide (b = DangerFullAccess) in
  if negb danger && bool_decide (sc = None) then
    Blocked b MissingProjectScope [js "project scope is required for non-danger access boundaries"]
  else if danger && negb (some_true (allowDangerFullAccess i)) then
    Blocked b CannotEnforceAccessBoundary [js "danger_full_access must be explicitly acknowledged"]
  else
    match launchEnforcementBlocker i with
    | Some blocked => blocked
    | None =>
        let registry := match sc with Some s => truthy_opt (registryRoot s) | None => None end in
        Ready (mkReady b (projectId <$> sc) (filesystemPolicyFor b sc) (toolManifestFor b)
          (mkEnvironment (negb danger) (negb danger) false)
          (if danger then NetworkUnrestricted else default NetworkDisabled (networkAccess i))
          (Commands.mkPolicy (negb danger)
             (map js ["docker"; "docker-compose"; "podman"; "sudo"; "su"; "ssh"; "scp"; "rsync"; "tmux"]%string)
             [js "push"] (match registry with Some r => [normalizePath cwd r] | None => [] end)
             (map js ["python"; "python3"; "node"]%string) (map js ["sh"; "bash"; "zsh"]%string))
          (match b, sc with
           | ProjectScopedControl, Some s =>
               Some (mkBrokerToken (projectId s) (listed (jobIdPrefixes s)) (normalizePath cwd <$> registry))
           | _, _ => None
           end))
    end.
End Launch.

(** ** What is promised *)

Section Spec.
Context (cwd : jsstring).

(** [p] is the root or lies below it; the root directory has only itself. *)
Definition below (p root : jsstring) : Prop :=
  segments cwd p = segments cwd root ∨ (segments cwd root ≠ [] ∧ ∃ rest, segments cwd p = segments cwd root ++ rest).
Definition below_any (p : jsstring) (roots : jsstring → Prop) : Prop := ∃ root, roots root ∧ below p root.

(** The roots of a scope, field by field; a blank one counts nowhere but for a
    new worktree. *)
Definition lists (l : option (list jsstring)) (x : jsstring) : Prop := ∃ xs, l = Some xs ∧ x ∈ xs.
Definition not_blank (x : jsstring) : Prop := truthy (js_trim x) = true.
Definition workspace_root (s : ProjectAccessScope) (x : jsstring) : Prop :=
  not_blank x ∧ (lists (workspaceRoots s) x ∨ lists (worktreeRoots s) x ∨ isolatedWorkspaceRoot s = Some x).
Definition read_root (s : ProjectAccessScope) (x : jsstring) : Prop :=
  workspace_root s x ∨ (not_blank x ∧ (lists (readRoots s) x ∨ registryRoot s = Some x)).
Definition write_root (b : AccessBoundary) (s : ProjectAccessScope) (x : jsstring) : Prop :=
  match b with
  | IsolatedWorkspaceWrite => not_blank x ∧ (lists (workspaceRoots s) x ∨ isolatedWorkspaceRoot s = Some x)
  | ProjectScopedControl => workspace_root s x
  | ReadOnly | DangerFullAccess => False
  end.
Definition docker_socket (x : jsstring) : Prop :=
  x = js "/var/run/docker.sock" ∨ x = js "/run/docker.sock" ∨ x = js "/var/lib/docker.sock".
Definition denied_root (s : ProjectAccessScope) (x : jsstring) : Prop :=
  docker_socket x ∨ (not_blank x ∧ (lists (deniedRoots s) x ∨ authRoot s = Some x)).

(** The tools of a boundary. *)
Definition has_tool (b : AccessBoundary) (t : ProjectToolCapability) : Prop :=
  match b with
  | ReadOnly => t = ReadOnlyDiagnostics
  | IsolatedWorkspaceWrite => t = ReadOnlyDiagnostics ∨ t = RawShell ∨ t = WorkspaceEdit ∨ t = AccountSession
  | ProjectScopedControl => t = ReadOnlyDiagnostics ∨ t = ProjectControlBroker ∨ t = AccountSession
  | DangerFullAccess => True
  end.

Definition well_formed (p : jsstring) : Prop := truthy (js_trim p) = true ∧ Integration.isAbsolute p = true.

(** A path that may be touched in a scope, with a real path or not. *)
Record permitted (s : ProjectAccessScope) (roots : jsstring → Prop) (protect_registry : bool) (r : PathRequest) : Prop := {
  pm_path : well_formed (path r);
  pm_root : below_any (path r) roots;
  pm_denied : ¬ below_any (path r) (denied_root s);
  pm_git seg : seg ∈ segments cwd (path r) → js ".git" ∉ Integration.split_slash (Integration.replace_backslashes seg);
  pm_registry root : protect_registry = true → registryRoot s = Some root → root ≠ [] → ¬ below (path r) root;
  pm_real p : realPath r = Some p → p ≠ [] → well_formed p ∧ below_any p roots }.

Lemma pathInside_below p root : pathInside cwd p root = true ↔ below p root.
Proof. apply pathInside_spec. Qed.

(** The list of roots that the code makes holds what is promised. *)
Class Roots (roots : list jsstring) (P : jsstring → Prop) : Prop := elem_of_roots x : x ∈ roots ↔ P x.

Lemma pathInsideAnyRoot_below p roots P : Roots roots P → pathInsideAnyRoot cwd p roots = true ↔ below_any p P.
Proof. intros HR. rewrite pathInsideAnyRoot_true. setoid_rewrite pathInside_below. by setoid_rewrite (elem_of_roots). Qed.

Lemma pathInsideAnyRoot_not_below p roots P : Roots roots P → pathInsideAnyRoot cwd p roots = false ↔ ¬ below_any p P.
Proof. intros HR. by rewrite <- (pathInsideAnyRoot_below p roots P HR), not_true_iff_false. Qed.

Lemma truthy_opt_Some v s : truthy_opt v = Some s ↔ v = Some s ∧ s ≠ [].
Proof. destruct v as [[|c v]|]; simpl; naive_solver. Qed.
Lemma truthy_opt_None v : truthy_opt v = None ↔ ∀ s, v = Some s → s = [].
Proof. destruct v as [[|c v]|]; simpl; [naive_solver| |naive_solver]. split; [done|]. intros H. by specialize (H _ eq_refl). Qed.

Lemma elem_of_if_truthy x v : x ∈ if_truthy v ↔ v = Some x ∧ x ≠ [].
Proof.
  unfold if_truthy. destruct (truthy_opt v) eqn:E.
  - apply truthy_opt_Some in E as [-> Hne]. rewrite list_elem_of_singleton. naive_solver.
  - split; [by intros ?%not_elem_of_nil|]. intros [Hv Hne]. by destruct (Hne (proj1 (truthy_opt_None _) E _ Hv)).
Qed.

Lemma elem_of_listed x l : x ∈ listed l ↔ lists l x.
Proof. unfold lists. destruct l; cbn; [naive_solver|set_solver]. Qed.
Lemma not_blank_nonempty x : not_blank x → x ≠ [].
Proof. by intros H ->. Qed.

Ltac roots := intros x; unfold read_root, write_root, workspace_root;
  repeat rewrite ?elem_of_uniqueStrings, ?elem_of_app, ?elem_of_if_truthy, ?elem_of_listed;
  fold (not_blank x); pose proof (not_blank_nonempty x); tauto.

#[global] Instance listed_roots l : Roots (listed l) (lists l).
Proof. intros x. apply elem_of_listed. Qed.
#[global] Instance workspace_roots s : Roots (scopedWorkspaceRoots s) (workspace_root s).
Proof. unfold scopedWorkspaceRoots. roots. Qed.
#[global] Instance read_roots s : Roots (readRootsFor (Some s)) (read_root s).
Proof. unfold readRootsFor, scopedWorkspaceRoots. roots. Qed.
#[global] Instance write_roots b s : Roots (writeRootsForWorkspaceBoundary b (Some s)) (write_root b s).
Proof.
  destruct b; unfold writeRootsForWorkspaceBoundary, scopedWorkspaceRoots; [intros x; set_solver|roots|roots|intros x; set_solver].
Qed.
#[global] Instance denied_roots s : Roots (deniedRootsFor (Some s)) (denied_root s).
Proof.
  intros x. unfold deniedRootsFor, denied_root, docker_socket.
  rewrite elem_of_uniqueStrings, !elem_of_app, elem_of_if_truthy, elem_of_listed, !elem_of_cons, elem_of_nil.
  fold (not_blank x). pose proof (not_blank_nonempty x).
  assert (docker_socket x → not_blank x) by (unfold docker_socket; by intros [->|[->| ->]]). unfold docker_socket in *. tauto.
Qed.

Lemma toolManifestFor_tools b t : t ∈ capabilities (toolManifestFor b) ↔ has_tool b t.
Proof. destruct b, t; cbn; set_solver. Qed.

Lemma normalizePathOrNull_Some p q : normalizePathOrNull cwd p = Some q ↔ well_formed p ∧ q = normalizePath cwd p.
Proof.
  unfold normalizePathOrNull, well_formed.
  destruct (truthy (js_trim p)), (Integration.isAbsolute p); simpl; naive_solver.
Qed.

(** The roots are not changed by normalising and filtering them. *)
Lemma normalized_roots p roots :
  pathInsideAnyRoot cwd p (List.filter truthy (map (normalizePath cwd) roots)) = pathInsideAnyRoot cwd p roots.
Proof.
  rewrite <- (pathInsideAnyRoot_normal_roots cwd p roots). f_equal.
  induction roots as [|r roots IH]; [done|]. cbn [map List.filter]. rewrite IH.
  by rewrite (normalizePath_segments cwd r).
Qed.

Lemma sensitive_None p s protect : sensitivePathDecision cwd (normalizePath cwd p) s protect = None ↔
  ¬ below_any p (denied_root s) ∧
  (∀ seg, seg ∈ segments cwd p → js ".git" ∉ Integration.split_slash (Integration.replace_backslashes seg)) ∧
  ∀ root, protect = true → registryRoot s = Some root → root ≠ [] → ¬ below p root.
Proof.
  unfold sensitivePathDecision, sensitiveAccessPathDecision.
  rewrite pathInsideAnyRoot_normal, <- (pathInsideAnyRoot_not_below p (deniedRootsFor (Some s))) by apply _.
  assert (hasPathSegment cwd (normalizePath cwd p) (js ".git") = hasPathSegment cwd p (js ".git")) as ->.
  { unfold hasPathSegment. by rewrite (proj2 (normalizePath_eq cwd _ _) (segments_normalizePath cwd p)). }
  assert ((∀ seg, seg ∈ segments cwd p → js ".git" ∉ Integration.split_slash (Integration.replace_backslashes seg)) ↔
    hasPathSegment cwd p (js ".git") = false) as ->.
  { rewrite <- not_true_iff_false, hasPathSegment_true by done. naive_solver. }
  destruct (pathInsideAnyRoot cwd p _); [naive_solver|]. destruct (hasPathSegment cwd p _); [naive_solver|].
  setoid_rewrite <- pathInside_below. destruct protect; [|naive_solver].
  destruct (truthy_opt (registryRoot s)) as [root|] eqn:E.
  - apply truthy_opt_Some in E as [E Hne]. rewrite pathInside_normal.
    destruct (pathInside cwd p root) eqn:Ei; split; try done.
    + intros (_ & _ & H). by destruct (H root).
    + intros _. split_and!; [done|done|]. intros root' _ Hr' _. rewrite E in Hr'. injection Hr' as <-. by rewrite Ei.
  - split; [|done]. intros _. split_and!; [done|done|]. intros root _ Hr Hne.
    by destruct (Hne (proj1 (truthy_opt_None _) E root Hr)).
Qed.

Lemma pathDecision_exact ctx op r roots P protect : boundary ctx ≠ DangerFullAccess → Roots roots P →
  allowed (pathDecision cwd ctx op r roots protect) = true ↔ ∃ s, scope ctx = Some s ∧ permitted s P protect r.
Proof.
  intros Hb HR. unfold pathDecision. destruct (scope ctx) as [s|]; [|destruct (boundary ctx); naive_solver].
  assert (∀ X Y : PolicyDecision, (match boundary ctx with DangerFullAccess => X | _ => Y end) = Y) as ->.
  { by destruct (boundary ctx). }
  destruct (normalizePathOrNull cwd (path r)) as [q|] eqn:Ep.
  2: { split; [done|]. intros (s' & _ & []). by rewrite (proj2 (normalizePathOrNull_Some _ _) (conj pm_path0 eq_refl)) in Ep. }
  apply normalizePathOrNull_Some in Ep as [Hwf ->].
  destruct (truthy_opt (realPath r)) as [real|] eqn:Er; cbn [fmap option_fmap option_map].
  - apply truthy_opt_Some in Er as [Er Hne]. destruct (normalizePathOrNull cwd real) as [q|] eqn:Eq.
    2: { split; [done|]. intros (s' & _ & []). destruct (pm_real0 _ Er Hne) as [Hw _].
         by rewrite (proj2 (normalizePathOrNull_Some _ _) (conj Hw eq_refl)) in Eq. }
    apply normalizePathOrNull_Some in Eq as [Hwr ->].
    rewrite !normalized_roots, !pathInsideAnyRoot_normal.
    destruct (sensitivePathDecision _ _ _ _) as [[why e]|] eqn:Es.
    { split; [done|]. intros (s' & [= ->] & []).
      rewrite (proj2 (sensitive_None _ _ _) (conj pm_denied0 (conj pm_git0 pm_registry0))) in Es. done. }
    apply sensitive_None in Es as (Hd & Hg & Hr).
    destruct (pathInsideAnyRoot cwd (path r) roots) eqn:E1; [destruct (pathInsideAnyRoot cwd real roots) eqn:E2|]; cbn [negb orb].
    + apply (pathInsideAnyRoot_below _ _ P HR) in E1, E2. split; [|done]. intros _. exists s. split; [done|]. split; try done.
      intros p Hp _. by simplify_eq.
    + split; [done|]. intros (s' & _ & []). destruct (pm_real0 _ Er Hne) as [_ H].
      by rewrite <- (pathInsideAnyRoot_below _ _ P HR), E2 in H.
    + split; [done|]. intros (s' & _ & []). by rewrite <- (pathInsideAnyRoot_below _ _ P HR), E1 in pm_root0.
  - rewrite !normalized_roots, !pathInsideAnyRoot_normal.
    destruct (sensitivePathDecision _ _ _ _) as [[why e]|] eqn:Es.
    { split; [done|]. intros (s' & [= ->] & []).
      rewrite (proj2 (sensitive_None _ _ _) (conj pm_denied0 (conj pm_git0 pm_registry0))) in Es. done. }
    apply sensitive_None in Es as (Hd & Hg & Hr).
    destruct (pathInsideAnyRoot cwd (path r) roots) eqn:E1; cbn [negb orb].
    + apply (pathInsideAnyRoot_below _ _ P HR) in E1. split; [|done]. intros _. exists s. split; [done|]. split; try done.
      intros p Hp Hpn. by destruct (Hpn (proj1 (truthy_opt_None _) Er p Hp)).
    + split; [done|]. intros (s' & _ & []). by rewrite <- (pathInsideAnyRoot_below _ _ P HR), E1 in pm_root0.
Qed.

(** A truthy path lies below the workspace roots. *)
Definition inside_opt (p : option jsstring) (roots : jsstring → Prop) : Prop :=
  ∀ q, p = Some q → q ≠ [] → below_any q roots.

Lemma outside_false p s : outside cwd p (scopedWorkspaceRoots s) = false ↔ inside_opt p (workspace_root s).
Proof.
  unfold outside, inside_opt. destruct (truthy_opt p) as [q|] eqn:E.
  - apply truthy_opt_Some in E as [-> Hne]. rewrite negb_false_iff, (pathInsideAnyRoot_below q _ (workspace_root s)) by apply _. naive_solver.
  - split; [|done]. intros _ q Hq Hne. by destruct (Hne (proj1 (truthy_opt_None _) E q Hq)).
Qed.

Lemma some_true_iff b : some_true b = true ↔ b = Some true.
Proof. destruct b as [[]|]; naive_solver. Qed.

(** Forty hexadecimal digits. *)
Definition full_sha (v : option jsstring) : Prop :=
  ∃ s, v = Some s ∧ length s = 40%nat ∧ Forall (λ c, hex_digit c = true) s.

Lemma isFullSha1_true v : isFullSha1 v = true ↔ full_sha v.
Proof.
  unfold isFullSha1, full_sha. destruct v as [s|]; [|naive_solver].
  assert (forallb hex_digit s = true ↔ Forall (λ c, hex_digit c = true) s) as H.
  { rewrite forallb_forall, Forall_forall. by setoid_rewrite list_elem_of_In. }
  rewrite andb_true_iff, Nat.eqb_eq, H. naive_solver.
Qed.

(** A branch a scope lets be integrated or pushed: with force where the scope
    allows it, or when the recovery of a history rewritten elsewhere was
    confirmed for two named commits. *)
Record branch_permitted (s : ProjectAccessScope) (r : GitRequest) : Prop := {
  bp_workspace : inside_opt (g_workspacePath r) (workspace_root s);
  bp_real : inside_opt (g_realWorkspacePath r) (workspace_root s);
  bp_force : force r = Some true → allowForcePush s = Some true ∨
    (confirmExternalRewriteRecovery r = Some true ∧ full_sha (expectedRemoteCommit r) ∧ full_sha (expectedLocalCommit r));
  bp_branch : matches (branch r) (listed (allowedBranches s));
  bp_remote m : remote r = Some m → m ≠ [] → matches m (listed (allowedGitRemotes s)) }.

(** A job a scope lets be controlled. *)
Record job_permitted (s : ProjectAccessScope) (r : JobRequest) : Prop := {
  jp_job : ∃ prefix rest, prefix ∈ listed (jobIdPrefixes s) ∧ jobId r = prefix ++ rest;
  jp_registry a b : jr_registryRoot r = Some a → a ≠ [] → registryRoot s = Some b → b ≠ [] →
    segments cwd a = segments cwd b;
  jp_workspace : inside_opt (workspacePath r) (workspace_root s);
  jp_real : inside_opt (realWorkspacePath r) (workspace_root s);
  jp_tmux t : tmuxSession r = Some t → t ≠ [] → ∃ prefix rest, prefix ∈ listed (tmuxSessionPrefixes s) ∧ t = prefix ++ rest }.

Lemma with_control_exact ctx op k : boundary ctx ≠ DangerFullAccess →
  allowed (with_control ctx op k) = true ↔
  boundary ctx = ProjectScopedControl ∧ ∃ s, scope ctx = Some s ∧ allowed (k s) = true.
Proof. intros H. unfold with_control. destruct (boundary ctx), (scope ctx); naive_solver. Qed.

(** A guard that refuses. *)
Lemma guard_allowed (b : bool) (X Y : PolicyDecision) : allowed X = false →
  allowed (if b then X else Y) = true ↔ b = false ∧ allowed Y = true.
Proof. intros H. destruct b; [rewrite H; by intuition|by intuition]. Qed.

Lemma optional_allowed v (f : jsstring → bool) (X : PolicyDecision) (Y : jsstring → PolicyDecision) :
  allowed X = true → (∀ t, allowed (Y t) = false) →
  allowed (match truthy_opt v with Some t => if f t then X else Y t | None => X end) = true ↔
  ∀ t, v = Some t → t ≠ [] → f t = true.
Proof.
  intros HX HY. destruct (truthy_opt v) as [t|] eqn:E.
  - apply truthy_opt_Some in E as [-> Hne]. destruct (f t) eqn:Ef.
    + split; [|done]. intros _ t' ? _. by simplify_eq.
    + rewrite HY. split; [done|]. intros H. by rewrite (H t) in Ef.
  - split; [|done]. intros _ t Ht Hne. by destruct (Hne (proj1 (truthy_opt_None _) E t Ht)).
Qed.

Lemma branch_exact ctx op r : boundary ctx ≠ DangerFullAccess →
  allowed (branchDecision cwd ctx op r) = true ↔
  boundary ctx = ProjectScopedControl ∧ ∃ s, scope ctx = Some s ∧ branch_permitted s r.
Proof.
  intros Hb. unfold branchDecision. rewrite with_control_exact by done.
  apply and_iff_compat_l. f_equiv. intros s. apply and_iff_compat_l.
  rewrite !guard_allowed by done. rewrite !outside_false, optional_allowed by done.
  rewrite negb_false_iff, matchesAnyPattern_true. setoid_rewrite matchesAnyPattern_true.
  assert (some_true (force r) && negb (some_true (allowForcePush s)) && negb (isConfirmedExternalRewriteRecovery r) = false ↔
    (force r = Some true → allowForcePush s = Some true ∨ (confirmExternalRewriteRecovery r = Some true ∧
     full_sha (expectedRemoteCommit r) ∧ full_sha (expectedLocalCommit r)))) as ->.
  { rewrite <- !some_true_iff, <- !isFullSha1_true. unfold isConfirmedExternalRewriteRecovery.
    destruct (some_true (force r)), (some_true (allowForcePush s)), (some_true (confirmExternalRewriteRecovery r)),
      (isFullSha1 (expectedRemoteCommit r)), (isFullSha1 (expectedLocalCommit r)); cbn; intuition done. }
  split; [by intros (? & ? & ? & ? & ?)|]. by intros [].
Qed.

Lemma job_exact ctx op r : boundary ctx ≠ DangerFullAccess →
  allowed (projectControlJobDecision cwd ctx op r) = true ↔
  boundary ctx = ProjectScopedControl ∧ ∃ s, scope ctx = Some s ∧ job_permitted s r.
Proof.
  intros Hb. unfold projectControlJobDecision. rewrite with_control_exact by done.
  apply and_iff_compat_l. f_equiv. intros s. apply and_iff_compat_l.
  rewrite !guard_allowed by done. rewrite !outside_false, optional_allowed by done.
  rewrite negb_false_iff, matchesAnyPrefix_true. setoid_rewrite matchesAnyPrefix_true.
  assert (match truthy_opt (jr_registryRoot r), truthy_opt (registryRoot s) with
          | Some a, Some b => negb (js_eqb (normalizePath cwd a) (normalizePath cwd b)) | _, _ => false end = false ↔
    (∀ a b, jr_registryRoot r = Some a → a ≠ [] → registryRoot s = Some b → b ≠ [] → segments cwd a = segments cwd b)) as ->.
  { setoid_rewrite <- normalizePath_eq. destruct (truthy_opt (jr_registryRoot r)) as [a|] eqn:Ea; [destruct (truthy_opt (registryRoot s)) as [b|] eqn:Eb|].
    - apply truthy_opt_Some in Ea as [-> ?], Eb as [-> ?]. rewrite negb_false_iff, js_eqb_true. naive_solver.
    - split; [|done]. intros _ x y _ _ Hy Hn. by destruct (Hn (proj1 (truthy_opt_None _) Eb y Hy)).
    - split; [|done]. intros _ x y Hx Hn _ _. by destruct (Hn (proj1 (truthy_opt_None _) Ea x Hx)). }
  split; [by intros (? & ? & ? & ? & ?)|]. by intros [].
Qed.

(** A branch a worktree may start from: of a remote in scope, with a name in
    scope, or a local one in scope. A name with a slash is local only where the
    scope lists its remotes and the name is not that of a main branch. *)
Definition remote_in_scope (s : ProjectAccessScope) (rm : jsstring) : Prop :=
  match allowedGitRemotes s with Some l => matches rm l | None => rm = js "origin" end.
Definition name_in_scope (s : ProjectAccessScope) (br : jsstring) : Prop :=
  match allowedBranches s with Some l => matches br l | None => br = js "main" end.

Definition worktree_branch (s : ProjectAccessScope) (workspace : option jsstring) (b : jsstring) : Prop :=
  let local := branch_permitted s (mkGitRequest workspace None b None None None None None) in
  (∃ rm br, remote_tracking b rm br ∧
     ((remote_in_scope s rm ∧ name_in_scope s br) ∨
      (allowedGitRemotes s ≠ None ∧ ¬ remote_in_scope s rm ∧ br ≠ js "main" ∧ local))) ∨
  ((∀ rm br, ¬ remote_tracking b rm br) ∧ local).

(** What a scope grants below full access. *)
Definition granted (ctx : AccessPolicyContext) (r : Request) : Prop :=
  match r with
  | ReadPathRequest r => ∃ s, scope ctx = Some s ∧ permitted s (read_root s) false r
  | WritePathRequest r => boundary ctx ≠ ReadOnly ∧
      ∃ s, scope ctx = Some s ∧ permitted s (write_root (boundary ctx) s) true r
  | CreateJobRequest r | StartWorkerRequest r | StopWorkerRequest r | WriteReviewMarkerRequest r =>
      boundary ctx = ProjectScopedControl ∧ ∃ s, scope ctx = Some s ∧ job_permitted s r
  | IntegrateCommitRequest r | PushBranchRequest r =>
      boundary ctx = ProjectScopedControl ∧ ∃ s, scope ctx = Some s ∧ branch_permitted s r
  | CreateWorktreeRequest r =>
      boundary ctx = ProjectScopedControl ∧
      ∃ s, scope ctx = Some s ∧
        (∀ b, Some b ∈ [baseBranch r; sourceRef r; newBranch r] → b ≠ [] →
           worktree_branch s (truthy_opt (sourceWorkspacePath r)) b) ∧
        inside_opt (sourceWorkspacePath r) (workspace_root s) ∧
        inside_opt (realSourceWorkspacePath r) (workspace_root s) ∧
        permitted s (lists (worktreeRoots s)) false (mkPathRequest (wt_path r) (truthy_opt (wt_realPath r)))
  | UseAccountRequest a => ∃ s, scope ctx = Some s ∧ (listed (allowedAccountIds s) = [] ∨ a ∈ listed (allowedAccountIds s))
  | UseToolRequest t => has_tool (boundary ctx) t
  end.

Lemma first_denied_None f bs : first_denied f bs = None ↔ ∀ b, Some b ∈ bs → b ≠ [] → allowed (f b) = true.
Proof.
  induction bs as [|v bs IH]; simpl; [split; [by intros _ b ?%not_elem_of_nil|done]|].
  destruct (truthy_opt v) as [b|] eqn:E.
  - apply truthy_opt_Some in E as [-> Hne]. destruct (allowed (f b)) eqn:Ef.
    + rewrite IH. split; [|intros H b' Hb; apply H; by right]. intros H b' [[= ->]|Hb]%elem_of_cons; [done|by apply H].
    + split; [done|]. intros H. by rewrite (H b) in Ef by first [left|done].
  - rewrite IH. split; [|intros H b Hb; apply H; by right]. intros H b [<-|Hb]%elem_of_cons Hne; [|by apply H].
    by destruct (Hne (proj1 (truthy_opt_None _) E b eq_refl)).
Qed.

Lemma remote_tracking_cases v (K : jsstring → jsstring → Prop) (L : Prop) :
  (∃ rm br, remote_tracking v rm br ∧ K rm br) ∨ ((∀ rm br, ¬ remote_tracking v rm br) ∧ L) ↔
  match parseRemoteTrackingBranch v with Some (rm, br) => K rm br | None => L end.
Proof.
  setoid_rewrite <- parseRemoteTrackingBranch_Some.
  destruct (parseRemoteTrackingBranch v) as [[rm br]|]; split; [intros [(? & ? & [= <- <-] & H)|[H _]]|..]; naive_solver.
Qed.

Lemma worktree_branch_exact ctx s r : boundary ctx = ProjectScopedControl → scope ctx = Some s →
  remote r = None → force r = None → g_realWorkspacePath r = None →
  allowed (worktreeBaseBranchDecision cwd ctx CreateWorktree r) = true ↔ worktree_branch s (g_workspacePath r) (branch r).
Proof.
  intros Hb Hs Hr Hf Hrw. unfold worktreeBaseBranchDecision, worktree_branch. rewrite Hs, remote_tracking_cases. unfold remote_in_scope, name_in_scope.
  assert (allowed (branchDecision cwd ctx CreateWorktree r) = true ↔
    branch_permitted s (mkGitRequest (g_workspacePath r) None (branch r) None None None None None)) as Hlocal.
  { rewrite branch_exact by by rewrite Hb. rewrite Hs, Hb. split.
    - by intros (_ & s' & [= <-] & []).
    - intros []. split; [done|]. exists s. split; [done|]. split; try done; rewrite ?Hrw, ?Hf, ?Hr; by intros. }
  destruct (parseRemoteTrackingBranch (branch r)) as [[rm br]|]; [|done].
  assert (match allowedBranches s with Some l => matches br l | None => br = js "main" end ↔
    match allowedBranches s with Some l => matchesAnyPattern br l | None => js_eqb br (js "main") end = true) as ->.
  { destruct (allowedBranches s); by rewrite ?matchesAnyPattern_true, ?js_eqb_true. }
  destruct (allowedGitRemotes s) as [l|]; rewrite <- ?matchesAnyPattern_true.
  - rewrite bool_decide_true by done. cbn [andb]. destruct (matchesAnyPattern rm l) eqn:Em; cbn [negb andb].
    + destruct (allowedBranches s) as [bs|]; [destruct (matchesAnyPattern br bs) eqn:Eb|destruct (js_eqb br (js "main")) eqn:Eb];
        cbn; bools; naive_solver.
    + destruct (js_eqb br (js "main")) eqn:Eb; cbn [negb]; bools; naive_solver.
  - rewrite bool_decide_false by naive_solver. cbn [andb]. destruct (js_eqb rm (js "origin")) eqn:Em; cbn [negb]; bools; [|naive_solver].
    destruct (allowedBranches s) as [bs|]; [destruct (matchesAnyPattern br bs) eqn:Eb|destruct (js_eqb br (js "main")) eqn:Eb];
      cbn; bools; naive_solver.
Qed.

Lemma worktree_exact ctx r : boundary ctx ≠ DangerFullAccess →
  allowed (canCreateWorktree cwd ctx r) = true ↔ granted ctx (CreateWorktreeRequest r).
Proof.
  intros Hb. unfold canCreateWorktree. rewrite with_control_exact by done. cbn [granted].
  split; (intros [Hc (s & Hs & H)]; split; [done|]; exists s; split; [done|]).
  - destruct (first_denied _ _) as [d|] eqn:E.
    { exfalso. clear Hs. induction (_ :: _ :: _) as [|v l IH] in E |- *; simpl in E; [done|].
      destruct (truthy_opt v) as [b|]; [|by apply IH]. case_match eqn:Ea; [by apply IH|]. congruence. }
    rewrite first_denied_None in E. rewrite !guard_allowed in H by done. rewrite !outside_false in H.
    destruct H as (? & ? & (s' & Hs' & ?)%(pathDecision_exact _ _ _ _ (lists (worktreeRoots s)))); [|done|apply _]. simplify_eq. split_and!; try done.
    intros b Hin Hne. specialize (E b Hin Hne). by apply (worktree_branch_exact ctx s) in E.
  - destruct H as (HB & ? & ? & ?).
    rewrite (proj2 (first_denied_None _ _)); [|intros b Hin Hne; by apply (worktree_branch_exact ctx s), HB].
    rewrite !guard_allowed by done. rewrite !outside_false. split_and!; [done|done|].
    apply (pathDecision_exact _ _ _ _ (lists (worktreeRoots s))); [done|apply _|eauto].
Qed.

(** The decisions are exactly the grants. *)
Lemma decide_granted ctx r : boundary ctx ≠ DangerFullAccess → allowed (decide cwd ctx r) = true ↔ granted ctx r.
Proof.
  intros Hb. destruct r as [r|r|r|r|r|r|r|r|r|a|t]; cbn [decide];
    try (unfold canCreateJob, canStartWorker, canStopWorker, canWriteReviewMarker; by apply job_exact);
    try (unfold canIntegrateCommit, canPushBranch; by apply branch_exact); try by apply worktree_exact.
  - unfold canReadPath. cbn [granted]. destruct (scope ctx) as [s|] eqn:Hs.
    + rewrite (pathDecision_exact _ _ _ _ (read_root s)) by (done || apply _). rewrite Hs. naive_solver.
    + unfold pathDecision. rewrite Hs. destruct (boundary ctx); naive_solver.
  - cbn [granted]. unfold canWritePath.
    assert (boundary ctx = ReadOnly ∨ boundary ctx ≠ ReadOnly) as [Hr|Hr] by (destruct (boundary ctx); auto).
    { rewrite Hr. naive_solver. }
    transitivity (allowed (pathDecision cwd ctx WritePath r (writeRootsForWorkspaceBoundary (boundary ctx) (scope ctx)) true) = true).
    { by destruct (boundary ctx). }
    destruct (scope ctx) as [s|] eqn:Hs.
    + rewrite (pathDecision_exact _ _ _ _ (write_root (boundary ctx) s)) by (done || apply _). rewrite Hs. naive_solver.
    + unfold pathDecision. rewrite Hs. destruct (boundary ctx); naive_solver.
  - cbn [granted]. unfold canUseAccount. destruct (scope ctx) as [s|]; [|destruct (boundary ctx); naive_solver].
    transitivity ((0 <? length (listed (allowedAccountIds s)))%nat && negb (has a (listed (allowedAccountIds s))) = false).
    { destruct (boundary ctx); try done; destruct (_ && _); naive_solver. }
    rewrite andb_false_iff, negb_false_iff, Integration.has_true.
    assert ((0 <? length (listed (allowedAccountIds s)))%nat = false ↔ listed (allowedAccountIds s) = []) as ->.
    { rewrite Nat.ltb_ge, Nat.le_0_r. apply length_zero_iff_nil. }
    naive_solver.
  - cbn [granted]. unfold canUseTool. rewrite <- toolManifestFor_tools. destruct (boundary ctx); try done; case_bool_decide; naive_solver.
Qed.
End Spec.

(** ** Properties *)

(** C27: Below full access the policy allows exactly what the scope grants: a
    path well formed, below a root of the boundary by its segments, outside the
    denied roots, git directories and, for writing, the registry, its real path
    below a root as well; jobs by prefix, workspace and session; branches by
    pattern and remote, and with force where the scope allows it or for the
    confirmed recovery of a rewritten history; worktrees from branches in scope;
    accounts and tools of the boundary. Roots, denied roots and tools are spelled
    out per boundary from the fields of the scope. Control needs the project-scoped boundary, and
    nothing but tools is granted without a scope. With full access everything
    is allowed. *)
Theorem decide_exact cwd ctx r :
  allowed (decide cwd ctx r) = true ↔ boundary ctx = DangerFullAccess ∨ (boundary ctx ≠ DangerFullAccess ∧ granted cwd ctx r).
Proof.
  destruct (base.decide (boundary ctx = DangerFullAccess)) as [Hb|Hb]; [|rewrite decide_granted by done; naive_solver].
  split; [by left|]. intros _. destruct r as [r|r|r|r|r|r|r|r|r|a|t]; cbn [Access.decide];
    unfold canReadPath, canWritePath, pathDecision, canCreateJob, canStartWorker, canStopWorker, canWriteReviewMarker,
      projectControlJobDecision, canCreateWorktree, canIntegrateCommit, canPushBranch, branchDecision, with_control,
      canUseAccount, canUseTool; by rewrite Hb.
Qed.

(** The real path of a path takes part in the decision with its roots only. *)
Lemma real_path_unchecked cwd ctx s p real : boundary ctx ≠ DangerFullAccess → real ≠ [] → scope ctx = Some s →
  allowed (canWritePath cwd ctx (mkPathRequest p None)) = true → well_formed real →
  below_any cwd real (write_root (boundary ctx) s) →
  allowed (canWritePath cwd ctx (mkPathRequest p (Some real))) = true.
Proof.
  intros Hb Hne Hsc H Hw Hr. change (canWritePath cwd ctx ?r) with (Access.decide cwd ctx (WritePathRequest r)) in *.
  rewrite decide_granted in * by done. destruct H as (Hro & s' & Hs & []). simplify_eq. split; [done|]. exists s. split; [done|].
  split; try done. intros q Hq _. cbn in Hq. by simplify_eq.
Qed.

(** What an adapter has to be able to do for a boundary. *)
Record can_enforce (b : AccessBoundary) (network : option NetworkAccessMode) (a : LaunchAdapterCapabilities) : Prop := {
  ce_filesystem : canEnforceFilesystemPolicy a = true;
  ce_home : canIsolateHome a = true;
  ce_temp : canIsolateTemp a = true;
  ce_network : network ≠ Some NetworkUnrestricted → canRestrictNetwork a = true;
  ce_shell : b = ReadOnly ∨ b = ProjectScopedControl → canDisableRawShell a = true;
  ce_broker : b = ProjectScopedControl → canBrokerProjectControl a = true }.

Lemma launch_missing_nil i : launch_missing i = [] → can_enforce (boundary (in_context i)) (networkAccess i) (adapter i).
Proof.
  unfold launch_missing. intros H. repeat (apply app_nil in H as [? H]).
  assert (∀ (ok : bool) (w : string), (if ok then [] else [js w]) = [] → ok = true) as Hok by by intros [].
  repeat match goal with H : (if _ then [] else _) = [] |- _ => apply Hok in H end.
  split; try done.
  - intros Hn. by rewrite (bool_decide_false _ Hn) in *.
  - intros [Hb|Hb]; by rewrite Hb in *.
  - intros Hb. by rewrite Hb in *.
Qed.

Lemma launch_missing_Ready cwd i plan : buildLaunchPlan cwd i = Ready plan → boundary (in_context i) ≠ DangerFullAccess →
  scope (in_context i) ≠ None ∧ can_enforce (boundary (in_context i)) (networkAccess i) (adapter i).
Proof.
  unfold buildLaunchPlan, launchEnforcementBlocker. intros H Hb. rewrite (bool_decide_false _ Hb) in H. cbn [negb andb] in H.
  case_bool_decide; [done|]. split; [done|]. apply launch_missing_nil.
  destruct (launch_missing i); [done|]. by destruct (boundary (in_context i)).
Qed.

Lemma plan_Ready cwd i plan : buildLaunchPlan cwd i = Ready plan →
  rp_boundary plan = boundary (in_context i) ∧
  filesystemPolicy plan = filesystemPolicyFor cwd (boundary (in_context i)) (scope (in_context i)) ∧
  toolManifest plan = toolManifestFor (boundary (in_context i)) ∧
  networkPolicy plan = (if bool_decide (boundary (in_context i) = DangerFullAccess) then NetworkUnrestricted
                        else default NetworkDisabled (networkAccess i)) ∧
  Commands.validateCommands (commandPolicy plan) = negb (bool_decide (boundary (in_context i) = DangerFullAccess)) ∧
  Commands.deniedGitSubcommands (commandPolicy plan) = [js "push"] ∧
  environmentPolicy plan = mkEnvironment (negb (bool_decide (boundary (in_context i) = DangerFullAccess)))
    (negb (bool_decide (boundary (in_context i) = DangerFullAccess))) false ∧
  (boundary (in_context i) = DangerFullAccess → allowDangerFullAccess i = Some true).
Proof.
  unfold buildLaunchPlan, launchEnforcementBlocker. intros H.
  destruct (negb _ && bool_decide (scope (in_context i) = None)); [done|].
  destruct (bool_decide (boundary (in_context i) = DangerFullAccess) && _) eqn:Ed; [done|].
  assert (boundary (in_context i) = DangerFullAccess → allowDangerFullAccess i = Some true) as Hd.
  { intros Hb. rewrite (bool_decide_true _ Hb) in Ed. cbn [andb] in Ed. apply negb_false_iff in Ed. by apply some_true_iff. }
  destruct (boundary (in_context i)); (destruct (launch_missing i); [|done]) || idtac; by simplify_eq.
Qed.

(** The normal forms of the roots. *)
Definition roots_of (cwd : jsstring) (l : list jsstring) (P : jsstring → Prop) : Prop :=
  ∀ q, q ∈ l ↔ ∃ root, P root ∧ q = normalizePath cwd root.

Lemma normal_roots_of cwd roots P : Roots roots P → roots_of cwd (map (normalizePath cwd) roots) P.
Proof. intros HR q. unfold Roots in HR. rewrite list_elem_of_fmap. setoid_rewrite HR. naive_solver. Qed.

Lemma roots_of_below cwd l P p : roots_of cwd l P → pathInsideAnyRoot cwd p l = true ↔ below_any cwd p P.
Proof.
  intros Hl. rewrite pathInsideAnyRoot_true. unfold below_any. split.
  - intros (q & (root & HP & ->)%Hl & Hq). exists root. split; [done|]. rewrite pathInside_normal_root in Hq. by apply pathInside_below.
  - intros (root & HP & Hq). exists (normalizePath cwd root). split; [apply Hl; eauto|].
    rewrite pathInside_normal_root. by apply pathInside_below.
Qed.

Lemma filesystemPolicyFor_roots cwd b s : b ≠ DangerFullAccess →
  let fs := filesystemPolicyFor cwd b (Some s) in
  roots_of cwd (fs_readRoots fs) (read_root s) ∧ roots_of cwd (fs_writeRoots fs) (write_root b s) ∧
  roots_of cwd (fs_deniedRoots fs) (denied_root s).
Proof.
  intros Hb. split_and!.
  - destruct b; try done; apply normal_roots_of, _.
  - destruct b; try done; try apply normal_roots_of, write_roots. intros q. cbn. set_solver.
  - destruct b; try done; apply normal_roots_of, _.
Qed.

(** C30: A launch plan enforces the policy. A ready plan below full access has
    a scope, and an adapter that enforces the file system policy, isolates the
    home and the temporary directory, restricts the network unless it is to be
    unrestricted, can do without a raw shell for the two boundaries that have
    none, and brokers project control for the boundary of controllers. Its read,
    write and denied roots are the normal forms of those of the scope, with the
    credentials and the docker sockets denied, so that a path the policy lets
    be read or written is below the former and outside the latter. Its tools
    are those of the boundary, its network is the one asked for and none
    otherwise, home and temporary directories are isolated, and its command
    policy refuses git push whatever options come first. Full access needs an
    acknowledgement. *)
Theorem launch_plan_covers cwd i plan : buildLaunchPlan cwd i = Ready plan →
  let ctx := in_context i in let b := boundary ctx in let fs := filesystemPolicy plan in
  (b = DangerFullAccess → allowDangerFullAccess i = Some true) ∧
  (b ≠ DangerFullAccess → ∃ s, scope ctx = Some s ∧
    can_enforce b (networkAccess i) (adapter i) ∧
    (∀ q, q ∈ fs_readRoots fs ↔ ∃ root, read_root s root ∧ q = normalizePath cwd root) ∧
    (∀ q, q ∈ fs_writeRoots fs ↔ ∃ root, write_root b s root ∧ q = normalizePath cwd root) ∧
    (∀ q, q ∈ fs_deniedRoots fs ↔ ∃ root, denied_root s root ∧ q = normalizePath cwd root) ∧
    (∀ r, allowed (canReadPath cwd ctx r) = true →
       pathInsideAnyRoot cwd (path r) (fs_readRoots fs) = true ∧ pathInsideAnyRoot cwd (path r) (fs_deniedRoots fs) = false) ∧
    (∀ r, allowed (canWritePath cwd ctx r) = true →
       pathInsideAnyRoot cwd (path r) (fs_writeRoots fs) = true ∧ pathInsideAnyRoot cwd (path r) (fs_deniedRoots fs) = false) ∧
    (∀ t, t ∈ capabilities (toolManifest plan) ↔ has_tool b t) ∧
    (∀ t, allowed (canUseTool ctx t) = true ↔ t ∈ capabilities (toolManifest plan)) ∧
    rawShell (toolManifest plan) = (if bool_decide (b = IsolatedWorkspaceWrite) then ShellSandboxed else ShellDisabled) ∧
    environmentPolicy plan = mkEnvironment true true false ∧
    networkPolicy plan = default NetworkDisabled (networkAccess i) ∧
    (∀ opts rest, Commands.git_options opts →
       Commands.allowed (Commands.validateCommandAgainstPolicy
         (Commands.Words (js "git" :: opts ++ js "push" :: rest)) (commandPolicy plan)) = false)).
Proof.
  intros H ctx b fs. destruct (plan_Ready _ _ _ H) as (_ & Hfs & Htools & Hnet & Hval & Hpush & Henv & Hd).
  split; [done|]. intros Hb. destruct (launch_missing_Ready _ _ _ H Hb) as [Hs Hm].
  unfold b, ctx in *. rewrite !(bool_decide_false _ Hb) in *. clear ctx b.
  destruct (scope (in_context i)) as [s|] eqn:Es; [|done]. exists s. unfold fs. rewrite Hfs, Htools. clear fs.
  destruct (filesystemPolicyFor_roots cwd _ s Hb) as (Hread & Hwrite & Hdenied).
  assert (∀ r roots P protect, permitted cwd s P protect r → roots_of cwd roots P →
    pathInsideAnyRoot cwd (path r) roots = true ∧
    pathInsideAnyRoot cwd (path r) (fs_deniedRoots (filesystemPolicyFor cwd (boundary (in_context i)) (Some s))) = false) as Hpm.
  { intros r roots P protect [] HR. rewrite <- not_true_iff_false, (roots_of_below _ _ _ _ Hdenied). split; [|done].
    by apply (roots_of_below _ _ _ _ HR). }
  split_and!; try done.
  - intros r (s' & Hs' & Hp)%(decide_granted cwd _ (ReadPathRequest r)); [|done]. rewrite Es in Hs'. injection Hs' as <-. by eapply Hpm.
  - intros r (_ & s' & Hs' & Hp)%(decide_granted cwd _ (WritePathRequest r)); [|done]. rewrite Es in Hs'. injection Hs' as <-. by eapply Hpm.
  - intros t. apply toolManifestFor_tools.
  - intros t. rewrite toolManifestFor_tools. by apply (decide_granted cwd _ (UseToolRequest t)).
  - by destruct (boundary (in_context i)).
  - intros opts rest Ho. apply Commands.git_subcommand_refused; try done. by rewrite Hpush.
Qed.

Module Demo.

Definition cwd0 : jsstring := js "/home/me".
Definition demo_scope : ProjectAccessScope :=
  mkScope (js "p") None None (Some [js "/work/p"]) (Some [js "/work/trees"]) (Some (js "/work/p/registry")) (Some (js "/work/p/auth"))
    None (Some [js "p-"]) (Some [js "p-"]) (Some [js "main"; js "feature/*"]) None None None.
Definition demo_context (b : AccessBoundary) : AccessPolicyContext := mkContext b (Some demo_scope).
Definition demo_adapter : LaunchAdapterCapabilities := mkAdapter true true true true true true.
Definition demo_launch : LaunchPlanInput := mkLaunchInput (demo_context ProjectScopedControl) demo_adapter None None.

Definition writes (b : AccessBoundary) (p : string) : bool * AccessDecisionReason :=
  let d := canWritePath cwd0 (demo_context b) (mkPathRequest (js p) None) in (allowed d, reason d).

Example write_tests :
  map (writes ProjectScopedControl)
    ["/work/p/src/a.ts"; "/work/p2/a"; "/work/p/../q"; "/work/p/.git/config"; "/work/p/registry/j"; "/work/p/auth/k"; "a"]%string =
  [(true, Allowed); (false, PathOutsideScope); (false, PathOutsideScope); (false, GitInternalPathDenied);
   (false, RegistryRawWriteDenied); (false, AuthPathDenied); (false, InvalidPath)].
Proof. by vm_compute. Qed.

Lemma launch_plan_covers_witness :
  match buildLaunchPlan cwd0 demo_launch with
  | Ready plan => pathInsideAnyRoot cwd0 (js "/work/p/src/a.ts") (fs_writeRoots (filesystemPolicy plan)) = true
  | Blocked _ _ _ => False
  end.
Proof.
  destruct (buildLaunchPlan cwd0 demo_launch) as [plan|] eqn:E; [|by vm_compute in E].
  destruct (launch_plan_covers cwd0 demo_launch plan E) as [_ H]. destruct H as (s & _ & _ & _ & _ & _ & _ & H & _); [done|].
  apply (H (mkPathRequest (js "/work/p/src/a.ts") None)). by vm_compute.
Defined.

(** A symbolic link in the workspace that leads to the credentials of the
    project, or into its git directory, can be written: the real path is only
    compared with the roots. *)
Lemma real_path_denied_root :
  let write p := canWritePath cwd0 (demo_context IsolatedWorkspaceWrite) p in
  allowed (write (mkPathRequest (js "/work/p/auth/k") None)) = false ∧
  allowed (write (mkPathRequest (js "/work/p/link") (Some (js "/work/p/auth/k")))) = true ∧
  allowed (write (mkPathRequest (js "/work/p/link") (Some (js "/work/p/.git/hooks/pre-commit")))) = true.
Proof. by vm_compute. Qed.

(** A confirmed recovery of a history rewritten elsewhere is pushed with force
    in a scope that does not allow force. *)
Lemma forced_recovery_allowed :
  let sha := Some (js "0123456789abcdef0123456789abcdef01234567") in
  let push confirmed := canPushBranch cwd0 (demo_context ProjectScopedControl)
    (mkGitRequest None None (js "main") None (Some true) sha sha (Some confirmed)) in
  allowForcePush demo_scope = None ∧ allowed (push true) = true ∧
  allowed (push false) = false ∧ reason (push false) = ForcePushDenied.
Proof. by vm_compute. Qed.

(** A local branch with a slash, in scope, is taken for a branch of a remote
    when the scope lists no remotes. *)
Lemma local_branch_taken_for_remote :
  let d := canCreateWorktree cwd0 (demo_context ProjectScopedControl)
             (mkWorktreeRequest (js "/work/trees/t") None None None (Some (js "feature/x")) None None) in
  allowed d = false ∧ reason d = RemoteDenied ∧
  allowed (canIntegrateCommit cwd0 (demo_context ProjectScopedControl)
             (mkGitRequest None None (js "feature/x") None None None None None)) = true.
Proof. by vm_compute. Qed.

(** Nothing but the root directory is inside the root directory. *)
Lemma root_directory_denies_nothing :
  pathInsideAnyRoot cwd0 (js "/etc/passwd") [js "/"] = false ∧ pathInsideAnyRoot cwd0 (js "/") [js "/"] = true.
Proof. by vm_compute. Qed.

End Demo.

End Access.
