(* ===== verification/ArtifactRecovery.v ===== *)
(** * Operator artifacts

    [src/worker-core/integration/domain/operator-artifact-recovery.ts]: whether
    the permit of an operator fits an attempt whose required check left a file
    behind in the target workspace. *)

From stdpp Require Import base numbers option sets strings list.
From S2P Require Import Prelude Json IntegrationAttempt CommandPolicy IsoDate.

Module ArtifactRecovery.
Import Integration.

Record Artifact : Set := mkArtifact { art_path : jsstring; art_sha256 : jsstring; art_size : num; art_mode : num;
  mtimeMs : num; mtimeToleranceMs : option num }.
Record PermitCheck : Set := mkPermitCheck { pk_checkId : jsstring; pk_command : list jsstring; pk_startedAt : jsstring;
  pk_completedAt : jsstring }.
(** [expectedAttemptStatus] has one value, [ChecksPassed]. *)
Record Permit : Set := mkPermit {
  pm_registryRootDir : jsstring; pm_controllerJobId : jsstring; pm_projectId : jsstring; pm_attemptId : jsstring;
  pm_targetWorkspacePath : jsstring; pm_targetBranch : jsstring; targetHeadSha : jsstring;
  candidatePatchSha256 : jsstring; candidatePatchSize : num; artifact : Artifact; pm_check : PermitCheck }.
Record Validated : Set := mkValidated { v_appliedFiles : list jsstring; artifactPath : jsstring;
  expectedDirtyFiles : list jsstring }.

Definition refuse {A} (reason : string) : res A := Throw (PlainError (js "operator_artifact_recovery_" ++ js reason)).
Definition require (b : bool) (reason : string) : res unit := if b then Ok tt else refuse reason.

Definition assertEqual (actual expected : jsstring) (reason : string) : res unit := require (js_eqb actual expected) reason.

(** [/^[a-f0-9]{n}$/i]. *)
Definition lower_hex (c : N) : bool := ((48 <=? c)%N && (c <=? 57)%N) || ((97 <=? c)%N && (c <=? 102)%N).
Definition any_hex (c : N) : bool := lower_hex c || ((65 <=? c)%N && (c <=? 70)%N).
Definition hex_text (f : N → bool) (n : nat) (s : jsstring) : bool := (length s =? n)%nat && forallb f s.

Definition assertSha256 (value : jsstring) (reason : string) : res unit := require (hex_text any_hex 64 value) reason.

Definition max_safe : num := num_of_Z 9007199254740991.
Definition assertSafeSize (value : num) (reason : string) : res unit :=
  require (is_integer value && num_leb value max_safe && num_leb (num_of_Z 0) value) reason.

Definition between (low high : Z) (x : num) : bool := is_integer x && num_leb (num_of_Z low) x && num_leb x (num_of_Z high).

Definition uniqueSorted (l : list jsstring) : list jsstring := sort (new_Set l).

Definition ends_with_slash (s : jsstring) : bool := match last s with Some c => (c =? slash)%N | None => false end.
(** [posix.basename]. *)
Definition basename (s : jsstring) : jsstring := default [] (last (Commands.parts_of s)).

Definition validateArtifact (a : Artifact) : res jsstring :=
  assertSha256 (art_sha256 a) "artifact_sha256_invalid" ;;
  assertSafeSize (art_size a) "artifact_size_invalid" ;;
  require (between 0 511 (art_mode a)) "artifact_mode_invalid" ;;
  require (is_finite (mtimeMs a) && num_leb (num_of_Z 0) (mtimeMs a)) "artifact_mtime_invalid" ;;
  require (match mtimeToleranceMs a with None => true | Some t => between 0 2000 t end) "artifact_mtime_tolerance_invalid" ;;
  p ← normalizeProjectRelativePath (art_path a);
  require (negb (js_eqb p dot || ends_with_slash p || js_eqb (basename p) [])) "artifact_path_invalid" ;;
  Ok p.

Definition validateCheck (a : Attempt) (k : PermitCheck) : res unit :=
  match filter (λ r, js_eqb (checkId r) (pk_checkId k) = true) (checkRuns a) with
  | [run] =>
      require (match IsoDate.parse (pk_startedAt k), IsoDate.parse (pk_completedAt k) with
               | Some s, Some c => (s <=? c)%Z
               | _, _ => false
               end) "check_time_invalid" ;;
      require (match cr_status run with CheckPassed => true | _ => false end && bool_decide (command run = pk_command k) &&
               js_eqb (startedAt run) (pk_startedAt k) && js_eqb (completedAt run) (pk_completedAt k))
        "check_provenance_mismatch"
  | _ => refuse "check_provenance_ambiguous"
  end.

Definition validateOperatorArtifactRecoveryAttempt (a : Attempt) (p : Permit) : res Validated :=
  assertEqual (controllerJobId a) (pm_controllerJobId p) "controller_mismatch" ;;
  assertEqual (projectId a) (pm_projectId p) "project_mismatch" ;;
  assertEqual (attemptId a) (pm_attemptId p) "attempt_mismatch" ;;
  require (bool_decide (status a = ChecksPassed)) "status_mismatch" ;;
  assertEqual (targetWorkspacePath a) (pm_targetWorkspacePath p) "workspace_mismatch" ;;
  assertEqual (targetBranch a) (pm_targetBranch p) "branch_mismatch" ;;
  require (hex_text any_hex 40 (targetHeadSha p)) "head_invalid" ;;
  assertSha256 (candidatePatchSha256 p) "candidate_patch_sha256_invalid" ;;
  assertSafeSize (candidatePatchSize p) "candidate_patch_size_invalid" ;;
  let w := workerOutput a in
  match truthy_opt (patchPath w), truthy_opt (patchSha256 w) with
  | Some _, Some patchSha =>
      assertEqual (toLowerCase (default (default [] (baseCommit w)) (targetCommit w))) (toLowerCase (targetHeadSha p))
        "target_commit_mismatch" ;;
      assertEqual (toLowerCase patchSha) (toLowerCase (candidatePatchSha256 p)) "candidate_patch_mismatch" ;;
      path ← validateArtifact (artifact p);
      validateCheck a (pm_check p) ;;
      let applied := uniqueSorted (integrationAppliedFiles a) in
      require (negb (has path applied)) "artifact_overlaps_output" ;;
      Ok (mkValidated applied path (uniqueSorted (applied ++ [path])))
  | _, _ => refuse "patch_source_required"
  end.

Lemma require_true b reason u : require b reason = Ok u → b = true.
Proof. by destruct b. Qed.

Ltac required := repeat match goal with H : require _ _ = Ok _ |- _ => apply require_true in H end; bools.

Lemma validateArtifact_Ok a p : validateArtifact a = Ok p → normalizeProjectRelativePath (art_path a) = Ok p.
Proof. unfold validateArtifact. intros H. peel H. by simplify_eq. Qed.

Lemma validateCheck_Ok a k u : validateCheck a k = Ok u →
  ∃ run, run ∈ checkRuns a ∧ checkId run = pk_checkId k ∧ cr_status run = CheckPassed ∧ command run = pk_command k.
Proof.
  unfold validateCheck. destruct (filter _ _) as [|run [|? ?]] eqn:E; try done. intros H. peel H. required.
  assert (run ∈ filter (λ r, js_eqb (checkId r) (pk_checkId k) = true) (checkRuns a)) as Hr by (rewrite E; by left).
  apply list_elem_of_filter in Hr as [? ?]. bools. exists run. split_and!; try done. by destruct (cr_status run).
Qed.

(** What a permit that fits an attempt guarantees: the attempt is the one it
    names and waits for its commit, the check it names passed, and the artifact
    is no file of the output. *)
Definition fits (a : Attempt) (p : Permit) (v : Validated) : Prop :=
  status a = ChecksPassed ∧ attemptId a = pm_attemptId p ∧ targetWorkspacePath a = pm_targetWorkspacePath p ∧
  normalizeProjectRelativePath (art_path (artifact p)) = Ok (artifactPath v) ∧
  (artifactPath v ∉ integrationAppliedFiles a) ∧
  ∃ run, run ∈ checkRuns a ∧ checkId run = pk_checkId (pm_check p) ∧ cr_status run = CheckPassed ∧
    command run = pk_command (pm_check p).

Lemma validated_fits a p v : validateOperatorArtifactRecoveryAttempt a p = Ok v → fits a p v.
Proof.
  unfold validateOperatorArtifactRecoveryAttempt, assertEqual. intros H. peel H. required. simplify_eq.
  unfold fits. split_and!; try done; [by apply validateArtifact_Ok| |by eapply validateCheck_Ok].
  match goal with H : has _ _ = false |- _ => apply has_false in H; unfold uniqueSorted in H; by rewrite elem_of_sort_new_Set in H end.
Qed.

End ArtifactRecovery.
