(* ===== verification/IntegrationPorts.v ===== *)
(** * Integration: policy and ports

    [src/worker-core/integration/domain/integration-policy.ts], what a project
    lets be integrated, with the errors and audit events of the same directory;
    [src/worker-core/integration/ports], the calls the use cases make; and
    [application/common.ts], the steps they share. A use case is a tree of
    these calls, each of which may answer or throw. *)

From stdpp Require Import base numbers option sets strings list.
From S2P Require Import Prelude Json IntegrationAttempt Programs CommandPolicy AccessControl ArtifactRecovery.

Module Ports.
Import Integration.

(** ** Errors *)

Inductive Reason : Set :=
| DomainReason (r : Integration.Reason)
| DirtyWorkspace | ChecksFailedReason | SecretScanFailed | DiffCheckFailed | InvalidCommitMessage
| CommitIdentityUnavailable | BranchMismatch | StaleBase | MergeRollbackFailed | OutputRollbackFailed | PolicyDenied.

(** An [IntegrationError] or another [Error]. *)
Inductive error : Set :=
| IntegrationErr (reason : Reason) (message : option jsstring) (evidence : list jsstring)
    (decision : option Access.PolicyDecision)
| PlainErr (message : jsstring).

Definition reason_name (r : Reason) : jsstring :=
  js match r with
     | DomainReason InvalidTransition => "invalid_transition" | DomainReason InvalidPath => "invalid_path"
     | DomainReason PathOutsideExpectedFiles => "path_outside_expected_files"
     | DomainReason UnexpectedFiles => "unexpected_files" | DomainReason InvalidMergePlan => "invalid_merge_plan"
     | DomainReason MergeParentsMismatch => "merge_parents_mismatch"
     | DirtyWorkspace => "dirty_workspace" | ChecksFailedReason => "checks_failed" | SecretScanFailed => "secret_scan_failed"
     | DiffCheckFailed => "diff_check_failed" | InvalidCommitMessage => "invalid_commit_message"
     | CommitIdentityUnavailable => "commit_identity_unavailable" | BranchMismatch => "branch_mismatch"
     | StaleBase => "stale_base" | MergeRollbackFailed => "merge_rollback_failed"
     | OutputRollbackFailed => "output_rollback_failed" | PolicyDenied => "policy_denied"
     end.

Definition safeErrorMessage (e : error) : jsstring :=
  match e with
  | IntegrationErr r m _ _ => default (js "project_integration_" ++ reason_name r) m
  | PlainErr m => m
  end.

Definition domain_error (e : Integration.error) : error :=
  match e with
  | Integration.IntegrationError r m ev => IntegrationErr (DomainReason r) m ev None
  | Integration.PlainError m => PlainErr m
  end.

Definition lift {A} (r : Integration.res A) : result error A :=
  match r with Ok a => Ok a | Throw e => Throw (domain_error e) end.

Definition refuse {A} (r : Reason) (evidence : list jsstring) : result error A := Throw (IntegrationErr r None evidence None).
Definition refuse_message {A} (r : Reason) (m : string) (evidence : list jsstring) : result error A :=
  Throw (IntegrationErr r (Some (js m)) evidence None).
Definition plain {A} (m : string) : result error A := Throw (PlainErr (js m)).

Definition integrationPolicyDenied (d : Access.PolicyDecision) : error :=
  IntegrationErr PolicyDenied (Some (js "project_integration_policy_denied:" ++ Access.reason_name (Access.reason d)))
    (Access.evidence d) (Some d).

(** [if (!decision.allowed) throw integrationPolicyDenied(decision)]. *)
Definition require (d : Access.PolicyDecision) : result error unit :=
  if Access.allowed d then Ok tt else Throw (integrationPolicyDenied d).

Fixpoint for_each {A} (f : A → result error unit) (l : list A) : result error unit :=
  match l with [] => Ok tt | x :: l' => f x ;; for_each f l' end.

(** ** Policy *)

Record Policy : Set := mkPolicy { access : Access.AccessPolicyContext; allowedPathPrefixes : option (list jsstring);
  requiredCheckIds : option (list jsstring); allowForcePush : option bool; allowStaleBase : option bool }.

(** [join] of [node:path] on two paths, the second not empty. *)
Definition join_path (a b : jsstring) : jsstring := normalize (match a with [] => b | _ => a ++ [slash] ++ b end).

(** [replace(/\/+$/, "")]. *)
Fixpoint drop_slashes (s : jsstring) : jsstring :=
  match s with c :: s' => if (c =? slash)%N then drop_slashes s' else s | [] => [] end.
Definition strip_slashes (s : jsstring) : jsstring := rev (drop_slashes (rev s)).

Definition normalizeAllowedPathPrefix (prefix : jsstring) : Integration.res jsstring :=
  p ← normalizeProjectRelativePath prefix; Ok (strip_slashes p).

Definition under_prefix (file prefix : jsstring) : bool :=
  js_eqb file prefix || starts_with (prefix ++ [slash]) file.

Definition assertExpectedFilesAllowed (p : Policy) (fs : list jsstring) : result error unit :=
  normalized ← lift (normalizeExpectedFiles fs);
  match allowedPathPrefixes p with
  | None => Ok tt
  | Some prefixes =>
      prefixes' ← lift (map_res normalizeAllowedPathPrefix prefixes);
      match prefixes' with
      | [] => Ok tt
      | _ => match List.filter (λ f, negb (existsb (under_prefix f) prefixes')) normalized with
             | [] => Ok tt
             | outside => refuse (DomainReason PathOutsideExpectedFiles) outside
             end
      end
  end.

Definition assertBaseRevisionAllowed (p : Policy) (w : WorkerOutput) : result error unit :=
  match baseStatus w with
  | Some BaseNeedsRebaseCheck =>
      if Access.some_true (allowStaleBase p) then Ok tt
      else refuse StaleBase
        ((match truthy_opt (baseCommit w) with Some b => [js "base:" ++ b] | None => [] end) ++
         (match truthy_opt (targetCommit w) with Some t => [js "target:" ++ t] | None => [] end) ++
         default [] (baseRevisionReasons w))
  | _ => Ok tt
  end.

Section PolicyChecks.
Context (cwd : jsstring).

Definition git_request (ws branch : jsstring) (remote : option jsstring) (force : option bool) : Access.GitRequest :=
  Access.mkGitRequest (Some ws) None branch remote force None None None.

Definition assertCanOpenIntegrationAttempt (p : Policy) (i : OpenInput) : result error unit :=
  let w := i_workerOutput i in
  let ctx := access p in
  (if bool_decide (Access.boundary ctx = Access.ProjectScopedControl) then Ok tt
   else Throw (integrationPolicyDenied (Access.mkDecision false (Access.boundary ctx) Access.IntegrateCommit
          Access.BoundaryInsufficient None [js "project_scoped_control_required"]))) ;;
  require (Access.canStartWorker cwd ctx (Access.mkJobRequest (workerJobId w) None (Some (workspacePath w)) None None)) ;;
  require (Access.canIntegrateCommit cwd ctx (git_request (i_targetWorkspacePath i) (i_targetBranch i) None None)) ;;
  require (Access.canPushBranch cwd ctx
    (git_request (i_targetWorkspacePath i) (i_targetBranch i) (Some (i_targetRemote i)) (Some false))) ;;
  assertBaseRevisionAllowed p w ;;
  assertExpectedFilesAllowed p (approvedFiles (i_reviewDecision i)) ;;
  for_each (λ f,
    f' ← lift (normalizeProjectRelativePath f);
    require (Access.canWritePath cwd ctx (Access.mkPathRequest (join_path (i_targetWorkspacePath i) f') None)))
    (approvedFiles (i_reviewDecision i)).
End PolicyChecks.

Definition assertRequiredChecksSatisfied (p : Policy) (a : Attempt) : result error unit :=
  let required := new_Set (default [] (requiredCheckIds p) ++ map spec_checkId (requiredChecks (reviewDecision a))) in
  match List.filter (λ id, negb (has id (map checkId (checkRuns a)))) required with
  | [] => Ok tt
  | missing => refuse ChecksFailedReason missing
  end.

Definition assertCommitMessageAllowed (message : jsstring) : result error unit :=
  if isConventionalCommitMessage message then Ok tt else refuse InvalidCommitMessage [message].

(** ** Data of the ports *)

Inductive AuditEventType : Set :=
| AttemptOpened | AttemptApplied | ChecksStarted | EvChecksPassed | EvChecksFailed | OperatorArtifactRecoveryPrepared
| OperatorArtifactRecoveryCompleted | EvCommitCreated | EvPushed | EvPromoted | ExternalCommitAdopted | EvRejected
| EvPolicyDenied.

#[global] Instance AuditEventType_eq_dec : EqDecision AuditEventType.
Proof. solve_decision. Defined.

Record AuditEvent : Set := mkEvent {
  e_type : AuditEventType; e_occurredAt : jsstring; e_attemptId : jsstring; e_projectId : jsstring;
  e_controllerJobId : jsstring; e_workerJobId : jsstring; e_status : Status; safeReason : option jsstring;
  e_files : option (list jsstring); e_commitSha : option jsstring }.

Record Lock : Set := mkLock { lockId : jsstring; l_workspacePath : jsstring; l_owner : jsstring }.
Record WorkspaceStatus : Set := mkStatus { ws_branch : jsstring; dirtyFiles : list jsstring }.
Record ApplyResult : Set := mkApplied { ar_changedFiles : list jsstring; ar_mergeSourceCommit : option jsstring }.
Record DiffCheck : Set := mkDiffCheck { ok : bool; dc_safeMessage : option jsstring }.
Record CommitIdentity : Set := mkIdentity { ci_name : jsstring; ci_email : jsstring }.
Record CommitResult : Set := mkCommitResult { rc_commitSha : jsstring; rc_parentCommits : option (list jsstring);
  rc_diffStat : option jsstring; rc_indexRecoveryPending : option bool }.
Record PreparedCommit : Set := mkPrepared { pc_commitSha : jsstring; pc_parent : jsstring; pc_tree : jsstring;
  pc_originalIndexTree : jsstring }.
Record CommitRequest : Set := mkCommitRequest {
  cq_workspacePath : jsstring; cq_message : jsstring; cq_files : list jsstring; cq_identity : CommitIdentity;
  cq_expectedMergeTree : option jsstring; cq_expectedParentCommits : option (list jsstring) }.
Record PushRequest : Set := mkPush { pq_workspacePath : jsstring; pq_remote : jsstring; pq_branch : jsstring;
  pq_commitSha : jsstring; pq_force : bool; pq_expectedRemoteCommit : option jsstring }.
Record CheckRequest : Set := mkCheckRequest { ck_workspacePath : jsstring; allowedWorkspaceFiles : list jsstring;
  ck_check : CheckSpec; ck_startedAt : jsstring }.
Record ScanRequest : Set := mkScanRequest { sq_reviewedTree : option jsstring; sq_reviewedParent : option jsstring;
  sq_workspacePath : jsstring; sq_files : list jsstring; sq_allowance : option num }.
Record ScanResult : Set := mkScan { sr_status : SecretScan; scannedReviewedTree : option jsstring;
  scannedReviewedParent : option jsstring; sr_safeMessage : option jsstring }.
Record Preparation : Set := mkPreparation { lp_attemptId : jsstring; lp_workerJobId : jsstring;
  lp_workerWorkspacePath : jsstring; lp_commitSha : jsstring; lp_archivePath : jsstring; lp_statusPath : jsstring;
  lp_patchPath : jsstring; lp_numstatPath : jsstring }.
Record RejectionPreparation : Set := mkRejection { rj_attemptId : jsstring; rj_workerJobId : jsstring;
  rj_workerWorkspacePath : jsstring; rj_archivePath : jsstring; rj_statusPath : jsstring; rj_patchPath : jsstring;
  rj_numstatPath : jsstring; hasAuthoredOutput : bool }.
Inductive RejectedStatus : Set := LedgerRejected | LedgerFailedNoOutput.
Record RejectedReceipt : Set := mkRejectedReceipt { ledgerPath : jsstring; rr_archivePath : jsstring;
  rr_status : RejectedStatus; idempotentReplay : bool }.

Record InspectedCommit : Set := mkInspected { ic_commitSha : jsstring; ic_tree : jsstring; ic_parentCommits : list jsstring;
  ic_author : CommitIdentity; ic_committer : CommitIdentity; ic_message : jsstring; ic_files : list jsstring }.
Inductive RecoveryState : Set := RecoveryReady | RecoveryPrepared | RecoveryCompleted.
Record RecoveryResult : Set := mkRecovery { rs_state : RecoveryState; rs_permitSha256 : jsstring;
  artifactArchivePath : option jsstring; preparedManifestPath : option jsstring; completedManifestPath : option jsstring }.
Record RecoveryRequest : Set := mkRecoveryRequest { rq_attempt : Attempt; rq_permit : ArtifactRecovery.Permit;
  rq_permitSha256 : jsstring; rq_validation : ArtifactRecovery.Validated }.

(** A commit of a reviewed tree calls [onReviewedCommitPrepared] once, before it
    publishes the commit ([commitReviewedIntegrationTree] of
    [src/worker-local]), or answers without; [GitPublish] goes on with the
    outcome of that callback. *)
Inductive CommitReply : Set := Committed (r : CommitResult) | CommitPrepared (p : PreparedCommit).

(** ** Calls *)

Inductive call : Set :=
| EnterActivity (owner : jsstring) | LeaveActivity (owner : jsstring)
| StoreCreate (a : Attempt) | StoreGet (id : jsstring) | StoreUpdate (a : Attempt)
| AppendEvent (id : jsstring) (e : AuditEvent) | ReadEvents (id : jsstring) | AuditRecord (e : AuditEvent)
| Now
| LockAcquire (ws owner : jsstring) | LockRelease (l : Lock)
| GitStatus (ws : jsstring) | GitApply (a : Attempt) (w : WorkerOutput) (allowAlreadyApplied : bool)
| GitDiffCheck (ws : jsstring) | GitChangedSince (ws commit : jsstring)
| GitCommit (r : CommitRequest) | GitCommitReviewed (r : CommitRequest) (a : Attempt) | GitPublish (kept : result error unit)
| GitAbortMerge (a : Attempt) | GitRollback (a : Attempt)
| GitPush (r : PushRequest) | GitRemoteCommit (ws remote branch : jsstring) | GitCurrentBranch (ws : jsstring)
| GitMergeTree (a : Attempt) | GitReviewedTree (a : Attempt) | GitReviewedFiles (a : Attempt) (tree : jsstring)
| GitReconcile (a : Attempt)
| RunCheck (r : CheckRequest)
| ApprovedIdentity (projectId ws : jsstring)
| ScanFiles (r : ScanRequest)
| VerifyIntegrity (a : Attempt)
| LedgerPrepare (a : Attempt) (commitSha : jsstring)
| LedgerPreflight (p : Preparation) (pushedAt : option jsstring)
| LedgerFinalize (p : Preparation) (pushedAt : jsstring)
| LedgerPrepareRejection (a : Attempt)
| LedgerFinalizeRejection (p : RejectionPreparation) (rejectedAt reason : jsstring)
| AuthorizeAdoption (a : Attempt)
| GitRemoteRepository (ws remote : jsstring) | GitCurrentHead (ws : jsstring)
| GitTreeFromPatch (a : Attempt) | GitInspectCommit (ws commitSha : jsstring)
| LedgerReadPrepared (a : Attempt) (commitSha : jsstring) | LedgerPrepareAdoption (a : Attempt) (commitSha : jsstring)
| RecoveryInspect (r : RecoveryRequest) | RecoveryPrepare (r : RecoveryRequest) (preparedAt : jsstring)
| RecoveryComplete (r : RecoveryRequest) (completedAt : jsstring).

Definition answer (c : call) : Set :=
  match c with
  | StoreGet _ => option Attempt
  | ReadEvents _ => list AuditEvent
  | Now | GitCurrentBranch _ | GitMergeTree _ | GitReviewedTree _ | GitRemoteRepository _ _ | GitCurrentHead _
  | GitTreeFromPatch _ => jsstring
  | LockAcquire _ _ => Lock
  | GitStatus _ => WorkspaceStatus
  | GitApply _ _ _ => ApplyResult
  | GitDiffCheck _ => DiffCheck
  | GitChangedSince _ _ | GitReviewedFiles _ _ => list jsstring
  | GitCommitReviewed _ _ => CommitReply
  | GitCommit _ | GitPublish _ => CommitResult
  | GitRemoteCommit _ _ _ => option jsstring
  | GitReconcile _ => option CommitResult
  | RunCheck _ => CheckRun
  | ApprovedIdentity _ _ => option CommitIdentity
  | ScanFiles _ => ScanResult
  | LedgerPrepare _ _ | LedgerPrepareAdoption _ _ => Preparation
  | LedgerReadPrepared _ _ => option Preparation
  | GitInspectCommit _ _ => InspectedCommit
  | RecoveryInspect _ | RecoveryPrepare _ _ | RecoveryComplete _ _ => RecoveryResult
  | LedgerPrepareRejection _ => RejectionPreparation
  | LedgerFinalizeRejection _ _ _ => RejectedReceipt
  | _ => unit
  end.

Definition resp (c : call) : Set := result error (answer c).

Abbreviation Uc := (Fallible resp error).

(** Await a port. *)
Definition await (c : call) : Uc (answer c) := Call c (λ r, Ret r).
Definition done_with {A} (a : A) : Uc A := Ret (Ok a).
Definition try_catch {A} (m : Uc A) (handler : error → Uc A) : Uc A :=
  prog_bind m (λ r, match r with Ok a => Ret (Ok a) | Throw e => handler e end).
(** [try { m } finally { fin }]: what [fin] throws replaces the outcome. *)
Definition try_finally {A} (m : Uc A) (fin : Uc unit) : Uc A :=
  prog_bind m (λ r, prog_bind fin (λ f, match f with Ok _ => Ret r | Throw e => Ret (Throw e) end)).

(** Which optional ports and methods a host provides. *)
Record Deps : Set := mkDeps {
  has_withActivityLease : bool; has_readEvents : bool; has_audit : bool; has_git : bool;
  has_verifyMergeOutputTree : bool; has_verifyReviewedOutputTree : bool; has_reviewedTreeChangedFiles : bool;
  has_reconcileReviewedCommit : bool; has_abortMerge : bool; has_rollbackWorkerOutput : bool;
  has_reviewedOutputIntegrity : bool; has_authorizeAdoption : bool; has_treeFromPatch : bool; has_inspectCommit : bool;
  has_currentHead : bool; has_remoteRepository : bool; has_readPrepared : bool; has_prepareAdoption : bool }.

(** ** Common steps *)

Section Common.
Context (deps : Deps).

(** The lease is an activity that only maintenance waits for: transactions of
    the same attempt may run at the same time. *)
Definition runIntegrationTransaction {A} (attemptId : jsstring) (effect : Uc A) : Uc A :=
  let owner := js "integration-transaction:" ++ attemptId in
  if has_withActivityLease deps
  then await (EnterActivity owner) ;; try_finally effect (await (LeaveActivity owner))
  else effect.

Definition nowIso : Uc jsstring := await Now.

Definition loadIntegrationAttempt (attemptId : jsstring) : Uc Attempt :=
  a ← await (StoreGet attemptId);
  match a : option Attempt with
  | Some a => done_with a
  | None => from_result (refuse_message (DomainReason InvalidTransition) "integration_attempt_not_found" [attemptId])
  end.

Definition audit_event (a : Attempt) (type : AuditEventType) (occurredAt : jsstring) (why : option jsstring)
    (fs : option (list jsstring)) (sha : option jsstring) : AuditEvent :=
  mkEvent type occurredAt (attemptId a) (projectId a) (controllerJobId a) (a_workerJobId a) (status a)
    (truthy_opt why) fs (truthy_opt sha).

Definition recordIntegrationAudit (a : Attempt) (e : AuditEvent) : Uc unit :=
  await (AppendEvent (attemptId a) e) ;;
  if has_audit deps then await (AuditRecord e) else done_with tt.

(** A body under the lock of a workspace. *)
Definition with_lock {A} (ws owner : jsstring) (body : Uc A) : Uc A :=
  lock ← await (LockAcquire ws owner);
  try_finally body (await (LockRelease lock)).

Definition readEvents (id : jsstring) : Uc (list AuditEvent) :=
  if has_readEvents deps then await (ReadEvents id) else done_with [].
End Common.

(** [/[\r\n\0]/] and [/[\r\n\0<>\s]/]. *)
Definition bad_name_char (c : N) : bool := (c =? 13)%N || (c =? 10)%N || (c =? 0)%N.
Definition bad_email_char (c : N) : bool := bad_name_char c || (c =? 60)%N || (c =? 62)%N || js_space c.

Definition assertCommitIdentity (v : option CommitIdentity) : result error CommitIdentity :=
  match v with
  | None => refuse_message CommitIdentityUnavailable "project_integration_commit_identity_required" []
  | Some i =>
      let name := js_trim (ci_name i) in
      let email := js_trim (ci_email i) in
      if (length name =? 0)%nat || (200 <? length name)%nat || existsb bad_name_char name ||
         (length email =? 0)%nat || (320 <? length email)%nat || existsb bad_email_char email || negb (includes 64 email)
      then refuse_message CommitIdentityUnavailable "project_integration_commit_identity_invalid" []
      else Ok (mkIdentity name email)
  end.

Definition commitCandidateFromGitResult (message : jsstring) (fs : list jsstring) (scan : SecretScan)
    (createdAt : jsstring) (r : CommitResult) : CommitCandidate :=
  mkCommitCandidate (rc_commitSha r) (rc_parentCommits r) message fs (truthy_opt (rc_diffStat r)) scan createdAt.

End Ports.
