(* ===== verification/IntegrationCases.v ===== *)
(** * Integration use cases

    [src/worker-core/integration/application]: opening an attempt, applying the
    output of a worker, running the required checks, committing, pushing,
    promoting and rejecting, over the ports of [IntegrationPorts.v] and the
    attempts of [IntegrationAttempt.v].

    [toLowerCase] is modelled on ASCII letters; here it is applied to commit
    ids. [JSON.stringify] on both sides of a comparison is equality of the
    values: both sides are built with their keys in the same order. *)

From stdpp Require Import base numbers option sets strings list.
From S2P Require Import Prelude Json IntegrationAttempt Programs AccessPaths CommandPolicy AccessControl IntegrationPorts.

Module Cases.
Import Integration Ports.

#[global] Instance SecretScan_eq_dec : EqDecision SecretScan.
Proof. solve_decision. Defined.
#[global] Instance Integrity_eq_dec : EqDecision Integrity.
Proof. solve_decision. Defined.
#[global] Instance CommitCandidate_eq_dec : EqDecision CommitCandidate.
Proof. solve_decision. Defined.

(** [{ ...attempt, ... }] on the fields the use cases set themselves. *)
Definition with_review (a : Attempt) (st : Status) (checked authorized : option jsstring)
    (prepared : option ReviewedCommitPublication) (pending : option bool) : Attempt :=
  mkAttempt (attemptId a) (projectId a) (controllerJobId a) (a_workerJobId a) (sourceWorkspacePath a)
    (targetWorkspacePath a) (targetBranch a) (targetRemote a) (expectedFiles a) (merge a) (appliedFiles a)
    (appliedMergeSourceCommit a) st (workerOutput a) (reviewDecision a) checked authorized prepared pending
    (checkRuns a) (commitCandidate a) (pushAttempt a) (externalPublicationAttestation a) (promotionAttempts a)
    (rejectReason a) (createdAt a) (updatedAt a).

Definition with_now (i : OpenInput) (now : jsstring) : OpenInput :=
  mkOpenInput (i_attemptId i) (i_projectId i) (i_controllerJobId i) (i_sourceWorkspacePath i) (i_targetWorkspacePath i)
    (i_targetBranch i) (i_targetRemote i) (i_merge i) (i_workerOutput i) (i_reviewDecision i) now.

Section UseCases.
Context (deps : Deps) (cwd : jsstring).

Abbreviation transaction := (runIntegrationTransaction deps).
Abbreviation audit := (recordIntegrationAudit deps).

(** ** Opening *)

Definition openTransaction (i : OpenInput) (p : Policy) : Uc Attempt :=
  now ← nowIso;
  from_result (assertCanOpenIntegrationAttempt cwd p (with_now i now)) ;;
  attempt ← from_result (lift (openIntegrationAttempt (with_now i now)));
  await (StoreCreate attempt) ;;
  audit attempt (audit_event attempt AttemptOpened now None (Some (expectedFiles attempt)) None) ;;
  done_with attempt.

Definition openProjectIntegrationAttempt (i : OpenInput) (p : Policy) : Uc Attempt :=
  transaction (i_attemptId i) (openTransaction i p).

(** ** Applying the output of a worker *)

Definition sameFiles (l r : list jsstring) : Integration.res bool :=
  l' ← map_res normalizeProjectRelativePath l;
  r' ← map_res normalizeProjectRelativePath r;
  Ok (bool_decide (sort (new_Set l') = sort (new_Set r'))).

Definition assertDirtyFilesAllowed (dirty allowed : list jsstring) : result error unit :=
  allowed' ← lift (map_res normalizeProjectRelativePath allowed);
  dirty' ← lift (map_res normalizeProjectRelativePath dirty);
  match List.filter (λ f, negb (has f allowed')) dirty' with
  | [] => Ok tt
  | unexpected => refuse DirtyWorkspace unexpected
  end.

Definition rollbackFailedMerge (a : Attempt) (original : error) : Uc unit :=
  if negb (has_abortMerge deps) then
    from_result (refuse MergeRollbackFailed [js "git_abort_merge_unavailable"; safeErrorMessage original])
  else try_catch (await (GitAbortMerge a)) (λ e,
         from_result (refuse MergeRollbackFailed [safeErrorMessage original; safeErrorMessage e])).

(** The inner [try]: apply, verify and record. *)
Definition applyAndRecord (a : Attempt) (allowedDirty dirty : list jsstring) : Uc Attempt :=
  already ← (if is_merge (merge a) then done_with false
             else same ← from_result (lift (sameFiles allowedDirty (expectedFiles a)));
                  if same : bool then from_result (lift (sameFiles dirty (expectedFiles a))) else done_with false);
  result ← await (GitApply a (workerOutput a) already);
  from_result (lift (assertIntegrationAppliedFiles a (ar_changedFiles result))) ;;
  now ← nowIso;
  updated ← from_result (lift (markWorkerOutputApplied a (ar_changedFiles result) (ar_mergeSourceCommit result) now));
  updated ← (if is_merge (merge updated) then
               if negb (has_verifyMergeOutputTree deps) then from_result (plain "merge_output_tree_verifier_required")
               else tree ← await (GitMergeTree updated);
                    done_with (with_review updated (status updated) (checkedReviewedTree updated) (Some tree)
                                 (preparedReviewedCommit updated) (reviewedIndexRecoveryPending updated))
             else done_with updated);
  await (StoreUpdate updated) ;;
  done_with updated.

Definition applyLocked (a : Attempt) (allowedPreExistingDirtyFiles : option (list jsstring)) : Uc Attempt :=
  status ← await (GitStatus (targetWorkspacePath a));
  (if js_eqb (ws_branch status) (targetBranch a) then done_with tt
   else from_result (refuse BranchMismatch [ws_branch status; targetBranch a])) ;;
  let allowedDirty := default [] allowedPreExistingDirtyFiles in
  from_result (assertDirtyFilesAllowed (dirtyFiles status) (if is_merge (merge a) then [] else allowedDirty)) ;;
  updated ← try_catch (applyAndRecord a allowedDirty (dirtyFiles status)) (λ e,
              (if is_merge (merge a) then rollbackFailedMerge a e else done_with tt) ;; raise e);
  audit updated (audit_event updated AttemptApplied (updatedAt updated) None (Some (integrationAppliedFiles updated)) None) ;;
  done_with updated.

Definition applyTransaction (id : jsstring) (allowedPreExistingDirtyFiles : option (list jsstring)) : Uc Attempt :=
  attempt ← loadIntegrationAttempt id;
  with_lock (targetWorkspacePath attempt) (attemptId attempt) (applyLocked attempt allowedPreExistingDirtyFiles).

Definition applyWorkerOutput (id : jsstring) (allowedPreExistingDirtyFiles : option (list jsstring)) : Uc Attempt :=
  transaction id (applyTransaction id allowedPreExistingDirtyFiles).

(** ** Required checks *)

(** [relative] of [node:path], both paths resolved. *)
Fixpoint relative_segments (from to : list jsstring) : list jsstring :=
  match from, to with
  | f :: from', t :: to' => if js_eqb f t then relative_segments from' to' else map (λ _, dotdot) from ++ to
  | _, _ => map (λ _, dotdot) from ++ to
  end.
Definition relative (from to : jsstring) : jsstring :=
  js_join [slash] (relative_segments (AccessPaths.segments cwd from) (AccessPaths.segments cwd to)).

Definition rebaseReviewedCheckCwd (a : Attempt) (c : CheckSpec) : CheckSpec :=
  match spec_cwd c with
  | Some dir =>
      if negb (isAbsolute dir) then c
      else
        let relativeCwd := relative (AccessPaths.resolve cwd (sourceWorkspacePath a)) (AccessPaths.resolve cwd dir) in
        if js_eqb relativeCwd dotdot || starts_with (js "../") relativeCwd || isAbsolute relativeCwd then c
        else mkCheckSpec (spec_checkId c) (spec_command c)
               (Some (match relativeCwd with [] => dot | _ => relativeCwd end)) (spec_timeoutMs c)
  | None => c
  end.

Fixpoint runDeclared (a : Attempt) (checks : list CheckSpec) : Uc (list CheckRun) :=
  match checks with
  | [] => done_with []
  | check :: checks' =>
      now ← nowIso;
      run ← await (RunCheck (mkCheckRequest (targetWorkspacePath a) (integrationAppliedFiles a)
                               (rebaseReviewedCheckCwd a check) now));
      match workspaceIntegrity run with
      | None | Some Unchanged => runs ← runDeclared a checks'; done_with (run :: runs)
      | _ => done_with [run]
      end
  end.

Definition runDeclaredRequiredChecks (a : Attempt) : Uc (list CheckRun) :=
  runDeclared a (requiredChecks (reviewDecision a)).

Definition reviewedTree (a : Attempt) : Uc (option jsstring) :=
  if is_merge (merge a) then
    if negb (has_git deps && has_verifyMergeOutputTree deps) then from_result (plain "merge_output_tree_verifier_required")
    else tree ← await (GitMergeTree a); done_with (Some tree)
  else match fileByteAllowance (workerOutput a) with
       | None => done_with None
       | Some _ =>
           if negb (has_git deps && has_verifyReviewedOutputTree deps) then from_result (plain "reviewed_output_tree_verifier_required")
           else tree ← await (GitReviewedTree a); done_with (Some tree)
       end.

Definition runChecks (a : Attempt) : Uc Attempt :=
  startedAt ← nowIso;
  running ← from_result (lift (markChecksRunning a startedAt));
  await (StoreUpdate running) ;;
  audit running (audit_event running ChecksStarted startedAt None None None) ;;
  checked ← reviewedTree running;
  checkRuns ← runDeclaredRequiredChecks running;
  again ← reviewedTree running;
  (if bool_decide (checked = again) then done_with tt else from_result (plain "reviewed_output_check_tree_changed")) ;;
  completedAt ← nowIso;
  updated ← from_result (lift (recordCheckRuns
    (with_review running (status running)
       (match checked with Some _ => checked | None => checkedReviewedTree running end)
       (match checked with Some _ => if is_merge (merge running) then checked else authorizedMergeTree running
                         | None => authorizedMergeTree running end)
       (preparedReviewedCommit running) (reviewedIndexRecoveryPending running)) checkRuns completedAt));
  await (StoreUpdate updated) ;;
  audit updated (audit_event updated (if allCheckRunsPassed (Integration.checkRuns updated) then EvChecksPassed else EvChecksFailed)
    completedAt None None None) ;;
  done_with updated.

Definition runRequiredChecksLocked (a : Attempt) : Uc Attempt :=
  if bool_decide (status a = ChecksPassed) then
    if negb (is_merge (merge a)) then done_with a
    else
      tree ← reviewedTree a;
      if bool_decide (checkedReviewedTree a = tree) && bool_decide (authorizedMergeTree a = tree) then done_with a
      else runChecks (with_review a Applied (checkedReviewedTree a) (authorizedMergeTree a) (preparedReviewedCommit a)
                        (reviewedIndexRecoveryPending a))
  else runChecks a.

(** Load again under the lock of the workspace that was loaded first. *)
Definition reloaded {A} (id : jsstring) (body : Attempt → Uc A) : Uc A :=
  snapshot ← loadIntegrationAttempt id;
  with_lock (targetWorkspacePath snapshot) (attemptId snapshot) (
    attempt ← loadIntegrationAttempt id;
    (if js_eqb (targetWorkspacePath snapshot) (targetWorkspacePath attempt) then done_with tt
     else from_result (refuse (DomainReason InvalidTransition) [js "integration_attempt_target_workspace_changed"])) ;;
    body attempt).

Definition runRequiredChecks (id : jsstring) : Uc Attempt := transaction id (reloaded id runRequiredChecksLocked).

(** ** Committing *)

Definition recordCommitted (a : Attempt) (c : CommitCandidate) (r : CommitResult) : Uc Attempt :=
  (if js_eqb (rc_commitSha r) (commitSha c) then done_with tt
   else from_result (plain "reviewed_output_prepared_identity_mismatch")) ;;
  created ← (if bool_decide (status a = CommitCreated) then done_with a
             else from_result (lift (markCommitCreated a c (cc_createdAt c))));
  let updated := with_review created (status created) (checkedReviewedTree created) (authorizedMergeTree created)
                   (preparedReviewedCommit created)
                   (match rc_indexRecoveryPending r with Some p => Some p | None => reviewedIndexRecoveryPending created end) in
  await (StoreUpdate updated) ;;
  events ← readEvents deps (attemptId a);
  (if existsb (λ e, bool_decide (e_type e = EvCommitCreated) && bool_decide (e_commitSha e = Some (commitSha c))) events
   then done_with tt
   else audit updated (audit_event updated EvCommitCreated (cc_createdAt c) None (Some (files c)) (Some (commitSha c)))) ;;
  done_with updated.

(** The prepared commit does not belong to the attempt as it is. *)
Definition prepared_mismatch (a : Attempt) (p : ReviewedCommitPublication) (identity : CommitIdentity) (message : jsstring) : bool :=
  let c := pub_candidate p in
  is_merge (merge a) || negb (has_reconcileReviewedCommit deps) || negb (has_reviewedTreeChangedFiles deps) ||
  negb (bool_decide (pub_reviewedOutputId p = reviewedOutputId (workerOutput a))) ||
  negb (bool_decide (Some (pub_tree p) = checkedReviewedTree a)) ||
  negb (js_eqb (pub_name p) (ci_name identity)) || negb (js_eqb (pub_email p) (ci_email identity)) ||
  negb (js_eqb (Integration.message c) message) || negb (bool_decide (secretScanStatus c = ScanPassed)) ||
  negb (bool_decide (parentCommits c = Some [pub_parent p])) ||
  match commitCandidate a with Some c' => negb (bool_decide (c' = c)) | None => false end ||
  match fileByteAllowance (workerOutput a) with None => true | Some _ => false end.

(** A commit prepared by an earlier run: [Some] when it is now recorded. *)
Definition reconcilePrepared (a : Attempt) (identity : CommitIdentity) (message : jsstring) : Uc (option Attempt) :=
  match preparedReviewedCommit a with
  | None => done_with None
  | Some p =>
      (if prepared_mismatch a p identity message then from_result (plain "reviewed_output_prepared_identity_mismatch")
       else done_with tt) ;;
      fs ← await (GitReviewedFiles a (pub_tree p));
      from_result (lift (assertIntegrationCommitFiles a fs)) ;;
      (if bool_decide (fs = files (pub_candidate p)) then done_with tt
       else from_result (plain "reviewed_output_prepared_files_mismatch")) ;;
      reconciled ← await (GitReconcile a);
      match reconciled : option CommitResult with
      | Some r => updated ← recordCommitted a (pub_candidate p) r; done_with (Some updated)
      | None =>
          if bool_decide (status a = CommitCreated) then from_result (plain "reviewed_output_publication_ref_conflict")
          else done_with None
      end
  end.

(** The trees the commit is bound to: of a merge, or of a reviewed output. *)
Definition mergeTreeOf (a : Attempt) : Uc (option jsstring) :=
  if is_merge (merge a) then
    if negb (has_verifyMergeOutputTree deps) then from_result (plain "merge_output_tree_verifier_required")
    else
      tree ← await (GitMergeTree a);
      if negb (bool_decide (Some tree = checkedReviewedTree a)) || negb (bool_decide (Some tree = authorizedMergeTree a))
      then from_result (plain "merge_output_checks_migration_required")
      else done_with (Some tree)
  else done_with None.

Definition reviewedTreeOf (a : Attempt) : Uc (option jsstring) :=
  match is_merge (merge a), fileByteAllowance (workerOutput a) with
  | false, Some _ =>
      if negb (has_verifyReviewedOutputTree deps) then from_result (plain "reviewed_output_tree_verifier_required")
      else if negb (has_reconcileReviewedCommit deps) then from_result (plain "reviewed_output_publication_reconciler_required")
      else
        tree ← await (GitReviewedTree a);
        if bool_decide (Some tree = checkedReviewedTree a) then done_with (Some tree)
        else from_result (plain "reviewed_output_checked_tree_mismatch")
  | _, _ => done_with None
  end.

Definition filesToCommit (a : Attempt) (tree : option jsstring) : Uc (list jsstring) :=
  status ← await (GitStatus (targetWorkspacePath a));
  observed ← from_result (lift (map_res normalizeProjectRelativePath (dirtyFiles status)));
  let observed := sort observed in
  dirty ← match tree with
          | Some t =>
              if negb (has_reviewedTreeChangedFiles deps) then from_result (plain "reviewed_output_tree_delta_required")
              else await (GitReviewedFiles a t)
          | None => done_with (if is_merge (merge a) && is_empty observed then integrationAppliedFiles a else observed)
          end;
  match dirty with
  | [] => from_result (refuse (DomainReason UnexpectedFiles) [js "no_changed_files"])
  | _ => from_result (lift (assertIntegrationCommitFiles a dirty)) ;; done_with dirty
  end.

Definition reviewedParentOf (a : Attempt) (tree : option jsstring) : result error (option jsstring) :=
  match tree with
  | None => Ok None
  | Some _ =>
      let parent := toLowerCase <$> (match targetCommit (workerOutput a) with Some t => Some t | None => baseCommit (workerOutput a) end) in
      match truthy_opt parent with Some _ => Ok parent | None => plain "reviewed_output_parent_required" end
  end.

(** Scan what will be committed; of a merge, what differs from its source. *)
Definition scanForCommit (a : Attempt) (tree : option jsstring) (dirty : list jsstring) : Uc ScanResult :=
  scanFiles ← match merge a with
              | Some m =>
                  delta ← await (GitChangedSince (targetWorkspacePath a) (default (sourceCommit m) (appliedMergeSourceCommit a)));
                  done_with (List.filter (λ f, has f delta) dirty)
              | None => done_with dirty
              end;
  parent ← from_result (reviewedParentOf a tree);
  scan ← await (ScanFiles (mkScanRequest tree parent (targetWorkspacePath a) scanFiles (fileByteAllowance (workerOutput a))));
  if negb (bool_decide (sr_status scan = ScanPassed)) ||
     match tree with
     | Some _ => negb (bool_decide (scannedReviewedTree scan = tree)) || negb (bool_decide (scannedReviewedParent scan = parent))
     | None => false
     end
  then from_result (refuse SecretScanFailed (match truthy_opt (sr_safeMessage scan) with Some m => [m] | None => [] end))
  else done_with scan.

(** [onReviewedCommitPrepared]: the attempt the caller goes on with, and the
    outcome of the callback. The attempt in memory has the evidence even when
    the store refuses it. *)
Definition keepPrepared (a : Attempt) (tree : jsstring) (candidate : PreparedCommit → CommitCandidate)
    (identity : CommitIdentity) (p : PreparedCommit) : prog resp (Attempt * result error unit) :=
  let mismatch := match preparedReviewedCommit a with
                  | Some e => negb (js_eqb (commitSha (pub_candidate e)) (pc_commitSha p)) ||
                              negb (js_eqb (pub_parent e) (pc_parent p)) ||
                              negb (js_eqb (pub_originalIndexTree e) (pc_originalIndexTree p))
                  | None => false
                  end in
  if negb (js_eqb (pc_tree p) tree) || mismatch then
    Ret (a, plain "reviewed_output_prepared_identity_mismatch")
  else match preparedReviewedCommit a with
       | Some _ => Ret (a, Ok tt)
       | None =>
           let a' := with_review a (status a) (checkedReviewedTree a) (authorizedMergeTree a)
                       (Some (mkPublication (reviewedOutputId (workerOutput a)) (pc_tree p) (pc_parent p) (pc_originalIndexTree p)
                                (ci_name identity) (ci_email identity) (candidate p)))
                       (reviewedIndexRecoveryPending a) in
           Call (StoreUpdate a') (λ r, Ret (a', r))
       end.

(** The call of git with its callback. *)
Definition gitCommit (a : Attempt) (request : CommitRequest) (tree : option jsstring)
    (candidate : PreparedCommit → CommitCandidate) : prog resp (Attempt * result error CommitResult) :=
  match tree with
  | None => Call (GitCommit request) (λ r, Ret (a, r : result error CommitResult))
  | Some tree =>
      Call (GitCommitReviewed request a) (λ reply : resp (GitCommitReviewed request a),
        match reply with
        | Throw e => Ret (a, Throw e)
        | Ok (Committed r) => Ret (a, Ok r)
        | Ok (CommitPrepared p) =>
            prog_bind (keepPrepared a tree candidate (cq_identity request) p) (λ '(a', kept),
              Call (GitPublish kept) (λ r, Ret (a', r : result error CommitResult)))
        end)
  end.

(** A commit that threw after its evidence was kept may have been published. *)
Definition commitOrReconcile (a : Attempt) (request : CommitRequest) (tree : option jsstring)
    (candidate : PreparedCommit → CommitCandidate) : Uc (Attempt * CommitResult) :=
  prog_bind (gitCommit a request tree candidate) (λ '(a', outcome),
    match outcome with
    | Ok r => done_with (a', r)
    | Throw e =>
        if negb (match preparedReviewedCommit a' with Some _ => true | None => false end) || negb (has_reconcileReviewedCommit deps)
        then raise e
        else
          reconciled ← await (GitReconcile a');
          match reconciled : option CommitResult with
          | Some r => done_with (a', r)
          | None => raise e
          end
    end).

Definition commitFiles (a : Attempt) (message : jsstring) (identity : CommitIdentity) : Uc Attempt :=
  diffCheck ← await (GitDiffCheck (targetWorkspacePath a));
  (if ok diffCheck then done_with tt
   else from_result (refuse DiffCheckFailed (match truthy_opt (dc_safeMessage diffCheck) with Some m => [m] | None => [] end))) ;;
  mergeTree ← mergeTreeOf a;
  tree ← reviewedTreeOf a;
  dirty ← filesToCommit a tree;
  scan ← scanForCommit a tree dirty;
  committedAt ← nowIso;
  let candidate p := commitCandidateFromGitResult message dirty (sr_status scan) committedAt
                       (mkCommitResult (pc_commitSha p) (Some [pc_parent p]) None None) in
  let request := mkCommitRequest (targetWorkspacePath a) message dirty identity mergeTree
                   (match merge a with
                    | Some m => Some [expectedTargetCommit m; default (sourceCommit m) (appliedMergeSourceCommit a)]
                    | None => None
                    end) in
  '(a', result) ← commitOrReconcile a request tree candidate;
  match tree, preparedReviewedCommit a' with
  | Some _, None => from_result (plain "reviewed_output_prepared_evidence_required")
  | _, prepared =>
      recordCommitted a' (match prepared with
                          | Some p => pub_candidate p
                          | None => commitCandidateFromGitResult message dirty (sr_status scan) committedAt result
                          end) result
  end.

Definition commitLocked (a : Attempt) (message : jsstring) (p : Policy) : Uc Attempt :=
  (match fileByteAllowance (workerOutput a), reviewedOutputId (workerOutput a) with
   | None, None => done_with tt
   | allowance, _ =>
       from_result (lift (reviewedOutputFileByteAllowance allowance)) ;;
       if negb (has_reviewedOutputIntegrity deps) then from_result (plain "reviewed_output_integrity_verifier_required")
       else await (VerifyIntegrity a)
   end) ;;
  approved ← await (ApprovedIdentity (match Access.scope (access p) with Some s => Access.projectId s | None => [] end)
                      (targetWorkspacePath a));
  identity ← from_result (assertCommitIdentity approved);
  recorded ← reconcilePrepared a identity message;
  match recorded : option Attempt with
  | Some updated => done_with updated
  | None => commitFiles a message identity
  end.

Definition commitTransaction (id message : jsstring) (p : Policy) : Uc Attempt :=
  attempt ← loadIntegrationAttempt id;
  from_result (lift (assertStatus attempt
    (match preparedReviewedCommit attempt with Some _ => [ChecksPassed; CommitCreated] | None => [ChecksPassed] end))) ;;
  from_result (assertRequiredChecksSatisfied p attempt) ;;
  from_result (assertCommitMessageAllowed message) ;;
  with_lock (targetWorkspacePath attempt) (attemptId attempt) (commitLocked attempt message p).

Definition commitApprovedChanges (id message : jsstring) (p : Policy) : Uc Attempt :=
  transaction id (commitTransaction id message p).

(** ** Pushing and promoting *)

Record PushInput : Set := mkPushInput { in_attemptId : jsstring; in_remote : option jsstring; in_branch : option jsstring;
  in_force : option bool; in_policy : Policy }.

Definition expectedPromotionTarget (a : Attempt) : result error (option jsstring) :=
  let mergeTarget := expectedTargetCommit <$> merge a in
  let workerTarget := targetCommit (workerOutput a) in
  match truthy_opt mergeTarget, truthy_opt workerTarget with
  | Some m, Some w =>
      if js_eqb (toLowerCase m) (toLowerCase w) then Ok mergeTarget
      else refuse_message (DomainReason InvalidMergePlan) "integration_promotion_target_mismatch" [m; w]
  | _, _ => Ok (match mergeTarget with Some m => Some m | None => workerTarget end)
  end.

Definition replayIntegratedOutputLedger (a : Attempt) : Uc unit :=
  match pushAttempt a with
  | None => from_result (refuse_message (DomainReason InvalidTransition) "push_attempt_required" [])
  | Some p =>
      preparation ← await (LedgerPrepare a (pa_commitSha p));
      await (LedgerPreflight preparation (Some (pushedAt p))) ;;
      await (LedgerFinalize preparation (pushedAt p))
  end.

(** Publish unless the remote branch is there already. *)
Definition pushUnlessThere (at_remote : bool) (r : PushRequest) : Uc unit :=
  if at_remote then done_with tt else await (GitPush r).

Definition promote (a : Attempt) (c : CommitCandidate) (remote branch : jsstring) : Uc Attempt :=
  currentBranch ← await (GitCurrentBranch (targetWorkspacePath a));
  (if js_eqb currentBranch (targetBranch a) then done_with tt
   else from_result (refuse BranchMismatch [currentBranch; targetBranch a])) ;;
  expectedTarget ← from_result (expectedPromotionTarget a);
  remoteCommit ← await (GitRemoteCommit (targetWorkspacePath a) remote branch);
  let there := bool_decide (remoteCommit = Some (commitSha c)) in
  (if there || match truthy_opt expectedTarget, remoteCommit with
               | Some t, Some r => js_eqb (toLowerCase r) (toLowerCase t)
               | _, _ => false
               end
   then done_with tt
   else from_result (refuse_message StaleBase "integration_promotion_target_changed"
          [branch; default (js "missing_expected_target_commit") expectedTarget;
           default (js "missing_remote_target_commit") remoteCommit])) ;;
  pushUnlessThere there (mkPush (targetWorkspacePath a) remote branch (commitSha c) false expectedTarget) ;;
  promotedAt ← nowIso;
  updated ← from_result (lift (markPromoted a (mkPushAttempt remote branch (commitSha c) PushPushed promotedAt) promotedAt));
  await (StoreUpdate updated) ;;
  audit updated (audit_event updated EvPromoted promotedAt None None (Some (commitSha c))) ;;
  done_with updated.

Definition replayOrPromotePushedCommit (i : PushInput) (a : Attempt) : Uc Attempt :=
  match pushAttempt a, commitCandidate a with
  | Some p, Some c =>
      let remote := default (Integration.remote p) (in_remote i) in
      let branch := default (Integration.branch p) (in_branch i) in
      let existing := existsb (λ q, js_eqb (Integration.remote q) remote && js_eqb (Integration.branch q) branch &&
                                    js_eqb (pa_commitSha q) (commitSha c)) (default [] (promotionAttempts a)) in
      replayIntegratedOutputLedger a ;;
      if (js_eqb remote (Integration.remote p) && js_eqb branch (Integration.branch p)) || existing then done_with a
      else
        (if bool_decide (in_force i = Some true) then
           from_result (refuse_message PolicyDenied "integration_promotion_force_denied" [])
         else done_with tt) ;;
        from_result (require (Access.canPushBranch cwd (access (in_policy i))
                                (git_request (targetWorkspacePath a) branch (Some remote) (Some false)))) ;;
        promote a c remote branch
  | _, _ => from_result (refuse_message (DomainReason InvalidTransition) "push_attempt_required" [])
  end.

Definition pushCommit (i : PushInput) (a : Attempt) (c : CommitCandidate) : Uc Attempt :=
  let remote := default (targetRemote a) (in_remote i) in
  let branch := default (targetBranch a) (in_branch i) in
  let force := default false (in_force i) in
  from_result (require (Access.canPushBranch cwd (access (in_policy i))
                          (git_request (targetWorkspacePath a) branch (Some remote) (Some force)))) ;;
  (if force && negb (Access.some_true (allowForcePush (in_policy i))) then
     from_result (refuse_message PolicyDenied "integration_force_push_denied" [])
   else done_with tt) ;;
  currentBranch ← await (GitCurrentBranch (targetWorkspacePath a));
  (if js_eqb currentBranch branch then done_with tt
   else from_result (refuse BranchMismatch [currentBranch; branch])) ;;
  preparation ← await (LedgerPrepare a (commitSha c));
  await (LedgerPreflight preparation None) ;;
  remoteCommit ← await (GitRemoteCommit (targetWorkspacePath a) remote branch);
  pushUnlessThere (bool_decide (remoteCommit = Some (commitSha c)))
    (mkPush (targetWorkspacePath a) remote branch (commitSha c) force None) ;;
  pushedAt ← nowIso;
  await (LedgerFinalize preparation pushedAt) ;;
  updated ← from_result (lift (markPushed a (mkPushAttempt remote branch (commitSha c) PushPushed pushedAt) pushedAt));
  await (StoreUpdate updated) ;;
  audit updated (audit_event updated EvPushed pushedAt None None (Some (commitSha c))) ;;
  done_with updated.

Definition pushTransaction (i : PushInput) : Uc Attempt :=
  attempt ← loadIntegrationAttempt (in_attemptId i);
  if bool_decide (status attempt = Pushed) then replayOrPromotePushedCommit i attempt
  else
    from_result (lift (assertStatus attempt [CommitCreated])) ;;
    match commitCandidate attempt with
    | None => from_result (refuse_message (DomainReason InvalidTransition) "commit_candidate_required" [])
    | Some c => pushCommit i attempt c
    end.

Definition pushApprovedCommit (i : PushInput) : Uc Attempt := transaction (in_attemptId i) (pushTransaction i).

(** ** Rejecting *)

Definition outputWasApplied (s : Status) : bool :=
  match s with Applied | ChecksFailed | ChecksPassed => true | _ => false end.
Definition mergeCanStillBePending (s : Status) : bool :=
  match s with Opened | Applied | ChecksRunning | ChecksFailed | ChecksPassed => true | _ => false end.

Definition rollbackRejectedMerge (a : Attempt) : Uc unit :=
  if negb (has_git deps && has_abortMerge deps) then from_result (refuse MergeRollbackFailed [js "git_abort_merge_unavailable"])
  else try_catch (await (GitAbortMerge a)) (λ e, from_result (refuse MergeRollbackFailed [safeErrorMessage e])).

Definition rollbackRejectedWorkerOutput (a : Attempt) : Uc unit :=
  if negb (has_git deps && has_rollbackWorkerOutput deps)
  then from_result (refuse OutputRollbackFailed [js "git_output_rollback_unavailable"])
  else try_catch (await (GitRollback a)) (λ e, from_result (refuse OutputRollbackFailed [safeErrorMessage e])).

Definition rejectLocked (reason : jsstring) (a : Attempt) : Uc (Attempt * RejectedReceipt) :=
  (if bool_decide (status a = ChecksRunning) then
     from_result (refuse_message (DomainReason InvalidTransition) "integration_rejection_checks_running_forbidden"
                    [js "checks_must_reach_a_terminal_state_before_rejection"])
   else done_with tt) ;;
  preparation ← await (LedgerPrepareRejection a);
  if bool_decide (status a = Rejected) then
    receipt ← await (LedgerFinalizeRejection preparation (updatedAt a) (default reason (rejectReason a)));
    done_with (a, receipt)
  else
    (if is_merge (merge a) && mergeCanStillBePending (status a) then rollbackRejectedMerge a
     else if negb (is_merge (merge a)) && outputWasApplied (status a) then rollbackRejectedWorkerOutput a
     else done_with tt) ;;
    now ← nowIso;
    updated ← from_result (lift (markRejected a reason now));
    await (StoreUpdate updated) ;;
    audit updated (audit_event updated EvRejected now (Some reason) None None) ;;
    receipt ← await (LedgerFinalizeRejection preparation (updatedAt updated) reason);
    done_with (updated, receipt).

Definition rejectIntegrationAttempt (id reason : jsstring) : Uc (Attempt * RejectedReceipt) :=
  transaction id (reloaded id (rejectLocked reason)).

End UseCases.
End Cases.
