(* ===== verification/IntegrationRecovery.v ===== *)
(** * Integration use cases: recovery by an operator

    [adopt-published-integration-commit.ts] and
    [recover-operator-check-artifact.ts] of
    [src/worker-core/integration/application]: an operator attests that a commit
    was published outside the runtime, or has a file archived that a check left
    behind. [JSON.stringify] on both sides of a comparison is equality, as in
    [IntegrationCases.v]. *)

From stdpp Require Import base numbers option sets strings list.
From S2P Require Import Prelude Json IntegrationAttempt Programs AccessPaths CommandPolicy AccessControl IsoDate.
From S2P Require Import ArtifactRecovery IntegrationPorts IntegrationCases.

Module Recovery.
Import Integration Ports Cases.

#[global] Instance Attestation_eq_dec : EqDecision Attestation.
Proof. solve_decision. Defined.

(** ** Adoption of a published commit *)

(** The attestation as it was given: the two fields that have one value. *)
Record AdoptInput : Set := mkAdopt { ad_attemptId : jsstring; ad_commitSha : jsstring; ad_message : jsstring;
  provenance : jsstring; verificationMethod : jsstring; attestation : Attestation; ad_policy : Policy }.

Definition with_attestation (a : Attempt) (t : Attestation) : Attempt :=
  mkAttempt (attemptId a) (projectId a) (controllerJobId a) (a_workerJobId a) (sourceWorkspacePath a)
    (targetWorkspacePath a) (targetBranch a) (targetRemote a) (expectedFiles a) (merge a) (appliedFiles a)
    (appliedMergeSourceCommit a) (status a) (workerOutput a) (reviewDecision a) (checkedReviewedTree a) (authorizedMergeTree a)
    (preparedReviewedCommit a) (reviewedIndexRecoveryPending a) (checkRuns a) (commitCandidate a) (pushAttempt a) (Some t)
    (promotionAttempts a) (rejectReason a) (createdAt a) (updatedAt a).

Definition ensure (b : bool) (m : string) : result error unit := if b then Ok tt else plain m.

(** [[A-Za-z0-9_.-]] and, with [@], the characters of an operator. *)
Definition repository_char (c : N) : bool := Commands.name_char c || (c =? 46)%N || (c =? 45)%N.
Definition operator_char (c : N) : bool := repository_char c || (c =? 64)%N.
Definition repository_text (s : jsstring) : bool :=
  match split_slash s with
  | [owner; name] => truthy owner && truthy name && forallb repository_char owner && forallb repository_char name
  | _ => false
  end.
Definition operator_text (s : jsstring) : bool := truthy s && (length s <=? 200)%nat && forallb operator_char s.

Definition attestationValid (a : Attempt) (i : AdoptInput) : bool :=
  let t := attestation i in
  ArtifactRecovery.hex_text ArtifactRecovery.lower_hex 40 (ad_commitSha i) &&
  ArtifactRecovery.hex_text ArtifactRecovery.lower_hex 64 (evidenceSha256 t) &&
  repository_text (repository t) && operator_text (operator t) &&
  match IsoDate.parse (verifiedAt t) with Some _ => true | None => false end &&
  js_eqb (provenance i) (js "operator_attestation") && js_eqb (verificationMethod i) (js "authenticated_gh_api") &&
  js_eqb (at_commitSha t) (ad_commitSha i) && js_eqb (at_branch t) (targetBranch a) && js_eqb (at_remote t) (targetRemote a).

Definition adoptable (s : Status) : bool := match s with ChecksPassed | CommitCreated | Pushed => true | _ => false end.

(** What is asked of the attempt and the input before the clock is read. *)
Definition assertAdoptable (a : Attempt) (i : AdoptInput) : result error unit :=
  ensure (adoptable (status a)) "published_commit_adoption_status_invalid" ;;
  ensure (negb (is_merge (merge a)) &&
          match truthy_opt (reviewedOutputId (workerOutput a)), fileByteAllowance (workerOutput a),
                truthy_opt (checkedReviewedTree a), preparedReviewedCommit a with
          | Some _, Some _, Some _, None => true
          | _, _, _, _ => false
          end) "published_commit_adoption_exact_reviewed_output_required" ;;
  lift (reviewedOutputFileByteAllowance (fileByteAllowance (workerOutput a))) ;;
  ensure (match decision (reviewDecision a) with ReviewApproved => true | _ => false end)
    "published_commit_adoption_review_not_approved" ;;
  ensure (attestationValid a i) "published_commit_adoption_attestation_invalid" ;;
  ensure (match externalPublicationAttestation a with Some t => bool_decide (t = attestation i) | None => true end)
    "published_commit_adoption_replay_conflict".

(** An attestation is fresh from two minutes before to half an hour after. *)
Definition attestationFresh (now verified : option Z) : bool :=
  match now, verified with
  | Some n, Some v => (-120000 <=? n - v)%Z && (n - v <=? 1800000)%Z
  | _, _ => true
  end.

(** What is asked after. *)
Definition assertReplay (a : Attempt) (i : AdoptInput) : result error unit :=
  ensure (bool_decide (status a = ChecksPassed) ||
          match externalPublicationAttestation a, commitCandidate a with
          | Some _, Some c => js_eqb (commitSha c) (ad_commitSha i) && js_eqb (message c) (ad_message i)
          | _, _ => false
          end) "published_commit_adoption_replay_conflict" ;;
  ensure (negb (bool_decide (status a = Pushed)) ||
          match pushAttempt a with
          | Some p => js_eqb (pa_commitSha p) (ad_commitSha i) && js_eqb (remote p) (targetRemote a) &&
                      js_eqb (branch p) (targetBranch a) && js_eqb (pushedAt p) (verifiedAt (attestation i))
          | None => false
          end) "published_commit_adoption_replay_conflict" ;;
  assertCommitMessageAllowed (ad_message i) ;;
  assertRequiredChecksSatisfied (ad_policy i) a ;;
  ensure (match checkRuns a with [] => false | _ => true end && allCheckRunsPassed (checkRuns a)) "published_commit_adoption_checks_not_passed".

Section UseCases.
Context (deps : Deps) (cwd : jsstring).

Definition assertAuthority (a : Attempt) (p : Policy) : result error unit :=
  ensure (bool_decide (Access.boundary (access p) = Access.ProjectScopedControl) &&
          match Access.scope (access p) with Some s => js_eqb (Access.projectId s) (projectId a) | None => false end &&
          has_authorizeAdoption deps) "published_commit_adoption_authority_required" ;;
  ensure (Access.allowed (Access.canIntegrateCommit cwd (access p)
            (git_request (targetWorkspacePath a) (targetBranch a) None None)) &&
          Access.allowed (Access.canStartWorker cwd (access p)
            (Access.mkJobRequest (a_workerJobId a) None (Some (sourceWorkspacePath a)) None None)))
    "published_commit_adoption_scope_denied".

Definition adoptionParent (a : Attempt) : option jsstring :=
  truthy_opt (toLowerCase <$> (match targetCommit (workerOutput a) with Some t => Some t | None => baseCommit (workerOutput a) end)).

Definition commitMatches (a : Attempt) (i : AdoptInput) (tree parent : jsstring) (identity : CommitIdentity)
    (c : InspectedCommit) : bool :=
  js_eqb (ic_commitSha c) (ad_commitSha i) && js_eqb (ic_tree c) tree && bool_decide (ic_parentCommits c = [parent]) &&
  js_eqb (ic_message c) (ad_message i) &&
  js_eqb (ci_name (ic_author c)) (ci_name identity) && js_eqb (ci_email (ic_author c)) (ci_email identity) &&
  js_eqb (ci_name (ic_committer c)) (ci_name identity) && js_eqb (ci_email (ic_committer c)) (ci_email identity) &&
  bool_decide (ic_files c = sort (expectedFiles a)).

(** The published commit, inspected in the target workspace. *)
Definition inspectPublished (a : Attempt) (i : AdoptInput) : Uc InspectedCommit :=
  repo ← await (GitRemoteRepository (targetWorkspacePath a) (targetRemote a));
  from_result (ensure (js_eqb repo (toLowerCase (repository (attestation i)))) "published_commit_adoption_repository_mismatch") ;;
  await (VerifyIntegrity a) ;;
  match adoptionParent a with
  | None => from_result (plain "published_commit_adoption_parent_required")
  | Some parent =>
      st ← await (GitStatus (targetWorkspacePath a));
      from_result (ensure (js_eqb (ws_branch st) (targetBranch a) && is_empty (dirtyFiles st)) "published_commit_adoption_workspace_drift") ;;
      head ← await (GitCurrentHead (targetWorkspacePath a));
      from_result (ensure (js_eqb head parent || js_eqb head (ad_commitSha i)) "published_commit_adoption_head_drift") ;;
      tree ← await (GitTreeFromPatch a);
      from_result (ensure (bool_decide (Some tree = checkedReviewedTree a)) "published_commit_adoption_reviewed_tree_drift") ;;
      c ← await (GitInspectCommit (targetWorkspacePath a) (ad_commitSha i));
      approved ← await (ApprovedIdentity (projectId a) (targetWorkspacePath a));
      identity ← from_result (assertCommitIdentity approved);
      from_result (ensure (commitMatches a i tree parent identity c) "published_commit_adoption_commit_mismatch") ;;
      from_result (lift (assertIntegrationCommitFiles a (ic_files c))) ;;
      scan ← await (ScanFiles (mkScanRequest (Some tree) (Some parent) (targetWorkspacePath a) (ic_files c)
                                 (fileByteAllowance (workerOutput a))));
      from_result (ensure (bool_decide (sr_status scan = ScanPassed) && bool_decide (scannedReviewedTree scan = Some tree) &&
                           bool_decide (scannedReviewedParent scan = Some parent)) "published_commit_adoption_secret_scan_failed") ;;
      done_with c
  end.

(** Record an event unless one like it is there. *)
Definition auditOnce (a : Attempt) (seen : AuditEvent → bool) (e : result error AuditEvent) : Uc unit :=
  events ← readEvents deps (attemptId a);
  if existsb seen events then done_with tt else event ← from_result e; recordIntegrationAudit deps a event.

Definition has_event (type : AuditEventType) (sha : jsstring) (e : AuditEvent) : bool :=
  bool_decide (e_type e = type) && bool_decide (e_commitSha e = Some sha).

Definition recordAdopted (a : Attempt) (i : AdoptInput) (c : InspectedCommit) : Uc Attempt :=
  if bool_decide (status a = ChecksPassed) then
    adoptedAt ← nowIso;
    created ← from_result (lift (markCommitCreated a
                (mkCommitCandidate (ic_commitSha c) (Some (ic_parentCommits c)) (ic_message c) (ic_files c) None ScanPassed adoptedAt)
                adoptedAt));
    let adopted := with_attestation created (attestation i) in
    await (StoreUpdate adopted) ;;
    done_with adopted
  else done_with a.

Definition attested_reason (t : Attestation) : jsstring :=
  js "operator_attestation:" ++ operator t ++ js ":" ++ evidenceSha256 t.

(** The ledger is closed for the published commit. *)
Definition closeLedger (a : Attempt) (i : AdoptInput) : Uc unit :=
  (if has_readPrepared deps && has_prepareAdoption deps then done_with tt
   else from_result (plain "published_commit_adoption_preparation_recovery_required")) ;;
  saved ← await (LedgerReadPrepared a (ad_commitSha i));
  preparation ← match saved : option Preparation with
                | Some p => done_with p
                | None => if bool_decide (status a = Pushed) then from_result (plain "published_commit_adoption_preparation_missing")
                          else await (LedgerPrepareAdoption a (ad_commitSha i))
                end;
  await (LedgerPreflight preparation (Some (verifiedAt (attestation i)))) ;;
  await (LedgerFinalize preparation (verifiedAt (attestation i))).

Definition recordPublished (a : Attempt) (i : AdoptInput) : Uc Attempt :=
  if bool_decide (status a = Pushed) then done_with a
  else
    let at_ := verifiedAt (attestation i) in
    updated ← from_result (lift (markPushed a (mkPushAttempt (targetRemote a) (targetBranch a) (ad_commitSha i) PushPushed at_) at_));
    await (StoreUpdate updated) ;;
    done_with updated.

Definition adoptLocked (i : AdoptInput) : Uc Attempt :=
  a ← loadIntegrationAttempt (ad_attemptId i);
  from_result (assertAdoptable a i) ;;
  (if bool_decide (status a = ChecksPassed) then
     now ← nowIso;
     from_result (ensure (attestationFresh (IsoDate.parse now) (IsoDate.parse (verifiedAt (attestation i))))
                    "published_commit_adoption_attestation_stale")
   else done_with tt) ;;
  from_result (assertReplay a i) ;;
  from_result (assertAuthority a (ad_policy i)) ;;
  await (AuthorizeAdoption a) ;;
  (if has_reviewedOutputIntegrity deps && has_treeFromPatch deps && has_inspectCommit deps && has_currentHead deps &&
      has_remoteRepository deps then done_with tt
   else from_result (plain "published_commit_adoption_verifier_required")) ;;
  c ← inspectPublished a i;
  adopted ← recordAdopted a i c;
  auditOnce adopted (has_event ExternalCommitAdopted (ad_commitSha i))
    (match commitCandidate adopted with
     | Some k => Ok (audit_event adopted ExternalCommitAdopted (cc_createdAt k) (Some (attested_reason (attestation i)))
                       (Some (ic_files c)) (Some (ad_commitSha i)))
     | None => plain "TypeError"
     end) ;;
  closeLedger adopted i ;;
  published ← recordPublished adopted i;
  auditOnce published (has_event EvPushed (ad_commitSha i))
    (Ok (audit_event published EvPushed (verifiedAt (attestation i)) (Some (js "operator_attested_external_publication")) None
           (Some (ad_commitSha i)))) ;;
  done_with published.

Definition adoptPublishedIntegrationCommit (i : AdoptInput) : Uc Attempt :=
  runIntegrationTransaction deps (ad_attemptId i) (
    initial ← loadIntegrationAttempt (ad_attemptId i);
    with_lock (targetWorkspacePath initial) (attemptId initial) (adoptLocked i)).

(** ** Recovery of an artifact *)

Record RecoverInput : Set := mkRecover { rc_permit : ArtifactRecovery.Permit; rc_permitSha256 : jsstring; confirm : bool }.

Definition recordAuditOnce (a : Attempt) (type : AuditEventType) (occurredAt permitSha256 path : jsstring) : Uc unit :=
  let safe := js "operator_artifact_recovery:" ++ permitSha256 in
  auditOnce a (λ e, bool_decide (e_type e = type) && bool_decide (safeReason e = Some safe))
    (Ok (audit_event a type occurredAt (Some safe) (Some [path]) None)).

Definition recordRecoveryAuditPair (a : Attempt) (permitSha256 path : jsstring) : Uc unit :=
  occurredAt ← nowIso;
  recordAuditOnce a OperatorArtifactRecoveryPrepared occurredAt permitSha256 path ;;
  recordAuditOnce a OperatorArtifactRecoveryCompleted occurredAt permitSha256 path.

Definition recoverLocked (snapshot : Attempt) (i : RecoverInput) : Uc RecoveryResult :=
  attempt ← loadIntegrationAttempt (ArtifactRecovery.pm_attemptId (rc_permit i));
  from_result (ensure (js_eqb (targetWorkspacePath attempt) (targetWorkspacePath snapshot))
                 "operator_artifact_recovery_workspace_changed") ;;
  validation ← from_result (lift (ArtifactRecovery.validateOperatorArtifactRecoveryAttempt attempt (rc_permit i)));
  let request := mkRecoveryRequest attempt (rc_permit i) (rc_permitSha256 i) validation in
  inspected ← await (RecoveryInspect request);
  match rs_state inspected with
  | RecoveryCompleted =>
      recordRecoveryAuditPair attempt (rc_permitSha256 i) (ArtifactRecovery.artifactPath validation) ;; done_with inspected
  | _ =>
      preparedAt ← nowIso;
      prepared ← await (RecoveryPrepare request preparedAt);
      recordAuditOnce attempt OperatorArtifactRecoveryPrepared preparedAt (rc_permitSha256 i) (ArtifactRecovery.artifactPath validation) ;;
      completedAt ← nowIso;
      completed ← await (RecoveryComplete request completedAt);
      recordAuditOnce attempt OperatorArtifactRecoveryCompleted completedAt (rc_permitSha256 i) (ArtifactRecovery.artifactPath validation) ;;
      done_with (match rs_state completed with RecoveryCompleted => completed | _ => prepared end)
  end.

(** This use case is not a transaction: it takes no activity lease. *)
Definition recoverOperatorCheckArtifact (i : RecoverInput) : Uc RecoveryResult :=
  snapshot ← loadIntegrationAttempt (ArtifactRecovery.pm_attemptId (rc_permit i));
  preview ← from_result (lift (ArtifactRecovery.validateOperatorArtifactRecoveryAttempt snapshot (rc_permit i)));
  if negb (confirm i) then await (RecoveryInspect (mkRecoveryRequest snapshot (rc_permit i) (rc_permitSha256 i) preview))
  else with_lock (targetWorkspacePath snapshot) (js "operator-artifact-recovery:" ++ attemptId snapshot) (recoverLocked snapshot i).

End UseCases.
End Recovery.
