(* ===== verification/IntegrationWorld.v ===== *)
(** * Integration use cases: a world to run them in

    A store, a workspace and a remote that answer the calls of the ports the way
    the adapters do, over which the use cases of [IntegrationCases.v] run alone
    and interleaved. Nothing here models code; the runs show what the use cases
    do with answers that fit together. *)

From stdpp Require Import base numbers option sets strings list.
From S2P Require Import Prelude Json IntegrationAttempt Programs AccessPaths CommandPolicy AccessControl IntegrationPorts.
From S2P Require Import ArtifactRecovery IntegrationCases IntegrationRecovery.

Module World.
Import Integration Ports Cases Recovery.

Record world : Set := mkWorld { attempts : list Attempt; dirty : list jsstring; remote_head : option jsstring;
  pushed_to : list jsstring; held : bool }.

Definition put (a : Attempt) (l : list Attempt) : list Attempt :=
  a :: List.filter (λ b, negb (js_eqb (attemptId b) (attemptId a))) l.
Definition with_store (w : world) (a : Attempt) : world :=
  mkWorld (put a (attempts w)) (dirty w) (remote_head w) (pushed_to w) (held w).
Definition with_dirty (w : world) (fs : list jsstring) : world :=
  mkWorld (attempts w) fs (remote_head w) (pushed_to w) (held w).
Definition with_lock_held (w : world) (b : bool) : world :=
  mkWorld (attempts w) (dirty w) (remote_head w) (pushed_to w) b.
Definition with_push (w : world) (r : PushRequest) : world :=
  mkWorld (attempts w) (dirty w) (Some (pq_commitSha r)) (pushed_to w ++ [pq_branch r]) (held w).

Definition sha : jsstring := replicate 40 99%N.
Definition tree : jsstring := replicate 40 98%N.
Definition base : jsstring := replicate 40 97%N.
Definition now : jsstring := js "2026-01-02T03:04:05.678Z".
Definition dev : CommitIdentity := mkIdentity (js "Dev") (js "dev@example.org").
Definition message : jsstring := js "feat: output of p-1".
Definition published_files : list jsstring := [js "src/a.ts"].
Definition prep (a : Attempt) (commit : jsstring) : Preparation := mkPreparation (attemptId a) [] [] commit [] [] [] [].
Definition passed (r : CheckRequest) : CheckRun :=
  mkCheckRun (spec_checkId (ck_check r)) (spec_command (ck_check r)) CheckPassed (ck_startedAt r) (ck_startedAt r) (Some 0%Z)
    None (Some Unchanged).

(** A lock that is held refuses; every other port does what it is asked. *)
Definition handle (c : call) (w : world) : resp c * world :=
  match c return resp c * world with
  | StoreCreate a | StoreUpdate a => (Ok tt, with_store w a)
  | StoreGet id => (Ok (List.find (λ a, js_eqb (attemptId a) id) (attempts w)), w)
  | ReadEvents _ => (Ok [], w)
  | Now => (Ok now, w)
  | GitCurrentBranch _ => (Ok (js "main"), w)
  | LockAcquire ws owner =>
      if held w then (Throw (PlainErr (js "locked")), w) else (Ok (mkLock (js "lock") ws owner), with_lock_held w true)
  | LockRelease _ => (Ok tt, with_lock_held w false)
  | GitStatus _ => (Ok (mkStatus (js "main") (dirty w)), w)
  | GitApply a _ _ => (Ok (mkApplied (expectedFiles a) None), with_dirty w (expectedFiles a))
  | GitDiffCheck _ => (Ok (mkDiffCheck true None), w)
  | GitChangedSince _ _ | GitReviewedFiles _ _ => (Ok (dirty w), w)
  | GitCommit _ | GitPublish _ => (Ok (mkCommitResult sha None None None), with_dirty w [])
  | GitCommitReviewed _ _ => (Ok (CommitPrepared (mkPrepared sha [] tree [])), w)
  | GitAbortMerge _ | GitRollback _ => (Ok tt, with_dirty w [])
  | GitPush r => (Ok tt, with_push w r)
  | GitRemoteCommit _ _ _ => (Ok (remote_head w), w)
  | GitMergeTree _ | GitReviewedTree _ => (Ok tree, w)
  | GitReconcile _ => (Ok None, w)
  | RunCheck r => (Ok (passed r), w)
  | ApprovedIdentity _ _ => (Ok (Some dev), w)
  | ScanFiles r => (Ok (mkScan ScanPassed (sq_reviewedTree r) (sq_reviewedParent r) None), w)
  | LedgerPrepare a c => (Ok (prep a c), w)
  | LedgerPrepareRejection a => (Ok (mkRejection (attemptId a) [] [] [] [] [] [] true), w)
  | LedgerFinalizeRejection _ _ _ => (Ok (mkRejectedReceipt [] [] LedgerRejected false), w)
  | GitRemoteRepository _ _ => (Ok (js "me/repo"), w)
  | GitCurrentHead _ => (Ok sha, w)
  | GitTreeFromPatch _ => (Ok tree, w)
  | GitInspectCommit _ c => (Ok (mkInspected c tree [base] dev dev message (sort published_files)), w)
  | LedgerReadPrepared _ _ => (Ok None, w)
  | LedgerPrepareAdoption a c => (Ok (prep a c), w)
  | RecoveryInspect r | RecoveryPrepare r _ => (Ok (mkRecovery RecoveryReady (rq_permitSha256 r) None None None), w)
  | RecoveryComplete r _ => (Ok (mkRecovery RecoveryCompleted (rq_permitSha256 r) None None None), w)
  | AuthorizeAdoption _ | VerifyIntegrity _ | LedgerPreflight _ _ | LedgerFinalize _ _ | EnterActivity _ | LeaveActivity _
  | AppendEvent _ _ | AuditRecord _ => (Ok tt, w)
  end.

Definition all_deps : Deps := mkDeps true true true true true true true true true true true true true true true true true true.
Definition cwd : jsstring := js "/home/me".
Definition scope : Access.ProjectAccessScope :=
  Access.mkScope (js "p") None None (Some [js "/work/p"]) (Some [js "/work/trees"]) (Some (js "/work/p/registry")) (Some (js "/work/p/auth"))
    None (Some [js "p-"]) (Some [js "p-"]) (Some [js "main"; js "release"]) (Some [js "origin"]) None None.
Definition policy : Policy :=
  mkPolicy (Access.mkContext Access.ProjectScopedControl (Some scope)) (Some [js "src"]) (Some [js "unit"]) None None.

Definition output : WorkerOutput :=
  mkWorkerOutput None None (js "p-1") (js "/work/p/job") None (Some (js "fix.patch")) None None None None None None None None
    None [js "src/a.ts"] None.
Definition review : ReviewDecision :=
  mkReviewDecision (js "lead") ReviewApproved (js "ok") [js "src/a.ts"] [mkCheckSpec (js "unit") [js "npm"; js "test"] None None] None.
Definition input : OpenInput :=
  mkOpenInput (js "a1") (js "p") (js "p-0") (js "/work/p/job") (js "/work/p/main") (js "main") (js "origin") None output review [].
Definition start : world := mkWorld [] [] (Some base) [] false.
Definition push_input : PushInput := mkPushInput (js "a1") None None None policy.

Definition opening := openProjectIntegrationAttempt all_deps cwd input policy.
Definition applying := applyWorkerOutput all_deps (js "a1") None.
Definition checking := runRequiredChecks all_deps cwd (js "a1").
Definition committing := commitApprovedChanges all_deps (js "a1") message policy.
Definition pushing := pushApprovedCommit all_deps cwd push_input.
Definition rejecting := rejectIntegrationAttempt all_deps (js "a1") (js "late").

Definition rejecting_attempt : Uc Attempt := '(a, _) ← rejecting; done_with a.

Definition after {A} (p : Uc A) (w : world) : world := (Programs.exec handle p w).2.
Definition opened : world := after opening start.
Definition applied : world := after applying opened.
Definition checked : world := after checking applied.
Definition committed : world := after committing checked.
Definition pushed : world := after pushing committed.

Definition statuses (w : world) : list Status := map status (attempts w).

(** The life of an attempt, use case by use case. *)
Example life :
  map statuses [opened; applied; checked; committed; pushed] = [[Opened]; [Applied]; [ChecksPassed]; [CommitCreated]; [Pushed]] ∧
  remote_head pushed = Some sha ∧ pushed_to pushed = [js "main"] ∧ held pushed = false.
Proof. by vm_compute. Qed.

(** A push that is asked for again replays the ledger and pushes nothing. *)
Example push_again : after pushing pushed = pushed.
Proof. by vm_compute. Qed.

(** To another branch, it is promoted when the remote is where it was. *)
Example promoting :
  let again := pushApprovedCommit all_deps cwd (mkPushInput (js "a1") None (Some (js "release")) None policy) in
  let w := after again pushed in
  statuses w = [Pushed] ∧ map (λ a, length (default [] (promotionAttempts a))) (attempts w) = [1%nat].
Proof. by vm_compute. Qed.

Example rejecting_rolls_back : let w := after rejecting checked in statuses w = [Rejected] ∧ dirty checked = [js "src/a.ts"] ∧ dirty w = [].
Proof. by vm_compute. Qed.

(** ** Runs at the same time *)

(** The first program makes [n] calls, the second all of its own, the first the
    rest. *)
Definition within {A} (n : nat) (p q : prog resp A) (w : world) : world :=
  (interleave handle (replicate n 0%nat ++ replicate 60 1%nat ++ replicate 60 0%nat) [p; q] w).2.

(** The output of a worker is applied to an attempt that was rejected while it
    waited for the lock of the workspace: the attempt was loaded before, is not
    loaded again, and is stored as applied. *)
Lemma rejected_attempt_revived :
  statuses (within 2 applying rejecting_attempt opened) = [Applied] ∧
  statuses (after applying (after rejecting opened)) = [Rejected].
Proof. by vm_compute. Qed.

(** A commit is loaded as early, but finds no file left to commit. *)
Lemma rejected_attempt_not_committed : statuses (within 2 committing rejecting_attempt checked) = [Rejected].
Proof. by vm_compute. Qed.

(** A push takes no lock of the workspace: the attempt is rejected and its
    commit pushed. *)
Lemma rejected_and_pushed :
  let w := within 6 rejecting_attempt pushing committed in
  statuses w = [Rejected] ∧ remote_head w = Some sha.
Proof. by vm_compute. Qed.

End World.
