(* ===== verification/IntegrationGuards.v ===== *)
(** * Integration use cases: what they guarantee

    The properties of [IntegrationCases.v], over all runs: whatever the ports
    answer or throw. Each says what must have happened, in the calls before,
    when a call is made that cannot be undone. *)

From stdpp Require Import base numbers option sets strings list.
From S2P Require Import Prelude Json IntegrationAttempt Programs AccessPaths CommandPolicy AccessControl IntegrationPorts.
From S2P Require Import IntegrationCases IntegrationRecovery IntegrationWorld.

Module Guards.
Import Integration Ports Cases.

Abbreviation trace := (list (event resp)).

Definition ev_call (e : event resp) : call := match e with Ev c _ => c end.

(** Whether a call of a kind was made. *)
Definition called (f : call → bool) (h : trace) : bool := existsb (λ e, f (ev_call e)) h.

Lemma called_snoc f h c r : called f (h ++ [Ev c r]) = called f h || f c.
Proof. unfold called. rewrite existsb_app. simpl. by rewrite orb_false_r. Qed.

Lemma snoc_here {A} (x : A) h : x ∈ h ++ [x].
Proof. apply elem_of_app. right. by apply list_elem_of_singleton. Qed.
Lemma snoc_there {A} (x y : A) h : x ∈ h → x ∈ h ++ [y].
Proof. intros. apply elem_of_app. by left. Qed.

(** Membership in a history written out. *)
Ltac mem := cbn [Integration.remote Integration.branch Integration.pushedAt pa_commitSha pq_workspacePath pq_remote
  pq_branch pq_commitSha]; solve [repeat first [apply snoc_here | assumption | apply snoc_there]].

(** Answers that say nothing. *)
Ltac units := repeat match goal with
  | x : answer ?c |- _ => let t := eval hnf in (answer c) in lazymatch t with unit => destruct x end
  end.

Section Steps.
Context (pre : trace → call → Prop) {B : Type} (post : trace → result error B → Prop).

Lemma judged_await h c (f : answer c → Uc B) : pre h c →
  (∀ a, judged pre (h ++ [Ev c (Ok a)]) (f a) post) → (∀ e, post (h ++ [Ev c (Throw e)]) (Throw e)) →
  judged pre h (await c ≫= f) post.
Proof. intros Hc Ho Ht. apply judged_bind_ok. split; [done|]. intros [a|e]; [apply Ho|apply Ht]. Qed.

Lemma judged_done {A} h (a : A) (f : A → Uc B) : judged pre h (f a) post → judged pre h (done_with a ≫= f) post.
Proof. intros H. by apply judged_bind_ok. Qed.

Lemma judged_raise {A} h e (f : A → Uc B) : post h (Throw e) → judged pre h (raise e ≫= f) post.
Proof. intros H. by apply judged_bind_ok. Qed.

Lemma judged_ret h (r : result error B) : post h r → judged pre h (from_result r) post.
Proof. done. Qed.

Lemma judged_finally h (m : Uc B) (fin : Uc unit) :
  judged pre h m (λ h' r, judged pre h' (prog_bind fin (λ f, match f with Ok _ => Ret r | Throw e => Ret (Throw e) end)) post) →
  judged pre h (try_finally m fin) post.
Proof. intros H. by apply judged_bind. Qed.

Lemma judged_catch h (m : Uc B) handler :
  judged pre h m (λ h' r, match r with Ok a => post h' (Ok a) | Throw e => judged pre h' (handler e) post end) →
  judged pre h (try_catch m handler) post.
Proof. intros H. apply judged_bind. revert H. apply judged_weaken. by intros h' [a|e]. Qed.
End Steps.

(** One statement of a use case. *)
Ltac step :=
  lazymatch goal with
  | |- judged _ _ ((_ ≫= _) ≫= _) _ => apply judged_assoc
  | |- judged _ _ (await _ ≫= _) _ => apply judged_await; [|intros ?|intros ?]
  | |- judged _ _ (from_result _ ≫= _) _ => apply judged_from; [intros ? ?|intros ? _]
  | |- judged _ _ (done_with _ ≫= _) _ => apply judged_done
  | |- judged _ _ (raise _ ≫= _) _ => apply judged_raise
  | |- judged _ _ (await _) _ => split; [|intros [?|?]]
  | |- judged _ _ (done_with ?a) _ => apply (judged_ret _ _ _ (Ok a))
  | |- judged _ _ (from_result _) _ => apply judged_ret
  | |- judged _ _ (Ret ?r) _ => apply (judged_ret _ _ _ r); cbv iota
  | |- judged _ _ (raise ?e) _ => apply (judged_ret _ _ _ (Throw e))
  | |- judged _ _ ((if ?b then _ else _) ≫= _) _ => destruct b eqn:?
  | |- judged _ _ ((match ?x with _ => _ end) ≫= _) _ => destruct x eqn:?
  | |- judged _ _ (if ?b then _ else _) _ => destruct b eqn:?
  | |- judged _ _ (match ?x with _ => _ end) _ => destruct x eqn:?
  | |- judged _ _ (try_catch _ _ ≫= _) _ => apply judged_bind_ok, judged_catch
  | |- judged _ _ (try_catch _ _) _ => apply judged_catch
  end; cbv beta.

Section Transactions.
Context (deps : Deps) (pre : trace → call → Prop).
Context (HE : ∀ h o, pre h (EnterActivity o)) (HL : ∀ h o, pre h (LeaveActivity o)).

(** A transaction is its effect, between the calls of the activity lease. *)
Lemma judged_transaction {A} id (m : Uc A) :
  (∀ h, (∀ e, e ∈ h → ∃ o, ev_call e = EnterActivity o) → judged pre h m (λ _ _, True)) →
  judged pre [] (runIntegrationTransaction deps id m) (λ _ _, True).
Proof.
  intros Hm. unfold runIntegrationTransaction. step; [|apply Hm; by intros e ?%not_elem_of_nil].
  step; [done| |done]. apply judged_finally. eapply judged_weaken, Hm.
  - intros h' r _. split; [done|]. intros [?|?]; done.
  - intros e ->%list_elem_of_singleton. eauto.
Qed.
End Transactions.

(** ** Pushing *)

Section Push.
Context (deps : Deps) (cwd : jsstring) (i : PushInput).

Definition is_push (c : call) : bool := match c with GitPush _ => true | _ => false end.

(** What was done before a commit is pushed. *)
Record push_authorized (h : trace) (r : PushRequest) : Prop := {
  pz_attempt : ∃ a c, Ev (StoreGet (in_attemptId i)) (Ok (Some a)) ∈ h ∧ commitCandidate a = Some c ∧
    pq_workspacePath r = targetWorkspacePath a ∧ pq_commitSha r = commitSha c ∧
    match status a with
    | CommitCreated =>
        pq_expectedRemoteCommit r = None ∧
        Ev (GitCurrentBranch (targetWorkspacePath a)) (Ok (pq_branch r)) ∈ h ∧
        ∃ p, Ev (LedgerPrepare a (commitSha c)) (Ok p) ∈ h ∧ Ev (LedgerPreflight p None) (Ok tt) ∈ h
    | Pushed =>
        pq_force r = false ∧
        Ev (GitCurrentBranch (targetWorkspacePath a)) (Ok (targetBranch a)) ∈ h ∧
        (∃ expected remote, pq_expectedRemoteCommit r = Some expected ∧ expected ≠ [] ∧
           Ev (GitRemoteCommit (targetWorkspacePath a) (pq_remote r) (pq_branch r)) (Ok (Some remote)) ∈ h ∧
           toLowerCase remote = toLowerCase expected) ∧
        ∃ p q, pushAttempt a = Some p ∧ Ev (LedgerFinalize q (pushedAt p)) (Ok tt) ∈ h
    | _ => False
    end;
  pz_policy : Access.allowed (Access.canPushBranch cwd (access (in_policy i))
    (git_request (pq_workspacePath r) (pq_branch r) (Some (pq_remote r)) (Some (pq_force r)))) = true;
  pz_force : pq_force r = true → in_force i = Some true ∧ allowForcePush (in_policy i) = Some true;
  pz_remote : ∃ x, Ev (GitRemoteCommit (pq_workspacePath r) (pq_remote r) (pq_branch r)) (Ok x) ∈ h ∧ x ≠ Some (pq_commitSha r);
  pz_once : called is_push h = false }.

(** The commit is at the remote branch: it was pushed there or seen there. *)
Definition published (h : trace) (ws remote branch sha : jsstring) : Prop :=
  (∃ r, Ev (GitPush r) (Ok tt) ∈ h ∧ pq_workspacePath r = ws ∧ pq_remote r = remote ∧ pq_branch r = branch ∧
        pq_commitSha r = sha) ∨
  Ev (GitRemoteCommit ws remote branch) (Ok (Some sha)) ∈ h.

(** What was done before a push or a promotion is recorded. *)
Definition push_recorded (h : trace) (u : Attempt) : Prop :=
  ∃ a c p, Ev (StoreGet (in_attemptId i)) (Ok (Some a)) ∈ h ∧ commitCandidate a = Some c ∧ pa_commitSha p = commitSha c ∧
    published h (targetWorkspacePath a) (Integration.remote p) (Integration.branch p) (commitSha c) ∧
    (status a = CommitCreated ∧ markPushed a p (pushedAt p) = Ok u ∧
       (∃ q, Ev (LedgerPrepare a (commitSha c)) (Ok q) ∈ h ∧ Ev (LedgerFinalize q (pushedAt p)) (Ok tt) ∈ h) ∨
     status a = Pushed ∧ markPromoted a p (pushedAt p) = Ok u).

Definition push_pre (h : trace) (c : call) : Prop :=
  match c with GitPush r => push_authorized h r | StoreUpdate u => push_recorded h u | _ => True end.

Abbreviation any := (λ (_ : trace) (_ : result error Attempt), True).

Ltac run := repeat (step; try done).
Ltac quiet := rewrite ?called_snoc, ?orb_false_r; done.

Lemma require_Ok d u : require d = Ok u → Access.allowed d = true.
Proof. unfold require. by destruct (Access.allowed d). Qed.

Lemma lift_Ok {A} (r : Integration.res A) a : lift r = Ok a → r = Ok a.
Proof. destruct r; [|done]. by intros [= ->]. Qed.

Lemma pushCommit_judged h a c : Ev (StoreGet (in_attemptId i)) (Ok (Some a)) ∈ h → status a = CommitCreated →
  commitCandidate a = Some c → called is_push h = false → judged push_pre h (pushCommit deps cwd i a c) any.
Proof.
  intros Hget Hst Hc Hp. unfold pushCommit, pushUnlessThere, nowIso, recordIntegrationAudit. run.
  - (* recorded, the commit was there *)
    match goal with H : lift _ = Ok _ |- _ => apply lift_Ok in H end. bools. units. subst.
    match goal with H : markPushed a ?p _ = _ |- _ => exists a, c, p end. split_and!; [mem|done|done|right; mem|left]. split_and!; [done|done|]. eexists. split; mem.
  - (* pushed *)
    match goal with H : require _ = Ok _ |- _ => apply require_Ok in H end. bools. units. subst. split; cbn [pq_workspacePath pq_remote pq_branch
      pq_commitSha pq_force pq_expectedRemoteCommit].
    + exists a, c. rewrite Hst. split_and!; try done; try mem. eexists. split; mem.
    + done.
    + match goal with H : _ && _ = false |- _ => revert H end. intros Hf Hin. rewrite Hin in Hf. cbn [andb] in Hf.
      apply negb_false_iff, Access.some_true_iff in Hf. by destruct (in_force i) as [[]|].
    + eexists. split; [mem|done].
    + quiet.
  - match goal with H : lift _ = Ok _ |- _ => apply lift_Ok in H end. bools. units. subst.
    match goal with H : markPushed a ?p _ = _ |- _ => exists a, c, p end. split_and!; [mem|done|done|left; eexists; split; [mem|done]|left]. split_and!; [done|done|]. eexists. split; mem.
Qed.

Lemma promote_judged h a c p remote branch : Ev (StoreGet (in_attemptId i)) (Ok (Some a)) ∈ h → status a = Pushed →
  commitCandidate a = Some c → pushAttempt a = Some p → (∃ q, Ev (LedgerFinalize q (pushedAt p)) (Ok tt) ∈ h) →
  Access.allowed (Access.canPushBranch cwd (access (in_policy i))
    (git_request (targetWorkspacePath a) branch (Some remote) (Some false))) = true →
  called is_push h = false → judged push_pre h (promote deps a c remote branch) any.
Proof.
  intros Hget Hst Hc Hpa [q Hq] Hpol Hp. unfold promote, pushUnlessThere, nowIso, recordIntegrationAudit. run.
  - match goal with H : lift _ = Ok _ |- _ => apply lift_Ok in H end. bools. units. subst.
    match goal with H : markPromoted a ?p _ = _ |- _ => exists a, c, p end. split_and!; [mem|done|done|right; mem|by right].
  - match goal with H : _ || _ = true |- _ => rename H into Hthere end. bools. units. subst. cbn [orb] in Hthere.
    match goal with x : answer (GitRemoteCommit _ _ _), y : option jsstring |- _ => rename x into seen; rename y into expected end.
    destruct (truthy_opt expected) as [t|] eqn:Et; [|done]. apply Access.truthy_opt_Some in Et as [-> Hne].
    cbn [answer] in seen. destruct seen as [r|]; [|done]. bools.
    split; cbn [pq_workspacePath pq_remote pq_branch pq_commitSha pq_force pq_expectedRemoteCommit]; try done.
    + exists a, c. rewrite Hst. split_and!; try done; [mem|mem| |].
      * exists t, r. split_and!; [done|done|mem|done].
      * exists p, q. split; [done|mem].
    + eexists. split; [mem|done].
    + quiet.
  - match goal with H : lift _ = Ok _ |- _ => apply lift_Ok in H end. bools. units. subst.
    match goal with H : markPromoted a ?p _ = _ |- _ => exists a, c, p end.
    split_and!; [mem|done|done|left; eexists; split; [mem|done]|by right].
Qed.

Lemma pushTransaction_judged h : called is_push h = false → judged push_pre h (pushTransaction deps cwd i) any.
Proof.
  intros Hp. unfold pushTransaction, loadIntegrationAttempt. run.
  - unfold replayOrPromotePushedCommit, replayIntegratedOutputLedger. run. bools. units.
    match goal with H : require _ = Ok _ |- _ => apply require_Ok in H end.
    eapply promote_judged; try done; [mem| |quiet]. simplify_eq. eexists. mem.
  - match goal with H : lift _ = Ok ?u |- _ => destruct u; apply lift_Ok, assertStatus_Ok, list_elem_of_singleton in H end.
    apply pushCommit_judged; try done; [mem|quiet].
Qed.

(** C18: Whatever the ports answer, a push is made once in a run and only after
    the attempt was loaded with its commit, the access policy allowed the branch,
    remote and force of the push, the workspace was on its branch, the remote
    branch was seen somewhere else, and the ledger was prepared and checked; a
    forced push needs the permission of the project, and a promotion is never
    forced and names the commit it expects at the remote. An attempt is recorded
    as pushed or promoted only when its commit was pushed there or seen there,
    and as pushed only when the ledger was closed for that commit. *)
Theorem push_guarded tr out : runs (pushApprovedCommit deps cwd i) tr out →
  ∀ tr1 c r tr2, tr = tr1 ++ Ev c r :: tr2 →
    match c with GitPush q => push_authorized tr1 q | StoreUpdate u => push_recorded tr1 u | _ => True end.
Proof.
  intros Hr. eapply (judged_runs push_pre []); [|done].
  apply judged_transaction; try done. intros h Hh. apply pushTransaction_judged.
  unfold called. apply not_true_iff_false. rewrite existsb_exists. intros (e & Hin & He).
  apply list_elem_of_In, Hh in Hin as [o Ho]. by rewrite Ho in He.
Qed.

End Push.

(** ** The lock of a workspace *)

Definition lock_after (s : option Lock) (e : event resp) : option Lock :=
  match e with
  | Ev c r =>
      match c return resp c → option Lock with
      | LockAcquire _ _ => λ r, match r with Ok l => Some l | Throw _ => s end
      | LockRelease _ => λ _, None
      | _ => λ _, s
      end r
  end.

(** The lock that is held after a history. *)
Definition lock_state (h : trace) : option Lock := foldl lock_after None h.

Lemma lock_state_snoc h e : lock_state (h ++ [e]) = lock_after (lock_state h) e.
Proof. unfold lock_state. by rewrite foldl_app. Qed.

Lemma judged_with_lock (pre : trace → call → Prop) {A} h ws owner (body : Uc A) :
  pre h (LockAcquire ws owner) → (∀ h l, pre h (LockRelease l)) →
  (∀ l, judged pre (h ++ [Ev (LockAcquire ws owner) (Ok l)]) body (λ _ _, True)) →
  judged pre h (with_lock ws owner body) (λ _ _, True).
Proof.
  intros Ha Hr Hb. unfold with_lock. step; [done| |done]. apply judged_finally. eapply judged_weaken, Hb.
  intros h' r _. split; [apply Hr|]. by intros [?|?].
Qed.

(** ** Committing *)

Section Commit.
Context (deps : Deps) (id message : jsstring) (p : Policy).

Definition is_commit (c : call) : bool := match c with GitCommit _ | GitCommitReviewed _ _ => true | _ => false end.

Definition scanned (h : trace) (a : Attempt) (fs : list jsstring) (s : ScanResult) : Prop :=
  ∃ q, Ev (ScanFiles q) (Ok s) ∈ h ∧ sq_workspacePath q = targetWorkspacePath a ∧ sr_status s = ScanPassed ∧
    match merge a with
    | None => sq_files q = fs
    | Some m =>
        ∃ delta, Ev (GitChangedSince (targetWorkspacePath a) (default (sourceCommit m) (appliedMergeSourceCommit a))) (Ok delta) ∈ h ∧
          sq_files q = List.filter (λ f, has f delta) fs
    end.

(** What was done before a commit is made. *)
Record commit_authorized (h : trace) (r : CommitRequest) (a : Attempt) : Prop := {
  cz_loaded : Ev (StoreGet id) (Ok (Some a)) ∈ h;
  cz_status : status a = ChecksPassed;
  cz_checks : assertRequiredChecksSatisfied p a = Ok tt;
  cz_message : cq_message r = message ∧ isConventionalCommitMessage message = true;
  cz_workspace : cq_workspacePath r = targetWorkspacePath a;
  cz_lock : ∃ l, lock_state h = Some l ∧ Ev (LockAcquire (targetWorkspacePath a) (attemptId a)) (Ok l) ∈ h;
  cz_files : cq_files r ≠ [] ∧ assertIntegrationCommitFiles a (cq_files r) = Ok tt;
  cz_identity : ∃ project v, Ev (ApprovedIdentity project (targetWorkspacePath a)) (Ok v) ∈ h ∧ assertCommitIdentity v = Ok (cq_identity r);
  cz_diff : ∃ d, Ev (GitDiffCheck (targetWorkspacePath a)) (Ok d) ∈ h ∧ ok d = true;
  cz_integrity : fileByteAllowance (workerOutput a) ≠ None ∨ reviewedOutputId (workerOutput a) ≠ None →
    Ev (VerifyIntegrity a) (Ok tt) ∈ h;
  cz_scan : ∃ s, scanned h a (cq_files r) s ∧
    (merge a = None → fileByteAllowance (workerOutput a) ≠ None → scannedReviewedTree s = checkedReviewedTree a);
  cz_tree : match merge a with
            | Some m => ∃ t, Ev (GitMergeTree a) (Ok t) ∈ h ∧ checkedReviewedTree a = Some t ∧ authorizedMergeTree a = Some t ∧
                cq_expectedMergeTree r = Some t ∧
                cq_expectedParentCommits r = Some [expectedTargetCommit m; default (sourceCommit m) (appliedMergeSourceCommit a)]
            | None => fileByteAllowance (workerOutput a) ≠ None →
                ∃ t, Ev (GitReviewedTree a) (Ok t) ∈ h ∧ checkedReviewedTree a = Some t
            end;
  cz_once : called is_commit h = false }.

(** The result of git a recorded commit comes from. *)
Definition committed (h : trace) (res : CommitResult) : Prop :=
  (∃ r, Ev (GitCommit r) (Ok res) ∈ h) ∨ (∃ r a, Ev (GitCommitReviewed r a) (Ok (Committed res)) ∈ h) ∨
  (∃ kept, Ev (GitPublish kept) (Ok res) ∈ h) ∨ (∃ a, Ev (GitReconcile a) (Ok (Some res)) ∈ h).

Definition commit_pre (h : trace) (c : call) : Prop :=
  match c with
  | GitCommit r => ∃ a, commit_authorized h r a ∧ (merge a ≠ None ∨ fileByteAllowance (workerOutput a) = None)
  | GitCommitReviewed r a => commit_authorized h r a ∧ merge a = None ∧ fileByteAllowance (workerOutput a) ≠ None
  | GitPublish (Ok _) => ∃ u e, preparedReviewedCommit u = Some e ∧
      (Ev (StoreUpdate u) (Ok tt) ∈ h ∨ Ev (StoreGet id) (Ok (Some u)) ∈ h) ∧
      ∃ r a pc, Ev (GitCommitReviewed r a) (Ok (CommitPrepared pc)) ∈ h ∧ commitSha (pub_candidate e) = pc_commitSha pc ∧
        pub_parent e = pc_parent pc ∧ checkedReviewedTree a = Some (pc_tree pc)
  | StoreUpdate u =>
      (status u = CommitCreated → ∃ res, committed h res ∧ ∀ c, commitCandidate u = Some c → commitSha c = rc_commitSha res)
  | _ => True
  end.

Abbreviation any := (λ (_ : trace) (_ : result error Attempt), True).
Ltac run := repeat (step; try done).

Lemma recordCommitted_judged h a c r : committed h r →
  (status a = CommitCreated → ∀ c', commitCandidate a = Some c' → commitSha c' = commitSha c) →
  judged commit_pre h (recordCommitted deps a c r) any.
Proof.
  intros Hr Ha. unfold recordCommitted, readEvents, recordIntegrationAudit. run.
  all: intros Hst; cbn in Hst; exists r; split; [done|]; intros c' Hc'; cbn in Hc'; bools.
  - rewrite (Ha Hst c' Hc'). by symmetry.
  - match goal with H : lift _ = Ok ?u |- _ => apply lift_Ok in H; unfold markCommitCreated in H; peel H; simplify_eq end.
    by cbn in Hc'; simplify_eq.
Qed.

Lemma reconcilePrepared_judged h a identity : status a = ChecksPassed ∨ status a = CommitCreated →
  judged commit_pre h (reconcilePrepared deps a identity message)
    (λ h' r, r = Ok None → lock_state h' = lock_state h ∧ called is_commit h' = called is_commit h ∧ (∀ e, e ∈ h → e ∈ h') ∧
       (preparedReviewedCommit a ≠ None → status a = ChecksPassed)).
Proof.
  intros Hst. unfold reconcilePrepared. repeat (step; try done).
  - (* reconciled *)
    match goal with H : prepared_mismatch _ _ _ _ _ = false |- _ => unfold prepared_mismatch in H; bools end.
    apply judged_bind_ok. eapply judged_weaken, recordCommitted_judged.
    + intros h' [u|e]; [|done]. intros _. by apply (judged_ret _ _ _ (Ok (Some u))).
    + right; right; right. eexists. mem.
    + intros _ c' Hc'. rewrite Hc' in *. bools. by subst.
  - bools. intros _. rewrite !lock_state_snoc, !called_snoc, !orb_false_r. split_and!; [done|done| |].
    + intros e He. mem.
    + intros _. by destruct Hst.
Qed.

(** What the steps under the lock start from. *)
Record commit_ready (h : trace) (a : Attempt) (identity : CommitIdentity) : Prop := {
  cr_loaded : Ev (StoreGet id) (Ok (Some a)) ∈ h;
  cr_status : status a = ChecksPassed;
  cr_checks : assertRequiredChecksSatisfied p a = Ok tt;
  cr_message : isConventionalCommitMessage message = true;
  cr_lock : ∃ l, lock_state h = Some l ∧ Ev (LockAcquire (targetWorkspacePath a) (attemptId a)) (Ok l) ∈ h;
  cr_identity : ∃ project v, Ev (ApprovedIdentity project (targetWorkspacePath a)) (Ok v) ∈ h ∧ assertCommitIdentity v = Ok identity;
  cr_integrity : fileByteAllowance (workerOutput a) ≠ None ∨ reviewedOutputId (workerOutput a) ≠ None →
    Ev (VerifyIntegrity a) (Ok tt) ∈ h;
  cr_once : called is_commit h = false }.

(** The call of git, its callback and the reconciliation after a failure. *)
Lemma commitOrReconcile_judged h a r tree candidate : Ev (StoreGet id) (Ok (Some a)) ∈ h → status a = ChecksPassed →
  (∀ pc, commitSha (candidate pc) = pc_commitSha pc) →
  match tree with
  | None => commit_authorized h r a ∧ (merge a ≠ None ∨ fileByteAllowance (workerOutput a) = None)
  | Some t => commit_authorized h r a ∧ merge a = None ∧ fileByteAllowance (workerOutput a) ≠ None ∧ checkedReviewedTree a = Some t
  end →
  judged commit_pre h (commitOrReconcile deps a r tree candidate)
    (λ h' out, ∀ a' res, out = Ok (a', res) → committed h' res ∧ status a' = ChecksPassed).
Proof.
  intros Hget Hst Hcand Hpre. unfold commitOrReconcile. apply judged_bind.
  apply judged_weaken with (post := λ h' '(a', out), status a' = ChecksPassed ∧ ∀ res, out = Ok res → committed h' res).
  { intros h' [a' [res|e]] [Hst' Hout]; cbn beta iota.
    - apply (judged_ret _ _ _ (Ok (a', res))). intros ? ? [= <- <-]. auto.
    - destruct (negb _ || _); [by apply (judged_ret _ _ _ (Throw e))|]. step; [done| |done]. step.
      + apply (judged_ret _ _ _ (Ok (a', c))). intros ? ? [= <- <-]. split; [|done]. right; right; right. eexists. mem.
      + by apply (judged_ret _ _ _ (Throw e)). }
  unfold gitCommit. destruct tree as [t|].
  2: { split; [by exists a|]. intros res. split; [done|]. intros ? ->. left. eexists. mem. }
  destruct Hpre as (Hauth & Hm & Hf & Ht). split; [done|]. intros [[res|pc]|e].
  - split; [done|]. intros ? [= <-]. right; left. eexists _, _. mem.
  - apply judged_bind. unfold keepPrepared.
    assert (∀ h' a' (kept : result error unit), status a' = ChecksPassed → commit_pre h' (GitPublish kept) →
      judged commit_pre h' (Call (GitPublish kept) (λ r, Ret (a', r : result error CommitResult)))
        (λ h'' '(a', out), status a' = ChecksPassed ∧ ∀ res, out = Ok res → committed h'' res)) as Hpub.
    { intros h' a' kept Hst' Hk. split; [done|]. intros res. split; [done|]. intros ? ->.
      right; right; left. eexists. mem. }
    destruct (negb (js_eqb (pc_tree pc) t) || _) eqn:Emis; [by apply Hpub|]. bools.
    match goal with H : pc_tree pc = t |- _ => subst t end.
    destruct (preparedReviewedCommit a) as [e|] eqn:Ee.
    + apply Hpub; [done|]. bools. exists a, e. split_and!; [done|right; mem|]. exists r, a, pc. split_and!; [mem|done..].
    + split; [by cbn; rewrite Hst|]. intros kept. apply Hpub; [exact Hst|]. destruct kept as [u|]; [|done].
      cbn [answer] in u. destruct u. eexists _, _. split_and!; [|left; apply snoc_here|]; [by cbn|]. exists r, a, pc. split_and!; [mem|cbn; apply Hcand|done..].
  - split; [done|]. by intros ? [=].
Qed.

Lemma commitFiles_judged h a identity : commit_ready h a identity → judged commit_pre h (commitFiles deps a message identity) any.
Proof.
  intros [Hget Hst Hck Hmsg (l & Hl & Hacq) (proj & v & Hid & Hiv) Hint Honce].
  unfold commitFiles, nowIso. step; [done| |done]. step; [step|step; done].
  unfold mergeTreeOf, reviewedTreeOf, filesToCommit, scanForCommit, reviewedParentOf.
  destruct (merge a) as [m|] eqn:Em; [|destruct (fileByteAllowance (workerOutput a)) eqn:Ef]; cbn [is_merge negb andb].
  all: run.
  all: apply judged_bind_ok; eapply judged_weaken; [|apply commitOrReconcile_judged; [mem|done|done|]].
  all: try (intros h' [[a' res]|e] Hout; [|done]; destruct (Hout a' res eq_refl) as [Hc Hs];
    run; apply recordCommitted_judged; [done|by rewrite Hs]).
  all: repeat match goal with H : lift (assertIntegrationCommitFiles _ _) = Ok ?u |- _ => destruct u; apply lift_Ok in H end; bools.
  - split; [|left; by rewrite Em]. split; cbn [cq_workspacePath cq_message cq_files cq_identity]; rewrite ?Em; try done.
    + mem.
    + exists l. split; [by rewrite !lock_state_snoc|mem].
    + exists proj, v. split; [mem|done].
    + eexists. split; [mem|done].
    + intros Hi. rewrite ?Ef in Hi. apply Hint in Hi. mem.
    + eexists. split; [|done]. eexists. split_and!; [mem|done|done|]. rewrite Em. eexists. split; [mem|done].
    + eexists. split_and!; [mem|done..].
    + by rewrite !called_snoc, Honce.
  - split_and!; [|done|by rewrite Ef|congruence]. split; cbn [cq_workspacePath cq_message cq_files cq_identity]; rewrite ?Em; try done.
    + mem.
    + exists l. split; [by rewrite !lock_state_snoc|mem].
    + exists proj, v. split; [mem|done].
    + eexists. split; [mem|done].
    + intros Hi. rewrite ?Ef in Hi. apply Hint in Hi. mem.
    + eexists. split; [eexists; split_and!; [mem|done|done|by rewrite Em]|]. intros _ _. congruence.
    + intros _. eexists. split; [mem|done].
    + by rewrite !called_snoc, Honce.
  - split; [|by right]. split; cbn [cq_workspacePath cq_message cq_files cq_identity]; rewrite ?Em; try done.
    + mem.
    + exists l. split; [by rewrite !lock_state_snoc|mem].
    + exists proj, v. split; [mem|done].
    + eexists. split; [mem|done].
    + intros Hi. rewrite ?Ef in Hi. apply Hint in Hi. mem.
    + eexists. split; [eexists; split_and!; [mem|done|done|by rewrite Em]|]. done.
    + by rewrite !called_snoc, Honce.
Qed.

(** What has gone before the body under the lock. *)
Record commit_started (h : trace) (a : Attempt) : Prop := {
  cs_loaded : Ev (StoreGet id) (Ok (Some a)) ∈ h;
  cs_checks : assertRequiredChecksSatisfied p a = Ok tt;
  cs_message : isConventionalCommitMessage message = true;
  cs_lock : ∃ l, lock_state h = Some l ∧ Ev (LockAcquire (targetWorkspacePath a) (attemptId a)) (Ok l) ∈ h;
  cs_once : called is_commit h = false;
  cs_status : status a = ChecksPassed ∨ status a = CommitCreated ∧ preparedReviewedCommit a ≠ None }.

Lemma commit_started_snoc h a c r : commit_started h a → (∀ s, lock_after s (Ev c r) = s) → is_commit c = false →
  commit_started (h ++ [Ev c r]) a.
Proof.
  intros [? ? ? (l & Hl & ?) ? ?] Hk Hc. split; try done; [mem|exists l; split; [by rewrite lock_state_snoc, Hk|mem]|].
  by rewrite called_snoc, Hc, orb_false_r.
Qed.

Lemma started_ready h a identity project v : commit_started h a → status a = ChecksPassed →
  Ev (ApprovedIdentity project (targetWorkspacePath a)) (Ok v) ∈ h → assertCommitIdentity v = Ok identity →
  (fileByteAllowance (workerOutput a) ≠ None ∨ reviewedOutputId (workerOutput a) ≠ None → Ev (VerifyIntegrity a) (Ok tt) ∈ h) →
  commit_ready h a identity.
Proof. intros [] Hs ? ? ?. split; try done. by exists project, v. Qed.

Lemma commit_ready_le h h' a identity : commit_ready h a identity → lock_state h' = lock_state h →
  called is_commit h' = called is_commit h → (∀ e, e ∈ h → e ∈ h') → commit_ready h' a identity.
Proof.
  intros [? ? ? ? (l & Hl & ?) (project & v & ? & ?) ? ?] Hk Hc Hh. split; try done; auto; [| |congruence].
  - exists l. split; [congruence|auto].
  - exists project, v. auto.
Qed.

(** The commit once the identity is known. *)
Lemma commitIdentified_judged h a identity project v : commit_started h a →
  Ev (ApprovedIdentity project (targetWorkspacePath a)) (Ok v) ∈ h → assertCommitIdentity v = Ok identity →
  (fileByteAllowance (workerOutput a) ≠ None ∨ reviewedOutputId (workerOutput a) ≠ None → Ev (VerifyIntegrity a) (Ok tt) ∈ h) →
  judged commit_pre h (recorded ← reconcilePrepared deps a identity message;
    match recorded : option Attempt with Some updated => done_with updated | None => commitFiles deps a message identity end) any.
Proof.
  intros Hs Hv Hid Hint.
  assert (commit_ready h a identity ∨ status a = CommitCreated ∧ preparedReviewedCommit a ≠ None) as Hor.
  { destruct (cs_status _ _ Hs) as [Hst|?]; [left; by eapply started_ready|by right]. }
  apply judged_bind_ok. eapply judged_weaken; [|apply reconcilePrepared_judged; destruct Hor as [[]|[]]; auto].
  intros h' [[u|]|e] Hpost; [done| |done]. destruct (Hpost eq_refl) as (Hk & Hc & Hh & Hst).
  apply commitFiles_judged. destruct Hor as [Hr|[Hcr Hp]]; [by eapply commit_ready_le|].
  apply Hst in Hp. congruence.
Qed.

Lemma commitLocked_judged h a : commit_started h a → judged commit_pre h (commitLocked deps a message p) any.
Proof.
  intros Hs. unfold commitLocked. run.
  all: eapply commitIdentified_judged; [repeat apply commit_started_snoc; done|mem|done|].
  all: intros Hi; try (units; mem). naive_solver.
Qed.

Lemma commitTransaction_judged h : lock_state h = None → called is_commit h = false →
  judged commit_pre h (commitTransaction deps id message p) any.
Proof.
  intros Hl Hc. unfold commitTransaction, loadIntegrationAttempt.
  run. apply judged_with_lock; [done|done|]. intros l. apply commitLocked_judged.
  subst. repeat match goal with x : unit |- _ => destruct x end.
  match goal with H : lift (assertStatus _ _) = _ |- _ => apply lift_Ok, assertStatus_Ok in H; rename H into Hst end.
  match goal with H : assertCommitMessageAllowed _ = _ |- _ => unfold assertCommitMessageAllowed in H; rename H into Hm end.
  split; [mem|done|by destruct (isConventionalCommitMessage message)| | |].
  - exists l. split; [by rewrite lock_state_snoc|mem].
  - by rewrite !called_snoc, Hc.
  - destruct (preparedReviewedCommit a0);
      [apply elem_of_cons in Hst as [?|?%list_elem_of_singleton]; [by left|by right]|left; by apply list_elem_of_singleton].
Qed.

(** C19: Whatever the ports answer, a commit is made once in a run and only after
    the attempt was loaded with its checks passed and the checks its policy
    requires satisfied, while the lock of the target workspace is held by the
    attempt, with a conventional message and the approved identity, of files
    that are exactly those the attempt accounts for, after the diff check
    passed, the reviewed output was verified and the files were scanned for
    secrets; a merge is committed only with the tree that was checked and
    authorized and with its two parents, a reviewed output only with the tree
    that was checked and scanned. Prepared evidence is published only after it
    was stored, and an attempt is recorded as committed only with the commit git
    reported. *)
Theorem commit_guarded tr out : runs (commitApprovedChanges deps id message p) tr out →
  ∀ tr1 c r tr2, tr = tr1 ++ Ev c r :: tr2 → commit_pre tr1 c.
Proof.
  intros Hr. eapply (judged_runs commit_pre []); [|done].
  apply judged_transaction; try done. intros h Hh. apply commitTransaction_judged.
  - unfold lock_state. induction h as [|[c r] h IH] using rev_ind; [done|].
    rewrite foldl_app, IH by (intros e He; apply Hh, elem_of_app; auto). simpl.
    destruct (Hh (Ev c r) (snoc_here _ _)) as [o Ho]. simpl in Ho. by subst.
  - apply not_true_iff_false. unfold called. rewrite existsb_exists. intros (e & Hin & He).
    apply list_elem_of_In, Hh in Hin as [o Ho]. by rewrite Ho in He.
Qed.

End Commit.

Module Demo.
Import World.

Definition push_trace : trace := exec_trace handle pushing World.committed.
Definition push_made : PushRequest := mkPush (js "/work/p/main") (js "origin") (js "main") sha false None.

Lemma push_guarded_witness :
  push_trace = take 6 push_trace ++ Ev (GitPush push_made) (Ok tt) :: drop 7 push_trace ∧
  push_authorized World.cwd push_input (take 6 push_trace) push_made.
Proof.
  assert (push_trace = take 6 push_trace ++ Ev (GitPush push_made) (Ok tt) :: drop 7 push_trace) as H by (vm_compute; reflexivity).
  split; [exact H|]. exact (push_guarded all_deps World.cwd push_input _ _ (exec_runs handle pushing World.committed) _ _ _ _ H).
Defined.

Definition commit_trace : trace := exec_trace handle committing checked.
Definition commit_made : CommitRequest :=
  mkCommitRequest (js "/work/p/main") message [js "src/a.ts"] dev None None.
Definition commit_answer : CommitResult := mkCommitResult sha None None None.

Lemma commit_guarded_witness :
  commit_trace = take 8 commit_trace ++ Ev (GitCommit commit_made) (Ok commit_answer) :: drop 9 commit_trace ∧
  ∃ a, commit_authorized (js "a1") message policy (take 8 commit_trace) commit_made a.
Proof.
  assert (commit_trace = take 8 commit_trace ++ Ev (GitCommit commit_made) (Ok commit_answer) :: drop 9 commit_trace) as H
    by (vm_compute; reflexivity).
  split; [exact H|].
  destruct (commit_guarded all_deps (js "a1") message policy _ _ (exec_runs handle committing checked) _ _ _ _ H) as (a & Ha & _).
  by exists a.
Defined.
End Demo.

End Guards.
