(* ===== verification/IntegrationAdoption.v ===== *)
(** * Recovery by an operator: what it guarantees

    The two use cases of [IntegrationRecovery.v] over all runs: the adoption of
    a commit published outside the runtime, and the recovery of an artifact. *)

From stdpp Require Import base numbers option sets strings list.
From S2P Require Import Prelude Json IntegrationAttempt Programs AccessPaths CommandPolicy AccessControl IsoDate ArtifactRecovery.
From S2P Require Import IntegrationPorts IntegrationCases IntegrationRecovery IntegrationWorld IntegrationGuards.

Module Adoption.
Import Integration Ports Cases Recovery Guards.

Section Adopt.
Context (deps : Deps) (cwd : jsstring) (i : AdoptInput).

(** A word over an alphabet. *)
Definition word (alphabet : N → Prop) (s : jsstring) : Prop := s ≠ [] ∧ Forall alphabet s.
Definition hex_digit (c : N) : Prop := (48 <= c <= 57 ∨ 97 <= c <= 102)%N.
(** Letters, digits, underscore, dot and dash; for an operator the at sign too. *)
Definition name_letter (c : N) : Prop := (48 <= c <= 57 ∨ 65 <= c <= 90 ∨ 97 <= c <= 122 ∨ c = 95 ∨ c = 46 ∨ c = 45)%N.
Definition operator_letter (c : N) : Prop := name_letter c ∨ c = 64%N.

(** The attestation is one an operator can give for the attempt [a]: it has the
    two fixed fields, a digest of the evidence, a repository of an owner and a
    name, an operator, an exact time, and the commit, branch and remote asked
    for. *)
Record attested (a : Attempt) : Prop := {
  at_provenance : provenance i = js "operator_attestation";
  at_method : verificationMethod i = js "authenticated_gh_api";
  at_commit : length (ad_commitSha i) = 40%nat ∧ Forall hex_digit (ad_commitSha i) ∧ at_commitSha (attestation i) = ad_commitSha i;
  at_evidence : length (evidenceSha256 (attestation i)) = 64%nat ∧ Forall hex_digit (evidenceSha256 (attestation i));
  at_repository : ∃ owner name, repository (attestation i) = owner ++ slash :: name ∧ word name_letter owner ∧ word name_letter name;
  at_operator : word operator_letter (operator (attestation i)) ∧ (length (operator (attestation i)) <= 200)%nat;
  at_time : ∃ v, IsoDate.parse (verifiedAt (attestation i)) = Some v;
  at_target : at_branch (attestation i) = targetBranch a ∧ at_remote (attestation i) = targetRemote a }.

(** The commit [c] is the reviewed tree on its parent, by the approved identity,
    with the expected files and nothing else, and was scanned; the remote is that
    of the attested repository, and the workspace is clean on the target branch,
    at the parent or at the commit. *)
Record inspected (h : trace) (a : Attempt) (c : InspectedCommit) : Prop := {
  in_repository : Ev (GitRemoteRepository (targetWorkspacePath a) (targetRemote a))
    (Ok (toLowerCase (repository (attestation i)))) ∈ h;
  in_workspace : ∃ st, Ev (GitStatus (targetWorkspacePath a)) (Ok st) ∈ h ∧ ws_branch st = targetBranch a ∧ dirtyFiles st = [];
  in_head : ∃ head, Ev (GitCurrentHead (targetWorkspacePath a)) (Ok head) ∈ h ∧
    (adoptionParent a = Some head ∨ head = ad_commitSha i);
  in_commit : Ev (GitInspectCommit (targetWorkspacePath a) (ad_commitSha i)) (Ok c) ∈ h;
  in_sha : ic_commitSha c = ad_commitSha i;
  in_message : ic_message c = ad_message i;
  in_files : ic_files c = sort (expectedFiles a) ∧ assertIntegrationCommitFiles a (ic_files c) = Ok tt;
  in_integrity : Ev (VerifyIntegrity a) (Ok tt) ∈ h;
  in_identity : ∃ v identity, Ev (ApprovedIdentity (projectId a) (targetWorkspacePath a)) (Ok v) ∈ h ∧
    assertCommitIdentity v = Ok identity ∧ ic_author c = identity ∧ ic_committer c = identity;
  in_tree : ∃ parent s, Ev (GitTreeFromPatch a) (Ok (ic_tree c)) ∈ h ∧ checkedReviewedTree a = Some (ic_tree c) ∧
    ic_parentCommits c = [parent] ∧ adoptionParent a = Some parent ∧
    Ev (ScanFiles (mkScanRequest (Some (ic_tree c)) (Some parent) (targetWorkspacePath a) (ic_files c)
                     (fileByteAllowance (workerOutput a)))) (Ok s) ∈ h ∧
    sr_status s = ScanPassed ∧ scannedReviewedTree s = Some (ic_tree c) ∧ scannedReviewedParent s = Some parent }.

(** The attempt was adopted before, by the same attestation. *)
Definition adopted_before (a : Attempt) : Prop :=
  (status a = CommitCreated ∨ status a = Pushed) ∧ externalPublicationAttestation a = Some (attestation i) ∧
  (∃ c, commitCandidate a = Some c ∧ commitSha c = ad_commitSha i ∧ message c = ad_message i) ∧
  (status a = Pushed → ∃ p, pushAttempt a = Some p ∧ pa_commitSha p = ad_commitSha i ∧ remote p = targetRemote a ∧
     branch p = targetBranch a ∧ pushedAt p = verifiedAt (attestation i)).

(** What was done and found before anything is recorded for an attempt. *)
Record adoption_authorized (h : trace) (a : Attempt) : Prop := {
  da_loaded : Ev (StoreGet (ad_attemptId i)) (Ok (Some a)) ∈ h;
  da_status : status a = ChecksPassed ∨ adopted_before a;
  da_output : merge a = None ∧ reviewedOutputId (workerOutput a) ≠ None ∧ preparedReviewedCommit a = None ∧
    decision (reviewDecision a) = ReviewApproved;
  da_message : assertCommitMessageAllowed (ad_message i) = Ok tt;
  da_checks : checkRuns a ≠ [] ∧ allCheckRunsPassed (checkRuns a) = true ∧ assertRequiredChecksSatisfied (ad_policy i) a = Ok tt;
  da_attestation : attested a;
  da_replay t : externalPublicationAttestation a = Some t → t = attestation i;
  da_fresh : status a = ChecksPassed → ∃ now, Ev Now (Ok now) ∈ h ∧ ∀ n v, IsoDate.parse now = Some n →
    IsoDate.parse (verifiedAt (attestation i)) = Some v → (v - 120000 <= n <= v + 1800000)%Z;
  da_policy : let p := access (ad_policy i) in Access.boundary p = Access.ProjectScopedControl ∧
    (∃ s, Access.scope p = Some s ∧ Access.projectId s = projectId a) ∧
    Access.allowed (Access.canIntegrateCommit cwd p (git_request (targetWorkspacePath a) (targetBranch a) None None)) = true ∧
    Access.allowed (Access.canStartWorker cwd p
      (Access.mkJobRequest (a_workerJobId a) None (Some (sourceWorkspacePath a)) None None)) = true;
  da_permit : Ev (AuthorizeAdoption a) (Ok tt) ∈ h;
  da_commit : ∃ c, inspected h a c }.

(** What is recorded of the attempt [a]. *)
Definition adoption_recorded (h : trace) (a u : Attempt) : Prop :=
  (status a = ChecksPassed ∧ status u = CommitCreated ∧ externalPublicationAttestation u = Some (attestation i) ∧
     ∃ c, commitCandidate u = Some c ∧ commitSha c = ad_commitSha i) ∨
  (status u = Pushed ∧ (∃ p, pushAttempt u = Some p ∧ pa_commitSha p = ad_commitSha i ∧ pushedAt p = verifiedAt (attestation i)) ∧
     ∃ q, Ev (LedgerFinalize q (verifiedAt (attestation i))) (Ok tt) ∈ h).

Definition adopt_pre (h : trace) (c : call) : Prop :=
  match c with
  | StoreUpdate u => ∃ a, adoption_authorized h a ∧ adoption_recorded h a u
  | LedgerPrepareAdoption _ sha => sha = ad_commitSha i ∧ ∃ a, adoption_authorized h a
  | LedgerFinalize q t =>
      t = verifiedAt (attestation i) ∧
      (∃ u, Ev (LedgerReadPrepared u (ad_commitSha i)) (Ok (Some q)) ∈ h ∨ Ev (LedgerPrepareAdoption u (ad_commitSha i)) (Ok q) ∈ h) ∧
      Ev (LedgerPreflight q (Some t)) (Ok tt) ∈ h ∧ ∃ a, adoption_authorized h a
  | GitApply _ _ _ | GitCommit _ | GitCommitReviewed _ _ | GitPublish _ | GitAbortMerge _ | GitRollback _ | GitPush _ => False
  | _ => True
  end.

Lemma inspected_le h h' a c : (∀ e, e ∈ h → e ∈ h') → inspected h a c → inspected h' a c.
Proof.
  intros Hh [? (st & ? & ?) (head & ? & ?) ? ? ? ? ? (v & identity & ? & ?) (parent & s & ? & ? & ? & ? & ? & ?)].
  split; [auto|exists st; auto|exists head; auto|auto..|exists v, identity; auto|exists parent, s; auto 9].
Qed.

Lemma adoption_authorized_le h h' a : (∀ e, e ∈ h → e ∈ h') → adoption_authorized h a → adoption_authorized h' a.
Proof.
  intros Hh [? ? ? ? ? ? ? Hf ? ? [c Hc]]. split; try done; auto.
  - intros Hs. destruct (Hf Hs) as (n & ? & ?). eauto.
  - exists c. by eapply inspected_le.
Qed.

Ltac authorized := eapply adoption_authorized_le; [|eassumption]; intros; mem.
Ltac run := repeat (step; try done).
Abbreviation any := (λ (_ : trace) (_ : result error Attempt), True).

Lemma markPushed_Ok a p now u : markPushed a p now = Ok u → status u = Pushed ∧ pushAttempt u = Some p.
Proof. unfold markPushed. intros H. peel H. by simplify_eq. Qed.

Lemma ensure_Ok b m u : ensure b m = Ok u → b = true.
Proof. by destruct b. Qed.

Ltac ensured := repeat match goal with H : ensure _ _ = Ok _ |- _ => apply ensure_Ok in H end; bools.

Lemma hex_text_word n s : ArtifactRecovery.hex_text ArtifactRecovery.lower_hex n s = true → length s = n ∧ Forall hex_digit s.
Proof.
  unfold ArtifactRecovery.hex_text. intros [->%Nat.eqb_eq H]%andb_true_iff. split; [done|]. rewrite forallb_forall in H.
  apply Forall_forall. intros c ?%list_elem_of_In%H. unfold ArtifactRecovery.lower_hex, hex_digit in *.
  rewrite ?orb_true_iff, ?andb_true_iff, ?N.leb_le in *. lia.
Qed.

Lemma repository_char_letter c : repository_char c = true → name_letter c.
Proof.
  unfold repository_char, Commands.name_char, Commands.name_start, Commands.is_digit, name_letter. intros H.
  rewrite ?orb_true_iff, ?andb_true_iff, ?N.leb_le, ?N.eqb_eq in H. lia.
Qed.

Lemma word_of (f : N → bool) (P : N → Prop) s : (∀ c, f c = true → P c) → truthy s = true → forallb f s = true → word P s.
Proof.
  intros HP Ht H. split; [by destruct s|]. rewrite forallb_forall in H. apply Forall_forall. intros c ?%list_elem_of_In%H. by apply HP.
Qed.

Lemma repository_text_word s : repository_text s = true →
  ∃ owner name, s = owner ++ slash :: name ∧ word name_letter owner ∧ word name_letter name.
Proof.
  unfold repository_text. pose proof (AccessPaths.join_split s) as Hj.
  destruct (split_slash s) as [|owner [|name [|]]]; try done. intros H. bools. exists owner, name.
  split_and!; [by rewrite <- Hj|by eapply word_of; [apply repository_char_letter|..]..].
Qed.

Lemma operator_text_word s : operator_text s = true → word operator_letter s ∧ (length s <= 200)%nat.
Proof.
  unfold operator_text. intros H. bools. split; [|by apply Nat.leb_le].
  eapply word_of; [|done..]. unfold operator_char, operator_letter. intros c [?%repository_char_letter|?%N.eqb_eq]%orb_true_iff; auto.
Qed.

Lemma attestationValid_attested a : attestationValid a i = true → attested a.
Proof.
  unfold attestationValid. intros H. bools. split; try done.
  - split_and!; [by eapply hex_text_word..|done].
  - by apply hex_text_word.
  - by apply repository_text_word.
  - by apply operator_text_word.
  - destruct (IsoDate.parse _); [eauto|done].
Qed.

Lemma assertAdoptable_Ok a u : assertAdoptable a i = Ok u →
  adoptable (status a) = true ∧
  (merge a = None ∧ reviewedOutputId (workerOutput a) ≠ None ∧ preparedReviewedCommit a = None ∧
   decision (reviewDecision a) = ReviewApproved) ∧
  attested a ∧
  (∀ t, externalPublicationAttestation a = Some t → t = attestation i).
Proof.
  unfold assertAdoptable. intros H. peel H. ensured.
  split_and!; try done; try (by apply attestationValid_attested); try (by destruct (merge a)); try (by repeat case_match); try (by destruct (reviewedOutputId _)).
  intros t Ht. rewrite Ht in *. by bools.
Qed.

Lemma assertReplay_Ok a u : assertReplay a i = Ok u →
  (status a ≠ ChecksPassed → (∃ t, externalPublicationAttestation a = Some t) ∧
     ∃ c, commitCandidate a = Some c ∧ commitSha c = ad_commitSha i ∧ message c = ad_message i) ∧
  (status a = Pushed → ∃ p, pushAttempt a = Some p ∧ pa_commitSha p = ad_commitSha i ∧ remote p = targetRemote a ∧
     branch p = targetBranch a ∧ pushedAt p = verifiedAt (attestation i)) ∧
  assertCommitMessageAllowed (ad_message i) = Ok tt ∧
  checkRuns a ≠ [] ∧ allCheckRunsPassed (checkRuns a) = true ∧ assertRequiredChecksSatisfied (ad_policy i) a = Ok tt.
Proof.
  unfold assertReplay. intros H. peel H. ensured.
  split_and!; [| |by match goal with H : assertCommitMessageAllowed _ = Ok ?u |- _ => destruct u end|by destruct (checkRuns a)|done
              |by match goal with H : assertRequiredChecksSatisfied _ _ = Ok ?u |- _ => destruct u end].
  - intros Hs. match goal with H : bool_decide _ || _ = true |- _ => apply orb_true_iff in H as [?%bool_decide_eq_true|?] end; [done|].
    destruct (externalPublicationAttestation a), (commitCandidate a) as [c|]; try done. bools. split; [by eexists|by eexists].
  - intros Hs. match goal with H : negb _ || _ = true |- _ => rewrite bool_decide_true in H by done; cbn [negb orb] in H end.
    destruct (pushAttempt a) as [p|]; [|done]. bools. by exists p.
Qed.

Lemma replayed_or_new a u v : assertAdoptable a i = Ok u → assertReplay a i = Ok v → status a = ChecksPassed ∨ adopted_before a.
Proof.
  intros (Hst & _ & _ & Hsame)%assertAdoptable_Ok (Hre & Hp & _)%assertReplay_Ok.
  destruct (decide (status a = ChecksPassed)) as [?|Hs]; [by left|right]. destruct (Hre Hs) as [[t Ht] Hc].
  split; [destruct (status a); naive_solver|]. split; [by rewrite Ht, (Hsame t Ht)|done].
Qed.

Lemma assertAuthority_Ok a u : assertAuthority deps cwd a (ad_policy i) = Ok u →
  let p := access (ad_policy i) in Access.boundary p = Access.ProjectScopedControl ∧
  (∃ s, Access.scope p = Some s ∧ Access.projectId s = projectId a) ∧
  Access.allowed (Access.canIntegrateCommit cwd p (git_request (targetWorkspacePath a) (targetBranch a) None None)) = true ∧
  Access.allowed (Access.canStartWorker cwd p
    (Access.mkJobRequest (a_workerJobId a) None (Some (sourceWorkspacePath a)) None None)) = true.
Proof.
  unfold assertAuthority. intros H. peel H. ensured. split_and!; [done| |done..].
  destruct (Access.scope _) as [s|]; [|done]. bools. eauto.
Qed.

Lemma attestationFresh_bounds now v : attestationFresh now v = true →
  ∀ n w, now = Some n → v = Some w → (w - 120000 <= n <= w + 1800000)%Z.
Proof. unfold attestationFresh. intros H n w -> ->. bools. lia. Qed.

(** The audit of an adoption records nothing else. *)
Lemma auditOnce_judged {A} h a seen e (f : unit → Uc A) (post : trace → result error A → Prop) :
  (∀ h' r, post h' (Throw r)) →
  (∀ h' u, (∀ x, x ∈ h → x ∈ h') → judged adopt_pre h' (f u) post) → judged adopt_pre h (auditOnce deps a seen e ≫= f) post.
Proof. intros Ht Hf. unfold auditOnce, readEvents, recordIntegrationAudit. run; try apply Ht; apply Hf; intros; mem. Qed.

Ltac recorded :=
  match goal with H : lift _ = Ok _ |- _ => apply lift_Ok, markPushed_Ok in H as [? ?] end; units; right;
  split_and!; [done|eexists; split_and!; done|eexists; mem].

(** After the commit was recorded: the ledger, and the publication. *)
Lemma published_judged h a b : adoption_authorized h a → judged adopt_pre h (
  closeLedger deps b i ;;
  published ← recordPublished b i;
  auditOnce deps published (has_event EvPushed (ad_commitSha i))
    (Ok (audit_event published EvPushed (verifiedAt (attestation i)) (Some (js "operator_attested_external_publication")) None
           (Some (ad_commitSha i)))) ;;
  done_with published) any.
Proof.
  intros Ha. unfold closeLedger, recordPublished. run.
  all: try (apply auditOnce_judged; [done|intros; by apply (judged_ret _ _ _ (Ok _))]).
  - units. split_and!; [done|exists b; left; mem|mem|]. exists a. authorized.
  - exists a. split; [authorized|]. recorded.
  - split; [done|]. exists a. authorized.
  - units. split_and!; [done|exists b; right; mem|mem|]. exists a. authorized.
  - exists a. split; [authorized|]. recorded.
Qed.

Lemma identity_ext (x y : CommitIdentity) : ci_name x = ci_name y → ci_email x = ci_email y → x = y.
Proof. destruct x, y. simpl. congruence. Qed.

Lemma inspect_judged h a (f : InspectedCommit → Uc Attempt) :
  (∀ h' c, (∀ e, e ∈ h → e ∈ h') → inspected h' a c → judged adopt_pre h' (f c) any) →
  judged adopt_pre h (inspectPublished a i ≫= f) any.
Proof.
  intros Hf. unfold inspectPublished. run. unfold commitMatches in *. ensured.
  match goal with H : lift _ = Ok ?u |- _ => destruct u; apply lift_Ok in H end. units.
  apply Hf; [intros; mem|]. match goal with H : ic_tree _ = _ |- _ => rewrite <- H in * end.
  split; try done; try mem.
  - match goal with H : _ = toLowerCase _ |- _ => rewrite <- H end. mem.
  - eexists. split_and!; [mem|done|]. by destruct (dirtyFiles _).
  - match goal with H : _ || _ = true |- _ => apply orb_true_iff in H as [->%js_eqb_true|?%js_eqb_true] end.
    + eexists. split; [mem|by left].
    + eexists. split; [mem|by right].
  - eexists _, _. split_and!; [mem|done|by apply identity_ext..].
  - eexists _, _. split_and!; [mem|done..|mem|done|done|done].
Qed.

Lemma markCommitCreated_Ok a c now u : markCommitCreated a c now = Ok u →
  status u = CommitCreated ∧ ∃ c', commitCandidate u = Some c' ∧ commitSha c' = commitSha c.
Proof. unfold markCommitCreated. intros H. peel H. simplify_eq. split; [done|]. by eexists. Qed.

Lemma adopted_judged h a c : adoption_authorized h a → inspected h a c → judged adopt_pre h (
  adopted ← recordAdopted a i c;
  auditOnce deps adopted (has_event ExternalCommitAdopted (ad_commitSha i))
    (match commitCandidate adopted with
     | Some k => Ok (audit_event adopted ExternalCommitAdopted (cc_createdAt k) (Some (attested_reason (attestation i)))
                       (Some (ic_files c)) (Some (ad_commitSha i)))
     | None => plain "TypeError"
     end) ;;
  closeLedger deps adopted i ;;
  published ← recordPublished adopted i;
  auditOnce deps published (has_event EvPushed (ad_commitSha i))
    (Ok (audit_event published EvPushed (verifiedAt (attestation i)) (Some (js "operator_attested_external_publication")) None
           (Some (ad_commitSha i)))) ;;
  done_with published) any.
Proof.
  intros Ha Hc. unfold recordAdopted, nowIso. run.
  - bools. exists a. split; [authorized|left].
    match goal with H : lift _ = Ok _ |- _ => apply lift_Ok, markCommitCreated_Ok in H as (? & c' & ? & Hsha) end.
    split_and!; [done|done|done|]. exists c'. split; [done|]. by rewrite Hsha, (in_sha _ _ _ Hc).
  - apply auditOnce_judged; [done|]. intros h' u Hh. apply published_judged with a.
    eapply adoption_authorized_le, Ha. intros. apply Hh. mem.
  - apply auditOnce_judged; [done|]. intros h' u Hh. apply published_judged with a. by eapply adoption_authorized_le.
Qed.

Lemma adoptLocked_judged h : judged adopt_pre h (adoptLocked deps cwd i) any.
Proof.
  unfold adoptLocked, loadIntegrationAttempt, nowIso. run.
  all: apply inspect_judged; intros h' c Hh Hc; apply adopted_judged; [|done]; units; subst.
  all: repeat match goal with x : unit |- _ => destruct x end.
  all: split; try done; try (apply Hh; mem); try by exists c.
  all: try by eapply replayed_or_new.
  all: try by (eapply assertAdoptable_Ok || eapply assertReplay_Ok || eapply assertAuthority_Ok).
  - intros _. eexists. split; [apply Hh; mem|]. intros n v Hn Hv. ensured.
    match goal with H : attestationFresh _ _ = true |- _ => by eapply attestationFresh_bounds in H end.
  - intros ?. bools. done.
Qed.

(** C20: Adoption of a published commit. Whatever the ports answer, an attempt is
    recorded as committed or pushed by an adoption, and its output ledger
    prepared or closed, only after the attempt was loaded with an approved review
    and passed checks, as one whose checks passed last or as one that this same
    attestation adopted before; the attestation has the fixed provenance and
    method, a digest of the evidence, a repository, an operator, an exact time,
    and the commit, branch and remote asked for; for a first adoption it was
    fresh by the clock (a replay needs no fresh one, but the same); the policy
    and the permit of the host allow it; and the remote was found to be the
    attested repository, the workspace clean on its branch, and the commit the
    reviewed tree on its parent, by the approved identity, with exactly the
    expected files, and free of secrets. The ledger is closed with what it
    prepared for this commit, and the attempt is recorded as pushed only once it
    is closed. Adoption never makes git change, commit or push anything. *)
Theorem adoption_guarded tr out : runs (adoptPublishedIntegrationCommit deps cwd i) tr out →
  ∀ tr1 c r tr2, tr = tr1 ++ Ev c r :: tr2 → adopt_pre tr1 c.
Proof.
  intros Hr. eapply (judged_runs adopt_pre []); [|done].
  apply judged_transaction; try done. intros h _. unfold loadIntegrationAttempt. run.
  apply judged_with_lock; [done|done|]. intros l. apply adoptLocked_judged.
Qed.

End Adopt.

(** ** Recovery of an artifact *)

Section Recover.
Context (deps : Deps) (i : RecoverInput).

(** The request is about an attempt that was loaded and that the permit fits. *)
Definition recovery_request (h : trace) (r : RecoveryRequest) : Prop :=
  Ev (StoreGet (ArtifactRecovery.pm_attemptId (rc_permit i))) (Ok (Some (rq_attempt r))) ∈ h ∧
  rq_permit r = rc_permit i ∧ rq_permitSha256 r = rc_permitSha256 i ∧
  ArtifactRecovery.fits (rq_attempt r) (rc_permit i) (rq_validation r).

Definition recovery_locked (h : trace) (r : RecoveryRequest) : Prop :=
  ∃ l owner, Ev (LockAcquire (targetWorkspacePath (rq_attempt r)) owner) (Ok l) ∈ h ∧ lock_state h = Some l.

(** The step was found in the journal of the attempt, or appended to it. *)
Definition audited (h : trace) (r : RecoveryRequest) (type : AuditEventType) : Prop :=
  ∃ e, e_type e = type ∧ safeReason e = Some (js "operator_artifact_recovery:" ++ rc_permitSha256 i) ∧
    (Ev (AppendEvent (attemptId (rq_attempt r)) e) (Ok tt) ∈ h ∨
     ∃ es, Ev (ReadEvents (attemptId (rq_attempt r))) (Ok es) ∈ h ∧ e ∈ es).

Definition recover_pre (h : trace) (c : call) : Prop :=
  match c with
  | RecoveryInspect r => recovery_request h r
  | RecoveryPrepare r _ => recovery_request h r ∧ recovery_locked h r ∧ confirm i = true ∧
      ∃ s, Ev (RecoveryInspect r) (Ok s) ∈ h ∧ rs_state s ≠ RecoveryCompleted
  | RecoveryComplete r _ => recovery_request h r ∧ recovery_locked h r ∧ confirm i = true ∧
      (∃ t s, Ev (RecoveryPrepare r t) (Ok s) ∈ h) ∧ audited h r OperatorArtifactRecoveryPrepared
  | StoreCreate _ | StoreUpdate _ | GitApply _ _ _ | GitCommit _ | GitCommitReviewed _ _ | GitPublish _ | GitAbortMerge _
  | GitRollback _ | GitPush _ => False
  | _ => True
  end.

Ltac run := repeat (step; try done).
Abbreviation any := (λ (_ : trace) (_ : result error _), True).

(** The audit of a step leaves the lock alone and the step in the journal. *)
Lemma recordAuditOnce_judged {A} h a type at_ path (f : unit → Uc A) :
  (∀ h' u, (∀ x, x ∈ h → x ∈ h') → lock_state h' = lock_state h →
     (∀ r, rq_attempt r = a → audited h' r type) → judged recover_pre h' (f u) any) →
  judged recover_pre h (recordAuditOnce deps a type at_ (rc_permitSha256 i) path ≫= f) any.
Proof.
  intros Hf. unfold recordAuditOnce, auditOnce, readEvents, recordIntegrationAudit. run.
  all: apply Hf; [intros; mem|by rewrite ?lock_state_snoc|intros r <-].
  2-5: match goal with H : Ok _ = Ok _ |- _ => injection H as <- end; units; eexists; split; [|split; [|left; mem]]; done.
  match goal with H : existsb _ _ = true |- _ => apply existsb_exists in H as (e & He & Hb) end.
  bools. exists e. split_and!; [done|done|]. right. eexists. split; [mem|by apply list_elem_of_In].
Qed.

Ltac recalled := first [mem | apply snoc_there; match goal with Hh : ∀ x, x ∈ _ → x ∈ _ |- _ => apply Hh end; mem].
Ltac request := split; [recalled|split; [done|split; [done|by apply ArtifactRecovery.validated_fits, lift_Ok]]].
Ltac locked := eexists _, _; split; cbn [rq_attempt];
  [repeat first [eassumption | apply snoc_there | match goal with Hh : ∀ x, x ∈ _ → x ∈ _ |- _ => apply Hh end]|];
  repeat match goal with Hs : lock_state _ = lock_state _ |- _ => rewrite ?lock_state_snoc in Hs; cbn in Hs; revert Hs end;
  rewrite ?lock_state_snoc; cbn; congruence.

Lemma audited_snoc h e r type : audited h r type → audited (h ++ [e]) r type.
Proof.
  intros (x & ? & ? & [?|(es & ? & ?)]); exists x; split_and!; try done; [left; mem|right; exists es; split; [mem|done]].
Qed.

Lemma recoverLocked_judged h a l owner : confirm i = true → Ev (LockAcquire (targetWorkspacePath a) owner) (Ok l) ∈ h →
  lock_state h = Some l → judged recover_pre h (recoverLocked deps a i) any.
Proof.
  intros Hi Hl Hs. unfold recoverLocked, loadIntegrationAttempt, recordRecoveryAuditPair, nowIso. run.
  all: match goal with H : ensure _ _ = Ok _ |- _ => apply ensure_Ok in H end; bools.
  all: match goal with
       | E : targetWorkspacePath ?x = targetWorkspacePath ?y, Hl : Ev (LockAcquire (targetWorkspacePath ?y) _) _ ∈ _ |- _ => rewrite <- E in Hl
       end.
  all: try (apply recordAuditOnce_judged; intros h1 ? Hh1 Hs1 Ha1; run).
  all: try (apply recordAuditOnce_judged; intros; run).
  all: try request.
  all: split_and!; [request|locked|done|..].
  1, 4: eexists; split; [mem|congruence].
  1, 3: eexists _, _; recalled.
  all: by apply audited_snoc, Ha1.
Qed.

(** Recovery of an artifact. Whatever the ports answer, the archive is only
    asked about an attempt that was loaded and that the permit fits; it is only
    asked to prepare when the operator confirmed, under the lock of the workspace
    of that attempt and when it said that it was not done yet, and to complete
    only what it prepared, with the preparation in the journal. Recovery never
    stores an attempt and never has git change anything. *)
Theorem recovery_guarded tr out : runs (recoverOperatorCheckArtifact deps i) tr out →
  ∀ tr1 c r tr2, tr = tr1 ++ Ev c r :: tr2 → recover_pre tr1 c.
Proof.
  intros Hr. eapply (judged_runs recover_pre [] _ any); [|done].
  unfold recoverOperatorCheckArtifact, loadIntegrationAttempt. run.
  - request.
  - bools. apply judged_with_lock; [done|done|]. intros l. eapply recoverLocked_judged; [done|mem|by rewrite lock_state_snoc].
Qed.
End Recover.

(** ** A published commit, adopted *)
Module Demo.
Import World.

Definition reviewed_output : WorkerOutput :=
  mkWorkerOutput (Some (js "out")) (Some (num_of_Z 4096)) (js "p-1") (js "/work/p/job") None (Some (js "fix.patch")) None None None
    None None (Some base) None None None [js "src/a.ts"] None.
Definition reviewed_input : OpenInput :=
  mkOpenInput (js "a1") (js "p") (js "p-0") (js "/work/p/job") (js "/work/p/main") (js "main") (js "origin") None reviewed_output
    review [].
Definition given : Attestation :=
  mkAttestation (js "alice") World.now (js "Me/repo") (js "origin") (js "main") sha (replicate 64 97%N).
Definition adopting : AdoptInput :=
  mkAdopt (js "a1") sha message (js "operator_attestation") (js "authenticated_gh_api") given policy.

(** The checks passed, and the operator committed what was applied. *)
Definition published : world :=
  with_dirty (after checking (after applying (after (openProjectIntegrationAttempt all_deps World.cwd reviewed_input policy) start))) [].
Definition adoption : Uc Attempt := adoptPublishedIntegrationCommit all_deps World.cwd adopting.
Definition adoption_trace : trace := exec_trace handle adoption published.
Definition adopted : world := after adoption published.

Example adoption_life : statuses published = [ChecksPassed] ∧ statuses adopted = [Pushed] ∧ pushed_to adopted = [] ∧ held adopted = false.
Proof. by vm_compute. Qed.

(** Asked for again, it stores nothing new. *)
Example adoption_again : attempts (after adoption adopted) = attempts adopted.
Proof. by vm_compute. Qed.

Lemma adoption_guarded_witness : ∃ u,
  adoption_trace = take 23 adoption_trace ++ Ev (StoreUpdate u) (Ok tt) :: drop 24 adoption_trace ∧
  adopt_pre World.cwd adopting (take 23 adoption_trace) (StoreUpdate u).
Proof.
  eexists. assert (adoption_trace = take 23 adoption_trace ++ Ev (StoreUpdate _) (Ok tt) :: drop 24 adoption_trace) as H
    by (vm_compute; reflexivity).
  split; [exact H|].
  exact (adoption_guarded all_deps World.cwd adopting _ _ (exec_runs handle adoption published) _ _ _ _ H).
Defined.
(** A check left a cache behind, which is archived. *)
Definition patched_output : WorkerOutput :=
  mkWorkerOutput None None (js "p-1") (js "/work/p/job") None (Some (js "fix.patch")) (Some (replicate 64 98%N)) None None None None
    (Some base) None None None [js "src/a.ts"] None.
Definition patched_input : OpenInput :=
  mkOpenInput (js "a1") (js "p") (js "p-0") (js "/work/p/job") (js "/work/p/main") (js "main") (js "origin") None patched_output
    review [].
Definition littered : world :=
  after checking (after applying (after (openProjectIntegrationAttempt all_deps World.cwd patched_input policy) start)).
Definition permit : ArtifactRecovery.Permit :=
  ArtifactRecovery.mkPermit (js "/work/p/registry") (js "p-0") (js "p") (js "a1") (js "/work/p/main") (js "main") base
    (replicate 64 98%N) (num_of_Z 10)
    (ArtifactRecovery.mkArtifact (js "src/cache.bin") (replicate 64 99%N) (num_of_Z 3) (num_of_Z 420) (num_of_Z 5) None)
    (ArtifactRecovery.mkPermitCheck (js "unit") [js "npm"; js "test"] World.now World.now).
Definition recovering : Uc RecoveryResult := recoverOperatorCheckArtifact all_deps (mkRecover permit (js "permit") true).
Definition recovery_trace : trace := exec_trace handle recovering littered.

Example recovery_life :
  (Programs.exec handle recovering littered).1 = Ok (mkRecovery RecoveryCompleted (js "permit") None None None) ∧
  held (after recovering littered) = false.
Proof. by vm_compute. Qed.

Lemma recovery_guarded_witness : ∃ r t s,
  recovery_trace = take 10 recovery_trace ++ Ev (RecoveryComplete r t) (Ok s) :: drop 11 recovery_trace ∧
  recover_pre (mkRecover permit (js "permit") true) (take 10 recovery_trace) (RecoveryComplete r t).
Proof.
  eexists _, _, _.
  assert (recovery_trace = take 10 recovery_trace ++ Ev (RecoveryComplete _ _) (Ok _) :: drop 11 recovery_trace) as H
    by (vm_compute; reflexivity).
  split; [exact H|].
  exact (recovery_guarded all_deps (mkRecover permit (js "permit") true) _ _ (exec_runs handle recovering littered) _ _ _ _ H).
Defined.
End Demo.

End Adoption.
