(* ===== verification/IntegrationSound.v ===== *)
(** * Integration use cases: what is stored, and under which lock

    Two properties of all the use cases of [IntegrationCases.v] and
    [IntegrationRecovery.v] together: the
    attempts they store are sound ([Integration.sound]) when those they load
    are, and the workspace is only changed while its lock is held. *)

From stdpp Require Import base numbers option sets strings list.
From S2P Require Import Prelude Json IntegrationAttempt Programs AccessPaths CommandPolicy AccessControl IntegrationPorts.
From S2P Require Import IntegrationCases IntegrationRecovery IntegrationWorld IntegrationGuards.

Module Sound.
Import Integration Ports Cases Recovery Guards.

(** ** Stored attempts *)

(** The attempts that were loaded were sound. *)
Definition loaded_sound (h : trace) : Prop := ∀ id a, Ev (StoreGet id) (Ok (Some a)) ∈ h → sound a.

Definition store_pre (h : trace) (c : call) : Prop :=
  match c with StoreCreate a | StoreUpdate a => loaded_sound h → sound a | _ => True end.

Lemma loaded_prefix h h' : loaded_sound (h ++ h') → loaded_sound h.
Proof. intros H id a Ha. apply (H id a). apply elem_of_app. by left. Qed.

Ltac run := repeat (step; try done).

(** Setting the fields of a review keeps an attempt sound; so does going back to
    the state in which its output is applied. *)
Lemma sound_with_review a st checked authorized prepared pending : sound a → status a = st ∨ (status a = ChecksPassed ∧ st = Applied) →
  sound (with_review a st checked authorized prepared pending).
Proof.
  intros [S1 S2 S3 S4 S5 S6 S7] Hst. destruct Hst as [<-|[Hs ->]].
  - by split.
  - rewrite Hs in *. split; try done. intros _ _. by apply S7.
Qed.

Lemma sound_with_attestation a t : sound a → sound (with_attestation a t).
Proof. intros [S1 S2 S3 S4 S5 S6 S7]. by split. Qed.

(** What is known of the attempts loaded before: [H : loaded_sound _] goes back
    along the history. *)
Ltac earlier H :=
  solve [repeat first [exact H
    | match goal with
      | Hh : loaded_sound ?x → _ |- _ => lazymatch type of H with loaded_sound x => first [exact (Hh H) | apply Hh in H] end
      end
    | eapply H; mem
    | apply loaded_prefix in H]].
Ltac prefix := let H := fresh in intros H; earlier H.
Ltac lifted := repeat match goal with H : lift _ = Ok _ |- _ => apply lift_Ok in H end.

(** The attempt to store is an operation on one that is sound. *)
Ltac operated Hl :=
  lazymatch goal with
  | |- sound (with_review _ _ _ _ _ _) => apply sound_with_review; [operated Hl|auto]
  | |- sound (with_attestation _ _) => apply sound_with_attestation; operated Hl
  | H : markWorkerOutputApplied ?a ?c ?s ?n = Ok ?u |- sound ?u => apply (sound_exec a (OApplied c s n)); [operated Hl|exact H]
  | H : markChecksRunning ?a ?n = Ok ?u |- sound ?u => apply (sound_exec a (OChecksRunning n)); [operated Hl|exact H]
  | H : recordCheckRuns ?a ?rs ?n = Ok ?u |- sound ?u => apply (sound_exec a (ORecordChecks rs n)); [operated Hl|exact H]
  | H : markCommitCreated ?a ?c ?n = Ok ?u |- sound ?u => apply (sound_exec a (OCommit c n)); [operated Hl|exact H]
  | H : markPushed ?a ?p ?n = Ok ?u |- sound ?u => apply (sound_exec a (OPush p n)); [operated Hl|exact H]
  | H : markPromoted ?a ?p ?n = Ok ?u |- sound ?u => apply (sound_exec a (OPromote p n)); [operated Hl|exact H]
  | H : markRejected ?a ?w ?n = Ok ?u |- sound ?u => apply (sound_exec a (OReject w n)); [operated Hl|exact H]
  | _ => earlier Hl
  end.
Ltac stored := let Hl := fresh in intros Hl; lifted; operated Hl.

Section Stored.
Context (deps : Deps) (cwd : jsstring).

Abbreviation any := (λ (_ : trace) (_ : result error _), True).

Lemma loaded_here h id a : loaded_sound (h ++ [Ev (StoreGet id) (Ok (Some a))]) → sound a.
Proof. intros H. apply (H id a), snoc_here. Qed.

Lemma locked_stored {A} h ws owner (body : Uc A) a : (loaded_sound h → sound a) →
  (∀ h', (loaded_sound h' → sound a) → judged store_pre h' body any) → judged store_pre h (with_lock ws owner body) any.
Proof.
  intros Ha Hb. apply judged_with_lock; [done|done|]. intros l. apply Hb. intros Hl%loaded_prefix. auto.
Qed.

Lemma open_stored h i p : judged store_pre h (openTransaction deps cwd i p) any.
Proof. unfold openTransaction, nowIso, recordIntegrationAudit. run. lifted. intros _. by eapply sound_open. Qed.

Lemma applyLocked_stored h a allow : (loaded_sound h → sound a) → judged store_pre h (applyLocked deps a allow) any.
Proof.
  intros Ha. unfold applyLocked, applyAndRecord, rollbackFailedMerge, nowIso, recordIntegrationAudit. run; stored.
Qed.

Lemma reviewedTree_stored {A} h a (f : option jsstring → Uc A) :
  (∀ h' t, (loaded_sound h' → loaded_sound h) → judged store_pre h' (f t) any) → judged store_pre h (reviewedTree deps a ≫= f) any.
Proof. intros Hf. unfold reviewedTree. run; apply Hf; prefix. Qed.

Lemma runDeclared_stored {A} h a checks (f : list CheckRun → Uc A) :
  (∀ h' rs, (loaded_sound h' → loaded_sound h) → judged store_pre h' (f rs) any) →
  judged store_pre h (runDeclared cwd a checks ≫= f) any.
Proof.
  revert h f. induction checks as [|c checks IH]; intros h f Hf; cbn [runDeclared]; unfold nowIso; [step; apply Hf; prefix|].
  run; try (apply Hf; prefix).
  all: apply IH; intros h' rs Hh'; step; apply Hf; prefix.
Qed.

Lemma runChecks_stored h a : (loaded_sound h → sound a) → judged store_pre h (runChecks deps cwd a) any.
Proof.
  intros Ha. unfold runChecks, nowIso, recordIntegrationAudit, runDeclaredRequiredChecks. run; [stored|..].
  all: apply reviewedTree_stored; intros h1 t1 H1; apply runDeclared_stored; intros h2 rs H2.
  all: apply reviewedTree_stored; intros h3 t3 H3; run; stored.
Qed.

Lemma checks_stored h a : (loaded_sound h → sound a) → judged store_pre h (runRequiredChecksLocked deps cwd a) any.
Proof.
  intros Ha. unfold runRequiredChecksLocked. run; [|by apply runChecks_stored].
  apply reviewedTree_stored. intros h' t Hh. run. apply runChecks_stored. bools.
  intros Hl. apply sound_with_review; [auto|by right].
Qed.

Lemma recordCommitted_stored h a c r : (loaded_sound h → sound a) → judged store_pre h (recordCommitted deps a c r) any.
Proof. intros Ha. unfold recordCommitted, readEvents, recordIntegrationAudit. run; stored. Qed.

Lemma reconcilePrepared_stored h a identity message : (loaded_sound h → sound a) →
  judged store_pre h (reconcilePrepared deps a identity message) (λ h' _, loaded_sound h' → loaded_sound h).
Proof.
  intros Ha. eapply judged_weaken; [|apply judged_extends with (post := any)].
  { intros h' r [_ [t ->]]. apply loaded_prefix. }
  unfold reconcilePrepared. run. apply judged_bind_ok. eapply judged_weaken; [|apply recordCommitted_stored; prefix].
  by intros h' [u|e] _.
Qed.

Lemma commitOrReconcile_stored h a r tree candidate : (loaded_sound h → sound a) →
  judged store_pre h (commitOrReconcile deps a r tree candidate)
    (λ h' out, ∀ a' res, out = Ok (a', res) → loaded_sound h' → sound a').
Proof.
  intros Ha. unfold commitOrReconcile. apply judged_bind.
  apply judged_weaken with (post := λ h' '(a', _), loaded_sound h' → sound a').
  { intros h' [a' [res|e]] Hs.
    - apply (judged_ret _ _ _ (Ok (a', res))). by intros ? ? [= <- <-].
    - run. all: intros ? ? [= <- <-]; prefix. }
  unfold gitCommit. destruct tree as [t|]; [|split; [done|]; intros res; prefix].
  split; [done|]. intros [[res|pc]|e]; [prefix| |prefix]. apply judged_bind. unfold keepPrepared.
  destruct (_ || _); [split; [done|]; intros res; prefix|].
  destruct (preparedReviewedCommit a); [split; [done|]; intros res; prefix|].
  split; [stored|]. intros kept. split; [done|]. intros res. stored.
Qed.

Lemma commitFiles_stored h a message identity : (loaded_sound h → sound a) →
  judged store_pre h (commitFiles deps a message identity) any.
Proof.
  intros Ha. unfold commitFiles, nowIso, mergeTreeOf, reviewedTreeOf, filesToCommit, scanForCommit. run.
  all: apply judged_bind_ok; eapply judged_weaken; [|apply commitOrReconcile_stored; prefix].
  all: intros h' [[a' res]|e] Hs; [|done]; specialize (Hs a' res eq_refl); run; by apply recordCommitted_stored.
Qed.

Lemma commitLocked_stored h a message p : (loaded_sound h → sound a) →
  judged store_pre h (commitLocked deps a message p) any.
Proof.
  intros Ha. unfold commitLocked. run.
  all: apply judged_bind_ok; eapply judged_weaken; [|apply reconcilePrepared_stored; prefix].
  all: intros h' [[u|]|e] Hs; [done| |done]; apply commitFiles_stored; prefix.
Qed.

Lemma push_stored h i : judged store_pre h (pushTransaction deps cwd i) any.
Proof.
  unfold pushTransaction, replayOrPromotePushedCommit, pushCommit, replayIntegratedOutputLedger, promote, pushUnlessThere,
    loadIntegrationAttempt, nowIso, recordIntegrationAudit. run; stored.
Qed.

Lemma reject_stored h a reason : (loaded_sound h → sound a) → judged store_pre h (rejectLocked deps reason a) any.
Proof.
  intros Ha. unfold rejectLocked, rollbackRejectedMerge, rollbackRejectedWorkerOutput, nowIso, recordIntegrationAudit.
  run; stored.
Qed.

Lemma reloaded_stored {A} h id (body : Attempt → Uc A) :
  (∀ h a, (loaded_sound h → sound a) → judged store_pre h (body a) any) → judged store_pre h (reloaded id body) any.
Proof.
  intros Hb. unfold reloaded, loadIntegrationAttempt. run. eapply locked_stored; [prefix|]. intros h' Hh. run.
  apply Hb. subst. prefix.
Qed.

(** Calls that store nothing leave what is known as it is. *)
Lemma storeless_stored {A} (P : trace → call → Prop) h (m : Uc A) :
  judged P h m any → (∀ h' c, P h' c → store_pre h' c) →
  judged store_pre h m (λ h' _, loaded_sound h' → loaded_sound h).
Proof.
  intros Hm HP. eapply judged_weaken; [|apply judged_extends with (post := any)].
  { intros h' r [_ [t ->]]. apply loaded_prefix. }
  revert h Hm. induction m as [a|c k IH]; intros h; simpl; [done|]. intros [Hc Hk]. split; [by apply HP|]. intros r. by apply IH.
Qed.

Definition storeless (_ : trace) (c : call) : Prop := match c with StoreCreate _ | StoreUpdate _ => False | _ => True end.
Lemma storeless_pre h c : storeless h c → store_pre h c.
Proof. by destruct c. Qed.

Lemma inspect_storeless h a i : judged storeless h (inspectPublished a i) any.
Proof. unfold inspectPublished. run. Qed.

Lemma auditOnce_storeless h a seen e : judged storeless h (auditOnce deps a seen e) any.
Proof. unfold auditOnce, readEvents, recordIntegrationAudit. run. Qed.

Lemma closeLedger_storeless h a i : judged storeless h (closeLedger deps a i) any.
Proof. unfold closeLedger. run. Qed.

Lemma storeless_bind {A B} h (m : Uc A) (f : A → Uc B) : (∀ h', judged storeless h' m any) →
  (∀ h' a, (loaded_sound h' → loaded_sound h) → judged store_pre h' (f a) any) → judged store_pre h (m ≫= f) any.
Proof.
  intros Hm Hf. apply judged_bind_ok. eapply judged_weaken; [|apply (storeless_stored storeless); [apply Hm|apply storeless_pre]].
  intros h' [a|e] Hl; [by apply Hf|done].
Qed.

Lemma recordPublished_stored h a i (f : Attempt → Uc Attempt) : (loaded_sound h → sound a) →
  (∀ h' b, judged store_pre h' (f b) any) → judged store_pre h (recordPublished a i ≫= f) any.
Proof. intros Ha Hf. unfold recordPublished. run; try apply Hf; stored. Qed.

Lemma recordAdopted_stored h a i c (f : Attempt → Uc Attempt) : (loaded_sound h → sound a) →
  (∀ h' b, (loaded_sound h' → sound b) → judged store_pre h' (f b) any) → judged store_pre h (recordAdopted a i c ≫= f) any.
Proof. intros Ha Hf. unfold recordAdopted, nowIso. run; try (apply Hf; stored); stored. Qed.

Lemma adoptLocked_stored h i : judged store_pre h (adoptLocked deps cwd i) any.
Proof.
  unfold adoptLocked, loadIntegrationAttempt, nowIso. run.
  all: apply storeless_bind; [intros; apply inspect_storeless|]; intros k1 c Hk1.
  all: apply recordAdopted_stored; [prefix|]; intros k2 b Hk2.
  all: apply storeless_bind; [intros; apply auditOnce_storeless|]; intros k3 ? Hk3.
  all: apply storeless_bind; [intros; apply closeLedger_storeless|]; intros k4 ? Hk4.
  all: apply recordPublished_stored; [prefix|]; intros k5 d.
  all: apply storeless_bind; [intros; apply auditOnce_storeless|]; intros; by apply (judged_ret _ _ _ (Ok _)).
Qed.

Lemma recover_stored h i : judged store_pre h (recoverOperatorCheckArtifact deps i) any.
Proof.
  eapply judged_weaken; [|eapply (storeless_stored storeless); [|apply storeless_pre]]; [done|].
  unfold recoverOperatorCheckArtifact, loadIntegrationAttempt. run.
  apply judged_with_lock; [done|done|]. intros l.
  unfold recoverLocked, recordRecoveryAuditPair, recordAuditOnce, loadIntegrationAttempt, auditOnce, readEvents, nowIso, recordIntegrationAudit. run.
Qed.

(** The use cases of the module. *)
Inductive use_case : ∀ A, Uc A → Prop :=
| Opening i p : use_case Attempt (openProjectIntegrationAttempt deps cwd i p)
| Applying id allow : use_case Attempt (applyWorkerOutput deps id allow)
| Checking id : use_case Attempt (runRequiredChecks deps cwd id)
| Committing id message p : use_case Attempt (commitApprovedChanges deps id message p)
| Pushing i : use_case Attempt (pushApprovedCommit deps cwd i)
| Rejecting id reason : use_case (Attempt * RejectedReceipt) (rejectIntegrationAttempt deps id reason)
| Adopting i : use_case Attempt (adoptPublishedIntegrationCommit deps cwd i)
| Recovering i : use_case RecoveryResult (recoverOperatorCheckArtifact deps i).

(** C28: Whatever the ports answer, if the attempts that a use case loads are
    sound, so is every attempt it stores: the files it expects and reports are
    normalized, the applied ones contain the reported ones, the checks of one
    past its checks passed, its commit is what the review allows, its push and
    promotions are of that commit. *)
Theorem stored_attempts_sound A (u : Uc A) tr out : use_case A u → runs u tr out →
  ∀ tr1 c r tr2, tr = tr1 ++ Ev c r :: tr2 →
    (∀ id a, Ev (StoreGet id) (Ok (Some a)) ∈ tr1 → sound a) →
    match c with StoreCreate a | StoreUpdate a => sound a | _ => True end.
Proof.
  intros Hu Hr tr1 c r tr2 E Hl. cut (store_pre tr1 c); [intros H; destruct c; auto|].
  refine (proj2 (judged_runs store_pre [] u (λ _ _, True) tr out _ Hr) tr1 c r tr2 E).
  destruct Hu; [..|apply recover_stored]; apply judged_transaction; try done; intros h _.
  - apply open_stored.
  - unfold applyTransaction, loadIntegrationAttempt. run. eapply locked_stored; [prefix|]. intros. by apply applyLocked_stored.
  - apply reloaded_stored. intros. by apply checks_stored.
  - unfold commitTransaction, loadIntegrationAttempt. run. eapply locked_stored; [prefix|]. intros. by apply commitLocked_stored.
  - apply push_stored.
  - apply reloaded_stored. intros. by apply reject_stored.
  - unfold loadIntegrationAttempt. run. eapply judged_with_lock; [done|done|]. intros. apply adoptLocked_stored.
Qed.

End Stored.

(** ** Locks *)

(** The calls that change a workspace; publishing goes on with a commit. *)
Definition mutates (c : call) : bool :=
  match c with
  | GitApply _ _ _ | GitCommit _ | GitCommitReviewed _ _ | GitPublish _ | GitAbortMerge _ | GitRollback _ => true
  | _ => false
  end.
Definition in_workspace (c : call) (ws : jsstring) : bool :=
  match c with
  | GitApply a _ _ | GitAbortMerge a | GitRollback a => js_eqb (targetWorkspacePath a) ws
  | GitCommit r | GitCommitReviewed r _ => js_eqb (cq_workspacePath r) ws
  | _ => true
  end.
Definition is_lock (c : call) : bool := match c with LockAcquire _ _ | LockRelease _ => true | _ => false end.

(** The lock that is held is of this workspace. *)
Definition holds_lock (h : trace) (ws : jsstring) : Prop :=
  ∃ l owner, lock_state h = Some l ∧ Ev (LockAcquire ws owner) (Ok l) ∈ h.

Definition lock_pre (h : trace) (c : call) : Prop :=
  match c with
  | LockAcquire _ _ => lock_state h = None
  | LockRelease l => lock_state h = Some l
  | _ => mutates c = true → ∃ ws, holds_lock h ws ∧ in_workspace c ws = true
  end.

(** What a body may call under the lock of [ws]. *)
Definition body_ok (ws : jsstring) (_ : trace) (c : call) : Prop :=
  is_lock c = false ∧ (mutates c = true → in_workspace c ws = true).

Section Locks.
Context (deps : Deps) (cwd : jsstring).
Abbreviation any := (λ (_ : trace) (_ : result error _), True).

Lemma body_lock_pre {A} h ws l owner (p : prog resp A) post : judged (body_ok ws) h p post →
  lock_state h = Some l → Ev (LockAcquire ws owner) (Ok l) ∈ h →
  judged lock_pre h p (λ h' _, lock_state h' = Some l).
Proof.
  revert h. induction p as [a|c k IH]; intros h; simpl; [done|].
  intros [[Hl Hm] Hk] Hs He. split.
  - destruct c; cbn in Hl; try done; intros Hc; exists ws; (split; [by exists l, owner|by apply Hm]).
  - intros r. apply IH; [done| |mem]. rewrite lock_state_snoc. by destruct c.
Qed.

Lemma with_lock_pre {A} h ws owner (body : Uc A) : lock_state h = None → (∀ h', judged (body_ok ws) h' body any) →
  judged lock_pre h (with_lock ws owner body) (λ h' _, lock_state h' = None).
Proof.
  intros Hn Hb. unfold with_lock. step; [done| |by rewrite lock_state_snoc].
  apply judged_finally. eapply judged_weaken; [|eapply body_lock_pre; [apply Hb| |mem]; by rewrite lock_state_snoc].
  intros h' r Hs. split; [done|]. intros f. cut (lock_state (h' ++ [Ev (LockRelease a) f]) = None); [by destruct f|by rewrite lock_state_snoc].
Qed.

Ltac allowed := first [done | split; [done|intros _; cbn; apply js_eqb_refl]].
Ltac body := repeat (step; try allowed).

Lemma body_bind {A B} ws h (m : Uc A) (f : A → Uc B) : judged (body_ok ws) h m any →
  (∀ h' a, judged (body_ok ws) h' (f a) any) → judged (body_ok ws) h (m ≫= f) any.
Proof. intros Hm Hf. apply judged_bind_ok. eapply judged_weaken, Hm. by intros h' [a|e] _. Qed.

Lemma applyLocked_body h a allow : judged (body_ok (targetWorkspacePath a)) h (applyLocked deps a allow) any.
Proof. unfold applyLocked, applyAndRecord, rollbackFailedMerge, nowIso, recordIntegrationAudit. body. Qed.

Lemma runDeclared_body ws h a checks : judged (body_ok ws) h (runDeclared cwd a checks) any.
Proof.
  revert h. induction checks as [|c checks IH]; intros h; cbn [runDeclared]; unfold nowIso; [done|].
  body; (apply body_bind; [apply IH|done]).
Qed.

Lemma reviewedTree_body ws h a : judged (body_ok ws) h (reviewedTree deps a) any.
Proof. unfold reviewedTree. body. Qed.

Lemma runChecks_body ws h a : judged (body_ok ws) h (runChecks deps cwd a) any.
Proof.
  unfold runChecks, nowIso, recordIntegrationAudit. body.
  all: apply body_bind; [apply reviewedTree_body|intros; apply body_bind; [apply runDeclared_body|intros]].
  all: apply body_bind; [apply reviewedTree_body|intros; body].
Qed.

Lemma checks_body ws h a : judged (body_ok ws) h (runRequiredChecksLocked deps cwd a) any.
Proof.
  unfold runRequiredChecksLocked. body; [|apply runChecks_body].
  apply body_bind; [apply reviewedTree_body|]. intros. body. apply runChecks_body.
Qed.

Lemma reject_body h a reason : judged (body_ok (targetWorkspacePath a)) h (rejectLocked deps reason a) any.
Proof. unfold rejectLocked, rollbackRejectedMerge, rollbackRejectedWorkerOutput, nowIso, recordIntegrationAudit. body. Qed.

Lemma recordCommitted_body ws h a c r : judged (body_ok ws) h (recordCommitted deps a c r) any.
Proof. unfold recordCommitted, readEvents, recordIntegrationAudit. body. Qed.

Lemma reconcilePrepared_body ws h a identity message : judged (body_ok ws) h (reconcilePrepared deps a identity message) any.
Proof. unfold reconcilePrepared. body. by apply body_bind; [apply recordCommitted_body|]. Qed.

Lemma commitOrReconcile_body h a r tree candidate :
  judged (body_ok (cq_workspacePath r)) h (commitOrReconcile deps a r tree candidate) any.
Proof.
  unfold commitOrReconcile. apply judged_bind. eapply judged_weaken with (post := λ _ _, True).
  { intros h' [a' [res|e]] _; [done|]. body. }
  assert (∀ h' a' kept, judged (body_ok (cq_workspacePath r)) h'
    (Call (GitPublish kept) (λ r, Ret (a' : Attempt, r : result error CommitResult))) (λ _ _, True)) as Hp by (intros; by split).
  unfold gitCommit. destruct tree as [t|]; (split; [allowed|]); [|done].
  intros [[res|pc]|e]; [done| |done]. apply judged_bind. unfold keepPrepared. destruct (_ || _); [apply Hp|].
  destruct (preparedReviewedCommit a); [apply Hp|]. split; [done|]. intros kept. apply Hp.
Qed.

Lemma commitFiles_body h a message identity : judged (body_ok (targetWorkspacePath a)) h (commitFiles deps a message identity) any.
Proof.
  unfold commitFiles, nowIso, mergeTreeOf, reviewedTreeOf, filesToCommit, scanForCommit. body.
  all: apply body_bind; [refine (commitOrReconcile_body _ _ (mkCommitRequest _ _ _ _ _ _) _ _)|].
  all: intros h' [a' res]; body; apply recordCommitted_body.
Qed.

Lemma commitLocked_body h a message p : judged (body_ok (targetWorkspacePath a)) h (commitLocked deps a message p) any.
Proof.
  unfold commitLocked. body; (apply body_bind; [apply reconcilePrepared_body|]).
  all: intros h' [u|]; [done|apply commitFiles_body].
Qed.

(** A transaction that takes no lock, and one that takes the lock of a
    workspace once. *)
Lemma transaction_lock_pre {A} id (m : Uc A) : (∀ h, lock_state h = None → judged lock_pre h m (λ h' _, lock_state h' = None)) →
  judged lock_pre [] (runIntegrationTransaction deps id m) (λ h' _, lock_state h' = None).
Proof.
  intros Hm. unfold runIntegrationTransaction. step; [|by apply Hm].
  step; [done| |done]. apply judged_finally. eapply judged_weaken; [|by apply Hm].
  intros h' r Hs. split; [done|]. intros f. 
  cut (lock_state (h' ++ [Ev (LeaveActivity (js "integration-transaction:" ++ id)) f]) = None); [by destruct f|].
  by rewrite lock_state_snoc.
Qed.

Ltac unlocked := repeat (step; try done); try by rewrite !lock_state_snoc.

Lemma auditOnce_body ws h a seen e : judged (body_ok ws) h (auditOnce deps a seen e) any.
Proof. unfold auditOnce, readEvents, recordIntegrationAudit. body. Qed.

Lemma adoptLocked_body ws h i : judged (body_ok ws) h (adoptLocked deps cwd i) any.
Proof.
  unfold adoptLocked, loadIntegrationAttempt, nowIso. body.
  all: apply body_bind; [unfold inspectPublished; body|]; intros h1 c.
  all: apply body_bind; [unfold recordAdopted, nowIso; body|]; intros h2 b.
  all: apply body_bind; [apply auditOnce_body|]; intros h3 ?.
  all: apply body_bind; [unfold closeLedger; body|]; intros h4 ?.
  all: apply body_bind; [unfold recordPublished; body|]; intros h5 d.
  all: apply body_bind; [apply auditOnce_body|]; intros; body.
Qed.

Lemma recoverLocked_body ws h a i : judged (body_ok ws) h (recoverLocked deps a i) any.
Proof.
  unfold recoverLocked, recordRecoveryAuditPair, recordAuditOnce, auditOnce, readEvents, loadIntegrationAttempt, nowIso, recordIntegrationAudit.
  body.
Qed.

Lemma reloaded_lock_pre {A} h id (body : Attempt → Uc A) : lock_state h = None →
  (∀ h' a, judged (body_ok (targetWorkspacePath a)) h' (body a) any) →
  judged lock_pre h (reloaded id body) (λ h' _, lock_state h' = None).
Proof.
  intros Hh Hb. unfold reloaded, loadIntegrationAttempt. unlocked.
  apply with_lock_pre; [by rewrite lock_state_snoc|]. intros h'. body. subst. bools.
  match goal with E : targetWorkspacePath _ = targetWorkspacePath _ |- _ => rewrite E end. apply Hb.
Qed.

(** C21: Locks of workspaces. Whatever the ports answer, a use case holds at most
    one lock at a time, releases the one it holds and holds none when it is
    over, however it ends; and git is only asked to apply, commit, publish,
    abort or roll back in a workspace whose lock is held. *)
Theorem workspace_lock_discipline A (u : Uc A) tr out : use_case deps cwd A u → runs u tr out →
  lock_state tr = None ∧
  ∀ tr1 c r tr2, tr = tr1 ++ Ev c r :: tr2 →
    match c with
    | LockAcquire _ _ => lock_state tr1 = None
    | LockRelease l => lock_state tr1 = Some l
    | _ => mutates c = true → ∃ ws, holds_lock tr1 ws ∧ in_workspace c ws = true
    end.
Proof.
  intros Hu Hr. refine (judged_runs lock_pre [] u (λ h' _, lock_state h' = None) tr out _ Hr).
  destruct Hu; [apply transaction_lock_pre; intros h Hh..|].
  - unfold openTransaction, nowIso, recordIntegrationAudit. unlocked.
  - unfold applyTransaction, loadIntegrationAttempt. unlocked.
    apply with_lock_pre; [by rewrite lock_state_snoc|]. intros. apply applyLocked_body.
  - apply reloaded_lock_pre; [done|]. intros. apply checks_body.
  - unfold commitTransaction, loadIntegrationAttempt. unlocked.
    all: apply with_lock_pre; [by rewrite lock_state_snoc|]; intros; apply commitLocked_body.
  - unfold pushTransaction, replayOrPromotePushedCommit, pushCommit, replayIntegratedOutputLedger, promote, pushUnlessThere,
      loadIntegrationAttempt, nowIso, recordIntegrationAudit. unlocked.
  - apply reloaded_lock_pre; [done|]. intros. apply reject_body.
  - unfold loadIntegrationAttempt. unlocked. apply with_lock_pre; [by rewrite lock_state_snoc|]. intros. apply adoptLocked_body.
  - unfold recoverOperatorCheckArtifact, loadIntegrationAttempt. unlocked.
    apply with_lock_pre; [by rewrite lock_state_snoc|]. intros. apply recoverLocked_body.
Qed.

End Locks.

Module Demo.
Import World.

Definition apply_trace : trace := exec_trace handle applying opened.
Definition loaded_by (e : event resp) : option Attempt :=
  match e with
  | Ev c r =>
      match c return resp c → option Attempt with
      | StoreGet _ => λ r, match r with Ok a => a | Throw _ => None end
      | _ => λ _, None
      end r
  end.

Lemma loaded_attempts h l : omap loaded_by h = l → Forall sound l → loaded_sound h.
Proof.
  intros <- Hf id a Ha. rewrite Forall_forall in Hf. apply Hf, list_elem_of_omap.
  by exists (Ev (StoreGet id) (Ok (Some a))).
Qed.

Definition opened_attempt : Attempt := default Integration.Demo.blank (head (attempts opened)).
Lemma opened_sound : sound opened_attempt.
Proof. apply (sound_open (with_now input now)). by vm_compute. Qed.

Definition applied_attempt : Attempt := default Integration.Demo.blank (head (attempts applied)).

Lemma stored_attempts_sound_witness :
  apply_trace = take 6 apply_trace ++ Ev (StoreUpdate applied_attempt) (Ok tt) :: drop 7 apply_trace ∧ sound applied_attempt.
Proof.
  assert (apply_trace = take 6 apply_trace ++ Ev (StoreUpdate applied_attempt) (Ok tt) :: drop 7 apply_trace) as H
    by (vm_compute; reflexivity).
  split; [exact H|].
  refine (stored_attempts_sound all_deps cwd _ _ _ _ (Applying all_deps cwd (js "a1") None) (exec_runs handle applying opened)
    _ (StoreUpdate applied_attempt) _ _ H _).
  apply (loaded_attempts _ [opened_attempt]); [vm_compute; reflexivity|].
  constructor; [apply opened_sound|constructor].
Defined.

Lemma workspace_lock_discipline_witness :
  lock_state apply_trace = None ∧
  apply_trace = take 4 apply_trace ++ Ev (GitApply opened_attempt output false) (Ok (mkApplied [js "src/a.ts"] None)) :: drop 5 apply_trace ∧
  holds_lock (take 4 apply_trace) (js "/work/p/main").
Proof.
  assert (apply_trace = take 4 apply_trace ++ Ev (GitApply opened_attempt output false) (Ok (mkApplied [js "src/a.ts"] None)) :: drop 5 apply_trace) as H
    by (vm_compute; reflexivity).
  destruct (workspace_lock_discipline all_deps cwd _ _ _ _ (Applying all_deps cwd (js "a1") None) (exec_runs handle applying opened))
    as [Hend Hpre].
  split; [exact Hend|split; [exact H|]].
  destruct (Hpre _ (GitApply opened_attempt output false) _ _ H eq_refl) as (ws & Hheld & Hws).
  cbn in Hws. bools. rewrite <- Hws in Hheld. exact Hheld.
Defined.
End Demo.

End Sound.
