(* ===== verification/StatePrograms.v ===== *)
(** * Programs with a local state

    Code that awaits ports, throws, and keeps variables that its [catch] and
    [finally] blocks read: a program of [Programs.v] that passes a state and
    returns or throws. Every port may throw. The judgement of [Programs.v] is
    carried over, one statement at a time. *)

From stdpp Require Import base numbers list option.
From S2P Require Import Prelude Programs.

Section state.
Context {call : Type} (E : Type) (answer : call → Type).

(** An answer of a port, or what it throws. *)
Definition fallible (c : call) : Type := result E (answer c).
Definition Stateful (S A : Type) : Type := S → prog fallible (S * result E A).
End state.

#[global] Instance Stateful_ret {call E} {answer : call → Type} {S} : MRet (Stateful E answer S) :=
  λ A a s, Ret (s, Ok a).
#[global] Instance Stateful_bind {call E} {answer : call → Type} {S} : MBind (Stateful E answer S) := λ A B f m s,
  prog_bind (m s) (λ '(s', r), match r with Ok a => f a s' | Throw e => Ret (s', Throw e) end).

Section operations.
Context {call E : Type} {answer : call → Type} {S : Type}.
Abbreviation P := (Stateful E answer S).

Definition done_ {A} (a : A) : P A := λ s, Ret (s, Ok a).
Definition raise_ {A} (e : E) : P A := λ s, Ret (s, Throw e).
Definition pure_ {A} (r : result E A) : P A := λ s, Ret (s, r).
Definition await_ (c : call) : P (answer c) := λ s, Call c (λ r, Ret (s, r)).
Definition read_ {A} (f : S → A) : P A := λ s, Ret (s, Ok (f s)).
Definition write_ (f : S → S) : P unit := λ s, Ret (f s, Ok tt).

Definition catch_ {A} (m : P A) (handler : E → P A) : P A := λ s,
  prog_bind (m s) (λ '(s', r), match r with Ok a => Ret (s', Ok a) | Throw e => handler e s' end).

(** What the block of [finally] throws replaces what the body returned. *)
Definition finally_ {A} (m : P A) (last : P unit) : P A := λ s,
  prog_bind (m s) (λ '(s', r),
    prog_bind (last s') (λ '(s'', f), match f with Ok _ => Ret (s'', r) | Throw e => Ret (s'', Throw e) end)).

(** A promise, settled. *)
Definition settled_ {A} (m : P A) : P (result E A) := λ s, prog_bind (m s) (λ '(s', r), Ret (s', Ok r)).

Fixpoint each_ {A B} (f : A → P B) (l : list A) : P (list B) :=
  match l with
  | [] => done_ []
  | x :: l => y ← f x; ys ← each_ f l; done_ (y :: ys)
  end.
End operations.

(** ** Judgements *)

Abbreviation history E answer := (list (event (fallible E answer))).

Section traced.
Context {call E : Type} {answer : call → Type} {S : Type} (pre : history E answer → call → Prop).

Definition traced {A} (h : history E answer) (s : S) (m : Stateful E answer S A)
    (post : history E answer → S → result E A → Prop) : Prop :=
  judged pre h (m s) (λ h' '(s', r), post h' s' r).

Lemma traced_weaken {A} h s (m : Stateful E answer S A) (post post' : history E answer → S → result E A → Prop) :
  (∀ h s r, post h s r → post' h s r) → traced h s m post → traced h s m post'.
Proof. intros H. apply judged_weaken. intros h' [s' r]. apply H. Qed.

(** Programs only add to the history. *)
Lemma traced_extends {A} h s (m : Stateful E answer S A) post :
  traced h s m post → traced h s m (λ h' s' r, post h' s' r ∧ ∃ t, h' = h ++ t).
Proof. intros H%judged_extends. revert H. apply judged_weaken. by intros h' [s' r]. Qed.

Context {B : Type} (post : history E answer → S → result E B → Prop).

Lemma traced_bind {A} h s (m : Stateful E answer S A) (f : A → Stateful E answer S B) :
  traced h s (m ≫= f) post ↔
  traced h s m (λ h' s' r, match r with Ok a => traced h' s' (f a) post | Throw e => post h' s' (Throw e) end).
Proof.
  unfold traced, mbind, Stateful_bind. rewrite judged_bind. split; apply judged_weaken; by intros h' [s' [a|e]].
Qed.

Lemma traced_assoc {A A'} h s (m : Stateful E answer S A) (f : A → Stateful E answer S A') (g : A' → Stateful E answer S B) :
  traced h s (m ≫= λ a, f a ≫= g) post → traced h s ((m ≫= f) ≫= g) post.
Proof.
  intros H%traced_bind. apply traced_bind. unfold traced, mbind, Stateful_bind at 1. apply judged_bind.
  revert H. apply judged_weaken. intros h' [s' [a|e]]; [|done]. intros H. by apply traced_bind.
Qed.

Lemma traced_done {A} h s (a : A) (f : A → Stateful E answer S B) : traced h s (f a) post → traced h s (done_ a ≫= f) post.
Proof. intros H. by apply traced_bind. Qed.
Lemma traced_raise {A} h s e (f : A → Stateful E answer S B) : post h s (Throw e) → traced h s (raise_ e ≫= f) post.
Proof. intros H. by apply traced_bind. Qed.
Lemma traced_pure {A} h s (r : result E A) (f : A → Stateful E answer S B) :
  (∀ a, r = Ok a → traced h s (f a) post) → (∀ e, r = Throw e → post h s (Throw e)) → traced h s (pure_ r ≫= f) post.
Proof. intros Ho Ht. apply traced_bind. destruct r; [by apply Ho|by apply Ht]. Qed.
Lemma traced_await h s c (f : answer c → Stateful E answer S B) : pre h c →
  (∀ a, traced (h ++ [Ev c (Ok a)]) s (f a) post) → (∀ e, post (h ++ [Ev c (Throw e)]) s (Throw e)) →
  traced h s (await_ c ≫= f) post.
Proof. intros Hc Ho Ht. apply traced_bind. split; [done|]. intros [a|e]; [apply Ho|apply Ht]. Qed.
Lemma traced_read {A} h s (g : S → A) (f : A → Stateful E answer S B) : traced h s (f (g s)) post → traced h s (read_ g ≫= f) post.
Proof. intros H. by apply traced_bind. Qed.
Lemma traced_write h s g (f : unit → Stateful E answer S B) : traced h (g s) (f tt) post → traced h s (write_ g ≫= f) post.
Proof. intros H. by apply traced_bind. Qed.
Lemma traced_end h s (r : result E B) : post h s r → traced h s (pure_ r) post.
Proof. done. Qed.

Lemma traced_catch h s (m : Stateful E answer S B) handler :
  traced h s m (λ h' s' r, match r with Ok a => post h' s' (Ok a) | Throw e => traced h' s' (handler e) post end) →
  traced h s (catch_ m handler) post.
Proof. intros H. apply judged_bind. revert H. apply judged_weaken. by intros h' [s' [a|e]]. Qed.

Lemma traced_finally h s (m : Stateful E answer S B) last :
  traced h s m (λ h' s' r, traced h' s' last (λ h'' s'' f, post h'' s'' (match f with Ok _ => r | Throw e => Throw e end))) →
  traced h s (finally_ m last) post.
Proof.
  intros H. apply judged_bind. revert H. apply judged_weaken. intros h' [s' r] H. apply judged_bind.
  revert H. apply judged_weaken. by intros h'' [s'' [u|e]].
Qed.

Lemma traced_settled_await h s c (f : result E (answer c) → Stateful E answer S B) : pre h c →
  (∀ r, traced (h ++ [Ev c r]) s (f r) post) → traced h s (settled_ (await_ c) ≫= f) post.
Proof. intros Hc Hf. by apply traced_bind. Qed.

Lemma traced_settled {A} h s (m : Stateful E answer S A) (f : result E A → Stateful E answer S B) :
  traced h s m (λ h' s' r, traced h' s' (f r) post) → traced h s (settled_ m ≫= f) post.
Proof.
  intros H. apply traced_bind. apply judged_bind. revert H. apply judged_weaken. by intros h' [s' r].
Qed.
End traced.

Lemma traced_await_end {call E} {answer : call → Type} {S} (pre : history E answer → call → Prop) h (s : S) c
    (post : history E answer → S → result E (answer c) → Prop) : pre h c →
  (∀ r, post (h ++ [Ev c r]) s r) → traced pre h s (await_ c) post.
Proof. intros Hc Hp. split; [done|]. intros r. apply Hp. Qed.

#[global] Arguments traced : simpl never.
#[global] Arguments Stateful_bind : simpl never.
#[global] Arguments Stateful_ret : simpl never.

(** One statement of a program. *)
Ltac tstep :=
  lazymatch goal with
  | |- traced _ _ _ ((_ ≫= _) ≫= _) _ => apply traced_assoc
  | |- traced ?pre ?h ?s (await_ ?c ≫= ?f) ?post => refine (traced_await pre post h s c f _ _ _); [|intros ?|intros ?]
  | |- traced _ _ _ (pure_ _ ≫= _) _ => apply traced_pure; [intros ? ?|intros ? _]
  | |- traced _ _ _ (done_ _ ≫= _) _ => apply traced_done
  | |- traced _ _ _ (raise_ _ ≫= _) _ => apply traced_raise
  | |- traced _ _ _ (read_ _ ≫= _) _ => apply traced_read
  | |- traced _ _ _ (write_ _ ≫= _) _ => apply traced_write
  | |- traced ?pre ?h ?s (settled_ (await_ ?c) ≫= ?f) ?post =>
      refine (traced_settled_await pre post h s c f _ _); [|intros [?|?]]
  | |- traced _ _ _ (settled_ _ ≫= _) _ => apply traced_settled
  | |- traced _ _ _ (catch_ _ _ ≫= _) _ => apply traced_bind, traced_catch
  | |- traced _ _ _ (catch_ _ _) _ => apply traced_catch
  | |- traced ?pre ?h ?s (await_ ?c) ?post => refine (traced_await_end pre h s c post _ _); [|intros [?|?]]
  | |- traced _ _ _ (done_ ?a) _ => apply (traced_end _ _ _ _ (Ok a))
  | |- traced _ _ _ (raise_ ?e) _ => apply (traced_end _ _ _ _ (Throw e))
  | |- traced _ _ _ (pure_ _) _ => apply traced_end
  | |- traced _ _ _ ((if ?b then _ else _) ≫= _) _ => destruct b eqn:?
  | |- traced _ _ _ ((match ?x with _ => _ end) ≫= _) _ => destruct x eqn:?
  | |- traced _ _ _ (if ?b then _ else _) _ => destruct b eqn:?
  | |- traced _ _ _ (match ?x with _ => _ end) _ => destruct x eqn:?
  end; cbv beta iota.

(** Two judgements of a program, of which the calls of one are judged. *)
Lemma traced_both {call E} {answer : call → Type} {S A} (pre pre' : history E answer → call → Prop) h (s : S)
    (m : Stateful E answer S A) (post post' : history E answer → S → result E A → Prop) :
  traced pre h s m post → traced pre' h s m post' → traced pre' h s m (λ h' s' r, post h' s' r ∧ post' h' s' r).
Proof.
  unfold traced. generalize (m s) as p. intros p. revert h. induction p as [[s' r]|c k IH]; intros h; [done|].
  intros [_ Hk] [Hc' Hk']. split; [done|]. intros r. by apply IH.
Qed.

(** ** Histories *)

Section included.
Context {call E : Type} {answer : call → Type}.

Definition included (h h' : history E answer) : Prop := ∀ e, e ∈ h → e ∈ h'.

Lemma included_refl h : included h h.
Proof. by intros e. Qed.
Lemma included_snoc h e : included h (h ++ [e]).
Proof. intros x Hx. apply elem_of_app. by left. Qed.
Lemma included_app h t : included h (h ++ t).
Proof. intros x Hx. apply elem_of_app. by left. Qed.
Lemma included_trans h h' h'' : included h h' → included h' h'' → included h h''.
Proof. intros H1 H2 e He. by apply H2, H1. Qed.
Lemma here (e : event (fallible E answer)) (h : history E answer) : e ∈ h ++ [e].
Proof. apply elem_of_app. right. by apply list_elem_of_singleton. Qed.

Context {S : Type} (pre : history E answer → call → Prop).
Abbreviation any := (λ (_ : history E answer) (_ : S) _, True).

(** A part of which only its calls matter. *)
Lemma traced_part {A B} h s (m : Stateful E answer S A) (f : A → Stateful E answer S B) post :
  traced pre h s m any →
  (∀ h' s' a, included h h' → traced pre h' s' (f a) post) → (∀ h' s' e, included h h' → post h' s' (Throw e)) →
  traced pre h s (m ≫= f) post.
Proof.
  intros Hm Hf Ht. apply traced_bind. eapply traced_weaken; [|apply traced_extends, Hm].
  intros h' s' [a|e] [_ [t ->]]; [apply Hf, included_app|apply Ht, included_app].
Qed.

Lemma traced_each {A B} h s (f : A → Stateful E answer S B) l :
  (∀ x h s, traced pre h s (f x) any) → traced pre h s (each_ f l) any.
Proof.
  intros Hf. revert h s. induction l as [|x l IH]; intros h s; cbn [each_]; [done|].
  apply traced_part; [apply Hf| |done]. intros h' s' y _. by apply traced_part; [apply IH| |].
Qed.

Lemma traced_settled_any {A} h s (m : Stateful E answer S A) : traced pre h s m any → traced pre h s (settled_ m) any.
Proof. intros H. apply judged_bind. revert H. apply judged_weaken. by intros h' [s' r]. Qed.

(** Promises that are settled one after the other do not throw. *)
Lemma traced_each_settled {A B} h s (f : A → Stateful E answer S B) l :
  (∀ x h s, traced pre h s (f x) any) →
  traced pre h s (each_ (λ x, settled_ (f x)) l) (λ h' _ r, included h h' ∧ ∃ rs, r = Ok rs).
Proof.
  intros Hf. revert h s. induction l as [|x l IH]; intros h s; cbn [each_].
  { apply (traced_end _ _ _ _ (Ok [])). split; [apply included_refl|by eexists]. }
  apply traced_bind. eapply judged_bind. eapply judged_weaken; [|apply judged_extends, Hf].
  intros h' [s' r] [_ [t ->]]. apply traced_bind. eapply traced_weaken; [|apply IH].
  intros h'' s'' r' [H'' [rs ->]]. apply (traced_end _ _ _ _ (Ok _)). split; [|by eexists].
  eapply included_trans, H''. apply included_app.
Qed.

Lemma traced_pre_weaken (pre' : history E answer → call → Prop) {A} h s (m : Stateful E answer S A) post :
  (∀ h c, pre h c → pre' h c) → traced pre h s m post → traced pre' h s m post.
Proof.
  intros Hp. unfold traced. generalize (m s). intros p. revert h. induction p as [x|c k IH]; intros h; [done|].
  intros [Hc Hk]. split; [by apply Hp|]. intros r. by apply IH.
Qed.
End included.

(** Membership in a history written out. *)
Ltac in_history := solve [repeat first [apply here | assumption | apply included_snoc | match goal with H : included _ _ |- _ => apply H end]].

(** The trace of a program that starts with no history. *)
Lemma traced_runs {call E} {answer : call → Type} {S A} (pre : history E answer → call → Prop) s
    (m : Stateful E answer S A) post tr s' r :
  traced pre [] s m post → runs (m s) tr (s', r) →
  post tr s' r ∧ ∀ tr1 c x tr2, tr = tr1 ++ Ev c x :: tr2 → pre tr1 c.
Proof. intros H Hr. exact (judged_runs pre [] _ _ _ _ H Hr). Qed.

(** ** Invariants *)

Section keeps.
Context {call E : Type} {answer : call → Type} {S : Type}.
Context (pre : history E answer → call → Prop) (I : history E answer → S → Prop).

(** A program that keeps a relation of the history and the state. *)
Definition keeps {A} (m : Stateful E answer S A) : Prop :=
  ∀ h s, I h s → traced pre h s m (λ h' s' _, I h' s').

Lemma keeps_then {A B} (m : Stateful E answer S A) (f : A → Stateful E answer S B) :
  keeps m → (∀ a, keeps (f a)) → keeps (m ≫= f).
Proof.
  intros Hm Hf h s Hi. apply traced_bind. eapply traced_weaken; [|by apply Hm]. intros h' s' [a|e] Hi'; [by apply Hf|done].
Qed.
Lemma keeps_done {A} (a : A) : keeps (done_ a).
Proof. by intros h s Hi. Qed.
Lemma keeps_raise {A} e : keeps (raise_ (A:=A) e).
Proof. by intros h s Hi. Qed.
Lemma keeps_pure {A} (r : result E A) : keeps (pure_ r).
Proof. by intros h s Hi. Qed.
Lemma keeps_read {A} (f : S → A) : keeps (read_ f).
Proof. by intros h s Hi. Qed.
Lemma keeps_write f : (∀ h s, I h s → I h (f s)) → keeps (write_ f).
Proof. intros Hf h s Hi. by apply Hf. Qed.
Lemma keeps_await c : (∀ h s, I h s → pre h c) → (∀ h s r, I h s → I (h ++ [Ev c r]) s) → keeps (await_ c).
Proof. intros Hc Hi h s H. split; [by eapply Hc|]. intros r. by apply Hi. Qed.
Lemma keeps_catch {A} (m : Stateful E answer S A) handler : keeps m → (∀ e, keeps (handler e)) → keeps (catch_ m handler).
Proof.
  intros Hm Hh h s Hi. apply traced_catch. eapply traced_weaken; [|by apply Hm]. intros h' s' [a|e] Hi'; [done|by apply Hh].
Qed.
Lemma keeps_finally {A} (m : Stateful E answer S A) last : keeps m → keeps last → keeps (finally_ m last).
Proof.
  intros Hm Hl h s Hi. apply traced_finally. eapply traced_weaken; [|by apply Hm]. intros h' s' r Hi'.
  eapply traced_weaken; [|by apply Hl]. done.
Qed.
Lemma keeps_settled {A} (m : Stateful E answer S A) : keeps m → keeps (settled_ m).
Proof. intros Hm h s Hi. apply judged_bind. specialize (Hm h s Hi). revert Hm. apply judged_weaken. by intros h' [s' r]. Qed.
Lemma keeps_each {A B} (f : A → Stateful E answer S B) l : (∀ x, keeps (f x)) → keeps (each_ f l).
Proof.
  intros Hf. induction l as [|x l IH]; cbn [each_]; [apply keeps_done|].
  apply keeps_then; [apply Hf|]. intros y. apply keeps_then; [done|]. intros ys. apply keeps_done.
Qed.
End keeps.

(** What keeps two relations, of which the calls of one are judged. *)
Lemma keeps_both {call E} {answer : call → Type} {S A} (pre : history E answer → call → Prop) (I : history E answer → S → Prop)
    (R : history E answer → Prop) (m : Stateful E answer S A) :
  (∀ h e, R h → R (h ++ [e])) → keeps pre I m → keeps pre (λ h s, R h ∧ I h s) m.
Proof.
  intros HR Hm h s [Hr Hi]. eapply traced_weaken; [|apply traced_extends, Hm, Hi]. intros h' s' _ [Hi' [t ->]].
  split; [|done]. clear -HR Hr. revert h Hr. induction t as [|e t IH]; intros h Hr; [by rewrite app_nil_r|].
  replace (h ++ e :: t) with ((h ++ [e]) ++ t) by (by rewrite <-app_assoc). by apply IH, HR.
Qed.

#[global] Arguments keeps : simpl never.

(** One statement of a program that keeps a relation. *)
Ltac kstep :=
  lazymatch goal with
  | |- keeps _ _ (_ ≫= _) => apply keeps_then
  | |- ∀ _, keeps _ _ _ => intros ?
  | |- keeps _ _ (done_ _) => apply keeps_done
  | |- keeps _ _ (raise_ _) => apply keeps_raise
  | |- keeps _ _ (pure_ _) => apply keeps_pure
  | |- keeps _ _ (read_ _) => apply keeps_read
  | |- keeps _ _ (write_ _) => apply keeps_write
  | |- keeps _ _ (await_ _) => apply keeps_await
  | |- keeps _ _ (settled_ _) => apply keeps_settled
  | |- keeps _ _ (catch_ _ _) => apply keeps_catch
  | |- keeps _ _ (finally_ _ _) => apply keeps_finally
  | |- keeps _ _ (each_ _ _) => apply keeps_each
  | |- keeps _ _ (let '(_, _) := ?x in _) => destruct x
  | |- keeps _ _ (if ?b then _ else _) => destruct b eqn:?
  | |- keeps _ _ (match ?x with _ => _ end) => destruct x eqn:?
  end; cbv beta iota.
