(* ===== verification/SafePolicy.v ===== *)
(** * Safe execution: policy and errors

    [src/worker-core/safe-execution/domain/safe-execution-policy.ts]: what a
    failure of an attempt is, whether another attempt follows it, and which
    workspace locks may be replaced.

    A thrown value is a tree of what the code reads of it: its class, message
    and fields, and its cause. A chain of causes that comes back to an earlier
    one is cut there by the code; here it is the finite chain it reads. Objects
    used as records of strings are lists of entries in insertion order, without
    the properties that every object inherits. The regular expressions are the
    functions that decide their matches. *)

From stdpp Require Import base numbers option sets strings pretty list.
From S2P Require Import Prelude IntegrationAttempt.

Module SafePolicy.

Inductive EffectMode : Set := ReadOnly | WorkspacePatch | ExternalSideEffects.
Inductive ContinuationMode : Set := PacketFirst | Disabled.

Record Policy : Set := mkPolicy {
  retryOnCapacity : option bool; retryOnAccountUnavailable : option bool; retryOnReconnectRequired : option bool;
  retryUnknownCleanWorkspace : option bool; retryUnknownChangedWorkspace : option bool; maxAttempts : option Z;
  continuationMode : option ContinuationMode }.

(** Attempt limits are integers. *)
Record NormalizedPolicy : Set := mkNormalized {
  np_retryOnCapacity : bool; np_retryOnAccountUnavailable : bool; np_retryOnReconnectRequired : bool;
  np_retryUnknownCleanWorkspace : bool; np_retryUnknownChangedWorkspace : bool; np_maxAttempts : Z;
  np_continuationMode : ContinuationMode }.

Inductive FailureReason : Set :=
| QuotaLimited | CapacityUnavailable | AccountUnavailable | ReconnectRequired | PermissionRequired | TaskTimeout
| ProviderOutputInvalid | RuntimeInterrupted | GoalSliceExhausted | BudgetExceeded | CheckpointUnprotected
| ModelUnavailable | UserAbort | UnknownError.

#[global] Instance FailureReason_eq_dec : EqDecision FailureReason.
Proof. solve_decision. Defined.
#[global] Instance EffectMode_eq_dec : EqDecision EffectMode.
Proof. solve_decision. Defined.
#[global] Instance ContinuationMode_eq_dec : EqDecision ContinuationMode.
Proof. solve_decision. Defined.

Definition reason_name (r : FailureReason) : jsstring :=
  js (match r with
      | QuotaLimited => "quota_limited" | CapacityUnavailable => "capacity_unavailable"
      | AccountUnavailable => "account_unavailable" | ReconnectRequired => "reconnect_required"
      | PermissionRequired => "permission_required" | TaskTimeout => "task_timeout"
      | ProviderOutputInvalid => "provider_output_invalid" | RuntimeInterrupted => "runtime_interrupted"
      | GoalSliceExhausted => "goal_slice_exhausted" | BudgetExceeded => "budget_exceeded"
      | CheckpointUnprotected => "checkpoint_unprotected" | ModelUnavailable => "model_unavailable"
      | UserAbort => "user_abort" | UnknownError => "unknown_error"
      end)%string.

(** ** Thrown values *)

Abbreviation details_t := (list (jsstring * jsstring)).

(** [SubscriptionWorkerError] and [SafeExecutionError] carry a code and
    details. *)
Inductive ErrorClass : Set :=
| OtherError
| WorkerError (code : jsstring) (details : details_t)
| SafeError (code : jsstring) (details : details_t).

(** Fields of a failed process, when the value has them with these types. *)
Record ProcessFields : Set := mkFields { exitCode : option num; stdout : option jsstring; stderr : option jsstring }.
Definition no_fields : ProcessFields := mkFields None None None.

Inductive Thrown : Set :=
| Falsy (text : jsstring)
| Value (text : jsstring) (fields : ProcessFields)
| ErrorObject (class : ErrorClass) (message : jsstring) (fields : ProcessFields) (cause : Thrown).

Definition undefined : Thrown := Falsy (js "undefined").
Definition safe_error (code message : string) (details : details_t) : Thrown :=
  ErrorObject (SafeError (js code) details) (js message) no_fields undefined.

Definition safeExecutionErrorMessage (e : Thrown) : jsstring :=
  match e with Falsy t | Value t _ => t | ErrorObject _ m _ _ => m end.

Fixpoint errorChain (e : Thrown) : list Thrown :=
  match e with
  | Falsy _ => []
  | Value _ _ => [e]
  | ErrorObject _ _ _ cause => e :: errorChain cause
  end.

Definition fields_of (e : Thrown) : ProcessFields :=
  match e with Falsy _ => no_fields | Value _ f | ErrorObject _ _ f _ => f end.

Definition worker_error (e : Thrown) : option (jsstring * details_t) :=
  match e with ErrorObject (WorkerError code d) _ _ _ => Some (code, d) | _ => None end.
Definition safe_execution_error (e : Thrown) : option (jsstring * details_t) :=
  match e with ErrorObject (SafeError code d) _ _ _ => Some (code, d) | _ => None end.

(** ** Searching text *)

(** The first position at which [f] of the character before and the rest of the
    text has a value. *)
Fixpoint find_at {A} (f : option N → jsstring → option A) (before : option N) (s : jsstring) : option A :=
  match f before s with
  | Some a => Some a
  | None => match s with [] => None | c :: s' => find_at f (Some c) s' end
  end.
Definition found {A} (o : option A) : bool := match o with Some _ => true | None => false end.

Definition contains (p s : jsstring) : bool := found (find_at (λ _ r, if starts_with p r then Some tt else None) None s).
(** [/a|b|.../i]. *)
Definition matches_any (ps : list string) (s : jsstring) : bool :=
  existsb (λ p, contains (js p) (Integration.toLowerCase s)) ps.

Definition word_char (c : N) : bool :=
  ((48 <=? c)%N && (c <=? 57)%N) || ((65 <=? c)%N && (c <=? 90)%N) || ((97 <=? c)%N && (c <=? 122)%N) || (c =? 95)%N.
Definition at_boundary (c : option N) : bool := match c with Some c => negb (word_char c) | None => true end.

(** [/\bw\b/] for a text [w] that begins and ends with a letter. *)
Definition contains_word (w s : jsstring) : bool :=
  found (find_at (λ before r, if at_boundary before && starts_with w r && at_boundary (head (drop (length w) r))
                              then Some tt else None) None s).

Definition auth_patterns : list string :=
  ["refresh_token_invalidated"; "token_invalidated"; "refresh token was revoked"; "refresh token revoked"; "session has ended";
   "log out and sign in again"; "log in and sign in again"; "access token could not be refreshed"; "401 unauthorized"]%string.
Definition quota_patterns : list string := ["quota"; "rate limit"; "allowance"]%string.
Definition invalid_output_patterns : list string :=
  ["final_message_missing"; "structured_output_invalid"; "output_too_large"; "provider output was invalid"]%string.
Definition timeout_message (s : jsstring) : bool :=
  contains_word (js "timeout") (Integration.toLowerCase s) || contains_word (js "timed out") (Integration.toLowerCase s).
Definition isBackendUnavailableMessage (s : jsstring) : bool :=
  matches_any ["codex_app_server_goal_blocked"; "app-server goal backend is temporarily blocked"]%string s.

(** [value.replace(/\s+/g, " ")]. *)
Fixpoint collapse (in_space : bool) (s : jsstring) : jsstring :=
  match s with
  | [] => []
  | c :: s' => if js_space c then (if in_space then collapse true s' else 32%N :: collapse true s') else c :: collapse false s'
  end.
Definition last_chars (n : nat) (s : jsstring) : jsstring := drop (length s - n) s.
Definition safeExecutionDetailTail (value : jsstring) : jsstring := last_chars 1000 (js_trim (collapse false value)).

(** ** Details *)

(** [target[key] ??= value]. *)
Definition set_missing (t : details_t) (k v : jsstring) : details_t :=
  match map_get t k with Some _ => t | None => map_set t k v end.
Definition mergeStringDetails (t : details_t) (source : option details_t) : details_t :=
  match source with
  | None => t
  | Some s => foldl (λ t '(k, v), set_missing t k (safeExecutionDetailTail v)) t s
  end.
Definition nonempty (d : details_t) : option details_t := match d with [] => None | _ => Some d end.
Definition mergeFailureDetails (left right : option details_t) : option details_t :=
  nonempty (mergeStringDetails (mergeStringDetails [] left) right).
Definition optionalFailureDetails (d : option details_t) : option details_t := d ≫= nonempty.
Definition prefixFailureDetails (prefix : jsstring) (d : option details_t) : option details_t :=
  map (λ '(k, v), (prefix ++ js "." ++ k, v)) <$> d.

Definition is_digit (c : N) : bool := (48 <=? c)%N && (c <=? 57)%N.
Fixpoint digits_of (s : jsstring) : jsstring := match s with c :: s' => if is_digit c then c :: digits_of s' else [] | [] => [] end.

Definition runner_names : list string := ["node_process_runner_failed"; "codex_json_exec_failed"; "codex_cli_exec_failed"]%string.
(** What follows the name: a colon, digits, a colon and the rest. *)
Definition exit_text (s : jsstring) : option (jsstring * jsstring) :=
  match s with
  | 58%N :: s' =>
      let ds := digits_of s' in
      match ds, drop (length ds) s' with
      | _ :: _, 58%N :: rest => Some (ds, rest)
      | _, _ => None
      end
  | _ => None
  end.
Definition process_failure (message : jsstring) : option (jsstring * jsstring) :=
  find_at (λ before r,
    if at_boundary before then
      foldr (λ n found, if starts_with (js n) r then match exit_text (drop (length (js n)) r) with Some m => Some m | None => found end
                        else found) None runner_names
    else None) None message.

Definition blank (s : jsstring) : bool := negb (truthy (js_trim s)).
Definition field_details (f : ProcessFields) : details_t :=
  match exitCode f with
  | Some (Fin q as x) => if is_integer x then [(js "exitCode", js (pretty (num_floor (Fin q))))] else []
  | _ => []
  end ++
  match stderr f with Some s => if blank s then [] else [(js "stderrTail", safeExecutionDetailTail s)] | None => [] end ++
  match stdout f with Some s => if blank s then [] else [(js "stdoutTail", safeExecutionDetailTail s)] | None => [] end.

Definition processFailureDetails (e : Thrown) (message : jsstring) : option details_t :=
  let d := field_details (fields_of e) in
  nonempty
    match process_failure message with
    | Some (code, rest) =>
        let d := set_missing d (js "exitCode") code in
        if blank rest then d else set_missing d (js "stderrTail") (safeExecutionDetailTail rest)
    | None => d
    end.

(** The details that one value of a chain adds. *)
Definition add_item (d : details_t) (e : Thrown) : details_t :=
  let d := match safe_execution_error e with
           | Some (code, ds) => mergeStringDetails (map_set d (js "safeExecutionCode") code) (Some ds)
           | None => d
           end in
  let d := match worker_error e with
           | Some (code, ds) => mergeStringDetails (set_missing d (js "subscriptionWorkerCode") code) (Some ds)
           | None => d
           end in
  mergeStringDetails d (processFailureDetails e (safeExecutionErrorMessage e)).

Definition unknownFailureDetails (chain : list Thrown) (base : option details_t) : option details_t :=
  let d := foldl add_item (mergeStringDetails [] base) chain in
  let messages := List.filter (λ m, negb (blank m)) (map safeExecutionErrorMessage chain) in
  nonempty
    match map_get d (js "rawCause"), messages with
    | None, _ :: _ => map_set d (js "rawCause") (safeExecutionDetailTail (js_join (js " <- ") messages))
    | _, _ => d
    end.

Definition failureDetailsFromUnknown (e : Thrown) : option details_t := unknownFailureDetails (errorChain e) None.

Record Metadata : Set := mkMetadata { md_workerId : option jsstring; md_accountId : option jsstring }.
Definition first_of (a b : option jsstring) : option jsstring := match a with Some _ => a | None => b end.
Definition safeExecutionAttemptMetadataFromError (e : Thrown) : Metadata :=
  foldl (λ m item,
    match worker_error item with
    | Some (_, d) => mkMetadata (first_of (md_workerId m) (map_get d (js "workerId")))
                       (first_of (md_accountId m) (map_get d (js "accountId")))
    | None => m
    end) (mkMetadata None None) (errorChain e).

(** ** Classification *)

Record Classification : Set := mkClass { reason : FailureReason; safeMessage : jsstring; retryable : bool;
  c_details : option details_t }.

Definition withFailureDetails (c : Classification) (d : option details_t) : Classification :=
  match mergeFailureDetails (c_details c) d with
  | Some merged => mkClass (reason c) (safeMessage c) (retryable c) (Some merged)
  | None => c
  end.

(** The reason of an abort signal. *)
Inductive AbortReason : Set :=
| RuntimeControl (message : jsstring) (signalId requestedBy : option jsstring)
| OtherReason.

Definition runtimeInterruptClassification (r : AbortReason) : option Classification :=
  match r with
  | OtherReason => None
  | RuntimeControl message signal by_ =>
      Some (mkClass RuntimeInterrupted message true (Some (
        (js "runtimeControl", js "interrupt_then_continue") ::
        match signal with Some s => [(js "signalId", s)] | None => [] end ++
        match by_ with Some s => [(js "requestedBy", s)] | None => [] end)))
  end.

(** The codes of failed workers. The flag says whether the details are kept. *)
Definition failure_codes : list (jsstring * (FailureReason * bool * bool)) :=
  map (λ '(k, v), (js k, v)) [
    ("quota_limited", (QuotaLimited, true, true)); ("provider_reconnect_required", (ReconnectRequired, true, true));
    ("needs_reconnect", (ReconnectRequired, true, true)); ("provider_session_invalid", (AccountUnavailable, true, true));
    ("backend_unavailable", (CapacityUnavailable, true, true)); ("permission_required", (PermissionRequired, false, true));
    ("task_cancelled", (UserAbort, false, true)); ("runtime_interrupted", (RuntimeInterrupted, true, true));
    ("goal_slice_exhausted", (GoalSliceExhausted, true, true)); ("task_timeout", (TaskTimeout, true, true));
    ("provider_output_invalid", (ProviderOutputInvalid, true, true)); ("budget_exceeded", (BudgetExceeded, false, true));
    ("checkpoint_unprotected", (CheckpointUnprotected, false, false)); ("model_unavailable", (ModelUnavailable, true, true));
    ("unknown_runtime_failure", (UnknownError, true, true))]%string.

Definition classifyWorkerFailureCode (code : option jsstring) (message : jsstring) (d : option details_t)
    : option Classification :=
  match match code with Some k => map_get failure_codes k | None => None end with
  | Some ((r, retry), keep) => Some (mkClass r message retry (if keep then optionalFailureDetails d else None))
  | None => None
  end.

(** The classification of an error of a worker, when it has one. *)
Definition classify_item (chain : list Thrown) (e : Thrown) : option Classification :=
  match worker_error e with
  | None => None
  | Some (code, d) =>
      let m := safeExecutionErrorMessage e in
      if js_eqb code (js "subscription_worker_pool_run_aborted") then Some (mkClass UserAbort m false None)
      else if js_eqb code (js "subscription_worker_pool_capacity_unavailable") then Some (mkClass CapacityUnavailable m true (Some d))
      else if js_eqb code (js "subscription_worker_account_unavailable") then Some (mkClass AccountUnavailable m true (Some d))
      else classifyWorkerFailureCode (first_of (map_get d (js "reason")) (map_get d (js "code"))) m
             (unknownFailureDetails chain (Some d))
  end.

Fixpoint first_classified (chain l : list Thrown) : option Classification :=
  match l with
  | [] => None
  | e :: l => match classify_item chain e with Some c => Some c | None => first_classified chain l end
  end.

(** [candidates.find(f)] as the conditions use it: an empty match counts as
    none. *)
Definition find_message (f : jsstring → bool) (messages : list jsstring) : option jsstring :=
  truthy_opt (List.find f messages).

Definition classify_messages (chain : list Thrown) : Classification :=
  let messages := map safeExecutionErrorMessage chain in
  let message := default [] (List.find (λ m, negb (blank m)) messages) in
  match find_message (matches_any auth_patterns) messages with
  | Some _ => mkClass AccountUnavailable (js "Provider account session is unavailable.") true None
  | None =>
      if existsb (matches_any ["abort"]%string) messages then mkClass UserAbort message false None
      else
        match find_message (matches_any quota_patterns) messages with
        | Some m => mkClass QuotaLimited m true None
        | None =>
            match find_message timeout_message messages with
            | Some m => mkClass TaskTimeout m true None
            | None =>
                let raw := unknownFailureDetails chain None in
                let field (k : string) := match raw with Some d => match map_get d (js k) with Some v => [v] | None => [] end | None => [] end in
                match find_message isBackendUnavailableMessage
                        (messages ++ field "rawCause"%string ++ field "stderrTail"%string ++ field "stdoutTail"%string) with
                | Some _ => mkClass CapacityUnavailable (js "Codex app-server goal backend is temporarily blocked.") true
                              (optionalFailureDetails raw)
                | None =>
                    match find_message (matches_any invalid_output_patterns) messages with
                    | Some m => mkClass ProviderOutputInvalid m true None
                    | None =>
                        match find_message (matches_any ["goal slice exhausted"]%string) messages with
                        | Some m => mkClass GoalSliceExhausted m true None
                        | None => mkClass UnknownError message false (optionalFailureDetails raw)
                        end
                    end
                end
            end
        end
  end.

Definition defaultSafeExecutionErrorClassifier (e : Thrown) : Classification :=
  let chain := errorChain e in default (classify_messages chain) (first_classified chain chain).

(** ** The policy *)

Definition normalizeSafeExecutionPolicy (policy : option Policy) (mode : option ContinuationMode) : NormalizedPolicy :=
  let p := default (mkPolicy None None None None None None None) policy in
  mkNormalized (default true (retryOnCapacity p)) (default true (retryOnAccountUnavailable p))
    (default true (retryOnReconnectRequired p)) (default true (retryUnknownCleanWorkspace p))
    (default false (retryUnknownChangedWorkspace p)) (Z.max 1 (default 1%Z (maxAttempts p)))
    (default (default PacketFirst (continuationMode p)) mode).

Record Continuation : Set := mkContinuation { allowed : bool; why : option jsstring }.

Definition shouldContinueSafeExecutionAfterFailure (c : Classification) (p : NormalizedPolicy) (effect : EffectMode)
    (workspaceChanged attemptsRemaining : bool) : Continuation :=
  if negb attemptsRemaining then mkContinuation false (Some (js "Safe execution has no attempts remaining."))
  else if bool_decide (np_continuationMode p = Disabled)
  then mkContinuation false (Some (js "Safe execution continuation is disabled."))
  else if bool_decide (effect = ExternalSideEffects)
  then mkContinuation false (Some (js "Safe execution will not retry external side effects."))
  else
    match reason c with
    | RuntimeInterrupted | GoalSliceExhausted => mkContinuation true None
    | QuotaLimited | CapacityUnavailable => mkContinuation (np_retryOnCapacity p) None
    | AccountUnavailable | ModelUnavailable => mkContinuation (np_retryOnAccountUnavailable p) None
    | ReconnectRequired => mkContinuation (np_retryOnReconnectRequired p) None
    | UnknownError =>
        if workspaceChanged then
          mkContinuation (np_retryUnknownChangedWorkspace p)
            (if np_retryUnknownChangedWorkspace p then None
             else Some (js "Safe execution stopped after an unknown error changed the workspace."))
        else mkContinuation (np_retryUnknownCleanWorkspace p) None
    | TaskTimeout | ProviderOutputInvalid =>
        if workspaceChanged then
          mkContinuation false
            (Some (js "Safe execution stopped after " ++ reason_name (reason c) ++ js " changed the workspace."))
        else mkContinuation true None
    | PermissionRequired | BudgetExceeded | CheckpointUnprotected | UserAbort => mkContinuation false None
    end.

Inductive StopStatus : Set := WaitingCapacity | Partial | Failed | Aborted.

Definition safeExecutionFinalStatusForFailure (r : FailureReason) : StopStatus :=
  match r with
  | UserAbort => Aborted
  | UnknownError | PermissionRequired | ModelUnavailable | ProviderOutputInvalid | BudgetExceeded | CheckpointUnprotected => Failed
  | _ => Partial
  end.

Definition safeExecutionWaitingStatusForFailure (r : option FailureReason) : option StopStatus :=
  match r with
  | Some (QuotaLimited | CapacityUnavailable | AccountUnavailable | ReconnectRequired) => Some WaitingCapacity
  | _ => None
  end.

Definition safeExecutionWaitingStatusForBlockedFailure (r : FailureReason) (workspaceChanged : bool) : option StopStatus :=
  if workspaceChanged then None else safeExecutionWaitingStatusForFailure (Some r).

Definition shouldDeliverSafeExecutionControlForContinuation (r : FailureReason) : bool :=
  negb (bool_decide (r = ModelUnavailable)) && negb (bool_decide (r = ReconnectRequired)).

(** ** Locks *)

Definition shouldReplaceSafeExecutionWorkspaceLock (acquiredAt now : date) (staleLockMs : option num) (ownerPid : option num)
    (ownerProcessAlive : option bool) : bool :=
  let gone := match ownerProcessAlive with Some false => true | _ => false end in
  if found ownerPid && gone then true
  else
    match staleLockMs with
    | None => false
    | Some stale =>
        if num_ltb (num_add (getTime now) (num_mul (num_of_Z (-1)) (getTime acquiredAt))) stale then false
        else match ownerPid with None => false | Some _ => gone end
    end.

(** ** What the classifier answers *)

Definition worker_failure (code : string) (d : details_t) (cause : Thrown) : Thrown :=
  ErrorObject (WorkerError (js code) d) (js "worker failed") no_fields cause.
Definition plain_error (m : string) : Thrown := ErrorObject OtherError (js m) no_fields undefined.

Example classified :
  map (λ e, reason (defaultSafeExecutionErrorClassifier e)) [
    worker_failure "subscription_worker_pool_run_aborted" [] undefined;
    worker_failure "x" [(js "code", js "task_timeout")] undefined;
    ErrorObject OtherError (js "outer") no_fields (worker_failure "x" [(js "reason", js "quota_limited")] undefined);
    plain_error "the request Timed Out"; plain_error "timeouts"; plain_error "Rate Limit"; plain_error "please log in and sign in again";
    plain_error "Aborted"; plain_error "structured_output_invalid"; plain_error "goal slice exhausted"; undefined]
  = [UserAbort; TaskTimeout; QuotaLimited; TaskTimeout; UnknownError; QuotaLimited; AccountUnavailable; UserAbort;
     ProviderOutputInvalid; GoalSliceExhausted; UnknownError].
Proof. by vm_compute. Qed.

Example raw_details :
  failureDetailsFromUnknown (plain_error "run: codex_json_exec_failed:12:  no
  such file") = Some [(js "exitCode", js "12"); (js "stderrTail", js "no such file");
                      (js "rawCause", js "run: codex_json_exec_failed:12: no such file")].
Proof. by vm_compute. Qed.

(** ** Properties of the policy *)

(** Stale locks. A lock is replaced exactly when its owner is known and
    known to be gone: the age from which a lock counts as stale, and the time,
    have no influence. *)
Theorem stale_age_ignored acquiredAt now stale pid alive :
  shouldReplaceSafeExecutionWorkspaceLock acquiredAt now stale pid alive =
  found pid && match alive with Some false => true | _ => false end.
Proof.
  unfold shouldReplaceSafeExecutionWorkspaceLock. destruct (found pid && _) eqn:E; [done|].
  destruct stale; [|done]. destruct (num_ltb _ _); [done|]. by destruct pid.
Qed.

Lemma replaced_gone acquiredAt now stale pid alive :
  shouldReplaceSafeExecutionWorkspaceLock acquiredAt now stale pid alive = true → pid ≠ None ∧ alive = Some false.
Proof.
  unfold shouldReplaceSafeExecutionWorkspaceLock. destruct pid; simpl; [|by destruct stale; [destruct (num_ltb _ _)|]].
  destruct alive as [[]|]; simpl; try done; destruct stale; try done; by destruct (num_ltb _ _).
Qed.

(** Another attempt follows a failure only within the limit, with continuations
    enabled, without side effects outside, and never after an abort, a missing
    permission, an exceeded budget or an unprotected checkpoint; after a failure
    that may have changed the workspace only if it did not, or if the policy
    says so. *)
Lemma continue_allowed c p effect changed remaining :
  allowed (shouldContinueSafeExecutionAfterFailure c p effect changed remaining) = true →
  remaining = true ∧ np_continuationMode p ≠ Disabled ∧ effect ≠ ExternalSideEffects ∧
  (reason c ∉ [PermissionRequired; BudgetExceeded; CheckpointUnprotected; UserAbort]) ∧
  (changed = true → (reason c ∉ [TaskTimeout; ProviderOutputInvalid]) ∧
     (reason c = UnknownError → np_retryUnknownChangedWorkspace p = true)).
Proof.
  unfold shouldContinueSafeExecutionAfterFailure. destruct remaining; [|done]. simpl.
  destruct (bool_decide (_ = Disabled)) eqn:?; [done|]. destruct (bool_decide (effect = _)) eqn:?; [done|]. bools.
  intros H. split_and!; try done.
  - destruct (reason c); try done; set_solver.
  - intros ->. split; [destruct (reason c); try done; set_solver|]. intros Hr. by rewrite Hr in H.
Qed.

(** Details are merged from the left: what is there is kept. *)
Lemma set_missing_keeps t k v x w : map_get t x = Some w → map_get (set_missing t k v) x = Some w.
Proof.
  intros Hx. unfold set_missing. destruct (map_get t k) eqn:E; [done|].
  rewrite map_get_set_ne; [done|]. intros ->. congruence.
Qed.

Lemma mergeStringDetails_keeps t s x w : map_get t x = Some w → map_get (mergeStringDetails t s) x = Some w.
Proof.
  destruct s as [s|]; [|done]. simpl. revert t. induction s as [|[k v] s IH]; intros t Hx; simpl; [done|].
  by apply IH, set_missing_keeps.
Qed.

End SafePolicy.
