(* ===== verification/SafeTask.v ===== *)
(** * Safe execution: records, journal and locks

    [src/worker-core/safe-execution]: the records of tasks and attempts
    ([domain/safe-execution-task.ts]), how they are computed
    ([application/safe-execution-attempt-records.ts]), the continuation packet
    ([application/default-continuation-packet-builder.ts]) and the in-memory
    journal and lock store ([adapters]).

    Line counts of diffs are integers; SHA-256 and [localeCompare] are
    parameters; an object key that is present with the value [undefined] is an
    absent key. *)

From stdpp Require Import base numbers option sets strings pretty list.
From S2P Require Import Prelude Json IsoDate WorkerInbox Programs WorkerControl SafePolicy.

Module SafeTask.
Import SafePolicy.

(** ** Records *)

Inductive AttemptStatus : Set := AttemptRunning | AttemptCompleted | AttemptBlocked | AttemptFailed.
Inductive TaskStatus : Set := TaskRunning | TaskCompleted | TaskStopped (s : StopStatus).
Inductive SnapshotMode : Set := GitMode | FilesystemMode | UnavailableMode.

#[global] Instance StopStatus_eq_dec : EqDecision StopStatus.
Proof. solve_decision. Defined.
#[global] Instance TaskStatus_eq_dec : EqDecision TaskStatus.
Proof. solve_decision. Defined.

Record DiffFileStat : Set := mkDiffStat { df_path : jsstring; df_additions : Z; df_deletions : Z; binary : option bool }.
Record Snapshot : Set := mkSnapshot {
  sn_mode : SnapshotMode; sn_workspacePath : jsstring; capturedAt : date; dirty : bool; sn_changedFiles : list jsstring;
  diffNumstat : option (list DiffFileStat); fingerprint : jsstring; summary : jsstring; diffStat : option jsstring;
  warnings : option (list jsstring) }.
Record Usage : Set := mkUsage { inputTokens : option num; outputTokens : option num; totalTokens : option num;
  cachedInputTokens : option num; cacheWriteInputTokens : option num; reasoningOutputTokens : option num }.
Inductive PatchSource : Set := NumstatDelta | NumstatDeltaDirtyBaseline.
Record PatchStats : Set := mkPatch { additions : Z; deletions : Z; p_source : PatchSource }.

(** [usageSource] is there exactly when [usage] is. *)
Record Attempt : Set := mkAttempt {
  at_taskId : jsstring; attemptNumber : Z; at_workerId : option jsstring; at_accountId : option jsstring;
  at_provider : jsstring; at_startedAt : date; finishedAt : date; at_status : AttemptStatus;
  failureReason : option FailureReason; failureMessage : option jsstring; failureDetails : option details_t;
  dirtyBefore : bool; dirtyAfter : bool; changedFiles : list jsstring; usage : option Usage; patch : option PatchStats;
  lastOutputSummary : option jsstring }.

Record Packet : Set := mkPacket {
  pk_taskId : jsstring; pk_attemptNumber : Z; pk_provider : jsstring; pk_workspacePath : jsstring;
  pk_originalPrompt : jsstring; pk_reason : FailureReason; pk_changedFiles : list jsstring; workspaceSummary : jsstring;
  pk_outputSummary : option jsstring; signalIds : option (list jsstring); message : jsstring }.

(** ** Records of attempts *)

Section records.
Context (localeCompare : jsstring → jsstring → comparison) (sha256_hex : jsstring → jsstring).

Definition hashText (s : jsstring) : jsstring := sha256_hex s.
Definition workspaceRunId (path : jsstring) : jsstring := js "workspace:" ++ take 24 (hashText path).

Definition changedFilesDelta (before after : list jsstring) : list jsstring :=
  sort_by (Inbox.not_after localeCompare) (List.filter (λ f, negb (existsb (js_eqb f) before)) after).

Fixpoint diffNumstatByPath (stats : list DiffFileStat) (m : list (jsstring * DiffFileStat)) : list (jsstring * DiffFileStat) :=
  match stats with [] => m | s :: stats => diffNumstatByPath stats (map_set m (df_path s) s) end.

Definition add_stat (before : list (jsstring * DiffFileStat)) (acc : Z * Z) (next : DiffFileStat) : Z * Z :=
  match binary next with
  | Some true => acc
  | _ =>
      let previous := map_get before (df_path next) in
      ((acc.1 + Z.max 0 (df_additions next - default 0 (df_additions <$> previous)))%Z,
       (acc.2 + Z.max 0 (df_deletions next - default 0 (df_deletions <$> previous)))%Z)
  end.

Definition patchStatsBetween (before after : Snapshot) : option PatchStats :=
  match diffNumstat before, diffNumstat after with
  | Some b, Some a =>
      let '(adds, dels) := foldl (add_stat (diffNumstatByPath b [])) (0, 0)%Z a in
      if (adds =? 0)%Z && (dels =? 0)%Z then None
      else Some (mkPatch adds dels (if dirty before then NumstatDeltaDirtyBaseline else NumstatDelta))
  | _, _ => None
  end.

Definition completeAttemptRecord (taskId provider : jsstring) (n : Z) (started finished : date) (before after : Snapshot)
    (m : option Metadata) (u : option Usage) (outputSummary : option jsstring) : Attempt :=
  mkAttempt taskId n (m ≫= md_workerId) (m ≫= md_accountId) provider started finished AttemptCompleted None None None
    (dirty before) (dirty after) (changedFilesDelta (sn_changedFiles before) (sn_changedFiles after)) u
    (patchStatsBetween before after) outputSummary.

Definition failedAttemptRecord (taskId provider : jsstring) (n : Z) (started finished : date) (before after : Snapshot)
    (c : Classification) (msg : jsstring) (m : Metadata) (u : option Usage) : Attempt :=
  mkAttempt taskId n (md_workerId m) (md_accountId m) provider started finished
    (if retryable c then AttemptBlocked else AttemptFailed) (Some (reason c)) (Some msg) (c_details c)
    (dirty before) (dirty after) (changedFilesDelta (sn_changedFiles before) (sn_changedFiles after)) u
    (patchStatsBetween before after) None.

Definition workspaceChanged (before after : Snapshot) : bool :=
  negb (js_eqb (fingerprint before) (fingerprint after)) || dirty after.

Definition mode_name (m : SnapshotMode) : jsstring :=
  js (match m with GitMode => "git" | FilesystemMode => "filesystem" | UnavailableMode => "unavailable" end)%string.

Definition interruptedWorkspaceDetails (s : Snapshot) : details_t :=
  [(js "workspaceMode", mode_name (sn_mode s));
   (js "changedFileCount", js (pretty (Z.of_nat (length (sn_changedFiles s)))));
   (js "changedFiles", js_join (js ",") (take 20 (sn_changedFiles s)))].

(** [now] is the time of the system, not of the clock of the runner. *)
Definition unavailableWorkspaceSnapshot (path : jsstring) (e : Thrown) (now : Z) : Snapshot :=
  let m := safeExecutionErrorMessage e in
  mkSnapshot UnavailableMode path (At now) true [] None
    (js "unavailable:" ++ hashText (path ++ js ":" ++ IsoDate.toISOString now ++ js ":" ++ m))
    (js "Workspace snapshot unavailable: " ++ safeExecutionDetailTail (if truthy m then m else js "unknown error")) None
    (Some [js "workspace_snapshot_unavailable"]).

(** What is captured when no snapshotter is configured. *)
Definition defaultSnapshot (path : jsstring) (now : Z) : Snapshot :=
  mkSnapshot UnavailableMode path (At now) false [] None
    (js "unconfigured:" ++ path ++ js ":" ++ IsoDate.toISOString now) (js "Workspace snapshotter was not configured.") None
    (Some [js "workspace_snapshotter_unconfigured"]).
End records.

(** ** Continuation packets *)

(** [split(/\r\n|\r|\n/)]. *)
Fixpoint split_lines (line : jsstring) (s : jsstring) : list jsstring :=
  match s with
  | [] => [line]
  | 13%N :: s' => line :: match s' with 10%N :: s'' => split_lines [] s'' | _ => split_lines [] s' end
  | 10%N :: s' => line :: split_lines [] s'
  | c :: s' => split_lines (line ++ [c]) s'
  end.

Definition omission_marker : jsstring := js "[diff stat truncated: additional content omitted]".
Definition newline : jsstring := [10%N].

(** The lines that fit: each with the separator before it. *)
Fixpoint rendered_lines (limit : Z) (first : bool) (used : Z) (lines : list jsstring) : list jsstring :=
  match lines with
  | [] => []
  | line :: lines =>
      let used' := (used + (if first then 0 else 1) + Z.of_nat (length line))%Z in
      if (limit <? used')%Z then (if first then [take (Z.to_nat limit) line] else [])
      else line :: rendered_lines limit false used' lines
  end.

Definition js_length (s : jsstring) : Z := Z.of_nat (length s).
Definition max_characters : Z := 8000.

Definition renderBoundedDiffStat (s : jsstring) : jsstring :=
  let lines := split_lines [] s in
  if (js_length s <=? max_characters)%Z && (length lines <=? 100)%nat then s
  else js_join newline (rendered_lines (max_characters - js_length omission_marker - 1) true 0 (take 99 lines) ++ [omission_marker]).

Definition titled (title : string) (text : option jsstring) : jsstring :=
  match truthy_opt text with Some t => trim_end (newline ++ js title ++ newline ++ t ++ newline) | None => [] end.

Definition build (taskId : jsstring) (n : Z) (provider path prompt : jsstring) (r : FailureReason) (s : Snapshot)
    (outputSummary : option jsstring) (batch : option Control.Batch) : Packet :=
  let files := sn_changedFiles s in
  let filesText := match files with
                   | [] => js "No changed files were detected."
                   | _ => js_join newline (map (λ f, js "- " ++ f) (take 80 files))
                   end in
  let text := js_join newline (List.filter truthy [
    js "Continue the same task in the current workspace."; [];
    js "Task id: " ++ taskId; js "Attempt: " ++ js (pretty n); js "Provider: " ++ provider; js "Workspace: " ++ path;
    js "Previous attempt stopped because: " ++ reason_name r; [];
    js "Original task:"; prompt; titled "Previous output summary:" outputSummary; [];
    js "Current workspace summary:"; summary s; titled "Diff stat:" (renderBoundedDiffStat <$> truthy_opt (diffStat s));
    match truthy_opt (batch ≫= Control.b_message) with Some m => trim_end (newline ++ m ++ newline) | None => [] end; [];
    js "Changed files:"; filesText; [];
    js "Important instruction:";
    js "Do not restart from scratch. Inspect the current workspace state and continue from the existing partial changes."]) in
  mkPacket taskId n provider path prompt r files (summary s) outputSummary
    (match batch with Some b => match Control.b_signalIds b with [] => None | ids => Some ids end | None => None end) text.

(** A diff stat is rendered within its bounds. *)
Definition separator (l : list jsstring) : Z := match l with [] => 0 | _ => 1 end.

Lemma js_join_snoc_length l x : js_length (js_join newline (l ++ [x])) = (js_length (js_join newline l) + separator l + js_length x)%Z.
Proof.
  unfold js_length. induction l as [|y l IH]; [done|]. destruct l as [|z l]; simpl in *; [rewrite !length_app; simpl; lia|].
  rewrite !length_app in *. simpl in *. rewrite ?length_app in *. lia.
Qed.

Lemma js_join_cons_length y l : js_length (js_join newline (y :: l)) = (js_length y + separator l + js_length (js_join newline l))%Z.
Proof. unfold js_length. destruct l as [|z l]; simpl; [lia|]. rewrite !length_app. simpl. rewrite ?length_app. lia. Qed.

Lemma rendered_lines_bound limit (first : bool) used lines : (0 <= used <= limit)%Z → (first = true → used = 0%Z) →
  (used + (if first then 0 else separator (rendered_lines limit first used lines)) +
   js_length (js_join newline (rendered_lines limit first used lines)) <= limit)%Z.
Proof.
  revert first used. induction lines as [|line lines IH]; intros first used Hu Hf; simpl; [unfold js_length; destruct first; simpl; lia|].
  destruct (Z.ltb_spec limit (used + (if first then 0 else 1) + Z.of_nat (length line))).
  - destruct first; unfold js_length; simpl; [specialize (Hf eq_refl); rewrite length_take|]; lia.
  - specialize (IH false (used + (if first then 0 else 1) + Z.of_nat (length line))%Z). rewrite js_join_cons_length.
    unfold js_length in *. destruct first; simpl in *; (lia || (specialize (Hf eq_refl); lia)).
Qed.

Lemma diff_stat_bounded s : (js_length (renderBoundedDiffStat s) <= max_characters)%Z.
Proof.
  unfold renderBoundedDiffStat. destruct (_ && _) eqn:E; [bools; lia|]. rewrite js_join_snoc_length.
  assert (js_length omission_marker = 49)%Z as Hm by done. unfold max_characters in *.
  pose proof (rendered_lines_bound (8000 - js_length omission_marker - 1) true 0 (take 99 (split_lines [] s)) ltac:(lia) ltac:(done)) as H.
  cbv iota in H. unfold separator. destruct (rendered_lines _ _ _ _); lia.
Qed.

(** ** The journal in memory *)

Section journal.
Context {Result : Type}.

(** [executionGeneration] is not written here. *)
Record Task : Type := mkTask {
  t_taskId : jsstring; t_runId : jsstring; t_workspacePath : jsstring; t_effectMode : EffectMode; t_provider : jsstring;
  t_status : TaskStatus; t_startedAt : date; updatedAt : date; attempts : list Attempt; completedAt : option date;
  t_result : option Result; outputSummary : option jsstring; lastFailureReason : option FailureReason;
  lastFailureMessage : option jsstring; lastFailureDetails : option details_t }.

Record StartInput : Type := mkStart { st_taskId : jsstring; st_runId : jsstring; st_workspacePath : jsstring;
  st_effectMode : EffectMode; st_provider : jsstring; st_now : date; resumeCompleted : bool }.
Record MarkInput : Type := mkMark { mk_taskId : jsstring; mk_status : StopStatus; mk_reason : FailureReason;
  mk_message : option jsstring; mk_details : option details_t; mk_now : date }.

Abbreviation journal := (list (jsstring * Task)).

Definition requireTaskRecord (t : option Task) (id : jsstring) : result Thrown Task :=
  match t with
  | Some t => Ok t
  | None => Throw (safe_error "safe_execution_invalid_task" "Safe execution task record is missing." [(js "taskId", id)])
  end.

Definition readTask (j : journal) (id : jsstring) : option Task := map_get j id.

Definition store (j : journal) (id : jsstring) (t : Task) : journal * result Thrown Task := (map_set j id t, Ok t).

Definition startTask (j : journal) (i : StartInput) : journal * result Thrown Task :=
  match map_get j (st_taskId i) with
  | Some e =>
      let completed := bool_decide (t_status e = TaskCompleted) in
      let resume := completed && resumeCompleted i in
      store j (st_taskId i)
        (mkTask (t_taskId e) (t_runId e) (t_workspacePath e) (t_effectMode e) (t_provider e)
          (if completed && negb resume then t_status e else TaskRunning) (t_startedAt e) (st_now i) (attempts e)
          (if resume then None else completedAt e) (if resume then None else t_result e) (outputSummary e)
          (if resume then None else lastFailureReason e) (if resume then None else lastFailureMessage e)
          (if resume then None else lastFailureDetails e))
  | None =>
      store j (st_taskId i)
        (mkTask (st_taskId i) (st_runId i) (st_workspacePath i) (st_effectMode i) (st_provider i) TaskRunning (st_now i)
          (st_now i) [] None None None None None None)
  end.

Definition or_else {A} (a b : option A) : option A := match a with Some _ => a | None => b end.

Definition appendAttempt (j : journal) (id : jsstring) (a : Attempt) (now : date) : journal * result Thrown Task :=
  match requireTaskRecord (map_get j id) id with
  | Throw e => (j, Throw e)
  | Ok r =>
      store j id
        (mkTask (t_taskId r) (t_runId r) (t_workspacePath r) (t_effectMode r) (t_provider r) TaskRunning (t_startedAt r) now
          (attempts r ++ [a]) (completedAt r) (t_result r) (outputSummary r)
          (or_else (failureReason a) (lastFailureReason r))
          (match failureReason a with Some _ => failureMessage a | None => lastFailureMessage r end)
          (match failureReason a with Some _ => or_else (failureDetails a) (lastFailureDetails r) | None => lastFailureDetails r end))
  end.

Definition completeTask (j : journal) (id : jsstring) (v : Result) (out : option jsstring) (now : date)
    : journal * result Thrown Task :=
  match requireTaskRecord (map_get j id) id with
  | Throw e => (j, Throw e)
  | Ok r =>
      store j id
        (mkTask (t_taskId r) (t_runId r) (t_workspacePath r) (t_effectMode r) (t_provider r) TaskCompleted (t_startedAt r) now
          (attempts r) (Some now) (Some v) (or_else out (outputSummary r)) (lastFailureReason r) (lastFailureMessage r)
          (lastFailureDetails r))
  end.

Definition markPartial (j : journal) (m : MarkInput) : journal * result Thrown Task :=
  match requireTaskRecord (map_get j (mk_taskId m)) (mk_taskId m) with
  | Throw e => (j, Throw e)
  | Ok r =>
      store j (mk_taskId m)
        (mkTask (t_taskId r) (t_runId r) (t_workspacePath r) (t_effectMode r) (t_provider r) (TaskStopped (mk_status m))
          (t_startedAt r) (mk_now m) (attempts r) (completedAt r) (t_result r) (outputSummary r) (Some (mk_reason m))
          (or_else (mk_message m) (lastFailureMessage r)) (or_else (mk_details m) (lastFailureDetails r)))
  end.

(** ** What happens to a task in the journal *)

Inductive JournalCall : Type :=
| Starting (i : StartInput) | Appending (id : jsstring) (a : Attempt) (now : date)
| Completing (id : jsstring) (v : Result) (out : option jsstring) (now : date) | Marking (m : MarkInput).
Definition journal_call (j : journal) (c : JournalCall) : journal :=
  match c with
  | Starting i => (startTask j i).1
  | Appending id a now => (appendAttempt j id a now).1
  | Completing id v out now => (completeTask j id v out now).1
  | Marking m => (markPartial j m).1
  end.
Definition appended_to (id : jsstring) (c : JournalCall) : option Attempt :=
  match c with Appending id' a _ => if decide (id' = id) then Some a else None | _ => None end.

(** What no call changes. *)
Definition same_task (t t' : Task) : Prop :=
  t_taskId t' = t_taskId t ∧ t_runId t' = t_runId t ∧ t_workspacePath t' = t_workspacePath t ∧ t_effectMode t' = t_effectMode t ∧
  t_provider t' = t_provider t ∧ t_startedAt t' = t_startedAt t.

Lemma journal_call_kept j c id t : map_get j id = Some t →
  ∃ t', map_get (journal_call j c) id = Some t' ∧ same_task t t' ∧ attempts t' = attempts t ++ option_list (appended_to id c).
Proof.
  intros Ht.
  assert (∃ t', map_get j id = Some t' ∧ same_task t t' ∧ attempts t' = attempts t ++ []) as Hsame
    by (exists t; by rewrite app_nil_r).
  assert (∀ k t', k ≠ id → map_get (map_set j k t') id = Some t) as Hne by (intros; by rewrite map_get_set_ne).
  destruct c as [st|k a now|k v out now|m]; simpl.
  - unfold startTask. destruct (decide (st_taskId st = id)) as [->|].
    + rewrite Ht. simpl. rewrite map_get_set_eq. eexists. split; [done|]. by rewrite app_nil_r.
    + destruct (map_get j (st_taskId st)); simpl; rewrite Hne by done; exists t; by rewrite app_nil_r.
  - unfold appendAttempt, requireTaskRecord. destruct (decide (k = id)) as [->|].
    + rewrite Ht. simpl. rewrite map_get_set_eq. by eexists.
    + destruct (map_get j k); simpl; [|done]. rewrite Hne by done. exists t. by rewrite app_nil_r.
  - unfold completeTask, requireTaskRecord. destruct (decide (k = id)) as [->|].
    + rewrite Ht. simpl. rewrite map_get_set_eq. eexists. split; [done|]. by rewrite app_nil_r.
    + destruct (map_get j k); simpl; [|done]. rewrite Hne by done. exists t. by rewrite app_nil_r.
  - unfold markPartial, requireTaskRecord. destruct (decide (mk_taskId m = id)) as [->|].
    + rewrite Ht. simpl. rewrite map_get_set_eq. eexists. split; [done|]. by rewrite app_nil_r.
    + destruct (map_get j (mk_taskId m)); simpl; [|done]. rewrite Hne by done. exists t. by rewrite app_nil_r.
Qed.

(** C33: The journal only grows. After any calls of the journal in memory a task
    that it had is still there, with the identity, the workspace, the effect mode
    and the start it had; its attempts are those it had followed by those that
    were appended to it, in order. *)
Theorem journal_append_only j cs id t : map_get j id = Some t →
  ∃ t', map_get (foldl journal_call j cs) id = Some t' ∧ same_task t t' ∧
    attempts t' = attempts t ++ omap (appended_to id) cs.
Proof.
  revert j t. induction cs as [|c cs IH]; intros j t Ht; simpl; [exists t; by rewrite app_nil_r|].
  destruct (journal_call_kept j c id t Ht) as (t1 & H1 & S1 & A1). destruct (IH _ t1 H1) as (t2 & H2 & S2 & A2).
  exists t2. split; [done|]. split; [unfold same_task in *; naive_solver congruence|]. rewrite A2, A1, <-app_assoc.
  by destruct (appended_to id c).
Qed.
End journal.
Arguments Task : clear implicits.

Definition journal_demo : list (jsstring * Task jsstring) :=
  (startTask [] (mkStart (js "t") (js "run") (js "/repo") WorkspacePatch (js "codex") (At 1) false)).1.
Definition attempt_demo (n : Z) : Attempt :=
  mkAttempt (js "t") n None None (js "codex") (At 2) (At 3) AttemptFailed (Some TaskTimeout) None None false false [] None None None.
Definition calls_demo : list (JournalCall (Result:=jsstring)) :=
  [Appending (js "t") (attempt_demo 1) (At 4); Marking (mkMark (js "t") Partial TaskTimeout None None (At 5));
   Appending (js "u") (attempt_demo 7) (At 6); Appending (js "t") (attempt_demo 2) (At 7); Completing (js "t") (js "ok") None (At 8)].

Lemma journal_append_only_witness : ∃ t', map_get (foldl journal_call journal_demo calls_demo) (js "t") = Some t' ∧
  map attemptNumber (attempts t') = [1; 2]%Z.
Proof.
  assert (∃ t, map_get journal_demo (js "t") = Some t ∧ attempts t = []) as (t & Ht & Ha) by (vm_compute; by eexists).
  destruct (journal_append_only journal_demo calls_demo (js "t") t Ht) as (t' & H & _ & A). exists t'. split; [done|].
  rewrite A, Ha. by vm_compute.
Defined.

(** ** The lock store in memory *)

Record LockRecord : Set := mkLock { lk_taskId : jsstring; lk_workspacePath : jsstring; lk_ownerId : jsstring;
  lk_ownerPid : option num; acquiredAt : date; lk_staleLockMs : option num }.
Record LockInput : Set := mkLockInput { li_taskId : jsstring; li_workspacePath : jsstring; li_ownerId : jsstring;
  li_ownerPid : option num; li_staleLockMs : option num; li_now : date }.
Abbreviation locks := (list (jsstring * LockRecord)).

Section locks.
(** [probe pid]: sending signal 0 does not fail because there is no process. *)
Context (sha256_hex : jsstring → jsstring) (probe : Z → bool).

Definition workspaceLockKey (path : jsstring) : jsstring := hashText sha256_hex path.

Definition isProcessAlive (pid : num) : bool :=
  if negb (is_integer pid) || num_leb pid (num_of_Z 0) then false else probe (num_floor pid).

Definition canReplaceLock (r : LockRecord) (now : date) : bool :=
  shouldReplaceSafeExecutionWorkspaceLock (acquiredAt r) now (lk_staleLockMs r) (lk_ownerPid r) (isProcessAlive <$> lk_ownerPid r).

(** [toISOString] throws on an invalid date. *)
Definition workspaceLockedError (r : LockRecord) : Thrown :=
  match acquiredAt r with
  | InvalidDate => ErrorObject OtherError (js "Invalid time value") no_fields undefined
  | At ms =>
      safe_error "safe_execution_workspace_locked" "Workspace is already locked by another safe execution task."
        ([(js "taskId", lk_taskId r); (js "workspacePath", lk_workspacePath r); (js "ownerId", lk_ownerId r)] ++
         match lk_ownerPid r with
         | Some (Fin _ as p) => [(js "ownerPid", js (pretty (num_floor p)))]
         | Some NaN => [(js "ownerPid", js "NaN")]
         | Some PInf => [(js "ownerPid", js "Infinity")]
         | Some NInf => [(js "ownerPid", js "-Infinity")]
         | None => []
         end ++ [(js "acquiredAt", IsoDate.toISOString ms)])
  end.

(** [===] on numbers and on times. *)
Definition num_same (a b : num) : bool := num_leb a b && num_leb b a.
Definition opt_same (a b : option num) : bool :=
  match a, b with Some a, Some b => num_same a b | None, None => true | _, _ => false end.
Definition time_same (a b : date) : bool := match a, b with At a, At b => (a =? b)%Z | _, _ => false end.

Definition sameWorkspaceLock (a b : LockRecord) : bool :=
  js_eqb (lk_taskId a) (lk_taskId b) && js_eqb (lk_workspacePath a) (lk_workspacePath b) &&
  js_eqb (lk_ownerId a) (lk_ownerId b) && opt_same (lk_ownerPid a) (lk_ownerPid b) &&
  time_same (acquiredAt a) (acquiredAt b) && opt_same (lk_staleLockMs a) (lk_staleLockMs b).

Definition acquire (s : locks) (i : LockInput) : locks * result Thrown LockRecord :=
  let key := workspaceLockKey (li_workspacePath i) in
  let grant := let r := mkLock (li_taskId i) (li_workspacePath i) (li_ownerId i) (li_ownerPid i) (li_now i) (li_staleLockMs i) in
               (map_set s key r, Ok r) in
  match map_get s key with
  | Some e => if negb (canReplaceLock e (li_now i)) then (s, Throw (workspaceLockedError e)) else grant
  | None => grant
  end.

Definition release (s : locks) (r : LockRecord) : locks :=
  let key := workspaceLockKey (lk_workspacePath r) in
  match map_get s key with
  | Some current => if sameWorkspaceLock current r then map_delete s key else s
  | None => s
  end.
End locks.

End SafeTask.
