(* ===== verification/SafeRunner.v ===== *)
(** * Safe execution: the runner

    [src/worker-core/safe-execution/application/safe-execution-runner.ts] and
    [continuation-job.ts]: a task runs in a locked workspace, attempt after
    attempt, with the guidance of operators delivered to its continuations.

    The variables that [catch] and [finally] read, the deliveries of guidance and
    the summary of the last output, are the state of the program. [return p] of a
    promise [p] inside [try] lets [finally] run before [p] settles: the body
    returns the program that goes on after [finally]. Callbacks of the input may
    throw. [Promise.all] makes its calls in the order of its list and waits for
    all of them. *)

From stdpp Require Import base numbers option sets strings pretty list.
From S2P Require Import Prelude Json WorkerInbox Programs WorkerControl StatePrograms SafePolicy SafeTask.

Module SafeRunner.
Import SafePolicy SafeTask.

Section runner.
Context {Job Result : Type}.
Context (localeCompare : jsstring → jsstring → comparison) (sha256_hex : jsstring → jsstring).
(** [{...job, prompt}] for a job that is an object with a string as prompt. *)
Context (with_prompt : Job → jsstring → option Job).

(** ** Input *)

(** The prompt that a controlled job replaces, or the context of its task. *)
Inductive ControlResult : Type := WithPrompt (job : Job) (prompt : jsstring) | Replacing (job : Job) (prompt : jsstring).
Definition controlled_job (c : ControlResult) : Job := match c with WithPrompt j _ | Replacing j _ => j end.
Definition controlled_prompt (c : ControlResult) : jsstring := match c with WithPrompt _ p | Replacing _ p => p end.

Record RunInput : Type := mkRunInput {
  ri_taskId : jsstring; ri_path : jsstring; ri_staleLockMs : option num; requireGitWorkspace : bool;
  ri_effectMode : EffectMode; ri_provider : jsstring; ri_job : Job; originalPrompt : jsstring;
  ri_continuationMode : option ContinuationMode; ri_policy : option Policy;
  continuationJobFactory : option (Job → Packet → Z → result Thrown Job);
  controlContinuationJobFactory :
    option (Job → jsstring → Control.Batch → Z → option FailureReason → option details_t → result Thrown ControlResult);
  attemptMetadata : option (option Result → option Thrown → result Thrown Metadata);
  classifyError : option (Thrown → result Thrown Classification);
  summarizeResult : option (Result → result Thrown (option jsstring));
  attemptUsage : option (Result → result Thrown (option Usage));
  attemptUsageFromError : option (Thrown → result Thrown (option Usage));
  summarizeError : option (Thrown → result Thrown (option jsstring));
  summarizeErrorOutput : option (Thrown → result Thrown (option jsstring));
  controlTarget : option Inbox.Target; has_abortSignal : bool }.

Inductive RunResult : Type :=
| Completed (task : Task Result) (v : option Result) (l : list Attempt) (replayed : bool)
| Stopped (status : StopStatus) (task : Task Result) (l : list Attempt) (r : FailureReason) (msg : jsstring)
    (d : option details_t) (e : option Thrown).

(** Which optional ports there are. *)
Record Options : Set := mkOptions {
  has_controlInbox : bool; supportsDeferredControlDelivery : bool; has_registry : bool; ownerId : jsstring;
  ownerPid : option num }.

(** ** Ports *)

Record ActiveAttempt : Set := mkActive { aa_taskId : jsstring; aa_attemptNumber : Z; aa_provider : jsstring;
  aa_workspacePath : jsstring; aa_target : Inbox.Target; aa_startedAt : date }.

(** The worker pool tells that the provider has the task, or is done. *)
Inductive PoolReply : Type := ProviderStarted | Finished (v : Result).

(** A mark that is started without waiting for it is settled later. *)
Inductive call : Type :=
| CanonicalizePath (path : jsstring) | AssertGitWorkspace (path : jsstring) | Capture (path : jsstring) (includeDiff : bool)
| ReadTask (id : jsstring) | StartTask (i : StartInput) | AppendAttempt (id : jsstring) (a : Attempt) (now : date)
| CompleteTask (id : jsstring) (v : Result) (out : option jsstring) (now : date) | MarkPartial (m : MarkInput)
| StartMark (m : MarkInput) | SettleMark (m : MarkInput)
| AcquireLock (i : LockInput) | ReleaseLock (l : LockRecord)
| ClockNow | SystemNow | IsAborted | AttemptAbortReason
| Register (a : ActiveAttempt) | Unregister (a : ActiveAttempt)
| PoolRun (job : Job) (idempotencyKey : jsstring) (deliveries : nat) | PoolResume (confirmed : result Thrown unit)
| Consume (i : Control.ConsumeInput) | Confirm (b : Control.Batch) | Release (b : Control.Batch).

Definition answer (c : call) : Type :=
  match c with
  | CanonicalizePath _ => jsstring
  | Capture _ _ => Snapshot
  | ReadTask _ => option (Task Result)
  | StartTask _ | AppendAttempt _ _ _ | CompleteTask _ _ _ _ | MarkPartial _ | SettleMark _ => Task Result
  | AcquireLock _ => LockRecord
  | ClockNow => date
  | SystemNow => Z
  | IsAborted => bool
  | AttemptAbortReason => AbortReason
  | PoolRun _ _ _ => PoolReply
  | PoolResume _ => Result
  | Consume _ => Control.Batch
  | _ => unit
  end.

(** ** State *)

Inductive DeliveryState : Set := Claimed | Confirmed | Released.
Record Delivery : Set := mkDelivery { d_batch : Control.Batch; d_state : DeliveryState }.
Record local : Set := mkLocal { deliveries : list Delivery; previousOutput : option jsstring }.

Abbreviation P := (Stateful Thrown answer local).

Definition push_delivery (b : Control.Batch) (s : local) : local :=
  mkLocal (deliveries s ++ [mkDelivery b Claimed]) (previousOutput s).
Definition set_output (o : option jsstring) (s : local) : local := mkLocal (deliveries s) o.
Definition set_delivery (k : nat) (st : DeliveryState) (s : local) : local :=
  mkLocal (alter (λ d, mkDelivery (d_batch d) st) k (deliveries s)) (previousOutput s).

(** A delivery is confirmed or released once. *)
Definition settle_delivery (c : Control.Batch → P unit) (st : DeliveryState) (k : nat) : P unit :=
  d ← read_ (λ s, deliveries s !! k);
  match d with
  | Some (mkDelivery b Claimed) => c b ;; write_ (set_delivery k st)
  | _ => done_ tt
  end.
Definition confirm : nat → P unit := settle_delivery (λ b, await_ (Confirm b)) Confirmed.
Definition release : nat → P unit := settle_delivery (λ b, await_ (Release b)) Released.

Fixpoint first_failure (l : list (result Thrown unit)) : result Thrown unit :=
  match l with [] => Ok tt | Throw e :: _ => Throw e | Ok _ :: l => first_failure l end.

Definition confirm_all : P unit :=
  n ← read_ (λ s, length (deliveries s));
  rs ← each_ (λ k, settled_ (confirm k)) (seq 0 n);
  pure_ (first_failure rs).
Definition release_all : P unit :=
  n ← read_ (λ s, length (deliveries s));
  each_ (λ k, settled_ (release k)) (seq 0 n) ;; done_ tt.

(** An optional callback. *)
Definition when_some {A B} (f : option (A → result Thrown (option B))) (a : A) : P (option B) :=
  match f with Some f => pure_ (f a) | None => done_ None end.

Context (o : Options) (i : RunInput).

(** ** Pure parts *)

Definition policy : NormalizedPolicy := normalizeSafeExecutionPolicy (ri_policy i) (ri_continuationMode i).

Definition validateRunInput : result Thrown unit :=
  if negb (truthy (js_trim (ri_taskId i)))
  then Throw (safe_error "safe_execution_invalid_task" "Safe execution taskId is required." [])
  else if negb (truthy (js_trim (ri_path i)))
  then Throw (safe_error "safe_execution_invalid_task" "Safe execution workspace path is required." [])
  else if negb (truthy (js_trim (ri_provider i)))
  then Throw (safe_error "safe_execution_invalid_task" "Safe execution provider is required." [])
  else if bool_decide (ri_effectMode i = ExternalSideEffects) && (1 <? np_maxAttempts policy)%Z
  then Throw (safe_error "safe_execution_external_retry_disabled"
                "Safe execution does not retry external side effects by default." [])
  else Ok tt.

Definition attempt_id (n : Z) : jsstring := ri_taskId i ++ js ":attempt-" ++ js (pretty n).
Definition control_base (path : jsstring) : Inbox.Target :=
  default (Inbox.mkTarget (ri_taskId i) None None None None (Some path)) (controlTarget i).
Definition attemptControlTarget (path : jsstring) (n : Z) : Inbox.Target :=
  let b := control_base path in
  Inbox.mkTarget (Inbox.jobId b) (Some (default (ri_taskId i) (Inbox.taskId b))) (Inbox.workerId b)
    (Some (default (attempt_id n) (Inbox.attemptId b))) (Inbox.providerSessionId b)
    (Some (default path (Inbox.workspaceId b))).

Definition workerControlBatchWithoutMessage (b : Control.Batch) : Control.Batch :=
  Control.mkBatch (Control.b_target b) (Control.b_attempt b) (Control.b_signals b) (Control.b_signalIds b) None.

Definition continuationJobFor (job : Job) (p : Packet) (n : Z) : result Thrown (option Job) :=
  match continuationJobFactory i with
  | Some f => match f job p n with Ok j => Ok (Some j) | Throw e => Throw e end
  | None => Ok (with_prompt job (message p))
  end.

(** A result, and the mark that it reports. *)
Definition replay (t : Task Result) : RunResult := Completed t (t_result t) (attempts t) true.
Definition stopped (s : StopStatus) (t : Task Result) (r : FailureReason) (msg : jsstring) (d : option details_t)
    (e : option Thrown) : RunResult := Stopped s t (attempts t) r msg d e.

Definition mark (s : StopStatus) (r : FailureReason) (msg : jsstring) (d : option details_t) : P (Task Result) :=
  now ← await_ ClockNow;
  await_ (MarkPartial (mkMark (ri_taskId i) s r (Some msg) d now)).

(** ** Steps *)

(** What a body returns: the program that goes on after [finally]. *)
Abbreviation Body := (P (P RunResult)).
Definition return_ (r : RunResult) : Body := done_ (done_ r).

(** [return this.failStartedTask(...)]: the mark is started, not awaited. *)
Definition failStartedTask (e : Thrown) : Body :=
  let c := defaultSafeExecutionErrorClassifier e in
  match match summarizeError i with Some f => f e | None => Ok None end with
  | Throw x => done_ (raise_ x)
  | Ok summary =>
      let msg := default (safeMessage c) summary in
      let s := safeExecutionFinalStatusForFailure (reason c) in
      now ← settled_ (await_ ClockNow);
      match now with
      | Throw x => done_ (raise_ x)
      | Ok now =>
          let m := mkMark (ri_taskId i) s (reason c) (Some msg) (c_details c) now in
          await_ (StartMark m) ;;
          done_ (t ← await_ (SettleMark m); done_ (stopped s t (reason c) msg (c_details c) (Some e)))
      end
  end.

Definition consume (path : jsstring) (n : Z) : P Control.Batch :=
  now ← await_ ClockNow;
  await_ (Consume (Control.mkConsume (control_base path) (attempt_id n) None (supportsDeferredControlDelivery o) (Some now))).

Definition has_signals (b : Control.Batch) : bool := match Control.b_signalIds b with [] => false | _ => true end.

(** A batch that has to be confirmed or released is kept. *)
Definition keep_delivery (b : Control.Batch) : P unit :=
  if has_signals b && supportsDeferredControlDelivery o then write_ (push_delivery b) else done_ tt.

Definition buildContinuationPacket (path prompt : jsstring) (n : Z) (r : FailureReason) (s : Snapshot)
    (out : option jsstring) (batch : option Control.Batch) : P Packet :=
  batch ← match batch with
          | Some b => done_ (Some b)
          | None =>
              if has_controlInbox o && shouldDeliverSafeExecutionControlForContinuation r
              then b ← consume path n; keep_delivery b ;; done_ (Some b)
              else done_ None
          end;
  done_ (build (ri_taskId i) n (ri_provider i) path prompt r s out batch).

(** ** An attempt *)

Inductive Next : Type := Return (p : P RunResult) | Again (t : Task Result) (job : Job).

(** [pool.run]: when the provider has the task, the deliveries are confirmed. *)
Definition pool_reply (k : nat) (reply : PoolReply) : P Result :=
  match reply with
  | Finished v => done_ v
  | ProviderStarted =>
      confirmed ← (match k with O => done_ (Ok tt) | _ => settled_ confirm_all end);
      await_ (PoolResume confirmed)
  end.
Definition pool_run (job : Job) (n : Z) : P Result :=
  k ← read_ (λ s, length (deliveries s));
  reply ← await_ (PoolRun job (ri_taskId i ++ js ":" ++ js (pretty n)) k);
  pool_reply k reply.

Definition capture_after (path : jsstring) (includeDiff : bool) : P (Snapshot * option Thrown) :=
  r ← settled_ (await_ (Capture path includeDiff));
  match r with
  | Ok s => done_ (s, None)
  | Throw e => now ← await_ SystemNow; done_ (unavailableWorkspaceSnapshot sha256_hex path e now, Some e)
  end.

Definition record_success (path : jsstring) (n : Z) (startedAt : date) (before : Snapshot) (v : Result) : P Next :=
  confirm_all ;;
  '(after, _) ← capture_after path false;
  out ← when_some (summarizeResult i) v;
  write_ (set_output out) ;;
  u ← when_some (attemptUsage i) v;
  m ← match attemptMetadata i with Some f => (m ← pure_ (f (Some v) None); done_ (Some m)) | None => done_ None end;
  finished ← await_ ClockNow;
  now ← await_ ClockNow;
  await_ (AppendAttempt (ri_taskId i)
            (completeAttemptRecord localeCompare (ri_taskId i) (ri_provider i) n startedAt finished before after m u out) now) ;;
  now ← await_ ClockNow;
  t ← await_ (CompleteTask (ri_taskId i) v out now);
  done_ (Return (done_ (Completed t (Some v) (attempts t) false))).

Definition attempt_succeeds (path : jsstring) (job : Job) (n : Z) (startedAt : date) (before : Snapshot) : P Next :=
  v ← pool_run job n;
  record_success path n startedAt before v.

Definition classify (e : Thrown) (captureError : option Thrown) : P Classification :=
  why ← await_ AttemptAbortReason;
  c ← match runtimeInterruptClassification why with
      | Some c => done_ c
      | None => match classifyError i with Some f => pure_ (f e) | None => done_ (defaultSafeExecutionErrorClassifier e) end
      end;
  done_ (withFailureDetails c (captureError ≫= λ x, prefixFailureDetails (js "workspaceSnapshot") (failureDetailsFromUnknown x))).

(** No attempt follows. *)
Definition blocked (t : Task Result) (c : Classification) (changed : bool) (msg : jsstring) (e : Thrown) : P Next :=
  let s := default (safeExecutionFinalStatusForFailure (reason c)) (safeExecutionWaitingStatusForBlockedFailure (reason c) changed) in
  t ← mark s (reason c) msg (c_details c);
  done_ (Return (done_ (stopped s t (reason c) msg (c_details c) (Some e)))).

Definition needs_job : jsstring :=
  js "Safe execution needs a prompt job or continuationJobFactory before retrying a partial workspace.".

Definition continue_ (path prompt : jsstring) (job : Job) (n : Z) (t : Task Result) (c : Classification) (after : Snapshot)
    (errorOutput : option jsstring) (e : Thrown) : P Next :=
  previous ← read_ previousOutput;
  p ← buildContinuationPacket path prompt (n + 1) (reason c) after
        (or_else previous (if bool_decide (reason c = GoalSliceExhausted) then errorOutput else None)) None;
  j ← pure_ (continuationJobFor job p (n + 1));
  match j with
  | Some j => done_ (Again t j)
  | None =>
      t ← mark Partial (reason c) needs_job (c_details c);
      done_ (Return (done_ (stopped Partial t (reason c) needs_job (c_details c) (Some e))))
  end.

Definition attempt_fails (path prompt : jsstring) (job : Job) (n max : Z) (startedAt : date) (before : Snapshot) (e : Thrown)
    : P Next :=
  '(after, captureError) ← capture_after path true;
  c ← classify e captureError;
  errorSummary ← when_some (summarizeError i) e;
  errorOutput ← when_some (summarizeErrorOutput i) e;
  u ← when_some (attemptUsageFromError i) e;
  let msg := default (safeMessage c) errorSummary in
  finished ← await_ ClockNow;
  m ← match attemptMetadata i with Some f => pure_ (f None (Some e)) | None => done_ (safeExecutionAttemptMetadataFromError e) end;
  now ← await_ ClockNow;
  t ← await_ (AppendAttempt (ri_taskId i)
               (failedAttemptRecord localeCompare (ri_taskId i) (ri_provider i) n startedAt finished before after c msg m u) now);
  let changed := workspaceChanged before after in
  let d := shouldContinueSafeExecutionAfterFailure c policy (ri_effectMode i) changed (n <? max)%Z in
  if negb (allowed d) then blocked t c changed (default msg (why d)) e
  else continue_ path prompt job n t c after errorOutput e.

Definition attempt (path prompt : jsstring) (job : Job) (n max : Z) (before : Snapshot) : P Next :=
  startedAt ← await_ ClockNow;
  let active := mkActive (ri_taskId i) n (ri_provider i) path (attemptControlTarget path n) startedAt in
  (if has_registry o then await_ (Register active) else done_ tt) ;;
  finally_ (catch_ (attempt_succeeds path job n startedAt before) (attempt_fails path prompt job n max startedAt before))
    (if has_registry o then await_ (Unregister active) else done_ tt).

Definition aborted : P bool := if has_abortSignal i then await_ IsAborted else done_ false.

Definition abort_run (msg : string) : Body :=
  t ← mark Aborted UserAbort (js msg) None;
  return_ (stopped Aborted t UserAbort (js "Safe execution run was aborted.") None None).

(** The loop has run out of attempts. *)
Definition exhausted (t : Task Result) : Body :=
  let msg := js "Safe execution exhausted all configured attempts." in
  t ← mark (default Partial (safeExecutionWaitingStatusForFailure (lastFailureReason t)))
        (default UnknownError (lastFailureReason t)) msg (lastFailureDetails t);
  return_ (stopped (default Partial (safeExecutionWaitingStatusForFailure (lastFailureReason t))) t
             (default UnknownError (lastFailureReason t)) msg (lastFailureDetails t) None).

(** The loop, with the number of attempts left; the first may have the snapshot
    it starts from. *)
Fixpoint attempts_from (remaining : nat) (path prompt : jsstring) (max n : Z) (before : option Snapshot) (t : Task Result) (job : Job)
    : Body :=
  match remaining with
  | O => exhausted t
  | S remaining =>
      a ← aborted;
      if a : bool then abort_run "Safe execution run was aborted before the next attempt."
      else
        s ← match before with Some s => done_ (Ok s) | None => settled_ (await_ (Capture path false)) end;
        match s with
        | Throw e => failStartedTask e
        | Ok s =>
            r ← attempt path prompt job n max s;
            match r with
            | Return p => done_ p
            | Again t job => attempts_from remaining path prompt max (n + 1) None t job
            end
        end
  end.

(** ** The run *)

(** The loop of a run: guidance at its start gives a resumed task a new round of
    attempts. *)
Definition loop (path : jsstring) (existing : option (Task Result)) (first : Z) (guided : bool) (before : option Snapshot)
    (t : Task Result) (job : Job) (prompt : jsstring) : Body :=
  let max := if found existing && guided then (first + np_maxAttempts policy - 1)%Z else np_maxAttempts policy in
  attempts_from (Z.to_nat (max - first + 1)) path prompt max first before t job.

Definition needs_resume_job : jsstring :=
  js "Safe execution needs a prompt job or continuationJobFactory to resume a partial task.".

(** A task that stopped after a failure goes on from what it left. *)
Definition resume (path : jsstring) (existing : option (Task Result)) (first : Z) (before : option Snapshot) (t : Task Result)
    (batch : option Control.Batch) (controlled : option ControlResult) (r : FailureReason) : Body :=
  let replacing := match controlled with Some (Replacing _ p) => Some p | _ => None end in
  (if found replacing then write_ (set_output None) else done_ tt) ;;
  s ← settled_ (await_ (Capture path true));
  match s with
  | Throw e => failStartedTask e
  | Ok s =>
      out ← read_ previousOutput;
      p ← buildContinuationPacket path (default (originalPrompt i) replacing) first r s out
            (if found replacing then workerControlBatchWithoutMessage <$> batch else batch);
      j ← pure_ (continuationJobFor (default (ri_job i) (controlled_job <$> controlled)) p first);
      match j with
      | None =>
          t' ← mark Partial r needs_resume_job (lastFailureDetails t);
          return_ (stopped Partial t' r needs_resume_job (lastFailureDetails t) None)
      | Some job =>
          loop path existing first (found controlled) before t job (default (originalPrompt i) (controlled_prompt <$> controlled))
      end
  end.

(** After the guidance was consumed. *)
Definition start_attempts (path : jsstring) (existing : option (Task Result)) (first : Z) (before : option Snapshot)
    (t : Task Result) (batch : option Control.Batch) (controlled : option ControlResult) : Body :=
  write_ (set_output (outputSummary t)) ;;
  let completed := bool_decide (t_status t = TaskCompleted) in
  if completed && negb (found controlled) then return_ (replay t)
  else
    t ← (if completed then
           now ← await_ ClockNow;
           await_ (StartTask (mkStart (ri_taskId i) (workspaceRunId sha256_hex path) path (ri_effectMode i) (ri_provider i) now true))
         else done_ t);
    match attempts t, lastFailureReason t with
    | _ :: _, Some r =>
        if bool_decide (np_continuationMode policy = Disabled) then
          loop path existing first (found controlled) before t (default (ri_job i) (controlled_job <$> controlled))
            (default (originalPrompt i) (controlled_prompt <$> controlled))
        else resume path existing first before t batch controlled r
    | _, _ =>
        loop path existing first (found controlled) before t (default (ri_job i) (controlled_job <$> controlled))
          (default (originalPrompt i) (controlled_prompt <$> controlled))
    end.

(** Guidance that waits for the task at its start. *)
Definition startup_guidance (path : jsstring) (first : Z) (t : Task Result) : P (option Control.Batch) :=
  let wanted := bool_decide (t_status t = TaskCompleted) ||
                match lastFailureReason t with Some r => shouldDeliverSafeExecutionControlForContinuation r | None => true end in
  if wanted && has_controlInbox o && found (controlContinuationJobFactory i) then
    b ← consume path first;
    keep_delivery b ;;
    (if has_signals b && negb (found (truthy_opt (Control.b_message b)))
     then raise_ (safe_error "safe_execution_invalid_task"
            "Worker control inbox returned deliverable signal ids without a continuation message." [])
     else done_ tt) ;;
    done_ (Some b)
  else done_ None.

Definition controlled_startup (first : Z) (t : Task Result) (batch : option Control.Batch) : P (option ControlResult) :=
  match batch, controlContinuationJobFactory i with
  | Some b, Some f =>
      if has_signals b
      then c ← pure_ (f (ri_job i) (originalPrompt i) b first (lastFailureReason t) (lastFailureDetails t)); done_ (Some c)
      else done_ None
  | _, _ => done_ None
  end.

Definition guided_run (path : jsstring) (existing : option (Task Result)) (first : Z) (t : Task Result) : Body :=
  let completed := bool_decide (t_status t = TaskCompleted) in
  if completed && bool_decide (t_effectMode t = ExternalSideEffects) then return_ (replay t)
  else
    a ← aborted;
    if a : bool then
      if completed then return_ (replay t) else abort_run "Safe execution run was aborted before guidance delivery."
    else
      before ← (if completed then s ← await_ (Capture path false); done_ (Some s) else done_ None);
      batch ← startup_guidance path first t;
      controlled ← controlled_startup first t batch;
      start_attempts path existing first before t batch controlled.

Definition interrupted_message : jsstring :=
  js "Safe execution found an interrupted running task with unrecorded workspace changes.".

(** A task that was running when its process ended, before its first attempt was
    recorded, is not run in a workspace that has changes. *)
Definition interrupted_run (path : jsstring) (existing : option (Task Result)) (first : Z) (t : Task Result) : Body :=
  match existing with
  | Some e =>
      if bool_decide (t_status e = TaskRunning) && (length (attempts e) =? 0)%nat then
        s ← settled_ (await_ (Capture path true));
        match s with
        | Throw x => failStartedTask x
        | Ok s =>
            if dirty s then
              let d := Some (interruptedWorkspaceDetails s) in
              t ← mark Partial UnknownError interrupted_message d;
              return_ (stopped Partial t UnknownError interrupted_message d None)
            else guided_run path existing first t
        end
      else guided_run path existing first t
  | None => guided_run path existing first t
  end.

Definition is_completed (existing : option (Task Result)) : option (Task Result) :=
  match existing with Some e => if bool_decide (t_status e = TaskCompleted) then Some e else None | None => None end.

Definition locked_run (path : jsstring) (existing : option (Task Result)) : Body :=
  let first := (Z.of_nat (length (match existing with Some e => attempts e | None => [] end)) + 1)%Z in
  t ← match is_completed existing with
      | Some e => done_ e
      | None =>
          now ← await_ ClockNow;
          await_ (StartTask (mkStart (ri_taskId i) (workspaceRunId sha256_hex path) path (ri_effectMode i) (ri_provider i) now false))
      end;
  g ← (if requireGitWorkspace i then settled_ (await_ (AssertGitWorkspace path)) else done_ (Ok tt));
  match g with
  | Throw e => if bool_decide (t_status t = TaskCompleted) then raise_ e else failStartedTask e
  | Ok _ => interrupted_run path existing first t
  end.

Definition under_lock (path : jsstring) (existing : option (Task Result)) : P RunResult :=
  now ← await_ ClockNow;
  lock ← await_ (AcquireLock (mkLockInput (ri_taskId i) path (ownerId o) (ownerPid o) (ri_staleLockMs i) now));
  after ← finally_ (locked_run path existing) (release_all ;; await_ (ReleaseLock lock));
  after.

Definition run : P RunResult :=
  pure_ validateRunInput ;;
  path ← await_ (CanonicalizePath (ri_path i));
  existing ← await_ (ReadTask (ri_taskId i));
  match is_completed existing with
  | Some e =>
      if negb (has_controlInbox o) || negb (found (controlContinuationJobFactory i)) then done_ (replay e)
      else under_lock path existing
  | None => under_lock path existing
  end.

Definition start : local := mkLocal [] None.
End runner.
End SafeRunner.
