(* ===== verification/SafeWorld.v ===== *)
(** * Safe execution: runs in a world

    A world with the journal and the lock store in memory of [SafeTask.v], a
    scripted worker pool and control inbox, and faults: the runs of
    [SafeRunner.v] evaluate in it. *)

From stdpp Require Import base numbers option sets strings pretty list.
From S2P Require Import Prelude Json WorkerInbox Programs WorkerControl StatePrograms SafePolicy SafeTask SafeRunner.

Module SafeWorld.
Import SafePolicy SafeTask SafeRunner.

Abbreviation world_call := (SafeRunner.call (Job:=jsstring) (Result:=jsstring)).
Abbreviation world_answer := (SafeRunner.answer (Job:=jsstring) (Result:=jsstring)).
Abbreviation input := (RunInput (Job:=jsstring) (Result:=jsstring)).

(** What the pool answers, and whether the workspace has changes then. *)
Record World : Type := mkWorld {
  w_journal : list (jsstring * Task jsstring); w_locks : locks; w_time : Z; w_calls : nat; w_dirty : bool;
  w_pool : list (result Thrown (PoolReply (Result:=jsstring)) * bool); w_resumed : list (result Thrown jsstring);
  w_inbox : list Control.Batch }.

Definition sha (s : jsstring) : jsstring := s.
Definition compare_all (_ _ : jsstring) : comparison := Eq.
Definition as_prompt (_ p : jsstring) : option jsstring := Some p.
Definition world_snapshot (path : jsstring) (now : Z) (d : bool) : Snapshot :=
  mkSnapshot GitMode path (At now) d (if d then [js "a.ts"] else []) None (js (if d then "changed" else "clean")) (js "summary")
    None None.
Definition empty_batch : Control.Batch :=
  Control.mkBatch (Inbox.mkTarget (js "t") None None None None None) (js "t:attempt-1") [] [] None.

Section world.
(** The calls that fail, by their number. *)
Context (faults : nat → option Thrown).

Definition with_journal (w : World) (x : list (jsstring * Task jsstring) * result Thrown (Task jsstring))
    : result Thrown (Task jsstring) * World :=
  (x.2, mkWorld x.1 (w_locks w) (w_time w) (w_calls w) (w_dirty w) (w_pool w) (w_resumed w) (w_inbox w)).
Definition with_locks (w : World) (l : locks) : World :=
  mkWorld (w_journal w) l (w_time w) (w_calls w) (w_dirty w) (w_pool w) (w_resumed w) (w_inbox w).

Definition perform (c : world_call) (w : World) : fallible Thrown world_answer c * World :=
  match c return fallible Thrown world_answer c * World with
  | CanonicalizePath p => (Ok p, w)
  | AssertGitWorkspace _ => (Ok tt, w)
  | Capture p _ => (Ok (world_snapshot p (w_time w) (w_dirty w)), w)
  | ReadTask id => (Ok (readTask (w_journal w) id), w)
  | StartTask st => with_journal w (startTask (w_journal w) st)
  | AppendAttempt id a now => with_journal w (appendAttempt (w_journal w) id a now)
  | CompleteTask id v out now => with_journal w (completeTask (w_journal w) id v out now)
  | MarkPartial m => with_journal w (markPartial (w_journal w) m)
  | StartMark _ => (Ok tt, w)
  | SettleMark m => with_journal w (markPartial (w_journal w) m)
  | AcquireLock li => let '(l, r) := acquire sha (λ _, true) (w_locks w) li in (r, with_locks w l)
  | ReleaseLock l => (Ok tt, with_locks w (SafeTask.release sha (w_locks w) l))
  | ClockNow => (Ok (At (w_time w)), w)
  | SystemNow => (Ok (w_time w), w)
  | IsAborted => (Ok false, w)
  | AttemptAbortReason => (Ok OtherReason, w)
  | PoolRun _ _ _ =>
      match w_pool w with
      | [] => (Throw undefined, w)
      | (r, d) :: l => (r, mkWorld (w_journal w) (w_locks w) (w_time w) (w_calls w) d l (w_resumed w) (w_inbox w))
      end
  | PoolResume _ =>
      match w_resumed w with
      | [] => (Throw undefined, w)
      | r :: l => (r, mkWorld (w_journal w) (w_locks w) (w_time w) (w_calls w) (w_dirty w) (w_pool w) l (w_inbox w))
      end
  | Consume _ =>
      match w_inbox w with
      | [] => (Ok empty_batch, w)
      | b :: l => (Ok b, mkWorld (w_journal w) (w_locks w) (w_time w) (w_calls w) (w_dirty w) (w_pool w) (w_resumed w) l)
      end
  | Register _ | Unregister _ | Confirm _ | Release _ => (Ok tt, w)
  end.

Definition tick (w : World) : World :=
  mkWorld (w_journal w) (w_locks w) (w_time w + 1) (S (w_calls w)) (w_dirty w) (w_pool w) (w_resumed w) (w_inbox w).
Definition handle (c : world_call) (w : World) : fallible Thrown world_answer c * World :=
  match faults (w_calls w) with
  | Some e => (Throw e, tick w)
  | None => perform c (tick w)
  end.
End world.

Definition no_faults (_ : nat) : option Thrown := None.
Definition fault_at (k : nat) (n : nat) : option Thrown := if (n =? k)%nat then Some (plain_error "disk full") else None.

Definition world_input (effect : EffectMode) (max : Z) (guided : bool) : input :=
  mkRunInput (js "task") (js "/repo") None false effect (js "codex") (js "prompt") (js "prompt") None
    (Some (mkPolicy None None None None None (Some max) None)) None
    (if guided then Some (λ j p _ _ _ _, Ok (WithPrompt j p)) else None) None None None None None None None None false.
Definition world_options (inbox : bool) : Options := mkOptions inbox true false (js "owner") (Some (num_of_Z 7)).

Definition world_run (inbox : bool) (i : input) := run compare_all sha as_prompt (world_options inbox) i start.
Definition world_of (j : list (jsstring * Task jsstring)) (d : bool) (pool : list (result Thrown (PoolReply (Result:=jsstring)) * bool))
    (resumed : list (result Thrown jsstring)) (inbox : list Control.Batch) : World := mkWorld j [] 0 0 d pool resumed inbox.

Definition quota : Thrown := worker_failure "x" [(js "reason", js "quota_limited")] undefined.
Definition guidance : Control.Batch :=
  Control.mkBatch (Inbox.mkTarget (js "task") None None None None None) (js "task:attempt-2") [] [js "s1"] (Some (js "use main")).

(** What is read of the outcome of a run. *)
Inductive Summary : Type := Done (v : option jsstring) (numbers : list Z) (replayed : bool) | Halted (s : StopStatus) (r : FailureReason) (numbers : list Z) | Failing (message : jsstring).
Definition summarize (x : local * result Thrown (RunResult (Result:=jsstring))) : Summary :=
  match x.2 with
  | Ok (Completed _ v l replayed) => Done v (map attemptNumber l) replayed
  | Ok (Stopped s _ l r _ _ _) => Halted s r (map attemptNumber l)
  | Throw e => Failing (safeExecutionErrorMessage e)
  end.
Definition outcome (faults : nat → option Thrown) (inbox : bool) (i : input) (w : World) : Summary :=
  summarize (exec (handle faults) (world_run inbox i) w).1.
Definition journal_status (faults : nat → option Thrown) (inbox : bool) (i : input) (w : World) : option TaskStatus :=
  t_status <$> map_get (w_journal (exec (handle faults) (world_run inbox i) w).2) (js "task").

(** The first attempt hits a limit, the second is given guidance and ends. *)
Definition two_attempts : World := world_of [] false [(Throw quota, false); (Ok ProviderStarted, true)] [Ok (js "done")] [guidance].

Example run_completes : outcome no_faults true (world_input WorkspacePatch 3 false) two_attempts = Done (Some (js "done")) [1; 2]%Z false.
Proof. by vm_compute. Qed.
Example run_without_guidance :
  outcome no_faults false (world_input WorkspacePatch 3 false) (world_of [] false [(Throw quota, false); (Ok (Finished (js "done")), true)] [] [])
  = Done (Some (js "done")) [1; 2]%Z false.
Proof. by vm_compute. Qed.
Example run_waits : outcome no_faults true (world_input WorkspacePatch 1 false) two_attempts = Halted WaitingCapacity QuotaLimited [1]%Z.
Proof. by vm_compute. Qed.

(** The trace of a run, and its end. *)
Abbreviation world_trace faults inbox i w := (exec_trace (handle faults) (world_run inbox i) w).
Lemma world_runs faults inbox i w :
  runs (world_run inbox i) (world_trace faults inbox i w)
    ((exec (handle faults) (world_run inbox i) w).1.1, (exec (handle faults) (world_run inbox i) w).1.2).
Proof. rewrite <-surjective_pairing. apply exec_runs. Qed.

Definition is_ok {A} (r : result Thrown A) : bool := match r with Ok _ => true | Throw _ => false end.
Lemma runs_ok {A} (p : prog (fallible Thrown world_answer) (local * result Thrown A)) tr s r :
  runs p tr (s, r) → is_ok r = true → ∃ x, runs p tr (s, Ok x).
Proof. destruct r; [eauto|done]. Qed.

(** The names of the calls of a trace. *)
Definition call_name (e : event (fallible Thrown world_answer)) : string :=
  match e with
  | Ev c _ =>
      match c with
      | CanonicalizePath _ => "path" | AssertGitWorkspace _ => "git" | Capture _ _ => "capture" | ReadTask _ => "read"
      | StartTask _ => "start" | AppendAttempt _ _ _ => "append" | CompleteTask _ _ _ _ => "complete" | MarkPartial _ => "mark"
      | StartMark _ => "start mark" | SettleMark _ => "settle mark" | AcquireLock _ => "lock" | ReleaseLock _ => "unlock"
      | ClockNow | SystemNow => "now" | IsAborted => "aborted" | AttemptAbortReason => "reason" | Register _ => "register"
      | Unregister _ => "unregister" | PoolRun _ _ _ => "run" | PoolResume _ => "resume" | Consume _ => "consume"
      | Confirm _ => "confirm" | Release _ => "release"
      end
  end%string.

(** A snapshot that fails at the start: the lock is given back before the mark of
    the failure settles. *)
Example unlocked_before_mark :
  map call_name (world_trace (fault_at 6) false (world_input WorkspacePatch 1 false) two_attempts) =
  ["path"; "read"; "now"; "lock"; "now"; "start"; "capture"; "now"; "start mark"; "unlock"; "settle mark"]%string.
Proof. by vm_compute. Qed.

(** A worker finishes, and the journal fails to complete its task: the attempt is
    recorded a second time, as failed, and the finished work is run again. *)
Definition finishing : World := world_of [] false [(Ok (Finished (js "one")), false); (Ok (Finished (js "two")), false)] [] [].
Example finished_work_again :
  outcome no_faults false (world_input WorkspacePatch 3 false) finishing = Done (Some (js "one")) [1]%Z false ∧
  outcome (fault_at 14) false (world_input WorkspacePatch 3 false) finishing = Done (Some (js "two")) [1; 1; 2]%Z false.
Proof. split; by vm_compute. Qed.

(** A task with external side effects that was running when its process ended is
    run again. *)
Definition external_task (st : TaskStatus) (l : list Attempt) (r : option FailureReason) : Task jsstring :=
  mkTask (js "task") (js "run") (js "/repo") ExternalSideEffects (js "codex") st (At 0) (At 0) l None None None r None None.
Example external_after_crash :
  outcome no_faults false (world_input ExternalSideEffects 1 false)
    (world_of [(js "task", external_task TaskRunning [] None)] false [(Ok (Finished (js "again")), false)] [] [])
  = Done (Some (js "again")) [1]%Z false.
Proof. by vm_compute. Qed.

(** And guidance at its start runs one that failed again. *)
Definition failed_attempt : Attempt :=
  mkAttempt (js "task") 1 None None (js "codex") (At 0) (At 0) AttemptFailed (Some TaskTimeout) None None false false [] None None None.
Definition external_failed : World :=
  world_of [(js "task", external_task (TaskStopped Partial) [failed_attempt] (Some TaskTimeout))] false
    [(Ok (Finished (js "again")), false)] [] [guidance].
Example external_guided :
  outcome no_faults true (world_input ExternalSideEffects 1 true) external_failed = Done (Some (js "again")) [1; 2]%Z false ∧
  outcome no_faults true (world_input ExternalSideEffects 1 false) external_failed = Halted Partial TaskTimeout [1]%Z.
Proof. split; by vm_compute. Qed.
End SafeWorld.
