(* ===== verification/SafeGuards.v ===== *)
(** * Safe execution: what a run guarantees

    The properties of [SafeRunner.v], over all runs: whatever the ports answer
    or throw, and whatever the callbacks of the input do. *)

From stdpp Require Import base numbers option sets strings pretty list.
From S2P Require Import Prelude Json WorkerInbox Programs WorkerControl StatePrograms SafePolicy SafeTask SafeRunner SafeWorld.

Module SafeGuards.
Import SafePolicy SafeTask SafeRunner.

Section guards.
Context {Job Result : Type}.
Context (localeCompare : jsstring → jsstring → comparison) (sha256_hex : jsstring → jsstring).
Context (with_prompt : Job → jsstring → option Job).
Context (o : Options) (i : RunInput (Job:=Job) (Result:=Result)).

Abbreviation call := (call (Job:=Job) (Result:=Result)).
Abbreviation trace := (history Thrown (answer (Job:=Job) (Result:=Result))).
Abbreviation P := (Stateful Thrown (answer (Job:=Job) (Result:=Result)) local).
Abbreviation Out := (RunResult (Result:=Result)).
Abbreviation run := (run localeCompare sha256_hex with_prompt o i).
Abbreviation locked_run := (locked_run localeCompare sha256_hex with_prompt o i).

Abbreviation any := (λ (_ : trace) (_ : local) _, True).
Ltac go := repeat (tstep; try done).

(** ** Locks *)

Definition is_lock (c : call) : bool := match c with AcquireLock _ | ReleaseLock _ => true | _ => false end.
(** What a run does before it has the lock and after it gave it back. *)
Definition outside (c : call) : bool :=
  match c with
  | CanonicalizePath _ | ReadTask _ | SettleMark _ | ClockNow | SystemNow | IsAborted | AttemptAbortReason => true
  | _ => false
  end.

Definition lock_after (l : option LockRecord) (e : event (fallible Thrown (answer (Job:=Job) (Result:=Result)))) : option LockRecord :=
  match e with
  | Ev c r =>
      match c return fallible Thrown (answer (Job:=Job) (Result:=Result)) c → option LockRecord with
      | AcquireLock _ => λ r, match r with Ok l => Some l | Throw _ => l end
      | ReleaseLock _ => λ _, None
      | _ => λ _, l
      end r
  end.
Definition lock_state (h : trace) : option LockRecord := foldl lock_after None h.

Lemma held_lock_snoc h e : lock_state (h ++ [e]) = lock_after (lock_state h) e.
Proof. unfold lock_state. by rewrite foldl_app. Qed.

(** ** Outcomes *)

(** The task as the journal answered it. *)
Definition in_journal (h : trace) (t : Task Result) : Prop :=
  Ev (ReadTask (ri_taskId i)) (Ok (Some t)) ∈ h ∨ ∃ st, st_taskId st = ri_taskId i ∧ Ev (StartTask st) (Ok t) ∈ h.

Lemma in_journal_included h h' t : included h h' → in_journal h t → in_journal h' t.
Proof. intros Hh [?|(st & ? & ?)]; [left|right; exists st]; auto. Qed.

(** What the result of a run says is in the journal. *)
Definition recorded (h : trace) (x : Out) : Prop :=
  match x with
  | Completed t v l true => t_status t = TaskCompleted ∧ v = t_result t ∧ l = attempts t ∧ in_journal h t
  | Completed t v l false => l = attempts t ∧ ∃ w out now, v = Some w ∧ Ev (CompleteTask (ri_taskId i) w out now) (Ok t) ∈ h ∧
      ((∃ job key k, Ev (PoolRun job key k) (Ok (Finished w)) ∈ h) ∨ ∃ r, Ev (PoolResume r) (Ok w) ∈ h)
  | Stopped s t l r msg d e => l = attempts t ∧ ∃ m, mk_taskId m = ri_taskId i ∧
      (mk_status m = s ∨ s = default Partial (safeExecutionWaitingStatusForFailure (lastFailureReason t))) ∧
      (Ev (MarkPartial m) (Ok t) ∈ h ∨ Ev (SettleMark m) (Ok t) ∈ h)
  end.

Lemma recorded_included h h' x : included h h' → recorded h x → recorded h' x.
Proof.
  intros Hh. destruct x as [t v l []|]; simpl.
  - intros (? & ? & ? & ?). eauto using in_journal_included.
  - intros (? & w & out & now & ? & ? & H). split; [done|]. exists w, out, now. split_and!; auto.
    destruct H as [(? & ? & ? & ?)|(? & ?)]; [left|right]; eauto.
  - intros (? & m & ? & ? & [?|?]); split; try done; exists m; auto.
Qed.

(** The rest of a run, after its [finally]. *)
Definition ends_well (h : trace) (p : P Out) : Prop :=
  ∀ h' s, included h h' → traced (λ _ c, outside c = true) h' s p (λ h'' _ r, ∀ x, r = Ok x → recorded h'' x).

Definition body_post (h : trace) (_ : local) (r : result Thrown (P Out)) : Prop :=
  match r with Ok p => ends_well h p | Throw _ => True end.

Definition in_body (_ : trace) (c : call) : Prop := is_lock c = false.

(** Everything but taking the lock and running a worker. *)
Definition is_run (c : call) : bool := match c with PoolRun _ _ _ => true | _ => false end.
Definition silent (_ : trace) (c : call) : Prop := is_lock c || is_run c = false.

Lemma silent_in_body {A} h s (m : P A) post : traced silent h s m post → traced in_body h s m post.
Proof. apply traced_pre_weaken. intros ? c [? _]%orb_false_iff. done. Qed.

Lemma ends_well_done h x : recorded h x → ends_well h (done_ x).
Proof. intros Hx h' s Hh. apply (traced_end _ _ _ _ (Ok x)). intros y [= <-]. by eapply recorded_included. Qed.

Lemma ends_well_included h h' p : included h h' → ends_well h p → ends_well h' p.
Proof. intros Hh Hp h'' s Hh'. apply Hp. by eapply included_trans. Qed.

Lemma mark_judged {B} (pre : trace → call → Prop) h s st r msg d (f : Task Result → P B) post :
  (∀ h c, silent h c → pre h c) →
  (∀ h' t, included h h' → (∃ m, mk_taskId m = ri_taskId i ∧ mk_status m = st ∧ Ev (MarkPartial m) (Ok t) ∈ h') →
     traced pre h' s (f t) post) →
  (∀ h' e, post h' s (Throw e)) →
  traced pre h s (mark i st r msg d ≫= f) post.
Proof.
  intros Hq Hf Ht. unfold mark. go; try apply Ht; try by apply Hq. apply Hf; [intros e ?; in_history|].
  eexists. split_and!; [| |apply here]; done.
Qed.

Lemma failStarted_judged h s e : traced silent h s (failStartedTask i e) body_post.
Proof.
  unfold failStartedTask. go.
  intros h' s' Hh. go. intros x [= <-]. split; [done|]. eexists. split_and!; [| |right; apply here]; [done|by left].
Qed.

Lemma packet_judged h s path prompt n r sn out batch :
  traced silent h s (buildContinuationPacket o i path prompt n r sn out batch) any.
Proof. unfold buildContinuationPacket, consume, keep_delivery. go. Qed.

Lemma confirm_all_judged h s : traced silent h s confirm_all any.
Proof.
  unfold confirm_all. tstep. apply traced_part; [|by intros; go|done]. apply traced_each. intros k h' s'.
  apply traced_settled_any. unfold confirm, settle_delivery. go.
Qed.

Lemma release_all_judged h s : traced silent h s release_all (λ h' _ r, included h h' ∧ ∃ u, r = Ok u).
Proof.
  unfold release_all. tstep. apply traced_bind. eapply traced_weaken; [|apply traced_each_settled].
  - intros h' s' r [Hh [rs ->]]. apply (traced_end _ _ _ _ (Ok tt)). eauto.
  - intros k h' s'. unfold release, settle_delivery. go.
Qed.

Lemma capture_after_judged h s path d : traced silent h s (capture_after sha256_hex path d) any.
Proof. unfold capture_after. go. Qed.

(** What a worker returned was returned by the pool. *)
Definition pool_done (h : trace) (w : Result) : Prop :=
  (∃ job key k, Ev (PoolRun job key k) (Ok (Finished w)) ∈ h) ∨ ∃ r, Ev (PoolResume r) (Ok w) ∈ h.

Lemma pool_done_included h h' w : included h h' → pool_done h w → pool_done h' w.
Proof. intros Hh [(? & ? & ? & ?)|(? & ?)]; [left|right]; eauto. Qed.

Definition next_post (h : trace) (_ : local) (r : result Thrown (Next (Job:=Job))) : Prop :=
  match r with Ok (Return p) => ends_well h p | _ => True end.

Lemma pool_reply_judged h s k reply : (∀ v, reply = Finished v → pool_done h v) →
  traced silent h s (pool_reply k reply) (λ h' _ r, ∀ w, r = Ok w → pool_done h' w).
Proof.
  intros Hr. unfold pool_reply. go.
  - intros w [= <-]. right. eexists. apply here.
  - eapply traced_weaken; [|apply confirm_all_judged].
    intros h' s' r _. go. intros w [= <-]. right. eexists. apply here.
  - intros w [= <-]. by apply Hr.
Qed.

Lemma record_success_judged h s path n startedAt before v : pool_done h v →
  traced silent h s (record_success localeCompare sha256_hex i path n startedAt before v)
    (λ h' s' r, next_post h' s' r ∧ ∀ t j, r ≠ Ok (Again t j)).
Proof.
  intros Hv. unfold record_success.
  apply traced_part; [apply confirm_all_judged| |done]. intros h2 s2 _ H2.
  apply traced_part; [apply capture_after_judged| |done]. intros h3 s3 [after x] H3.
  unfold when_some. go.
  all: split; [|done]; apply ends_well_done; simpl; split; [done|]; eexists _, _, _; split_and!; [done|apply here|].
  all: eapply (pool_done_included h); [|done]; repeat (eapply included_trans; [eassumption|]); intros e ?; in_history.
Qed.

Lemma blocked_judged h s t c changed msg e : traced silent h s (blocked i t c changed msg e) next_post.
Proof.
  unfold blocked. apply mark_judged; [done| |done]. intros h' t' _ (m & Hm). go. apply ends_well_done.
  split; [done|]. exists m. naive_solver.
Qed.

Lemma continue_judged h s path prompt job n t c after out e :
  traced silent h s (continue_ with_prompt o i path prompt job n t c after out e) next_post.
Proof.
  unfold continue_. tstep. apply traced_part; [apply packet_judged| |done]. intros h' s' p _. go.
  apply mark_judged; [done| |done]. intros h'' t' _ (m & Hm). go. apply ends_well_done.
  split; [done|]. exists m. naive_solver.
Qed.

Lemma attempt_fails_judged h s path prompt job n max startedAt before e :
  traced silent h s (attempt_fails localeCompare sha256_hex with_prompt o i path prompt job n max startedAt before e) next_post.
Proof.
  unfold attempt_fails. apply traced_part; [apply capture_after_judged| |done]. intros h1 s1 [after x] _.
  apply traced_part; [unfold classify; go| |done]. intros h2 s2 c _. unfold when_some.
  go; first [apply blocked_judged|apply continue_judged].
Qed.

Lemma attempt_succeeds_judged h s path job n startedAt before :
  traced in_body h s (attempt_succeeds localeCompare sha256_hex i path job n startedAt before) next_post.
Proof.
  unfold attempt_succeeds, pool_run. go. apply traced_bind.
  eapply traced_weaken; [|apply silent_in_body, pool_reply_judged].
  - intros h1 s1 [v|e] Hv; [|done]. eapply traced_weaken; [|apply silent_in_body, record_success_judged, Hv]; [|done].
    by intros h2 s2 r [Hr _].
  - intros v ->. left. eexists _, _, _. apply here.
Qed.

Lemma attempt_judged h s path prompt job n max before :
  traced in_body h s (attempt localeCompare sha256_hex with_prompt o i path prompt job n max before) next_post.
Proof.
  unfold attempt. tstep; [done| |done]. apply traced_part; [go| |done]. intros h1 s1 _ _.
  apply traced_finally, traced_catch. eapply traced_weaken; [|apply attempt_succeeds_judged].
  assert (∀ h' s' r, next_post h' s' r → traced in_body h' s'
    (if has_registry o then await_ (Unregister (mkActive (ri_taskId i) n (ri_provider i) path (attemptControlTarget i path n) a))
     else done_ tt) (λ h'' s'' f, next_post h'' s'' (match f with Ok _ => r | Throw e => Throw e end))) as Hlast.
  { intros h' s' r Hr. go. destruct r as [[p|t j]|e]; try done. eapply ends_well_included, Hr. apply included_snoc. }
  intros h' s' [r|e] Hr; [by apply Hlast|]. eapply traced_weaken; [|apply silent_in_body, attempt_fails_judged]. intros. by apply Hlast.
Qed.

Lemma abort_judged h s msg : traced in_body h s (abort_run i msg) body_post.
Proof.
  unfold abort_run. apply mark_judged; [intros ? ? [? _]%orb_false_iff; done| |done]. intros h' t _ (m & Hm). apply (traced_end _ _ _ _ (Ok _)).
  apply ends_well_done. split; [done|]. exists m. naive_solver.
Qed.

Lemma attempts_judged h s remaining path prompt max n before t job :
  traced in_body h s (attempts_from localeCompare sha256_hex with_prompt o i remaining path prompt max n before t job) body_post.
Proof.
  revert h s n before t job. induction remaining as [|remaining IH]; intros h s n before t job; cbn [attempts_from].
  - unfold exhausted. apply mark_judged; [intros ? ? [? _]%orb_false_iff; done| |done]. intros h' t' _ (m & Hm). apply (traced_end _ _ _ _ (Ok _)).
    apply ends_well_done. split; [done|]. exists m. naive_solver.
  - apply traced_part; [unfold aborted; go| |done]. intros h1 s1 a _. destruct a; [apply abort_judged|].
    apply traced_part; [go| |done]. intros h2 s2 [sn|e] _; [|apply silent_in_body, failStarted_judged].
    apply traced_bind. eapply traced_weaken; [|apply attempt_judged].
    intros h3 s3 [[p|t' j]|e] Hr; [by apply (traced_end _ _ _ _ (Ok p))|apply IH|done].
Qed.

Lemma loop_judged h s path existing first guided before t job prompt :
  traced in_body h s (loop localeCompare sha256_hex with_prompt o i path existing first guided before t job prompt) body_post.
Proof. apply attempts_judged. Qed.

Lemma resume_judged h s path existing first before t batch controlled r :
  traced in_body h s (resume localeCompare sha256_hex with_prompt o i path existing first before t batch controlled r) body_post.
Proof.
  unfold resume. apply traced_part; [go| |done]. intros h1 s1 _ _.
  tstep; [done| |apply silent_in_body, failStarted_judged]. tstep.
  apply traced_part; [apply silent_in_body, packet_judged| |done]. intros h2 s2 p _. go; [apply loop_judged|].
  apply mark_judged; [intros ? ? [? _]%orb_false_iff; done| |done]. intros h3 t' _ (m & Hm). apply (traced_end _ _ _ _ (Ok _)). apply ends_well_done.
  split; [done|]. exists m. naive_solver.
Qed.

Lemma replay_judged h s t : in_journal h t → t_status t = TaskCompleted → traced in_body h s (return_ (replay t)) body_post.
Proof. intros Ht Hc. apply (traced_end _ _ _ _ (Ok _)). by apply ends_well_done. Qed.

Lemma start_attempts_judged h s path existing first before t batch controlled : in_journal h t →
  traced in_body h s
    (start_attempts localeCompare sha256_hex with_prompt o i path existing first before t batch controlled) body_post.
Proof.
  intros Ht. unfold start_attempts. tstep. cbv zeta. destruct (bool_decide _ && _) eqn:E; [bools; by apply replay_judged|].
  apply traced_part; [go| |done]. intros h1 s1 t1 _. go; first [apply loop_judged|apply resume_judged].
Qed.

Lemma guided_judged h s path existing first t : in_journal h t →
  traced in_body h s (guided_run localeCompare sha256_hex with_prompt o i path existing first t) body_post.
Proof.
  intros Ht. unfold guided_run. cbv zeta. destruct (_ && _) eqn:E; [bools; by apply replay_judged|].
  apply traced_part; [unfold aborted; go| |done]. intros h1 s1 a H1. destruct a.
  - destruct (bool_decide _) eqn:E1; [|apply abort_judged]. bools. apply replay_judged; [|done]. by eapply in_journal_included.
  - apply traced_part; [go| |done]. intros h2 s2 before H2.
    apply traced_part; [unfold startup_guidance, consume, keep_delivery; go| |done]. intros h3 s3 batch H3.
    apply traced_part; [unfold controlled_startup; go| |done]. intros h4 s4 controlled H4.
    apply start_attempts_judged. eapply in_journal_included, Ht. intros e He. in_history.
Qed.

Lemma interrupted_judged h s path existing first t : in_journal h t →
  traced in_body h s (interrupted_run localeCompare sha256_hex with_prompt o i path existing first t) body_post.
Proof.
  intros Ht. unfold interrupted_run. destruct existing as [e|]; [|by apply guided_judged].
  destruct (_ && _); [|by apply guided_judged]. tstep; [done| |apply silent_in_body, failStarted_judged].
  destruct (dirty _).
  - apply mark_judged; [intros ? ? [? _]%orb_false_iff; done| |done]. intros h3 t' _ (m & Hm). apply (traced_end _ _ _ _ (Ok _)). apply ends_well_done.
    split; [done|]. exists m. naive_solver.
  - apply guided_judged. eapply in_journal_included, Ht. apply included_snoc.
Qed.

Lemma is_completed_Some (existing : option (Task Result)) t : is_completed existing = Some t → existing = Some t ∧ t_status t = TaskCompleted.
Proof. unfold is_completed. destruct existing as [e|]; [|done]. destruct (bool_decide _) eqn:E; [|done]. bools. naive_solver. Qed.

Lemma locked_judged h s path existing : (∀ t, existing = Some t → in_journal h t) →
  traced in_body h s (locked_run path existing) body_post.
Proof.
  intros Ht. unfold SafeRunner.locked_run. apply traced_bind.
  apply traced_weaken with (post := λ h' _ r, included h h' ∧ ∀ t, r = Ok t → in_journal h' t).
  - intros h1 s1 [t|e] [H1 Hj]; [|done]. specialize (Hj t eq_refl).
    apply traced_part; [go| |done]. intros h2 s2 [u|x] H2.
    + apply interrupted_judged. by eapply in_journal_included.
    + destruct (bool_decide _); [done|apply silent_in_body, failStarted_judged].
  - destruct (is_completed existing) as [t|] eqn:E; go.
    + split; [apply included_refl|]. intros t' [= <-]. apply Ht. by apply is_completed_Some in E as [? _].
    + split; [intros x ?; in_history|]. intros t' [= <-]. right. eexists. split; [|apply here]. done.
    + split; [intros x ?; in_history|done].
    + split; [intros x ?; in_history|done].
Qed.

(** ** The lock *)

Definition lock_pre (h : trace) (c : call) : Prop :=
  match c with
  | AcquireLock li => lock_state h = None ∧ li_taskId li = ri_taskId i ∧ li_ownerPid li = ownerPid o
  | ReleaseLock l => lock_state h = Some l
  | _ => outside c = false → lock_state h ≠ None
  end.

Lemma under_lock_held {A} h s (m : P A) post l : traced in_body h s m post → lock_state h = Some l →
  traced lock_pre h s m (λ h' s' r, post h' s' r ∧ lock_state h' = Some l).
Proof.
  unfold traced. generalize (m s). intros p. revert h. induction p as [[s' r]|c k IH]; intros h; [done|].
  intros [Hc Hk] Hl. split; [destruct c; try done; cbn; congruence|]. intros r. apply IH; [apply Hk|].
  rewrite held_lock_snoc. by destruct c.
Qed.

Lemma outside_lock {A} h s (m : P A) post : traced (λ _ c, outside c = true) h s m post → lock_state h = None →
  traced lock_pre h s m (λ h' s' r, post h' s' r ∧ lock_state h' = None).
Proof.
  unfold traced. generalize (m s). intros p. revert h. induction p as [[s' r]|c k IH]; intros h; [done|].
  intros [Hc Hk] Hl. split; [by destruct c|]. intros r. apply IH; [apply Hk|]. rewrite held_lock_snoc. by destruct c.
Qed.

Definition run_post (h : trace) (_ : local) (r : result Thrown Out) : Prop :=
  lock_state h = None ∧ ∀ x, r = Ok x → recorded h x.

Lemma under_lock_judged h s path existing : lock_state h = None → (∀ t, existing = Some t → in_journal h t) →
  traced lock_pre h s (under_lock localeCompare sha256_hex with_prompt o i path existing) run_post.
Proof.
  intros Hl Ht. unfold under_lock. tstep; [done| |by split; [rewrite held_lock_snoc|]].
  tstep; [by split; [rewrite held_lock_snoc|]| |by split; [rewrite !held_lock_snoc|]].
  set (h1 := _ ++ [Ev (AcquireLock _) _]). assert (lock_state h1 = Some a0) as H1 by (unfold h1; by rewrite held_lock_snoc).
  apply traced_bind, traced_finally. eapply traced_weaken; [|apply (under_lock_held _ _ _ body_post); [|exact H1]].
  - intros h2 s2 r [Hr H2]. apply traced_bind.
    eapply traced_weaken; [|eapply (under_lock_held _ _ _ _); [apply silent_in_body, release_all_judged|exact H2]].
    intros h3 s3 ? [[H23 [u ->]] H3]. apply traced_await_end; [done|]. intros f. 
    set (h4 := h3 ++ _). assert (lock_state h4 = None) as H4 by (unfold h4; by rewrite held_lock_snoc).
    assert (included h2 h4) as H24 by (intros e He; unfold h4; in_history).
    destruct f as [[]|e]; [|by split]. destruct r as [p|e]; [|by split].
    eapply traced_weaken; [|eapply outside_lock; [by apply (Hr h4 s3)|done]]. intros h5 s5 r [Hx H5]. by split.
  - apply locked_judged. intros t Et. eapply in_journal_included, (Ht t Et). intros e He. unfold h1. in_history.
Qed.

Lemma run_judged s : traced lock_pre [] s run run_post.
Proof.
  unfold SafeRunner.run. tstep; [|done]. tstep; [done| |done]. tstep; [done| |done].
  assert (∀ t, a1 = Some t → in_journal (([] ++ [Ev (CanonicalizePath (ri_path i)) (Ok a0)]) ++ [Ev (ReadTask (ri_taskId i)) (Ok a1)]) t)
    as Hj by (intros t ->; left; apply here).
  destruct (is_completed a1) as [t|] eqn:E; [|by apply under_lock_judged].
  destruct (_ || _); [|by apply under_lock_judged]. apply is_completed_Some in E as [-> Hc].
  apply (traced_end _ _ _ _ (Ok _)). split; [done|]. intros x [= <-]. simpl. auto.
Qed.

(** C23: The workspace lock. Whatever the ports answer or throw, a run of a task
    acquires the lock of its workspace at most once, in its own name, gives back the lock it
    holds and holds none when it is over, however it ends; and a worker is only
    run, guidance only consumed, confirmed or released, an attempt only
    registered, the workspace only looked at and the journal only written while
    the lock is held, but for waiting for a mark of a failed start. *)
Theorem safe_run_locked tr s r : runs (run start) tr (s, r) →
  lock_state tr = None ∧
  ∀ tr1 c x tr2, tr = tr1 ++ Ev c x :: tr2 →
    match c with
    | AcquireLock li => lock_state tr1 = None ∧ li_taskId li = ri_taskId i ∧ li_ownerPid li = ownerPid o
    | ReleaseLock l => lock_state tr1 = Some l
    | _ => outside c = false → lock_state tr1 ≠ None
    end.
Proof.
  intros Hr. destruct (traced_runs lock_pre start run run_post tr s r (run_judged start) Hr) as [[Hl _] Hp]. done.
Qed.

(** C26: What a run reports. Whatever the ports answer or throw, a run that
    reports a result has it from a worker and from the journal, which was asked to
    complete the task with it, or replays the completed task that the journal
    answered; and a run that reports that the task stopped reports the record
    that the journal answered when it was marked so. *)
Theorem safe_outcome_recorded tr s x : runs (run start) tr (s, Ok x) → recorded tr x.
Proof.
  intros Hr. destruct (traced_runs lock_pre start run run_post tr s _ (run_judged start) Hr) as [[_ Hx] _]. by apply Hx.
Qed.
(** ** Attempts *)

Definition runs_made (h : trace) : nat := length (List.filter (λ e, match e with Ev c _ => is_run c end) h).

Lemma runs_made_app h h' : runs_made (h ++ h') = (runs_made h + runs_made h')%nat.
Proof. unfold runs_made. by rewrite List.filter_app, length_app. Qed.
Lemma runs_made_snoc h c r : runs_made (h ++ [Ev c r]) = (runs_made h + if is_run c then 1 else 0)%nat.
Proof. rewrite runs_made_app. unfold runs_made at 2. simpl. by destruct (is_run c). Qed.

Definition mode : ContinuationMode := np_continuationMode (policy i).
Definition limit : Z := np_maxAttempts (policy i).

(** The failure of attempt [n] is in the journal, and another may follow it. *)
Definition failed_before (h : trace) (n : Z) : Prop :=
  ∃ a now t r, Ev (AppendAttempt (ri_taskId i) a now) (Ok t) ∈ h ∧ attemptNumber a = n ∧ failureReason a = Some r ∧
    (r ∉ [PermissionRequired; BudgetExceeded; CheckpointUnprotected; UserAbort]) ∧
    (dirtyAfter a = true → (r ∉ [TaskTimeout; ProviderOutputInvalid]) ∧
       (r = UnknownError → np_retryUnknownChangedWorkspace (policy i) = true)).

Definition retried (h : trace) (n : Z) : Prop :=
  mode ≠ Disabled ∧ ri_effectMode i ≠ ExternalSideEffects ∧ failed_before h n.

Lemma retried_included h h' n : included h h' → retried h n → retried h' n.
Proof.
  intros Hh (? & ? & a & now & t & r & ? & ? & ? & ? & ?). split_and!; try done. exists a, now, t, r. auto.
Qed.

(** Guidance was consumed. *)
Definition guided_by (h : trace) : Prop := ∃ ci b, Ev (Consume ci) (Ok b) ∈ h ∧ Control.b_signalIds b ≠ [].

Definition done_before (ex : option (Task Result)) : Z := Z.of_nat (length (match ex with Some e => attempts e | None => [] end)).

Definition within_limit (h : trace) (ex : option (Task Result)) (n : Z) : Prop :=
  (n <= limit)%Z ∨ ex ≠ None ∧ guided_by h ∧ (n <= done_before ex + limit)%Z.

Lemma within_limit_le h h' ex n m : included h h' → (m <= n)%Z → within_limit h ex n → within_limit h' ex m.
Proof.
  intros Hh Hm [?|(? & (ci & b & ? & ?) & ?)]; [left; lia|right]. split_and!; [done| |lia]. exists ci, b. auto.
Qed.

Definition attempt_pre (ex : option (Task Result)) (h : trace) (c : call) : Prop :=
  match c with
  | PoolRun job key k => ∃ n, n = (done_before ex + 1 + Z.of_nat (runs_made h))%Z ∧
      key = ri_taskId i ++ js ":" ++ js (pretty n) ∧ within_limit h ex n ∧ (runs_made h ≠ 0%nat → retried h (n - 1))
  | _ => True
  end.

Section attempts.
Context (ex : option (Task Result)).
Abbreviation pre := (attempt_pre ex).

(** A part without workers only adds to the history. *)
Lemma silent_attempt {A} h s (m : P A) post : traced silent h s m post →
  traced pre h s m (λ h' s' r, post h' s' r ∧ runs_made h' = runs_made h ∧ included h h').
Proof.
  intros H%traced_extends. revert H. unfold traced.
  set (post' := λ h' '(s', r), _). generalize (m s) as p. intros p H.
  cut (judged pre h p (λ h' x, post' h' x ∧ runs_made h' = runs_made h)).
  { apply judged_weaken. intros h' [s' r] [[? [t ->]] ?]. split_and!; [done..|]. apply included_app. }
  clearbody post'. revert h H. induction p as [x|c k IH]; intros h; [done|]. intros [Hc Hk].
  assert (is_run c = false) as Hr by (by apply orb_false_iff in Hc as [_ ?]).
  split; [by destruct c|]. intros r. eapply judged_weaken; [|apply IH, Hk].
  intros h' x [? ->]. split; [done|]. rewrite runs_made_snoc, Hr. lia.
Qed.

Lemma silent_part {A B} h s (m : P A) (f : A → P B) post :
  traced silent h s m any →
  (∀ h' s' a, included h h' → runs_made h' = runs_made h → traced pre h' s' (f a) post) →
  (∀ h' s' e, included h h' → runs_made h' = runs_made h → post h' s' (Throw e)) →
  traced pre h s (m ≫= f) post.
Proof.
  intros Hm Hf Ht. apply traced_bind. eapply traced_weaken; [|apply silent_attempt, Hm].
  intros h' s' [a|e] (_ & ? & ?); auto.
Qed.

Lemma failStarted_again h s e : traced pre h s (failStartedTask i e) any.
Proof. eapply traced_weaken; [|apply silent_attempt, failStarted_judged]. done. Qed.

Lemma mark_again h s st r msg d (f : Task Result → P (P Out)) :
  (∀ h' s' t, traced pre h' s' (f t) any) → traced pre h s (mark i st r msg d ≫= f) any.
Proof. intros Hf. apply mark_judged; [by intros h' []| |done]. intros h' t _ _. apply Hf. Qed.

Lemma failed_retried h n c before after remaining :
  allowed (shouldContinueSafeExecutionAfterFailure c (policy i) (ri_effectMode i) (workspaceChanged before after) remaining) = true →
  (∃ a now t, Ev (AppendAttempt (ri_taskId i) a now) (Ok t) ∈ h ∧ attemptNumber a = n ∧ failureReason a = Some (reason c) ∧
     dirtyAfter a = dirty after) → retried h n.
Proof.
  intros (_ & ? & ? & ? & Hc)%continue_allowed (a & now & t & ? & ? & ? & Hd). split_and!; try done.
  exists a, now, t, (reason c). split_and!; try done. rewrite Hd. intros Hdirty. apply Hc. unfold workspaceChanged. by rewrite Hdirty, orb_true_r.
Qed.

Lemma blocked_stops h s t c changed msg e :
  traced silent h s (blocked i t c changed msg e) (λ _ _ r, ∀ t j, r ≠ Ok (Again t j)).
Proof. unfold blocked, mark. go. Qed.

Lemma attempt_fails_again h s path prompt job n max startedAt before e :
  traced silent h s (attempt_fails localeCompare sha256_hex with_prompt o i path prompt job n max startedAt before e)
    (λ h' _ r, ∀ t j, r = Ok (Again t j) → retried h' n).
Proof.
  unfold attempt_fails. apply traced_part; [apply capture_after_judged| |done]. intros h1 s1 [after x] _.
  apply traced_part; [unfold classify; go| |done]. intros h2 s2 c _. unfold when_some. go.
  all: try (eapply traced_weaken; [|apply blocked_stops]; naive_solver).
  all: eapply traced_weaken; [|apply traced_extends, continue_judged]; intros h' s' ? [_ [t0 ->]] t1 j _.
  all: eapply failed_retried; [by apply negb_false_iff|eexists _, _, _; split; [apply included_app, here|done]].
Qed.

Lemma pool_reply_silent h s k reply : traced silent h s (pool_reply k reply) any.
Proof.
  destruct reply as [|v]; [|done]. unfold pool_reply. apply traced_part; [destruct k; [done|]| |done].
  - apply traced_settled_any, confirm_all_judged.
  - intros. go.
Qed.

Lemma record_success_stops h s path n startedAt before v :
  traced silent h s (record_success localeCompare sha256_hex i path n startedAt before v) (λ _ _ r, ∀ t j, r ≠ Ok (Again t j)).
Proof.
  unfold record_success. apply traced_part; [apply confirm_all_judged| |done]. intros h2 s2 _ H2.
  apply traced_part; [apply capture_after_judged| |done]. intros h3 s3 [after x] H3. unfold when_some. go.
Qed.

Definition unregister (path : jsstring) (n : Z) (startedAt : date) : P unit :=
  if has_registry o
  then await_ (Unregister (mkActive (ri_taskId i) n (ri_provider i) path (attemptControlTarget i path n) startedAt)) else done_ tt.

Lemma attempt_again h s path prompt job n max before :
  n = (done_before ex + 1 + Z.of_nat (runs_made h))%Z → within_limit h ex n → (runs_made h ≠ 0%nat → retried h (n - 1)) →
  traced pre h s (attempt localeCompare sha256_hex with_prompt o i path prompt job n max before)
    (λ h' _ r, ∀ t j, r = Ok (Again t j) → runs_made h' = S (runs_made h) ∧ included h h' ∧ retried h' n).
Proof.
  intros Hn Hlim Hre. unfold attempt. tstep; [done| |done]. apply silent_part; [go| |done]. intros h1 s1 _ H1 R1.
  rewrite runs_made_snoc, Nat.add_0_r in R1.
  assert (included h h1) as H01 by (eapply included_trans, H1; apply included_snoc).
  set (post := λ h' (_ : local) (r : result Thrown (Next (Job:=Job) (Result:=Result))), _).
  assert (∀ h' s' r, post h' s' r → traced pre h' s' (unregister path n a)
    (λ h'' s'' f, post h'' s'' (match f with Ok _ => r | Throw e => Throw e end))) as Hlast.
  { intros h' s' r Hr. unfold unregister. go. intros t j ->. destruct (Hr t j eq_refl) as (Hm & Hi & Ht).
    split_and!; [by rewrite runs_made_snoc, Nat.add_0_r|intros x Hx; apply included_snoc, Hi, Hx|].
    eapply retried_included, Ht. apply included_snoc. }
  assert (∀ h' s' e, runs_made h' = S (runs_made h) → included h h' → traced pre h' s'
    (attempt_fails localeCompare sha256_hex with_prompt o i path prompt job n max a before e)
    (λ h'' s'' r, traced pre h'' s'' (unregister path n a)
       (λ h3 s3 f, post h3 s3 (match f with Ok _ => r | Throw e => Throw e end)))) as Hfails.
  { intros h' s' e Hm Hi. eapply traced_weaken; [|apply silent_attempt, attempt_fails_again].
    intros h'' s'' r (Hr & Hm' & Hi'). apply Hlast. intros t j Er. split_and!; [congruence| |by eapply Hr].
    by eapply included_trans. }
  apply traced_finally, traced_catch. unfold attempt_succeeds, pool_run. tstep. tstep. tstep. tstep.
  { exists n. rewrite R1. split_and!; [done|done|by eapply within_limit_le|]. intros Hr. by eapply retried_included, Hre. }
  2: { apply Hfails; [by rewrite runs_made_snoc, R1, Nat.add_1_r|]. intros x Hx. apply included_snoc, H01, Hx. }
  set (h2 := h1 ++ _). assert (runs_made h2 = S (runs_made h)) as R2 by (unfold h2; by rewrite runs_made_snoc, R1, Nat.add_1_r).
  assert (included h h2) as H02 by (intros x Hx; apply included_snoc, H01, Hx). clearbody h2.
  apply silent_part; [apply pool_reply_silent| |].
  2: { intros h3 s3 e H3 R3. apply Hfails; [congruence|by eapply included_trans]. }
  intros h3 s3 v H3 R3. eapply traced_weaken; [|apply silent_attempt, record_success_stops].
  intros h4 s4 [r|e] (Hr & R4 & H4); [apply Hlast; intros t j [= ->]; by destruct (Hr t j)|].
  apply Hfails; [congruence|]. intros x Hx. by apply H4, H3, H02.
Qed.

Lemma attempts_again h s remaining path prompt max n before t job :
  n = (done_before ex + 1 + Z.of_nat (runs_made h))%Z → (remaining = 0%nat ∨ (n + Z.of_nat remaining = max + 1)%Z) →
  within_limit h ex max → (runs_made h ≠ 0%nat → retried h (n - 1)) →
  traced pre h s (attempts_from localeCompare sha256_hex with_prompt o i remaining path prompt max n before t job) any.
Proof.
  revert h s n before t job. induction remaining as [|remaining IH]; intros h s n before t job Hn Hmax Hlim Hre; cbn [attempts_from].
  - unfold exhausted. by apply mark_again.
  - destruct Hmax as [|Hmax]; [done|]. apply silent_part; [unfold aborted; go| |done]. intros h1 s1 a H1 R1.
    destruct a; [by apply mark_again|].
    apply silent_part; [go| |done]. intros h2 s2 [sn|e] H2 R2.
    2: { apply failStarted_again. }
    assert (included h h2) as H02 by (by eapply included_trans). assert (runs_made h2 = runs_made h) as R02 by congruence.
    apply traced_bind. eapply traced_weaken; [|apply attempt_again].
    + intros h3 s3 [[p|t' j]|e] Hr; [by apply (traced_end _ _ _ _ (Ok p))| |done].
      destruct (Hr t' j eq_refl) as (R3 & H3 & Ht). apply IH; [lia|right; lia| |].
      * eapply within_limit_le; [|done|exact Hlim]. by eapply included_trans.
      * intros _. by replace (n + 1 - 1)%Z with n by lia.
    + lia.
    + eapply within_limit_le; [exact H02| |exact Hlim]. lia.
    + rewrite R02. intros Hr. by eapply retried_included, Hre.
Qed.
(** ** Before the first attempt *)

Lemma loop_again h s path guided before t job prompt : runs_made h = 0%nat → (guided = true → guided_by h) →
  traced pre h s
    (loop localeCompare sha256_hex with_prompt o i path ex (done_before ex + 1) guided before t job prompt) any.
Proof.
  intros Hr Hg. unfold loop. cbv zeta. apply attempts_again; [lia| | |by rewrite Hr].
  - destruct (_ && _); lia.
  - destruct (found ex && guided) eqn:E; [|left; done]. apply andb_true_iff in E as [E ->]. right.
    split_and!; [by destruct ex|by apply Hg|unfold limit; lia].
Qed.

Lemma resume_again h s path before t batch controlled r : runs_made h = 0%nat → (found controlled = true → guided_by h) →
  traced pre h s
    (resume localeCompare sha256_hex with_prompt o i path ex (done_before ex + 1) before t batch controlled r) any.
Proof.
  intros Hr Hg. unfold resume. apply silent_part; [go| |done]. intros h1 s1 _ H1 R1.
  tstep; [done| |apply failStarted_again]. tstep.
  apply silent_part; [apply packet_judged| |done]. intros h2 s2 p H2 R2. rewrite runs_made_snoc, Nat.add_0_r in R2. go.
  - apply loop_again; [congruence|]. intros Hf. destruct (Hg Hf) as (ci & b & ? & ?). exists ci, b. split; [|done]. in_history.
  - by apply mark_again.
Qed.

Lemma start_again h s path before t batch controlled : runs_made h = 0%nat → (found controlled = true → guided_by h) →
  traced pre h s
    (start_attempts localeCompare sha256_hex with_prompt o i path ex (done_before ex + 1) before t batch controlled) any.
Proof.
  intros Hr Hg. unfold start_attempts. tstep. cbv zeta. destruct (bool_decide _ && _); [by apply (traced_end _ _ _ _ (Ok _))|].
  apply silent_part; [go| |done]. intros h1 s1 t1 H1 R1.
  assert (found controlled = true → guided_by h1) as Hg1.
  { intros Hf. destruct (Hg Hf) as (ci & b & ? & ?). exists ci, b. split; [|done]. by apply H1. }
  go; first [apply loop_again|apply resume_again]; first [congruence|done].
Qed.

Lemma guidance_consumed h s path first t : traced silent h s (startup_guidance o i path first t)
  (λ h' _ r, ∀ b, r = Ok (Some b) → ∃ ci, Ev (Consume ci) (Ok b) ∈ h').
Proof.
  unfold startup_guidance, consume, keep_delivery. go.
  all: try (intros b [= <-]; eexists; apply here).
Qed.

Lemma controlled_guided h s first t batch : traced silent h s (controlled_startup i first t batch)
  (λ _ _ r, ∀ c, r = Ok (Some c) → ∃ b, batch = Some b ∧ has_signals b = true).
Proof. unfold controlled_startup. go. intros ? _. eauto. Qed.

Lemma guided_again h s path t : runs_made h = 0%nat →
  traced pre h s (guided_run localeCompare sha256_hex with_prompt o i path ex (done_before ex + 1) t) any.
Proof.
  intros Hr. unfold guided_run. cbv zeta. destruct (_ && _); [by apply (traced_end _ _ _ _ (Ok _))|].
  apply silent_part; [unfold aborted; go| |done]. intros h1 s1 a H1 R1. destruct a.
  { destruct (bool_decide _); [by apply (traced_end _ _ _ _ (Ok _))|]. unfold abort_run.
    by apply mark_again. }
  apply silent_part; [go| |done]. intros h2 s2 before H2 R2.
  apply traced_bind. eapply traced_weaken; [|apply silent_attempt, guidance_consumed].
  intros h3 s3 [batch|e] (Hb & R3 & H3); [|done].
  apply traced_bind. eapply traced_weaken; [|apply silent_attempt, controlled_guided].
  intros h4 s4 [controlled|e] (Hc & R4 & H4); [|done].
  apply start_again; [congruence|]. destruct controlled as [c|]; [|done]. intros _.
  destruct (Hc c eq_refl) as (b & -> & Hs). destruct (Hb b eq_refl) as [ci Hci]. exists ci, b. split; [by apply H4|].
  unfold has_signals in Hs. by destruct (Control.b_signalIds b).
Qed.

Lemma interrupted_again h s path t : runs_made h = 0%nat →
  traced pre h s (interrupted_run localeCompare sha256_hex with_prompt o i path ex (done_before ex + 1) t) any.
Proof.
  intros Hr. pose proof guided_again as Hg. pose proof failStarted_again as Hf. pose proof mark_again as Hm.
  unfold interrupted_run. destruct ex as [e|]; [|by apply Hg]. destruct (_ && _); [|by apply Hg].
  tstep; [done| |apply Hf]. destruct (dirty _); [by apply Hm|]. apply Hg. by rewrite runs_made_snoc, Hr.
Qed.

Lemma locked_again h s path : runs_made h = 0%nat → traced pre h s (locked_run path ex) any.
Proof.
  intros Hr. unfold SafeRunner.locked_run. cbv zeta. apply silent_part; [go| |done]. intros h1 s1 t H1 R1.
  apply silent_part; [go| |done]. intros h2 s2 [u|x] H2 R2.
  - apply interrupted_again. congruence.
  - destruct (bool_decide _); [done|apply failStarted_again].
Qed.

Lemma outside_attempt {A} h s (m : P A) post : traced (λ _ c, outside c = true) h s m post → traced pre h s m post.
Proof. apply traced_pre_weaken. by intros ? []. Qed.

Lemma under_lock_again h s path : (∀ t, ex = Some t → in_journal h t) → runs_made h = 0%nat →
  traced pre h s (under_lock localeCompare sha256_hex with_prompt o i path ex) any.
Proof.
  intros Ht Hr. unfold under_lock. tstep; [done| |done]. tstep; [done| |done]. apply traced_bind, traced_finally.
  set (h1 := (h ++ _) ++ _). assert (included h h1) as H1 by (intros e He; unfold h1; in_history).
  assert (runs_made h1 = 0%nat) as R1 by (unfold h1; by rewrite !runs_made_snoc, Hr). clearbody h1.
  eapply traced_weaken; [|eapply traced_both; [apply locked_judged|by apply locked_again]].
  2: { intros t Et. eapply in_journal_included, (Ht t Et). done. }
  intros h2 s2 r [Hp _]. apply silent_part; [|intros h3 s3 _ H3 R3|done].
  { eapply traced_weaken; [|apply release_all_judged]. done. }
  refine (traced_await_end pre h3 s3 (ReleaseLock a0) _ _ _); [done|]. intros [u|e]; [|done]. destruct r as [p|e]; [|done].
  apply outside_attempt. eapply traced_weaken; [|apply (Hp _ s3)]; [done|]. intros e He. in_history.
Qed.
End attempts.

(** The attempts that the journal had when the run read it. *)
Definition run_pre (h : trace) (c : call) : Prop :=
  is_run c = true → ∃ ex, Ev (ReadTask (ri_taskId i)) (Ok ex) ∈ h ∧ attempt_pre ex h c.

Lemma run_again s : traced run_pre [] s run any.
Proof.
  unfold SafeRunner.run. tstep; [|done]. tstep; [done| |done]. tstep; [done| |done].
  set (h := ([] ++ _) ++ _).
  cut (traced (attempt_pre a1) h s (under_lock localeCompare sha256_hex with_prompt o i a0 a1) any).
  { intros Hu. cut (traced run_pre h s (under_lock localeCompare sha256_hex with_prompt o i a0 a1) any).
    { intros H'. destruct (is_completed a1); [|done]. destruct (_ || _); [by apply (traced_end _ _ _ _ (Ok _))|done]. }
    revert Hu. unfold traced. generalize (under_lock localeCompare sha256_hex with_prompt o i a0 a1 s). intros p.
    assert (Ev (ReadTask (ri_taskId i)) (Ok a1) ∈ h) as Hin by apply here. clearbody h. revert h Hin.
    induction p as [x|c k IH]; intros h Hin; [done|]. intros [Hc Hk]. split; [by exists a1|].
    intros r. apply IH; [in_history|done]. }
  apply under_lock_again; [|done]. intros t ->. left. apply here.
Qed.

(** C24: Attempts. Whatever the ports answer or throw, the workers that a run of a
    task starts are attempts with consecutive numbers, after those that the
    journal had when the run read the task, each with a key of its own. Their
    numbers stay within the policy's number of attempts, which guidance that the
    run consumed for a task that existed gives anew. A worker is only started
    again when the policy continues tasks, the task's effects are not external
    and the failure of the attempt before it is in the journal, and is no failure
    that needs an operator, or leaves changes in the workspace that are not to be
    retried. *)
Theorem safe_attempts_bounded tr s r tr1 job key k x tr2 :
  runs (run start) tr (s, r) → tr = tr1 ++ Ev (PoolRun job key k) x :: tr2 →
  ∃ ex n, Ev (ReadTask (ri_taskId i)) (Ok ex) ∈ tr1 ∧ n = (done_before ex + 1 + Z.of_nat (runs_made tr1))%Z ∧
    key = ri_taskId i ++ js ":" ++ js (pretty n) ∧
    ((n <= limit)%Z ∨ ex ≠ None ∧ guided_by tr1 ∧ (n <= done_before ex + limit)%Z) ∧
    (runs_made tr1 ≠ 0%nat → mode ≠ Disabled ∧ ri_effectMode i ≠ ExternalSideEffects ∧ failed_before tr1 (n - 1)).
Proof.
  intros Hr E. destruct (traced_runs run_pre start run any tr s r (run_again start) Hr) as [_ Hp].
  destruct (Hp tr1 _ x tr2 E eq_refl) as (ex & Hex & n & H). by exists ex, n.
Qed.
End guards.

(** ** Witnesses *)

Abbreviation patch_input := (SafeWorld.world_input WorkspacePatch 3 false).
Abbreviation two_trace := (SafeWorld.world_trace SafeWorld.no_faults true patch_input SafeWorld.two_attempts).

Lemma safe_run_locked_witness : lock_state two_trace = None.
Proof.
  exact (proj1 (safe_run_locked SafeWorld.compare_all SafeWorld.sha SafeWorld.as_prompt (SafeWorld.world_options true) patch_input
    _ _ _ (SafeWorld.world_runs SafeWorld.no_faults true patch_input SafeWorld.two_attempts))).
Defined.

Lemma safe_outcome_recorded_witness : ∃ x, recorded patch_input two_trace x.
Proof.
  destruct (SafeWorld.runs_ok _ _ _ _ (SafeWorld.world_runs SafeWorld.no_faults true patch_input SafeWorld.two_attempts)) as [x Hx];
    [by vm_compute|].
  exists x. exact (safe_outcome_recorded SafeWorld.compare_all SafeWorld.sha SafeWorld.as_prompt (SafeWorld.world_options true)
    patch_input _ _ _ Hx).
Defined.

(** Its second worker, after the failure of the first was journalled. *)
Lemma safe_attempts_bounded_witness :
  ∃ ex : option (Task jsstring), failed_before patch_input (take 18 two_trace) (done_before ex + 1).
Proof.
  assert (∃ job k n x, two_trace !! 18%nat = Some (Ev (PoolRun job k n) x)) as (job & k & n & x & E)
    by (vm_compute; repeat eexists).
  destruct (safe_attempts_bounded SafeWorld.compare_all SafeWorld.sha SafeWorld.as_prompt (SafeWorld.world_options true) patch_input
    _ _ _ (take 18 two_trace) job k n x (drop 19 two_trace)
    (SafeWorld.world_runs SafeWorld.no_faults true patch_input SafeWorld.two_attempts) (eq_sym (take_drop_middle _ _ _ E)))
    as (ex & m & _ & Hm & _ & _ & Hre).
  assert (runs_made (take 18 two_trace) = 1%nat) as R by (by vm_compute).
  exists ex. rewrite R in Hm, Hre. destruct Hre as (_ & _ & Hf); [done|]. by replace (done_before ex + 1)%Z with (m - 1)%Z by lia.
Defined.
End SafeGuards.
