(* ===== verification/SafeGuidance.v ===== *)
(** * Safe execution: the delivery of guidance

    What [SafeRunner.v] does with the batches of guidance that it consumed from
    the control inbox, over all runs. *)

From stdpp Require Import base numbers option sets strings pretty list.
From S2P Require Import Prelude Json WorkerInbox Programs WorkerControl StatePrograms SafePolicy SafeTask SafeRunner SafeWorld SafeGuards.

Module SafeGuidance.
Import SafePolicy SafeTask SafeRunner SafeGuards.

Section guidance.
Context {Job Result : Type}.
Context (localeCompare : jsstring → jsstring → comparison) (sha256_hex : jsstring → jsstring).
Context (with_prompt : Job → jsstring → option Job).
Context (o : Options) (i : RunInput (Job:=Job) (Result:=Result)).

Abbreviation call := (call (Job:=Job) (Result:=Result)).
Abbreviation trace := (history Thrown (answer (Job:=Job) (Result:=Result))).
Abbreviation P := (Stateful Thrown (answer (Job:=Job) (Result:=Result)) local).
Abbreviation run := (run localeCompare sha256_hex with_prompt o i).

Definition consumed (h : trace) (b : Control.Batch) : Prop := ∃ ci, Ev (Consume ci) (Ok b) ∈ h.
(** A batch that waits for its confirmation. *)
Definition deferred (b : Control.Batch) : Prop := Control.b_signalIds b ≠ [] ∧ supportsDeferredControlDelivery o = true.
(** A worker was started. *)
Definition started (h : trace) : Prop := ∃ job key k reply, Ev (PoolRun job key k) (Ok reply) ∈ h.
(** A batch was confirmed, or its release was tried. *)
Definition settled (h : trace) (b : Control.Batch) : Prop :=
  Ev (Confirm b) (Ok tt) ∈ h ∨ ∃ r, Ev (Release b) r ∈ h.

Definition guidance_pre (h : trace) (c : call) : Prop :=
  match c with
  | Confirm b => consumed h b ∧ started h
  | Release b => consumed h b
  | ReleaseLock _ => ∀ b, consumed h b → deferred b → settled h b
  | _ => True
  end.
Abbreviation pre := guidance_pre.

(** ** The deliveries of the state *)

Definition kept (h : trace) (s : local) : Prop :=
  (∀ b, consumed h b → deferred b → b ∈ d_batch <$> deliveries s) ∧
  (∀ d, d ∈ deliveries s → consumed h (d_batch d) ∧ (d_state d ≠ Claimed → settled h (d_batch d))).

Lemma consumed_included h h' b : included h h' → consumed h b → consumed h' b.
Proof. intros Hh [ci ?]. exists ci. auto. Qed.
Lemma settled_included h h' b : included h h' → settled h b → settled h' b.
Proof. intros Hh [?|[r ?]]; [left|right; exists r]; auto. Qed.

Definition is_consume (c : call) : bool := match c with Consume _ => true | _ => false end.

Lemma consumed_snoc h c r b : is_consume c = false → consumed (h ++ [Ev c r]) b → consumed h b.
Proof.
  intros Hc [ci [?|[= <-]%list_elem_of_singleton]%elem_of_app]; [by exists ci|done].
Qed.

Lemma kept_snoc h s c r : is_consume c = false → kept h s → kept (h ++ [Ev c r]) s.
Proof.
  intros Hc [H1 H2]. split; [intros b Hb; apply H1; by eapply consumed_snoc|]. intros d Hd. destruct (H2 d Hd) as [Hb Hs].
  split; [eapply consumed_included, Hb|intros Hd'; eapply settled_included, Hs, Hd']; apply included_snoc.
Qed.

Lemma kept_throw h s ci e : kept h s → kept (h ++ [Ev (Consume ci) (Throw e)]) s.
Proof.
  intros [H1 H2]. split.
  - intros b [ci' [?|[=]%list_elem_of_singleton]%elem_of_app]. apply H1. by exists ci'.
  - intros d Hd. destruct (H2 d Hd) as [Hb Hs].
    split; [eapply consumed_included, Hb|intros Hd'; eapply settled_included, Hs, Hd']; apply included_snoc.
Qed.

Definition batch_of (e : event (fallible Thrown (answer (Job:=Job) (Result:=Result)))) : option Control.Batch :=
  match e with
  | Ev c r =>
      match c return fallible Thrown (answer (Job:=Job) (Result:=Result)) c → option Control.Batch with
      | Consume _ => λ r, match r with Ok b => Some b | Throw _ => None end
      | _ => λ _, None
      end r
  end.

Lemma kept_consume h s ci b : kept h s → has_signals b && supportsDeferredControlDelivery o = false →
  kept (h ++ [Ev (Consume ci) (Ok b)]) s.
Proof.
  intros [H1 H2] Hb. split.
  - intros b' [ci' [?|E]%elem_of_app] Hd; [apply H1; [by exists ci'|done]|]. apply list_elem_of_singleton in E.
    apply (f_equal batch_of) in E as [= ->]. destruct Hd as [Hi Hs]. unfold has_signals in Hb. rewrite Hs in Hb. by destruct (Control.b_signalIds b).
  - intros d Hd. destruct (H2 d Hd) as [Hd' Hs].
    split; [eapply consumed_included, Hd'|intros ?; eapply settled_included, Hs; [|done]]; apply included_snoc.
Qed.

Lemma kept_push h s ci b : kept h s → kept (h ++ [Ev (Consume ci) (Ok b)]) (push_delivery b s).
Proof.
  intros [H1 H2]. split; simpl.
  - intros b' [ci' [?|E]%elem_of_app] Hd; rewrite fmap_app; apply elem_of_app; [left; apply H1; [by exists ci'|done]|right].
    apply list_elem_of_singleton in E. apply (f_equal batch_of) in E as [= ->]. by apply list_elem_of_singleton.
  - intros d [Hd| ->%list_elem_of_singleton]%elem_of_app; simpl.
    + destruct (H2 d Hd) as [Hd' Hs].
      split; [eapply consumed_included, Hd'|intros ?; eapply settled_included, Hs; [|done]]; apply included_snoc.
    + split; [exists ci; apply here|done].
Qed.

Lemma batches_set k st s : d_batch <$> deliveries (set_delivery k st s) = d_batch <$> deliveries s.
Proof.
  simpl. apply list_eq. intros j. rewrite !list_lookup_fmap. destruct (decide (j = k)) as [->|];
    [rewrite list_lookup_alter_eq|rewrite list_lookup_alter_ne by done]; by destruct (deliveries s !! _).
Qed.

Lemma kept_set h k st s b : kept h s → deliveries s !! k = Some (mkDelivery b Claimed) → settled h b →
  kept h (set_delivery k st s).
Proof.
  intros [H1 H2] Hk Hb. split; [by rewrite batches_set|]. intros d [j Hj]%list_elem_of_lookup. simpl in Hj.
  destruct (decide (j = k)) as [->|].
  - rewrite list_lookup_alter_eq, Hk in Hj. injection Hj as <-. simpl. split; [|done].
    by destruct (H2 _ (list_elem_of_lookup_2 _ _ _ Hk)).
  - rewrite list_lookup_alter_ne in Hj by done. apply H2. by eapply list_elem_of_lookup_2.
Qed.

(** ** Parts of a run that keep the deliveries *)

Definition plain (c : call) : bool :=
  match c with Consume _ | Confirm _ | Release _ | ReleaseLock _ => false | _ => true end.

Lemma keeps_plain c : plain c = true → keeps pre kept (await_ c).
Proof. intros Hc. apply keeps_await; [by destruct c|]. intros h s r. apply kept_snoc. by destruct c. Qed.
Lemma keeps_output out : keeps pre kept (write_ (set_output out)).
Proof. by apply keeps_write. Qed.

Ltac kgo := repeat first [by apply keeps_plain | apply keeps_output | kstep].

Lemma consume_keep {A} path n (f : Control.Batch → P A) : (∀ b, keeps pre kept (f b)) →
  keeps pre kept (b ← consume o i path n; keep_delivery o b ;; f b).
Proof.
  intros Hf h s Hi. unfold consume. tstep. tstep; [done| |by apply kept_snoc]. tstep; [done| |by apply kept_throw, kept_snoc].
  unfold keep_delivery. destruct (has_signals _ && _) eqn:E.
  - tstep. by apply Hf, kept_push, kept_snoc.
  - tstep. by apply Hf, kept_consume; [apply kept_snoc|].
Qed.

Lemma packet_keeps path prompt n r sn out batch : keeps pre kept (buildContinuationPacket o i path prompt n r sn out batch).
Proof.
  unfold buildContinuationPacket. apply keeps_then; [|kgo]. destruct batch; [kgo|]. destruct (_ && _); [|kgo].
  apply consume_keep. kgo.
Qed.

Lemma startup_keeps path first t : keeps pre kept (startup_guidance o i path first t).
Proof. unfold startup_guidance. cbv zeta. destruct (_ && _ && _); [|kgo]. apply consume_keep. kgo. Qed.

(** Once a worker was started. *)
Definition under_way (h : trace) (s : local) : Prop := started h ∧ kept h s.

Lemma started_snoc h e : started h → started (h ++ [e]).
Proof. intros (job & key & k & reply & H). exists job, key, k, reply. apply elem_of_app. by left. Qed.

Lemma kept_delivery h s k b st : kept h s → deliveries s !! k = Some (mkDelivery b st) → consumed h b.
Proof. intros [_ H2] Hk. by destruct (H2 _ (list_elem_of_lookup_2 _ _ _ Hk)). Qed.

Lemma confirm_keeps k : keeps pre under_way (confirm (Job:=Job) (Result:=Result) k).
Proof.
  intros h s [Hw Hi]. unfold confirm, settle_delivery. tstep. destruct (deliveries s !! k) as [[b []]|] eqn:E; [|done..].
  tstep; [split; [by eapply kept_delivery|done]| |split; [by apply started_snoc|by apply kept_snoc]].
  split; [by apply started_snoc|]. destruct a. eapply kept_set; [by apply kept_snoc|done|left; apply here].
Qed.

Lemma confirm_all_keeps : keeps pre under_way (confirm_all (Job:=Job) (Result:=Result)).
Proof. unfold confirm_all. kgo. apply confirm_keeps. Qed.

Lemma under_way_keeps {A} (m : P A) : keeps pre kept m → keeps pre under_way m.
Proof. apply keeps_both. apply started_snoc. Qed.

Lemma record_success_keeps path n startedAt before v :
  keeps pre under_way (record_success localeCompare sha256_hex i path n startedAt before v).
Proof.
  unfold record_success. apply keeps_then; [apply confirm_all_keeps|]. intros _. apply under_way_keeps.
  unfold capture_after, when_some. kgo.
Qed.

Lemma pool_reply_keeps k reply : keeps pre under_way (pool_reply (Job:=Job) (Result:=Result) k reply).
Proof.
  unfold pool_reply. destruct reply; [|kgo]. apply keeps_then; [|intros; apply under_way_keeps; kgo].
  destruct k; [kgo|]. apply keeps_settled, confirm_all_keeps.
Qed.

Lemma attempt_succeeds_keeps path job n startedAt before :
  keeps pre kept (attempt_succeeds localeCompare sha256_hex i path job n startedAt before).
Proof.
  intros h s Hi. unfold attempt_succeeds, pool_run. tstep. tstep. tstep. tstep; [done| |by apply kept_snoc].
  set (m := _ ≫= _). cut (keeps pre under_way m).
  { intros Hm. eapply traced_weaken; [|apply Hm]; [by intros h' s' r []|]. split; [|by apply kept_snoc].
    do 4 eexists. apply here. }
  apply keeps_then; [apply pool_reply_keeps|]. intros v. apply record_success_keeps.
Qed.

Lemma mark_keeps st r msg d : keeps pre kept (mark (Job:=Job) i st r msg d).
Proof. unfold mark. kgo. Qed.

Lemma attempt_fails_keeps path prompt job n max startedAt before e :
  keeps pre kept (attempt_fails localeCompare sha256_hex with_prompt o i path prompt job n max startedAt before e).
Proof.
  unfold attempt_fails, capture_after, classify, blocked, continue_, when_some.
  repeat first [apply packet_keeps | apply mark_keeps | progress kgo].
Qed.

Lemma attempt_keeps path prompt job n max before :
  keeps pre kept (attempt localeCompare sha256_hex with_prompt o i path prompt job n max before).
Proof. unfold attempt. kgo; [apply attempt_succeeds_keeps|apply attempt_fails_keeps]. Qed.

Lemma failStarted_keeps e : keeps pre kept (failStartedTask (Job:=Job) i e).
Proof. unfold failStartedTask. kgo. Qed.

Ltac kparts := repeat first [apply packet_keeps | apply mark_keeps | apply failStarted_keeps | apply startup_keeps | apply attempt_keeps | progress kgo].

Lemma attempts_keeps remaining path prompt max n before t job :
  keeps pre kept (attempts_from localeCompare sha256_hex with_prompt o i remaining path prompt max n before t job).
Proof.
  revert n before t job. induction remaining as [|remaining IH]; intros n before t job; cbn [attempts_from];
    unfold exhausted, abort_run, aborted, return_; kparts. apply IH.
Qed.

Lemma resume_keeps path existing first before t batch controlled r :
  keeps pre kept (resume localeCompare sha256_hex with_prompt o i path existing first before t batch controlled r).
Proof. unfold resume, return_. kparts. apply attempts_keeps. Qed.

Lemma locked_keeps path existing : keeps pre kept (locked_run localeCompare sha256_hex with_prompt o i path existing).
Proof.
  unfold locked_run, interrupted_run, guided_run, start_attempts, controlled_startup, abort_run, aborted, return_.
  repeat first [apply resume_keeps | apply attempts_keeps | progress kparts].
Qed.

(** ** Giving the lock back *)

Definition batches (s : local) : list Control.Batch := d_batch <$> deliveries s.

Lemma release_settles h s k : kept h s →
  traced pre h s (settled_ (release (Job:=Job) (Result:=Result) k)) (λ h' s' r,
    kept h' s' ∧ included h h' ∧ batches s' = batches s ∧ (∀ b, batches s !! k = Some b → settled h' b) ∧ ∃ x, r = Ok x).
Proof.
  intros Hi. apply judged_bind. unfold batches. cut (traced pre h s (release k) (λ h' s' _,
    kept h' s' ∧ included h h' ∧ batches s' = batches s ∧ (∀ b, batches s !! k = Some b → settled h' b))).
  { apply judged_weaken. intros h' [s' r] (? & ? & ? & ?). split_and!; eauto. }
  unfold release, settle_delivery, batches. tstep. rewrite (list_lookup_fmap d_batch (deliveries s) k).
  destruct (deliveries s !! k) as [[b []]|] eqn:E.
  - assert (∀ r, settled (h ++ [Ev (Release b) r]) b) as Hb by (intros r; right; exists r; apply here).
    tstep; [by eapply kept_delivery| |].
    + refine (conj _ (conj _ (conj _ _))); [|apply included_snoc|apply batches_set|by intros b' [= <-]].
      eapply kept_set; [by apply kept_snoc|done|apply Hb].
    + split_and!; [by apply kept_snoc|apply included_snoc|done|by intros b' [= <-]].
  - split_and!; [done|apply included_refl|done|]. intros b' [= <-].
    destruct Hi as [_ H2]. by destruct (H2 _ (list_elem_of_lookup_2 _ _ _ E)) as [_ Hs]; apply Hs.
  - split_and!; [done|apply included_refl|done|]. intros b' [= <-].
    destruct Hi as [_ H2]. by destruct (H2 _ (list_elem_of_lookup_2 _ _ _ E)) as [_ Hs]; apply Hs.
  - by split_and!; [|apply included_refl| |].
Qed.

Lemma releases_settle h s l : kept h s →
  traced pre h s (each_ (λ k, settled_ (release (Job:=Job) (Result:=Result) k)) l) (λ h' s' r,
    kept h' s' ∧ included h h' ∧ batches s' = batches s ∧ (∀ k b, k ∈ l → batches s !! k = Some b → settled h' b)).
Proof.
  revert h s. induction l as [|k l IH]; intros h s Hi; cbn [each_].
  { apply (traced_end _ _ _ _ (Ok [])). split_and!; [done|apply included_refl|done|]. by intros k b ?%not_elem_of_nil. }
  apply traced_bind. eapply traced_weaken; [|by apply release_settles].
  intros h1 s1 r (Hi1 & H1 & Hb1 & Hs1 & [x ->]). apply traced_bind. eapply traced_weaken; [|by apply IH].
  intros h2 s2 r' (Hi2 & H2 & Hb2 & Hs2). 
  assert (kept h2 s2 ∧ included h h2 ∧ batches s2 = batches s ∧ (∀ k' b, k' ∈ k :: l → batches s !! k' = Some b → settled h2 b)) as Hp.
  { split_and!; [done|by eapply included_trans|congruence|]. intros k' b [->|Hk]%elem_of_cons Hb.
    - eapply settled_included; [done|by apply Hs1].
    - apply (Hs2 k'); [done|]. by rewrite Hb1. }
  by destruct r'.
Qed.

Lemma release_all_settles h s : kept h s →
  traced pre h s (release_all (Job:=Job) (Result:=Result)) (λ h' s' _, kept h' s' ∧ ∀ b, consumed h' b → deferred b → settled h' b).
Proof.
  intros Hi. unfold release_all. tstep. apply traced_bind. eapply traced_weaken; [|by apply releases_settle].
  intros h' s' r (Hi' & _ & Hb & Hs).
  assert (kept h' s' ∧ ∀ b, consumed h' b → deferred b → settled h' b) as Hp; [|by destruct r].
  split; [done|]. intros b Hc Hd. destruct Hi' as [H1 _]. specialize (H1 b Hc Hd). change (b ∈ batches s') in H1.
  rewrite Hb in H1. apply list_elem_of_lookup in H1 as [k Hk]. apply (Hs k); [|done].
  apply elem_of_seq. apply lookup_lt_Some in Hk. unfold batches in Hk. rewrite length_fmap in Hk. lia.
Qed.

Lemma outside_guidance {A} h s (m : P A) post : traced (λ _ c, outside c = true) h s m post → traced pre h s m post.
Proof. apply traced_pre_weaken. by intros ? []. Qed.

Abbreviation any := (λ (_ : trace) (_ : local) _, True).

Lemma under_lock_settles h s path existing : kept h s → (∀ t, existing = Some t → in_journal i h t) →
  traced pre h s (under_lock localeCompare sha256_hex with_prompt o i path existing) any.
Proof.
  intros Hi Ht. unfold under_lock. tstep; [done| |done]. tstep; [done| |done]. apply traced_bind, traced_finally.
  set (h1 := (h ++ _) ++ _). assert (included h h1) as H1 by (intros e He; unfold h1; in_history).
  assert (kept h1 s) as Hi1 by (unfold h1; by apply kept_snoc, kept_snoc). clearbody h1.
  eapply traced_weaken; [|eapply traced_both; [apply locked_judged|by apply locked_keeps]].
  2: { intros t Et. eapply in_journal_included, (Ht t Et). done. }
  intros h2 s2 r [Hp Hi2]. apply traced_bind. eapply traced_weaken; [|eapply traced_both; [apply release_all_judged|by apply release_all_settles]].
  intros h3 s3 x [[H3 [u ->]] [_ Hs]]. refine (traced_await_end pre h3 s3 (ReleaseLock a0) _ _ _); [done|].
  intros [u'|e]; [|done]. destruct r as [p|e]; [|done].
  apply outside_guidance. eapply traced_weaken; [|apply (Hp _ s3)]; [done|]. intros e He. in_history.
Qed.

Lemma run_settles : traced pre [] start run any.
Proof.
  assert (kept [] start) as H0.
  { split; [by intros b [ci ?%not_elem_of_nil]|]. by intros d ?%not_elem_of_nil. }
  unfold SafeRunner.run. tstep; [|done]. tstep; [done| |done]. tstep; [done| |done].
  set (h := ([] ++ _) ++ _). assert (kept h start) as Hh by (by apply kept_snoc, kept_snoc).
  assert (traced pre h start (under_lock localeCompare sha256_hex with_prompt o i a0 a1) any) as Hu.
  { apply under_lock_settles; [done|]. intros t ->. left. apply here. }
  destruct (is_completed a1); [|done]. destruct (_ || _); [by apply (traced_end _ _ _ _ (Ok _))|done].
Qed.

(** C25: Guidance. Whatever the ports answer or throw, a run only confirms
    guidance that it consumed, and only after a worker was started; it only
    releases guidance that it consumed; and when it gives back its lock, every
    batch with signals that an inbox with deferred delivery handed out was either
    confirmed, or its release was tried. *)
Theorem safe_guidance_settled tr s r tr1 c x tr2 :
  runs (run start) tr (s, r) → tr = tr1 ++ Ev c x :: tr2 →
  match c with
  | Confirm b => (∃ ci, Ev (Consume ci) (Ok b) ∈ tr1) ∧ ∃ job key k reply, Ev (PoolRun job key k) (Ok reply) ∈ tr1
  | Release b => ∃ ci, Ev (Consume ci) (Ok b) ∈ tr1
  | ReleaseLock _ => supportsDeferredControlDelivery o = true → ∀ ci b, Ev (Consume ci) (Ok b) ∈ tr1 →
      Control.b_signalIds b ≠ [] → Ev (Confirm b) (Ok tt) ∈ tr1 ∨ ∃ y, Ev (Release b) y ∈ tr1
  | _ => True
  end.
Proof.
  intros Hr E. destruct (traced_runs pre start run any tr s r run_settles Hr) as [_ Hp].
  specialize (Hp tr1 c x tr2 E). destruct c; try done. intros Hs ci b Hb Hi. apply Hp; [by exists ci|done].
Qed.
End guidance.

(** The guidance of the second attempt was settled when the lock was given back. *)
Lemma safe_guidance_settled_witness :
  let h := take 27 two_trace in ∃ b : Control.Batch,
    (∃ ci, Ev (Consume ci) (Ok b) ∈ h) ∧ (Ev (Confirm b) (Ok tt) ∈ h ∨ ∃ y, Ev (Release b) y ∈ h).
Proof.
  intros h.
  assert (∃ l x, two_trace !! 27%nat = Some (Ev (ReleaseLock l) x)) as (l & x & E) by (vm_compute; repeat eexists).
  assert (∃ ci, two_trace !! 15%nat = Some (Ev (Consume ci) (Ok SafeWorld.guidance))) as (ci & Ec) by (vm_compute; repeat eexists).
  pose proof (safe_guidance_settled SafeWorld.compare_all SafeWorld.sha SafeWorld.as_prompt (SafeWorld.world_options true)
    patch_input _ _ _ h (ReleaseLock l) x (drop 28 two_trace)
    (SafeWorld.world_runs SafeWorld.no_faults true patch_input SafeWorld.two_attempts) (eq_sym (take_drop_middle _ _ _ E))) as H.
  assert (Ev (Consume ci) (Ok SafeWorld.guidance) ∈ h) as Hc.
  { apply (list_elem_of_lookup_2 _ 15). unfold h. by rewrite lookup_take_lt by lia. }
  exists SafeWorld.guidance. split; [by exists ci|]. by apply (H eq_refl ci _ Hc).
Defined.
End SafeGuidance.
