(* ===== verification/SafeShared.v ===== *)
(** * Safe execution: runs that share their workspaces

    Several runs of [SafeRunner.v] at the same time, over the lock store of
    [SafeTask.v]: their calls interleave in any way. *)

From stdpp Require Import base numbers option sets strings pretty list.
From S2P Require Import Prelude Json WorkerInbox Programs WorkerControl StatePrograms SafePolicy SafeTask SafeRunner SafeWorld SafeGuards.

Module SafeShared.
Import SafePolicy SafeTask SafeRunner SafeGuards.

Section shared.
Context {Job Result : Type}.
Context (localeCompare : jsstring → jsstring → comparison) (sha256_hex : jsstring → jsstring).
Context (with_prompt : Job → jsstring → option Job) (probe : Z → bool).
(** The options and the input of each run. *)
Context (options : nat → Options) (inputs : nat → RunInput (Job:=Job) (Result:=Result)).

Abbreviation call := (call (Job:=Job) (Result:=Result)).
Abbreviation resp := (fallible Thrown (answer (Job:=Job) (Result:=Result))).
Abbreviation key l := (workspaceLockKey sha256_hex (lk_workspacePath l)).

(** What the lock store answers. The other ports do not touch the locks. *)
Definition lock_step (c : call) (s : locks) (r : resp c) (s' : locks) : Prop :=
  match c return resp c → Prop with
  | AcquireLock i => λ r, acquire sha256_hex probe s i = (s', r)
  | ReleaseLock l => λ r, s' = SafeTask.release sha256_hex s l ∧ r = Ok tt
  | _ => λ _, s' = s
  end r.

(** The calls of run [k] so far, of a run that may go on. *)
Definition underway (k : nat) (tr : list (nat * event resp)) : Prop :=
  ∃ rest s r, runs (run localeCompare sha256_hex with_prompt (options k) (inputs k) start) (of_thread k tr ++ rest) (s, r).

Definition held (k : nat) (tr : list (nat * event resp)) : option LockRecord := lock_state (of_thread k tr).

(** The processes of the owners live. *)
Definition alive (pid : option num) : Prop := ∀ p, pid = Some p → isProcessAlive probe p = true.

Definition shared_inv (tr : list (nat * event resp)) (s : locks) : Prop :=
  Forall (λ x, alive (lk_ownerPid x.2)) s ∧
  (∀ k l, held k tr = Some l → map_get s (key l) = Some l) ∧
  (∀ a b la lb, held a tr = Some la → held b tr = Some lb → a ≠ b → key la ≠ key lb).

Lemma held_snoc k a c r tr : held k (tr ++ [(a, Ev c r)]) = if (a =? k)%nat then lock_after (held k tr) (Ev c r) else held k tr.
Proof.
  unfold held. rewrite of_thread_app, of_thread_cons. destruct (a =? k)%nat;
    [apply held_lock_snoc|by rewrite app_nil_r].
Qed.

Lemma alive_kept l now : alive (lk_ownerPid l) → canReplaceLock probe l now = false.
Proof.
  intros Ha. apply not_true_iff_false. unfold canReplaceLock. intros [Hp Hg]%replaced_gone.
  destruct (lk_ownerPid l) as [p|]; [|done]. injection Hg as Hg. by rewrite (Ha p eq_refl) in Hg.
Qed.

Lemma map_set_Forall (Q : LockRecord → Prop) (s : locks) k v :
  Forall (λ x, Q x.2) s → Q v → Forall (λ x, Q x.2) (map_set s k v).
Proof.
  intros Hs Hv. induction Hs as [|[k' v'] s Hx Hs IH]; simpl; [by repeat constructor|]. case_decide; by constructor.
Qed.
Lemma map_delete_Forall (Q : LockRecord → Prop) (s : locks) k : Forall (λ x, Q x.2) s → Forall (λ x, Q x.2) (map_delete s k).
Proof. intros Hs. induction Hs as [|[k' v'] s Hx Hs IH]; simpl; [done|]. case_decide; [done|by constructor]. Qed.
Lemma map_get_Forall (Q : LockRecord → Prop) (s : locks) k v : Forall (λ x, Q x.2) s → map_get s k = Some v → Q v.
Proof.
  intros Hs. induction Hs as [|[k' v'] s Hx Hs IH]; simpl; [done|]. case_decide; [|done]. by intros [= <-].
Qed.

Lemma shared_acquire tr s a li r s' : shared_inv tr s → alive (li_ownerPid li) → held a tr = None →
  acquire sha256_hex probe s li = (s', r) → shared_inv (tr ++ [(a, Ev (AcquireLock li) r)]) s'.
Proof.
  intros (Ha & Hk & Hd) Hp Hn. unfold acquire.
  set (k := workspaceLockKey sha256_hex (li_workspacePath li)). set (rec := mkLock _ _ _ _ _ _).
  destruct (map_get s k) as [e|] eqn:E.
  { rewrite alive_kept by (by apply (map_get_Forall (λ l, alive (lk_ownerPid l)) _ _ _ Ha E)). simpl. intros [= <- <-].
    assert (∀ b, held b (tr ++ [(a, Ev (AcquireLock li) (Throw (workspaceLockedError e)))]) = held b tr) as Hh.
    { intros b. rewrite held_snoc. by destruct (Nat.eqb_spec a b). }
    unfold shared_inv. setoid_rewrite Hh. done. }
  intros [= <- <-].
  assert (∀ b l, held b tr = Some l → key l ≠ k) as Hfree by (intros b l Hb Eq; specialize (Hk b l Hb); congruence).
  assert (∀ b l, held b (tr ++ [(a, Ev (AcquireLock li) (Ok rec))]) = Some l → b = a ∧ l = rec ∨ b ≠ a ∧ held b tr = Some l) as Hh.
  { intros b l. rewrite held_snoc. destruct (Nat.eqb_spec a b) as [->|]; [|auto]. simpl. intros [= <-]. auto. }
  split_and!.
  - by apply (map_set_Forall (λ l, alive (lk_ownerPid l))).
  - intros b l [[-> ->]|[_ Hb]]%Hh; [apply map_get_set_eq|]. rewrite map_get_set_ne; [by eapply Hk|]. intros Eq. by eapply Hfree.
  - intros b c lb lc [[-> ->]|[? Hb]]%Hh [[-> ->]|[? Hc]]%Hh Hne; [done| | |by eapply Hd].
    + intros Eq. by eapply Hfree.
    + by eapply Hfree.
Qed.

Lemma shared_release tr s a l r : shared_inv tr s → held a tr = Some l →
  shared_inv (tr ++ [(a, Ev (ReleaseLock l) r)]) (SafeTask.release sha256_hex s l).
Proof.
  intros (Ha & Hk & Hd) Hl.
  assert (∀ b l', held b (tr ++ [(a, Ev (ReleaseLock l) r)]) = Some l' → b ≠ a ∧ held b tr = Some l') as Hh.
  { intros b l'. rewrite held_snoc. destruct (Nat.eqb_spec a b) as [->|]; [done|auto]. }
  assert (∀ b l', b ≠ a → held b tr = Some l' → map_get (SafeTask.release sha256_hex s l) (key l') = Some l') as Hr.
  { intros b l' Hb Hl'. assert (key l ≠ key l') as Hne by (by eapply Hd). unfold SafeTask.release.
    destruct (map_get s (key l)) as [e|]; [|by eapply Hk]. destruct (sameWorkspaceLock e l); [|by eapply Hk].
    rewrite map_get_delete_ne by done. by eapply Hk. }
  split_and!.
  - unfold SafeTask.release. destruct (map_get s _); [|done]. destruct (sameWorkspaceLock _ _); [|done].
    by apply (map_delete_Forall (λ l, alive (lk_ownerPid l))).
  - intros b l' [Hb Hl']%Hh. by eapply Hr.
  - intros b c lb lc [? Hb]%Hh [? Hc]%Hh Hne. by eapply Hd.
Qed.

Lemma shared_other tr s a c r : shared_inv tr s → is_lock c = false → shared_inv (tr ++ [(a, Ev c r)]) s.
Proof.
  intros Hi Hc. assert (∀ b, held b (tr ++ [(a, Ev c r)]) = held b tr) as Hh.
  { intros b. rewrite held_snoc. destruct (a =? b)%nat; [by destruct c|done]. }
  destruct Hi as (Ha & Hk & Hd). split_and!; [done|intros b l; rewrite Hh; apply Hk|intros b d lb ld; rewrite !Hh; apply Hd].
Qed.

(** A run that is under way keeps its discipline. *)
Lemma underway_pre k tr : underway k tr → ∀ tr1 c x tr2, tr = tr1 ++ (k, Ev c x) :: tr2 → lock_pre (options k) (inputs k) (of_thread k tr1) c.
Proof.
  intros (rest & s & r & Hr) tr1 c x tr2 ->. rewrite of_thread_app, of_thread_cons, Nat.eqb_refl in Hr. 
  destruct (traced_runs _ _ _ _ _ _ _ (run_judged localeCompare sha256_hex with_prompt (options k) (inputs k) start) Hr) as [_ Hp].
  apply (Hp _ c x (of_thread k tr2 ++ rest)). by rewrite <-app_assoc.
Qed.

Lemma shared_kept tr0 tr s s' : (∀ k, alive (ownerPid (options k))) → (∀ k, underway k (tr0 ++ tr)) →
  shared_inv tr0 s → serves lock_step s tr s' → shared_inv (tr0 ++ tr) s'.
Proof.
  intros Hp. revert tr0 s. induction tr as [|[a [c r]] tr IH]; intros tr0 s Hu Hi; simpl; [intros <-; by rewrite app_nil_r|].
  intros (s1 & Hs & Htr). replace (tr0 ++ (a, Ev c r) :: tr) with ((tr0 ++ [(a, Ev c r)]) ++ tr) in * by (by rewrite <-app_assoc).
  apply (IH _ s1); [done| |done].
  assert (lock_pre (options a) (inputs a) (of_thread a tr0) c) as Hc
    by (eapply underway_pre; [apply (Hu a)|by rewrite <-app_assoc]).
  destruct c; try (simpl in Hs; subst s1; by apply shared_other).
  - destruct Hc as (Hn & _ & Hpid). eapply shared_acquire; [done|rewrite Hpid; apply Hp|done|exact Hs].
  - simpl in Hs. destruct Hs as [-> ->]. by apply shared_release.
Qed.

(** C22: Exclusive workspaces. Runs that share the lock store in memory, one call
    of any of them at a time, in any order and with any answers of the other
    ports: as long as the processes of their owners live, no two of them hold the
    locks of the same workspace, however old a lock is. *)
Theorem safe_workspaces_exclusive tr s a b la lb :
  (∀ k p, ownerPid (options k) = Some p → isProcessAlive probe p = true) →
  (∀ k, underway k tr) → serves lock_step [] tr s →
  a ≠ b → lock_state (of_thread a tr) = Some la → lock_state (of_thread b tr) = Some lb →
  workspaceLockKey sha256_hex (lk_workspacePath la) ≠ workspaceLockKey sha256_hex (lk_workspacePath lb).
Proof.
  intros Hp Hu Hs Hab Ha Hb. destruct (shared_kept [] tr [] s Hp Hu) as (_ & _ & Hd); [|done|by eapply Hd].
  split_and!; [constructor|done|done].
Qed.
End shared.

(** ** Two runs *)

Definition shared_input (k : nat) : SafeWorld.input :=
  mkRunInput (js "task") (js (if (k =? 0)%nat then "/one" else "/two")) None false WorkspacePatch (js "codex") (js "prompt")
    (js "prompt") None None None None None None None None None None None None false.
Abbreviation alone k := (exec_trace (SafeWorld.handle SafeWorld.no_faults) (SafeWorld.world_run true (shared_input k)) SafeWorld.two_attempts).
(** Both have their locks. *)
Definition opening (k : nat) (path : jsstring) : list (nat * event (fallible Thrown SafeWorld.world_answer)) :=
  [(k, Ev (CanonicalizePath path) (Ok path)); (k, Ev (ReadTask (js "task")) (Ok None)); (k, Ev ClockNow (Ok (At 3)));
   (k, Ev (AcquireLock (mkLockInput (js "task") path (js "owner") (Some (num_of_Z 7)) None (At 3)))
         (Ok (mkLock (js "task") path (js "owner") (Some (num_of_Z 7)) (At 3) None)))].
Definition both_locked := opening 0 (js "/one") ++ opening 1 (js "/two").

Lemma both_underway k : underway SafeWorld.compare_all SafeWorld.sha SafeWorld.as_prompt
  (λ _, SafeWorld.world_options true) shared_input k both_locked.
Proof.
  assert (∃ n, of_thread k both_locked = take n (alone k)) as [n E].
  { unfold both_locked. rewrite of_thread_app.
    destruct k as [|[|k]]; [exists 4%nat; by vm_compute..|exists 0%nat; by vm_compute]. }
  exists (drop n (alone k)). rewrite E, take_drop.
  eexists _, _. rewrite <-surjective_pairing. apply exec_runs.
Qed.

Lemma safe_workspaces_exclusive_witness : ∃ la lb,
  lock_state (of_thread 0 both_locked) = Some la ∧ lock_state (of_thread 1 both_locked) = Some lb ∧
  workspaceLockKey SafeWorld.sha (lk_workspacePath la) ≠ workspaceLockKey SafeWorld.sha (lk_workspacePath lb).
Proof.
  assert (∃ la, lock_state (of_thread 0 both_locked) = Some la) as [la Ha] by (vm_compute; by eexists).
  assert (∃ lb, lock_state (of_thread 1 both_locked) = Some lb) as [lb Hb] by (vm_compute; by eexists).
  exists la, lb. split_and!; [done..|].
  assert (∃ s, serves (lock_step SafeWorld.sha (λ _, true)) [] both_locked s) as [s Hs].
  { eexists. do 8 (eexists; split; [reflexivity|]). reflexivity. }
  refine (safe_workspaces_exclusive SafeWorld.compare_all SafeWorld.sha SafeWorld.as_prompt (λ _, true)
    (λ _, SafeWorld.world_options true) shared_input both_locked s 0 1 la lb _ both_underway Hs _ Ha Hb); [|done].
  intros _ p [= <-]. by vm_compute.
Defined.
End SafeShared.
