(* ===== verification/KeyedLaunch.v ===== *)
(** * Launching keyed children

    [src/worker-core/project-control/application/keyed-child-launch.ts]: the
    application that claims a child in the ledger of [KeyedChild.v], prepares
    and dispatches it, and stops, reconciles and observes it, as programs over
    the calls of its ports.

    A transaction of the ledger port calls back with the ledger it read: it is
    the call that begins it, which also names the object that the callback
    creates, and the call that publishes the successor. Coordination is entered
    and left. What is started without waiting for it (a timer, a stop at the
    deadline) is a call that starts it; the preparation that goes on after a
    launch has answered is a program of its own. [drain] only joins these. An
    absent mode is [Work], as in the adapter of the port. *)

From stdpp Require Import base numbers option sets strings list.
From S2P Require Import Prelude Json KeyedChild Programs StatePrograms.

Module KeyedLaunch.
Import KeyedChild.

Inductive Mode : Set := Work | Cleanup.
Inductive StopReason : Set := Requested | Deadline | Budget | Completion.
Inductive Reason : Set := NoReason | Held | TerminationUnresolved.

Inductive LaunchError : Set :=
| CancelledBeforeClaim | ForeignAuthority | FromLedger (e : LedgerError) | NoSuchRow | PortFailure (message : jsstring).

Record View : Set := mkView {
  operationHandle : jsstring; v_childHandle : jsstring; v_state : State; v_occupied : bool; stopRequested : bool;
  v_deadlineEpochMs : num; v_maxGoalTurns : num; v_reason : Reason }.

(** ** Ports *)

Inductive call : Set :=
| Authenticate (m : Mode)
| Enter (m : Mode) | Leave
| ReadLedger (m : Mode)
| Begin (expected : Z) (m : Mode) | BeginPreparation (b : Observation) | Publish (current next : Ledger)
| BeforeFreshClaim (slot : jsstring) | RetainPreparation (b : Observation) | AssertPreparationAdmission (b : Observation)
| ClosePreparation (b : Observation) (r : StopReason)
| Materialize (b : Observation) (task : jsstring) | DispatchPrepared (b : Observation) | AwaitCompletion
| RequestStop (b : Observation) (r : StopReason)
| SignalAborted | DateNow | PerformanceNow
| SetTimer (handle : jsstring) (ms : num) | ClearTimer (handle : jsstring) | StartStop (handle : jsstring) (r : StopReason).

Definition answer (c : call) : Type :=
  match c with
  | ReadLedger _ | Publish _ _ => Ledger
  | Begin _ _ | BeginPreparation _ => (Ledger * nat)%type
  | DispatchPrepared _ => bool
  | SignalAborted => bool
  | DateNow | PerformanceNow => num
  | _ => unit
  end.

Abbreviation P := (Stateful LaunchError answer unit).

(** The constants of the port. *)
Record Port : Set := mkPort { p_scope : Scope; p_authorityDigest : jsstring; deadlineEpochMs : num; p_maxGoalTurns : num; has_stopPort : bool }.

Section application.
Context (sha : jsstring → jsstring) (port : Port).

(** What the domain answers. *)
Definition domain {A} (r : res A) : P A := pure_ (match r with Ok a => Ok a | Throw e => Throw (FromLedger e) end).

Definition o_handle (o : Observation) : jsstring := childHandle (c_allocation (correlation o)).
Definition o_generation (o : Observation) : Z := c_generation (correlation o).

Definition assertAuthority (s : Scope) (digest : jsstring) : P unit :=
  await_ (Authenticate Work) ;;
  if negb (js_eqb digest (p_authorityDigest port)) || negb (js_eqb (projectId s) (projectId (p_scope port))) ||
     negb (js_eqb (workstreamId s) (workstreamId (p_scope port))) || negb (js_eqb (controllerId s) (controllerId (p_scope port)))
  then raise_ ForeignAuthority else done_ tt.

Definition coordinate {A} (m : Mode) (action : P A) : P A :=
  await_ (Enter m) ;;
  finally_ action (await_ Leave).

Definition transact (expected : Z) (m : Mode) (successor : Ledger → nat → P Ledger) : P Ledger :=
  '(l, tok) ← await_ (Begin expected m);
  next ← successor l tok;
  await_ (Publish l next).
Definition transactPreparation (b : Observation) (successor : Ledger → nat → P Ledger) : P Ledger :=
  '(l, tok) ← await_ (BeginPreparation b);
  next ← successor l tok;
  await_ (Publish l next).

Definition view_ (o : Observation) : P View :=
  (if bool_decide (o_state o = Terminal) then await_ (ClearTimer (o_handle o)) else done_ tt) ;;
  done_ (mkView (operationId (c_allocation (correlation o))) (o_handle o) (o_state o) (negb (bool_decide (o_state o = Terminal)))
           (bool_decide (o_state o = StopRequested)) (deadlineEpochMs port) (p_maxGoalTurns port)
           (match o_state o with StopRequested => TerminationUnresolved | Uncertain | DispatchIntent => Held | _ => NoReason end)).

(** [next !== l]: an operation returns its ledger or a new one. *)
Definition same_object (l next : Ledger) : bool := (token next =? token l)%nat.
Definition last_slot (l : Ledger) : P jsstring :=
  match last (accepted l) with Some c => done_ (slotId (allocation c)) | None => raise_ NoSuchRow end.

Definition accept_claim (r : Request) (l : Ledger) (tok : nat) : P Ledger :=
  now ← await_ DateNow;
  next ← domain (accept sha tok l (generation l) r now);
  (if same_object l next then done_ tt else s ← last_slot next; await_ (BeforeFreshClaim s)) ;;
  done_ next.

(** A claim that could not be retained is stopped and its preparation closed,
    as far as possible. *)
Definition close_claim (l : Ledger) (binding : Observation) : P unit :=
  await_ (Authenticate Cleanup) ;;
  stopped ← transact (generation l) Cleanup (λ l tok, domain (KeyedChild.stop sha tok l (correlation binding)));
  o ← domain (KeyedChild.observe sha stopped (p_scope port) (o_handle binding));
  await_ (ClosePreparation o Completion).

Definition claim (r : Request) : P (Observation * bool) :=
  await_ (Authenticate Work) ;;
  aborted ← await_ SignalAborted;
  if aborted : bool then raise_ CancelledBeforeClaim
  else
    current ← await_ (ReadLedger Work);
    ledger ← transact (generation current) Work (accept_claim r);
    match find_key (accepted ledger) (r_key r) with
    | None => raise_ NoSuchRow
    | Some row =>
        let fresh := negb (generation ledger =? generation current)%Z in
        (if fresh then
           binding ← domain (KeyedChild.observe sha ledger (p_scope port) (childHandle (allocation row)));
           catch_ (await_ (RetainPreparation binding))
             (λ e, catch_ (close_claim ledger binding) (λ _, done_ tt) ;; raise_ e)
         else done_ tt) ;;
        view ← domain (KeyedChild.observe sha ledger (p_scope port) (childHandle (allocation row)));
        done_ (view, fresh)
    end.

(** A timer of the deadline, as long as it is not over on one of the clocks; a
    timer that fired is forgotten. *)
Definition num_sub (a b : num) : num := num_add a (num_mul (num_of_Z (-1)) b).
Definition expire (handle : jsstring) (monotonicDeadline : num) : P unit :=
  now ← await_ DateNow;
  mono ← await_ PerformanceNow;
  let remaining := num_min (num_sub (deadlineEpochMs port) now) (num_sub monotonicDeadline mono) in
  if num_ltb (num_of_Z 0) remaining then await_ (SetTimer handle (num_min (num_of_Z 2147483647) remaining))
  else await_ (StartStop handle Deadline).

Definition schedule (handle : jsstring) : P unit :=
  mono ← await_ PerformanceNow;
  now ← await_ DateNow;
  expire handle (num_add mono (num_max (num_of_Z 0) (num_sub (deadlineEpochMs port) now))).

(** The view, and the child whose preparation goes on. *)
Definition launch (r : Request) : P (View * option Observation) :=
  await_ (Authenticate Work) ;;
  '(view, fresh) ← coordinate Work (claim r);
  (if fresh : bool then schedule (o_handle view) else done_ tt) ;;
  v ← view_ view;
  done_ (v, if fresh : bool then Some view else None).

Definition observe (handle : jsstring) : P View :=
  await_ (Authenticate Cleanup) ;;
  coordinate Cleanup
    (await_ (Authenticate Cleanup) ;;
     l ← await_ (ReadLedger Cleanup);
     o ← domain (KeyedChild.observe sha l (p_scope port) handle);
     view_ o).

Definition stop_locked (handle : jsstring) (r : StopReason) : P Observation :=
  await_ (Authenticate Cleanup) ;;
  current ← await_ (ReadLedger Cleanup);
  binding ← domain (KeyedChild.observe sha current (p_scope port) handle);
  next ← transact (generation current) Cleanup (λ l tok, domain (KeyedChild.stop sha tok l (correlation binding)));
  stopped ← domain (KeyedChild.observe sha next (p_scope port) handle);
  (if negb (bool_decide (o_state stopped = Terminal)) && match o_intent stopped with Some _ => false | None => true end
   then await_ (ClosePreparation stopped r) else done_ tt) ;;
  done_ stopped.

(** The answer of the stop port is not used. *)
Definition request_stop (b : Observation) (r : StopReason) : P unit :=
  if has_stopPort port then catch_ (await_ (RequestStop b r)) (λ _, done_ tt) else done_ tt.

Definition stop (handle : jsstring) (r : StopReason) : P View :=
  await_ (Authenticate Cleanup) ;;
  stopped ← coordinate Cleanup (stop_locked handle r);
  (if bool_decide (o_state stopped = Terminal) then done_ tt else request_stop stopped r) ;;
  observe handle.

Definition reconcile (handle : jsstring) (r : StopReason) : P View :=
  await_ (Authenticate Cleanup) ;;
  binding ← coordinate Cleanup (l ← await_ (ReadLedger Cleanup); domain (KeyedChild.observe sha l (p_scope port) handle));
  if bool_decide (o_state binding = Terminal) then observe handle
  else
    match o_intent binding with
    | None => stop handle r
    | Some _ => request_stop binding r ;; observe handle
    end.

(** ** Preparation *)

(** Whether the child is still where the work left it. *)
Definition unchanged (latest : Observation) (from : State) (binding : Observation) : bool :=
  bool_decide (o_state latest = from) && (o_generation latest =? o_generation binding)%Z.

Definition advance_child (binding : Observation) (from to : State) : P (option Observation) :=
  coordinate Work
    (await_ (Authenticate Work) ;;
     current ← await_ (ReadLedger Work);
     latest ← domain (KeyedChild.observe sha current (p_scope port) (o_handle binding));
     if unchanged latest from binding then
       await_ (AssertPreparationAdmission binding) ;;
       next ← transactPreparation binding (λ l tok, now ← await_ DateNow; domain (advance sha tok l (correlation binding) to now));
       o ← domain (KeyedChild.observe sha next (p_scope port) (o_handle binding));
       done_ (Some o)
     else done_ None).

(** Uncertain from now on, unless stopped; and stopped, if it was not dispatched
    or its time is over. *)
Definition hold_locked (binding : Observation) : P bool :=
  await_ (Authenticate Cleanup) ;;
  current ← await_ (ReadLedger Cleanup);
  latest ← domain (KeyedChild.observe sha current (p_scope port) (o_handle binding));
  match o_state latest with
  | Terminal => view_ latest ;; done_ false
  | StopRequested => done_ false
  | _ =>
      transact (generation current) Cleanup (λ l tok, domain (markUncertain sha tok l (correlation latest))) ;;
      done_ (match o_intent latest with Some _ => false | None => true end)
  end.

Definition overdue : P bool := now ← await_ DateNow; done_ (num_leb (deadlineEpochMs port) now).

Definition hold (binding : Observation) : P unit :=
  catch_
    (cancelPreparation ← coordinate Cleanup (hold_locked binding);
     over ← (if cancelPreparation : bool then done_ true else overdue);
     if over : bool then
       late ← overdue;
       stop (o_handle binding) (if late : bool then Deadline else Completion) ;; done_ tt
     else done_ tt)
    (λ _, done_ tt).

Definition dispatch (binding prepared : Observation) : P (option bool) :=
  coordinate Work
    (await_ (Authenticate Work) ;;
     l ← await_ (ReadLedger Work);
     latest ← domain (KeyedChild.observe sha l (p_scope port) (o_handle binding));
     if unchanged latest Prepared prepared then
       await_ (AssertPreparationAdmission prepared) ;;
       ack ← await_ (DispatchPrepared prepared);
       done_ (Some ack)
     else done_ None).

Definition join (binding : Observation) : P unit :=
  finally_ (await_ AwaitCompletion)
    (hold binding ;; catch_ (reconcile (o_handle binding) Completion ;; done_ tt) (λ _, done_ tt)).

Definition prepare (binding : Observation) (task : jsstring) : P unit :=
  preparing ← advance_child binding Claimed Materializing;
  match preparing with
  | None => done_ tt
  | Some preparing =>
      await_ (Materialize preparing task) ;;
      prepared ← advance_child preparing Materializing Prepared;
      match prepared with
      | None => done_ tt
      | Some prepared =>
          ack ← dispatch binding prepared;
          match ack with Some true => join binding | _ => done_ tt end
      end
  end.

(** What goes on after a launch. *)
Definition background (view : Observation) (task : jsstring) : P unit := catch_ (prepare view task) (λ _, hold view).

(** A launch with the work it starts. *)
Definition launch_and_prepare (r : Request) : P unit :=
  '(_, work) ← launch r;
  match work with Some view => background view (r_task r) | None => done_ tt end.
End application.
End KeyedLaunch.
