(* ===== verification/KeyedLaunchGuards.v ===== *)
(** * Launching keyed children: what a launch guarantees

    The properties of [KeyedLaunch.v], over all runs and, for dispatches, over
    all interleavings of runs that share the ledger. *)

From stdpp Require Import base numbers option sets strings list.
From S2P Require Import Prelude Json KeyedChild Programs StatePrograms KeyedLaunch.

Module KeyedGuards.
Import KeyedChild KeyedLaunch.

Section guards.
Context (sha : jsstring → jsstring) (port : Port).

Abbreviation resp := (fallible LaunchError answer).
Abbreviation trace := (history LaunchError answer).
Abbreviation any := (λ (_ : trace) (_ : unit) _, True).

(** ** Coordination *)

Definition inside_after (b : bool) (e : event resp) : bool :=
  match e with
  | Ev c r =>
      match c return resp c → bool with
      | Enter _ => λ r, match r with Ok _ => true | Throw _ => b end
      | Leave => λ _, false
      | _ => λ _, b
      end r
  end.
Definition inside (h : trace) : bool := foldl inside_after false h.

Lemma inside_snoc h e : inside (h ++ [e]) = inside_after (inside h) e.
Proof. unfold inside. by rewrite foldl_app. Qed.

Definition coordinated (h : trace) (c : call) : Prop :=
  match c with
  | Enter _ | Materialize _ _ | AwaitCompletion | RequestStop _ _ => inside h = false
  | Leave | ReadLedger _ | Begin _ _ | BeginPreparation _ | Publish _ _ | BeforeFreshClaim _ | RetainPreparation _
  | AssertPreparationAdmission _ | ClosePreparation _ _ | DispatchPrepared _ => inside h = true
  | _ => True
  end.

Abbreviation inner := (keeps coordinated (λ h (_ : unit), inside h = true)).
Abbreviation outer := (keeps coordinated (λ h (_ : unit), inside h = false)).

Lemma outer_coordinate {A} m (action : P A) : inner action → outer (coordinate m action).
Proof.
  intros Ha h s Hi. unfold coordinate. tstep; [done| |by rewrite inside_snoc]. apply traced_finally.
  eapply traced_weaken; [|apply Ha; by rewrite inside_snoc]. intros h' s' r Hr.
  refine (traced_await_end coordinated h' s' Leave _ _ _); [done|]. intros f. by rewrite inside_snoc.
Qed.

Definition stays (c : call) : bool := match c with Enter _ | Leave => false | _ => true end.
Lemma keeps_call b c : stays c = true → (∀ h, inside h = b → coordinated h c) →
  keeps coordinated (λ h (_ : unit), inside h = b) (await_ c).
Proof. intros Hc Hp. apply keeps_await; [intros h _; apply Hp|]. intros h _ r Hi. rewrite inside_snoc. by destruct c. Qed.

Ltac kgo := repeat first [apply outer_coordinate | by apply keeps_call | kstep].

Lemma inner_domain {A} b (r : res A) : keeps coordinated (λ h (_ : unit), inside h = b) (domain r).
Proof. apply keeps_pure. Qed.
Ltac cgo := repeat first [apply inner_domain | progress kgo
  | progress unfold claim, accept_claim, close_claim, transact, transactPreparation, last_slot, view_, schedule, expire, stop_locked,
      request_stop, hold_locked, overdue, dispatch, advance_child ].

Lemma outer_observe h : outer (observe sha port h).
Proof. unfold observe. cgo. Qed.
Lemma outer_stop h r : outer (stop sha port h r).
Proof. unfold stop. cgo; apply outer_observe. Qed.
Lemma outer_reconcile h r : outer (reconcile sha port h r).
Proof. unfold reconcile. cgo; first [apply outer_observe|apply outer_stop]. Qed.
Lemma outer_hold b : outer (hold sha port b).
Proof. unfold hold. cgo; apply outer_stop. Qed.
Lemma outer_launch r : outer (launch sha port r).
Proof. unfold launch. cgo. Qed.
Lemma outer_background v task : outer (background sha port v task).
Proof.
  unfold background, prepare, join. cgo; first [apply outer_hold | apply outer_reconcile].
Qed.

(** ** Ledgers *)

(** The same ledger, perhaps as another object. *)
Definition same (l l' : Ledger) : Prop :=
  authority l = authority l' ∧ slots l = slots l' ∧ accepted l = accepted l' ∧ generation l = generation l'.

Definition handle_of (c : Child) : jsstring := childHandle (allocation c).
Definition handles (l : Ledger) : list jsstring := map handle_of (accepted l).

Lemma same_valid l l' : same l l' → valid sha l → valid sha l'.
Proof.
  intros (Ha & Hs & Hc & Hg) [V1 (m & Hm & V2) V3 V4]. split; rewrite <-?Ha, <-?Hs, <-?Hc, <-?Hg; try done.
  exists m. split; [|done]. by rewrite <-(restore_rows_ext sha l l').
Qed.

Lemma namespaces tok a sl l : create tok a sl = Ok l →
  NoDup (map childHandle sl) ∧ NoDup (concat (map (λ s, [operationId s; childHandle s]) sl)).
Proof.
  unfold create. intros (x & K & H)%bind_Ok.
  repeat match type of H with mbind _ _ = Ok _ => apply seq_Ok in H as [? H] end.
  repeat match goal with H : guard _ _ = Ok _ |- _ => apply guard_Ok in H end. unfold distinct in *. bools. done.
Qed.

Lemma valid_slots l c : valid sha l → c ∈ accepted l → allocation c ∈ slots l.
Proof.
  intros [_ (m & Hr & _) _ _] Hc. apply rows_facts in Hr as (_ & _ & Hf). rewrite Forall_forall in Hf. by apply Hf.
Qed.

Lemma concat_names sl a b : NoDup (concat (map (λ s, [operationId s; childHandle s]) sl)) → a ∈ sl → b ∈ sl →
  operationId a ≠ childHandle b.
Proof.
  intros Hn Ha Hb E. induction sl as [|x sl IH]; [by apply not_elem_of_nil in Ha|]. simpl in Hn.
  apply NoDup_cons in Hn as [Hx Hn]. apply NoDup_cons in Hn as [Hy Hn].
  assert (∀ y, y ∈ sl → operationId y ∈ concat (map (λ s, [operationId s; childHandle s]) sl) ∧
                        childHandle y ∈ concat (map (λ s, [operationId s; childHandle s]) sl)) as Hin.
  { intros y Hy'. clear -Hy'. induction sl as [|z sl IH]; [by apply not_elem_of_nil in Hy'|]. simpl.
    apply elem_of_cons in Hy' as [->|Hy']; [set_solver|]. apply IH in Hy'. set_solver. }
  apply elem_of_cons in Ha as [->|Ha]; apply elem_of_cons in Hb as [->|Hb].
  - apply Hx. rewrite E. by left.
  - apply Hx. right. rewrite E. by apply Hin.
  - apply Hy. rewrite <-E. by apply Hin.
  - by apply IH.
Qed.

Lemma observe_handle l s h o c : valid sha l → c ∈ accepted l → handle_of c = h →
  KeyedChild.observe sha l s h = Ok o → o_handle o = h.
Proof.
  intros Hv Hc Hh H. unfold KeyedChild.observe in H. binds H.
  destruct (List.find _ _) as [d|] eqn:E; [|done]. injection H as <-. apply find_some in E as [Hd E].
  apply list_elem_of_In in Hd. unfold o_handle. simpl. apply orb_true_iff in E as [E|E]; bools; [done|].
  pose proof Hv as [[tok Hcr] _ _ _]. apply namespaces in Hcr as [_ Hn].
  destruct (concat_names _ (allocation d) (allocation c) Hn); [by apply valid_slots..|]. unfold handle_of in Hh. congruence.
Qed.

(** Children have handles of their own. *)
Lemma handles_NoDup l : valid sha l → NoDup (handles l).
Proof.
  intros Hv. pose proof Hv as [[tok [Hn _]%namespaces] (m & Hr & _) _ _]. apply rows_facts in Hr as (_ & Hs & _).
  unfold handles. rewrite NoDup_alt in Hs |- *. intros i j x Hi Hj.
  rewrite list_lookup_fmap in Hi. rewrite list_lookup_fmap in Hj.
  destruct (accepted l !! i) as [c|] eqn:Ei; [|done]. destruct (accepted l !! j) as [d|] eqn:Ej; [|done].
  simpl in *. simplify_eq. apply (Hs i j (slotId (allocation c))); rewrite list_lookup_fmap, ?Ei, ?Ej; [done|].
  simpl. do 2 f_equal.
  apply list_elem_of_lookup_2, (valid_slots l) in Ei as [p Hp]%list_elem_of_lookup; [|done].
  apply list_elem_of_lookup_2, (valid_slots l) in Ej as [q Hq]%list_elem_of_lookup; [|done].
  rewrite NoDup_alt in Hn. assert (p = q) as ->; [|congruence].
  apply (Hn p q (handle_of c)); rewrite list_lookup_fmap, ?Hp, ?Hq; [done|]. simpl. unfold handle_of in *. congruence.
Qed.

Lemma effect_handles tok l l' : effect sha tok l l' → ∃ more, handles l' = handles l ++ more.
Proof.
  intros He. unfold handles. destruct He as [|r s now|i c st Hi _ _]; simpl.
  - exists []. by rewrite app_nil_r.
  - eexists. by rewrite map_app.
  - exists []. rewrite app_nil_r. apply list_eq. intros j. rewrite !list_lookup_fmap.
    destruct (decide (j = i)) as [->|]; [rewrite list_lookup_alter_eq|rewrite list_lookup_alter_ne by done]; [|done].
    rewrite Hi. done.
Qed.

Lemma reaches_handles l l' : reaches sha l l' → ∃ more, handles l' = handles l ++ more.
Proof.
  induction 1 as [l|tok l l' l'' o [H _]%exec_effect _ [m2 E2]]; [exists []; by rewrite app_nil_r|].
  apply effect_handles in H as [m1 E1]. exists (m1 ++ m2). by rewrite E2, E1, app_assoc.
Qed.

(** ** Claims and dispatches *)

Context (au : Authority) (sl : list Allocation).

(** A ledger of this authority. *)
Definition proper (l : Ledger) : Prop := valid sha l ∧ authority l = au ∧ slots l = sl.

Lemma proper_same l l' : same l l' → proper l → proper l'.
Proof. intros Hs (? & <- & <-). split; [by eapply same_valid|]. destruct Hs as (? & ? & _). naive_solver. Qed.

Lemma proper_effect tok l l' : effect sha tok l l' → proper l → proper l'.
Proof.
  intros He (? & Ha & Hs). split; [by eapply valid_effect|]. apply effect_binding in He as [-> ->]. done.
Qed.

(** What the ledger port promises: ledgers of the authority, transactions on
    the expected generation with a new object for the successor, and the
    successor as the answer to its publication. *)
Definition lawful (e : event resp) : Prop :=
  match e with
  | Ev c r =>
      match c return resp c → Prop with
      | ReadLedger _ => λ r, match r with Ok l => proper l | _ => True end
      | Begin n _ => λ r, match r with Ok (l, tok) => proper l ∧ generation l = n ∧ tok ≠ token l | _ => True end
      | BeginPreparation _ => λ r, match r with Ok (l, tok) => proper l ∧ tok ≠ token l | _ => True end
      | Publish l next => λ r, match r with Ok l' => same next l' | _ => True end
      | _ => λ _, True
      end r
  end.
Definition Lawful (h : trace) : Prop := ∀ e, e ∈ h → lawful e.

Lemma Lawful_included h h' : included h h' → Lawful h' → Lawful h.
Proof. intros Hi H e He. by apply H, Hi. Qed.

(** A new child, by its handle. *)
Definition claims (l next : Ledger) (hd : jsstring) : Prop :=
  ∃ tok c, effect sha tok l next ∧ accepted next = accepted l ++ [c] ∧ handle_of c = hd.
Definition claimed (h : trace) (hd : jsstring) : Prop :=
  ∃ l next l', Ev (Publish l next) (Ok l') ∈ h ∧ proper l ∧ claims l next hd.
Definition materialized (h : trace) (hd : jsstring) : Prop :=
  ∃ b task, o_handle b = hd ∧ Ev (Materialize b task) (Ok tt) ∈ h.

Definition is_dispatch (c : call) : bool := match c with DispatchPrepared _ => true | _ => false end.
Definition dispatches (h : trace) : nat := length (List.filter (λ e, match e with Ev c _ => is_dispatch c end) h).

Definition from_domain (l next : Ledger) : Prop := ∃ tok o, exec sha tok l o = Ok next.

Definition launch_pre (h : trace) (c : call) : Prop :=
  match c with
  | Publish l next => from_domain l next
  | Materialize b _ => Lawful h → claimed h (o_handle b)
  | DispatchPrepared b => dispatches h = 0%nat ∧ (Lawful h → claimed h (o_handle b) ∧ materialized h (o_handle b))
  | _ => True
  end.
(** Everything but preparing and dispatching. *)
Definition quiet (_ : trace) (c : call) : Prop :=
  match c with Publish l next => from_domain l next | Materialize _ _ | DispatchPrepared _ => False | _ => True end.

Abbreviation calm := (keeps quiet (λ _ (_ : unit), True)).

Lemma calm_await c : (∀ h, quiet h c) → calm (await_ c).
Proof. intros Hc. by apply keeps_await; [intros h _ _; apply Hc|]. Qed.

(** Successors of the domain. *)
Definition succeeds (successor : Ledger → nat → P Ledger) : Prop :=
  ∀ l tok h s, traced quiet h s (successor l tok) (λ h' _ r, included h h' ∧ ∀ next, r = Ok next → from_domain l next).

Lemma succeeds_domain (f : Ledger → nat → res Ledger) (o : Ledger → op) :
  (∀ l tok, f l tok = exec sha tok l (o l)) → succeeds (λ l tok, domain (f l tok)).
Proof.
  intros Hf l tok h s. apply traced_end. split; [apply included_refl|]. intros next Hn. exists tok, (o l).
  rewrite <-Hf. by destruct (f l tok); [injection Hn as <-|].
Qed.

Lemma succeeds_advance b to : succeeds (λ l tok, now ← await_ DateNow; domain (advance sha tok l (correlation b) to now)).
Proof.
  intros l tok h s. tstep; [done| |].
  - apply traced_end. split; [apply included_snoc|]. intros next Hn. exists tok, (OAdvance (correlation b) to a). simpl.
    by destruct (advance _ _ _ _ _ _); [injection Hn as <-|].
  - split; [apply included_snoc|done].
Qed.

Lemma calm_transact n m successor : succeeds successor → calm (transact n m successor).
Proof.
  intros Hs h s _. unfold transact. tstep; [done| |done]. destruct a as [l tok]. apply traced_bind.
  eapply traced_weaken; [|apply Hs]. intros h' s' [next|e] [_ Hn]; [|done].
  tstep; [by apply (Hn next)|done|done].
Qed.

Ltac qgo := repeat first [by apply calm_await | apply keeps_pure | apply calm_transact | kstep].

Lemma calm_observe h : calm (observe sha port h).
Proof. unfold observe, coordinate, view_, domain. qgo. Qed.
Lemma succeeds_stop b : succeeds (λ l tok, domain (KeyedChild.stop sha tok l b)).
Proof. by apply (succeeds_domain _ (λ _, OStop b)). Qed.
Lemma succeeds_uncertain b : succeeds (λ l tok, domain (markUncertain sha tok l b)).
Proof. by apply (succeeds_domain _ (λ _, OUncertain b)). Qed.
Ltac dgo := repeat first [apply calm_observe | apply succeeds_stop | apply succeeds_uncertain | progress qgo].
Lemma calm_stop h r : calm (stop sha port h r).
Proof. unfold stop, coordinate, stop_locked, request_stop, domain. dgo. Qed.
Lemma calm_reconcile h r : calm (reconcile sha port h r).
Proof. unfold reconcile, coordinate, request_stop, domain. dgo; apply calm_stop. Qed.
Lemma calm_hold b : calm (hold sha port b).
Proof. unfold hold, coordinate, hold_locked, overdue, view_, domain. dgo; apply calm_stop. Qed.
Lemma calm_close_claim l b : calm (close_claim sha port l b).
Proof. unfold close_claim, domain. dgo. Qed.
Lemma calm_schedule h : calm (schedule port h).
Proof. unfold schedule, expire. dgo. Qed.
Lemma calm_view o : calm (view_ port o).
Proof. unfold view_. dgo. Qed.

Lemma claimed_included h h' hd : included h h' → claimed h hd → claimed h' hd.
Proof. intros Hi (l & next & l' & ? & ? & ?). exists l, next, l'. auto. Qed.
Lemma materialized_included h h' hd : included h h' → materialized h hd → materialized h' hd.
Proof. intros Hi (b & task & ? & ?). exists b, task. auto. Qed.

Lemma domain_Ok {A} (r : res A) a : match r with Ok a => Ok a | Throw e => Throw (FromLedger e) end = Ok a → r = Ok a.
Proof. destruct r; [|done]. by intros [= ->]. Qed.

Lemma find_key_new ch k c : find_key ch k = None → key c = k → find_key (ch ++ [c]) k = Some c.
Proof.
  intros Hn <-. induction ch as [|d ch IH]; simpl in *; [by rewrite js_eqb_refl|]. destruct (js_eqb _ _); [done|]. by apply IH.
Qed.

(** What an accepted claim is. *)
Lemma accept_claims tok l r now next : proper l → accept sha tok l (generation l) r now = Ok next → next ≠ l →
  ∃ c, claims l next (handle_of c) ∧ find_key (accepted next) (r_key r) = Some c ∧ c ∈ accepted next ∧ proper next.
Proof.
  intros Hl H Hne. apply accept_inv in H as (_ & He & Ht & [(c & _ & _ & _ & ->)|(Hk & Hd & Ho & Hg & a & Ha & ->)]); [done|].
  exists (new_child sha (authority l) r a).
  assert (effect sha tok l (mkLedger tok (Some (token l)) (authority l) (slots l)
    (accepted l ++ [new_child sha (authority l) r a]) (generation l + 1))) as Heff by (by econstructor).
  split_and!; simpl.
  - by exists tok, (new_child sha (authority l) r a).
  - by apply find_key_new.
  - apply elem_of_app. right. by apply list_elem_of_singleton.
  - by eapply proper_effect.
Qed.

Lemma claim_judged h s r : traced quiet h s (claim sha port r)
  (λ h' _ x, ∀ view, x = Ok (view, true) → Lawful h' → claimed h' (o_handle view)).
Proof.
  unfold claim, transact, accept_claim, domain. tstep; [done| |done]. tstep; [done| |done]. destruct a0; [by apply traced_end|].
  tstep; [done| |done]. tstep. tstep; [done| |done]. destruct a1 as [l tok]. tstep. tstep. tstep; [done| |done].
  rename a0 into current, a1 into now.
  tstep. apply traced_pure; [|done]. intros next Hnext%domain_Ok. tstep.
  apply traced_part; [|intros h1 s1 _ H1|done].
  { unfold last_slot. repeat (tstep; try done). }
  tstep. tstep; [by exists tok, (OAccept (generation l) r now)| |done]. rename a0 into ledger.
  set (h2 := h1 ++ _).
  assert (Ev (Begin (generation current) Work) (Ok (l, tok)) ∈ h2) as Hb by (apply elem_of_app; left; apply H1; in_history).
  assert (Ev (Publish l next) (Ok ledger) ∈ h2) as Hp by apply here. clearbody h2.
  destruct (find_key (accepted ledger) (r_key r)) as [row|] eqn:Hrow; [|by apply traced_end].
  apply traced_part; [|intros h3 s3 _ H3|done].
  { destruct (negb _); [|done]. apply traced_pure; [|done]. intros binding _. apply traced_catch.
    tstep; [done|done|]. apply traced_bind, traced_catch.
    eapply traced_weaken; [|apply calm_close_claim; done]. by intros h' s' [u|e'] _. }
  apply traced_pure; [|done]. intros view Hview%domain_Ok. apply (traced_end _ _ _ _ (Ok _)).
  intros view' [= <- Hf] Hlaw. pose proof (Lawful_included _ _ H3 Hlaw) as Hlaw2.
  destruct (Hlaw2 _ Hb) as (Hl & Hg & Ht). pose proof (Hlaw2 _ Hp) as Hsame. simpl in Hsame.
  destruct (accept_claims tok l r now next Hl Hnext) as (c & Hc & Hfind & Hin & Hprop).
  { intros ->. apply negb_true_iff, Z.eqb_neq in Hf. destruct Hsame as (_ & _ & _ & Hgen). congruence. }
  destruct Hsame as (Sa & Ss & Sc & Sg). rewrite <-Sc, Hfind in Hrow. injection Hrow as <-.
  assert (o_handle view = handle_of c) as ->.
  { eapply (observe_handle ledger); [by eapply proper_same in Hprop as [? _]|by rewrite <-Sc|done|exact Hview]. }
  exists l, next, ledger. split_and!; [by apply H3|done|done].
Qed.

Lemma traced_coordinate {A} m (action : P A) (post : trace → result LaunchError A → Prop) h s :
  (∀ h e x, post h x → post (h ++ [e]) x) → (∀ h e, post h (Throw e)) →
  (∀ h s, traced quiet h s action (λ h' _ x, post h' x)) → traced quiet h s (coordinate m action) (λ h' _ x, post h' x).
Proof.
  intros Hst Ht Ha. unfold coordinate. tstep; [done| |apply Ht]. apply traced_finally. eapply traced_weaken; [|apply Ha].
  intros h' s' r Hr. tstep; [done|by apply Hst|apply Ht].
Qed.

(** A child keeps its handle when it advances. *)
Lemma advance_judged h s b from to : traced quiet h s (advance_child sha port b from to)
  (λ h' _ x, ∀ o, x = Ok (Some o) → Lawful h' → o_handle o = o_handle b).
Proof.
  unfold advance_child.
  apply (traced_coordinate _ _ (λ h' x, ∀ o, x = Ok (Some o) → Lawful h' → o_handle o = o_handle b)); [|done|].
  { intros h' e x Hx o Ho Hl. apply (Hx o Ho). eapply Lawful_included, Hl. apply included_snoc. }
  clear h s. intros h s. unfold transactPreparation, domain. tstep; [done| |done]. tstep; [done| |done].
  apply traced_pure; [|done]. intros latest _. destruct (unchanged _ _ _); [|by apply traced_end].
  tstep; [done| |done]. tstep. tstep; [done| |done]. destruct a2 as [l tok]. tstep. tstep. tstep; [done| |done].
  apply traced_pure; [|done]. intros next Hn%domain_Ok. tstep; [by exists tok, (OAdvance (correlation b) to a2)| |done].
  rename a3 into ledger. apply traced_pure; [|done]. intros o Ho%domain_Ok. apply (traced_end _ _ _ _ (Ok _)).
  intros o' [= <-] Hlaw.
  destruct (Hlaw (Ev (BeginPreparation b) (Ok (l, tok)))) as [Hl _]; [in_history|].
  pose proof (Hlaw _ (here (Ev (Publish l next) (Ok ledger)) _)) as Hsame. simpl in Hsame.
  assert (effect sha tok l next) as Heff by (by apply (exec_effect sha tok l (OAdvance (correlation b) to a2))).
  pose proof (proper_effect _ _ _ Heff Hl) as Hprop. unfold advance in Hn. apply bind_Ok in Hn as ([i c] & Hc & _).
  apply correlated_inv in Hc as (_ & Hi & Hal & _).
  assert (o_handle b ∈ handles next) as (c' & Hh & Hin)%list_elem_of_fmap.
  { apply effect_handles in Heff as [more ->]. apply elem_of_app. left. apply list_elem_of_fmap. exists c.
    split; [unfold o_handle, handle_of; by rewrite Hal|by eapply list_elem_of_lookup_2]. }
  destruct Hsame as (Sa & Ss & Sc & Sg).
  eapply (observe_handle ledger); [|by rewrite <-Sc|by rewrite Hh|exact Ho].
  by eapply (proper_same next) in Hprop as [? _].
Qed.

Lemma dispatches_snoc h c r : dispatches (h ++ [Ev c r]) = (dispatches h + if is_dispatch c then 1 else 0)%nat.
Proof. unfold dispatches. rewrite List.filter_app, length_app. simpl. by destruct (is_dispatch c). Qed.

Lemma quiet_launch {A} h s (m : P A) post : traced quiet h s m post →
  traced launch_pre h s m (λ h' s' r, post h' s' r ∧ dispatches h' = dispatches h ∧ included h h').
Proof.
  intros H%traced_extends. revert H. unfold traced.
  set (post' := λ h' '(s', r), _). generalize (m s) as p. intros p H.
  cut (judged launch_pre h p (λ h' x, post' h' x ∧ dispatches h' = dispatches h)).
  { apply judged_weaken. intros h' [s' r] [[? [t ->]] ?]. split_and!; [done..|]. apply included_app. }
  clearbody post'. revert h H. induction p as [x|c k IH]; intros h; [done|]. intros [Hc Hk].
  split; [by destruct c|]. intros r. eapply judged_weaken; [|apply IH, Hk].
  intros h' x [? ->]. split; [done|]. rewrite dispatches_snoc. destruct c; try lia; by destruct Hc.
Qed.

Lemma quiet_part {A B} h s (m : P A) (f : A → P B) q post :
  traced quiet h s m q → (∀ h' s' a, q h' s' (Ok a) → dispatches h' = dispatches h → included h h' → traced launch_pre h' s' (f a) post) →
  (∀ h' s' e, dispatches h' = dispatches h → included h h' → post h' s' (Throw e)) → traced launch_pre h s (m ≫= f) post.
Proof.
  intros Hm Hf Ht. apply traced_bind. eapply traced_weaken; [|apply quiet_launch, Hm].
  intros h' s' [a|e] (? & ? & ?); auto.
Qed.

Lemma calm_launch {A} h s (m : P A) : calm m → traced launch_pre h s m any.
Proof. intros Hm. eapply traced_weaken; [|by apply quiet_launch, Hm]. done. Qed.

Lemma calm_part {A B} h s (m : P A) (f : A → P B) post : calm m →
  (∀ h' s' a, dispatches h' = dispatches h → included h h' → traced launch_pre h' s' (f a) post) →
  (∀ h' s' e, dispatches h' = dispatches h → included h h' → post h' s' (Throw e)) → traced launch_pre h s (m ≫= f) post.
Proof. intros Hm Hf Ht. eapply (quiet_part _ _ _ _ any); [by apply Hm|auto|done]. Qed.

Lemma calm_join b : calm (join sha port b).
Proof. unfold join. qgo; first [apply calm_hold|apply calm_reconcile]. Qed.

Lemma dispatch_judged h s b prepared : dispatches h = 0%nat →
  (Lawful h → claimed h (o_handle prepared) ∧ materialized h (o_handle prepared)) →
  traced launch_pre h s (dispatch sha port b prepared) any.
Proof.
  intros Hd Hc. unfold dispatch, coordinate, domain. tstep; [done| |done]. apply traced_finally.
  tstep; [done| |by tstep]. tstep; [done| |by tstep]. apply traced_pure; [|by intros; tstep]. intros latest _.
  destruct (unchanged _ _ _); [|by apply (traced_end _ _ _ _ (Ok _)); tstep]. tstep; [done| |by tstep].
  tstep; [|by apply (traced_end _ _ _ _ (Ok _)); tstep|by tstep].
  set (h' := _ ++ [_]). assert (included h h') as Hi by (intros e He; unfold h'; in_history).
  split; [unfold h'; rewrite !dispatches_snoc, Hd; done|]. intros Hl.
  destruct Hc as [Hc Hm]; [by eapply Lawful_included|]. split; [by eapply claimed_included|by eapply materialized_included].
Qed.

Lemma prepare_judged h s view task : dispatches h = 0%nat → (Lawful h → claimed h (o_handle view)) →
  traced launch_pre h s (prepare sha port view task) any.
Proof.
  intros Hd Hc. unfold prepare. eapply quiet_part; [apply advance_judged| |done].
  intros h1 s1 [preparing|] Ho D1 I1; [|done]. specialize (Ho preparing eq_refl).
  tstep; [|intros|done].
  { intros Hl. rewrite (Ho Hl). eapply claimed_included; [done|]. by apply Hc; eapply Lawful_included. }
  set (h2 := h1 ++ _). assert (included h1 h2) as I2 by apply included_snoc.
  assert (dispatches h2 = 0%nat) as D2 by (unfold h2; rewrite dispatches_snoc, D1, Hd; done).
  assert (materialized h2 (o_handle preparing)) as Hmat by (eexists _, _; split; [done|]; destruct a; apply here). clearbody h2.
  eapply quiet_part; [apply advance_judged| |done]. intros h3 s3 [prepared|] Ho3 D3 I3; [|done]. specialize (Ho3 prepared eq_refl).
  assert (included h h3) as I03 by (intros e He; by apply I3, I2, I1).
  assert (included h1 h3) as I13 by (intros e He; by apply I3, I2).
  apply traced_part; [apply dispatch_judged; [congruence|]|intros h4 s4 [[]|] _; [apply calm_launch, calm_join|done..]|done].
  intros Hl. rewrite (Ho3 Hl). split; [|by eapply materialized_included; [exact I3|]].
  rewrite Ho by (by eapply (Lawful_included _ h3)). eapply claimed_included; [exact I03|]. apply Hc. by eapply (Lawful_included _ h3).
Qed.

Lemma launch_judged r s : traced launch_pre [] s (launch_and_prepare sha port r) any.
Proof.
  unfold launch_and_prepare, launch. tstep. tstep; [done| |done]. tstep.
  eapply (quiet_part _ _ _ _ (λ h' _ x, ∀ view, x = Ok (view, true) → Lawful h' → claimed h' (o_handle view))); [| |done].
  { apply (traced_coordinate _ _ (λ h' x, ∀ view, x = Ok (view, true) → Lawful h' → claimed h' (o_handle view)));
      [|done|intros; apply claim_judged].
    intros h e x Hx view Hv Hl. eapply claimed_included, (Hx view Hv); [apply included_snoc|].
    eapply Lawful_included, Hl. apply included_snoc. }
  intros h1 s1 [view fresh] Hc D1 _. cbn beta iota. destruct fresh.
  - tstep. apply calm_part; [apply calm_schedule| |done]. intros h2 s2 _ D2 I2.
    tstep. apply calm_part; [apply calm_view| |done]. intros h3 s3 v D3 I3. tstep.
    unfold background. apply traced_catch. eapply traced_weaken; [|apply prepare_judged].
    + intros h4 s4 [u|e] _; [done|]. apply calm_launch, calm_hold.
    + by rewrite D3, D2, D1.
    + intros Hl. eapply claimed_included, (Hc view eq_refl); [intros e He; by apply I3, I2|].
      eapply Lawful_included, Hl. intros e He. by apply I3, I2.
  - tstep. apply calm_part; [apply keeps_done| |done]. intros h2 s2 _ _ _.
    tstep. apply calm_part; [apply calm_view| |done]. intros h3 s3 v _ _. by tstep.
Qed.

(** The programs of the application. *)
Inductive Job : Set :=
| LaunchJob (r : Request) | StopJob (handle : jsstring) (r : StopReason) | ObserveJob (handle : jsstring)
| ReconcileJob (handle : jsstring) (r : StopReason) | TimerJob (handle : jsstring) (deadline : num).
Definition program (j : Job) : P unit :=
  match j with
  | LaunchJob r => launch_and_prepare sha port r
  | StopJob h r => stop sha port h r ;; done_ tt
  | ObserveJob h => observe sha port h ;; done_ tt
  | ReconcileJob h r => reconcile sha port h r ;; done_ tt
  | TimerJob h d => expire port h d
  end.

Lemma program_judged j s : traced launch_pre [] s (program j) any.
Proof.
  destruct j; [apply launch_judged|..]; apply calm_launch; simpl.
  - apply keeps_then; [apply calm_stop|intros; apply keeps_done].
  - apply keeps_then; [apply calm_observe|intros; apply keeps_done].
  - apply keeps_then; [apply calm_reconcile|intros; apply keeps_done].
  - unfold expire. qgo.
Qed.

Lemma program_outer j : outer (program j).
Proof.
  destruct j; simpl.
  - unfold launch_and_prepare. apply keeps_then; [apply outer_launch|]. intros [v [view|]]; [apply outer_background|apply keeps_done].
  - apply keeps_then; [apply outer_stop|intros; apply keeps_done].
  - apply keeps_then; [apply outer_observe|intros; apply keeps_done].
  - apply keeps_then; [apply outer_reconcile|intros; apply keeps_done].
  - unfold expire. kgo.
Qed.

(** C6: Coordination. Whatever the ports answer or throw, a program of the
    application enters coordination only outside of it, leaves what it entered
    and is outside when it is over; it reads and changes the ledger, and
    retains, admits, closes and dispatches preparations, only inside; and what
    may take long, preparing a workspace, waiting for a child and asking to stop
    it, it does outside. *)
Theorem keyed_coordinated j tr s r : runs (program j tt) tr (s, r) →
  inside tr = false ∧ ∀ tr1 c x tr2, tr = tr1 ++ Ev c x :: tr2 →
    match c with
    | Enter _ | Materialize _ _ | AwaitCompletion | RequestStop _ _ => inside tr1 = false
    | Leave | ReadLedger _ | Begin _ _ | BeginPreparation _ | Publish _ _ | BeforeFreshClaim _ | RetainPreparation _
    | AssertPreparationAdmission _ | ClosePreparation _ _ | DispatchPrepared _ => inside tr1 = true
    | _ => True
    end.
Proof.
  intros Hr. destruct (traced_runs _ _ _ _ _ _ _ (program_outer j [] tt eq_refl) Hr) as [Hi Hp].
  split; [done|]. intros tr1 c x tr2 E. exact (Hp tr1 c x tr2 E).
Qed.
End guards.

(** ** Programs that share the ledger *)

Section shared.
Context (sha : jsstring → jsstring) (port : Port) (jobs : nat → Job).
Abbreviation resp := (fallible LaunchError answer).
Abbreviation traces := (list (nat * event resp)).

(** Others may change the ledger, by its operations. *)
Definition moves_on (s s1 : Ledger) : Prop := ∃ l, same s l ∧ reaches sha l s1.

(** The ledger port on one stored ledger: a publication compares it with the
    ledger that its transaction began with; one that throws may have taken
    effect. *)
Definition ledger_step (c : call) (s : Ledger) (r : resp c) (s' : Ledger) : Prop :=
  ∃ s1, moves_on s s1 ∧
    match c return resp c → Prop with
    | ReadLedger _ => λ r, s' = s1 ∧ ∀ l, r = Ok l → same s1 l
    | Begin n _ => λ r, s' = s1 ∧ ∀ l tok, r = Ok (l, tok) → same s1 l ∧ generation l = n ∧ tok ≠ token l
    | BeginPreparation b => λ r, s' = s1 ∧ ∀ l tok, r = Ok (l, tok) → same s1 l ∧ tok ≠ token l
    | Publish l next => λ r,
        match r with
        | Ok l' => same s1 l ∧ assertSuccessor sha l next = Ok tt ∧ same next l' ∧ s' = next
        | Throw _ => s' = s1 ∨ same s1 l ∧ assertSuccessor sha l next = Ok tt ∧ s' = next
        end
    | _ => λ _, s' = s1
    end r.

(** The calls of program [k] so far. *)
Definition underway (k : nat) (tr : traces) : Prop :=
  ∃ rest s r, runs (program sha port (jobs k) tt) (of_thread k tr ++ rest) (s, r).

Section invariant.
Context (au : Authority) (sl : list Allocation).
Abbreviation claimed := (claimed sha au sl).
Abbreviation proper := (proper sha au sl).

Record shared_inv (tr : traces) (s : Ledger) : Prop := {
  si_proper : proper s;
  si_lawful : ∀ k, Lawful sha au sl (of_thread k tr);
  si_there : ∀ k hd, claimed (of_thread k tr) hd → hd ∈ handles s;
  si_one : ∀ j k hd, claimed (of_thread j tr) hd → claimed (of_thread k tr) hd → j = k }.

Lemma same_handles l l' : same l l' → handles l = handles l'.
Proof. intros (_ & _ & E & _). unfold handles. by rewrite E. Qed.

Lemma moves_on_handles s s1 : moves_on s s1 → ∃ more, handles s1 = handles s ++ more.
Proof. intros (l & Hs & Hr%reaches_handles). by rewrite (same_handles _ _ Hs). Qed.

Lemma moves_on_proper s s1 : moves_on s s1 → proper s → proper s1.
Proof.
  intros (l & Hs & Hr) Hp. apply (proper_same sha _ _ s l Hs) in Hp as (Hv & Ha & Hsl).
  split; [by eapply valid_reaches|]. apply reaches_binding in Hr as [-> ->]. done.
Qed.

Lemma thread_snoc k i (c : call) (r : resp c) (tr : traces) : of_thread k (tr ++ [(i, Ev c r)]) = if (i =? k)%nat then of_thread k tr ++ [Ev c r] else of_thread k tr.
Proof. rewrite of_thread_app, of_thread_cons. destruct (i =? k)%nat; [done|by rewrite app_nil_r]. Qed.

Definition publication (e : event resp) : option (Ledger * Ledger) :=
  match e with
  | Ev c r =>
      match c return resp c → option (Ledger * Ledger) with
      | Publish l next => λ r, match r with Ok _ => Some (l, next) | Throw _ => None end
      | _ => λ _, None
      end r
  end.

(** A claim is an old one, or made by the last call. *)
Lemma claimed_snoc k i c r tr hd : claimed (of_thread k (tr ++ [(i, Ev c r)])) hd →
  claimed (of_thread k tr) hd ∨ i = k ∧ ∃ l next, publication (Ev c r) = Some (l, next) ∧ proper l ∧ claims sha l next hd.
Proof.
  rewrite thread_snoc. destruct (Nat.eqb_spec i k) as [->|]; [|auto].
  intros (l & next & l' & [?|E%list_elem_of_singleton]%elem_of_app & Hp & Hc); [left; by exists l, next, l'|right].
  split; [done|]. exists l, next. by rewrite <-E.
Qed.

Lemma lawful_snoc tr i c r : (∀ k, Lawful sha au sl (of_thread k tr)) → lawful sha au sl (Ev c r) →
  ∀ k, Lawful sha au sl (of_thread k (tr ++ [(i, Ev c r)])).
Proof.
  intros Hl He k. rewrite thread_snoc. destruct (i =? k)%nat; [|done]. intros e [?| ->%list_elem_of_singleton]%elem_of_app; [|done].
  by apply (Hl k).
Qed.

Definition published (c : call) : bool := match c with Publish _ _ => true | _ => false end.

Lemma inv_other tr s i c r s' : shared_inv tr s → published c = false → ledger_step c s r s' →
  shared_inv (tr ++ [(i, Ev c r)]) s'.
Proof.
  intros [Hp Hl Ht Ho] Hc (s1 & Hm & Hs).
  assert (s' = s1 ∧ lawful sha au sl (Ev c r)) as [-> He].
  { pose proof (moves_on_proper _ _ Hm Hp) as Hp1. destruct c; try done; simpl in *; try (by split).
    - destruct Hs as [-> Hs]. split; [done|]. destruct r as [l|e]; [|done]. by eapply proper_same, Hp1; apply Hs.
    - destruct Hs as [-> Hs]. split; [done|]. destruct r as [[l tok]|e]; [|done]. destruct (Hs l tok eq_refl) as (Hq & ? & ?).
      split; [by eapply proper_same|done].
    - destruct Hs as [-> Hs]. split; [done|]. destruct r as [[l tok]|e]; [|done]. destruct (Hs l tok eq_refl) as (Hq & ?).
      split; [by eapply proper_same|done]. }
  assert (∀ k hd, claimed (of_thread k (tr ++ [(i, Ev c r)])) hd → claimed (of_thread k tr) hd) as Hcl.
  { intros k hd [?|(_ & l & next & E & _)]%claimed_snoc; [done|]. by destruct c. }
  split; [by eapply moves_on_proper|by apply lawful_snoc| |].
  - intros k hd H%Hcl%Ht. destruct (moves_on_handles _ _ Hm) as [more ->]. apply elem_of_app. by left.
  - intros j k hd H1%Hcl H2%Hcl. by eapply Ho.
Qed.

Lemma inv_publish tr s i l next r s' : shared_inv tr s → from_domain sha l next → ledger_step (Publish l next) s r s' →
  shared_inv (tr ++ [(i, Ev (Publish l next) r)]) s'.
Proof.
  intros [Hp Hl Ht Ho] (tok & o & [He _]%exec_effect) (s1 & Hm & Hs).
  pose proof (moves_on_proper _ _ Hm Hp) as Hp1. destruct (moves_on_handles _ _ Hm) as [more Hmore].
  assert (same s1 l → proper l) as Hpl by (intros Hq; by eapply proper_same).
  assert (same s1 l → proper next) as Hpn by (intros Hq; by eapply proper_effect, Hpl).
  assert (same s1 l → ∀ hd, hd ∈ handles s → hd ∈ handles l) as Hin.
  { intros Hq hd Hhd. rewrite <-(same_handles _ _ Hq), Hmore. apply elem_of_app. by left. }
  assert (∀ k hd, claimed (of_thread k tr) hd → hd ∈ handles s1) as Ht1.
  { intros k hd Hk%Ht. rewrite Hmore. apply elem_of_app. by left. }
  destruct (effect_handles sha _ _ _ He) as [new Hnew].
  assert (∀ l', r = Throw l' → ∀ k hd, claimed (of_thread k (tr ++ [(i, Ev (Publish l next) r)])) hd → claimed (of_thread k tr) hd) as Hold.
  { intros e -> k hd [?|(_ & ? & ? & E & _)]%claimed_snoc; done. }
  destruct r as [l'|e].
  - destruct Hs as (Hq & _ & Hsame & ->). split; [by apply Hpn|apply lawful_snoc; done| |].
    + intros k hd [Hk|(_ & l0 & n0 & [= <- <-] & _ & (? & c & _ & Hacc & <-))]%claimed_snoc.
      * rewrite Hnew. apply elem_of_app. left. by eapply Hin, Ht.
      * unfold handles. rewrite Hacc, map_app. apply elem_of_app. right.
        by apply list_elem_of_singleton.
    + assert (∀ j hd, claimed (of_thread j tr) hd → claims sha l next hd → False) as Hfresh.
      { intros j hd Hj (? & c & _ & Hacc & Hc).
        pose proof (handles_NoDup sha next (proj1 (Hpn Hq))) as Hn. unfold handles in Hn. rewrite Hacc, map_app in Hn.
        apply NoDup_app in Hn as (_ & Hn & _). apply (Hn hd); [by eapply Hin, Ht|]. rewrite <-Hc. by apply list_elem_of_singleton. }
      intros j k hd [Hj|(-> & l1 & n1 & [= <- <-] & _ & C1)]%claimed_snoc [Hk|(-> & l2 & n2 & [= <- <-] & _ & C2)]%claimed_snoc.
      * by eapply Ho.
      * destruct (Hfresh j hd Hj C2).
      * destruct (Hfresh k hd Hk C1).
      * done.
  - assert (proper s' ∧ ∀ hd, hd ∈ handles s1 → hd ∈ handles s') as [Hp' Hh].
    { destruct Hs as [->|(Hq & _ & ->)]; [done|]. split; [by apply Hpn|]. intros hd Hhd. rewrite Hnew, <-(same_handles _ _ Hq).
      apply elem_of_app. by left. }
    split; [done|by apply lawful_snoc| |].
    + intros k hd Hk%(Hold _ eq_refl). by eapply Hh, Ht1.
    + intros j k hd H1%(Hold _ eq_refl) H2%(Hold _ eq_refl). by eapply Ho.
Qed.

(** A program that is under way keeps its judgement. *)
Lemma keyed_underway_pre k tr : underway k tr → ∀ tr1 c x tr2, tr = tr1 ++ (k, Ev c x) :: tr2 → launch_pre sha au sl (of_thread k tr1) c.
Proof.
  intros (rest & s & r & Hr) tr1 c x tr2 ->. rewrite of_thread_app, of_thread_cons, Nat.eqb_refl in Hr.
  destruct (traced_runs _ _ _ _ _ _ _ (program_judged sha port au sl (jobs k) tt) Hr) as [_ Hp].
  apply (Hp _ c x (of_thread k tr2 ++ rest)). by rewrite <-app_assoc.
Qed.

Lemma keyed_shared_kept tr0 tr s s' : (∀ k, underway k (tr0 ++ tr)) → shared_inv tr0 s → serves ledger_step s tr s' → shared_inv (tr0 ++ tr) s'.
Proof.
  revert tr0 s. induction tr as [|[i [c r]] tr IH]; intros tr0 s Hu Hi; simpl; [intros <-; by rewrite app_nil_r|].
  intros (s1 & Hs & Htr). replace (tr0 ++ (i, Ev c r) :: tr) with ((tr0 ++ [(i, Ev c r)]) ++ tr) in * by (by rewrite <-app_assoc).
  apply (IH _ s1); [done| |done].
  assert (launch_pre sha au sl (of_thread i tr0) c) as Hc by (eapply keyed_underway_pre; [apply (Hu i)|by rewrite <-app_assoc]).
  destruct (published c) eqn:Ep; [|by eapply inv_other]. destruct c; try done. by eapply inv_publish.
Qed.

Lemma underway_app k tr tr' : underway k (tr ++ tr') → underway k tr.
Proof. intros (rest & s & r & H). exists (of_thread k tr' ++ rest), s, r. by rewrite app_assoc, <-of_thread_app. Qed.

Lemma shared_prefix tr0 tr s s' : proper s → (∀ k, underway k (tr0 ++ tr)) → serves ledger_step s (tr0 ++ tr) s' →
  ∃ s1, shared_inv tr0 s1.
Proof.
  intros Hp Hu (s1 & H1 & _)%serves_app. exists s1. apply (keyed_shared_kept [] tr0 s s1); [|split|done]; try done.
  - intros k. by eapply underway_app.
  - intros k e. simpl. by intros ?%not_elem_of_nil.
  - intros k hd (l & n & l' & []%not_elem_of_nil & _).
  - intros j k hd (l & n & l' & []%not_elem_of_nil & _).
Qed.
End invariant.

(** C5: Dispatches. Programs of the application that share the ledger, one call
    of any of them at a time, in any order, with failures anywhere, restarts and
    others that change the ledger by its operations: a child is only dispatched by
    the launch that claimed it, whose publication added it to the ledger, after
    that launch prepared its workspace; and no child is dispatched twice. *)
Theorem keyed_dispatch_once l0 tr s tr1 i b x tr2 :
  live sha l0 → (∀ k, underway k tr) → serves ledger_step l0 tr s → tr = tr1 ++ (i, Ev (DispatchPrepared b) x) :: tr2 →
  (∃ l next l', (i, Ev (Publish l next) (Ok l')) ∈ tr1 ∧ handles next = handles l ++ [o_handle b]) ∧
  (∃ b' task, (i, Ev (Materialize b' task) (Ok tt)) ∈ tr1 ∧ o_handle b' = o_handle b) ∧
  ∀ j b' y, (j, Ev (DispatchPrepared b') y) ∈ tr1 → o_handle b' ≠ o_handle b.
Proof.
  intros Hl%live_valid Hu Hs ->. set (au := authority l0). set (sl := slots l0).
  destruct (shared_prefix au sl tr1 ((i, Ev (DispatchPrepared b) x) :: tr2) l0 s (conj Hl (conj eq_refl eq_refl)) Hu Hs) as [s1 [_ Hlaw _ Hone]].
  destruct (keyed_underway_pre au sl i _ (Hu i) tr1 (DispatchPrepared b) x tr2 eq_refl) as [Hd Hb].
  destruct (Hb (Hlaw i)) as [Hc (b0 & task & Hb0 & Hm)].
  split; [|split].
  - destruct Hc as (l & next & l' & Hin & _ & (? & c & _ & Hacc & <-)). exists l, next, l'.
    split; [by apply of_thread_elem|]. unfold handles. by rewrite Hacc, map_app.
  - exists b0, task. split; [by apply of_thread_elem|done].
  - intros j b' y Hj Heq. assert (i = j) as <-.
    { pose proof Hj as (t1 & t2 & E)%list_elem_of_split. apply (Hone i j (o_handle b)); [done|]. rewrite <-Heq.
      destruct (keyed_underway_pre au sl j _ (Hu j) t1 (DispatchPrepared b') y (t2 ++ (i, Ev (DispatchPrepared b) x) :: tr2)) as [_ Hb'].
      { by rewrite E, <-app_assoc. }
      destruct Hb' as [Hc' _]; [|eapply claimed_included, Hc'].
      - eapply Lawful_included, (Hlaw j). rewrite E, of_thread_app. apply included_app.
      - rewrite E, of_thread_app. apply included_app. }
    apply of_thread_elem, list_elem_of_split in Hj as (t1 & t2 & E).
    assert (dispatches (of_thread i tr1) ≠ 0%nat) as Hn; [|done]. rewrite E. unfold dispatches. rewrite List.filter_app, length_app. simpl. lia.
Qed.
End shared.

(** ** A launch *)

Module Demo.
Import KeyedChild.Demo.

#[local] Instance Q_eq_dec : EqDecision QArith_base.Q.
Proof. solve_decision. Defined.
#[local] Instance num_eq_dec : EqDecision num.
Proof. solve_decision. Defined.
#[local] Instance Scope_eq_dec : EqDecision Scope.
Proof. solve_decision. Defined.
#[local] Instance Authority_eq_dec : EqDecision Authority.
Proof. solve_decision. Defined.
#[local] Instance same_dec l l' : Decision (same l l').
Proof. unfold same. apply _. Defined.

(** A stored ledger. A transaction of another generation, and a publication that
    the ledger before does not admit, are refused. *)
Definition refused {A} : result LaunchError A := Throw (PortFailure (js "refused")).
Definition handle (c : call) (w : Ledger) : fallible LaunchError answer c * Ledger :=
  match c return fallible LaunchError answer c * Ledger with
  | ReadLedger _ => (Ok w, w)
  | Begin n _ => (if (generation w =? n)%Z then Ok (w, S (token w)) else refused, w)
  | BeginPreparation b => (Ok (w, S (token w)), w)
  | Publish l next =>
      match assertSuccessor hash l next with
      | Ok _ => if decide (same w l) then (Ok next, next) else (refused, w)
      | Throw _ => (refused, w)
      end
  | DispatchPrepared _ => (Ok false, w)
  | SignalAborted => (Ok false, w)
  | DateNow => (Ok (num_of_Z 10), w)
  | PerformanceNow => (Ok (num_of_Z 0), w)
  | Authenticate _ | Enter _ | Leave | BeforeFreshClaim _ | RetainPreparation _ | AssertPreparationAdmission _
  | ClosePreparation _ _ | Materialize _ _ | AwaitCompletion | RequestStop _ _ | SetTimer _ _ | ClearTimer _ | StartStop _ _ =>
      (Ok tt, w)
  end.

Lemma same_refl l : same l l.
Proof. done. Qed.
Lemma stays_put s : moves_on hash s s.
Proof. exists s. split; [done|constructor]. Qed.

Lemma handle_step c w : ledger_step hash c w (handle c w).1 (handle c w).2.
Proof.
  exists w. split; [apply stays_put|].
  destruct c; cbn [handle fst snd]; try reflexivity.
  - split; [done|]. intros l [= <-]. apply same_refl.
  - split; [done|]. intros l tok H. destruct (generation w =? expected)%Z eqn:E; [|done]. bools.
    injection H as <- <-. split; [apply same_refl|]. split; [done|lia].
  - split; [done|]. intros l tok [= <- <-]. split; [apply same_refl|lia].
  - destruct (assertSuccessor hash current next) as [[]|] eqn:E; [|by left]. by destruct (decide _); [|left].
Qed.

Definition the_port : Port := mkPort (mkScope (js "p") (js "w") (js "c")) digest64 (num_of_Z 1000) (num_of_Z 5) true.
Definition the_jobs (k : nat) : Job := if (k =? 0)%nat then LaunchJob first_request else ObserveJob (js "child1").
Abbreviation run_of k := (exec_trace handle (program hash the_port (the_jobs k) tt) demo0).
Definition launched : list (nat * event (fallible LaunchError answer)) := tagged 0 (run_of 0).

Lemma launched_underway k : underway hash the_port the_jobs k launched.
Proof.
  assert (∃ rest, of_thread k launched ++ rest = run_of k) as [rest E].
  { destruct k as [|k].
    - exists []. unfold launched. by rewrite of_thread_tagged, app_nil_r.
    - exists (run_of (S k)). assert (of_thread (S k) launched = []) as ->; [|done].
      unfold launched. generalize (run_of 0). intros l. by induction l. }
  exists rest. rewrite E. eexists _, _. rewrite <-surjective_pairing. apply exec_runs.
Qed.

Lemma launched_serves : ∃ s, serves (ledger_step hash) demo0 launched s.
Proof. eexists. apply (exec_serves _ handle (λ l, l) 0). apply handle_step. Qed.

Definition call_name (c : call) : string :=
  match c with
  | Authenticate Work => "work" | Authenticate Cleanup => "cleanup" | Enter _ => "enter" | Leave => "leave" | ReadLedger _ => "read"
  | Begin _ _ => "begin" | BeginPreparation _ => "begin preparation" | Publish _ _ => "publish" | BeforeFreshClaim _ => "fresh"
  | RetainPreparation _ => "retain" | AssertPreparationAdmission _ => "admit" | ClosePreparation _ _ => "close"
  | Materialize _ _ => "materialize" | DispatchPrepared _ => "dispatch" | AwaitCompletion => "wait" | RequestStop _ _ => "stop"
  | SignalAborted => "aborted" | DateNow | PerformanceNow => "now" | SetTimer _ _ => "timer" | ClearTimer _ => "clear"
  | StartStop _ _ => "start stop"
  end%string.

Example launched_calls : map (λ e : nat * _, match e.2 with Ev c _ => call_name c end) launched =
  ["work"; "enter"; "work"; "aborted"; "read"; "begin"; "now"; "fresh"; "publish"; "retain"; "leave"; "now"; "now"; "now";
   "now"; "timer"; "enter"; "work"; "read"; "admit"; "begin preparation"; "now"; "publish"; "leave"; "materialize"; "enter";
   "work"; "read"; "admit"; "begin preparation"; "now"; "publish"; "leave"; "enter"; "work"; "read"; "admit"; "dispatch";
   "leave"]%string.
Proof. by vm_compute. Qed.

(** A launch of a key that was launched before claims and prepares nothing. *)
Example launched_again :
  map (λ e : event (fallible LaunchError answer), match e with Ev c _ => call_name c end)
    (exec_trace handle (program hash the_port (the_jobs 0) tt) (Programs.exec handle (program hash the_port (the_jobs 0) tt) demo0).2) =
  ["work"; "enter"; "work"; "aborted"; "read"; "begin"; "now"; "publish"; "leave"]%string.
Proof. by vm_compute. Qed.

Lemma keyed_coordinated_witness : inside (run_of 0) = false.
Proof.
  refine (proj1 (keyed_coordinated hash the_port (the_jobs 0) (run_of 0) _ _ _)). rewrite <-surjective_pairing. apply exec_runs.
Defined.

Lemma keyed_dispatch_once_witness : ∃ b l next l',
  (0%nat, Ev (Publish l next) (Ok l')) ∈ take 37 launched ∧ handles next = handles l ++ [o_handle b].
Proof.
  assert (∃ b x, launched !! 37%nat = Some (0%nat, Ev (DispatchPrepared b) x)) as (b & x & E) by (vm_compute; repeat eexists).
  destruct launched_serves as [s Hs].
  destruct (keyed_dispatch_once hash the_port the_jobs demo0 launched s (take 37 launched) 0 b x (drop 38 launched)
    demo0_live launched_underway Hs (eq_sym (take_drop_middle _ _ _ E))) as ((l & next & l' & H) & _).
  by exists b, l, next, l'.
Defined.
End Demo.
End KeyedGuards.
