(* ===== verification/Redaction.v ===== *)
(** * Redaction of text and of streamed text

    [src/core/application/redactor.ts], the redactor that replaces registered
    secrets and two patterns of tokens, and
    [src/core/application/redacted-text-stream.ts], the stream that emits of a
    text that arrives in chunks only what no later chunk can turn into a secret.

    The two regular expressions are written out as matchers at a position: their
    parts exclude each other, so the greedy choices of a matcher are the choices
    of the expression. Positions and lengths are natural numbers. A secret given
    as bytes is registered as the text they decode to. *)

From stdpp Require Import base numbers option sets strings list.
From S2P Require Import Prelude SafePolicy.

Module Redaction.

#[local] Open Scope nat_scope.

(** ** Patterns *)

Definition word_char := SafePolicy.word_char.
Definition isWordCharacter (c : option N) : bool := match c with Some c => word_char c | None => false end.
Definition is_quote (c : N) : bool := (c =? 34)%N || (c =? 39)%N.
Definition startsWithQuote (s : jsstring) : bool := match s with c :: _ => is_quote c | [] => false end.

(** Ignoring the case of ASCII letters. *)
Definition lower (c : N) : N := if (65 <=? c)%N && (c <=? 90)%N then (c + 32)%N else c.

Fixpoint drop_while (f : N → bool) (s : jsstring) : jsstring :=
  match s with c :: s' => if f c then drop_while f s' else s | [] => [] end.
Fixpoint take_while (f : N → bool) (s : jsstring) : jsstring :=
  match s with c :: s' => if f c then c :: take_while f s' else [] | [] => [] end.
Definition skip_quote (s : jsstring) : jsstring := match s with c :: s' => if is_quote c then s' else s | [] => [] end.

Definition field_keys : list jsstring := [js "access_token"; js "refresh_token"; js "id_token"; js "api_key"; js "token"].
Definition bearerPrefix : jsstring := js "Bearer".

(** [\b(?:access_token|...|token)\b]: what follows the key. *)
Definition after_word (s : jsstring) : option jsstring :=
  match list_find (λ k, starts_with k (lower <$> s) = true) field_keys with
  | Some (_, k) => let rest := drop (length k) s in if isWordCharacter (head rest) then None else Some rest
  | None => None
  end.
(** [tokenFieldKey] after the character [before]: what follows. *)
Definition key_at (before : option N) (s : jsstring) : option jsstring :=
  if startsWithQuote s then skip_quote <$> after_word (tail s)
  else if isWordCharacter before then None else skip_quote <$> after_word s.

Definition value_char (c : N) : bool := negb (is_quote c || (c =? 44)%N || (c =? 125)%N || js_space c).
Definition is_assign (c : N) : bool := (c =? 58)%N || (c =? 61)%N.
Definition bearer_char (c : N) : bool :=
  ((48 <=? c)%N && (c <=? 57)%N) || ((65 <=? c)%N && (c <=? 90)%N) || ((97 <=? c)%N && (c <=? 122)%N) ||
  bool_decide (c ∈ js "._~+/=-").

(** [completeTokenField] and [completeBearer]: what follows the match. *)
Definition field_at (before : option N) (s : jsstring) : option jsstring :=
  match key_at before s with
  | Some rest =>
      match drop_while js_space rest with
      | c :: rest =>
          if is_assign c then
            let value := skip_quote (drop_while js_space rest) in
            if match value with c :: _ => value_char c | [] => false end
            then Some (skip_quote (drop_while value_char value)) else None
          else None
      | [] => None
      end
  | None => None
  end.
Definition bearer_at (before : option N) (s : jsstring) : option jsstring :=
  if starts_with bearerPrefix s && negb (isWordCharacter before) then
    let rest := drop (length bearerPrefix) s in
    let value := drop_while js_space rest in
    if (length value <? length rest) && match value with c :: _ => bearer_char c | [] => false end
    then Some (drop_while bearer_char value) else None
  else None.

(** The matches of a global expression from left to right, with their positions
    and lengths, and the text with each of them replaced. *)
Definition match_length (at_ : option N → jsstring → option jsstring) (before : option N) (s : jsstring) : nat :=
  match at_ before s with Some rest => length s - length rest | None => 0 end.

Fixpoint matches (at_ : option N → jsstring → option jsstring) (skip index : nat) (before : option N) (s : jsstring) : list (nat * nat) :=
  match s with
  | [] => []
  | c :: s' =>
      match skip with
      | S skip => matches at_ skip (S index) (Some c) s'
      | O =>
          match match_length at_ before s with
          | S n => (index, S n) :: matches at_ n (S index) (Some c) s'
          | O => matches at_ O (S index) (Some c) s'
          end
      end
  end.

(** [f] gets the character before a match, none at the start of the text. *)
Fixpoint replace (at_ : option N → jsstring → option jsstring) (f : option N → jsstring → jsstring)
  (skip : nat) (before : option N) (s : jsstring) : jsstring :=
  match s with
  | [] => []
  | c :: s' =>
      match skip with
      | S skip => replace at_ f skip (Some c) s'
      | O =>
          match match_length at_ before s with
          | S n => f before (take (S n) s) ++ replace at_ f n (Some c) s'
          | O => c :: replace at_ f O (Some c) s'
          end
      end
  end.

(** ** The redactor *)

(** The registered secrets with their labels, in the order of registration. *)
Definition Secrets : Type := list (jsstring * jsstring).

Definition registerSecret (ss : Secrets) (normalized label : jsstring) : Secrets :=
  if (length normalized =? 0) then ss else map_set ss normalized label.

Definition secret_at (secret : jsstring) (_ : option N) (s : jsstring) : option jsstring :=
  if starts_with secret s then Some (drop (length secret) s) else None.
Definition label_text (label : jsstring) : jsstring := js "[redacted:" ++ label ++ js "]".

(** [output.split(secret).join(...)]. *)
Definition mask_one (output : jsstring) (e : jsstring * jsstring) : jsstring :=
  replace (secret_at e.1) (λ _ _, label_text e.2) 0 None output.
Definition mask (ss : Secrets) (input : jsstring) : jsstring := foldl mask_one input ss.

(** The key that a token field is matched with. *)
Definition field_key (m : jsstring) : jsstring :=
  take_while (λ c, (65 <=? c)%N && (c <=? 90)%N || (97 <=? c)%N && (c <=? 122)%N || (c =? 95)%N) (skip_quote m).

Definition mask_fields (previousInputChar : option N) (output : jsstring) : jsstring :=
  replace field_at
    (λ before m,
       if match before with None => isWordCharacter previousInputChar && negb (startsWithQuote m) | Some _ => false end then m
       else field_key m ++ js "=[redacted:token-field]") 0 None output.
Definition mask_bearers (previousInputChar : option N) (output : jsstring) : jsstring :=
  replace bearer_at
    (λ before m,
       if match before with None => isWordCharacter previousInputChar | Some _ => false end then m
       else js "Bearer [redacted]") 0 None output.

Definition redactWithPreviousCharacter (ss : Secrets) (input : jsstring) (previousInputChar : option N) : jsstring :=
  mask_bearers previousInputChar (mask_fields previousInputChar (mask ss input)).
Definition redact (ss : Secrets) (input : jsstring) : jsstring := redactWithPreviousCharacter ss input None.

(** The positions of a text. *)
Definition occurrences (secret s : jsstring) : list nat :=
  filter (λ i, starts_with secret (drop i s) = true) (seq 0 (S (length s))).
Definition includes (secret s : jsstring) : bool := match occurrences secret s with [] => false | _ => true end.

Inductive RedactionError : Set := KnownSecretLeaked (context : jsstring) | StreamClosed | PendingLimitExceeded.

Definition assertNoKnownSecret (ss : Secrets) (input context : jsstring) : result RedactionError unit :=
  guard (negb (existsb (λ e, includes e.1 input) ss)) (KnownSecretLeaked context).

(** ** The stream *)

Definition maxPendingChars : nat := 8 * 1024.
Definition keywordCarryChars : nat := 14.

Record Stream : Set := mkStream { pending : jsstring; closed : bool; previousInputContext : jsstring }.
Definition createTextStream : Stream := mkStream [] false [].

Definition suffix (n : nat) (s : jsstring) : jsstring := drop (length s - n) s.

(** The lengths from [maximum] down to one more than [longest]. *)
Definition longer_suffix (input secret longest : jsstring) : jsstring :=
  let maximum := Nat.min (length secret - 1) (length input) in
  match list_find (λ n, starts_with (suffix n input) secret = true) (reverse (seq (S (length longest)) (maximum - length longest))) with
  | Some (_, n) => suffix n input
  | None => longest
  end.
Definition longestSecretPrefixSuffix (input : jsstring) (secrets : list jsstring) : jsstring :=
  foldl (λ longest secret, longer_suffix input secret longest) [] secrets.

Definition hasWordBoundaryBefore (input : jsstring) (start : nat) (previousInputChar : option N) (quotedStartHasBoundary : bool) : bool :=
  if quotedStartHasBoundary && startsWithQuote (drop start input) then true
  else negb (isWordCharacter (match start with O => previousInputChar | S n => input !! n end)).

Definition avoid_match (input : jsstring) (previousInputChar : option N) (quoted : bool) (adjusted : nat) (m : nat * nat) : nat :=
  if hasWordBoundaryBefore input m.1 previousInputChar quoted && (m.1 <? adjusted) && (adjusted <? m.1 + m.2) then m.1 else adjusted.
Definition avoidSplittingRedactionMatch (input : jsstring) (safeEnd : nat) (pattern : option N → jsstring → option jsstring)
  (previousInputChar : option N) (quoted : bool) : nat :=
  foldl (avoid_match input previousInputChar quoted) safeEnd (matches pattern 0 0 None input).

Definition earlier (a : option nat) (n : nat) : option nat := Some (match a with Some m => Nat.min m n | None => n end).

(** [/^\s*$/] or [/^\s*(?::|=)(?:\s|["'])*[^"',}\s]*$/]. *)
Definition open_field (tail : jsstring) : bool :=
  match drop_while js_space tail with
  | [] => true
  | c :: rest =>
      is_assign c &&
      match drop_while value_char (drop_while (λ c, js_space c || is_quote c) rest) with [] => true | _ => false end
  end.
Definition earliestTokenFieldStart (input : jsstring) (previousInputChar : option N) : option nat :=
  foldl (λ earliest m,
           if hasWordBoundaryBefore input m.1 previousInputChar true && open_field (drop (m.1 + m.2) input)
           then earlier earliest m.1 else earliest) None (matches key_at 0 0 None input).

Definition open_bearer (tail : jsstring) : bool :=
  starts_with tail bearerPrefix ||
  (starts_with bearerPrefix tail &&
   let rest := drop (length bearerPrefix) tail in
   let value := drop_while js_space rest in
   (length value <? length rest) && match drop_while bearer_char value with [] => true | _ => false end).
Definition earliestBearerStart (input : jsstring) (previousInputChar : option N) : option nat :=
  foldl (λ earliest index,
           if hasWordBoundaryBefore input index previousInputChar false && open_bearer (drop index input)
           then earlier earliest index else earliest) None (occurrences bearerPrefix input).

Definition earliestPotentialPatternStart (input : jsstring) (previousInputChar : option N) : option nat :=
  match earliestTokenFieldStart input previousInputChar, earliestBearerStart input previousInputChar with
  | Some a, Some b => Some (Nat.min a b)
  | Some a, None | None, Some a => Some a
  | None, None => None
  end.

(** The first occurrence of a secret that the end would split. *)
Definition avoid_secret (input : jsstring) (safeEnd : nat) (secret : jsstring) : nat :=
  match list_find (λ start, start < safeEnd ∧ safeEnd < start + length secret) (occurrences secret input) with
  | Some (_, start) => start
  | None => safeEnd
  end.

Definition safe_end (secrets : list jsstring) (input : jsstring) (previous : option N) : nat :=
  let secretCarry := length (longestSecretPrefixSuffix input secrets) in
  let safeEnd := Nat.min (Nat.min (length input - secretCarry) (length input - keywordCarryChars))
                   (default (length input) (earliestPotentialPatternStart input previous)) in
  let safeEnd := foldl (avoid_secret input) safeEnd secrets in
  let safeEnd := avoidSplittingRedactionMatch input safeEnd field_at previous true in
  avoidSplittingRedactionMatch input safeEnd bearer_at previous false.

Section stream.
Context (ss : Secrets).
#[local] Abbreviation S_ := (M Stream RedactionError).

Definition assertOpen : S_ unit := st ← get; if closed st then throw StreamClosed else mret tt.
Definition discard : S_ unit := modify (λ st, mkStream [] true (previousInputContext st)).

Definition emitSafePrefix : S_ jsstring :=
  st ← get;
  let safeEnd := safe_end ss.*1 (pending st) (last (previousInputContext st)) in
  let safePrefix := take safeEnd (pending st) in
  let output := redactWithPreviousCharacter ss safePrefix (last (previousInputContext st)) in
  let context := match safePrefix with
                 | [] => previousInputContext st
                 | _ => suffix keywordCarryChars (previousInputContext st ++ safePrefix)
                 end in
  modify (λ st, mkStream (drop safeEnd (pending st)) (closed st) context) ;;
  st ← get;
  if maxPendingChars <? length (pending st) then discard ;; throw PendingLimitExceeded else mret output.

Definition push (input : jsstring) : S_ jsstring :=
  assertOpen ;;
  modify (λ st, mkStream (pending st ++ input) (closed st) (previousInputContext st)) ;;
  emitSafePrefix.

Definition flush : S_ jsstring :=
  assertOpen ;;
  st ← get;
  modify (λ st, mkStream [] true (previousInputContext st)) ;;
  mret (redactWithPreviousCharacter ss (pending st) (last (previousInputContext st))).

(** A text pushed in chunks and flushed, until an operation throws: what was
    emitted, and what was thrown. *)
Fixpoint stream_text (chunks : list jsstring) (st : Stream) : list jsstring * option RedactionError :=
  match chunks with
  | [] => match flush st with (_, Ok output) => ([output], None) | (_, Throw e) => ([], Some e) end
  | chunk :: chunks =>
      match push chunk st with
      | (st, Ok output) => let r := stream_text chunks st in (output :: r.1, r.2)
      | (_, Throw e) => ([], Some e)
      end
  end.
End stream.

(** ** Secrets that can be told apart *)

Definition occurs (s text : jsstring) : Prop := ∃ x y, text = x ++ s ++ y.

Definition comparable (a b : jsstring) : bool := starts_with a b || starts_with b a.

(** Whether a text that begins so can begin a token after the character
    [before]. *)
Definition opens (before : N) (s : jsstring) : bool :=
  startsWithQuote s && existsb (comparable (lower <$> tail s)) field_keys ||
  negb (word_char before) && (existsb (comparable (lower <$> s)) field_keys || comparable s bearerPrefix).

(** Occurrences of secrets never overlap, no token begins inside of a secret,
    and secrets are not made of the text that replaces them. *)
Record separated (ss : Secrets) : Prop := mkSeparated {
  sep_nonempty : ∀ s, s ∈ ss.*1 → s ≠ [];
  sep_brackets : ∀ s, s ∈ ss.*1 → (91%N ∉ s) ∧ (93%N ∉ s);
  sep_labels : ∀ s e, s ∈ ss.*1 → e ∈ ss → ¬ occurs s (label_text e.2);
  sep_disjoint : ∀ s t x y x' y', s ∈ ss.*1 → t ∈ ss.*1 → x ++ s ++ y = x' ++ t ++ y' →
    length x < length x' → length x + length s ≤ length x';
  sep_tokens : ∀ s x c y, s ∈ ss.*1 → s = x ++ c :: y → y ≠ [] → opens c y = false }.

(** The decision procedure. *)
Definition separable (ss : Secrets) : bool :=
  forallb (λ s,
    negb (length s =? 0) && forallb (λ c, negb ((c =? 91)%N || (c =? 93)%N)) s &&
    forallb (λ e, negb (includes s (label_text e.2))) ss &&
    forallb (λ k, negb (existsb (comparable (drop k s)) ss.*1) &&
                  match s !! (k - 1) with Some c => negb (opens c (drop k s)) | None => false end)
      (seq 1 (length s - 1))) ss.*1.

Lemma starts_with_iff p s : starts_with p s = true ↔ ∃ r, s = p ++ r.
Proof.
  split; [|intros [r ->]; apply starts_with_app].
  revert s; induction p as [|c p IH]; intros s; [by exists s|].
  destruct s as [|d s]; simpl; [done|]. intros [->%N.eqb_eq H]%andb_true_iff. destruct (IH s H) as [r ->]. by exists r.
Qed.

Lemma comparable_app p q r : starts_with p (q ++ r) = true → comparable q p = true.
Proof.
  intros [t Ht]%starts_with_iff. unfold comparable. apply orb_true_iff.
  destruct (decide (length q ≤ length p)).
  - left. apply starts_with_iff. apply (f_equal (take (length p))) in Ht. rewrite take_app_length in Ht. rewrite <- Ht, take_app_ge by lia. eauto.
  - right. apply starts_with_iff. apply (f_equal (take (length q))) in Ht. rewrite take_app_length, take_app_ge in Ht by lia. eauto.
Qed.

Lemma occurrences_iff s text i : s ≠ [] → i ∈ occurrences s text ↔ starts_with s (drop i text) = true.
Proof.
  intros Hs. unfold occurrences. rewrite list_elem_of_filter, elem_of_seq. split; [tauto|]. intros H. split; [done|].
  apply starts_with_iff in H as [r H]. apply (f_equal length) in H. rewrite length_drop, length_app in H.
  destruct s; simpl in *; [done|lia].
Qed.
Lemma includes_not_occurs s text : includes s text = false → s ≠ [] → ¬ occurs s text.
Proof.
  intros H Hs (x & y & ->). assert (length x ∈ occurrences s (x ++ s ++ y)) as Hin.
  { apply occurrences_iff; [done|]. rewrite drop_app_length. apply starts_with_app. }
  unfold includes in H. destruct (occurrences _ _); [by apply elem_of_nil in Hin|done].
Qed.

Lemma separable_sound ss : separable ss = true → separated ss.
Proof.
  unfold separable. intros H.
  assert (∀ s, s ∈ ss.*1 → _) as Hall by exact (λ s Hs, proj1 (forallb_forall _ _) H s (proj1 (list_elem_of_In _ _) Hs)). clear H.
  assert (∀ s k, s ∈ ss.*1 → 1 ≤ k < length s → existsb (comparable (drop k s)) ss.*1 = false ∧ ∃ c, s !! (k - 1) = Some c ∧ opens c (drop k s) = false) as Hk.
  { intros s k Hs Hlt. specialize (Hall s Hs). rewrite !andb_true_iff in Hall. destruct Hall as [_ Hf].
    rewrite forallb_forall in Hf. specialize (Hf k ltac:(apply in_seq; lia)). apply andb_true_iff in Hf as [?%negb_true_iff Ho].
    destruct (s !! (k - 1)) as [c|]; [|done]. apply negb_true_iff in Ho. eauto. }
  assert (∀ s, s ∈ ss.*1 → s ≠ []) as Hne.
  { intros s Hs ->. by specialize (Hall [] Hs). }
  split.
  - exact Hne.
  - intros s Hs. specialize (Hall s Hs). rewrite !andb_true_iff in Hall. destruct Hall as [[[_ Hb] _] _].
    rewrite forallb_forall in Hb. split; intros Hin; apply list_elem_of_In, Hb in Hin; done.
  - intros s e Hs He. specialize (Hall s Hs) as Hs'. rewrite !andb_true_iff in Hs'. destruct Hs' as [[_ Hl] _].
    rewrite forallb_forall in Hl. apply list_elem_of_In, Hl, negb_true_iff in He. by apply includes_not_occurs; [|apply Hne].
  - intros s t x y x' y' Hs Ht Heq Hlt. destruct (decide (length x + length s ≤ length x')) as [|Hov]; [done|exfalso].
    destruct (Hk s (length x' - length x) Hs) as [Hc _]; [lia|].
    assert (existsb (comparable (drop (length x' - length x) s)) ss.*1 = true); [|congruence].
    apply existsb_exists. exists t. split; [by apply list_elem_of_In|].
    apply (comparable_app _ _ y). apply starts_with_iff. exists y'. apply (f_equal (drop (length x'))) in Heq.
    rewrite drop_app_length, drop_app, (drop_ge x), app_nil_l, drop_app_le in Heq by lia. exact Heq.
  - intros s x c y Hs -> Hy. destruct (Hk _ (S (length x)) Hs) as (_ & c' & Hc & Ho).
    { rewrite length_app. destruct y; simpl; [done|lia]. }
    replace (S (length x) - 1) with (length x) in Hc by lia.
    rewrite list_lookup_middle in Hc by done. injection Hc as <-.
    by rewrite (drop_app_ge x), Nat.sub_succ_l, Nat.sub_diag in Ho by lia.
Qed.

(** ** Masks of parts of a text *)

Lemma match_secret s b text : match_length (secret_at s) b text = if starts_with s text then length s else 0.
Proof.
  unfold match_length, secret_at. destruct (starts_with s text) eqn:E; [|done].
  apply starts_with_iff in E as [r ->]. rewrite drop_app_length, length_app. lia.
Qed.

(** No occurrence begins in [a] and ends after it. *)
Definition whole (s a b : jsstring) : Prop :=
  ∀ x y, a ++ b = x ++ s ++ y → length x < length a → length x + length s ≤ length a.

Section one_secret.
Context (s L : jsstring) (Hs : s ≠ []).
#[local] Abbreviation rep := (replace (secret_at s) (λ _ _, L)).

Lemma rep_step b c text : rep 0 b (c :: text) =
  if starts_with s (c :: text) then L ++ rep (length s - 1) (Some c) text else c :: rep 0 (Some c) text.
Proof.
  cbn [replace]. rewrite match_secret. destruct (starts_with s (c :: text)); [|done].
  destruct s; [done|]. simpl. by rewrite Nat.sub_0_r.
Qed.

Lemma rep_before n b b' text : rep n b text = rep n b' text.
Proof. destruct text as [|c text]; [done|]. destruct n; [|done]. by rewrite !rep_step. Qed.

Lemma rep_app a t : whole s a t → ∀ n b, n ≤ length a → rep n b (a ++ t) = rep n b a ++ rep 0 None t.
Proof using Hs.
  induction a as [|c a IH]; intros Hw n b Hn.
  - simpl in Hn. assert (n = 0) as -> by lia. simpl. apply rep_before.
  - assert (whole s a t) as Hw'.
    { intros x y Heq Hlt. specialize (Hw (c :: x) y). cbn in Hw. rewrite Heq in Hw. specialize (Hw eq_refl). lia. }
    destruct n as [|n]; [|by apply IH; [|simpl in Hn; lia]].
    change ((c :: a) ++ t) with (c :: (a ++ t)). rewrite !rep_step.
    destruct (starts_with s (c :: a ++ t)) eqn:E.
    + apply starts_with_iff in E as [r Hr]. specialize (Hw [] r). cbn in Hw. specialize (Hw Hr).
      assert (starts_with s (c :: a) = true) as ->.
      { apply starts_with_iff. exists (take (length (c :: a) - length s) r).
        apply (f_equal (take (length (c :: a)))) in Hr. change (c :: a ++ t) with ((c :: a) ++ t) in Hr.
        rewrite take_app_length, take_app_ge in Hr by (simpl in *; lia). exact Hr. }
      rewrite IH; [by rewrite app_assoc|done|]. simpl in *. lia.
    + assert (starts_with s (c :: a) = false) as ->.
      { apply not_true_is_false. intros [r Hr]%starts_with_iff. apply not_true_iff_false in E. apply E, starts_with_iff.
        exists (r ++ t). change (c :: a ++ t) with ((c :: a) ++ t). rewrite Hr. by rewrite app_assoc. }
      simpl. f_equal. rewrite IH by (done || lia). done.
Qed.

Context (HL : ∃ m, L = 91%N :: m ++ [93%N]).

Lemma rep_prefix text u y b : rep 0 b text = u ++ y → 91%N ∉ u → ∃ y0, text = u ++ y0.
Proof using HL Hs.
  revert u b. induction text as [|c text IH]; intros u b Heq Hu.
  - symmetry in Heq. apply app_eq_nil in Heq as [-> _]. by exists [].
  - destruct u as [|d u]; [by exists (c :: text)|]. rewrite rep_step in Heq. destruct (starts_with _ _).
    + destruct HL as [m ->]. injection Heq as <- _. by destruct Hu; left.
    + injection Heq as <- Heq. destruct (IH u _ Heq) as [y0 ->]; [by intros ?; apply Hu; right|]. by exists y0.
Qed.

Lemma rep_plain text b : 93%N ∉ rep 0 b text → rep 0 b text = text.
Proof using HL Hs.
  revert b. induction text as [|c text IH]; intros b Hn; [done|]. rewrite rep_step in *. destruct (starts_with _ _).
  - destruct Hn. destruct HL as [m ->]. apply elem_of_app; left. right. apply elem_of_app; right. by left.
  - f_equal. apply IH. intros H. apply Hn. by right.
Qed.

(** A text after the last bracket of a mask. *)
Lemma app_after_label x t R : L ++ R = x ++ t → 93%N ∉ t → ∃ x', R = x' ++ t.
Proof using HL Hs.
  intros Heq Ht. destruct (decide (length L ≤ length x)).
  - exists (drop (length L) x). apply (f_equal (drop (length L))) in Heq. by rewrite drop_app_length, drop_app_le in Heq.
  - exfalso. apply Ht. apply (f_equal (drop (length x))) in Heq. rewrite drop_app_length, drop_app_le in Heq by lia. rewrite <- Heq.
    apply elem_of_app; left. destruct HL as [m ->]. rewrite app_comm_cons in *. rewrite drop_app_le; [apply elem_of_app; right; by left|].
    rewrite length_app in n. simpl in *. lia.
Qed.

Lemma rep_suffix text x t n b : rep n b text = x ++ t → 93%N ∉ t → ∃ x0, text = x0 ++ t.
Proof using HL Hs.
  intros Heq Ht. revert x n b Heq. induction text as [|c text IH]; intros x n b Heq.
  - symmetry in Heq. destruct n; apply app_eq_nil in Heq as [_ ->]; by exists [].
  - destruct n as [|n]; [rewrite rep_step in Heq; destruct (starts_with _ _)|].
    + destruct (app_after_label _ _ _ Heq Ht) as [x' Hx]. destruct (IH _ _ _ Hx) as [x0 ->]. by exists (c :: x0).
    + destruct x as [|d x].
      * simpl in Heq. exists []. simpl. rewrite <- Heq in Ht |- *. f_equal. symmetry. eapply rep_plain. intros H. apply Ht. right. exact H.
      * injection Heq as _ Heq. destruct (IH _ _ _ Heq) as [x0 ->]. by exists (c :: x0).
    + destruct (IH _ _ _ Heq) as [x0 ->]. by exists (c :: x0).
Qed.

(** What is left of a text was in the text, and not where [s] began. *)
Lemma rep_occurs text t x y n b : t ≠ [] → 91%N ∉ t → 93%N ∉ t → ¬ occurs t L → rep n b text = x ++ t ++ y →
  ∃ x0 y0, text = x0 ++ t ++ y0 ∧ starts_with s (t ++ y0) = false.
Proof using HL Hs.
  intros Ht H1 H3 Hl. revert x n b. induction text as [|c text IH]; intros x n b Heq.
  - exfalso. symmetry in Heq. destruct n; apply app_eq_nil in Heq as [_ [-> _]%app_eq_nil]; done.
  - assert (∀ x' n' b', rep n' b' text = x' ++ t ++ y → ∃ x0 y0, c :: text = x0 ++ t ++ y0 ∧ starts_with s (t ++ y0) = false) as IH'.
    { intros x' n' b' H. destruct (IH _ _ _ H) as (x0 & y0 & -> & ?). by exists (c :: x0), y0. }
    destruct n as [|n]; [rewrite rep_step in Heq; destruct (starts_with s (c :: text)) eqn:E|by eapply IH'].
    + destruct (decide (length L ≤ length x)).
      * apply (f_equal (drop (length L))) in Heq. rewrite drop_app_length, drop_app_le in Heq by done. by eapply IH'.
      * exfalso. destruct (decide (length x + length t ≤ length L)).
        -- apply Hl. exists x, (drop (length (x ++ t)) L). apply (f_equal (take (length L))) in Heq.
           rewrite take_app_length, app_assoc, take_app_ge in Heq by (rewrite length_app; lia). rewrite Heq at 1 2.
           by rewrite drop_app_length, <- app_assoc.
        -- rewrite app_assoc in Heq. apply (f_equal (take (length (x ++ t)))) in Heq.
           rewrite take_app_length, take_app_ge in Heq by (rewrite length_app; lia).
           destruct (app_after_label _ _ _ Heq H3) as [x' Hx'].
           apply (f_equal length) in Hx'. apply (f_equal length) in Heq. rewrite !length_app in *. lia.
    + destruct x as [|d x].
      * destruct t as [|d t]; [done|]. injection Heq as -> Heq. destruct (rep_prefix _ _ _ _ Heq) as [y0 ->].
        { intros ?; apply H1; by right. }
        exists [], y0. done.
      * injection Heq as _ Heq. by eapply IH'.
Qed.
End one_secret.

Lemma label_brackets l : ∃ m, label_text l = 91%N :: m ++ [93%N].
Proof. exists (js "redacted:" ++ l). unfold label_text. by rewrite <- app_assoc. Qed.

Lemma mask_app ss a b : separated ss → (∀ s, s ∈ ss.*1 → whole s a b) → mask ss (a ++ b) = mask ss a ++ mask ss b.
Proof.
  intros [Hne Hbr _ _ _]. unfold mask. revert a b. induction ss as [|e ss IH]; intros a b Hw; [done|]. cbn.
  assert (e.1 ∈ (e :: ss).*1) as He by (left; done).
  assert (mask_one (a ++ b) e = mask_one a e ++ mask_one b e) as ->.
  { apply rep_app; auto with lia. }
  apply IH; [intros s Hs; apply Hne; by right|intros s Hs; apply Hbr; by right|].
  intros s Hs x y Heq Hlt. destruct (decide (length x + length s ≤ length (mask_one a e))) as [|Hlong]; [done|exfalso].
  assert (s ∈ (e :: ss).*1) as Hs' by (by right). destruct (Hbr s Hs') as [H1 H3].
  set (t := take (length (mask_one a e) - length x) s). set (u := drop (length (mask_one a e) - length x) s).
  assert (s = t ++ u) as Hsplit by (symmetry; apply take_drop).
  assert (mask_one a e = x ++ t ∧ mask_one b e = u ++ y) as [Ha Hb].
  { apply app_inj_1; [|rewrite Heq; rewrite Hsplit at 1; by rewrite <- !app_assoc].
    unfold t. rewrite length_app, length_take. lia. }
  destruct (rep_suffix _ _ (Hne _ He) (label_brackets e.2) _ _ _ _ _ Ha) as [x0 Hx0]; [rewrite Hsplit in H3; set_solver|].
  destruct (rep_prefix _ _ (Hne _ He) (label_brackets e.2) _ _ _ _ Hb) as [y0 Hy0]; [rewrite Hsplit in H1; set_solver|].
  specialize (Hw s Hs' x0 y0). rewrite Hx0, Hy0, Hsplit, <- !app_assoc in Hw. specialize (Hw eq_refl).
  apply (f_equal length) in Ha. rewrite !length_app in *.
  assert (length u ≠ 0) by (unfold u; rewrite length_drop; lia).
  assert (length t ≠ 0) by lia. lia.
Qed.

(** No secret is left. *)
Lemma mask_clean ss text s : separated ss → s ∈ ss.*1 → ¬ occurs s (mask ss text).
Proof.
  intros [Hne Hbr Hlab _ _] Hs. destruct (Hbr s Hs) as [H1 H3]. pose proof (Hne s Hs) as Hs0.
  assert (∀ e, e ∈ ss → ¬ occurs s (label_text e.2)) as Hl by eauto. clear Hlab Hbr.
  assert (s ∈ ss.*1 ∨ ¬ occurs s text) as Hor by (by left). clear Hs. unfold mask. revert text Hor.
  induction ss as [|e ss IH]; intros text Hor; [destruct Hor as [[]%elem_of_nil|]; done|]. cbn.
  apply IH; [intros t Ht; apply Hne; by right|intros e' He'; apply Hl; by right|].
  destruct (decide (s ∈ ss.*1)) as [|Hn]; [by left|right]. intros (x & y & Heq).
  destruct (rep_occurs _ _ (Hne e.1 ltac:(left; done)) (label_brackets e.2) _ _ _ _ _ _ Hs0 H1 H3 (Hl e ltac:(left; done)) Heq)
    as (x0 & y0 & -> & Hno).
  destruct Hor as [[->|?]%elem_of_cons|Ho]; [|done|by apply Ho; exists x0, y0].
  by rewrite starts_with_app in Hno.
Qed.

(** ** Where the stream cuts *)

Lemma after_word_opens s r x y : after_word s = Some r → s = x ++ y → existsb (comparable (lower <$> x)) field_keys = true.
Proof.
  unfold after_word. destruct (list_find _ _) as [[i k]|] eqn:E; [|done]. intros _ ->.
  apply list_find_Some in E as (Hk & Hs & _). rewrite fmap_app in Hs. apply comparable_app in Hs.
  apply existsb_exists. exists k. split; [|done]. apply list_elem_of_In. by eapply list_elem_of_lookup_2.
Qed.

Lemma key_opens c s r x y : key_at (Some c) s = Some r → s = x ++ y → x ≠ [] → opens c x = true.
Proof.
  unfold key_at, opens. intros H -> Hx. destruct x as [|d x]; [done|]. cbn [startsWithQuote app] in H.
  change (startsWithQuote (d :: x)) with (is_quote d). destruct (is_quote d).
  - simpl in H. destruct (after_word _) eqn:E; [|done]. cbn [tail]; rewrite (after_word_opens _ _ x y E eq_refl). done.
  - simpl in H. destruct (word_char c); [done|]. destruct (after_word _) eqn:E; [|done].
    rewrite (after_word_opens _ _ (d :: x) y E eq_refl). by rewrite orb_true_r.
Qed.

(** A match that begins in a secret, after its first character. *)
Definition starts_outside (at_ : option N → jsstring → option jsstring) : Prop :=
  ∀ c s r x y, at_ (Some c) s = Some r → s = x ++ y → x ≠ [] → opens c x = true.

Lemma field_outside : starts_outside field_at.
Proof.
  intros c s r x y H. unfold field_at in H. destruct (key_at _ _) eqn:E; [|done]. eapply key_opens, E.
Qed.
Lemma bearer_outside : starts_outside bearer_at.
Proof.
  intros c s r x y H -> Hx. unfold bearer_at in H. destruct (starts_with bearerPrefix (x ++ y)) eqn:E; [|done].
  cbn [isWordCharacter andb negb] in H. unfold opens. destruct (word_char c); [done|].
  apply comparable_app in E. rewrite E. by rewrite !orb_true_r.
Qed.

Definition before_at (b : option N) (s : jsstring) (n : nat) : option N := match n with O => b | S n => s !! n end.

Lemma matches_at at_ s n skip b i len : (i, len) ∈ matches at_ skip n b s →
  n ≤ i ∧ match_length at_ (before_at b s (i - n)) (drop (i - n) s) = len ∧ 0 < len.
Proof.
  revert n skip b. induction s as [|c s IH]; intros n skip b H; [by apply elem_of_nil in H|].
  assert (∀ skip', (i, len) ∈ matches at_ skip' (S n) (Some c) s →
            n ≤ i ∧ match_length at_ (before_at b (c :: s) (i - n)) (drop (i - n) (c :: s)) = len ∧ 0 < len) as IH'.
  { intros skip' H'. destruct (IH _ _ _ H') as (Hi & Hm & Hl). split_and!; [lia| |done].
    replace (i - n) with (S (i - S n)) by lia. cbn [before_at drop]. rewrite <- Hm. done. }
  cbn [matches] in H. destruct skip as [|skip]; [|by eapply IH'].
  destruct (match_length at_ b (c :: s)) eqn:E; [by apply (IH' 0)|]. apply elem_of_cons in H as [[= -> ->]|H]; [|by eapply IH'].
  rewrite Nat.sub_diag. simpl. split_and!; [done|exact E|lia].
Qed.

Section cuts.
Context (ss : Secrets) (Hsep : separated ss).

(** No occurrence of a secret in [p] is cut at [e]. *)
Definition clean (p : jsstring) (e : nat) : Prop :=
  ∀ s i, s ∈ ss.*1 → starts_with s (drop i p) = true → i < e → i + length s ≤ e.

Lemma occurrence_at s i p : s ∈ ss.*1 → starts_with s (drop i p) = true → ∃ x y, p = x ++ s ++ y ∧ length x = i.
Proof using Hsep.
  intros Hs [r Hr]%starts_with_iff. exists (take i p), r. rewrite <- Hr, take_drop. split; [done|].
  rewrite length_take. apply (f_equal length) in Hr. rewrite length_drop, length_app in Hr.
  pose proof (sep_nonempty _ Hsep s Hs). destruct s; simpl in *; [done|lia].
Qed.
Lemma start_clean s i p : s ∈ ss.*1 → starts_with s (drop i p) = true → clean p i.
Proof using Hsep.
  intros Hs Hi t j Ht Hj Hlt. destruct (occurrence_at _ _ _ Hs Hi) as (x & y & Hp & <-).
  destruct (occurrence_at _ _ _ Ht Hj) as (x' & y' & Hp' & <-).
  apply (sep_disjoint _ Hsep t s x' y' x y Ht Hs); [congruence|lia].
Qed.

Lemma avoid_secret_le p e s : avoid_secret p e s ≤ e.
Proof. unfold avoid_secret. destruct (list_find _ _) as [[]|] eqn:E; [|done]. apply list_find_Some in E. lia. Qed.
Lemma avoid_secrets_le p l e : foldl (avoid_secret p) e l ≤ e.
Proof. revert e. induction l as [|s l IH]; intros e; simpl; [done|]. etrans; [apply IH|apply avoid_secret_le]. Qed.

Lemma avoid_secrets_clean p e : clean p (foldl (avoid_secret p) e ss.*1).
Proof using Hsep.
  assert (∀ l done_, done_ ++ l = ss.*1 → ∀ e,
    clean p e ∨ (∀ s i, s ∈ done_ → starts_with s (drop i p) = true → i < e → i + length s ≤ e) →
    clean p (foldl (avoid_secret p) e l)) as Hind; [|apply (Hind (ss.*1) []); [done|right; intros ? ? ?%elem_of_nil; done]].
  clear e. induction l as [|s l IH]; intros d Heq e He.
  - rewrite app_nil_r in Heq. subst d. destruct He as [|He]; [done|]. intros t i Ht. by apply He.
  - cbn. apply (IH (d ++ [s])); [by rewrite <- app_assoc|].
    assert (s ∈ ss.*1) as Hs by (rewrite <- Heq; set_solver).
    unfold avoid_secret. destruct (list_find _ _) as [[k start]|] eqn:E.
    + left. apply list_find_Some in E as (Hin%list_elem_of_lookup_2 & _ & _).
      apply occurrences_iff in Hin; [|by apply (sep_nonempty _ Hsep)]. by eapply start_clean.
    + destruct He as [|He]; [by left|right]. intros t i [Ht| ->%list_elem_of_singleton]%elem_of_app Hi Hlt; [by eapply He|].
      destruct (decide (i + length s ≤ e)) as [|Hov]; [done|exfalso].
      apply list_find_None in E. rewrite Forall_forall in E. apply (E i); [|lia].
      apply occurrences_iff; [by apply (sep_nonempty _ Hsep)|done].
Qed.

Lemma avoid_matches_clean at_ p e prev quoted : starts_outside at_ → clean p e →
  clean p (avoidSplittingRedactionMatch p e at_ prev quoted) ∧ avoidSplittingRedactionMatch p e at_ prev quoted ≤ e.
Proof using Hsep.
  intros Hout Hc. unfold avoidSplittingRedactionMatch.
  assert (∀ l e, (∀ m, m ∈ l → m ∈ matches at_ 0 0 None p) → clean p e →
            clean p (foldl (avoid_match p prev quoted) e l) ∧ foldl (avoid_match p prev quoted) e l ≤ e) as Hind; [|by apply Hind].
  clear e Hc. induction l as [|[i n] l IH]; intros e Hl Hc; [done|]. cbn.
  assert (clean p (avoid_match p prev quoted e (i, n)) ∧ avoid_match p prev quoted e (i, n) ≤ e) as [Hc' Hle].
  { unfold avoid_match. destruct (_ && _ && _) eqn:E; [|done]. rewrite !andb_true_iff, !Nat.ltb_lt in E. cbn in *. split; [|lia].
    intros s j Hs Hj Hlt. destruct (decide (j + length s ≤ i)) as [|Hov]; [done|exfalso].
    assert ((i, n) ∈ matches at_ 0 0 None p) as Hm by (apply Hl; by left).
    apply matches_at in Hm as (_ & Hm & Hn). rewrite Nat.sub_0_r in Hm.
    destruct (occurrence_at _ _ _ Hs Hj) as (x & y & -> & <-).
    pose (k := i - length x). assert (∃ a c b, s = a ++ c :: b ∧ S (length a) = k ∧ b ≠ []) as (a & c & b & -> & Ha & Hb).
    { destruct (lookup_lt_is_Some_2 s (k - 1)) as [c Hc0]; [lia|]. exists (take (k - 1) s), c, (drop k s).
      pose proof (take_drop_middle s (k - 1) c Hc0) as Hmid. replace (S (k - 1)) with k in Hmid by lia.
      split_and!; [done|rewrite length_take; lia|]. intros H. apply (f_equal length) in H. rewrite length_drop in H. simpl in H. lia. }
    assert (opens c b = false) as Hno by (by eapply (sep_tokens _ Hsep)).
    assert (x ++ (a ++ c :: b) ++ y = (x ++ a ++ [c]) ++ b ++ y) as Hp by (by rewrite <- !app_assoc; simpl).
    rewrite Hp in Hm. assert (i = length (x ++ a ++ [c])) as Hi by (rewrite !length_app; simpl; lia).
    rewrite Hi in Hm. rewrite drop_app_length in Hm.
    replace (before_at None ((x ++ a ++ [c]) ++ b ++ y) (length (x ++ a ++ [c]))) with (Some c) in Hm.
    2:{ replace (length (x ++ a ++ [c])) with (S (length (x ++ a))) by (rewrite !length_app; simpl; lia). cbn [before_at].
        rewrite (app_assoc x a [c]), <- (app_assoc (x ++ a)). simpl. by rewrite list_lookup_middle. }
    unfold match_length in Hm. destruct (at_ (Some c) (b ++ y)) eqn:Eat; [|lia].
    rewrite (Hout _ _ _ _ _ Eat eq_refl Hb) in Hno. done. }
  destruct (IH (avoid_match p prev quoted e (i, n))) as [? ?]; [intros m Hm; apply Hl; by right|done|]. split; [done|lia].
Qed.

(** The longest suffix that begins a secret. *)
Lemma longer_suffix_spec p s longest n : length (longer_suffix p s longest) ≥ length longest ∧
  (n ≤ length p → n < length s → starts_with (suffix n p) s = true → n ≤ length (longer_suffix p s longest)).
Proof.
  unfold longer_suffix. set (maximum := Nat.min _ _). destruct (list_find _ _) as [[k m]|] eqn:E.
  - apply list_find_Some in E as (Hk & Hm & Hfirst).
    assert (k < maximum - length longest) as Hlt by (apply lookup_lt_Some in Hk; by rewrite length_reverse, length_seq in Hk).
    assert (∀ j, j < maximum - length longest → reverse (seq (S (length longest)) (maximum - length longest)) !! j = Some (maximum - j)) as Hrev.
    { intros j Hj. rewrite reverse_lookup by (rewrite length_seq; lia). rewrite length_seq, lookup_seq_lt by lia. f_equal. lia. }
    rewrite Hrev in Hk by done. injection Hk as <-.
    assert (length (suffix (maximum - k) p) = maximum - k) as Hlen by (unfold suffix; rewrite length_drop; lia).
    rewrite Hlen. split; [lia|]. intros Hn Hs Hpre. destruct (decide (n ≤ maximum - k)) as [|Hgt]; [done|exfalso].
    apply (Hfirst (maximum - n) n); [|lia|done]. rewrite Hrev by lia. f_equal. lia.
  - split; [lia|]. intros Hn Hs Hpre. destruct (decide (n ≤ length longest)) as [|Hgt]; [done|exfalso].
    apply list_find_None in E. rewrite Forall_forall in E. apply (E n); [|done].
    apply elem_of_reverse, elem_of_seq. lia.
Qed.
Lemma longest_spec p l s n : s ∈ l → n ≤ length p → n < length s → starts_with (suffix n p) s = true →
  n ≤ length (longestSecretPrefixSuffix p l).
Proof.
  intros Hin Hn Hs Hpre. unfold longestSecretPrefixSuffix.
  assert (∀ l acc, length acc ≤ length (foldl (λ longest secret, longer_suffix p secret longest) acc l)) as Hmono.
  { clear. induction l as [|t l IH]; intros acc; [done|]. cbn. etrans; [|apply IH]. apply (longer_suffix_spec p t acc 0). }
  generalize (@nil N) as acc. revert Hin. induction l as [|t l IH]; intros Hin acc; [by apply elem_of_nil in Hin|]. cbn.
  apply elem_of_cons in Hin as [<-|Hin]; [|by apply IH]. etrans; [|apply Hmono]. by apply longer_suffix_spec.
Qed.

Lemma safe_end_le p prev : safe_end ss.*1 p prev ≤ length p - length (longestSecretPrefixSuffix p ss.*1).
Proof using Hsep.
  unfold safe_end. etrans; [apply (avoid_matches_clean _ _ _ _ _ bearer_outside)|].
  - apply (avoid_matches_clean _ _ _ _ _ field_outside), avoid_secrets_clean.
  - etrans; [apply (avoid_matches_clean _ _ _ _ _ field_outside), avoid_secrets_clean|]. etrans; [apply avoid_secrets_le|]. lia.
Qed.

Lemma safe_end_whole p prev rest s : s ∈ ss.*1 → let e := safe_end ss.*1 p prev in whole s (take e p) (drop e p ++ rest).
Proof using Hsep.
  intros Hs e x y Heq Hlt. pose proof (safe_end_le p prev) as Hle. fold e in Hle.
  assert (clean p e) as Hc.
  { apply (avoid_matches_clean _ _ _ _ _ bearer_outside), (avoid_matches_clean _ _ _ _ _ field_outside), avoid_secrets_clean. }
  rewrite app_assoc, take_drop in Heq. rewrite length_take in *. replace (e `min` length p) with e in * by lia.
  destruct (decide (length x + length s ≤ length p)) as [Hin|Hout].
  - apply (Hc s); [done| |done]. apply starts_with_iff. exists (drop (length s) (drop (length x) p)).
    rewrite <- (take_drop (length s) (drop (length x) p)) at 1. f_equal.
    apply (f_equal (drop (length x))) in Heq. rewrite drop_app_length, drop_app_le in Heq by lia.
    apply (f_equal (take (length s))) in Heq. rewrite take_app_length, take_app_le in Heq by (rewrite length_drop; lia). exact Heq.
  - exfalso. pose (n := length p - length x). enough (n ≤ length (longestSecretPrefixSuffix p ss.*1)) by lia.
    apply (longest_spec p _ s); [done|lia|lia|]. unfold suffix, n. replace (length p - (length p - length x)) with (length x) by lia.
    apply starts_with_iff. exists (drop n s).
    apply (f_equal (drop (length x))) in Heq. rewrite drop_app_length, drop_app_le in Heq by lia.
    apply (f_equal (take n)) in Heq. rewrite (take_app_le s) in Heq by (unfold n; lia).
    rewrite take_app_le, take_ge in Heq by (rewrite length_drop; unfold n; lia).
    rewrite Heq, take_drop. reflexivity.
Qed.

Lemma safe_end_masks p prev rest : let e := safe_end ss.*1 p prev in
  mask ss (p ++ rest) = mask ss (take e p) ++ mask ss (drop e p ++ rest).
Proof using Hsep.
  intros e. rewrite <- mask_app; [|done|intros s Hs; by apply safe_end_whole]. by rewrite app_assoc, take_drop.
Qed.
End cuts.

(** ** Streams *)

#[local] Opaque maxPendingChars Nat.ltb.
#[local] Arguments safe_end : simpl never.
#[local] Arguments suffix : simpl never.
#[local] Arguments redactWithPreviousCharacter : simpl never.

Lemma last_drop (n : nat) (s : jsstring) : n < length s → last (drop n s) = last s.
Proof. intros H. rewrite !last_lookup, lookup_drop, length_drop. f_equal. lia. Qed.

Definition last_of (before : option N) (s : jsstring) : option N := match last s with Some c => Some c | None => before end.

(** The masked parts of a text, with the tokens in each of them masked after the
    last character of the part before. *)
Fixpoint emitted (before : option N) (masked : list (jsstring * jsstring)) : list jsstring :=
  match masked with
  | [] => []
  | (part, m) :: masked => mask_bearers before (mask_fields before m) :: emitted (last_of before part) masked
  end.

Lemma push_Ok ss chunk st st' output : push ss chunk st = (st', Ok output) →
  let p := pending st ++ chunk in let before := last (previousInputContext st) in let e := safe_end ss.*1 p before in
  closed st = false ∧ closed st' = false ∧ pending st' = drop e p ∧ length (pending st') ≤ maxPendingChars ∧
  last (previousInputContext st') = last_of before (take e p) ∧
  output = redactWithPreviousCharacter ss (take e p) before.
Proof.
  intros H. destruct st as [q cl ctx]. unfold push, assertOpen, emitSafePrefix, mbind, M_bind, get in H. cbn in H.
  destruct cl; [discriminate H|]. cbn in *. set (e := safe_end _ _ _) in *. clearbody e.
  destruct (maxPendingChars <? _) eqn:E; [discriminate H|]. injection H as <- <-. apply Nat.ltb_ge in E. cbn. split_and!; try done.
  unfold last_of. destruct (take e (q ++ chunk)) as [|c g]; [simpl; by destruct (last ctx)|].
  unfold suffix. rewrite last_drop by (rewrite length_app; simpl; unfold keywordCarryChars; lia).
  rewrite last_app. destruct (last (c :: g)) eqn:El; [done|]. by apply last_None in El.
Qed.

Lemma push_Throw ss chunk st st' e : push ss chunk st = (st', Throw e) → closed st = false →
  e = PendingLimitExceeded ∧ st' = mkStream [] true (previousInputContext st') ∧ maxPendingChars < length (pending st ++ chunk).
Proof.
  intros H Hc. destruct st as [q cl ctx]. cbn in Hc. subst cl. unfold push, assertOpen, emitSafePrefix, mbind, M_bind, get in H. cbn in H.
  destruct (maxPendingChars <? _) eqn:E; [|discriminate H]. injection H as <- <-. apply Nat.ltb_lt in E. rewrite length_drop in E. cbn.
  split_and!; [done..|lia].
Qed.

Lemma stream_text_masks ss cs st : separated ss → closed st = false →
  let r := stream_text ss cs st in
  ∃ parts rest, pending st ++ concat cs = concat parts ++ rest ∧
    r.1 = emitted (last (previousInputContext st)) (zip parts (mask ss <$> parts)) ∧
    (r.2 = None ∧ rest = [] ∨ r.2 = Some PendingLimitExceeded ∧ maxPendingChars < length rest) ∧
    mask ss (pending st ++ concat cs) = concat (mask ss <$> parts) ++ mask ss rest.
Proof.
  intros Hsep. revert st. induction cs as [|chunk cs IH]; intros st Hc.
  - cbn. unfold flush, assertOpen, mbind, M_bind, get. cbn. rewrite Hc. cbn. exists [pending st], [].
    cbn. rewrite !app_nil_r. unfold redactWithPreviousCharacter. split_and!; try done; [by left|].
    assert (mask ss [] = []) as ->; [|by rewrite app_nil_r].
    clear. unfold mask. induction ss; simpl; done.
  - cbn. destruct (push ss chunk st) as [st' [output|e]] eqn:E.
    + destruct (push_Ok _ _ _ _ _ E) as (_ & Hc' & Hp & _ & Hl & ->).
      destruct (IH st' Hc') as (parts & rest & Hcat & Hout & Hend & Hmask).
      set (p := pending st ++ chunk) in *. set (before := last (previousInputContext st)) in *.
      set (end_ := safe_end ss.*1 p before) in *. exists (take end_ p :: parts), rest.
      assert (pending st ++ chunk ++ concat cs = take end_ p ++ pending st' ++ concat cs) as Hsplit.
      { rewrite Hp, app_assoc. fold p. by rewrite (app_assoc (take _ _)), take_drop. }
      cbn. rewrite Hsplit, Hcat, Hout, Hl, <- app_assoc. split_and!; try done.
      rewrite <- Hcat, <- Hsplit, app_assoc. fold p. rewrite (safe_end_masks _ Hsep p before). fold end_.
      by rewrite <- Hp, Hmask, <- app_assoc.
    + destruct (push_Throw _ _ _ _ _ E Hc) as (-> & _ & Hlong). exists [], (pending st ++ chunk ++ concat cs). cbn.
      split_and!; try done. right. split; [done|]. rewrite !length_app in *. lia.
Qed.

(** C4: Streams hide secrets. When secrets can be told apart, then however a text
    is cut into chunks, what the stream emits are parts of the text, one after
    the other and without a gap, in each of which the secrets and then the tokens
    are masked; masking the secrets part by part is masking them in the whole
    text; no secret is left; and the stream only gives up when more than 8192
    characters would be held back. *)
Theorem stream_hides_secrets ss cs : separated ss →
  let r := stream_text ss cs createTextStream in
  ∃ parts rest, concat cs = concat parts ++ rest ∧
    r.1 = emitted None (zip parts (mask ss <$> parts)) ∧
    (r.2 = None ∧ rest = [] ∨ r.2 = Some PendingLimitExceeded ∧ 8 * 1024 < length rest) ∧
    mask ss (concat cs) = concat (mask ss <$> parts) ++ mask ss rest ∧
    ∀ s, s ∈ ss.*1 → ¬ occurs s (concat (mask ss <$> parts)).
Proof.
  intros Hsep r. destruct (stream_text_masks ss cs createTextStream Hsep eq_refl) as (parts & rest & Hcat & Hout & Hend & Hmask).
  exists parts, rest. split_and!; try done. intros s Hs (x & y & Heq). eapply (mask_clean ss (concat cs) s Hsep Hs).
  cbn in Hmask. rewrite Hmask, Heq, <- !app_assoc. by exists x, (y ++ mask ss rest).
Qed.

Lemma stream_hides_secrets_witness : ∃ parts rest,
  concat [js "key sk-a1"; js "b2 and hunter"; js "22 are secret"] = concat parts ++ rest ∧ ¬ occurs (js "sk-a1b2") (concat (mask
    [(js "sk-a1b2", js "key"); (js "hunter22", js "pass")] <$> parts)).
Proof.
  destruct (stream_hides_secrets [(js "sk-a1b2", js "key"); (js "hunter22", js "pass")]
              [js "key sk-a1"; js "b2 and hunter"; js "22 are secret"]) as (parts & rest & Hcat & _ & _ & _ & Hno).
  - apply separable_sound. vm_compute. reflexivity.
  - exists parts, rest. split; [exact Hcat|]. apply Hno. left.
Defined.

#[local] Transparent maxPendingChars Nat.ltb.

(** ** Runs

    A text character by character, as redacted in one piece and by the stream. *)

Definition characters (s : jsstring) : list jsstring := (λ c, [c]) <$> s.
Definition streamed (ss : Secrets) (s : jsstring) : jsstring := concat (stream_text ss (characters s) createTextStream).1.

Example streamed_fields : let s := js "x'refresh_token'='SECRET' safe first token=one then api_key=two and Bearer three ending" in
  streamed [] s = redact [] s ∧
  redact [] s = js "xrefresh_token=[redacted:token-field] safe first token=[redacted:token-field] then api_key=[redacted:token-field] and Bearer [redacted] ending".
Proof. split; vm_compute; reflexivity. Qed.

(** A token right after a secret is emitted as it is, since the character before
    it is one of the secret. *)
Example token_after_secret : let ss := [(js "SECRET", js "l")] in let s := js "SECRETtoken=abcdefgh is here for everyone" in
  redact ss s = js "[redacted:l]token=[redacted:token-field] is here for everyone" ∧
  streamed ss s = js "[redacted:l]token=abcdefgh is here for everyone".
Proof. split; vm_compute; reflexivity. Qed.

(** A secret that ends in the name of a token is cut where the token begins. *)
Example secret_with_token : let ss := [(js "my-token", js "l")] in let s := js "my-token=abcdefgh,is here for everyone" in
  redact ss s = js "[redacted:l]=abcdefgh,is here for everyone" ∧
  streamed ss s = js "my-token=[redacted:token-field],is here for everyone".
Proof. split; vm_compute; reflexivity. Qed.

(** Secrets that overlap: avoiding to cut one of them cuts another. *)
Example overlapping_secrets : let ss := [(js "abX", js "1"); (js "Xcd", js "2"); (js "dYZ", js "3")] in
  redact ss (js "abXcdYZ is here for everyone") = js "[redacted:1]c[redacted:3] is here for everyone" ∧
  streamed ss (js "abXcdYZ is here for everyone") = js "abXc[redacted:3] is here for everyone".
Proof. split; vm_compute; reflexivity. Qed.
End Redaction.
