(* ===== verification/ProjectAdmission.v ===== *)
(** * Admission of work to a project

    [src/worker-core/project-control/domain/project-admission.ts]: whether work
    may be created or started in a project, given the debt that was observed in
    it. A role in a request is the string it is; an observation that the runtime
    adapter attributes to a target comes with its scope. The order that
    [localeCompare] puts strings in depends on the locale and is a parameter. *)

From stdpp Require Import base numbers option sets strings list.
From S2P Require Import Prelude Json IntegrationAttempt AccessPaths AccessControl.

Module Admission.
Import Integration (slash, backslash, dot, dotdot, split_slash, ends_slash, no_slash, split_join, split_slash_spec, ends_slash_join, join_elem).
Abbreviation ProjectOperation := Access.ProjectOperation.

(** ** Data *)

Inductive WorkerRole : Set := Producer | Fastgate | Reviewer | IntegrationRole | Adoption | ReadOnlyRole.
Definition role_name (r : WorkerRole) : jsstring :=
  js match r with
     | Producer => "producer" | Fastgate => "fastgate" | Reviewer => "reviewer" | IntegrationRole => "integration"
     | Adoption => "adoption" | ReadOnlyRole => "read_only"
     end.
Definition roles : list WorkerRole := [Producer; Fastgate; Reviewer; IntegrationRole; Adoption; ReadOnlyRole].

Inductive DecisionStatus : Set := Allowed | Denied | AllowedForDrainOnly.
Inductive DecisionReason : Set :=
| ReasonAllowed | OutputDebtPresent | SnapshotUnavailable | ReasonSnapshotStale | UnreadableProjectState | ReasonDiskPressure.

Inductive DebtReason : Set :=
| InactiveDirtyWorkspace | UnconsumedCompletedJob | OrphanLegacyWorkspace | ConsumedDirtyWorkspace
| IncompleteConsumedOutputRecord | RetentionEvidenceMissing | LegacyOutputQuarantineRequired | ActiveWriterConflict
| StaleDirtyWorker | UnreadableRoot | UnreadableWorkspace | SnapshotStale | DiskPressure.
#[global] Instance DebtReason_eq_dec : EqDecision DebtReason.
Proof. solve_decision. Defined.
Definition debt_reason_name (r : DebtReason) : jsstring :=
  js match r with
     | InactiveDirtyWorkspace => "inactive_dirty_workspace" | UnconsumedCompletedJob => "unconsumed_completed_job"
     | OrphanLegacyWorkspace => "orphan_legacy_workspace" | ConsumedDirtyWorkspace => "consumed_dirty_workspace"
     | IncompleteConsumedOutputRecord => "incomplete_consumed_output_record"
     | RetentionEvidenceMissing => "retention_evidence_missing"
     | LegacyOutputQuarantineRequired => "legacy_output_quarantine_required"
     | ActiveWriterConflict => "active_writer_conflict" | StaleDirtyWorker => "stale_dirty_worker"
     | UnreadableRoot => "unreadable_root" | UnreadableWorkspace => "unreadable_workspace"
     | SnapshotStale => "snapshot_stale" | DiskPressure => "disk_pressure"
     end.

Inductive DebtScope : Set := ControlState | RetainedOutputScope.
Definition debt_scope_name (s : DebtScope) : jsstring :=
  js match s with ControlState => "control_state" | RetainedOutputScope => "retained_output" end.
Inductive Severity : Set := Info | Warning | Blocking.
#[global] Instance Severity_eq_dec : EqDecision Severity.
Proof. solve_decision. Defined.
Definition severity_name (s : Severity) : jsstring :=
  js match s with Info => "info" | Warning => "warning" | Blocking => "blocking" end.

Record RetainedOutput : Set := mkRetainedOutput {
  ro_jobId : jsstring; ro_workspacePath : jsstring; ledgerPath : jsstring; ledgerSha256 : jsstring;
  resourcePaths : list jsstring; ro_attemptId : option jsstring }.

Record DebtItem : Set := mkDebt {
  d_scope : option DebtScope; retainedOutput : option RetainedOutput; d_reason : DebtReason; subject : jsstring;
  d_evidence : list jsstring; affectedPaths : option (list jsstring); pathDisjointProducerEligible : bool;
  severity : option Severity }.

Record Counts : Set := mkCounts {
  inactiveDirtyWorkspaces : option Z; unconsumedCompletedJobs : option Z; orphanLegacyWorkspaces : option Z;
  consumedDirtyWorkspaces : option Z; incompleteConsumedOutputRecords : option Z; retentionEvidenceMissing : option Z;
  legacyOutputQuarantineRequired : option Z; activeWriterConflicts : option Z; staleDirtyWorkers : option Z;
  unreadableRoots : option Z; unreadableWorkspaces : option Z; diskPressure : option Z }.

Record RetiredSummary : Set := mkRetired {
  rs_jobId : jsstring; manifestSha256 : jsstring; retainedRegistrationJobId : jsstring; receiptPath : jsstring }.

Record Snapshot : Set := mkSnapshot {
  s_projectId : jsstring; observedAt : jsstring; stale : option bool; unavailable : option bool; debt : list DebtItem;
  retiredLegacyJobSummaries : option (list RetiredSummary); supersededFrozenOutputSummaries : option (list RetiredSummary);
  counts : option Counts }.

Record DebtSummary : Set := mkDebtSummary {
  unreadableProjectState : list DebtItem; staleSnapshot : list DebtItem; diskPressureDebt : list DebtItem;
  blockingAdmissionDebt : list DebtItem; debtCounts : Counts }.

Record Request : Set := mkRequest {
  r_projectId : option jsstring; r_operation : ProjectOperation; r_jobId : option jsstring; r_workspacePath : option jsstring;
  r_workerRole : option jsstring; r_tags : option (list jsstring); r_ownedPaths : option (list jsstring) }.

Inductive AdmissionScope : Set := Target | Project | UnrelatedHistory | Unknown.
#[global] Instance AdmissionScope_eq_dec : EqDecision AdmissionScope.
Proof. solve_decision. Defined.

Record PhysicalRoot : Set := mkPhysicalRoot { device : jsstring; backingPath : jsstring }.
Record ScopedTarget : Set := mkTarget {
  canonicalPath : option jsstring; writableRoots : option (list jsstring);
  physicalWritableRoots : option (list PhysicalRoot); t_ownedPaths : option (list jsstring) }.
Record Backlog : Set := mkBacklog { b_count : Z; preview : list DebtItem }.
Record ScopedContext : Set := mkScoped { target : ScopedTarget; safetyDebt : list DebtItem; backlog : Backlog; sc_scope : AdmissionScope }.
Record Summary : Set := mkSummary { sm_scope : AdmissionScope; sm_target : ScopedTarget; sm_backlog : Backlog }.

Record Decision : Set := mkDecision {
  status : DecisionStatus; allowed : bool; operation : ProjectOperation; reason : DecisionReason;
  projectId : option jsstring; workerRole : WorkerRole; evidence : list jsstring; de_debt : list DebtItem;
  summary : option Summary }.

(** ** Roles *)

Definition isProjectAdmissionWorkerRole (value : jsstring) : option WorkerRole := find (λ r, js_eqb (role_name r) value) roles.

Definition role_tag : jsstring := js "worker-role-".
Definition normalizeProjectAdmissionWorkerRole (value : option jsstring) (tags : list jsstring) : WorkerRole :=
  match truthy_opt value ≫= isProjectAdmissionWorkerRole with
  | Some r => r
  | None =>
      let tagRole := drop (length role_tag) <$> find (starts_with role_tag) (map js_trim tags) in
      default Producer (truthy_opt tagRole ≫= isProjectAdmissionWorkerRole)
  end.

Definition isDrainWorkerRole (r : WorkerRole) : bool := match r with Producer => false | _ => true end.

(** ** Paths *)

Definition control_char (c : N) : bool := (c <=? 31)%N || (c =? 127)%N.
Definition without_slash (p : jsstring) : jsstring := if ends_slash p then removelast p else p.

Definition valid_path (p : jsstring) : bool :=
  truthy p && negb (starts_with [slash] p) && negb (existsb (N.eqb backslash) p) && negb (existsb control_char p) &&
  forallb (λ part, truthy part && negb (js_eqb part dot) && negb (js_eqb part dotdot)) (split_slash (without_slash p)).

Definition validAdmissionPaths (paths : option (list jsstring)) : option (list jsstring) :=
  match paths with
  | Some l => if (0 <? length l)%nat && forallb valid_path l then Some l else None
  | None => None
  end.

Definition path_overlap (l r : jsstring) : bool :=
  let l := without_slash l in let r := without_slash r in
  js_eqb l r || starts_with (r ++ [slash]) l || starts_with (l ++ [slash]) r.
Definition admissionPathsOverlap (left_ right_ : list jsstring) : bool :=
  existsb (λ l, existsb (path_overlap l) right_) left_.

(** The affected paths of debt that a producer with other paths may pass. *)
Definition producerDebtCanBeBypassedByDisjointPaths (item : DebtItem) : option (list jsstring) :=
  match validAdmissionPaths (affectedPaths item) with
  | None => None
  | Some paths =>
      match d_reason item with
      | UnconsumedCompletedJob => Some paths
      | ActiveWriterConflict => if pathDisjointProducerEligible item then Some paths else None
      | _ => None
      end
  end.

Definition producerBlockingAdmissionDebt (role : WorkerRole) (ownedPaths : option (list jsstring)) (d : list DebtItem) : list DebtItem :=
  match role, validAdmissionPaths ownedPaths with
  | Producer, Some owned =>
      List.filter (λ item, match producerDebtCanBeBypassedByDisjointPaths item with
                           | Some affected => admissionPathsOverlap owned affected
                           | None => true
                           end) d
  | _, _ => d
  end.

(** ** Debt *)

Definition of_reason (r : DebtReason) (d : list DebtItem) : list DebtItem := List.filter (λ i, bool_decide (d_reason i = r)) d.
Definition not_info (d : list DebtItem) : list DebtItem := List.filter (λ i, negb (bool_decide (severity i = Some Info))) d.

Definition projectAdmissionDebtCounts (d : list DebtItem) : Counts :=
  let count := λ r, Some (Z.of_nat (length (of_reason r d))) in
  mkCounts (count InactiveDirtyWorkspace) (count UnconsumedCompletedJob) (count OrphanLegacyWorkspace) (count ConsumedDirtyWorkspace)
    (count IncompleteConsumedOutputRecord) (count RetentionEvidenceMissing) (count LegacyOutputQuarantineRequired)
    (count ActiveWriterConflict) (count StaleDirtyWorker) (count UnreadableRoot) (count UnreadableWorkspace) (count DiskPressure).

Definition summarizeProjectAdmissionDebt (d : list DebtItem) : DebtSummary :=
  mkDebtSummary (of_reason UnreadableRoot d) (of_reason SnapshotStale d) (of_reason DiskPressure d) (not_info d) (projectAdmissionDebtCounts d).

(** ** Evaluation *)

Definition is_true (b : option bool) : bool := default false b.

Section evaluate.
Context (request : Request) (role : WorkerRole) (sm : option Summary).
Definition decided (st : DecisionStatus) (ok : bool) (r : DecisionReason) (e : list jsstring) (d : list DebtItem) : Decision :=
  mkDecision st ok (r_operation request) r (r_projectId request) role e d sm.
Definition denied := decided Denied false.
End evaluate.

Definition flat_evidence (d : list DebtItem) : list jsstring := concat (map d_evidence d).

Definition evaluateScopedProjectAdmission (request : Request) (snapshot : option Snapshot) (scoped : ScopedContext) (role : WorkerRole) : Decision :=
  let sm := Some (mkSummary (sc_scope scoped) (target scoped) (backlog scoped)) in
  let denied := denied request role sm in
  match snapshot with
  | None => denied SnapshotUnavailable [js "project admission snapshot is unavailable"] []
  | Some snapshot =>
      if is_true (unavailable snapshot) then denied SnapshotUnavailable [js "project admission snapshot is unavailable"] []
      else if is_true (stale snapshot) then denied ReasonSnapshotStale [js "project admission snapshot is stale"] (safetyDebt scoped)
      else if negb (truthy (default [] (canonicalPath (target scoped)))) || bool_decide (sc_scope scoped = Unknown)
      then denied UnreadableProjectState [js "verified admission target is unavailable"] (safetyDebt scoped)
      else
        let safety := not_info (safetyDebt scoped) in
        let unreadable := of_reason UnreadableRoot safety in
        let pressure := of_reason DiskPressure safety in
        let blocking := List.filter (λ i, negb (bool_decide (d_reason i = SnapshotStale)) && negb (bool_decide (d_reason i = DiskPressure))) safety in
        if (0 <? length unreadable)%nat then denied UnreadableProjectState [js "scoped project state is unreadable"] unreadable
        else if (0 <? length pressure)%nat then denied ReasonDiskPressure [js "scoped project state is under disk pressure"] pressure
        else if (0 <? length blocking)%nat then denied OutputDebtPresent [js "target/resource safety debt is present"] blocking
        else decided request role sm Allowed true ReasonAllowed
               [if 0 <? b_count (backlog scoped) then js "independent target is safe; unrelated backlog is informational"
                else js "independent target is safe"]%Z []
  end.

Definition evaluateUnscoped (request : Request) (snapshot : option Snapshot) (role : WorkerRole) : Decision :=
  let denied := denied request role None in
  match snapshot with
  | None => denied SnapshotUnavailable [js "project admission snapshot is unavailable"] []
  | Some snapshot =>
      if is_true (unavailable snapshot) then denied SnapshotUnavailable [js "project admission snapshot is unavailable"] []
      else
        let debtSummary := summarizeProjectAdmissionDebt (debt snapshot) in
        let unreadable := unreadableProjectState debtSummary in
        let stale_ := staleSnapshot debtSummary in
        let pressure := diskPressureDebt debtSummary in
        if (0 <? length unreadable)%nat then denied UnreadableProjectState (flat_evidence unreadable) unreadable
        else if is_true (stale snapshot) || (0 <? length stale_)%nat then
          denied ReasonSnapshotStale (if (0 <? length stale_)%nat then flat_evidence stale_ else [js "project admission snapshot is stale"]) stale_
        else if (0 <? length pressure)%nat then denied ReasonDiskPressure (flat_evidence pressure) pressure
        else
          let blocking := producerBlockingAdmissionDebt role (r_ownedPaths request) (blockingAdmissionDebt debtSummary) in
          if (length blocking =? 0)%nat then
            decided request role None Allowed true ReasonAllowed
              [if (length (blockingAdmissionDebt debtSummary) =? 0)%nat then js "project admission snapshot has no blocking debt"
               else js "producer owned paths are disjoint from all unconsumed completed output"] []
          else if isDrainWorkerRole role then
            decided request role None AllowedForDrainOnly true OutputDebtPresent
              [js "project output debt exists; only drain/review roles are admitted"] blocking
          else denied OutputDebtPresent [js "project output debt blocks producer work"] blocking
  end.

Definition evaluateProjectAdmission (request : Request) (snapshot : option Snapshot) (scoped : option ScopedContext) : Decision :=
  let role := normalizeProjectAdmissionWorkerRole (r_workerRole request) (default [] (r_tags request)) in
  match scoped with
  | Some scoped => evaluateScopedProjectAdmission request snapshot scoped role
  | None => evaluateUnscoped request snapshot role
  end.

(** ** Fingerprints *)

(** [[^\s]+]: the characters up to the next space, at least one. *)
Fixpoint span_word (s : jsstring) : jsstring * jsstring :=
  match s with
  | c :: s' => if js_space c then ([], s) else let '(w, rest) := span_word s' in (c :: w, rest)
  | [] => ([], [])
  end.
(** [/^availableKb=[^\s]+ (minFreeKb=[^\s]+)$/]. *)
Definition threshold_of (e : jsstring) : option jsstring :=
  let p := js "availableKb=" in
  if starts_with p e then
    match span_word (drop (length p) e) with
    | (_ :: _, 32%N :: rest) =>
        let q := js "minFreeKb=" in
        if starts_with q rest then
          match span_word (drop (length q) rest) with (_ :: _, []) => Some rest | _ => None end
        else None
    | _ => None
    end
  else None.

Definition canonicalProjectAdmissionEvidence (item : DebtItem) : list jsstring :=
  match d_reason item with
  | DiskPressure => Json.sort (map (λ e, default e (threshold_of e)) (d_evidence item))
  | _ => d_evidence item
  end.

(** The JSON text of an object with these fields. *)
Definition json_object (fields : list (string * option jsstring)) : jsstring :=
  js "{" ++ js_join (js ",") (omap (λ '(k, v), (λ v, Json.json_string (js k) ++ js ":" ++ v) <$> v) fields) ++ js "}".
Definition json_strings (l : list jsstring) : jsstring := Json.json_array (map Json.json_string l).
Definition json_retained (o : RetainedOutput) : jsstring :=
  json_object [("jobId", Some (Json.json_string (ro_jobId o))); ("workspacePath", Some (Json.json_string (ro_workspacePath o)));
    ("ledgerPath", Some (Json.json_string (ledgerPath o))); ("ledgerSha256", Some (Json.json_string (ledgerSha256 o)));
    ("resourcePaths", Some (json_strings (resourcePaths o))); ("attemptId", Json.json_string <$> ro_attemptId o)]%string.
Definition canonical_item (i : DebtItem) : jsstring :=
  json_object [("reason", Some (Json.json_string (debt_reason_name (d_reason i)))); ("subject", Some (Json.json_string (subject i)));
    ("severity", Some (Json.json_string (severity_name (default Blocking (severity i)))));
    ("scope", (λ s, Json.json_string (debt_scope_name s)) <$> d_scope i); ("retainedOutput", json_retained <$> retainedOutput i);
    ("evidence", Some (json_strings (canonicalProjectAdmissionEvidence i)));
    ("affectedPaths", (λ l, json_strings (Json.sort l)) <$> affectedPaths i);
    ("pathDisjointProducerEligible", if pathDisjointProducerEligible i then Some (js "true") else None)]%string.

Definition projectAdmissionDebtFingerprint (localeCompare : jsstring → jsstring → Z) (d : list DebtItem) : jsstring :=
  Json.json_array (Json.sort_by (λ a b, localeCompare a b <=? 0)%Z (map canonical_item d)).

(** ** Paths by their segments *)

Abbreviation join := (js_join [slash]).

(** A segment that names an entry of a directory, without control characters. *)
Record plain (s : jsstring) : Prop := {
  pl_slash : slash ∉ s; pl_backslash : backslash ∉ s; pl_control : ∀ c, c ∈ s → ¬ (c ≤ 31 ∨ c = 127)%N;
  pl_empty : s ≠ []; pl_dot : s ≠ js "."; pl_dotdot : s ≠ js ".." }.

(** The relative path of these segments, with a slash at the end or not. *)
Definition names (p : jsstring) (segs : list jsstring) : Prop :=
  segs ≠ [] ∧ Forall plain segs ∧ (p = join segs ∨ p = join segs ++ [slash]).

Lemma plain_no_slash segs : Forall plain segs → Forall no_slash segs.
Proof. intros H. apply (Forall_impl _ _ _ H). by intros s []. Qed.

Lemma names_without_slash p segs : names p segs → without_slash p = join segs.
Proof.
  intros (Hne & Hs & [-> | ->]); unfold without_slash.
  - rewrite ends_slash_join; [done..|]. apply (Forall_impl _ _ _ Hs). by intros s [].
  - unfold ends_slash. rewrite last_snoc, N.eqb_refl. apply removelast_last.
Qed.
Lemma names_split p segs : names p segs → split_slash (without_slash p) = segs.
Proof. intros H. rewrite (names_without_slash _ _ H). destruct H as (? & ? & _). by apply split_join, plain_no_slash. Qed.

Lemma valid_path_spec p : valid_path p = true ↔ ∃ segs, names p segs.
Proof.
  unfold valid_path. rewrite !andb_true_iff, !negb_true_iff, forallb_forall. split.
  - intros ((((Hp & H0) & Hb) & Hc) & Hparts). set (w := without_slash p) in *.
    assert (p = w ∨ p = w ++ [slash]) as Hw.
    { subst w. unfold without_slash, ends_slash. destruct (last p) as [c|] eqn:E; [|by left].
      destruct (N.eqb_spec c slash) as [->|]; [|by left]. apply last_Some in E as [q ->]. right. by rewrite removelast_last. }
    assert (∀ c, c ∈ w → c ∈ p) as Hin by (intros c Hc0; destruct Hw as [E|E]; rewrite E; [done|apply elem_of_app; by left]).
    exists (split_slash w). destruct (split_slash_spec w) as (Hne & Hns & Hel). rewrite Forall_forall in Hns.
    split_and!; [done| |by rewrite AccessPaths.join_split]. apply Forall_forall. intros s Hs.
    assert (∀ c, c ∈ s → c ∈ p) as Hsp by eauto.
    specialize (Hparts s (proj1 (list_elem_of_In _ _) Hs)). rewrite !andb_true_iff, !negb_true_iff, !js_eqb_false in Hparts.
    destruct Hparts as [[Ht Hd] Hdd]. split; try done; [by apply Hns|..].
    + intros Hbs. apply Hsp in Hbs. apply not_true_iff_false in Hb. apply Hb, existsb_exists. exists backslash.
      split; [by apply list_elem_of_In|apply N.eqb_refl].
    + intros c Hcs Hctl. apply Hsp in Hcs. apply not_true_iff_false in Hc. apply Hc, existsb_exists. exists c.
      split; [by apply list_elem_of_In|]. unfold control_char. rewrite orb_true_iff, N.leb_le, N.eqb_eq. done.
    + by intros ->.
  - intros [segs Hn]. pose proof (names_split _ _ Hn) as Hsplit. destruct Hn as (Hne & Hs & Hp). rewrite Hsplit.
    pose proof (proj1 (Forall_forall _ _) Hs) as Hs'.
    assert (∀ c, c ∈ p → c = slash ∨ ∃ s, s ∈ segs ∧ c ∈ s) as Hin.
    { intros c Hc. destruct Hp as [->| ->]; [by apply join_elem|]. apply elem_of_app in Hc as [?|[->|[]%elem_of_nil]%elem_of_cons];
        [by apply join_elem|by left]. }
    assert (∃ c r, p = c :: r ∧ c ≠ slash) as (c0 & r0 & -> & Hc0).
    { destruct segs as [|[|c g] segs]; [done|by destruct (pl_empty _ (Hs' [] ltac:(left; done)))|].
      assert (c ≠ slash) by (intros ->; destruct (Hs' (slash :: g)) as [Hbad]; [left; done|]; apply Hbad; left).
      destruct Hp as [->| ->]; destruct segs; simpl; eauto. }
    split_and!; try done.
    + cbn [starts_with]. by rewrite (proj2 (N.eqb_neq slash c0)) by congruence.
    + apply not_true_iff_false. intros (c & Hc%list_elem_of_In & Heq%N.eqb_eq)%existsb_exists. subst c.
      destruct (Hin _ Hc) as [?|(s & Hss & Hcs)]; [done|]. by destruct (pl_backslash _ (Hs' s Hss)).
    + apply not_true_iff_false. intros (c & Hc%list_elem_of_In & Hctl)%existsb_exists.
      unfold control_char in Hctl. rewrite orb_true_iff, N.leb_le, N.eqb_eq in Hctl.
      destruct (Hin _ Hc) as [->|(s & Hss & Hcs)]; [by destruct Hctl|]. by destruct (pl_control _ (Hs' s Hss) c).
    + intros s Hss%list_elem_of_In. destruct (Hs' s Hss) as [_ _ _ He Hd Hdd].
      rewrite !andb_true_iff, !negb_true_iff, !js_eqb_false. split_and!; [by destruct s|done..].
Qed.

Lemma starts_with_join s t : Forall plain s → Forall plain t → s ≠ [] → t ≠ [] →
  starts_with (join t ++ [slash]) (join s) = true ↔ ∃ r, r ≠ [] ∧ s = t ++ r.
Proof.
  intros Hs%plain_no_slash Ht%plain_no_slash Hsn Htn. rewrite AccessPaths.starts_with_spec. split.
  - intros [u Hu]. rewrite <- app_assoc in Hu. simpl in Hu. apply (f_equal split_slash) in Hu.
    rewrite AccessPaths.split_slash_any, !split_join in Hu by done. exists (split_slash u). split; [|done].
    by destruct (split_slash_spec u).
  - intros (r & Hr & ->). exists (join r). rewrite AccessPaths.join_app by done. by rewrite <- app_assoc.
Qed.

Lemma path_overlap_spec p q s t : names p s → names q t → path_overlap p q = true ↔ s `prefix_of` t ∨ t `prefix_of` s.
Proof.
  intros Hp Hq. unfold path_overlap. rewrite (names_without_slash _ _ Hp), (names_without_slash _ _ Hq).
  destruct Hp as (Hs & Hps & _), Hq as (Ht & Hpt & _).
  rewrite !orb_true_iff, js_eqb_true, !starts_with_join by done. split.
  - intros [[Heq|(r & _ & ->)]|(r & _ & ->)]; [|right; by apply prefix_app_r|left; by apply prefix_app_r].
    apply (f_equal split_slash) in Heq. rewrite !split_join in Heq by (done || by apply plain_no_slash). by left; rewrite Heq.
  - intros [[r ->]|[r ->]]; (destruct r as [|x r]; [left; left; by rewrite app_nil_r|]).
    + right. by exists (x :: r).
    + left; right. by exists (x :: r).
Qed.

(** ** What is admitted *)

(** A list of paths that bounds what is touched. *)
Definition bounding (paths : option (list jsstring)) (l : list jsstring) : Prop :=
  paths = Some l ∧ l ≠ [] ∧ ∀ p, p ∈ l → ∃ segs, names p segs.

(** No path is another one, or below it, or above it. *)
Definition apart (l r : list jsstring) : Prop :=
  ∀ p q s t, p ∈ l → q ∈ r → names p s → names q t → ¬ s `prefix_of` t ∧ ¬ t `prefix_of` s.

(** Debt that a producer with its own paths may leave aside. *)
Definition passable (request : Request) (i : DebtItem) : Prop :=
  (d_reason i = UnconsumedCompletedJob ∨ d_reason i = ActiveWriterConflict ∧ pathDisjointProducerEligible i = true) ∧
  ∃ owned affected, bounding (r_ownedPaths request) owned ∧ bounding (affectedPaths i) affected ∧ apart owned affected.

Lemma validAdmissionPaths_spec paths l : validAdmissionPaths paths = Some l ↔ bounding paths l.
Proof.
  unfold validAdmissionPaths, bounding. destruct paths as [k|]; [|naive_solver].
  destruct ((0 <? length k)%nat && forallb valid_path k) eqn:E.
  - apply andb_true_iff in E as [Hl Hv]. rewrite forallb_forall in Hv. split.
    + intros [= ->]. split_and!; [done|by destruct l|]. intros p Hp%list_elem_of_In. by apply valid_path_spec, Hv.
    + by intros (-> & _).
  - split; [done|]. intros ([= ->] & Hne & Hv). apply andb_false_iff in E as [E|E]; [by destruct l|].
    assert (forallb valid_path l = true); [|congruence]. apply forallb_forall. intros p Hp. by apply valid_path_spec, Hv, list_elem_of_In.
Qed.

Lemma overlap_false owned affected (po qo : option (list jsstring)) : bounding po owned → bounding qo affected →
  admissionPathsOverlap owned affected = false ↔ apart owned affected.
Proof.
  intros (_ & _ & Ho) (_ & _ & Ha). unfold admissionPathsOverlap, apart. rewrite <- not_true_iff_false, existsb_exists. split.
  - intros H p q s t Hp Hq Hs Ht. assert (path_overlap p q ≠ true) as Hno.
    { intros E. apply H. exists p. split; [by apply list_elem_of_In|]. apply existsb_exists. exists q. split; [by apply list_elem_of_In|done]. }
    rewrite (path_overlap_spec _ _ _ _ Hs Ht) in Hno. tauto.
  - intros H (p & Hp%list_elem_of_In & (q & Hq%list_elem_of_In & E)%existsb_exists).
    destruct (Ho p Hp) as [s Hs], (Ha q Hq) as [t Ht]. apply (path_overlap_spec _ _ _ _ Hs Ht) in E. destruct (H p q s t Hp Hq Hs Ht). tauto.
Qed.

Lemma filter_nil {A} (f : A → bool) l : List.filter f l = [] ↔ ∀ x, x ∈ l → f x = false.
Proof.
  induction l as [|a l IH]; simpl; [split; [by intros _ x ?%elem_of_nil|done]|].
  destruct (f a) eqn:E; [split; [done|intros H; specialize (H a ltac:(left; done)); congruence]|]. rewrite IH. set_solver.
Qed.

Lemma bypass_spec request owned i : bounding (r_ownedPaths request) owned →
  match producerDebtCanBeBypassedByDisjointPaths i with Some affected => admissionPathsOverlap owned affected | None => true end = false ↔
  passable request i.
Proof.
  intros Ho. unfold producerDebtCanBeBypassedByDisjointPaths, passable.
  assert ((∃ owned affected, bounding (r_ownedPaths request) owned ∧ bounding (affectedPaths i) affected ∧ apart owned affected) ↔
          match validAdmissionPaths (affectedPaths i) with Some affected => admissionPathsOverlap owned affected = false | None => False end) as ->.
  { destruct (validAdmissionPaths (affectedPaths i)) as [affected|] eqn:E.
    - apply validAdmissionPaths_spec in E. rewrite (overlap_false _ _ _ _ Ho E). split; [|eauto].
      intros (o & a & (Ho' & _) & (Ha' & _) & H). destruct Ho as [Ho _], E as [E _]. by simplify_eq.
    - split; [|done]. intros (o & a & _ & Ha%validAdmissionPaths_spec & _). congruence. }
  destruct (validAdmissionPaths (affectedPaths i)) as [affected|]; [|naive_solver].
  destruct (d_reason i); try naive_solver; destruct (pathDisjointProducerEligible i); naive_solver.
Qed.

Lemma blocking_none request role d : producerBlockingAdmissionDebt role (r_ownedPaths request) d = [] ↔
  d = [] ∨ role = Producer ∧ ∀ i, i ∈ d → passable request i.
Proof.
  unfold producerBlockingAdmissionDebt. destruct role; try (split; [by left|by intros [?|[? _]]]).
  destruct (validAdmissionPaths (r_ownedPaths request)) as [owned|] eqn:E.
  - apply validAdmissionPaths_spec in E. rewrite filter_nil. split.
    + intros H. right. split; [done|]. intros i Hi. by apply (bypass_spec _ owned), H.
    + intros [->|[_ H]] i Hi; [by apply elem_of_nil in Hi|]. by apply (bypass_spec request), H.
  - split; [by left|]. intros [?|[_ H]]; [done|]. destruct d as [|i d]; [done|].
    destruct (H i ltac:(left; done)) as (_ & o & _ & Ho%validAdmissionPaths_spec & _). congruence.
Qed.

Lemma of_reason_nil r d : (0 <? length (of_reason r d))%nat = false ↔ ∀ i, i ∈ d → d_reason i ≠ r.
Proof.
  transitivity (of_reason r d = []); [destruct (of_reason r d); simpl; split; done|].
  unfold of_reason. rewrite filter_nil. by setoid_rewrite bool_decide_eq_false.
Qed.
Lemma not_info_elem i d : i ∈ not_info d ↔ i ∈ d ∧ severity i ≠ Some Info.
Proof. unfold not_info. rewrite !list_elem_of_In, filter_In, negb_true_iff, bool_decide_eq_false. done. Qed.

Lemma is_true_false b : is_true b = false ↔ b ≠ Some true.
Proof. unfold is_true. destruct b as [[]|]; simpl; naive_solver. Qed.

(** A snapshot that can be relied on. *)
Definition current (s : Snapshot) : Prop := unavailable s ≠ Some true ∧ stale s ≠ Some true.

Lemma unscoped_exact request snapshot role : allowed (evaluateUnscoped request snapshot role) = true ↔
  ∃ s, snapshot = Some s ∧ current s ∧
    (∀ i, i ∈ debt s → d_reason i ≠ UnreadableRoot ∧ d_reason i ≠ SnapshotStale ∧ d_reason i ≠ DiskPressure) ∧
    (role = Producer → ∀ i, i ∈ debt s → severity i ≠ Some Info → passable request i).
Proof.
  unfold evaluateUnscoped, current. destruct snapshot as [s|]; [|naive_solver].
  destruct (is_true (unavailable s)) eqn:Eu.
  { split; [done|]. intros (? & [= <-] & [Hu _] & _). apply is_true_false in Hu. congruence. }
  apply is_true_false in Eu. cbn [unreadableProjectState staleSnapshot diskPressureDebt blockingAdmissionDebt summarizeProjectAdmissionDebt].
  destruct (0 <? length (of_reason UnreadableRoot (debt s)))%nat eqn:E1.
  { split; [done|]. intros (? & [= <-] & _ & H & _). apply not_false_iff_true in E1. destruct E1. apply of_reason_nil. intros i Hi. apply (H i Hi). }
  pose proof (proj1 (of_reason_nil _ _) E1) as H1.
  destruct (is_true (stale s) || (0 <? length (of_reason SnapshotStale (debt s)))%nat) eqn:E2.
  { split; [done|]. intros (? & [= <-] & [_ Hst] & H & _). apply orb_true_iff in E2 as [E2|E2].
    - apply is_true_false in Hst. congruence.
    - apply not_false_iff_true in E2. destruct E2. apply of_reason_nil. intros i Hi. apply (H i Hi). }
  apply orb_false_iff in E2 as [Hst%is_true_false H2]. pose proof (proj1 (of_reason_nil _ _) H2) as Hfresh.
  destruct (0 <? length (of_reason DiskPressure (debt s)))%nat eqn:E3.
  { split; [done|]. intros (? & [= <-] & _ & H & _). apply not_false_iff_true in E3. destruct E3. apply of_reason_nil. intros i Hi. apply (H i Hi). }
  pose proof (proj1 (of_reason_nil _ _) E3) as H3.
  transitivity (producerBlockingAdmissionDebt role (r_ownedPaths request) (not_info (debt s)) = [] ∨ isDrainWorkerRole role = true).
  { destruct (producerBlockingAdmissionDebt _ _ _); cbn [length Nat.eqb]; [naive_solver|]. destruct (isDrainWorkerRole role); naive_solver. }
  rewrite blocking_none. split.
  - intros H. exists s. split_and!; try done; [naive_solver|]. intros -> i Hi Hsev.
    destruct H as [[H|[_ H]]|H]; [| |done]; [|by apply H, not_info_elem].
    assert (i ∈ not_info (debt s)) as Hin by (by apply not_info_elem). rewrite H in Hin. by apply elem_of_nil in Hin.
  - intros (? & [= <-] & _ & _ & H). destruct role; [|by right..]. left; right. split; [done|].
    intros i [Hi Hsev]%not_info_elem. by apply H.
Qed.

Lemma scoped_exact request snapshot scoped role : allowed (evaluateScopedProjectAdmission request snapshot scoped role) = true ↔
  ∃ s, snapshot = Some s ∧ current s ∧ (∃ p, canonicalPath (target scoped) = Some p ∧ p ≠ []) ∧ sc_scope scoped ≠ Unknown ∧
    ∀ i, i ∈ safetyDebt scoped → severity i = Some Info ∨ d_reason i = SnapshotStale.
Proof.
  unfold evaluateScopedProjectAdmission, current. destruct snapshot as [s|]; [|naive_solver].
  destruct (is_true (unavailable s)) eqn:Eu.
  { split; [done|]. intros (? & [= <-] & [Hu _] & _). apply is_true_false in Hu. congruence. }
  apply is_true_false in Eu. destruct (is_true (stale s)) eqn:Es.
  { split; [done|]. intros (? & [= <-] & [_ Hu] & _). apply is_true_false in Hu. congruence. }
  apply is_true_false in Es.
  assert (negb (truthy (default [] (canonicalPath (target scoped)))) || bool_decide (sc_scope scoped = Unknown) = false ↔
    (∃ p, canonicalPath (target scoped) = Some p ∧ p ≠ []) ∧ sc_scope scoped ≠ Unknown) as Ht.
  { rewrite orb_false_iff, negb_false_iff, bool_decide_eq_false. destruct (canonicalPath (target scoped)) as [[|c p]|]; naive_solver. }
  destruct (negb _ || _) eqn:Eg; [split; [done|]; intros (_ & _ & _ & Hp & Hn & _); by discriminate (proj2 Ht (conj Hp Hn))|].
  apply proj1 in Ht. specialize (Ht eq_refl). destruct Ht as [Hp Hn]. cbv zeta.
  transitivity (∀ i, i ∈ not_info (safetyDebt scoped) → d_reason i = SnapshotStale).
  - destruct (0 <? length (of_reason UnreadableRoot _))%nat eqn:E1.
    { split; [done|]. intros H. apply not_false_iff_true in E1. destruct E1. apply of_reason_nil. intros i Hi. by rewrite (H i Hi). }
    destruct (0 <? length (of_reason DiskPressure _))%nat eqn:E2.
    { split; [done|]. intros H. apply not_false_iff_true in E2. destruct E2. apply of_reason_nil. intros i Hi. by rewrite (H i Hi). }
    pose proof (proj1 (of_reason_nil _ _) E2) as H2. destruct (List.filter _ _) as [|b bs] eqn:Eb.
    + split; [|done]. intros _ i Hi. pose proof (proj1 (filter_nil _ _) Eb i Hi) as Hf. cbv beta in Hf.
      rewrite (bool_decide_false (d_reason i = DiskPressure)), andb_true_r, negb_false_iff, bool_decide_eq_true in Hf by (by apply H2). done.
    + split; [done|]. intros H. exfalso. assert (b ∈ List.filter (λ i, negb (bool_decide (d_reason i = SnapshotStale)) &&
        negb (bool_decide (d_reason i = DiskPressure))) (not_info (safetyDebt scoped))) as Hin by (rewrite Eb; left).
      apply list_elem_of_In, filter_In in Hin as [Hin%list_elem_of_In Hb]. cbv beta in Hb. by rewrite (H b Hin) in Hb.
  - setoid_rewrite not_info_elem. split.
    + intros H. exists s. split_and!; try done. intros i Hi. destruct (decide (severity i = Some Info)); [by left|right; by apply H].
    + intros (_ & _ & _ & _ & _ & H) i [Hi Hsev]. by destruct (H i Hi).
Qed.

(** C3: What is admitted. Without a scope, work is admitted exactly on a snapshot
    that is available and current and shows no unreadable root, stale state or
    disk pressure, and a producer only if every debt that is not informational can
    be left aside: unconsumed output, or a writer that was observed so, whose
    paths are well formed and neither above nor below nor equal to a path the
    request owns, segment by segment. With a scope, exactly for a known target
    and a current snapshot, when all safety debt of the target is informational or
    says that the state is stale. A request whose role is not known asks as a
    producer. *)
Theorem admission_exact request snapshot scoped :
  allowed (evaluateProjectAdmission request snapshot scoped) = true ↔
  ∃ s, snapshot = Some s ∧ current s ∧
  match scoped with
  | None =>
      (∀ i, i ∈ debt s → d_reason i ≠ UnreadableRoot ∧ d_reason i ≠ SnapshotStale ∧ d_reason i ≠ DiskPressure) ∧
      (normalizeProjectAdmissionWorkerRole (r_workerRole request) (default [] (r_tags request)) = Producer →
       ∀ i, i ∈ debt s → severity i ≠ Some Info → passable request i)
  | Some sc =>
      (∃ p, canonicalPath (target sc) = Some p ∧ p ≠ []) ∧ sc_scope sc ≠ Unknown ∧
      ∀ i, i ∈ safetyDebt sc → severity i = Some Info ∨ d_reason i = SnapshotStale
  end.
Proof. destruct scoped as [sc|]; [apply scoped_exact|apply unscoped_exact]. Qed.

(** ** Runs *)

Definition demo_debt (r : DebtReason) (paths : list string) : DebtItem := mkDebt None None r (js "job") [] (Some (map js paths)) false None.
Definition demo_snapshot (d : list DebtItem) : Snapshot := mkSnapshot (js "p") (js "2026-01-01T00:00:00.000Z") None None d None None None.
Definition demo_request (role : string) (owned : list string) : Request :=
  mkRequest None Access.CreateJob None None (Some (js role)) None (Some (map js owned)).
Definition admitted (role : string) (owned : list string) (d : list DebtItem) : DecisionStatus * DecisionReason :=
  let decision := evaluateProjectAdmission (demo_request role owned) (Some (demo_snapshot d)) None in (status decision, reason decision).

Example admissions :
  (admitted "producer" ["src/a/"] [demo_debt UnconsumedCompletedJob ["src/ab"]],
   admitted "producer" ["src/a/"] [demo_debt UnconsumedCompletedJob ["src/a/b"]],
   admitted "producer" ["src"] [demo_debt UnconsumedCompletedJob ["src/a/b"]],
   admitted "producer" ["../src"] [demo_debt UnconsumedCompletedJob ["lib"]],
   admitted "producer" ["src"] [demo_debt ActiveWriterConflict ["lib"]],
   admitted "reviewer" ["src"] [demo_debt ActiveWriterConflict ["src"]],
   admitted "unknown" ["src"] [demo_debt ActiveWriterConflict ["src"]],
   admitted "reviewer" [] [demo_debt UnreadableRoot []])%string
  = ((Allowed, ReasonAllowed), (Denied, OutputDebtPresent), (Denied, OutputDebtPresent), (Denied, OutputDebtPresent),
     (Denied, OutputDebtPresent), (AllowedForDrainOnly, OutputDebtPresent), (Denied, OutputDebtPresent), (Denied, UnreadableProjectState)).
Proof. vm_compute. reflexivity. Qed.

(** The observed capacity of a disk is not part of a fingerprint, its threshold
    is. *)
Example fingerprint_capacity : let item := λ e, mkDebt None None DiskPressure (js "disk") [js e] None false None in
  let print := λ e, projectAdmissionDebtFingerprint (λ _ _, 0%Z) [item e] in
  print "availableKb=10 minFreeKb=500"%string = print "availableKb=77 minFreeKb=500"%string ∧
  print "availableKb=10 minFreeKb=500"%string ≠ print "availableKb=10 minFreeKb=501"%string.
Proof. split; vm_compute; [reflexivity|discriminate]. Qed.
End Admission.
