(* ===== verification/ProjectBroker.v ===== *)
(** * The broker of project operations

    [src/worker-core/project-control/application/project-control-broker.ts]: the
    operations on jobs, workers, worktrees and branches that an agent of a
    project may ask for, as programs over the calls of the ports. Policy is the
    service of [AccessControl.v]; admission is a port, whose decisions are those
    of [ProjectAdmission.v].

    The publication of an admission runs a callback: it is the call that enters
    it and the call that leaves it. A prepared gate is a number; the gate that
    the broker was given is number 0. A missing gate, coordination, audit or
    optional method is a constant of the model. *)

From stdpp Require Import base numbers option sets strings list.
From S2P Require Import Prelude IsoDate AccessControl ProjectAdmission Programs StatePrograms.

Module Broker.

Record Meta : Set := mkMeta {
  m_jobId : option jsstring; m_workerRole : option jsstring; m_tags : option (list jsstring); m_ownedPaths : option (list jsstring) }.

Record CreateJobInput : Set := mkCreateJob {
  cj_job : Access.JobRequest; promptPath : option jsstring; cj_accounts : option (list jsstring);
  cj_workerRole : option jsstring; cj_tags : option (list jsstring); cj_ownedPaths : option (list jsstring) }.
Inductive MarkerType : Set := ReviewMarker | StopMarker | MaintenancePauseMarker | HandoffMarker.
Record MarkerInput : Set := mkMarker { mk_job : Access.JobRequest; markerType : MarkerType; note : option jsstring }.
Record StartWorkerInput : Set := mkStart { sw_job : Access.JobRequest; sw_meta : Meta; sw_accounts : option (list jsstring) }.
Record CreateWorktreeInput : Set := mkCreateWorktree { cw_worktree : Access.WorktreeRequest; cw_meta : Meta }.
Record WorktreeSource : Set := mkSource { revision : jsstring; sourceRealPath : jsstring }.

Inductive ResultStatus : Set := Applied | Noop.
Record OperationResult : Set := mkResult {
  r_status : ResultStatus; safeMessage : option jsstring; r_admission : option Admission.Summary;
  resourceId : option jsstring; r_evidence : option (list (jsstring * jsstring)) }.

Inductive BrokerError : Set :=
| ControlDenied (d : Access.PolicyDecision) | AdmissionDenied (d : Admission.Decision)
| LaunchPublicationRequired | ResolverUnavailable | InvalidTime | PortFailure (message : jsstring).

(** ** Ports *)

Inductive call : Set :=
| Now
| RecordDecision (occurredAt : jsstring) (op : Access.ProjectOperation) (d : Access.PolicyDecision)
| RecordAdmission (occurredAt : jsstring) (op : Access.ProjectOperation) (d : Admission.Decision)
| PrepareGate (r : Admission.Request) | Evaluate (gate : nat) (r : Admission.Request)
| EnterPublication (op : Access.ProjectOperation) (r : Admission.Request) | LeavePublication
| CreateJob (i : CreateJobInput) | WriteReviewMarker (i : MarkerInput)
| PrepareStartWorker (i : StartWorkerInput) | StartWorker (i : StartWorkerInput) | StopWorker (r : Access.JobRequest)
| ResolveRevision (i : CreateWorktreeInput) | CreateWorktree (i : CreateWorktreeInput)
| IntegrateCommit (r : Access.GitRequest) | PushBranch (r : Access.GitRequest).

Definition answer (c : call) : Type :=
  match c with
  | Now => date
  | PrepareGate _ => nat
  | Evaluate _ _ => Admission.Decision
  | CreateJob _ | WriteReviewMarker _ | StartWorker _ | StopWorker _ | CreateWorktree _ | IntegrateCommit _ | PushBranch _ => OperationResult
  | ResolveRevision _ => WorktreeSource
  | _ => unit
  end.

Abbreviation P := (Stateful BrokerError answer unit).

Record Ports : Set := mkPorts {
  has_admission : bool; has_prepare : bool; has_coordination : bool; has_audit : bool;
  has_prepareStartWorker : bool; has_resolveRevision : bool }.

Section broker.
Context (cwd : jsstring) (ctx : Access.AccessPolicyContext) (ports : Ports).

(** [clock.now().toISOString()]. *)
Definition occurred : P jsstring :=
  now ← await_ Now;
  match now with At t => done_ (IsoDate.toISOString t) | InvalidDate => raise_ InvalidTime end.

Definition authorize (d : Access.PolicyDecision) : P unit :=
  (if has_audit ports then t ← occurred; await_ (RecordDecision t (Access.operation d) d) else done_ tt) ;;
  if Access.allowed d then done_ tt else raise_ (ControlDenied d).

Definition non_empty (v : option jsstring) : option jsstring := truthy_opt v.

(** The request that a gate gets. *)
Definition admission_request (op : Access.ProjectOperation) (jobId workspacePath : option jsstring) (m : Meta) : Admission.Request :=
  Admission.mkRequest None op (non_empty jobId) (non_empty workspacePath) (non_empty (m_workerRole m)) (m_tags m) (m_ownedPaths m).

Definition prepareAdmission (r : Admission.Request) : P (option nat) :=
  if has_admission ports then
    if has_prepare ports then g ← await_ (PrepareGate r); done_ (Some g) else done_ (Some 0%nat)
  else done_ None.

Definition missingAdmissionDecision (r : Admission.Request) : Admission.Decision :=
  Admission.mkDecision Admission.Denied false (Admission.r_operation r) Admission.SnapshotUnavailable None
    (Admission.normalizeProjectAdmissionWorkerRole (Admission.r_workerRole r) (default [] (Admission.r_tags r)))
    [js "project admission gate is not configured"] [] None.

Definition admit_ (r : Admission.Request) (gate : option nat) : P Admission.Decision :=
  decision ← match gate with Some g => await_ (Evaluate g r) | None => done_ (missingAdmissionDecision r) end;
  (if has_audit ports then t ← occurred; await_ (RecordAdmission t (Admission.r_operation r) decision) else done_ tt) ;;
  if Admission.allowed decision then done_ decision else raise_ (AdmissionDenied decision).

Definition withAdmissionPublication {A} (op : Access.ProjectOperation) (r : Admission.Request) (effect : P A) : P A :=
  if has_coordination ports then await_ (EnterPublication op r) ;; finally_ effect (await_ LeavePublication)
  else effect.

Definition withAdmissionSummary (r : OperationResult) (d : Admission.Decision) : OperationResult :=
  match Admission.summary d with
  | Some s => mkResult (r_status r) (safeMessage r) (Some s) (resourceId r) (r_evidence r)
  | None => r
  end.

Definition authorize_accounts (accounts : option (list jsstring)) : P unit :=
  each_ (λ a, authorize (Access.canUseAccount ctx a)) (default [] accounts) ;; done_ tt.

(** ** Operations *)

(** What the publication is asked for: the input as it is. *)
Definition plain_request (op : Access.ProjectOperation) (jobId workspacePath : option jsstring) (m : Meta) : Admission.Request :=
  Admission.mkRequest None op jobId workspacePath (m_workerRole m) (m_tags m) (m_ownedPaths m).

Definition create_meta (i : CreateJobInput) : Meta := mkMeta (Some (Access.jobId (cj_job i))) (cj_workerRole i) (cj_tags i) (cj_ownedPaths i).
Definition job_request (i : CreateJobInput) : Admission.Request :=
  admission_request Access.CreateJob (Some (Access.jobId (cj_job i))) (Access.workspacePath (cj_job i)) (create_meta i).

Definition createJob (i : CreateJobInput) : P OperationResult :=
  authorize (Access.canCreateJob cwd ctx (cj_job i)) ;;
  authorize_accounts (cj_accounts i) ;;
  gate ← prepareAdmission (job_request i);
  withAdmissionPublication Access.CreateJob
    (plain_request Access.CreateJob (Some (Access.jobId (cj_job i))) (Access.workspacePath (cj_job i)) (create_meta i))
    (decision ← admit_ (job_request i) gate;
     r ← await_ (CreateJob i);
     done_ (withAdmissionSummary r decision)).

Definition start_request (i : StartWorkerInput) : Admission.Request :=
  admission_request Access.StartWorker (Some (Access.jobId (sw_job i))) (Access.workspacePath (sw_job i)) (sw_meta i).

Definition startWorker (i : StartWorkerInput) : P OperationResult :=
  authorize (Access.canStartWorker cwd ctx (sw_job i)) ;;
  authorize_accounts (sw_accounts i) ;;
  gate ← prepareAdmission (start_request i);
  if has_prepareStartWorker ports then
    decision ← withAdmissionPublication Access.StartWorker
      (plain_request Access.StartWorker (Some (Access.jobId (sw_job i))) (Access.workspacePath (sw_job i)) (sw_meta i))
      (decision ← admit_ (start_request i) gate;
       await_ (PrepareStartWorker i) ;;
       done_ decision);
    r ← await_ (StartWorker i);
    done_ (withAdmissionSummary r decision)
  else if has_coordination ports then raise_ LaunchPublicationRequired
  else
    decision ← admit_ (start_request i) gate;
    r ← await_ (StartWorker i);
    done_ (withAdmissionSummary r decision).

Definition stopWorker (r : Access.JobRequest) : P OperationResult :=
  authorize (Access.canStopWorker cwd ctx r) ;; await_ (StopWorker r).

Definition worktree_meta (i : CreateWorktreeInput) : Meta :=
  mkMeta (non_empty (m_jobId (cw_meta i))) (non_empty (m_workerRole (cw_meta i))) (m_tags (cw_meta i)) (m_ownedPaths (cw_meta i)).
Definition worktree_request (i : CreateWorktreeInput) : Admission.Request :=
  admission_request Access.CreateWorktree (m_jobId (worktree_meta i)) (Some (Access.wt_path (cw_worktree i))) (worktree_meta i).

Definition createWorktree (i : CreateWorktreeInput) : P OperationResult :=
  authorize (Access.canCreateWorktree cwd ctx (cw_worktree i)) ;;
  gate ← prepareAdmission (worktree_request i);
  withAdmissionPublication Access.CreateWorktree
    (plain_request Access.CreateWorktree (m_jobId (worktree_meta i)) (Some (Access.wt_path (cw_worktree i))) (worktree_meta i))
    (decision ← admit_ (worktree_request i) gate;
     r ← await_ (CreateWorktree i);
     done_ (withAdmissionSummary r decision)).

Definition resolveWorktreeRevision (i : CreateWorktreeInput) : P WorktreeSource :=
  authorize (Access.canCreateWorktree cwd ctx (cw_worktree i)) ;;
  if has_resolveRevision ports then await_ (ResolveRevision i) else raise_ ResolverUnavailable.

Definition writeReviewMarker (i : MarkerInput) : P OperationResult :=
  authorize (Access.canWriteReviewMarker cwd ctx (mk_job i)) ;; await_ (WriteReviewMarker i).
Definition integrateCommit (r : Access.GitRequest) : P OperationResult :=
  authorize (Access.canIntegrateCommit cwd ctx r) ;; await_ (IntegrateCommit r).
Definition pushBranch (r : Access.GitRequest) : P OperationResult :=
  authorize (Access.canPushBranch cwd ctx r) ;; await_ (PushBranch r).
End broker.

Definition projectControlDeniedReason (e : BrokerError) : option Access.AccessDecisionReason :=
  match e with ControlDenied d => Some (Access.reason d) | _ => None end.
Definition projectControlAdmissionDeniedReason (e : BrokerError) : option Admission.DecisionReason :=
  match e with AdmissionDenied d => Some (Admission.reason d) | _ => None end.

(** An operation that is asked for. *)
Inductive Operation : Set :=
| CreateJobOp (i : CreateJobInput) | StartWorkerOp (i : StartWorkerInput) | StopWorkerOp (r : Access.JobRequest)
| CreateWorktreeOp (i : CreateWorktreeInput) | ResolveRevisionOp (i : CreateWorktreeInput) | MarkerOp (i : MarkerInput)
| IntegrateOp (r : Access.GitRequest) | PushOp (r : Access.GitRequest).

Definition operate (cwd : jsstring) (ctx : Access.AccessPolicyContext) (ports : Ports) (o : Operation) : P unit :=
  match o with
  | CreateJobOp i => createJob cwd ctx ports i ;; done_ tt
  | StartWorkerOp i => startWorker cwd ctx ports i ;; done_ tt
  | StopWorkerOp r => stopWorker cwd ctx ports r ;; done_ tt
  | CreateWorktreeOp i => createWorktree cwd ctx ports i ;; done_ tt
  | ResolveRevisionOp i => resolveWorktreeRevision cwd ctx ports i ;; done_ tt
  | MarkerOp i => writeReviewMarker cwd ctx ports i ;; done_ tt
  | IntegrateOp r => integrateCommit cwd ctx ports r ;; done_ tt
  | PushOp r => pushBranch cwd ctx ports r ;; done_ tt
  end.

(** ** What precedes an effect *)

Abbreviation resp := (fallible BrokerError answer).
Abbreviation trace := (history BrokerError answer).

(** Whether the publication of an admission is open. *)
Definition open_after (b : bool) (e : event resp) : bool :=
  match e with
  | Ev c r =>
      match c return resp c → bool with
      | EnterPublication _ _ => λ r, match r with Ok _ => true | Throw _ => b end
      | LeavePublication => λ _, false
      | _ => λ _, b
      end r
  end.
Definition published (h : trace) : bool := foldl open_after false h.

(** Calls that write down what was decided. *)
Definition is_audit (c : call) : bool := match c with Now | RecordDecision _ _ _ | RecordAdmission _ _ _ => true | _ => false end.
Definition is_advice (c : call) : bool := is_audit c || match c with PrepareGate _ | Evaluate _ _ => true | _ => false end.
(** Calls that change the project. *)
Definition is_effect (c : call) : bool :=
  match c with
  | CreateJob _ | WriteReviewMarker _ | StartWorker _ | StopWorker _ | CreateWorktree _ | IntegrateCommit _ | PushBranch _ => true
  | _ => false
  end.
Definition no_effect (h : trace) : Prop := ∀ c x, Ev c x ∈ h → is_effect c = false.

Section guards.
Context (cwd : jsstring) (ctx : Access.AccessPolicyContext) (ports : Ports).

(** The policy grants a request, and that it does is on record. *)
Definition sanctioned (h : trace) (r : Access.Request) : Prop :=
  (Access.boundary ctx = Access.DangerFullAccess ∨ Access.granted cwd ctx r) ∧
  (has_audit ports = true → ∃ t, Ev (RecordDecision t (Access.operation (Access.decide cwd ctx r)) (Access.decide cwd ctx r)) (Ok tt) ∈ h).

(** The last thing that happened, but for the record of it, is that a gate
    admitted the request. *)
Definition just_admitted (h : trace) (r : Admission.Request) : Prop :=
  ∃ g d h1 h2, h = h1 ++ Ev (Evaluate g r) (Ok d) :: h2 ∧ Admission.allowed d = true ∧
    (∀ c x, Ev c x ∈ h2 → is_audit c = true) ∧
    (has_audit ports = true → ∃ t, Ev (RecordAdmission t (Admission.r_operation r) d) (Ok tt) ∈ h2).

Definition guarded (h : trace) (c : call) : Prop :=
  match c with
  | CreateJob i =>
      sanctioned h (Access.CreateJobRequest (cj_job i)) ∧
      (∀ a, a ∈ default [] (cj_accounts i) → sanctioned h (Access.UseAccountRequest a)) ∧
      just_admitted h (job_request i) ∧ published h = has_coordination ports ∧ no_effect h
  | PrepareStartWorker i =>
      sanctioned h (Access.StartWorkerRequest (sw_job i)) ∧
      (∀ a, a ∈ default [] (sw_accounts i) → sanctioned h (Access.UseAccountRequest a)) ∧
      just_admitted h (start_request i) ∧ published h = has_coordination ports ∧ no_effect h
  | StartWorker i =>
      sanctioned h (Access.StartWorkerRequest (sw_job i)) ∧
      (∀ a, a ∈ default [] (sw_accounts i) → sanctioned h (Access.UseAccountRequest a)) ∧
      published h = false ∧ no_effect h ∧
      (just_admitted h (start_request i) ∧ has_coordination ports = false ∨
       ∃ h1 h2, h = h1 ++ Ev (PrepareStartWorker i) (Ok tt) :: h2 ∧ just_admitted h1 (start_request i))
  | CreateWorktree i =>
      sanctioned h (Access.CreateWorktreeRequest (cw_worktree i)) ∧
      just_admitted h (worktree_request i) ∧ published h = has_coordination ports ∧ no_effect h
  | ResolveRevision i => sanctioned h (Access.CreateWorktreeRequest (cw_worktree i))
  | StopWorker r => sanctioned h (Access.StopWorkerRequest r) ∧ no_effect h
  | WriteReviewMarker i => sanctioned h (Access.WriteReviewMarkerRequest (mk_job i)) ∧ no_effect h
  | IntegrateCommit r => sanctioned h (Access.IntegrateCommitRequest r) ∧ no_effect h
  | PushBranch r => sanctioned h (Access.PushBranchRequest r) ∧ no_effect h
  | EnterPublication _ _ => published h = false
  | LeavePublication => published h = true
  | _ => True
  end.

(** A history with advice added. *)
Definition advised (h h' : trace) : Prop := ∃ t, h' = h ++ t ∧ ∀ c x, Ev c x ∈ t → is_advice c = true.

Lemma single_call (c c' : call) (x : resp c) (x' : resp c') : Ev c' x' ∈ [Ev c x] → c' = c.
Proof. intros H%list_elem_of_singleton. exact (f_equal (λ e, match e with Ev c _ => c end) H). Qed.

Lemma advised_refl h : advised h h.
Proof. exists []. rewrite app_nil_r. split; [done|]. by intros c x ?%elem_of_nil. Qed.
Lemma advised_trans h h' h'' : advised h h' → advised h' h'' → advised h h''.
Proof.
  intros (t & -> & Ht) (t' & -> & Ht'). exists (t ++ t'). split; [by rewrite app_assoc|]. intros c x [?|?]%elem_of_app; eauto.
Qed.
Lemma advised_snoc h c x : is_advice c = true → advised h (h ++ [Ev c x]).
Proof. intros Hc. exists [Ev c x]. split; [done|]. intros c' x' H. by rewrite (single_call _ _ _ _ H). Qed.
Lemma advised_in h h' e : advised h h' → e ∈ h → e ∈ h'.
Proof. intros (t & -> & _) H. apply elem_of_app. by left. Qed.
Lemma published_snoc h e : published (h ++ [e]) = open_after (published h) e.
Proof. unfold published. by rewrite foldl_app. Qed.
Lemma advised_published h h' : advised h h' → published h' = published h.
Proof.
  intros (t & -> & Ht). unfold published. rewrite foldl_app. generalize (foldl open_after false h) as b.
  induction t as [|[c x] t IH]; intros b; [done|]. cbn [foldl]. rewrite IH by (intros c' x' ?; apply (Ht c' x'); by right).
  specialize (Ht c x ltac:(left; done)). by destruct c.
Qed.
Lemma advised_no_effect h h' : advised h h' → no_effect h → no_effect h'.
Proof.
  intros (t & -> & Ht) Hn c x [H|H]%elem_of_app; [exact (Hn _ _ H)|]. specialize (Ht c x H). by destruct c.
Qed.
Lemma no_effect_snoc h c x : is_effect c = false → no_effect h → no_effect (h ++ [Ev c x]).
Proof. intros Hc Hn c' x' [H|H]%elem_of_app; [exact (Hn _ _ H)|]. by rewrite (single_call _ _ _ _ H). Qed.
Lemma sanctioned_mono h h' r : (∀ e, e ∈ h → e ∈ h') → sanctioned h r → sanctioned h' r.
Proof. intros Hi [Hg Ha]. split; [done|]. intros H. destruct (Ha H) as [t Ht]. eauto. Qed.

#[local] Hint Resolve advised_refl advised_snoc advised_trans advised_in : core.

Lemma allowed_granted r : Access.allowed (Access.decide cwd ctx r) = true → Access.boundary ctx = Access.DangerFullAccess ∨ Access.granted cwd ctx r.
Proof.
  intros H. destruct (decide (Access.boundary ctx = Access.DangerFullAccess)) as [|Hb]; [by left|right].
  by apply Access.decide_granted in H.
Qed.

(** The time of a record. *)
Lemma occurred_judged h s : traced guarded h s occurred (λ h' _ _, ∃ t, h' = h ++ t ∧ ∀ c x, Ev c x ∈ t → is_audit c = true).
Proof.
  assert (∀ x, ∃ t, h ++ [Ev Now x] = h ++ t ∧ ∀ c y, Ev c y ∈ t → is_audit c = true) as Hx.
  { intros x. exists [Ev Now x]. split; [done|]. intros c y H. by rewrite (single_call _ _ _ _ H). }
  unfold occurred. tstep; [done| |apply Hx]. destruct a; tstep; apply Hx.
Qed.

Lemma authorize_judged h s r : traced guarded h s (authorize ports (Access.decide cwd ctx r))
  (λ h' _ x, advised h h' ∧ ∀ u, x = Ok u → sanctioned h' r).
Proof.
  unfold authorize, sanctioned. apply traced_bind. eapply traced_weaken with (post := λ h' _ x, advised h h' ∧ ∀ u, x = Ok u →
    has_audit ports = true → ∃ t, Ev (RecordDecision t (Access.operation (Access.decide cwd ctx r)) (Access.decide cwd ctx r)) (Ok tt) ∈ h').
  - intros h' s' [u|e] [Ha Hu]; [|done]. destruct (Access.allowed _) eqn:E; tstep; split; try done. intros _ _. split; [by apply allowed_granted|exact (Hu _ eq_refl)].
  - destruct (has_audit ports); [|tstep; split; [done|by intros]]. apply traced_bind. eapply traced_weaken; [|apply occurred_judged].
    intros h' s' [t|e] (t' & -> & Ht); (assert (advised h (h ++ t')) by (exists t'; split; [done|]; intros c x Hc; unfold is_advice; by rewrite (Ht c x Hc))).
    + tstep; [done| |]; (split; [eapply advised_trans; [done|by apply advised_snoc]|]); [|done]. intros u _ _. exists t. destruct a. apply here.
    + split; done.
Qed.

Lemma accounts_judged h s l : traced guarded h s (each_ (λ a, authorize ports (Access.canUseAccount ctx a)) l)
  (λ h' _ x, advised h h' ∧ ∀ u, x = Ok u → ∀ a, a ∈ l → sanctioned h' (Access.UseAccountRequest a)).
Proof.
  revert h s. induction l as [|a l IH]; intros h s; cbn [each_]; [tstep; split; [done|]; by intros _ _ a ?%elem_of_nil|].
  apply traced_bind. eapply traced_weaken; [|apply (authorize_judged h s (Access.UseAccountRequest a))].
  intros h1 s1 [u|e] [H1 Hs]; [|done]. specialize (Hs _ eq_refl). apply traced_bind. eapply traced_weaken; [|apply IH].
  intros h2 s2 [us|e] [H2 Hl]; [|split; [eauto|done]]. tstep. split; [eauto|]. intros _ _ b [->|Hb]%elem_of_cons; [|by eapply Hl].
  eapply sanctioned_mono; [|exact Hs]. eauto.
Qed.

Lemma gate_judged h s r : traced guarded h s (prepareAdmission ports r) (λ h' _ _, advised h h').
Proof. unfold prepareAdmission. repeat (tstep; try done); eauto. Qed.

Lemma admit_judged h s r g : traced guarded h s (admit_ ports r g) (λ h' _ x, advised h h' ∧ ∀ d, x = Ok d → just_admitted h' r).
Proof.
  unfold admit_. destruct g as [g|].
  2:{ tstep. apply traced_bind. eapply traced_weaken with (post := λ h' _ _, advised h h').
      - intros h' s' [u|e] Ha; [|done]. tstep; [discriminate|]. by tstep.
      - destruct (has_audit ports); [|by tstep]. apply traced_bind. eapply traced_weaken; [|apply occurred_judged].
        intros h' s' [t|e] (t' & -> & Ht); (assert (advised h (h ++ t')) by (exists t'; split; [done|]; intros c x Hc; unfold is_advice; by rewrite (Ht c x Hc))); [|done].
        tstep; [done| |]; (eapply advised_trans; [done|by apply advised_snoc]). }
  tstep; [done| |split; [by apply advised_snoc|done]]. rename a into d.
  apply traced_bind. eapply traced_weaken with (post := λ h' _ x, ∃ t, h' = (h ++ [Ev (Evaluate g r) (Ok d)]) ++ t ∧ (∀ c x, Ev c x ∈ t → is_audit c = true) ∧
    ∀ u, x = Ok u → has_audit ports = true → ∃ t', Ev (RecordAdmission t' (Admission.r_operation r) d) (Ok tt) ∈ t).
  - intros h' s' x (t & -> & Ht & Hr). assert (advised h ((h ++ [Ev (Evaluate g r) (Ok d)]) ++ t)) as Hadv.
    { apply (advised_trans _ (h ++ [Ev (Evaluate g r) (Ok d)])); [by apply advised_snoc|]. exists t. split; [done|]. intros c y Hc. unfold is_advice. by rewrite (Ht c y Hc). }
    destruct x as [u|e]; [|done]. destruct (Admission.allowed d) eqn:E; tstep; (split; [done|]); [|done].
    intros d' [= <-]. exists g, d, h, t. rewrite <- app_assoc. split_and!; [done..|]. exact (Hr _ eq_refl).
  - destruct (has_audit ports).
    + apply traced_bind. eapply traced_weaken; [|apply occurred_judged]. intros h' s' [t|e] (t' & -> & Ht); [|exists t'; done].
      assert (∀ x c y, Ev c y ∈ t' ++ [Ev (RecordAdmission t (Admission.r_operation r) d) x] → is_audit c = true) as Hsnoc.
      { intros x c y [Hc|Hc]%elem_of_app; [by eapply Ht|]. by rewrite (single_call _ _ _ _ Hc). }
      tstep; [done| |]; eexists; (split; [by rewrite <- app_assoc|]); (split; [apply Hsnoc|]); [|done].
      intros u _ _. exists t. destruct a. apply here.
    + tstep. exists []. rewrite app_nil_r. split_and!; [done| |by intros]. by intros c x ?%elem_of_nil.
Qed.

(** What runs in a publication, and what holds of its end. *)
Lemma publication_judged {A} h s op r (effect : P A) (Q : trace → result BrokerError A → Prop) :
  published h = false → no_effect h →
  (∀ h' s', (∀ e, e ∈ h → e ∈ h') → no_effect h' → published h' = has_coordination ports →
     traced guarded h' s' effect (λ h'' _ x, published h'' = has_coordination ports ∧ Q h'' x)) →
  (∀ h' x y, Q h' x → Q (h' ++ [Ev LeavePublication y]) x) → (∀ h' e, Q h' (Throw e)) →
  traced guarded h s (withAdmissionPublication ports op r effect) (λ h' _ x, published h' = false ∧ Q h' x).
Proof.
  intros Hp Hn He Hl Ht. unfold withAdmissionPublication. destruct (has_coordination ports) eqn:Ec.
  - tstep; [done| |split; [by rewrite published_snoc|done]]. apply traced_finally. eapply traced_weaken; [|apply He].
    + intros h' s' x [Hp' Hq]. tstep; [done| |]; (split; [by rewrite published_snoc|]); [by apply Hl|done].
    + intros e Hin. apply elem_of_app. by left.
    + by apply no_effect_snoc.
    + by rewrite published_snoc.
  - eapply traced_weaken; [|by apply He]. done.
Qed.

(** Operations leave no publication open. *)
Abbreviation closed_after := (λ (h : trace) (_ : unit) _, published h = false).

(** The start of an operation: what the policy grants. *)
Lemma authorized_start {A} r (f : unit → P A) :
  (∀ h s, advised [] h → sanctioned h r → traced guarded h s (f tt) closed_after) →
  traced guarded [] tt (authorize ports (Access.decide cwd ctx r) ≫= f) closed_after.
Proof.
  intros Hf. apply traced_bind. eapply traced_weaken; [|apply authorize_judged].
  intros h s [[]|e] [Ha Hs]; [by apply Hf, (Hs tt)|]. exact (advised_published _ _ Ha).
Qed.

Lemma empty_no_effect h : advised [] h → no_effect h.
Proof. intros H. apply (advised_no_effect _ _ H). by intros c x ?%elem_of_nil. Qed.

(** An operation with one call. *)
Lemma single_judged {A} r c (f : answer c → P A) : is_effect c = true →
  (∀ h, sanctioned h r → no_effect h → guarded h c) → (∀ x h s, published h = false → traced guarded h s (f x) closed_after) →
  traced guarded [] tt (authorize ports (Access.decide cwd ctx r) ;; (x ← await_ c; f x)) closed_after.
Proof.
  intros He Hg Hf. apply authorized_start. intros h s Ha Hs.
  assert (∀ x, published (h ++ [Ev c x]) = false) as Hp.
  { intros x. rewrite published_snoc, (advised_published _ _ Ha). by destruct c. }
  tstep; [by apply Hg; [|apply empty_no_effect]|by apply Hf|apply Hp].
Qed.

(** Accounts and admission, after the policy. *)
Lemma accounts_start {A} h s r l (f : unit → P A) : advised [] h → sanctioned h r →
  (∀ h' s, advised [] h' → sanctioned h' r → (∀ a, a ∈ default [] l → sanctioned h' (Access.UseAccountRequest a)) →
     traced guarded h' s (f tt) closed_after) →
  traced guarded h s (authorize_accounts ctx ports l ≫= f) closed_after.
Proof.
  intros Ha Hs Hf. unfold authorize_accounts. tstep. apply traced_bind. eapply traced_weaken; [|apply accounts_judged].
  intros h' s' [u|e] [H' Hl]; [|exact (advised_published _ _ (advised_trans _ _ _ Ha H'))]. tstep.
  apply Hf; [by eapply advised_trans|by eapply sanctioned_mono, Hs; intros; eapply advised_in|by eapply Hl].
Qed.

Lemma prepare_start {A} h s q (f : option nat → P A) : advised [] h →
  (∀ g h' s, advised h h' → traced guarded h' s (f g) closed_after) →
  traced guarded h s (prepareAdmission ports q ≫= f) closed_after.
Proof.
  intros Ha Hf. apply traced_bind. eapply traced_weaken; [|apply gate_judged].
  intros h' s' [g|e] H'; [by apply Hf|]. exact (advised_published _ _ (advised_trans _ _ _ Ha H')).
Qed.

(** An effect in a publication, right after its admission. *)
Lemma admitted_effect {A} h s q g c (f : Admission.Decision → answer c → A) : is_effect c = true ∨ (∃ i, c = PrepareStartWorker i) →
  published h = has_coordination ports →
  (∀ h', advised h h' → just_admitted h' q → guarded h' c) →
  traced guarded h s (d ← admit_ ports q g; x ← await_ c; done_ (f d x))
    (λ h' _ x, published h' = has_coordination ports ∧
       ∀ v, x = Ok v → ∃ h1 y, h' = h1 ++ [Ev c (Ok y)] ∧ advised h h1 ∧ just_admitted h1 q).
Proof.
  intros He Hp Hg. apply traced_bind. eapply traced_weaken; [|apply admit_judged].
  intros h' s' [d|e] [Ha Hj]; [|split; [by rewrite (advised_published _ _ Ha)|done]]. specialize (Hj _ eq_refl).
  assert (∀ x, published (h' ++ [Ev c x]) = has_coordination ports) as Hp'.
  { intros x. rewrite published_snoc, (advised_published _ _ Ha), Hp. destruct He as [He|[i ->]]; [by destruct c|done]. }
  tstep; [by apply Hg| |split; [apply Hp'|done]]. tstep. split; [apply Hp'|]. eauto.
Qed.

Lemma create_judged i : traced guarded [] tt (createJob cwd ctx ports i) closed_after.
Proof.
  unfold createJob. apply (authorized_start (Access.CreateJobRequest (cj_job i))). intros h s Ha Hs.
  apply (accounts_start _ _ _ _ _ Ha Hs). intros h1 s1 H1 Hs1 Hl. apply prepare_start; [done|]. intros g h2 s2 H2.
  pose proof (advised_trans _ _ _ H1 H2) as H02.
  eapply traced_weaken; [|apply (publication_judged _ _ _ _ _ (λ _ _, True))]; try done.
  - by intros h' s' x [? _].
  - exact (advised_published _ _ H02).
  - by apply empty_no_effect.
  - intros h3 s3 Hin Hn Hp. eapply traced_weaken; [|apply admitted_effect; [by left|done|]]; [by intros h' s' x [? _]|].
    intros h4 H4 Hj. assert (∀ e, e ∈ h1 → e ∈ h4) by (intros e Hin1; exact (advised_in _ _ _ H4 (Hin _ (advised_in _ _ _ H2 Hin1)))).
    split_and!; [by apply (sanctioned_mono h1)|intros a Hacc; by apply (sanctioned_mono h1); [|apply Hl]|done
      |by rewrite (advised_published _ _ H4)|by eapply advised_no_effect].
Qed.

Lemma worktree_judged i : traced guarded [] tt (createWorktree cwd ctx ports i) closed_after.
Proof.
  unfold createWorktree. apply (authorized_start (Access.CreateWorktreeRequest (cw_worktree i))). intros h1 s1 H1 Hs1.
  apply prepare_start; [done|]. intros g h2 s2 H2. pose proof (advised_trans _ _ _ H1 H2) as H02.
  eapply traced_weaken; [|apply (publication_judged _ _ _ _ _ (λ _ _, True))]; try done.
  - by intros h' s' x [? _].
  - exact (advised_published _ _ H02).
  - by apply empty_no_effect.
  - intros h3 s3 Hin Hn Hp. eapply traced_weaken; [|apply admitted_effect; [by left|done|]]; [by intros h' s' x [? _]|].
    intros h4 H4 Hj. split_and!; [|done|by rewrite (advised_published _ _ H4)|by eapply advised_no_effect].
    apply (sanctioned_mono h1); [|done]. intros e Hin1. exact (advised_in _ _ _ H4 (Hin _ (advised_in _ _ _ H2 Hin1))).
Qed.

(** A launch that was published: the worker is prepared and nothing else was
    changed. *)
Definition launch_published (i : StartWorkerInput) (h0 h : trace) : Prop :=
  (∀ e, e ∈ h0 → e ∈ h) ∧ no_effect h ∧
  ∃ h1 h2, h = h1 ++ Ev (PrepareStartWorker i) (Ok tt) :: h2 ∧ just_admitted h1 (start_request i).

Lemma start_judged i : traced guarded [] tt (startWorker cwd ctx ports i) closed_after.
Proof.
  unfold startWorker. apply (authorized_start (Access.StartWorkerRequest (sw_job i))). intros h s Ha Hs.
  apply (accounts_start _ _ _ _ _ Ha Hs). intros h1 s1 H1 Hs1 Hl. apply prepare_start; [done|]. intros g h2 s2 H2.
  pose proof (advised_trans _ _ _ H1 H2) as H02. pose proof (advised_published _ _ H02) as Hp2. cbn in Hp2.
  assert (∀ h', (∀ e, e ∈ h2 → e ∈ h') → sanctioned h' (Access.StartWorkerRequest (sw_job i)) ∧
            ∀ a, a ∈ default [] (sw_accounts i) → sanctioned h' (Access.UseAccountRequest a)) as Hsan.
  { intros h' Hin. split; [|intros a Hacc]; (apply (sanctioned_mono h1); [|done || by apply Hl]);
      intros e Hin1; exact (Hin _ (advised_in _ _ _ H2 Hin1)). }
  destruct (has_prepareStartWorker ports).
  - apply traced_bind. eapply traced_weaken;
      [|apply (publication_judged _ _ _ _ _ (λ h' x, ∀ d, x = Ok d → launch_published i h2 h'))]; try done.
    + intros h3 s3 [d|e] [Hp3 Hq]; [|done]. destruct (Hq d eq_refl) as (Hin & Hn & Hpub). destruct (Hsan _ Hin).
      assert (∀ x, published (h3 ++ [Ev (StartWorker i) x]) = false) as Hp by (intros x; by rewrite published_snoc).
      tstep; [split_and!; auto| |apply Hp]. tstep. apply Hp.
    + by apply empty_no_effect.
    + intros h3 s3 Hin Hn Hp. eapply traced_weaken; [|apply (admitted_effect _ _ _ _ _ (λ d _, d)); [right; by eexists|done|]].
      * intros h' s' x [Hp' Hx]. split; [done|]. intros d Hd. destruct (Hx d Hd) as (h4 & [] & -> & H4 & Hj). split_and!.
        -- intros e He. apply elem_of_app. left. exact (advised_in _ _ _ H4 (Hin _ He)).
        -- apply no_effect_snoc; [done|]. by eapply advised_no_effect.
        -- by exists h4, [].
      * intros h4 H4 Hj. destruct (Hsan h4) as [? ?]; [intros e He; exact (advised_in _ _ _ H4 (Hin _ He))|].
        split_and!; try done; [by rewrite (advised_published _ _ H4)|by eapply advised_no_effect].
    + intros h' x y Hq d Hd. destruct (Hq d Hd) as (Hin & Hn & ha & hb & -> & Hj). split_and!.
      * intros e He. apply elem_of_app. left. by apply Hin.
      * by apply no_effect_snoc.
      * exists ha, (hb ++ [Ev LeavePublication y]). by rewrite <- app_assoc.
  - destruct (has_coordination ports) eqn:Ec; [by tstep|]. apply traced_bind. eapply traced_weaken; [|apply admit_judged].
    intros h3 s3 [d|e] [H3 Hj]; [|by rewrite (advised_published _ _ H3)]. specialize (Hj d eq_refl).
    assert (∀ x, published (h3 ++ [Ev (StartWorker i) x]) = false) as Hp.
    { intros x. by rewrite published_snoc, (advised_published _ _ H3). }
    destruct (Hsan h3) as [? ?]; [intros e; by apply advised_in|].
    tstep; [|tstep; apply Hp|apply Hp]. split_and!; [done|done| | |by left].
    + by rewrite (advised_published _ _ H3).
    + eapply advised_no_effect; [done|]. by apply empty_no_effect.
Qed.

Lemma operate_judged o : traced guarded [] tt (operate cwd ctx ports o) closed_after.
Proof.
  assert (∀ {A} (m : P A), traced guarded [] tt m closed_after → traced guarded [] tt (m ;; done_ tt) closed_after) as Hdone.
  { intros A m Hm. apply traced_bind. eapply traced_weaken; [|exact Hm]. by intros h' s' [a|e] Hp; [tstep|]. }
  destruct o; cbn [operate].
  - apply Hdone, create_judged.
  - apply Hdone, start_judged.
  - unfold stopWorker. tstep. by apply (single_judged (Access.StopWorkerRequest r)).
  - apply Hdone, worktree_judged.
  - unfold resolveWorktreeRevision. tstep. apply (authorized_start (Access.CreateWorktreeRequest (cw_worktree i))). intros h s Ha Hs.
    pose proof (advised_published _ _ Ha) as Hp. tstep.
    + tstep; [done| |by rewrite published_snoc]. tstep. by rewrite published_snoc.
    + by tstep.
  - unfold writeReviewMarker. tstep. by apply (single_judged (Access.WriteReviewMarkerRequest (mk_job i))).
  - unfold integrateCommit. tstep. by apply (single_judged (Access.IntegrateCommitRequest r)).
  - unfold pushBranch. tstep. by apply (single_judged (Access.PushBranchRequest r)).
Qed.

(** C2: What the broker does. Whatever the ports answer or throw, it makes at most
    one change to the project per operation, which the policy grants, account by
    account, with the decisions on record; a job, a worktree and a launch are
    only made or published after a gate admitted exactly this request, with
    nothing in between but the record of it, inside the publication where there is
    coordination; a worker is started outside of it, after its launch was
    published when the supervisor can publish, and not at all when coordination
    asks for a publication the supervisor cannot make; and no publication is left
    open. *)
Theorem broker_guarded o tr s r : runs (operate cwd ctx ports o tt) tr (s, r) →
  published tr = false ∧ ∀ tr1 c x tr2, tr = tr1 ++ Ev c x :: tr2 →
  match c with
  | CreateJob i =>
      sanctioned tr1 (Access.CreateJobRequest (cj_job i)) ∧
      (∀ a, a ∈ default [] (cj_accounts i) → sanctioned tr1 (Access.UseAccountRequest a)) ∧
      just_admitted tr1 (job_request i) ∧ published tr1 = has_coordination ports ∧ no_effect tr1
  | PrepareStartWorker i =>
      sanctioned tr1 (Access.StartWorkerRequest (sw_job i)) ∧
      (∀ a, a ∈ default [] (sw_accounts i) → sanctioned tr1 (Access.UseAccountRequest a)) ∧
      just_admitted tr1 (start_request i) ∧ published tr1 = has_coordination ports ∧ no_effect tr1
  | StartWorker i =>
      sanctioned tr1 (Access.StartWorkerRequest (sw_job i)) ∧
      (∀ a, a ∈ default [] (sw_accounts i) → sanctioned tr1 (Access.UseAccountRequest a)) ∧
      published tr1 = false ∧ no_effect tr1 ∧
      (just_admitted tr1 (start_request i) ∧ has_coordination ports = false ∨
       ∃ h1 h2, tr1 = h1 ++ Ev (PrepareStartWorker i) (Ok tt) :: h2 ∧ just_admitted h1 (start_request i))
  | CreateWorktree i =>
      sanctioned tr1 (Access.CreateWorktreeRequest (cw_worktree i)) ∧
      just_admitted tr1 (worktree_request i) ∧ published tr1 = has_coordination ports ∧ no_effect tr1
  | ResolveRevision i => sanctioned tr1 (Access.CreateWorktreeRequest (cw_worktree i))
  | StopWorker q => sanctioned tr1 (Access.StopWorkerRequest q) ∧ no_effect tr1
  | WriteReviewMarker i => sanctioned tr1 (Access.WriteReviewMarkerRequest (mk_job i)) ∧ no_effect tr1
  | IntegrateCommit q => sanctioned tr1 (Access.IntegrateCommitRequest q) ∧ no_effect tr1
  | PushBranch q => sanctioned tr1 (Access.PushBranchRequest q) ∧ no_effect tr1
  | _ => True
  end.
Proof.
  intros Hr. destruct (traced_runs _ _ _ _ _ _ _ (operate_judged o) Hr) as [Hp Hg]. split; [done|].
  intros tr1 c x tr2 E. pose proof (Hg tr1 c x tr2 E) as H. by destruct c.
Qed.
End guards.

(** ** A run *)

Module Demo.

(** A broker with every port, whose gate evaluates a snapshot. *)
Definition demo_ports : Ports := mkPorts true false true true true true.
Definition demo_ctx : Access.AccessPolicyContext := Access.mkContext Access.ProjectScopedControl
  (Some (Access.mkScope (js "p") None None (Some [js "/w"]) None None None None (Some [js "job-"]) None None None None None)).

Definition handle (snapshot : Admission.Snapshot) (c : call) (s : unit) : resp c * unit :=
  match c return resp c * unit with
  | Now => (Ok (At 0), s)
  | PrepareGate _ => (Ok 0%nat, s)
  | Evaluate _ r => (Ok (Admission.evaluateProjectAdmission r (Some snapshot) None), s)
  | CreateJob _ | WriteReviewMarker _ | StartWorker _ | StopWorker _ | CreateWorktree _ | IntegrateCommit _ | PushBranch _ =>
      (Ok (mkResult Applied None None None None), s)
  | ResolveRevision _ => (Ok (mkSource [] []), s)
  | _ => (Ok tt, s)
  end.

Definition start (owned : list string) : Operation :=
  StartWorkerOp (mkStart (Access.mkJobRequest (js "job-1") None (Some (js "/w/a")) None None)
    (mkMeta None (Some (js "producer")) None (Some (map js owned))) (Some [js "acc"])).
Definition snapshot : Admission.Snapshot :=
  Admission.demo_snapshot [Admission.demo_debt Admission.UnconsumedCompletedJob ["src/a"]%string].

Inductive step : Set := SRecord | SGate (allowed : bool) | SEnter | SLeave | SPrepare | SStart | SOther.
Definition step_of (e : event resp) : step :=
  match e with
  | Ev c r =>
      match c return resp c → step with
      | RecordDecision _ _ _ | RecordAdmission _ _ _ => λ _, SRecord
      | Evaluate _ _ => λ r, SGate (match r with Ok d => Admission.allowed d | Throw _ => false end)
      | EnterPublication _ _ => λ _, SEnter | LeavePublication => λ _, SLeave
      | PrepareStartWorker _ => λ _, SPrepare | StartWorker _ => λ _, SStart
      | _ => λ _, SOther
      end r
  end.
Definition steps (o : Operation) : list step :=
  map step_of (exec_trace (handle snapshot) (operate [] demo_ctx demo_ports o tt) tt).

Example start_published : steps (start ["src/b"]%string) =
  [SOther; SRecord; SOther; SRecord; SEnter; SGate true; SOther; SRecord; SPrepare; SLeave; SStart].
Proof. vm_compute. reflexivity. Qed.
Example start_refused : steps (start ["src"]%string) = [SOther; SRecord; SOther; SRecord; SEnter; SGate false; SOther; SRecord; SLeave].
Proof. vm_compute. reflexivity. Qed.

Definition started : list (event resp) := exec_trace (handle snapshot) (operate [] demo_ctx demo_ports (start ["src/b"]%string) tt) tt.

Lemma broker_guarded_witness : published started = false ∧ ∃ h1 h2,
  started = h1 ++ Ev (StartWorker (mkStart (Access.mkJobRequest (js "job-1") None (Some (js "/w/a")) None None)
    (mkMeta None (Some (js "producer")) None (Some [js "src/b"])) (Some [js "acc"]))) (Ok (mkResult Applied None None None None)) :: h2 ∧
  no_effect h1.
Proof.
  destruct (broker_guarded [] demo_ctx demo_ports (start ["src/b"]%string) started tt
              (exec (handle snapshot) (operate [] demo_ctx demo_ports (start ["src/b"]%string) tt) tt).1.2) as [Hp H].
  - unfold started. pose proof (exec_runs (handle snapshot) (operate [] demo_ctx demo_ports (start ["src/b"]%string) tt) tt) as Hr.
    destruct (exec _ _ _).1 as [[] x]. exact Hr.
  - split; [exact Hp|]. exists (take 10 started), []. assert (started = take 10 started ++ drop 10 started) as Hs by (by rewrite take_drop).
    match goal with |- _ = take 10 started ++ ?e :: [] ∧ _ => assert (drop 10 started = [e]) as Hd by (vm_compute; reflexivity) end.
    rewrite Hd in Hs. split; [exact Hs|]. destruct (H _ _ _ _ Hs) as (_ & _ & _ & Hn & _). exact Hn.
Defined.
End Demo.
End Broker.
